(* ===== verification/_CoqProject ===== *)
-Q . S2P
Prelude.v
Counting.v
GoStd.v
GoText.v
Base64.v
VerdictCache.v
Effort.v
TopMatch.v
Flight.v
ScanVerdict.v
ClientVerdict.v
ScanFlow.v
ScanServer.v
ClientServer.v
ScanSystem.v
IcapWire.v
Icap.v
IcapServe.v
IcapEcho.v
IcapConn.v
RuleOwners.v
GoRegexp.v
DecodeRuns.v
DecodeRegexp.v
Retained.v
DecodeFold.v
DecodeWalk.v
DecodePlay.v
DecodePrefilter.v
DecodeTree.v
DecodeComplete.v
DecodeExample.v
RarSolid.v
Sniff.v
Cab.v
Batch.v
BatchScript.v
Screnc.v
ArchiveState.v
Carriers.v
Archive.v
ArchiveLogic.v
ArchiveComplete.v
ArchiveExample.v
ScanExample.v
ServerExample.v
IcapExample.v
CapeTypes.v
CapeJob.v
CapeJson.v
CapeStore.v
CapeLogic.v
CapeInv.v
CapeLifecycle.v
CapeSubmission.v
CapeReport.v
CapeReads.v
CapeIngress.v
CapeAdmission.v
CapeRecovery.v
CapeCallback.v
CapeScheduler.v
CapeClient.v
CapeApi.v
CapeSystem.v
CapeExample.v
