(* ===== verification/Prelude.v ===== *)
(** * Mailstrix verification library

    A model of the parts of mailstrix (Go) that decide what happens to a
    message: the scan of a body, from the bytes a client sends to the verdict
    it reads ([src/internal/mailstrix], [src/internal/extract],
    [src/internal/verdict]), and the CAPE sandbox job system
    ([src/internal/cape]).  Every definition is a function the kernel
    evaluates, or a step relation over such functions; every theorem is about
    them.

    ** The program and how its parts interact

    A body reaches the scanner over /scan or ICAP.  The server looks it up in
    the verdict cache under a key, coalesces concurrent scans of the same key,
    and lets one caller scan with the limits of the effort profile.  The scan
    leases the current compiled rules, extracts streams and markers from the
    body (containers are unpacked, encoded text is decoded layer by layer,
    under one ledger of retained output), scans the raw bytes and every stream
    under one deadline, consults the feeds, and filters the matches into a
    verdict.  The client turns the answer into an action.

    Separately, an attachment can be submitted to a CAPE sandbox as a job.
    The HTTP API admits it (ingress: reserve a row, write the body to the spool
    without the store lock, publish), a scheduler begins submission attempts
    and polls through the client, whose answers the store records; callbacks
    wake a poll; maintenance expires and removes jobs; a start reconciles rows
    and spool.

    ** Files: shared

    - [Prelude]: instants, 64-bit words, errors, tactics, shared lemmas.
      [Counting]: sums over finite maps, for resources goroutines hold.
    - Go's standard library as far as the source computes with it: [GoStd]
      ([encoding/hex], decimal conversions, IEEE [float64]), [GoText]
      ([strings], [unicode/utf8]), [Base64], [GoRegexp] ([regexp], with its
      search order).

    ** Files: one scan

    - [ScanVerdict] (scanner.go: metadata, tags, deny list, verdict;
      verdict.go), [ScanFlow] (scanner.go, scan_extracted.go, extmismatch.go,
      extraction_memory.go: one scan), [RuleOwners] (generation.go,
      rule_generations.go and the reload and close paths of scanner.go).
    - [VerdictCache] (cache.go), [Flight] (flight.go), [Effort] (effort.go, the
      effort bounds of config.go, [autoEnvDefault] of server.go), [TopMatch]
      (topmatch.go).
    - [ScanServer] (server.go, cape_scan.go), [ClientVerdict]
      (internal/verdict), [ScanSystem] (client, server and scan composed).
    - icap.go: [IcapWire] (readers and replies as bytes), [Icap] (handlers and
      the loop of a connection), [IcapServe] and [IcapEcho] (what they
      guarantee), [IcapConn] (accept loop, slots, drain).
    - Closed instances: [ScanExample], [ServerExample], [IcapExample].

    ** Files: extraction

    - [Retained] (retained.go, markers.go, the exit of extract.go): the ledger
      and the two channels of a result.
    - decode.go and defang.go: [DecodeRuns] (run decoders), [DecodeFold] (VBA
      expressions), [DecodeWalk] (the walk through layers); about them,
      [DecodeRegexp], [DecodePlay], [DecodePrefilter], [DecodeTree],
      [DecodeComplete]; closed instances in [DecodeExample].
    - [RarSolid] (rarsolid.go): whether a RAR archive is solid.  [Sniff]: what
      a buffer is taken for (magic numbers, [classifyMIMEMessage]).  [Cab]
      (cab.go: headers, folders, files), [Screnc] (script.go: the decoder),
      [Batch] (batcarve.go: the parser of batch droppers).
    - [ArchiveState]: the state of the walk through a request's files, its monad,
      its caps and the outside world.  [Carriers] (lnk.go, onenote.go, tnef.go,
      csv_dde.go): the formats whose extractor is a walk of its own.
    - [Archive] (archive.go, archivepw.go, nested.go, archiveworker.go, the walk
      of cab.go, mime.go and script.go): the walk through nested carriers from
      the dispatch of [ExtractWithOptions] down; [ArchiveLogic] (what every
      step of it keeps), [ArchiveComplete] (its theorems), [ArchiveExample]
      (closed instances).

    ** Files: the sandbox

    - [CapeTypes] (data of store.go, client.go and identifier checks),
      [CapeJob] (the pure job updates of every CAPE file, and their contract
      [legal] and [job_inv]), [CapeJson] (protocol.go: documents),
      [CapeStore] (store.go, store_files_linux.go: tables, spool, effects),
      [CapeLogic] (the program logic [wp]), [CapeInv] (the invariant [Inv] and
      the relations [updates] and [evolves] an operation stays in).
    - One file per Go file over these: [CapeLifecycle] (lifecycle.go),
      [CapeSubmission] and [CapeRecovery] (store_state.go), [CapeReport]
      (transitions.go, mapper.go), [CapeReads] (scheduler_store.go),
      [CapeIngress] (store_ingress.go) with its contract in [CapeAdmission],
      [CapeCallback] (callback.go), [CapeScheduler] (scheduler.go),
      [CapeClient] (client.go and the calls of protocol.go), [CapeApi] (api.go).
    - [CapeSystem]: operations composed in any order and nested where the code
      leaves the lock free.  [CapeExample]: an instance of every interface and
      the life of one job; the closed instances of the CAPE theorems.

    ** How state and effects correspond

    A store operation is [M A := St → Src → res A * St * Src].  [St] holds the
    SQLite tables, the spool directory and the in-memory fields of [Store];
    [Src] the answers of the outside world: clock readings, random bytes,
    volume capacity and the outcome of every call that can fail.  A
    transaction that fails, or whose commit fails, restores the tables but not
    the spool; a commit may also be reported as failed and have happened.
    Where the code releases [Store.mu] ([writeIngress], [CompleteReport], between
    the steps of the scheduler) the operation takes an argument [others], any
    computation that respects the interface ([respectful], [evolves]); in
    [CapeSystem] it is a list of operations, nested to any depth.  Callback
    transactions take no [Store.mu] in Go; SQLite serialises them (one
    connection), so they too are single steps.

    Concurrency elsewhere is a step relation: [Flight] (callers of one
    flight group), [RuleOwners] (requests, native scanners, reloads and a
    close over reference counts), [IcapConn] (accept loop, connections,
    shutdown).  One action is one critical section, atomic operation or
    channel operation of the code, and the theorems hold for every
    interleaving.

    The scan asks an interface for everything outside the repository or not
    modelled: [ScanEnv] and [TextEnv] (clock, libyara, extractor, feeds,
    URL parsing), [IcapAnswers] (slots, scans, clock of a connection).  What it
    asked of libyara is recorded in a list of calls, which the theorems read.
    The decoders take two parameters: [late], the answer of the deadline at each
    reading, and the hash of a text; they hand results to an [emit] that may
    refuse one, and publish through the ledger of [Retained].

    The archive walk is a computation [M A := AState → option A * AState] over
    the result, the shared budget and the count of questions asked of the
    outside; [None] is a Go panic, which [recovered] turns into [a_panicked].
    [RequestEnv] answers each question (the clock, the outcome of a decoder's
    worker); [ArchiveLibs] are the container libraries: a reader is the bytes
    it delivers and how it ends (end of file, an error, a panic).  A RAR archive
    opened twice shows the same headers; [TnefLib] is the TNEF decoder.
    [Extractors] are the extractors left open (OLE, OOXML, PDF, RTF, SYLK, HTML,
    the text of launcher files, MSIX manifests), each given the walk of its
    children, and [ExtractorsOk] says what the walk relies on: they only add to
    the result.

    A buffer of the extractor is an address with its bytes: the code trusts a
    marker by the identity of its buffer, so the model keeps identities.

    ** What the theorems show

    - One scan: [scan_misses_nothing], [scan_reports_only], as a lemma
      [scan_within_deadline]; the server caches and answers only with complete
      verdicts ([scan_fn_certifies], [verdict_key_separates],
      [handleScan_guards]); the clients read them as they were meant
      ([Scan_result_iff], [filename_roundtrip]); together
      [clean_answer_means_scanned].
    - ICAP: [icap_clean_means_scanned], [chunked_roundtrip], [echo_unchanged],
      [connection_answers], [connections_bounded], [stop_drains].
    - Rules are destroyed when, and only when, nobody uses them:
      [rules_outlive_their_users], [retired_rules_freed].
    - Extraction: [retained_within_limit], [markers_have_provenance]; the
      decoders find what the regular expressions they replaced find
      ([scans_are_regexps]), the prefilter skips nothing up to its window
      ([prefilter_strict]), the walk ends within its budgets
      ([decode_pass_bounded], [decoding_ends]) and reaches everything hidden
      under the permitted layers ([decoding_complete]); [solidity_read].
    - Archives: [nothing_inside_is_missed] (every readable member at every depth
      is published, or a stop is on record), [archive_walk_bounded] (the walk
      and the password attempts end), [dropped_files_recovered] (a batch dropper
      does not hide the files it writes), as a lemma [probe_agrees] (the depth
      check and the carver of batch scripts agree).  [grows] is the contract of every step:
      streams, cap hits, refusals and panics on record are never taken back.
    - Cache and coalescing: [lru_refines], [single_leader]; as lemmas,
      [follower_outcome], the size estimate, the authenticated Redis values and the
      breaker, the effort bounds, and the counters.
    - The store: [system_safe] (the invariant and the life cycle of every id
      under any composition), [enqueue_admits], [Maintain_evolves],
      [BeginSubmission_begins], [RecordSubmission_classifies],
      [CompleteReport_outcome], [recover_reconciles].  [wp] quantifies over
      every [Src], so they cover every failure, and it states that the operation
      ends.  Its clients: [ServeHTTP_isolated], [receive_accepted],
      [persistPendingContext_keeps], [run_iteration_bounded],
      [Submit_conservative], [jsonDocument_roundtrip].

    ** Bounds and fuel

    The JSON parser recurses with [fuel_for], twice the number of tokens plus
    one: each call consumes a token.  [dispatch_loop] gets one round per job,
    [evict_loop] one per element, the bucket loop of the size estimate 64
    rounds (the count doubles).  The readers of icap.go and the scans of the
    decoders get one round per byte of their input, the decode walk
    [walk_fuel] rounds ([decoding_ends]: every round takes an item off a
    worklist that can only hold so many).  [extractChild] gets a level per
    depth still open and one for the depth stop, [walkMIMEEntity] likewise
    ([archive_walk_bounded]), the blocks of an encoded script a round per byte
    ([script_blocks_fuel]); the loops over the objects of a OneNote section and the
    formulas of a spreadsheet take at least a byte off their input each round,
    and [maxCSVCellsPerLine] bounds the cells of a record.  Backtracking in [GoRegexp] uses the
    length of its input.  The theorems show that these are enough.  Effort
    levels are quantified over [1, 10], the ceiling of config.go, by
    evaluation.  Machine arithmetic wraps or saturates where the Go code's
    can: counters, sizes and [strconv] are at their width.

    ** Choices

    - Instants and durations are integers inside [UnixNano]'s range, [Version]
      and [Attempts] (one step per stored update) are unbounded integers.
    - A [Job] returned next to a non-nil error, which no caller reads, is not
      represented; an unknown state in a document counts as undecodable.
    - JSON encoding of jobs and results, SHA-256, HMAC, media types, URLs and
      [http.ParseTime] are interface parameters ([CapeEnv], [CallbackEnv],
      [ResultEnv], [RedisEnv]) with their documented laws as [...Ok] classes,
      instantiated in the examples.  The JSON model starts at the tokens.
    - SQL results without ORDER BY come in any fixed order; Go's map order is
      an argument.  The spool holds regular files.  Slices are a backing array
      and a length, [nil] is the empty one.  [strings.EqualFold] is on ASCII.
      Floating point is rounded after every operation (no fused multiply-add).
    - The filter of a base64 part ([base64Filter]) is applied to the whole part,
      so whether it saw an invalid byte covers bytes after the padding too.
    - A connection of the ICAP service is the bytes that arrive on it and the
      time each read takes; a write succeeds or fails as a whole.

    ** Not modelled

    System calls and process start-up (openStore's pragmas, directory
    permissions, statfs), libyara and its native memory beyond the lifetime of
    rules, the sockets under net/http, the text of /metrics and /version, the
    clamd framing, downloads of rules and feeds with their signatures and file
    locks, and the command-line programs.  Of [src/internal/extract], the parsers
    of the other document formats (OLE, OOXML, PDF, HTML, RTF, SYLK, MSIX) are
    operations of [Extractors] in the archive walk; the slots and
    gauges of the worker pool are the outcomes of [RequestEnv].  The scan itself
    asks [ScanEnv] for the extractor's answer: arbitrary streams and markers. *)

From Stdlib Require Import ZArith Lia.
From Stdlib Require Ascii String.
From stdpp Require Import base gmap strings list sorting numbers.

Declare Scope mailstrix_scope.
Delimit Scope mailstrix_scope with mx.

Local Open Scope Z_scope.

(** ** Instants and durations

    [time.Time] is the number of nanoseconds since Go's zero time
    (January 1, year 1, UTC), so the zero value is 0; [time.Duration] is a
    number of nanoseconds.  Instants stay inside the range of [UnixNano]
    (years 1678 to 2262), where neither conversion wraps. *)
Abbreviation Time := Z.
Abbreviation Duration := Z.

Definition second : Duration := 1000000000.
Definition minute : Duration := 60 * second.
Definition hour : Duration := 60 * minute.

(** Seconds between year 1 and 1970, in nanoseconds. *)
Definition unix_epoch : Time := 62135596800 * second.

Definition IsZero (t : Time) : bool := t =? 0.
Definition Before (t u : Time) : bool := t <? u.
Definition After (t u : Time) : bool := u <? t.
Definition UnixNano (t : Time) : Z := t - unix_epoch.
Definition time_Unix0 (ns : Z) : Time := ns + unix_epoch.

Lemma time_Unix0_UnixNano t : time_Unix0 (UnixNano t) = t.
Proof. unfold time_Unix0, UnixNano. lia. Qed.

Lemma UnixNano_time_Unix0 n : UnixNano (time_Unix0 n) = n.
Proof. unfold time_Unix0, UnixNano. lia. Qed.

(** ** 64-bit machine words *)
Definition uint64_max : Z := 18446744073709551615.
Definition int64_max : Z := 9223372036854775807.
Definition int64_min : Z := -9223372036854775808.

(** ** Errors

    [ECode c d] is [&Error{Code: c, RetryAfter: d}] of the [cape] package,
    the four constants are its sentinel errors and [EOther] is any other
    error value (one returned by a caller-supplied function). *)
Inductive error :=
  | ECode (code : string) (retryAfter : Duration)
  | ErrStoreUnavailable
  | ErrQuota
  | ErrConflict
  | ErrClock
  | EOther.

#[export] Instance error_eq_dec : EqDecision error.
Proof. solve_decision. Defined.

Abbreviation cerr c := (ECode c 0).

Inductive res (A : Type) :=
  | Ok (a : A)
  | Err (e : error).
Arguments Ok {A} a.
Arguments Err {A} e.

#[export] Instance res_eq_dec `{EqDecision A} : EqDecision (res A).
Proof. solve_decision. Defined.

Definition is_ok {A} (r : res A) : bool := match r with Ok _ => true | Err _ => false end.

(** ** Tactics *)

(** Split every conjunction and existential of the context. *)
Ltac destr_conj :=
  repeat match goal with
  | H : _ ∧ _ |- _ => destruct H
  | H : ∃ _, _ |- _ => destruct H
  end.

(** Turn boolean tests of the context into propositions. *)
Ltac bool_hyps :=
  repeat match goal with
  | H : (_ && _) = true |- _ => apply andb_true_iff in H; destruct H
  | H : (_ || _) = false |- _ => apply orb_false_iff in H; destruct H
  | H : negb _ = true |- _ => apply negb_true_iff in H
  | H : negb _ = false |- _ => apply negb_false_iff in H
  | H : (_ <? _)%Z = true |- _ => apply Z.ltb_lt in H
  | H : (_ <? _)%Z = false |- _ => apply Z.ltb_ge in H
  | H : (_ <=? _)%Z = true |- _ => apply Z.leb_le in H
  | H : (_ <=? _)%Z = false |- _ => apply Z.leb_gt in H
  | H : (_ =? _)%Z = true |- _ => apply Z.eqb_eq in H
  | H : (_ =? _)%Z = false |- _ => apply Z.eqb_neq in H
  | H : bool_decide _ = true |- _ => apply bool_decide_eq_true in H
  | H : bool_decide _ = false |- _ => apply bool_decide_eq_false in H
  end.

(** ** Lists *)

(** Membership as a boolean, for lists that the code scans. *)
Definition mem `{EqDecision A} (x : A) (l : list A) : bool := bool_decide (x ∈ l).

Lemma mem_true `{EqDecision A} (x : A) l : mem x l = true ↔ x ∈ l.
Proof. unfold mem. apply bool_decide_eq_true. Qed.

Lemma mem_false `{EqDecision A} (x : A) l : mem x l = false ↔ x ∉ l.
Proof. unfold mem. apply bool_decide_eq_false. Qed.

(** Sum of a measure over a list. *)
Definition sumZ {A} (f : A → Z) (l : list A) : Z := foldr (λ x acc, f x + acc) 0 l.

Lemma sumZ_cons {A} (f : A → Z) x l : sumZ f (x :: l) = f x + sumZ f l.
Proof. done. Qed.

Lemma sumZ_app {A} (f : A → Z) l1 l2 : sumZ f (l1 ++ l2) = sumZ f l1 + sumZ f l2.
Proof. induction l1 as [|x l1 IH]; simpl; [done|]. fold (sumZ f l1). unfold sumZ in *. simpl. lia. Qed.

Lemma sumZ_permutation {A} (f : A → Z) l1 l2 : l1 ≡ₚ l2 → sumZ f l1 = sumZ f l2.
Proof. induction 1; unfold sumZ in *; simpl; lia. Qed.

#[export] Instance sumZ_proper {A} (f : A → Z) : Proper ((≡ₚ) ==> (=)) (sumZ f).
Proof. intros l1 l2. apply sumZ_permutation. Qed.

Lemma sumZ_nonneg {A} (f : A → Z) l : (∀ x, x ∈ l → 0 ≤ f x) → 0 ≤ sumZ f l.
Proof.
  induction l as [|x l IH]; intros H; [done|]. rewrite sumZ_cons.
  pose proof (H x (list_elem_of_here _ _)).
  assert (0 ≤ sumZ f l) by (apply IH; intros y ?; apply H; by constructor). lia.
Qed.

Lemma filter_none {A} (P : A → Prop) `{∀ x, Decision (P x)} (l : list A) : (∀ x, x ∈ l → ¬ P x) → filter P l = [].
Proof.
  induction l as [|x l IH]; intros HP; [done|]. rewrite filter_cons, decide_False by (apply HP; left).
  apply IH. intros. apply HP. by right.
Qed.

Lemma filter_all {A} (P : A → Prop) `{∀ x, Decision (P x)} (l : list A) : (∀ x, x ∈ l → P x) → filter P l = l.
Proof.
  induction l as [|x l IH]; intros HP; [done|]. rewrite filter_cons, decide_True by (apply HP; left).
  f_equal. apply IH. intros. apply HP. by right.
Qed.

Lemma filter_one {A} (P : A → Prop) `{∀ x, Decision (P x)} (l : list A) x :
  x ∈ l → P x → (∀ y, y ∈ l → P y → y = x) → NoDup l → filter P l = [x].
Proof.
  induction l as [|y l IH]; intros Hx HP Hu Hnd; [by apply elem_of_nil in Hx|].
  apply list.NoDup_cons in Hnd as [Hy Hnd]. rewrite filter_cons. case_decide as Hd.
  - assert (y = x) as -> by (apply Hu; [left|done]). f_equal.
    apply filter_none. intros z Hz HPz. assert (z = x) as -> by (apply Hu; [by right|done]). done.
  - apply elem_of_cons in Hx as [->|Hx]; [done|]. apply IH; auto.
    intros z Hz. apply Hu. by right.
Qed.

(** ** Byte strings *)

(** [len s] of the code. *)
Definition len (s : string) : Z := Z.of_nat (Stdlib.Strings.String.length s).

Lemma len_nonneg s : 0 ≤ len s.
Proof. unfold len. lia. Qed.

(** The code unit of a character. *)
Definition byte (c : Ascii.ascii) : Z := Z.of_N (Stdlib.Strings.Ascii.N_of_ascii c).

(** [strings.All] over the bytes of a string. *)
Fixpoint string_forallb (f : Ascii.ascii → bool) (s : string) : bool :=
  match s with
  | EmptyString => true
  | String c s => f c && string_forallb f s
  end.

(** Strict byte-wise order, Go's [<] on strings and SQLite's BINARY collation. *)
Definition str_lt (a b : string) : bool := Stdlib.Strings.String.ltb a b.

Create HintDb mx discriminated.
Create Rewrite HintDb mx.
#[export] Hint Rewrite time_Unix0_UnixNano UnixNano_time_Unix0 : mx.
#[export] Hint Resolve len_nonneg : mx.
