(* ===== verification/Counting.v ===== *)
(** * Sums over finite maps

    Resources that goroutines hold are counted by summing over the map of the
    holders; shared by the components that hand out slots and references. *)

From Stdlib Require Import ZArith Lia.
From stdpp Require Import base gmap list numbers.
From S2P Require Import Prelude.

Local Open Scope Z_scope.

Definition b2z (b : bool) : Z := if b then 1 else 0.

Lemma b2z_nonneg b : 0 <= b2z b.
Proof. by destruct b. Qed.

Section Sums.
Context `{Countable K} {A : Type}.
Implicit Types (f : A → Z) (m : gmap K A).

Definition gsum f m : Z := map_fold (λ _ x n, f x + n) 0 m.

Lemma gsum_insert f m k x : m !! k = None → gsum f (<[k := x]> m) = f x + gsum f m.
Proof. intros Hk. unfold gsum. rewrite map_fold_insert_L; [done|intros; lia|done]. Qed.

Lemma gsum_delete f m k x : m !! k = Some x → gsum f (delete k m) = gsum f m - f x.
Proof.
  intros Hk. assert (gsum f m = f x + gsum f (delete k m)) as ->; [|lia].
  rewrite <- (insert_delete_id m k x Hk) at 1. apply gsum_insert, lookup_delete_eq.
Qed.

Lemma gsum_update f m k x y : m !! k = Some x → gsum f (<[k := y]> m) = gsum f m - f x + f y.
Proof.
  intros Hk. pose proof (gsum_delete f m k x Hk) as Hd. pose proof (gsum_insert f (delete k m) k y (lookup_delete_eq _ _)) as Hi.
  rewrite insert_delete_eq in Hi. lia.
Qed.

Lemma gsum_nonneg f m : (∀ x, 0 <= f x) → 0 <= gsum f m.
Proof. intros Hf. induction m as [|k x m Hk IH] using map_ind; [done|]. rewrite gsum_insert by done. pose proof (Hf x). lia. Qed.

(** One holder is part of the sum. *)
Lemma gsum_lookup f m k x : (∀ x, 0 <= f x) → m !! k = Some x → f x <= gsum f m.
Proof. intros Hf Hk. pose proof (gsum_delete f m k x Hk). pose proof (gsum_nonneg f (delete k m) Hf). lia. Qed.

Lemma gsum_le f g m : (∀ x, f x <= g x) → gsum f m <= gsum g m.
Proof. intros Hf. induction m as [|k x m Hk IH] using map_ind; [done|]. rewrite !gsum_insert by done. pose proof (Hf x). lia. Qed.

Lemma gsum_zero f m : (∀ k x, m !! k = Some x → f x = 0) → gsum f m = 0.
Proof.
  intros Hf. induction m as [|k x m Hk IH] using map_ind; [done|]. rewrite gsum_insert by done.
  rewrite (Hf k x), IH; [done| |apply lookup_insert_eq]. intros k' x' Hk'. apply (Hf k'). rewrite lookup_insert_ne; [done|]. congruence.
Qed.

Lemma gsum_add f g m : gsum (λ x, f x + g x) m = gsum f m + gsum g m.
Proof. induction m as [|k x m Hk IH] using map_ind; [done|]. rewrite !gsum_insert by done. lia. Qed.

(** How many holders [P] selects. *)
Definition held (P : A → bool) m : Z := gsum (λ x, b2z (P x)) m.

Lemma held_nonneg (P : A → bool) m : 0 <= held P m.
Proof. apply gsum_nonneg. intros x. apply b2z_nonneg. Qed.

Lemma held_zero m : held (λ _, true) m = 0 → m = ∅.
Proof.
  destruct m as [|k x m Hk _] using map_ind; [done|]. unfold held. rewrite gsum_insert by done. pose proof (held_nonneg (λ _ : A, true) m). unfold held in *. cbn in *. lia.
Qed.

Lemma held_insert (P : A → bool) m k x : m !! k = None → held P (<[k := x]> m) = b2z (P x) + held P m.
Proof. apply gsum_insert. Qed.

Lemma held_delete (P : A → bool) m k x : m !! k = Some x → held P (delete k m) = held P m - b2z (P x).
Proof. apply gsum_delete. Qed.

Lemma held_update (P : A → bool) m k x y : m !! k = Some x → held P (<[k := y]> m) = held P m - b2z (P x) + b2z (P y).
Proof. apply gsum_update. Qed.

End Sums.

(** Occurrences in a list. *)
Definition cnt (o : nat) (l : list nat) : Z := sumZ (λ x, b2z (bool_decide (x = o))) l.

Lemma cnt_nonneg o l : 0 <= cnt o l.
Proof. apply sumZ_nonneg. intros. apply b2z_nonneg. Qed.

Lemma cnt_cons o x l : cnt o (x :: l) = b2z (bool_decide (x = o)) + cnt o l.
Proof. done. Qed.

Lemma cnt_app o l1 l2 : cnt o (l1 ++ l2) = cnt o l1 + cnt o l2.
Proof. apply sumZ_app. Qed.

Lemma b2z_same (o : nat) : b2z (bool_decide (o = o)) = 1.
Proof. by rewrite bool_decide_eq_true_2. Qed.

Lemma b2z_other (o x : nat) : x ≠ o → b2z (bool_decide (x = o)) = 0.
Proof. intros Hne. by rewrite bool_decide_eq_false_2. Qed.

Lemma cnt_in o l : o ∈ l ↔ 0 < cnt o l.
Proof.
  induction l as [|x l IH]; [by rewrite elem_of_nil|]. rewrite elem_of_cons, cnt_cons, IH. pose proof (cnt_nonneg o l).
  destruct (decide (x = o)) as [->|Hne]; [rewrite b2z_same; split; [lia|by left]|].
  rewrite b2z_other by done. split; [intros [->|?]; [done|lia]|right; lia].
Qed.

Lemma cnt_nil o : cnt o [] = 0.
Proof. done. Qed.

(** A positive sum has a positive summand. *)
Lemma gsum_pos `{Countable K} {A} (f : A → Z) (m : gmap K A) : 0 < gsum f m → ∃ k x, m !! k = Some x ∧ 0 < f x.
Proof.
  induction m as [|k x m Hk IH] using map_ind; [done|]. rewrite gsum_insert by done. intros Hs.
  destruct (Z_lt_dec 0 (f x)) as [Hf|Hf]; [exists k, x; by rewrite lookup_insert_eq|].
  destruct IH as (k' & x' & Hk' & Hf'); [lia|]. exists k', x'. split; [|done]. rewrite lookup_insert_ne; [done|]. congruence.
Qed.
