(* ===== verification/GoStd.v ===== *)
(** * The parts of Go's standard library the source computes with

    [encoding/hex] and the decimal conversions of [strconv], as functions on
    byte strings, with the lemmas the components share. *)

From Stdlib Require Import ZArith Lia SpecFloat.
From Stdlib Require Ascii String.
From stdpp Require Import base gmap strings list pretty numbers.
From S2P Require Import Prelude.

Local Open Scope Z_scope.

(** ** [encoding/hex] *)

Definition lower_hex (c : Ascii.ascii) : bool :=
  let b := byte c in ((48 <=? b) && (b <=? 57)) || ((97 <=? b) && (b <=? 102)).

(** Value of one hexadecimal digit; both cases are accepted on input. *)
Definition hex_val (c : Ascii.ascii) : option Z :=
  let b := byte c in
  if (48 <=? b) && (b <=? 57) then Some (b - 48)
  else if (97 <=? b) && (b <=? 102) then Some (b - 87)
  else if (65 <=? b) && (b <=? 70) then Some (b - 55)
  else None.

Definition hex_digit (n : Z) : Ascii.ascii :=
  Stdlib.Strings.Ascii.ascii_of_N (Z.to_N (if n <? 10 then n + 48 else n + 87)).

Definition ascii_of_Z (n : Z) : Ascii.ascii := Stdlib.Strings.Ascii.ascii_of_N (Z.to_N n).

Definition nul : string := String Ascii.zero EmptyString.

(** [hex.EncodeToString] *)
Fixpoint hex_encode (s : string) : string :=
  match s with
  | EmptyString => EmptyString
  | String c s => String (hex_digit (byte c / 16)) (String (hex_digit (byte c mod 16)) (hex_encode s))
  end.

(** [hex.DecodeString]: [None] is its error (odd length or a bad digit). *)
Fixpoint hex_decode (s : string) : option string :=
  match s with
  | EmptyString => Some EmptyString
  | String _ EmptyString => None
  | String a (String b s) =>
      match hex_val a, hex_val b, hex_decode s with
      | Some x, Some y, Some t => Some (String (ascii_of_Z (16 * x + y)) t)
      | _, _, _ => None
      end
  end.

(** [strings.ToLower] on ASCII letters; other bytes are unchanged (hex
    strings are the only inputs whose result the code uses). *)
Fixpoint to_lower (s : string) : string :=
  match s with
  | EmptyString => EmptyString
  | String c s =>
      let b := byte c in
      String (if (65 <=? b) && (b <=? 90) then ascii_of_Z (b + 32) else c) (to_lower s)
  end.

(** ** [strconv] *)

Definition digit_val (c : Ascii.ascii) : option Z :=
  let b := byte c in if (48 <=? b) && (b <=? 57) then Some (b - 48) else None.

Fixpoint digits_val (acc : Z) (s : string) : option Z :=
  match s with
  | EmptyString => Some acc
  | String c s => match digit_val c with Some d => digits_val (10 * acc + d) s | None => None end
  end.

(** [strconv.ParseUint(s, 10, bits)]; [None] is any error. *)
Definition ParseUint (s : string) (bits : Z) : option Z :=
  match s with
  | EmptyString => None
  | _ => match digits_val 0 s with
         | Some n => if n <? 2 ^ bits then Some n else None
         | None => None
         end
  end.

(** [strconv.ParseInt(s, 10, bits)]; [None] is any error. *)
Definition ParseInt (s : string) (bits : Z) : option Z :=
  match s with
  | EmptyString => None
  | String c s' =>
      let neg := byte c =? 45 in
      let body := if neg || (byte c =? 43) then s' else s in
      match body with
      | EmptyString => None
      | _ => match digits_val 0 body with
             | Some n =>
                 if neg then (if n <=? 2 ^ (bits - 1) then Some (- n) else None)
                 else (if n <? 2 ^ (bits - 1) then Some n else None)
             | None => None
             end
      end
  end.

(** [strconv.FormatInt(n, 10)] and [strconv.Itoa]. *)
Definition FormatInt (n : Z) : string := pretty n.

(** ** Lemmas *)

Lemma byte_range c : 0 <= byte c < 256.
Proof.
  unfold byte. pose proof (Stdlib.Strings.Ascii.N_ascii_bounded c). lia.
Qed.

Lemma byte_ascii_of_Z n : 0 <= n < 256 → byte (ascii_of_Z n) = n.
Proof.
  intros. unfold byte, ascii_of_Z.
  rewrite Stdlib.Strings.Ascii.N_ascii_embedding by lia. lia.
Qed.

Lemma ascii_of_Z_byte c : ascii_of_Z (byte c) = c.
Proof.
  unfold byte, ascii_of_Z. rewrite N2Z.id.
  apply Stdlib.Strings.Ascii.ascii_N_embedding.
Qed.

Lemma byte_inj c d : byte c = byte d → c = d.
Proof. intros H. rewrite <- (ascii_of_Z_byte c), <- (ascii_of_Z_byte d). by rewrite H. Qed.

Lemma byte_hex_digit n : 0 <= n < 16 → byte (hex_digit n) = if n <? 10 then n + 48 else n + 87.
Proof. intros. apply byte_ascii_of_Z. case_match; bool_hyps; lia. Qed.

Lemma lower_hex_digit n : 0 <= n < 16 → lower_hex (hex_digit n) = true.
Proof. intros. unfold lower_hex. rewrite byte_hex_digit by done. case_match; bool_hyps; lia. Qed.

Lemma hex_val_digit n : 0 <= n < 16 → hex_val (hex_digit n) = Some n.
Proof.
  intros. unfold hex_val. rewrite byte_hex_digit by done.
  repeat case_match; bool_hyps; try lia; f_equal; lia.
Qed.

Lemma hex_digit_val c n : lower_hex c = true → hex_val c = Some n → hex_digit n = c ∧ 0 <= n < 16.
Proof.
  unfold lower_hex, hex_val. intros Hl Hv. pose proof (byte_range c).
  repeat case_match; simplify_eq; bool_hyps; try lia;
    (split; [apply byte_inj; rewrite byte_hex_digit by lia; case_match; bool_hyps; lia | lia]).
Qed.

Lemma hex_val_range c n : hex_val c = Some n → 0 <= n < 16.
Proof. unfold hex_val. repeat case_match; intros; simplify_eq; bool_hyps; lia. Qed.

Lemma hex_val_lower c : lower_hex c = true → is_Some (hex_val c).
Proof. unfold lower_hex, hex_val. intros. repeat case_match; first [eexists; reflexivity | bool_hyps; simplify_eq/=; lia]. Qed.

Lemma string_length_S c s : len (String c s) = len s + 1.
Proof. unfold len. simpl. lia. Qed.

#[export] Hint Rewrite string_length_S : mx.

(** Induction two bytes at a time. *)
Lemma string_ind2 (P : string → Prop) :
  P EmptyString → (∀ c, P (String c EmptyString)) →
  (∀ a b s, P s → P (String a (String b s))) → ∀ s, P s.
Proof.
  intros H0 H1 H2 s. enough (P s ∧ ∀ c, P (String c s)) by tauto.
  induction s as [|c s [IH1 IH2]]; auto.
Qed.

Lemma high_nibble c : 0 <= byte c / 16 < 16.
Proof.
  pose proof (byte_range c). split; [apply Z.div_pos; lia | apply Z.div_lt_upper_bound; lia].
Qed.

Lemma low_nibble c : 0 <= byte c mod 16 < 16.
Proof. apply Z.mod_pos_bound. lia. Qed.

#[export] Hint Resolve high_nibble low_nibble : mx.

Lemma hex_decode_encode s : hex_decode (hex_encode s) = Some s.
Proof.
  induction s as [|c s IH]; [done|]. cbn [hex_encode hex_decode].
  rewrite !hex_val_digit by auto with mx.
  rewrite IH, <- Z.div_mod by lia. by rewrite ascii_of_Z_byte.
Qed.

Lemma hex_encode_len s : len (hex_encode s) = 2 * len s.
Proof. induction s as [|c s IH]; [done|]. cbn [hex_encode]. autorewrite with mx. lia. Qed.

Lemma hex_encode_lower s : string_forallb lower_hex (hex_encode s) = true.
Proof.
  induction s as [|c s IH]; [done|]. cbn [hex_encode string_forallb].
  rewrite !lower_hex_digit by auto with mx. by rewrite IH.
Qed.

Lemma hex_encode_decode s t :
  string_forallb lower_hex s = true → hex_decode s = Some t → hex_encode t = s.
Proof.
  revert t. induction s as [|c|a b s IH] using string_ind2; intros t Hl Hd; simplify_eq/=; [done|].
  bool_hyps. destruct (hex_val a) as [x|] eqn:Ea, (hex_val b) as [y|] eqn:Eb,
    (hex_decode s) as [u|] eqn:Es; simplify_eq. cbn [hex_encode].
  destruct (hex_digit_val a x) as [<- ?], (hex_digit_val b y) as [<- ?]; try done.
  rewrite byte_ascii_of_Z by lia.
  replace ((16 * x + y) / 16) with x by (apply Z.div_unique with y; lia).
  replace ((16 * x + y) mod 16) with y by (apply Z.mod_unique with x; lia).
  by rewrite IH.
Qed.

Lemma hex_decode_some s :
  string_forallb lower_hex s = true → len s mod 2 = 0 → is_Some (hex_decode s).
Proof.
  induction s as [|c|a b s IH] using string_ind2; intros Hl He; [by eexists|done|].
  simpl in Hl. bool_hyps. autorewrite with mx in He.
  destruct (hex_val_lower a) as [x Hx], (hex_val_lower b) as [y Hy]; try done.
  destruct IH as [u Hu]; [done| |].
  { rewrite <- He. rewrite <- Z.add_assoc. symmetry. apply (Z.mod_add (len s) 1 2). lia. }
  simpl. rewrite Hx, Hy, Hu. by eexists.
Qed.

Lemma hex_decode_len s t : hex_decode s = Some t → len s = 2 * len t.
Proof.
  revert t. induction s as [|c|a b s IH] using string_ind2; intros t Hd; simplify_eq/=; [done|].
  destruct (hex_val a), (hex_val b), (hex_decode s) as [u|] eqn:Es; simplify_eq.
  autorewrite with mx. rewrite (IH u) by done. lia.
Qed.

(** ** Concatenation *)

Lemma string_app_len (s t : string) : len (s +:+ t) = len s + len t.
Proof.
  induction s as [|c s IH]; [done|].
  change (String c s +:+ t) with (String c (s +:+ t)). rewrite !string_length_S, IH. lia.
Qed.

Lemma string_app_inv_r (s1 s2 t : string) : s1 +:+ t = s2 +:+ t → s1 = s2.
Proof.
  revert s2. induction s1 as [|c s1 IH]; intros [|d s2] H; [done|..].
  - apply (f_equal len) in H. rewrite !string_app_len, string_length_S in H.
    change (len "") with 0 in H. pose proof (len_nonneg s2). lia.
  - apply (f_equal len) in H. rewrite !string_app_len, string_length_S in H.
    change (len "") with 0 in H. pose proof (len_nonneg s1). lia.
  - change (String c (s1 +:+ t) = String d (s2 +:+ t)) in H. injection H as -> H. f_equal. auto.
Qed.

Fixpoint last_char (d : Ascii.ascii) (s : string) : Ascii.ascii :=
  match s with EmptyString => d | String c s => last_char c s end.

Lemma last_char_app d s c t : last_char d (s +:+ String c t) = last_char c t.
Proof. revert d. induction s as [|e s IH]; intros d; [done|]. apply IH. Qed.

Lemma digits_val_bound s : ∀ acc n, 0 <= acc → digits_val acc s = Some n → 0 <= n.
Proof.
  induction s as [|c s IH]; intros acc n Ha H; simpl in H; [by simplify_eq|].
  destruct (digit_val c) as [d|] eqn:Hd; [|done]. eapply IH; [|done].
  unfold digit_val in Hd. case_match; [|done]. simplify_eq. bool_hyps. lia.
Qed.

(** [ParseInt] only returns values of the width. *)
Lemma ParseInt_range s bits n : 0 < bits → ParseInt s bits = Some n →
  - 2 ^ (bits - 1) <= n < 2 ^ (bits - 1).
Proof.
  intros Hb H. unfold ParseInt in H. assert (0 < 2 ^ (bits - 1)) by (apply Z.pow_pos_nonneg; lia).
  destruct s as [|c s]; [done|]. cbn zeta in H. destruct (if _ || _ then _ else _) as [|c' t]; [done|].
  destruct (digits_val 0 (String c' t)) as [m|] eqn:Hm; [|done].
  apply digits_val_bound in Hm; [|lia]. repeat case_match; simplify_eq; bool_hyps; lia.
Qed.

Lemma ParseUint_range s bits n : ParseUint s bits = Some n → 0 <= n < 2 ^ bits.
Proof.
  unfold ParseUint. destruct s as [|c t]; [done|].
  destruct (digits_val 0 (String c t)) as [m|] eqn:Hm; [|done].
  apply digits_val_bound in Hm; [|lia]. case_match; intros; simplify_eq; bool_hyps; lia.
Qed.

Lemma string_app_nil_r (s : string) : s +:+ EmptyString = s.
Proof.
  induction s as [|c s IH]; [done|]. change (String c s +:+ EmptyString) with (String c (s +:+ EmptyString)).
  by rewrite IH.
Qed.

Lemma string_app_assoc (s t u : string) : s +:+ t +:+ u = (s +:+ t) +:+ u.
Proof. induction s as [|c s IH]; [done|]. change (String c (s +:+ t +:+ u) = String c ((s +:+ t) +:+ u)). by rewrite IH. Qed.

(** ** Prefixes *)

Fixpoint string_take (n : nat) (s : string) : string :=
  match n, s with
  | S n, String c s => String c (string_take n s)
  | _, _ => EmptyString
  end.

Fixpoint string_drop (n : nat) (s : string) : string :=
  match n, s with
  | S n, String _ s => string_drop n s
  | _, _ => s
  end.

Lemma string_take_app (s t : string) : string_take (String.length s) (s +:+ t) = s.
Proof.
  induction s as [|c s IH]; [by destruct t|].
  change (String c (string_take (String.length s) (s +:+ t)) = String c s). by rewrite IH.
Qed.

Lemma string_drop_app (s t : string) : string_drop (String.length s) (s +:+ t) = t.
Proof. induction s as [|c s IH]; [by destruct t|]. exact IH. Qed.

Lemma string_take_drop n (s : string) : string_take n s +:+ string_drop n s = s.
Proof.
  revert s. induction n as [|n IH]; intros [|c s]; try done.
  change (String c (string_take n s +:+ string_drop n s) = String c s). by rewrite IH.
Qed.

Lemma string_take_len n (s : string) : len (string_take n s) = Z.min (Z.of_nat n) (len s).
Proof.
  revert s. induction n as [|n IH]; intros [|c s]; cbn [string_take]; [done| |done|].
  - pose proof (len_nonneg (String c s)). change (len EmptyString) with 0. lia.
  - rewrite !string_length_S, IH. lia.
Qed.

Lemma len_zero (s : string) : len s = 0 ↔ s = EmptyString.
Proof.
  split; [|by intros ->]. destruct s as [|c s]; [done|].
  rewrite string_length_S. pose proof (len_nonneg s). lia.
Qed.

(** ** Binary64, as [float64] computes *)
Definition f64_prec : Z := 53.
Definition f64_emax : Z := 1024.
Definition float64 := spec_float.
Definition f64_of_Z (n : Z) : float64 := binary_normalize f64_prec f64_emax n 0 false.
Definition f64_add := SFadd f64_prec f64_emax.
Definition f64_sub := SFsub f64_prec f64_emax.
Definition f64_mul := SFmul f64_prec f64_emax.
Definition f64_div := SFdiv f64_prec f64_emax.
Definition f64_ltb := SFltb.
Definition f64_leb := SFleb.

(** [math.Min] on two non-NaN arguments. *)
Definition f64_min (x y : float64) : float64 := if f64_ltb y x then y else x.

Definition f64_bad (x : float64) : bool :=
  match x with
  | S754_nan | S754_infinity _ => true
  | _ => f64_ltb x (f64_of_Z 0)
  end.

(** [Duration.Seconds]: whole seconds plus the remaining nanoseconds. *)
Definition f64_Seconds (d : Duration) : float64 :=
  f64_add (f64_of_Z (Z.quot d second)) (f64_div (f64_of_Z (Z.rem d second)) (f64_of_Z second)).

Definition f64_half : float64 := f64_div (f64_of_Z 1) (f64_of_Z 2).

(** Conversion to an integer type: truncation toward zero (the operands of the
    code are finite and in range). *)
Definition f64_trunc (x : float64) : Z :=
  match x with
  | S754_finite neg m e =>
      let a := if 0 <=? e then Z.shiftl (Zpos m) e else Z.shiftr (Zpos m) (- e) in
      if neg then - a else a
  | _ => 0
  end.

Example f64_round_trip : f64_trunc (f64_mul (f64_div (f64_of_Z 7) (f64_of_Z 9)) (f64_of_Z 192)) = 149.
Proof. vm_compute. reflexivity. Qed.
