(* ===== verification/GoText.v ===== *)
(** * Text: [strings], [unicode/utf8] and hexadecimal numbers

    The functions of Go's standard library the request parsers call, on byte
    strings.  A rune is its code point; an invalid byte decodes to [RuneError]
    of width one, as in [utf8.DecodeRuneInString]. *)

From Stdlib Require Import ZArith Lia.
From Stdlib Require Ascii String.
From stdpp Require Import base gmap strings list numbers pretty.
From S2P Require Import Prelude GoStd.

Local Open Scope Z_scope.

(** ** UTF-8 *)

Definition RuneError : Z := 65533.

Definition is_cont (c : Ascii.ascii) : bool := (128 <=? byte c) && (byte c <=? 191).

(** [utf8.DecodeRuneInString]: the rune and its width. *)
Definition decode_rune (s : string) : Z * nat :=
  match s with
  | EmptyString => (RuneError, 0%nat)
  | String c1 s1 =>
      let b1 := byte c1 in
      if b1 <? 128 then (b1, 1%nat)
      else if (b1 <? 194) || (244 <? b1) then (RuneError, 1%nat)
      else match s1 with
      | EmptyString => (RuneError, 1%nat)
      | String c2 s2 =>
          let b2 := byte c2 in
          let lo := if b1 =? 224 then 160 else if b1 =? 240 then 144 else 128 in
          let hi := if b1 =? 237 then 159 else if b1 =? 244 then 143 else 191 in
          if (b2 <? lo) || (hi <? b2) then (RuneError, 1%nat)
          else if b1 <? 224 then ((b1 - 192) * 64 + (b2 - 128), 2%nat)
          else match s2 with
          | EmptyString => (RuneError, 1%nat)
          | String c3 s3 =>
              if negb (is_cont c3) then (RuneError, 1%nat)
              else if b1 <? 240 then (((b1 - 224) * 64 + (b2 - 128)) * 64 + (byte c3 - 128), 3%nat)
              else match s3 with
              | EmptyString => (RuneError, 1%nat)
              | String c4 _ =>
                  if negb (is_cont c4) then (RuneError, 1%nat)
                  else ((((b1 - 240) * 64 + (b2 - 128)) * 64 + (byte c3 - 128)) * 64 + (byte c4 - 128), 4%nat)
              end
          end
      end
  end.

Fixpoint string_of_bytes (l : list Z) : string :=
  match l with [] => EmptyString | b :: l => String (ascii_of_Z b) (string_of_bytes l) end.

(** [strings.Builder.WriteRune]: surrogates and values out of range are
    written as [RuneError]. *)
Definition encode_rune (r : Z) : string :=
  let r := if (r <? 0) || (1114111 <? r) || ((55296 <=? r) && (r <=? 57343)) then RuneError else r in
  string_of_bytes
    (if r <? 128 then [r]
     else if r <? 2048 then [192 + r / 64; 128 + r mod 64]
     else if r <? 65536 then [224 + r / 4096; 128 + r / 64 mod 64; 128 + r mod 64]
     else [240 + r / 262144; 128 + r / 4096 mod 64; 128 + r / 64 mod 64; 128 + r mod 64]).

(** The runes of a string, as [range] visits them. *)
Fixpoint runes_fuel (fuel : nat) (s : string) : list Z :=
  match fuel, s with
  | O, _ | _, EmptyString => []
  | S fuel, _ => let '(r, w) := decode_rune s in r :: runes_fuel fuel (string_drop w s)
  end.

Definition runes (s : string) : list Z := runes_fuel (String.length s) s.

Definition string_concat (l : list string) : string := foldr String.append EmptyString l.

(** [strings.Map]; [None] drops the rune. *)
Definition string_map (f : Z → option Z) (s : string) : string :=
  string_concat ((λ r, match f r with Some r => encode_rune r | None => EmptyString end) <$> runes s).

(** ** [strings] *)

Fixpoint strip_prefix (p s : string) : option string :=
  match p, s with
  | EmptyString, _ => Some s
  | String a p, String b s => if Ascii.eqb a b then strip_prefix p s else None
  | _, _ => None
  end.

(** [unicode.IsSpace] in UTF-8. *)
Definition spaces : list string := encode_rune <$>
  [9; 10; 11; 12; 13; 32; 133; 160; 5760; 8192; 8193; 8194; 8195; 8196; 8197; 8198; 8199; 8200; 8201; 8202;
   8232; 8233; 8239; 8287; 12288].

Fixpoint string_rev (acc s : string) : string :=
  match s with EmptyString => acc | String c s => string_rev (String c acc) s end.

Definition strip_any (ps : list string) (s : string) : option string := head (omap (λ p, strip_prefix p s) ps).

Fixpoint trim_fuel (ps : list string) (fuel : nat) (s : string) : string :=
  match fuel with
  | O => s
  | S fuel => match strip_any ps s with Some s => trim_fuel ps fuel s | None => s end
  end.

Definition trim_left (ps : list string) (s : string) : string := trim_fuel ps (String.length s) s.

Definition trim_right (ps : list string) (s : string) : string :=
  string_rev "" (trim_left (string_rev "" <$> ps) (string_rev "" s)).

(** [textproto.TrimString] *)
Definition TrimString (s : string) : string :=
  let blanks := (λ b, String (ascii_of_Z b) EmptyString) <$> [32; 9; 10; 13] in
  trim_right blanks (trim_left blanks s).

(** [textproto.CanonicalMIMEHeaderKey] of a token. *)
Fixpoint canonical_loop (upper : bool) (s : string) : string :=
  match s with
  | EmptyString => EmptyString
  | String c t =>
      let b := byte c in
      let c' := if upper && (97 <=? b) && (b <=? 122) then ascii_of_Z (b - 32)
                else if negb upper && (65 <=? b) && (b <=? 90) then ascii_of_Z (b + 32) else c in
      String c' (canonical_loop (byte c' =? 45) t)
  end.

Definition CanonicalMIMEHeaderKey (s : string) : string := canonical_loop true s.

(** [strings.TrimSpace]; no suffix of a rune's encoding starts another rune,
    so removing encoded spaces from the end is decoding backwards. *)
Definition TrimSpace (s : string) : string := trim_right spaces (trim_left spaces s).

(** [strings.IndexByte] and [strings.Cut] at one byte: the text before the
    first [c] and the text after it. *)
Fixpoint cut_byte (c : Ascii.ascii) (s : string) : option (string * string) :=
  match s with
  | EmptyString => None
  | String a s => if Ascii.eqb a c then Some ("", s)
                  else match cut_byte c s with Some (l, r) => Some (String a l, r) | None => None end
  end.

(** [strings.Split] at one byte. *)
Fixpoint split_byte (c : Ascii.ascii) (acc s : string) : list string :=
  match s with
  | EmptyString => [string_rev "" acc]
  | String a s => if Ascii.eqb a c then string_rev "" acc :: split_byte c "" s else split_byte c (String a acc) s
  end.

(** [strings.Fields] *)
Fixpoint fields_fuel (fuel : nat) (acc s : string) : list string :=
  let flush := if bool_decide (acc = "") then [] else [string_rev "" acc] in
  match fuel, s with
  | O, _ | _, EmptyString => flush
  | S fuel, String a t =>
      match strip_any spaces s with
      | Some rest => flush ++ fields_fuel fuel "" rest
      | None => fields_fuel fuel (String a acc) t
      end
  end.

Definition Fields (s : string) : list string := fields_fuel (String.length s) "" s.

(** [strings.Contains] *)
Fixpoint contains (p s : string) : bool :=
  match strip_prefix p s with
  | Some _ => true
  | None => match s with EmptyString => false | String _ s => contains p s end
  end.

(** [strings.EqualFold] for an ASCII pattern that holds neither k nor s, the
    letters with non-ASCII case variants. *)
Definition EqualFold (s p : string) : bool := bool_decide (to_lower s = to_lower p).

(** [strings.LastIndexByte]: the text before the last [c] and from it on. *)
Fixpoint cut_last (c : Ascii.ascii) (s : string) : option (string * string) :=
  match s with
  | EmptyString => None
  | String a t =>
      match cut_last c t with
      | Some (l, r) => Some (String a l, r)
      | None => if Ascii.eqb a c then Some ("", s) else None
      end
  end.

(** ** [strconv] in base 16 *)

Fixpoint hex_digits_val (acc : Z) (s : string) : option Z :=
  match s with
  | EmptyString => Some acc
  | String c s => match hex_val c with Some d => hex_digits_val (16 * acc + d) s | None => None end
  end.

(** [strconv.ParseInt(s, 16, 64)]; [None] is any error. *)
Definition ParseInt16 (s : string) : option Z :=
  match s with
  | EmptyString => None
  | String c s' =>
      let neg := byte c =? 45 in
      match (if neg || (byte c =? 43) then s' else s) with
      | EmptyString => None
      | body =>
          n ← hex_digits_val 0 body;
          if neg then (if n <=? 2 ^ 63 then Some (- n) else None)
          else if n <? 2 ^ 63 then Some n else None
      end
  end.

(** [strconv.FormatInt(n, 16)] of a nonnegative [n]. *)
Fixpoint format16_fuel (fuel : nat) (n : Z) (acc : string) : string :=
  match fuel with
  | O => acc
  | S fuel => let acc := String (hex_digit (n mod 16)) acc in
              if n <? 16 then acc else format16_fuel fuel (n / 16) acc
  end.

Definition FormatInt16 (n : Z) : string := format16_fuel 16 n "".

Example trim_example : TrimSpace (String (ascii_of_Z 194) (String (ascii_of_Z 160) " a b ")) = "a b".
Proof. reflexivity. Qed.
Example fields_example : Fields " REQMOD  icap://x ICAP/1.0" = ["REQMOD"; "icap://x"; "ICAP/1.0"].
Proof. reflexivity. Qed.
Example format_example : FormatInt16 4096 = "1000" ∧ ParseInt16 "1000" = Some 4096 ∧ ParseInt16 "-1" = Some (-1).
Proof. by vm_compute. Qed.

(** ** NUL-separated fields *)

Definition no_nul (s : string) : bool := string_forallb (λ c, negb (byte c =? 0)) s.

Lemma no_nul_app s t : no_nul (s +:+ t) = no_nul s && no_nul t.
Proof. unfold no_nul. induction s as [|c s IH]; simpl; [done|]. by rewrite IH, andb_assoc. Qed.

(** A text without NUL is determined by what precedes the first NUL. *)
Lemma nul_split a b s t : no_nul a = true → no_nul b = true → a +:+ nul +:+ s = b +:+ nul +:+ t → a = b ∧ s = t.
Proof.
  change (nul +:+ s) with (String Ascii.zero s). change (nul +:+ t) with (String Ascii.zero t).
  revert b. induction a as [|c a IH]; intros [|d b] Ha Hb; simpl.
  - intros He. by injection He.
  - intros He. injection He as <- _. by cbn in Hb.
  - intros He. injection He as -> _. by cbn in Ha.
  - unfold no_nul in Ha, Hb. simpl in Ha, Hb. bool_hyps. intros He. injection He as -> He.
    by destruct (IH b) as [-> ->].
Qed.

Lemma nul_end a b t : no_nul a = true → no_nul b = true → a = b +:+ nul +:+ t → False.
Proof.
  intros Ha _ ->. rewrite !no_nul_app in Ha. bool_hyps. done.
Qed.

Lemma pretty_char_digit n : let b := byte (pretty_N_char n) in 48 <= b <= 57.
Proof. unfold pretty_N_char. repeat case_match; vm_compute; split; congruence. Qed.

Lemma pretty_go_all (P : Ascii.ascii → bool) x s : (∀ n, P (pretty_N_char n) = true) →
  string_forallb P s = true → string_forallb P (pretty_N_go x s) = true.
Proof.
  intros HP. revert s. induction (N.lt_wf_0 x) as [x _ IH]; intros s Hs.
  destruct (decide (x = 0%N)) as [->|Hx]; [by rewrite pretty_N_go_0|].
  rewrite pretty_N_go_step by lia. apply IH; [apply N.div_lt; lia|]. simpl. by rewrite HP.
Qed.

(** The characters of a decimal number. *)
Lemma FormatInt_all (P : Ascii.ascii → bool) n : (∀ c, 48 <= byte c <= 57 ∨ byte c = 45 → P c = true) →
  string_forallb P (FormatInt n) = true.
Proof.
  intros HP. assert (∀ x, string_forallb P (pretty (x : N)) = true) as HN.
  { intros x. unfold pretty, pretty_N. case_decide; [simpl; by rewrite HP by (left; vm_compute; split; congruence)|].
    apply pretty_go_all; [|done]. intros m. apply HP. left. apply pretty_char_digit. }
  unfold FormatInt. destruct n as [|p|p]; [simpl; by rewrite HP by (left; vm_compute; split; congruence)|apply HN|].
  change (pretty (Z.neg p)) with (String (Ascii.ascii_of_nat 45) (pretty (N.pos p))).
  cbn [string_forallb]. rewrite HN, HP; [done|]. by right.
Qed.

Lemma FormatInt_no_nul n : no_nul (FormatInt n) = true.
Proof. apply FormatInt_all. intros c Hc. apply negb_true_iff, Z.eqb_neq. lia. Qed.

#[export] Instance FormatInt_inj : Inj (=) (=) FormatInt.
Proof. intros a b Hab. by apply (inj pretty) in Hab. Qed.

(** ** Hexadecimal numbers *)

Lemma format16_all (P : Ascii.ascii → bool) fuel : ∀ n acc, (∀ d, 0 <= d < 16 → P (hex_digit d) = true) →
  string_forallb P acc = true → string_forallb P (format16_fuel fuel n acc) = true.
Proof.
  induction fuel as [|fuel IH]; intros n acc HP Ha; cbn [format16_fuel]; [done|].
  assert (string_forallb P (String (hex_digit (n mod 16)) acc) = true) as Ha'.
  { cbn [string_forallb]. rewrite HP by (apply Z.mod_pos_bound; lia). by rewrite Ha. }
  case_match; [done|]. by apply IH.
Qed.

Lemma hex_digits_app s : ∀ acc n, hex_digits_val acc s = Some n →
  ∀ t, hex_digits_val acc (s +:+ t) = hex_digits_val n t.
Proof.
  induction s as [|c s IH]; intros acc n; simpl; [by intros [= ->]|].
  destruct (hex_val c); [|done]. intros Hs t. by apply IH.
Qed.

(** The digits a number is written with give it back, in front of any text. *)
Lemma format16_value fuel : ∀ n acc, 0 <= n < 16 ^ Z.of_nat fuel → (fuel ≠ 0)%nat →
  ∀ v, hex_digits_val n acc = v → hex_digits_val 0 (format16_fuel fuel n acc) = v.
Proof.
  induction fuel as [|fuel IH]; [done|]. intros n acc Hn _ v Hv. cbn [format16_fuel].
  rewrite Nat2Z.inj_succ, Z.pow_succ_r in Hn by lia.
  assert (0 <= n mod 16 < 16) as Hm by (apply Z.mod_pos_bound; lia).
  assert (n = 16 * (n / 16) + n mod 16) as Hd by (apply Z.div_mod; lia).
  case_match eqn:Hlt.
  - apply Z.ltb_lt in Hlt. cbn [hex_digits_val]. rewrite hex_val_digit by done. rewrite Z.mod_small by lia. done.
  - apply Z.ltb_ge in Hlt. apply IH.
    + split; [apply Z.div_pos; lia|]. apply Z.div_lt_upper_bound; lia.
    + intros ->. simpl in Hn. lia.
    + cbn [hex_digits_val]. rewrite hex_val_digit by done. by rewrite <- Hd.
Qed.

Lemma FormatInt16_value n : 0 <= n < 2 ^ 64 → hex_digits_val 0 (FormatInt16 n) = Some n.
Proof. intros Hn. unfold FormatInt16. by apply (format16_value 16 n "" ltac:(simpl; lia) ltac:(lia)). Qed.

Lemma FormatInt16_no_nul n : no_nul (FormatInt16 n) = true.
Proof.
  apply format16_all; [|done]. intros d Hd. apply negb_true_iff, Z.eqb_neq. rewrite byte_hex_digit by done.
  case_match; lia.
Qed.

Lemma string_take_all_len n (s : string) : len s <= Z.of_nat n → string_take n s = s.
Proof.
  revert n. induction s as [|c s IH]; intros [|n] Hn; [done..| |].
  - rewrite string_length_S in Hn. pose proof (len_nonneg s). lia.
  - cbn [string_take]. rewrite string_length_S in Hn. by rewrite IH by lia.
Qed.

(** ** Every character of a trimmed or mapped text comes from somewhere *)
Section All.
Context (P : Ascii.ascii → bool).

Lemma string_forallb_app s t : string_forallb P (s +:+ t) = string_forallb P s && string_forallb P t.
Proof. induction s as [|c s IH]; simpl; [done|]. by rewrite IH, andb_assoc. Qed.

Lemma strip_prefix_app p : ∀ s t, strip_prefix p s = Some t → s = p +:+ t.
Proof.
  induction p as [|a p IH]; intros s t; cbn [strip_prefix]; [by destruct s; intros [= <-]|].
  destruct s as [|b s]; [done|]. destruct (Ascii.eqb_spec a b) as [->|]; [|done].
  intros Hs. by rewrite (IH _ _ Hs).
Qed.

Lemma strip_any_app ps s t : strip_any ps s = Some t → ∃ p, p ∈ ps ∧ s = p +:+ t.
Proof.
  unfold strip_any. intros Ht. apply head_Some_elem_of, list_elem_of_omap in Ht as (p&Hp&Ht).
  exists p. split; [done|]. by apply strip_prefix_app.
Qed.

Lemma trim_fuel_suffix ps fuel : ∀ s, ∃ p, s = p +:+ trim_fuel ps fuel s.
Proof.
  induction fuel as [|fuel IH]; intros s; simpl; [by exists ""|].
  destruct (strip_any ps s) as [t|] eqn:Ht; [|by exists ""].
  apply strip_any_app in Ht as (p&_&Hs). destruct (IH t) as [q Hq]. exists (p +:+ q).
  rewrite Hs, Hq at 1. by rewrite string_app_assoc.
Qed.

Lemma string_rev_all s : ∀ acc, string_forallb P (string_rev acc s) = string_forallb P acc && string_forallb P s.
Proof.
  induction s as [|c s IH]; intros acc; simpl; [by rewrite andb_true_r|]. rewrite IH. simpl.
  rewrite andb_assoc. f_equal. apply andb_comm.
Qed.

Lemma trim_left_all ps s : string_forallb P s = true → string_forallb P (trim_left ps s) = true.
Proof.
  intros Hs. destruct (trim_fuel_suffix ps (String.length s) s) as [p Hp]. rewrite Hp in Hs.
  rewrite string_forallb_app in Hs. by bool_hyps.
Qed.

Lemma trim_right_all ps s : string_forallb P s = true → string_forallb P (trim_right ps s) = true.
Proof.
  intros Hs. unfold trim_right. rewrite string_rev_all. cbn [string_forallb andb]. apply trim_left_all.
  by rewrite string_rev_all.
Qed.

Lemma TrimSpace_all s : string_forallb P s = true → string_forallb P (TrimSpace s) = true.
Proof. intros Hs. by apply trim_right_all, trim_left_all. Qed.

Lemma string_take_all n s : string_forallb P s = true → string_forallb P (string_take n s) = true.
Proof.
  intros Hs. rewrite <- (string_take_drop n s), string_forallb_app in Hs. by bool_hyps.
Qed.

Lemma cut_last_app c s l r : cut_last c s = Some (l, r) → s = l +:+ r.
Proof.
  revert l r. induction s as [|a s IH]; intros l r; simpl; [done|].
  destruct (cut_last c s) as [[l' r']|].
  - intros [= <- <-]. simpl. by rewrite (IH l' r').
  - destruct (Ascii.eqb a c); [|done]. by intros [= <- <-].
Qed.

Lemma string_concat_all l : (∀ s, s ∈ l → string_forallb P s = true) → string_forallb P (string_concat l) = true.
Proof.
  induction l as [|s l IH]; intros Hl; simpl; [done|]. rewrite string_forallb_app.
  rewrite Hl by left. apply IH. intros t Ht. apply Hl. by right.
Qed.

Lemma string_map_all f s : (∀ r r', f r = Some r' → string_forallb P (encode_rune r') = true) →
  string_forallb P (string_map f s) = true.
Proof.
  intros Hf. apply string_concat_all. intros t Ht. apply list_elem_of_fmap in Ht as (r&->&_).
  destruct (f r) eqn:Hr; [|done]. by apply (Hf r).
Qed.

End All.

Lemma string_of_bytes_all P l : Forall (λ b, P (ascii_of_Z b) = true) l → string_forallb P (string_of_bytes l) = true.
Proof. induction 1 as [|b l Hb _ IH]; simpl; [done|]. by rewrite Hb, IH. Qed.

(** The bytes of an encoded rune: itself if it is ASCII, high bytes if not. *)
Lemma encode_rune_all (P : Ascii.ascii → bool) r : (0 <= r < 128 → P (ascii_of_Z r) = true) →
  (∀ b, 128 <= b < 256 → P (ascii_of_Z b) = true) → string_forallb P (encode_rune r) = true.
Proof.
  intros Hr Hb. unfold encode_rune. cbv zeta.
  match goal with |- context [if (?x <? 128) then _ else _] => set (r' := x) end.
  assert (0 <= r' <= 1114111 ∧ (r' < 128 → r' = r)) as [Hr' He].
  { subst r'. destruct ((r <? 0) || _ || _) eqn:Hc; [unfold RuneError; lia|]. bool_hyps. lia. }
  clearbody r'. apply string_of_bytes_all.
  assert (∀ x : Z, 0 <= x mod 64 < 64) as Hm by (intros; apply Z.mod_pos_bound; lia).
  pose proof (Hm r') as Hm1. pose proof (Hm (r' / 64)) as Hm2. pose proof (Hm (r' / 4096)) as Hm3.
  assert (0 <= r' / 64 <= 17408) by (split; [apply Z.div_pos|apply Z.div_le_upper_bound]; lia).
  assert (0 <= r' / 4096 <= 272) by (split; [apply Z.div_pos|apply Z.div_le_upper_bound]; lia).
  assert (0 <= r' / 262144 < 5) by (split; [apply Z.div_pos|apply Z.div_lt_upper_bound]; lia).
  destruct (r' <? 128) eqn:E1; [apply Z.ltb_lt in E1; rewrite He by done; repeat constructor; apply Hr; lia|]. apply Z.ltb_ge in E1.
  destruct (r' <? 2048) eqn:E2; [|destruct (r' <? 65536) eqn:E3]; repeat constructor; apply Hb; try lia.
  - assert (r' / 64 < 32) by (apply Z.div_lt_upper_bound; lia). lia.
  - assert (r' / 4096 < 16) by (apply Z.div_lt_upper_bound; lia). lia.
Qed.

Lemma encode_rune_no_nul r : r ≠ 0 → no_nul (encode_rune r) = true.
Proof.
  intros Hr. apply encode_rune_all; intros; rewrite byte_ascii_of_Z by lia; apply negb_true_iff, Z.eqb_neq; lia.
Qed.

(** ** Takes, drops and reversal *)

Lemma string_take_length n s : String.length (string_take n s) = Nat.min n (String.length s).
Proof. pose proof (string_take_len n s). unfold len in *. lia. Qed.

Lemma string_drop_length n s : String.length (string_drop n s) = (String.length s - n)%nat.
Proof. revert s. induction n as [|n IH]; intros [|c s]; cbn; [done..|]. by rewrite IH. Qed.

Lemma string_drop_drop n k s : string_drop n (string_drop k s) = string_drop (k + n) s.
Proof. revert s. induction k as [|k IH]; intros [|c s]; cbn; [done..|by destruct n|]. apply IH. Qed.

Lemma string_take_split n k s : string_take (n + k) s = string_take n s +:+ string_take k (string_drop n s).
Proof.
  revert s. induction n as [|n IH]; intros [|c s]; [done..|by destruct k|].
  cbn [Nat.add string_take string_drop]. rewrite IH. done.
Qed.

Lemma string_take_take n k s : (n <= k)%nat → string_take n (string_take k s) = string_take n s.
Proof.
  revert k s. induction n as [|n IH]; intros [|k] [|c s] Hn; try done; [lia|]. cbn [string_take]. by rewrite IH by lia.
Qed.

Lemma string_cons_app c (s t : string) : String c s +:+ t = String c (s +:+ t).
Proof. done. Qed.

Lemma string_rev_app a : ∀ acc b, string_rev acc (a +:+ b) = string_rev (string_rev acc a) b.
Proof. induction a as [|c a IH]; intros acc b; [done|]. rewrite string_cons_app. cbn [string_rev]. apply IH. Qed.

Lemma string_rev_acc s : ∀ acc, string_rev acc s = string_rev "" s +:+ acc.
Proof.
  induction s as [|c s IH]; intros acc; [done|]. cbn [string_rev]. rewrite IH, (IH (String c "")).
  rewrite <- string_app_assoc. done.
Qed.

Lemma string_rev_rev s : ∀ acc, string_rev "" (string_rev acc s) = string_rev "" acc +:+ s.
Proof.
  induction s as [|c s IH]; intros acc; cbn [string_rev]; [by rewrite string_app_nil_r|].
  rewrite IH. cbn [string_rev]. rewrite string_rev_acc, <- string_app_assoc. done.
Qed.

(** ** Nothing to trim *)

(** Characters that start no space, read in either direction. *)
Definition visible (c : Ascii.ascii) : bool := (32 <? byte c) && (byte c <? 127).

Definition starts_invisible (p : string) : bool := match p with String a _ => negb (visible a) | EmptyString => false end.

Lemma strip_any_visible ps c s : forallb starts_invisible ps = true → visible c = true → strip_any ps (String c s) = None.
Proof.
  intros Hps Hc. unfold strip_any. induction ps as [|p ps IH]; [done|]. cbn [forallb] in Hps.
  apply andb_true_iff in Hps as [Hp Hps]. cbn [omap list_omap]. destruct p as [|a p]; [done|]. cbn [strip_prefix].
  destruct (Ascii.eqb a c) eqn:He; [|by apply IH]. apply Stdlib.Strings.Ascii.eqb_eq in He as ->.
  cbn in Hp. by rewrite Hc in Hp.
Qed.

Lemma trim_left_visible ps c s : forallb starts_invisible ps = true → visible c = true → trim_left ps (String c s) = String c s.
Proof. intros Hps Hc. unfold trim_left. cbn [String.length trim_fuel]. by rewrite strip_any_visible. Qed.

(** A text that starts and ends with visible characters. *)
Lemma trim_visible ps s : forallb starts_invisible ps = true → forallb starts_invisible (string_rev "" <$> ps) = true →
  string_forallb visible s = true → trim_right ps (trim_left ps s) = s.
Proof.
  intros Hps Hrev Hs. destruct s as [|c s]; [done|].
  rewrite trim_left_visible; [|done|by apply andb_true_iff in Hs as [? _]]. unfold trim_right.
  assert (string_forallb visible (string_rev "" (String c s)) = true) as Hr by (rewrite string_rev_all; exact Hs).
  destruct (string_rev "" (String c s)) as [|d t] eqn:Ht.
  - apply (f_equal (string_rev "")) in Ht. by rewrite string_rev_rev in Ht.
  - rewrite trim_left_visible; [|done|by apply andb_true_iff in Hr as [? _]]. rewrite <- Ht. by rewrite string_rev_rev.
Qed.

Lemma TrimSpace_visible s : string_forallb visible s = true → TrimSpace s = s.
Proof. by apply trim_visible; vm_compute. Qed.

Lemma TrimString_visible s : string_forallb visible s = true → TrimString s = s.
Proof. by apply trim_visible; vm_compute. Qed.

Lemma cut_byte_app c s r : string_forallb (λ a, negb (Ascii.eqb a c)) s = true → cut_byte c (s +:+ String c r) = Some (s, r).
Proof.
  induction s as [|a s IH]; intros Hs.
  - change ("" +:+ String c r) with (String c r). cbn [cut_byte]. by rewrite Stdlib.Strings.Ascii.eqb_refl.
  - apply andb_true_iff in Hs as [Ha%negb_true_iff Hs]. rewrite string_cons_app. cbn [cut_byte]. by rewrite Ha, IH.
Qed.

(** *** ASCII and [encoding/json] *)

Lemma decode_rune_ascii c s : byte c < 128 → decode_rune (String c s) = (byte c, 1%nat).
Proof. intros Hc. unfold decode_rune. by rewrite (proj2 (Z.ltb_lt _ _) Hc). Qed.

Lemma encode_rune_ascii c : byte c < 128 → encode_rune (byte c) = String c "".
Proof.
  intros Hc. pose proof (byte_range c). unfold encode_rune.
  replace (_ || _ || _) with false by lia. cbv zeta. rewrite (proj2 (Z.ltb_lt _ _) Hc).
  cbn. by rewrite ascii_of_Z_byte.
Qed.

(** A byte outside ASCII is part of a rune outside ASCII. *)
Lemma decode_rune_high c s : 128 <= byte c → 128 <= (decode_rune (String c s)).1.
Proof.
  intros Hc. unfold decode_rune. pose proof (byte_range c).
  repeat case_match; subst; cbn [fst]; unfold RuneError, is_cont in *; bool_hyps; try lia.
Qed.

Definition is_ascii (c : Ascii.ascii) : bool := byte c <? 128.

(** A string after a trip through [encoding/json]: the encoder writes each
    invalid byte as U+FFFD. *)
Definition json_string (s : string) : string := string_map Some s.

Lemma encode_rune_first r : 128 <= r → ∃ c t, encode_rune r = String c t ∧ is_ascii c = false.
Proof.
  intros Hr. assert (string_forallb (λ c, negb (is_ascii c)) (encode_rune r) = true) as H.
  { apply encode_rune_all; [lia|]. intros b Hb. unfold is_ascii. rewrite byte_ascii_of_Z by lia. lia. }
  destruct (encode_rune r) as [|c t] eqn:E.
  - exfalso. revert E. unfold encode_rune. cbv zeta. by repeat case_match.
  - exists c, t. split; [done|]. cbn [string_forallb] in H. apply andb_true_iff in H as [H _]. by apply negb_true_iff.
Qed.

(** An ASCII text comes through unchanged, and nothing else becomes one. *)
Lemma json_string_ascii s a : string_forallb is_ascii a = true → json_string s = a ↔ s = a.
Proof.
  unfold json_string, string_map, runes. assert (∀ fuel s a, (String.length s <= fuel)%nat → string_forallb is_ascii a = true →
    string_concat ((λ r, encode_rune r) <$> runes_fuel fuel s) = a ↔ s = a) as H; [|by apply H].
  clear s a. induction fuel as [|fuel IH]; intros [|c s] a Hf Ha; cbn [runes_fuel]; [done|cbn in Hf; lia|done|]. cbn in Hf.
  destruct (Z.lt_ge_cases (byte c) 128) as [Hc|Hc].
  - rewrite decode_rune_ascii by done. cbn [fmap list_fmap string_drop]. change (string_concat (?x :: ?l)) with (x +:+ string_concat l).
    rewrite encode_rune_ascii, string_cons_app by done. change ("" +:+ ?x) with x. destruct a as [|d a]; [done|].
    cbn [string_forallb] in Ha. apply andb_true_iff in Ha as [_ Ha]. pose proof (IH s a ltac:(lia) Ha) as He.
    split; intros [= -> Hs]; f_equal; by apply He.
  - pose proof (decode_rune_high c s Hc) as Hr. destruct (decode_rune (String c s)) as [r w]. cbn [fst] in Hr.
    cbn [fmap list_fmap]. change (string_concat (?x :: ?l)) with (x +:+ string_concat l).
    destruct (encode_rune_first r Hr) as (d&t&->&Hd). rewrite string_cons_app.
    split; intros E; rewrite <- E in Ha; cbn [string_forallb] in Ha; apply andb_true_iff in Ha as [Ha _]; [congruence|].
    unfold is_ascii in Ha. apply Z.ltb_lt in Ha. lia.
Qed.
