(* ===== verification/Base64.v ===== *)
(** * Base64: [encoding/base64]

    The standard alphabet with and without padding, as the clients encode the
    attachment name and the server decodes it. *)

From Stdlib Require Import ZArith Lia.
From Stdlib Require Ascii String.
From stdpp Require Import base gmap strings list numbers.
From S2P Require Import Prelude GoStd GoText.

Local Open Scope Z_scope.

(** ** The alphabet *)

Definition pad_char : Ascii.ascii := ascii_of_Z 61.

Definition b64_char (v : Z) : Ascii.ascii :=
  ascii_of_Z (if v <? 26 then 65 + v else if v <? 52 then 71 + v else if v <? 62 then v - 4
              else if v =? 62 then 43 else 47).

Definition b64_val (c : Ascii.ascii) : option Z :=
  let b := byte c in
  if (65 <=? b) && (b <=? 90) then Some (b - 65)
  else if (97 <=? b) && (b <=? 122) then Some (b - 71)
  else if (48 <=? b) && (b <=? 57) then Some (b + 4)
  else if b =? 43 then Some 62
  else if b =? 47 then Some 63
  else None.

(** ** [EncodeToString] of [StdEncoding] *)

Fixpoint EncodeToString (s : string) : string :=
  match s with
  | EmptyString => EmptyString
  | String a EmptyString =>
      String (b64_char (byte a / 4)) (String (b64_char (byte a mod 4 * 16)) (String pad_char (String pad_char EmptyString)))
  | String a (String b EmptyString) =>
      String (b64_char (byte a / 4)) (String (b64_char (byte a mod 4 * 16 + byte b / 16))
        (String (b64_char (byte b mod 16 * 4)) (String pad_char EmptyString)))
  | String a (String b (String c s)) =>
      String (b64_char (byte a / 4)) (String (b64_char (byte a mod 4 * 16 + byte b / 16))
        (String (b64_char (byte b mod 16 * 4 + byte c / 64)) (String (b64_char (byte c mod 64)) (EncodeToString s))))
  end.

(** ** [DecodeString] *)

(** The bytes of a quantum of two, three or four sextets. *)
Definition quantum (q : list Z) : string :=
  match q with
  | [v0; v1] => string_of_bytes [v0 * 4 + v1 / 16]
  | [v0; v1; v2] => string_of_bytes [v0 * 4 + v1 / 16; v1 mod 16 * 16 + v2 / 4]
  | [v0; v1; v2; v3] => string_of_bytes [v0 * 4 + v1 / 16; v1 mod 16 * 16 + v2 / 4; v2 mod 4 * 64 + v3]
  | _ => EmptyString
  end.

Definition newline (c : Ascii.ascii) : bool := (byte c =? 10) || (byte c =? 13).

Fixpoint skip_newlines (s : string) : string :=
  match s with String c t => if newline c then skip_newlines t else s | EmptyString => s end.

(** What may follow the padding of the last quantum: nothing but newlines. *)
Definition at_end (s : string) (out : string) : option string :=
  if bool_decide (skip_newlines s = EmptyString) then Some out else None.

Fixpoint decode_loop (padded : bool) (q : list Z) (out : string) (s : string) : option string :=
  match s with
  | EmptyString =>
      match q with
      | [] => Some out
      | [_] => None
      | _ => if padded then None else Some (out +:+ quantum q)
      end
  | String c s =>
      match b64_val c with
      | Some v =>
          let q := q ++ [v] in
          if (length q =? 4)%nat then decode_loop padded [] (out +:+ quantum q) s else decode_loop padded q out s
      | None =>
          if newline c then decode_loop padded q out s
          else if negb (padded && Ascii.eqb c pad_char) then None
          else match q with
               | [_; _] =>
                   match skip_newlines s with
                   | String c s => if Ascii.eqb c pad_char then at_end s (out +:+ quantum q) else None
                   | EmptyString => None
                   end
               | [_; _; _] => at_end s (out +:+ quantum q)
               | _ => None
               end
      end
  end.

Definition Std_DecodeString (s : string) : option string := decode_loop true [] "" s.
Definition RawStd_DecodeString (s : string) : option string := decode_loop false [] "" s.

(** ** Round trip *)

Definition b64_alphabet (c : Ascii.ascii) : bool := bool_decide (is_Some (b64_val c)) || Ascii.eqb c pad_char.

Lemma b64_val_char v : 0 <= v < 64 → b64_val (b64_char v) = Some v.
Proof.
  intros Hv. assert (forallb (λ v, bool_decide (b64_val (b64_char v) = Some v)) (seqZ 0 64) = true) as H by by vm_compute.
  rewrite forallb_forall in H. apply (bool_decide_eq_true _), H, list_elem_of_In, elem_of_seqZ. lia.
Qed.

Lemma string_ind3 (P : string → Prop) :
  P "" → (∀ a, P (String a "")) → (∀ a b, P (String a (String b ""))) →
  (∀ a b c s, P s → P (String a (String b (String c s)))) → ∀ s, P s.
Proof.
  intros H0 H1 H2 H3. assert (∀ s, P s ∧ (∀ a, P (String a s)) ∧ ∀ a b, P (String a (String b s))) as H.
  { induction s as [|c s (IH0&IH1&IH2)]; [done|]. split_and!; auto. }
  intros s. apply H.
Qed.

Lemma sextets a b c : 0 <= byte a / 4 < 64 ∧ 0 <= byte a mod 4 * 16 + byte b / 16 < 64
  ∧ 0 <= byte a mod 4 * 16 < 64 ∧ 0 <= byte b mod 16 * 4 + byte c / 64 < 64 ∧ 0 <= byte b mod 16 * 4 < 64 ∧ 0 <= byte c mod 64 < 64.
Proof.
  pose proof (byte_range a). pose proof (byte_range b). pose proof (byte_range c).
  split_and!; Z.to_euclidean_division_equations; lia.
Qed.

Lemma quantum_bytes a b c :
  byte a / 4 * 4 + (byte a mod 4 * 16 + byte b / 16) / 16 = byte a
  ∧ (byte a mod 4 * 16 + byte b / 16) mod 16 * 16 + (byte b mod 16 * 4 + byte c / 64) / 4 = byte b
  ∧ (byte b mod 16 * 4 + byte c / 64) mod 4 * 64 + byte c mod 64 = byte c
  ∧ byte a / 4 * 4 + (byte a mod 4 * 16) / 16 = byte a
  ∧ (byte a mod 4 * 16 + byte b / 16) mod 16 * 16 + (byte b mod 16 * 4) / 4 = byte b.
Proof.
  pose proof (byte_range a). pose proof (byte_range b). pose proof (byte_range c).
  split_and!; Z.to_euclidean_division_equations; lia.
Qed.

Lemma decode_encode s : ∀ out, decode_loop true [] out (EncodeToString s) = Some (out +:+ s).
Proof.
  induction s as [|a|a b|a b c s IH] using string_ind3; intros out.
  - cbn. by rewrite string_app_nil_r.
  - destruct (sextets a a a) as (?&_&?&_), (quantum_bytes a a a) as (_&_&_&Hq&_).
    cbn [EncodeToString decode_loop]. do 2 (rewrite b64_val_char by done; cbn [app length Nat.eqb]).
    cbn. by rewrite Hq, ascii_of_Z_byte.
  - destruct (sextets a b b) as (?&?&?&_&?&_), (quantum_bytes a b b) as (Ha&_&_&_&Hb).
    cbn [EncodeToString decode_loop]. do 3 (rewrite b64_val_char by done; cbn [app length Nat.eqb]).
    cbn. by rewrite Ha, Hb, !ascii_of_Z_byte.
  - destruct (sextets a b c) as (?&?&_&?&_&?), (quantum_bytes a b c) as (Ha&Hb&Hc&_).
    cbn [EncodeToString decode_loop]. do 4 (rewrite b64_val_char by done; cbn [app length Nat.eqb]).
    rewrite IH. unfold quantum. rewrite Ha, Hb, Hc. cbn [string_of_bytes]. rewrite !ascii_of_Z_byte.
    f_equal. by rewrite <- string_app_assoc.
Qed.

Lemma b64_char_alphabet v : 0 <= v < 64 → b64_alphabet (b64_char v) = true.
Proof. intros Hv. unfold b64_alphabet. by rewrite b64_val_char. Qed.

Lemma encode_alphabet s : string_forallb b64_alphabet (EncodeToString s) = true.
Proof.
  induction s as [|a|a b|a b c s IH] using string_ind3; [done|..].
  - destruct (sextets a a a) as (?&_&?&_). cbn [EncodeToString string_forallb]. by rewrite !b64_char_alphabet.
  - destruct (sextets a b b) as (?&?&?&_&?&_). cbn [EncodeToString string_forallb]. by rewrite !b64_char_alphabet.
  - destruct (sextets a b c) as (?&?&_&?&_&?). cbn [EncodeToString string_forallb]. by rewrite !b64_char_alphabet, IH.
Qed.

(** ** Mapping over an ASCII text *)

Lemma string_map_id (P : Ascii.ascii → bool) f s : (∀ r, 0 <= r < 128 → f r = Some r ∨ P (ascii_of_Z r) = false) →
  string_forallb (λ c, (byte c <? 128) && P c) s = true → string_map f s = s.
Proof.
  intros Hf. unfold string_map, runes. induction s as [|c s IH]; [done|]. cbn [string_forallb]. intros Hs. bool_hyps.
  cbn [String.length runes_fuel]. rewrite decode_rune_ascii by lia. cbn [fmap list_fmap string_drop].
  pose proof (byte_range c). destruct (Hf (byte c) ltac:(lia)) as [->|He].
  - rewrite encode_rune_ascii by lia. cbn. f_equal. by apply IH.
  - rewrite ascii_of_Z_byte in He. congruence.
Qed.

Lemma b64_ascii c : b64_alphabet c = true → (byte c <? 128) && b64_alphabet c = true.
Proof.
  intros Hc. rewrite Hc, andb_true_r. unfold b64_alphabet in Hc. apply orb_true_iff in Hc as [Hc|Hc].
  - apply bool_decide_eq_true in Hc as [v Hv]. unfold b64_val in Hv. repeat case_match; bool_hyps; try done; lia.
  - apply Ascii.eqb_eq in Hc as ->. done.
Qed.

Lemma string_forallb_impl (P Q : Ascii.ascii → bool) s : (∀ c, P c = true → Q c = true) →
  string_forallb P s = true → string_forallb Q s = true.
Proof. intros HPQ. induction s as [|c s IH]; simpl; [done|]. intros Hs. bool_hyps. by rewrite HPQ, IH. Qed.
