(* ===== verification/VerdictCache.v ===== *)
(** * The verdict cache

    [internal/mailstrix/cache.go]: the retained-byte estimate, the in-process
    TTL'd LRU bounded by entries and bytes, the framing of values in the shared
    Redis layer and its circuit breaker.  Sizes are those of a 64-bit
    platform. *)

From Stdlib Require Import ZArith Lia.
From Stdlib Require Ascii String.
From stdpp Require Import base gmap strings list numbers sorting.
From S2P Require Import Prelude GoStd GoText.

Local Open Scope Z_scope.

(** ** Values

    A slice is its backing array up to its capacity, and its length. *)
Record slice (A : Type) := mkSlice { sl_len : nat; sl_cap : list A }.
Arguments mkSlice {A} sl_len sl_cap.
Arguments sl_len {A} s.
Arguments sl_cap {A} s.

(** The elements. *)
Definition slice_list {A} (s : slice A) : list A := take (sl_len s) (sl_cap s).

Record Match := mkMatch {
  m_Rule : string;
  m_Namespace : string;
  m_Tags : slice string;
  m_Meta : option (gmap string string)
}.

(** ** Saturating arithmetic *)

Definition saturatingAdd (a b : Z) : Z := if uint64_max - a <? b then uint64_max else a + b.
Definition saturatingMul (a b : Z) : Z :=
  if negb (a =? 0) && (uint64_max / a <? b) then uint64_max else a * b.

(** [unsafe.Sizeof]: a string is 16 bytes, a slice 24, a time 24, a pointer, an
    [int] and a word 8, an interface 16. *)
Definition stringSlotBytes : Z := 16.
Definition matchBytes : Z := 16 + 16 + 24 + 8.
Definition entryFixedBytes : Z := (16 + 24 + 24 + 8) + (8 + 8 + 8 + 16) + 16 + 8.
Definition metaHeaderBytes : Z := 8 + 8 + 4 * 8.
Definition metaBucketBytes : Z := 8 + 16 * 16 + 8.

(** The bucket count of a map of [n] entries; [None] is the guard's early
    return.  [buckets] doubles each round, so 64 rounds reach the guard. *)
Fixpoint bucket_loop (fuel : nat) (n buckets : Z) : option Z :=
  if saturatingMul buckets 13 / 2 <? n then
    if uint64_max / 2 <? buckets then None
    else match fuel with
         | O => None
         | S fuel => bucket_loop fuel n (buckets * 2)
         end
  else Some buckets.

Definition meta_entry_bytes (total : Z) (kv : string * string) : Z :=
  saturatingAdd (saturatingAdd total (len kv.1)) (len kv.2).

(** One round of the loop over the matches; [None] is the early return. *)
Definition match_round (total : Z) (m : Match) : option Z :=
  let total := saturatingAdd total (len (m_Rule m)) in
  let total := saturatingAdd total (len (m_Namespace m)) in
  let total := saturatingAdd total
    (saturatingMul (Z.of_nat (length (sl_cap (m_Tags m)))) stringSlotBytes) in
  let total := foldl (λ total tag, saturatingAdd total (len tag)) total (sl_cap (m_Tags m)) in
  match m_Meta m with
  | None => Some total
  | Some meta =>
      let total := saturatingAdd total metaHeaderBytes in
      let n := Z.of_nat (size meta) in
      match (if 0 <? n then
               match bucket_loop 64 n 1 with
               | None => None
               | Some buckets => Some (saturatingAdd total (saturatingMul buckets metaBucketBytes))
               end
             else Some total) with
      | None => None
      | Some total => Some (foldl meta_entry_bytes total (map_to_list meta))
      end
  end.

Fixpoint match_rounds (total : Z) (ms : list Match) : Z :=
  match ms with
  | [] => total
  | m :: ms => match match_round total m with
               | None => uint64_max
               | Some total => match_rounds total ms
               end
  end.

Definition cacheEntryRetainedBytes (key : string) (matches : slice Match) : Z :=
  let total := saturatingAdd entryFixedBytes (len key) in
  let total := saturatingAdd total (saturatingMul (Z.of_nat (length (sl_cap matches))) matchBytes) in
  match_rounds total (sl_cap matches).

(** ** The LRU *)

Record entry := mkEntry {
  e_key : string;
  e_matches : slice Match;
  e_expires : Time;
  e_size : Z
}.

(** [ll] holds the elements, most recently used first, each with its identity;
    [items] maps a key to the identity of its element. *)
Record lruCache := mkLru {
  ttl : Duration;
  max : Z;
  maxBytes : Z;
  bytes : Z;
  ll : list (nat * entry);
  items : gmap string nat;
  next_element : nat;
  evictions : Z;
  byteEvictions : Z;
  countEvictions : Z;
  oversized : Z
}.

Definition find_element (el : nat) (l : list (nat * entry)) : option entry :=
  snd <$> head (filter (λ x, x.1 = el) l).

(** An atomic counter. *)
Definition count_up (n : Z) : Z := (n + 1) mod 2 ^ 64.

Definition recordEviction (c : lruCache) (byteCause : bool) : lruCache :=
  if byteCause
  then {| c with evictions := count_up (evictions c); byteEvictions := count_up (byteEvictions c) |}
  else {| c with evictions := count_up (evictions c); countEvictions := count_up (countEvictions c) |}.

Definition sub_size (total size : Z) : Z := if total <? size then 0 else total - size.

(** [removeElement]; a nil element is left alone. *)
Definition removeElement (c : lruCache) (el : option nat) : lruCache :=
  match el ≫= λ i, (i,.) <$> find_element i (ll c) with
  | None => c
  | Some (i, e) =>
      {| c with ll := filter (λ x, x.1 ≠ i) (ll c);
         items := delete (e_key e) (items c);
         bytes := sub_size (bytes c) (e_size e) |}
  end.

Definition move_to_front (i : nat) (e : entry) (l : list (nat * entry)) : list (nat * entry) :=
  (i, e) :: filter (λ x, x.1 ≠ i) l.

(** The local half of [Get], under the lock. *)
Definition getLocal (c : lruCache) (key : string) (t : Time) : option (slice Match) * lruCache :=
  match items c !! key ≫= λ i, (i,.) <$> find_element i (ll c) with
  | None => (None, c)
  | Some (i, e) =>
      if Before t (e_expires e)
      then (Some (e_matches e), {| c with ll := move_to_front i e (ll c) |})
      else (None, removeElement c (Some i))
  end.

(** The eviction loop of [putLocal]; [None]: it did not end within the fuel. *)
Fixpoint evict_loop (fuel : nat) (c : lruCache) : option lruCache :=
  if (maxBytes c <? bytes c) || (max c <? Z.of_nat (length (ll c))) then
    match fuel with
    | O => None
    | S fuel =>
        let byteCause := maxBytes c <? bytes c in
        evict_loop fuel (recordEviction (removeElement c (fst <$> last (ll c))) byteCause)
    end
  else Some c.

Definition putLocal (c : lruCache) (key : string) (matches : slice Match) (t : Time) : option lruCache :=
  let size := cacheEntryRetainedBytes key matches in
  if maxBytes c <? size then
    let c := {| c with oversized := count_up (oversized c) |} in
    match items c !! key with
    | Some i => Some (recordEviction (removeElement c (Some i)) true)
    | None => Some c
    end
  else
    let e' := mkEntry key matches (t + ttl c) size in
    let c :=
      match items c !! key ≫= λ i, (i,.) <$> find_element i (ll c) with
      | Some (i, e) =>
          {| c with bytes := saturatingAdd (sub_size (bytes c) (e_size e)) size;
             ll := move_to_front i e' (ll c) |}
      | None =>
          {| c with ll := (next_element c, e') :: ll c;
             items := <[key := next_element c]> (items c);
             next_element := S (next_element c);
             bytes := saturatingAdd (bytes c) size |}
      end in
    evict_loop (length (ll c)) c.

(** [Flush] *)
Definition Flush (c : lruCache) : lruCache := {| c with ll := []; items := ∅; bytes := 0 |}.

(** ** The Redis layer *)

(** A match after a trip through [encoding/json]: invalid UTF-8 becomes U+FFFD
    in every string, keys of the map included, where two of them may fall
    together; the capacity of a slice and the difference between an empty and
    an absent map are lost. *)
Definition meta_map (m : Match) : gmap string string := default ∅ (m_Meta m).

Record json_match (m m' : Match) : Prop := {
  jm_rule : m_Rule m' = json_string (m_Rule m);
  jm_namespace : m_Namespace m' = json_string (m_Namespace m);
  jm_tags : slice_list (m_Tags m') = json_string <$> slice_list (m_Tags m);
  jm_keys : ∀ k v, meta_map m !! k = Some v → is_Some (meta_map m' !! json_string k);
  jm_values : ∀ k' v', meta_map m' !! k' = Some v' → ∃ k v, meta_map m !! k = Some v ∧ k' = json_string k ∧ v' = json_string v
}.

Definition json_verdict (l l' : slice Match) : Prop := Forall2 json_match (slice_list l) (slice_list l').

(** Interface to [crypto/hmac], [encoding/json] and [net] address parsing. *)
Class RedisEnv := {
  hmac_sha256 : string → string → string;
  marshalMatches : slice Match → option string;
  unmarshalMatches : string → option (slice Match);
  SplitHostPort : string → option string;
  isLoopbackIP : string → bool
}.

Class RedisEnvOk (R : RedisEnv) := {
  hmac_sha256_len k v : len (hmac_sha256 k v) = 32;
  unmarshal_marshal_matches m b : marshalMatches m = Some b → b ≠ EmptyString ∧ ∃ m', unmarshalMatches b = Some m' ∧ json_verdict m m'
}.

(** [redisBreaker] *)
Record redisBreaker := mkBreaker { fails : Z; openUntil : Time }.

Definition breakerTrip : Z := 5.
Definition breakerCooldown : Duration := 5 * second.

Definition breaker_allow (b : redisBreaker) (t : Time) : bool := negb (Before t (openUntil b)).
Definition breaker_ok (b : redisBreaker) : redisBreaker := mkBreaker 0 0.
Definition breaker_fail (b : redisBreaker) (t : Time) : redisBreaker :=
  if breakerTrip <=? fails b + 1 then mkBreaker 0 (t + breakerCooldown)
  else {| b with fails := fails b + 1 |}.
Definition breaker_isOpen (b : redisBreaker) (t : Time) : bool := Before t (openUntil b).

Definition macVersion : Ascii.ascii := Ascii.Ascii true false false false false false false false.
Definition macLen : nat := 32.
Definition MinRedisMACKeyLen : Z := 32.

Record redisLayer := mkRedis {
  prefix : string;
  br : redisBreaker;
  macKey : string;
  warned : bool
}.

(** One GET: the stored bytes, [redis.Nil], or any other error. *)
Inductive RedisReply := RedisHit (b : string) | RedisNil | RedisError.

(** [redis.Options], as far as [redisPlaintextRemote] reads it. *)
Record Options := mkOptions { op_Network : string; op_TLS : bool; op_Addr : string }.

(** The cache configuration. *)
Record CacheConfig := mkCacheConfig {
  CacheTTL : Duration;
  CacheSize : Z;
  CacheMaxBytes : Z;
  RedisURL : string;
  RedisPrefix : string;
  RedisMACKey : string
}.

Definition defaultCacheMaxBytes : Z := Z.shiftl 256 20.

Record Cache := mkCache { local : lruCache; redis : option redisLayer }.

Section Redis.
Context {R : RedisEnv}.

(** [redisMAC]: over the redis key, a zero byte and the value. *)
Definition redisMAC (key redisKey value : string) : string :=
  hmac_sha256 key (redisKey +:+ nul +:+ value).

Definition sealRedisValue (key redisKey value : string) : string :=
  if len key =? 0 then value
  else String macVersion (redisMAC key redisKey value +:+ value).

Definition openRedisValue (key redisKey framed : string) : option string :=
  if len key =? 0 then Some framed
  else if len framed <=? 1 + Z.of_nat macLen then None
  else match framed with
       | EmptyString => None
       | String c body =>
           if negb (bool_decide (c = macVersion)) then None
           else
             let value := string_drop macLen body in
             if bool_decide (string_take macLen body = redisMAC key redisKey value)
             then Some value else None
       end.

Definition redisPlaintextRemote (opt : Options) : string * bool :=
  if bool_decide (op_Network opt = "unix") then ("", false)
  else if op_TLS opt then ("", false)
  else
    let parsedHost := default (op_Addr opt) (SplitHostPort (op_Addr opt)) in
    if isLoopbackIP parsedHost then (parsedHost, false)
    else if bool_decide (parsedHost = "localhost") then (parsedHost, false)
    else (parsedHost, true).

(** [redisLayer.get]; [reply] answers the GET, [t1] and [t2] are the readings
    of [allow] and [fail]. *)
Definition redis_get (r : redisLayer) (key : string) (t1 : Time) (reply : string → RedisReply) (t2 : Time)
    : option (slice Match) * redisLayer :=
  if negb (breaker_allow (br r) t1) then (None, r)
  else
    let rk := prefix r +:+ key in
    match reply rk with
    | RedisNil => (None, {| r with br := breaker_ok (br r) |})
    | RedisError => (None, {| r with br := breaker_fail (br r) t2 |})
    | RedisHit b =>
        let r := {| r with br := breaker_ok (br r) |} in
        match openRedisValue (macKey r) rk b with
        | None => (None, {| r with warned := true |})
        | Some b => (unmarshalMatches b, r)
        end
    end.

(** [redisLayer.put]: also the SET it issues, if any. *)
Definition redis_put (r : redisLayer) (key : string) (matches : slice Match) (t1 : Time) (set_ok : bool) (t2 : Time)
    : option (string * string) * redisLayer :=
  if negb (breaker_allow (br r) t1) then (None, r)
  else match marshalMatches matches with
       | None => (None, r)
       | Some b =>
           let rk := prefix r +:+ key in
           (Some (rk, sealRedisValue (macKey r) rk b),
            {| r with br := if set_ok then breaker_ok (br r) else breaker_fail (br r) t2 |})
       end.

Definition newRedisLayer (cfg : CacheConfig) (parsed : bool) : option redisLayer :=
  if parsed then Some (mkRedis (RedisPrefix cfg) (mkBreaker 0 0) (RedisMACKey cfg) false) else None.

(** [NewCache]; [None] is the no-op cache.  [parsed]: [redis.ParseURL] accepts
    the URL. *)
Definition NewCache (cfg : CacheConfig) (parsed : bool) : option Cache :=
  if CacheTTL cfg <=? 0 then None
  else
    let maxEntries := if CacheSize cfg <? 1 then 65536 else CacheSize cfg in
    let maxb := if CacheMaxBytes cfg <? 1 then defaultCacheMaxBytes else CacheMaxBytes cfg in
    Some (mkCache (mkLru (CacheTTL cfg) maxEntries maxb 0 [] ∅ 0 0 0 0 0)
            (if bool_decide (RedisURL cfg ≠ "") then newRedisLayer cfg parsed else None)).

(** [Get]: the lock is released between the local lookup and the promotion;
    [others] is what other requests do to the local layer meanwhile. *)
Definition Get (others : lruCache → lruCache) (c : Cache) (key : string) (t0 t1 : Time)
    (reply : string → RedisReply) (t2 t3 : Time) : option (option (slice Match) * Cache) :=
  match getLocal (local c) key t0 with
  | (Some m, l) => Some (Some m, {| c with local := l |})
  | (None, l) =>
      match redis c with
      | None => Some (None, {| c with local := l |})
      | Some r =>
          let l := others l in
          match redis_get r key t1 reply t2 with
          | (Some m, r) => l ← putLocal l key m t3; Some (Some m, mkCache l (Some r))
          | (None, r) => Some (None, mkCache l (Some r))
          end
      end
  end.

(** [Put]: also the SET it issues, if any. *)
Definition Put (c : Cache) (key : string) (matches : slice Match) (t0 t1 : Time) (set_ok : bool) (t2 : Time)
    : option (option (string * string) * Cache) :=
  l ← putLocal (local c) key matches t0;
  match redis c with
  | None => Some (None, {| c with local := l |})
  | Some r => let '(w, r) := redis_put r key matches t1 set_ok t2 in Some (w, mkCache l (Some r))
  end.

Definition Degraded (c : Cache) (t : Time) : string :=
  match redis c with
  | Some r => if breaker_isOpen (br r) t then "redis breaker open" else ""
  | None => ""
  end.

End Redis.

(** ** The retained-byte estimate is exact up to saturation *)

Definition sat (x : Z) : Z := Z.min uint64_max x.

Lemma saturatingAdd_sat x y : 0 <= x → 0 <= y → saturatingAdd (sat x) (sat y) = sat (x + y).
Proof. intros. unfold saturatingAdd, sat. case_match; bool_hyps; unfold uint64_max in *; lia. Qed.

Lemma saturatingAdd_exact x y : 0 <= x → 0 <= y → saturatingAdd (sat x) y = sat (x + y).
Proof. intros. unfold saturatingAdd, sat. case_match; bool_hyps; unfold uint64_max in *; lia. Qed.

Lemma saturatingMul_sat a b : 0 <= a → 0 <= b → saturatingMul a b = sat (a * b).
Proof.
  intros Ha Hb. unfold saturatingMul, sat. destruct (Z.eq_dec a 0) as [->|Hne].
  { cbn. unfold uint64_max. lia. }
  replace (a =? 0) with false by lia. cbn [negb andb].
  pose proof (Z.mul_div_le uint64_max a ltac:(lia)). pose proof (Z.mul_succ_div_gt uint64_max a ltac:(lia)).
  case_match; bool_hyps; nia.
Qed.

(** The least power of two [b] with [n <= 13 * b / 2]. *)
Definition buckets_for (n : Z) : Z := 2 ^ Z.log2_up ((2 * n + 12) / 13).

Lemma bucket_loop_from fuel i n :
  0 <= i → 0 <= n < 2 ^ 63 → i <= Z.log2_up ((2 * n + 12) / 13) <= i + Z.of_nat fuel →
  bucket_loop fuel n (2 ^ i) = Some (buckets_for n).
Proof.
  set (c := (2 * n + 12) / 13). intros Hi Hn. revert i Hi.
  assert (c <= 2 ^ 61) as Hc.
  { unfold c. apply Z.lt_succ_r, Z.div_lt_upper_bound; [lia|]. change (2 ^ 63) with (4 * 2 ^ 61) in Hn. lia. }
  assert (∀ b, 0 <= b → 13 * b < 2 * n ↔ b < c) as Hcond.
  { intros b Hb. pose proof (Z.div_mod (2 * n + 12) 13 ltac:(lia)).
    pose proof (Z.mod_pos_bound (2 * n + 12) 13 ltac:(lia)). fold c in H. lia. }
  assert (∀ b, 0 <= b → (saturatingMul b 13 / 2 <? n) = (b <? c)) as Htest.
  { intros b Hb. rewrite saturatingMul_sat by lia. specialize (Hcond b Hb). unfold sat.
    pose proof (Z.div_mod (Z.min uint64_max (b * 13)) 2 ltac:(lia)).
    pose proof (Z.mod_pos_bound (Z.min uint64_max (b * 13)) 2 ltac:(lia)).
    change (2 ^ 63) with 9223372036854775808 in Hn. unfold uint64_max in *.
    destruct (b <? c) eqn:Hbc; bool_hyps; [apply Z.ltb_lt | apply Z.ltb_ge]; lia. }
  induction fuel as [|fuel IH]; intros i Hi HL; cbn [bucket_loop]; rewrite Htest by (apply Z.pow_nonneg; lia).
  all: destruct (2 ^ i <? c) eqn:Hb; bool_hyps.
  - assert (1 < c) by (pose proof (Z.pow_pos_nonneg 2 i); lia).
    apply Z.log2_up_spec in H as [Hlo _].
    assert (Z.log2_up c <= i) by lia. pose proof (Z.pow_le_mono_r 2 (Z.log2_up c) i ltac:(lia) ltac:(lia)).
    pose proof (Z.log2_up_le_pow2 c i) as Hle. lia.
  - f_equal. unfold buckets_for. fold c. f_equal.
    destruct (Z.le_gt_cases c 1) as [Hc1|Hc1]; [rewrite (Z.log2_up_eqn0 c) in * by lia; lia|].
    pose proof (Z.log2_up_le_pow2 c i ltac:(lia)). lia.
  - replace (uint64_max / 2 <? 2 ^ i) with false.
    2:{ symmetry. apply Z.ltb_ge. change (uint64_max / 2) with 9223372036854775807.
        change (2 ^ 61) with 2305843009213693952 in Hc. lia. }
    replace (2 ^ i * 2) with (2 ^ (i + 1)) by (rewrite Z.pow_add_r by lia; lia).
    apply IH; [lia|]. pose proof (Z.log2_up_le_pow2 c i). pose proof (Z.pow_pos_nonneg 2 i). lia.
  - f_equal. unfold buckets_for. fold c. f_equal.
    destruct (Z.le_gt_cases c 1) as [Hc1|Hc1]; [rewrite (Z.log2_up_eqn0 c) in * by lia; lia|].
    pose proof (Z.log2_up_le_pow2 c i ltac:(lia)). lia.
Qed.

Lemma bucket_loop_spec n : 0 <= n < 2 ^ 63 → bucket_loop 64 n 1 = Some (buckets_for n).
Proof.
  intros Hn. change 1 with (2 ^ 0) at 1. apply bucket_loop_from; [done|done|].
  split; [apply Z.log2_up_nonneg|]. change (0 + Z.of_nat 64) with 64.
  transitivity (Z.log2_up (2 ^ 64)); [|by rewrite Z.log2_up_pow2].
  apply Z.log2_up_le_mono. apply Z.lt_succ_r, Z.div_lt_upper_bound; [lia|].
  change (2 ^ 63) with 9223372036854775808 in Hn. change (2 ^ 64) with 18446744073709551616. lia.
Qed.

(** The unbounded cost of a value. *)
Definition meta_cost (meta : gmap string string) : Z :=
  metaHeaderBytes
  + (if 0 <? Z.of_nat (size meta) then buckets_for (Z.of_nat (size meta)) * metaBucketBytes else 0)
  + sumZ (λ kv, len kv.1 + len kv.2) (map_to_list meta).

Definition match_cost (m : Match) : Z :=
  len (m_Rule m) + len (m_Namespace m)
  + Z.of_nat (length (sl_cap (m_Tags m))) * stringSlotBytes + sumZ len (sl_cap (m_Tags m))
  + match m_Meta m with Some meta => meta_cost meta | None => 0 end.

Definition entry_cost (key : string) (ms : slice Match) : Z :=
  entryFixedBytes + len key + Z.of_nat (length (sl_cap ms)) * matchBytes + sumZ match_cost (sl_cap ms).

(** A Go map has fewer than 2^63 entries. *)
Definition meta_fits (m : Match) : Prop :=
  match m_Meta m with Some meta => Z.of_nat (size meta) < 2 ^ 63 | None => True end.

Lemma buckets_for_pos n : 0 < buckets_for n.
Proof. apply Z.pow_pos_nonneg; [lia|apply Z.log2_up_nonneg]. Qed.

Lemma sumZ_len_nonneg l : 0 <= sumZ len l.
Proof. apply sumZ_nonneg. intros. apply len_nonneg. Qed.

Lemma sumZ_pair_nonneg (l : list (string * string)) : 0 <= sumZ (λ kv, len kv.1 + len kv.2) l.
Proof. apply sumZ_nonneg. intros. pose proof (len_nonneg x.1). pose proof (len_nonneg x.2). lia. Qed.

Lemma meta_cost_nonneg meta : 0 <= meta_cost meta.
Proof.
  unfold meta_cost, metaHeaderBytes, metaBucketBytes.
  pose proof (sumZ_pair_nonneg (map_to_list meta)). pose proof (buckets_for_pos (Z.of_nat (size meta))).
  case_match; nia.
Qed.

Lemma match_cost_nonneg m : 0 <= match_cost m.
Proof.
  unfold match_cost, stringSlotBytes. pose proof (len_nonneg (m_Rule m)). pose proof (len_nonneg (m_Namespace m)).
  pose proof (sumZ_len_nonneg (sl_cap (m_Tags m))).
  destruct (m_Meta m) as [meta|]; [pose proof (meta_cost_nonneg meta)|]; nia.
Qed.

Lemma foldl_tags l x : 0 <= x → foldl (λ total tag, saturatingAdd total (len tag)) (sat x) l = sat (x + sumZ len l).
Proof.
  revert x. induction l as [|t l IH]; intros x Hx; cbn [foldl]; [unfold sumZ; simpl; f_equal; lia|].
  rewrite sumZ_cons. pose proof (len_nonneg t).
  rewrite saturatingAdd_exact by done. rewrite IH by lia. f_equal. lia.
Qed.

Lemma foldl_meta l x : 0 <= x →
  foldl meta_entry_bytes (sat x) l = sat (x + sumZ (λ kv, len kv.1 + len kv.2) l).
Proof.
  revert x. induction l as [|kv l IH]; intros x Hx; cbn [foldl]; [unfold sumZ; simpl; f_equal; lia|].
  rewrite sumZ_cons. pose proof (len_nonneg kv.1). pose proof (len_nonneg kv.2).
  unfold meta_entry_bytes at 2. rewrite !saturatingAdd_exact by lia. rewrite IH by lia. f_equal. lia.
Qed.

Lemma match_round_exact m x : 0 <= x → meta_fits m → match_round (sat x) m = Some (sat (x + match_cost m)).
Proof.
  intros Hx Hm. unfold match_round, match_cost, meta_fits in *.
  pose proof (len_nonneg (m_Rule m)). pose proof (len_nonneg (m_Namespace m)).
  pose proof (sumZ_len_nonneg (sl_cap (m_Tags m))).
  assert (0 <= Z.of_nat (length (sl_cap (m_Tags m))) * stringSlotBytes) by (unfold stringSlotBytes; lia).
  rewrite !saturatingAdd_exact by lia. rewrite saturatingMul_sat by (unfold stringSlotBytes; lia).
  rewrite saturatingAdd_sat by lia. rewrite foldl_tags by lia.
  destruct (m_Meta m) as [meta|]; [|f_equal; f_equal; lia].
  rewrite saturatingAdd_exact by (unfold metaHeaderBytes; lia). unfold meta_cost.
  pose proof (sumZ_pair_nonneg (map_to_list meta)). pose proof (buckets_for_pos (Z.of_nat (size meta))).
  assert (0 <= buckets_for (Z.of_nat (size meta)) * metaBucketBytes) by (unfold metaBucketBytes; nia).
  assert (0 <= metaHeaderBytes) by done.
  destruct (0 <? Z.of_nat (size meta)).
  - rewrite bucket_loop_spec by lia. rewrite saturatingMul_sat by (unfold metaBucketBytes; lia).
    rewrite saturatingAdd_sat by lia. rewrite foldl_meta by lia. f_equal. f_equal. lia.
  - rewrite foldl_meta by lia. f_equal. f_equal. lia.
Qed.

Lemma match_rounds_exact ms x : 0 <= x → Forall meta_fits ms →
  match_rounds (sat x) ms = sat (x + sumZ match_cost ms).
Proof.
  intros Hx Hms. revert x Hx. induction Hms as [|m ms Hm _ IH]; intros x Hx; cbn [match_rounds].
  { unfold sumZ; simpl. f_equal. lia. }
  rewrite match_round_exact by done. pose proof (match_cost_nonneg m).
  rewrite IH by lia. rewrite sumZ_cons. f_equal. lia.
Qed.

(** The estimate of [cacheEntryRetainedBytes], computed with saturating 64-bit
    steps in whatever order the map is ranged over, is the exact sum over the
    key, the slice capacities and the maps, clamped to the largest uint64; the
    bucket loop reaches the least sufficient power of two. *)
Theorem cacheEntryRetainedBytes_exact key ms : Forall meta_fits (sl_cap ms) →
  cacheEntryRetainedBytes key ms = Z.min uint64_max (entry_cost key ms).
Proof.
  intros Hms. unfold cacheEntryRetainedBytes, entry_cost. fold (sat (entryFixedBytes + len key
    + Z.of_nat (length (sl_cap ms)) * matchBytes + sumZ match_cost (sl_cap ms))).
  pose proof (len_nonneg key). change entryFixedBytes with (sat entryFixedBytes) at 1.
  assert (0 <= entryFixedBytes) by done. assert (0 <= matchBytes) by done.
  rewrite saturatingAdd_exact by lia. rewrite saturatingMul_sat by lia.
  rewrite saturatingAdd_sat by lia. apply match_rounds_exact; [lia|done].
Qed.

(** ** The LRU refines a list of entries

    The specification keeps the entries in recency order. *)
Definition abs (c : lruCache) : list entry := (ll c).*2.

Definition remove_key (key : string) (l : list entry) : list entry := filter (λ e, e_key e ≠ key) l.
Definition find_key (key : string) (l : list entry) : option entry := head (filter (λ e, e_key e = key) l).

(** The longest prefix within both bounds. *)
Fixpoint take_fit (n : nat) (budget : Z) (l : list entry) : list entry :=
  match n, l with
  | S n, e :: l => if e_size e <=? budget then e :: take_fit n (budget - e_size e) l else []
  | _, _ => []
  end.

Definition spec_get (l : list entry) (key : string) (t : Time) : option (slice Match) * list entry :=
  match find_key key l with
  | None => (None, l)
  | Some e => if Before t (e_expires e) then (Some (e_matches e), e :: remove_key key l)
              else (None, remove_key key l)
  end.

Definition spec_put (c : lruCache) (l : list entry) (key : string) (m : slice Match) (t : Time) : list entry :=
  let size := cacheEntryRetainedBytes key m in
  if maxBytes c <? size then remove_key key l
  else take_fit (Z.to_nat (max c)) (maxBytes c) (mkEntry key m (t + ttl c) size :: remove_key key l).

(** The index, the list and the byte count agree. *)
Record consistent (c : lruCache) : Prop := {
  cs_ids : NoDup (ll c).*1;
  cs_keys : NoDup (e_key <$> abs c);
  cs_items : ∀ k i, items c !! k = Some i ↔ ∃ e, (i, e) ∈ ll c ∧ e_key e = k;
  cs_next : ∀ i e, (i, e) ∈ ll c → (i < next_element c)%nat;
  cs_size : ∀ e, e ∈ abs c → e_size e = cacheEntryRetainedBytes (e_key e) (e_matches e);
  cs_bytes : bytes c = sumZ e_size (abs c);
  cs_count : evictions c = (byteEvictions c + countEvictions c) mod 2 ^ 64
}.

Definition config_ok (c : lruCache) : Prop := 1 <= max c ∧ 0 <= maxBytes c <= int64_max.

Record LruInv (c : lruCache) : Prop := {
  li_consistent : consistent c;
  li_config : config_ok c;
  li_bytes : bytes c <= maxBytes c;
  li_entries : Z.of_nat (length (ll c)) <= max c
}.

Definition same_config (c c' : lruCache) : Prop :=
  ttl c' = ttl c ∧ max c' = max c ∧ maxBytes c' = maxBytes c.

Lemma saturatingAdd_nonneg a b : 0 <= a → 0 <= b → 0 <= saturatingAdd a b.
Proof. intros. unfold saturatingAdd, uint64_max. case_match; lia. Qed.

Lemma saturatingMul_nonneg a b : 0 <= a → 0 <= b → 0 <= saturatingMul a b.
Proof. intros. unfold saturatingMul, uint64_max. case_match; nia. Qed.

Lemma foldl_nonneg {A} (f : Z → A → Z) l x : (∀ x a, 0 <= x → 0 <= f x a) → 0 <= x → 0 <= foldl f x l.
Proof. intros Hf. revert x. induction l; intros; cbn; auto. Qed.

Lemma bucket_loop_nonneg fuel n b r : 0 <= b → bucket_loop fuel n b = Some r → 0 <= r.
Proof.
  revert b. induction fuel as [|fuel IH]; intros b Hb H; cbn [bucket_loop] in H;
    repeat case_match; simplify_eq; try done.
  eapply (IH (b * 2)); [lia|done].
Qed.

Create HintDb nonneg discriminated.
#[local] Hint Resolve saturatingAdd_nonneg saturatingMul_nonneg foldl_nonneg len_nonneg Nat2Z.is_nonneg : nonneg.

Lemma match_round_nonneg total m t : 0 <= total → match_round total m = Some t → 0 <= t.
Proof.
  assert (0 <= stringSlotBytes ∧ 0 <= metaHeaderBytes ∧ 0 <= metaBucketBytes) as (?&?&?) by done.
  intros Hpos. unfold match_round.
  set (x := foldl _ _ _). assert (0 <= x) as Hx by (unfold x; auto 10 with nonneg). clearbody x.
  destruct (m_Meta m) as [meta|]; [|by intros [= <-]].
  destruct (if 0 <? _ then _ else _) as [y|] eqn:Ec; [|done]. intros [= <-].
  apply foldl_nonneg; [unfold meta_entry_bytes; auto with nonneg|].
  revert Ec. case_match; [|intros [= <-]; auto with nonneg].
  destruct (bucket_loop _ _ _) as [b|] eqn:Eb; [|done]. intros [= <-].
  assert (0 <= b) by (by eapply (bucket_loop_nonneg 64 _ 1)). auto with nonneg.
Qed.

Lemma retained_nonneg key ms : 0 <= cacheEntryRetainedBytes key ms.
Proof.
  assert (∀ l x, 0 <= x → 0 <= match_rounds x l) as Hr.
  { induction l as [|m l IH]; intros x Hx; [done|]. cbn [match_rounds].
    destruct (match_round x m) as [t|] eqn:Hm; [|done]. apply IH. by eapply match_round_nonneg. }
  assert (0 <= entryFixedBytes ∧ 0 <= matchBytes) as [??] by done.
  apply Hr. auto with nonneg.
Qed.

(** *** Elements *)

Lemma find_element_Some c i e : NoDup (ll c).*1 → (i, e) ∈ ll c → find_element i (ll c) = Some e.
Proof.
  intros Hnd Hin. unfold find_element.
  rewrite (filter_one _ (ll c) (i, e)); [done|done|done| |by eapply NoDup_fmap_1].
  intros [j e'] Hj Hji. simpl in Hji. subst j. f_equal.
  apply list_elem_of_lookup in Hin as [n Hn]. apply list_elem_of_lookup in Hj as [m Hm].
  assert (m = n) as -> by (eapply (NoDup_lookup (ll c).*1); [done|by rewrite list_lookup_fmap, Hm|by rewrite list_lookup_fmap, Hn]).
  congruence.
Qed.

(** What the index knows of a key. *)
Lemma consistent_find c key : consistent c →
  match items c !! key ≫= λ i, (i,.) <$> find_element i (ll c) with
  | Some (i, e) => items c !! key = Some i ∧ (i, e) ∈ ll c ∧ e_key e = key ∧ find_key key (abs c) = Some e
  | None => items c !! key = None ∧ find_key key (abs c) = None ∧ key ∉ (e_key <$> abs c)
  end.
Proof.
  intros [Hids Hkeys Hit _ _ _ _]. destruct (items c !! key) as [i|] eqn:Hi; simpl.
  - apply Hit in Hi as Hex. destruct Hex as (e&Hin&Hk). rewrite (find_element_Some _ _ e) by done. simpl.
    split_and!; [done..|]. unfold find_key.
    assert (e ∈ abs c) as He by (apply list_elem_of_fmap; by exists (i, e)).
    rewrite (filter_one _ (abs c) e); [done|done|done| |by eapply NoDup_fmap_1].
    intros e' He' Hke'. apply list_elem_of_lookup in He as [n Hn]. apply list_elem_of_lookup in He' as [m Hm].
    assert (m = n) as -> by (eapply (NoDup_lookup (e_key <$> abs c));
      [done|by rewrite list_lookup_fmap, Hm|rewrite list_lookup_fmap, Hn; simpl; congruence]).
    congruence.
  - assert (key ∉ (e_key <$> abs c)) as Hno.
    { intros (e&->&He)%list_elem_of_fmap. apply list_elem_of_fmap in He as ([i e']&->&He').
      assert (items c !! e_key e' = Some i) as Hs by (apply Hit; eauto). simpl in Hi. congruence. }
    split_and!; [done| |done]. unfold find_key. replace (filter _ (abs c)) with (@nil entry); [done|].
    symmetry. apply filter_none. intros e He Hk. apply Hno. apply list_elem_of_fmap. eauto.
Qed.

Lemma remove_key_notin key l : key ∉ (e_key <$> l) → remove_key key l = l.
Proof. intros Hn. apply filter_all. intros e He Hk. apply Hn. apply list_elem_of_fmap. eauto. Qed.

(** Dropping an element drops its key. *)
Lemma filter_id_key c i e : consistent c → (i, e) ∈ ll c →
  (filter (λ x, x.1 ≠ i) (ll c)).*2 = remove_key (e_key e) (abs c)
  ∧ ll c ≡ₚ (i, e) :: filter (λ x, x.1 ≠ i) (ll c).
Proof.
  intros [Hids Hkeys _ _ _ _ _] Hin. unfold abs in *.
  assert (∀ l, NoDup l.*1 → NoDup (e_key <$> l.*2) → (i, e) ∈ l →
    (filter (λ x, x.1 ≠ i) l).*2 = remove_key (e_key e) l.*2 ∧ l ≡ₚ (i, e) :: filter (λ x, x.1 ≠ i) l) as H; [|by apply H].
  induction l as [|[j f] l IH]; intros H1 H2 H3; [by apply elem_of_nil in H3|].
  apply list.NoDup_cons in H1 as [Hj H1], H2 as [Hf H2]. unfold remove_key. cbn [fmap list_fmap fst snd] in *.
  rewrite !filter_cons. cbn [fst snd]. apply elem_of_cons in H3 as [[= <- <-]|H3].
  - rewrite !decide_False by tauto. fold (remove_key (e_key e) l.*2). rewrite remove_key_notin by done.
    rewrite filter_all; [done|]. intros x Hx Heq. apply Hj, list_elem_of_fmap. exists x. by rewrite Heq.
  - assert (j ≠ i) by (intros ->; apply Hj, list_elem_of_fmap; by exists (i, e)).
    assert (e_key f ≠ e_key e) by (intros Heq; apply Hf; rewrite Heq; apply list_elem_of_fmap;
      exists e; split; [done|apply list_elem_of_fmap; by exists (i, e)]).
    rewrite !decide_True by done. destruct (IH H1 H2 H3) as [IH1 IH2]. split.
    + cbn [fmap list_fmap snd]. by rewrite IH1.
    + rewrite IH2 at 1. apply Permutation_swap.
Qed.

Lemma ids_unique (l : list (nat * entry)) i e1 e2 : NoDup l.*1 → (i, e1) ∈ l → (i, e2) ∈ l → e1 = e2.
Proof.
  intros Hnd [n Hn]%list_elem_of_lookup [m Hm]%list_elem_of_lookup.
  assert (n = m) as -> by (eapply (NoDup_lookup l.*1); [done|by rewrite list_lookup_fmap, Hn|by rewrite list_lookup_fmap, Hm]).
  congruence.
Qed.

Lemma removeElement_eq c i e : consistent c → (i, e) ∈ ll c →
  removeElement c (Some i) = {| c with ll := filter (λ x, x.1 ≠ i) (ll c);
         items := delete (e_key e) (items c); bytes := sub_size (bytes c) (e_size e) |}.
Proof.
  intros Hc Hin. unfold removeElement. simpl. by rewrite (find_element_Some c i e) by (done || apply Hc).
Qed.

Lemma removeElement_spec c i e : consistent c → (i, e) ∈ ll c →
  let c' := removeElement c (Some i) in
  consistent c' ∧ abs c' = remove_key (e_key e) (abs c) ∧ same_config c c'
  ∧ items c' !! e_key e = None ∧ ll c ≡ₚ (i, e) :: ll c'.
Proof.
  intros Hc Hin. cbn zeta. rewrite (removeElement_eq c i e) by done.
  destruct (filter_id_key c i e Hc Hin) as [Hkey Hperm]. pose proof Hc as [Hids Hkeys Hit Hnx Hsz Hby Hct].
  split_and!; [|exact Hkey|done|apply lookup_delete_eq|exact Hperm].
  set (l' := filter (λ x, x.1 ≠ i) (ll c)) in *.
  assert (NoDup (i :: l'.*1)) as Hids2 by (change (NoDup ((i, e) :: l').*1); by rewrite <- Hperm).
  assert (NoDup (e_key e :: (e_key <$> l'.*2))) as Hkeys2
    by (change (NoDup (e_key <$> ((i, e) :: l').*2)); by rewrite <- Hperm).
  apply list.NoDup_cons in Hids2 as [_ Hids2], Hkeys2 as [Hnk Hkeys2].
  constructor; cbn; unfold abs in *; cbn [ll]; try done.
  - intros k j. rewrite lookup_delete_Some, Hit. split.
    + intros (Hne&f&Hf&Hk). exists f. split; [|done]. apply list_elem_of_filter. split; [|done].
      intros Heq. simpl in Heq. subst j. apply Hne. by rewrite (ids_unique _ _ _ _ Hids Hin Hf).
    + intros (f&Hf&Hk). apply list_elem_of_filter in Hf as Hf'. destruct Hf' as [Hne Hf'].
      split; [|eauto]. intros <-. apply Hnk. rewrite <- Hk. apply list_elem_of_fmap. exists f.
      split; [done|]. apply list_elem_of_fmap. by exists (j, f).
  - intros j f [_ Hf]%list_elem_of_filter. by eapply Hnx.
  - intros f Hf. apply Hsz. rewrite Hperm. by right.
  - rewrite Hby, Hperm. cbn [fmap list_fmap snd]. rewrite sumZ_cons. unfold sub_size.
    assert (0 <= sumZ e_size (filter (λ x, x.1 ≠ i) (ll c)).*2).
    { apply sumZ_nonneg. intros f Hf. rewrite (Hsz f); [apply retained_nonneg|]. rewrite Hperm. by right. }
    fold l' in H. fold (sumZ e_size l'.*2). case_match; bool_hyps; lia.
Qed.

Lemma recordEviction_consistent c b : consistent c → consistent (recordEviction c b).
Proof.
  intros [? ? ? ? ? ? Hct]. assert (2 ^ 64 ≠ 0) by done.
  destruct b; constructor; try done; cbn; unfold count_up; rewrite Hct.
  - rewrite Zplus_mod_idemp_l, Zplus_mod_idemp_l. f_equal. lia.
  - rewrite Zplus_mod_idemp_l, Zplus_mod_idemp_r. f_equal. lia.
Qed.

(** *** Eviction *)

Definition fits (n : nat) (budget : Z) (l : list entry) : Prop := (length l ≤ n)%nat ∧ sumZ e_size l <= budget.

Lemma take_fit_fits n b l : (∀ e, e ∈ l → 0 <= e_size e) → fits n b l → take_fit n b l = l.
Proof.
  revert n b. induction l as [|e l IH]; intros n b Hp [Hl Hs]; [by destruct n|].
  destruct n as [|n]; [simpl in Hl; lia|]. rewrite sumZ_cons in Hs. simpl in Hl. cbn [take_fit].
  assert (0 <= sumZ e_size l) by (apply sumZ_nonneg; intros; apply Hp; by right).
  replace (e_size e <=? b) with true by (symmetry; apply Z.leb_le; lia).
  f_equal. apply IH; [intros; apply Hp; by right|]. split; lia.
Qed.

Lemma take_fit_snoc n b l x : (∀ e, e ∈ l ++ [x] → 0 <= e_size e) → ¬ fits n b (l ++ [x]) →
  take_fit n b (l ++ [x]) = take_fit n b l.
Proof.
  revert n b. induction l as [|e l IH]; intros n b Hp Hf; destruct n as [|n]; try done; cbn [take_fit app].
  - case_match eqn:Hle; [|done]. bool_hyps. exfalso. apply Hf. split; [simpl; lia|]. unfold sumZ. simpl. lia.
  - case_match eqn:Hle; [|done]. bool_hyps. f_equal. apply IH; [intros; apply Hp; by right|].
    intros [Hl Hs]. apply Hf. split; [simpl in *; lia|]. change ((e :: l) ++ [x]) with (e :: (l ++ [x])).
    rewrite sumZ_cons. lia.
Qed.

Lemma take_fit_bounds n b l : 0 <= b → fits n b (take_fit n b l).
Proof.
  revert n b. induction l as [|e l IH]; intros n b Hb; destruct n as [|n]; cbn [take_fit];
    try (split; [simpl; lia|unfold sumZ; simpl; lia]).
  case_match eqn:Hle; bool_hyps; [|split; [simpl; lia|unfold sumZ; simpl; lia]].
  destruct (IH n (b - e_size e)) as [Hl Hs]; [lia|]. split; [simpl; lia|]. rewrite sumZ_cons. lia.
Qed.

Lemma remove_key_last e l : NoDup (e_key <$> (l ++ [e])) → remove_key (e_key e) (l ++ [e]) = l.
Proof.
  intros Hk. rewrite fmap_app in Hk. apply list.NoDup_app in Hk as (_&Hk&_).
  unfold remove_key. rewrite filter_app. fold (remove_key (e_key e) l).
  rewrite remove_key_notin by (intros Hin; apply (Hk _ Hin); left).
  rewrite filter_cons, decide_False by tauto. by rewrite app_nil_r.
Qed.

Definition over (c : lruCache) : bool := (maxBytes c <? bytes c) || (max c <? Z.of_nat (length (ll c))).

Lemma over_fits c : consistent c → config_ok c →
  over c = false ↔ fits (Z.to_nat (max c)) (maxBytes c) (abs c).
Proof.
  intros Hc [Hm _]. unfold over, fits. rewrite <- (cs_bytes _ Hc). unfold abs. rewrite length_fmap.
  rewrite orb_false_iff, !Z.ltb_ge. split; intros []; split; lia.
Qed.

Lemma abs_nonneg c e : consistent c → e ∈ abs c → 0 <= e_size e.
Proof. intros Hc He. rewrite (cs_size _ Hc e He). apply retained_nonneg. Qed.

Lemma over_last c : consistent c → config_ok c → over c = true →
  ∃ i e l, last (ll c) = Some (i, e) ∧ (i, e) ∈ ll c ∧ abs c = l ++ [e].
Proof.
  intros Hc [Hm Hb] Ho. destruct (last (ll c)) as [[i e]|] eqn:Hlast.
  - apply last_Some in Hlast as [l Hl]. exists i, e, l.*2. split; [done|]. split.
    + rewrite Hl. apply elem_of_app. right. left.
    + unfold abs. by rewrite Hl, fmap_app.
  - apply last_None in Hlast. exfalso. unfold over in Ho. rewrite (cs_bytes _ Hc) in Ho.
    unfold abs, sumZ in Ho. rewrite Hlast in Ho. simpl in Ho.
    apply orb_true_iff in Ho as [Ho|Ho]; bool_hyps; lia.
Qed.

Lemma recordEviction_frame c b :
  ll (recordEviction c b) = ll c ∧ abs (recordEviction c b) = abs c ∧ same_config c (recordEviction c b)
  ∧ (config_ok c → config_ok (recordEviction c b)).
Proof. by destruct b. Qed.

(** The loop ends and leaves the longest prefix within the bounds. *)
Lemma evict_loop_spec fuel c : consistent c → config_ok c → (length (ll c) ≤ fuel)%nat →
  ∃ c', evict_loop fuel c = Some c' ∧ LruInv c' ∧ same_config c c'
        ∧ abs c' = take_fit (Z.to_nat (max c)) (maxBytes c) (abs c).
Proof.
  revert c. induction fuel as [|fuel IH]; intros c Hc Hcfg Hl; cbn [evict_loop]; fold (over c);
    destruct (over c) eqn:Hover.
  2, 4: exists c; split_and!; try done;
    [constructor; try done; unfold over in Hover; bool_hyps; lia
    |symmetry; apply take_fit_fits; [intros; by eapply abs_nonneg|by apply over_fits]].
  - destruct (over_last c) as (i&e&l&_&Hin&_); [done..|]. destruct (ll c); [by apply elem_of_nil in Hin|simpl in Hl; lia].
  - destruct (over_last c) as (i&e&l&Hlast&Hin&Hsplit); [done..|]. rewrite Hlast. cbn [fmap option_fmap option_map fst].
    destruct (removeElement_spec c i e Hc Hin) as (Hc1&Habs1&(Ht1&Hm1&Hb1)&_&Hperm).
    set (b := maxBytes c <? bytes c). set (c1 := removeElement c (Some i)) in *.
    destruct (recordEviction_frame c1 b) as (Hll&Habs2&(Ht2&Hm2&Hb2)&Hok).
    destruct (IH (recordEviction c1 b)) as (c'&He&Hinv&(Ht3&Hm3&Hb3)&Habs).
    + by apply recordEviction_consistent.
    + apply Hok. unfold config_ok. by rewrite Hm1, Hb1.
    + rewrite Hll. apply Permutation_length in Hperm. simpl in Hperm. lia.
    + exists c'. split; [done|]. split; [done|]. split; [by unfold same_config; rewrite Ht3, Ht2, Hm3, Hm2, Hb3, Hb2|].
      rewrite Habs, Habs2, Habs1, Hm2, Hb2, Hm1, Hb1, Hsplit.
      rewrite remove_key_last by (rewrite <- Hsplit; apply Hc). symmetry.
      apply take_fit_snoc; rewrite <- Hsplit; [intros; by apply (abs_nonneg c)|].
      rewrite <- over_fits by done. by rewrite Hover.
Qed.

(** *** The operations *)

Lemma find_abs_head c i e : consistent c → (i, e) ∈ ll c → find_element i (ll c) = Some e.
Proof. intros Hc. apply find_element_Some, Hc. Qed.

(** Storing a fresh head for [key] keeps the structures in step. *)
Lemma insert_head_consistent c i e' : consistent c →
  e_size e' = cacheEntryRetainedBytes (e_key e') (e_matches e') →
  (∀ j, items c !! e_key e' = Some j → j = i) →
  (items c !! e_key e' = None → i = next_element c) →
  (items c !! e_key e' = Some i ∨ items c !! e_key e' = None) →
  let l := filter (λ x, x.1 ≠ i) (ll c) in
  consistent {| c with ll := (i, e') :: l; items := <[e_key e' := i]> (items c);
    next_element := Nat.max (next_element c) (S i); bytes := e_size e' + sumZ e_size l.*2 |}
  ∧ l.*2 = remove_key (e_key e') (abs c).
Proof.
  intros Hc Hsz Hj Hnew Hcase. cbn zeta.
  pose proof Hc as [Hids Hkeys Hit Hnx Hsize Hby Hct].
  assert (∀ x, x ∈ ll c → (x.1 = i ↔ e_key x.2 = e_key e')) as Hkey.
  { intros [j f] Hf. simpl. split.
    - intros ->. destruct Hcase as [Hs|Hn].
      + apply Hit in Hs as (f'&Hf'&<-). by rewrite (ids_unique _ _ _ _ Hids Hf Hf').
      + specialize (Hnx _ _ Hf). rewrite (Hnew Hn) in Hnx. lia.
    - intros Hk. apply Hj. apply Hit. eauto. }
  set (l := filter (λ x, x.1 ≠ i) (ll c)).
  assert (∀ x, x ∈ l ↔ x ∈ ll c ∧ e_key x.2 ≠ e_key e') as Hl.
  { intros x. unfold l. rewrite list_elem_of_filter. split; intros []; split; try done; by rewrite <- Hkey || rewrite Hkey. }
  assert (l `sublist_of` ll c) as Hsub by apply sublist_filter.
  assert (NoDup (i :: l.*1)) as Hids2.
  { apply list.NoDup_cons. split.
    - intros ([j f]&->&Hf%Hl)%list_elem_of_fmap. destruct Hf as [Hf Hne]. by apply Hne, (Hkey _ Hf).
    - eapply sublist_NoDup; [exact Hids|by apply fmap_sublist]. }
  assert (NoDup (e_key e' :: (e_key <$> l.*2))) as Hkeys2.
  { apply list.NoDup_cons. split.
    - intros (f&Heq&(x&->&Hx%Hl)%list_elem_of_fmap)%list_elem_of_fmap. by destruct Hx as [_ []].
    - eapply sublist_NoDup; [exact Hkeys|by do 2 apply fmap_sublist]. }
  split; [constructor|].
  - exact Hids2.
  - exact Hkeys2.
  - intros k j. cbn. rewrite lookup_insert_Some, Hit. split.
    + intros [[<- <-]|[Hne (f&Hf&Hk)]]; [exists e'; split; [left|done]|].
      exists f. split; [|done]. right. apply Hl. split; [done|]. simpl. congruence.
    + intros (f&[[= -> ->]|Hf%Hl]%elem_of_cons&Hk); [by left|]. destruct Hf as [Hf Hne]. right.
      split; [simpl in Hne; congruence|eauto].
  - intros j f. cbn. intros [[= -> ->]|Hf%Hl]%elem_of_cons; [lia|]. destruct Hf as [Hf _].
    specialize (Hnx _ _ Hf). lia.
  - intros f [->|Hf]%elem_of_cons; [done|]. apply Hsize. unfold abs. apply list_elem_of_fmap in Hf as (x&->&Hx%Hl).
    apply list_elem_of_fmap. exists x. split; [done|apply Hx].
  - done.
  - done.
  - unfold l, remove_key, abs. clear -Hkey. induction (ll c) as [|x m IH]; [done|].
    cbn [fmap list_fmap]. rewrite !filter_cons. specialize (IH (λ y Hy, Hkey y (list_elem_of_further _ _ _ Hy))).
    pose proof (Hkey x (list_elem_of_here _ _)) as Hx.
    repeat case_decide; cbn [fmap list_fmap]; rewrite ?IH; tauto || done.
Qed.

Lemma remove_key_elem key l e : e ∈ remove_key key l ↔ e ∈ l ∧ e_key e ≠ key.
Proof. unfold remove_key. rewrite list_elem_of_filter. tauto. Qed.

Lemma consistent_remove_sum c i e : consistent c → (i, e) ∈ ll c →
  sub_size (bytes c) (e_size e) = sumZ e_size (remove_key (e_key e) (abs c)).
Proof.
  intros Hc Hin. destruct (removeElement_spec c i e Hc Hin) as (Hc'&Habs&_).
  rewrite <- Habs, <- (cs_bytes _ Hc'). by rewrite (removeElement_eq c i e).
Qed.

Lemma bytes_split c i e : consistent c → (i, e) ∈ ll c →
  bytes c = e_size e + sumZ e_size (remove_key (e_key e) (abs c)).
Proof.
  intros Hc Hin. destruct (filter_id_key c i e Hc Hin) as [<- Hp]. rewrite (cs_bytes _ Hc), <- sumZ_cons.
  apply sumZ_permutation. unfold abs. apply (fmap_Permutation snd) in Hp. exact Hp.
Qed.

Lemma LruInv_remove c i e : LruInv c → (i, e) ∈ ll c →
  let c' := removeElement c (Some i) in
  LruInv c' ∧ same_config c c' ∧ abs c' = remove_key (e_key e) (abs c).
Proof.
  intros [Hc Hcfg Hb Hl] Hin. destruct (removeElement_spec c i e Hc Hin) as (Hc'&Habs&Hcf&_&Hperm).
  pose proof Hcf as (Ht&Hm&Hmb). split; [|done]. constructor; [done|..].
  - unfold config_ok. by rewrite Hm, Hmb.
  - rewrite Hmb, (removeElement_eq c i e) by done. cbn [bytes]. unfold sub_size.
    assert (0 <= e_size e) by (apply (abs_nonneg c); [done|]; apply list_elem_of_fmap; by exists (i, e)).
    destruct Hcfg. case_match; lia.
  - apply Permutation_length in Hperm. simpl in Hperm. lia.
Qed.

(** [Get]'s local half. *)
Lemma getLocal_spec c key t : LruInv c →
  let '(r, c') := getLocal c key t in
  LruInv c' ∧ same_config c c' ∧ (r, abs c') = spec_get (abs c) key t.
Proof.
  intros Hinv. pose proof Hinv as [Hc Hcfg Hb Hl]. pose proof (consistent_find c key Hc) as Hf.
  unfold getLocal, spec_get. destruct (_ ≫= _) as [[i e]|].
  2:{ destruct Hf as (_&->&_). done. }
  destruct Hf as (Hit&Hin&<-&->). destruct (Before t (e_expires e)).
  2:{ destruct (LruInv_remove c i e Hinv Hin) as (?&?&->). done. }
  assert (e ∈ abs c) as He by (apply list_elem_of_fmap; by exists (i, e)).
  destruct (insert_head_consistent c i e Hc) as [Hc' Habs]; [by apply Hc|congruence|congruence|by left|].
  destruct (filter_id_key c i e Hc Hin) as [Hfk Hperm].
  assert ({| c with ll := move_to_front i e (ll c) |} =
    {| c with ll := (i, e) :: filter (λ x, x.1 ≠ i) (ll c); items := <[e_key e := i]> (items c);
       next_element := Nat.max (next_element c) (S i);
       bytes := e_size e + sumZ e_size (filter (λ x, x.1 ≠ i) (ll c)).*2 |}) as Heq.
  { rewrite insert_id by done. pose proof (cs_next _ Hc _ _ Hin).
    replace (Nat.max _ _) with (next_element c) by lia.
    rewrite Hfk, <- (consistent_remove_sum c i e) by done.
    replace (e_size e + sub_size (bytes c) (e_size e)) with (bytes c); [by destruct c|].
    rewrite (consistent_remove_sum c i e) by done. by apply (bytes_split c i e). }
  split_and!; [|done|unfold abs at 1; cbn; by rewrite Hfk].
  constructor; [by rewrite Heq|done|done|]. apply Permutation_length in Hperm. cbn in *. lia.
Qed.

(** [putLocal] with the value stored, before the eviction loop. *)
Definition store_entry (c : lruCache) (e' : entry) : lruCache :=
  match items c !! e_key e' ≫= λ i, (i,.) <$> find_element i (ll c) with
  | Some (i, e) =>
      {| c with bytes := saturatingAdd (sub_size (bytes c) (e_size e)) (e_size e');
         ll := move_to_front i e' (ll c) |}
  | None =>
      {| c with ll := (next_element c, e') :: ll c;
         items := <[e_key e' := next_element c]> (items c);
         next_element := S (next_element c);
         bytes := saturatingAdd (bytes c) (e_size e') |}
  end.

Lemma remove_sum_bounds c key : LruInv c → 0 <= sumZ e_size (remove_key key (abs c)) <= maxBytes c.
Proof.
  intros [Hc Hcfg Hb _]. assert (∀ e, e ∈ abs c → 0 <= e_size e) as Hp by (intros; by apply (abs_nonneg c)).
  rewrite (cs_bytes _ Hc) in Hb. revert Hb Hp. generalize (abs c). intros l Hb Hp. split.
  - apply sumZ_nonneg. intros e [He _]%remove_key_elem. auto.
  - etrans; [|exact Hb]. clear Hb. induction l as [|e l IH]; [done|]. unfold remove_key. rewrite filter_cons.
    pose proof (Hp e (list_elem_of_here _ _)).
    specialize (IH (λ x Hx, Hp x (list_elem_of_further _ _ _ Hx))). unfold remove_key in IH.
    case_decide; rewrite !sumZ_cons; lia.
Qed.

Lemma store_entry_spec c e' : LruInv c → e_size e' = cacheEntryRetainedBytes (e_key e') (e_matches e') →
  e_size e' <= maxBytes c →
  consistent (store_entry c e') ∧ same_config c (store_entry c e')
  ∧ abs (store_entry c e') = e' :: remove_key (e_key e') (abs c).
Proof.
  intros Hinv Hsz Hfit. pose proof Hinv as [Hc Hcfg Hb Hl].
  pose proof (consistent_find c (e_key e') Hc) as Hf. unfold store_entry.
  assert (0 <= e_size e') by (rewrite Hsz; apply retained_nonneg).
  assert (∀ x, 0 <= x <= maxBytes c → saturatingAdd x (e_size e') = e_size e' + x) as Hadd.
  { clear Hf. intros x Hx. unfold saturatingAdd. destruct Hcfg. unfold int64_max, uint64_max in *. case_match; bool_hyps; lia. }
  pose proof (remove_sum_bounds c (e_key e') Hinv) as Hrs.
  destruct (_ ≫= _) as [[i e]|].
  - destruct Hf as (Hit&Hin&Hk&_).
    destruct (insert_head_consistent c i e' Hc) as [Hc' Habs]; [done|cbn; congruence..|by left|].
    rewrite (consistent_remove_sum c i e) by done. rewrite Hk, Hadd by done. rewrite Habs in Hc'.
    rewrite insert_id in Hc' by done. pose proof (cs_next _ Hc _ _ Hin).
    replace (Nat.max _ _) with (next_element c) in Hc' by lia.
    split_and!; [exact Hc'|done|unfold abs at 1; cbn; by rewrite Habs].
  - destruct Hf as (Hn&_&Hno). rewrite remove_key_notin in * by done.
    destruct (insert_head_consistent c (next_element c) e' Hc) as [Hc' Habs];
      [done|cbn; congruence|done|by right|].
    assert (filter (λ x, x.1 ≠ next_element c) (ll c) = ll c) as Hall.
    { apply filter_all. intros [j f] Hf Hj. pose proof (cs_next _ Hc _ _ Hf). simpl in Hj. lia. }
    rewrite Hall in Hc'. replace (Nat.max _ _) with (S (next_element c)) in Hc' by lia.
    change ((ll c).*2) with (abs c) in Hc'. rewrite <- (cs_bytes _ Hc) in Hc', Hrs. rewrite Hadd by done.
    split_and!; [exact Hc'|done|done].
Qed.

(** [putLocal]. *)
Lemma putLocal_spec c key m t : LruInv c →
  ∃ c', putLocal c key m t = Some c' ∧ LruInv c' ∧ same_config c c' ∧ abs c' = spec_put c (abs c) key m t.
Proof.
  intros Hinv. pose proof Hinv as [Hc Hcfg Hb Hl].
  unfold putLocal, spec_put. set (size := cacheEntryRetainedBytes key m).
  destruct (maxBytes c <? size) eqn:Hover.
  - pose proof (consistent_find c key Hc) as Hf. set (c1 := {| c with oversized := count_up (oversized c) |}).
    assert (LruInv c1) as Hinv1 by (constructor; [by destruct Hc; constructor|done..]).
    destruct (items c !! key) as [i|] eqn:Hi; simpl in Hf.
    2:{ exists c1. split_and!; [by cbn; rewrite Hi|done..|]. by rewrite remove_key_notin by (apply Hf). }
    destruct (find_element i (ll c)) as [e|]; [|by destruct Hf]. simpl in Hf. destruct Hf as (_&Hin&<-&_).
    destruct (LruInv_remove c1 i e Hinv1 Hin) as (Hinv2&Hcf&Habs).
    destruct (recordEviction_frame (removeElement c1 (Some i)) true) as (Hll&Habs2&Hcf2&Hok).
    exists (recordEviction (removeElement c1 (Some i)) true). split_and!; [by cbn; rewrite Hi| | |by rewrite Habs2].
    + destruct Hinv2 as [H1 H2 H3 H4]. constructor; [by apply recordEviction_consistent|by apply Hok|done|by rewrite Hll].
    + destruct Hcf as (?&?&?), Hcf2 as (?&?&?). unfold same_config. split_and!; etrans; eauto.
  - bool_hyps. set (e' := mkEntry key m (t + ttl c) size). fold (store_entry c e').
    destruct (store_entry_spec c e') as (Hc1&(H1&H2&H3)&Habs); [done..|]. cbn zeta.
    destruct (evict_loop_spec (length (ll (store_entry c e'))) (store_entry c e')) as (c'&He&Hi&(H4&H5&H6)&Ha);
      [done|by unfold config_ok; rewrite H2, H3|done|].
    exists c'. split; [exact He|]. split; [done|]. rewrite H2, H3, Habs in Ha. split; [|exact Ha].
    unfold same_config. split_and!; congruence.
Qed.

(** *** Runs of operations *)

Inductive op :=
  | OpGet (key : string) (t : Time)
  | OpPut (key : string) (m : slice Match) (t : Time)
  | OpFlush.

Fixpoint run (ops : list op) (c : lruCache) : option (list (option (slice Match)) * lruCache) :=
  match ops with
  | [] => Some ([], c)
  | OpGet key t :: ops =>
      let '(r, c) := getLocal c key t in
      '(rs, c) ← run ops c; Some (r :: rs, c)
  | OpPut key m t :: ops => c ← putLocal c key m t; run ops c
  | OpFlush :: ops => run ops (Flush c)
  end.

(** The same operations on the list, under the bounds of [c]. *)
Fixpoint spec_run (c : lruCache) (ops : list op) (l : list entry) : list (option (slice Match)) * list entry :=
  match ops with
  | [] => ([], l)
  | OpGet key t :: ops =>
      let '(r, l) := spec_get l key t in
      let '(rs, l) := spec_run c ops l in (r :: rs, l)
  | OpPut key m t :: ops => spec_run c ops (spec_put c l key m t)
  | OpFlush :: ops => spec_run c ops []
  end.

Lemma spec_put_config c c' l key m t : same_config c c' → spec_put c' l key m t = spec_put c l key m t.
Proof. intros (Ht&Hm&Hb). unfold spec_put. by rewrite Ht, Hm, Hb. Qed.

Lemma spec_run_config c c' ops l : same_config c c' → spec_run c' ops l = spec_run c ops l.
Proof.
  intros Hcf. revert l. induction ops as [|[key t|key m t|] ops IH]; intros l; cbn [spec_run]; [done|..].
  - destruct (spec_get l key t) as [r l']. by rewrite IH.
  - by rewrite (spec_put_config c c'), IH.
  - apply IH.
Qed.

Lemma LruInv_Flush c : LruInv c → LruInv (Flush c).
Proof.
  intros [[? ? ? ? ? ? ?] Hcfg Hb Hl]. destruct Hcfg. constructor; [constructor|done|cbn; lia|cbn; lia].
  - constructor.
  - constructor.
  - intros k i. cbn. rewrite lookup_empty. split; [done|]. by intros (e&He%elem_of_nil&_).
  - intros i e He. by apply elem_of_nil in He.
  - intros e He. by apply elem_of_nil in He.
  - done.
  - done.
Qed.

(** C38: The map, the linked list and the byte counter implement a recency-ordered
    list: any sequence of gets, puts and flushes ends (the eviction loop
    included), returns what the list returns, and leaves the longest recency
    prefix inside the entry and byte bounds, with exact byte accounting. *)
Theorem lru_refines ops c : LruInv c →
  ∃ rs c', run ops c = Some (rs, c') ∧ LruInv c' ∧ (rs, abs c') = spec_run c ops (abs c).
Proof.
  revert c. induction ops as [|[key t|key m t|] ops IH]; intros c Hinv; cbn [run spec_run].
  - by exists [], c.
  - pose proof (getLocal_spec c key t Hinv) as Hg. destruct (getLocal c key t) as [r c1].
    destruct Hg as (Hinv1&Hcf&<-). destruct (IH c1 Hinv1) as (rs&c'&->&Hinv'&Hr).
    exists (r :: rs), c'. split; [done|]. split; [done|]. rewrite (spec_run_config c c1) in Hr by done. by rewrite <- Hr.
  - destruct (putLocal_spec c key m t Hinv) as (c1&->&Hinv1&Hcf&<-). cbn.
    destruct (IH c1 Hinv1) as (rs&c'&->&Hinv'&Hr). exists rs, c'. rewrite (spec_run_config c c1) in Hr by done. done.
  - destruct (IH (Flush c)) as (rs&c'&->&Hinv'&Hr); [by apply LruInv_Flush|]. exists rs, c'.
    by rewrite (spec_run_config c (Flush c)) in Hr.
Qed.

Lemma find_key_head e l : find_key (e_key e) (e :: l) = Some e.
Proof. unfold find_key. rewrite filter_cons, decide_True by done. done. Qed.

(** A value that fits the budget is served back until its TTL runs out; one
    that does not fit is refused, and takes only its own key with it. *)
Theorem put_then_get c key m t : LruInv c →
  ∃ c', putLocal c key m t = Some c' ∧ LruInv c'
  ∧ (cacheEntryRetainedBytes key m <= maxBytes c →
     ∀ t', fst (getLocal c' key t') = if Before t' (t + ttl c) then Some m else None)
  ∧ (maxBytes c < cacheEntryRetainedBytes key m → abs c' = remove_key key (abs c)).
Proof.
  intros Hinv. destruct (putLocal_spec c key m t Hinv) as (c'&Hput&Hinv'&_&Habs).
  exists c'. split; [done|]. split; [done|]. unfold spec_put in Habs. split.
  - intros Hfit t'. replace (maxBytes c <? _) with false in Habs by lia.
    destruct (li_config _ Hinv) as [Hm _]. destruct (Z.to_nat (max c)) eqn:Hn; [lia|]. cbn [take_fit e_size] in Habs.
    replace (_ <=? maxBytes c) with true in Habs by lia.
    pose proof (getLocal_spec c' key t' Hinv') as Hg. destruct (getLocal c' key t') as [r c2].
    destruct Hg as (_&_&Hg). unfold spec_get in Hg. rewrite Habs in Hg.
    rewrite (find_key_head (mkEntry key m (t + ttl c) (cacheEntryRetainedBytes key m))) in Hg. cbn in Hg. cbn.
    by destruct (Before t' (t + ttl c)); simplify_eq.
  - intros Hbig. by replace (maxBytes c <? _) with true in Habs by lia.
Qed.

(** A configured cache starts empty and inside its bounds. *)
Lemma NewCache_inv cfg parsed c : CacheMaxBytes cfg <= int64_max →
  NewCache cfg parsed = Some c → LruInv (local c) ∧ abs (local c) = [] ∧ 0 < ttl (local c).
Proof.
  unfold NewCache, int64_max. intros Hmb. destruct (CacheTTL cfg <=? 0) eqn:Ht; [done|]. intros [= <-]. bool_hyps.
  split; [|split; [done|exact Ht]]. constructor; [constructor|..].
  1-2: constructor.
  - intros k i. cbn. rewrite lookup_empty. split; [done|]. by intros (e&He%elem_of_nil&_).
  - intros i e He. by apply elem_of_nil in He.
  - intros e He. by apply elem_of_nil in He.
  - done.
  - done.
  - unfold config_ok, int64_max. cbn [max maxBytes local].
    destruct (CacheSize cfg <? 1) eqn:?, (CacheMaxBytes cfg <? 1) eqn:?; bool_hyps; split; try lia; done.
  - cbn [bytes maxBytes local]. destruct (CacheMaxBytes cfg <? 1) eqn:?; bool_hyps; [done|lia].
  - cbn [ll max local length]. destruct (CacheSize cfg <? 1) eqn:?; bool_hyps; lia.
Qed.

(** ** The Redis layer *)
Section RedisProofs.
#[local] Arguments string_take : simpl never.
#[local] Arguments string_drop : simpl never.
Context {R : RedisEnv} {ROk : RedisEnvOk R}.

Lemma hmac_length k v : String.length (hmac_sha256 k v) = macLen.
Proof. pose proof (hmac_sha256_len k v) as H. unfold len in H. unfold macLen. lia. Qed.

Lemma open_iff key rk framed value : key ≠ "" →
  openRedisValue key rk framed = Some value ↔ value ≠ "" ∧ framed = sealRedisValue key rk value.
Proof.
  intros Hk. unfold openRedisValue, sealRedisValue.
  assert (len key =? 0 = false) as -> by (apply Z.eqb_neq; by rewrite len_zero).
  split.
  - case_match eqn:Hl; [done|]. bool_hyps. destruct framed as [|c body]; [done|].
    destruct (negb _) eqn:Hc; [done|]. apply negb_false_iff, bool_decide_eq_true in Hc as ->.
    case_bool_decide as Hm; [|done]. intros Hs. apply (inj Some) in Hs.
    pose proof (string_take_drop macLen body) as Hsplit. rewrite Hs in Hm, Hsplit. split.
    + intros Hv. rewrite Hv, string_app_nil_r in Hsplit. rewrite <- Hsplit in Hl.
      rewrite string_length_S, string_take_len in Hl. lia.
    + rewrite <- Hm. by rewrite Hsplit.
  - intros [Hv ->]. assert (1 <= len value) as Hlv.
    { pose proof (len_nonneg value). pose proof (proj1 (len_zero value)). destruct (Z.eq_dec (len value) 0); [by apply H0 in e|lia]. }
    rewrite string_length_S, string_app_len. unfold redisMAC. rewrite hmac_sha256_len.
    change (1 + Z.of_nat macLen) with 33. replace (_ <=? 33) with false by lia.
    rewrite bool_decide_eq_true_2 by done. cbn [negb].
    pose proof (string_take_app (hmac_sha256 key (rk +:+ nul +:+ value)) value) as Ht.
    pose proof (string_drop_app (hmac_sha256 key (rk +:+ nul +:+ value)) value) as Hd.
    rewrite hmac_length in Ht, Hd. unfold redisMAC. rewrite Hd, Ht. by rewrite bool_decide_eq_true_2.
Qed.

(** With a MAC key the frame accepts exactly what [sealRedisValue] produced for
    the same redis key, an empty value apart: a legacy value, a value sealed
    under another redis key or another MAC, is a miss. *)
Theorem openRedisValue_iff key rk framed value : key ≠ "" →
  openRedisValue key rk framed = Some value ↔ value ≠ "" ∧ framed = sealRedisValue key rk value.
Proof. apply open_iff. Qed.

Lemma open_seal key rk value : value ≠ "" → openRedisValue key rk (sealRedisValue key rk value) = Some value.
Proof.
  intros Hv. destruct (decide (key = "")) as [->|He]; [done|]. by apply open_iff.
Qed.

(** A value written through the layer is read back under the same key, MAC or
    not, whenever the breaker lets both operations through, as the verdict
    [encoding/json] makes of it. *)
Theorem redis_roundtrip r key m t1 ok t2 t3 t4 reply w r1 :
  redis_put r key m t1 ok t2 = (Some w, r1) → breaker_allow (br r1) t3 = true →
  reply w.1 = RedisHit w.2 →
  ∃ m', redis_get r1 key t3 reply t4 = (Some m', {| r1 with br := mkBreaker 0 0 |}) ∧ json_verdict m m'.
Proof.
  unfold redis_put. case_match; [done|]. destruct (marshalMatches m) as [b|] eqn:Hb; [|done].
  intros [= <- <-] Ha Hr. apply unmarshal_marshal_matches in Hb as (Hne&m'&Hb&Hj). exists m'. split; [|done]. unfold redis_get.
  rewrite Ha. cbn in Hr |- *. rewrite Hr. by rewrite open_seal, Hb.
Qed.

(** What [Get] returns comes from the local layer or, with a MAC key, from a
    value sealed under this very key; the local layer keeps its invariant. *)
Theorem Get_authentic others c key t0 t1 reply t2 t3 : LruInv (local c) → (∀ l, LruInv l → LruInv (others l)) →
  ∃ r c', Get others c key t0 t1 reply t2 t3 = Some (r, c') ∧ LruInv (local c')
  ∧ (∀ m, r = Some m → fst (getLocal (local c) key t0) = Some m
       ∨ ∃ rl b, redis c = Some rl ∧ unmarshalMatches b = Some m
           ∧ reply (prefix rl +:+ key) = RedisHit (if len (macKey rl) =? 0 then b
                                                   else sealRedisValue (macKey rl) (prefix rl +:+ key) b)).
Proof.
  intros Hinv Ho. unfold Get. pose proof (getLocal_spec (local c) key t0 Hinv) as Hg.
  destruct (getLocal (local c) key t0) as [[m|] l]; destruct Hg as (Hinv1&_&_).
  - eexists _, _. split_and!; [done|done|]. intros m' [= <-]. by left.
  - destruct (redis c) as [rl|] eqn:Hrl; [|by eexists _, _].
    destruct (redis_get rl key t1 reply t2) as [[m|] rl'] eqn:Hget.
    + destruct (putLocal_spec (others l) key m t3) as (l'&->&Hinv2&_); [by apply Ho|]. cbn.
      eexists _, _. split_and!; [done|done|]. intros m' [= <-]. right. exists rl.
      unfold redis_get in Hget. case_match; [done|]. destruct (reply (prefix rl +:+ key)) as [b| |] eqn:Hr; [|done..].
      cbn in Hget. destruct (openRedisValue _ _ b) as [v|] eqn:Hopen; [|done]. exists v.
      split; [done|]. split; [congruence|]. f_equal. destruct (len (macKey rl) =? 0) eqn:Hz.
      * unfold openRedisValue in Hopen. rewrite Hz in Hopen. congruence.
      * apply open_iff in Hopen as [_ ->]; [done|]. intros He. by rewrite He in Hz.
    + eexists _, _. split_and!; [done|by apply Ho|done].
Qed.

End RedisProofs.

(** *** What JSON keeps of a verdict *)

Lemma json_meta_ascii m m' k : json_match m m' → string_forallb is_ascii k = true → meta_map m' !! k = json_string <$> meta_map m !! k.
Proof.
  intros [_ _ _ Hk Hv] Ha. destruct (meta_map m' !! k) as [v'|] eqn:E.
  - destruct (Hv k v' E) as (k0&v&Hm&Hk0&->). symmetry in Hk0. apply json_string_ascii in Hk0 as ->; [|done]. by rewrite Hm.
  - destruct (meta_map m !! k) as [v|] eqn:Hm; [|done]. destruct (Hk k v Hm) as [v' Hv']. rewrite (proj2 (json_string_ascii k k Ha) eq_refl) in Hv'. congruence.
Qed.

Lemma json_meta_value m m' k a : json_match m m' → string_forallb is_ascii k = true → string_forallb is_ascii a = true →
  meta_map m' !! k = Some a ↔ meta_map m !! k = Some a.
Proof.
  intros Hj Hk Ha. rewrite (json_meta_ascii m m' k Hj Hk). split.
  - intros (v&Hm&He)%fmap_Some. symmetry in He. apply json_string_ascii in He as ->; done.
  - intros ->. cbn. f_equal. by apply json_string_ascii.
Qed.

(** *** The breaker *)

Inductive BreakerEvent := BrOk | BrFail (t : Time).

Definition breaker_step (b : redisBreaker) (e : BreakerEvent) : redisBreaker :=
  match e with BrOk => breaker_ok b | BrFail t => breaker_fail b t end.

(** The failures since the last success, in order. *)
Fixpoint trailing (acc : list Time) (es : list BreakerEvent) : list Time :=
  match es with
  | [] => acc
  | BrOk :: es => trailing [] es
  | BrFail t :: es => trailing (acc ++ [t]) es
  end.

(** The state after a run of [ts] failures: every fifth one opens the breaker. *)
Definition breaker_after (ts : list Time) : redisBreaker :=
  let n := length ts in
  mkBreaker (Z.of_nat (n mod 5)) (match (n / 5)%nat with
                                 | O => 0
                                 | S k => default 0 (ts !! (5 * k + 4)%nat) + breakerCooldown
                                 end).

Lemma breaker_after_fail ts t : breaker_fail (breaker_after ts) t = breaker_after (ts ++ [t]).
Proof.
  unfold breaker_fail, breaker_after, breakerTrip. cbn [fails openUntil]. rewrite length_app. cbn [length].
  set (n := length ts). pose proof (Nat.div_mod n 5 ltac:(lia)) as Hn. pose proof (Nat.mod_upper_bound n 5 ltac:(lia)).
  destruct (decide (n mod 5 = 4)%nat) as [H4|H4].
  - replace (5 <=? Z.of_nat (n mod 5) + 1) with true by lia.
    assert ((n + 1) mod 5 = 0)%nat as -> by (symmetry; apply (Nat.mod_unique _ _ (S (n / 5))); lia).
    assert ((n + 1) / 5 = S (n / 5))%nat as -> by (symmetry; apply (Nat.div_unique _ _ _ 0); lia).
    rewrite lookup_app_r by (fold n; lia). fold n. replace (5 * (n / 5) + 4 - n)%nat with 0%nat by lia. done.
  - replace (5 <=? Z.of_nat (n mod 5) + 1) with false by lia.
    assert ((n + 1) mod 5 = S (n mod 5))%nat as -> by (symmetry; apply (Nat.mod_unique _ _ (n / 5)); lia).
    assert ((n + 1) / 5 = n / 5)%nat as -> by (symmetry; apply (Nat.div_unique _ _ _ (S (n mod 5))); lia).
    f_equal; [lia|]. destruct (n / 5)%nat as [|k] eqn:Hk; [done|].
    rewrite lookup_app_l by (fold n; lia). done.
Qed.

(** The state of the breaker is a function of the failures since the last
    success: it is open for [breakerCooldown] after every fifth of them, and
    closed otherwise. *)
Theorem breaker_history es : foldl breaker_step (mkBreaker 0 0) es = breaker_after (trailing [] es).
Proof.
  assert (∀ acc, foldl breaker_step (breaker_after acc) es = breaker_after (trailing acc es)) as H; [|apply (H [])].
  induction es as [|[|t] es IH]; intros acc; [done|apply (IH [])|]. cbn [foldl breaker_step trailing].
  by rewrite breaker_after_fail, IH.
Qed.

(** A breaker that tripped at [t] refuses until the cooldown has passed; then it
    allows every operation, and a failed probe does not open it again: four
    more failures are let through first. *)
Theorem breaker_half_open ts t t1 probes :
  (length ts mod 5 = 4)%nat → (length probes < 5)%nat →
  let b := breaker_after (ts ++ [t]) in
  breaker_allow b t1 = bool_decide (t + breakerCooldown <= t1)
  ∧ (t + breakerCooldown <= t1 → breaker_allow (foldl breaker_fail b probes) t1 = true).
Proof.
  intros Hts Hp. cbn zeta. rewrite <- breaker_after_fail.
  assert (breaker_fail (breaker_after ts) t = mkBreaker 0 (t + breakerCooldown)) as ->.
  { unfold breaker_fail, breaker_after. cbn [fails]. by rewrite Hts. }
  unfold breaker_allow, Before. split.
  - cbn [openUntil]. case_bool_decide; destruct (_ <? _) eqn:?; bool_hyps; done || lia.
  - intros Ht1. assert (∀ n, n + Z.of_nat (length probes) < 5 → 0 <= n →
      openUntil (foldl breaker_fail (mkBreaker n (t + breakerCooldown)) probes) = t + breakerCooldown) as H.
    { clear Hp. induction probes as [|p ps IH]; intros n Hn H0; [done|]. cbn [foldl length] in *.
      unfold breaker_fail at 2. unfold breakerTrip. cbn [fails]. replace (5 <=? n + 1) with false by lia.
      apply IH; lia. }
    rewrite H by lia. apply negb_true_iff. by apply Z.ltb_ge.
Qed.
