(* ===== verification/Effort.v ===== *)
(** * Effort tiers

    [internal/mailstrix/effort.go], the effort bounds of [config.go] and the
    pressure-driven default of [server.go].  [float64] expressions are rounded
    operation by operation, as on targets without fused multiply-add. *)

From Stdlib Require Import ZArith Lia SpecFloat.
From stdpp Require Import base strings list numbers sorting.
From S2P Require Import Prelude GoStd.

Local Open Scope Z_scope.

Record EffortProfile := mkEffortProfile {
  Level : Z;
  DecodeDepth : Z;
  DecodeIterations : Z;
  PDFDeepen : bool;
  ReputationFeeds : bool;
  ScanTimeout : Duration;
  XLMFoldSheets : Z;
  XLMFoldFormulas : Z
}.

Definition fullDecodeDepth : Z := 4.
Definition fullDecodeIters : Z := 256.
Definition minDecodeIters : Z := 64.
Definition fullXLMFoldSheets : Z := 64.
Definition fullXLMFoldFormulas : Z := 4096.
Definition minXLMFoldSheets : Z := 4.
Definition minXLMFoldFormulas : Z := 256.
Definition minScanTimeout : Duration := 1 * second.
Definition defaultEffortMax : Z := 10.
Definition maxEffortCeiling : Z := 10.

(** [min + int(frac*float64(full-min)+0.5)] *)
Definition scaled_cap (lo hi : Z) (frac : float64) : Z :=
  lo + f64_trunc (f64_add (f64_mul frac (f64_of_Z (hi - lo))) f64_half).

Definition effort_frac (level effortMax : Z) : float64 :=
  if 1 <? effortMax then f64_div (f64_of_Z (level - 1)) (f64_of_Z (effortMax - 1)) else f64_of_Z 1.

Definition scan_timeout (base : Duration) (frac : float64) : Duration :=
  if 0 <? base then
    let scaled := f64_trunc (f64_mul (f64_of_Z base) (f64_add f64_half (f64_mul f64_half frac))) in
    if scaled <? minScanTimeout then minScanTimeout else scaled
  else 0.

Definition EffortProfileFor (level effortMax : Z) (baseScanTimeout : Duration) : EffortProfile :=
  let effortMax := if effortMax <? 1 then 1 else effortMax in
  let level := if level <? 1 then 1 else level in
  let level := if effortMax <? level then effortMax else level in
  let frac := effort_frac level effortMax in
  let depth := scaled_cap 1 fullDecodeDepth frac in
  let depth := if depth <? 1 then 1 else depth in
  let depth := if fullDecodeDepth <? depth then fullDecodeDepth else depth in
  let iters := scaled_cap minDecodeIters fullDecodeIters frac in
  let iters := if fullDecodeIters <? iters then fullDecodeIters else iters in
  let scanTimeout := scan_timeout baseScanTimeout frac in
  let xlmSheets := scaled_cap minXLMFoldSheets fullXLMFoldSheets frac in
  let xlmSheets := if fullXLMFoldSheets <? xlmSheets then fullXLMFoldSheets else xlmSheets in
  let xlmFormulas := scaled_cap minXLMFoldFormulas fullXLMFoldFormulas frac in
  let xlmFormulas := if fullXLMFoldFormulas <? xlmFormulas then fullXLMFoldFormulas else xlmFormulas in
  mkEffortProfile level depth iters
    (f64_ltb (f64_div (f64_of_Z 1) (f64_of_Z 5)) frac)
    (f64_leb f64_half frac)
    scanTimeout xlmSheets xlmFormulas.

Definition resolveScanEffort (metaEffort effortMax : Z) : Z := if metaEffort <? 1 then effortMax else metaEffort.

Record Options := mkOptions {
  o_Deadline : Time;
  o_DecodeDepth : Z;
  o_DecodeIterations : Z;
  o_PDFDeepen : bool;
  o_XLMFoldSheets : Z;
  o_XLMFoldFormulas : Z;
  o_RetainedBytesLimit : Z;
  o_ArchivePWEnabled : bool;
  o_PWCandidates : list string
}.

Definition ExtractOptions (p : EffortProfile) (deadline : Time) : Options :=
  mkOptions deadline (DecodeDepth p) (DecodeIterations p) (PDFDeepen p) (XLMFoldSheets p) (XLMFoldFormulas p)
    0 false [].

(** [autoTargetLevel]; Go's integer division truncates. *)
Definition autoTargetLevel (occupied capacity idleLevel effortMax : Z) : Z :=
  let effortMax := if effortMax <? 1 then 1 else effortMax in
  let idleLevel := if idleLevel <? 1 then 1 else idleLevel in
  let idleLevel := if effortMax <? idleLevel then effortMax else idleLevel in
  if capacity <=? 1 then idleLevel
  else
    let occupied := if occupied <? 1 then 1 else occupied in
    let occupied := if capacity <? occupied then capacity else occupied in
    let span := idleLevel - 1 in
    if span <=? 0 then idleLevel
    else
      let num := (occupied - 1) * span in
      let den := capacity - 1 in
      let drop := Z.quot (num + Z.quot den 2) den in
      let level := idleLevel - drop in
      if level <? 1 then 1 else level.

Definition autoStepLevel (cur target : Z) : Z :=
  if cur <? 1 then target
  else if cur <? target then cur + 1
  else if target <? cur then cur - 1
  else cur.

Definition ResolveEffortLevel (headerVal : Z) (headerSet : bool) (envDefault effortMax : Z) : Z :=
  let level := if headerSet then headerVal else envDefault in
  let effortMax := if effortMax <? 1 then 1 else effortMax in
  let level := if level <? 1 then 1 else level in
  if effortMax <? level then effortMax else level.

(** The effort part of [Config.sanitize]: [(Effort, EffortMax)]. *)
Definition sanitizeEffort (effort effortMax : Z) : Z * Z :=
  let effortMax := if (effortMax <? 1) || (maxEffortCeiling <? effortMax) then defaultEffortMax else effortMax in
  let effort := if effort =? 0 then effortMax else effort in
  (if effort <? 1 then 1 else if effortMax <? effort then effortMax else effort, effortMax).

(** The compare-and-swap loop of [autoEnvDefault]: [interference] are the
    values other scans stored between a load and its failed swap.  The result
    is the value replaced and the value stored (and returned). *)
Fixpoint cas_loop (target cur : Z) (interference : list Z) : Z * Z :=
  match interference with
  | [] => (cur, autoStepLevel cur target)
  | cur' :: rest => if cur' =? cur then (cur, autoStepLevel cur target) else cas_loop target cur' rest
  end.

Definition autoEnvDefault (effortAuto canAuto : bool) (effort effortMax occupied capacity autoEffort : Z)
    (interference : list Z) : Z * Z :=
  if negb effortAuto || negb canAuto then (effort, autoEffort)
  else
    let target := autoTargetLevel occupied capacity effort effortMax in
    let '(_, next) := cas_loop target autoEffort interference in (next, next).

(** ** Caps

    The resolved level and the ceiling range over [1, 10], so the float
    arithmetic is checked at every point. *)
Definition clamp (lo hi x : Z) : Z := Z.max lo (Z.min hi x).

Lemma EffortProfileFor_clamp level effortMax base :
  EffortProfileFor level effortMax base =
  EffortProfileFor (clamp 1 (Z.max 1 effortMax) level) (Z.max 1 effortMax) base.
Proof.
  unfold EffortProfileFor, clamp.
  replace (Z.max 1 effortMax <? 1) with false by lia.
  replace (Z.max 1 (Z.min (Z.max 1 effortMax) level) <? 1) with false by lia.
  replace (Z.max 1 effortMax <? Z.max 1 (Z.min (Z.max 1 effortMax) level)) with false by lia.
  replace (if effortMax <? 1 then 1 else effortMax) with (Z.max 1 effortMax) by (case_match; bool_hyps; lia).
  replace (if Z.max 1 effortMax <? (if level <? 1 then 1 else level) then Z.max 1 effortMax
           else if level <? 1 then 1 else level) with (Z.max 1 (Z.min (Z.max 1 effortMax) level))
    by (repeat case_match; bool_hyps; lia).
  done.
Qed.

Definition caps_ok (p : EffortProfile) : bool :=
  (1 <=? DecodeDepth p) && (DecodeDepth p <=? fullDecodeDepth)
  && (minDecodeIters <=? DecodeIterations p) && (DecodeIterations p <=? fullDecodeIters)
  && (minXLMFoldSheets <=? XLMFoldSheets p) && (XLMFoldSheets p <=? fullXLMFoldSheets)
  && (minXLMFoldFormulas <=? XLMFoldFormulas p) && (XLMFoldFormulas p <=? fullXLMFoldFormulas).

Definition caps_le (p q : EffortProfile) : bool :=
  (DecodeDepth p <=? DecodeDepth q) && (DecodeIterations p <=? DecodeIterations q)
  && implb (PDFDeepen p) (PDFDeepen q) && implb (ReputationFeeds p) (ReputationFeeds q)
  && (XLMFoldSheets p <=? XLMFoldSheets q) && (XLMFoldFormulas p <=? XLMFoldFormulas q).

Definition full_depth (p : EffortProfile) : bool :=
  (DecodeDepth p =? fullDecodeDepth) && (DecodeIterations p =? fullDecodeIters) && PDFDeepen p
  && ReputationFeeds p && (XLMFoldSheets p =? fullXLMFoldSheets) && (XLMFoldFormulas p =? fullXLMFoldFormulas).

Definition cheapest (p : EffortProfile) : bool :=
  (DecodeDepth p =? 1) && (DecodeIterations p =? minDecodeIters) && negb (PDFDeepen p)
  && negb (ReputationFeeds p) && (XLMFoldSheets p =? minXLMFoldSheets) && (XLMFoldFormulas p =? minXLMFoldFormulas).

Definition check_levels : bool :=
  forallb (λ em, forallb (λ l,
    let p := EffortProfileFor l em 0 in
    caps_ok p && implb (l =? em) (full_depth p) && implb ((l =? 1) && (1 <? em)) (cheapest p)
    && forallb (λ l', implb (l <=? l') (caps_le p (EffortProfileFor l' em 0))) (seqZ 1 em))
    (seqZ 1 em)) (seqZ 1 10).

Lemma check_levels_ok : check_levels = true.
Proof. vm_compute. reflexivity. Qed.

Lemma forallb_seqZ f n x : forallb f (seqZ 1 n) = true → 1 <= x <= n → f x = true.
Proof. intros H Hx. apply (proj1 (List.forallb_forall _ _) H). apply list_elem_of_In, elem_of_seqZ. lia. Qed.

(** The caps of two profiles do not depend on the time budget. *)
Lemma caps_base l em b b' :
  caps_ok (EffortProfileFor l em b) = caps_ok (EffortProfileFor l em b')
  ∧ full_depth (EffortProfileFor l em b) = full_depth (EffortProfileFor l em b')
  ∧ cheapest (EffortProfileFor l em b) = cheapest (EffortProfileFor l em b')
  ∧ ∀ l' c c', caps_le (EffortProfileFor l em b) (EffortProfileFor l' em c)
               = caps_le (EffortProfileFor l em b') (EffortProfileFor l' em c').
Proof. done. Qed.

(** Every level resolves to caps within their floors and ceilings; a higher
    level never lowers a cap or drops a pass; the ceiling runs everything at
    full depth and the lowest level of a longer dial runs the cheapest set. *)
Theorem EffortProfileFor_caps level level' effortMax base base' : effortMax <= maxEffortCeiling →
  let p := EffortProfileFor level effortMax base in
  Level p = clamp 1 (Z.max 1 effortMax) level
  ∧ caps_ok p = true
  ∧ (level <= level' → caps_le p (EffortProfileFor level' effortMax base') = true)
  ∧ (effortMax <= level → 1 <= level → full_depth p = true)
  ∧ (level <= 1 < effortMax → cheapest p = true).
Proof.
  intros Hem. cbn zeta. unfold maxEffortCeiling in Hem.
  rewrite (EffortProfileFor_clamp level), (EffortProfileFor_clamp level').
  set (em := Z.max 1 effortMax) in *. set (l := clamp 1 em level). set (l' := clamp 1 em level').
  assert (1 <= em <= 10) as He by lia.
  assert (∀ x, 1 <= clamp 1 em x <= em) as Hcl by (unfold clamp; lia).
  pose proof (Hcl level) as Hl. pose proof (Hcl level') as Hl'. fold l in Hl. fold l' in Hl'.
  pose proof (forallb_seqZ _ _ _ (forallb_seqZ _ _ _ check_levels_ok He) Hl) as H. cbn zeta beta in H.
  apply andb_true_iff in H as [H Hmono]. apply andb_true_iff in H as [H Hlow].
  apply andb_true_iff in H as [Hok Hfull].
  destruct (caps_base l em base 0) as (->&->&->&Hle).
  split_and!; [|exact Hok|..].
  - cbn [Level EffortProfileFor]. replace (em <? 1) with false by lia.
    replace (l <? 1) with false by lia. by replace (em <? l) with false by lia.
  - intros Hlev. rewrite (Hle l' base' 0). pose proof (forallb_seqZ _ _ _ Hmono Hl') as Hm. cbn beta in Hm.
    replace (l <=? l') with true in Hm by (symmetry; apply Z.leb_le; unfold l, l', clamp; lia). exact Hm.
  - intros ??. replace (l =? em) with true in Hfull by (symmetry; apply Z.eqb_eq; unfold l, clamp; lia). exact Hfull.
  - intros ?. replace ((l =? 1) && (1 <? em)) with true in Hlow; [exact Hlow|].
    symmetry. apply andb_true_iff. unfold l, clamp. split; [apply Z.eqb_eq|apply Z.ltb_lt]; lia.
Qed.

(** A non-positive base means no limit; a positive one is never scaled below
    [minScanTimeout], which raises a shorter configured timeout even at the
    ceiling; the default of eight seconds ramps from four to exactly eight. *)
Theorem scan_timeout_spec level effortMax base :
  (base <= 0 → ScanTimeout (EffortProfileFor level effortMax base) = 0)
  ∧ (0 < base → minScanTimeout <= ScanTimeout (EffortProfileFor level effortMax base))
  ∧ ScanTimeout (EffortProfileFor 10 10 (second / 2)) = second
  ∧ (ScanTimeout <$> ((λ l, EffortProfileFor l 10 (8 * second)) <$> seqZ 1 10)) =
    [4000000000; 4444444444; 4888888888; 5333333333; 5777777777; 6222222222; 6666666666; 7111111111;
     7555555555; 8000000000].
Proof.
  split_and!; [| |by vm_compute|by vm_compute].
  - intros Hb. cbn [ScanTimeout EffortProfileFor]. unfold scan_timeout. by replace (0 <? base) with false by lia.
  - intros Hb. cbn [ScanTimeout EffortProfileFor]. unfold scan_timeout. replace (0 <? base) with true by lia.
    cbn zeta. case_match; bool_hyps; lia.
Qed.

(** ** The pressure-driven level *)

Lemma quot_round_mono a b d : 0 < d → 0 <= a <= b → Z.quot (a + Z.quot d 2) d <= Z.quot (b + Z.quot d 2) d.
Proof. intros. assert (0 <= Z.quot d 2) by (apply Z.quot_pos; lia). apply Z.quot_le_mono; lia. Qed.

Lemma quot_round_exact d s : 0 < d → Z.quot (d * s + Z.quot d 2) d = s \/ s < 0.
Proof.
  intros Hd. destruct (Z.lt_ge_cases s 0) as [|Hs]; [by right|]. left.
  assert (0 <= Z.quot d 2 < d) as Hq.
  { rewrite Z.quot_div_nonneg by lia. split; [apply Z.div_pos; lia|apply Z.div_lt; lia]. }
  rewrite Z.quot_div_nonneg by nia. symmetry. apply Z.div_unique with (Z.quot d 2); [left; lia|lia].
Qed.

(** The target stays inside [1, idle], never rises with the occupancy, is the
    idle level when the request is alone or the gate unbounded and 1 when the
    gate is full. *)
Theorem autoTargetLevel_spec occupied occupied' capacity idleLevel effortMax :
  let idle := clamp 1 (Z.max 1 effortMax) idleLevel in
  let target o := autoTargetLevel o capacity idleLevel effortMax in
  1 <= target occupied <= idle
  ∧ (occupied <= occupied' → target occupied' <= target occupied)
  ∧ (occupied <= 1 ∨ capacity <= 1 → target occupied = idle)
  ∧ (1 < capacity <= occupied → target occupied = 1).
Proof.
  cbn zeta beta. set (idle := clamp _ _ _). set (o := λ x, clamp 1 capacity x).
  assert (1 <= idle) as Hi by (unfold idle, clamp; lia).
  assert (∀ x, autoTargetLevel x capacity idleLevel effortMax =
    if capacity <=? 1 then idle else if idle - 1 <=? 0 then idle
    else Z.max 1 (idle - Z.quot ((o x - 1) * (idle - 1) + Z.quot (capacity - 1) 2) (capacity - 1))) as Heq.
  { intros x. unfold autoTargetLevel.
    replace (if (if effortMax <? 1 then 1 else effortMax) <? (if idleLevel <? 1 then 1 else idleLevel)
             then if effortMax <? 1 then 1 else effortMax else if idleLevel <? 1 then 1 else idleLevel) with idle
      by (unfold idle, clamp; repeat case_match; bool_hyps; lia).
    destruct (capacity <=? 1) eqn:Hc; [done|]. bool_hyps.
    replace (if capacity <? (if x <? 1 then 1 else x) then capacity else if x <? 1 then 1 else x) with (o x)
      by (unfold o, clamp; repeat case_match; bool_hyps; lia).
    destruct (idle - 1 <=? 0); [done|]. cbn zeta. case_match; bool_hyps; lia. }
  rewrite !Heq. destruct (capacity <=? 1) eqn:Hc; bool_hyps; [split_and!; lia|].
  destruct (idle - 1 <=? 0) eqn:Hs; bool_hyps; [split_and!; lia|].
  assert (∀ x, 1 <= o x <= capacity) as Ho by (unfold o, clamp; lia).
  assert (∀ x, 0 <= Z.quot ((o x - 1) * (idle - 1) + Z.quot (capacity - 1) 2) (capacity - 1)) as Hq.
  { intros x. specialize (Ho x). apply Z.quot_pos; [|lia].
    assert (0 <= Z.quot (capacity - 1) 2) by (apply Z.quot_pos; lia). nia. }
  pose proof (Hq occupied). split_and!; [lia|lia|..].
  - intros Hle. assert (o occupied <= o occupied') by (unfold o, clamp; lia). pose proof (Ho occupied).
    pose proof (quot_round_mono ((o occupied - 1) * (idle - 1)) ((o occupied' - 1) * (idle - 1)) (capacity - 1)
      ltac:(lia) ltac:(nia)). lia.
  - intros [H1|H1]; [|lia]. replace (o occupied) with 1 by (unfold o, clamp; lia).
    destruct (quot_round_exact (capacity - 1) 0) as [Hx|]; [lia| |lia].
    replace ((1 - 1) * (idle - 1)) with ((capacity - 1) * 0) by lia. rewrite Hx. lia.
  - intros H1. replace (o occupied) with capacity by (unfold o, clamp; lia).
    destruct (quot_round_exact (capacity - 1) (idle - 1)) as [->|]; lia.
Qed.

Lemma autoStepLevel_step cur target : 1 <= cur →
  autoStepLevel cur target = cur + Z.sgn (target - cur).
Proof. intros. unfold autoStepLevel. repeat case_match; bool_hyps; lia. Qed.

(** Smoothing moves one level per scan and settles on a steady target. *)
Theorem autoStepLevel_converges cur target n : 1 <= cur → 1 <= target →
  Nat.iter n (λ c, autoStepLevel c target) cur
  = if Z.of_nat n <? Z.abs (target - cur) then cur + Z.sgn (target - cur) * Z.of_nat n else target.
Proof.
  intros Hc Ht.
  assert (target < cur ∧ Z.sgn (target - cur) = -1 ∨ target = cur ∧ Z.sgn (target - cur) = 0
          ∨ cur < target ∧ Z.sgn (target - cur) = 1) as Hs by lia.
  induction n as [|n IH]; [cbn [Nat.iter nat_rect]; case_match; bool_hyps; lia|].
  rewrite Nat.iter_succ, IH. clear IH. unfold autoStepLevel.
  destruct Hs as [[? ->]|[[? ->]|[? ->]]]; repeat case_match; bool_hyps; lia.
Qed.

(** ** The resolved level *)

Lemma sanitizeEffort_range effort effortMax : let '(e, m) := sanitizeEffort effort effortMax in
  1 <= m <= maxEffortCeiling ∧ 1 <= e <= m.
Proof.
  unfold sanitizeEffort, maxEffortCeiling, defaultEffortMax.
  destruct ((effortMax <? 1) || (10 <? effortMax)) eqn:Hm; [clear Hm|bool_hyps]; repeat case_match; bool_hyps; lia.
Qed.

Lemma cas_loop_step target cur interference :
  let '(old, new) := cas_loop target cur interference in new = autoStepLevel old target ∧ (old = cur ∨ old ∈ interference).
Proof.
  revert cur. induction interference as [|c rest IH]; intros cur; cbn [cas_loop]; [by auto|].
  destruct (c =? cur); [by auto|]. specialize (IH c). destruct (cas_loop target c rest) as [old new].
  destruct IH as [-> [->|Hin]]; split; [done|right; left|done|right; by right].
Qed.

(** Whatever the configuration and the request header say, a sanitized
    configuration resolves to a level in [1, EffortMax], at most the absolute
    ceiling; a header inside the range is honoured exactly. *)
Theorem ResolveEffortLevel_bounds headerVal headerSet canAuto effort effortMax auto occupied capacity level0 interference :
  Forall (λ l, 0 <= l <= (sanitizeEffort effort effortMax).2) (level0 :: interference) →
  let '(e, m) := sanitizeEffort effort effortMax in
  let '(d, level1) := autoEnvDefault auto canAuto e m occupied capacity level0 interference in
  let level := ResolveEffortLevel headerVal headerSet d m in
  1 <= level <= m ∧ m <= maxEffortCeiling ∧ 0 <= level1 <= m
  ∧ (headerSet = true → 1 <= headerVal <= m → level = headerVal)
  ∧ (headerSet = false → level = d).
Proof.
  pose proof (sanitizeEffort_range effort effortMax) as Hs. destruct (sanitizeEffort effort effortMax) as [e m].
  cbn [snd]. intros Hf. apply Forall_cons in Hf as [H0 Hf]. destruct Hs as [Hm He].
  assert (let '(d, level1) := autoEnvDefault auto canAuto e m occupied capacity level0 interference in
          1 <= d <= m ∧ 0 <= level1 <= m) as Hd.
  { unfold autoEnvDefault. destruct (negb auto || negb canAuto); [lia|].
    pose proof (cas_loop_step (autoTargetLevel occupied capacity e m) level0 interference) as Hc.
    destruct (cas_loop _ _ _) as [old new]. destruct Hc as [-> Hold].
    assert (0 <= old <= m) by (destruct Hold as [->|Hin]; [lia|by apply (proj1 (Forall_forall _ _) Hf)]).
    destruct (autoTargetLevel_spec occupied occupied capacity e m) as [Ht _]. unfold clamp in Ht.
    unfold autoStepLevel. repeat case_match; bool_hyps; lia. }
  destruct (autoEnvDefault _ _ _ _ _ _ _ _) as [d level1]. destruct Hd as [Hd H1].
  unfold ResolveEffortLevel. replace (m <? 1) with false by lia.
  split_and!; try lia; [repeat case_match; bool_hyps; lia..| |].
  - intros -> ?. repeat case_match; bool_hyps; lia.
  - intros ->. repeat case_match; bool_hyps; lia.
Qed.
