(* ===== verification/TopMatch.v ===== *)
(** * Bounded per-rule hit counters

    [internal/mailstrix/topmatch.go].  Go ranges over a map in any order: an
    order is an argument of the operations that range. *)

From Stdlib Require Import ZArith Lia.
From stdpp Require Import base gmap strings list numbers sorting.
From S2P Require Import Prelude.

Local Open Scope Z_scope.

Definition matchCounterCap : Z := 1024.

Record matchCounter := mkCounter { counts : gmap string Z; max : Z; epoch : Z }.

Definition newMatchCounter (max : Z) : matchCounter := mkCounter ∅ max 0.

(** Counts are uint64 and wrap. *)
Definition increment (m : gmap string Z) (r : string) : gmap string Z :=
  <[r := (default 0 (m !! r) + 1) mod 2 ^ 64]> m.

Abbreviation Order := (gmap string Z → list (string * Z)).

(** The key the scan of [evict] ends with. *)
Definition lowest (l : list (string * Z)) : string * Z :=
  foldl (λ best kv, if kv.2 <? best.2 then kv else best) (EmptyString, uint64_max) l.

Definition evict (order : Order) (m : gmap string Z) : gmap string Z := delete (lowest (order m)).1 m.

(** [for len(c.counts) > c.max]; [None]: it did not end within the fuel. *)
Fixpoint evict_loop (order : Order) (fuel : nat) (max : Z) (m : gmap string Z) : option (gmap string Z) :=
  if max <? Z.of_nat (size m) then
    match fuel with
    | O => None
    | S fuel => evict_loop order fuel max (evict order m)
    end
  else Some m.

Definition add (order : Order) (c : matchCounter) (rules : list string) (e : option Z) : option matchCounter :=
  match rules with
  | [] => Some c
  | _ =>
      if match e with Some e => negb (e =? epoch c) | None => false end then Some c
      else
        let m := foldl increment (counts c) rules in
        m ← evict_loop order (size m) (max c) m; Some {| c with counts := m |}
  end.

Definition Add (order : Order) (c : matchCounter) (rules : list string) : option matchCounter := add order c rules None.
Definition AddAt (order : Order) (c : matchCounter) (e : Z) (rules : list string) : option matchCounter :=
  add order c rules (Some e).

Definition Epoch (c : matchCounter) : Z := epoch c.

(** The counter after [Reset]; the epoch is a uint64. *)
Definition Reset (c : matchCounter) : matchCounter :=
  {| c with counts := ∅; epoch := (epoch c + 1) mod 2 ^ 64 |}.

Definition count_ge (a b : string * Z) : Prop := b.2 <= a.2.

#[export] Instance count_ge_dec a b : Decision (count_ge a b).
Proof. unfold count_ge. apply _. Defined.

#[export] Instance count_ge_total : Total count_ge.
Proof. intros a b. unfold count_ge. lia. Qed.

(** [TopN]; a negative count panics.  [sort.Slice] may leave ties in any order:
    every sorted permutation is the stable sort of some range order. *)
Definition TopN (order : Order) (c : matchCounter) (n : Z) : option (list (string * Z)) :=
  if n <? 0 then None else Some (take (Z.to_nat n) (merge_sort count_ge (order (counts c)))).

(** ** Facts *)
Section Facts.
Context (order : Order) (order_perm : ∀ m, order m ≡ₚ map_to_list m).

Lemma lowest_from l best :
  let r := foldl (λ best kv : string * Z, if kv.2 <? best.2 then kv else best) best l in
  (r = best ∨ r ∈ l) ∧ r.2 <= best.2 ∧ (∀ kv, kv ∈ l → r.2 <= kv.2).
Proof.
  cbn zeta. revert best. induction l as [|kv l IH]; intros best; cbn [foldl].
  { split_and!; [by left|lia|]. by intros kv Hkv%elem_of_nil. }
  destruct (IH (if kv.2 <? best.2 then kv else best)) as (H1&H2&H3). split_and!.
  - destruct H1 as [->|H1]; [|right; by right]. case_match; [right; left|by left].
  - case_match; bool_hyps; lia.
  - intros x [->|Hx]%elem_of_cons; [|by apply H3]. case_match; bool_hyps; lia.
Qed.

(** A scan over counts below the largest uint64 finds a rule with the lowest. *)
Lemma lowest_spec m : m ≠ ∅ → (∀ r v, m !! r = Some v → v < uint64_max) →
  ∃ v, m !! (lowest (order m)).1 = Some v ∧ ∀ r w, m !! r = Some w → v <= w.
Proof.
  intros Hne Hlt. destruct (lowest_from (order m) (EmptyString, uint64_max)) as (H1&_&H3). fold (lowest (order m)) in *.
  assert (∀ r v, m !! r = Some v → (r, v) ∈ order m) as Hin by (intros; by rewrite order_perm, elem_of_map_to_list).
  destruct H1 as [H1|H1].
  - exfalso. apply map_choose in Hne as (r&v&Hr). specialize (H3 _ (Hin _ _ Hr)). rewrite H1 in H3.
    specialize (Hlt _ _ Hr). simpl in H3. lia.
  - destruct (lowest (order m)) as [k v]. rewrite order_perm in H1. apply elem_of_map_to_list in H1. exists v.
    split; [done|]. intros r w Hr. by apply (H3 (r, w)), Hin.
Qed.

Definition occurrences (r : string) (rules : list string) : Z := Z.of_nat (length (filter (r =.) rules)).

Lemma increments rules m : (∀ r v, m !! r = Some v → 0 <= v ∧ v + Z.of_nat (length rules) < uint64_max) →
  (Z.of_nat (length rules) < uint64_max) →
  ∀ r, foldl increment m rules !! r =
    if decide (r ∈ rules) then Some (default 0 (m !! r) + occurrences r rules) else m !! r.
Proof.
  revert m. induction rules as [|x rules IH]; intros m Hm Hl r; cbn [foldl].
  { rewrite decide_False; [done|]. apply not_elem_of_nil. }
  cbn [length] in Hl, Hm.
  assert (0 <= default 0 (m !! x) ∧ default 0 (m !! x) + Z.of_nat (S (length rules)) < uint64_max) as Hx.
  { destruct (m !! x) as [v|] eqn:Hv; [by apply (Hm x)|]. simpl. lia. }
  assert ((default 0 (m !! x) + 1) mod 2 ^ 64 = default 0 (m !! x) + 1) as Hmod.
  { apply Z.mod_small. change (2 ^ 64) with (uint64_max + 1). lia. }
  rewrite IH; [|intros s v; unfold increment; rewrite Hmod|lia].
  2:{ intros [[<- <-]|[_ Hs]]%lookup_insert_Some; [lia|]. specialize (Hm _ _ Hs). lia. }
  unfold increment, occurrences. rewrite Hmod, filter_cons. destruct (decide (r = x)) as [->|Hne].
  - rewrite lookup_insert_eq, (decide_True (P := x ∈ x :: rules)) by left. cbn [default length from_option id].
    case_decide as Hin; [f_equal; lia|]. rewrite filter_none; [simpl; f_equal; lia|]. intros y Hy ->. done.
  - rewrite lookup_insert_ne by done. destruct (decide (r ∈ rules)).
    + rewrite decide_True by (by right). done.
    + rewrite decide_False; [done|]. by intros [?|?]%elem_of_cons.
Qed.

Lemma evict_size (m : gmap string Z) r v : m !! r = Some v → size (delete r m) = pred (size m).
Proof. intros H. apply map_size_delete_Some. by eexists. Qed.

(** The loop ends inside the bound; what it drops counted no more than what it
    keeps. *)
Lemma evict_loop_keeps fuel mx m : 0 <= mx → (size m ≤ fuel)%nat → (∀ r v, m !! r = Some v → v < uint64_max) →
  ∃ m', evict_loop order fuel mx m = Some m' ∧ m' ⊆ m ∧ Z.of_nat (size m') <= Z.max mx 0
  ∧ (Z.of_nat (size m) <= mx → m' = m)
  ∧ (∀ r v s w, m !! r = Some v → m' !! r = None → m' !! s = Some w → v <= w).
Proof.
  intros Hmx. revert m. induction fuel as [|fuel IH]; intros m Hf Hlt; cbn [evict_loop];
    destruct (mx <? Z.of_nat (size m)) eqn:Hover; bool_hyps; [lia| | |].
  2:{ assert (m ≠ ∅) as Hne by (intros ->; rewrite map_size_empty in Hover; lia).
      destruct (lowest_spec m Hne Hlt) as (v&Hv&Hmin). destruct (IH (evict order m)) as (m'&He&Hsub&Hsz&Hid&Hle).
      - unfold evict. rewrite (evict_size _ _ v) by done. lia.
      - intros r w Hr. unfold evict in Hr. apply lookup_delete_Some in Hr as [_ Hr]. eauto.
      - exists m'. split; [done|]. split; [etrans; [done|apply delete_subseteq]|]. split; [done|]. split; [lia|].
        intros r x s w Hr Hn Hs. assert (m !! s = Some w) as Hsm.
        { eapply lookup_weaken; [exact Hs|]. etrans; [done|apply delete_subseteq]. }
        destruct (decide (r = (lowest (order m)).1)) as [->|Hne'].
        + assert (x = v) as -> by congruence. eauto.
        + eapply Hle; [|done|done]. unfold evict. by rewrite lookup_delete_ne. }
  all: exists m; split_and!; try done; [lia|intros; congruence].
Qed.

(** Adding the rules of one scan, below the overflow of a uint64: it ends with
    at most [max] counters; a counter that survives is exact, and one that is
    evicted counted no more than any that survives.  A scan that pinned another
    epoch changes nothing. *)
Theorem add_spec c rules e : 0 <= max c → Z.of_nat (size (counts c)) <= max c →
  (∀ r v, counts c !! r = Some v → 0 <= v ∧ v + Z.of_nat (length rules) < uint64_max) →
  Z.of_nat (length rules) < uint64_max →
  let exact r := default 0 (counts c !! r) + occurrences r rules in
  ∃ c', add order c rules e = Some c' ∧ Z.of_nat (size (counts c')) <= max c ∧ max c' = max c ∧ epoch c' = epoch c
  ∧ (match e with Some e => e ≠ epoch c | None => False end → c' = c)
  ∧ (match e with Some e => e = epoch c | None => True end →
     (∀ r v, counts c' !! r = Some v → v = exact r)
     ∧ (∀ r s w, is_Some (counts c !! r) ∨ r ∈ rules → counts c' !! r = None → counts c' !! s = Some w →
          exact r <= w)).
Proof.
  intros Hmx Hsz Hb Hl. cbn zeta. unfold add. destruct rules as [|x rules].
  { exists c. split_and!; try done. intros _. unfold occurrences. cbn. split.
    - intros r v ->. simpl. lia.
    - intros r s w [[v Hv]|Hr%elem_of_nil] Hn; [congruence|done]. }
  set (rs := x :: rules) in *. set (m := foldl increment (counts c) rs).
  pose proof (increments rs (counts c) Hb Hl) as Hinc. fold m in Hinc.
  assert (∀ r v, m !! r = Some v → v = default 0 (counts c !! r) + occurrences r rs ∧ v < uint64_max) as Hm.
  { intros r v. rewrite Hinc. pose proof (length_filter (r =.) rs) as Hlen. case_decide as Hr.
    - intros [= <-]. split; [done|]. unfold occurrences. destruct (counts c !! r) as [w|] eqn:Hw; simpl.
      + specialize (Hb _ _ Hw). lia.
      + lia.
    - intros Hw. rewrite Hw. specialize (Hb _ _ Hw). simpl. unfold occurrences. rewrite filter_none; [simpl; lia|].
      intros y Hy ->. done. }
  destruct (evict_loop_keeps (size m) (max c) m) as (m'&He&Hsub&Hs&_&Hev); [done|done|intros; by eapply Hm|].
  assert ((∀ r v, m' !! r = Some v → v = default 0 (counts c !! r) + occurrences r rs)
    ∧ (∀ r s w, is_Some (counts c !! r) ∨ r ∈ rs → m' !! r = None → m' !! s = Some w →
        default 0 (counts c !! r) + occurrences r rs <= w)) as [He1 He2].
  { split; [intros r v Hr; eapply Hm; by eapply lookup_weaken|]. intros r s w Hr Hn Hw.
    assert (is_Some (m !! r)) as [v Hv].
    { rewrite Hinc. case_decide; [by eexists|]. by destruct Hr. }
    destruct (Hm _ _ Hv) as [<- _]. by eapply Hev. }
  destruct e as [e|]; [destruct (e =? epoch c) eqn:Hep; bool_hyps; cbn [negb]|].
  - rewrite He. eexists. split_and!; [done|cbn; lia|done..|auto].
  - exists c. by split_and!.
  - rewrite He. eexists. split_and!; [done|cbn; lia|done..|auto].
Qed.

(** [TopN] lists recorded rules with their counts, highest first, and nothing
    it leaves out counts more. *)
Theorem TopN_spec c n : 0 <= n →
  ∃ l, TopN order c n = Some l ∧ Z.of_nat (length l) = Z.min n (Z.of_nat (size (counts c)))
  ∧ StronglySorted count_ge l ∧ NoDup l.*1 ∧ (∀ r v, (r, v) ∈ l → counts c !! r = Some v)
  ∧ (∀ r v s w, counts c !! r = Some v → (r, v) ∉ l → (s, w) ∈ l → v <= w).
Proof.
  intros Hn. unfold TopN. replace (n <? 0) with false by lia. set (l := merge_sort count_ge (order (counts c))).
  assert (l ≡ₚ map_to_list (counts c)) as Hp by (unfold l; by rewrite merge_sort_Permutation, order_perm).
  assert (StronglySorted count_ge l) as Hs.
  { apply StronglySorted_merge_sort; [|apply _]. intros a b d. unfold count_ge. lia. }
  exists (take (Z.to_nat n) l). split; [done|]. split_and!.
  - rewrite length_take, (Permutation_length Hp), length_map_to_list. lia.
  - rewrite <- (take_drop (Z.to_nat n) l) in Hs. by apply StronglySorted_app in Hs as (_&?&_).
  - pose proof (NoDup_fst_map_to_list (counts c)) as Hnd.
    rewrite <- (fmap_Permutation fst _ _ Hp), <- (take_drop (Z.to_nat n) l), fmap_app in Hnd.
    by apply list.NoDup_app in Hnd as (?&_&_).
  - intros r v Hin. apply elem_of_map_to_list. rewrite <- Hp, <- (take_drop (Z.to_nat n) l). apply elem_of_app. by left.
  - intros r v s w Hr Hno Hw. apply elem_of_map_to_list in Hr. rewrite <- Hp, <- (take_drop (Z.to_nat n) l) in Hr.
    apply elem_of_app in Hr as [|Hr]; [done|]. rewrite <- (take_drop (Z.to_nat n) l) in Hs.
    apply StronglySorted_app in Hs as (Hs&_&_). exact (Hs (s, w) (r, v) Hw Hr).
Qed.

End Facts.
