(* ===== verification/Flight.v ===== *)
(** * Coalescing of concurrent scans

    [internal/mailstrix/flight.go]: callers that arrive with the same key while
    a scan of it runs wait for its outcome.  A configuration holds the group's
    map, every flight ever created and every caller with its program point; one
    [Action] is one atomic step (a critical section, a channel operation, the
    end of the scan function), and the scheduler picks actions in any order. *)

From Stdlib Require Import ZArith Lia.
From stdpp Require Import base gmap strings list numbers sorting.
From S2P Require Import Prelude VerdictCache.

Local Open Scope Z_scope.

(** The errors of a scan: [ErrScanIncomplete] and [ErrScannerClosed] of
    scanner.go and generation.go, [errScanBusy] of server.go, the error of an
    ended context, the failures of [finalScanVerdict], a recovered panic. *)
Inductive scanError :=
  | ErrScanIncomplete | ErrScannerClosed | ErrScanBusy | ErrContext
  | ErrDeadlineExceeded | ErrExtractor | ErrNative (message : string) | ErrPanic (message : string).

#[export] Instance scanError_eq_dec : EqDecision scanError.
Proof. solve_decision. Defined.

Record scanOutcome := mkOutcome { so_matches : slice Match; so_err : option scanError }.

Definition zeroOutcome : scanOutcome := mkOutcome (mkSlice 0 []) None.

(** [flight]; [fl_key] and [fl_leader] record which call created it. *)
Record flight := mkFlight {
  started : bool;
  done : bool;
  outcome : scanOutcome;
  joiners : Z;
  shared : bool;
  aborted : bool;
  fl_key : string;
  fl_leader : nat
}.

(** How a call returned: as the leader of a flight, with the outcome of the
    flight it joined, or because its own context ended. *)
Inductive Role := Leader (f : nat) | Follower (f : nat) | Gone.

Inductive PC :=
  | Entry                                       (* at the head of the loop *)
  | Waiting (f : nat) (notified : bool)         (* in the select *)
  | Leading (f : nat)                           (* fn runs *)
  | Closing (f : nat) (o : option scanOutcome)  (* finishLeader before close(done); [None] panics *)
  | Reading (f : nat) (o : scanOutcome)         (* before the leader reads shared *)
  | Returned (r : Role) (o : scanOutcome) (sh : bool)
  | Panicked.

(** [th_cancelled]: the caller's context is done. *)
Record caller := mkCaller { th_key : string; th_cancelled : bool; th_pc : PC }.

Record flightGroup := mkGroup {
  m : gmap string nat;
  flights : gmap nat flight;
  callers : gmap nat caller;
  next : nat
}.

Inductive Action :=
  | ACancel (t : nat)                                       (* the caller goes away *)
  | AEnter (t : nat)                                        (* the first critical section *)
  | AStarted (t : nat)                                      (* <-started *)
  | ADone (t : nat)                                         (* <-fl.done *)
  | ALeave (t : nat)                                        (* <-ctx.Done() *)
  | ADispatch (t : nat)                                     (* fn calls started() *)
  | AReturn (t : nat) (o : scanOutcome) (abandoned : bool)  (* fn returns *)
  | APanic (t : nat)                                        (* fn panics *)
  | AClose (t : nat)                                        (* close(fl.done) *)
  | ARead (t : nat).                                        (* the last critical section *)

Definition set_pc (g : flightGroup) (t : nat) (c : caller) (pc : PC) : flightGroup :=
  {| g with callers := <[t := {| c with th_pc := pc |}]> (callers g) |}.

Definition set_flight (g : flightGroup) (f : nat) (fl : flight) : flightGroup :=
  {| g with flights := <[f := fl]> (flights g) |}.

(** The critical section of [finishLeader]. *)
Definition finishLeader (g : flightGroup) (f : nat) (fl : flight) (key : string) (ab : bool) : flightGroup :=
  let g := set_flight g f {| fl with aborted := ab; shared := 0 <? joiners fl |} in
  {| g with m := delete key (m g) |}.

(** [doScan] up to its next program point; [None]: the action is not enabled. *)
Definition enter (g : flightGroup) (t : nat) (c : caller) : option flightGroup :=
  match m g !! th_key c with
  | Some f =>
      fl ← flights g !! f;
      Some (set_pc (set_flight g f {| fl with joiners := joiners fl + 1 |}) t c (Waiting f false))
  | None =>
      let f := next g in
      let g := set_flight g f (mkFlight false false zeroOutcome 0 false false (th_key c) t) in
      let g := {| g with m := <[th_key c := f]> (m g); next := S f |} in
      Some (set_pc g t c (Leading f))
  end.

Definition step (a : Action) (g : flightGroup) : option flightGroup :=
  match a with
  | ACancel t =>
      c ← callers g !! t;
      Some {| g with callers := <[t := {| c with th_cancelled := true |}]> (callers g) |}
  | AEnter t =>
      c ← callers g !! t;
      match th_pc c with Entry => enter g t c | _ => None end
  | AStarted t =>
      c ← callers g !! t;
      match th_pc c with
      | Waiting f false =>
          fl ← flights g !! f;
          if started fl then Some (set_pc g t c (Waiting f true)) else None
      | _ => None
      end
  | ADone t =>
      c ← callers g !! t;
      match th_pc c with
      | Waiting f _ =>
          fl ← flights g !! f;
          if done fl then
            if aborted fl then
              if th_cancelled c then Some (set_pc g t c (Returned Gone zeroOutcome true))
              else Some (set_pc g t c Entry)
            else Some (set_pc g t c (Returned (Follower f) (outcome fl) true))
          else None
      | _ => None
      end
  | ALeave t =>
      c ← callers g !! t;
      match th_pc c with
      | Waiting f _ =>
          fl ← flights g !! f;
          if th_cancelled c
          then Some (set_pc (set_flight g f {| fl with joiners := joiners fl - 1 |}) t c (Returned Gone zeroOutcome true))
          else None
      | _ => None
      end
  | ADispatch t =>
      c ← callers g !! t;
      match th_pc c with
      | Leading f =>
          fl ← flights g !! f;
          if started fl then None else Some (set_flight g f {| fl with started := true |})
      | _ => None
      end
  | AReturn t o ab =>
      c ← callers g !! t;
      match th_pc c with
      | Leading f =>
          fl ← flights g !! f;
          Some (set_pc (finishLeader g f {| fl with outcome := o |} (th_key c) ab) t c (Closing f (Some o)))
      | _ => None
      end
  | APanic t =>
      c ← callers g !! t;
      match th_pc c with
      | Leading f =>
          fl ← flights g !! f;
          Some (set_pc (finishLeader g f fl (th_key c) true) t c (Closing f None))
      | _ => None
      end
  | AClose t =>
      c ← callers g !! t;
      match th_pc c with
      | Closing f o =>
          fl ← flights g !! f;
          Some (set_pc (set_flight g f {| fl with done := true |}) t c
                  (match o with Some o => Reading f o | None => Panicked end))
      | _ => None
      end
  | ARead t =>
      c ← callers g !! t;
      match th_pc c with
      | Reading f o =>
          fl ← flights g !! f;
          Some (set_pc g t c (Returned (Leader f) o (shared fl)))
      | _ => None
      end
  end.

(** Any number of callers that have just called [doScan], contexts live. *)
Definition initial (g : flightGroup) : Prop :=
  m g = ∅ ∧ flights g = ∅ ∧ ∀ t c, callers g !! t = Some c → th_pc c = Entry.

Definition steps : flightGroup → flightGroup → Prop := rtc (λ g g', ∃ a, step a g = Some g').

Definition reachable (g : flightGroup) : Prop := ∃ g0, initial g0 ∧ steps g0 g.

(** ** The invariant *)

Definition waits (f : nat) (pc : PC) : bool :=
  match pc with Waiting f' _ => bool_decide (f' = f) | _ => false end.

(** Followers in the select of flight [f]. *)
Definition waiters (g : flightGroup) (f : nat) : Z :=
  Z.of_nat (size (filter (λ x, waits f (th_pc x.2) = true) (callers g))).

Definition leader_pc (g : flightGroup) (fl : flight) : option (string * PC) :=
  (λ c, (th_key c, th_pc c)) <$> callers g !! fl_leader fl.

(** A flight is in the phase its leader's program point says: in the map and
    open while the function runs, out of the map from then on, done once the
    channel is closed, with the outcome its leader holds unless it aborted. *)
Definition flight_ok (g : flightGroup) (f : nat) (fl : flight) : Prop :=
  ∃ pc, leader_pc g fl = Some (fl_key fl, pc) ∧
  match pc with
  | Leading f' => f' = f ∧ m g !! fl_key fl = Some f ∧ done fl = false ∧ joiners fl = waiters g f
  | Closing f' o => f' = f ∧ m g !! fl_key fl ≠ Some f ∧ done fl = false
                    ∧ (aborted fl = false → o = Some (outcome fl)) ∧ (o = None → aborted fl = true)
  | Reading f' o => f' = f ∧ m g !! fl_key fl ≠ Some f ∧ done fl = true ∧ (aborted fl = false → o = outcome fl)
  | Returned (Leader f') o sh => f' = f ∧ m g !! fl_key fl ≠ Some f ∧ done fl = true
                                 ∧ (aborted fl = false → o = outcome fl) ∧ sh = shared fl
  | Panicked => m g !! fl_key fl ≠ Some f ∧ done fl = true ∧ aborted fl = true
  | _ => False
  end.

Definition caller_ok (g : flightGroup) (t : nat) (c : caller) : Prop :=
  match th_pc c with
  | Waiting f _ => ∃ fl, flights g !! f = Some fl ∧ fl_key fl = th_key c
  | Leading f | Closing f _ | Reading f _ | Returned (Leader f) _ _ =>
      ∃ fl, flights g !! f = Some fl ∧ fl_leader fl = t ∧ fl_key fl = th_key c
  | Returned (Follower f) o sh =>
      ∃ fl, flights g !! f = Some fl ∧ fl_key fl = th_key c ∧ done fl = true ∧ aborted fl = false
            ∧ o = outcome fl ∧ sh = true
  | _ => True
  end.

Record Inv (g : flightGroup) : Prop := {
  inv_flights : ∀ f fl, flights g !! f = Some fl → (f < next g)%nat ∧ flight_ok g f fl;
  inv_map : ∀ k f, m g !! k = Some f → ∃ fl, flights g !! f = Some fl ∧ fl_key fl = k;
  inv_callers : ∀ t c, callers g !! t = Some c → caller_ok g t c
}.

Lemma size_filter_insert (P : nat * caller → Prop) `{∀ x, Decision (P x)} (cs : gmap nat caller) t c :
  Z.of_nat (size (filter P (<[t := c]> cs)))
  = Z.of_nat (size (filter P (delete t cs))) + (if decide (P (t, c)) then 1 else 0).
Proof.
  rewrite <- (insert_delete_eq cs t c). rewrite map_filter_insert. case_decide.
  - rewrite map_size_insert_None; [lia|]. rewrite map_lookup_filter_None. left. apply lookup_delete_eq.
  - rewrite delete_delete_eq. lia.
Qed.

Lemma waiters_update g g' t c c' f : callers g !! t = Some c → callers g' = <[t := c']> (callers g) →
  waiters g' f = waiters g f - (if waits f (th_pc c) then 1 else 0) + (if waits f (th_pc c') then 1 else 0).
Proof.
  intros Hc Hc'. unfold waiters. rewrite Hc', size_filter_insert.
  rewrite <- (insert_id (callers g) t c) at 2 by done. rewrite size_filter_insert. cbn [snd].
  repeat case_decide; repeat case_match; simplify_eq; lia.
Qed.

Lemma flight_ok_frame g g' f fl :
  leader_pc g' fl = leader_pc g fl → (m g' !! fl_key fl = Some f ↔ m g !! fl_key fl = Some f) →
  waiters g' f = waiters g f → flight_ok g f fl → flight_ok g' f fl.
Proof.
  intros Hl Hm Hw (pc&Hpc&H). exists pc. rewrite Hl. split; [done|].
  destruct pc as [| |f'|f' o|f' o|[f'|f'|] o sh|]; try done; rewrite ?Hm, ?Hw; try done.
Qed.

(** The flight a program point leads, if any. *)
Definition leads (f : nat) (pc : PC) : Prop :=
  match pc with
  | Leading f' | Closing f' _ | Reading f' _ | Returned (Leader f') _ _ => f' = f
  | Panicked => True
  | _ => False
  end.

Lemma leader_leads g f fl c : flight_ok g f fl → callers g !! fl_leader fl = Some c → leads f (th_pc c).
Proof.
  intros (pc&Hpc&H) Hc. unfold leader_pc in Hpc. rewrite Hc in Hpc. simpl in Hpc. simplify_eq.
  destruct (th_pc c) as [| |f'|f' o|f' o|[f'|f'|] o sh|]; simpl in *; tauto.
Qed.

(** A flight may only be completed, and once done it is frozen. *)
Definition evolves (fl fl' : flight) : Prop :=
  fl_key fl' = fl_key fl ∧ fl_leader fl' = fl_leader fl
  ∧ (done fl = true → done fl' = true ∧ aborted fl' = aborted fl ∧ outcome fl' = outcome fl).

(** One caller steps and one flight changes. *)
Record local_step (g g' : flightGroup) (t : nat) (c c' : caller) (f0 : nat) : Prop := {
  ls_caller : callers g !! t = Some c;
  ls_callers : callers g' = <[t := c']> (callers g);
  ls_key : th_key c' = th_key c;
  ls_leads : ∀ f, leads f (th_pc c) → f = f0;
  ls_waits : ∀ f, f ≠ f0 → waits f (th_pc c) = waits f (th_pc c');
  ls_map : ∀ k f, f ≠ f0 → m g' !! k = Some f ↔ m g !! k = Some f;
  ls_flights : ∀ f, f ≠ f0 → flights g' !! f = flights g !! f;
  ls_evolves : ∀ fl, flights g !! f0 = Some fl → ∃ fl', flights g' !! f0 = Some fl' ∧ evolves fl fl';
  ls_next : (next g ≤ next g')%nat
}.

Lemma local_step_Inv g g' t c c' f0 : Inv g → local_step g g' t c c' f0 →
  (∀ fl, flights g' !! f0 = Some fl → (f0 < next g')%nat ∧ flight_ok g' f0 fl) →
  (∀ k, m g' !! k = Some f0 → ∃ fl, flights g' !! f0 = Some fl ∧ fl_key fl = k) →
  caller_ok g' t c' → Inv g'.
Proof.
  intros [Hfl Hm Hca] [Hc Hcs Hk Hld Hw Hmap Hfls Hev Hn] H0 Hm0 Hc0.
  assert (∀ f fl, flights g !! f = Some fl → ∃ fl', flights g' !! f = Some fl' ∧ evolves fl fl') as Hevo.
  { intros f fl Hf. destruct (decide (f = f0)) as [->|Hne]; [by apply Hev|].
    exists fl. rewrite Hfls by done. split; [done|]. by split_and!. }
  constructor.
  - intros f fl Hf. destruct (decide (f = f0)) as [->|Hne]; [by apply H0|].
    rewrite Hfls in Hf by done. destruct (Hfl _ _ Hf) as [Hlt Hok]. split; [lia|].
    eapply flight_ok_frame; [|by apply Hmap|..|exact Hok].
    + unfold leader_pc. rewrite Hcs. rewrite lookup_insert_ne; [done|]. intros Ht.
      apply Hne. apply Hld. eapply leader_leads; [done|by rewrite <- Ht].
    + rewrite (waiters_update g g' t c c') by done. rewrite Hw by done. lia.
  - intros k f Hk2. destruct (decide (f = f0)) as [->|Hne]; [by apply Hm0|].
    rewrite Hmap in Hk2 by done. rewrite Hfls by done. by apply Hm.
  - intros t2 c2 Ht2. rewrite Hcs in Ht2. apply lookup_insert_Some in Ht2 as [[<- <-]|[Hne Ht2]]; [done|].
    specialize (Hca _ _ Ht2). unfold caller_ok in *.
    destruct (th_pc c2) as [|f n|f|f o|f o|[f|f|] o sh|]; try done; destruct Hca as (fl&Hf&Hrest);
      destruct (Hevo _ _ Hf) as (fl'&Hf'&E1&E2&E3); exists fl'; (split; [done|]);
      rewrite ?E1, ?E2; try done.
    destruct Hrest as (?&Hd&?&?&?). destruct (E3 Hd) as (->&->&->). by split_and!.
Qed.

Lemma evolves_refl fl : evolves fl fl.
Proof. by split_and!. Qed.

Lemma leader_pc_self g t cs c' fl pc : callers g = <[t := c']> cs → fl_leader fl = t → th_key c' = fl_key fl →
  th_pc c' = pc → leader_pc g fl = Some (fl_key fl, pc).
Proof. intros H1 H2 <- <-. unfold leader_pc. by rewrite H1, H2, lookup_insert_eq. Qed.

(** ** Every step keeps it *)

Lemma waiting_not_leader g t c f fl : Inv g → callers g !! t = Some c → flights g !! f = Some fl →
  ¬ leads f (th_pc c) → fl_leader fl ≠ t.
Proof.
  intros [Hfl _ _] Hc Hf Hn Ht. apply Hn. destruct (Hfl _ _ Hf) as [_ Hok].
  eapply leader_leads; [done|by rewrite Ht].
Qed.

(** A step of a caller that leads nothing, which may change [joiners] only. *)
Lemma follower_step g g' t c c' f fl j : Inv g → callers g !! t = Some c → flights g !! f = Some fl →
  callers g' = <[t := c']> (callers g) → flights g' = <[f := {| fl with joiners := j |}]> (flights g) →
  m g' = m g → next g' = next g → th_key c' = th_key c →
  (∀ f', ¬ leads f' (th_pc c)) → (∀ f', f' ≠ f → waits f' (th_pc c) = waits f' (th_pc c')) →
  (done fl = false → j = joiners fl - (if waits f (th_pc c) then 1 else 0) + (if waits f (th_pc c') then 1 else 0)) →
  caller_ok g' t c' → Inv g'.
Proof.
  intros Hinv Hc Hf Hcs Hfs Hm Hn Hk Hld Hw Hj Hok. pose proof Hinv as [Hfl Hmap _].
  apply (local_step_Inv g g' t c c' f); [done| | | |done].
  - constructor; rewrite ?Hm, ?Hn; try done.
    + intros f' Hl. by apply Hld in Hl.
    + intros f' ?. by rewrite Hfs, lookup_insert_ne.
    + intros fl0 Hfl0. simplify_eq. rewrite Hfs, lookup_insert_eq. eexists. split; [done|]. by split_and!.
  - intros fl' Hfl'. rewrite Hfs, lookup_insert_eq in Hfl'. simplify_eq. rewrite Hn.
    destruct (Hfl _ _ Hf) as [Hlt Hfok]. split; [done|]. destruct Hfok as (pc&Hpc&H).
    exists pc. cbn [fl_key done aborted outcome shared joiners]. split.
    + unfold leader_pc. cbn [fl_leader]. rewrite Hcs, lookup_insert_ne; [exact Hpc|].
      apply not_eq_sym. eapply waiting_not_leader; eauto.
    + rewrite Hm. destruct pc as [| |f'|f' o|f' o|[f'|f'|] o sh|]; try done.
      destruct H as (H1&H2&H3&H4). split_and!; try done.
      rewrite (waiters_update g g' t c c') by done. rewrite <- H4. by apply Hj.
  - intros k Hk0. rewrite Hm in Hk0. destruct (Hmap _ _ Hk0) as (fl0&Hfl0&<-). simplify_eq.
    rewrite Hfs, lookup_insert_eq. by eexists.
Qed.

Lemma joiners_id fl : {| fl with joiners := joiners fl |} = fl.
Proof. by destruct fl. Qed.

Lemma ACancel_Inv t g g' : Inv g → step (ACancel t) g = Some g' → Inv g'.
Proof.
  intros [Hfl Hm Hca] Hs. cbn in Hs. destruct (callers g !! t) as [c|] eqn:Hc; [|done]. simplify_eq/=.
  set (c' := {| c with th_cancelled := true |}). set (g' := {| g with callers := _ |}).
  constructor.
  - intros f fl Hf. destruct (Hfl _ _ Hf) as [Hlt Hok]. split; [done|].
    apply (flight_ok_frame g); [|done| |exact Hok].
    + unfold leader_pc. cbn. destruct (decide (t = fl_leader fl)) as [<-|Hne].
      * by rewrite lookup_insert_eq, Hc.
      * by rewrite lookup_insert_ne.
    + rewrite (waiters_update g g' t c c') by done. cbn. lia.
  - exact Hm.
  - intros t2 c2 Ht2. cbn in Ht2. apply lookup_insert_Some in Ht2 as [[<- <-]|[_ Ht2]]; [by apply (Hca _ _ Hc)|].
    by apply (Hca _ _ Ht2).
Qed.

(** A step of the leader of [f] on its own flight. *)
Lemma leader_step g g' t c c' f fl fl' : Inv g → callers g !! t = Some c → flights g !! f = Some fl →
  leads f (th_pc c) → th_pc c ≠ Panicked →
  callers g' = <[t := c']> (callers g) → flights g' = <[f := fl']> (flights g) → next g' = next g →
  (m g' = m g ∨ m g' = delete (fl_key fl) (m g) ∧ m g !! fl_key fl = Some f) → th_key c' = th_key c →
  fl_leader fl = t → fl_key fl = th_key c →
  evolves fl fl' → (∀ f', waits f' (th_pc c') = false) →
  (flight_ok g' f fl') → (m g' !! fl_key fl = Some f → m g !! fl_key fl = Some f) →
  caller_ok g' t c' → Inv g'.
Proof.
  intros Hinv Hc Hf Hld Hnp Hcs Hfs Hn Hm Hk Hlt Hkey Hev Hw Hok Hmm Hcok. pose proof Hinv as [Hfl Hmap Hca].
  assert (∀ f', leads f' (th_pc c) → f' = f) as Hldu.
  { intros f' Hl. destruct (th_pc c) as [| |?|? ?|? ?|[?|?|] ? ?|]; simpl in *; try done; congruence. }
  assert (∀ f', waits f' (th_pc c) = false) as Hwc.
  { intros f'. destruct (th_pc c); try done. }
  apply (local_step_Inv g g' t c c' f); [done| | | |done].
  - constructor; try done.
    + intros f' ?. by rewrite Hwc, Hw.
    + intros k f' Hne. destruct Hm as [->|[-> Hmf]]; [done|]. rewrite lookup_delete_Some. split; [by intros []|].
      intros Hk'. split; [|done]. intros <-. congruence.
    + intros f' ?. by rewrite Hfs, lookup_insert_ne.
    + intros fl0 Hfl0. simplify_eq. rewrite Hfs, lookup_insert_eq. by eexists.
    + by rewrite Hn.
  - intros fl0 Hfl0. rewrite Hfs, lookup_insert_eq in Hfl0. simplify_eq. rewrite Hn.
    split; [by eapply Hfl|done].
  - intros k Hk0. assert (m g !! k = Some f) as Hk1.
    { destruct Hm as [Hm|[Hm _]]; rewrite Hm in Hk0; [done|]. by apply lookup_delete_Some in Hk0 as []. }
    destruct (Hmap _ _ Hk1) as (fl0&Hfl0&<-). simplify_eq. rewrite Hfs, lookup_insert_eq.
    exists fl'. split; [done|]. apply Hev.
Qed.

(** What the invariant says of the flight a caller leads. *)
Lemma led_flight g t c f : Inv g → callers g !! t = Some c →
  (match th_pc c with Leading f' | Closing f' _ | Reading f' _ => f' = f | _ => False end) →
  ∃ fl, flights g !! f = Some fl ∧ fl_leader fl = t ∧ fl_key fl = th_key c ∧ flight_ok g f fl
        ∧ leader_pc g fl = Some (fl_key fl, th_pc c).
Proof.
  intros [Hfl _ Hca] Hc Hpc. specialize (Hca _ _ Hc). unfold caller_ok in Hca.
  destruct (th_pc c) as [| |f'|f' o|f' o|r o sh|] eqn:Hp; try done; subst f';
    destruct Hca as (fl&Hf&Ht&Hk); exists fl; (split_and!; [done..|by eapply Hfl|]);
    unfold leader_pc; rewrite Ht, Hc; simpl; congruence.
Qed.

Lemma ADispatch_Inv t g g' : Inv g → step (ADispatch t) g = Some g' → Inv g'.
Proof.
  intros Hinv Hs. cbn in Hs. destruct (callers g !! t) as [c|] eqn:Hc; [|done]. cbn in Hs.
  destruct (th_pc c) as [| |f| | | |] eqn:Hpc; try done.
  destruct (led_flight g t c f Hinv Hc) as (fl&Hf&Ht&Hk&Hok&Hlp); [by rewrite Hpc|]. rewrite Hf in Hs. cbn in Hs.
  destruct (started fl); [done|]. simplify_eq/=.
  eapply (leader_step g _ (fl_leader fl) c c f fl); try done; cbn.
  - by rewrite Hpc.
  - by rewrite Hpc.
  - by rewrite insert_id.
  - by left.
  - intros f'. by rewrite Hpc.
  - unfold caller_ok. rewrite Hpc. cbn. rewrite lookup_insert_eq. by eexists.
Qed.

(** The end of the function, by return or by panic. *)
Lemma finish_Inv t g c f fl o ab res : Inv g → callers g !! t = Some c → th_pc c = Leading f →
  flights g !! f = Some fl → (ab = false → res = Some o) → (res = None → ab = true) →
  Inv (set_pc (finishLeader g f {| fl with outcome := o |} (th_key c) ab) t c (Closing f res)).
Proof.
  intros Hinv Hc Hpc Hf Ho Hr.
  destruct (led_flight g t c f Hinv Hc) as (fl0&Hf0&Ht&Hk&Hok&Hlp); [by rewrite Hpc|]. simplify_eq.
  destruct Hok as (pc&Hp&H). rewrite Hlp, Hpc in Hp. simplify_eq. destruct H as (_&Hm&Hd&Hj).
  eapply (leader_step g _ (fl_leader fl) c _ f fl); try done; cbn.
  - by rewrite Hpc.
  - by rewrite Hpc.
  - right. split; [by rewrite Hk|by rewrite Hk in *].
  - split_and!; [done..|]. by rewrite Hd.
  - exists (Closing f res). split; [by apply (leader_pc_self _ (fl_leader fl) (callers g) {| c with th_pc := Closing f res |})|].
    cbn. rewrite Hk, lookup_delete_eq. by split_and!.
  - unfold caller_ok. cbn. rewrite lookup_insert_eq. by eexists.
Qed.

Ltac step_caller Hs t c Hc Hpc :=
  cbn in Hs; destruct (callers _ !! t) as [c|] eqn:Hc; [|done]; cbn in Hs; destruct (th_pc c) eqn:Hpc; try done.

Lemma AReturn_Inv t o ab g g' : Inv g → step (AReturn t o ab) g = Some g' → Inv g'.
Proof.
  intros Hinv Hs. step_caller Hs t c Hc Hpc. destruct (flights g !! f) as [fl|] eqn:Hf; [|done]. simplify_eq/=.
  by apply (finish_Inv t g c f fl o ab (Some o)).
Qed.

Lemma APanic_Inv t g g' : Inv g → step (APanic t) g = Some g' → Inv g'.
Proof.
  intros Hinv Hs. step_caller Hs t c Hc Hpc. destruct (flights g !! f) as [fl|] eqn:Hf; [|done]. simplify_eq/=.
  pose proof (finish_Inv t g c f fl (outcome fl) true None Hinv Hc Hpc Hf) as H. destruct fl. by apply H.
Qed.

Lemma AClose_Inv t g g' : Inv g → step (AClose t) g = Some g' → Inv g'.
Proof.
  intros Hinv Hs. step_caller Hs t c Hc Hpc. rename o into res.
  destruct (led_flight g t c f Hinv Hc) as (fl&Hf&Ht&Hk&Hok&Hlp); [by rewrite Hpc|]. rewrite Hf in Hs. simplify_eq/=.
  destruct Hok as (pc&Hp&H). rewrite Hlp, Hpc in Hp. simplify_eq. destruct H as (_&Hm&Hd&Ho&Hn).
  eapply (leader_step g _ (fl_leader fl) c _ f fl); try done; cbn.
  - by rewrite Hpc.
  - by rewrite Hpc.
  - by left.
  - intros f'. by destruct res.
  - exists (match res with Some o => Reading f o | None => Panicked end). split.
    + by apply (leader_pc_self _ (fl_leader fl) (callers g)
        {| c with th_pc := match res with Some o => Reading f o | None => Panicked end |}).
    + destruct res as [o|]; cbn; split_and!; auto. intros Ha. by specialize (Ho Ha) as [= ->].
  - unfold caller_ok. cbn. destruct res; [|done]. rewrite lookup_insert_eq. by eexists.
Qed.

Lemma ARead_Inv t g g' : Inv g → step (ARead t) g = Some g' → Inv g'.
Proof.
  intros Hinv Hs. step_caller Hs t c Hc Hpc.
  destruct (led_flight g t c f Hinv Hc) as (fl&Hf&Ht&Hk&Hok&Hlp); [by rewrite Hpc|]. rewrite Hf in Hs. simplify_eq/=.
  destruct Hok as (pc&Hp&H). rewrite Hlp, Hpc in Hp. simplify_eq. destruct H as (_&Hm&Hd&Ho).
  eapply (leader_step g _ (fl_leader fl) c _ f fl fl); try done; cbn.
  - by rewrite Hpc.
  - by rewrite Hpc.
  - by rewrite insert_id.
  - by left.
  - exists (Returned (Leader f) o (shared fl)). split; [|by split_and!].
    by apply (leader_pc_self _ (fl_leader fl) (callers g) {| c with th_pc := Returned (Leader f) o (shared fl) |}).
  - unfold caller_ok. cbn. by eexists.
Qed.

Lemma AStarted_Inv t g g' : Inv g → step (AStarted t) g = Some g' → Inv g'.
Proof.
  intros Hinv Hs. step_caller Hs t c Hc Hpc. destruct notified; [done|].
  destruct (flights g !! f) as [fl|] eqn:Hf; [|done]. cbn in Hs. destruct (started fl); [|done]. simplify_eq/=.
  pose proof (inv_callers _ Hinv _ _ Hc) as Hok. unfold caller_ok in Hok. rewrite Hpc in Hok.
  eapply (follower_step g _ t c {| c with th_pc := Waiting f true |} f fl (joiners fl)); try done; cbn.
  - by rewrite joiners_id, insert_id.
  - intros f'. rewrite Hpc. by intros [].
  - intros f' ?. by rewrite Hpc.
  - intros _. rewrite Hpc. cbn. rewrite bool_decide_eq_true_2 by done. lia.
Qed.

Lemma ADone_Inv t g g' : Inv g → step (ADone t) g = Some g' → Inv g'.
Proof.
  intros Hinv Hs. step_caller Hs t c Hc Hpc.
  destruct (flights g !! f) as [fl|] eqn:Hf; [|done]. cbn in Hs. destruct (done fl) eqn:Hd; [|done].
  pose proof (inv_callers _ Hinv _ _ Hc) as Hok. unfold caller_ok in Hok. rewrite Hpc in Hok.
  destruct Hok as (fl0&Hf0&Hk). assert (fl0 = fl) as -> by congruence. clear Hf0.
  assert (∀ pc, (∀ f', f' ≠ f → waits f' pc = false) →
    caller_ok (set_pc g t c pc) t {| c with th_pc := pc |} → Inv (set_pc g t c pc)) as Hgo.
  { intros pc Hw Hcok. eapply (follower_step g _ t c {| c with th_pc := pc |} f fl (joiners fl)); try done; cbn.
    - by rewrite joiners_id, insert_id.
    - intros f'. rewrite Hpc. by intros [].
    - intros f' Hne. rewrite Hpc, Hw by done. cbn. by rewrite bool_decide_eq_false_2 by done.
    - intros ?. congruence. }
  destruct (aborted fl) eqn:Ha; [destruct (th_cancelled c)|]; simplify_eq; apply Hgo; try done.
  unfold caller_ok. cbn. exists fl. by split_and!.
Qed.

Lemma ALeave_Inv t g g' : Inv g → step (ALeave t) g = Some g' → Inv g'.
Proof.
  intros Hinv Hs. step_caller Hs t c Hc Hpc.
  destruct (flights g !! f) as [fl|] eqn:Hf; [|done]. cbn in Hs. destruct (th_cancelled c); [|done]. simplify_eq/=.
  eapply (follower_step g _ t c {| c with th_pc := Returned Gone zeroOutcome true |} f fl (joiners fl - 1)); try done; cbn.
  - intros f'. rewrite Hpc. by intros [].
  - intros f' ?. rewrite Hpc. cbn. by rewrite bool_decide_eq_false_2 by done.
  - intros _. rewrite Hpc. cbn. rewrite bool_decide_eq_true_2 by done. lia.
Qed.

Lemma AEnter_Inv t g g' : Inv g → step (AEnter t) g = Some g' → Inv g'.
Proof.
  intros Hinv Hs. step_caller Hs t c Hc Hpc. unfold enter in Hs. pose proof Hinv as [Hfl Hmap Hca].
  destruct (m g !! th_key c) as [f|] eqn:Hm.
  - destruct (Hmap _ _ Hm) as (fl&Hf&Hk). rewrite Hf in Hs. simplify_eq/=.
    eapply (follower_step g _ t c {| c with th_pc := Waiting f false |} f fl (joiners fl + 1)); try done; cbn.
    + intros f'. rewrite Hpc. by intros [].
    + intros f' ?. rewrite Hpc. cbn. by rewrite bool_decide_eq_false_2 by done.
    + intros _. rewrite Hpc. cbn. rewrite bool_decide_eq_true_2 by done. lia.
    + unfold caller_ok. cbn. rewrite lookup_insert_eq. by eexists.
  - simplify_eq/=. set (f := next g). set (fl := mkFlight _ _ _ _ _ _ _ _).
    set (c' := {| c with th_pc := Leading f |}).
    assert (flights g !! f = None) as Hnew.
    { destruct (flights g !! f) as [fl0|] eqn:Hf; [|done]. destruct (Hfl _ _ Hf). unfold f in *. lia. }
    assert (waiters g f = 0) as Hw0.
    { unfold waiters. rewrite (proj2 (map_size_empty_iff _)); [done|]. apply map_empty_filter_2.
      intros t2 c2 Ht2 Hw. specialize (Hca _ _ Ht2). unfold caller_ok in Hca. cbn in Hw.
      destruct (th_pc c2); try done. apply bool_decide_eq_true in Hw as ->. destruct Hca as (?&?&_). congruence. }
    apply (local_step_Inv g _ t c c' f); [done| | | |].
    + constructor; cbn; try done.
      * intros f'. rewrite Hpc. by intros [].
      * intros f' ?. by rewrite Hpc.
      * intros k f' Hne. rewrite lookup_insert_Some. split; [intros [[_ ?]|[_ ?]]; [congruence|done]|].
        intros Hk. right. split; [|done]. intros <-. congruence.
      * intros f' ?. by rewrite lookup_insert_ne.
      * intros fl0 Hf0. congruence.
      * lia.
    + intros fl0 Hf0. cbn in Hf0. rewrite lookup_insert_eq in Hf0. simplify_eq. split; [cbn; lia|].
      exists (Leading f). split; [by apply (leader_pc_self _ t (callers g) c')|]. cbn.
      split_and!; [done|apply lookup_insert_eq|done|].
      rewrite (waiters_update g _ t c c') by done. rewrite Hw0, Hpc. done.
    + intros k Hk. cbn in Hk |- *. rewrite lookup_insert_eq. eexists. split; [done|]. cbn.
      apply lookup_insert_Some in Hk as [[? _]|[_ Hk]]; [done|]. destruct (Hmap _ _ Hk) as (?&?&_). congruence.
    + unfold caller_ok. cbn. rewrite lookup_insert_eq. by eexists.
Qed.

Lemma step_Inv a g g' : Inv g → step a g = Some g' → Inv g'.
Proof.
  destruct a; [apply ACancel_Inv|apply AEnter_Inv|apply AStarted_Inv|apply ADone_Inv|apply ALeave_Inv
    |apply ADispatch_Inv|apply AReturn_Inv|apply APanic_Inv|apply AClose_Inv|apply ARead_Inv].
Qed.

Lemma reachable_Inv g : reachable g → Inv g.
Proof.
  intros (g0&(Hm&Hf&Hc)&Hs). assert (Inv g0) as H0.
  { constructor; rewrite ?Hm, ?Hf; try (intros ? ? []%lookup_empty_Some); [done..|].
    intros t c Ht. unfold caller_ok. by rewrite (Hc _ _ Ht). }
  clear Hm Hf Hc. induction Hs as [|g1 g2 g3 [a Ha] _ IH]; [done|]. apply IH. by eapply step_Inv.
Qed.

(** [Do]: the end of a function without a scanner error. *)
Definition Do_return (t : nat) (matches : slice Match) (ab : bool) : Action := AReturn t (mkOutcome matches None) ab.

Definition run (acts : list Action) (g : flightGroup) : option flightGroup :=
  foldl (λ og a, g ← og; step a g) (Some g) acts.

Lemma run_None acts : foldl (λ og a, g ← og; step a g) (None : option flightGroup) acts = None.
Proof. induction acts as [|a acts IH]; [done|exact IH]. Qed.

Lemma run_cons a acts g : run (a :: acts) g = g' ← step a g; run acts g'.
Proof. unfold run. cbn [foldl]. cbn. destruct (step a g); [done|apply run_None]. Qed.

Lemma run_steps acts g g' : run acts g = Some g' → steps g g'.
Proof.
  revert g. induction acts as [|a acts IH]; intros g H; [cbn in H; simplify_eq; apply rtc_refl|].
  rewrite run_cons in H. destruct (step a g) as [g1|] eqn:Ha; [|done]. eapply rtc_l; [by exists a|]. by apply IH.
Qed.

(** ** What coalescing guarantees *)

(** C39: However callers arrive, cancel, fail or panic, at most one function runs
    per key. *)
Theorem single_leader g t1 t2 c1 c2 f1 f2 : reachable g →
  callers g !! t1 = Some c1 → callers g !! t2 = Some c2 →
  th_pc c1 = Leading f1 → th_pc c2 = Leading f2 → th_key c1 = th_key c2 → t1 = t2.
Proof.
  intros Hr Hc1 Hc2 Hp1 Hp2 Hk. apply reachable_Inv in Hr as Hinv.
  destruct (led_flight g t1 c1 f1 Hinv Hc1) as (fl1&Hf1&Ht1&Hk1&(pc1&Hl1&H1)&E1); [by rewrite Hp1|].
  destruct (led_flight g t2 c2 f2 Hinv Hc2) as (fl2&Hf2&Ht2&Hk2&(pc2&Hl2&H2)&E2); [by rewrite Hp2|].
  rewrite E1, Hp1 in Hl1. rewrite E2, Hp2 in Hl2. simplify_eq.
  destruct H1 as (_&Hm1&_), H2 as (_&Hm2&_). rewrite Hk1, Hk in Hm1. rewrite Hk2 in Hm2.
  assert (f1 = f2) as -> by congruence. congruence.
Qed.

Lemma follower_result g t c f o sh : reachable g →
  callers g !! t = Some c → th_pc c = Returned (Follower f) o sh →
  sh = true ∧ ∃ fl lc, flights g !! f = Some fl ∧ fl_key fl = th_key c ∧ aborted fl = false
    ∧ callers g !! fl_leader fl = Some lc ∧ th_key lc = th_key c
    ∧ (th_pc lc = Reading f o ∨ ∃ sh', th_pc lc = Returned (Leader f) o sh').
Proof.
  intros Hr Hc Hp. apply reachable_Inv in Hr as [Hfl _ Hca].
  specialize (Hca _ _ Hc). unfold caller_ok in Hca. rewrite Hp in Hca.
  destruct Hca as (fl&Hf&Hk&Hd&Ha&->&->). split; [done|].
  destruct (Hfl _ _ Hf) as [_ (pc&Hpc&H)]. unfold leader_pc in Hpc.
  destruct (callers g !! fl_leader fl) as [lc|] eqn:Hlc; [|done]. cbn in Hpc. simplify_eq.
  exists fl, lc. split_and!; [done..|congruence|]. destruct (th_pc lc) as [| |f'|f' o|f' o|[f'|f'|] o sh|]; try done.
  - by destruct H as (_&_&?&_); congruence.
  - by destruct H as (_&_&?&_); congruence.
  - destruct H as (->&_&_&H). left. by rewrite (H Ha).
  - destruct H as (->&_&_&H&_). right. eexists. by rewrite (H Ha).
  - by destruct H as (_&_&?); congruence.
Qed.

(** A call that returns another call's result returns exactly the outcome the
    leader of its key's flight computed, never that of an abandoned or
    panicking one. *)
Theorem follower_outcome g t c f o sh : reachable g →
  callers g !! t = Some c → th_pc c = Returned (Follower f) o sh →
  sh = true ∧ ∃ fl lc, flights g !! f = Some fl ∧ fl_key fl = th_key c ∧ aborted fl = false
    ∧ callers g !! fl_leader fl = Some lc ∧ th_key lc = th_key c
    ∧ (th_pc lc = Reading f o ∨ ∃ sh', th_pc lc = Returned (Leader f) o sh').
Proof. apply follower_result. Qed.

(** No lost wake-up: a waiting call can always take its result, or its flight's
    leader still has a step that leads there. *)
Theorem follower_progress g t c f n : reachable g → callers g !! t = Some c → th_pc c = Waiting f n →
  (∃ g', step (ADone t) g = Some g')
  ∨ ∃ tl lc, callers g !! tl = Some lc ∧ th_key lc = th_key c ∧
      ((th_pc lc = Leading f ∧ ∀ o ab, ∃ g', run [AReturn tl o ab; AClose tl; ADone t] g = Some g')
       ∨ ∃ o, th_pc lc = Closing f o ∧ ∃ g', run [AClose tl; ADone t] g = Some g').
Proof.
  intros Hr Hc Hp. apply reachable_Inv in Hr as Hinv. pose proof Hinv as [Hfl _ Hca].
  specialize (Hca _ _ Hc). unfold caller_ok in Hca. rewrite Hp in Hca. destruct Hca as (fl&Hf&Hk).
  assert (∀ g1 c1 fl1, callers g1 !! t = Some c1 → th_pc c1 = Waiting f n → flights g1 !! f = Some fl1 →
    done fl1 = true → ∃ g', step (ADone t) g1 = Some g') as Hdone.
  { intros g1 c1 fl1 H1 H2 H3 H4. cbn. rewrite H1. cbn. rewrite H2, H3. cbn. rewrite H4.
    destruct (aborted fl1); [destruct (th_cancelled c1)|]; by eexists. }
  destruct (Hfl _ _ Hf) as [_ (pc&Hpc&H)]. unfold leader_pc in Hpc.
  destruct (callers g !! fl_leader fl) as [lc|] eqn:Hlc; [|done]. cbn in Hpc. simplify_eq.
  assert (t ≠ fl_leader fl) as Hne.
  { intros Ht. rewrite <- Ht, Hc in Hlc. simplify_eq. by rewrite Hp in H. }
  destruct (th_pc lc) as [| |f'|f' o|f' o|[f'|f'|] o sh|] eqn:Hlp; try done.
  - destruct H as (->&_). right. exists (fl_leader fl), lc. split_and!; [done|congruence|]. left. split; [done|].
    intros o ab. rewrite run_cons. cbn [step]. rewrite Hlc. cbn [mbind option_bind]. rewrite Hlp, Hf. cbn [mbind option_bind].
    rewrite run_cons. cbn. rewrite lookup_insert_eq. cbn. rewrite lookup_insert_eq. cbn.
    rewrite !lookup_insert_ne by done. rewrite Hc. cbn. rewrite Hp, lookup_insert_eq. cbn.
    destruct ab; [destruct (th_cancelled c)|]; by eexists.
  - destruct H as (->&_). right. exists (fl_leader fl), lc. split_and!; [done|congruence|]. right. exists o. split; [done|].
    rewrite run_cons. cbn. rewrite Hlc. cbn. rewrite Hlp, Hf. cbn. rewrite lookup_insert_ne by done. rewrite Hc. cbn.
    rewrite Hp, lookup_insert_eq. cbn. destruct (aborted fl); [destruct (th_cancelled c)|]; by eexists.
  - left. eapply Hdone; [done..|]. apply H.
  - left. eapply Hdone; [done..|]. apply H.
  - left. eapply Hdone; [done..|]. apply H.
Qed.

(** When the function ends, the flight leaves the map (the next call scans
    again), carries the outcome and the abandonment, and counts as shared
    exactly when a follower is still waiting. *)
Theorem finish_shared g t c f o ab g' : reachable g → callers g !! t = Some c → th_pc c = Leading f →
  step (AReturn t o ab) g = Some g' →
  m g' !! th_key c = None ∧ ∃ fl, flights g' !! f = Some fl ∧ outcome fl = o ∧ aborted fl = ab
    ∧ (shared fl = true ↔ ∃ t' c' n, callers g !! t' = Some c' ∧ th_pc c' = Waiting f n).
Proof.
  intros Hr Hc Hp Hs. apply reachable_Inv in Hr as Hinv.
  destruct (led_flight g t c f Hinv Hc) as (fl&Hf&Ht&Hk&(pc&Hl&H)&E); [by rewrite Hp|].
  rewrite E, Hp in Hl. simplify_eq. destruct H as (_&_&_&Hj).
  cbn in Hs. rewrite Hc in Hs. cbn in Hs. rewrite Hp, Hf in Hs. simplify_eq/=.
  split; [apply lookup_delete_eq|]. rewrite lookup_insert_eq. eexists. split_and!; [done..|]. cbn.
  rewrite Hj, Z.ltb_lt. unfold waiters. split.
  - intros Hpos.
    assert (filter (λ x, waits f (th_pc x.2) = true) (callers g) ≠ ∅) as (t'&c'&Hin)%map_choose
      by (intros He; rewrite He, map_size_empty in Hpos; lia).
    apply (proj1 (map_lookup_filter_Some _ _ _ _)) in Hin. destruct Hin as [Hin Hw]. cbn in Hw. exists t', c'.
    destruct (th_pc c') eqn:Hp'; try done. apply bool_decide_eq_true in Hw as ->. by eexists.
  - intros (t'&c'&n&Hin&Hw). enough (size (filter (λ x, waits f (th_pc x.2) = true) (callers g)) ≠ 0%nat) by lia.
    rewrite map_size_non_empty_iff. intros He.
    apply (map_empty_filter_1 _ _ He t' c' Hin). cbn. rewrite Hw. cbn. by apply bool_decide_eq_true.
Qed.

(** ** What the functions computed *)
Section Outcomes.
Context (P : string → scanOutcome → bool → Prop).

(** Every function that returns satisfies [P] for the key of its caller. *)
Definition returns_ok (a : Action) (g : flightGroup) : Prop :=
  match a with AReturn t o ab => ∀ c, callers g !! t = Some c → P (th_key c) o ab | _ => True end.

Definition runs : flightGroup → flightGroup → Prop := rtc (λ g g', ∃ a, returns_ok a g ∧ step a g = Some g').

Definition has_outcome (f : nat) (o : scanOutcome) (pc : PC) : Prop :=
  match pc with
  | Closing f' (Some o') | Reading f' o' | Returned (Leader f') o' _ => f' = f ∧ o' = o
  | _ => False
  end.

Definition computed (g : flightGroup) : Prop :=
  ∀ t c f o, callers g !! t = Some c → has_outcome f o (th_pc c) →
  ∃ fl, flights g !! f = Some fl ∧ P (th_key c) o (aborted fl).

Lemma computed_frame g g' : computed g →
  (∀ t c f o, callers g' !! t = Some c → has_outcome f o (th_pc c) →
     (∃ fl, flights g' !! f = Some fl ∧ P (th_key c) o (aborted fl))
     ∨ (∃ c0, callers g !! t = Some c0 ∧ th_key c0 = th_key c ∧ has_outcome f o (th_pc c0)
        ∧ ∀ fl, flights g !! f = Some fl → ∃ fl', flights g' !! f = Some fl' ∧ aborted fl' = aborted fl)) →
  computed g'.
Proof.
  intros Hg H t c f o Hc Ho. destruct (H _ _ _ _ Hc Ho) as [?|(c0&Hc0&<-&Ho0&Hfr)]; [done|].
  destruct (Hg _ _ _ _ Hc0 Ho0) as (fl&Hfl&HP). destruct (Hfr _ Hfl) as (fl'&?&Ha). exists fl'. by rewrite Ha.
Qed.

(** Only caller [t] moves, to a program point without an outcome or with the
    one it had, and no flight changes its mark. *)
Lemma computed_move g g' t c c' : computed g → callers g !! t = Some c → callers g' = <[t := c']> (callers g) →
  th_key c' = th_key c → (∀ f o, has_outcome f o (th_pc c') → has_outcome f o (th_pc c)) →
  (∀ f fl, flights g !! f = Some fl → ∃ fl', flights g' !! f = Some fl' ∧ aborted fl' = aborted fl) →
  computed g'.
Proof.
  intros Hg Hc Hc' Hk Ho Hfr. apply (computed_frame g); [done|]. intros t0 c0 f o Hc0 Ho0. right.
  rewrite Hc' in Hc0. destruct (decide (t0 = t)) as [->|Hne].
  - rewrite lookup_insert_eq in Hc0. simplify_eq. exists c. split_and!; auto.
  - rewrite lookup_insert_ne in Hc0 by done. exists c0. split_and!; auto.
Qed.

Lemma same_mark f fl fl' (m : gmap nat flight) : m !! f = Some fl → aborted fl' = aborted fl →
  ∀ f0 fl0, m !! f0 = Some fl0 → ∃ fl1, <[f := fl']> m !! f0 = Some fl1 ∧ aborted fl1 = aborted fl0.
Proof.
  intros Hf Ha f0 fl0 Hf0. destruct (decide (f0 = f)) as [->|Hne].
  - rewrite lookup_insert_eq. exists fl'. split; [done|congruence].
  - rewrite lookup_insert_ne by done. by exists fl0.
Qed.

Lemma outcome_leads g t c f o : Inv g → callers g !! t = Some c → has_outcome f o (th_pc c) →
  ∃ fl, flights g !! f = Some fl ∧ fl_leader fl = t.
Proof.
  intros Hinv Hc Ho. pose proof (inv_callers _ Hinv _ _ Hc) as Hca. unfold caller_ok in Hca.
  destruct (th_pc c) as [| | |f' [o'|]|f' o'|[f'|f'|] o' sh|]; try done; destruct Ho as [-> ->];
    destruct Hca as (fl&?&?&_); by exists fl.
Qed.

(** The leader's function ends: its flight gets the mark [ab]. *)
Lemma computed_finish g t c f fl o ab oo : Inv g → computed g → callers g !! t = Some c → th_pc c = Leading f →
  flights g !! f = Some fl → (∀ o', oo = Some o' → P (th_key c) o' ab) →
  computed (set_pc (finishLeader g f {| fl with outcome := o |} (th_key c) ab) t c (Closing f oo)).
Proof.
  intros Hinv Hg Hc Hp Hf HP. apply (computed_frame g); [done|]. intros t0 c0 f0 o0. cbn. intros Hc0 Ho0.
  destruct (decide (t0 = t)) as [->|Hne].
  - rewrite lookup_insert_eq in Hc0. simplify_eq. cbn in Ho0. destruct oo as [o'|]; [|done].
    destruct Ho0 as [-> ->]. left. rewrite lookup_insert_eq. eexists. split; [done|]. by apply HP.
  - rewrite lookup_insert_ne in Hc0 by done. right. exists c0. split_and!; [done..|].
    destruct (outcome_leads g t0 c0 f0 o0 Hinv Hc0 Ho0) as (fl0&Hf0&Hl0). intros fl1 Hf1.
    assert (f0 ≠ f) as Hff.
    { intros ->. pose proof (inv_callers _ Hinv _ _ Hc) as Hca. unfold caller_ok in Hca. rewrite Hp in Hca.
      destruct Hca as (fl2&Hf2&Hl2&_). congruence. }
    rewrite lookup_insert_ne by done. by exists fl1.
Qed.

Lemma computed_step a g g' : Inv g → computed g → returns_ok a g → step a g = Some g' → computed g'.
Proof.
  intros Hinv Hg Hr Hs. destruct a; cbn in Hs; (destruct (callers g !! t) as [c|] eqn:Hc; [|done]); cbn in Hs.
  1: { simplify_eq. eapply (computed_move g _ t c); eauto. }
  all: destruct (th_pc c) as [|f n|f|f oo|f oo|r oo sh|] eqn:Hp; try done.
  all: try (destruct (flights g !! f) as [fl|] eqn:Hf; cbn in Hs; [|by repeat case_match]).
  - unfold enter in Hs. destruct (m g !! th_key c) as [f|].
    + destruct (flights g !! f) as [fl|] eqn:Hf; cbn in Hs; [|done]. simplify_eq.
      eapply (computed_move g _ t c); [done..| |]; [by intros ???|]. by apply (same_mark f fl).
    + simplify_eq. eapply (computed_move g _ t c); [done..| |]; [by intros ???|]. cbn. intros f0 fl0 Hf0.
      rewrite lookup_insert_ne; [by exists fl0|]. apply (inv_flights _ Hinv) in Hf0 as [? _]. lia.
  - repeat case_match; simplify_eq. eapply (computed_move g _ t c); [done..| |]; [by intros ???|eauto].
  - repeat case_match; simplify_eq; eapply (computed_move g _ t c); try done; eauto; by intros ???.
  - repeat case_match; simplify_eq. eapply (computed_move g _ t c); [done..| |]; [by intros ???|].
    by apply (same_mark f fl).
  - repeat case_match; simplify_eq. apply (computed_move g _ t c c); try done; [|by apply (same_mark f fl)].
    cbn. by rewrite insert_id.
  - simplify_eq. apply computed_finish; [done..|]. intros o' [= <-]. by apply Hr.
  - simplify_eq. pose proof (computed_finish g t c f fl (outcome fl) true None Hinv Hg Hc Hp Hf) as H.
    replace ({| fl with outcome := outcome fl |}) with fl in H by (by destruct fl). by apply H.
  - simplify_eq. eapply (computed_move g _ t c); [done..| |by apply (same_mark f fl)].
    cbn. rewrite Hp. by destruct oo.
  - simplify_eq. eapply (computed_move g _ t c); [done..| |eauto]. cbn. by rewrite Hp.
Qed.

(** A call leaves without a result only when its context ended. *)
Definition gone_ok (g : flightGroup) : Prop :=
  ∀ t c o sh, callers g !! t = Some c → th_pc c = Returned Gone o sh → th_cancelled c = true.

Lemma gone_step a g g' : gone_ok g → step a g = Some g' → gone_ok g'.
Proof.
  intros Hg Hs t0 c0 o sh. destruct a; cbn in Hs; (destruct (callers g !! t) as [c|] eqn:Hc; [|done]); cbn in Hs.
  2: unfold enter in Hs.
  all: repeat match type of Hs with
       | context [match ?x with _ => _ end] => destruct x eqn:?; cbn in Hs; try done
       | context [?x ≫= _] => destruct x eqn:?; cbn in Hs; try done
       end; simplify_eq; cbn.
  all: destruct (decide (t0 = t)) as [->|Hne];
    [rewrite ?lookup_insert_eq|rewrite ?lookup_insert_ne by done; try (intros; eapply Hg; eassumption)].
  all: intros Hc0 Hp; simplify_eq; cbn in *; try congruence; eauto.
Qed.

Lemma runs_ok g0 g : initial g0 → runs g0 g → reachable g ∧ computed g ∧ gone_ok g.
Proof.
  intros Hi Hr. assert (reachable g0 ∧ computed g0 ∧ gone_ok g0) as H0.
  { split; [by exists g0|]. destruct Hi as (_&_&Hi). split.
    - intros t c f o Hc Ho. by rewrite (Hi _ _ Hc) in Ho.
    - intros t c o sh Hc Ho. by rewrite (Hi _ _ Hc) in Ho. }
  clear Hi. induction Hr as [|g0 g1 g (a&Ha&Hs) _ IH]; [done|]. apply IH. destruct H0 as (Hreach&Hcomp&Hgone).
  split; [|split].
  - destruct Hreach as (gi&?&?). exists gi. split; [done|]. eapply rtc_r; [done|]. by exists a.
  - eapply computed_step; [|done..]. by apply reachable_Inv.
  - by eapply gone_step.
Qed.

(** What a call returns was computed by a function that ran for the same key:
    its own, or one that did not abandon its work; or the call's own context
    ended. *)
Lemma returned_outcome g0 g t c r o sh : initial g0 → runs g0 g → callers g !! t = Some c →
  th_pc c = Returned r o sh →
  match r with
  | Leader _ => ∃ ab, P (th_key c) o ab
  | Follower _ => P (th_key c) o false
  | Gone => th_cancelled c = true
  end.
Proof.
  intros Hi Hr Hc Hp. destruct (runs_ok _ _ Hi Hr) as (Hreach&Hcomp&Hgone). destruct r as [f|f|].
  - destruct (Hcomp t c f o Hc) as (fl&_&HP); [by rewrite Hp|]. by eexists.
  - destruct (follower_result g t c f o sh Hreach Hc Hp) as (_&fl&lc&Hf&_&Ha&Hlc&Hk&Hlp).
    destruct (Hcomp (fl_leader fl) lc f o Hlc) as (fl'&Hf'&HP); [by destruct Hlp as [->|[? ->]]|].
    rewrite Hk in HP. by simplify_eq; rewrite Ha in HP.
  - by apply (Hgone t c o sh).
Qed.
End Outcomes.
