(* ===== verification/ScanVerdict.v ===== *)
(** * What a match set means

    [internal/mailstrix/scanner.go]: attachment metadata and its cache key,
    the log-only and degraded markers, the deny list, response tags and the
    final verdict of one scan; [internal/verdict/verdict.go]: what a client
    acts on. *)

From Stdlib Require Import ZArith Lia.
From Stdlib Require Ascii String.
From stdpp Require Import base gmap strings list numbers sorting pretty.
From S2P Require Import Prelude GoStd GoText VerdictCache Flight.

Local Open Scope Z_scope.

(** ** Attachment metadata *)

Record ScanMeta := mkScanMeta {
  sm_Filename : string;
  sm_Extension : string;
  sm_FileType : string;
  sm_Effort : Z;
  sm_RawKey : string;
  sm_PWCandidates : list string;
  sm_requireComplete : bool
}.

(** The zero value of the 16-byte key. *)
Definition zeroKey : string := string_of_bytes (replicate 16 0).

Definition zeroMeta : ScanMeta := mkScanMeta "" "" "" 0 zeroKey [] false.

(** Interface to the hash of [cespare/xxhash], the 16-byte key of
    [zeebo/xxh3], and the Unicode tables of [strings.ToLower]. *)
Class TextEnv := {
  xxhash64 : string → Z;
  streamDedupKey : string → string;
  unicode_lower : string → string
}.

Class TextEnvOk (T : TextEnv) := {
  xxhash64_range s : 0 <= xxhash64 s < 2 ^ 64;
  streamDedupKey_len s : len (streamDedupKey s) = 16;
  unicode_lower_nul s : string_forallb (λ c, negb (byte c =? 0)) s = true →
                        string_forallb (λ c, negb (byte c =? 0)) (unicode_lower s) = true
}.

Section Meta.
Context {T : TextEnv}.

(** [strings.ToLower]: ASCII strings take a fast path. *)
Definition ToLower (s : string) : string :=
  if string_forallb (λ c, byte c <? 128) s then to_lower s else unicode_lower s.

Definition maxFilenameLen : Z := 255.

Definition fileTypeFromExtension (ext : string) : string :=
  if mem ext [".msg"; ".oft"] then "outlook" else "".

(** The text after the last path separator. *)
Definition basename (name : string) : string :=
  let after c s := match cut_last c s with Some (_, String _ t) => t | _ => s end in
  after (ascii_of_Z 92) (after (ascii_of_Z 47) name).

Definition drop_control (r : Z) : option Z := if (r <? 32) || (r =? 127) then None else Some r.

(** From the last dot on, unless the name starts or ends there. *)
Definition extension (name : string) : string :=
  match cut_last (ascii_of_Z 46) name with
  | Some (l, r) => if bool_decide (l = "") || (len r <=? 1) then "" else ToLower r
  | None => ""
  end.

Definition NewScanMeta (name : string) : ScanMeta :=
  let name := TrimSpace (string_map drop_control (basename name)) in
  let name := if maxFilenameLen <? len name then string_take (Z.to_nat maxFilenameLen) name else name in
  if bool_decide (name = "") then zeroMeta
  else
    let ext := extension name in
    {| zeroMeta with sm_Filename := name; sm_Extension := ext; sm_FileType := fileTypeFromExtension ext |}.

(** [binary.BigEndian.PutUint64] *)
Definition big_endian64 (n : Z) : string :=
  string_of_bytes ((λ i, n / 2 ^ (8 * i) mod 256) <$> [7; 6; 5; 4; 3; 2; 1; 0]).

(** What the candidates add to the hash: their number, then each one with its
    length in front. *)
Definition pw_encoding (l : list string) : string :=
  big_endian64 (Z.of_nat (length l)) +:+ string_concat ((λ c, big_endian64 (len c) +:+ c) <$> l).

Definition cacheKey (m : ScanMeta) : string :=
  let k := sm_Filename m +:+ nul +:+ sm_Extension m +:+ nul +:+ sm_FileType m +:+ nul +:+ FormatInt (sm_Effort m) in
  if bool_decide (sm_PWCandidates m = []) then k
  else k +:+ nul +:+ "pw:" +:+ FormatInt16 (xxhash64 (pw_encoding (sm_PWCandidates m))).

End Meta.

(** ** Log-only and degraded matches *)

Definition meta_get (m : Match) (k : string) : string := default "" (m_Meta m ≫= λ mm, mm !! k).

Definition matchIsLogOnly (m : Match) : bool :=
  bool_decide (meta_get m "mailstrix_canary" = "1") || bool_decide (meta_get m "mailstrix_allow" = "1").

Definition hasActionable (l : list Match) : bool := existsb (λ m, negb (matchIsLogOnly m)) l.

(** The loop of [actionableMatches], and of its copy in verdict.go: [out] stays
    nil until the first log-only match. *)
Fixpoint actionable_loop {A} (log_only : A → bool) (seen rest : list A) (out : option (list A)) : option (list A) :=
  match rest with
  | [] => out
  | m :: rest =>
      actionable_loop log_only (seen ++ [m]) rest
        (if log_only m then Some (default seen out) else (λ o, o ++ [m]) <$> out)
  end.

Definition actionableMatches (l : list Match) : list Match :=
  default l (actionable_loop matchIsLogOnly [] l None).

Definition scanIncompleteRule : string := "MAILSTRIX_SCAN_INCOMPLETE".
Definition scanDegradedRule : string := "MAILSTRIX_SCAN_DEGRADED".
Definition degradedIncomplete : string := "incomplete".
Definition degradedError : string := "error".
Definition degradedBusy : string := "busy".

Definition full_slice {A} (l : list A) : slice A := mkSlice (length l) l.

Definition scanIncompleteMatch : Match :=
  mkMatch scanIncompleteRule "" (full_slice ["scan-incomplete"])
    (Some {["description" := "SCAN-INCOMPLETE: not every extracted stream was scanned (budget, scan error or extractor panic)";
            "mailstrix_allow" := "1"]}).

Definition scanDegradedMatch (reason : string) : Match :=
  mkMatch scanDegradedRule "" (full_slice ["scan-degraded"])
    (Some {["description" := "SCAN-DEGRADED: no complete verdict (" +:+ reason +:+ ")";
            "reason" := reason; "mailstrix_allow" := "1"]}).

Fixpoint degradedReason (l : list Match) : string :=
  match l with
  | [] => ""
  | m :: l =>
      if bool_decide (m_Rule m = scanDegradedRule) then
        let r := meta_get m "reason" in if bool_decide (r ≠ "") then r else degradedError
      else if bool_decide (m_Rule m = scanIncompleteRule) then degradedIncomplete
      else degradedReason l
  end.

(** ** Filters over a match set *)
Section Filters.
Context {T : TextEnv}.

Definition filterDenied (l : list Match) (deny : option (gset string)) : list Match :=
  match deny with
  | None => l
  | Some d => if bool_decide (d = ∅) then l else filter (λ m, ToLower (m_Rule m) ∉ d) l
  end.

Definition set_meta (k v : string) (m : Match) : Match :=
  {| m with m_Meta := Some (<[k := v]> (default ∅ (m_Meta m))) |}.

Definition tag_response (allowlist : gset string) (canary : bool) (m : Match) : Match :=
  let allow := bool_decide (ToLower (m_Rule m) ∈ allowlist) in
  if negb allow && negb canary then m
  else
    let m := {| m with m_Meta := Some (default ∅ (m_Meta m)) |} in
    let m := if allow then set_meta "mailstrix_allow" "1" m else m in
    if canary then set_meta "mailstrix_canary" "1" m else m.

Definition applyResponseTags (allowlist : gset string) (canary : bool) (l : list Match) : list Match :=
  if bool_decide (l = []) || (bool_decide (allowlist = ∅) && negb canary) then l
  else tag_response allowlist canary <$> l.

End Filters.

(** ** The verdict of one scan *)

(** [extractionIncomplete]; [t] is the reading of the clock, 0 a deadline that
    is not set. *)
Definition extractionIncomplete (extractDeadline t : Time) (panicked retainedTruncated : bool) (capHits : list string) : bool :=
  (negb (IsZero extractDeadline) && negb (Before t extractDeadline))
  || panicked || retainedTruncated || bool_decide (capHits ≠ []).

Definition finalScanVerdict (out : list Match) (incomplete : bool) (completionErr rawErr : option scanError)
    (requireComplete : bool) (deadline t : Time) : list Match * option scanError :=
  let out := if incomplete then out ++ [scanIncompleteMatch] else out in
  let completionErr := if incomplete && bool_decide (completionErr = None) then Some ErrScanIncomplete else completionErr in
  let completionErr := if requireComplete && negb (IsZero deadline) && negb (Before t deadline)
                       then Some ErrDeadlineExceeded else completionErr in
  if requireComplete && bool_decide (completionErr ≠ None) then (out, completionErr)
  else if bool_decide (rawErr ≠ None) && bool_decide (out = []) then ([], rawErr)
  else if incomplete then (out, Some ErrScanIncomplete)
  else (out, None).

(** [streamScanOrder]: the first [nContent] streams by size, then the rest.
    The sort is stable: equal sizes keep their positions' order. *)
Definition size_le (streams : list string) (a b : nat) : Prop :=
  len (default "" (streams !! a)) < len (default "" (streams !! b))
  ∨ len (default "" (streams !! a)) = len (default "" (streams !! b)) ∧ (a <= b)%nat.

#[export] Instance size_le_dec streams : RelDecision (size_le streams).
Proof. intros a b. unfold size_le. apply _. Defined.

Definition streamScanOrder (streams : list string) (nContent : Z) : list nat :=
  let nReal := Z.to_nat (Z.min nContent (Z.of_nat (length streams))) in
  let order := seq 0 (length streams) in
  merge_sort (size_le streams) (take nReal order) ++ drop nReal order.

(** ** Candidate passwords *)

Definition maxEffectivePWCandidates : nat := 64.
Definition maxFilenameTokens : nat := 6.

Fixpoint dedup_loop (seen : gset string) (l : list string) : list string :=
  match l with
  | [] => []
  | c :: l =>
      let c := TrimSpace c in
      if bool_decide (c = "") || bool_decide (c ∈ seen) then dedup_loop seen l
      else c :: dedup_loop ({[c]} ∪ seen) l
  end.

Definition dedupCandidates (l : list string) : list string := dedup_loop ∅ l.

(** One list of [capDedupCandidates]; the flag: the cap was reached inside it. *)
Fixpoint cap_loop (seen : gset string) (out : list string) (l : list string) : bool * gset string * list string :=
  match l with
  | [] => (false, seen, out)
  | c :: l =>
      if (length out =? maxEffectivePWCandidates)%nat then (true, seen, out)
      else
        let c := TrimSpace c in
        if bool_decide (c = "") || bool_decide (c ∈ seen) then cap_loop seen out l
        else cap_loop ({[c]} ∪ seen) (out ++ [c]) l
  end.

Fixpoint cap_lists (seen : gset string) (out : list string) (ls : list (list string)) : list string :=
  match ls with
  | [] => out
  | l :: ls => match cap_loop seen out l with
               | (true, _, out) => out
               | (false, seen, out) => cap_lists seen out ls
               end
  end.

Definition capDedupCandidates (ls : list (list string)) : list string := cap_lists ∅ [] ls.

Definition token_separator (c : Ascii.ascii) : bool := mem (byte c) [32; 95; 45; 46; 40; 41; 91; 93].

(** [strings.FieldsFunc] at single-byte separators. *)
Fixpoint fields_at (sep : Ascii.ascii → bool) (acc s : string) : list string :=
  let flush := if bool_decide (acc = "") then [] else [string_rev "" acc] in
  match s with
  | EmptyString => flush
  | String c s => if sep c then flush ++ fields_at sep "" s else fields_at sep (String c acc) s
  end.

Definition filenameTokens (name : string) : list string :=
  let name := match cut_last (ascii_of_Z 46) name with
              | Some (l, _) => if bool_decide (l = "") then name else l
              | None => name
              end in
  take maxFilenameTokens (filter (λ t, Is_true ((3 <=? len t) && (len t <=? 32))) (fields_at token_separator "" name)).

(** ** Lemmas *)

Section Actionable.
Context {A : Type} (log_only : A → bool).

Lemma actionable_loop_filter rest : ∀ seen out,
  actionable_loop log_only seen rest out =
  match out with
  | Some o => Some (o ++ filter (λ m, log_only m = false) rest)
  | None => if existsb log_only rest then Some (seen ++ filter (λ m, log_only m = false) rest) else None
  end.
Proof.
  induction rest as [|m rest IH]; intros seen out; [destruct out; simpl; by rewrite ?app_nil_r|].
  cbn [actionable_loop existsb]. rewrite IH, filter_cons. destruct (log_only m) eqn:Hm; simpl.
  - by destruct out.
  - destruct out; simpl; [by rewrite <- app_assoc|].
    case_match; [|done]. by rewrite <- app_assoc.
Qed.

Lemma filter_no_log_only l : existsb log_only l = false → filter (λ m, log_only m = false) l = l.
Proof.
  intros Hl. apply filter_all. intros m Hm. destruct (log_only m) eqn:He; [|done].
  assert (existsb log_only l = true); [|congruence]. apply existsb_exists. exists m.
  by rewrite <- list_elem_of_In.
Qed.

(** Dropping log-only matches is a plain filter. *)
Lemma actionable_filter l : default l (actionable_loop log_only [] l None) = filter (λ m, log_only m = false) l.
Proof.
  rewrite actionable_loop_filter. destruct (existsb _ l) eqn:He; simpl; [done|]. by rewrite filter_no_log_only.
Qed.

Lemma actionable_nil l : filter (λ m, log_only m = false) l = [] ↔ Forall (λ m, log_only m = true) l.
Proof.
  induction l as [|m l IH]; [done|]. rewrite filter_cons, Forall_cons. destruct (log_only m); simpl; naive_solver.
Qed.

End Actionable.

Lemma actionableMatches_filter l : actionableMatches l = filter (λ m, matchIsLogOnly m = false) l.
Proof. apply actionable_filter. Qed.

Lemma hasActionable_iff l : hasActionable l = true ↔ actionableMatches l ≠ [].
Proof.
  rewrite actionableMatches_filter. unfold hasActionable. rewrite existsb_exists. split.
  - intros (m&Hm%list_elem_of_In&Ha) He. apply negb_true_iff in Ha.
    assert (m ∈ filter (λ m, matchIsLogOnly m = false) l) as Hf by (by apply list_elem_of_filter).
    rewrite He in Hf. by apply not_elem_of_nil in Hf.
  - destruct (filter _ l) as [|m f] eqn:Hf; [done|]. intros _.
    assert (m ∈ filter (λ m, matchIsLogOnly m = false) l) as Hm by (rewrite Hf; left).
    apply list_elem_of_filter in Hm as [Hl Hm]. exists m. split; [by apply list_elem_of_In|]. by rewrite Hl.
Qed.

Lemma incomplete_log_only : matchIsLogOnly scanIncompleteMatch = true.
Proof. reflexivity. Qed.

Lemma degraded_log_only reason : matchIsLogOnly (scanDegradedMatch reason) = true.
Proof.
  unfold matchIsLogOnly, meta_get, scanDegradedMatch. cbn [m_Meta mbind option_bind].
  by simplify_map_eq.
Qed.

Lemma degradedReason_marker reason : reason ≠ "" → degradedReason [scanDegradedMatch reason] = reason.
Proof.
  intros Hr. unfold degradedReason. rewrite bool_decide_eq_true_2 by done. unfold meta_get, scanDegradedMatch.
  cbn [m_Meta mbind option_bind]. simplify_map_eq. by rewrite bool_decide_eq_true_2.
Qed.

(** What a client acts on survives a trip through JSON. *)
Lemma meta_get_default m k a : a ≠ "" → meta_get m k = a ↔ meta_map m !! k = Some a.
Proof.
  intros Ha. unfold meta_get, meta_map. destruct (m_Meta m) as [mm|]; cbn; [|rewrite lookup_empty; split; congruence].
  destruct (mm !! k); cbn; split; congruence.
Qed.

Lemma json_log_only m m' : json_match m m' → matchIsLogOnly m' = matchIsLogOnly m.
Proof.
  intros Hj. unfold matchIsLogOnly. f_equal; apply bool_decide_ext; rewrite !meta_get_default by done; by apply json_meta_value.
Qed.

Lemma json_hasActionable l l' : Forall2 json_match l l' → hasActionable l' = hasActionable l.
Proof. induction 1 as [|m m' l l' Hm _ IH]; [done|]. cbn. rewrite (json_log_only m m' Hm). f_equal. exact IH. Qed.

Lemma json_all_log_only l l' : Forall2 json_match l l' → Forall (λ m, matchIsLogOnly m = true) l' → Forall (λ m, matchIsLogOnly m = true) l.
Proof.
  induction 1 as [|m m' l l' Hm _ IH]; intros Hf; [done|]. inversion Hf; subst. constructor; [by rewrite <- (json_log_only m m')|auto].
Qed.

Lemma json_degraded l l' : Forall2 json_match l l' → degradedReason l' = "" ↔ degradedReason l = "".
Proof.
  induction 1 as [|m m' l l' Hm _ IH]; [done|]. cbn [degradedReason]. cbv zeta. rewrite (jm_rule _ _ Hm).
  rewrite (bool_decide_ext (json_string (m_Rule m) = scanDegradedRule) (m_Rule m = scanDegradedRule)) by (by apply json_string_ascii).
  rewrite (bool_decide_ext (json_string (m_Rule m) = scanIncompleteRule) (m_Rule m = scanIncompleteRule)) by (by apply json_string_ascii).
  case_bool_decide; [by repeat case_bool_decide|]. by case_bool_decide.
Qed.

Lemma degradedReason_app l l' : degradedReason (l ++ l') =
  if bool_decide (degradedReason l = "") then degradedReason l' else degradedReason l.
Proof.
  induction l as [|m l IH]; [done|]. cbn [app degradedReason]. destruct (bool_decide (m_Rule m = scanDegradedRule)).
  - cbn zeta. destruct (bool_decide (meta_get m "reason" ≠ "")) eqn:Hr; [|done]. apply bool_decide_eq_true in Hr.
    by rewrite bool_decide_eq_false_2.
  - by destruct (bool_decide (m_Rule m = scanIncompleteRule)).
Qed.

(** A scan reports no error exactly when it is complete or, outside admission,
    when a failed raw scan still left matches to report. *)
Lemma finalScanVerdict_complete out incomplete completionErr rawErr requireComplete deadline t l :
  finalScanVerdict out incomplete completionErr rawErr requireComplete deadline t = (l, None) →
  l = out ∧ incomplete = false ∧ (rawErr = None ∨ out ≠ [])
  ∧ (requireComplete = true → completionErr = None ∧ (deadline = 0 ∨ t < deadline)).
Proof.
  unfold finalScanVerdict, IsZero, Before. destruct incomplete, requireComplete; cbn [andb negb].
  - repeat case_match; intros; simplify_eq.
  - repeat case_match; intros; simplify_eq.
  - destruct (negb (deadline =? 0) && negb (t <? deadline)) eqn:Hd; [by rewrite bool_decide_eq_true_2|].
    destruct completionErr; [done|]. rewrite andb_false_iff, !negb_false_iff, Z.eqb_eq, Z.ltb_lt in Hd.
    destruct rawErr, out; cbn; intros; simplify_eq; naive_solver.
  - destruct rawErr, out; cbn; intros; simplify_eq; naive_solver.
Qed.

#[export] Instance size_le_total streams : Total (size_le streams).
Proof. intros a b. unfold size_le. lia. Qed.

#[export] Instance size_le_trans streams : Transitive (size_le streams).
Proof. intros a b c. unfold size_le. lia. Qed.

(** The scan visits every extracted stream exactly once, real content first
    and the smallest of it first, so that padding cannot spend the budget
    ahead of a small member; equal sizes and the rest keep their order. *)
Theorem streamScanOrder_visits streams nContent : ∃ real rest,
  streamScanOrder streams nContent = real ++ rest
  ∧ Permutation (real ++ rest) (seq 0 (length streams))
  ∧ (∀ i, i ∈ real ↔ (i < length streams)%nat ∧ Z.of_nat i < nContent)
  ∧ StronglySorted (size_le streams) real
  ∧ rest = seq (length real) (length streams - length real).
Proof.
  unfold streamScanOrder.
  set (n := Z.to_nat (Z.min nContent (Z.of_nat (length streams)))).
  assert (n <= length streams)%nat as Hle by lia.
  assert (take n (seq 0 (length streams)) = seq 0 n) as Ht.
  { replace (length streams) with (n + (length streams - n))%nat by lia. rewrite seq_app.
    rewrite take_app_le by (rewrite length_seq; lia). by rewrite take_ge by (rewrite length_seq; lia). }
  assert (drop n (seq 0 (length streams)) = seq n (length streams - n)) as Hd.
  { replace (length streams) with (n + (length streams - n))%nat at 1 by lia. rewrite seq_app.
    rewrite drop_app_length' by (by rewrite length_seq). done. }
  exists (merge_sort (size_le streams) (seq 0 n)), (seq n (length streams - n)). rewrite Ht, Hd.
  split; [done|]. pose proof (merge_sort_Permutation (size_le streams) (seq 0 n)) as Hp.
  split; [|split; [|split]].
  - rewrite Hp, <- (seq_app n _ 0). by replace (n + (length streams - n))%nat with (length streams) by lia.
  - intros i. rewrite Hp, elem_of_seq. lia.
  - apply StronglySorted_merge_sort; apply _.
  - by rewrite (Permutation_length Hp), length_seq.
Qed.

Lemma cap_loop_spec l : ∀ seen out, (length out <= maxEffectivePWCandidates)%nat →
  match cap_loop seen out l with
  | (true, _, o) => ∀ rest, o = take maxEffectivePWCandidates (out ++ dedup_loop seen (l ++ rest))
  | (false, seen', o) => (length o <= maxEffectivePWCandidates)%nat
                         ∧ ∀ rest, out ++ dedup_loop seen (l ++ rest) = o ++ dedup_loop seen' rest
  end.
Proof.
  induction l as [|c l IH]; intros seen out Ho; [done|]. cbn [cap_loop]. destruct (_ =? _)%nat eqn:Hl.
  - apply Nat.eqb_eq in Hl. intros rest. by rewrite take_app_length'.
  - apply Nat.eqb_neq in Hl. cbn [app dedup_loop]. cbn zeta.
    destruct (bool_decide (TrimSpace c = "") || bool_decide (TrimSpace c ∈ seen)); [by apply IH|].
    pose proof (IH ({[TrimSpace c]} ∪ seen) (out ++ [TrimSpace c])) as H.
    rewrite length_app in H. specialize (H ltac:(simpl; lia)). destruct (cap_loop _ _ l) as [[[] ?] o].
    + intros rest. rewrite (H rest). by rewrite <- app_assoc.
    + destruct H as [Hlo H]. split; [done|]. intros rest. rewrite <- H. by rewrite <- app_assoc.
Qed.

(** The candidate list that stops at the cap is the deduplicated
    concatenation of its sources, cut at the cap: the optimised walk changes
    nothing. *)
Theorem capDedupCandidates_spec ls :
  capDedupCandidates ls = take maxEffectivePWCandidates (dedupCandidates (concat ls)).
Proof.
  unfold capDedupCandidates, dedupCandidates.
  assert (∀ ls seen out, (length out <= maxEffectivePWCandidates)%nat →
    cap_lists seen out ls = take maxEffectivePWCandidates (out ++ dedup_loop seen (concat ls))) as H.
  { clear. induction ls as [|l ls IH]; intros seen out Ho; cbn [cap_lists concat].
    - by rewrite app_nil_r, take_ge.
    - pose proof (cap_loop_spec l seen out Ho) as H. destruct (cap_loop seen out l) as [[[] seen'] o]; [apply H|].
      destruct H as [Hl H]. by rewrite IH, H. }
  by rewrite H by (simpl; lia).
Qed.

Lemma dedup_loop_NoDup l : ∀ seen, NoDup (dedup_loop seen l) ∧ ∀ c, c ∈ dedup_loop seen l → c ∉ seen ∧ c ≠ "".
Proof.
  induction l as [|x l IH]; intros seen; cbn [dedup_loop]; cbn zeta; [split; [constructor|by intros c ?%not_elem_of_nil]|].
  destruct (_ || _) eqn:Hc; [apply IH|]. bool_hyps. destruct (IH ({[TrimSpace x]} ∪ seen)) as [Hnd Hin]. split.
  - constructor; [|done]. intros Hx. apply Hin in Hx as [Hx _]. set_solver.
  - intros c [->|Hx]%elem_of_cons; [done|]. apply Hin in Hx as [Hx ?]. split; [set_solver|done].
Qed.

(** ** Cache keys do not alias *)
Section Keys.
Context {T : TextEnv} {TOk : TextEnvOk T}.

(** The part of the key the password candidates decide. *)
Definition pw_key (m : ScanMeta) : option Z :=
  if bool_decide (sm_PWCandidates m = []) then None else Some (xxhash64 (pw_encoding (sm_PWCandidates m))).

Definition meta_ok (m : ScanMeta) : Prop :=
  no_nul (sm_Filename m) = true ∧ no_nul (sm_Extension m) = true ∧ no_nul (sm_FileType m) = true.

Definition same_meta (m m' : ScanMeta) : Prop :=
  sm_Filename m = sm_Filename m' ∧ sm_Extension m = sm_Extension m' ∧ sm_FileType m = sm_FileType m'
  ∧ sm_Effort m = sm_Effort m' ∧ pw_key m = pw_key m'.

(** What follows the file type. *)
Definition key_tail (m : ScanMeta) : string :=
  match pw_key m with
  | None => FormatInt (sm_Effort m)
  | Some h => FormatInt (sm_Effort m) +:+ nul +:+ "pw:" +:+ FormatInt16 h
  end.

Lemma cacheKey_fields m : cacheKey m =
  sm_Filename m +:+ nul +:+ sm_Extension m +:+ nul +:+ sm_FileType m +:+ nul +:+ key_tail m.
Proof.
  unfold cacheKey, key_tail, pw_key. case_bool_decide; [done|]. by rewrite <- !string_app_assoc.
Qed.

Lemma string_app_cancel_l (p s t : string) : p +:+ s = p +:+ t → s = t.
Proof. induction p as [|c p IH]; [done|]. simpl. intros He. injection He as He. by apply IH. Qed.

Lemma key_tail_inj m m' : key_tail m = key_tail m' → sm_Effort m = sm_Effort m' ∧ pw_key m = pw_key m'.
Proof.
  assert (∀ m h, pw_key m = Some h → 0 <= h < 2 ^ 64) as Hr.
  { intros ? h. unfold pw_key. case_bool_decide; [done|]. intros [= <-]. apply xxhash64_range. }
  unfold key_tail. destruct (pw_key m) as [h|] eqn:Hm, (pw_key m') as [h'|] eqn:Hm'; intros He.
  - apply nul_split in He as [Hf Hh]; [|apply FormatInt_no_nul..]. apply (inj FormatInt) in Hf.
    split; [done|]. f_equal. apply string_app_cancel_l in Hh. apply Hr in Hm, Hm'.
    pose proof (FormatInt16_value h Hm) as H1. rewrite Hh, FormatInt16_value in H1 by done. congruence.
  - exfalso. symmetry in He. eapply nul_end; [| |exact He]; apply FormatInt_no_nul.
  - exfalso. eapply nul_end; [| |exact He]; apply FormatInt_no_nul.
  - by apply (inj FormatInt) in He.
Qed.

Lemma cacheKey_inj m m' : meta_ok m → meta_ok m' → cacheKey m = cacheKey m' → same_meta m m'.
Proof.
  rewrite !cacheKey_fields. intros (?&?&?) (?&?&?) He.
  apply nul_split in He as [? He]; [|done..]. apply nul_split in He as [? He]; [|done..].
  apply nul_split in He as [? He]; [|done..]. apply key_tail_inj in He as [??]. done.
Qed.

(** A key inside the ICAP name space is never the key of another request. *)
Lemma icap_cacheKey m m' : meta_ok m → meta_ok m' → "icap" +:+ nul +:+ cacheKey m ≠ cacheKey m'.
Proof.
  rewrite !cacheKey_fields. intros (?&?&?) (?&?&?) He.
  apply nul_split in He as [_ He]; [|done..]. apply nul_split in He as [_ He]; [|done..].
  apply nul_split in He as [_ He]; [|done..]. unfold key_tail in He. destruct (pw_key m') as [h'|].
  - apply nul_split in He as [_ He]; [|done|apply FormatInt_no_nul].
    pose proof (FormatInt_all (λ c, byte c <=? 57) (sm_Effort m) ltac:(intros; apply Z.leb_le; lia)) as Hd.
    unfold key_tail in He. destruct (FormatInt (sm_Effort m)) as [|c s]; destruct (pw_key m); try done;
      simpl in He; injection He as -> _; cbn in Hd; done.
  - eapply nul_end; [| |symmetry; exact He]; [apply FormatInt_no_nul|done].
Qed.

(** [NewScanMeta] cannot put a separator into a key. *)
Lemma to_lower_no_nul s : no_nul s = true → no_nul (to_lower s) = true.
Proof.
  unfold no_nul. induction s as [|c s IH]; simpl; [done|]. intros Hs. bool_hyps. rewrite IH by done.
  rewrite andb_true_r. apply negb_true_iff, Z.eqb_neq. case_match; [|done]. bool_hyps.
  rewrite byte_ascii_of_Z by lia. lia.
Qed.

Lemma ToLower_no_nul s : no_nul s = true → no_nul (ToLower s) = true.
Proof. intros Hs. unfold ToLower. case_match; [by apply to_lower_no_nul|by apply unicode_lower_nul]. Qed.

Lemma NewScanMeta_ok name : meta_ok (NewScanMeta name).
Proof.
  unfold NewScanMeta. set (n := TrimSpace _).
  assert (no_nul n = true) as Hn.
  { apply TrimSpace_all, string_map_all. intros r r'. unfold drop_control. case_match; [done|]. intros [= ->].
    bool_hyps. apply encode_rune_no_nul. lia. }
  set (n' := if _ <? _ then _ else n). assert (no_nul n' = true) as Hn'.
  { subst n'. case_match; [by apply string_take_all|done]. }
  case_bool_decide; [done|]. cbn. split; [done|]. assert (no_nul (extension n') = true) as He.
  { unfold extension. destruct (cut_last _ n') as [[l r]|] eqn:Hc; [|done]. case_match; [done|].
    apply ToLower_no_nul. apply cut_last_app in Hc. rewrite Hc, no_nul_app in Hn'. by bool_hyps. }
  split; [done|]. unfold fileTypeFromExtension. by case_match.
Qed.

(** Two requests share a verdict-cache key only when their file name,
    extension, type hint, effort and password candidates' hash agree and they
    come through the same name space: verdicts never leak across metadata, nor
    between ICAP and HTTP requests. *)
Theorem cacheKey_separates m m' : meta_ok m → meta_ok m' →
  (cacheKey m = cacheKey m' → same_meta m m')
  ∧ ("icap" +:+ nul +:+ cacheKey m = "icap" +:+ nul +:+ cacheKey m' → same_meta m m')
  ∧ "icap" +:+ nul +:+ cacheKey m ≠ cacheKey m'.
Proof.
  intros Hm Hm'. split; [by apply cacheKey_inj|]. split; [|by apply icap_cacheKey].
  intros He. apply nul_split in He as [_ He]; [|done..]. by apply cacheKey_inj.
Qed.

End Keys.
