(* ===== verification/ClientVerdict.v ===== *)
(** * The clients of /scan

    [internal/verdict]: one POST to a strixd, what its answer means and which
    matches a client acts on; [decodeFilenameB64] and [scanMetaFromRequest]
    of server.go, which read what it sends. *)

From Stdlib Require Import ZArith Lia.
From Stdlib Require Ascii String.
From stdpp Require Import base gmap strings list numbers.
From S2P Require Import Prelude GoStd GoText Base64 VerdictCache ScanVerdict.

Local Open Scope Z_scope.

(** ** verdict.go *)

(** [Match] of the clients: the server's without tags. *)
Record CMatch := mkCMatch {
  c_Rule : string;
  c_Namespace : string;
  c_Meta : option (gmap string string)
}.

(** [Response]; a nil slice is [None]. *)
Record Response := mkResponse { rs_Matches : option (list CMatch); rs_Degraded : string }.

Record Verdict := mkVerdict {
  v_Malicious : bool;
  v_Family : string;
  v_Confidence : string;
  v_Rules : list string
}.

Definition familyMetaKeys : list string := ["family"; "malware_family"; "actor"].

Definition c_meta_get (m : CMatch) (k : string) : string := default "" (c_Meta m ≫= λ mm, mm !! k).

Definition isLogOnly (m : CMatch) : bool :=
  match c_Meta m with
  | None => false
  | Some _ => bool_decide (c_meta_get m "mailstrix_canary" = "1") || bool_decide (c_meta_get m "mailstrix_allow" = "1")
  end.

Definition Actionable (l : list CMatch) : list CMatch := default l (actionable_loop isLogOnly [] l None).

Fixpoint family_loop (keys : list string) (m : CMatch) : string :=
  match keys with
  | [] => ""
  | k :: keys => let v := TrimSpace (c_meta_get m k) in if bool_decide (v ≠ "") then v else family_loop keys m
  end.

Definition familyOf (m : CMatch) : string := family_loop familyMetaKeys m.

Definition for_step (v : Verdict) (m : CMatch) : Verdict :=
  let v := {| v with v_Malicious := true; v_Rules := v_Rules v ++ [c_Rule m] |} in
  if bool_decide (v_Family v = "") then
    let fam := familyOf m in if bool_decide (fam ≠ "") then {| v with v_Family := fam |} else v
  else v.

Definition For (l : list CMatch) : Verdict :=
  let v := foldl for_step (mkVerdict false "" "" []) l in
  if bool_decide (v_Family v ≠ "") then {| v with v_Confidence := "family" |}
  else if v_Malicious v then {| v with v_Confidence := "rule" |} else v.

(** ** sandbox.go *)

Definition StaticOnly : string := "static-only".
Definition QuarantinePending : string := "quarantine-pending".
Definition Tempfail : string := "tempfail".

(** No error. *)
Definition ValidateReportOnlyPolicy (policy : string) : bool :=
  bool_decide (policy = "") || bool_decide (policy = StaticOnly).

(** ** client.go *)

Definition DefaultTimeout : Duration := 10 * second.
Definition maxResponseBody : Z := Z.shiftl 4 20.

Record Client := mkClient { cl_base : string; cl_token : string; cl_userAgent : string; cl_timeout : Duration }.

Definition NewClient (base token userAgent : string) (timeout : Duration) : Client :=
  mkClient base token userAgent (if timeout <=? 0 then DefaultTimeout else timeout).

Record Request := mkRequest { rq_url : string; rq_headers : list (string * string); rq_body : string }.

Definition slashes : list string := ["/"].

Definition scan_request (c : Client) (name buf : string) : Request :=
  mkRequest (trim_right slashes (cl_base c) +:+ "/scan")
    ([("Content-Type", "application/octet-stream"); ("Accept", "application/json"); ("User-Agent", cl_userAgent c)]
     ++ (if bool_decide (cl_token c ≠ "") then [("X-MAILSTRIX-Token", cl_token c)] else [])
     ++ (if bool_decide (name ≠ "") then [("X-MAILSTRIX-Filename", EncodeToString name)] else []))
    buf.

(** One exchange: no response, or a status and the bytes of the body before
    it ends or a read fails. *)
Inductive Exchange := NoResponse | Responded (status : Z) (body : string) (read_error : bool).

Inductive ClientError :=
  | ENewRequest | ETransport | EStatus (status : Z) (snippet : string)
  | EReadResponse | EResponseTooLarge | EDecode | ENullMatches | EDegraded (reason : string).

(** [io.ReadAll] of a reader limited to [n] bytes. *)
Definition ReadAllLimited (n : Z) (body : string) (read_error : bool) : option string :=
  if n <=? len body then Some (string_take (Z.to_nat n) body)
  else if read_error then None else Some body.

(** The bytes read before an error. *)
Definition limited_prefix (n : Z) (body : string) : string := string_take (Z.to_nat n) body.

Section Scan.
(** [http.NewRequest] accepts the URL; [json.Unmarshal] into [Response]. *)
Context (url_ok : string → bool) (decodeResponse : string → option Response).

(** [Client.Scan]; [do] sends the request. *)
Definition Scan (c : Client) (do : Request → Exchange) (name buf : string) : list CMatch * option ClientError :=
  let req := scan_request c name buf in
  if negb (url_ok (rq_url req)) then ([], Some ENewRequest)
  else match do req with
  | NoResponse => ([], Some ETransport)
  | Responded status body read_error =>
      if negb (status =? 200) then ([], Some (EStatus status (TrimSpace (limited_prefix 256 body))))
      else match ReadAllLimited (maxResponseBody + 1) body read_error with
      | None => ([], Some EReadResponse)
      | Some body =>
          if maxResponseBody <? len body then ([], Some EResponseTooLarge)
          else match decodeResponse body with
          | None => ([], Some EDecode)
          | Some out =>
              match rs_Matches out with
              | None => ([], Some ENullMatches)
              | Some l =>
                  if bool_decide (rs_Degraded out ≠ "") && bool_decide (Actionable l = [])
                  then (l, Some (EDegraded (rs_Degraded out))) else (l, None)
              end
          end
      end
  end.

End Scan.

(** ** What the server reads: server.go *)

Definition drop_blank (r : Z) : option Z := if mem r [10; 13; 32; 9] then None else Some r.

Definition decodeFilenameB64 (s : string) : option string :=
  let s := string_map drop_blank s in
  match Std_DecodeString s with Some b => Some b | None => RawStd_DecodeString s end.

Definition maxHeaderPWCandidates : nat := 32.
Definition maxHeaderPWCandidateLen : Z := 64.

Fixpoint header_candidates (lines : list string) (seen : gset string) (out : list string) : list string :=
  match lines with
  | [] => out
  | line :: lines =>
      let c := TrimSpace (string_map drop_control line) in
      if bool_decide (c = "") || (maxHeaderPWCandidateLen <? len c) then header_candidates lines seen out
      else if bool_decide (c ∈ seen) then header_candidates lines seen out
      else
        let out := out ++ [c] in
        if (maxHeaderPWCandidates <=? length out)%nat then out else header_candidates lines ({[c]} ∪ seen) out
  end.

(** The argument is the header, empty when absent. *)
Definition pwCandidatesFromRequest (raw : string) : list string :=
  if bool_decide (raw = "") then []
  else match decodeFilenameB64 raw with
  | None => []
  | Some dec =>
      let maxBlob := (maxHeaderPWCandidates * S (Z.to_nat maxHeaderPWCandidateLen))%nat in
      let dec := if Z.of_nat maxBlob <? len dec then string_take maxBlob dec else dec in
      header_candidates (split_byte (ascii_of_Z 10) "" dec) ∅ []
  end.

Section Meta.
Context {T : TextEnv}.

(** [scanMetaFromRequest]: the two headers and [cfg.ArchivePW]. *)
Definition scanMetaFromRequest (filename pwCandidates : string) (archivePW : bool) : ScanMeta :=
  let meta :=
    if bool_decide (filename ≠ "") then
      match decodeFilenameB64 filename with Some dec => NewScanMeta dec | None => zeroMeta end
    else zeroMeta in
  if archivePW then {| meta with sm_PWCandidates := pwCandidatesFromRequest pwCandidates |} else meta.

End Meta.

(** ** Which matches count *)

Lemma Actionable_filter l : Actionable l = filter (λ m, isLogOnly m = false) l.
Proof. apply actionable_filter. Qed.

Lemma ReadAllLimited_whole n body e b : 0 <= n → ReadAllLimited (n + 1) body e = Some b → len b <= n →
  b = body ∧ e = false.
Proof.
  intros Hn. unfold ReadAllLimited. case_match eqn:Hl; [|by destruct e; intros [= <-]].
  intros [= <-]. rewrite string_take_len. lia.
Qed.

(** A result without an error is the whole body of a 200 answer, decoded, and
    either complete or with a match to act on. *)
Lemma Scan_accepts url_ok decodeResponse c do name buf l :
  Scan url_ok decodeResponse c do name buf = (l, None) ↔
  url_ok (rq_url (scan_request c name buf)) = true
  ∧ ∃ body degraded, (∃ e, do (scan_request c name buf) = Responded 200 body e) ∧ len body <= maxResponseBody
    ∧ do (scan_request c name buf) = Responded 200 body false
    ∧ decodeResponse body = Some (mkResponse (Some l) degraded) ∧ (degraded = "" ∨ Actionable l ≠ []).
Proof.
  unfold Scan. cbv zeta. destruct (url_ok _); cbn [negb]; [|split; [done|by intros [? _]]].
  destruct (do _) as [|status body e]; [split; [done|]; by intros (_&?&?&[? ?]&_)|].
  destruct (status =? 200) eqn:Hst; cbn [negb].
  2:{ split; [done|]. intros (_&?&?&_&_&[= -> _ _]&_). done. }
  apply Z.eqb_eq in Hst as ->. split.
  - destruct (ReadAllLimited _ body e) as [b|] eqn:Hr; [|done]. destruct (maxResponseBody <? len b) eqn:Hb; [done|].
    apply Z.ltb_ge in Hb. apply ReadAllLimited_whole in Hr as [-> ->]; [|done|done].
    destruct (decodeResponse body) as [[[l'|] d]|] eqn:Hd; cbn; [|done..].
    destruct (bool_decide (d ≠ "") && _) eqn:Hc; [done|]. intros [= ->]. split; [done|].
    exists body, d. split_and!; [by eexists|done..|]. apply andb_false_iff in Hc as [Hc|Hc];
      apply bool_decide_eq_false in Hc; [left|by right]. by apply dec_stable.
  - intros (_&body'&d&_&Hl&[= <- ->]&Hd&Ha). unfold ReadAllLimited.
    replace (maxResponseBody + 1 <=? len body) with false by lia.
    replace (maxResponseBody <? len body) with false by lia. rewrite Hd. cbn.
    destruct Ha as [->|Ha]; [done|]. rewrite (bool_decide_eq_false_2 (Actionable l = [])) by done. by rewrite andb_false_r.
Qed.

(** C15: A client reports a result only for a complete 200 answer of at most
    4 MiB that decodes to a match list: a truncated, oversized, redirected or
    malformed answer, one without a list, and a degraded one with nothing to
    act on are errors, and nothing else is. *)
Theorem Scan_result_iff url_ok decodeResponse c do name buf l :
  Scan url_ok decodeResponse c do name buf = (l, None) ↔
  url_ok (rq_url (scan_request c name buf)) = true
  ∧ ∃ body degraded, do (scan_request c name buf) = Responded 200 body false
    ∧ len body <= maxResponseBody
    ∧ decodeResponse body = Some (mkResponse (Some l) degraded) ∧ (degraded = "" ∨ Actionable l ≠ []).
Proof. rewrite Scan_accepts. naive_solver. Qed.

(** *** The verdict of the actionable matches *)

Definition first_family (l : list CMatch) : string :=
  default "" (head (filter (.≠ "") (familyOf <$> l))).

Lemma first_family_cons m l : first_family (m :: l) = if bool_decide (familyOf m = "") then first_family l else familyOf m.
Proof.
  unfold first_family. rewrite fmap_cons, filter_cons. destruct (decide (familyOf m = "")) as [He|He].
  - rewrite decide_False by naive_solver. by rewrite bool_decide_eq_true_2.
  - rewrite decide_True by done. by rewrite bool_decide_eq_false_2.
Qed.

Lemma for_step_eq v m : for_step v m =
  mkVerdict true (if bool_decide (v_Family v = "") then familyOf m else v_Family v) (v_Confidence v) (v_Rules v ++ [c_Rule m]).
Proof.
  unfold for_step. cbn [v_Family]. generalize (familyOf m). intros fam. case_bool_decide as Hv; [|done].
  case_bool_decide as Hf; [done|]. by rewrite Hf, Hv.
Qed.

Lemma for_fold l : ∀ v, foldl for_step v l =
  mkVerdict (v_Malicious v || bool_decide (l ≠ []))
    (if bool_decide (v_Family v = "") then first_family l else v_Family v) (v_Confidence v) (v_Rules v ++ (c_Rule <$> l)).
Proof.
  induction l as [|m l IH]; intros v; cbn [foldl].
  - rewrite bool_decide_eq_false_2 by naive_solver. rewrite orb_false_r, app_nil_r. destruct v as [mal fam conf rules]. cbn.
    by case_bool_decide; subst.
  - rewrite IH, for_step_eq, first_family_cons, fmap_cons. cbn [v_Malicious v_Family v_Confidence v_Rules].
    rewrite (bool_decide_eq_true_2 (m :: l ≠ [])), orb_true_r by done. rewrite <- app_assoc. f_equal.
    destruct (bool_decide (v_Family v = "")) eqn:Hv; [done|]. by rewrite Hv.
Qed.

(** The verdict names every rule in order, is malicious exactly when there
    is a match, carries the family of the first family-bearing match, and its
    confidence says which of the two it rests on. *)
Theorem For_spec l : For l = mkVerdict (bool_decide (l ≠ [])) (first_family l)
  (if bool_decide (first_family l ≠ "") then "family" else if bool_decide (l ≠ []) then "rule" else "") (c_Rule <$> l).
Proof.
  unfold For. rewrite for_fold. cbn [v_Malicious v_Family v_Confidence v_Rules]. rewrite (bool_decide_eq_true_2 ("" = "")) by done.
  destruct (bool_decide (first_family l ≠ "")); [done|]. by destruct (bool_decide (l ≠ [])).
Qed.

(** What the client encodes the server decodes, whatever the bytes. *)
Lemma decode_filename name : decodeFilenameB64 (EncodeToString name) = Some name.
Proof.
  unfold decodeFilenameB64. rewrite (string_map_id b64_alphabet).
  - unfold Std_DecodeString. by rewrite decode_encode.
  - intros r Hr. unfold drop_blank. destruct (mem r _) eqn:Hm; [|by left]. right.
    apply mem_true in Hm. repeat (apply elem_of_cons in Hm as [->|Hm]; [done|]). by apply elem_of_nil in Hm.
  - apply (string_forallb_impl b64_alphabet); [apply b64_ascii|apply encode_alphabet].
Qed.

