(* ===== verification/ScanFlow.v ===== *)
(** * One scan

    [scanGeneration] and everything it runs, from scanner.go,
    scan_extracted.go, extmismatch.go and extraction_memory.go: the raw bytes,
    the extracted streams and markers under one deadline, the reputation
    feeds, and the verdict.  The clock, libyara, the extractor and the feeds
    are interfaces; what the scan asks of libyara is recorded in [calls]. *)

From Stdlib Require Import ZArith Lia.
From Stdlib Require Ascii String.
From stdpp Require Import base gmap strings list numbers sorting.
From S2P Require Import Prelude GoStd GoText VerdictCache Effort TopMatch Flight ScanVerdict.

Local Open Scope Z_scope.

(** ** libyara *)

(** An immutable compiled rule set. *)
Abbreviation Rules := nat.

Record scanVars := mkVars { v_vba : bool; v_filename : string; v_extension : string; v_fileType : string }.

Definition zeroVars : scanVars := mkVars false "" "" "".

Definition needsScanner (v : scanVars) : bool :=
  v_vba v || bool_decide (v_filename v ≠ "") || bool_decide (v_extension v ≠ "") || bool_decide (v_fileType v ≠ "").

Inductive MetaValue := MetaString (s : string) | MetaInt (n : Z) | MetaBool (b : bool).

(** [yara.MatchRule] *)
Record MatchRule := mkMatchRule {
  mr_Rule : string;
  mr_Namespace : string;
  mr_Tags : list string;
  mr_Metas : list (string * MetaValue)
}.

Definition metaString (v : MetaValue) : string :=
  match v with
  | MetaString s => s
  | MetaInt n => FormatInt n
  | MetaBool b => if b then "true" else "false"
  end.

(** What libyara answers: obtaining and preparing a scanner may fail, then the
    scan itself. *)
Record NativeAnswer := mkAnswer { na_setup : option string; na_scan : list MatchRule + string }.

(** One native scan and its result. *)
Record NativeCall := mkCall {
  nc_rules : Rules;
  nc_buf : string;
  nc_vars : scanVars;
  nc_timeout : Duration;
  nc_result : list Match + scanError
}.

Definition native_match (m : MatchRule) : Match :=
  mkMatch (mr_Rule m) (mr_Namespace m) (full_slice (mr_Tags m))
    (match mr_Metas m with
     | [] => None
     | _ => Some (foldl (λ mm kv, <[kv.1 := metaString kv.2]> mm) ∅ (mr_Metas m))
     end).

Definition native_result (v : scanVars) (a : NativeAnswer) : list Match + scanError :=
  match na_setup a, na_scan a with
  | Some e, r => if needsScanner v then inr (ErrNative e)
                 else match r with inl l => inl (native_match <$> l) | inr e => inr (ErrNative e) end
  | None, inl l => inl (native_match <$> l)
  | None, inr e => inr (ErrNative e)
  end.

(** ** The extractor's result *)
Record Result := mkResult {
  Streams : list string;
  Markers : list string;
  ContentStreams : Z;
  DecodedStreams : Z;
  VBAStreams : list string;
  MIMEAttachments : list string;
  TopType : string;
  IsDoc : bool; Encrypted : bool; Failed : bool; Panicked : bool; RetainedTruncated : bool;
  IsMSI : bool; IsMSG : bool; IsOneNote : bool; IsArchive : bool; DecryptedArchive : bool;
  IsOLEPackage : bool; IsLNK : bool; IsPDF : bool; IsRTF : bool; IsSLK : bool;
  EncodedScript : bool; HasDocProps : bool; HasXLMFold : bool;
  CapHits : list string
}.

Definition TopTypePDF : string := "pdf".
Definition TopTypeTNEF : string := "tnef".
Definition TopTypeSpreadsheetML : string := "spreadsheetml".
Definition TopTypeMIME : string := "mime".

(** A hit of URLhaus or ThreatFox; a hit of MalwareBazaar. *)
Record FeedHit := mkHit { h_Rule : string; h_URL : string }.
Record DigestHit := mkDigestHit { d_Rule : string; d_SHA256 : string }.

(** ** Interfaces

    The [n]-th reading of the clock; libyara's answer to the [n]-th native
    scan; the extractor, whose result may depend on when it runs; the feeds. *)
Class ScanEnv := {
  clock : nat → Time;
  native : nat → Rules → string → scanVars → Duration → NativeAnswer;
  ExtractWithOptions : nat → string → Options → Result;
  defaultRetainedLimit : Z;
  sha256 : string → string;
  CheckDigest : string → list DigestHit;
  urlcand_Extract : string → Z → list string;
  urlhaus_Check : list string → Z → list FeedHit;
  threatfox_Check : list string → Z → list FeedHit;
  map_order : Order
}.

(** ** State *)

(** The part of [Scanner] fixed while scans run. *)
Record Scanner := mkScanner {
  scanTimeout : Duration;
  bigFileThreshold : Z;
  effortMax : Z;
  extractionRetainedBytes : Z;
  archivePW : bool;
  archivePWDefaults : list string;
  archivePWWordlist : list string;
  allowlist : gset string;
  canary : bool;
  mbazaar : bool;
  urlhaus : bool;
  urlhausMax : Z;
  threatfox : bool;
  threatfoxMax : Z
}.

Record scannerGeneration := mkGeneration {
  g_rules : option Rules;
  g_bigRules : option Rules;
  g_markerRules : option Rules;
  g_deny : option (gset string);
  g_topEpoch : Z
}.

Record Histogram := mkHistogram { hb_Buckets : list Z; hb_Sum : Z; hb_Count : Z }.

(** Counters by name, all uint64; the native scans so far, oldest first. *)
Record World := mkWorld {
  reads : nat;
  calls : list NativeCall;
  counters : gmap string Z;
  extractionBytes : Histogram;
  topMatches : matchCounter;
  bigNilWarned : bool
}.

Definition W (A : Type) : Type := World → A * World.

#[export] Instance W_ret : MRet W := λ A a w, (a, w).
#[export] Instance W_bind : MBind W := λ A B f m w, let '(a, w) := m w in f a w.

Definition modifyW (f : World → World) : W unit := λ w, (tt, f w).
Definition whenW (b : bool) (m : W unit) : W unit := if b then m else mret tt.

Definition addN (name : string) (n : Z) : W unit :=
  modifyW (λ w, {| w with counters := <[name := (default 0 (counters w !! name) + n) mod 2 ^ 64]> (counters w) |}).
Definition bump (name : string) : W unit := addN name 1.

(** [bigNilWarned.CompareAndSwap(false, true)] *)
Definition warn_big_nil : W unit := modifyW (λ w, {| w with bigNilWarned := true |}).

Section Scan.
Context {T : TextEnv} {E : ScanEnv}.

Definition Now : W Time := λ w, (clock (reads w), {| w with reads := S (reads w) |}).

(** ** One native scan: [scanOne] *)
Definition scanOne (rules : Rules) (buf : string) (v : scanVars) (timeout : Duration) : W (list Match + scanError) := λ w,
  let timeout := if (0 <? timeout) && (timeout <? second) then second else timeout in
  let r := native_result v (native (length (calls w)) rules buf v timeout) in
  (r, {| w with calls := calls w ++ [mkCall rules buf v timeout r] |}).

Definition markerTag : string := "marker".

Definition matchIsMarker (m : Match) : bool := mem markerTag (take (sl_len (m_Tags m)) (sl_cap (m_Tags m))).

Definition filterMarkerChannel (l : list Match) (markerChannel : bool) : list Match :=
  let keep := length (filter (λ m, matchIsMarker m = markerChannel) l) in
  if (keep =? length l)%nat then l else filter (λ m, matchIsMarker m = markerChannel) l.

(** ** Renamed containers: extmismatch.go *)

Definition extMismatchMarkerPrefix : string := "EXT-MISMATCH".

Definition benignExts : list string :=
  [".txt"; ".text"; ".log"; ".csv"; ".rtf"; ".jpg"; ".jpeg"; ".png"; ".gif"; ".bmp"; ".webp";
   ".pdf"; ".html"; ".htm"; ".xml"; ".json"; ".mp3"; ".mp4"; ".wav"; ".avi"; ".mov"; ".dat"; ".bin"; ".tmp"].

Definition topTypeOwnExt : list (string * string) :=
  [(TopTypePDF, ".pdf"); (TopTypeTNEF, ".dat"); (TopTypeSpreadsheetML, ".xml")].

Definition claimed (ext : string) : string := default ext (strip_prefix "." ext).

Definition isOfficeExt (ext : string) : bool :=
  mem ext [".doc"; ".docx"; ".docm"; ".dot"; ".dotx"; ".dotm";
    ".xls"; ".xlsx"; ".xlsm"; ".xlsb"; ".xlt"; ".xltx"; ".xltm"; ".xla"; ".xlam"; ".xlm";
    ".ppt"; ".pptx"; ".pptm"; ".pps"; ".ppsx"; ".ppsm"; ".ppa"; ".ppam"; ".pot"; ".potx"; ".potm";
    ".sldm"; ".sldx"; ".xps"].

(** One case of the switch: the extensions the type may wear, its name. *)
Definition mismatch (own : list string) (kind ext : string) : string :=
  if mem ext own then ""
  else if mem ext benignExts then kind +:+ ":" +:+ claimed ext else "".

Definition extMismatch (res : Result) (ext : string) : string :=
  if bool_decide (ext = "") then ""
  else
    let ext := ToLower ext in
    if IsRTF res then mismatch [".rtf"; ".doc"] "rtf" ext
    else if IsMSI res then mismatch [".msi"; ".msp"] "msi" ext
    else if IsLNK res then mismatch [".lnk"] "lnk" ext
    else if IsOneNote res then mismatch [".one"; ".onepkg"] "onenote" ext
    else if IsOLEPackage res then mismatch [] "ole-package" ext
    else if IsDoc res then
      if isOfficeExt ext then ""
      else mismatch (snd <$> filter (λ te, te.1 = TopType res) topTypeOwnExt) "office-doc" ext
    else "".

(** ** Setup *)

Record scanSetup := mkSetup { su_profile : EffortProfile; su_deadline : Time; su_rawRules : Rules }.

Definition resolveScanSetup (s : Scanner) (buf : string) (meta : ScanMeta) (g : scannerGeneration) (rules : Rules) : W scanSetup :=
  let profile := EffortProfileFor (resolveScanEffort (sm_Effort meta) (effortMax s)) (effortMax s) (scanTimeout s) in
  deadline ← (if 0 <? ScanTimeout profile then t ← Now; mret (t + ScanTimeout profile) else mret 0);
  if (0 <? bigFileThreshold s) && (bigFileThreshold s <? len buf) then
    match g_bigRules g with
    | Some big => _ ← bump "bigfile_scans"; mret (mkSetup profile deadline big)
    | None => _ ← warn_big_nil; mret (mkSetup profile deadline rules)
    end
  else mret (mkSetup profile deadline rules).

(** Without a test override the default is the limit in force. *)
Definition validatedExtractionRetainedBytes (n : Z) : Z :=
  if (n <? 1024) || (128 * 1024 * 1024 <? n) then defaultRetainedLimit else n.

Definition buildExtractOptions (s : Scanner) (meta : ScanMeta) (profile : EffortProfile) (extractDeadline : Time) : Options :=
  let o := ExtractOptions profile extractDeadline in
  let o := {| o with o_RetainedBytesLimit := validatedExtractionRetainedBytes (extractionRetainedBytes s) |} in
  if archivePW s then
    let c := capDedupCandidates [sm_PWCandidates meta; filenameTokens (sm_Filename meta); archivePWDefaults s; archivePWWordlist s] in
    {| o with o_PWCandidates := c; o_ArchivePWEnabled := bool_decide (c ≠ []) |}
  else o.

(** [scanRawChannel] *)
Definition scanRawChannel (rawRules : Rules) (buf : string) (meta : ScanMeta) (profile : EffortProfile)
    : W (list Match * option scanError) :=
  _ ← bump "raw_channel_scans";
  r ← scanOne rawRules buf (mkVars false (sm_Filename meta) (sm_Extension meta) (sm_FileType meta)) (ScanTimeout profile);
  match r with
  | inl out => mret (filterMarkerChannel out false, None)
  | inr e => _ ← bump "raw_scan_errs"; mret (filterMarkerChannel [] false, Some e)
  end.

(** ** Accounting of an extraction *)

Definition extractionByteBounds : list Z := [1024; 16384; 262144; 1048576; 16777216; 67108864; 268435456].

Definition observe (h : Histogram) (streams : list string) : Histogram :=
  let total := sumZ len streams mod 2 ^ 64 in
  mkHistogram (zip_with (λ n bound, if total <=? bound then (n + 1) mod 2 ^ 64 else n) (hb_Buckets h) extractionByteBounds)
    ((hb_Sum h + total) mod 2 ^ 64) ((hb_Count h + 1) mod 2 ^ 64).

Definition recordExtractMetrics (res : Result) : W unit :=
  _ ← foldr (λ (f : bool * string) m, _ ← whenW f.1 (bump f.2); m) (mret tt)
    [(IsDoc res, "docs"); (Encrypted res, "encrypted"); (Failed res, "failed"); (Panicked res, "panicked");
     (RetainedTruncated res, "retained_truncated"); (IsMSI res, "msi"); (IsMSG res, "msg"); (IsOneNote res, "onenote");
     (IsArchive res, "archive"); (DecryptedArchive res, "archive_decrypted"); (IsOLEPackage res, "ole_package");
     (IsLNK res, "lnk"); (IsPDF res, "pdf"); (IsRTF res, "rtf"); (IsSLK res, "slk");
     (EncodedScript res, "encoded_script"); (HasDocProps res, "docprops"); (HasXLMFold res, "xlm_fold");
     (0 <? DecodedStreams res, "decoded")];
  let n := Z.of_nat (length (Streams res)) - DecodedStreams res in
  whenW (0 <? n) (_ ← bump "macro_docs"; addN "streams" n).

(** [extractionIncomplete] with its effects. *)
Definition extraction_incomplete (res : Result) (extractDeadline : Time) : W bool :=
  t ← (if IsZero extractDeadline then mret 0 else Now);
  _ ← recordExtractMetrics res;
  mret (extractionIncomplete extractDeadline t (Panicked res) (RetainedTruncated res) (CapHits res)).

(** ** The sweep over extracted streams and markers: scan_extracted.go *)

Record extractScan := mkScan {
  x_seen : gset string;
  x_matchSeen : gset (string * string);
  x_out : list Match;
  x_incomplete : bool;
  x_completionErr : option scanError;
  x_streamsVisited : Z;
  x_markersVisited : Z;
  x_oversizedRerouted : Z
}.

Definition matchKey (m : Match) : string * string := (m_Namespace m, m_Rule m).

Definition newMatchSeen (out : list Match) : gset (string * string) := list_to_set (matchKey <$> out).

(** What one [extractScan] keeps fixed. *)
Record Sweep := mkSweep {
  w_scanner : Scanner;
  w_deadline : Time;
  w_vbaKeys : gset string;
  w_rules : Rules;
  w_generation : scannerGeneration;
  w_meta : ScanMeta
}.

(** [append] without the rules already seen. *)
Definition merge_match (st : gset (string * string) * list Match) (m : Match) : gset (string * string) * list Match :=
  if bool_decide (matchKey m ∈ st.1) then st else ({[matchKey m]} ∪ st.1, st.2 ++ [m]).

(** The rule set for one entry. *)
Definition sweep_rules (c : Sweep) (stream : string) (markerChannel : bool) (x : extractScan) : W (Rules * extractScan) :=
  let s := w_scanner c in
  if markerChannel then mret (default (w_rules c) (g_markerRules (w_generation c)), x)
  else if (0 <? bigFileThreshold s) && (bigFileThreshold s <? len stream) then
    match g_bigRules (w_generation c) with
    | Some big => _ ← bump "bigfile_stream_scans"; mret (big, {| x with x_oversizedRerouted := x_oversizedRerouted x + 1 |})
    | None => _ ← warn_big_nil; mret (w_rules c, x)
    end
  else mret (w_rules c, x).

(** [extractScan.scan]; the flag tells the caller to stop its loop. *)
Definition scan_entry (c : Sweep) (stream h : string) (markerChannel : bool) (x : extractScan) : W (bool * extractScan) :=
  let x := if markerChannel then {| x with x_markersVisited := x_markersVisited x + 1 |}
           else {| x with x_streamsVisited := x_streamsVisited x + 1 |} in
  if bool_decide (h ∈ x_seen x) then _ ← bump "deduped"; mret (false, x)
  else
    let x := {| x with x_seen := {[h]} ∪ x_seen x |} in
    budget ← (if IsZero (w_deadline c) then mret (scanTimeout (w_scanner c)) else t ← Now; mret (w_deadline c - t));
    if negb (IsZero (w_deadline c)) && (budget <? second) then mret (true, {| x with x_incomplete := true |})
    else
      let isVBA := negb markerChannel && bool_decide (h ∈ w_vbaKeys c) in
      rx ← sweep_rules c stream markerChannel x;
      let '(rules, x) := rx in
      _ ← bump (if markerChannel then "marker_channel_scans" else "stream_channel_scans");
      let m := w_meta c in
      let vars := if markerChannel then zeroVars else mkVars isVBA (sm_Filename m) (sm_Extension m) (sm_FileType m) in
      r ← scanOne rules stream vars budget;
      match r with
      | inr e => mret (false, {| x with x_completionErr := Some e; x_incomplete := true |})
      | inl l =>
          let '(seen, out) := foldl merge_match (x_matchSeen x, x_out x) (filterMarkerChannel l markerChannel) in
          let added := Z.of_nat (length out) - Z.of_nat (length (x_out x)) in
          _ ← whenW (0 <? added) (addN "stream_matches" added);
          mret (false, {| x with x_matchSeen := seen; x_out := out |})
      end.

(** A loop that breaks when [scan] says stop. *)
Fixpoint sweep_loop (c : Sweep) (entries : list (string * string)) (markerChannel : bool) (x : extractScan) : W extractScan :=
  match entries with
  | [] => mret x
  | (b, k) :: entries =>
      r ← scan_entry c b k markerChannel x;
      let '(stop, x) := (r : bool * extractScan) in if stop then mret x else sweep_loop c entries markerChannel x
  end.

Definition keyed (b : string) : string * string := (b, streamDedupKey b).

(** The streams in scan order, each with the key computed for it. *)
Definition ordered_streams (res : Result) : list (string * string) :=
  keyed <$> omap (λ i, Streams res !! i) (streamScanOrder (Streams res) (ContentStreams res)).

Definition mismatch_marker (res : Result) (ext : string) : list string :=
  let d := extMismatch res ext in
  if bool_decide (d ≠ "") then [extMismatchMarkerPrefix +:+ " " +:+ d] else [].

Definition scanStreamLoop (c : Sweep) (res : Result) (x : extractScan) : W extractScan :=
  x ← sweep_loop c (ordered_streams res) false x;
  x ← match mismatch_marker res (sm_Extension (w_meta c)) with
      | [] => mret x
      | mk :: _ => _ ← bump "ext_mismatch"; r ← scan_entry c mk (streamDedupKey mk) true x; mret r.2
      end;
  sweep_loop c (keyed <$> Markers res) true x.

Definition vbaKeySet (res : Result) : gset string := list_to_set (streamDedupKey <$> VBAStreams res).

Definition recordTopMatches (out : list Match) (ep : Z) : W unit := λ w,
  match out with
  | [] => (tt, w)
  | _ => (tt, {| w with topMatches := default (topMatches w) (AddAt map_order (topMatches w) ep (m_Rule <$> out)) |})
  end.

(** ** Reputation feeds *)

(** A deadline check: not set or not reached. *)
Definition within (deadline : Time) : W bool :=
  if IsZero deadline then mret true else t ← Now; mret (Before t deadline).

Definition digest_match (h : DigestHit) : Match :=
  mkMatch (d_Rule h) "" (full_slice ["malwarebazaar"]) (Some {["sha256" := d_SHA256 h]}).

Fixpoint mbazaar_loop (candidates : list string) (deadline : Time) (seen : gset string) (acc : list Match) : W (list Match * bool) :=
  match candidates with
  | [] => mret (acc, false)
  | b :: candidates =>
      ok ← within deadline;
      if negb ok then mret (acc, true)
      else
        let digest := sha256 b in
        if bool_decide (digest ∈ seen) then mbazaar_loop candidates deadline seen acc
        else mbazaar_loop candidates deadline ({[digest]} ∪ seen) (acc ++ (digest_match <$> CheckDigest digest))
  end.

Definition mbazaarMatches (buf : string) (res : Result) (deadline : Time) : W (list Match * bool) :=
  mbazaar_loop (if bool_decide (TopType res = TopTypeMIME) then MIMEAttachments res else [buf]) deadline ∅ [].

Definition url_match (feed : string) (h : FeedHit) : Match :=
  mkMatch (h_Rule h) "" (full_slice [feed]) (Some {["url" := h_URL h]}).

(** One checker's hits that are new to it. *)
Fixpoint feed_hits (feed : string) (hits : list FeedHit) (seen : gset string) (acc : list Match) : gset string * list Match :=
  match hits with
  | [] => (seen, acc)
  | h :: hits =>
      if bool_decide (h_URL h ∈ seen) then feed_hits feed hits seen acc
      else feed_hits feed hits ({[h_URL h]} ∪ seen) (acc ++ [url_match feed h])
  end.

Record FeedState := mkFeed { f_seenURL : gset string; f_seenTF : gset string; f_matches : list Match }.

Definition addFeedHits (s : Scanner) (b : string) (f : FeedState) : FeedState :=
  let maxN := if urlhausMax s <? threatfoxMax s then threatfoxMax s else urlhausMax s in
  let cands := urlcand_Extract b maxN in
  let f := if urlhaus s then
             let '(seen, l) := feed_hits "urlhaus" (urlhaus_Check cands (urlhausMax s)) (f_seenURL f) (f_matches f) in
             {| f with f_seenURL := seen; f_matches := l |}
           else f in
  if threatfox s then
    let '(seen, l) := feed_hits "threatfox" (threatfox_Check cands (threatfoxMax s)) (f_seenTF f) (f_matches f) in
    {| f with f_seenTF := seen; f_matches := l |}
  else f.

Fixpoint feed_loop (s : Scanner) (streams : list (string * string)) (deadline : Time) (fedSeen : gset string) (f : FeedState)
    : W (list Match * bool) :=
  match streams with
  | [] => mret (f_matches f, false)
  | (b, k) :: streams =>
      ok ← within deadline;
      if negb ok then mret (f_matches f, true)
      else if bool_decide (k ∈ fedSeen) then feed_loop s streams deadline fedSeen f
      else feed_loop s streams deadline ({[k]} ∪ fedSeen) (addFeedHits s b f)
  end.

Definition urlFeedMatches (s : Scanner) (buf : string) (res : Result) (rawSeed : string) (deadline : Time) : W (list Match * bool) :=
  feed_loop s (keyed <$> Streams res) deadline {[rawSeed]} (addFeedHits s buf (mkFeed ∅ ∅ [])).

Definition appendReputationMatches (s : Scanner) (out : list Match) (incomplete : bool) (profile : EffortProfile) (buf : string)
    (res : Result) (rawSeed : string) (deadline : Time) : W (list Match * bool) :=
  r ← (if ReputationFeeds profile && mbazaar s then
         r ← mbazaarMatches buf res deadline; mret (out ++ r.1, incomplete || r.2)
       else mret (out, incomplete));
  if ReputationFeeds profile && (urlhaus s || threatfox s) then
    u ← urlFeedMatches s buf res rawSeed deadline; mret (r.1 ++ u.1, r.2 || u.2)
  else mret r.

(** ** The scan *)

(** [finalScanVerdict] with the reading it takes. *)
Definition final_scan_verdict (out : list Match) (incomplete : bool) (completionErr rawErr : option scanError)
    (meta : ScanMeta) (deadline : Time) : W (list Match * option scanError) :=
  t ← (if sm_requireComplete meta && negb (IsZero deadline) then Now else mret 0);
  mret (finalScanVerdict out incomplete completionErr rawErr (sm_requireComplete meta) deadline t).

Definition raw_seed (meta : ScanMeta) (buf : string) : string :=
  if bool_decide (sm_RawKey meta = zeroKey) then streamDedupKey buf else sm_RawKey meta.

Definition extract_deadline (deadline : Time) : W Time :=
  if IsZero deadline then mret 0 else t ← Now; u ← Now; mret (t + Z.quot (deadline - u) 2).

(** The extraction and what it says about completeness. *)
Definition run_extraction (s : Scanner) (buf : string) (meta : ScanMeta) (profile : EffortProfile) (deadline : Time)
    : W (Result * bool) :=
  extractDeadline ← extract_deadline deadline;
  res ← (λ w, (ExtractWithOptions (reads w) buf (buildExtractOptions s meta profile extractDeadline), w));
  _ ← modifyW (λ w, {| w with extractionBytes := observe (extractionBytes w) (Streams res) |});
  incomplete ← extraction_incomplete res extractDeadline;
  mret (res, incomplete).

(** The sweep as [scanGeneration] starts it. *)
Definition initial_scan (rawSeed : string) (out : list Match) (incomplete : bool) (completionErr : option scanError) : extractScan :=
  mkScan {[rawSeed]} (newMatchSeen out) out incomplete completionErr 0 0 0.

Definition scanGeneration (s : Scanner) (buf : string) (meta : ScanMeta) (g : scannerGeneration) : W (list Match * option scanError) :=
  match g_rules g with
  | None => mret ([], Some (ErrNative "no rules loaded"))
  | Some rules =>
      setup ← resolveScanSetup s buf meta g rules;
      let '(mkSetup profile deadline rawRules) := setup in
      raw ← scanRawChannel rawRules buf meta profile;
      let '(out, rawErr) := raw in
      ext ← run_extraction s buf meta profile deadline;
      let '(res, incomplete) := ext in
      let completionErr :=
        if (Failed res || Panicked res) && bool_decide (rawErr = None) then Some ErrExtractor else rawErr in
      let rawSeed := raw_seed meta buf in
      x ← scanStreamLoop (mkSweep s deadline (vbaKeySet res) rules g meta) res (initial_scan rawSeed out incomplete completionErr);
      let out := filterDenied (x_out x) (g_deny g) in
      _ ← recordTopMatches out (g_topEpoch g);
      rep ← appendReputationMatches s out (x_incomplete x) profile buf res rawSeed deadline;
      let out := applyResponseTags (allowlist s) (canary s) rep.1 in
      final_scan_verdict out rep.2 (x_completionErr x) rawErr meta deadline
  end.

End Scan.

(** ** Reasoning about a scan *)

Definition post {A} (m : W A) (Q : A → World → Prop) (w : World) : Prop := Q (m w).1 (m w).2.

Lemma post_ret {A} (a : A) (Q : A → World → Prop) w : Q a w → post (mret a) Q w.
Proof. done. Qed.

Lemma post_bind {A B} (m : W A) (f : A → W B) Q w : post m (λ a w', post (f a) Q w') w → post (m ≫= f) Q w.
Proof. unfold post, mbind, W_bind. by destruct (m w). Qed.

Lemma post_mono {A} (m : W A) (P Q : A → World → Prop) w : post m P w → (∀ a w', P a w' → Q a w') → post m Q w.
Proof. unfold post. eauto. Qed.

(** What only reads the clock or counts. *)
Definition settled (w w' : World) : Prop := calls w' = calls w ∧ (reads w <= reads w')%nat.

#[export] Instance settled_preorder : PreOrder settled.
Proof. split; [by split|]. intros w1 w2 w3 [H1 ?] [H2 ?]. split; [by rewrite H2|lia]. Qed.

Definition quiet {A} (m : W A) : Prop := ∀ w, settled w (m w).2.

Lemma post_quiet {A} (m : W A) (Q : A → World → Prop) w :
  quiet m → (∀ a w', settled w w' → Q a w') → post m Q w.
Proof. intros Hm HQ. apply HQ, Hm. Qed.

Lemma quiet_ret {A} (a : A) : quiet (mret a).
Proof. intros w. by split. Qed.

Lemma quiet_bind {A B} (m : W A) (f : A → W B) : quiet m → (∀ a, quiet (f a)) → quiet (m ≫= f).
Proof.
  intros Hm Hf w. unfold mbind, W_bind. specialize (Hm w). destruct (m w) as [a w1]. cbn in *.
  etrans; [exact Hm|apply Hf].
Qed.

Lemma quiet_modify f : (∀ w, settled w (f w)) → quiet (modifyW f).
Proof. done. Qed.

Create HintDb quiet discriminated.
#[export] Hint Resolve quiet_ret quiet_bind : quiet.

Section Facts.
Context {T : TextEnv} {E : ScanEnv}.

Lemma quiet_addN name n : quiet (addN name n).
Proof. apply quiet_modify. intros w. by split. Qed.

Lemma quiet_bump name : quiet (bump name).
Proof. apply quiet_addN. Qed.

Lemma quiet_when b m : quiet m → quiet (whenW b m).
Proof. destruct b; [done|]. intros _. apply quiet_ret. Qed.

Lemma quiet_warn : quiet warn_big_nil.
Proof. apply quiet_modify. intros w. by split. Qed.

Lemma quiet_Now : quiet Now.
Proof. intros w. split; [done|]. cbn. lia. Qed.

Lemma quiet_within d : quiet (within d).
Proof. unfold within. case_match; [apply quiet_ret|]. apply quiet_bind; [apply quiet_Now|intros; apply quiet_ret]. Qed.

#[local] Hint Resolve quiet_addN quiet_bump quiet_when quiet_warn quiet_Now quiet_within : quiet.
Ltac quiet := repeat first [progress auto with quiet|apply quiet_bind; [|intros ?]|progress case_match].

Lemma quiet_metrics res : quiet (recordExtractMetrics res).
Proof. unfold recordExtractMetrics. cbn [foldr]. quiet. Qed.

Lemma quiet_mbazaar cs d : ∀ seen acc, quiet (mbazaar_loop cs d seen acc).
Proof. induction cs as [|b cs IH]; intros seen acc; cbn [mbazaar_loop]; quiet. Qed.

Lemma quiet_feed s l d : ∀ seen f, quiet (feed_loop s l d seen f).
Proof. induction l as [|[b k] l IH]; intros seen f; cbn [feed_loop]; quiet. Qed.

#[local] Hint Resolve quiet_metrics quiet_mbazaar quiet_feed : quiet.

Lemma quiet_top out ep : quiet (recordTopMatches out ep).
Proof. intros w. unfold recordTopMatches. by destruct out; split. Qed.

Lemma quiet_reputation s out i p buf res k d : quiet (appendReputationMatches s out i p buf res k d).
Proof. unfold appendReputationMatches, mbazaarMatches, urlFeedMatches. quiet. Qed.

Lemma quiet_extraction s buf meta p d : quiet (run_extraction s buf meta p d).
Proof.
  unfold run_extraction, extract_deadline, extraction_incomplete. quiet.
Qed.

Lemma quiet_setup s buf meta g r : quiet (resolveScanSetup s buf meta g r).
Proof. unfold resolveScanSetup. quiet. Qed.

Lemma quiet_final out i c r meta d : quiet (final_scan_verdict out i c r meta d).
Proof. unfold final_scan_verdict. quiet. Qed.

Lemma quiet_rules c b ch x : quiet (sweep_rules c b ch x).
Proof. unfold sweep_rules. quiet. Qed.

(** *** Coverage

    [made base w c]: [c] is in the record of [w], not before [base], and its
    result is what libyara answered to that call. *)
Definition made (base : nat) (w : World) (c : NativeCall) : Prop :=
  ∃ i, (base <= i)%nat ∧ calls w !! i = Some c
    ∧ nc_result c = native_result (nc_vars c) (native i (nc_rules c) (nc_buf c) (nc_vars c) (nc_timeout c)).

(** [kept out ch c]: the call [c] succeeded and [out] has every rule of its
    channel it found. *)
Definition kept (out : list Match) (ch : bool) (c : NativeCall) : Prop :=
  ∃ l, nc_result c = inl l ∧ ∀ m, m ∈ l → matchIsMarker m = ch → matchKey m ∈ matchKey <$> out.

Definition covered (base : nat) (w : World) (out : list Match) (ch : bool) (k : string) : Prop :=
  ∃ c, made base w c ∧ streamDedupKey (nc_buf c) = k ∧ kept out ch c.

(** [w'] and [out'] extend [w] and [out]. *)
Definition extends (w w' : World) : Prop := (∃ l, calls w' = calls w ++ l) ∧ (reads w <= reads w')%nat.

Definition reports_more (out out' : list Match) : Prop := ∀ k, k ∈ matchKey <$> out → k ∈ matchKey <$> out'.

#[export] Instance extends_preorder : PreOrder extends.
Proof.
  split; [intros w; split; [exists []; by rewrite app_nil_r|lia]|].
  intros w1 w2 w3 [[l1 H1] ?] [[l2 H2] ?]. split; [|lia]. exists (l1 ++ l2). by rewrite H2, H1, app_assoc.
Qed.

#[export] Instance reports_more_preorder : PreOrder reports_more.
Proof. split; [by intros out k|]. intros o1 o2 o3 H1 H2 k Hk. auto. Qed.

Lemma settled_extends w w' : settled w w' → extends w w'.
Proof. intros [H ?]. split; [|done]. exists []. by rewrite app_nil_r. Qed.

Lemma made_mono base w w' c : extends w w' → made base w c → made base w' c.
Proof. intros [[l Hl] _] (i&Hi&Hc&Hr). exists i. split_and!; [done| |done]. rewrite Hl. by apply lookup_app_l_Some. Qed.

Lemma made_new base w w' rules b v t r : (base <= length (calls w))%nat → calls w' = calls w ++ [mkCall rules b v t r] →
  r = native_result v (native (length (calls w)) rules b v t) → made base w' (mkCall rules b v t r).
Proof.
  intros Hb Hc Hr. exists (length (calls w)). split; [done|]. split; [|done]. by rewrite Hc, lookup_app_r, Nat.sub_diag by done.
Qed.

Lemma extends_length w w' : extends w w' → (length (calls w) <= length (calls w'))%nat.
Proof. intros [[l ->] _]. rewrite length_app. lia. Qed.

Lemma covered_mono base w w' out out' ch k : extends w w' → reports_more out out' → covered base w out ch k → covered base w' out' ch k.
Proof.
  intros Hl Ho (c&Hc&Hk&ms&Hr&Hm). exists c. split; [by eapply made_mono|].
  split; [done|]. exists ms. split; [done|]. intros m Hin Hch. by apply Ho, Hm.
Qed.

Lemma filterMarkerChannel_filter l ch : filterMarkerChannel l ch = filter (λ m, matchIsMarker m = ch) l.
Proof.
  unfold filterMarkerChannel. case_match eqn:Hl; [|done]. apply Nat.eqb_eq in Hl. symmetry.
  induction l as [|m l IH]; [done|]. rewrite filter_cons in *. case_decide as Hm.
  - f_equal. apply IH. cbn in Hl. lia.
  - pose proof (length_filter (λ m, matchIsMarker m = ch) l). cbn in Hl. lia.
Qed.

(** Merging keeps the index of rules exact and adds every new rule. *)
Lemma merge_matches l : ∀ st, st.1 = list_to_set (matchKey <$> st.2) →
  let st' := foldl merge_match st l in
  st'.1 = list_to_set (matchKey <$> st'.2) ∧ reports_more st.2 st'.2
  ∧ (∀ m, m ∈ l → matchKey m ∈ matchKey <$> st'.2) ∧ (∀ m, m ∈ st'.2 → m ∈ st.2 ∨ m ∈ l).
Proof.
  induction l as [|m l IH]; intros [seen out] Hst; cbn zeta; cbn [foldl]; cbn in Hst.
  { split_and!; [done|done|by intros m ?%elem_of_nil|by left]. }
  destruct (IH (merge_match (seen, out) m)) as (H1&H2&H3&H4).
  { unfold merge_match. cbn [fst snd]. case_bool_decide; [done|]. cbn [fst snd]. rewrite fmap_app, list_to_set_app_L, Hst. set_solver. }
  assert (matchKey m ∈ matchKey <$> (merge_match (seen, out) m).2) as Hm.
  { unfold merge_match. cbn [fst snd]. case_bool_decide as Hs; cbn [snd]; [|rewrite fmap_app; set_solver]. rewrite Hst in Hs.
    by apply elem_of_list_to_set in Hs. }
  assert (reports_more out (merge_match (seen, out) m).2) as Hr.
  { intros k Hk. unfold merge_match. cbn [fst snd]. case_bool_decide; [done|]. cbn [fst snd]. rewrite fmap_app. set_solver. }
  split_and!; [done|by etrans| |].
  - intros m' [->|Hin]%elem_of_cons; [by apply H2|by apply H3].
  - intros m' Hin. destruct (H4 m' Hin) as [Hx|Hx]; [|by right; right]. revert Hx. unfold merge_match. cbn [fst snd].
    case_bool_decide; [by left|]. intros [?|?%list_elem_of_singleton]%elem_of_app; [by left|subst; right; left].
Qed.

Section Sweeps.
Context (base : nat).

(** The invariant of a sweep over one channel that started with the keys
    [seen0]; [texts] are the marker texts, [base] the calls before the scan. *)
Record SweepInv (seen0 : gset string) (ch : bool) (texts : list string) (w : World) (x : extractScan) : Prop := {
  si_base : (base <= length (calls w))%nat;
  si_index : x_matchSeen x = list_to_set (matchKey <$> x_out x);
  si_covered : x_incomplete x = false → ∀ k, k ∈ x_seen x → k ∈ seen0 ∨ covered base w (x_out x) ch k;
  si_origin : ∀ m, m ∈ x_out x → ∃ c l, made base w c ∧ nc_result c = inl l ∧ m ∈ l
    ∧ (matchIsMarker m = true → nc_buf c ∈ texts)
}.

(** What one step of a sweep does besides. *)
Record sweep_step (w w' : World) (x x' : extractScan) : Prop := {
  ss_world : extends w w';
  ss_out : reports_more (x_out x) (x_out x');
  ss_seen : x_seen x ⊆ x_seen x';
  ss_complete : x_incomplete x' = false → x_incomplete x = false;
  ss_err : x_completionErr x' = None → x_completionErr x = None
}.

#[export] Instance sweep_step_refl : Reflexive (λ wx wx', sweep_step wx.1 wx'.1 wx.2 wx'.2).
Proof. intros [w x]. by split. Qed.

Lemma sweep_step_trans w1 w2 w3 x1 x2 x3 : sweep_step w1 w2 x1 x2 → sweep_step w2 w3 x2 x3 → sweep_step w1 w3 x1 x3.
Proof. intros [H1 H2 H3 H4 H9] [H5 H6 H7 H8 H10]. split; [by etrans|by etrans|set_solver|auto|auto]. Qed.

Lemma SweepInv_world seen0 ch texts w w' x : extends w w' → SweepInv seen0 ch texts w x → SweepInv seen0 ch texts w' x.
Proof.
  intros Hw [H0 H1 H3 H4]. split; [pose proof (extends_length _ _ Hw); lia|done| |].
  - intros Hi k Hk. destruct (H3 Hi k Hk) as [?|Hc]; [by left|right]. by eapply covered_mono.
  - intros m Hm. destruct (H4 m Hm) as (c&l&Hc&Hr). exists c, l. split; [|done]. by eapply made_mono.
Qed.

(** The fields the invariant reads. *)
Definition same_progress (x x' : extractScan) : Prop :=
  x_seen x' = x_seen x ∧ x_matchSeen x' = x_matchSeen x ∧ x_out x' = x_out x ∧ x_incomplete x' = x_incomplete x
  ∧ x_completionErr x' = x_completionErr x.

Lemma post_rules c b ch x (Q : Rules * extractScan → World → Prop) w :
  (∀ r x' w', settled w w' → same_progress x x' → Q (r, x') w') → post (sweep_rules c b ch x) Q w.
Proof.
  intros HQ. unfold sweep_rules. destruct ch; [by apply post_ret, HQ|].
  destruct (_ && _); [|by apply post_ret, HQ]. destruct (g_bigRules _); apply post_bind, post_quiet; auto using quiet_bump, quiet_warn.
  all: intros _ w' Hw; by apply post_ret, HQ.
Qed.

Lemma native_result_err v a : native_result v a ≠ inr ErrScanIncomplete.
Proof. unfold native_result. destruct (na_setup a); [destruct (needsScanner v); [done|]|]; by destruct (na_scan a). Qed.

Lemma post_scanOne rules b v t (Q : list Match + scanError → World → Prop) w :
  (∀ t' r w', t' = (if (0 <? t) && (t <? second) then second else t) → reads w' = reads w →
     calls w' = calls w ++ [mkCall rules b v t' r] → r = native_result v (native (length (calls w)) rules b v t') →
     r ≠ inr ErrScanIncomplete → Q r w') → post (scanOne rules b v t) Q w.
Proof.
  intros HQ. eapply HQ; [done..|]. apply native_result_err.
Qed.

(** The invariant of the index and the reported rules under one result. *)
Lemma SweepInv_result seen0 ch texts w w' x x0 b k call l :
  SweepInv seen0 ch texts w x0 → extends w w' → made base w' call → nc_buf call = b → nc_result call = inl l →
  k = streamDedupKey b → (ch = true → b ∈ texts) →
  x_seen x = {[k]} ∪ x_seen x0 → x_matchSeen x = x_matchSeen x0 → x_out x = x_out x0 → x_incomplete x = x_incomplete x0 →
  let st := foldl merge_match (x_matchSeen x, x_out x) (filterMarkerChannel l ch) in
  SweepInv seen0 ch texts w' {| x with x_matchSeen := st.1; x_out := st.2 |}
  ∧ reports_more (x_out x0) st.2.
Proof.
  intros [H0 H1 H3 H4] Hw Hc Hb Hr Hk Ht Es Em Eo Ei. rewrite filterMarkerChannel_filter, Em, Eo.
  destruct (merge_matches (filter (λ m, matchIsMarker m = ch) l) (x_matchSeen x0, x_out x0) H1) as (M1&M2&M3&M4).
  cbn zeta in *. destruct (foldl merge_match _ _) as [seen out]. cbn in *. split; [|done]. split; cbn; [pose proof (extends_length _ _ Hw); lia|done| |].
  - rewrite Es, Ei. intros Hi q [->%elem_of_singleton|Hq]%elem_of_union.
    + right. exists call. split; [done|]. split; [by rewrite Hb|]. exists l. split; [done|]. intros m Hm Hch.
      apply M3. by apply list_elem_of_filter.
    + destruct (H3 Hi q Hq) as [?|Hcov]; [by left|right]. by eapply covered_mono.
  - intros m Hm. destruct (M4 m Hm) as [Hm'|[Hch Hm']%list_elem_of_filter].
    + destruct (H4 m Hm') as (c&lc&Hc'&Hrest). exists c, lc. split; [|done]. by eapply made_mono.
    + exists call, l. split_and!; [done..|]. rewrite Hch, Hb. done.
Qed.

Lemma scan_entry_spec c b k ch seen0 texts w x :
  k = streamDedupKey b → (ch = true → b ∈ texts) → SweepInv seen0 ch texts w x →
  post (scan_entry c b k ch x) (λ r w', SweepInv seen0 ch texts w' r.2 ∧ sweep_step w w' x r.2
    ∧ (∀ q, q ∈ x_seen r.2 → q ∈ x_seen x ∨ q = k) ∧ (x_incomplete r.2 = false → r.1 = false ∧ k ∈ x_seen r.2)) w.
Proof.
  intros Hk Ht Hinv. unfold scan_entry. cbv zeta.
  match goal with |- context [bool_decide (k ∈ x_seen ?y)] => set (x1 := y) end.
  assert (same_progress x x1) as (E1&E2&E3&E4&E5) by (subst x1; by destruct ch). clearbody x1. rewrite E1.
  assert (∀ w', extends w w' → SweepInv seen0 ch texts w' x1) as Hinv1.
  { intros w' Hw. apply (SweepInv_world _ _ _ w w'); [done|]. destruct Hinv as [H0 H1 H3 H4].
    split; rewrite ?E1, ?E2, ?E3, ?E4; done. }
  case_bool_decide as Hdup.
  { apply post_bind, post_quiet; [apply quiet_bump|]. intros _ w' Hw%settled_extends. apply post_ret. cbn.
    split; [by apply Hinv1|]. rewrite E1. split; [|split; [by left|done]]. split; [done|by rewrite E3|by rewrite E1|by rewrite E4|by rewrite E5]. }
  apply post_bind, post_quiet.
  { case_match; [apply quiet_ret|]. apply quiet_bind; [apply quiet_Now|intros; apply quiet_ret]. }
  intros budget w1 Hw1. case_match.
  { apply post_ret. cbn. pose proof (Hinv1 w1 (settled_extends _ _ Hw1)) as [H0 H1 H3 H4]. split; [|split; [|split; [|done]]].
    - by split.
    - split; cbn; [by apply settled_extends|by rewrite E3|set_solver|done|by rewrite E5].
    - set_solver. }
  apply post_bind, post_rules. intros r x2 w2 Hw2 (F1&F2&F3&F4&F5). cbn in F1, F2, F3, F4, F5.
  apply post_bind, post_quiet; [apply quiet_bump|]. intros _ w3 Hw3.
  assert (settled w w3) as Hw by (by do 2 (etrans; [eassumption|])).
  apply post_bind, post_scanOne. intros t' res w4 _ Hrd Hcalls Hnat _.
  assert (extends w w4) as Hx.
  { apply settled_extends in Hw. etrans; [exact Hw|]. split; [rewrite Hcalls; by eexists|lia]. }
  assert (∀ out inc, reports_more (x_out x) out → (inc = false → x_incomplete x = false) →
    ∀ ms cmp, (cmp = None → x_completionErr x = None) →
    sweep_step w w4 x (mkScan (x_seen x2) ms out inc cmp (x_streamsVisited x2) (x_markersVisited x2) (x_oversizedRerouted x2))) as Hstep.
  { intros out inc Ho Hi ms cmp Hcmp. split; [done|done|cbn; set_solver|done|done]. }
  destruct res as [l|e].
  - destruct (foldl merge_match _ _) as [seen out] eqn:Hfold.
    edestruct (SweepInv_result seen0 ch texts w w4 x2 x1 b k) as [Hi' Hr']; [by apply Hinv1|exact Hx|
      eapply (made_new base w3); [destruct Hw as [-> _]; apply (si_base _ _ _ _ _ Hinv)|exact Hcalls|exact Hnat]|done|done|done|done|by rewrite F1, E1|done|done|done|].
    rewrite Hfold in Hi', Hr'. cbn in Hi', Hr'. rewrite E3 in Hr'.
    apply post_bind, post_quiet; [apply quiet_when, quiet_addN|]. intros _ w5 Hw5%settled_extends. apply post_ret. cbn.
    split; [by apply (SweepInv_world _ _ _ w4)|]. split; [|split; [set_solver|intros _; split; [done|set_solver]]].
    destruct (Hstep out (x_incomplete x2) Hr' ltac:(by rewrite F4, E4) seen (x_completionErr x2) ltac:(by rewrite F5, E5)) as [G1 G2 G3 G4 G5].
    split; [by etrans|done..].
  - apply post_ret. cbn. split; [|split; [|split; [set_solver|done]]].
    + destruct (Hinv1 w4 Hx) as [H0 H1 H3 H4]. split; cbn; rewrite ?F2, ?F3; done.
    + apply Hstep; [by rewrite F3, E3|done|done].
Qed.

Definition entry_ok (ch : bool) (texts : list string) (e : string * string) : Prop :=
  e.2 = streamDedupKey e.1 ∧ (ch = true → e.1 ∈ texts).

Lemma sweep_loop_spec c ch seen0 texts entries : Forall (entry_ok ch texts) entries →
  ∀ w x, SweepInv seen0 ch texts w x →
  post (sweep_loop c entries ch x) (λ x' w', SweepInv seen0 ch texts w' x' ∧ sweep_step w w' x x'
    ∧ (∀ q, q ∈ x_seen x' → q ∈ x_seen x ∨ q ∈ entries.*2)
    ∧ (x_incomplete x' = false → ∀ q, q ∈ entries.*2 → q ∈ x_seen x')) w.
Proof.
  induction 1 as [|[b k] entries [Hk Ht] _ IH]; intros w x Hinv; cbn [sweep_loop].
  { apply post_ret. split_and!; [done|apply (sweep_step_refl (w, x))|by left|by intros _ q ?%elem_of_nil]. }
  apply post_bind. eapply post_mono; [by apply (scan_entry_spec c b k ch seen0 texts)|].
  intros [stop x1] w1 (Hi1&Hs1&Hseen1&Hstop). cbn in *. destruct stop.
  - apply post_ret. split_and!; [done..| |].
    + intros q Hq. destruct (Hseen1 q Hq) as [?| ->]; [by left|right; left].
    + intros Hc. by destruct (Hstop Hc).
  - eapply post_mono; [by apply IH|]. intros x2 w2 (Hi2&Hs2&Hseen2&Hall). split_and!; [done|by eapply sweep_step_trans| |].
    + intros q Hq. destruct (Hseen2 q Hq) as [Hq'|?]; [|by right; right].
      destruct (Hseen1 q Hq') as [?| ->]; [by left|right; left].
    + intros Hc q [->|Hq]%elem_of_cons; [|by apply Hall]. apply (ss_seen _ _ _ _ Hs2), Hstop, Hs2, Hc.
Qed.

Lemma streamScanOrder_perm streams n : streamScanOrder streams n ≡ₚ seq 0 (length streams).
Proof.
  unfold streamScanOrder. cbv zeta. rewrite (merge_sort_Permutation _ (take _ _)). by rewrite take_drop.
Qed.

Lemma ordered_streams_elem res b : b ∈ Streams res ↔ keyed b ∈ ordered_streams res.
Proof.
  unfold ordered_streams. split.
  - intros [i Hi]%list_elem_of_lookup. apply list_elem_of_fmap. exists b. split; [done|].
    apply list_elem_of_omap. exists i. split; [|done]. rewrite streamScanOrder_perm. apply elem_of_seq.
    apply lookup_lt_Some in Hi. lia.
  - intros (b'&Hb&Hin)%list_elem_of_fmap. unfold keyed in Hb. simplify_eq.
    apply list_elem_of_omap in Hin as (i&_&Hi). by eapply list_elem_of_lookup_2.
Qed.

(** Every stream key of the sweep. *)
Lemma ordered_streams_keys res k : k ∈ (ordered_streams res).*2 ↔ ∃ b, b ∈ Streams res ∧ k = streamDedupKey b.
Proof.
  rewrite list_elem_of_fmap. split.
  - intros ([b k']&->&Hin). assert (k' = streamDedupKey b) as ->.
    { unfold ordered_streams in Hin. apply list_elem_of_fmap in Hin as (b'&Hb&_). unfold keyed in Hb. by simplify_eq. }
    exists b. split; [by apply ordered_streams_elem|done].
  - intros (b&Hb&->). exists (keyed b). split; [done|]. by apply ordered_streams_elem.
Qed.

(** The texts the marker channel may carry. *)
Definition marker_texts (res : Result) (ext : string) : list string := mismatch_marker res ext ++ Markers res.

(** Between the channels: the keys seen so far are the new starting point. *)
Lemma SweepInv_switch seen0 ch ch' texts w x : SweepInv seen0 ch texts w x → SweepInv (x_seen x) ch' texts w x.
Proof. intros [H0 H1 H3 H4]. split; [done|done| |done]. by left. Qed.

Lemma mismatch_sweep c res seen0 texts w x : (∀ b, b ∈ mismatch_marker res (sm_Extension (w_meta c)) → b ∈ texts) →
  SweepInv seen0 true texts w x →
  post (match mismatch_marker res (sm_Extension (w_meta c)) with
      | [] => mret x
      | mk :: _ => _ ← bump "ext_mismatch"; r ← scan_entry c mk (streamDedupKey mk) true x; mret r.2
      end)
    (λ x' w', SweepInv seen0 true texts w' x' ∧ sweep_step w w' x x'
     ∧ (x_incomplete x' = false → ∀ b, b ∈ mismatch_marker res (sm_Extension (w_meta c)) → streamDedupKey b ∈ x_seen x')) w.
Proof.
  intros Hb Hinv.
  assert (∀ b l, mismatch_marker res (sm_Extension (w_meta c)) = b :: l → l = []) as Hone.
  { intros b l. unfold mismatch_marker. cbv zeta. case_bool_decide; [|done]. by intros [= _ <-]. }
  destruct (mismatch_marker _ _) as [|mk l].
  - apply post_ret. split; [done|]. split; [apply (sweep_step_refl (w, x))|]. by intros _ b ?%elem_of_nil.
  - rewrite (Hone mk l eq_refl) in *. apply post_bind, post_quiet; [apply quiet_bump|]. intros _ w1 Hw1%settled_extends.
    apply post_bind. eapply post_mono.
    { apply (scan_entry_spec c mk _ true seen0 texts); [done|intros _; apply Hb; left|].
      by apply (SweepInv_world _ _ _ w). }
    intros r w2 (Hi&[G1 G2 G3 G4 G5]&_&Hstop). apply post_ret. split; [done|]. split; [split; [by etrans|done..]|].
    intros Hc b ->%list_elem_of_singleton. by apply Hstop.
Qed.

(** What a complete sweep has covered. *)
Record swept (res : Result) (ext : string) (seen0 : gset string) (w : World) (out : list Match) : Prop := {
  sw_streams : ∀ b, b ∈ Streams res → streamDedupKey b ∈ seen0 ∨ covered base w out false (streamDedupKey b);
  sw_markers : ∀ b, b ∈ marker_texts res ext → streamDedupKey b ∈ seen0
    ∨ (∃ b', b' ∈ Streams res ∧ streamDedupKey b' = streamDedupKey b) ∨ covered base w out true (streamDedupKey b)
}.

Lemma scanStreamLoop_spec c res w x :
  let texts := marker_texts res (sm_Extension (w_meta c)) in
  SweepInv (x_seen x) false texts w x →
  post (scanStreamLoop c res x) (λ x' w', sweep_step w w' x x' ∧ (∃ seen0, SweepInv seen0 true texts w' x')
    ∧ (x_incomplete x' = false → swept res (sm_Extension (w_meta c)) (x_seen x) w' (x_out x'))) w.
Proof.
  intros texts Hinv. unfold scanStreamLoop. apply post_bind. eapply post_mono.
  { apply sweep_loop_spec; [|exact Hinv]. apply Forall_forall. intros [b k] Hin. split; [|done].
    unfold ordered_streams in Hin. apply list_elem_of_fmap in Hin as (b'&Hb&_). unfold keyed in Hb. by simplify_eq. }
  intros x1 w1 (Hi1&Hs1&Hsub1&Hall1). apply (SweepInv_switch _ _ true) in Hi1 as Hi1'.
  apply post_bind. eapply post_mono.
  { apply mismatch_sweep; [|exact Hi1']. intros b Hb. apply elem_of_app. by left. }
  intros x2 w2 (Hi2&Hs2&Hmm). eapply post_mono.
  { apply sweep_loop_spec; [|exact Hi2]. apply Forall_forall. intros [b k] Hin.
    apply list_elem_of_fmap in Hin as (b'&Hb&Hin). unfold keyed in Hb. simplify_eq. split; [done|]. intros _.
    apply elem_of_app. by right. }
  intros x3 w3 (Hi3&Hs3&_&Hall3). split; [by do 2 (eapply sweep_step_trans; [eassumption|])|]. split; [by eexists|].
  intros Hc3. pose proof (ss_complete _ _ _ _ Hs3 Hc3) as Hc2. pose proof (ss_complete _ _ _ _ Hs2 Hc2) as Hc1.
  pose proof (sweep_step_trans _ _ _ _ _ _ Hs2 Hs3) as Hs23. split.
  - intros b Hb. destruct (si_covered _ _ _ _ _ Hi1 Hc1 (streamDedupKey b)) as [?|Hcov]; [|by left|].
    { apply Hall1; [done|]. apply ordered_streams_keys. by exists b. }
    right. eapply covered_mono; [apply Hs23|apply Hs23|done].
  - intros b Hb. assert (streamDedupKey b ∈ x_seen x3) as Hseen.
    { apply elem_of_app in Hb as [Hb|Hb]; [by apply (ss_seen _ _ _ _ Hs3), Hmm|]. apply Hall3; [done|].
      apply list_elem_of_fmap. exists (keyed b). split; [done|]. by apply list_elem_of_fmap_2. }
    destruct (si_covered _ _ _ _ _ Hi3 Hc3 _ Hseen) as [Hq|?]; [|by right; right].
    destruct (Hsub1 _ Hq) as [?|Hk]; [by left|]. apply ordered_streams_keys in Hk as (b'&?&?). right. left. by exists b'.
Qed.

End Sweeps.

(** *** After the sweep *)

Definition denied (deny : option (gset string)) (m : Match) : Prop := ∃ d, deny = Some d ∧ ToLower (m_Rule m) ∈ d.

#[export] Instance denied_dec deny m : Decision (denied deny m).
Proof.
  destruct deny as [d|]; [|right; by intros (?&?&_)].
  destruct (decide (ToLower (m_Rule m) ∈ d)) as [H|H]; [left; by exists d|right; intros (d'&[= <-]&?); by apply H].
Defined.

Lemma filterDenied_elem l deny m : m ∈ filterDenied l deny ↔ m ∈ l ∧ ¬ denied deny m.
Proof.
  unfold filterDenied, denied. destruct deny as [d|]; [|naive_solver]. case_bool_decide as Hd.
  - split; [|by intros [? _]]. intros ?. split; [done|]. intros (d0&He&Hin). simplify_eq. by apply elem_of_empty in Hin.
  - rewrite list_elem_of_filter. naive_solver.
Qed.

(** A match up to the response tags. *)
Definition same_rule (m m' : Match) : Prop := m_Rule m = m_Rule m' ∧ m_Namespace m = m_Namespace m' ∧ m_Tags m = m_Tags m'.

Lemma tag_same_rule allow canary m : same_rule (tag_response allow canary m) m.
Proof. unfold tag_response. cbv zeta. by repeat case_match. Qed.

Lemma tags_elem allow canary l m : m ∈ l → ∃ m', m' ∈ applyResponseTags allow canary l ∧ same_rule m' m.
Proof.
  intros Hm. unfold applyResponseTags. case_match; [by exists m|]. exists (tag_response allow canary m).
  split; [by apply list_elem_of_fmap_2|apply tag_same_rule].
Qed.

Lemma tags_elem_inv allow canary l m : m ∈ applyResponseTags allow canary l → ∃ m', m' ∈ l ∧ same_rule m m'.
Proof.
  unfold applyResponseTags. case_match; [by exists m|]. intros (m'&->&Hin)%list_elem_of_fmap. exists m'.
  split; [done|apply tag_same_rule].
Qed.

Definition feed_tags : list string := ["malwarebazaar"; "urlhaus"; "threatfox"].

(** A match a reputation feed reported. *)
Definition feed_match (m : Match) : Prop := m_Namespace m = "" ∧ ∃ t, t ∈ feed_tags ∧ m_Tags m = full_slice [t].

Lemma feed_hits_match feed hits : feed ∈ feed_tags → ∀ seen acc, Forall feed_match acc →
  Forall feed_match (feed_hits feed hits seen acc).2.
Proof.
  intros Hf. induction hits as [|h hits IH]; intros seen acc Hacc; cbn [feed_hits]; [done|]. case_bool_decide; [by apply IH|].
  apply IH, Forall_app. split; [done|]. constructor; [|constructor]. split; [done|]. by exists feed.
Qed.

Lemma addFeedHits_match s b f : Forall feed_match (f_matches f) → Forall feed_match (f_matches (addFeedHits s b f)).
Proof.
  assert ("urlhaus" ∈ feed_tags ∧ "threatfox" ∈ feed_tags) as [Hu Ht] by (split; apply mem_true; reflexivity).
  intros Hf. unfold addFeedHits. cbv zeta. set (cands := urlcand_Extract _ _). set (f1 := if urlhaus s then _ else f).
  assert (Forall feed_match (f_matches f1)) as Hf1.
  { subst f1. case_match; [|done]. destruct (feed_hits _ _ _ _) as [seen l] eqn:He. cbn.
    pose proof (feed_hits_match "urlhaus" (urlhaus_Check cands (urlhausMax s)) Hu (f_seenURL f) _ Hf) as H1. by rewrite He in H1. }
  clearbody f1. case_match; [|done]. destruct (feed_hits _ _ _ _) as [seen l] eqn:He. cbn.
  pose proof (feed_hits_match "threatfox" (threatfox_Check cands (threatfoxMax s)) Ht (f_seenTF f1) _ Hf1) as H1. by rewrite He in H1.
Qed.

Lemma feed_loop_match s l d : ∀ seen f w, Forall feed_match (f_matches f) →
  post (feed_loop s l d seen f) (λ r w', settled w w' ∧ Forall feed_match r.1) w.
Proof.
  induction l as [|[b k] l IH]; intros seen f w Hf; cbn [feed_loop]; [apply post_ret; by split|].
  apply post_bind, post_quiet; [apply quiet_within|]. intros ok w1 Hw1. case_match; [by apply post_ret|].
  case_match; (eapply post_mono; [apply IH|]); [done| |by apply addFeedHits_match|];
    intros r w2 [? ?]; (split; [by etrans|done]).
Qed.

Lemma mbazaar_loop_match cs d : ∀ seen acc w, Forall feed_match acc →
  post (mbazaar_loop cs d seen acc) (λ r w', settled w w' ∧ Forall feed_match r.1) w.
Proof.
  induction cs as [|b cs IH]; intros seen acc w Hacc; cbn [mbazaar_loop]; [apply post_ret; by split|].
  apply post_bind, post_quiet; [apply quiet_within|]. intros ok w1 Hw1. case_match; [by apply post_ret|].
  cbv zeta. case_match; (eapply post_mono; [apply IH|]); [done| | |];
    try (intros r w2 [? ?]; split; [by etrans|done]).
  apply Forall_app. split; [done|]. apply Forall_fmap, Forall_forall. intros h _. split; [done|].
  exists "malwarebazaar". split; [apply mem_true; reflexivity|done].
Qed.

Lemma reputation_spec s out i p buf res k d w :
  post (appendReputationMatches s out i p buf res k d)
    (λ r w', settled w w' ∧ (∃ feed, r.1 = out ++ feed ∧ Forall feed_match feed) ∧ (r.2 = false → i = false)) w.
Proof.
  unfold appendReputationMatches. apply post_bind.
  eapply (post_mono _ (λ r w', settled w w' ∧ (∃ feed, r.1 = out ++ feed ∧ Forall feed_match feed) ∧ (r.2 = false → i = false))).
  - case_match.
    + apply post_bind. eapply post_mono; [apply mbazaar_loop_match; constructor|]. intros r w1 [Hw Hr]. apply post_ret. cbn.
      split_and!; [done|by eexists|by destruct i].
    + apply post_ret. split_and!; [done|exists []; by rewrite app_nil_r|done].
  - intros [out1 i1] w1 (Hw1&(feed&Hout&Hfeed)&Hi). cbn in *. subst. case_match; [|by apply post_ret; eauto].
    apply post_bind. eapply post_mono; [apply feed_loop_match, addFeedHits_match; constructor|].
    intros u w2 [Hw2 Hu]. apply post_ret. cbn. split; [by etrans|]. split.
    + exists (feed ++ u.1). rewrite app_assoc. split; [done|by apply Forall_app].
    + intros [? ?]%orb_false_iff. auto.
Qed.

Lemma extractionIncomplete_false d t p r caps : extractionIncomplete d t p r caps = false → p = false ∧ r = false ∧ caps = [].
Proof.
  unfold extractionIncomplete. destruct p; [by rewrite orb_true_r|]. destruct r; [by rewrite orb_true_r|].
  rewrite !orb_false_r. intros [_ Hc]%orb_false_iff. apply bool_decide_eq_false in Hc. split_and!; [done..|].
  by apply dec_stable.
Qed.

Lemma run_extraction_spec s buf meta p d w :
  post (run_extraction s buf meta p d) (λ r w', settled w w'
    ∧ (∃ n dl, (reads w <= n <= reads w')%nat ∧ r.1 = ExtractWithOptions n buf (buildExtractOptions s meta p dl))
    ∧ (r.2 = false → Panicked r.1 = false ∧ RetainedTruncated r.1 = false ∧ CapHits r.1 = [])) w.
Proof.
  unfold run_extraction. apply post_bind, post_quiet.
  { unfold extract_deadline. quiet. }
  intros dl w1 Hw1. apply post_bind. unfold post at 1. cbn.
  apply post_bind, post_quiet; [apply quiet_modify; intros; by split|]. intros _ w2 Hw2. apply post_bind.
  unfold extraction_incomplete. apply post_bind, post_quiet; [quiet|]. intros t w3 Hw3.
  apply post_bind, post_quiet; [apply quiet_metrics|]. intros _ w4 Hw4. apply post_ret, post_ret. cbn.
  split; [by do 3 (etrans; [eassumption|])|]. split; [|by intros ?%extractionIncomplete_false]. exists (reads w1), dl. split; [|done].
  destruct Hw1, Hw2, Hw3, Hw4. lia.
Qed.

(** *** The whole scan *)

(** The raw scan [c0] and what [scanRawChannel] made of it. *)
Definition raw_outcome (c0 : NativeCall) (out : list Match) (rawErr : option scanError) : Prop :=
  match nc_result c0 with
  | inl l => out = filter (λ m, matchIsMarker m = false) l ∧ rawErr = None
  | inr e => out = [] ∧ rawErr = Some e ∧ e ≠ ErrScanIncomplete
  end.

Lemma scanRawChannel_spec rules buf meta p w :
  post (scanRawChannel rules buf meta p) (λ r w', extends w w' ∧ ∃ c0, made (length (calls w)) w' c0 ∧ nc_buf c0 = buf
    ∧ raw_outcome c0 r.1 r.2) w.
Proof.
  unfold scanRawChannel. apply post_bind, post_quiet; [apply quiet_bump|]. intros _ w1 Hw1.
  apply post_bind, post_scanOne. intros t' r w2 _ Hrd Hc Hnat Hne.
  assert (extends w w2) as Hx.
  { destruct Hw1 as [H1 ?]. split; [exists [mkCall rules buf (mkVars false (sm_Filename meta) (sm_Extension meta) (sm_FileType meta)) t' r]; by rewrite Hc, H1|lia]. }
  assert (made (length (calls w)) w2 (mkCall rules buf (mkVars false (sm_Filename meta) (sm_Extension meta) (sm_FileType meta)) t' r)) as Hin
    by (eapply (made_new _ w1); [destruct Hw1 as [-> _]; lia|done|done]).
  destruct r as [l|e].
  - apply post_ret. split; [done|]. eexists. split; [exact Hin|]. split; [done|].
    unfold raw_outcome. cbn. by rewrite filterMarkerChannel_filter.
  - apply post_bind, post_quiet; [apply quiet_bump|]. intros _ w3 Hw3%settled_extends. apply post_ret. split; [by etrans|].
    eexists. split; [by eapply made_mono|]. split; [done|].
    split; [done|]. split; [done|]. intros ->. by apply Hne.
Qed.

(** What a scan does: the extraction [res] of the body, the sweep that ended
    in [x], the feeds' matches and the reading of the clock for the verdict. *)
Record ScanRun (s : Scanner) (buf : string) (meta : ScanMeta) (g : scannerGeneration) (w w' : World)
    (r : list Match * option scanError) (c0 : NativeCall) (res : Result) (x : extractScan) (feed : list Match)
    (incomplete : bool) : Prop := {
  sr_raw : made (length (calls w)) w' c0 ∧ nc_buf c0 = buf ∧ ∃ out rawErr t deadline,
    raw_outcome c0 out rawErr ∧ reports_more out (x_out x)
    ∧ (x_completionErr x = None → rawErr = None ∧ Failed res = false)
    ∧ r = finalScanVerdict (applyResponseTags (allowlist s) (canary s) (filterDenied (x_out x) (g_deny g) ++ feed))
            incomplete (x_completionErr x) rawErr (sm_requireComplete meta) deadline t;
  sr_extraction : ∃ n deadline, (reads w <= n <= reads w')%nat ∧
    res = ExtractWithOptions n buf (buildExtractOptions s meta
      (EffortProfileFor (resolveScanEffort (sm_Effort meta) (effortMax s)) (effortMax s) (scanTimeout s)) deadline);
  sr_complete : incomplete = false → x_incomplete x = false
    ∧ Panicked res = false ∧ RetainedTruncated res = false ∧ CapHits res = []
    ∧ swept (length (calls w)) res (sm_Extension meta) {[raw_seed meta buf]} w' (x_out x);
  sr_origin : ∀ m, m ∈ x_out x → ∃ c l, made (length (calls w)) w' c ∧ nc_result c = inl l ∧ m ∈ l
    ∧ (matchIsMarker m = true → nc_buf c ∈ marker_texts res (sm_Extension meta));
  sr_feed : Forall feed_match feed
}.

Lemma swept_world base res ext seen0 w w' out : extends w w' → swept base res ext seen0 w out → swept base res ext seen0 w' out.
Proof.
  intros Hw [H1 H2]. split.
  - intros b Hb. destruct (H1 b Hb); [by left|right]. by eapply covered_mono.
  - intros b Hb. destruct (H2 b Hb) as [?|[?|?]]; [by left|by right; left|right; right]. by eapply covered_mono.
Qed.

(** The raw matches start the sweep's invariant. *)
Lemma initial_inv base w c0 out rawErr seed inc err texts : (base <= length (calls w))%nat → made base w c0 → raw_outcome c0 out rawErr →
  SweepInv base {[seed]} false texts w (initial_scan seed out inc err).
Proof.
  intros Hb Hc Ho. split; cbn; [done|done|by left|]. intros m Hm. unfold raw_outcome in Ho.
  destruct (nc_result c0) as [l|e] eqn:Hr; destruct Ho as [-> Ho]; [|by apply not_elem_of_nil in Hm].
  apply list_elem_of_filter in Hm as [Hch Hm]. exists c0, l. split_and!; [done..|]. congruence.
Qed.

Lemma scanGeneration_run s buf meta g w rules : g_rules g = Some rules →
  post (scanGeneration s buf meta g) (λ r w', extends w w' ∧ ∃ c0 res x feed inc, ScanRun s buf meta g w w' r c0 res x feed inc) w.
Proof.
  intros Hg. unfold scanGeneration. rewrite Hg. apply post_bind.
  assert (post (resolveScanSetup s buf meta g rules) (λ r w', settled w w' ∧ su_profile r =
    EffortProfileFor (resolveScanEffort (sm_Effort meta) (effortMax s)) (effortMax s) (scanTimeout s)) w) as Hsetup.
  { unfold resolveScanSetup. cbv zeta. set (p := EffortProfileFor _ _ _). clearbody p. apply post_bind, post_quiet; [quiet|].
    intros dl w1 Hw1. case_match; [|by apply post_ret].
    destruct (g_bigRules g); apply post_bind, post_quiet; auto using quiet_bump, quiet_warn;
      intros _ w2 Hw2; apply post_ret; split; [by etrans|done|by etrans|done]. }
  eapply post_mono; [exact Hsetup|]. intros [p dl raw_rules] w1 [Hw1 Hp]. cbn in Hp. subst p.
  set (p := EffortProfileFor _ _ _). apply post_bind. eapply post_mono; [apply scanRawChannel_spec|].
  intros [out rawErr] w2 (Hw2&c0&Hc0&Hbuf&Hraw). cbn in Hraw. apply post_bind.
  eapply post_mono; [apply run_extraction_spec|]. intros [res inc] w3 (Hw3&(n&d&Hn&Hres)&Hcomp). cbn in Hres, Hcomp.
  pose proof Hw1 as Hw1'. apply settled_extends in Hw1, Hw3. cbv zeta.
  match goal with |- context [initial_scan ?a ?b ?c ?e] => set (x0 := initial_scan a b c e) end.
  assert (length (calls w1) = length (calls w)) as Hlen by (by destruct Hw1' as [-> _]). rewrite Hlen in Hc0.
  assert (made (length (calls w)) w3 c0) as Hc3 by (by eapply made_mono).
  assert (length (calls w) <= length (calls w3))%nat as Hb3 by (apply extends_length; by do 2 (etrans; [eassumption|])).
  apply post_bind. eapply post_mono; [apply scanStreamLoop_spec; subst x0; by apply (initial_inv _ _ c0 _ rawErr)|].
  intros x w4 (Hs4&[seen0 Hinv]&Hswept). cbn [w_meta] in Hinv, Hswept.
  apply post_bind, post_quiet; [apply quiet_top|]. intros _ w5 Hw5%settled_extends.
  apply post_bind. eapply post_mono; [apply reputation_spec|].
  intros [out2 inc2] w6 (Hw6%settled_extends&(feed&Hout2&Hfeed)&Hinc). cbn in Hout2, Hinc. subst out2.
  unfold final_scan_verdict. apply post_bind, post_quiet; [quiet|]. intros t w7 Hw7%settled_extends. apply post_ret.
  pose proof (ss_world _ _ _ _ Hs4) as Hw4.
  assert (extends w4 w7) as Hw47 by (by do 2 (etrans; [eassumption|])).
  assert (extends w3 w7) as Hw37 by (by etrans). split; [by do 3 (etrans; [eassumption|])|].
  exists c0, res, x, feed, inc2. split.
  - split; [by eapply made_mono|]. split; [done|].
    exists out, rawErr, t, dl. split; [done|]. split; [apply (ss_out _ _ _ _ Hs4)|]. split; [|done].
    intros He%(ss_err _ _ _ _ Hs4). cbn in He. destruct rawErr; [by rewrite bool_decide_eq_false_2, andb_false_r in He|].
    rewrite bool_decide_eq_true_2, andb_true_r in He by done. by destruct (Failed res).
  - exists n, d. split; [|done]. destruct Hw1 as [_ ?], Hw2 as [_ ?], Hw37 as [_ ?]. lia.
  - intros Hi2. specialize (Hinc Hi2). split; [done|]. pose proof (ss_complete _ _ _ _ Hs4 Hinc) as Hi0. cbn in Hi0.
    destruct (Hcomp Hi0) as (?&?&?). split_and!; [done..|]. eapply swept_world; [exact Hw47|]. by apply Hswept.
  - intros m Hm. destruct (si_origin _ _ _ _ _ _ Hinv m Hm) as (c&l&Hc&Hr&Hin&Hmk). exists c, l. split_and!; [by apply (made_mono _ w4)|done..].
  - done.
Qed.

(** [l] reports what the call [c] found on its channel, the denied rules
    apart. *)
Definition reported (deny : option (gset string)) (l : list Match) (ch : bool) (c : NativeCall) : Prop :=
  ∃ ms, nc_result c = inl ms ∧ ∀ m, m ∈ ms → matchIsMarker m = ch → denied deny m ∨ matchKey m ∈ matchKey <$> l.

Lemma same_rule_key m m' : same_rule m m' → matchKey m = matchKey m'.
Proof. intros (?&?&_). unfold matchKey. congruence. Qed.

(** From the sweep to the response: a rule is reported or denied. *)
Lemma final_keys allow canary out deny feed m : matchKey m ∈ matchKey <$> out →
  denied deny m ∨ matchKey m ∈ matchKey <$> applyResponseTags allow canary (filterDenied out deny ++ feed).
Proof.
  intros (m'&Hk&Hin)%list_elem_of_fmap. destruct (decide (denied deny m')) as [Hd|Hd].
  - left. destruct Hd as (d&?&?). exists d. split; [done|]. by injection Hk as _ ->.
  - right. destruct (tags_elem allow canary (filterDenied out deny ++ feed) m') as (m2&Hin2&Hs).
    { apply elem_of_app. left. by apply filterDenied_elem. }
    apply list_elem_of_fmap. exists m2. split; [|done]. apply same_rule_key in Hs. congruence.
Qed.

(** A successful scan of the raw bytes or, outside an admission scan, a failed
    one next to matches. *)
Definition raw_reported (requireComplete : bool) (deny : option (gset string)) (l : list Match) (c : NativeCall) : Prop :=
  reported deny l false c ∨ requireComplete = false ∧ (∃ e, nc_result c = inr e) ∧ l ≠ [].

(** What a scan of [buf] without an error did: [res] is the extraction. *)
Definition scan_covered (s : Scanner) (buf : string) (meta : ScanMeta) (deny : option (gset string)) (l : list Match) (w w' : World)
    (res : Result) : Prop :=
  Panicked res = false ∧ RetainedTruncated res = false ∧ CapHits res = []
  ∧ (∃ c, made (length (calls w)) w' c ∧ nc_buf c = buf ∧ raw_reported (sm_requireComplete meta) deny l c)
  ∧ (sm_requireComplete meta = true → Failed res = false)
  ∧ (∀ b, b ∈ Streams res → streamDedupKey b = raw_seed meta buf
      ∨ ∃ c, made (length (calls w)) w' c ∧ streamDedupKey (nc_buf c) = streamDedupKey b ∧ reported deny l false c)
  ∧ (∀ b, b ∈ marker_texts res (sm_Extension meta) → streamDedupKey b = raw_seed meta buf
      ∨ (∃ b', b' ∈ Streams res ∧ streamDedupKey b' = streamDedupKey b)
      ∨ ∃ c, made (length (calls w)) w' c ∧ streamDedupKey (nc_buf c) = streamDedupKey b ∧ reported deny l true c).

(** The extraction a scan runs, at some moment of it. *)
Definition extraction_of (s : Scanner) (buf : string) (meta : ScanMeta) (w w' : World) (res : Result) : Prop :=
  ∃ n deadline, (reads w <= n <= reads w')%nat ∧ res = ExtractWithOptions n buf (buildExtractOptions s meta
    (EffortProfileFor (resolveScanEffort (sm_Effort meta) (effortMax s)) (effortMax s) (scanTimeout s)) deadline).

Lemma scan_complete_covers s buf meta g w l w' : scanGeneration s buf meta g w = ((l, None), w') →
  ∃ res, extraction_of s buf meta w w' res ∧ scan_covered s buf meta (g_deny g) l w w' res.
Proof.
  intros Hscan. destruct (g_rules g) as [rules|] eqn:Hg; [|unfold scanGeneration in Hscan; by rewrite Hg in Hscan].
  pose proof (scanGeneration_run s buf meta g w rules Hg) as (_&c0&res&x&feed&inc&[Hraw (n&d&Hn&Hres) Hcomp _ _]).
  rewrite Hscan in *. cbn [fst snd] in *. destruct Hraw as (Hc0&Hbuf&out&rawErr&t&dl&Hout&Hmore&Herr&Hr). symmetry in Hr.
  apply finalScanVerdict_complete in Hr as (->&->&Hraw&Hreq). destruct (Hcomp eq_refl) as (_&?&?&?&[Hst Hmk]).
  set (l := applyResponseTags _ _ _) in *.
  assert (∀ m, matchKey m ∈ matchKey <$> x_out x → denied (g_deny g) m ∨ matchKey m ∈ matchKey <$> l) as Hfin
    by (intros m; apply final_keys).
  assert (∀ ch k, covered (length (calls w)) w' (x_out x) ch k → ∃ c, made (length (calls w)) w' c ∧ streamDedupKey (nc_buf c) = k ∧ reported (g_deny g) l ch c) as Hcov.
  { intros ch k (c&Hc&Hk&ms&Hms&Hin). exists c. split; [done|]. split; [done|]. exists ms. split; [done|]. eauto. }
  exists res. split; [by exists n, d|]. split_and!; [done..| |by intros He%Hreq; apply Herr, He| |].
  - exists c0. split; [done|]. split; [done|]. unfold raw_outcome in Hout. destruct (nc_result c0) as [ms|e] eqn:Hc.
    + left. exists ms. split; [done|]. intros m Hm Hch. apply Hfin, Hmore, list_elem_of_fmap. exists m. split; [done|].
      destruct Hout as [-> _]. by apply list_elem_of_filter.
    + right. destruct Hout as (_&->&_). split; [|split; [by eexists|by destruct Hraw]].
      destruct (sm_requireComplete meta); [|done]. destruct (Hreq eq_refl) as [He _]. by destruct (Herr He).
  - intros b Hb. destruct (Hst b Hb) as [Hk|Hk]; [left; by apply elem_of_singleton in Hk|right; auto].
  - intros b Hb. destruct (Hmk b Hb) as [Hk|[Hk|Hk]]; [left; by apply elem_of_singleton in Hk|by right; left|right; right; auto].
Qed.

(** C9: A scan that ends without an error missed nothing: the extractor neither
    panicked nor stopped at a cap; every extracted stream was scanned by
    libyara successfully, or is a copy of the body or of a scanned entry, and
    the response names every rule it matched, denied ones apart; so is every
    marker, unless its bytes are also those of a stream.  The raw bytes were
    scanned too, except that outside an admission scan this may have failed
    next to other matches.  The calls are those this scan made ([made]), with
    the results libyara gave. *)
Theorem scan_misses_nothing s buf meta g w l w' : scanGeneration s buf meta g w = ((l, None), w') →
  ∃ res, extraction_of s buf meta w w' res ∧ scan_covered s buf meta (g_deny g) l w w' res.
Proof. apply scan_complete_covers. Qed.

(** An incomplete scan says so in its matches. *)
Lemma scan_says_incomplete s buf meta g w l w' : sm_requireComplete meta = false →
  scanGeneration s buf meta g w = ((l, Some ErrScanIncomplete), w') → degradedReason l ≠ "".
Proof.
  intros Hreq Hscan. destruct (g_rules g) as [rules|] eqn:Hg; [|unfold scanGeneration in Hscan; by rewrite Hg in Hscan].
  pose proof (scanGeneration_run s buf meta g w rules Hg) as (_&c0&res&x&feed&inc&[Hraw _ _ _ _]).
  rewrite Hscan in *. cbn [fst snd] in *. destruct Hraw as (_&_&out&rawErr&t&dl&Hout&_&_&Hr).
  rewrite Hreq in Hr. unfold finalScanVerdict in Hr. cbn [andb] in Hr. cbv zeta in Hr.
  assert (rawErr ≠ Some ErrScanIncomplete) as Hraw.
  { unfold raw_outcome in Hout. destruct (nc_result c0); [by destruct Hout as [_ ->]|]. destruct Hout as (_&->&?). congruence. }
  destruct inc.
  - assert (l = applyResponseTags (allowlist s) (canary s) (filterDenied (x_out x) (g_deny g) ++ feed) ++ [scanIncompleteMatch]) as ->.
    { case_match; simplify_eq; done. }
    clear Hr. rewrite degradedReason_app. case_bool_decide; [|done]. intros Hd. by vm_compute in Hd.
  - case_match; simplify_eq; done.
Qed.

(** C10: Whatever a scan reports, with or without an error, is a rule that a
    libyara call of this scan really matched and that is not denied, a hit of a reputation
    feed, or the incomplete marker; a marker rule is among them only if the
    extractor (or the extension check) emitted the marker text it matched. *)
Theorem scan_reports_only s buf meta g w l err w' : scanGeneration s buf meta g w = ((l, err), w') →
  ∃ res, extraction_of s buf meta w w' res ∧ ∀ m, m ∈ l →
    (∃ c ms m', made (length (calls w)) w' c ∧ nc_result c = inl ms ∧ m' ∈ ms ∧ same_rule m m' ∧ ¬ denied (g_deny g) m'
       ∧ (matchIsMarker m' = true → nc_buf c ∈ marker_texts res (sm_Extension meta)))
    ∨ (∃ m', feed_match m' ∧ same_rule m m') ∨ m = scanIncompleteMatch.
Proof.
  intros Hscan. destruct (g_rules g) as [rules|] eqn:Hg.
  2:{ unfold scanGeneration in Hscan. rewrite Hg in Hscan. inversion Hscan; subst. eexists. split; [exists (reads w'), 0; by split|].
      intros m Hm. by apply elem_of_nil in Hm. }
  pose proof (scanGeneration_run s buf meta g w rules Hg) as (_&c0&res&x&feed&inc&[Hraw (n&d&Hn&Hres) _ Horig Hfeed]).
  rewrite Hscan in *. cbn [fst snd] in *. destruct Hraw as (_&_&out&rawErr&t&dl&_&_&_&Hr).
  exists res. split; [by exists n, d|]. intros m Hm.
  assert (m ∈ applyResponseTags (allowlist s) (canary s) (filterDenied (x_out x) (g_deny g) ++ feed) ∨ m = scanIncompleteMatch) as [Hin|Hin].
  { revert Hr. unfold finalScanVerdict. cbv zeta. set (o := applyResponseTags _ _ _).
    assert (∀ o', (o' = o ++ [scanIncompleteMatch] ∨ o' = o) → m ∈ o' → m ∈ o ∨ m = scanIncompleteMatch) as Ho.
    { intros o' [->| ->]; [|by left]. intros [?|?%list_elem_of_singleton]%elem_of_app; [by left|by right]. }
    intros Hr. repeat case_match; simplify_eq; try (by apply elem_of_nil in Hm); eapply Ho; try exact Hm; naive_solver. }
  - apply tags_elem_inv in Hin as (m'&[Hin|Hin]%elem_of_app&Hs).
    + apply filterDenied_elem in Hin as [Hin Hd]. destruct (Horig m' Hin) as (c&ms&?&?&?&?). left. by exists c, ms, m'.
    + right. left. exists m'. split; [|done]. by apply (proj1 (Forall_forall _ _) Hfeed).
  - by right; right.
Qed.

(** *** Time

    [issues P n m]: from any world at or after the reading [r0], [m] asks for
    at most [n] native scans, all with [P]. *)
Definition issues (r0 : nat) (P : NativeCall → Prop) {A} (n : A → nat) (m : W A) : Prop :=
  ∀ w, (r0 <= reads w)%nat →
  ∃ new, calls (m w).2 = calls w ++ new ∧ (length new <= n (m w).1)%nat ∧ Forall P new ∧ (reads w <= reads (m w).2)%nat.

Lemma issues_quiet r0 P {A} n (m : W A) : quiet m → issues r0 P n m.
Proof. intros Hm w _. destruct (Hm w) as [-> ?]. exists []. rewrite app_nil_r. split_and!; [done|simpl; lia|constructor|done]. Qed.

Lemma issues_bind r0 P {A B} k (n : B → nat) (m : W A) (f : A → W B) :
  issues r0 P (λ _, k) m → (∀ a, issues r0 P (λ b, n b - k)%nat (f a)) →
  (∀ a w, k <= n (f a w).1)%nat → issues r0 P n (m ≫= f).
Proof.
  intros Hm Hf Hk w Hw. destruct (Hm w Hw) as (new&Hc&Hl&HP&Hr). unfold mbind, W_bind. destruct (m w) as [a w1]. cbn in *.
  destruct (Hf a w1 ltac:(lia)) as (new'&Hc'&Hl'&HP'&Hr'). specialize (Hk a w1). exists (new ++ new').
  rewrite Hc', Hc, app_assoc, length_app. split_and!; [done|lia|by apply Forall_app|lia].
Qed.

Lemma issues_bind0 r0 P {A B} (n : B → nat) (m : W A) (f : A → W B) :
  quiet m → (∀ a, issues r0 P n (f a)) → issues r0 P n (m ≫= f).
Proof.
  intros Hm Hf. eapply (issues_bind _ _ 0); [by apply issues_quiet| |intros; lia].
  intros a w Hw. destruct (Hf a w Hw) as (new&?&?&?). exists new. rewrite Nat.sub_0_r. done.
Qed.

Lemma issues_weaken r0 P {A} (n n' : A → nat) (m : W A) : (∀ a, n a <= n' a)%nat → issues r0 P n m → issues r0 P n' m.
Proof. intros Hn Hm w Hw. destruct (Hm w Hw) as (new&?&?&?&?). exists new. split_and!; [done| |done..]. specialize (Hn (m w).1). lia. Qed.

(** From some reading of the clock at or after [r0], the call's time ends at
    the deadline, and it has the second libyara needs. *)
Definition timely (r0 : nat) (deadline : Time) (c : NativeCall) : Prop :=
  second <= nc_timeout c ∧ ∃ i, (r0 <= i)%nat ∧ clock i + nc_timeout c = deadline.

Lemma issues_entry r0 c b k ch x : w_deadline c ≠ 0 → issues r0 (timely r0 (w_deadline c)) (λ _, 1%nat) (scan_entry c b k ch x).
Proof.
  intros Hd. unfold scan_entry. cbv zeta. case_bool_decide; [apply issues_quiet; quiet|]. intros w Hw.
  unfold IsZero. rewrite (proj2 (Z.eqb_neq _ _) Hd). cbn [negb andb].
  match goal with |- context [mbind ?f ?m w] => change ((mbind f m) w) with (f (w_deadline c - clock (reads w)) {| w with reads := S (reads w) |}) end.
  cbv beta. destruct (_ <? second) eqn:Hs.
  { exists []. rewrite app_nil_r. cbn. split_and!; [done|lia|constructor|lia]. }
  apply Z.ltb_ge in Hs. set (budget := w_deadline c - clock (reads w)) in *.
  set (w0 := {| w with reads := S (reads w) |}).
  assert (∀ m, issues r0 (timely r0 (w_deadline c)) (λ _ : bool * extractScan, 1%nat) m →
    ∃ new, calls (m w0).2 = calls w ++ new ∧ (length new <= 1)%nat ∧ Forall (timely r0 (w_deadline c)) new
      ∧ (reads w <= reads (m w0).2)%nat) as Hgoal.
  { intros m Hm. assert (reads w0 = S (reads w)) as Hr by done. destruct (Hm w0) as (new&?&?&?&?); [lia|]. exists new. split_and!; [done..|lia]. }
  apply Hgoal. apply issues_bind0; [apply quiet_rules|]. intros [r x2]. apply issues_bind0; [apply quiet_bump|]. intros _.
  eapply (issues_bind _ _ 1); [| |intros; lia].
  - intros w1 Hw1. eexists. split; [done|]. cbn. split_and!; [lia| |lia]. constructor; [|constructor].
    unfold timely. cbn. replace ((0 <? budget) && (budget <? second)) with false by lia.
    split; [done|]. exists (reads w). split; [done|]. unfold budget. lia.
  - intros res. apply issues_quiet. destruct res; [|quiet]. destruct (foldl merge_match _ _). quiet.
Qed.

Lemma issues_loop r0 c ch entries : w_deadline c ≠ 0 → ∀ x,
  issues r0 (timely r0 (w_deadline c)) (λ _, length entries) (sweep_loop c entries ch x).
Proof.
  intros Hd. induction entries as [|[b k] entries IH]; intros x; cbn [sweep_loop length]; [by apply issues_quiet, quiet_ret|].
  eapply (issues_bind _ _ 1); [by apply issues_entry| |intros; lia]. intros [stop x1]. cbn. rewrite Nat.sub_0_r.
  destruct stop; [by apply issues_quiet, quiet_ret|apply IH].
Qed.

Lemma length_omap_le {A B} (f : A → option B) (l : list A) : (length (omap f l) <= length l)%nat.
Proof. induction l as [|a l IH]; [done|]. cbn. destruct (f a); cbn; lia. Qed.

Lemma issues_sweep r0 c res x : w_deadline c ≠ 0 →
  issues r0 (timely r0 (w_deadline c)) (λ _, S (length (Streams res) + length (Markers res))) (scanStreamLoop c res x).
Proof.
  intros Hd. unfold scanStreamLoop. eapply (issues_bind _ _ (length (Streams res))).
  - eapply issues_weaken; [|by apply issues_loop]. intros ?. cbn. unfold ordered_streams. rewrite length_fmap.
    etrans; [apply length_omap_le|]. by rewrite (Permutation_length (streamScanOrder_perm _ _)), length_seq.
  - intros x1. eapply (issues_bind _ _ 1).
    + destruct (mismatch_marker _ _) as [|mk l]; [by apply issues_quiet, quiet_ret|].
      apply issues_bind0; [apply quiet_bump|]. intros _. eapply (issues_bind _ _ 1); [by apply issues_entry| |intros; lia].
      intros r. by apply issues_quiet, quiet_ret.
    + intros x2. eapply issues_weaken; [|by apply issues_loop]. intros ?. cbn. rewrite length_fmap. lia.
    + intros; cbn. lia.
  - intros; cbn. lia.
Qed.

Lemma scan_timeout_min base frac : 0 < base → second <= scan_timeout base frac.
Proof.
  intros Hb. unfold scan_timeout. replace (0 <? base) with true by lia. cbv zeta. unfold minScanTimeout.
  case_match eqn:H; [lia|]. apply Z.ltb_ge in H. lia.
Qed.

(** What [m] adds to the calls, as a relation of worlds. *)
Definition issued (P : NativeCall → Prop) (n : nat) (w w' : World) : Prop :=
  ∃ new, calls w' = calls w ++ new ∧ (length new <= n)%nat ∧ Forall P new ∧ (reads w <= reads w')%nat.

Lemma issued_trans P n n' w1 w2 w3 : issued P n w1 w2 → issued P n' w2 w3 → issued P (n + n') w1 w3.
Proof.
  intros (l1&E1&?&?&?) (l2&E2&?&?&?). exists (l1 ++ l2). rewrite E2, E1, app_assoc, length_app.
  split_and!; [done|lia|by apply Forall_app|lia].
Qed.

Lemma issued_settled P w w' : settled w w' → issued P 0 w w'.
Proof. intros [Hc ?]. exists []. rewrite app_nil_r. split_and!; [done|simpl; lia|constructor|done]. Qed.

Lemma post_issues {A} r0 P k (m : W A) (Q : A → World → Prop) w : (r0 <= reads w)%nat → issues r0 P (λ _, k) m →
  (∀ a w', issued P k w w' → Q a w') → post m Q w.
Proof. intros Hw Hm HQ. by apply HQ, Hm. Qed.

Lemma setup_deadline s buf meta g rules w : 0 < ScanTimeout (EffortProfileFor (resolveScanEffort (sm_Effort meta) (effortMax s)) (effortMax s) (scanTimeout s)) →
  post (resolveScanSetup s buf meta g rules) (λ r w', settled w w' ∧
    su_profile r = EffortProfileFor (resolveScanEffort (sm_Effort meta) (effortMax s)) (effortMax s) (scanTimeout s)
    ∧ su_deadline r = clock (reads w) + ScanTimeout (su_profile r)) w.
Proof.
  unfold resolveScanSetup. cbv zeta. set (p := EffortProfileFor _ _ _). clearbody p. intros Hp.
  rewrite (proj2 (Z.ltb_lt _ _) Hp). apply post_bind, post_bind. unfold post at 1. cbn. apply post_ret.
  set (w1 := {| w with reads := S (reads w) |}). assert (settled w w1) as Hw1 by (split; [done|cbn; lia]).
  case_match; [|by apply post_ret].
  destruct (g_bigRules g); apply post_bind, post_quiet; auto using quiet_bump, quiet_warn;
    intros _ w2 Hw2; apply post_ret; (split; [by etrans|done]).
Qed.

Lemma issues_raw r0 rules buf meta p : second <= ScanTimeout p →
  issues r0 (timely r0 (clock r0 + ScanTimeout p)) (λ _, 1%nat) (scanRawChannel rules buf meta p).
Proof.
  intros Hp. unfold scanRawChannel. apply issues_bind0; [apply quiet_bump|]. intros _. eapply (issues_bind _ _ 1); [| |intros; lia].
  - intros w Hw. eexists. split; [done|]. cbn. split_and!; [lia| |lia]. constructor; [|constructor]. unfold timely. cbn.
    replace ((0 <? ScanTimeout p) && (ScanTimeout p <? second)) with false by lia. split; [done|]. by exists r0.
  - intros [l|e]; apply issues_quiet; quiet.
Qed.

(** A scan asks libyara for at most two scans more than there are streams
    and markers, each starts with at least one second on the clock, and none
    may run past the request's one deadline: no document can spend the
    timeout once per stream. *)
Theorem scan_within_deadline s buf meta g w : (∀ i, 0 < clock i) → 0 < scanTimeout s →
  let limit := ScanTimeout (EffortProfileFor (resolveScanEffort (sm_Effort meta) (effortMax s)) (effortMax s) (scanTimeout s)) in
  let w' := (scanGeneration s buf meta g w).2 in
  ∃ new res, calls w' = calls w ++ new ∧ (g_rules g ≠ None → ∃ n o, res = ExtractWithOptions n buf o)
  ∧ (length new <= 2 + length (Streams res) + length (Markers res))%nat
  ∧ Forall (timely (reads w) (clock (reads w) + limit)) new.
Proof.
  intros Hclock Hst limit w'. set (P := timely (reads w) (clock (reads w) + limit)).
  assert (second <= limit) as Hlim by by apply scan_timeout_min.
  enough (post (scanGeneration s buf meta g) (λ _ w2, ∃ res, (g_rules g ≠ None → ∃ n o, res = ExtractWithOptions n buf o)
    ∧ issued P (2 + length (Streams res) + length (Markers res)) w w2) w) as (res&?&new&?&?&?&?) by by exists new, res.
  unfold scanGeneration. destruct (g_rules g) as [rules|].
  2:{ apply post_ret. exists (ExtractWithOptions 0 buf (ExtractOptions (EffortProfileFor 0 0 0) 0)). split; [done|].
      exists []. rewrite app_nil_r. split_and!; [done|simpl; lia|constructor|done]. }
  apply post_bind. eapply post_mono; [apply setup_deadline; fold limit; unfold second in *; lia|].
  intros [p dl raw_rules] w1 (Hw1&Hp&Hdl). cbn in Hp, Hdl. assert (ScanTimeout p = limit) as Hpl by by rewrite Hp.
  rewrite Hpl in Hdl. assert (dl ≠ 0) as Hd0 by (specialize (Hclock (reads w)); unfold second in *; lia).
  assert (issued P 0 w w1) as H1 by by apply issued_settled. clear Hp.
  apply post_bind. eapply post_issues; [|apply (issues_raw (reads w)); by rewrite Hpl|]; [apply Hw1|].
  rewrite Hpl. fold P. intros [out rawErr] w2 H2. apply post_bind. eapply post_mono; [apply run_extraction_spec|].
  intros [res inc] w3 (H3%(issued_settled P)&(n&d&_&Hres)&_). cbn in Hres. cbv zeta.
  pose proof (issued_trans _ _ _ _ _ _ (issued_trans _ _ _ _ _ _ H1 H2) H3) as H4.
  apply post_bind. eapply post_issues; [|apply (issues_sweep (reads w)); exact Hd0|].
  { by destruct H4 as (?&_&_&_&?). }
  cbn [w_deadline]. rewrite Hdl. fold P. intros x w4 H5. pose proof (issued_trans _ _ _ _ _ _ H4 H5) as H6.
  apply post_bind, post_quiet; [apply quiet_top|]. intros _ w5 H7%(issued_settled P).
  apply post_bind, post_quiet; [apply quiet_reputation|]. intros rep w6 H8%(issued_settled P).
  apply (post_quiet _ _ _ (quiet_final _ _ _ _ _ _)). intros r w7 H9%(issued_settled P). exists res. split; [intros _; by eexists _, _|].
  pose proof (issued_trans _ _ _ _ _ _ (issued_trans _ _ _ _ _ _ (issued_trans _ _ _ _ _ _ H6 H7) H8) H9) as (new&?&?&?&?).
  exists new. split_and!; [done|lia|done..].
Qed.

End Facts.
