(* ===== verification/ScanServer.v ===== *)
(** * The scan server

    [internal/mailstrix/server.go]: the verdict-cache key, the path of one
    request through cache, coalescing and scan, the HTTP handlers; and
    cape_scan.go.  Outcomes of the outside world (slots, contexts, Redis, the
    clock, the engine) are arguments, in the order the code meets them. *)

From Stdlib Require Import ZArith Lia.
From Stdlib Require Ascii String.
From stdpp Require Import base gmap strings list numbers sorting.
From S2P Require Import Prelude GoStd GoText VerdictCache Effort Flight ScanVerdict ClientVerdict.

Local Open Scope Z_scope.

(** ** Keys *)

(** [fingerprintLocked]; each part is "" while it is not loaded. *)
Definition fingerprintLocked (version fp content deny policy : string) : string :=
  version +:+ ":" +:+ fp +:+ ":" +:+ content +:+ ":" +:+ deny +:+ ":" +:+ policy.

Section Server.
Context {T : TextEnv} {R : RedisEnv}.

(** The key of [lookupScanOutcomeStarted]; an empty partition is the one of
    the attachment's metadata. *)
Definition verdict_key (fingerprint partition : string) (meta : ScanMeta) : string :=
  let partition := if bool_decide (partition = "") then cacheKey meta else partition in
  fingerprint +:+ ":" +:+ partition +:+ ":" +:+ sm_RawKey meta.

(** ** State *)

(** A nil cache is [noopCache]; [sv_sets] are the SET commands issued. *)
Record ServerState := mkServer {
  sv_cache : option Cache;
  sv_metrics : gmap string Z;
  sv_sets : list (string * string)
}.

Definition count (name : string) (st : ServerState) : ServerState :=
  {| st with sv_metrics := <[name := count_up (default 0 (sv_metrics st !! name))]> (sv_metrics st) |}.

Definition count_if (b : bool) (name : string) (st : ServerState) : ServerState := if b then count name st else st.

(** ** Slots: [acquireOn] *)

Inductive Race := RaceSlot | RaceTimer | RaceDone.

Definition acquireOn (free : bool) (race : Race) : bool :=
  free || match race with RaceSlot => true | _ => false end.

(** ** The cache *)

Record GetAnswer := mkGetAnswer {
  ga_others : lruCache → lruCache;
  ga_t0 : Time;
  ga_t1 : Time;
  ga_reply : string → RedisReply;
  ga_t2 : Time;
  ga_t3 : Time
}.

Record PutAnswer := mkPutAnswer { pa_t0 : Time; pa_t1 : Time; pa_set_ok : bool; pa_t2 : Time }.

Definition cache_get (key : string) (a : GetAnswer) (st : ServerState) : option (option (slice Match) * ServerState) :=
  match sv_cache st with
  | None => Some (None, st)
  | Some c =>
      '(r, c) ← Get (ga_others a) c key (ga_t0 a) (ga_t1 a) (ga_reply a) (ga_t2 a) (ga_t3 a);
      Some (r, {| st with sv_cache := Some c |})
  end.

Definition cache_put (key : string) (l : slice Match) (a : PutAnswer) (st : ServerState) : option ServerState :=
  match sv_cache st with
  | None => Some st
  | Some c =>
      '(w, c) ← Put c key l (pa_t0 a) (pa_t1 a) (pa_set_ok a) (pa_t2 a);
      Some {| st with sv_cache := Some c; sv_sets := sv_sets st ++ option_list w |}
  end.

Definition FlushCache (st : ServerState) : ServerState :=
  {| st with sv_cache := (λ c, {| c with local := Flush (local c) |}) <$> sv_cache st |}.

(** ** The scan: [dispatchLease] *)

Inductive EngineAnswer := EngineReturns (l : list Match) (err : option scanError) | EnginePanics (message : string).

Definition dispatchLease (a : EngineAnswer) : list Match * option scanError :=
  match a with
  | EngineReturns l err => (l, err)
  | EnginePanics m => ([], Some (ErrPanic m))
  end.

(** What the leader's function meets: a second cache lookup, [ctx.Err()] at
    each of its three tests, the slot, the scan, other requests meanwhile. *)
Record LeaderAnswers := mkLeader {
  la_get : GetAnswer;
  la_done1 : bool;
  la_free : bool;
  la_race : Race;
  la_done_busy : bool;
  la_done2 : bool;
  la_engine : EngineAnswer;
  la_meanwhile : ServerState → ServerState;
  la_put : PutAnswer
}.

Definition no_matches : slice Match := full_slice [].

(** The function [lookupScanOutcomeLease] gives to [doScan]: its outcome, and
    whether it was abandoned.  [observed]: [onStarted] is not nil. *)
Definition scan_fn (observed : bool) (key : string) (a : LeaderAnswers) (st : ServerState)
    : option (scanOutcome * bool * ServerState) :=
  '(hit, st) ← cache_get key (la_get a) st;
  match hit with
  | Some l => Some (mkOutcome l None, false, st)
  | None =>
      let st := count "cache_misses" st in
      if la_done1 a || negb (acquireOn (la_free a) (la_race a)) then
        Some (mkOutcome no_matches (Some ErrScanBusy), true, count_if (negb (la_done_busy a) && negb observed) "busy" st)
      else if la_done2 a then Some (mkOutcome no_matches (Some ErrContext), true, st)
      else
        let '(scanned, err) := dispatchLease (la_engine a) in
        let st := la_meanwhile a st in
        match err with
        | Some e => Some (mkOutcome (full_slice scanned) (Some e), false,
                          count_if (bool_decide (e ≠ ErrScanIncomplete)) "errors" st)
        | None => st ← cache_put key (full_slice scanned) (la_put a) st; Some (mkOutcome (full_slice scanned) None, false, st)
        end
  end.

(** *** [lookupScanOutcomeLease] around [doScan] *)

Inductive LookupStatus := StCanceled | StMiss | StHit | StCoalesced.

#[export] Instance LookupStatus_eq_dec : EqDecision LookupStatus.
Proof. solve_decision. Defined.

(** Up to the flight group: the result, unless the call enters it. *)
Definition lookup_enter (done : bool) (lease_err : option scanError) (key : string) (a : GetAnswer) (st : ServerState)
    : option (option (scanOutcome * LookupStatus) * ServerState) :=
  if done then Some (Some (mkOutcome no_matches (Some ErrContext), StCanceled), count "canceled" st)
  else match lease_err with
  | Some e => Some (Some (mkOutcome no_matches (Some e), StMiss), st)
  | None =>
      '(hit, st) ← cache_get key a st;
      match hit with
      | Some l => Some (Some (mkOutcome l None, StHit), count "cache_hits" st)
      | None => Some (None, st)
      end
  end.

(** From what [doScan] returned. *)
Definition lookup_leave (r : Role) (o : scanOutcome) (shared : bool) (st : ServerState) : scanOutcome * LookupStatus * ServerState :=
  match r with
  | Gone => (mkOutcome no_matches (Some ErrContext), StCanceled, count "canceled" st)
  | _ => if shared then (o, StCoalesced, count "cache_coalesced" st) else (o, StMiss, st)
  end.

Definition lookupOrScan (o : scanOutcome) (status : LookupStatus) : list Match :=
  if bool_decide (status = StCanceled) then []
  else match so_err o with
  | Some ErrScanBusy => [scanDegradedMatch degradedBusy]
  | Some ErrScanIncomplete | None => slice_list (so_matches o)
  | Some _ => [scanDegradedMatch degradedError]
  end.

(** ** HTTP *)

(** Headers under their canonical names, in order. *)
Record HttpRequest := mkHttp {
  hr_method : string;
  hr_path : string;
  hr_headers : list (string * string);
  hr_body : string
}.

Definition Values (k : string) (req : HttpRequest) : list string := snd <$> filter (λ kv, kv.1 = k) (hr_headers req).
Definition Header (k : string) (req : HttpRequest) : string := default "" (head (Values k req)).

(** The configuration the handlers read. *)
Record ServerConfig := mkConfig {
  cf_tokens : list string;
  cf_MetricsAuth : bool;
  cf_MaxBody : Z;
  cf_ArchivePW : bool;
  cf_Effort : Z;
  cf_EffortMax : Z;
  cf_EffortAuto : bool;
  cf_MaxInflight : Z;
  cf_Pprof : bool;
  cf_RulesMaxAge : Duration
}.

Definition authRequired (cfg : ServerConfig) : bool := bool_decide (cf_tokens cfg ≠ []).

(** The bytes before the first space, and from it on. *)
Fixpoint trim_spaces (s : string) : string :=
  match s with String c t => if byte c =? 32 then trim_spaces t else s | EmptyString => s end.

Definition bearerToken (value : string) : option string :=
  match cut_byte (ascii_of_Z 32) value with
  | None => None
  | Some (scheme, rest) =>
      if negb (EqualFold scheme "Bearer") then None
      else
        let tok := trim_spaces rest in
        if bool_decide (tok = "") then None
        else if string_forallb (λ c, (32 <? byte c) && (byte c <? 127)) tok then Some tok else None
  end.

Definition presented_token (req : HttpRequest) : option string :=
  match Values "Authorization" req with
  | [] => match Values "X-Mailstrix-Token" req with [legacy] => Some (TrimSpace legacy) | _ => None end
  | [a] => bearerToken a
  | _ => None
  end.

Definition authOK (cfg : ServerConfig) (req : HttpRequest) : bool :=
  match presented_token req with
  | None => false
  | Some presented => existsb (λ tok, bool_decide (presented = tok)) (cf_tokens cfg)
  end.

Definition metricsAuthed (cfg : ServerConfig) (req : HttpRequest) : bool :=
  if negb (cf_MetricsAuth cfg) || negb (authRequired cfg) then true else authOK cfg req.

(** [strconv.Atoi] on a 64-bit platform. *)
Definition effortHeader (req : HttpRequest) : Z * bool :=
  let raw := TrimSpace (Header "X-Mailstrix-Effort" req) in
  if bool_decide (raw = "") then (0, false)
  else match ParseInt raw 64 with None => (0, false) | Some n => (n, true) end.

Definition maxBodyHardLimit : Z := Z.shiftl 1 30.

(** [io.ReadFull] of [n] bytes. *)
Definition ReadFull (n : Z) (body : string) : option string :=
  if n <=? len body then Some (string_take (Z.to_nat n) body) else None.

(** What goes out: nothing, an error object, or a scan response. *)
Inductive Reply :=
  | NoReply
  | ErrorReply (code : Z) (message : string)
  | ScanReply (cache : string) (l : list Match) (degraded : string).

Record ScanAnswers := mkScanAnswers {
  an_free : bool;
  an_race : Race;
  an_done_admit : bool;
  an_done_read : bool;
  an_occupied : Z;
  an_autoEffort : Z;
  an_interference : list Z;
  an_lookup : string → ScanMeta → scanOutcome * LookupStatus
}.

(** The metadata [handleScan] scans with. *)
Definition request_meta (cfg : ServerConfig) (req : HttpRequest) (a : ScanAnswers) (buf : string) : ScanMeta :=
  let meta := scanMetaFromRequest (Header "X-Mailstrix-Filename" req) (Header "X-Mailstrix-Pwcandidates" req) (cf_ArchivePW cfg) in
  let '(hv, hset) := effortHeader req in
  let '(d, _) := autoEnvDefault (cf_EffortAuto cfg) (negb hset) (cf_Effort cfg) (cf_EffortMax cfg) (an_occupied a) (cf_MaxInflight cfg)
                   (an_autoEffort a) (an_interference a) in
  {| meta with sm_Effort := ResolveEffortLevel hv hset d (cf_EffortMax cfg); sm_RawKey := streamDedupKey buf |}.

Definition cache_header (status : LookupStatus) : string :=
  match status with StHit => "hit" | StCoalesced => "coalesced" | _ => "" end.

Definition handleScan (cfg : ServerConfig) (req : HttpRequest) (a : ScanAnswers) (st : ServerState) : Reply * ServerState :=
  if authRequired cfg && negb (authOK cfg req) then (ErrorReply 401 "unauthorized", st)
  else match ParseInt (Header "Content-Length" req) 64 with
  | None => (ErrorReply 400 "bad length", count "errors" st)
  | Some length =>
      if (length <=? 0) || (cf_MaxBody cfg <? length) || (maxBodyHardLimit <? length)
      then (ErrorReply 400 "bad length", count "errors" st)
      else if negb (acquireOn (an_free a) (an_race a)) then
        if an_done_admit a then (NoReply, count "canceled" st) else (ErrorReply 503 "busy", count "busy" st)
      else match ReadFull length (hr_body req) with
      | None => (ErrorReply 400 "read error", count "errors" st)
      | Some buf =>
          if an_done_read a then (NoReply, count "canceled" st)
          else
            let st := count "scans" st in
            let meta := request_meta cfg req a buf in
            let '(o, status) := an_lookup a buf meta in
            let l := lookupOrScan o status in
            (ScanReply (cache_header status) l (degradedReason l), count_if (bool_decide (l ≠ [])) "matches" st)
      end
  end.

(** *** The other routes *)

Inductive Route := RHealth | RReady | RVersion | RMetrics | RScan | RPprof | RNotFound.

Definition route (cfg : ServerConfig) (req : HttpRequest) : Route :=
  let get := bool_decide (hr_method req = "GET") in
  if get && bool_decide (hr_path req = "/health") then RHealth
  else if get && bool_decide (hr_path req = "/ready") then RReady
  else if get && bool_decide (hr_path req = "/version") then RVersion
  else if get && bool_decide (hr_path req = "/metrics") then RMetrics
  else if bool_decide (hr_method req = "POST") && bool_decide (hr_path req = "/scan") then RScan
  else if cf_Pprof cfg && bool_decide (is_Some (strip_prefix "/debug/pprof" (hr_path req))) then RPprof
  else RNotFound.

(** What the routes read of the server and its engine. *)
Record ServerView := mkView {
  vw_rules : Z;
  vw_draining : bool;
  vw_icapDown : bool;
  vw_modUnix : Z;
  vw_nowUnix : Z;
  vw_cacheDegraded : string
}.

Definition healthy (v : ServerView) : bool := 1 <=? vw_rules v.

Definition rulesStale (cfg : ServerConfig) (v : ServerView) : bool :=
  if cf_RulesMaxAge cfg <=? 0 then false
  else if vw_modUnix v <=? 0 then false
  else f64_trunc (f64_Seconds (cf_RulesMaxAge cfg)) <? vw_nowUnix v - vw_modUnix v.

(** A text answer, or the page behind the route. *)
Inductive Page := Text (code : Z) (body : string) | Served.

Definition guarded (cfg : ServerConfig) (req : HttpRequest) : Page :=
  if metricsAuthed cfg req then Served else Text 401 "unauthorized".

Definition ServeHTTP (cfg : ServerConfig) (v : ServerView) (req : HttpRequest) : Page :=
  match route cfg req with
  | RHealth => if healthy v then Text 200 "ok" else Text 503 "no rules"
  | RReady =>
      if vw_rules v <? 1 then Text 503 "no rules"
      else if vw_draining v then Text 503 "draining"
      else if vw_icapDown v then Text 503 "icap listener down"
      else if rulesStale cfg v then Text 200 "ready (stale rules)"
      else if bool_decide (vw_cacheDegraded v ≠ "") then Text 200 ("ready (" +:+ vw_cacheDegraded v +:+ ")")
      else Text 200 "ready"
  | RVersion | RMetrics | RPprof => guarded cfg req
  | RScan => Served
  | RNotFound => Text 404 "not found"
  end.

(** ** The admission scan of the CAPE API: cape_scan.go *)

Record CapeAnswers := mkCape {
  ca_done1 : bool; ca_admit : bool; ca_done2 : bool;
  ca_body : option string;  (* [None]: the read failed *)
  ca_done3 : bool; ca_sem : bool; ca_done4 : bool;
  ca_engine : string → ScanMeta → EngineAnswer;
  ca_done5 : bool
}.

(** [cape.MaxAttachment] *)
Definition MaxAttachment : Z := Z.shiftl 10 20.

Definition cape_meta (cfg : ServerConfig) (body : string) : ScanMeta :=
  {| zeroMeta with sm_Effort := cf_EffortMax cfg; sm_RawKey := streamDedupKey body; sm_requireComplete := true |}.

(** [None] is [ErrCAPEUnavailable]. *)
Definition capeStaticScan (cfg : ServerConfig) (a : CapeAnswers) : option string :=
  if ca_done1 a || negb (ca_admit a) || ca_done2 a then None
  else match ca_body a with
  | None => None
  | Some input =>
      let body := string_take (Z.to_nat (MaxAttachment + 1)) input in
      if (len body =? 0) || (MaxAttachment <? len body) || ca_done3 a then None
      else if negb (ca_sem a) || ca_done4 a then None
      else
        let '(l, err) := dispatchLease (ca_engine a body (cape_meta cfg body)) in
        if bool_decide (err ≠ None) || ca_done5 a then None
        else Some (if hasActionable l then "malicious" else "unknown")
  end.

(** ** Certified verdicts

    [complete key l]: some scan under [key] ended with the matches [l] and no
    error.  [written rk v]: some strixd wrote [v] under the Redis key [rk]. *)
Section Certified.
Context {ROk : RedisEnvOk R}.
Context (complete : string → slice Match → Prop) (pfx mac : string) (written : string → string → Prop).

(** A complete verdict as it is served: as the scan ended, or after a trip
    through the shared cache. *)
Definition served (key : string) (m : slice Match) : Prop := complete key m ∨ ∃ m0, complete key m0 ∧ json_verdict m0 m.

(** What every writer guarantees, and what Redis returns: a value that was
    written, or one that does not open. *)
Definition sealed_verdict (rk v : string) : Prop :=
  ∃ key m b, rk = pfx +:+ key ∧ marshalMatches m = Some b ∧ v = sealRedisValue mac rk b ∧ complete key m.

Definition honest_reply (reply : string → RedisReply) : Prop :=
  ∀ rk v, reply rk = RedisHit v → written rk v ∨ openRedisValue mac rk v = None.

Definition certified_entries (l : list entry) : Prop := ∀ e, e ∈ l → served (e_key e) (e_matches e).

Definition certified_lru (l : lruCache) : Prop := LruInv l ∧ certified_entries (abs l).

Definition certified (st : ServerState) : Prop :=
  ∀ c, sv_cache st = Some c → certified_lru (local c) ∧ ∀ rl, redis c = Some rl → prefix rl = pfx ∧ macKey rl = mac.

Definition get_ok (a : GetAnswer) : Prop :=
  (∀ l, certified_lru l → certified_lru (ga_others a l)) ∧ honest_reply (ga_reply a).

Lemma certified_get l key t : certified_lru l →
  certified_lru (getLocal l key t).2 ∧ ∀ m, (getLocal l key t).1 = Some m → served key m.
Proof.
  intros [Hi Hc]. pose proof (getLocal_spec l key t Hi) as Hg. destruct (getLocal l key t) as [r l'].
  destruct Hg as (Hi'&_&Habs). cbn. unfold spec_get in Habs.
  unfold certified_lru. destruct (find_key key (abs l)) as [e|] eqn:Hf.
  2:{ injection Habs as -> ->. by split. }
  assert (e ∈ abs l ∧ e_key e = key) as [He Hk].
  { unfold find_key in Hf. apply head_Some_elem_of, list_elem_of_filter in Hf. tauto. }
  assert (certified_entries (remove_key key (abs l))) as Hrem by (intros x [Hx _]%remove_key_elem; by apply Hc).
  destruct (Before t (e_expires e)); injection Habs as -> ->.
  - split; [|intros m [= <-]; rewrite <- Hk; by apply Hc]. split; [done|].
    intros x [->|Hx]%elem_of_cons; [by apply Hc|by apply Hrem].
  - by split.
Qed.

Lemma certified_put l key m t : certified_lru l → served key m → ∃ l', putLocal l key m t = Some l' ∧ certified_lru l'.
Proof.
  intros [Hi Hc] Hm. destruct (putLocal_spec l key m t Hi) as (l'&Hp&Hi'&_&Habs). exists l'. split; [done|]. split; [done|].
  rewrite Habs. unfold spec_put. cbv zeta.
  assert (certified_entries (remove_key key (abs l))) as Hrem by (intros x [Hx _]%remove_key_elem; by apply Hc).
  case_match; [done|].
  assert (∀ n b es, certified_entries es → certified_entries (take_fit n b es)) as Htake.
  { clear. induction n as [|n IH]; intros b [|e es] Hes; try (by intros x ?%elem_of_nil). cbn [take_fit].
    case_match; [|by intros x ?%elem_of_nil]. intros x [->|Hx]%elem_of_cons; [apply Hes; left|].
    eapply IH; [|exact Hx]. intros y Hy. apply Hes. by right. }
  apply Htake. intros x [->|Hx]%elem_of_cons; [done|by apply Hrem].
Qed.

Lemma redis_get_config rl key t1 reply t2 :
  let '(_, rl') := redis_get rl key t1 reply t2 in prefix rl' = prefix rl ∧ macKey rl' = macKey rl.
Proof.
  unfold redis_get. destruct (negb _); [done|]. cbv zeta. destruct (reply _); [|done..]. cbv zeta.
  by destruct (openRedisValue _ _ _).
Qed.

(** A value Redis returns and the layer accepts is a certified verdict. *)
Lemma redis_get_certified rl key t1 reply t2 m rl' : prefix rl = pfx → macKey rl = mac →
  (∀ rk v, written rk v → sealed_verdict rk v) → honest_reply reply →
  redis_get rl key t1 reply t2 = (Some m, rl') → served key m.
Proof.
  intros Hp Hm Hw Hh. unfold redis_get. case_match; [done|]. rewrite Hp.
  destruct (reply (pfx +:+ key)) as [v| |] eqn:Hr; [|done..]. cbn [macKey]. rewrite Hm.
  destruct (openRedisValue mac (pfx +:+ key) v) as [b|] eqn:Ho; [|done]. intros [= Hu _].
  destruct (Hh _ _ Hr) as [Hwr|Hn]; [|congruence]. destruct (Hw _ _ Hwr) as (key'&m'&b'&Hk&Hma&Hv&Hc).
  apply string_app_cancel_l in Hk as <-. apply unmarshal_marshal_matches in Hma as (Hne&m2&Hu'&Hj).
  rewrite Hv, open_seal in Ho by done. simplify_eq. right. by exists m'.
Qed.

Lemma cache_get_certified key a st : (∀ rk v, written rk v → sealed_verdict rk v) → certified st → get_ok a →
  ∃ r st', cache_get key a st = Some (r, st') ∧ certified st' ∧ sv_sets st' = sv_sets st
    ∧ ∀ m, r = Some m → served key m.
Proof.
  intros Hw Hc [Ho Hr]. unfold cache_get. destruct (sv_cache st) as [c|] eqn:Hcache; [|by eexists _, _].
  destruct (Hc c Hcache) as [Hl Hcfg]. destruct (certified_get (local c) key (ga_t0 a) Hl) as [Hl' Hm].
  unfold Get. destruct (getLocal (local c) key (ga_t0 a)) as [[m|] l] eqn:Hg; cbn in Hl', Hm.
  { eexists _, _. split; [done|]. split; [|split; [done|]]; [|intros m' [= <-]; auto].
    intros c' [= <-]. by split. }
  destruct (redis c) as [rl|] eqn:Hrl.
  2:{ eexists _, _. split; [done|]. split; [|done]. intros c' [= <-]. by split. }
  destruct (Hcfg _ eq_refl) as [Hp Hk]. pose proof (redis_get_config rl key (ga_t1 a) (ga_reply a) (ga_t2 a)) as Hcf.
  destruct (redis_get rl key (ga_t1 a) (ga_reply a) (ga_t2 a)) as [[m|] rl'] eqn:Hrg; destruct Hcf as [Hp' Hk'].
  - assert (served key m) as Hcm by by eapply redis_get_certified.
    destruct (certified_put (ga_others a l) key m (ga_t3 a)) as (l'&->&Hl''); [by apply Ho|done|]. cbn.
    eexists _, _. split; [done|]. split; [|split; [done|by intros m' [= <-]]]. intros c' [= <-]. split; [done|].
    cbn. intros rl2 [= <-]. split; congruence.
  - cbn. eexists _, _. split; [done|]. split; [|done]. intros c' [= <-]. split; [by apply Ho|]. cbn. intros rl2 [= <-]. split; congruence.
Qed.

Lemma cache_put_certified key m a st : certified st → complete key m →
  ∃ st', cache_put key m a st = Some st' ∧ certified st'
    ∧ ∃ w, sv_sets st' = sv_sets st ++ w ∧ ∀ rk v, (rk, v) ∈ w → sealed_verdict rk v.
Proof.
  intros Hc Hm. unfold cache_put. destruct (sv_cache st) as [c|] eqn:Hcache.
  2:{ exists st. split; [done|]. split; [done|]. exists []. split; [by rewrite app_nil_r|]. by intros rk v ?%elem_of_nil. }
  destruct (Hc c Hcache) as [Hl Hcfg]. unfold Put.
  destruct (certified_put (local c) key m (pa_t0 a) Hl (or_introl Hm)) as (l'&->&Hl'). cbn. destruct (redis c) as [rl|] eqn:Hrl.
  2:{ cbn. eexists. split; [done|]. split.
      - intros c' [= <-]. split; [done|]. cbn. congruence.
      - exists []. split; [done|]. by intros rk v ?%elem_of_nil. }
  destruct (Hcfg _ eq_refl) as [Hp Hk]. destruct (redis_put rl key m (pa_t1 a) (pa_set_ok a) (pa_t2 a)) as [w rl'] eqn:Hput.
  cbn. eexists. split; [done|]. unfold redis_put in Hput. split.
  - intros c' [= <-]. split; [done|]. cbn. intros rl2 [= Hrl2]. subst rl2.
    assert (prefix rl' = prefix rl ∧ macKey rl' = macKey rl) as [-> ->]; [|done].
    destruct (negb _); [by injection Hput as _ <-|]. destruct (marshalMatches m); by injection Hput as _ <-.
  - exists (option_list w). split; [done|]. intros rk v Hin.
    destruct (negb _); [simplify_eq; by apply elem_of_nil in Hin|].
    destruct (marshalMatches m) as [b|] eqn:Hb; simplify_eq; [|by apply elem_of_nil in Hin].
    apply list_elem_of_singleton in Hin. injection Hin as -> ->. rewrite Hp, Hk. by exists key, m, b.
Qed.

(** What the engine promises: [complete] collects its results without an
    error, and an incomplete result says so. *)
Definition engine_ok (key : string) (a : EngineAnswer) : Prop :=
  match dispatchLease a with
  | (l, None) => complete key (full_slice l)
  | (l, Some ErrScanIncomplete) => degradedReason l ≠ ""
  | _ => True
  end.

(** An outcome a request for [key] may get. *)
Definition sound_outcome (key : string) (o : scanOutcome) : Prop :=
  match so_err o with
  | None => served key (so_matches o)
  | Some ErrScanIncomplete => degradedReason (slice_list (so_matches o)) ≠ ""
  | Some _ => True
  end.

Definition leader_ok (key : string) (a : LeaderAnswers) : Prop :=
  get_ok (la_get a) ∧ engine_ok key (la_engine a)
  ∧ ∀ st, certified st → certified (la_meanwhile a st) ∧ sv_sets (la_meanwhile a st) = sv_sets st.

Definition writes_sealed (st st' : ServerState) : Prop :=
  ∃ w, sv_sets st' = sv_sets st ++ w ∧ ∀ rk v, (rk, v) ∈ w → sealed_verdict rk v.

Lemma writes_nothing st st' : sv_sets st' = sv_sets st → writes_sealed st st'.
Proof. intros Hs. exists []. rewrite app_nil_r. split; [done|]. by intros rk v ?%elem_of_nil. Qed.

Lemma certified_count b name st : certified (count_if b name st) ↔ certified st.
Proof. by destruct b. Qed.

Lemma sets_count b name st : sv_sets (count_if b name st) = sv_sets st.
Proof. by destruct b. Qed.

Lemma slice_list_full {A} (l : list A) : slice_list (full_slice l) = l.
Proof. unfold slice_list, full_slice. cbn. apply take_ge. done. Qed.

(** The leader's function ends with a sound outcome, publishes only certified
    verdicts, and abandons its flight only without a verdict. *)
Lemma scan_fn_sound observed key a st : (∀ rk v, written rk v → sealed_verdict rk v) → certified st → leader_ok key a →
  ∃ o ab st', scan_fn observed key a st = Some (o, ab, st') ∧ certified st' ∧ writes_sealed st st'
    ∧ sound_outcome key o ∧ (ab = true → so_err o ≠ None).
Proof.
  intros Hw Hc (Hg&He&Hm). unfold scan_fn.
  destruct (cache_get_certified key (la_get a) st Hw Hc Hg) as (r&st1&->&Hc1&Hs1&Hr). cbn.
  destruct r as [l|].
  { eexists _, _, _. split; [done|]. split; [done|]. split; [by apply writes_nothing|]. split; [by apply Hr|done]. }
  case_match.
  { eexists _, _, _. split; [done|]. split; [by apply certified_count|]. split; [|done].
    apply writes_nothing. by rewrite sets_count. }
  case_match; [eexists _, _, _; split; [done|]; split; [done|]; split; [by apply writes_nothing|done]|].
  unfold engine_ok in He. destruct (dispatchLease (la_engine a)) as [l err].
  destruct (Hm (count "cache_misses" st1) Hc1) as [Hc2 Hs2]. destruct err as [e|].
  - eexists _, _, _. split; [done|]. split; [by apply certified_count|]. split.
    + apply writes_nothing. rewrite sets_count, Hs2. done.
    + split; [|done]. unfold sound_outcome. cbn [so_err so_matches]. destruct e; try done. by rewrite slice_list_full.
  - destruct (cache_put_certified key (full_slice l) (la_put a) (la_meanwhile a (count "cache_misses" st1)))
      as (st3&->&Hc3&w&Hs3&Hwr); [done..|]. cbn.
    eexists _, _, _. split; [done|]. split; [done|]. split; [|split; [by left|done]]. exists w. split; [|done].
    rewrite Hs3, Hs2. cbn. by rewrite Hs1.
Qed.

(** What a request may end with; [done]: its context ended. *)
Definition sound_lookup (key : string) (done : bool) (o : scanOutcome) (status : LookupStatus) : Prop :=
  if bool_decide (status = StCanceled) then done = true else sound_outcome key o.

Lemma lookup_enter_sound done lease_err key a st : (∀ rk v, written rk v → sealed_verdict rk v) → certified st → get_ok a →
  lease_err ≠ Some ErrScanIncomplete →
  ∃ r st', lookup_enter done lease_err key a st = Some (r, st') ∧ certified st'
    ∧ ∀ o status, r = Some (o, status) → sound_lookup key done o status.
Proof.
  intros Hw Hc Hg He. unfold lookup_enter. destruct done.
  { eexists _, _. split; [done|]. split; [done|]. by intros o status [= <- <-]. }
  destruct lease_err as [e|].
  { eexists _, _. split; [done|]. split; [done|]. intros o status [= <- <-]. unfold sound_lookup, sound_outcome. cbn. by destruct e. }
  destruct (cache_get_certified key a st Hw Hc Hg) as (r&st1&->&Hc1&_&Hr). cbn. destruct r as [l|].
  - eexists _, _. split; [done|]. split; [done|]. intros o status [= <- <-]. by apply Hr.
  - eexists _, _. split; [done|]. split; [done|]. done.
Qed.

(** In any execution of the flight group whose functions have sound outcomes,
    every call returns soundly. *)
Lemma lookup_leave_sound g0 g t c r o sh st : initial g0 → runs (λ key o _, sound_outcome key o) g0 g →
  callers g !! t = Some c → th_pc c = Returned r o sh →
  let '(o', status, _) := lookup_leave r o sh st in sound_lookup (th_key c) (th_cancelled c) o' status.
Proof.
  intros Hi Hr Hc Hp. pose proof (returned_outcome _ g0 g t c r o sh Hi Hr Hc Hp) as H.
  unfold lookup_leave, sound_lookup. destruct r; [destruct H as [_ H]| |done]; by destruct sh.
Qed.

(** A served verdict with nothing to act on is a complete one. *)
Lemma served_clean key m : served key m → degradedReason (slice_list m) = "" → Forall (λ m, matchIsLogOnly m = true) (slice_list m) →
  ∃ m0, complete key m0 ∧ degradedReason (slice_list m0) = "" ∧ Forall (λ m, matchIsLogOnly m = true) (slice_list m0).
Proof.
  intros [Hm|(m0&Hm&Hj)] Hd Hl; [by exists m|]. exists m0. split; [done|]. split; [by apply (json_degraded _ _ Hj)|by eapply json_all_log_only].
Qed.

(** A response that is not marked degraded shows a complete verdict. *)
Lemma response_complete key done o status : sound_lookup key done o status → degradedReason (lookupOrScan o status) = "" →
  (status = StCanceled ∧ done = true) ∨ ∃ m, served key m ∧ lookupOrScan o status = slice_list m.
Proof.
  unfold sound_lookup, lookupOrScan, sound_outcome. case_bool_decide; [by left|]. intros Hs Hd. right.
  destruct (so_err o) as [[]|] eqn:He; try (rewrite degradedReason_marker in Hd; done); [done|by eexists].
Qed.

(** *** Requests *)

(** The outcomes the functions of the flight group may return: those of
    [scan_fn] in some certified state. *)
Definition published (key : string) (o : scanOutcome) (ab : bool) : Prop :=
  ∃ observed a st st', certified st ∧ leader_ok key a ∧ scan_fn observed key a st = Some (o, ab, st').

(** What a request for [key] is answered: by the cache or the lease, or by the
    flight group in any execution. *)
Inductive answered (key : string) (done : bool) : scanOutcome → LookupStatus → Prop :=
  | answered_early lease_err a st o status st' :
      certified st → get_ok a → lease_err ≠ Some ErrScanIncomplete →
      lookup_enter done lease_err key a st = Some (Some (o, status), st') → answered key done o status
  | answered_flight g0 g t c r o sh st o' status st' :
      initial g0 → runs published g0 g → callers g !! t = Some c → th_pc c = Returned r o sh →
      th_key c = key → th_cancelled c = done → lookup_leave r o sh st = (o', status, st') → answered key done o' status.

Lemma runs_mono (P Q : string → scanOutcome → bool → Prop) g0 g :
  (∀ k o ab, P k o ab → Q k o ab) → runs P g0 g → runs Q g0 g.
Proof.
  intros HPQ. apply rtc_subrel. intros g1 g2 (a&Ha&Hs). exists a. split; [|done].
  destruct a; try done. intros c Hc. by apply HPQ, Ha.
Qed.

Lemma answered_sound key done o status : (∀ rk v, written rk v → sealed_verdict rk v) →
  answered key done o status → sound_lookup key done o status.
Proof.
  intros Hw H. destruct H as [lease_err a st o status st' Hc Hg He Hl|g0 g t c r o sh st o' status st' Hi Hr Hc Hp <- <- Hl].
  - destruct (lookup_enter_sound done lease_err key a st) as (r&st2&Hl'&_&H); [done..|]. rewrite Hl in Hl'. simplify_eq. by apply H.
  - pose proof (lookup_leave_sound g0 g t c r o sh st Hi) as H. rewrite Hl in H. apply H; [|done..].
    eapply runs_mono; [|exact Hr]. intros k o1 ab (obs&a&st1&st2&Hc1&Ha&Hs).
    destruct (scan_fn_sound obs k a st1) as (o2&ab2&st3&Hs'&_&_&Ho&_); [done..|]. rewrite Hs in Hs'. by simplify_eq.
Qed.

(** C12: A request never fabricates or loses a verdict: whatever the callers,
    cancellations, panics, cache hits and Redis values, the leader's function
    always returns; every verdict it keeps in the cache or returns without an
    error is the complete result of a scan under that key, as the scan ended or
    as [encoding/json] renders it on its way through Redis; every value it
    writes to Redis is such a result as the scan ended, sealed; and it abandons
    its flight only without a verdict. *)
Theorem scan_fn_certifies observed key a st : (∀ rk v, written rk v → sealed_verdict rk v) → certified st → leader_ok key a →
  ∃ o ab st', scan_fn observed key a st = Some (o, ab, st') ∧ certified st' ∧ writes_sealed st st'
    ∧ sound_outcome key o ∧ (ab = true → so_err o ≠ None).
Proof. apply scan_fn_sound. Qed.

(** Interface to [encoding/json] on the scan response: what a client decodes
    has the matches in order with their log-only flags, and is marked degraded
    exactly when the response is. *)
Class WireOk (marshal : list Match → string → string) (decodeResponse : string → option Response) : Prop :=
  wire l d : ∃ l' d', decodeResponse (marshal l d) = Some (mkResponse (Some l') d') ∧ (d' = "" ↔ d = "")
    ∧ Forall2 (λ m m', isLogOnly m' = matchIsLogOnly m) l l'.

Lemma log_only_wire l l' : Forall2 (λ m m', isLogOnly m' = matchIsLogOnly m) l l' → Actionable l' = [] →
  Forall (λ m, matchIsLogOnly m = true) l.
Proof. rewrite Actionable_filter, actionable_nil. intros Hl. induction Hl; intros Ha; inversion Ha; constructor; [congruence|auto]. Qed.

(** Fail closed: when a client of /scan reports a result with nothing to act
    on, a scan under that request's key ended complete, without an error,
    without a degraded mark and with log-only matches at most, unless the
    request's own context had ended. *)
Lemma clean_is_complete marshal decodeResponse `{!WireOk marshal decodeResponse} cfg req a st ch l d st' fp done
    url_ok cl exchange name buf l' :
  (∀ rk v, written rk v → sealed_verdict rk v) →
  (∀ n b, ParseInt (Header "Content-Length" req) 64 = Some n → ReadFull n (hr_body req) = Some b →
    let meta := request_meta cfg req a b in answered (verdict_key fp "" meta) done (an_lookup a b meta).1 (an_lookup a b meta).2) →
  handleScan cfg req a st = (ScanReply ch l d, st') →
  exchange (scan_request cl name buf) = Responded 200 (marshal l d) false →
  Scan url_ok decodeResponse cl exchange name buf = (l', None) → Actionable l' = [] →
  (∃ n b m, ParseInt (Header "Content-Length" req) 64 = Some n ∧ ReadFull n (hr_body req) = Some b
    ∧ complete (verdict_key fp "" (request_meta cfg req a b)) m
    ∧ degradedReason (slice_list m) = "" ∧ Forall (λ m, matchIsLogOnly m = true) (slice_list m))
  ∨ done = true.
Proof.
  intros Hw Ha Hh Hx Hs Hact. apply Scan_accepts in Hs as (_&body&d'&_&_&Hb&Hdec&Hd). rewrite Hx in Hb. simplify_eq.
  destruct (wire l d) as (l2&d2&Hdec2&Hd2&Hl2). rewrite Hdec in Hdec2. simplify_eq.
  destruct Hd as [->|]; [|done]. assert (d = "") as -> by by apply Hd2.
  unfold handleScan in Hh. case_match; [done|]. destruct (ParseInt _ _) as [n|]; [|done]. case_match; [done|].
  case_match; [by case_match|]. destruct (ReadFull _ _) as [b|] eqn:Hread; [|done]. case_match; [done|]. cbv zeta in Hh.
  specialize (Ha n b eq_refl Hread). cbv zeta in Ha. destruct (an_lookup a b _) as [o status]. cbn in Ha.
  injection Hh as _ <- Hdeg _. destruct (response_complete _ done o status (answered_sound _ done o status Hw Ha) Hdeg) as [[_ ?]|(m&Hm&Hl)]; [by right|].
  left. rewrite Hl in *. destruct (served_clean _ m Hm Hdeg) as (m0&?&?&?); [by eapply log_only_wire|]. by exists n, b, m0.
Qed.

End Certified.

(** ** The guards of /scan *)

Lemma request_meta_bounds cfg req a buf : 1 <= cf_EffortMax cfg →
  1 <= sm_Effort (request_meta cfg req a buf) <= cf_EffortMax cfg ∧ sm_RawKey (request_meta cfg req a buf) = streamDedupKey buf.
Proof.
  intros Hm. unfold request_meta. destruct (effortHeader req) as [hv hset].
  destruct (autoEnvDefault _ _ _ _ _ _ _ _) as [de ?]. cbn. split; [|done].
  unfold ResolveEffortLevel. repeat case_match; bool_hyps; lia.
Qed.

(** C14: A scan happens only behind its guards: a configured token must be
    presented, the declared length is positive and within both limits, exactly
    that many bytes were read, and the effort is clamped to [1, EffortMax];
    without the token the answer is 401 and nothing else changes. *)
Theorem handleScan_guards cfg req a st : 1 <= cf_EffortMax cfg →
  (authRequired cfg = true → authOK cfg req = false → handleScan cfg req a st = (ErrorReply 401 "unauthorized", st))
  ∧ ∀ ch l d st', handleScan cfg req a st = (ScanReply ch l d, st') →
    (authRequired cfg = true → ∃ tok, tok ∈ cf_tokens cfg ∧ presented_token req = Some tok)
    ∧ ∃ n buf, ParseInt (Header "Content-Length" req) 64 = Some n ∧ 0 < n <= Z.min (cf_MaxBody cfg) maxBodyHardLimit
      ∧ buf = string_take (Z.to_nat n) (hr_body req) ∧ len buf = n
      ∧ let meta := request_meta cfg req a buf in
        1 <= sm_Effort meta <= cf_EffortMax cfg ∧ sm_RawKey meta = streamDedupKey buf
        ∧ l = lookupOrScan (an_lookup a buf meta).1 (an_lookup a buf meta).2 ∧ d = degradedReason l.
Proof.
  intros Hm. split; [intros H1 H2; unfold handleScan; by rewrite H1, H2|]. intros ch l d st'. unfold handleScan.
  destruct (authRequired cfg && negb (authOK cfg req)) eqn:Hauth; [done|].
  destruct (ParseInt _ _) as [n|] eqn:Hn; [|done]. destruct (_ || _) eqn:Hb; [done|]. bool_hyps.
  case_match; [by case_match|]. unfold ReadFull. destruct (n <=? len (hr_body req)) eqn:Hlen; [|done]. case_match; [done|].
  cbv zeta. set (buf := string_take _ _). pose proof (request_meta_bounds cfg req a buf Hm) as Heffort.
  set (meta := request_meta cfg req a buf) in *. destruct (an_lookup a buf meta) as [o status] eqn:Hlook. intros [= <- <- <- _]. split.
  - intros Hr. rewrite Hr in Hauth. cbn in Hauth. apply negb_false_iff in Hauth. unfold authOK in Hauth.
    destruct (presented_token req) as [tok|]; [|done]. apply existsb_exists in Hauth as (tok'&Hin&He).
    apply bool_decide_eq_true in He as ->. exists tok'. by rewrite list_elem_of_In.
  - exists n, buf. fold meta. rewrite Hlook. cbn. apply Z.leb_le in Hlen. split_and!; [done|lia|lia|done| | | | |done..].
    + unfold buf. rewrite string_take_len. lia.
    + apply Heffort.
    + apply Heffort.
    + apply Heffort.
Qed.

(** The CAPE API's admission scan answers only for a body of 1 to 10 MiB
    that was scanned to the end without any error, and says malicious exactly
    when a match is actionable; anything else is an error. *)
Theorem capeStaticScan_iff cfg a v : capeStaticScan cfg a = Some v ↔
  (ca_done1 a || ca_done2 a || ca_done3 a || ca_done4 a || ca_done5 a) = false ∧ ca_admit a = true ∧ ca_sem a = true
  ∧ ∃ body l, ca_body a = Some body ∧ 1 <= len body <= MaxAttachment
    ∧ dispatchLease (ca_engine a body (cape_meta cfg body)) = (l, None)
    ∧ v = if hasActionable l then "malicious" else "unknown".
Proof.
  assert (0 <= MaxAttachment) as Hpos by done. unfold capeStaticScan.
  assert (∀ body, len body <= MaxAttachment → string_take (Z.to_nat (MaxAttachment + 1)) body = body) as Htake.
  { intros body Hl. apply string_take_all_len. rewrite Z2Nat.id by lia. lia. }
  assert (∀ body, len (string_take (Z.to_nat (MaxAttachment + 1)) body) = Z.min (MaxAttachment + 1) (len body)) as Hlen.
  { intros body. rewrite string_take_len, Z2Nat.id by lia. done. }
  set (tk := string_take (Z.to_nat (MaxAttachment + 1))) in *. clearbody tk. generalize dependent MaxAttachment.
  intros M Hpos Htake Hlen.
  destruct (ca_done1 a), (ca_admit a), (ca_done2 a); cbn [orb negb]; try (split; [done|naive_solver]).
  destruct (ca_body a) as [input|]; [|split; [done|naive_solver]]. cbv zeta. pose proof (Hlen input) as Hl.
  pose proof (len_nonneg input). destruct ((len (tk input) =? 0) || (M <? len (tk input))) eqn:Hb.
  { split; [done|]. intros (_&_&_&b&l&[= ->]&Hlb&_). rewrite Hl in Hb. lia. }
  apply orb_false_iff in Hb as [Hb1 Hb2]. apply Z.eqb_neq in Hb1. apply Z.ltb_ge in Hb2. cbn [orb].
  rewrite Htake in * by lia.
  destruct (ca_done3 a); cbn [orb]; [split; [done|naive_solver]|].
  destruct (ca_sem a), (ca_done4 a); cbn [orb negb]; try (split; [done|naive_solver]).
  destruct (dispatchLease (ca_engine a input (cape_meta cfg input))) as [l err] eqn:He. split.
  - destruct err as [e|], (ca_done5 a); cbn; [done..|]. intros [= <-]. split_and!; [done..|].
    exists input, l. split_and!; [done|lia|lia|done|done].
  - intros (Hd5&_&_&b&l'&Hb&_&Hd&->). injection Hb as <-. rewrite He in Hd. injection Hd as -> ->. cbn.
    by destruct (ca_done5 a).
Qed.

(** ** Keys do not alias *)
Section Keys.
Context {TOk : TextEnvOk T}.

Definition no_colon (s : string) : bool := string_forallb (λ c, negb (byte c =? 58)) s.

Lemma colon_split a b s t : no_colon a = true → no_colon b = true → a +:+ ":" +:+ s = b +:+ ":" +:+ t → a = b ∧ s = t.
Proof.
  set (cl := ascii_of_Z 58). change (":" +:+ s) with (String cl s). change (":" +:+ t) with (String cl t).
  revert b. induction a as [|c a IH]; intros [|d b] Ha Hb He.
  - change (String cl s = String cl t) in He. by injection He.
  - change (String cl s = String d (b +:+ String cl t)) in He. injection He as <- _. by apply andb_true_iff in Hb as [Hb _].
  - change (String c (a +:+ String cl s) = String cl t) in He. injection He as -> _. by apply andb_true_iff in Ha as [Ha _].
  - change (String c (a +:+ String cl s) = String d (b +:+ String cl t)) in He.
    apply andb_true_iff in Ha as [_ Ha], Hb as [_ Hb]. injection He as -> He. by destruct (IH b Ha Hb He) as [-> ->].
Qed.

(** The partition of an ICAP request; HTTP requests leave it empty. *)
Definition icap_partition (meta : ScanMeta) : string := "icap" +:+ nul +:+ cacheKey meta.

Definition partition_ok (p : string) (meta : ScanMeta) : Prop := p = "" ∨ p = icap_partition meta.

Record key_parts := mkParts { kp_version : string; kp_rules : string; kp_content : string; kp_deny : string; kp_policy : string }.

Definition parts_ok (k : key_parts) : Prop :=
  no_colon (kp_version k) = true ∧ no_colon (kp_rules k) = true ∧ no_colon (kp_content k) = true
  ∧ no_colon (kp_deny k) = true ∧ no_colon (kp_policy k) = true.

Definition full_key (k : key_parts) (p : string) (meta : ScanMeta) : string :=
  verdict_key (fingerprintLocked (kp_version k) (kp_rules k) (kp_content k) (kp_deny k) (kp_policy k)) p meta.

Lemma string_app_inv_len (a b s t : string) : len s = len t → a +:+ s = b +:+ t → a = b ∧ s = t.
Proof.
  revert b. induction a as [|c a IH]; intros [|d b] Hl He; [done|..].
  - change (s = String d (b +:+ t)) in He. rewrite He, string_length_S, string_app_len in Hl. pose proof (len_nonneg b). lia.
  - change (String c (a +:+ s) = t) in He. rewrite <- He, string_length_S, string_app_len in Hl. pose proof (len_nonneg a). lia.
  - change (String c (a +:+ s) = String d (b +:+ t)) in He. injection He as -> He. by destruct (IH b Hl He) as [-> ->].
Qed.

(** Equal keys have equal parts. *)
Lemma full_key_inj k k' p p' m m' :
  parts_ok k → parts_ok k' → meta_ok m → meta_ok m' → partition_ok p m → partition_ok p' m' →
  len (sm_RawKey m) = 16 → len (sm_RawKey m') = 16 →
  full_key k p m = full_key k' p' m' →
  k = k' ∧ same_meta m m' ∧ sm_RawKey m = sm_RawKey m' ∧ (p = "" ↔ p' = "").
Proof.
  intros (?&?&?&?&?) (?&?&?&?&?) Hm Hm' Hp Hp' Hr Hr' He. unfold full_key, verdict_key, fingerprintLocked in He. cbv zeta in He.
  rewrite <- !string_app_assoc in He.
  apply colon_split in He as [E1 He]; [|done..]. apply colon_split in He as [E2 He]; [|done..].
  apply colon_split in He as [E3 He]; [|done..]. apply colon_split in He as [E4 He]; [|done..].
  apply colon_split in He as [E5 He]; [|done..].
  apply string_app_inv_len in He as [Hpart Hraw]; [|rewrite !string_app_len; lia].
  apply string_app_inv_len in Hraw as [_ Hraw]; [|lia].
  split; [destruct k, k'; cbn in *; congruence|].
  destruct Hp as [->| ->], Hp' as [->| ->]; cbn [bool_decide] in Hpart;
    rewrite ?(bool_decide_eq_true_2 (_ = _)) in Hpart by done;
    rewrite ?(bool_decide_eq_false_2 (_ = _)) in Hpart by done.
  - split_and!; [by apply cacheKey_inj|done|done].
  - exfalso. by apply (icap_cacheKey m' m).
  - exfalso. by apply (icap_cacheKey m m').
  - split_and!; [|done|done]. apply cacheKey_inj; [done..|]. unfold icap_partition in Hpart.
    by apply nul_split in Hpart as [_ Hpart].
Qed.

(** C13: Two requests share a verdict only if they ask the same question: equal
    keys mean the same extractor version, rules, rule sources, deny list and
    scoring policy, the same body hash, file name, extension, type, effort and
    password hash, and both over ICAP or both over HTTP. *)
Theorem verdict_key_separates k k' p p' m m' :
  parts_ok k → parts_ok k' → meta_ok m → meta_ok m' → partition_ok p m → partition_ok p' m' →
  len (sm_RawKey m) = 16 → len (sm_RawKey m') = 16 →
  full_key k p m = full_key k' p' m' →
  k = k' ∧ same_meta m m' ∧ sm_RawKey m = sm_RawKey m' ∧ (p = "" ↔ p' = "").
Proof. apply full_key_inj. Qed.

End Keys.
End Server.
