(* ===== verification/ClientServer.v ===== *)
(** * A request of the scan client at the server

    client.go sends an attachment and its name; server.go reads both back from
    the request that [net/http] delivers. *)

From Stdlib Require Import ZArith Lia.
From Stdlib Require Ascii String.
From stdpp Require Import base gmap strings list numbers.
From S2P Require Import Prelude GoStd GoText Base64 VerdictCache Effort Flight ScanVerdict ClientVerdict ScanServer.

Local Open Scope Z_scope.

(** What [net/http] makes of a request on its way to the handler: the body as
    it is, its length, and of the headers of the [X-] family exactly those
    sent, under their canonical names and with the blanks around their values
    removed. (Other headers it may add or change.) *)
Record Delivered (rq : Request) (req : HttpRequest) : Prop := {
  dl_body : hr_body req = rq_body rq;
  dl_length : ParseInt (Header "Content-Length" req) 64 = Some (len (rq_body rq));
  dl_values : ∀ k, String.prefix "X-" k = true →
    Values k req = (λ kv, TrimString kv.2) <$> filter (λ kv, CanonicalMIMEHeaderKey kv.1 = k) (rq_headers rq)
}.

Lemma b64_visible c : b64_alphabet c = true → visible c = true.
Proof. destruct c as [[] [] [] [] [] [] [] []]; vm_compute; done. Qed.

Lemma TrimString_encoded s : TrimString (EncodeToString s) = EncodeToString s.
Proof. apply TrimString_visible, (string_forallb_impl b64_alphabet); [apply b64_visible|apply encode_alphabet]. Qed.

Lemma EncodeToString_empty s : EncodeToString s = "" → s = "".
Proof.
  intros He. pose proof (decode_filename s) as H. rewrite He in H. by vm_compute in H; simplify_eq.
Qed.

Section Delivered.
Context (c : Client) (name buf : string) (req : HttpRequest) (Hreq : Delivered (scan_request c name buf) req).

Lemma delivered_filename : Header "X-Mailstrix-Filename" req = if bool_decide (name ≠ "") then EncodeToString name else "".
Proof.
  unfold Header. rewrite (dl_values _ _ Hreq) by done. cbn [scan_request rq_headers].
  rewrite !list.filter_app, !filter_cons_False by (vm_compute; congruence).
  destruct (bool_decide (cl_token c ≠ "")), (bool_decide (name ≠ ""));
    rewrite ?filter_nil; try (rewrite filter_cons_False by (vm_compute; congruence)); rewrite ?filter_nil;
    try (rewrite filter_cons_True by reflexivity); rewrite ?filter_nil; cbn [app fmap list_fmap head default snd]; by rewrite ?TrimString_encoded.
Qed.

Lemma delivered_nothing k : String.prefix "X-" k = true → k ≠ "X-Mailstrix-Filename" → k ≠ "X-Mailstrix-Token" → Header k req = "".
Proof.
  intros Hk Hf Ht. unfold Header. rewrite (dl_values _ _ Hreq) by done.
  match goal with |- context [filter ?P ?l] => enough (filter P l = []) as ->; [done|] end.
  apply elem_of_nil_inv. intros kv [Hc Hkv]%list_elem_of_filter. revert Hc. cbn [scan_request rq_headers] in Hkv.
  rewrite !elem_of_app, !elem_of_cons, elem_of_nil in Hkv.
  assert (kv ∈ [("X-MAILSTRIX-Token", cl_token c); ("X-MAILSTRIX-Filename", EncodeToString name)] → CanonicalMIMEHeaderKey kv.1 ≠ k) as Hx.
  { intros [->|[->|[]%elem_of_nil]%elem_of_cons]%elem_of_cons; vm_compute in Hf, Ht |- *; congruence. }
  destruct Hkv as [[->|[->|[->|[]]]]|[Hkv|Hkv]]; try (intros <-; by vm_compute in Hk);
    apply Hx; case_bool_decide; set_solver.
Qed.

End Delivered.

Section Meta.
Context {T : TextEnv}.

(** The metadata of an attachment [name] with the content [buf]. *)
Definition named_meta (name buf : string) (effort : Z) : ScanMeta :=
  let meta := NewScanMeta name in {| meta with sm_Effort := effort; sm_RawKey := streamDedupKey buf |}.

Lemma NewScanMeta_fields name : sm_PWCandidates (NewScanMeta name) = [] ∧ sm_requireComplete (NewScanMeta name) = false.
Proof. unfold NewScanMeta. by case_bool_decide. Qed.

(** No byte of a file name is a control character, and there are at most 255. *)
Definition printable (c : Ascii.ascii) : bool := negb ((byte c <? 32) || (byte c =? 127)).

Lemma NewScanMeta_printable name : string_forallb printable (sm_Filename (NewScanMeta name)) = true ∧ len (sm_Filename (NewScanMeta name)) <= 255.
Proof.
  unfold NewScanMeta. set (n := TrimSpace _). assert (string_forallb printable n = true) as Hn.
  { apply TrimSpace_all, string_map_all. intros r r'. unfold drop_control. destruct ((r <? 32) || (r =? 127)) eqn:Hr; [done|]. intros [= <-].
    apply encode_rune_all; [intros Hr'|intros b Hb]; unfold printable; rewrite byte_ascii_of_Z by lia; [by rewrite Hr|]. apply negb_true_iff. lia. }
  case_bool_decide; [done|]. cbn. destruct (Z.ltb_spec maxFilenameLen (len n)) as [Hl|Hl].
  - split; [by apply string_take_all|]. rewrite string_take_len. unfold maxFilenameLen in *. lia.
  - by split.
Qed.

(** A name without separators, blanks or bytes outside ASCII is kept as it is. *)
Definition plain (c : Ascii.ascii) : bool := visible c && negb (byte c =? 47) && negb (byte c =? 92).

Lemma cut_last_none c s : string_forallb (λ a, negb (Ascii.eqb a c)) s = true → cut_last c s = None.
Proof. induction s as [|a s IH]; [done|]. intros [Ha%negb_true_iff Hs]%andb_true_iff. cbn [cut_last]. by rewrite IH, Ha. Qed.

Lemma NewScanMeta_plain name : string_forallb plain name = true → len name <= 255 → sm_Filename (NewScanMeta name) = name.
Proof.
  intros Hp Hl. assert (basename name = name) as Hb.
  { assert (∀ b, b = 47 ∨ b = 92 → cut_last (ascii_of_Z b) name = None) as Hcut.
    { intros b Hb. apply cut_last_none. eapply string_forallb_impl; [|exact Hp].
      destruct Hb as [-> | ->]; intros c; destruct c as [[] [] [] [] [] [] [] []]; by vm_compute. }
    unfold basename. by rewrite !Hcut by auto. }
  assert (string_map drop_control name = name) as Hm.
  { apply (string_map_id plain).
    - intros r Hr. unfold drop_control, plain, visible. rewrite byte_ascii_of_Z by lia. destruct (r <? 32) eqn:H1; [right; lia|].
      destruct (r =? 127) eqn:H2; [right; lia|by left].
    - eapply string_forallb_impl; [|exact Hp]. intros c Hc. rewrite Hc, andb_true_r. revert Hc. destruct c as [[] [] [] [] [] [] [] []]; by vm_compute. }
  unfold NewScanMeta. rewrite Hb, Hm, TrimSpace_visible by (eapply string_forallb_impl; [|exact Hp]; intros c Hc; unfold plain in Hc; by bool_hyps).
  rewrite (proj2 (Z.ltb_ge _ _)) by done. case_bool_decide as Hn; [by rewrite Hn|done].
Qed.

Lemma request_meta_named cfg c name buf req a : Delivered (scan_request c name buf) req →
  request_meta cfg req a buf = named_meta name buf (sm_Effort (request_meta cfg req a buf)).
Proof.
  intros Hreq. unfold request_meta. rewrite (delivered_filename _ _ _ _ Hreq), (delivered_nothing _ _ _ _ Hreq "X-Mailstrix-Pwcandidates") by done.
  destruct (effortHeader req) as [hv hset]. destruct (autoEnvDefault _ _ _ _ _ _ _ _) as [de ?]. cbn [sm_Effort].
  assert (scanMetaFromRequest (if bool_decide (name ≠ "") then EncodeToString name else "") "" (cf_ArchivePW cfg) = NewScanMeta name) as ->; [|done].
  unfold scanMetaFromRequest. destruct (decide (name = "")) as [->|Hn].
  { rewrite !bool_decide_eq_false_2 by (intros Hf; by apply Hf). cbn zeta. destruct (NewScanMeta_fields "") as [H _].
    change (NewScanMeta "") with zeroMeta in *. by destruct (cf_ArchivePW cfg). }
  rewrite (bool_decide_eq_true_2 (name ≠ "")) by done. rewrite bool_decide_eq_true_2 by (intros ?%EncodeToString_empty; done).
  rewrite decode_filename. cbn zeta.
  destruct (cf_ArchivePW cfg); [|done]. destruct (NewScanMeta_fields name) as [H _]. by destruct (NewScanMeta name); cbn in *; subst.
Qed.

(** C16: An attachment and its name survive the way from the client to the
    engine: whatever the bytes of the name, when the server answers the
    delivered request of [Client.Scan] with a scan, that scan was of exactly
    the bytes the client sent, under the metadata that [NewScanMeta] makes of
    exactly that name (none when there is no name), the body's own hash and no
    password candidates, and its verdict is the answer. The file name the rules
    see has no control character and at most 255 bytes, and is the sender's name
    itself when that has up to 255 visible ASCII characters and no path
    separator. *)
Theorem filename_roundtrip cfg c name buf req a st ch l d st' :
  Delivered (scan_request c name buf) req → handleScan cfg req a st = (ScanReply ch l d, st') →
  (∃ effort, request_meta cfg req a buf = named_meta name buf effort
    ∧ l = lookupOrScan (an_lookup a buf (named_meta name buf effort)).1 (an_lookup a buf (named_meta name buf effort)).2
    ∧ d = degradedReason l)
  ∧ string_forallb printable (sm_Filename (request_meta cfg req a buf)) = true ∧ len (sm_Filename (request_meta cfg req a buf)) <= 255
  ∧ (string_forallb plain name = true → len name <= 255 → sm_Filename (request_meta cfg req a buf) = name).
Proof.
  intros Hreq. unfold handleScan. rewrite (dl_length _ _ Hreq), (dl_body _ _ Hreq). cbn [scan_request rq_body].
  case_match; [done|]. case_match; [done|]. case_match; [by case_match|].
  assert (ReadFull (len buf) buf = Some buf) as ->.
  { unfold ReadFull. rewrite Z.leb_refl. f_equal. pose proof (string_take_app buf "") as Ht. rewrite string_app_nil_r in Ht.
    unfold len. by rewrite Nat2Z.id. }
  case_match; [done|]. cbv zeta. pose proof (request_meta_named cfg c name buf req a Hreq) as Hm.
  intros Hscan. split; [|rewrite Hm; split_and!; [apply NewScanMeta_printable..|apply NewScanMeta_plain]].
  exists (sm_Effort (request_meta cfg req a buf)). rewrite <- Hm. revert Hscan.
  destruct (an_lookup a buf (request_meta cfg req a buf)) as [o status]. intros [= <- <- <- _]. by split_and!.
Qed.

End Meta.
