(* ===== verification/ScanSystem.v ===== *)
(** * The scan service end to end

    The engine of the server (ScanServer) is the scan of ScanFlow: what a
    client of /scan may conclude from an answer with nothing to act on. *)

From Stdlib Require Import ZArith Lia.
From Stdlib Require Ascii String.
From stdpp Require Import base gmap strings list numbers.
From S2P Require Import Prelude GoStd GoText VerdictCache Effort Flight ScanVerdict ClientVerdict ScanFlow ScanServer.

Local Open Scope Z_scope.

Section System.
Context {T : TextEnv} {TOk : TextEnvOk T} {E : ScanEnv} {R : RedisEnv}.

(** [Scanner.acquireScanLease]: a closed scanner refuses, any other pins its
    generation and scans with it. *)
Definition acquireScanLease (closed : bool) (s : Scanner) (g : scannerGeneration) (buf : string) (meta : ScanMeta)
    : W (list Match * option scanError) :=
  if closed then mret ([], Some ErrScannerClosed) else scanGeneration s buf meta g.

(** What a request asks of the rules that [k] identifies: its body, under the
    metadata that carry the body's hash. *)
Record asks (k : key_parts) (p : string) (meta : ScanMeta) (buf : string) : Prop := {
  asks_parts : parts_ok k;
  asks_meta : meta_ok meta;
  asks_partition : partition_ok p meta;
  asks_raw : sm_RawKey meta = streamDedupKey buf;
  asks_partial : sm_requireComplete meta = false
}.

(** What the loads and reloads of the process published: [loaded k s g] when
    the scanner [s] showed the fingerprint parts [k] together with the
    generation [g] under [generationMu], where a lease reads both. *)
Context (loaded : key_parts → Scanner → scannerGeneration → Prop).

(** A verdict some scan ended with, without an error, under [key], with the
    rules the key identifies. *)
Definition scanned (key : string) (m : slice Match) : Prop :=
  ∃ k p s buf meta g w w', loaded k s g ∧ asks k p meta buf ∧ key = full_key k p meta
    ∧ scanGeneration s buf meta g w = ((slice_list m, None), w').

(** What the lease's scan answers to a request for [key]. *)
Definition engine_scans (key : string) (a : EngineAnswer) : Prop :=
  (∃ m, a = EnginePanics m)
  ∨ ∃ k p s buf meta g w closed, loaded k s g ∧ asks k p meta buf ∧ key = full_key k p meta
    ∧ a = EngineReturns (acquireScanLease closed s g buf meta w).1.1 (acquireScanLease closed s g buf meta w).1.2.

(** A real engine keeps the promise the server relies on. *)
Lemma engine_scans_ok key a : engine_scans key a → engine_ok scanned key a.
Proof.
  intros [[m ->]|(k&p&s&buf&meta&g&w&closed&Hg&Hk&->&->)]; [done|]. unfold acquireScanLease, engine_ok, dispatchLease.
  destruct closed; [done|].
  destruct (scanGeneration s buf meta g w) as [[l err] w'] eqn:Hs. cbn [fst snd]. destruct err as [e|].
  - destruct e; try done. by eapply scan_says_incomplete; [apply Hk|].
  - exists k, p, s, buf, meta, g, w, w'. by rewrite slice_list_full.
Qed.

(** The rules [c] matched outside the marker channel are denied, or reported
    in [l] with nothing to act on. *)
Definition nothing_found (deny : option (gset string)) (l : list Match) (c : NativeCall) : Prop :=
  ∃ ms, nc_result c = inl ms ∧ ∀ m, m ∈ ms → matchIsMarker m = false →
    denied deny m ∨ ∃ m', m' ∈ l ∧ matchKey m' = matchKey m ∧ matchIsLogOnly m' = true.

Lemma reported_nothing deny l c : Forall (λ m, matchIsLogOnly m = true) l → reported deny l false c → nothing_found deny l c.
Proof.
  intros Hl (ms&Hms&H). exists ms. split; [done|]. intros m Hm Hmk. destruct (H m Hm Hmk) as [?|Hin]; [by left|]. right.
  apply list_elem_of_fmap in Hin as (m'&Hk&Hin). exists m'. split; [done|]. split; [done|]. exact (proj1 (list.Forall_forall _ _) Hl m' Hin).
Qed.

(** A scan behind a clean answer: with a scanner and rules that showed the
    fingerprint [k], [scanGeneration] ran on a body with the hash of [body]
    under metadata like [meta] and ended without an error with the matches
    [lv]; its extraction neither panicked nor hit a cap; and libyara, asked by
    this very run ([made]), found nothing to act on in the raw bytes, whose scan
    may have failed next to log-only matches, nor in any extracted stream. *)
Definition scan_behind (k : key_parts) (lv : list Match) (meta : ScanMeta) (body : string) : Prop :=
  ∃ s b meta' g w w' res, loaded k s g ∧ streamDedupKey b = streamDedupKey body ∧ same_meta meta meta'
    ∧ scanGeneration s b meta' g w = ((lv, None), w') ∧ extraction_of s b meta' w w' res
    ∧ Panicked res = false ∧ RetainedTruncated res = false ∧ CapHits res = []
    ∧ (∃ c, made (length (calls w)) w' c ∧ nc_buf c = b ∧ (nothing_found (g_deny g) lv c ∨ (∃ e, nc_result c = inr e) ∧ lv ≠ []))
    ∧ ∀ st, st ∈ Streams res → streamDedupKey st = streamDedupKey body
        ∨ ∃ c, made (length (calls w)) w' c ∧ streamDedupKey (nc_buf c) = streamDedupKey st ∧ nothing_found (g_deny g) lv c.

Definition clean_scan (k : key_parts) (meta : ScanMeta) (body : string) : Prop :=
  ∃ lv, degradedReason lv = "" ∧ Forall (λ m, matchIsLogOnly m = true) lv ∧ scan_behind k lv meta body.

(** A verdict under a request's own key is a scan of the request's own body. *)
Lemma scanned_behind k p meta body m : asks k p meta body → scanned (full_key k p meta) m →
  Forall (λ m, matchIsLogOnly m = true) (slice_list m) → scan_behind k (slice_list m) meta body.
Proof.
  intros [Hk Hm Hp Hr _] (k'&p'&s&b&meta'&g&w&w'&Hg&[Hk' Hm' Hp' Hr' _]&He&Hscan) Hl.
  apply full_key_inj in He as (<-&Hsame&Hraw&_); [|done..|by rewrite Hr, streamDedupKey_len|by rewrite Hr', streamDedupKey_len].
  assert (streamDedupKey b = streamDedupKey body) as Hb by congruence.
  assert (raw_seed meta' b = streamDedupKey body) as Hseed by (unfold raw_seed; case_bool_decide; congruence).
  destruct (scan_complete_covers s b meta' g w (slice_list m) w' Hscan) as (res&Hres&?&?&?&(c&Hc&Hcb&Hcr)&_&Hst&_).
  exists s, b, meta', g, w, w', res. split_and!; [done..| |].
  - exists c. split_and!; [done..|]. destruct Hcr as [Hcr|(_&?&?)]; [left; by apply reported_nothing|by right].
  - intros st0 Hst0. rewrite <- Hseed. destruct (Hst st0 Hst0) as [?|(c'&?&?&?)]; [by left|]. right. exists c'.
    split_and!; [done..|]. by apply reported_nothing.
Qed.

Lemma scanned_clean k p meta body m : asks k p meta body → scanned (full_key k p meta) m →
  degradedReason (slice_list m) = "" → Forall (λ m, matchIsLogOnly m = true) (slice_list m) → clean_scan k meta body.
Proof. intros. exists (slice_list m). split; [done|]. split; [done|]. by eapply scanned_behind. Qed.

(** The metadata of a request carry the hash of its body. *)
Lemma request_asks cfg req a buf k : parts_ok k → asks k "" (request_meta cfg req a buf) buf.
Proof.
  intros Hk. unfold request_meta. destruct (effortHeader req) as [hv hset]. destruct (autoEnvDefault _ _ _ _ _ _ _ _) as [d n].
  assert (meta_ok (scanMetaFromRequest (Header "X-Mailstrix-Filename" req) (Header "X-Mailstrix-Pwcandidates" req) (cf_ArchivePW cfg))
    ∧ sm_requireComplete (scanMetaFromRequest (Header "X-Mailstrix-Filename" req) (Header "X-Mailstrix-Pwcandidates" req) (cf_ArchivePW cfg)) = false) as [Hm Hr].
  { unfold scanMetaFromRequest. set (m0 := if bool_decide _ then _ else _). assert (meta_ok m0 ∧ sm_requireComplete m0 = false) as Hm0.
    { unfold m0. case_bool_decide; [|done]. destruct (decodeFilenameB64 _); [|done]. split; [apply NewScanMeta_ok|].
      unfold NewScanMeta. by case_bool_decide. }
    destruct (cf_ArchivePW cfg); exact Hm0. }
  split; [done|exact Hm|by left|done|exact Hr].
Qed.

Context {ROk : RedisEnvOk R} (pfx mac : string) (written : string → string → Prop).

(** The request as the server receives it. *)
Definition delivered (req : HttpRequest) (buf : string) : Prop :=
  hr_body req = buf ∧ ParseInt (Header "Content-Length" req) 64 = Some (len buf).

(** C2: What a clean answer means: the real engine keeps the promise the server
    relies on, and whenever a client of /scan gets a result with nothing to
    act on for the bytes it sent, [scanGeneration] was run, with a scanner and
    rules published under the fingerprint of the request's lease, on a body
    with the same hash under the same metadata; it ended without an error, its
    extraction neither panicked nor hit a cap, and every rule libyara matched,
    asked by that run, in the raw bytes and in every extracted stream is denied
    or was reported as log-only; except that the raw scan may have failed next
    to log-only matches, and that the request's own context may have ended. *)
Theorem clean_answer_means_scanned marshal decodeResponse `{!WireOk marshal decodeResponse} :
  (∀ key a, engine_scans key a → engine_ok scanned key a)
  ∧ ∀ cfg req a st ch l d st' k done url_ok cl exchange name buf l',
  (∀ rk v, written rk v → sealed_verdict scanned pfx mac rk v) → parts_ok k →
  (let meta := request_meta cfg req a buf in
   answered scanned pfx mac written (full_key k "" meta) done (an_lookup a buf meta).1 (an_lookup a buf meta).2) →
  delivered req buf →
  handleScan cfg req a st = (ScanReply ch l d, st') →
  exchange (scan_request cl name buf) = Responded 200 (marshal l d) false →
  Scan url_ok decodeResponse cl exchange name buf = (l', None) → Actionable l' = [] →
  done = true ∨ clean_scan k (request_meta cfg req a buf) buf.
Proof.
  split; [exact engine_scans_ok|]. intros cfg req a st ch l d st' k done url_ok cl exchange name buf l' Hw Hk Ha [Hbody Hlen] Hh Hx Hs Hact.
  assert (ReadFull (len buf) (hr_body req) = Some buf) as Hfull.
  { rewrite Hbody. unfold ReadFull. rewrite Z.leb_refl, string_take_all_len; [done|pose proof (len_nonneg buf); lia]. }
  destruct (clean_is_complete scanned pfx mac written marshal decodeResponse cfg req a st ch l d st'
    (fingerprintLocked (kp_version k) (kp_rules k) (kp_content k) (kp_deny k) (kp_policy k)) done url_ok cl
    exchange name buf l' Hw) as [(n&b&m&Hn&Hread&Hm&Hd&Hl)|]; try done; [|right|by left].
  - intros n b Hn Hread. rewrite Hlen in Hn. injection Hn as <-. rewrite Hfull in Hread. injection Hread as <-. exact Ha.
  - rewrite Hlen in Hn. injection Hn as <-. rewrite Hfull in Hread. injection Hread as <-.
    eapply scanned_clean; [by apply request_asks|exact Hm|done|done].
Qed.

End System.
