(* ===== verification/IcapWire.v ===== *)
(** * The ICAP wire

    icap.go: the bounded readers of a connection (lines, header blocks, chunked
    bodies and their extensions, the Encapsulated header) and the replies as
    bytes. *)

From Stdlib Require Import ZArith Lia.
From Stdlib Require Ascii String.
From stdpp Require Import base gmap strings list numbers.
From S2P Require Import Prelude GoStd GoText VerdictCache.

Local Open Scope Z_scope.

(** ** Errors *)

(** What ends the bytes of a connection. *)
Inductive ReadEnd := AtEOF | AtTimeout | AtOther.

Inductive icapErr :=
  | ERead (r : ReadEnd) | EUnexpectedEOF
  | ELineTooLong | EChunkExtension | EChunkSize | EBodyTooLarge | EEncapsulated
  | ETooManyHeaders | EHeadTooLarge | EContinuation | EHeaderLine | EHeaderName
  | ERequestLine | EMethod (method : string) | EBusy | EGaveUp | EDegradedScan (reason : string) | EWrite.

#[export] Instance ReadEnd_eq_dec : EqDecision ReadEnd.
Proof. solve_decision. Defined.

#[export] Instance icapErr_eq_dec : EqDecision icapErr.
Proof. solve_decision. Defined.

Definition isTimeout (e : icapErr) : bool := bool_decide (e = ERead AtTimeout).

(** A reader takes the unread bytes of the connection; an error ends it. *)
Definition Reader (A : Type) : Type := string → (A * string) + icapErr.

#[export] Instance Reader_ret : MRet Reader := λ A a s, inl (a, s).
#[export] Instance Reader_bind : MBind Reader := λ A B f m s, match m s with inl (a, s) => f a s | inr e => inr e end.

Definition fail {A} (e : icapErr) : Reader A := λ _, inr e.

Section Wire.
Context (fin : ReadEnd).

(** ** [bufio.Reader] over the connection *)

Definition nl : Ascii.ascii := ascii_of_Z 10.
Definition cr : Ascii.ascii := ascii_of_Z 13.
Definition bufSize : nat := 4096.

(** The position of the first [c]. *)
Fixpoint index_byte (c : Ascii.ascii) (s : string) : option nat :=
  match s with
  | EmptyString => None
  | String a s => if Ascii.eqb a c then Some 0%nat else S <$> index_byte c s
  end.

Inductive Slice := SliceLine (frag : string) | SliceFull (frag : string) | SliceEnd (frag : string).

(** [ReadSlice('\n')]: a line with its terminator, a full buffer without one,
    or what is left. *)
Definition ReadSlice (s : string) : Slice * string :=
  match index_byte nl s with
  | Some i => if (i <? bufSize)%nat then (SliceLine (string_take (S i) s), string_drop (S i) s)
              else (SliceFull (string_take bufSize s), string_drop bufSize s)
  | None => if (bufSize <=? String.length s)%nat then (SliceFull (string_take bufSize s), string_drop bufSize s)
            else (SliceEnd s, "")
  end.

(** [io.ReadFull] of [n] bytes. *)
Definition ReadFull (n : nat) : Reader string := λ s,
  if (n <=? String.length s)%nat then inl (string_take n s, string_drop n s)
  else inr (if bool_decide (s = "") then ERead fin else match fin with AtEOF => EUnexpectedEOF | _ => ERead fin end).

(** [strings.TrimRight(s, "\r")] *)
Definition trim_cr (s : string) : string := trim_right [String cr ""] s.

(** All but the last byte. *)
Definition but_last (s : string) : string := string_take (pred (String.length s)) s.

(** [readBoundedLine]; [acc] holds the fragments so far. *)
Fixpoint line_loop (fuel : nat) (limit : Z) (acc : string) : Reader string := λ s,
  match fuel with
  | O => inr ELineTooLong
  | S fuel =>
      match ReadSlice s with
      | (SliceLine frag, s) =>
          if limit <? len acc + len frag - 1 then inr ELineTooLong else inl (trim_cr (acc +:+ but_last frag), s)
      | (SliceFull frag, s) =>
          if limit <? len acc + len frag then inr ELineTooLong else line_loop fuel limit (acc +:+ frag) s
      | (SliceEnd frag, _) => if limit <? len acc + len frag then inr ELineTooLong else inr (ERead fin)
      end
  end.

Definition readBoundedLine (limit : Z) : Reader string := λ s, line_loop (S (String.length s)) limit "" s.

Definition maxICAPChunkHeaderLine : Z := 256.
Definition maxICAPHeaderLine : Z := 8192.
Definition maxICAPHeaderCount : Z := 128.
Definition maxICAPHeaderBytes : Z := Z.shiftl 64 10.

Definition readICAPChunkHeaderLine : Reader string := readBoundedLine maxICAPChunkHeaderLine.

(** ** Chunk extensions *)

Definition isHTTPTokenByte (c : Ascii.ascii) : bool :=
  let b := byte c in
  ((97 <=? b) && (b <=? 122)) || ((65 <=? b) && (b <=? 90)) || ((48 <=? b) && (b <=? 57))
  || bool_decide (is_Some (index_byte c "!#$%&'*+-.^_`|~")).

Definition isHTTPToken (s : string) : bool := negb (bool_decide (s = "")) && string_forallb isHTTPTokenByte s.

Fixpoint skipWhitespace (s : string) : string :=
  match s with
  | String c t => if (byte c =? 32) || (byte c =? 9) then skipWhitespace t else s
  | EmptyString => s
  end.

(** The token at the front, and what follows it. *)
Fixpoint span_token (s : string) : string * string :=
  match s with
  | String c t => if isHTTPTokenByte c then let '(tok, r) := span_token t in (String c tok, r) else ("", s)
  | EmptyString => ("", s)
  end.

(** What follows the closing quote. *)
Fixpoint quoted_rest (s : string) : option string :=
  match s with
  | EmptyString => None
  | String c t =>
      if byte c =? 34 then Some t
      else if byte c =? 92 then
        match t with
        | EmptyString => None
        | String d t => if negb (byte d =? 9) && ((byte d <? 32) || (byte d =? 127)) then None else quoted_rest t
        end
      else if (byte c =? 13) || (byte c =? 10) || (byte c =? 127) || ((byte c <? 32) && negb (byte c =? 9)) then None
      else quoted_rest t
  end.

(** The value after an equals sign. *)
Definition value_rest (s : string) : option string :=
  match skipWhitespace s with
  | EmptyString => None
  | String c t => if byte c =? 34 then quoted_rest t
                  else match span_token (String c t) with (EmptyString, _) => None | (_, r) => Some r end
  end.

(** [parseICAPChunkExtensions] from the index on. *)
Fixpoint extensions_loop (fuel : nat) (hasIEOF : bool) (s : string) : option bool :=
  match fuel with
  | O => None
  | S fuel =>
      match skipWhitespace s with
      | EmptyString => Some hasIEOF
      | String c s =>
          if negb (byte c =? 59) then None
          else
            let '(name, s) := span_token (skipWhitespace s) in
            if bool_decide (name = "") then None
            else
              let s := skipWhitespace s in
              let hasValue := match s with String c _ => byte c =? 61 | EmptyString => false end in
              match (if hasValue then skipWhitespace <$> value_rest (string_drop 1 s) else Some s) with
              | None => None
              | Some s =>
                  let hasIEOF := hasIEOF || (negb hasValue && EqualFold name "ieof") in
                  match s with
                  | EmptyString => Some hasIEOF
                  | String c _ => if negb (byte c =? 59) then None else extensions_loop fuel hasIEOF s
                  end
              end
      end
  end.

Definition parseICAPChunkExtensions (exts : string) : option bool := extensions_loop (S (String.length exts)) false exts.

(** ** Chunked bodies *)

Definition icapChunkReadStep : nat := Z.to_nat (Z.shiftl 64 10).

(** The inner loop: one chunk's data in steps. *)
Fixpoint read_steps (fuel left : nat) (out : string) : Reader string := λ s,
  match left, fuel with
  | O, _ => inl (out, s)
  | _, O => inr EChunkSize
  | _, S fuel =>
      let step := Nat.min left icapChunkReadStep in
      match ReadFull step s with
      | inl (b, s) => read_steps fuel (left - step) (out +:+ b) s
      | inr e => inr e
      end
  end.

(** The size and the ieof mark of a chunk header. *)
Definition chunk_header (raw : string) : (Z * bool) + icapErr :=
  match (match cut_byte (ascii_of_Z 59) raw with
         | Some (l, r) => match parseICAPChunkExtensions (String (ascii_of_Z 59) r) with
                          | Some b => inl (TrimSpace l, b)
                          | None => inr EChunkExtension
                          end
         | None => inl (raw, false)
         end) with
  | inr e => inr e
  | inl (ext, hasIEOF) =>
      match ParseInt16 (TrimSpace ext) with
      | None => inr EChunkSize
      | Some size => if size <? 0 then inr EChunkSize else inl (size, hasIEOF)
      end
  end.

(** The terminal chunk's line; end of input is tolerated. *)
Definition last_line : Reader unit := λ s,
  match readBoundedLine maxICAPChunkHeaderLine s with
  | inl (_, s) => inl (tt, s)
  | inr (ERead AtEOF) => inl (tt, "")
  | inr e => inr e
  end.

Fixpoint chunk_loop (fuel : nat) (out : string) (maxBytes : Z) : Reader (string * bool) := λ s,
  match fuel with
  | O => inr EChunkSize
  | S fuel =>
      match readICAPChunkHeaderLine s with
      | inr e => inr e
      | inl (raw, s) =>
          match chunk_header raw with
          | inr e => inr e
          | inl (size, hasIEOF) =>
              if size =? 0 then
                match last_line s with inl (_, s) => inl ((out, hasIEOF), s) | inr e => inr e end
              else
                let used := len out in
                if (maxBytes <? used) || (maxBytes - used <? size) then inr EBodyTooLarge
                else match read_steps (S (String.length s)) (Z.to_nat size) out s with
                | inr e => inr e
                | inl (out, s) =>
                    match readBoundedLine maxICAPChunkHeaderLine s with
                    | inr e => inr e
                    | inl (_, s) => chunk_loop fuel out maxBytes s
                    end
                end
          end
      end
  end.

Definition readICAPChunkedAppend (out : string) (maxBytes : Z) : Reader (string * bool) := λ s,
  chunk_loop (S (String.length s)) out maxBytes s.

Definition readICAPChunkedBody (maxBytes : Z) : Reader (string * bool) := readICAPChunkedAppend "" maxBytes.

(** ** Lines *)

(** What [readBoundedLine] promises: the bytes before the first newline without
    trailing carriage returns, if there are at most [limit]. *)
Definition line_spec (limit : Z) (acc s : string) : (string * string) + icapErr :=
  match index_byte nl s with
  | Some i => if limit <? len acc + Z.of_nat i then inr ELineTooLong
              else inl (trim_cr (acc +:+ string_take i s), string_drop (S i) s)
  | None => inr (if limit <? len acc + len s then ELineTooLong else ERead fin)
  end.

Lemma index_byte_lt c s i : index_byte c s = Some i → (i < String.length s)%nat.
Proof.
  revert i. induction s as [|a s IH]; intros i; cbn [index_byte]; [done|]. case_match; [intros [= <-]; cbn; lia|].
  intros (j&Hj&->)%fmap_Some. apply IH in Hj. cbn. lia.
Qed.

Lemma index_byte_drop c n s : index_byte c s = None ∨ (∃ i, index_byte c s = Some i ∧ (n <= i)%nat) →
  index_byte c (string_drop n s) = (λ i, (i - n)%nat) <$> index_byte c s.
Proof.
  revert s. induction n as [|n IH]; intros s H.
  - cbn [string_drop]. destruct (index_byte c s); [|done]. cbn. f_equal. lia.
  - destruct s as [|a s]; [done|]. cbn [string_drop index_byte] in *. case_match.
    + destruct H as [?|(i&[= <-]&?)]; [done|lia].
    + rewrite IH; [by destruct (index_byte c s)|]. destruct (index_byte c s) as [i|]; [right|by left].
      destruct H as [?|(j&[= <-]&?)]; [done|]. exists i. split; [done|lia].
Qed.

Lemma line_loop_spec fuel : ∀ limit acc s, (String.length s < fuel)%nat → line_loop fuel limit acc s = line_spec limit acc s.
Proof.
  induction fuel as [|fuel IH]; [lia|]. intros limit acc s Hf. cbn [line_loop]. unfold ReadSlice, line_spec.
  assert (0 < bufSize)%nat as Hb by (unfold bufSize; lia). revert Hb. generalize bufSize. intros b Hb.
  assert (∀ i : nat, index_byte nl s = Some i ∨ index_byte nl s = None ∧ i = String.length s → (b <= i)%nat →
    (if limit <? len acc + len (string_take b s) then inr ELineTooLong
     else line_loop fuel limit (acc +:+ string_take b s) (string_drop b s)) = line_spec limit acc s) as Hfull.
  { intros i Hi Hbi. assert (i <= String.length s)%nat as Hil by (destruct Hi as [Hi|[_ ->]]; [apply index_byte_lt in Hi|]; lia).
    assert (len (string_take b s) = Z.of_nat b) as Hlen by (unfold len; rewrite string_take_length; lia).
    rewrite Hlen. unfold line_spec. destruct (limit <? _) eqn:Hl.
    - apply Z.ltb_lt in Hl. destruct Hi as [->|[-> _]]; [|unfold len at 2]; case_match; try done; bool_hyps; lia.
    - rewrite IH by (rewrite string_drop_length; lia). unfold line_spec. rewrite index_byte_drop by (destruct Hi as [?|[? ?]]; eauto).
      rewrite string_app_len, Hlen. destruct Hi as [->|[-> ->]]; cbn [fmap option_fmap option_map].
      + replace (len acc + Z.of_nat b + Z.of_nat (i - b)) with (len acc + Z.of_nat i) by lia.
        rewrite string_drop_drop. replace (b + S (i - b))%nat with (S i) by lia.
        rewrite <- string_app_assoc, <- string_take_split. by replace (b + (i - b))%nat with i by lia.
      + unfold len. rewrite string_drop_length. by replace (Z.of_nat (String.length acc) + Z.of_nat b + Z.of_nat (String.length s - b))
          with (Z.of_nat (String.length acc) + Z.of_nat (String.length s)) by lia. }
  destruct (index_byte nl s) as [i|] eqn:Hi.
  - pose proof (index_byte_lt _ _ _ Hi) as Hlt. destruct (i <? b)%nat eqn:Hlb.
    + unfold but_last, len. rewrite string_take_length. replace (Nat.min (S i) (String.length s)) with (S i) by lia.
      replace (Z.of_nat (String.length acc) + Z.of_nat (S i) - 1) with (Z.of_nat (String.length acc) + Z.of_nat i) by lia.
      cbn [pred]. by rewrite string_take_take by lia.
    + apply Nat.ltb_ge in Hlb. rewrite (Hfull i); [|by left|done]. unfold line_spec. by rewrite Hi.
  - destruct (b <=? String.length s)%nat eqn:Hlb.
    + apply Nat.leb_le in Hlb. rewrite (Hfull (String.length s)); [|by right|done]. unfold line_spec. by rewrite Hi.
    + by destruct (limit <? len acc + len s).
Qed.

Lemma readBoundedLine_spec limit s : readBoundedLine limit s = line_spec limit "" s.
Proof. unfold readBoundedLine. apply line_loop_spec. lia. Qed.

(** *** A line that fits *)

Definition crlf : string := String cr (String nl "").

Definition no_breaks (s : string) : bool := string_forallb (λ c, negb (Ascii.eqb c nl) && negb (Ascii.eqb c cr)) s.

Lemma index_byte_app s t : no_breaks s = true → index_byte nl (s +:+ t) = (λ i, (String.length s + i)%nat) <$> index_byte nl t.
Proof.
  induction s as [|c s IH]; intros Hs; [change ("" +:+ t) with t; by destruct (index_byte nl t)|].
  apply andb_true_iff in Hs as [[Hc _]%andb_true_iff Hs]. rewrite string_cons_app. cbn [index_byte].
  apply negb_true_iff in Hc. rewrite Hc, IH by done. by destruct (index_byte nl t).
Qed.

Lemma trim_cr_app s : no_breaks s = true → trim_cr (s +:+ String cr "") = s.
Proof.
  intros Hs. unfold trim_cr, trim_right. rewrite string_rev_app. cbn [fmap list_fmap].
  change (string_rev (string_rev "" s) (String cr "")) with (String cr (string_rev "" s)).
  change (string_rev "" (String cr "")) with (String cr "").
  assert (no_breaks (string_rev "" s) = true) as Hr by (unfold no_breaks in *; rewrite string_rev_all; exact Hs).
  assert (trim_left [String cr ""] (String cr (string_rev "" s)) = string_rev "" s) as ->; [|by rewrite string_rev_rev].
  unfold trim_left. cbn [String.length trim_fuel].
  change (strip_any [String cr ""] (String cr (string_rev "" s))) with (Some (string_rev "" s)). cbn iota.
  destruct (string_rev "" s) as [|c t]; [done|]. apply andb_true_iff in Hr as [[_ Hc]%andb_true_iff _]. apply negb_true_iff in Hc.
  cbn [String.length trim_fuel]. unfold strip_any. cbn [omap list_omap strip_prefix].
  rewrite Stdlib.Strings.Ascii.eqb_sym in Hc. by rewrite Hc.
Qed.

Lemma readBoundedLine_crlf limit l rest : no_breaks l = true → len l + 1 <= limit →
  readBoundedLine limit (l +:+ crlf +:+ rest) = inl (l, rest).
Proof.
  intros Hl Hlen. rewrite readBoundedLine_spec. unfold line_spec. rewrite index_byte_app by done.
  change (crlf +:+ rest) with (String cr (String nl rest)). cbn [index_byte].
  change (Ascii.eqb cr nl) with false. change (Ascii.eqb nl nl) with true. cbn [fmap option_fmap option_map].
  change (len "") with 0. replace (limit <? 0 + Z.of_nat (String.length l + 1)) with false by (symmetry; apply Z.ltb_ge; unfold len in Hlen; lia).
  change ("" +:+ ?x) with x.
  assert (∀ n, S (n + 1) = (n + 2))%nat as -> by lia.
  assert (string_take (String.length l + 1) (l +:+ String cr (String nl rest)) = l +:+ String cr "") as ->.
  { rewrite string_take_split, string_take_app, string_drop_app. done. }
  rewrite <- string_drop_drop, string_drop_app. by rewrite trim_cr_app.
Qed.

(** ** Chunks *)

Lemma ReadFull_app b rest : ReadFull (String.length b) (b +:+ rest) = inl (b, rest).
Proof.
  unfold ReadFull. assert (String.length (b +:+ rest) = String.length b + String.length rest)%nat as ->.
  { pose proof (string_app_len b rest). unfold len in *. lia. }
  replace (String.length b <=? String.length b + String.length rest)%nat with true by (symmetry; apply Nat.leb_le; lia).
  by rewrite string_take_app, string_drop_app.
Qed.

(** Reading in steps is reading at once. *)
Lemma read_steps_spec fuel : ∀ left out s, (String.length s < fuel)%nat →
  if (left <=? String.length s)%nat then read_steps fuel left out s = inl (out +:+ string_take left s, string_drop left s)
  else ∃ e, read_steps fuel left out s = inr e.
Proof.
  assert (0 < icapChunkReadStep)%nat as Hst by (by apply Nat.ltb_lt; vm_compute).
  induction fuel as [|fuel IH]; [lia|]. intros left out s Hf. destruct left as [|left].
  { cbn [read_steps Nat.leb]. change (string_take 0 s) with "". by rewrite string_app_nil_r. }
  cbn [read_steps]. revert Hst IH. generalize icapChunkReadStep. intros st Hst IH.
  set (n := S left) in *. assert (0 < n)%nat as Hn by (unfold n; lia). clearbody n. clear left. unfold ReadFull.
  destruct (Nat.min n st <=? String.length s)%nat eqn:Hle.
  - apply Nat.leb_le in Hle. specialize (IH (n - Nat.min n st)%nat (out +:+ string_take (Nat.min n st) s) (string_drop (Nat.min n st) s)).
    rewrite string_drop_length in IH. specialize (IH ltac:(lia)).
    destruct (n <=? String.length s)%nat eqn:Hns.
    + apply Nat.leb_le in Hns. replace (n - Nat.min n st <=? String.length s - Nat.min n st)%nat with true in IH by (symmetry; apply Nat.leb_le; lia).
      rewrite IH, string_drop_drop, <- string_app_assoc, <- string_take_split.
      by replace (Nat.min n st + (n - Nat.min n st))%nat with n by lia.
    + apply Nat.leb_gt in Hns. by replace (n - Nat.min n st <=? String.length s - Nat.min n st)%nat with false in IH by (symmetry; apply Nat.leb_gt; lia).
  - apply Nat.leb_gt in Hle. replace (n <=? String.length s)%nat with false by (symmetry; apply Nat.leb_gt; lia). by eexists.
Qed.

Lemma readBoundedLine_rest limit s l s' : readBoundedLine limit s = inl (l, s') →
  ∃ i, index_byte nl s = Some i ∧ Z.of_nat i <= limit ∧ l = trim_cr (string_take i s) ∧ s' = string_drop (S i) s
       ∧ (String.length s' < String.length s)%nat.
Proof.
  rewrite readBoundedLine_spec. unfold line_spec. change (len "") with 0. destruct (index_byte nl s) as [i|] eqn:Hi; [|done].
  destruct (limit <? 0 + Z.of_nat i) eqn:Hl; [done|]. apply Z.ltb_ge in Hl.
  pose proof (index_byte_lt _ _ _ Hi). pose proof (string_drop_length (S i) s) as Hd.
  remember (string_drop (S i) s) as d eqn:Hdd. intros [= <- <-]. exists i. split_and!; [done|lia|done|done|lia].
Qed.

Lemma read_steps_rest left out s out' s' : read_steps (S (String.length s)) left out s = inl (out', s') →
  (left <= String.length s)%nat ∧ out' = out +:+ string_take left s ∧ s' = string_drop left s.
Proof.
  intros H. pose proof (read_steps_spec (S (String.length s)) left out s ltac:(lia)) as Hs. rewrite H in Hs.
  destruct (left <=? String.length s)%nat eqn:Hl; [|by destruct Hs]. apply Nat.leb_le in Hl. by injection Hs as -> ->.
Qed.

(** More fuel than there are bytes changes nothing. *)
Lemma chunk_loop_fuel f1 : ∀ f2 out mb s, (String.length s < f1)%nat → (String.length s < f2)%nat →
  chunk_loop f1 out mb s = chunk_loop f2 out mb s.
Proof.
  induction f1 as [|f1 IH]; intros [|f2] out mb s H1 H2; try lia. cbn [chunk_loop]. unfold readICAPChunkHeaderLine.
  destruct (readBoundedLine _ s) as [[raw s1]|] eqn:Hr; [|done]. apply readBoundedLine_rest in Hr as (_&_&_&_&_&Hl).
  destruct (chunk_header raw) as [[size b]|]; [|done]. destruct (size =? 0); [done|]. cbv zeta. case_match; [done|].
  destruct (read_steps _ _ _ s1) as [[out' s2]|] eqn:Hs; [|done]. apply read_steps_rest in Hs as (_&_&->).
  destruct (readBoundedLine _ (string_drop _ s1)) as [[l s3]|] eqn:Hr; [|done]. apply readBoundedLine_rest in Hr as (_&_&_&_&_&Hl').
  rewrite string_drop_length in Hl'. apply IH; lia.
Qed.

(** The loop without fuel. *)
Lemma readICAPChunkedAppend_eq out mb s : readICAPChunkedAppend out mb s =
  match readICAPChunkHeaderLine s with
  | inr e => inr e
  | inl (raw, s) =>
      match chunk_header raw with
      | inr e => inr e
      | inl (size, hasIEOF) =>
          if size =? 0 then match last_line s with inl (_, s) => inl ((out, hasIEOF), s) | inr e => inr e end
          else if (mb <? len out) || (mb - len out <? size) then inr EBodyTooLarge
          else match read_steps (S (String.length s)) (Z.to_nat size) out s with
          | inr e => inr e
          | inl (out, s) =>
              match readBoundedLine maxICAPChunkHeaderLine s with
              | inr e => inr e
              | inl (_, s) => readICAPChunkedAppend out mb s
              end
          end
      end
  end.
Proof.
  unfold readICAPChunkedAppend at 1. cbn [chunk_loop].
  destruct (readICAPChunkHeaderLine s) as [[raw s1]|] eqn:Hr; [|done]. apply readBoundedLine_rest in Hr as (_&_&_&_&_&Hl).
  destruct (chunk_header raw) as [[size b]|]; [|done]. destruct (size =? 0); [done|]. cbv zeta. case_match; [done|].
  destruct (read_steps _ _ _ s1) as [[out' s2]|] eqn:Hs; [|done]. apply read_steps_rest in Hs as (_&_&->).
  destruct (readBoundedLine _ (string_drop _ s1)) as [[l s3]|] eqn:Hr; [|done]. apply readBoundedLine_rest in Hr as (_&_&_&_&_&Hl').
  rewrite string_drop_length in Hl'. unfold readICAPChunkedAppend. apply chunk_loop_fuel; lia.
Qed.

(** *** Round trip *)

Definition hex_char (c : Ascii.ascii) : bool := bool_decide (is_Some (hex_val c)).

Lemma hex_char_visible c : hex_char c = true → visible c = true ∧ negb (Ascii.eqb c nl) && negb (Ascii.eqb c cr) = true
  ∧ Ascii.eqb c (ascii_of_Z 59) = false ∧ byte c ≠ 45 ∧ byte c ≠ 43.
Proof. destruct c as [[] [] [] [] [] [] [] []]; vm_compute; intros H; try discriminate H; repeat split; discriminate. Qed.

Lemma FormatInt16_hex n : string_forallb hex_char (FormatInt16 n) = true.
Proof.
  apply format16_all; [|done]. intros d Hd. unfold hex_char. apply bool_decide_eq_true. rewrite hex_val_digit by done. by eexists.
Qed.

Lemma string_forallb_mono (P Q : Ascii.ascii → bool) s : (∀ c, P c = true → Q c = true) → string_forallb P s = true → string_forallb Q s = true.
Proof.
  intros HPQ. induction s as [|c s IH]; [done|]. cbn [string_forallb]. rewrite !andb_true_iff. intros [? ?]. auto.
Qed.

Lemma cut_byte_none c s : string_forallb (λ a, negb (Ascii.eqb a c)) s = true → cut_byte c s = None.
Proof.
  induction s as [|a s IH]; [done|]. cbn [string_forallb cut_byte]. rewrite andb_true_iff, negb_true_iff. intros [-> Hs].
  by rewrite IH.
Qed.

Lemma format16_length fuel : ∀ n acc, (String.length (format16_fuel fuel n acc) <= fuel + String.length acc)%nat.
Proof.
  induction fuel as [|fuel IH]; intros n acc; cbn [format16_fuel]; [lia|]. case_match; cbn; [lia|].
  etrans; [apply IH|]. cbn. lia.
Qed.

Lemma format16_pos fuel n acc : (0 < String.length acc)%nat ∨ (0 < fuel)%nat → (0 < String.length (format16_fuel fuel n acc))%nat.
Proof.
  revert n acc. induction fuel as [|fuel IH]; intros n acc H; cbn [format16_fuel]; [lia|].
  case_match; cbn; [lia|]. apply IH. cbn. lia.
Qed.

Lemma ParseInt16_Format n : 0 <= n < 2 ^ 63 → ParseInt16 (FormatInt16 n) = Some n.
Proof.
  intros Hn. pose proof (FormatInt16_value n ltac:(lia)) as Hv. pose proof (FormatInt16_hex n) as Hh.
  assert (0 < String.length (FormatInt16 n))%nat as Hp by (apply format16_pos; lia).
  unfold ParseInt16. destruct (FormatInt16 n) as [|c t]; [cbn in Hp; lia|]. apply andb_true_iff in Hh as [Hc _].
  apply hex_char_visible in Hc as (_&_&_&H1&H2). apply Z.eqb_neq in H1, H2. rewrite H1, H2. cbn [orb]. cbv zeta.
  rewrite Hv. cbn. by replace (n <? 2 ^ 63) with true by lia.
Qed.

Lemma hex_plain s : string_forallb hex_char s = true →
  no_breaks s = true ∧ cut_byte (ascii_of_Z 59) s = None ∧ TrimSpace s = s.
Proof.
  intros Hs. assert (∀ P, (∀ c, hex_char c = true → P c = true) → string_forallb P s = true) as H
    by (intros P HP; by apply (string_forallb_mono hex_char)).
  split_and!; [apply H|apply cut_byte_none, H|apply TrimSpace_visible, H]; intros c Hc;
    destruct (hex_char_visible c Hc) as (?&?&Hne&_); [done|by rewrite Hne|done].
Qed.

End Wire.

(** ** Chunk extensions

    What a sender may write after the size: names with a token or a quoted
    value, or with none. *)
Inductive ExtValue := NoValue | TokenValue (v : string) | QuotedValue (v : string).

#[export] Instance ExtValue_eq_dec : EqDecision ExtValue.
Proof. solve_decision. Defined.

Definition dquote : Ascii.ascii := ascii_of_Z 34.
Definition backslash : Ascii.ascii := ascii_of_Z 92.
Definition semicolon : Ascii.ascii := ascii_of_Z 59.
Definition equals : Ascii.ascii := ascii_of_Z 61.

Fixpoint escape (v : string) : string :=
  match v with
  | EmptyString => EmptyString
  | String c v => if Ascii.eqb c dquote || Ascii.eqb c backslash then String backslash (String c (escape v)) else String c (escape v)
  end.

Definition render_value (v : ExtValue) (rest : string) : string :=
  match v with
  | NoValue => rest
  | TokenValue t => String equals (t +:+ rest)
  | QuotedValue q => String equals (String dquote (escape q +:+ String dquote rest))
  end.

Fixpoint render_exts (l : list (string * ExtValue)) : string :=
  match l with [] => "" | (n, v) :: l => String semicolon (n +:+ render_value v (render_exts l)) end.

Definition quotable (c : Ascii.ascii) : bool := (32 <=? byte c) && negb (byte c =? 127) || (byte c =? 9).

Definition ext_ok (e : string * ExtValue) : Prop :=
  isHTTPToken e.1 = true ∧ match e.2 with NoValue => True | TokenValue t => isHTTPToken t = true | QuotedValue q => string_forallb quotable q = true end.

(** The extension that ends a preview. *)
Definition is_ieof (e : string * ExtValue) : bool :=
  match e.2 with NoValue => EqualFold e.1 "ieof" | _ => false end.

Lemma token_char c : isHTTPTokenByte c = true → byte c ≠ 32 ∧ byte c ≠ 9 ∧ byte c ≠ 59 ∧ byte c ≠ 61 ∧ byte c ≠ 34.
Proof. destruct c as [[] [] [] [] [] [] [] []]; vm_compute; intros H; try discriminate H; repeat split; discriminate. Qed.

(** A text that no token continues into. *)
Definition no_token (s : string) : Prop := match s with EmptyString => True | String c _ => isHTTPTokenByte c = false end.

Lemma span_token_app n r : string_forallb isHTTPTokenByte n = true → no_token r → span_token (n +:+ r) = (n, r).
Proof.
  intros Hn Hr. induction n as [|c n IH].
  - change ("" +:+ r) with r. destruct r as [|c r]; [done|]. cbn [span_token]. by rewrite Hr.
  - apply andb_true_iff in Hn as [Hc Hn]. rewrite string_cons_app. cbn [span_token]. by rewrite Hc, IH.
Qed.

Lemma skipWhitespace_stop c s : byte c ≠ 32 → byte c ≠ 9 → skipWhitespace (String c s) = String c s.
Proof. intros H1 H2. cbn [skipWhitespace]. apply Z.eqb_neq in H1, H2. by rewrite H1, H2. Qed.

Lemma skipWhitespace_token n r : isHTTPToken n = true → skipWhitespace (n +:+ r) = n +:+ r.
Proof.
  intros [Hn Hc]%andb_true_iff. destruct n as [|c n]; [done|]. apply andb_true_iff in Hc as [Hc _].
  rewrite string_cons_app. apply token_char in Hc as (?&?&_). by apply skipWhitespace_stop.
Qed.

Lemma quoted_rest_escape q r : string_forallb quotable q = true → quoted_rest (escape q +:+ String dquote r) = Some r.
Proof.
  induction q as [|c q IH]; [done|]. intros [Hc Hq]%andb_true_iff. cbn [escape].
  destruct (Ascii.eqb c dquote || Ascii.eqb c backslash) eqn:He.
  - rewrite !string_cons_app. cbn [quoted_rest]. change (byte backslash =? 34) with false. change (byte backslash =? 92) with true. cbn iota.
    assert (negb (byte c =? 9) && ((byte c <? 32) || (byte c =? 127)) = false) as -> by (unfold quotable in Hc; lia). by apply IH.
  - rewrite string_cons_app. cbn [quoted_rest]. apply orb_false_iff in He as [H1 H2].
    assert (byte c ≠ 34 ∧ byte c ≠ 92) as [Ha Hb].
    { split; intros Hx; [rewrite (byte_inj c dquote) in H1 by done|rewrite (byte_inj c backslash) in H2 by done];
        by rewrite Stdlib.Strings.Ascii.eqb_refl in *. }
    apply Z.eqb_neq in Ha, Hb. rewrite Ha, Hb.
    assert ((byte c =? 13) || (byte c =? 10) || (byte c =? 127) || ((byte c <? 32) && negb (byte c =? 9)) = false) as -> by (unfold quotable in Hc; lia).
    by apply IH.
Qed.

Lemma render_starts l : match render_exts l with EmptyString => l = [] | String c _ => c = semicolon end.
Proof. by destruct l as [|[n v] l]. Qed.

Lemma no_token_exts l : no_token (render_exts l).
Proof. destruct l as [|[n v] l]; done. Qed.

Lemma skip_exts l : skipWhitespace (render_exts l) = render_exts l.
Proof. destruct l as [|[n v] l]; [done|]. by apply skipWhitespace_stop. Qed.

Lemma value_rest_render v l : ext_ok ("x", v) → v ≠ NoValue →
  value_rest (string_drop 1 (render_value v (render_exts l))) = Some (render_exts l).
Proof.
  intros [_ Hv] Hne. destruct v as [|t|q]; [done| |]; cbn [render_value string_drop snd] in *; unfold value_rest.
  - rewrite skipWhitespace_token by done. apply andb_true_iff in Hv as [Ht Hc]. destruct t as [|c t]; [done|].
    rewrite string_cons_app. destruct (proj1 (andb_true_iff _ _) Hc) as [Hc1 _]. apply token_char in Hc1 as (_&_&_&_&Hq).
    apply Z.eqb_neq in Hq. rewrite Hq, <- string_cons_app, span_token_app; [done|done|apply no_token_exts].
  - rewrite skipWhitespace_stop by done. change (byte dquote =? 34) with true. cbn iota. by apply quoted_rest_escape.
Qed.

Lemma extensions_loop_render l : ∀ fuel h, (length l < fuel)%nat → Forall ext_ok l →
  extensions_loop fuel h (render_exts l) = Some (h || existsb is_ieof l).
Proof.
  induction l as [|[n v] l IH]; intros [|fuel] h Hf Hl; try (simpl in Hf; lia).
  { cbn. by rewrite orb_false_r. }
  apply list.Forall_cons in Hl as [He Hl]. cbn [extensions_loop render_exts].
  rewrite skipWhitespace_stop by done. change (negb (byte semicolon =? 59)) with false. cbn iota.
  pose proof (proj1 He) as Hn. cbn in Hn. rewrite skipWhitespace_token by done.
  pose proof (proj1 (andb_true_iff _ _) Hn) as [Hn1 Hn2]. apply negb_true_iff, bool_decide_eq_false in Hn1.
  assert (no_token (render_value v (render_exts l))) as Hnt by (destruct v; [apply no_token_exts|done|done]).
  rewrite span_token_app by done. rewrite bool_decide_eq_false_2 by done.
  assert (skipWhitespace (render_value v (render_exts l)) = render_value v (render_exts l)) as ->
    by (destruct v; [apply skip_exts|by apply skipWhitespace_stop|by apply skipWhitespace_stop]).
  set (hv := match render_value v (render_exts l) with String c _ => byte c =? 61 | "" => false end).
  assert (hv = negb (bool_decide (v = NoValue))) as Hhv.
  { unfold hv. destruct v; [|done|done]. cbn [render_value]. pose proof (render_starts l). destruct (render_exts l); [done|]. by subst. }
  assert ((if hv then skipWhitespace <$> value_rest (string_drop 1 (render_value v (render_exts l))) else Some (render_value v (render_exts l)))
          = Some (render_exts l)) as ->.
  { rewrite Hhv. case_bool_decide as Hv; cbn [negb]; [by rewrite Hv|]. rewrite value_rest_render by (first [done|by destruct He]).
    cbn. by rewrite skip_exts. }
  assert (negb hv && EqualFold n "ieof" = is_ieof (n, v)) as -> by (rewrite Hhv; by destruct v).
  cbn [existsb]. rewrite orb_assoc. specialize (IH fuel (h || is_ieof (n, v)) ltac:(simpl in Hf; lia) Hl).
  pose proof (render_starts l) as Hst. destruct (render_exts l) as [|c s] eqn:Hr.
  - subst. cbn. by rewrite orb_false_r.
  - subst c. change (negb (byte semicolon =? 59)) with false. cbn iota. exact IH.
Qed.

(** ** Round trip *)

Definition encode_chunk (c : string * list (string * ExtValue)) : string :=
  FormatInt16 (len c.1) +:+ render_exts c.2 +:+ crlf +:+ c.1 +:+ crlf.

Definition encode_last (exts : list (string * ExtValue)) : string := "0" +:+ render_exts exts +:+ crlf +:+ crlf.

Definition encode_body (chunks : list (string * list (string * ExtValue))) (last : list (string * ExtValue)) : string :=
  string_concat (encode_chunk <$> chunks) +:+ encode_last last.

(** A header line within its cap. *)
Definition exts_ok (exts : list (string * ExtValue)) : Prop := Forall ext_ok exts ∧ len (render_exts exts) <= 200.

Definition line_char (c : Ascii.ascii) : bool := negb (Ascii.eqb c nl) && negb (Ascii.eqb c cr).

Lemma token_line_char c : isHTTPTokenByte c = true → line_char c = true.
Proof. destruct c as [[] [] [] [] [] [] [] []]; vm_compute; intros H; try discriminate H; reflexivity. Qed.

Lemma quotable_line_char c : quotable c = true → line_char c = true.
Proof. destruct c as [[] [] [] [] [] [] [] []]; vm_compute; intros H; try discriminate H; reflexivity. Qed.

Lemma escape_no_breaks q : string_forallb quotable q = true → no_breaks (escape q) = true.
Proof.
  induction q as [|c q IH]; [done|]. intros [Hc%quotable_line_char Hq%IH]%andb_true_iff. cbn [escape].
  assert (no_breaks (String c (escape q)) = true) as Hb by (apply andb_true_iff; done). case_match; [|done].
  by apply andb_true_iff.
Qed.

Lemma render_no_breaks l : Forall ext_ok l → no_breaks (render_exts l) = true.
Proof.
  assert (∀ t, isHTTPToken t = true → no_breaks t = true) as Htok.
  { intros t [_ Ht]%andb_true_iff. eapply string_forallb_mono; [|exact Ht]. exact token_line_char. }
  induction 1 as [|[n v] l [Hn Hv] Hl IH]; [done|]. cbn [render_exts fst snd] in *. apply andb_true_iff. split; [done|].
  unfold no_breaks. rewrite string_forallb_app. apply andb_true_iff. split; [by apply Htok|].
  destruct v as [|t|q]; cbn [render_value]; [done| |]; apply andb_true_iff; (split; [done|]).
  - rewrite string_forallb_app. apply andb_true_iff. split; [by apply Htok|done].
  - apply andb_true_iff. split; [done|]. rewrite string_forallb_app. apply andb_true_iff. split; [by apply escape_no_breaks|].
    apply andb_true_iff. by split.
Qed.

(** Extensions cannot be confused: only a valueless [ieof] counts, whatever
    the quoted values hold. *)
Lemma parse_render_exts l : Forall ext_ok l → parseICAPChunkExtensions (render_exts l) = Some (existsb is_ieof l).
Proof.
  intros Hl. unfold parseICAPChunkExtensions. apply (extensions_loop_render l _ false); [|done].
  clear Hl. induction l as [|[n v] l IH]; [cbn; lia|]. cbn [render_exts length String.length].
  pose proof (string_app_len n (render_value v (render_exts l))) as H1.
  assert (len (render_exts l) <= len (render_value v (render_exts l))) as H2.
  { destruct v as [|t|q]; cbn [render_value]; [lia|rewrite string_length_S, string_app_len; pose proof (len_nonneg t); lia|].
    rewrite !string_length_S, string_app_len, string_length_S. pose proof (len_nonneg (escape q)). lia. }
  unfold len in *. lia.
Qed.

Lemma chunk_header_render n s l : 0 <= n < 2 ^ 63 → string_forallb hex_char s = true → ParseInt16 s = Some n → Forall ext_ok l →
  chunk_header (s +:+ render_exts l) = inl (n, existsb is_ieof l).
Proof.
  intros Hn Hs Hp Hl. destruct (hex_plain s Hs) as (_&Hc&Ht). unfold chunk_header. destruct l as [|[nm v] l].
  - cbn [render_exts existsb]. rewrite string_app_nil_r, Hc, Ht, Hp. by replace (n <? 0) with false by lia.
  - cbn [render_exts]. fold semicolon. rewrite cut_byte_app.
    2:{ eapply string_forallb_mono; [|exact Hs]. intros c (_&_&He&_)%hex_char_visible. by fold semicolon in He; rewrite He. }
    change (String semicolon (nm +:+ render_value v (render_exts l))) with (render_exts ((nm, v) :: l)).
    rewrite parse_render_exts by done. rewrite !Ht, Hp. by replace (n <? 0) with false by lia.
Qed.

Section RoundTrip.
Context (fin : ReadEnd).

Lemma read_header n s l rest : 0 <= n < 2 ^ 63 → string_forallb hex_char s = true → ParseInt16 s = Some n → len s <= 16 →
  exts_ok l →
  readICAPChunkHeaderLine fin (s +:+ render_exts l +:+ crlf +:+ rest) = inl (s +:+ render_exts l, rest)
  ∧ chunk_header (s +:+ render_exts l) = inl (n, existsb is_ieof l).
Proof.
  intros Hn Hs Hp Hlen [Hl Hll]. split; [|by apply chunk_header_render]. unfold readICAPChunkHeaderLine.
  rewrite string_app_assoc. apply readBoundedLine_crlf.
  - unfold no_breaks. rewrite string_forallb_app. apply andb_true_iff. split; [by apply hex_plain|by apply render_no_breaks].
  - rewrite string_app_len. unfold maxICAPChunkHeaderLine. lia.
Qed.

Lemma FormatInt16_len n : len (FormatInt16 n) <= 16.
Proof. pose proof (format16_length 16 n "") as Hl. unfold len, FormatInt16. cbn in Hl |- *. lia. Qed.

Lemma read_chunk out b exts mb rest : b ≠ "" → exts_ok exts → len out + len b <= mb < 2 ^ 63 →
  readICAPChunkedAppend fin out mb (encode_chunk (b, exts) +:+ rest) = readICAPChunkedAppend fin (out +:+ b) mb rest.
Proof.
  intros Hb He Hmb. rewrite readICAPChunkedAppend_eq. unfold encode_chunk. cbn [fst snd]. rewrite <- !string_app_assoc.
  pose proof (len_nonneg out). assert (0 < len b) as Hpos by (destruct b; [done|]; rewrite string_length_S; pose proof (len_nonneg b); lia).
  destruct (read_header (len b) (FormatInt16 (len b)) exts (b +:+ crlf +:+ rest)) as [-> ->];
    [lia|apply FormatInt16_hex|apply ParseInt16_Format; lia|apply FormatInt16_len|done|].
  replace (len b =? 0) with false by lia.
  replace ((mb <? len out) || (mb - len out <? len b)) with false by lia.
  set (t := b +:+ crlf +:+ rest). pose proof (read_steps_spec fin (S (String.length t)) (Z.to_nat (len b)) out t ltac:(lia)) as Hs.
  replace (Z.to_nat (len b)) with (String.length b) in * by (unfold len; lia).
  replace (String.length b <=? String.length t)%nat with true in Hs.
  2:{ symmetry. apply Nat.leb_le. unfold t. pose proof (string_app_len b (crlf +:+ rest)). unfold len in *. lia. }
  rewrite Hs. unfold t. rewrite string_take_app, string_drop_app.
  rewrite (readBoundedLine_crlf fin _ "" rest); [done|done|]. change (len "" + 1) with 1. unfold maxICAPChunkHeaderLine. lia.
Qed.

Lemma read_last out exts mb rest : exts_ok exts →
  readICAPChunkedAppend fin out mb (encode_last exts +:+ rest) = inl ((out, existsb is_ieof exts), rest).
Proof.
  intros He. rewrite readICAPChunkedAppend_eq. unfold encode_last. rewrite <- !string_app_assoc.
  destruct (read_header 0 "0" exts (crlf +:+ rest)) as [-> ->]; [lia|by vm_compute|by vm_compute|done|done|].
  change (0 =? 0) with true. cbn iota. unfold last_line.
  rewrite (readBoundedLine_crlf fin _ "" rest); [done|done|]. change (len "" + 1) with 1. unfold maxICAPChunkHeaderLine. lia.
Qed.

(** C17: A body survives ICAP's chunked framing: however a sender splits it and
    whatever extensions it adds, the reader returns exactly the bytes after
    those it already had, says whether a valueless ieof closed it, and stops
    at the first byte after the body, as long as the total is within the
    limit. *)
Theorem chunked_roundtrip chunks last out mb rest :
  Forall (λ c, c.1 ≠ "" ∧ exts_ok c.2) chunks → exts_ok last →
  len out + len (string_concat (fst <$> chunks)) <= mb < 2 ^ 63 →
  readICAPChunkedAppend fin out mb (encode_body chunks last +:+ rest)
  = inl ((out +:+ string_concat (fst <$> chunks), existsb is_ieof last), rest).
Proof.
  intros Hc Hl. unfold encode_body. revert out. induction Hc as [|[b e] chunks [Hb He] Hc IH]; intros out Hmb.
  - cbn [fmap list_fmap string_concat foldr]. change ("" +:+ encode_last last) with (encode_last last).
    rewrite string_app_nil_r. by apply read_last.
  - cbn [fmap list_fmap string_concat foldr fst snd] in *. fold (string_concat (fst <$> chunks)) in *.
    fold (string_concat (encode_chunk <$> chunks)). rewrite string_app_len in Hmb.
    pose proof (len_nonneg (string_concat (fst <$> chunks))).
    rewrite <- !string_app_assoc, read_chunk by (done || lia). rewrite !string_app_assoc. apply IH. rewrite string_app_len. lia.
Qed.

End RoundTrip.
