(* ===== verification/Icap.v ===== *)
(** * The ICAP service

    icap.go: request heads, the Encapsulated header, the handlers of OPTIONS,
    REQMOD and RESPMOD, their replies as bytes, and the loop of a connection.
    What happens outside (slots, scans, the clock) is given by [IcapAnswers]. *)

From Stdlib Require Import ZArith Lia.
From Stdlib Require Ascii String.
From stdpp Require Import base gmap strings list numbers.
From S2P Require Import Prelude GoStd GoText VerdictCache Effort Flight ScanVerdict ClientVerdict ScanServer IcapWire.

Local Open Scope Z_scope.

Definition icapProtoVersion : string := "ICAP/1.0".

(** ** The Encapsulated header *)

Definition comma : Ascii.ascii := ascii_of_Z 44.

Definition isICAPBodySection (name : string) : bool := mem name ["req-body"; "res-body"; "opt-body"; "null-body"].

Definition icap_section_names : list string := ["req-hdr"; "res-hdr"; "req-body"; "res-body"; "opt-body"; "null-body"].

(** The loop over the parts: the offset before, the sections so far. *)
Fixpoint encapsulated_loop (parts : list string) (last_off : Z) (out : list string) : option (list string) :=
  match parts with
  | [] => Some out
  | part :: parts =>
      match cut_byte equals (TrimSpace part) with
      | None => None
      | Some (l, r) =>
          match ParseInt (TrimSpace r) 64 with
          | None => None
          | Some off =>
              if (off <? 0) || (off <? last_off) then None
              else if negb (mem (TrimSpace l) icap_section_names) then None
              else if match list.last out with Some n => isICAPBodySection n | None => false end then None
              else encapsulated_loop parts off (out ++ [TrimSpace l])
          end
      end
  end.

Definition parseICAPEncapsulated (v : string) : option (list string) :=
  if bool_decide (TrimSpace v = "") then None
  else
    out ← encapsulated_loop (split_byte comma "" v) (-1) [];
    if match list.last out with Some n => isICAPBodySection n | None => false end then Some out else None.

(** ** Header blocks *)

Abbreviation MIMEHeader := (gmap string (list string)).

Definition header_values (k : string) (h : MIMEHeader) : list string := default [] (h !! k).
Definition header_first (k : string) (h : MIMEHeader) : string := default "" (head (header_values k h)).

(** A continuation line extends the last value of the last key. *)
Definition extend_last (l : list string) (more : string) : list string :=
  match list.last l with
  | Some v => take (length l - 1) l ++ [v +:+ " " +:+ more]
  | None => l
  end.

Definition colon : Ascii.ascii := ascii_of_Z 58.

Record HeadState := mkHead { hs_hdr : MIMEHeader; hs_total : Z; hs_count : Z; hs_lastKey : string }.

(** One line that is not blank. *)
Definition head_line (line : string) (h : HeadState) : HeadState + icapErr :=
  let total := hs_total h + len line in
  if maxICAPHeaderBytes <? total then inr EHeadTooLarge
  else if match line with String c _ => (byte c =? 32) || (byte c =? 9) | EmptyString => false end then
    if bool_decide (hs_lastKey h = "") then inr EContinuation
    else inl (mkHead (<[hs_lastKey h := extend_last (header_values (hs_lastKey h) (hs_hdr h)) (TrimSpace line)]> (hs_hdr h))
                total (hs_count h) (hs_lastKey h))
  else if maxICAPHeaderCount <? hs_count h + 1 then inr ETooManyHeaders
  else match cut_byte colon line with
  | None => inr EHeaderLine
  | Some (key, value) =>
      if negb (isHTTPToken key) then inr EHeaderName
      else
        let key := CanonicalMIMEHeaderKey key in
        inl (mkHead (<[key := header_values key (hs_hdr h) ++ [TrimSpace value]]> (hs_hdr h)) total (hs_count h + 1) key)
  end.

Section Reading.
Context (fin : ReadEnd).

Fixpoint head_loop (fuel : nat) (h : HeadState) : Reader MIMEHeader := λ s,
  match fuel with
  | O => inr EHeadTooLarge
  | S fuel =>
      match readBoundedLine fin maxICAPHeaderLine s with
      | inr e => inr e
      | inl (line, s) =>
          if bool_decide (line = "") then inl (hs_hdr h, s)
          else match head_line line h with
          | inr e => inr e
          | inl h => head_loop fuel h s
          end
      end
  end.

Definition readBoundedMIMEHeader : Reader MIMEHeader := λ s, head_loop (S (String.length s)) (mkHead ∅ 0 0 "") s.

(** [readHTTPHeaders]: a header section, kept for the echo. *)
Fixpoint http_loop (fuel : nat) (n : Z) (out : string) : Reader string := λ s,
  match fuel with
  | O => inr EHeadTooLarge
  | S fuel =>
      match readBoundedLine fin maxICAPHeaderLine s with
      | inr e => inr e
      | inl (line, s) =>
          if maxICAPHeaderCount <? n then inr ETooManyHeaders
          else
            let out := out +:+ line +:+ crlf in
            if maxICAPHeaderBytes <? len out then inr EHeadTooLarge
            else if bool_decide (line = "") then inl (out, s)
            else http_loop fuel (n + 1) out s
      end
  end.

Definition readHTTPHeaders : Reader string := λ s, http_loop (S (String.length s)) 0 "" s.

End Reading.

(** ** Replies *)

Record icapEcho := mkEcho { ec_hdrs : list (string * string); ec_bodyName : string }.

Inductive IcapReply :=
  | RContinue
  | RStatus (fp : string) (code : Z) (reason extra : string)
  | REcho (fp : string) (echo : icapEcho) (body : string)
  | RInfected (fp : string) (matches : list Match)
  | ROptions (fp date : string).

Definition icapViolationMax : Z := 256.
Definition icapViolationsMaxListed : nat := 16.

(** The runes of [icapHeaderValue]; [utf8.RuneLen] is the length of the
    encoding. *)
Fixpoint value_loop (rs : list Z) (out : string) : string :=
  match rs with
  | [] => out
  | r :: rs =>
      if (r <? 32) || (r =? 127) || ((128 <=? r) && (r <? 160)) || (r =? RuneError) then value_loop rs out
      else if icapViolationMax <? len out + len (encode_rune r) then out
      else value_loop rs (out +:+ encode_rune r)
  end.

Definition icapHeaderValue (v : string) : string :=
  let out := value_loop (runes v) "" in if bool_decide (out = "") then "-" else out.

Definition tab : string := String (ascii_of_Z 9) "".

Definition icapViolationLines (l : list Match) : string :=
  string_concat ((λ m, tab +:+ icapHeaderValue "" +:+ crlf +:+ tab +:+ icapHeaderValue (m_Rule m) +:+ crlf
                       +:+ tab +:+ "0" +:+ crlf +:+ tab +:+ "2" +:+ crlf) <$> l).

(** The sections of the echo with their offsets. *)
Fixpoint echo_offsets (hdrs : list (string * string)) (off : Z) : list (string * Z) * Z :=
  match hdrs with
  | [] => ([], off)
  | (name, raw) :: hdrs => let '(l, off') := echo_offsets hdrs (off + len raw) in ((name, off) :: l, off')
  end.

Definition render_sections (l : list (string * Z)) : string :=
  match (λ s, s.1 +:+ "=" +:+ FormatInt s.2) <$> l with
  | [] => ""
  | x :: xs => foldl (λ acc y, acc +:+ ", " +:+ y) x xs
  end.

Section Replies.
Context (sha256 : string → string).

Definition icapISTag (fp : string) : string := String dquote (hex_encode (string_take 8 (sha256 fp)) +:+ String dquote "").

Definition icapWriteStatusFP (fp : string) (code : Z) (reason extra : string) : string :=
  icapProtoVersion +:+ " " +:+ FormatInt code +:+ " " +:+ reason +:+ crlf
  +:+ "ISTag: " +:+ icapISTag fp +:+ crlf +:+ extra +:+ crlf.

Definition echo_has_body (e : icapEcho) (body : string) : bool := bool_decide (ec_bodyName e ≠ "") && (0 <? len body).

Definition echo_sections (e : icapEcho) (body : string) : list (string * Z) :=
  let '(l, off) := echo_offsets (ec_hdrs e) 0 in
  l ++ [(if echo_has_body e body then ec_bodyName e else "null-body", off)].

Definition icapWriteEcho (fp : string) (e : icapEcho) (body : string) : string :=
  icapProtoVersion +:+ " 200 OK" +:+ crlf
  +:+ "ISTag: " +:+ icapISTag fp +:+ crlf
  +:+ "Encapsulated: " +:+ render_sections (echo_sections e body) +:+ crlf
  +:+ crlf
  +:+ string_concat (snd <$> ec_hdrs e)
  +:+ (if echo_has_body e body then FormatInt16 (len body) +:+ crlf +:+ body +:+ crlf +:+ "0" +:+ crlf +:+ crlf else "").

(** The callers pass at least one match. *)
Definition icapWriteInfected (fp : string) (l : list Match) : string :=
  let threat := default "" (m_Rule <$> head l) in
  let body := "Blocked: " +:+ threat +:+ crlf in
  let infection := "X-Infection-Found: Type=0; Resolution=2; Threat=" +:+ threat +:+ ";" +:+ crlf in
  let resHdr := "HTTP/1.1 403 Forbidden" +:+ crlf +:+ "Content-Type: text/plain" +:+ crlf
                +:+ "Content-Length: " +:+ FormatInt (len body) +:+ crlf +:+ infection +:+ crlf in
  let listed := if (icapViolationsMaxListed <? length l)%nat then take icapViolationsMaxListed l else l in
  icapProtoVersion +:+ " 200 OK" +:+ crlf
  +:+ "ISTag: " +:+ icapISTag fp +:+ crlf
  +:+ infection
  +:+ "X-Violations-Found: " +:+ FormatInt (Z.of_nat (length listed)) +:+ crlf
  +:+ icapViolationLines listed
  +:+ "Encapsulated: res-hdr=0, res-body=" +:+ FormatInt (len resHdr) +:+ crlf
  +:+ crlf +:+ resHdr +:+ FormatInt16 (len body) +:+ crlf +:+ body +:+ crlf +:+ "0" +:+ crlf +:+ crlf.

Definition icapOptions (maxConns : Z) (fp date : string) : string :=
  icapProtoVersion +:+ " 200 OK" +:+ crlf +:+ "Methods: REQMOD, RESPMOD" +:+ crlf +:+ "ISTag: " +:+ icapISTag fp +:+ crlf
  +:+ "Allow: 204" +:+ crlf +:+ "Preview: 0" +:+ crlf +:+ "Encapsulated: null-body=0" +:+ crlf +:+ "Options-TTL: 3600" +:+ crlf
  +:+ "Max-Connections: " +:+ FormatInt maxConns +:+ crlf +:+ "Date: " +:+ date +:+ crlf +:+ crlf.

Definition reply_bytes (maxConns : Z) (r : IcapReply) : string :=
  match r with
  | RContinue => icapProtoVersion +:+ " 100 Continue" +:+ crlf +:+ crlf
  | RStatus fp code reason extra => icapWriteStatusFP fp code reason extra
  | REcho fp e body => icapWriteEcho fp e body
  | RInfected fp l => icapWriteInfected fp l
  | ROptions fp date => icapOptions maxConns fp date
  end.

End Replies.

(** ** Handlers *)

(** What happens around one request: the fingerprint in force, the admission
    race, whether the interim and the final reply can be written, the load,
    and the lookup of [lookupScanOutcomeStarted] with the fingerprint it reports. *)
Record IcapAnswers := mkIcapAnswers {
  ia_fp : string;
  ia_date : string;
  ia_free : bool;
  ia_race : Race;
  ia_continue_ok : bool;
  ia_reply_ok : bool;
  ia_occupied : Z;
  ia_autoEffort : Z;
  ia_interference : list Z;
  ia_lookup : string → string → ScanMeta → scanOutcome * LookupStatus * string
}.

(** The replies of a request and how it ends: an error, which ends the
    connection, or the unread bytes. *)
Record IcapOutcome := mkIcapOutcome { io_replies : list IcapReply; io_end : string + icapErr; io_state : ServerState }.

Section Handlers.
Context {T : TextEnv}.
Context (fin : ReadEnd) (cfg : ServerConfig) (a : IcapAnswers).

Definition icapWriteStatus (code : Z) (reason : string) : IcapReply := RStatus (ia_fp a) code reason "".

Definition bad_request : IcapReply := icapWriteStatus 400 "Bad Request".
Definition too_large : IcapReply := icapWriteStatus 413 "Request Entity Too Large".
Definition unavailable : IcapReply := icapWriteStatus 503 "Service Unavailable".

(** The reply to a failed body read; none after a timeout. *)
Definition body_error (e : icapErr) : list IcapReply :=
  if isTimeout e then [] else if bool_decide (e = EBodyTooLarge) then [too_large] else [bad_request].

(** The sections before the body: their bytes, and the body's name. *)
Fixpoint read_sections (sections : list string) (echo : icapEcho) (hasBody : bool) : Reader (icapEcho * bool) := λ s,
  match sections with
  | [] => inl ((echo, hasBody), s)
  | name :: sections =>
      if mem name ["req-hdr"; "res-hdr"] then
        match readHTTPHeaders fin s with
        | inr e => inr e
        | inl (raw, s) => read_sections sections {| echo with ec_hdrs := ec_hdrs echo ++ [(name, raw)] |} hasBody s
        end
      else if mem name ["req-body"; "res-body"; "opt-body"] then
        read_sections sections {| echo with ec_bodyName := name |} true s
      else read_sections sections echo hasBody s
  end.

(** Preview, interim reply and continuation. *)
Definition read_body (hasPreview : bool) (s : string) : list IcapReply * ((string * string) + icapErr) :=
  match readICAPChunkedBody fin (cf_MaxBody cfg) s with
  | inr e => (body_error e, inr e)
  | inl ((preview, ieof), s) =>
      if hasPreview && negb ieof then
        if negb (ia_continue_ok a) then ([], inr EWrite)
        else if cf_MaxBody cfg - len preview <=? 0 then ([RContinue; too_large], inr EBodyTooLarge)
        else match readICAPChunkedAppend fin preview (cf_MaxBody cfg) s with
        | inr e => (RContinue :: body_error e, inr e)
        | inl ((full, _), s) => ([RContinue], inl (full, s))
        end
      else ([], inl (preview, s))
  end.

Definition icap_meta (buf : string) : ScanMeta :=
  let '(d, _) := autoEnvDefault (cf_EffortAuto cfg) true (cf_Effort cfg) (cf_EffortMax cfg) (ia_occupied a) (cf_MaxInflight cfg)
                   (ia_autoEffort a) (ia_interference a) in
  {| zeroMeta with sm_RawKey := streamDedupKey buf; sm_Effort := ResolveEffortLevel 0 false d (cf_EffortMax cfg) |}.

Definition clean_reply (fp : string) (allow204 : bool) (echo : icapEcho) (buf : string) : IcapReply :=
  if allow204 then RStatus fp 204 "No Modification" "" else REcho fp echo buf.

(** From the lookup's answer on. *)
Definition verdict_reply (allow204 : bool) (echo : icapEcho) (buf : string) (r : scanOutcome * LookupStatus * string) (st : ServerState)
    : IcapReply * option icapErr * ServerState :=
  let '(o, status, fp) := r in
  let matches := lookupOrScan o status in
  if bool_decide (status = StCanceled) then (unavailable, Some EGaveUp, st)
  else
    let actionable := actionableMatches matches in
    let reason := degradedReason matches in
    if bool_decide (reason ≠ "") && bool_decide (actionable = []) then
      (icapWriteStatus 500 "Server Error", Some (EDegradedScan reason), st)
    else if bool_decide (actionable ≠ []) then (RInfected fp actionable, None, count "icap_infected" st)
    else (clean_reply fp allow204 echo buf, None, st).

(** Once the body is in. *)
Definition answer_body (allow204 : bool) (echo : icapEcho) (buf : string) (st : ServerState) : IcapReply * option icapErr * ServerState :=
  if bool_decide (buf = "") then (clean_reply (ia_fp a) allow204 echo "", None, st)
  else
    let meta := icap_meta buf in
    verdict_reply allow204 echo buf (ia_lookup a (icap_partition meta) buf meta) st.

Definition outcome_of (before : list IcapReply) (r : IcapReply * option icapErr * ServerState) (rest : string) : IcapOutcome :=
  let '(reply, err, st) := r in
  mkIcapOutcome (before ++ [reply]) (match err with Some e => inr e | None => if ia_reply_ok a then inl rest else inr EWrite end) st.

Definition handleICAPMod (hdr : MIMEHeader) (sections : list string) (s : string) (st : ServerState) : IcapOutcome :=
  let st := count "icap_requests" st in
  let allow204 := contains "204" (header_first "Allow" hdr) in
  let hasPreview := bool_decide (header_first "Preview" hdr ≠ "") in
  match read_sections sections (mkEcho [] "") false s with
  | inr e => mkIcapOutcome [bad_request] (inr e) st
  | inl ((echo, false), s) => outcome_of [] (answer_body allow204 echo "" st) s
  | inl ((echo, true), s) =>
      if negb (acquireOn (ia_free a) (ia_race a)) then mkIcapOutcome [unavailable] (inr EBusy) (count "busy" st)
      else match read_body hasPreview s with
      | (before, inr e) => mkIcapOutcome before (inr e) st
      | (before, inl (buf, s)) => outcome_of before (answer_body allow204 echo buf st) s
      end
  end.

Definition handleICAPOptions (s : string) (st : ServerState) : IcapOutcome :=
  outcome_of [] (ROptions (ia_fp a) (ia_date a), None, count "icap_options" st) s.

Definition handleICAPRequest (s : string) (st : ServerState) : IcapOutcome :=
  match readBoundedLine fin maxICAPHeaderLine s with
  | inr e => mkIcapOutcome (if bool_decide (e = ELineTooLong) then [bad_request] else []) (inr e) st
  | inl (line, s) =>
      match Fields line with
      | [method; _; proto] =>
          if negb (bool_decide (proto = icapProtoVersion)) then mkIcapOutcome [bad_request] (inr ERequestLine) st
          else match readBoundedMIMEHeader fin s with
          | inr e => mkIcapOutcome [bad_request] (inr e) st
          | inl (hdr, s) =>
              if bool_decide (method = "OPTIONS") then handleICAPOptions s st
              else if mem method ["REQMOD"; "RESPMOD"] then
                match (match header_values "Encapsulated" hdr with [v] => parseICAPEncapsulated v | _ => None end) with
                | None => mkIcapOutcome [bad_request] (inr EEncapsulated) st
                | Some sections => handleICAPMod hdr sections s st
                end
              else mkIcapOutcome [icapWriteStatus 501 "Method Not Implemented"] (inr (EMethod method)) st
          end
      | _ => mkIcapOutcome [bad_request] (inr ERequestLine) st
      end
  end.

End Handlers.

(** [serveICAPConn]: requests until the bytes end or one fails; [a i] is what
    happens around the [i]-th.  The last part tells whether the rest of the
    input is drained before the close. *)
Fixpoint serve_loop {T : TextEnv} (fin : ReadEnd) (cfg : ServerConfig) (a : nat → IcapAnswers) (fuel i : nat) (s : string) (st : ServerState)
    : list IcapReply * option icapErr * bool * ServerState :=
  match fuel, s with
  | O, _ | _, EmptyString => ([], None, false, st)
  | S fuel, _ =>
      let o := handleICAPRequest fin cfg (a i) s st in
      match io_end o with
      | inr e => (io_replies o, Some e, negb (isTimeout e) && negb (bool_decide (e = ERead AtEOF)), io_state o)
      | inl s => let '(l, e, drain, st) := serve_loop fin cfg a fuel (S i) s (io_state o) in (io_replies o ++ l, e, drain, st)
      end
  end.

Definition serveICAPConn {T : TextEnv} (fin : ReadEnd) (cfg : ServerConfig) (a : nat → IcapAnswers) (s : string) (st : ServerState) :=
  serve_loop fin cfg a (S (String.length s)) 0 s st.
