(* ===== verification/IcapServe.v ===== *)
(** * What the ICAP service guarantees

    The service of Icap: every connection is served to its end, a request is
    answered once, and a clean answer stands for a complete scan. *)

From Stdlib Require Import ZArith Lia.
From Stdlib Require Ascii String.
From stdpp Require Import base gmap strings list numbers.
From S2P Require Import Prelude GoStd GoText VerdictCache Effort Flight ScanVerdict ClientVerdict ScanFlow ScanServer ScanSystem IcapWire Icap.

Local Open Scope Z_scope.

(** ** Every reader leaves fewer bytes *)

(** The next line read, with the bound on what is left. *)
Ltac next_line Hr :=
  match goal with |- context [readBoundedLine ?f ?l ?s] =>
    destruct (readBoundedLine f l s) as [[line s1]|] eqn:Hr; [apply readBoundedLine_rest in Hr as (_&_&_&_&_&Hr)|done] end.

Section Readers.
Context (fin : ReadEnd).

Lemma head_loop_fuel f1 : ∀ f2 h s, (String.length s < f1)%nat → (String.length s < f2)%nat → head_loop fin f1 h s = head_loop fin f2 h s.
Proof.
  induction f1 as [|f1 IH]; intros [|f2] h s H1 H2; try lia. cbn [head_loop]. next_line Hr.
  case_bool_decide; [done|]. destruct (head_line line h); [apply IH; lia|done].
Qed.

Lemma http_loop_fuel f1 : ∀ f2 n out s, (String.length s < f1)%nat → (String.length s < f2)%nat →
  http_loop fin f1 n out s = http_loop fin f2 n out s.
Proof.
  induction f1 as [|f1 IH]; intros [|f2] n out s H1 H2; try lia. cbn [http_loop]. next_line Hr.
  case_match; [done|]. cbv zeta. case_match; [done|]. case_bool_decide; [done|apply IH; lia].
Qed.

Lemma head_loop_rest fuel : ∀ h s hdr s', head_loop fin fuel h s = inl (hdr, s') → (String.length s' < String.length s)%nat.
Proof.
  induction fuel as [|fuel IH]; intros h s hdr s'; [done|]. cbn [head_loop]. next_line Hr.
  case_bool_decide; [by intros [= _ <-]|]. destruct (head_line line h); [intros ?%IH; lia|done].
Qed.

Lemma http_loop_rest fuel : ∀ n out s raw s', http_loop fin fuel n out s = inl (raw, s') → (String.length s' < String.length s)%nat.
Proof.
  induction fuel as [|fuel IH]; intros n out s raw s'; [done|]. cbn [http_loop]. next_line Hr.
  case_match; [done|]. cbv zeta. case_match; [done|]. case_bool_decide; [by intros [= _ <-]|intros ?%IH; lia].
Qed.

(** The loops from their middle, without fuel. *)
Definition http_from (n : Z) (out : string) : Reader string := λ s, http_loop fin (S (String.length s)) n out s.
Definition head_from (h : HeadState) : Reader MIMEHeader := λ s, head_loop fin (S (String.length s)) h s.

Lemma http_from_eq n out s : http_from n out s =
  match readBoundedLine fin maxICAPHeaderLine s with
  | inr e => inr e
  | inl (line, s) =>
      if maxICAPHeaderCount <? n then inr ETooManyHeaders
      else if maxICAPHeaderBytes <? len (out +:+ line +:+ crlf) then inr EHeadTooLarge
      else if bool_decide (line = "") then inl (out +:+ line +:+ crlf, s)
      else http_from (n + 1) (out +:+ line +:+ crlf) s
  end.
Proof.
  unfold http_from at 1. cbn [http_loop]. next_line Hr. case_match; [done|]. cbv zeta. case_match; [done|]. case_bool_decide; [done|].
  unfold http_from. apply http_loop_fuel; lia.
Qed.

Lemma head_from_eq h s : head_from h s =
  match readBoundedLine fin maxICAPHeaderLine s with
  | inr e => inr e
  | inl (line, s) =>
      if bool_decide (line = "") then inl (hs_hdr h, s)
      else match head_line line h with inr e => inr e | inl h => head_from h s end
  end.
Proof.
  unfold head_from at 1. cbn [head_loop]. next_line Hr. case_bool_decide; [done|]. destruct (head_line line h); [|done].
  unfold head_from. apply head_loop_fuel; lia.
Qed.

Lemma last_line_rest s s' : last_line fin s = inl (tt, s') → (String.length s' <= String.length s)%nat.
Proof.
  unfold last_line. destruct (readBoundedLine _ _ s) as [[l s1]|e] eqn:Hr.
  - apply readBoundedLine_rest in Hr as (_&_&_&_&_&Hr). intros [= <-]. lia.
  - destruct e as [[]| | | | | | | | | | | | | | | | |]; try done. intros [= <-]. cbn. lia.
Qed.

Lemma chunk_loop_rest fuel : ∀ out mb s r s', chunk_loop fin fuel out mb s = inl (r, s') → (String.length s' < String.length s)%nat.
Proof.
  induction fuel as [|fuel IH]; intros out mb s r s'; [done|]. cbn [chunk_loop]. unfold readICAPChunkHeaderLine. next_line Hr.
  destruct (chunk_header line) as [[size b]|]; [|done]. destruct (size =? 0).
  - destruct (last_line fin s1) as [[[] s2]|] eqn:Hl; [|done]. apply last_line_rest in Hl. intros [= _ <-]. lia.
  - cbv zeta. case_match; [done|]. destruct (read_steps _ _ _ _ s1) as [[out' s2]|] eqn:Hs; [|done].
    apply read_steps_rest in Hs as (_&_&->). destruct (readBoundedLine _ _ (string_drop _ s1)) as [[l s3]|] eqn:Hr'; [|done].
    apply readBoundedLine_rest in Hr' as (_&_&_&_&_&Hr'). rewrite string_drop_length in Hr'. intros ?%IH. lia.
Qed.

Lemma read_sections_rest l : ∀ e b s r s', read_sections fin l e b s = inl (r, s') → (String.length s' <= String.length s)%nat.
Proof.
  induction l as [|n l IH]; intros e b s r s'; cbn [read_sections]; [by intros [= _ <-]|].
  case_match; [|case_match; by apply IH].
  unfold readHTTPHeaders. destruct (http_loop _ _ _ _ s) as [[raw s1]|] eqn:Hr; [|done]. apply http_loop_rest in Hr. intros ?%IH. lia.
Qed.

End Readers.

(** ** One request *)

(** A reply that answers the request. *)
Definition final_reply (r : IcapReply) : bool := match r with RContinue => false | _ => true end.

(** The errors that end a connection without an answer. *)
Definition silent_error (e : icapErr) : bool := match e with ERead _ | EWrite => true | _ => false end.

(** What may precede it. *)
Definition interim (l : list IcapReply) : Prop := l = [] ∨ l = [RContinue].

Definition answered_once (l : list IcapReply) : Prop := ∃ before r, l = before ++ [r] ∧ interim before ∧ final_reply r = true.

(** What a request on [n] bytes may come to: one answer and fewer bytes; or an
    error, answered unless it is a failed read or write. *)
Definition request_done (n : nat) (o : IcapOutcome) : Prop :=
  match io_end o with
  | inl rest => (String.length rest < n)%nat ∧ answered_once (io_replies o)
  | inr e => answered_once (io_replies o) ∨ silent_error e = true ∧ interim (io_replies o)
  end.

Section Requests.
Context {T : TextEnv}.
Context (fin : ReadEnd) (cfg : ServerConfig) (a : IcapAnswers).

Lemma answered_final r : final_reply r = true → answered_once [r].
Proof. intros Hr. exists [], r. split_and!; [done|by left|done]. Qed.

Lemma refused_done n r e st : final_reply r = true → request_done n (mkIcapOutcome [r] (inr e) st).
Proof. intros Hr. left. by apply answered_final. Qed.

Lemma outcome_done n before r rest : interim before → final_reply r.1.1 = true → (String.length rest < n)%nat →
  request_done n (outcome_of a before r rest).
Proof.
  destruct r as [[r err] st]. intros Hb Hr Hn. cbn in Hr. assert (answered_once (before ++ [r])) by (by exists before, r).
  unfold outcome_of, request_done. cbn. destruct err; [by left|]. destruct (ia_reply_ok a); [done|by left].
Qed.

Lemma clean_final fp b echo buf : final_reply (clean_reply fp b echo buf) = true.
Proof. by destruct b. Qed.

Lemma verdict_final b echo buf r st : final_reply (verdict_reply a b echo buf r st).1.1 = true.
Proof. destruct r as [[o status] fp]. unfold verdict_reply. repeat case_bool_decide; cbn; done || apply clean_final. Qed.

Lemma answer_final b echo buf st : final_reply (answer_body cfg a b echo buf st).1.1 = true.
Proof. unfold answer_body. case_bool_decide; [apply clean_final|apply verdict_final]. Qed.

Lemma body_error_done e : answered_once (body_error a e) ∧ answered_once (RContinue :: body_error a e)
  ∨ silent_error e = true ∧ body_error a e = [].
Proof.
  unfold body_error. case_match eqn:Ht; [right|left].
  - by apply bool_decide_eq_true in Ht as ->.
  - case_bool_decide; (split; [by apply answered_final|]); eexists [RContinue], _; (split_and!; [done|by right|done]).
Qed.

Lemma read_body_done hp n s before r st : (String.length s < n)%nat → read_body fin cfg a hp s = (before, r) →
  match r with
  | inr e => request_done n (mkIcapOutcome before (inr e) st)
  | inl (_, rest) => interim before ∧ (String.length rest < n)%nat
  end.
Proof.
  intros Hn. unfold read_body.
  assert (∀ e, request_done n (mkIcapOutcome (body_error a e) (inr e) st) ∧ request_done n (mkIcapOutcome (RContinue :: body_error a e) (inr e) st)) as He.
  { intros e. unfold request_done. cbn. destruct (body_error_done e) as [[? ?]|[? ->]]; [split; by left|]. split; right; (split; [done|]); [by left|by right]. }
  unfold readICAPChunkedBody, readICAPChunkedAppend. destruct (chunk_loop _ _ "" _ s) as [[[preview ieof] s1]|e] eqn:Hr; [|intros [= <- <-]; apply He].
  apply chunk_loop_rest in Hr. destruct (_ && _).
  - destruct (ia_continue_ok a); [|intros [= <- <-]; right; split; [done|by left]].
    destruct (_ <=? 0); [intros [= <- <-]; left; exists [RContinue], (too_large a); split_and!; [done|by right|done]|]. cbn [negb].
    destruct (chunk_loop _ _ preview _ s1) as [[[full b] s2]|e] eqn:Hr2; [|intros [= <- <-]; apply He].
    apply chunk_loop_rest in Hr2. intros [= <- <-]. split; [by right|lia].
  - intros [= <- <-]. split; [by left|lia].
Qed.

Lemma handleICAPMod_done n hdr l s st : (String.length s < n)%nat → request_done n (handleICAPMod fin cfg a hdr l s st).
Proof.
  intros Hn. unfold handleICAPMod. destruct (read_sections _ _ _ _ s) as [[[echo hasBody] s1]|e] eqn:Hr; [|by apply refused_done].
  apply read_sections_rest in Hr. destruct hasBody; [|apply outcome_done; [by left|apply answer_final|lia]].
  destruct (acquireOn _ _); [|by apply refused_done]. cbn [negb].
  destruct (read_body _ _ _ _ s1) as [before r] eqn:Hb. eapply (read_body_done _ n) in Hb; [|lia].
  destruct r as [[buf rest]|e]; [|exact Hb]. destruct Hb. by apply outcome_done; [|apply answer_final|].
Qed.

Lemma handleICAPRequest_done s st : request_done (String.length s) (handleICAPRequest fin cfg a s st).
Proof.
  unfold handleICAPRequest. destruct (readBoundedLine _ _ s) as [[line s1]|e] eqn:Hr.
  - apply readBoundedLine_rest in Hr as (_&_&_&_&_&Hr).
    destruct (Fields line) as [|method [|uri [|proto [|]]]]; try by apply refused_done.
    destruct (bool_decide (proto = _)); [|by apply refused_done]. cbn [negb].
    unfold readBoundedMIMEHeader. destruct (head_loop _ _ _ s1) as [[hdr s2]|e] eqn:Hh; [|by apply refused_done].
    apply head_loop_rest in Hh. case_bool_decide; [apply outcome_done; [by left|done|lia]|].
    case_match; [|by apply refused_done]. case_match; [apply handleICAPMod_done; lia|by apply refused_done].
  - rewrite readBoundedLine_spec in Hr. unfold line_spec in Hr.
    assert (e = ELineTooLong ∨ e = ERead fin) as [-> | ->] by (repeat case_match; simplify_eq; auto); [by apply refused_done|].
    right. split; [done|by left].
Qed.

End Requests.

(** ** A connection *)

Section Connections.
Context {T : TextEnv}.
Context (fin : ReadEnd) (cfg : ServerConfig).

Lemma request_rest a s st rest : io_end (handleICAPRequest fin cfg a s st) = inl rest → (String.length rest < String.length s)%nat.
Proof. intros H. pose proof (handleICAPRequest_done fin cfg a s st) as Hd. unfold request_done in Hd. rewrite H in Hd. by destruct Hd. Qed.

Lemma serve_loop_fuel a f1 : ∀ f2 i s st, (String.length s < f1)%nat → (String.length s < f2)%nat →
  serve_loop fin cfg a f1 i s st = serve_loop fin cfg a f2 i s st.
Proof.
  induction f1 as [|f1 IH]; intros [|f2] i s st H1 H2; try lia. cbn [serve_loop]. destruct s as [|c s']; [done|].
  remember (String c s') as s. cbv zeta. destruct (io_end _) as [rest|e] eqn:He; [|done]. apply request_rest in He.
  rewrite (IH f2) by lia. done.
Qed.

(** The rest of a connection, from its [i]-th request on. *)
Definition serve_from (a : nat → IcapAnswers) (i : nat) (s : string) (st : ServerState) :=
  serve_loop fin cfg a (S (String.length s)) i s st.

(** A connection is served request by request: it stops when the input has
    been used up or at the first request that fails, every request before that
    was answered, and exactly once, possibly after one interim reply, and the
    failed one was answered too unless the peer could not be read or written;
    nothing is read or answered after it. *)
Theorem serve_from_eq a i s st : s ≠ "" →
  let o := handleICAPRequest fin cfg (a i) s st in
  request_done (String.length s) o
  ∧ serve_from a i s st =
    match io_end o with
    | inr e => (io_replies o, Some e, negb (isTimeout e) && negb (bool_decide (e = ERead AtEOF)), io_state o)
    | inl rest => let '(l, e, drain, st) := serve_from a (S i) rest (io_state o) in (io_replies o ++ l, e, drain, st)
    end.
Proof.
  intros Hs o. split; [apply handleICAPRequest_done|]. unfold serve_from at 1. cbn [serve_loop]. destruct s as [|c s']; [done|].
  remember (String c s') as s. cbv zeta. fold o. destruct (io_end o) as [rest|e] eqn:He; [|done]. apply request_rest in He.
  unfold serve_from. by rewrite (serve_loop_fuel a (String.length s) (S (String.length rest))) by lia.
Qed.

End Connections.

(** *** When a request stays without an answer *)

Section Silence.
Context {T : TextEnv}.
Context (fin : ReadEnd) (cfg : ServerConfig) (a : IcapAnswers).

(** The sections and the body of a request that is read to its end. *)
Definition request_content (s : string) : option (icapEcho * string) :=
  match readBoundedLine fin maxICAPHeaderLine s with
  | inr _ => None
  | inl (_, s) =>
      match readBoundedMIMEHeader fin s with
      | inr _ => None
      | inl (hdr, s) =>
          match (match header_values "Encapsulated" hdr with [v] => parseICAPEncapsulated v | _ => None end) with
          | None => None
          | Some sections =>
              match read_sections fin sections (mkEcho [] "") false s with
              | inr _ => None
              | inl ((echo, false), _) => Some (echo, "")
              | inl ((echo, true), s) =>
                  match read_body fin cfg a (bool_decide (header_first "Preview" hdr ≠ "")) s with
                  | (_, inl (body, _)) => Some (echo, body)
                  | _ => None
                  end
              end
          end
      end
  end.

Definition carries (s : string) (echo : icapEcho) (body : string) : Prop := request_content s = Some (echo, body).

(** The request line never arrived, the interim reply could not be written, or
    the body timed out before it was complete. *)
Definition silent_request (s : string) (o : IcapOutcome) : Prop :=
  io_replies o = [] ∧ io_end o = inr (ERead fin) ∧ readBoundedLine fin maxICAPHeaderLine s = inr (ERead fin)
  ∨ io_replies o = [] ∧ io_end o = inr EWrite ∧ ia_continue_ok a = false
  ∨ interim (io_replies o) ∧ io_end o = inr (ERead AtTimeout) ∧ fin = AtTimeout ∧ request_content s = None.

Lemma line_error limit s e : readBoundedLine fin limit s = inr e → e = ELineTooLong ∨ e = ERead fin.
Proof. rewrite readBoundedLine_spec. unfold line_spec. repeat case_match; intros [= <-]; auto. Qed.

Lemma steps_error fuel : ∀ left out s r, read_steps fin fuel left out s = inr (ERead r) → r = fin.
Proof.
  induction fuel as [|fuel IH]; intros [|left] out s r; cbn [read_steps]; [done..|]. unfold ReadFull.
  destruct (_ <=? _)%nat; [apply IH|]. destruct s, fin; by intros [= <-].
Qed.

Lemma header_error raw r : chunk_header raw ≠ inr (ERead r).
Proof. unfold chunk_header. by repeat case_match; simplify_eq. Qed.

Lemma chunk_loop_error fuel : ∀ out mb s r, chunk_loop fin fuel out mb s = inr (ERead r) → r = fin.
Proof.
  induction fuel as [|fuel IH]; intros out mb s r; [done|]. cbn [chunk_loop]. unfold readICAPChunkHeaderLine.
  destruct (readBoundedLine fin _ s) as [[raw s1]|e] eqn:Hl; [|intros [= ->]; by apply line_error in Hl as [|[=]]].
  destruct (chunk_header raw) as [[size b]|e] eqn:Hh; [|intros [= ->]; by apply header_error in Hh].
  destruct (size =? 0).
  - unfold last_line. destruct (readBoundedLine fin _ s1) as [[l s2]|e] eqn:Hl2; [done|]. apply line_error in Hl2 as [-> | ->]; [done|].
    by destruct fin; intros [= <-].
  - cbv zeta. destruct (_ || _); [done|]. destruct (read_steps fin _ _ _ s1) as [[out' s2]|e] eqn:Hs; [|intros [= ->]; by apply steps_error in Hs].
    destruct (readBoundedLine fin _ s2) as [[l s3]|e] eqn:Hl3; [apply IH|]. intros [= ->]. by apply line_error in Hl3 as [|[=]].
Qed.

Lemma body_error_cases e : answered_once (body_error a e) ∧ answered_once (RContinue :: body_error a e) ∨ e = ERead AtTimeout ∧ body_error a e = [].
Proof.
  unfold body_error. case_match eqn:Ht; [right; by apply bool_decide_eq_true in Ht|left].
  case_bool_decide; (split; [by apply answered_final|]); eexists [RContinue], _; (split_and!; [done|by right|done]).
Qed.

Lemma read_body_silent hp s before e : read_body fin cfg a hp s = (before, inr e) →
  answered_once before ∨ before = [] ∧ e = EWrite ∧ ia_continue_ok a = false ∨ interim before ∧ e = ERead AtTimeout ∧ fin = AtTimeout.
Proof.
  unfold read_body, readICAPChunkedBody, readICAPChunkedAppend. destruct (chunk_loop _ _ "" _ s) as [[[preview ieof] s1]|e1] eqn:Hr.
  - destruct (_ && _); [|done]. destruct (ia_continue_ok a) eqn:Hc; cbn [negb]; [|intros [= <- <-]; auto].
    case_match; [intros [= <- <-]; left; exists [RContinue], (too_large a); split_and!; [done|by right|done]|].
    destruct (chunk_loop _ _ preview _ s1) as [[[full b] s2]|e2] eqn:Hr2; [done|]. intros [= <- <-].
    destruct (body_error_cases e2) as [[_ ?]|[-> ->]]; [by left|]. right; right. apply chunk_loop_error in Hr2. split; [by right|done].
  - intros [= <- <-]. destruct (body_error_cases e1) as [[? _]|[-> ->]]; [by left|]. right; right. apply chunk_loop_error in Hr. split; [by left|done].
Qed.

Lemma answered_outcome before r rest : interim before → final_reply r.1.1 = true → answered_once (io_replies (outcome_of a before r rest)).
Proof. destruct r as [[r err] st]. intros Hb Hr. by exists before, r. Qed.

Lemma handleICAPRequest_silent s st e : io_end (handleICAPRequest fin cfg a s st) = inr e →
  answered_once (io_replies (handleICAPRequest fin cfg a s st)) ∨ silent_request s (handleICAPRequest fin cfg a s st).
Proof.
  unfold silent_request, request_content, handleICAPRequest.
  destruct (readBoundedLine _ _ s) as [[line s1]|e1] eqn:Hr; cbn [io_replies io_end].
  2:{ apply line_error in Hr as Hl. case_bool_decide; [left; by apply answered_final|]. destruct Hl as [| ->]; [done|]. right. left. by split_and!. }
  destruct (Fields line) as [|method [|uri [|proto [|]]]]; try (left; by apply answered_final).
  destruct (bool_decide (proto = _)); [|left; by apply answered_final]. cbn [negb].
  destruct (readBoundedMIMEHeader fin s1) as [[hdr s2]|e1] eqn:Hh; [|left; by apply answered_final].
  case_bool_decide; [left; by apply answered_outcome; [left|]|]. destruct (mem method _); [|left; by apply answered_final].
  destruct (match header_values "Encapsulated" hdr with [v] => parseICAPEncapsulated v | _ => None end) as [sections|]; [|left; by apply answered_final].
  unfold handleICAPMod. destruct (read_sections _ _ _ _ s2) as [[[echo hasBody] s3]|e1]; [|left; by apply answered_final].
  destruct hasBody; [|left; apply answered_outcome; [by left|apply answer_final]].
  destruct (acquireOn _ _); [|left; by apply answered_final]. cbn [negb].
  destruct (read_body _ _ _ _ s3) as [before [[buf rest]|e1]] eqn:Hb.
  - intros _. left. pose proof (read_body_done fin cfg a _ _ _ _ _ st (Nat.lt_succ_diag_r _) Hb) as [? _]. apply answered_outcome; [done|apply answer_final].
  - cbn [io_replies io_end]. intros [= ->]. apply read_body_silent in Hb as [?|[(->&->&?)|(?&->&?)]]; [by left|right; right; left; by split_and!|].
    right; right; right. by split_and!.
Qed.

End Silence.

(** *** Every request of a connection *)

Section Answers.
Context {T : TextEnv}.
Context (fin : ReadEnd) (cfg : ServerConfig) (a : nat → IcapAnswers).

(** The service of a connection, request by request, from the [i]-th on: what
    the handler replies to each; it goes on exactly until the input is used up
    or a request ends the connection. *)
Inductive conversation : nat → ServerState → string → list (list IcapReply) → option icapErr → Prop :=
  | conversation_end i st : conversation i st "" [] None
  | conversation_next i st s rest l e : s ≠ "" →
      io_end (handleICAPRequest fin cfg (a i) s st) = inl rest →
      answered_once (io_replies (handleICAPRequest fin cfg (a i) s st)) →
      conversation (S i) (io_state (handleICAPRequest fin cfg (a i) s st)) rest l e →
      conversation i st s (io_replies (handleICAPRequest fin cfg (a i) s st) :: l) e
  | conversation_stop i st s e : s ≠ "" →
      io_end (handleICAPRequest fin cfg (a i) s st) = inr e →
      answered_once (io_replies (handleICAPRequest fin cfg (a i) s st))
        ∨ silent_request fin cfg (a i) s (handleICAPRequest fin cfg (a i) s st) →
      conversation i st s [io_replies (handleICAPRequest fin cfg (a i) s st)] (Some e).

Lemma serve_from_answers n : ∀ i s st l e drain st', (String.length s <= n)%nat →
  serve_from fin cfg a i s st = (l, e, drain, st') → ∃ groups, conversation i st s groups e ∧ l = concat groups.
Proof.
  induction n as [|n IH]; intros i s st l e drain st' Hn.
  { destruct s; [|cbn in Hn; lia]. intros [= <- <- _ _]. exists []. split; [constructor|done]. }
  destruct s as [|c s0]; [intros [= <- <- _ _]; exists []; split; [constructor|done]|].
  remember (String c s0) as s. assert (s ≠ "") as Hs0 by (by subst). destruct (serve_from_eq fin cfg a i s st Hs0) as [Hd ->].
  unfold request_done in Hd. destruct (io_end _) as [rest|e'] eqn:He.
  - destruct Hd as [Hlt Hd]. destruct (serve_from fin cfg a (S i) rest _) as [[[l1 e1] d1] st1] eqn:Hs. intros [= <- <- _ _].
    apply IH in Hs as (groups&Hg&->); [|lia]. eexists. split; [by eapply conversation_next|done].
  - intros [= <- <- _ _]. eexists. split; [by eapply conversation_stop, handleICAPRequest_silent|]. cbn. by rewrite app_nil_r.
Qed.

(** C19: Every request on a connection is answered.  Whatever the bytes, the
    service is a conversation that uses up the input or stops at the first
    request that ends the connection: each request before that gets exactly one
    final reply after at most one interim reply, in order; so does the one that
    ends the connection, unless its request line never arrived, the interim
    reply could not be written, or its body timed out incomplete; and nothing
    else is sent. *)
Theorem connection_answers s st : let '(l, e, _, _) := serveICAPConn fin cfg a s st in
  ∃ groups, conversation 0 st s groups e ∧ l = concat groups.
Proof.
  destruct (serveICAPConn fin cfg a s st) as [[[l e] d] st'] eqn:Hs. by eapply serve_from_answers.
Qed.

End Answers.

(** ** What a clean answer stands for *)

(** An answer that lets the content through. *)
Definition is_clean (r : IcapReply) : bool :=
  match r with RStatus _ code _ _ => code =? 204 | REcho _ _ _ => true | _ => false end.

Section Clean.
Context {T : TextEnv} {TOk : TextEnvOk T} {E : ScanEnv} {R : RedisEnv} {ROk : RedisEnvOk R}.
Context (loaded : key_parts → Scanner → scannerGeneration → Prop) (pfx mac : string) (written : string → string → Prop).
Context (fin : ReadEnd) (cfg : ServerConfig) (a : IcapAnswers).

Lemma read_body_replies hp s before r : read_body fin cfg a hp s = (before, r) → Forall (λ r, is_clean r = false) before.
Proof.
  assert (∀ e, Forall (λ r, is_clean r = false) (body_error a e)) as He by (intros e; unfold body_error; repeat case_match; by repeat constructor).
  unfold read_body. destruct (readICAPChunkedBody _ _ s) as [[[preview ieof] s1]|e]; [|intros [= <- _]; apply He].
  destruct (_ && _); [|intros [= <- _]; constructor]. destruct (ia_continue_ok a); [|intros [= <- _]; constructor]. cbn [negb].
  case_match; [intros [= <- _]; by repeat constructor|].
  destruct (readICAPChunkedAppend _ _ _ s1) as [[[full b] s2]|e]; intros [= <- _]; [by repeat constructor|by constructor].
Qed.

(** What [lookupScanOutcomeStarted] answers for [buf] and the rules that [k]
    identifies. *)
Definition looks_up (k : key_parts) (done : bool) (buf : string) : Prop :=
  let meta := icap_meta cfg a buf in
  answered (scanned loaded) pfx mac written (full_key k (icap_partition meta) meta) done
    (ia_lookup a (icap_partition meta) buf meta).1.1 (ia_lookup a (icap_partition meta) buf meta).1.2.

Lemma icap_asks k buf : parts_ok k → asks k (icap_partition (icap_meta cfg a buf)) (icap_meta cfg a buf) buf.
Proof. intros Hk. unfold icap_meta. destruct (autoEnvDefault _ _ _ _ _ _ _ _) as [d n]. by split; [| |right| |]. Qed.

(** A clean reply to a body. *)
Definition clean_for (k : key_parts) (echo : icapEcho) (body : string) (r : IcapReply) : Prop :=
  (∀ fp e b, r = REcho fp e b → e = echo ∧ b = body) ∧ (body = "" ∨ clean_scan loaded k (icap_meta cfg a body) body).

Lemma clean_reply_echo fp b echo body : ∀ fp' e b', clean_reply fp b echo body = REcho fp' e b' → e = echo ∧ b' = body.
Proof. intros fp' e b'. destruct b; [done|by intros [= _ <- <-]]. Qed.

Lemma answer_clean k done b echo body st : (∀ rk v, written rk v → sealed_verdict (scanned loaded) pfx mac rk v) → parts_ok k → (body ≠ "" → looks_up k done body) →
  is_clean (answer_body cfg a b echo body st).1.1 = true → clean_for k echo body (answer_body cfg a b echo body st).1.1.
Proof.
  intros Hw Hk Ha. unfold answer_body. case_bool_decide as Hb; [subst; intros _; split; [apply clean_reply_echo|by left]|].
  cbv zeta. set (meta := icap_meta cfg a body). pose proof (Ha Hb) as Hans. unfold looks_up in Hans. fold meta in Hans. cbv zeta in Hans.
  destruct (ia_lookup a (icap_partition meta) body meta) as [[o status] fp]. cbn [fst snd] in Hans. unfold verdict_reply.
  case_bool_decide as Hcan; [done|]. destruct (bool_decide (degradedReason _ ≠ "") && _) eqn:Hdeg; [done|].
  destruct (bool_decide (actionableMatches _ ≠ [])) eqn:Hact; [done|]. intros _. split; [apply clean_reply_echo|right].
  apply bool_decide_eq_false, dec_stable in Hact.
  rewrite (bool_decide_eq_true_2 (_ = [])), andb_true_r in Hdeg by done. apply bool_decide_eq_false, dec_stable in Hdeg.
  destruct (response_complete (scanned loaded) _ done o status (answered_sound (scanned loaded) pfx mac written _ done o status Hw Hans) Hdeg) as [[? _]|(m&Hm&Hl)]; [done|].
  rewrite Hl in *. apply served_clean in Hm as (m0&Hm0&?&?); [|done|by apply actionable_nil; rewrite <- actionableMatches_filter].
  eapply scanned_clean; [by apply icap_asks|exact Hm0|done..].
Qed.

(** C3: ICAP never lets content through unscanned: a reply that does (204 or an
    echo) is only given to a request that was read to its end, echoes exactly
    the sections and the body it carried, and, unless that body is empty, a run
    of [scanGeneration] stands behind it ([clean_scan]): with a scanner and
    rules published under the fingerprint of the request's lease, on a body with
    the same hash under the same metadata, it ended without an error, its
    extraction neither panicked nor hit a cap, and every rule libyara matched,
    asked by that run, in the raw bytes and in every extracted stream is denied
    or was reported as log-only (the raw scan may have failed next to log-only
    matches); a scan that was cancelled, failed or degraded is never answered
    that way. *)
Theorem icap_clean_means_scanned k done s st r : (∀ rk v, written rk v → sealed_verdict (scanned loaded) pfx mac rk v) → parts_ok k →
  (∀ echo body, carries fin cfg a s echo body → body ≠ "" → looks_up k done body) →
  r ∈ io_replies (handleICAPRequest fin cfg a s st) → is_clean r = true →
  ∃ echo body, carries fin cfg a s echo body ∧ clean_for k echo body r.
Proof.
  intros Hw Hk Ha. unfold handleICAPRequest. destruct (readBoundedLine _ _ s) as [[line s1]|e] eqn:Hr.
  2:{ case_bool_decide; cbn [io_replies]; [intros ->%list_elem_of_singleton; done|by intros ?%elem_of_nil]. }
  assert (∀ l, Forall (λ r, is_clean r = false) l → r ∈ l → is_clean r = true → ∃ echo body, carries fin cfg a s echo body ∧ clean_for k echo body r) as Hnone
    by (intros l Hl Hin Hcl; rewrite list.Forall_forall in Hl; by rewrite (Hl r Hin) in Hcl).
  assert (∀ r0, is_clean r0 = false → r ∈ [r0] → is_clean r = true → ∃ echo body, carries fin cfg a s echo body ∧ clean_for k echo body r) as Hno
    by (intros r0 H0; apply Hnone; by repeat constructor).
  destruct (Fields line) as [|method [|uri [|proto [|]]]]; try by apply Hno.
  destruct (bool_decide (proto = _)); [|by apply Hno]. cbn [negb].
  destruct (readBoundedMIMEHeader fin s1) as [[hdr s2]|e] eqn:Hh; [|by apply Hno].
  case_bool_decide; [by apply Hno|]. destruct (mem method _); [|by apply Hno].
  destruct (header_values "Encapsulated" hdr) as [|v [|]] eqn:Hv; try by apply Hno.
  destruct (parseICAPEncapsulated v) as [sections|] eqn:Hp; [|by apply Hno]. unfold handleICAPMod.
  destruct (read_sections _ _ _ _ s2) as [[[echo hasBody] s3]|e] eqn:Hs; [|by apply Hno].
  assert (∀ b body st0 err st', carries fin cfg a s echo body → answer_body cfg a b echo body st0 = (r, err, st') → is_clean r = true →
    ∃ echo body', carries fin cfg a s echo body' ∧ clean_for k echo body' r) as Hyes.
  { intros b body st0 err st' Hc Hans Hcl. exists echo, body. split; [done|].
    pose proof (answer_clean k done b echo body st0 Hw Hk (Ha echo body Hc)) as H0. rewrite Hans in H0. by apply H0. }
  destruct hasBody.
  - destruct (acquireOn _ _); [|by apply Hno]. cbn [negb].
    destruct (read_body _ _ _ _ s3) as [before r'] eqn:Hb. pose proof (read_body_replies _ _ _ _ Hb) as Hbefore.
    destruct r' as [[buf rest]|e]; [|by apply Hnone].
    destruct (answer_body _ _ _ _ _ _) as [[reply err] st'] eqn:Hans. cbn [outcome_of io_replies].
    intros [Hin|Hin]%elem_of_app; [exact (Hnone before Hbefore Hin)|]. apply list_elem_of_singleton in Hin as ->.
    eapply Hyes, Hans. unfold carries, request_content. by rewrite Hr, Hh, Hv, Hp, Hs, Hb.
  - destruct (answer_body _ _ _ _ _ _) as [[reply err] st'] eqn:Hans. cbn [outcome_of io_replies app]. intros ->%list_elem_of_singleton.
    eapply Hyes, Hans. unfold carries, request_content. by rewrite Hr, Hh, Hv, Hp, Hs.
Qed.

End Clean.
