(* ===== verification/IcapEcho.v ===== *)
(** * Content returned unchanged

    A clean verdict without 204 echoes the encapsulated message: its section
    list is read back by the service's own parser, and its headers and body
    are the ones that came in. *)

From Stdlib Require Import ZArith Lia.
From Stdlib Require Ascii String.
From stdpp Require Import base gmap strings list numbers pretty.
From S2P Require Import Prelude GoStd GoText VerdictCache Effort Flight ScanVerdict ClientVerdict ScanServer IcapWire Icap IcapServe.

Local Open Scope Z_scope.

(** ** Decimal numbers *)

Lemma digit_val_pretty n : (n < 10)%N → digit_val (pretty_N_char n) = Some (Z.of_N n).
Proof. intros Hn. assert (n ∈ (N.of_nat <$> seq 0 10)) as Hin.
  { apply list_elem_of_fmap. exists (N.to_nat n). split; [lia|]. apply elem_of_seq. lia. }
  revert n Hin Hn. apply (list.Forall_forall (λ n, (n < 10)%N → _)). by repeat constructor. Qed.

Lemma digits_val_go x : ∀ s, digits_val 0 (pretty_N_go x s) = digits_val (Z.of_N x) s.
Proof.
  induction (N.lt_wf_0 x) as [x _ IH]; intros s. destruct (decide (x = 0%N)) as [->|Hx]; [by rewrite pretty_N_go_0|].
  rewrite pretty_N_go_step by lia. rewrite IH by (apply N.div_lt; lia). cbn [digits_val].
  rewrite digit_val_pretty by (apply N.mod_lt; lia). f_equal. rewrite N2Z.inj_div, N2Z.inj_mod. pose proof (Z.div_mod (Z.of_N x) 10). lia.
Qed.

Lemma digits_FormatInt n : 0 <= n → digits_val 0 (FormatInt n) = Some n ∧ FormatInt n ≠ "".
Proof.
  intros Hn. assert (digits_val 0 (FormatInt n) = Some n) as Hd.
  { unfold FormatInt. destruct n as [|p|p]; [done| |lia]. change (pretty (Z.pos p)) with (pretty (N.pos p)).
    change (pretty (N.pos p)) with (pretty_N_go (N.pos p) ""). by rewrite digits_val_go. }
  split; [done|]. intros He. rewrite He in Hd. injection Hd as <-. done.
Qed.

Lemma ParseInt_FormatInt n : 0 <= n < 2 ^ 63 → ParseInt (FormatInt n) 64 = Some n.
Proof.
  intros Hn. destruct (digits_FormatInt n) as [Hd Hne]; [lia|]. unfold ParseInt. destruct (FormatInt n) as [|c s]; [done|].
  assert (48 <= byte c <= 57) as Hc.
  { cbn [digits_val] in Hd. destruct (digit_val c) eqn:Hv; [|done]. unfold digit_val in Hv. case_match; [|done]. bool_hyps. lia. }
  cbv zeta. replace (byte c =? 45) with false by lia. replace (byte c =? 43) with false by lia. cbn [orb]. rewrite Hd.
  change (64 - 1) with 63. by replace (n <? 2 ^ 63) with true by lia.
Qed.

(** ** The section list *)

Definition render_section (s : string * Z) : string := s.1 +:+ "=" +:+ FormatInt s.2.

Lemma render_sections_concat x l :
  render_sections (x :: l) = render_section x +:+ string_concat ((λ y, ", " +:+ render_section y) <$> l).
Proof.
  unfold render_sections. cbn [fmap list_fmap]. fold (render_section x). generalize (render_section x). induction l as [|y l IH]; intros acc.
  - cbn. by rewrite string_app_nil_r.
  - cbn [fmap list_fmap foldl string_concat foldr]. fold (string_concat ((λ y, ", " +:+ render_section y) <$> l)). fold (render_section y). 
    etransitivity; [apply IH|]. by rewrite <- !string_app_assoc.
Qed.

Definition not_byte (c a : Ascii.ascii) : bool := negb (Ascii.eqb a c).

Lemma split_byte_skip c a : ∀ acc r, string_forallb (not_byte c) a = true → split_byte c acc (a +:+ r) = split_byte c (string_rev acc a) r.
Proof.
  induction a as [|x a IH]; intros acc r Ha; [done|]. apply andb_true_iff in Ha as [Hx%negb_true_iff Ha].
  rewrite string_cons_app. cbn [split_byte string_rev]. rewrite Hx. by apply IH.
Qed.

Lemma split_sections l : ∀ a, string_forallb (not_byte comma) a = true →
  Forall (λ y, string_forallb (not_byte comma) (render_section y) = true) l →
  split_byte comma "" (a +:+ string_concat ((λ y, ", " +:+ render_section y) <$> l)) = a :: ((λ y, " " +:+ render_section y) <$> l).
Proof.
  induction l as [|y l IH]; intros a Ha Hl.
  - cbn [fmap list_fmap string_concat foldr]. rewrite split_byte_skip by done. cbn [split_byte]. by rewrite string_rev_rev.
  - apply list.Forall_cons in Hl as [Hy Hl]. cbn [fmap list_fmap string_concat foldr].
    fold (string_concat ((λ y, ", " +:+ render_section y) <$> l)). rewrite split_byte_skip by done.
    change ((", " +:+ render_section y) +:+ ?s) with (String comma ((" " +:+ render_section y) +:+ s)). cbn [split_byte].
    change (Ascii.eqb comma comma) with true. cbn iota. rewrite string_rev_rev. cbn [string_rev]. change ("" +:+ a) with a. f_equal.
    by apply IH.
Qed.

Lemma TrimSpace_space v : string_forallb visible v = true → v ≠ "" → TrimSpace (" " +:+ v) = v.
Proof.
  intros Hv Hne. assert (trim_left spaces (" " +:+ v) = trim_left spaces v) as Hs.
  { change (" " +:+ v) with (String (ascii_of_Z 32) v). unfold trim_left at 1. cbn [String.length trim_fuel].
    assert (strip_any spaces (String (ascii_of_Z 32) v) = Some v) as -> by reflexivity. done. }
  unfold TrimSpace. rewrite Hs. by apply TrimSpace_visible.
Qed.

(** Trimming keeps every visible character. *)
Definition invisible (c : Ascii.ascii) : bool := negb (visible c).

Lemma trim_fuel_visible ps fuel : forallb (string_forallb invisible) ps = true → ∀ s,
  string_forallb invisible (trim_fuel ps fuel s) = string_forallb invisible s.
Proof.
  intros Hps. rewrite forallb_forall in Hps. induction fuel as [|fuel IH]; intros s; [done|]. cbn [trim_fuel]. destruct (strip_any ps s) as [t|] eqn:Ht; [|done].
  apply strip_any_app in Ht as (p&Hp&->). rewrite IH, string_forallb_app, (Hps p); [done|by apply list_elem_of_In].
Qed.

Lemma TrimSpace_nonempty s : string_forallb invisible s = false → TrimSpace s ≠ "".
Proof.
  intros Hs He. assert (string_forallb invisible (TrimSpace s) = string_forallb invisible s) as Ht; [|by rewrite He, Hs in Ht].
  unfold TrimSpace, trim_right, trim_left. rewrite string_rev_all. cbn [string_forallb andb].
  rewrite trim_fuel_visible by by vm_compute. rewrite string_rev_all. cbn [string_forallb andb]. by rewrite trim_fuel_visible by by vm_compute.
Qed.

(** Names and offsets a list may have after the offset [last]: message headers,
    then one body. *)
Fixpoint sections_ok (last : Z) (l : list (string * Z)) : Prop :=
  match l with
  | [] => False
  | (n, off) :: rest => 0 <= off < 2 ^ 63 ∧ last <= off ∧
      match rest with [] => isICAPBodySection n = true | _ => mem n ["req-hdr"; "res-hdr"] = true ∧ sections_ok off rest end
  end.

Lemma section_name n : mem n icap_section_names = true →
  string_forallb visible n = true ∧ string_forallb (not_byte equals) n = true ∧ string_forallb (not_byte comma) n = true.
Proof.
  intros H%mem_true. unfold icap_section_names in H. set_unfold in H.
  destruct_or! H; subst; by vm_compute.
Qed.

Lemma mem_sub (n : string) l k : (∀ x, x ∈ l → x ∈ k) → mem n l = true → mem n k = true.
Proof. rewrite !mem_true. auto. Qed.

Lemma sections_ok_names last l : sections_ok last l → Forall (λ s, mem s.1 icap_section_names = true) l.
Proof.
  revert last. induction l as [|[n off] l IH]; intros last; [done|]. intros (_&_&H). constructor.
  - destruct l; [revert H; unfold isICAPBodySection; apply mem_sub; set_solver|]. destruct H as [H _]. eapply mem_sub; [|exact H]. set_solver.
  - destruct l; [constructor|]. destruct H as [_ H]. by eapply IH.
Qed.

Lemma section_plain s : mem s.1 icap_section_names = true →
  string_forallb visible (render_section s) = true ∧ string_forallb (not_byte comma) (render_section s) = true
  ∧ render_section s ≠ "" ∧ cut_byte equals (render_section s) = Some (s.1, FormatInt s.2).
Proof.
  intros (Hv&He&Hc)%section_name. unfold render_section.
  assert (∀ P : Ascii.ascii → bool, P equals = true → (∀ c, 48 <= byte c <= 57 ∨ byte c = 45 → P c = true) → string_forallb P s.1 = true →
    string_forallb P (s.1 +:+ "=" +:+ FormatInt s.2) = true) as HP.
  { intros P H1 H2 H3. rewrite string_forallb_app, H3. change ("=" +:+ ?x) with (String equals x). cbn [string_forallb]. rewrite H1.
    by apply FormatInt_all. }
  split_and!.
  - apply HP; [done| |done]. intros c H. unfold visible. lia.
  - apply HP; [done| |done]. intros c H. unfold not_byte. destruct (Ascii.eqb c comma) eqn:E; [|done].
    apply Stdlib.Strings.Ascii.eqb_eq in E as ->. change (byte comma) with 44 in H. lia.
  - by destruct s.1.
  - change ("=" +:+ ?x) with (String equals x). by apply cut_byte_app.
Qed.

Lemma digits_visible n : string_forallb visible (FormatInt n) = true.
Proof. apply FormatInt_all. intros c H. unfold visible. lia. Qed.

(** Whether a body section has been seen. *)
Definition body_last (out : list string) : bool := match list.last out with Some n => isICAPBodySection n | None => false end.

Lemma encapsulated_loop_render parts l : Forall2 (λ p s, TrimSpace p = render_section s) parts l → ∀ last out,
  sections_ok last l → body_last out = false → encapsulated_loop parts last out = Some (out ++ (fst <$> l)) ∧ body_last (out ++ (fst <$> l)) = true.
Proof.
  induction 1 as [|p [n off] parts l Hp Hl IH]; intros last out Hok Hout; [done|].
  pose proof (sections_ok_names _ _ Hok) as [Hn _]%list.Forall_cons. destruct (section_plain (n, off) Hn) as (_&_&_&Hcut). cbn [fst snd] in *.
  destruct Hok as (Hoff&Hlast&Hrest). destruct (section_name n Hn) as (Hvis&_&_).
  cbn [encapsulated_loop]. rewrite Hp, Hcut.
  rewrite (TrimSpace_visible (FormatInt off)) by (apply FormatInt_all; intros c H; unfold visible; lia).
  rewrite ParseInt_FormatInt by done. rewrite (TrimSpace_visible n), Hn by done.
  replace ((off <? 0) || (off <? last)) with false by lia. cbn [negb]. fold (body_last out). rewrite Hout.
  destruct l as [|s l].
  - apply Forall2_nil_inv_r in Hl as ->. cbn [encapsulated_loop fmap list_fmap fst]. split; [done|]. unfold body_last. by rewrite last_snoc.
  - destruct Hrest as [Hhdr Hrest]. destruct (IH off (out ++ [n]) Hrest) as [-> Hb].
    + unfold body_last. rewrite last_snoc. apply mem_true in Hhdr. set_unfold in Hhdr. by destruct_or! Hhdr; subst.
    + rewrite <- app_assoc in *. by split.
Qed.

(** A list of sections is read back as it was written: message headers in
    order, then one body section, with offsets that do not decrease. *)
Lemma sections_parse l : sections_ok (-1) l → parseICAPEncapsulated (render_sections l) = Some (fst <$> l).
Proof.
  intros Hok. pose proof (sections_ok_names _ _ Hok) as Hn. destruct l as [|x l]; [done|].
  rewrite render_sections_concat. unfold parseICAPEncapsulated.
  apply list.Forall_cons in Hn as [Hx Hl]. destruct (section_plain x Hx) as (Hv&Hc&Hne&_).
  assert (Forall2 (λ p s, TrimSpace p = render_section s) (render_section x :: ((λ y, " " +:+ render_section y) <$> l)) (x :: l)) as Hparts.
  { constructor; [by apply TrimSpace_visible|]. apply Forall2_fmap_l. clear Hok. induction Hl as [|y l Hy Hl IH]; constructor; [|done].
    destruct (section_plain y Hy) as (?&_&?&_). by apply TrimSpace_space. }
  rewrite split_sections; [|done|eapply list.Forall_impl; [exact Hl|]; intros y Hy; by apply section_plain].
  rewrite bool_decide_eq_false_2.
  - destruct (encapsulated_loop_render _ _ Hparts (-1) [] Hok eq_refl) as [-> Hb]. cbn [mbind option_bind]. by fold (body_last ([] ++ (fst <$> x :: l))); rewrite Hb.
  - apply TrimSpace_nonempty. rewrite string_forallb_app, andb_false_iff. left. destruct (render_section x) as [|c t]; [done|].
    apply andb_true_iff in Hv as [Hv _]. cbn [string_forallb]. assert (invisible c = false) as -> by (unfold invisible; by rewrite Hv). done.
Qed.


(** ** Header sections *)

(** [trim_cr] on the reversed text. *)
Fixpoint drop_cr (s : string) : string :=
  match s with EmptyString => "" | String c t => if Ascii.eqb cr c then drop_cr t else s end.

Lemma trim_left_cr s : trim_left [String cr ""] s = drop_cr s.
Proof.
  unfold trim_left. induction s as [|c s IH]; [done|]. cbn [String.length trim_fuel drop_cr]. unfold strip_any.
  cbn [omap list_omap strip_prefix]. destruct (Ascii.eqb cr c); [exact IH|done].
Qed.

Lemma trim_cr_rev s : trim_cr s = string_rev "" (drop_cr (string_rev "" s)).
Proof. unfold trim_cr, trim_right. cbn [fmap list_fmap]. change (string_rev "" (String cr "")) with (String cr ""). by rewrite trim_left_cr. Qed.

Lemma trim_cr_end s : trim_cr (s +:+ String cr "") = trim_cr s.
Proof.
  rewrite !trim_cr_rev, string_rev_app. cbn [string_rev drop_cr]. change (Ascii.eqb cr cr) with true. done.
Qed.

Lemma trim_cr_idem s : trim_cr (trim_cr s) = trim_cr s.
Proof.
  rewrite !trim_cr_rev, string_rev_rev. cbn [string_rev]. f_equal. generalize (string_rev "" s). intros t.
  change ("" +:+ drop_cr t) with (drop_cr t). induction t as [|c t IH]; [done|]. cbn [drop_cr].
  destruct (Ascii.eqb cr c) eqn:Hc; [exact IH|]. cbn [drop_cr]. by rewrite Hc.
Qed.

Lemma index_byte_none c s : index_byte c s = None ↔ string_forallb (not_byte c) s = true.
Proof.
  induction s as [|a s IH]; [done|]. cbn [index_byte string_forallb]. unfold not_byte at 1. destruct (Ascii.eqb a c); [done|]. cbn [negb andb].
  rewrite fmap_None. exact IH.
Qed.

Lemma index_byte_take c s : ∀ i, index_byte c s = Some i → index_byte c (string_take i s) = None.
Proof.
  induction s as [|a s IH]; intros i; [done|]. cbn [index_byte]. destruct (Ascii.eqb a c) eqn:Ha; [by intros [= <-]|].
  intros (j&Hj&->)%fmap_Some. cbn [string_take index_byte]. by rewrite Ha, IH.
Qed.

(** A line of a header section as the reader returns it. *)
Definition line_ok (l : string) : Prop := l ≠ "" ∧ index_byte nl l = None ∧ trim_cr l = l.

Definition render_line (l : string) : string := l +:+ crlf.
Definition render_head (lines : list string) : string := string_concat (render_line <$> lines) +:+ crlf.

Lemma render_head_cons l lines : render_head (l :: lines) = l +:+ crlf +:+ render_head lines.
Proof. unfold render_head. cbn [fmap list_fmap string_concat foldr]. fold (string_concat (render_line <$> lines)). unfold render_line at 1. by rewrite <- !string_app_assoc. Qed.

Section Heads.
Context (fin : ReadEnd).

Lemma readBoundedLine_line limit s l s' : readBoundedLine fin limit s = inl (l, s') → index_byte nl l = None ∧ trim_cr l = l ∧ len l <= limit.
Proof.
  intros (i&Hi&Hl&->&_&_)%readBoundedLine_rest. split_and!.
  - apply index_byte_none, trim_right_all, index_byte_none. by apply index_byte_take.
  - apply trim_cr_idem.
  - assert (len (trim_cr (string_take i s)) <= len (string_take i s)) as Hle.
    { unfold trim_cr, trim_right. rewrite trim_left_cr. generalize (string_take i s). intros t.
      assert (∀ u, len (string_rev "" u) = len u) as Hrev.
      { clear. intros u. assert (∀ acc, len (string_rev acc u) = len acc + len u) as H; [|by rewrite H].
        induction u as [|c u IH]; intros acc; cbn [string_rev]; [unfold len; cbn; lia|]. rewrite IH, !string_length_S. lia. }
      rewrite Hrev, <- (Hrev t). generalize (string_rev "" t). clear. induction s as [|c s IH]; [done|]. cbn [drop_cr].
      case_match; rewrite ?string_length_S; lia. }
    unfold len in Hle at 2. rewrite string_take_length in Hle. lia.
Qed.

Lemma readBoundedLine_render limit l rest : index_byte nl l = None → trim_cr l = l → len l + 1 <= limit →
  readBoundedLine fin limit (l +:+ crlf +:+ rest) = inl (l, rest).
Proof.
  intros Hn Ht Hl. rewrite readBoundedLine_spec. unfold line_spec.
  assert (index_byte nl (l +:+ crlf +:+ rest) = Some (String.length l + 1)%nat) as ->.
  { clear Ht Hl. induction l as [|c l IH]; [done|]. cbn [index_byte] in Hn. rewrite string_cons_app. cbn [index_byte].
    destruct (Ascii.eqb c nl); [done|]. apply fmap_None in Hn. by rewrite IH. }
  change (len "") with 0. replace (limit <? 0 + Z.of_nat (String.length l + 1)) with false by (symmetry; apply Z.ltb_ge; unfold len in Hl; lia).
  change ("" +:+ ?x) with x.
  assert (string_take (String.length l + 1) (l +:+ crlf +:+ rest) = l +:+ String cr "") as ->.
  { rewrite string_take_split, string_take_app, string_drop_app. done. }
  rewrite trim_cr_end, Ht. f_equal. f_equal. replace (S (String.length l + 1)) with (String.length l + 2)%nat by lia.
  rewrite <- string_drop_drop, string_drop_app. done.
Qed.

(** What [readHTTPHeaders] returns. *)
Lemma http_from_lines n : ∀ k out s raw s', (String.length s <= n)%nat → http_from fin k out s = inl (raw, s') →
  ∃ lines, raw = out +:+ render_head lines ∧ k + Z.of_nat (length lines) <= maxICAPHeaderCount ∧ len raw <= maxICAPHeaderBytes
    ∧ Forall (λ l, line_ok l ∧ len l <= maxICAPHeaderLine) lines.
Proof.
  induction n as [|n IH]; intros k out s raw s' Hn; rewrite http_from_eq; destruct (readBoundedLine _ _ s) as [[l s1]|] eqn:Hr; try done;
    pose proof (readBoundedLine_line _ _ _ _ Hr) as (H1&H2&H3); apply readBoundedLine_rest in Hr as (_&_&_&_&_&Hr); [lia|].
  destruct (maxICAPHeaderCount <? k) eqn:Hk; [done|]. destruct (maxICAPHeaderBytes <? len _) eqn:Hb; [done|].
  apply Z.ltb_ge in Hk, Hb. case_bool_decide as Hl.
  - subst l. intros [= <- <-]. exists []. split_and!; [done|cbn; lia|done|constructor].
  - intros (lines&->&Hc&Hlen&Hlines)%IH; [|lia]. exists (l :: lines). rewrite render_head_cons, !string_app_assoc in *. split_and!; [done|cbn; lia|done|].
    constructor; [|done]. split; [|done]. by split_and!.
Qed.

Lemma http_from_render lines : ∀ k out rest, Forall (λ l, line_ok l ∧ len l < maxICAPHeaderLine) lines →
  k + Z.of_nat (length lines) <= maxICAPHeaderCount → len (out +:+ render_head lines) <= maxICAPHeaderBytes →
  http_from fin k out (render_head lines +:+ rest) = inl (out +:+ render_head lines, rest).
Proof.
  induction lines as [|l lines IH]; intros k out rest Hl Hk Hb; rewrite http_from_eq.
  - change (render_head [] +:+ rest) with ("" +:+ crlf +:+ rest). rewrite readBoundedLine_render by done.
    replace (maxICAPHeaderCount <? k) with false by (symmetry; apply Z.ltb_ge; cbn in Hk; lia).
    change ("" +:+ crlf) with (render_head []). by replace (maxICAPHeaderBytes <? len (out +:+ render_head [])) with false by (symmetry; by apply Z.ltb_ge).
  - apply list.Forall_cons in Hl as [[(Hne&Hnl&Hcr) Hlen] Hl]. rewrite render_head_cons in *. rewrite <- !string_app_assoc.
    rewrite readBoundedLine_render by (done || lia).
    replace (maxICAPHeaderCount <? k) with false by (symmetry; apply Z.ltb_ge; cbn in Hk; lia).
    assert (len (out +:+ l +:+ crlf) <= maxICAPHeaderBytes).
    { rewrite !string_app_len in *. pose proof (len_nonneg (render_head lines)). lia. }
    replace (maxICAPHeaderBytes <? len (out +:+ l +:+ crlf)) with false by (symmetry; by apply Z.ltb_ge).
    rewrite bool_decide_eq_false_2 by done. rewrite IH; [by rewrite <- !string_app_assoc|done|cbn in Hk; lia|].
    by rewrite <- !string_app_assoc.
Qed.

End Heads.

(** ** Sections *)

Definition is_header (n : string) : bool := mem n ["req-hdr"; "res-hdr"].

Lemma header_or_body n : mem n icap_section_names = true → isICAPBodySection n = negb (is_header n).
Proof. intros H%mem_true. unfold icap_section_names in H. set_unfold in H. destruct_or! H; subst; by vm_compute. Qed.

(** Message headers, then at most one other section. *)
Definition out_ok (out : list string) : Prop :=
  out = [] ∨ ∃ hdrs n, out = hdrs ++ [n] ∧ Forall (λ h, is_header h = true) hdrs ∧ mem n icap_section_names = true.

Lemma encapsulated_loop_ok parts : ∀ last out r, out_ok out → encapsulated_loop parts last out = Some r → out_ok r.
Proof.
  induction parts as [|p parts IH]; intros last out r Hout; cbn [encapsulated_loop]; [by intros [= <-]|].
  destruct (cut_byte _ _) as [[l r0]|]; [|done]. destruct (ParseInt _ _); [|done]. case_match; [done|].
  destruct (mem (TrimSpace l) icap_section_names) eqn:Hn; [|done]. cbn [negb].
  fold (body_last out). destruct (body_last out) eqn:Hb; [done|]. apply IH. right. exists out, (TrimSpace l). split_and!; [done| |done].
  destruct Hout as [->|(hdrs&n&->&Hh&Hm)]; [constructor|]. apply list.Forall_app. split; [done|]. constructor; [|constructor].
  unfold body_last in Hb. rewrite last_snoc, (header_or_body n) in Hb by done. by apply negb_false_iff in Hb.
Qed.

(** What the Encapsulated header may say. *)
Lemma parse_sections v out : parseICAPEncapsulated v = Some out →
  ∃ hdrs b, out = hdrs ++ [b] ∧ Forall (λ h, is_header h = true) hdrs ∧ isICAPBodySection b = true.
Proof.
  unfold parseICAPEncapsulated. case_bool_decide; [done|].
  destruct (encapsulated_loop _ _ _) as [o|] eqn:Ho; [|done]. cbn [mbind option_bind]. fold (body_last o).
  destruct (body_last o) eqn:Hb; [|done]. intros [= <-]. apply encapsulated_loop_ok in Ho as [->|(hdrs&n&->&Hh&_)]; [done| |by left].
  exists hdrs, n. unfold body_last in Hb. by rewrite last_snoc in Hb.
Qed.

Section Echo.
Context (fin : ReadEnd).

(** A header section as [readHTTPHeaders] returns it, and as it reads it again:
    a line of exactly the cap fits only without its carriage return. *)
Definition header_read (raw : string) : Prop := ∃ lines, raw = render_head lines ∧ Z.of_nat (length lines) <= maxICAPHeaderCount
  ∧ len raw <= maxICAPHeaderBytes ∧ Forall (λ l, line_ok l ∧ len l <= maxICAPHeaderLine) lines.

Definition short_lines (raw : string) : Prop :=
  ∀ lines, raw = render_head lines → Forall line_ok lines → Forall (λ l, len l < maxICAPHeaderLine) lines.

Lemma readHTTPHeaders_read s raw s' : readHTTPHeaders fin s = inl (raw, s') → header_read raw.
Proof. intros (lines&->&?&?&?)%(http_from_lines fin (String.length s)); [|done]. by exists lines. Qed.

Lemma readHTTPHeaders_again raw rest : header_read raw → short_lines raw → readHTTPHeaders fin (raw +:+ rest) = inl (raw, rest).
Proof.
  intros (lines&->&Hc&Hb&Hl) Hs. change (render_head lines) with ("" +:+ render_head lines) at 2.
  apply http_from_render; [|done|done]. specialize (Hs lines eq_refl).
  assert (Forall line_ok lines) as Hok by (eapply list.Forall_impl; [exact Hl|by intros l [? _]]). apply Hs in Hok. clear Hs Hc Hb.
  induction Hl as [|l lines [? ?] _ IH]; constructor; apply list.Forall_cons in Hok as [? ?]; auto.
Qed.

Lemma read_sections_headers hdrs : ∀ e hb s r, Forall (λ h, is_header h = true) hdrs →
  ∀ tail, read_sections fin (hdrs ++ tail) e hb s = inl r →
  ∃ raws s', Forall header_read raws ∧ length raws = length hdrs
    ∧ read_sections fin tail {| e with ec_hdrs := ec_hdrs e ++ zip hdrs raws |} hb s' = inl r.
Proof.
  induction hdrs as [|h hdrs IH]; intros e hb s r Hh tail.
  - intros Hr. exists [], s. split_and!; [constructor|done|]. cbn [zip zip_with]. rewrite app_nil_r. by destruct e.
  - apply list.Forall_cons in Hh as [Hh Hhs]. cbn [app read_sections]. fold (is_header h). rewrite Hh.
    destruct (readHTTPHeaders fin s) as [[raw s1]|] eqn:Hr; [|done]. apply readHTTPHeaders_read in Hr.
    intros (raws&s'&Hraws&Hlen&Hread)%IH; [|done]. exists (raw :: raws), s'. split_and!; [by constructor|cbn; lia|].
    cbn [zip zip_with ec_hdrs] in *. by rewrite <- app_assoc in Hread.
Qed.

Lemma read_sections_again hdrs : ∀ e hb tail rest, Forall (λ h, is_header h.1 = true ∧ header_read h.2 ∧ short_lines h.2) hdrs →
  read_sections fin ((fst <$> hdrs) ++ tail) e hb (string_concat (snd <$> hdrs) +:+ rest)
  = read_sections fin tail {| e with ec_hdrs := ec_hdrs e ++ hdrs |} hb rest.
Proof.
  induction hdrs as [|[h raw] hdrs IH]; intros e hb tail rest Hh.
  - cbn [fmap list_fmap string_concat foldr app]. rewrite app_nil_r. by destruct e.
  - apply list.Forall_cons in Hh as [(Hh&Hr&Hs) Hhs]. cbn [fmap list_fmap string_concat foldr fst snd app read_sections] in *.
    fold (is_header h). rewrite Hh. fold (string_concat (snd <$> hdrs)). rewrite <- string_app_assoc, readHTTPHeaders_again by done.
    rewrite IH by done. cbn [ec_hdrs]. by rewrite <- app_assoc.
Qed.

(** A section that fits a line has short lines. *)
Lemma short_small raw : len raw <= maxICAPHeaderLine → short_lines raw.
Proof.
  intros Hl lines -> _. induction lines as [|l lines IH]; [constructor|]. rewrite render_head_cons, !string_app_len in Hl.
  pose proof (len_nonneg (render_head lines)). pose proof (len_nonneg l). change (len crlf) with 2 in Hl. constructor; [lia|]. apply IH. lia.
Qed.

(** The last section of an echo. *)
Lemma read_body_section b e hb s : isICAPBodySection b = true →
  read_sections fin [b] e hb s = inl ((if bool_decide (b = "null-body") then (e, hb) else ({| e with ec_bodyName := b |}, true)), s).
Proof.
  intros H%mem_true. set_unfold in H. destruct_or! H; subst; cbn; try done.
Qed.

(** The offsets of an echo are those of its sections. *)
Lemma echo_offsets_ok b hdrs : isICAPBodySection b = true → Forall (λ h, is_header h.1 = true) hdrs → ∀ off last, last <= off → 0 <= off →
  off + len (string_concat (snd <$> hdrs)) < 2 ^ 63 →
  sections_ok last ((echo_offsets hdrs off).1 ++ [(b, (echo_offsets hdrs off).2)]) ∧ fst <$> (echo_offsets hdrs off).1 = fst <$> hdrs.
Proof.
  intros Hb. induction 1 as [|[n raw] hdrs Hn Hh IH]; intros off last Hl Hoff Hlen.
  - change (len (string_concat (snd <$> []))) with 0 in Hlen. cbn [echo_offsets fst snd app sections_ok]. split; [|done]. split_and!; [lia|lia|lia|done].
  - cbn [fmap list_fmap string_concat foldr fst snd] in *. fold (string_concat (snd <$> hdrs)) in Hlen. rewrite string_app_len in Hlen.
    pose proof (len_nonneg raw). pose proof (len_nonneg (string_concat (snd <$> hdrs))). cbn [echo_offsets].
    specialize (IH (off + len raw) off ltac:(lia) ltac:(lia) ltac:(lia)).
    destruct (echo_offsets hdrs (off + len raw)) as [l off'] eqn:He. cbn [fst snd] in *. destruct IH as [IH1 IH2]. split; [|cbn; by f_equal].
    cbn [app sections_ok]. split_and!; [lia|lia|lia|]. destruct (l ++ [(b, off')]) eqn:Happ; [by destruct l|]. done.
Qed.

Lemma chunked_body_again body mb : body ≠ "" → len body <= mb < 2 ^ 63 →
  readICAPChunkedBody fin mb (FormatInt16 (len body) +:+ crlf +:+ body +:+ crlf +:+ "0" +:+ crlf +:+ crlf) = inl ((body, false), "").
Proof.
  intros Hne Hmb. unfold readICAPChunkedBody. pose proof (read_chunk fin "" body [] mb (encode_last []) Hne) as H.
  unfold encode_chunk in H. cbn [render_exts fst snd] in H. rewrite <- !string_app_assoc in H. change ("" +:+ ?x) with x in H.
  unfold encode_last at 1 in H. cbn [render_exts] in H. change ("" +:+ ?x) with x in H.
  rewrite H; [|split; [constructor|done]|change (len "") with 0; lia].
  pose proof (read_last fin body [] mb "") as Hl. rewrite string_app_nil_r in Hl. apply Hl. by split.
Qed.

Context {T : TextEnv} (cfg : ServerConfig) (a : IcapAnswers) (sha256 : string → string).

(** What a request carries. *)
Lemma carried s echo body : carries fin cfg a s echo body →
  Forall (λ h, is_header h.1 = true ∧ header_read h.2) (ec_hdrs echo)
  ∧ (ec_bodyName echo = "" ∧ body = "" ∨ isICAPBodySection (ec_bodyName echo) = true ∧ ec_bodyName echo ≠ "null-body").
Proof.
  unfold carries, request_content. destruct (readBoundedLine _ _ s) as [[line s1]|]; [|done].
  destruct (readBoundedMIMEHeader fin s1) as [[hdr s2]|]; [|done]. destruct (header_values "Encapsulated" hdr) as [|v [|]]; try done.
  destruct (parseICAPEncapsulated v) as [sections|] eqn:Hp; [|done].
  destruct (read_sections _ _ _ _ s2) as [[[echo' hasBody] s3]|] eqn:Hr; [|done]. intros Hbody.
  assert (echo' = echo ∧ (hasBody = false → body = "")) as [-> Hnone] by (destruct hasBody; [repeat case_match|]; by simplify_eq).
  clear Hbody.
  apply parse_sections in Hp as (hdrs&b&->&Hh&Hb). apply read_sections_headers in Hr as (raws&s'&Hraws&Hlen&Hr); [|done].
  rewrite read_body_section in Hr by done. cbn [ec_hdrs app] in Hr.
  assert (Forall (λ h, is_header h.1 = true ∧ header_read h.2) (zip hdrs raws)) as Hz.
  { clear Hr. revert raws Hraws Hlen. induction Hh as [|h hdrs Hh1 Hh IH]; intros [|raw raws] Hraws Hlen; try done.
    apply list.Forall_cons in Hraws as [??]. constructor; [done|]. apply IH; [done|]. cbn in Hlen. lia. }
  destruct (bool_decide (b = "null-body")) eqn:Hnull; simplify_eq; cbn [ec_hdrs ec_bodyName] in *; (split; [done|]).
  - left. auto.
  - right. by apply bool_decide_eq_false in Hnull.
Qed.

(** C18: Content that is let through comes back unchanged: the echo of a request
    has an Encapsulated list that the service's own parser accepts, and the
    message behind it reads back as exactly the header sections and the body
    the request carried, with nothing after them; except that a header line of
    exactly the length cap is returned with a carriage return it may not have
    had. *)
Theorem echo_unchanged fp s echo body mb : carries fin cfg a s echo body →
  Forall (λ h, short_lines h.2) (ec_hdrs echo) → len (string_concat (snd <$> ec_hdrs echo)) < 2 ^ 63 → len body <= mb < 2 ^ 63 →
  ∃ value payload sections echo' hasBody rest,
    icapWriteEcho sha256 fp echo body = icapProtoVersion +:+ " 200 OK" +:+ crlf +:+ "ISTag: " +:+ icapISTag sha256 fp +:+ crlf
      +:+ "Encapsulated: " +:+ value +:+ crlf +:+ crlf +:+ payload
    ∧ parseICAPEncapsulated value = Some sections
    ∧ read_sections fin sections (mkEcho [] "") false payload = inl ((echo', hasBody), rest)
    ∧ ec_hdrs echo' = ec_hdrs echo
    ∧ if hasBody : bool then ec_bodyName echo' = ec_bodyName echo ∧ readICAPChunkedBody fin mb rest = inl ((body, false), "")
      else body = "" ∧ rest = "".
Proof.
  intros (Hh&Hb)%carried Hs Hlen Hmb.
  set (b := if echo_has_body echo body then ec_bodyName echo else "null-body").
  assert (isICAPBodySection b = true ∧ (echo_has_body echo body = true → b ≠ "null-body" ∧ body ≠ "") ∧ (echo_has_body echo body = false → b = "null-body" ∧ body = "")) as (Hb1&Hb2&Hb3).
  { subst b. unfold echo_has_body. destruct Hb as [[He ->]|[Hb1 Hb2]]; [by rewrite He|].
    rewrite bool_decide_eq_true_2 by (intros He; by rewrite He in Hb1). destruct body as [|c body]; [done|].
    rewrite string_length_S. pose proof (len_nonneg body). by replace (0 <? len body + 1) with true by lia. }
  assert (Forall (λ h, is_header h.1 = true) (ec_hdrs echo)) as Hh1 by (eapply list.Forall_impl; [exact Hh|by intros ? []]).
  destruct (echo_offsets_ok b (ec_hdrs echo) Hb1 Hh1 0 (-1)) as [Hok Hnames]; [lia|lia|by rewrite Z.add_0_l|].
  assert (echo_sections echo body = (echo_offsets (ec_hdrs echo) 0).1 ++ [(b, (echo_offsets (ec_hdrs echo) 0).2)]) as Hsec
    by (unfold echo_sections; by destruct (echo_offsets (ec_hdrs echo) 0)).
  rewrite <- Hsec in Hok. apply sections_parse in Hok.
  rewrite (f_equal (fmap fst) Hsec), fmap_app, Hnames in Hok.
  change (fst <$> [(b, (echo_offsets (ec_hdrs echo) 0).2)]) with [b] in Hok.
  assert (Forall (λ h, is_header h.1 = true ∧ header_read h.2 ∧ short_lines h.2) (ec_hdrs echo)) as Hall.
  { apply list.Forall_forall. intros h Hin. rewrite list.Forall_forall in Hh, Hs. destruct (Hh h Hin) as [? ?]. auto. }
  assert (∀ rest, read_sections fin ((fst <$> ec_hdrs echo) ++ [b]) (mkEcho [] "") false (string_concat (snd <$> ec_hdrs echo) +:+ rest)
    = inl ((if bool_decide (b = "null-body") then (mkEcho (ec_hdrs echo) "", false) else (mkEcho (ec_hdrs echo) b, true)), rest)) as Hread.
  { intros rest. rewrite read_sections_again, read_body_section by done. done. }
  unfold icapWriteEcho.
  destruct (echo_has_body echo body) eqn:He.
  - destruct (Hb2 eq_refl) as [Hb4 Hb5]. rewrite bool_decide_eq_false_2 in Hread by done. eexists _, _, ((fst <$> ec_hdrs echo) ++ [b]), _, true, _.
    split; [reflexivity|]. split; [exact Hok|]. split; [apply Hread|]. split_and!; [done|done|]. by apply chunked_body_again.
  - destruct (Hb3 eq_refl) as [Hb4 ->]. rewrite bool_decide_eq_true_2 in Hread by done. eexists _, _, ((fst <$> ec_hdrs echo) ++ [b]), _, false, _.
    split; [reflexivity|]. split; [exact Hok|]. by split; [apply Hread|].
Qed.

End Echo.

(** ** The block reply *)

(** No control character. *)
Definition printable (c : Ascii.ascii) : bool := (32 <=? byte c) && negb (byte c =? 127).

Definition safe_value (v : string) : Prop := v ≠ "" ∧ len v <= icapViolationMax ∧ string_forallb printable v = true.

Lemma value_loop_safe rs : ∀ out, len out <= icapViolationMax → string_forallb printable out = true →
  len (value_loop rs out) <= icapViolationMax ∧ string_forallb printable (value_loop rs out) = true.
Proof.
  induction rs as [|r rs IH]; intros out Hl Hp; [done|]. cbn [value_loop]. destruct (_ || _) eqn:Hr; [by apply IH|].
  destruct (icapViolationMax <? _) eqn:Hb; [done|]. apply Z.ltb_ge in Hb. apply IH; [by rewrite string_app_len|].
  rewrite string_forallb_app, Hp. apply encode_rune_all; intros; unfold printable; rewrite byte_ascii_of_Z by lia; [|lia].
  repeat (apply orb_false_iff in Hr as [Hr ?]). lia.
Qed.

Lemma icapHeaderValue_safe v : safe_value (icapHeaderValue v).
Proof.
  unfold icapHeaderValue. destruct (value_loop_safe (runes v) "") as [Hl Hp]; [done|done|]. case_bool_decide as He; [done|]. done.
Qed.

Definition continuation (v : string) : string := tab +:+ v +:+ crlf.

Definition violation (m : Match) : list string := [icapHeaderValue ""; icapHeaderValue (m_Rule m); "0"; "2"].

Lemma violation_lines l : icapViolationLines l = string_concat (continuation <$> concat (violation <$> l)).
Proof.
  induction l as [|m l IH]; [done|]. rewrite fmap_cons. cbn [concat]. rewrite fmap_app. unfold violation at 1.
  change (icapViolationLines (m :: l)) with ((tab +:+ icapHeaderValue "" +:+ crlf +:+ tab +:+ icapHeaderValue (m_Rule m) +:+ crlf
    +:+ tab +:+ "0" +:+ crlf +:+ tab +:+ "2" +:+ crlf) +:+ icapViolationLines l).
  rewrite IH. cbn [fmap list_fmap app string_concat foldr]. unfold continuation. by rewrite <- !string_app_assoc.
Qed.

(** Rule names cannot break the block reply: the header that lists the
    violations announces as many as it lists, the first sixteen of them, and
    its lines are one to 256 bytes without control characters whatever the
    rules are called. *)
Theorem infected_lists_safely sha256 fp l : ∃ before after values,
  icapWriteInfected sha256 fp l = before +:+ "X-Violations-Found: " +:+ FormatInt (Z.of_nat (Nat.min 16 (length l))) +:+ crlf
    +:+ string_concat (continuation <$> values) +:+ "Encapsulated: " +:+ after
  ∧ values = concat (violation <$> take 16 l) ∧ Forall safe_value values.
Proof.
  unfold icapWriteInfected. set (listed := if (icapViolationsMaxListed <? length l)%nat then take icapViolationsMaxListed l else l).
  assert (listed = take 16 l) as ->.
  { subst listed. unfold icapViolationsMaxListed. destruct (16 <? length l)%nat eqn:Hl; [done|]. apply Nat.ltb_ge in Hl. by rewrite take_ge. }
  rewrite violation_lines, length_take.
  eexists (icapProtoVersion +:+ " 200 OK" +:+ crlf +:+ "ISTag: " +:+ icapISTag sha256 fp +:+ crlf
    +:+ "X-Infection-Found: Type=0; Resolution=2; Threat=" +:+ default "" (m_Rule <$> head l) +:+ ";" +:+ crlf), _, _.
  split; [rewrite <- !string_app_assoc; reflexivity|]. split; [done|].
  induction (take 16 l) as [|m l' IH]; [constructor|]. rewrite fmap_cons. cbn [concat]. apply list.Forall_app. split; [|done].
  repeat constructor; try done; apply icapHeaderValue_safe.
Qed.
