(* ===== verification/IcapConn.v ===== *)
(** * Connections of the ICAP service

    icap.go: the accept loop with its two pools of slots, the goroutines it
    starts, stopping and draining, as a step relation; and the throttled log
    lines and the deadlines of a connection. *)

From Stdlib Require Import ZArith Lia.
From stdpp Require Import base gmap list numbers relations.
From S2P Require Import Prelude Counting GoStd.

Local Open Scope Z_scope.

(** ** State *)

(** A goroutine serves a connection or refuses one; its deferred calls close
    the connection, give the slot back and leave the wait group, in this
    order. *)
Inductive Kind := Serve | Refuse.
Inductive GorPhase := Running | ConnClosed | SlotFreed.

(** Where the accept loop is. *)
Inductive LoopPc :=
  | AtAccept
  | Accepted (c : nat)
  | HasSlot (c : nat)
  | Rejected (c : nat)
  | RefuseSlot (c : nat)
  | Draining
  | Returned.

Record IcapServer := mkIcapServer {
  is_pc : LoopPc;
  is_conns : Z;
  is_refuse : Z;
  is_wg : Z;
  is_stopping : bool;
  is_ctx : bool;
  is_listening : bool;
  is_down : bool;
  is_busy : Z;
  is_gs : gmap nat (Kind * GorPhase);
  is_seen : gset nat;
  is_closed : gset nat
}.

#[export] Instance LoopPc_eq_dec : EqDecision LoopPc.
Proof. solve_decision. Defined.

Definition icapMaxRefuseInflight : Z := 64.

Definition icapStart : IcapServer := mkIcapServer AtAccept 0 0 0 false false true false 0 ∅ ∅ ∅.

Section Loop.
Context (cap : Z).

(** *** [acceptICAP], [refuseICAP], [icapTrack] *)

(** The live-connection slot, taken without waiting. *)
Definition take_conn (c : nat) (s : IcapServer) : IcapServer :=
  if is_conns s <? cap then {| s with is_conns := is_conns s + 1; is_pc := HasSlot c |} else {| s with is_pc := Rejected c |}.

Definition icapTrack (s : IcapServer) : option IcapServer :=
  if is_stopping s then None else Some {| s with is_wg := is_wg s + 1 |}.

Definition close_conn (c : nat) (s : IcapServer) : IcapServer := {| s with is_closed := {[c]} ∪ is_closed s |}.

Definition spawn (c : nat) (k : Kind) (s : IcapServer) : IcapServer :=
  {| s with is_gs := <[c := (k, Running)]> (is_gs s); is_pc := AtAccept |}.

Definition start_serving (c : nat) (s : IcapServer) : IcapServer :=
  match icapTrack s with
  | Some s => spawn c Serve s
  | None => let s := close_conn c s in {| s with is_conns := is_conns s - 1; is_pc := AtAccept |}
  end.

Definition refuse_slot (c : nat) (s : IcapServer) : IcapServer :=
  let s := {| s with is_busy := is_busy s + 1 |} in
  if is_refuse s <? icapMaxRefuseInflight then {| s with is_refuse := is_refuse s + 1; is_pc := RefuseSlot c |}
  else let s := close_conn c s in {| s with is_pc := AtAccept |}.

Definition refuse_track (c : nat) (s : IcapServer) : IcapServer :=
  match icapTrack s with
  | Some s => spawn c Refuse s
  | None => let s := close_conn c s in {| s with is_refuse := is_refuse s - 1; is_pc := AtAccept |}
  end.

(** *** Goroutines *)

Definition free_slot (c : nat) (k : Kind) (s : IcapServer) : IcapServer :=
  let s := {| s with is_gs := <[c := (k, SlotFreed)]> (is_gs s) |} in
  match k with Serve => {| s with is_conns := is_conns s - 1 |} | Refuse => {| s with is_refuse := is_refuse s - 1 |} end.

(** *** Stopping *)

Definition beginICAPStop (s : IcapServer) : IcapServer := {| s with is_stopping := true |}.

(** [Accept] failed: a shutdown waits for the goroutines, any other failure
    takes the service down. *)
Definition accept_failed (s : IcapServer) : IcapServer :=
  if is_ctx s then {| s with is_pc := Draining |} else {| s with is_down := true; is_listening := false; is_pc := Returned |}.

(** One atomic action of the accept loop, of a goroutine or of a caller of
    [ShutdownICAP]. *)
Inductive conn_step : IcapServer → IcapServer → Prop :=
  | step_accept s c : is_pc s = AtAccept → is_listening s = true → c ∉ is_seen s →
      conn_step s {| s with is_pc := Accepted c; is_seen := {[c]} ∪ is_seen s |}
  | step_take s c : is_pc s = Accepted c → conn_step s (take_conn c s)
  | step_serve s c : is_pc s = HasSlot c → conn_step s (start_serving c s)
  | step_refuse s c : is_pc s = Rejected c → conn_step s (refuse_slot c s)
  | step_refuse_track s c : is_pc s = RefuseSlot c → conn_step s (refuse_track c s)
  | step_fail s : is_pc s = AtAccept → conn_step s (accept_failed s)
  | step_return s : is_pc s = Draining → is_wg s = 0 → conn_step s {| s with is_pc := Returned |}
  | step_close s c k : is_gs s !! c = Some (k, Running) →
      conn_step s (close_conn c {| s with is_gs := <[c := (k, ConnClosed)]> (is_gs s) |})
  | step_free s c k : is_gs s !! c = Some (k, ConnClosed) → conn_step s (free_slot c k s)
  | step_done s c k : is_gs s !! c = Some (k, SlotFreed) → conn_step s {| s with is_gs := delete c (is_gs s); is_wg := is_wg s - 1 |}
  | step_cancel s : conn_step s {| s with is_ctx := true |}
  | step_stop s : conn_step s (beginICAPStop s)
  | step_unlisten s : is_stopping s = true → conn_step s {| s with is_listening := false |}.

(** ** Invariant *)

(** The connection in the hands of the accept loop. *)
Definition pc_conn (p : LoopPc) : option nat :=
  match p with Accepted c | HasSlot c | Rejected c | RefuseSlot c => Some c | _ => None end.

Definition serve_slot (g : Kind * GorPhase) : bool := match g with (Serve, Running) | (Serve, ConnClosed) => true | _ => false end.
Definition refuse_slot_held (g : Kind * GorPhase) : bool := match g with (Refuse, Running) | (Refuse, ConnClosed) => true | _ => false end.

(** Who has a connection: the accept loop ([p]) or a running goroutine has it
    open; everyone else has closed it. *)
Record Owned (p : option nat) (gs : gmap nat (Kind * GorPhase)) (seen closed : gset nat) : Prop := {
  own_loop : ∀ c, p = Some c → c ∈ seen ∧ gs !! c = None ∧ c ∉ closed;
  own_gs : ∀ c g, gs !! c = Some g → c ∈ seen ∧ (c ∈ closed ↔ g.2 ≠ Running);
  own_seen : ∀ c, c ∈ seen → p = Some c ∨ is_Some (gs !! c) ∨ c ∈ closed;
  own_closed : closed ⊆ seen
}.

Lemma owned_accept c gs seen closed : c ∉ seen → Owned None gs seen closed → Owned (Some c) gs ({[c]} ∪ seen) closed.
Proof.
  intros Hc [_ Hg Hs Hcl]. split.
  - intros c' [= <-]. split; [set_solver|]. split; [|set_solver]. destruct (gs !! c) as [g|] eqn:He; [|done]. by apply Hg in He as [? _].
  - intros c' g Hg'. destruct (Hg c' g Hg'). set_solver.
  - intros c' [->%elem_of_singleton|Hin]%elem_of_union; [by left|]. destruct (Hs c' Hin); naive_solver.
  - set_solver.
Qed.

Lemma owned_spawn c k gs seen closed : Owned (Some c) gs seen closed → Owned None (<[c := (k, Running)]> gs) seen closed.
Proof.
  intros [Hp Hg Hs Hcl]. destruct (Hp c eq_refl) as (H1&H2&H3). split; [done| | |done].
  - intros c' g. destruct (decide (c = c')) as [<-|Hne]; [rewrite lookup_insert_eq; intros [= <-]; naive_solver|].
    rewrite lookup_insert_ne by done. apply Hg.
  - intros c' Hin. right. destruct (decide (c = c')) as [<-|Hne]; [left; rewrite lookup_insert_eq; by eexists|].
    rewrite lookup_insert_ne by done. destruct (Hs c' Hin) as [?|?]; [congruence|done].
Qed.

Lemma owned_drop c gs seen closed : Owned (Some c) gs seen closed → Owned None gs seen ({[c]} ∪ closed).
Proof.
  intros [Hp Hg Hs Hcl]. destruct (Hp c eq_refl) as (H1&H2&H3). split; [done| | |set_solver].
  - intros c' g Hg'. assert (c ≠ c') by congruence. destruct (Hg c' g Hg'). set_solver.
  - intros c' Hin. destruct (Hs c' Hin) as [[= <-]|[?|?]]; set_solver.
Qed.

Lemma owned_close p c k gs seen closed : gs !! c = Some (k, Running) → Owned p gs seen closed →
  Owned p (<[c := (k, ConnClosed)]> gs) seen ({[c]} ∪ closed).
Proof.
  intros Hk [Hp Hg Hs Hcl]. destruct (Hg c _ Hk) as [H1 H2]. split; [| | |set_solver].
  - intros c' Hc'. destruct (Hp c' Hc') as (?&?&?). assert (c ≠ c') by congruence. rewrite lookup_insert_ne by done. set_solver.
  - intros c' g. destruct (decide (c = c')) as [<-|Hne]; [rewrite lookup_insert_eq; intros [= <-]; cbn; set_solver|].
    rewrite lookup_insert_ne by done. intros Hg'. destruct (Hg c' g Hg'). set_solver.
  - intros c' Hin. destruct (decide (c = c')) as [<-|Hne]; [right; left; rewrite lookup_insert_eq; by eexists|].
    rewrite lookup_insert_ne by done. destruct (Hs c' Hin) as [?|[?|?]]; set_solver.
Qed.

Lemma owned_phase p c k gs seen closed : gs !! c = Some (k, ConnClosed) → Owned p gs seen closed →
  Owned p (<[c := (k, SlotFreed)]> gs) seen closed.
Proof.
  intros Hk [Hp Hg Hs Hcl]. destruct (Hg c _ Hk) as [H1 H2]. split; [| | |done].
  - intros c' Hc'. destruct (Hp c' Hc') as (?&?&?). assert (c ≠ c') by congruence. by rewrite lookup_insert_ne.
  - intros c' g. destruct (decide (c = c')) as [<-|Hne]; [rewrite lookup_insert_eq; intros [= <-]; cbn in *; naive_solver|].
    rewrite lookup_insert_ne by done. apply Hg.
  - intros c' Hin. destruct (decide (c = c')) as [<-|Hne]; [right; left; rewrite lookup_insert_eq; by eexists|].
    rewrite lookup_insert_ne by done. by apply Hs.
Qed.

Lemma owned_done p c k gs seen closed : gs !! c = Some (k, SlotFreed) → Owned p gs seen closed → Owned p (delete c gs) seen closed.
Proof.
  intros Hk [Hp Hg Hs Hcl]. destruct (Hg c _ Hk) as [H1 H2]. split; [| | |done].
  - intros c' Hc'. destruct (Hp c' Hc') as (?&?&?). assert (c ≠ c') by congruence. by rewrite lookup_delete_ne.
  - intros c' g (Hne&Hg')%lookup_delete_Some. by apply Hg.
  - intros c' Hin. destruct (decide (c = c')) as [<-|Hne]; [right; right; by apply H2|]. rewrite lookup_delete_ne by done. by apply Hs.
Qed.

(** Slots are held by goroutines or by the loop, and the wait group counts the
    goroutines. *)
Record Inv (s : IcapServer) : Prop := {
  inv_conns : is_conns s = held serve_slot (is_gs s) + b2z (match is_pc s with HasSlot _ => true | _ => false end);
  inv_refuse : is_refuse s = held refuse_slot_held (is_gs s) + b2z (match is_pc s with RefuseSlot _ => true | _ => false end);
  inv_cap : is_conns s <= cap;
  inv_refuse_cap : is_refuse s <= icapMaxRefuseInflight;
  inv_wg : is_wg s = held (λ _, true) (is_gs s);
  inv_owned : Owned (pc_conn (is_pc s)) (is_gs s) (is_seen s) (is_closed s)
}.

Lemma Inv_start : 0 <= cap → Inv icapStart.
Proof. intros Hc. by split. Qed.

Lemma step_inv s s' : conn_step s s' → Inv s → Inv s'.
Proof.
  intros Hstep [Hc Hr Hcap Hrcap Hw Ho].
  destruct Hstep as [s c Hpc Hl Hc0|s c Hpc|s c Hpc|s c Hpc|s c Hpc|s Hpc|s Hpc Hwg|s c k Hk|s c k Hk|s c k Hk|s|s|s Hst];
    try (rewrite Hpc in Hc, Hr, Ho; cbn [pc_conn b2z] in Hc, Hr, Ho).
  - split; cbn; try done. by apply owned_accept.
  - unfold take_conn. destruct (is_conns s <? cap) eqn:Hlt; [apply Z.ltb_lt in Hlt|]; split; cbn; try done; lia.
  - unfold start_serving, icapTrack. pose proof (own_loop _ _ _ _ Ho c eq_refl) as (_&Hnone&_).
    destruct (is_stopping s); cbn; split; cbn; rewrite ?held_insert by done; cbn; try done; try lia; [by apply owned_drop|by apply owned_spawn].
  - unfold refuse_slot. cbn. destruct (is_refuse s <? icapMaxRefuseInflight) eqn:Hlt; [apply Z.ltb_lt in Hlt|]; split; cbn; try done; try lia. by apply owned_drop.
  - unfold refuse_track, icapTrack. pose proof (own_loop _ _ _ _ Ho c eq_refl) as (_&Hnone&_).
    destruct (is_stopping s); cbn; split; cbn; rewrite ?held_insert by done; cbn; try done; try lia; [by apply owned_drop|by apply owned_spawn].
  - unfold accept_failed. by destruct (is_ctx s); split.
  - by split.
  - split; cbn; rewrite ?(held_update _ _ _ _ _ Hk); cbn; try done; try (destruct k; cbn; lia). by apply owned_close.
  - unfold free_slot. destruct k; split; cbn; rewrite ?(held_update _ _ _ _ _ Hk); cbn; try done; try lia; by apply owned_phase.
  - split; cbn; rewrite ?(held_delete _ _ _ _ Hk); cbn; try done; try (destruct k; cbn; lia). by eapply owned_done.
  - by split.
  - by split.
  - by split.
Qed.

Lemma reachable_inv s : 0 <= cap → rtc conn_step icapStart s → Inv s.
Proof. intros Hcap. apply (rtc_ind_r (λ s, Inv s)); [by apply Inv_start|]. intros s1 s2 _ Hs. by apply step_inv. Qed.

(** *** Draining *)

(** Every goroutine of the second map was one of the first, for the same
    connection and purpose, and has only gone on. *)
Definition phase_rank (p : GorPhase) : nat := match p with Running => 0 | ConnClosed => 1 | SlotFreed => 2 end.

Definition winds_down (gs gs' : gmap nat (Kind * GorPhase)) : Prop :=
  ∀ c k p', gs' !! c = Some (k, p') → ∃ p, gs !! c = Some (k, p) ∧ (phase_rank p ≤ phase_rank p')%nat.

#[local] Instance winds_down_preorder : PreOrder winds_down.
Proof.
  split; [intros gs c k p Hp; by exists p|]. intros gs1 gs2 gs3 H1 H2 c k p3 H3.
  destruct (H2 c k p3 H3) as (p2&H4&?). destruct (H1 c k p2 H4) as (p1&?&?). exists p1. split; [done|lia].
Qed.

Lemma winds_down_update gs c k p p' : gs !! c = Some (k, p) → (phase_rank p ≤ phase_rank p')%nat → winds_down gs (<[c := (k, p')]> gs).
Proof.
  intros Hc Hp c' k' q. destruct (decide (c = c')) as [<-|Hne]; [rewrite lookup_insert_eq; intros [= <- <-]; by exists p|].
  rewrite lookup_insert_ne by done. intros ?. by exists q.
Qed.

(** Once stopping, no step starts a goroutine or enters the wait group. *)
Definition drains (s s' : IcapServer) : Prop :=
  is_stopping s' = true ∧ winds_down (is_gs s) (is_gs s') ∧ is_wg s' <= is_wg s.

Lemma step_drains s s' : conn_step s s' → is_stopping s = true → drains s s'.
Proof.
  intros Hstep Hst. unfold drains.
  destruct Hstep as [s c Hpc Hl Hc0|s c Hpc|s c Hpc|s c Hpc|s c Hpc|s Hpc|s Hpc Hwg|s c k Hk|s c k Hk|s c k Hk|s|s|s Hst'];
    try (split_and!; [done|by cbn|by cbn; lia]).
  - unfold take_conn. by destruct (_ <? _).
  - unfold start_serving, icapTrack. by rewrite Hst.
  - unfold refuse_slot. cbn. by destruct (_ <? _).
  - unfold refuse_track, icapTrack. by rewrite Hst.
  - unfold accept_failed. by destruct (is_ctx s).
  - split_and!; [done|eapply winds_down_update; [done|cbn; lia]|cbn; lia].
  - unfold free_slot. destruct k; (split_and!; [done|eapply winds_down_update; [done|cbn; lia]|cbn; lia]).
  - split_and!; [done| |cbn; lia]. intros c' k' p'. cbn. intros (_&Hp)%lookup_delete_Some. by exists p'.
Qed.

Lemma stopping_drains s s' : rtc conn_step s s' → is_stopping s = true → drains s s'.
Proof.
  induction 1 as [s|s1 s2 s3 H1 _ IH]; intros Hst; [done|]. destruct (step_drains _ _ H1 Hst) as (Hst2&Hw&Hn).
  destruct (IH Hst2) as (?&?&?). split; [done|]. split; [by etrans|lia].
Qed.

(** No goroutine is left, and none can start. *)
Definition quiet (s : IcapServer) : Prop := is_stopping s = true ∧ is_gs s = ∅.

Lemma step_quiet s s' : conn_step s s' → quiet s → quiet s'.
Proof.
  intros Hstep [Hst Hgs]. destruct Hstep as [s c Hpc Hl Hc0|s c Hpc|s c Hpc|s c Hpc|s c Hpc|s Hpc|s Hpc Hwg|s c k Hk|s c k Hk|s c k Hk|s|s|s Hst'];
    try (by rewrite Hgs, lookup_empty in Hk); try done.
  - unfold take_conn. by destruct (_ <? _).
  - unfold start_serving, icapTrack. by rewrite Hst.
  - unfold refuse_slot. cbn. by destruct (_ <? _).
  - unfold refuse_track, icapTrack. by rewrite Hst.
  - unfold accept_failed. by destruct (is_ctx s).
Qed.

(** A goroutine that is left alone runs to its end. *)
Definition same_loop (s s' : IcapServer) : Prop :=
  is_pc s' = is_pc s ∧ is_seen s' = is_seen s ∧ is_stopping s' = is_stopping s.

Lemma finish s c g : is_gs s !! c = Some g → ∃ s', rtc conn_step s s' ∧ is_gs s' = delete c (is_gs s) ∧ same_loop s s'.
Proof.
  assert (∀ s k, is_gs s !! c = Some (k, SlotFreed) → ∃ s', rtc conn_step s s' ∧ is_gs s' = delete c (is_gs s) ∧ same_loop s s') as H1.
  { intros s0 k Hk. eexists. split; [by eapply rtc_once, step_done|]. by split. }
  assert (∀ s k, is_gs s !! c = Some (k, ConnClosed) → ∃ s', rtc conn_step s s' ∧ is_gs s' = delete c (is_gs s) ∧ same_loop s s') as H2.
  { intros s0 k Hk. destruct (H1 (free_slot c k s0) k) as (s'&Hs&Hgs&Hl); [destruct k; apply lookup_insert_eq|].
    exists s'. split; [eapply rtc_l; [by apply step_free|done]|]. rewrite Hgs. by destruct k; cbn in *; rewrite delete_insert_eq. }
  intros Hg. destruct g as [k []]; [|by eapply H2|by eapply H1].
  destruct (H2 (close_conn c {| s with is_gs := <[c := (k, ConnClosed)]> (is_gs s) |}) k) as (s'&Hs&Hgs&Hl); [apply lookup_insert_eq|].
  exists s'. split; [eapply rtc_l; [by apply step_close|done]|]. rewrite Hgs. by cbn; rewrite delete_insert_eq.
Qed.

Lemma finish_all s : ∃ s', rtc conn_step s s' ∧ is_gs s' = ∅ ∧ same_loop s s'.
Proof.
  remember (is_gs s) as gs eqn:Hgs. revert s Hgs. induction gs as [|c g gs Hc IH] using map_ind; intros s Hgs; [exists s; by split|].
  destruct (finish s c g) as (s1&H1&Hgs1&?&?&?); [rewrite <- Hgs; apply lookup_insert_eq|].
  destruct (IH s1) as (s2&Hs2&?&?&?&?); [by rewrite Hgs1, <- Hgs, delete_insert_id|].
  exists s2. split; [by etrans|]. split; [done|]. split_and!; congruence.
Qed.

(** The loop closes the connection it has when the service is stopping. *)
Lemma loop_lets_go s : quiet s → ∃ s', rtc conn_step s s' ∧ quiet s' ∧ pc_conn (is_pc s') = None.
Proof.
  intros Hq. assert (∀ s s', conn_step s s' → quiet s → (∃ s'', rtc conn_step s' s'' ∧ quiet s'' ∧ pc_conn (is_pc s'') = None) →
    ∃ s'', rtc conn_step s s'' ∧ quiet s'' ∧ pc_conn (is_pc s'') = None) as Hgo.
  { intros s1 s2 Hs _ (s3&?&?&?). exists s3. split; [by eapply rtc_l|done]. }
  assert (∀ s c, quiet s → is_pc s = HasSlot c → ∃ s', rtc conn_step s s' ∧ quiet s' ∧ pc_conn (is_pc s') = None) as Hadm.
  { intros s1 c H1 Hpc. exists (start_serving c s1). split; [by apply rtc_once, step_serve|]. split; [by eapply step_quiet; [apply step_serve|]|].
    unfold start_serving, icapTrack. by rewrite (proj1 H1). }
  assert (∀ s c, quiet s → is_pc s = RefuseSlot c → ∃ s', rtc conn_step s s' ∧ quiet s' ∧ pc_conn (is_pc s') = None) as Href.
  { intros s1 c H1 Hpc. exists (refuse_track c s1). split; [by apply rtc_once, step_refuse_track|]. split; [by eapply step_quiet; [apply step_refuse_track|]|].
    unfold refuse_track, icapTrack. by rewrite (proj1 H1). }
  assert (∀ s c, quiet s → is_pc s = Rejected c → ∃ s', rtc conn_step s s' ∧ quiet s' ∧ pc_conn (is_pc s') = None) as Hrej.
  { intros s1 c H1 Hpc. eapply (Hgo s1); [by apply step_refuse|done|]. assert (quiet (refuse_slot c s1)) as H2 by (by eapply step_quiet; [apply step_refuse|]).
    unfold refuse_slot in *. cbn in *. destruct (_ <? _); [by eapply Href|]. eexists. by split; [reflexivity|]. }
  destruct (is_pc s) as [|c|c|c|c| |] eqn:Hpc; try (exists s; split; [reflexivity|]; by rewrite Hpc); [|by eapply Hadm|by eapply Hrej|by eapply Href].
  eapply (Hgo s); [by apply step_take|done|]. assert (quiet (take_conn c s)) as H2 by (by eapply step_quiet; [apply step_take|]).
  unfold take_conn in *. destruct (_ <? _); [by eapply Hadm|by eapply Hrej].
Qed.

Definition running (g : Kind * GorPhase) : bool := match g.2 with Running => true | _ => false end.

(** C20: The ICAP service bounds what it holds: in every interleaving of accepts,
    goroutines and shutdown, at most cap + 64 goroutines hold a connection, an
    accepted connection is open only in one of their hands or the accept
    loop's, and the wait group counts exactly the goroutines that have not
    finished. *)
Theorem connections_bounded s : 0 <= cap → rtc conn_step icapStart s →
  held running (is_gs s) <= cap + icapMaxRefuseInflight ∧ is_wg s = held (λ _, true) (is_gs s)
  ∧ ∀ c, c ∈ is_seen s → c ∈ is_closed s ∨ pc_conn (is_pc s) = Some c ∨ ∃ k, is_gs s !! c = Some (k, Running).
Proof.
  intros Hcap Hs. destruct (reachable_inv s Hcap Hs) as [Hc Hr Hc1 Hr1 Hw [_ Hg Hseen _]]. split_and!; [|done|].
  - assert (held running (is_gs s) <= held serve_slot (is_gs s) + held refuse_slot_held (is_gs s)).
    { clear. induction (is_gs s) as [|k [[] []] m Hk IH] using map_ind; [done|..]; rewrite !held_insert by done; cbn; lia. }
    assert (∀ b, 0 <= b2z b) as Hb by (intros []; done). pose proof (Hb (match is_pc s with HasSlot _ => true | _ => false end)).
    pose proof (Hb (match is_pc s with RefuseSlot _ => true | _ => false end)). lia.
  - intros c Hin. destruct (Hseen c Hin) as [?|[[g Hgc]|?]]; [by right; left| |by left].
    destruct (Hg c g Hgc) as [_ Hcl]. destruct g as [k []]; [right; right; by exists k|left; by apply Hcl|left; by apply Hcl].
Qed.

(** C21: Stopping drains the ICAP service. Once it is stopping nothing new is
    served or refused, however many goroutines are still running: in every later
    state each goroutine was already there, for the same connection, and has
    only gone on, the wait group has not grown, and the service is still
    stopping. And from every later state the goroutines and the accept loop can
    run to a state in which no goroutine is left and every accepted connection
    is closed. *)
Theorem stop_drains s s' : 0 <= cap → rtc conn_step icapStart s → is_stopping s = true → rtc conn_step s s' →
  (is_stopping s' = true ∧ winds_down (is_gs s) (is_gs s') ∧ is_wg s' <= is_wg s)
  ∧ ∃ s'', rtc conn_step s' s'' ∧ is_gs s'' = ∅ ∧ is_wg s'' = 0 ∧ is_closed s'' = is_seen s''.
Proof.
  intros Hcap Hs Hst Hs'. pose proof (stopping_drains s s' Hs' Hst) as Hd. split; [exact Hd|]. destruct Hd as [Hst' _].
  destruct (finish_all s') as (s1&H1&Hgs1&_&_&Hst1). destruct (loop_lets_go s1) as (s2&H2&[_ Hgs2]&Hpc2); [split; [congruence|done]|].
  assert (rtc conn_step icapStart s2) as Hr by (by do 3 (etrans; [done|])). pose proof (reachable_inv s2 Hcap Hr) as Hi.
  exists s2. split; [by etrans|]. split; [done|]. split; [by rewrite (inv_wg _ Hi), Hgs2|]. destruct (inv_owned _ Hi) as [_ _ Hseen Hcl].
  apply leibniz_equiv. apply set_equiv. intros c. split; [apply Hcl|]. intros Hin.
  destruct (Hseen c Hin) as [?|[[g Hg]|?]]; [congruence|by rewrite Hgs2, lookup_empty in Hg|done].
Qed.

End Loop.

(** ** Throttled log lines

    [logRefusedICAP] and [logBadEncapsulatedICAP] read the clock, load the
    stamp and swap it; any number of goroutines do so at once. *)

Definition icapRefuseLogInterval : Z := 10 * second.
Definition icapBadEncapLogInterval : Z := 10 * second.

Inductive LogPc := LogIdle | LogNow (now : Z) | LogLoaded (now last : Z).

(** [lg_lines]: the times of the lines written, newest first. *)
Record LogState := mkLog { lg_clock : Z; lg_stamp : Z; lg_threads : nat → LogPc; lg_lines : list Z }.

Definition set_thread (t : nat) (p : LogPc) (s : LogState) : LogState :=
  {| s with lg_threads := λ t', if decide (t = t') then p else lg_threads s t' |}.

Section Throttle.
Context (interval : Z) (keep0 : bool).

(** Zero means "never logged"; only [logBadEncapsulatedICAP] avoids it. *)
Definition stamp_of (now : Z) : Z := if keep0 && (now =? 0) then 1 else now.

Definition suppressed (now last : Z) : bool := negb (last =? 0) && (now - last <? interval).

(** From the comparison on. *)
Definition log_swap (now last : Z) (s : LogState) : LogState :=
  if suppressed now last then s
  else if lg_stamp s =? last then {| s with lg_stamp := stamp_of now; lg_lines := stamp_of now :: lg_lines s |}
  else s.

Inductive log_step : LogState → LogState → Prop :=
  | log_tick s now : lg_clock s <= now → log_step s {| s with lg_clock := now |}
  | log_now s t : lg_threads s t = LogIdle → log_step s (set_thread t (LogNow (lg_clock s)) s)
  | log_load s t now : lg_threads s t = LogNow now → log_step s (set_thread t (LogLoaded now (lg_stamp s)) s)
  | log_done s t now last : lg_threads s t = LogLoaded now last → log_step s (set_thread t LogIdle (log_swap now last s)).

Fixpoint spaced (l : list Z) : Prop :=
  match l with
  | x :: (y :: _) as l' => interval <= x - y ∧ spaced l'
  | _ => True
  end.

(** The stamp is the time of the last line. *)
Record LogInv (s : LogState) : Prop := {
  log_stamp : lg_stamp s = default 0 (head (lg_lines s));
  log_spaced : spaced (lg_lines s);
  log_positive : Forall (λ x, 0 < x) (lg_lines s);
  log_clock : if keep0 then 0 <= lg_clock s else 0 < lg_clock s;
  log_threads : ∀ t, match lg_threads s t with LogIdle => True | LogNow now | LogLoaded now _ => if keep0 then 0 <= now else 0 < now end
}.

Lemma stamp_positive now : (if keep0 then 0 <= now else 0 < now) → 0 < stamp_of now ∧ now <= stamp_of now.
Proof. unfold stamp_of. destruct keep0; cbn [andb]; [destruct (now =? 0) eqn:H; lia|lia]. Qed.

Lemma log_swap_inv now last s : (if keep0 then 0 <= now else 0 < now) → LogInv s → LogInv (log_swap now last s).
Proof.
  intros Hn [Hs Hsp Hp Hc Ht]. unfold log_swap. destruct (suppressed now last) eqn:Hsup; [done|]. destruct (lg_stamp s =? last) eqn:Hl; [|done].
  apply Z.eqb_eq in Hl. destruct (stamp_positive now Hn). split; cbn; try done; [|by constructor]. destruct (lg_lines s) as [|x l] eqn:Hlines; [done|].
  split; [|done]. cbn in Hs. apply list.Forall_cons in Hp as [Hx _]. unfold suppressed in Hsup.
  apply andb_false_iff in Hsup as [Hsup|Hsup]; [apply negb_false_iff in Hsup; lia|]. lia.
Qed.

Lemma set_thread_inv t p s : match p with LogIdle => True | LogNow now | LogLoaded now _ => if keep0 then 0 <= now else 0 < now end →
  LogInv s → LogInv (set_thread t p s).
Proof. intros Hp [Hs Hsp Hpos Hc Ht]. split; cbn; try done. intros t'. case_decide; [done|apply Ht]. Qed.

(** However the goroutines interleave, two lines are never closer than the
    interval. *)
Lemma log_throttled s0 s : LogInv s0 → rtc log_step s0 s → spaced (lg_lines s).
Proof.
  intros H0 Hs. apply log_spaced. induction Hs as [|s1 s2 s3 Hstep _ IH]; [done|]. apply IH. clear IH. destruct Hstep as [s now Hc|s t Ht|s t now Ht|s t now last Ht].
  - destruct H0 as [? ? ? Hcl ?]. split; cbn; try done. destruct keep0; lia.
  - apply set_thread_inv; [by destruct H0|done].
  - apply set_thread_inv; [|done]. pose proof (log_threads _ H0 t) as Hn. by rewrite Ht in Hn.
  - apply set_thread_inv; [done|]. pose proof (log_threads _ H0 t) as Hn. rewrite Ht in Hn. by apply log_swap_inv.
Qed.

End Throttle.

(** ** Deadlines *)

(** [icapIdleConn]: a zero ceiling arms nothing. *)
Record IdleConn := mkIdle { ic_ceiling : Time; ic_deadline : Time }.

Definition arm (idle : Duration) (now : Time) (c : IdleConn) : IdleConn :=
  let dl := now + idle in
  {| c with ic_deadline := if ic_ceiling c <? dl then ic_ceiling c else dl |}.

(** A read of [n] bytes that ended at [now]. *)
Definition idle_read (idle : Duration) (n : Z) (now : Time) (c : IdleConn) : IdleConn :=
  if (0 <? n) && negb (IsZero (ic_ceiling c)) then arm idle now c else c.

(** However many reads make progress, the deadline never passes the ceiling. *)
Lemma idle_ceiling idle reads : ∀ c, IsZero (ic_ceiling c) = false → ic_deadline c <= ic_ceiling c →
  let c' := foldl (λ c r, idle_read idle r.1 r.2 c) c reads in ic_deadline c' <= ic_ceiling c' ∧ ic_ceiling c' = ic_ceiling c.
Proof.
  induction reads as [|[n now] reads IH]; intros c Hz Hc; [done|]. cbn [foldl fst snd].
  assert (ic_ceiling (idle_read idle n now c) = ic_ceiling c) as Hcl by (unfold idle_read, arm; by destruct (_ && _)).
  destruct (IH (idle_read idle n now c)) as [? ?]; [by rewrite Hcl| |split; [done|congruence]].
  unfold idle_read, arm. rewrite Hz. cbn [negb]. destruct (0 <? n); cbn; [|done]. destruct (ic_ceiling c <? now + idle) eqn:Hl; lia.
Qed.
