(* ===== verification/RuleOwners.v ===== *)
(** * Lifetimes of compiled rules

    generation.go, rule_generations.go and the reload and close paths of
    scanner.go: native rules are destroyed by reference counts on two levels.
    A publication pins its rules, every request pins the publication it reads,
    a native scanner keeps its own rules.  Every atomic action of every
    goroutine is an [OwnerAction]; a panic of the code is the result [Panics]. *)

From Stdlib Require Import ZArith Zwf Lia.
From Stdlib Require String.
From stdpp Require Import base gmap list numbers strings relations.
From S2P Require Import Prelude Counting.

Local Open Scope Z_scope.

#[local] Arguments Z.add : simpl never.
#[local] Arguments Z.sub : simpl never.
#[local] Arguments Z.mul : simpl never.
#[local] Arguments cnt : simpl never.
#[local] Arguments held : simpl never.
#[local] Arguments gsum : simpl never.
#[local] Arguments b2z : simpl never.

(** ** State

    Rules are identified by their address; [nativeRulesOwner]s by their rules. *)
Inductive Status := OwnerLive | OwnerClaimed | OwnerDestroyed.

Record nativeRulesOwner := mkOwner { ow_refs : Z; ow_status : Status }.

(** [pn_todo]: the owners a pin still holds; the last release gives them back
    one by one. *)
Record generationPin := mkPin { pn_refs : Z; pn_owners : list nat; pn_todo : list nat }.

(** What a publication stores together. *)
Record Published := mkPublished { pb_rules : option nat; pb_big : option nat; pb_marker : option nat; pb_identity : string }.

Record scanLease := mkLease { ls_pin : option nat; ls_bundle : Published }.

(** A reload, or a close, in progress: what it prepared, the references it has
    to give back, and the root it replaced. *)
Inductive ReloadPc := Preparing | Releasing.

Record Reload := mkReload {
  rl_pc : ReloadPc;
  rl_prepared : list (option nat);
  rl_candidates : list nat;
  rl_retired : option nat
}.

Record ScannerState := mkScannerState {
  ss_owners : gmap nat nativeRulesOwner;
  ss_pins : gmap nat generationPin;
  ss_root : option nat;
  ss_closed : bool;
  ss_bundle : Published;
  ss_leases : gmap nat scanLease;
  ss_native : gmap nat (option nat);
  ss_threads : gmap nat Reload;
  ss_mu : option nat;
  ss_live : Z
}.

#[export] Instance Status_eq_dec : EqDecision Status.
Proof. solve_decision. Defined.

Definition noRules (identity : string) : Published := mkPublished None None None identity.

Definition NewScanner : ScannerState := mkScannerState ∅ ∅ None false (noRules "") ∅ ∅ ∅ None 0.

(** ** Reference counts; [None] is a panic *)

Definition retain_owner (r : nat) (s : ScannerState) : option ScannerState :=
  o ← ss_owners s !! r;
  if ow_refs o =? 0 then None
  else Some {| s with ss_owners := <[r := mkOwner (ow_refs o + 1) (ow_status o)]> (ss_owners s) |}.

Definition release_owner (r : nat) (s : ScannerState) : option ScannerState :=
  o ← ss_owners s !! r;
  if ow_refs o =? 0 then None
  else Some {| s with ss_owners := <[r := mkOwner (ow_refs o - 1) (ow_status o)]> (ss_owners s) |}.

Definition adopt (r : nat) (s : ScannerState) : option ScannerState :=
  match ss_owners s !! r with
  | None => Some {| s with ss_owners := <[r := mkOwner 1 OwnerLive]> (ss_owners s); ss_live := ss_live s + 1 |}
  | Some o => if bool_decide (ow_status o ≠ OwnerLive) then None else retain_owner r s
  end.

Fixpoint adopt_all (l : list nat) (s : ScannerState) : option ScannerState :=
  match l with [] => Some s | r :: l => s ← adopt r s; adopt_all l s end.

(** The owner a native scanner depends on; rules nobody adopted have none. *)
Definition retainManaged (r : nat) (s : ScannerState) : option (option nat * ScannerState) :=
  match ss_owners s !! r with
  | None => Some (None, s)
  | Some o => if bool_decide (ow_status o ≠ OwnerLive) then None else s ← retain_owner r s; Some (Some r, s)
  end.

Definition set_pin (p : nat) (pn : generationPin) (s : ScannerState) : ScannerState := {| s with ss_pins := <[p := pn]> (ss_pins s) |}.

Definition retain_pin (p : nat) (s : ScannerState) : option ScannerState :=
  pn ← ss_pins s !! p;
  if pn_refs pn =? 0 then None else Some (set_pin p (mkPin (pn_refs pn + 1) (pn_owners pn) (pn_todo pn)) s).

Definition release_pin (p : nat) (s : ScannerState) : option ScannerState :=
  pn ← ss_pins s !! p;
  if pn_refs pn =? 0 then None else Some (set_pin p (mkPin (pn_refs pn - 1) (pn_owners pn) (pn_todo pn)) s).

(** A nil pin is neither retained nor released. *)
Definition with_pin (f : nat → ScannerState → option ScannerState) (p : option nat) (s : ScannerState) : option ScannerState :=
  match p with None => Some s | Some p => f p s end.

(** ** Actions *)

Definition set_thread (t : nat) (rl : Reload) (s : ScannerState) : ScannerState := {| s with ss_threads := <[t := rl]> (ss_threads s) |}.

(** The rules of a bundle, without repetition, main rules first. *)
Definition distinct (l : list (option nat)) : list nat :=
  foldl (λ acc r, match r with Some r => if mem r acc then acc else acc ++ [r] | None => acc end) [] l.

Definition bundle_rules (b : Published) : list (option nat) := [pb_rules b; pb_big b; pb_marker b].

(** [publishReload]: the new root retains its owners, the old one is handed to
    the caller. *)
Definition publishReload (t p : nat) (b : Published) (rl : Reload) (s : ScannerState) : option ScannerState :=
  let owners := distinct (bundle_rules b) in
  s' ← adopt_all owners s;
  Some (set_thread t (mkReload Releasing [] (rl_candidates rl) (ss_root s))
    {| s' with ss_pins := <[p := mkPin 1 owners owners]> (ss_pins s'); ss_root := Some p; ss_bundle := b; ss_mu := None |}).

(** What an action comes to. *)
Inductive Outcome := Disabled | Panics | Next (s : ScannerState).

Definition or_panic (o : option ScannerState) : Outcome := match o with Some s => Next s | None => Panics end.

(** Rules a preparation may come up with: new ones, those in use now, and
    those it has already prepared. *)
Definition may_prepare (r : option nat) (rl : Reload) (s : ScannerState) : bool :=
  match r with
  | None => negb (bool_decide (rl_prepared rl = []))
  | Some n => bool_decide (ss_owners s !! n = None)
              || (negb (bool_decide (rl_prepared rl = [])) && (mem r (bundle_rules (ss_bundle s)) || mem r (rl_prepared rl)))
  end.

(** A request pins the publication before it forms its cache key; after a close there is none. *)
Definition acquireScanLease (l : nat) (s : ScannerState) : Outcome :=
  if ss_closed s || bool_decide (is_Some (ss_leases s !! l)) then Disabled
  else or_panic (s' ← with_pin retain_pin (ss_root s) s; Some {| s' with ss_leases := <[l := mkLease (ss_root s) (ss_bundle s)]> (ss_leases s') |}).

(** The end of a request. *)
Definition releaseLease (l : nat) (s : ScannerState) : Outcome :=
  match ss_leases s !! l with
  | None => Disabled
  | Some ls => or_panic (with_pin release_pin (ls_pin ls) {| s with ss_leases := delete l (ss_leases s) |})
  end.

(** A request builds a native scanner from rules it has leased; the scanner
    retains them itself. *)
Definition newOwnedScanner (l r sc : nat) (s : ScannerState) : Outcome :=
  match ss_leases s !! l with
  | Some ls =>
      if mem (Some r) (bundle_rules (ls_bundle ls)) && bool_decide (ss_native s !! sc = None) then
        or_panic (x ← retainManaged r s; let s' := x.2 in Some {| s' with ss_native := <[sc := x.1]> (ss_native s') |})
      else Disabled
  | None => Disabled
  end.

(** A native scanner is destroyed, wherever it is, before it lets its rules go. *)
Definition destroyScanner (sc : nat) (s : ScannerState) : Outcome :=
  match ss_native s !! sc with
  | None => Disabled
  | Some o => or_panic (with_pin release_owner o {| s with ss_native := delete sc (ss_native s) |})
  end.

(** A reload takes its mutex, unless the scanner is closed. *)
Definition beginReload (t : nat) (s : ScannerState) : Outcome :=
  if ss_closed s || bool_decide (is_Some (ss_mu s)) || bool_decide (is_Some (ss_threads s !! t)) then Disabled
  else Next (set_thread t (mkReload Preparing [] [] None) {| s with ss_mu := Some t |}).

(** A reload adopts what it has prepared: main, big and marker rules in turn. *)
Definition adoptCandidate (t : nat) (r : option nat) (s : ScannerState) : Outcome :=
  match ss_threads s !! t with
  | Some (mkReload Preparing prepared cands retired as rl) =>
      if (length prepared <? 3)%nat && may_prepare r rl s then
        or_panic (s' ← with_pin adopt r s;
                  Some (set_thread t (mkReload Preparing (prepared ++ [r]) (cands ++ option_list r) retired) s'))
      else Disabled
  | _ => Disabled
  end.

(** A reload that fails, or panics, gives its candidates back; the first
    failure may still publish a deny list of its own. *)
Definition failReload (t : nat) (identity : option string) (s : ScannerState) : Outcome :=
  match ss_threads s !! t with
  | Some (mkReload Preparing prepared cands retired) =>
      let b := ss_bundle s in
      if bool_decide (is_Some identity) && negb (bool_decide (prepared = [])) then Disabled
      else Next (set_thread t (mkReload Releasing [] cands retired)
        {| s with ss_mu := None; ss_bundle := mkPublished (pb_rules b) (pb_big b) (pb_marker b) (default (pb_identity b) identity) |})
  | _ => Disabled
  end.

(** A reload that has prepared all three publishes them. *)
Definition publishCandidates (t p : nat) (identity : string) (s : ScannerState) : Outcome :=
  match ss_threads s !! t with
  | Some (mkReload Preparing [main; big; marker] _ _ as rl) =>
      if bool_decide (is_Some (ss_pins s !! p)) then Disabled
      else or_panic (publishReload t p (mkPublished main big marker identity) rl s)
  | _ => Disabled
  end.

(** After the reload mutex is released, the replaced root is. *)
Definition releaseRetired (t : nat) (s : ScannerState) : Outcome :=
  match ss_threads s !! t with
  | Some (mkReload Releasing _ cands (Some p)) => or_panic (release_pin p (set_thread t (mkReload Releasing [] cands None) s))
  | _ => Disabled
  end.

(** Then the candidates, one by one. *)
Definition releaseCandidate (t : nat) (s : ScannerState) : Outcome :=
  match ss_threads s !! t with
  | Some (mkReload Releasing _ (r :: cands) None) => or_panic (release_owner r (set_thread t (mkReload Releasing [] cands None) s))
  | Some (mkReload Releasing _ [] None) => Next {| s with ss_threads := delete t (ss_threads s) |}
  | _ => Disabled
  end.

(** Close detaches the root and empties the live slots. *)
Definition closeScanner (t : nat) (s : ScannerState) : Outcome :=
  if bool_decide (is_Some (ss_mu s)) || bool_decide (is_Some (ss_threads s !! t)) then Disabled
  else Next (set_thread t (mkReload Releasing [] [] (ss_root s))
         {| s with ss_root := None; ss_closed := true; ss_bundle := noRules (pb_identity (ss_bundle s)) |}).

(** The last release of a pin releases its owners. *)
Definition drainPin (p : nat) (s : ScannerState) : Outcome :=
  match ss_pins s !! p with
  | Some (mkPin refs owners (r :: todo)) =>
      if refs =? 0 then or_panic (release_owner r (set_pin p (mkPin refs owners todo) s)) else Disabled
  | _ => Disabled
  end.

(** The last release of an owner claims the rules, *)
Definition claimRules (r : nat) (s : ScannerState) : Outcome :=
  match ss_owners s !! r with
  | Some o => if (ow_refs o =? 0) && bool_decide (ow_status o = OwnerLive)
              then Next {| s with ss_owners := <[r := mkOwner 0 OwnerClaimed]> (ss_owners s) |} else Disabled
  | None => Disabled
  end.

(** and destroys them outside the lock. *)
Definition destroyRules (r : nat) (s : ScannerState) : Outcome :=
  match ss_owners s !! r with
  | Some o => if bool_decide (ow_status o = OwnerClaimed)
              then Next {| s with ss_owners := <[r := mkOwner (ow_refs o) OwnerDestroyed]> (ss_owners s); ss_live := ss_live s - 1 |} else Disabled
  | None => Disabled
  end.

Inductive OwnerAction :=
  | ALease (l : nat)
  | ARelease (l : nat)
  | AScanner (l r sc : nat)
  | ADestroyScanner (sc : nat)
  | ABegin (t : nat)
  | AAdopt (t : nat) (r : option nat)
  | AFail (t : nat) (identity : option string)
  | APublish (t p : nat) (identity : string)
  | ARetire (t : nat)
  | ADrop (t : nat)
  | AClose (t : nat)
  | ADrain (p : nat)
  | AClaim (r : nat)
  | ADestroy (r : nat).

Definition act (a : OwnerAction) (s : ScannerState) : Outcome :=
  match a with
  | ALease l => acquireScanLease l s
  | ARelease l => releaseLease l s
  | AScanner l r sc => newOwnedScanner l r sc s
  | ADestroyScanner sc => destroyScanner sc s
  | ABegin t => beginReload t s
  | AAdopt t r => adoptCandidate t r s
  | AFail t identity => failReload t identity s
  | APublish t p identity => publishCandidates t p identity s
  | ARetire t => releaseRetired t s
  | ADrop t => releaseCandidate t s
  | AClose t => closeScanner t s
  | ADrain p => drainPin p s
  | AClaim r => claimRules r s
  | ADestroy r => destroyRules r s
  end.

Ltac open_act := cbv beta iota delta [act acquireScanLease releaseLease newOwnedScanner destroyScanner beginReload adoptCandidate failReload publishCandidates releaseRetired releaseCandidate closeScanner drainPin claimRules destroyRules].
Tactic Notation "open_act" "in" hyp(H) := cbv beta iota delta [act acquireScanLease releaseLease newOwnedScanner destroyScanner beginReload adoptCandidate failReload publishCandidates releaseRetired releaseCandidate closeScanner drainPin claimRules destroyRules] in H.

Definition moves (s s' : ScannerState) : Prop := ∃ a, act a s = Next s'.

(** The actions that only give references back and destroy rules. *)
Definition gives_back (a : OwnerAction) : bool :=
  match a with ARetire _ | ADrop _ | ADrain _ | AClaim _ | ADestroy _ => true | _ => false end.

Definition cleans (s s' : ScannerState) : Prop := ∃ a, gives_back a = true ∧ act a s = Next s'.

(** ** The invariant *)

(** One reference, if [o] is [r]. *)
Definition eqo (o : option nat) (r : nat) : Z := b2z (bool_decide (o = Some r)).

(** References to rules: by pins that have not given them back, by native
    scanners, and by reloads in progress. *)
Definition owner_holders (s : ScannerState) (r : nat) : Z :=
  gsum (λ pn, cnt r (pn_todo pn)) (ss_pins s) + gsum (λ o, eqo o r) (ss_native s)
  + gsum (λ rl, cnt r (rl_candidates rl)) (ss_threads s).

(** References to a publication: the root's, the requests' and those of the
    reloads that have replaced it. *)
Definition pin_holders (s : ScannerState) (p : nat) : Z :=
  eqo (ss_root s) p + gsum (λ ls, eqo (ls_pin ls) p) (ss_leases s)
  + gsum (λ rl, eqo (rl_retired rl) p) (ss_threads s).

Definition owner_ok (w : Z) (o : option nativeRulesOwner) : Prop :=
  match o with Some o => ow_refs o = w ∧ (ow_status o = OwnerLive ∨ w = 0) | None => w = 0 end.

Definition undestroyed (o : nativeRulesOwner) : bool := negb (bool_decide (ow_status o = OwnerDestroyed)).

Definition OwnersOk (w : nat → Z) (s : ScannerState) : Prop :=
  (∀ r, owner_ok (w r) (ss_owners s !! r)) ∧ ss_live s = held undestroyed (ss_owners s).

Definition pin_ok (w : Z) (pn : option generationPin) : Prop :=
  match pn with Some pn => pn_refs pn = w ∧ (w ≠ 0 → pn_todo pn = pn_owners pn) | None => w = 0 end.

Definition PinsOk (w : nat → Z) (s : ScannerState) : Prop := ∀ p, pin_ok (w p) (ss_pins s !! p).

(** The rules of a bundle are owned by the publication pinned with it. *)
Definition owned_by (pins : gmap nat generationPin) (p : option nat) (b : Published) : Prop :=
  ∀ r, Some r ∈ bundle_rules b → ∃ q pn, p = Some q ∧ pins !! q = Some pn ∧ r ∈ pn_owners pn.

Record Shape (s : ScannerState) : Prop := {
  sh_root : owned_by (ss_pins s) (ss_root s) (ss_bundle s);
  sh_leases : ∀ l ls, ss_leases s !! l = Some ls → owned_by (ss_pins s) (ls_pin ls) (ls_bundle ls);
  sh_prepared : ∀ t rl, ss_threads s !! t = Some rl → ∀ r, Some r ∈ rl_prepared rl → r ∈ rl_candidates rl;
  sh_mu : ∀ t rl, ss_threads s !! t = Some rl → rl_pc rl = Preparing → ss_mu s = Some t ∧ rl_retired rl = None;
  sh_closed : ss_closed s = true → ss_root s = None ∧ ss_mu s = None
}.

Record Managed (s : ScannerState) : Prop := {
  mg_owners : OwnersOk (owner_holders s) s;
  mg_pins : PinsOk (pin_holders s) s;
  mg_shape : Shape s
}.

(** ** Owners *)

(** Only the owners of two states differ. *)
Definition same_but_owners (s s' : ScannerState) : Prop :=
  ∃ owners live, s' = {| s with ss_owners := owners; ss_live := live |}.

Definition bump (d : Z) (r : nat) (w : nat → Z) (x : nat) : Z := w x + d * b2z (bool_decide (r = x)).

Lemma bump_same d r w : bump d r w r = w r + d.
Proof. unfold bump. rewrite b2z_same. lia. Qed.

Lemma bump_other d r w x : r ≠ x → bump d r w x = w x.
Proof. intros Hne. unfold bump. rewrite b2z_other by done. lia. Qed.

Lemma OwnersOk_ext w w' s : (∀ r, w r = w' r) → OwnersOk w s → OwnersOk w' s.
Proof. intros Hw [Ho Hl]. split; [|done]. intros r. rewrite <- Hw. apply Ho. Qed.

Lemma OwnersOk_same w s s' : ss_owners s' = ss_owners s → ss_live s' = ss_live s → OwnersOk w s → OwnersOk w s'.
Proof. unfold OwnersOk. by intros -> ->. Qed.

(** A reference keeps its rules alive. *)
Lemma OwnersOk_held w s r : OwnersOk w s → 0 < w r → ∃ o, ss_owners s !! r = Some o ∧ ow_refs o = w r ∧ ow_status o = OwnerLive.
Proof. intros [Ho _] Hw. specialize (Ho r). destruct (ss_owners s !! r) as [o|]; cbn in Ho; [|lia]. destruct Ho as [? [?|?]]; [eauto|lia]. Qed.

Lemma held_same_status (m : gmap nat nativeRulesOwner) r o o' :
  m !! r = Some o → ow_status o' = ow_status o → held undestroyed (<[r := o']> m) = held undestroyed m.
Proof. intros Hr Hs. rewrite (held_update _ _ _ o) by done. unfold undestroyed. rewrite Hs. lia. Qed.

Lemma OwnersOk_update w s r o o' d :
  ss_owners s !! r = Some o → OwnersOk w s → ow_refs o' = ow_refs o + d → ow_status o' = ow_status o → ow_status o = OwnerLive →
  OwnersOk (bump d r w) {| s with ss_owners := <[r := o']> (ss_owners s) |}.
Proof.
  intros Hr [Ho Hl] Hrefs Hst Hlive. split; cbn.
  - intros x. destruct (decide (r = x)) as [->|Hne].
    + rewrite lookup_insert_eq, bump_same. specialize (Ho x). rewrite Hr in Ho. cbn in *. split; [lia|]. left. congruence.
    + rewrite lookup_insert_ne, bump_other by done. apply Ho.
  - by rewrite (held_same_status _ _ o).
Qed.

Lemma retain_owner_ok w s r :
  OwnersOk w s → 0 < w r → ∃ s', retain_owner r s = Some s' ∧ OwnersOk (bump 1 r w) s' ∧ same_but_owners s s'.
Proof.
  intros Ho Hw. destruct (OwnersOk_held _ _ _ Ho Hw) as (o & Hr & Hrefs & Hst). unfold retain_owner. rewrite Hr. cbn.
  destruct (Z.eqb_spec (ow_refs o) 0); [lia|]. eexists. split; [done|]. split; [|by eexists _, _]. by apply (OwnersOk_update _ _ _ o).
Qed.

Lemma release_owner_ok w s r :
  OwnersOk w s → 0 < w r → ∃ s', release_owner r s = Some s' ∧ OwnersOk (bump (-1) r w) s' ∧ same_but_owners s s'.
Proof.
  intros Ho Hw. destruct (OwnersOk_held _ _ _ Ho Hw) as (o & Hr & Hrefs & Hst). unfold release_owner. rewrite Hr. cbn.
  destruct (Z.eqb_spec (ow_refs o) 0); [lia|]. eexists. split; [done|]. split; [|by eexists _, _]. by apply (OwnersOk_update _ _ _ o).
Qed.

Lemma adopt_ok w s r :
  OwnersOk w s → 0 < w r ∨ ss_owners s !! r = None → ∃ s', adopt r s = Some s' ∧ OwnersOk (bump 1 r w) s' ∧ same_but_owners s s'.
Proof.
  intros Ho [Hw|Hr]; unfold adopt.
  - destruct (OwnersOk_held _ _ _ Ho Hw) as (o & -> & Hrefs & Hst). rewrite Hst. by apply retain_owner_ok.
  - rewrite Hr. eexists. split; [done|]. split; [|by eexists _, _]. destruct Ho as [Ho Hl]. split; cbn.
    + intros x. destruct (decide (r = x)) as [->|Hne].
      * rewrite lookup_insert_eq, bump_same. specialize (Ho x). rewrite Hr in Ho. cbn in *. split; [lia|by left].
      * rewrite lookup_insert_ne, bump_other by done. apply Ho.
    + rewrite held_insert by done. change (b2z (undestroyed (mkOwner 1 OwnerLive))) with 1. lia.
Qed.

Lemma same_but_owners_trans s1 s2 s3 : same_but_owners s1 s2 → same_but_owners s2 s3 → same_but_owners s1 s3.
Proof. intros (? & ? & ->) (? & ? & ->). by eexists _, _. Qed.

Lemma adopt_all_ok l w s :
  OwnersOk w s → (∀ r, r ∈ l → 0 < w r) →
  ∃ s', adopt_all l s = Some s' ∧ OwnersOk (λ r, w r + cnt r l) s' ∧ same_but_owners s s'.
Proof.
  revert w s. induction l as [|r l IH]; intros w s Ho Hl.
  - exists s. split; [done|]. split; [|by destruct s; eexists _, _]. by apply (OwnersOk_ext w); [intros; unfold cnt; cbn; lia|].
  - destruct (adopt_ok w s r Ho) as (s1 & Hr & Ho1 & H1); [left; apply Hl; left|]. cbn [adopt_all]. rewrite Hr. cbn [mbind option_bind].
    destruct (IH _ _ Ho1) as (s2 & -> & Ho2 & H2).
    + intros x Hx. unfold bump. pose proof (b2z_nonneg (bool_decide (r = x))). pose proof (Hl x (list_elem_of_further _ _ _ Hx)). lia.
    + exists s2. split; [done|]. split; [|by eapply same_but_owners_trans].
      refine (OwnersOk_ext _ _ _ _ Ho2). intros x. rewrite cnt_cons. unfold bump. lia.
Qed.

(** ** Pins *)

Lemma PinsOk_ext w w' s : (∀ p, w p = w' p) → PinsOk w s → PinsOk w' s.
Proof. intros Hw Hp p. rewrite <- Hw. apply Hp. Qed.

Lemma PinsOk_same w s s' : ss_pins s' = ss_pins s → PinsOk w s → PinsOk w s'.
Proof. unfold PinsOk. by intros ->. Qed.

Lemma PinsOk_held w s p : PinsOk w s → 0 < w p →
  ∃ pn, ss_pins s !! p = Some pn ∧ pn_refs pn = w p ∧ pn_todo pn = pn_owners pn.
Proof. intros Hp Hw. specialize (Hp p). destruct (ss_pins s !! p) as [pn|]; cbn in Hp; [|lia]. exists pn. naive_solver lia. Qed.

Lemma PinsOk_set w s p pn pn' d :
  ss_pins s !! p = Some pn → PinsOk w s → 0 < w p → pn' = mkPin (pn_refs pn + d) (pn_owners pn) (pn_todo pn) →
  PinsOk (bump d p w) (set_pin p pn' s).
Proof.
  intros Hpn Hp Hw -> q. cbn. destruct (decide (p = q)) as [->|Hne].
  - rewrite lookup_insert_eq, bump_same. specialize (Hp q). rewrite Hpn in Hp. cbn in *. naive_solver lia.
  - rewrite lookup_insert_ne, bump_other by done. apply Hp.
Qed.

Lemma retain_pin_ok w s p : PinsOk w s → 0 < w p →
  ∃ pn, ss_pins s !! p = Some pn ∧ retain_pin p s = Some (set_pin p (mkPin (pn_refs pn + 1) (pn_owners pn) (pn_todo pn)) s).
Proof.
  intros Hp Hw. destruct (PinsOk_held _ _ _ Hp Hw) as (pn & Hpn & Hrefs & _). exists pn. split; [done|].
  unfold retain_pin. rewrite Hpn. cbn. destruct (Z.eqb_spec (pn_refs pn) 0); [lia|done].
Qed.

Lemma release_pin_ok w s p : PinsOk w s → 0 < w p →
  ∃ pn, ss_pins s !! p = Some pn ∧ release_pin p s = Some (set_pin p (mkPin (pn_refs pn - 1) (pn_owners pn) (pn_todo pn)) s).
Proof.
  intros Hp Hw. destruct (PinsOk_held _ _ _ Hp Hw) as (pn & Hpn & Hrefs & _). exists pn. split; [done|].
  unfold release_pin. rewrite Hpn. cbn. destruct (Z.eqb_spec (pn_refs pn) 0); [lia|done].
Qed.

(** Counting references does not change what a publication owns. *)
Definition same_owners (pins pins' : gmap nat generationPin) : Prop :=
  ∀ p pn, pins !! p = Some pn → ∃ pn', pins' !! p = Some pn' ∧ pn_owners pn' = pn_owners pn.

Lemma same_owners_insert pins p pn pn' : pins !! p = Some pn → pn_owners pn' = pn_owners pn → same_owners pins (<[p := pn']> pins).
Proof.
  intros Hp Ho q qn Hq. destruct (decide (p = q)) as [->|Hne].
  - rewrite lookup_insert_eq. exists pn'. split; [done|]. congruence.
  - rewrite lookup_insert_ne by done. eauto.
Qed.

Lemma same_owners_fresh pins p pn : pins !! p = None → same_owners pins (<[p := pn]> pins).
Proof. intros Hp q qn Hq. exists qn. split; [|done]. rewrite lookup_insert_ne; [done|]. congruence. Qed.

Lemma same_owners_refl pins : same_owners pins pins.
Proof. intros p pn Hp. eauto. Qed.

Lemma owned_by_mono pins pins' p b : same_owners pins pins' → owned_by pins p b → owned_by pins' p b.
Proof. intros Hs Hb r Hr. destruct (Hb r Hr) as (q & pn & -> & Hq & Hin). destruct (Hs q pn Hq) as (pn' & Hq' & Heq). exists q, pn'. by rewrite Heq. Qed.

Lemma owned_by_none pins p i : owned_by pins p (noRules i).
Proof. intros r Hr. cbn in Hr. unfold bundle_rules, noRules in Hr. cbn in Hr. set_solver. Qed.

(** Setting a gone pin's remaining owners. *)
Lemma PinsOk_todo w s p pn todo :
  ss_pins s !! p = Some pn → pn_refs pn = 0 → PinsOk w s → PinsOk w (set_pin p (mkPin (pn_refs pn) (pn_owners pn) todo) s).
Proof.
  intros Hpn Hz Hp q. cbn. destruct (decide (p = q)) as [->|Hne].
  - rewrite lookup_insert_eq. specialize (Hp q). rewrite Hpn in Hp. cbn in *. destruct Hp as [Hr _]. split; [done|]. lia.
  - rewrite lookup_insert_ne by done. apply Hp.
Qed.

(** ** Holders *)

Lemma eqo_nonneg o r : 0 <= eqo o r.
Proof. apply b2z_nonneg. Qed.

Lemma eqo_Some q r : eqo (Some q) r = b2z (bool_decide (q = r)).
Proof. unfold eqo. f_equal. apply bool_decide_ext. naive_solver. Qed.

Lemma eqo_same r : eqo (Some r) r = 1.
Proof. by rewrite eqo_Some, b2z_same. Qed.

Lemma eqo_None r : eqo None r = 0.
Proof. done. Qed.

Lemma owner_holders_nonneg s r :
  0 <= gsum (λ pn, cnt r (pn_todo pn)) (ss_pins s) ∧ 0 <= gsum (λ o, eqo o r) (ss_native s)
  ∧ 0 <= gsum (λ rl, cnt r (rl_candidates rl)) (ss_threads s).
Proof. split_and!; apply gsum_nonneg; intros; [apply cnt_nonneg|apply eqo_nonneg|apply cnt_nonneg]. Qed.

Lemma pin_holders_nonneg s p :
  0 <= eqo (ss_root s) p ∧ 0 <= gsum (λ ls, eqo (ls_pin ls) p) (ss_leases s) ∧ 0 <= gsum (λ rl, eqo (rl_retired rl) p) (ss_threads s).
Proof. split_and!; [apply eqo_nonneg|..]; apply gsum_nonneg; intros; apply eqo_nonneg. Qed.

Lemma pin_holds s p pn r : ss_pins s !! p = Some pn → r ∈ pn_todo pn → 0 < owner_holders s r.
Proof.
  intros Hp Hr. pose proof (owner_holders_nonneg s r). apply cnt_in in Hr.
  pose proof (gsum_lookup (λ pn, cnt r (pn_todo pn)) (ss_pins s) p pn (λ x, cnt_nonneg r _) Hp). unfold owner_holders. cbn in *. lia.
Qed.

Lemma native_holds s sc r : ss_native s !! sc = Some (Some r) → 0 < owner_holders s r.
Proof.
  intros Hs. pose proof (owner_holders_nonneg s r). pose proof (eqo_same r).
  pose proof (gsum_lookup (λ o, eqo o r) _ _ _ (λ o, eqo_nonneg o r) Hs). unfold owner_holders. cbv beta in *. lia.
Qed.

Lemma thread_holds s t rl r : ss_threads s !! t = Some rl → r ∈ rl_candidates rl → 0 < owner_holders s r.
Proof.
  intros Ht Hr. pose proof (owner_holders_nonneg s r). apply cnt_in in Hr.
  pose proof (gsum_lookup (λ rl, cnt r (rl_candidates rl)) (ss_threads s) t rl (λ x, cnt_nonneg r _) Ht). unfold owner_holders. cbn in *. lia.
Qed.

Lemma root_holds s p : ss_root s = Some p → 0 < pin_holders s p.
Proof. intros Hr. pose proof (pin_holders_nonneg s p). pose proof (eqo_same p). unfold pin_holders. rewrite Hr in *. lia. Qed.

Lemma lease_holds s l ls p : ss_leases s !! l = Some ls → ls_pin ls = Some p → 0 < pin_holders s p.
Proof.
  intros Hl Hp. pose proof (pin_holders_nonneg s p). pose proof (eqo_same p).
  pose proof (gsum_lookup (λ ls, eqo (ls_pin ls) p) _ _ _ (λ x, eqo_nonneg _ p) Hl) as H'. cbv beta in H'. rewrite Hp in H'. unfold pin_holders. lia.
Qed.

Lemma retired_holds s t rl p : ss_threads s !! t = Some rl → rl_retired rl = Some p → 0 < pin_holders s p.
Proof.
  intros Ht Hp. pose proof (pin_holders_nonneg s p). pose proof (eqo_same p).
  pose proof (gsum_lookup (λ rl, eqo (rl_retired rl) p) _ _ _ (λ x, eqo_nonneg _ p) Ht) as H'. cbv beta in H'. rewrite Hp in H'. unfold pin_holders. lia.
Qed.

(** The rules of a pinned bundle are alive. *)
Lemma bundle_held s p b r :
  Managed s → (∀ q, p = Some q → 0 < pin_holders s q) → owned_by (ss_pins s) p b → Some r ∈ bundle_rules b → 0 < owner_holders s r.
Proof.
  intros Hm Hp Hb Hr. destruct (Hb r Hr) as (q & pn & -> & Hq & Hin).
  destruct (PinsOk_held _ _ _ (mg_pins _ Hm) (Hp q eq_refl)) as (pn' & Hq' & _ & Htodo). simplify_eq.
  eapply pin_holds; [done|]. by rewrite Htodo.
Qed.

Lemma lease_rules_held s l ls r : Managed s → ss_leases s !! l = Some ls → Some r ∈ bundle_rules (ls_bundle ls) → 0 < owner_holders s r.
Proof.
  intros Hm Hl. apply (bundle_held s (ls_pin ls)); [done| |by eapply sh_leases; [apply mg_shape|]].
  intros q Hq. by eapply lease_holds.
Qed.

Lemma root_rules_held s r : Managed s → Some r ∈ bundle_rules (ss_bundle s) → 0 < owner_holders s r.
Proof. intros Hm. apply (bundle_held s (ss_root s)); [done|intros q; apply root_holds|apply sh_root, Hm]. Qed.

(** ** The invariant holds after every action *)

Definition sound (o : Outcome) : Prop := match o with Disabled => True | Panics => False | Next s => Managed s end.

Lemma ALease_sound l s : Managed s → sound (act (ALease l) s).
Proof.
  intros Hm. open_act. destruct (ss_closed s || _) eqn:Hg; [done|].
  apply orb_false_iff in Hg as [_ Hl]. apply bool_decide_eq_false, eq_None_not_Some in Hl.
  pose proof Hm as [Ho Hp [Hroot Hleases Hprep Hmu Hcl]]. destruct (ss_root s) as [p|] eqn:Hr; cbn.
  - destruct (retain_pin_ok _ s p Hp (root_holds _ _ Hr)) as (pn & Hpn & ->). cbn. split.
    + refine (OwnersOk_same _ s _ eq_refl eq_refl (OwnersOk_ext _ _ _ _ Ho)). intros r. unfold owner_holders. cbn.
      rewrite (gsum_update _ _ _ pn) by done. cbn. lia.
    + refine (PinsOk_same _ (set_pin p _ s) _ eq_refl (PinsOk_ext _ _ _ _ (PinsOk_set _ _ _ _ _ 1 Hpn Hp (root_holds _ _ Hr) eq_refl))).
      intros q. unfold pin_holders, bump. cbn. rewrite gsum_insert by done. cbn. rewrite Hr, eqo_Some. lia.
    + assert (same_owners (ss_pins s) (<[p := mkPin (pn_refs pn + 1) (pn_owners pn) (pn_todo pn)]> (ss_pins s))) as Hsame by (by apply (same_owners_insert _ _ pn)).
      split; cbn; [rewrite Hr; by eapply owned_by_mono| |done|done|by rewrite Hr].
      intros l' ls [[<- <-]|[Hne Hl']]%lookup_insert_Some; [by eapply owned_by_mono|]. by eapply owned_by_mono, Hleases.
  - split.
    + refine (OwnersOk_same _ s _ eq_refl eq_refl (OwnersOk_ext _ _ _ _ Ho)). done.
    + refine (PinsOk_same _ s _ eq_refl (PinsOk_ext _ _ _ _ Hp)). intros q. unfold pin_holders. cbn. rewrite gsum_insert by done. cbn. rewrite Hr, eqo_None. lia.
    + split; cbn; [by rewrite Hr| |done|done|by rewrite Hr]. intros l' ls [[<- <-]|[Hne Hl']]%lookup_insert_Some; [done|]. by eapply Hleases.
Qed.

Lemma Managed_intro w v s :
  OwnersOk w s → PinsOk v s → (∀ r, w r = owner_holders s r) → (∀ p, v p = pin_holders s p) → Shape s → Managed s.
Proof. intros Ho Hp Hw Hv Hs. split; [by eapply OwnersOk_ext|by eapply PinsOk_ext|done]. Qed.

(** Shapes when only counts and holders change. *)
Lemma Shape_pin s s' :
  ss_root s' = ss_root s → ss_bundle s' = ss_bundle s → ss_mu s' = ss_mu s → ss_threads s' = ss_threads s → ss_closed s' = ss_closed s →
  (∀ l ls, ss_leases s' !! l = Some ls → ss_leases s !! l = Some ls) → same_owners (ss_pins s) (ss_pins s') → Shape s → Shape s'.
Proof.
  intros Hr Hb Hm Ht Hc Hl Hsame [Hroot Hleases Hprep Hmu Hcl]. split; rewrite ?Hr, ?Hb, ?Hm, ?Ht, ?Hc; [by eapply owned_by_mono| |done|done|done].
  intros l ls Hls. by eapply owned_by_mono, Hleases, Hl.
Qed.

Lemma ARelease_sound l s : Managed s → sound (act (ARelease l) s).
Proof.
  intros Hm. open_act. destruct (ss_leases s !! l) as [ls|] eqn:Hl; [|done].
  pose proof Hm as [Ho Hp Hs]. destruct (ls_pin ls) as [p|] eqn:Hr; cbn.
  - set (s0 := {| s with ss_leases := _ |}). destruct (release_pin_ok _ s0 p (PinsOk_same _ s s0 eq_refl Hp) (lease_holds _ _ _ _ Hl Hr)) as (pn & Hpn & ->).
    cbn. apply (Managed_intro (owner_holders s) (bump (-1) p (pin_holders s))).
    + by refine (OwnersOk_same _ s _ eq_refl eq_refl Ho).
    + refine (PinsOk_same _ (set_pin p _ s) _ eq_refl (PinsOk_set _ _ _ _ _ (-1) Hpn Hp (lease_holds _ _ _ _ Hl Hr) eq_refl)).
    + intros r. unfold owner_holders. cbn. rewrite (gsum_update _ _ _ pn) by done. cbn. lia.
    + intros q. unfold pin_holders, bump. cbn. rewrite (gsum_delete _ _ _ ls) by done. cbn. rewrite Hr, eqo_Some. lia.
    + eapply Shape_pin, Hs; try done; cbn; [intros l' ls' [_ ?]%lookup_delete_Some; done|]. by apply (same_owners_insert _ _ pn).
  - apply (Managed_intro (owner_holders s) (pin_holders s)); [done|done|done| |].
    + intros q. unfold pin_holders. cbn. rewrite (gsum_delete _ _ _ ls) by done. cbn. rewrite Hr, eqo_None. lia.
    + eapply Shape_pin, Hs; try done; cbn; [intros l' ls' [_ ?]%lookup_delete_Some; done|]. apply same_owners_refl.
Qed.

Lemma AScanner_sound l r sc s : Managed s → sound (act (AScanner l r sc) s).
Proof.
  intros Hm. open_act. destruct (ss_leases s !! l) as [ls|] eqn:Hl; [|done].
  destruct (mem _ _ && _) eqn:Hg; [|done]. apply andb_true_iff in Hg as [Hin%mem_true Hsc%bool_decide_eq_true].
  pose proof (lease_rules_held _ _ _ _ Hm Hl Hin) as Hheld. pose proof Hm as [Ho Hp Hs].
  destruct (OwnersOk_held _ _ _ Ho Hheld) as (o & Hr & _ & Hst). destruct (retain_owner_ok _ _ _ Ho Hheld) as (s1 & Hs1 & Ho1 & (ow & lv & ->)).
  unfold retainManaged. rewrite Hr, Hst. cbn [mbind option_bind option_map]. rewrite bool_decide_eq_false_2 by naive_solver. rewrite Hs1. cbn.
  apply (Managed_intro (bump 1 r (owner_holders s)) (pin_holders s)); [done|done| |done|].
  - intros x. unfold owner_holders, bump. cbn. rewrite gsum_insert by done. rewrite eqo_Some. lia.
  - eapply Shape_pin, Hs; try done. apply same_owners_refl.
Qed.

Lemma ADestroyScanner_sound sc s : Managed s → sound (act (ADestroyScanner sc) s).
Proof.
  intros Hm. open_act. destruct (ss_native s !! sc) as [o|] eqn:Hsc; [|done]. pose proof Hm as [Ho Hp Hs]. destruct o as [r|]; cbn.
  - set (s0 := {| s with ss_native := _ |}). destruct (release_owner_ok _ s0 r (OwnersOk_same _ s s0 eq_refl eq_refl Ho) (native_holds _ _ _ Hsc)) as (s1 & -> & Ho1 & (ow & lv & ->)).
    cbn. apply (Managed_intro (bump (-1) r (owner_holders s)) (pin_holders s)); [done|done| |done|].
    + intros x. unfold owner_holders, bump. cbn. rewrite (gsum_delete _ _ _ (Some r)) by done. rewrite eqo_Some. lia.
    + eapply Shape_pin, Hs; try done. apply same_owners_refl.
  - apply (Managed_intro (owner_holders s) (pin_holders s)); [done|done| |done|].
    + intros x. unfold owner_holders. cbn. rewrite (gsum_delete _ _ _ None) by done. rewrite eqo_None. lia.
    + eapply Shape_pin, Hs; try done. apply same_owners_refl.
Qed.

Lemma ABegin_sound t s : Managed s → sound (act (ABegin t) s).
Proof.
  intros Hm. open_act. destruct (ss_closed s || _ || _) eqn:Hg; [done|].
  apply orb_false_iff in Hg as [[Hopen Hmu]%orb_false_iff Ht]. apply bool_decide_eq_false, eq_None_not_Some in Ht, Hmu.
  pose proof Hm as [Ho Hp [Hroot Hleases Hprep Hm' Hcl]]. cbn.
  apply (Managed_intro (owner_holders s) (pin_holders s)); [done|done|..].
  - intros r. unfold owner_holders. cbn. rewrite gsum_insert by done. cbn. change (cnt r []) with 0. lia.
  - intros p. unfold pin_holders. cbn. rewrite gsum_insert by done. cbn. rewrite eqo_None. lia.
  - split; cbn; [done|done| | |by rewrite Hopen].
    + intros t' rl [[<- <-]|[Hne Ht']]%lookup_insert_Some r Hr; cbn in Hr; [by apply elem_of_nil in Hr|by eapply Hprep].
    + intros t' rl [[<- <-]|[Hne Ht']]%lookup_insert_Some Hpc; [done|]. destruct (Hm' _ _ Ht' Hpc). congruence.
Qed.

(** A thread that goes on preparing, or stops: nobody else prepares. *)
Lemma Shape_thread s s' t rl rl' :
  ss_threads s !! t = Some rl → ss_threads s' = <[t := rl']> (ss_threads s) → ss_leases s' = ss_leases s → ss_closed s' = ss_closed s → Shape s →
  (rl_pc rl' = Preparing → ss_mu s' = ss_mu s ∧ rl_pc rl = Preparing ∧ rl_retired rl' = None) →
  (rl_pc rl = Preparing ∨ ss_mu s' = ss_mu s ∧ ss_root s' = ss_root s) →
  (∀ r, Some r ∈ rl_prepared rl' → r ∈ rl_candidates rl') →
  owned_by (ss_pins s') (ss_root s') (ss_bundle s') → same_owners (ss_pins s) (ss_pins s') → Shape s'.
Proof.
  intros Ht Hts Hl Hc [Hroot Hleases Hprep Hmu Hcl] Hpc Hother Hprep' Hroot' Hsame. split; [done| |rewrite Hts..|].
  - intros l ls Hls. rewrite Hl in Hls. by eapply owned_by_mono, Hleases.
  - intros t' rl2 [[<- <-]|[Hne Ht']]%lookup_insert_Some; [done|]. by eapply Hprep.
  - intros t' rl2 [[<- <-]|[Hne Ht']]%lookup_insert_Some Hpc'.
    + destruct (Hpc Hpc') as (-> & Hpc0 & ?). split; [|done]. by apply (Hmu _ _ Ht Hpc0).
    + destruct (Hmu _ _ Ht' Hpc') as [Hm' ?]. destruct Hother as [Hpc0|[-> _]]; [|done]. destruct (Hmu _ _ Ht Hpc0). congruence.
  - rewrite Hc. intros Hclosed. destruct (Hcl Hclosed) as [? Hm0]. destruct Hother as [Hpc0|[-> ->]]; [|done]. destruct (Hmu _ _ Ht Hpc0). congruence.
Qed.

Lemma AAdopt_sound t r s : Managed s → sound (act (AAdopt t r) s).
Proof.
  intros Hm. open_act. destruct (ss_threads s !! t) as [[[] prepared cands retired]|] eqn:Ht; try done.
  destruct ((length prepared <? 3)%nat && _) eqn:Hg; [|done]. apply andb_true_iff in Hg as [_ Hmay].
  pose proof Hm as [Ho Hp Hs]. pose proof (sh_prepared _ Hs _ _ Ht) as Hprep. destruct r as [r|]; cbn.
  - assert (0 < owner_holders s r ∨ ss_owners s !! r = None) as Hr.
    { cbn in Hmay. apply orb_true_iff in Hmay as [Hn%bool_decide_eq_true|[_ [Hb%mem_true|Hb%mem_true]%orb_true_iff]%andb_true_iff]; [by right|left..].
      - by apply root_rules_held.
      - by eapply thread_holds, Hprep. }
    destruct (adopt_ok _ _ _ Ho Hr) as (s1 & -> & Ho1 & (ow & lv & ->)). cbn.
    apply (Managed_intro (bump 1 r (owner_holders s)) (pin_holders s)); [done|done|..].
    + intros x. unfold owner_holders, bump. cbn. rewrite (gsum_update _ _ _ _ _ Ht). cbn. rewrite cnt_app, cnt_cons. change (cnt x []) with 0. lia.
    + intros p. unfold pin_holders. cbn. rewrite (gsum_update _ _ _ _ _ Ht). cbn. lia.
    + eapply (Shape_thread s _ t _ _ Ht); [reflexivity|reflexivity|reflexivity|exact Hs|..]; cbn; [|by left| |apply Hs|apply same_owners_refl].
      * intros _. destruct (sh_mu _ Hs _ _ Ht eq_refl) as [_ Hret]. done.
      * intros x [Hx|[= <-]%list_elem_of_singleton]%elem_of_app; apply elem_of_app; [left; by apply Hprep|right; by apply list_elem_of_singleton].
  - apply (Managed_intro (owner_holders s) (pin_holders s)); [done|done|..].
    + intros x. unfold owner_holders. cbn. rewrite (gsum_update _ _ _ _ _ Ht). cbn. rewrite app_nil_r. lia.
    + intros p. unfold pin_holders. cbn. rewrite (gsum_update _ _ _ _ _ Ht). cbn. lia.
    + eapply (Shape_thread s _ t _ _ Ht); [reflexivity|reflexivity|reflexivity|exact Hs|..]; cbn; [|by left| |apply Hs|apply same_owners_refl].
      * intros _. destruct (sh_mu _ Hs _ _ Ht eq_refl) as [_ Hret]. done.
      * intros x [Hx|[=]%list_elem_of_singleton]%elem_of_app; apply elem_of_app; left; by apply Hprep.
Qed.

Lemma AFail_sound t identity s : Managed s → sound (act (AFail t identity) s).
Proof.
  intros Hm. open_act. destruct (ss_threads s !! t) as [[[] prepared cands retired]|] eqn:Ht; try done.
  destruct (bool_decide _ && _); [done|]. pose proof Hm as [Ho Hp Hs]. cbn.
  apply (Managed_intro (owner_holders s) (pin_holders s)); [done|done|..].
  - intros x. unfold owner_holders. cbn. rewrite (gsum_update _ _ _ _ _ Ht). cbn. lia.
  - intros p. unfold pin_holders. cbn. rewrite (gsum_update _ _ _ _ _ Ht). cbn. lia.
  - eapply (Shape_thread s _ t _ _ Ht); [reflexivity|reflexivity|reflexivity|exact Hs|..]; cbn; [done|by left|by intros x ?%elem_of_nil|apply Hs|apply same_owners_refl].
Qed.

Lemma ARetire_sound t s : Managed s → sound (act (ARetire t) s).
Proof.
  intros Hm. open_act. destruct (ss_threads s !! t) as [[[] prepared cands [p|]]|] eqn:Ht; try done.
  pose proof Hm as [Ho Hp Hs]. set (s0 := set_thread _ _ _).
  destruct (release_pin_ok _ s0 p (PinsOk_same _ s s0 eq_refl Hp) (retired_holds _ _ _ _ Ht eq_refl)) as (pn & Hpn & ->). cbn.
  apply (Managed_intro (owner_holders s) (bump (-1) p (pin_holders s))).
  - by refine (OwnersOk_same _ s _ eq_refl eq_refl Ho).
  - refine (PinsOk_same _ (set_pin p _ s) _ eq_refl (PinsOk_set _ _ _ _ _ (-1) Hpn Hp (retired_holds _ _ _ _ Ht eq_refl) eq_refl)).
  - intros r. unfold owner_holders. cbn. rewrite (gsum_update _ _ _ _ _ Ht), (gsum_update _ _ _ pn) by done. cbn. lia.
  - intros q. unfold pin_holders, bump. cbn. rewrite (gsum_update _ _ _ _ _ Ht). cbn. rewrite eqo_Some, eqo_None. lia.
  - assert (same_owners (ss_pins s) (<[p := mkPin (pn_refs pn - 1) (pn_owners pn) (pn_todo pn)]> (ss_pins s))) as Hsame by (by apply (same_owners_insert _ _ pn)).
    eapply (Shape_thread s _ t _ _ Ht); [reflexivity|reflexivity|reflexivity|exact Hs|..]; cbn; [done|by right|by intros x ?%elem_of_nil| |done].
    by eapply owned_by_mono, Hs.
Qed.

Lemma Shape_end s t rl : ss_threads s !! t = Some rl → Shape s → Shape {| s with ss_threads := delete t (ss_threads s) |}.
Proof.
  intros Ht [Hroot Hleases Hprep Hmu Hcl]. split; cbn; [done|done| | |done]; intros t' rl' [_ Ht']%lookup_delete_Some; [by eapply Hprep|by eapply Hmu].
Qed.

Lemma ADrop_sound t s : Managed s → sound (act (ADrop t) s).
Proof.
  intros Hm. open_act. destruct (ss_threads s !! t) as [[[] prepared [|r cands] [|]]|] eqn:Ht; try done; pose proof Hm as [Ho Hp Hs].
  - cbn. apply (Managed_intro (owner_holders s) (pin_holders s)); [done|done|..].
    + intros x. unfold owner_holders. cbn. rewrite (gsum_delete _ _ _ _ Ht). cbn. change (cnt x []) with 0. lia.
    + intros p. unfold pin_holders. cbn. rewrite (gsum_delete _ _ _ _ Ht). cbn. rewrite eqo_None. lia.
    + by eapply Shape_end.
  - set (s0 := set_thread _ _ _).
    destruct (release_owner_ok _ s0 r (OwnersOk_same _ s s0 eq_refl eq_refl Ho) (thread_holds _ _ _ _ Ht (list_elem_of_here _ _))) as (s1 & -> & Ho1 & (ow & lv & ->)). cbn.
    apply (Managed_intro (bump (-1) r (owner_holders s)) (pin_holders s)); [done|done|..].
    + intros x. unfold owner_holders, bump. cbn. rewrite (gsum_update _ _ _ _ _ Ht). cbn. rewrite cnt_cons. lia.
    + intros p. unfold pin_holders. cbn. rewrite (gsum_update _ _ _ _ _ Ht). cbn. lia.
    + eapply (Shape_thread s _ t _ _ Ht); [reflexivity|reflexivity|reflexivity|exact Hs|..]; cbn; [done|by right|by intros x ?%elem_of_nil|apply Hs|apply same_owners_refl].
Qed.

Lemma distinct_spec l r : r ∈ distinct l ↔ Some r ∈ l.
Proof.
  unfold distinct. change (Some r ∈ l) with (Some r ∈ l). rewrite <- (left_id_L [] (++) l) at 2.
  assert (∀ acc, r ∈ foldl (λ acc r, match r with Some r => if mem r acc then acc else acc ++ [r] | None => acc end) acc l ↔ r ∈ acc ∨ Some r ∈ l) as H.
  { induction l as [|[x|] l IH]; intros acc; cbn; [set_solver| |rewrite IH; set_solver].
    destruct (mem x acc) eqn:Hx; [apply mem_true in Hx|]; rewrite IH; set_solver. }
  rewrite H. set_solver.
Qed.

Lemma APublish_sound t p identity s : Managed s → sound (act (APublish t p identity) s).
Proof.
  intros Hm. open_act. destruct (ss_threads s !! t) as [[[] [|main [|big [|marker []]]] cands retired]|] eqn:Ht; try done.
  destruct (bool_decide _) eqn:Hpn; [done|]. apply bool_decide_eq_false, eq_None_not_Some in Hpn. pose proof Hm as [Ho Hp Hs].
  pose proof (sh_prepared _ Hs _ _ Ht) as Hprep. pose proof (sh_mu _ Hs _ _ Ht eq_refl) as [Hmu Hret]. cbn in Hprep, Hret. subst retired.
  unfold publishReload. set (owners := distinct (bundle_rules (mkPublished main big marker identity))).
  assert (∀ r, r ∈ owners ↔ Some r ∈ [main; big; marker]) as Howners by (intros; apply distinct_spec).
  destruct (adopt_all_ok owners _ _ Ho) as (s1 & -> & Ho1 & (ow & lv & ->)).
  { intros r Hr%Howners. apply (thread_holds _ _ _ _ Ht). by apply Hprep. }
  cbn. apply (Managed_intro (λ r, owner_holders s r + cnt r owners) (λ q, pin_holders s q + eqo (Some p) q)); [done|..].
  - intros q. cbn. pose proof (Hp q) as Hq. destruct (decide (p = q)) as [->|Hne].
    + rewrite lookup_insert_eq, eqo_same. rewrite Hpn in Hq. cbn in Hq |- *. rewrite Hq. done.
    + rewrite lookup_insert_ne, eqo_Some, b2z_other by done. by rewrite Z.add_0_r.
  - intros r. unfold owner_holders. cbn. rewrite (gsum_update _ _ _ _ _ Ht), gsum_insert by done. cbn. lia.
  - intros q. unfold pin_holders. cbn. rewrite (gsum_update _ _ _ _ _ Ht). cbn. rewrite eqo_None. lia.
  - eapply (Shape_thread s _ t _ _ Ht); [reflexivity|reflexivity|reflexivity|exact Hs|..]; cbn; [done|by left|by intros x ?%elem_of_nil| |by apply same_owners_fresh].
    intros r Hr%Howners. eexists p, _. rewrite lookup_insert_eq. done.
Qed.

Lemma AClose_sound t s : Managed s → sound (act (AClose t) s).
Proof.
  intros Hm. open_act. destruct (bool_decide (is_Some (ss_mu s)) || _) eqn:Hg; [done|].
  apply orb_false_iff in Hg as [Hmu Ht]. apply bool_decide_eq_false, eq_None_not_Some in Ht, Hmu.
  pose proof Hm as [Ho Hp [Hroot Hleases Hprep Hm' Hcl]]. cbn.
  apply (Managed_intro (owner_holders s) (pin_holders s)); [done|done|..].
  - intros r. unfold owner_holders. cbn. rewrite gsum_insert by done. cbn. change (cnt r []) with 0. lia.
  - intros p. unfold pin_holders. cbn. rewrite gsum_insert by done. cbn. rewrite eqo_None. lia.
  - split; cbn; [apply owned_by_none|done| | |done].
    + intros t' rl [[<- <-]|[Hne Ht']]%lookup_insert_Some r Hr; cbn in Hr; [by apply elem_of_nil in Hr|by eapply Hprep].
    + intros t' rl [[<- <-]|[Hne Ht']]%lookup_insert_Some Hpc; [done|by apply (Hm' _ _ Ht')].
Qed.

Lemma ADrain_sound p s : Managed s → sound (act (ADrain p) s).
Proof.
  intros Hm. open_act. destruct (ss_pins s !! p) as [[refs owners [|r todo]]|] eqn:Hpn; try done.
  destruct (Z.eqb_spec refs 0) as [->|]; [|done]. pose proof Hm as [Ho Hp Hs]. set (s0 := set_pin _ _ _).
  destruct (release_owner_ok _ s0 r (OwnersOk_same _ s s0 eq_refl eq_refl Ho) (pin_holds _ _ _ _ Hpn (list_elem_of_here _ _))) as (s1 & -> & Ho1 & (ow & lv & ->)). cbn.
  apply (Managed_intro (bump (-1) r (owner_holders s)) (pin_holders s)); [done| | |done|].
  - exact (PinsOk_same _ s0 _ eq_refl (PinsOk_todo _ _ _ _ todo Hpn eq_refl Hp)).
  - intros x. unfold owner_holders, bump. cbn. rewrite (gsum_update _ _ _ _ _ Hpn). cbn. rewrite cnt_cons. lia.
  - eapply Shape_pin, Hs; try done. by apply (same_owners_insert _ _ _ _ Hpn).
Qed.

Lemma undestroyed_1 o : ow_status o ≠ OwnerDestroyed → b2z (undestroyed o) = 1.
Proof. intros Hs. unfold undestroyed. by rewrite bool_decide_eq_false_2. Qed.

(** Rules nobody refers to change their status. *)
Lemma OwnersOk_status w s r o o' live :
  ss_owners s !! r = Some o → OwnersOk w s → ow_refs o = 0 → o' = mkOwner 0 (ow_status o') → live = ss_live s - b2z (undestroyed o) + b2z (undestroyed o') →
  OwnersOk w {| s with ss_owners := <[r := o']> (ss_owners s); ss_live := live |}.
Proof.
  intros Hr [Ho Hl] Hz Ho' ->. split; cbn.
  - intros x. destruct (decide (r = x)) as [->|Hne]; [|rewrite lookup_insert_ne by done; apply Ho].
    rewrite lookup_insert_eq. specialize (Ho x). rewrite Hr, Ho' in *. cbn in *. destruct Ho as [? _]. split; [lia|right; lia].
  - rewrite (held_update _ _ _ o) by done. lia.
Qed.

Lemma Shape_status s ow live : Shape s → Shape {| s with ss_owners := ow; ss_live := live |}.
Proof. intros Hs. eapply Shape_pin, Hs; try done. apply same_owners_refl. Qed.

Lemma AClaim_sound r s : Managed s → sound (act (AClaim r) s).
Proof.
  intros Hm. open_act. destruct (ss_owners s !! r) as [o|] eqn:Hr; [|done].
  destruct ((ow_refs o =? 0) && _) eqn:Hg; [|done]. apply andb_true_iff in Hg as [Hz%Z.eqb_eq Hst%bool_decide_eq_true].
  destruct Hm as [Ho Hp Hs]. cbn. apply (Managed_intro (owner_holders s) (pin_holders s)); [|done..|].
  - apply (OwnersOk_status _ s r o); [done..|]. rewrite !undestroyed_1; [lia|done|by rewrite Hst].
  - by apply (Shape_status s _ (ss_live s)).
Qed.

Lemma OwnersOk_dead w s r o : OwnersOk w s → ss_owners s !! r = Some o → ow_status o ≠ OwnerLive → ow_refs o = 0.
Proof. intros [Ho _] Hr Hst. specialize (Ho r). rewrite Hr in Ho. cbn in Ho. destruct Ho as [? [?|?]]; [done|lia]. Qed.

Lemma ADestroy_sound r s : Managed s → sound (act (ADestroy r) s).
Proof.
  intros Hm. open_act. destruct (ss_owners s !! r) as [o|] eqn:Hr; [|done].
  destruct (bool_decide _) eqn:Hst; [|done]. apply bool_decide_eq_true in Hst.
  destruct Hm as [Ho Hp Hs]. assert (ow_refs o = 0) as Hz by (eapply OwnersOk_dead; [done|done|by rewrite Hst]).
  cbn. apply (Managed_intro (owner_holders s) (pin_holders s)); [|done..|by apply Shape_status].
  apply (OwnersOk_status _ s r o); [done..|by rewrite Hz|]. rewrite undestroyed_1 by (by rewrite Hst). by rewrite Z.add_0_r.
Qed.

Lemma act_sound a s : Managed s → sound (act a s).
Proof.
  destruct a; [apply ALease_sound|apply ARelease_sound|apply AScanner_sound|apply ADestroyScanner_sound|apply ABegin_sound|apply AAdopt_sound|
    apply AFail_sound|apply APublish_sound|apply ARetire_sound|apply ADrop_sound|apply AClose_sound|apply ADrain_sound|apply AClaim_sound|apply ADestroy_sound].
Qed.

Lemma Managed_moves s s' : Managed s → moves s s' → Managed s'.
Proof. intros Hm [a Ha]. pose proof (act_sound a s Hm) as H. by rewrite Ha in H. Qed.

Lemma Managed_init : Managed NewScanner.
Proof.
  split; [|done|].
  - split; [done|]. by unfold held.
  - split; cbn; [apply owned_by_none|intros ? ? Hl; by rewrite lookup_empty in Hl..|done].
Qed.

Definition reachable (s : ScannerState) : Prop := rtc moves NewScanner s.

Lemma reachable_managed s : reachable s → Managed s.
Proof. intros Hr. unfold reachable in Hr. revert Hr. generalize Managed_init. generalize NewScanner. intros s0 H0 Hr. induction Hr; eauto using Managed_moves. Qed.

(** ** Rules in use *)

(** [r] is compiled into something that may still be scanned with. *)
Definition in_use (s : ScannerState) (r : nat) : Prop :=
  Some r ∈ bundle_rules (ss_bundle s) ∨ (∃ l ls, ss_leases s !! l = Some ls ∧ Some r ∈ bundle_rules (ls_bundle ls))
  ∨ (∃ sc, ss_native s !! sc = Some (Some r)).

(** [r] is kept: by the root's publication, a request's, a native scanner or a
    preparation. *)
Definition kept (s : ScannerState) (r : nat) : Prop :=
  (∃ p pn, ss_pins s !! p = Some pn ∧ r ∈ pn_owners pn ∧
    (ss_root s = Some p ∨ ∃ l ls, ss_leases s !! l = Some ls ∧ ls_pin ls = Some p))
  ∨ (∃ sc, ss_native s !! sc = Some (Some r))
  ∨ (∃ t rl, ss_threads s !! t = Some rl ∧ rl_pc rl = Preparing ∧ r ∈ rl_candidates rl).

Lemma in_use_held s r : Managed s → in_use s r → 0 < owner_holders s r.
Proof. intros Hm [Hr|[(l & ls & Hl & Hr)|(sc & Hsc)]]; [by apply root_rules_held|by eapply lease_rules_held|by eapply native_holds]. Qed.

Lemma in_use_live s r : Managed s → in_use s r → ∃ o, ss_owners s !! r = Some o ∧ ow_status o = OwnerLive ∧ 0 < ow_refs o.
Proof.
  intros Hm Hr. pose proof (in_use_held _ _ Hm Hr) as Hw. destruct (OwnersOk_held _ _ _ (mg_owners _ Hm) Hw) as (o & ? & ? & ?). eexists. split_and!; [done..|lia].
Qed.

(** Nobody but its holder changes what a request has leased. *)
Lemma same_but_owners_leases s s' : same_but_owners s s' → ss_leases s' = ss_leases s.
Proof. by intros (? & ? & ->). Qed.

Lemma retain_owner_rest r s s' : retain_owner r s = Some s' → same_but_owners s s'.
Proof. unfold retain_owner. intros (o & _ & H)%bind_Some. case_match; simplify_eq. by eexists _, _. Qed.

Lemma release_owner_rest r s s' : release_owner r s = Some s' → same_but_owners s s'.
Proof. unfold release_owner. intros (o & _ & H)%bind_Some. case_match; simplify_eq. by eexists _, _. Qed.

Lemma adopt_rest r s s' : adopt r s = Some s' → same_but_owners s s'.
Proof. unfold adopt. intros H. case_match; [|simplify_eq; by eexists _, _]. case_match; [done|]. by eapply retain_owner_rest. Qed.

Lemma adopt_all_rest l s s' : adopt_all l s = Some s' → same_but_owners s s'.
Proof.
  revert s. induction l as [|r l IH]; intros s; cbn; [intros [= <-]; destruct s; by eexists _, _|].
  intros (s1 & Hr%adopt_rest & Hl)%bind_Some. eapply same_but_owners_trans; eauto.
Qed.

Lemma with_pin_leases f p s s' :
  (∀ q s s', f q s = Some s' → ss_leases s' = ss_leases s) → with_pin f p s = Some s' → ss_leases s' = ss_leases s.
Proof. destruct p as [q|]; cbn; [eauto|]. by intros _ [= ->]. Qed.

Lemma retain_pin_leases p s s' : retain_pin p s = Some s' → ss_leases s' = ss_leases s.
Proof. unfold retain_pin. intros (pn & _ & H)%bind_Some. case_match; by simplify_eq. Qed.

Lemma release_pin_leases p s s' : release_pin p s = Some s' → ss_leases s' = ss_leases s.
Proof. unfold release_pin. intros (pn & _ & H)%bind_Some. case_match; by simplify_eq. Qed.

Lemma or_panic_Next o s : or_panic o = Next s ↔ o = Some s.
Proof. destruct o; naive_solver. Qed.

Lemma lease_stable a s s' l ls :
  act a s = Next s' → ss_leases s !! l = Some ls → a ≠ ARelease l → ss_leases s' !! l = Some ls.
Proof.
  intros Ha Hl Hne.
  assert (ss_leases s' = ss_leases s ∨ (∃ l' x, ss_leases s !! l' = None ∧ ss_leases s' = <[l' := x]> (ss_leases s))
          ∨ ∃ l', l' ≠ l ∧ ss_leases s' = delete l' (ss_leases s)) as [-> |[(l' & x & Hn & ->)|(l' & Hne' & ->)]]; [|done| |by rewrite lookup_delete_ne].
  2: { rewrite lookup_insert_ne; [done|]. congruence. }
  pose proof release_pin_leases. pose proof retain_pin_leases.
  pose proof (λ r s s' H, same_but_owners_leases _ _ (release_owner_rest r s s' H)) as Hrel.
  pose proof (λ r s s' H, same_but_owners_leases _ _ (adopt_rest r s s' H)).
  pose proof (λ r s s' H, same_but_owners_leases _ _ (adopt_all_rest r s s' H)).
  pose proof (λ r s s' H, same_but_owners_leases _ _ (retain_owner_rest r s s' H)).
  destruct a as [l'|l'|l' r sc|sc|t|t r|t i|t p i|t|t|t|p|r|r]; open_act in Ha.
  - right; left. repeat case_match; try done. rename select (_ || _ = false) into Hg.
    apply orb_false_iff in Hg as [_ Hg%bool_decide_eq_false%eq_None_not_Some].
    apply or_panic_Next, bind_Some in Ha as (s1 & Hs1%with_pin_leases & [= <-]); [|done]. cbn. rewrite Hs1. eauto.
  - right; right. case_match; [|done]. apply or_panic_Next, with_pin_leases in Ha; [|done]. exists l'. split; [congruence|done].
  - left. repeat case_match; try done. apply or_panic_Next, bind_Some in Ha as ([o s1] & Hs1 & [= <-]).
    unfold retainManaged in Hs1. repeat case_match; simplify_eq; try done. apply bind_Some in Hs1 as (s2 & Hs2 & [= <- <-]). cbn. eauto.
  - left. case_match; [|done]. apply or_panic_Next in Ha. apply (with_pin_leases _ _ _ _ Hrel) in Ha. done.
  - left. case_match; [done|]. by injection Ha as <-.
  - left. repeat case_match; try done. apply or_panic_Next, bind_Some in Ha as (s1 & Hs1%with_pin_leases & [= <-]); [done|eauto].
  - left. repeat case_match; try done. by injection Ha as <-.
  - left. repeat case_match; try done. apply or_panic_Next in Ha. unfold publishReload in Ha. apply bind_Some in Ha as (s1 & Hs1 & [= <-]). cbn. eauto.
  - left. repeat case_match; try done. apply or_panic_Next in Ha. apply release_pin_leases in Ha. done.
  - left. repeat case_match; try done; [by injection Ha as <-|]. apply or_panic_Next, release_owner_rest, same_but_owners_leases in Ha. done.
  - left. case_match; [done|]. by injection Ha as <-.
  - left. repeat case_match; try done. apply or_panic_Next, release_owner_rest, same_but_owners_leases in Ha. done.
  - left. repeat case_match; try done. by injection Ha as <-.
  - left. repeat case_match; try done. by injection Ha as <-.
Qed.

(** C22: No interleaving of requests, native scanners, reloads, failed
    reloads and a close makes a reference count panic.  Rules that the current
    publication, a request that has not released its lease, or a native
    scanner may scan with are neither destroyed nor claimed for destruction;
    and a request keeps the rules and the fingerprint it leased until it
    releases them itself. *)
Theorem rules_outlive_their_users s :
  reachable s →
  (∀ a, act a s ≠ Panics)
  ∧ (∀ r, in_use s r → ∃ o, ss_owners s !! r = Some o ∧ ow_status o = OwnerLive ∧ 0 < ow_refs o)
  ∧ (∀ a s' l ls, act a s = Next s' → ss_leases s !! l = Some ls → a ≠ ARelease l → ss_leases s' !! l = Some ls).
Proof.
  intros Hm%reachable_managed. split_and!.
  - intros a Ha. pose proof (act_sound a s Hm) as H. by rewrite Ha in H.
  - intros r. by apply in_use_live.
  - intros a s' l ls. apply lease_stable.
Qed.

(** ** Retired rules are freed *)

Definition weight (o : nativeRulesOwner) : Z := match ow_status o with OwnerLive => 2 | OwnerClaimed => 1 | OwnerDestroyed => 0 end.

(** What is left to give back. *)
Definition pending (s : ScannerState) : Z :=
  gsum (λ rl, Z.of_nat (length (rl_candidates rl)) + eqo (rl_retired rl) (default 0%nat (rl_retired rl)) + 1) (ss_threads s)
  + gsum (λ pn, Z.of_nat (length (pn_todo pn))) (ss_pins s) + gsum weight (ss_owners s).

Lemma pending_nonneg s : 0 <= pending s.
Proof.
  unfold pending. apply Z.add_nonneg_nonneg; [apply Z.add_nonneg_nonneg|]; apply gsum_nonneg.
  - intros rl. pose proof (eqo_nonneg (rl_retired rl) (default 0%nat (rl_retired rl))). lia.
  - intros pn. lia.
  - intros o. unfold weight. destruct (ow_status o); lia.
Qed.

Lemma release_owner_pending r s s' : release_owner r s = Some s' → pending s' = pending s.
Proof.
  intros Hr. unfold release_owner in Hr. apply bind_Some in Hr as (o & Ho & Hr). case_match; simplify_eq.
  unfold pending. cbn. rewrite (gsum_update _ _ _ o) by done. unfold weight at 3. cbn. fold (weight o). lia.
Qed.

Lemma release_pin_pending p s s' : release_pin p s = Some s' → pending s' = pending s.
Proof.
  intros Hp. unfold release_pin in Hp. apply bind_Some in Hp as (pn & Hpn & Hp). case_match; simplify_eq.
  unfold pending. cbn. rewrite (gsum_update _ _ _ pn) by done. cbn. lia.
Qed.

Lemma cleans_pending s s' : cleans s s' → pending s' < pending s.
Proof.
  intros (a & Hb & Ha). destruct a as [| | | | | | | |t|t| |p|r|r]; try discriminate Hb; open_act in Ha.
  - destruct (ss_threads s !! t) as [[[] prepared cands [p|]]|] eqn:Ht; try done.
    apply or_panic_Next, release_pin_pending in Ha. rewrite Ha. unfold pending. cbn.
    rewrite (gsum_update _ _ _ _ _ Ht). cbn. rewrite eqo_same, eqo_None. lia.
  - destruct (ss_threads s !! t) as [[[] prepared [|r cands] [|]]|] eqn:Ht; try done.
    + injection Ha as <-. unfold pending. cbn. rewrite (gsum_delete _ _ _ _ Ht). cbn. rewrite eqo_None. lia.
    + apply or_panic_Next, release_owner_pending in Ha. rewrite Ha. unfold pending. cbn.
      rewrite (gsum_update _ _ _ _ _ Ht). cbn. lia.
  - destruct (ss_pins s !! p) as [[refs owners [|r todo]]|] eqn:Hp; try done. destruct (refs =? 0); [|done].
    apply or_panic_Next, release_owner_pending in Ha. rewrite Ha. unfold pending. cbn. rewrite (gsum_update _ _ _ _ _ Hp). cbn. lia.
  - destruct (ss_owners s !! r) as [o|] eqn:Ho; [|done]. destruct (_ && bool_decide _) eqn:Hg; [|done]. injection Ha as <-.
    apply andb_true_iff in Hg as [_ Hst%bool_decide_eq_true]. unfold pending. cbn. rewrite (gsum_update _ _ _ _ _ Ho).
    unfold weight at 2 3. rewrite Hst. cbn. lia.
  - destruct (ss_owners s !! r) as [o|] eqn:Ho; [|done]. destruct (bool_decide _) eqn:Hst; [|done]. injection Ha as <-.
    apply bool_decide_eq_true in Hst. unfold pending. cbn. rewrite (gsum_update _ _ _ _ _ Ho).
    unfold weight at 2 3. rewrite Hst. cbn. lia.
Qed.

Lemma cleans_terminates s : Acc (flip cleans) s.
Proof.
  pose proof (Zwf_well_founded 0 (pending s)) as Hacc.
  remember (pending s) as n eqn:Hn. revert s Hn. induction Hacc as [n _ IH]. intros s ->. constructor. intros s' Hs'.
  eapply IH; [|done]. pose proof (cleans_pending _ _ Hs'). pose proof (pending_nonneg s). split; lia.
Qed.

Lemma cleans_stuck s a : Managed s → (∀ s', ¬ cleans s s') → gives_back a = true → act a s = Disabled.
Proof.
  intros Hm Hstuck Ha. pose proof (act_sound a s Hm) as H. destruct (act a s) as [| |s'] eqn:Hact; [done|done|].
  destruct (Hstuck s'). by exists a.
Qed.

Lemma or_panic_Disabled o : or_panic o ≠ Disabled.
Proof. by destruct o. Qed.

(** Once nothing can be given back, threads only prepare, *)
Lemma stuck_threads s t rl : Managed s → (∀ s', ¬ cleans s s') → ss_threads s !! t = Some rl → rl_pc rl = Preparing.
Proof.
  intros Hm Hstuck Ht. destruct rl as [[] prepared cands retired]; [done|]. exfalso.
  pose proof (cleans_stuck s (ARetire t) Hm Hstuck eq_refl) as H1. pose proof (cleans_stuck s (ADrop t) Hm Hstuck eq_refl) as H2.
  open_act in H1; open_act in H2. rewrite Ht in H1, H2. destruct retired as [p|]; [by apply or_panic_Disabled in H1|].
  destruct cands; [done|by apply or_panic_Disabled in H2].
Qed.

(** pins without references hold no owner, *)
Lemma stuck_pins s p pn r :
  Managed s → (∀ s', ¬ cleans s s') → ss_pins s !! p = Some pn → r ∈ pn_todo pn → 0 < pin_holders s p.
Proof.
  intros Hm Hstuck Hp Hr. pose proof (cleans_stuck s (ADrain p) Hm Hstuck eq_refl) as H. open_act in H. rewrite Hp in H.
  pose proof (mg_pins _ Hm p) as Hok. rewrite Hp in Hok. cbn in Hok. destruct Hok as [Hrefs _].
  pose proof (pin_holders_nonneg s p). destruct pn as [refs owners [|r' todo]]; [by apply elem_of_nil in Hr|]. cbn in Hrefs.
  destruct (Z.eqb_spec refs 0) as [->|]; [by apply or_panic_Disabled in H|]. unfold pin_holders in *. lia.
Qed.

(** and rules without references are destroyed. *)
Lemma stuck_owners s r o :
  Managed s → (∀ s', ¬ cleans s s') → ss_owners s !! r = Some o → ow_status o ≠ OwnerDestroyed → 0 < owner_holders s r.
Proof.
  intros Hm Hstuck Ho Hst. pose proof (cleans_stuck s (AClaim r) Hm Hstuck eq_refl) as H1. pose proof (cleans_stuck s (ADestroy r) Hm Hstuck eq_refl) as H2.
  open_act in H1; open_act in H2. rewrite Ho in H1, H2. case_bool_decide as Hc; [done|].
  assert (ow_status o = OwnerLive) as Hlive by (destruct (ow_status o); naive_solver).
  rewrite (bool_decide_eq_true_2 _ Hlive), andb_true_r in H1. destruct (Z.eqb_spec (ow_refs o) 0); [done|].
  destruct (mg_owners _ Hm) as [Hok _]. specialize (Hok r). rewrite Ho in Hok. cbn in Hok. destruct Hok as [Hrefs _].
  pose proof (owner_holders_nonneg s r). unfold owner_holders in *. lia.
Qed.

Lemma eqo_pos o r : 0 < eqo o r → o = Some r.
Proof. unfold eqo, b2z. case_bool_decide; [done|lia]. Qed.

Lemma stuck_kept s r o :
  Managed s → (∀ s', ¬ cleans s s') → ss_owners s !! r = Some o → ow_status o ≠ OwnerDestroyed → kept s r.
Proof.
  intros Hm Hstuck Ho Hst. pose proof (stuck_owners _ _ _ Hm Hstuck Ho Hst) as Hpos. pose proof (owner_holders_nonneg s r). unfold owner_holders in Hpos.
  destruct (Z_lt_dec 0 (gsum (λ pn, cnt r (pn_todo pn)) (ss_pins s))) as [Hp|Hp].
  - left. apply gsum_pos in Hp as (p & pn & Hpn & Hr%cnt_in). pose proof (stuck_pins _ _ _ _ Hm Hstuck Hpn Hr) as Hph.
    destruct (PinsOk_held _ _ _ (mg_pins _ Hm) Hph) as (pn' & ? & _ & Htodo). simplify_eq. exists p, pn. rewrite <- Htodo. split_and!; [done..|].
    unfold pin_holders in Hph. pose proof (pin_holders_nonneg s p).
    assert (gsum (λ rl, eqo (rl_retired rl) p) (ss_threads s) = 0) as Hz.
    { apply gsum_zero. intros t rl Ht. destruct (sh_mu _ (mg_shape _ Hm) _ _ Ht (stuck_threads _ _ _ Hm Hstuck Ht)) as [_ ->]. done. }
    destruct (Z_lt_dec 0 (eqo (ss_root s) p)) as [Hr'%eqo_pos|]; [by left|right].
    destruct (gsum_pos (λ ls, eqo (ls_pin ls) p) (ss_leases s)) as (l & ls & Hl & Hls%eqo_pos); [lia|eauto].
  - right. destruct (Z_lt_dec 0 (gsum (λ o, eqo o r) (ss_native s))) as [Hn|Hn].
    + left. apply gsum_pos in Hn as (sc & x & Hsc & ->%eqo_pos). eauto.
    + right. destruct (gsum_pos (λ rl, cnt r (rl_candidates rl)) (ss_threads s)) as (t & rl & Ht & Hr%cnt_in); [lia|].
      exists t, rl. split_and!; [done|by eapply stuck_threads|done].
Qed.

Lemma cleans_reachable s s' : reachable s → rtc cleans s s' → reachable s'.
Proof. intros Hr Hc. unfold reachable in *. etrans; [done|]. eapply rtc_subrel, Hc. intros x y (a & _ & Ha). by exists a. Qed.

(** A destroyed rule set stays destroyed. *)
Definition status_kept (s s' : ScannerState) : Prop :=
  ∀ r o, ss_owners s !! r = Some o → ow_status o = OwnerDestroyed → ∃ o', ss_owners s' !! r = Some o' ∧ ow_status o' = OwnerDestroyed.

Lemma status_kept_insert s s' r o o' :
  ss_owners s !! r = Some o → ow_status o' = ow_status o ∨ ow_status o ≠ OwnerDestroyed →
  ss_owners s' = <[r := o']> (ss_owners s) → status_kept s s'.
Proof.
  intros Hr Hst Hs' x ox Hx Hd. rewrite Hs'. destruct (decide (r = x)) as [->|Hne].
  - rewrite lookup_insert_eq. simplify_eq. exists o'. split; [done|]. destruct Hst; congruence.
  - rewrite lookup_insert_ne by done. eauto.
Qed.

Lemma status_kept_same s s' : ss_owners s' = ss_owners s → status_kept s s'.
Proof. intros Hs r o. rewrite Hs. eauto. Qed.

Lemma status_kept_trans s1 s2 s3 : status_kept s1 s2 → status_kept s2 s3 → status_kept s1 s3.
Proof. intros H1 H2 r o Hr Hd. destruct (H1 r o Hr Hd) as (o' & Hr' & Hd'). eauto. Qed.

Lemma retain_owner_status r s s' : retain_owner r s = Some s' → status_kept s s'.
Proof. unfold retain_owner. intros (o & Ho & H)%bind_Some. case_match; simplify_eq. eapply (status_kept_insert _ _ _ _ _ Ho); [|done]. by left. Qed.

Lemma release_owner_status r s s' : release_owner r s = Some s' → status_kept s s'.
Proof. unfold release_owner. intros (o & Ho & H)%bind_Some. case_match; simplify_eq. eapply (status_kept_insert _ _ _ _ _ Ho); [|done]. by left. Qed.

Lemma adopt_status r s s' : adopt r s = Some s' → status_kept s s'.
Proof.
  unfold adopt. intros H. case_match eqn:Hr; [case_match; [done|]; by eapply retain_owner_status|].
  simplify_eq. intros x o Hx Hd. exists o. cbn. rewrite lookup_insert_ne; [done|]. congruence.
Qed.

Lemma adopt_all_status l s s' : adopt_all l s = Some s' → status_kept s s'.
Proof.
  revert s. induction l as [|r l IH]; intros s; cbn; [intros [= <-]; by apply status_kept_same|].
  intros (s1 & Hr%adopt_status & Hl)%bind_Some. eapply status_kept_trans; eauto.
Qed.

Lemma act_status a s s' : act a s = Next s' → status_kept s s'.
Proof.
  pose proof retain_owner_status. pose proof release_owner_status as Hrel. pose proof adopt_status. pose proof adopt_all_status.
  intros Ha. destruct a as [l'|l'|l' r sc|sc|t|t r|t i|t p i|t|t|t|p|r|r]; open_act in Ha.
  - case_match; [done|]. destruct (ss_root s) as [p|]; cbn in Ha; [unfold retain_pin in Ha|by injection Ha as <-; apply status_kept_same].
    destruct (ss_pins s !! p); cbn in Ha; [|done]. case_match; cbn in Ha; [done|]. injection Ha as <-. by apply status_kept_same.
  - case_match; [|done]. destruct (ls_pin _) as [p|]; cbn in Ha; [unfold release_pin in Ha; cbn in Ha|by injection Ha as <-; apply status_kept_same].
    destruct (ss_pins s !! p); cbn in Ha; [|done]. case_match; cbn in Ha; [done|]. injection Ha as <-. by apply status_kept_same.
  - repeat case_match; try done. apply or_panic_Next, bind_Some in Ha as ([o s1] & Hs1 & [= <-]).
    unfold retainManaged in Hs1. repeat case_match; simplify_eq; try done; [|by apply status_kept_same].
    apply bind_Some in Hs1 as (s2 & Hs2 & [= <- <-]). eapply status_kept_trans; [by eapply H|]. by apply status_kept_same.
  - case_match; [|done]. destruct o as [r|]; cbn in Ha; [|injection Ha as <-; by apply status_kept_same].
    apply or_panic_Next in Ha. eapply status_kept_trans; [|by eapply Hrel]. by apply status_kept_same.
  - case_match; [done|]. injection Ha as <-. by apply status_kept_same.
  - repeat case_match; try done. apply or_panic_Next, bind_Some in Ha as (s1 & Hs1 & [= <-]). destruct r as [r|]; cbn in Hs1.
    + eapply status_kept_trans; [by eapply H0|]. by apply status_kept_same.
    + injection Hs1 as <-. by apply status_kept_same.
  - repeat case_match; try done. injection Ha as <-. by apply status_kept_same.
  - repeat case_match; try done. apply or_panic_Next in Ha. unfold publishReload in Ha. apply bind_Some in Ha as (s1 & Hs1 & [= <-]).
    eapply status_kept_trans; [by eapply H1|]. by apply status_kept_same.
  - repeat case_match; try done. unfold release_pin in Ha. cbn in Ha.
    destruct (ss_pins s !! _); cbn in Ha; [|done]. case_match; cbn in Ha; [done|]. injection Ha as <-. by apply status_kept_same.
  - repeat case_match; try done; [injection Ha as <-; by apply status_kept_same|].
    apply or_panic_Next in Ha. eapply status_kept_trans; [|by eapply Hrel]. by apply status_kept_same.
  - case_match; [done|]. injection Ha as <-. by apply status_kept_same.
  - repeat case_match; try done. apply or_panic_Next in Ha. eapply status_kept_trans; [|by eapply Hrel]. by apply status_kept_same.
  - repeat case_match; try done. injection Ha as <-. eapply status_kept_insert; [done| |done]; right.
    rename select (_ && _ = true) into Hg. apply andb_true_iff in Hg as [_ Hg%bool_decide_eq_true]. by rewrite Hg.
  - repeat case_match; try done. injection Ha as <-. eapply status_kept_insert; [done| |done]; right.
    rename select (bool_decide _ = true) into Hg. apply bool_decide_eq_true in Hg. by rewrite Hg.
Qed.

(** C23: Nothing leaks and nothing is freed twice.  Giving references back
    ends after finitely many steps whatever the order; when it has ended,
    every rule set that is not destroyed belongs to the current publication,
    to a publication some request still leases, to a native scanner, or to a
    reload that is still preparing, and the gauge of live rule sets counts
    exactly the rule sets that are not destroyed.  After a close without
    requests, scanners and reloads nothing is left alive; and destroyed rules
    stay destroyed through every action. *)
Theorem retired_rules_freed s :
  reachable s →
  Acc (flip cleans) s
  ∧ (∀ s', rtc cleans s s' → (∀ s'', ¬ cleans s' s'') →
      (∀ r o, ss_owners s' !! r = Some o → ow_status o ≠ OwnerDestroyed → kept s' r)
      ∧ ss_live s' = held undestroyed (ss_owners s')
      ∧ (ss_closed s' = true → ss_leases s' = ∅ → ss_native s' = ∅ → ss_threads s' = ∅ → ss_live s' = 0))
  ∧ ∀ a s' r o, act a s = Next s' → ss_owners s !! r = Some o → ow_status o = OwnerDestroyed →
      ∃ o', ss_owners s' !! r = Some o' ∧ ow_status o' = OwnerDestroyed.
Proof.
  intros Hr. split; [apply cleans_terminates|]. split; [|intros a s' r o Ha; by apply (act_status _ _ _ Ha)]. intros s' Hc Hstuck.
  pose proof (reachable_managed _ (cleans_reachable _ _ Hr Hc)) as Hm. pose proof (mg_owners _ Hm) as [_ Hlive]. split_and!; [|done|].
  - intros r o. by apply stuck_kept.
  - intros Hclosed Hl Hn Ht. rewrite Hlive. apply gsum_zero. intros r o Ho. unfold undestroyed.
    destruct (decide (ow_status o = OwnerDestroyed)) as [Hd|Hd]; [by rewrite bool_decide_eq_true_2|exfalso].
    destruct (stuck_kept _ _ _ Hm Hstuck Ho Hd) as [(p & pn & Hp & _ & [Hroot|(l & ls & Hls & _)])|[(sc & Hsc)|(t & rl & Htr & _)]].
    + destruct (sh_closed _ (mg_shape _ Hm) Hclosed). congruence.
    + by rewrite Hl, lookup_empty in Hls.
    + by rewrite Hn, lookup_empty in Hsc.
    + by rewrite Ht, lookup_empty in Htr.
Qed.

(** ** A reload under a running request *)

Fixpoint run (l : list OwnerAction) (s : ScannerState) : Outcome :=
  match l with
  | [] => Next s
  | a :: l => match act a s with Next s' => run l s' | o => o end
  end.

Lemma run_reachable l s s' : reachable s → run l s = Next s' → reachable s'.
Proof.
  revert s. induction l as [|a l IH]; intros s Hs; cbn; [by intros [= <-]|].
  destruct (act a s) as [| |s1] eqn:Ha; [done|done|]. apply IH. unfold reachable in *. eapply rtc_r; [done|]. by exists a.
Qed.

(** Rules 1 and 2 are published; request 7 leases them and builds native
    scanner 9; a reload replaces both, keeping the big bundle, and gives
    everything back. *)
Definition exReload : list OwnerAction :=
  [ABegin 0; AAdopt 0 (Some 1%nat); AAdopt 0 (Some 2%nat); AAdopt 0 None; APublish 0 0 "v1"; ADrop 0; ADrop 0; ADrop 0;
   ALease 7; AScanner 7 1 9;
   ABegin 1; AAdopt 1 (Some 3%nat); AAdopt 1 (Some 2%nat); AAdopt 1 (Some 4%nat); APublish 1 1 "v2"; ARetire 1; ADrop 1; ADrop 1; ADrop 1; ADrop 1].

Definition or_new (o : Outcome) : ScannerState := match o with Next s => s | _ => NewScanner end.

Definition exReloaded : ScannerState := or_new (run exReload NewScanner).

(** Then the request ends, its scanner goes and the scanner is closed. *)
Definition exClosing : ScannerState := or_new (run [ARelease 7; ADestroyScanner 9; AClose 2] exReloaded).

Definition exCleaning : list OwnerAction :=
  [ADrain 0; ADrain 0; AClaim 1; ARetire 2; ADrop 2; ADrain 1; ADrain 1; ADrain 1; ADestroy 1; AClaim 2; AClaim 3; AClaim 4; ADestroy 2; ADestroy 4; ADestroy 3].

Definition exClosed : ScannerState := or_new (run exCleaning exClosing).

Lemma run_cleans l s s' : forallb gives_back l = true → run l s = Next s' → rtc cleans s s'.
Proof.
  revert s. induction l as [|a l IH]; intros s; cbn; [intros _ [= <-]; apply rtc_refl|].
  intros [Ha Hl]%andb_true_iff. destruct (act a s) as [| |s1] eqn:Hact; [done|done|]. intros Hr. eapply rtc_l; [by exists a|eauto].
Qed.

Lemma nothing_to_clean s :
  ss_threads s = ∅ → map_Forall (λ _ pn, pn_todo pn = []) (ss_pins s) → map_Forall (λ _ o, ow_status o = OwnerDestroyed) (ss_owners s) →
  ∀ s', ¬ cleans s s'.
Proof.
  intros Ht Hp Ho s' (a & Hb & Ha). destruct a as [| | | | | | | |t|t| |p|r|r]; try discriminate Hb; open_act in Ha.
  - by rewrite Ht, lookup_empty in Ha.
  - by rewrite Ht, lookup_empty in Ha.
  - destruct (ss_pins s !! p) as [[refs owners todo]|] eqn:Hp'; [|done]. by rewrite (Hp _ _ Hp' : todo = []) in Ha.
  - destruct (ss_owners s !! r) as [o|] eqn:Ho'; [|done]. rewrite (Ho _ _ Ho' : ow_status o = OwnerDestroyed), andb_false_r in Ha. done.
  - destruct (ss_owners s !! r) as [o|] eqn:Ho'; [|done]. by rewrite (Ho _ _ Ho' : ow_status o = OwnerDestroyed) in Ha.
Qed.

Lemma exReloaded_reachable : reachable exReloaded.
Proof. apply (run_reachable exReload NewScanner); [apply rtc_refl|vm_compute; reflexivity]. Qed.

Lemma exClosing_reachable : reachable exClosing.
Proof. apply (run_reachable [ARelease 7; ADestroyScanner 9; AClose 2] exReloaded); [apply exReloaded_reachable|vm_compute; reflexivity]. Qed.

Lemma exClosed_cleaned : rtc cleans exClosing exClosed.
Proof. apply (run_cleans exCleaning); vm_compute; reflexivity. Qed.

Lemma exClosed_stuck s' : ¬ cleans exClosed s'.
Proof. apply nothing_to_clean; [vm_compute; reflexivity|eapply bool_decide_unpack; vm_compute; exact I..]. Qed.

(** Rules 1, replaced, are alive for the request that leased them. *)
Lemma rules_outlive_their_users_witness :
  reachable exReloaded ∧ ∃ o, ss_owners exReloaded !! 1%nat = Some o ∧ ow_status o = OwnerLive ∧ 0 < ow_refs o.
Proof.
  split; [exact exReloaded_reachable|].
  apply (proj1 (proj2 (rules_outlive_their_users exReloaded exReloaded_reachable)) 1%nat).
  right. right. exists 9%nat. vm_compute. reflexivity.
Defined.

(** Four rule sets are alive when the scanner closes, none in the end. *)
Lemma retired_rules_freed_witness : reachable exClosing ∧ ss_live exClosing = 4 ∧ ss_live exClosed = 0.
Proof.
  split; [exact exClosing_reachable|]. split; [vm_compute; reflexivity|].
  destruct (retired_rules_freed exClosing exClosing_reachable) as (_ & Hend & _).
  apply (Hend exClosed exClosed_cleaned exClosed_stuck); vm_compute; reflexivity.
Defined.
