(* ===== verification/GoRegexp.v ===== *)
(** * The regular expressions of [regexp]

    The subset of Go's syntax the extractors use, with the search order of the
    package: the leftmost match, and among those the one a backtracking search
    that prefers the first alternative and the longer repetition finds first. *)

From Stdlib Require Import ZArith Lia.
From Stdlib Require Ascii String.
From stdpp Require Import base gmap strings list numbers.
From S2P Require Import Prelude GoStd GoText.

Local Open Scope Z_scope.

(** ** Syntax *)

Inductive re :=
  | Cls (f : Z → bool)
  | Empty
  | BeginLine
  | EndLine
  | Cat (a b : re)
  | Alt (a b : re)
  | Rep (least : nat) (most : option nat) (a : re)
  | Group (n : nat) (a : re).

(** Character classes: a class sees runes, an invalid byte as [RuneError]. *)
Definition between (lo hi : Z) (r : Z) : bool := (lo <=? r) && (r <=? hi).
Definition one (c : Ascii.ascii) (r : Z) : bool := r =? byte c.
Definition orc (f g : Z → bool) (r : Z) : bool := f r || g r.
Definition notc (f : Z → bool) (r : Z) : bool := negb (f r).
Definition digitc : Z → bool := between 48 57.
Definition letterc : Z → bool := orc (between 65 90) (between 97 122).
Definition hexc : Z → bool := orc digitc (orc (between 97 102) (between 65 70)).
Definition wordc : Z → bool := orc digitc (orc letterc (λ r, r =? 95)).
Definition spacec (r : Z) : bool := (between 9 10 r) || (between 12 13 r) || (r =? 32).

(** [(?i)]: an ASCII letter also matches its other case, and s and k match
    the long s and the Kelvin sign. *)
Definition foldc (c : Ascii.ascii) (r : Z) : bool :=
  let b := byte c in
  let l := if between 65 90 b then b + 32 else b in
  (r =? l) || (between 97 122 l && (r =? l - 32)) || ((l =? 115) && (r =? 383)) || ((l =? 107) && (r =? 8490)).

(** Classes under [(?i)]. *)
Definition foldall (f : Z → bool) (r : Z) : bool := f r || ((r =? 383) && f 115) || ((r =? 8490) && f 107).

Fixpoint lit (s : string) : re :=
  match s with EmptyString => Empty | String c s => Cat (Cls (one c)) (lit s) end.

Fixpoint litfold (s : string) : re :=
  match s with EmptyString => Empty | String c s => Cat (Cls (foldc c)) (litfold s) end.

Definition Star (a : re) : re := Rep 0 None a.
Definition Plus (a : re) : re := Rep 1 None a.
Definition Opt (a : re) : re := Rep 0 (Some 1%nat) a.

Fixpoint cats (l : list re) : re := match l with [] => Empty | [a] => a | a :: l => Cat a (cats l) end.

(** ** Matching *)

(** Where a search stands: the offset, whether a line begins here, what is
    left, and the groups recorded so far, newest first. *)
Record Pos := mkPos { p_at : nat; p_bol : bool; p_rest : string; p_groups : list (nat * (nat * nat)) }.

Definition start_pos (s : string) : Pos := mkPos 0 true s [].

Definition advance (w : nat) (nl : bool) (p : Pos) : Pos := mkPos (p_at p + w) nl (string_drop w (p_rest p)) (p_groups p).

Definition at_eol (s : string) : bool := match s with EmptyString => true | String c _ => byte c =? 10 end.

Section Match.
Context {A : Type}.

Definition Step := Pos → (Pos → option A) → option A.

(** As often as possible, at most [fuel] times; an iteration that consumes
    nothing ends the repetition. *)
Fixpoint greedy (ma : Step) (fuel : nat) (p : Pos) (k : Pos → option A) : option A :=
  match fuel with
  | O => k p
  | S fuel =>
      match ma p (λ p', if (p_at p' =? p_at p)%nat then None else greedy ma fuel p' k) with
      | Some x => Some x
      | None => k p
      end
  end.

Fixpoint times (ma : Step) (n : nat) (p : Pos) (k : Pos → option A) : option A :=
  match n with O => k p | S n => ma p (λ p', times ma n p' k) end.

Fixpoint m (r : re) (p : Pos) (k : Pos → option A) : option A :=
  match r with
  | Cls f =>
      match p_rest p with
      | EmptyString => None
      | s => let '(c, w) := decode_rune s in if f c then k (advance w (c =? 10) p) else None
      end
  | Empty => k p
  | BeginLine => if p_bol p then k p else None
  | EndLine => if at_eol (p_rest p) then k p else None
  | Cat a b => m a p (λ p', m b p' k)
  | Alt a b => match m a p k with Some x => Some x | None => m b p k end
  | Rep least most a =>
      times (m a) least p (λ p',
        greedy (m a) (match most with Some n => n - least | None => S (String.length (p_rest p')) end) p' k)
  | Group n a => m a p (λ p', k (mkPos (p_at p') (p_bol p') (p_rest p') ((n, (p_at p, p_at p')) :: p_groups p')))
  end.

End Match.

(** ** Searching *)

Record Found := mkFound { f_start : nat; f_end : Pos }.

(** The leftmost match at or after a position. *)
Fixpoint find_from (fuel : nat) (r : re) (p : Pos) : option Found :=
  match m r (mkPos (p_at p) (p_bol p) (p_rest p) []) Some with
  | Some q => Some (mkFound (p_at p) q)
  | None =>
      match fuel, p_rest p with
      | S fuel, String c _ => let '(_, w) := decode_rune (p_rest p) in find_from fuel r (advance w (byte c =? 10) p)
      | _, _ => None
      end
  end.

Definition find (r : re) (p : Pos) : option Found := find_from (String.length (p_rest p)) r p.

(** [FindIndex]: start and end. *)
Definition FindIndex (r : re) (s : string) : option (nat * nat) :=
  match find r (start_pos s) with Some f => Some (f_start f, p_at (f_end f)) | None => None end.

Definition Matches (r : re) (s : string) : bool := bool_decide (is_Some (FindIndex r s)).

(** The text between two offsets. *)
Definition substring (s : string) (a b : nat) : string := string_take (b - a) (string_drop a s).

Fixpoint group (n : nat) (l : list (nat * (nat * nat))) : option (nat * nat) :=
  match l with [] => None | (k, ab) :: l => if (k =? n)%nat then Some ab else group n l end.

(** The text of group [n], empty if it did not take part; group 0 is the
    match. *)
Definition submatch (s : string) (f : Found) (n : nat) : string :=
  match n with
  | O => substring s (f_start f) (p_at (f_end f))
  | _ => match group n (p_groups (f_end f)) with Some (a, b) => substring s a b | None => EmptyString end
  end.

(** [FindAll] with a limit, for expressions that match no empty text. *)
Fixpoint find_all (fuel : nat) (limit : option nat) (r : re) (p : Pos) : list Found :=
  match fuel, limit with
  | O, _ | _, Some O => []
  | S fuel, _ =>
      match find r p with
      | None => []
      | Some f => f :: find_all fuel (pred <$> limit) r (f_end f)
      end
  end.

Definition FindAll (r : re) (s : string) (limit : option nat) : list Found :=
  find_all (S (String.length s)) limit r (start_pos s).

(** [ReplaceAllFunc] *)
Fixpoint replace_all (s : string) (f : Found → string) (l : list Found) (from : nat) : string :=
  match l with
  | [] => string_drop from s
  | x :: l => substring s from (f_start x) +:+ f x +:+ replace_all s f l (p_at (f_end x))
  end.

Definition ReplaceAllFunc (r : re) (s : string) (f : Found → string) : string := replace_all s f (FindAll r s None) 0.

Example re_longest : FindIndex (Rep 2 (Some 3%nat) (Cls (one (ascii_of_Z 97)))) "baaaab" = Some (1%nat, 4%nat).
Proof. reflexivity. Qed.
Example re_priority : FindIndex (Alt (lit "a") (lit "ab")) "xab" = Some (1%nat, 2%nat).
Proof. reflexivity. Qed.
Example re_groups :
  (λ f, (submatch "f(12)" f 0, submatch "f(12)" f 1)) <$> FindAll (cats [litfold "F"; lit "("; Group 1 (Plus (Cls digitc)); lit ")"]) "f(12)" None
  = [("f(12)", "12")].
Proof. reflexivity. Qed.
Example re_lines :
  (λ f, f_start f) <$> FindAll (cats [BeginLine; Cls letterc; EndLine]) ("a" +:+ string_of_bytes [10] +:+ "ab" +:+ string_of_bytes [10] +:+ "a") None
  = [0; 5]%nat.
Proof. reflexivity. Qed.

(** ** Runes *)

Lemma decode_rune_width s : s ≠ EmptyString → (1 <= (decode_rune s).2 <= String.length s)%nat.
Proof. intros Hs. unfold decode_rune. repeat case_match; subst; cbn; try lia; done. Qed.

Lemma rune_ascii c s : byte c < 128 → decode_rune (String c s) = (byte c, 1%nat).
Proof. intros Hc. unfold decode_rune. by rewrite (proj2 (Z.ltb_lt _ _) Hc). Qed.

(** A class of ASCII runes. *)
Definition ascii_class (f : Z → bool) : Prop := ∀ r, f r = true → 0 <= r < 128.

Section Class.
Context {A : Type} (f : Z → bool).

Lemma m_cls_nil p (k : Pos → option A) : p_rest p = EmptyString → m (Cls f) p k = None.
Proof. cbn. by intros ->. Qed.

Lemma m_cls p (k : Pos → option A) c t : ascii_class f → p_rest p = String c t →
  m (Cls f) p k = if f (byte c) then k (advance 1 (byte c =? 10) p) else None.
Proof.
  intros Hf Hp. cbn [m]. rewrite Hp. destruct (Z_lt_dec (byte c) 128) as [Hc|Hc]; [by rewrite rune_ascii|].
  destruct (decode_rune (String c t)) as [r w] eqn:Hr. pose proof (decode_rune_high c t ltac:(lia)) as Hh. rewrite Hr in Hh. cbn in Hh.
  destruct (f r) eqn:Hfr; [apply Hf in Hfr; lia|]. destruct (f (byte c)) eqn:Hfc; [apply Hf in Hfc; lia|done].
Qed.

End Class.

(** ** What a match consumed *)

(** [u] can be consumed by [r], in front of some text. *)
Inductive lang : re → string → Prop :=
  | lang_cls f u v c : u ≠ EmptyString → decode_rune (u +:+ v) = (c, String.length u) → f c = true → lang (Cls f) u
  | lang_empty : lang Empty EmptyString
  | lang_bol : lang BeginLine EmptyString
  | lang_eol : lang EndLine EmptyString
  | lang_cat a b u v : lang a u → lang b v → lang (Cat a b) (u +:+ v)
  | lang_alt_l a b u : lang a u → lang (Alt a b) u
  | lang_alt_r a b u : lang b u → lang (Alt a b) u
  | lang_rep least most a us : (least <= length us)%nat → Forall (lang a) us → lang (Rep least most a) (string_concat us)
  | lang_group n a u : lang a u → lang (Group n a) u.

(** [ma] consumes texts of [L] and goes on. *)
Definition consumes {A} (L : string → Prop) (ma : Step (A := A)) : Prop :=
  ∀ p k x, ma p k = Some x →
    ∃ u p', L u ∧ p_rest p = u +:+ p_rest p' ∧ p_at p' = (p_at p + String.length u)%nat ∧ k p' = Some x.

Lemma string_concat_app l1 l2 : string_concat (l1 ++ l2) = string_concat l1 +:+ string_concat l2.
Proof. induction l1 as [|s l1 IH]; [done|]. cbn. unfold string_concat in IH. rewrite IH. by rewrite string_app_assoc. Qed.

Lemma string_length_app (s t : string) : String.length (s +:+ t) = (String.length s + String.length t)%nat.
Proof. induction s as [|c s IH]; [done|]. rewrite string_cons_app. cbn [String.length]. rewrite IH. lia. Qed.

Lemma consumes_greedy {A} L (ma : Step (A := A)) : consumes L ma → ∀ fuel, consumes (λ u, ∃ us, Forall L us ∧ u = string_concat us) (greedy ma fuel).
Proof.
  intros Hma. induction fuel as [|fuel IH]; intros p k x; cbn.
  - intros Hk. exists EmptyString, p. split_and!; [by exists []|done|cbn; lia|done].
  - destruct (ma p _) as [y|] eqn:Hy; [|intros Hk; exists EmptyString, p; split_and!; [by exists []|done|cbn; lia|done]].
    intros [= ->]. apply Hma in Hy as (u & p' & Hu & Hr & Hat & Hk). destruct (_ =? _)%nat; [done|].
    apply IH in Hk as (v & q & (us & Hus & ->) & Hr' & Hat' & Hk). exists (u +:+ string_concat us), q. split_and!.
    + exists (u :: us). split; [by constructor|done].
    + rewrite Hr, Hr'. by rewrite string_app_assoc.
    + rewrite Hat', Hat, string_length_app. lia.
    + done.
Qed.

Lemma consumes_times {A} L (ma : Step (A := A)) : consumes L ma → ∀ n, consumes (λ u, ∃ us, length us = n ∧ Forall L us ∧ u = string_concat us) (times ma n).
Proof.
  intros Hma. induction n as [|n IH]; intros p k x; cbn.
  - intros Hk. exists EmptyString, p. split_and!; [by exists []|done|cbn; lia|done].
  - intros Hy. apply Hma in Hy as (u & p' & Hu & Hr & Hat & Hk).
    apply IH in Hk as (v & q & (us & <- & Hus & ->) & Hr' & Hat' & Hk). exists (u +:+ string_concat us), q. split_and!.
    + exists (u :: us). split_and!; [done|by constructor|done].
    + rewrite Hr, Hr'. by rewrite string_app_assoc.
    + rewrite Hat', Hat, string_length_app. lia.
    + done.
Qed.

Lemma m_lang {A} r : consumes (A := A) (lang r) (m r).
Proof.
  induction r as [f| | | |a IHa b IHb|a IHa b IHb|least most a IHa|n a IHa]; intros p k x; cbn [m].
  - destruct (p_rest p) as [|c t] eqn:Hp; [done|]. destruct (decode_rune (String c t)) as [r w] eqn:Hd. destruct (f r) eqn:Hf; [|done].
    intros Hk. pose proof (decode_rune_width (String c t) ltac:(done)) as Hw. rewrite Hd in Hw. cbn [snd] in Hw.
    exists (string_take w (String c t)), (advance w (r =? 10) p). rewrite <- (string_take_drop w (String c t)) in Hd.
    assert (String.length (string_take w (String c t)) = w) as Hlen by (rewrite string_take_length; lia). split_and!; [|..|done].
    + econstructor; [|rewrite Hlen; exact Hd|done]. intros H0. rewrite H0 in Hlen. cbn in Hlen. lia.
    + unfold advance. cbn [p_rest]. rewrite Hp. by rewrite string_take_drop.
    + cbn [p_at advance]. lia.
  - intros Hk. exists EmptyString, p. split_and!; [constructor|done|cbn; lia|done].
  - destruct (p_bol p); [|done]. intros Hk. exists EmptyString, p. split_and!; [constructor|done|cbn; lia|done].
  - destruct (at_eol _); [|done]. intros Hk. exists EmptyString, p. split_and!; [constructor|done|cbn; lia|done].
  - intros Hx. apply IHa in Hx as (u & p1 & Hu & Hr1 & Hat1 & Hx). apply IHb in Hx as (v & p2 & Hv & Hr2 & Hat2 & Hk).
    exists (u +:+ v), p2. split_and!; [by constructor| | |done]; [rewrite Hr1, Hr2; by rewrite string_app_assoc|rewrite string_length_app; lia].
  - destruct (m a p k) as [y|] eqn:Hy.
    + intros [= ->]. apply IHa in Hy as (u & p1 & Hu & Hx). exists u, p1. split; [by apply lang_alt_l|done].
    + intros Hx. apply IHb in Hx as (u & p1 & Hu & Hx). exists u, p1. split; [by apply lang_alt_r|done].
  - intros Hx. apply (consumes_times (lang a) _ IHa) in Hx as (u & p1 & (us & Hn & Hus & ->) & Hr1 & Hat1 & Hx).
    apply (consumes_greedy (lang a) _ IHa) in Hx as (v & p2 & (vs & Hvs & ->) & Hr2 & Hat2 & Hk).
    exists (string_concat us +:+ string_concat vs), p2. rewrite <- string_concat_app. split_and!; [| | |done].
    + constructor; [rewrite length_app; lia|by apply list.Forall_app].
    + rewrite string_concat_app, Hr1, Hr2. by rewrite string_app_assoc.
    + rewrite string_concat_app, string_length_app. lia.
  - intros Hx. apply IHa in Hx as (u & p1 & Hu & Hr1 & Hat1 & Hk). eexists u, _. split_and!; [by constructor| | |exact Hk]; done.
Qed.

(** A search finds a text of the language, where it says. *)
Lemma find_from_lang fuel r : ∀ p f, find_from fuel r p = Some f →
  ∃ pre u, p_rest p = pre +:+ u +:+ p_rest (f_end f) ∧ lang r u ∧ f_start f = (p_at p + String.length pre)%nat
    ∧ p_at (f_end f) = (f_start f + String.length u)%nat.
Proof.
  induction fuel as [|fuel IH]; intros p f; cbn [find_from]; destruct (m r _ Some) as [q|] eqn:Hm.
  1, 3: intros [= <-]; apply m_lang in Hm as (u & p' & Hu & Hr & Hat & [= ->]); exists EmptyString, u; cbn in *; split_and!; [done|done|lia|lia].
  - done.
  - destruct (p_rest p) as [|c t] eqn:Hp; [done|]. destruct (decode_rune (String c t)) as [r' w] eqn:Hd. intros Hf.
    pose proof (decode_rune_width (String c t) ltac:(done)) as Hw. rewrite Hd in Hw. cbn [snd] in Hw.
    apply IH in Hf as (pre & u & Hr & Hu & Hs & He). cbn [advance p_rest p_at] in Hr, Hs. rewrite Hp in Hr.
    exists (string_take w (String c t) +:+ pre), u. split_and!; [|done| |done].
    + rewrite <- (string_take_drop w (String c t)) at 1. rewrite Hr. by rewrite string_app_assoc.
    + rewrite Hs, string_length_app, string_take_length. lia.
Qed.

Lemma find_lang r p f : find r p = Some f →
  ∃ pre u, p_rest p = pre +:+ u +:+ p_rest (f_end f) ∧ lang r u ∧ f_start f = (p_at p + String.length pre)%nat
    ∧ p_at (f_end f) = (f_start f + String.length u)%nat.
Proof. apply find_from_lang. Qed.

(** ** Repetitions of fixed width *)

Definition advs (w : nat) (p : Pos) : Pos := Nat.iter w (advance 1 false) p.

Lemma advs_S w p : advs (S w) p = advance 1 false (advs w p).
Proof. done. Qed.

Lemma advs_at w p : p_at (advs w p) = (p_at p + w)%nat.
Proof. induction w as [|w IH]; [cbn; lia|]. rewrite advs_S. cbn [advance p_at]. rewrite IH. lia. Qed.

Lemma advs_rest w p : p_rest (advs w p) = string_drop w (p_rest p).
Proof.
  induction w as [|w IH]; [done|]. rewrite advs_S. cbn [advance p_rest]. rewrite IH, string_drop_drop. f_equal. lia.
Qed.

Lemma advs_advs v w p : advs v (advs w p) = advs (w + v) p.
Proof. induction v as [|v IH]; [by rewrite Nat.add_0_r|]. by rewrite Nat.add_succ_r, !advs_S, IH. Qed.

(** [ma] consumes [w] bytes when [ok] holds, with one outcome only. *)
Definition steps_by {A} (ma : Step (A := A)) (ok : string → bool) (w : nat) : Prop :=
  ∀ p k, ma p k = if ok (p_rest p) then k (advs w p) else None.

(** How often such a step can be repeated. *)
Fixpoint count (ok : string → bool) (w fuel : nat) (s : string) : nat :=
  match fuel with O => O | S fuel => if ok s then S (count ok w fuel (string_drop w s)) else O end.

Definition first_is (f : Z → bool) (s : string) : bool := match s with String c _ => f (byte c) | EmptyString => false end.

Lemma steps_by_cls {A} f : ascii_class f → f 10 = false → steps_by (A := A) (m (Cls f)) (first_is f) 1.
Proof.
  intros Hf H10 p k. destruct (p_rest p) as [|c t] eqn:Hp; [by rewrite m_cls_nil|]. rewrite (m_cls f p k c t Hf Hp). cbn [first_is].
  destruct (f (byte c)) eqn:Hc; [|done]. destruct (Z.eqb_spec (byte c) 10) as [E|]; [congruence|done].
Qed.

Lemma steps_by_cat {A} a b oka okb va vb : steps_by (A := A) (m a) oka va → steps_by (A := A) (m b) okb vb →
  steps_by (A := A) (m (Cat a b)) (λ s, oka s && okb (string_drop va s)) (va + vb).
Proof.
  intros Ha Hb p k. cbn [m]. rewrite Ha. destruct (oka (p_rest p)); [|done]. rewrite Hb, advs_rest. cbn. by rewrite advs_advs.
Qed.

Section Repetition.
Context {A : Type} (ma : Step (A := A)) (ok : string → bool) (w : nat).
Hypothesis (Hma : steps_by ma ok w) (Hw : (0 < w)%nat).

Lemma greedy_count fuel : ∀ p k x, k (advs (count ok w fuel (p_rest p) * w) p) = Some x → greedy ma fuel p k = Some x.
Proof.
  induction fuel as [|fuel IH]; intros p k x Hk; [done|]. cbn [greedy]. rewrite Hma. cbn [count] in Hk.
  destruct (ok (p_rest p)); [|done]. destruct (Nat.eqb_spec (p_at (advs w p)) (p_at p)) as [E|_]; [rewrite advs_at in E; lia|].
  rewrite (IH (advs w p) k x); [done|]. rewrite advs_rest, advs_advs. exact Hk.
Qed.

Lemma times_count n : ∀ p k, times ma n p k = if (count ok w n (p_rest p) =? n)%nat then k (advs (n * w) p) else None.
Proof.
  induction n as [|n IH]; intros p k; [done|]. cbn [times count]. rewrite Hma. destruct (ok (p_rest p)); [|done].
  rewrite IH, advs_rest, advs_advs. cbn [Nat.eqb Nat.mul]. by rewrite Nat.add_comm.
Qed.

End Repetition.

Lemma count_le ok w fuel s : (count ok w fuel s <= fuel)%nat.
Proof. revert s. induction fuel as [|fuel IH]; intros s; cbn; [done|]. destruct (ok s); [|lia]. pose proof (IH (string_drop w s)). lia. Qed.

Lemma count_more ok w n fuel : ∀ s, (n <= fuel)%nat → count ok w n s = Nat.min n (count ok w fuel s).
Proof.
  revert fuel. induction n as [|n IH]; intros fuel s Hn; [by destruct (count ok w fuel s)|].
  destruct fuel as [|fuel]; [lia|]. cbn [count]. destruct (ok s); [|done]. rewrite (IH fuel) by lia. lia.
Qed.

(** The first [n] repetitions and the rest. *)
Lemma count_split ok w n fuel : ∀ s, (n <= count ok w (n + fuel) s)%nat → count ok w (n + fuel) s = (n + count ok w fuel (string_drop (n * w) s))%nat.
Proof.
  induction n as [|n IH]; intros s Hn; [done|]. cbn [count Nat.add Nat.mul] in *. destruct (ok s); [|lia].
  rewrite IH by lia. by rewrite string_drop_drop.
Qed.

(** No text is longer than its bytes. *)
Lemma count_fuel ok w s fuel fuel' : (∀ s, ok s = true → (w <= String.length s)%nat) → (0 < w)%nat →
  (String.length s <= fuel)%nat → (String.length s <= fuel')%nat → count ok w fuel s = count ok w fuel' s.
Proof.
  intros Hok Hw. revert s fuel'. induction fuel as [|fuel IH]; intros s fuel' Hf Hf'.
  - destruct fuel' as [|fuel']; [done|]. cbn. destruct (ok s) eqn:E; [|done]. apply Hok in E. lia.
  - destruct fuel' as [|fuel']; cbn; (destruct (ok s) eqn:E; [|done]); pose proof (Hok _ E); [lia|].
    f_equal. apply IH; rewrite string_drop_length; lia.
Qed.

Definition repeats (ok : string → bool) (w : nat) (s : string) : nat := count ok w (String.length s) s.

(** [a{n,}]: as often as it goes. *)
Lemma m_rep_some {A} a ok w n p (k : Pos → option A) x :
  steps_by (A := A) (m a) ok w → (0 < w)%nat → (∀ s, ok s = true → (w <= String.length s)%nat) →
  (n <= repeats ok w (p_rest p))%nat → k (advs (repeats ok w (p_rest p) * w) p) = Some x → m (Rep n None a) p k = Some x.
Proof.
  intros Ha Hw Hok Hn Hk. cbn [m]. rewrite (times_count _ ok w Ha).
  set (s := p_rest p) in *. assert (count ok w n s = n) as Hc.
  { pose proof (count_le ok w (String.length s) s). unfold repeats in Hn. rewrite (count_more ok w n (String.length s)) by lia. lia. }
  rewrite Hc, Nat.eqb_refl. apply (greedy_count _ ok w Ha Hw). rewrite advs_rest, advs_advs. fold s.
  rewrite (count_fuel ok w _ _ (String.length s - n)); [|done|done|rewrite string_drop_length; lia|rewrite string_drop_length; nia].
  unfold repeats in *. pose proof (count_le ok w (String.length s) s).
  replace (String.length s) with (n + (String.length s - n))%nat in Hk, Hn by lia. rewrite (count_split _ _ _ _ _ Hn) in Hk.
  by rewrite Nat.mul_add_distr_r in Hk.
Qed.

Lemma m_rep_none {A} a ok w n p (k : Pos → option A) :
  steps_by (A := A) (m a) ok w → (∀ s, ok s = true → (w <= String.length s)%nat) → (0 < w)%nat →
  (repeats ok w (p_rest p) < n)%nat → m (Rep n None a) p k = None.
Proof.
  intros Ha Hok Hw Hn. cbn [m]. rewrite (times_count _ ok w Ha).
  assert (count ok w n (p_rest p) < n)%nat as Hc; [|destruct (Nat.eqb_spec (count ok w n (p_rest p)) n); [lia|done]].
  unfold repeats in Hn. destruct (le_lt_dec n (String.length (p_rest p))).
  - rewrite (count_more ok w n (String.length (p_rest p))) by done. lia.
  - rewrite (count_fuel ok w _ n (String.length (p_rest p))) by (done || lia). done.
Qed.

(** [a{0,n}] *)
Lemma m_opt_some {A} a ok w n p (k : Pos → option A) x :
  steps_by (A := A) (m a) ok w → (0 < w)%nat → k (advs (count ok w n (p_rest p) * w) p) = Some x → m (Rep 0 (Some n) a) p k = Some x.
Proof. intros Ha Hw Hk. cbn [m times]. rewrite Nat.sub_0_r. by apply (greedy_count _ ok w Ha Hw). Qed.

(** ** Searching byte by byte *)

(** An expression that begins with an ASCII character is not found inside
    another character. *)
Definition ascii_start (r : re) : Prop :=
  ∀ p c t, p_rest p = String c t → 128 <= byte c → m r p Some = None.

Fixpoint find_bytes (r : re) (at_ : nat) (bol : bool) (s : string) : option Found :=
  match m r (mkPos at_ bol s []) Some with
  | Some q => Some (mkFound at_ q)
  | None => match s with EmptyString => None | String c t => find_bytes r (S at_) (byte c =? 10) t end
  end.


Fixpoint highs (n : nat) (s : string) : bool :=
  match n, s with
  | O, _ => true
  | S n, String c s => (128 <=? byte c) && highs n s
  | _, EmptyString => false
  end.

Lemma decode_rune_highs c t : highs (pred (decode_rune (String c t)).2) t = true.
Proof.
  unfold decode_rune. repeat case_match; subst; cbn [snd pred highs]; try done; unfold is_cont in *; bool_hyps;
    repeat match goal with |- context [if ?b then _ else _] => destruct b eqn:? end; bool_hyps;
    rewrite ?andb_true_iff; split_and?; try done; apply Z.leb_le; lia.
Qed.

Lemma find_bytes_highs r n : ∀ at_ bol s, ascii_start r → highs n s = true →
  find_bytes r at_ bol s = find_bytes r (at_ + n) (if (n =? 0)%nat then bol else false) (string_drop n s).
Proof.
  induction n as [|n IH]; intros at_ bol s Hr Hn; [by rewrite Nat.add_0_r|]. destruct s as [|c t]; [done|].
  cbn [highs] in Hn. apply andb_true_iff in Hn as [Hc%Z.leb_le Hn]. cbn [find_bytes]. rewrite (Hr _ c t) by done.
  rewrite IH by done. cbn [string_drop Nat.eqb]. rewrite Nat.add_succ_r.
  destruct (Z.eqb_spec (byte c) 10); [lia|]. by destruct (n =? 0)%nat.
Qed.

Lemma find_bytes_spec r fuel : ∀ p, ascii_start r → (String.length (p_rest p) <= fuel)%nat → p_groups p = [] →
  find_from fuel r p = find_bytes r (p_at p) (p_bol p) (p_rest p).
Proof.
  intros p Hr. revert p. induction fuel as [|fuel IH]; intros [at_ bol s gs] Hf Hg; cbn [p_rest p_at p_bol p_groups] in *; subst gs.
  - destruct s as [|c t]; [|cbn in Hf; lia]. cbn [find_from find_bytes p_at p_bol p_rest]. by destruct (m r _ Some).
  - destruct s as [|c t]; cbn [find_from find_bytes p_at p_bol p_rest]; [by destruct (m r _ Some)|].
    destruct (m r _ Some); [done|]. pose proof (decode_rune_highs c t) as Hh. pose proof (decode_rune_width (String c t) ltac:(done)) as Hw.
    destruct (decode_rune (String c t)) as [r' w] eqn:Hd. cbn [snd] in *. destruct w as [|w]; [lia|]. cbn [pred] in Hh.
    rewrite IH; [|cbn [advance p_rest string_drop]; rewrite string_drop_length; cbn in Hf, Hw; lia|done].
    rewrite (find_bytes_highs r w (S at_)) by done. cbn [advance p_at p_bol p_rest string_drop]. rewrite Nat.add_succ_r. cbn [Nat.add].
    destruct w as [|w]; [done|]. cbn [Nat.eqb]. destruct (Z.eqb_spec (byte c) 10) as [E|]; [|done]. rewrite rune_ascii in Hd by lia. done.
Qed.

Lemma FindIndex_bytes r s : ascii_start r →
  FindIndex r s = (λ x, (f_start x, p_at (f_end x))) <$> find_bytes r 0 true s.
Proof. intros Hr. unfold FindIndex, find. rewrite find_bytes_spec by done. by destruct (find_bytes _ _ _ _). Qed.

(** ** The first long run of a class *)

Definition span (f : Z → bool) (s : string) : nat := repeats (first_is f) 1 s.

Lemma m_cat {A} a b p (k : Pos → option A) : m (Cat a b) p k = m a p (λ p', m b p' k).
Proof. done. Qed.

Lemma span_nil f : span f EmptyString = O.
Proof. done. Qed.

Lemma span_cons f c s : span f (String c s) = if f (byte c) then S (span f s) else O.
Proof. done. Qed.

Fixpoint first_run (f : Z → bool) (n i : nat) (s : string) : option (nat * nat) :=
  if (n <=? span f s)%nat then Some (i, span f s)
  else match s with EmptyString => None | String _ t => first_run f n (S i) t end.

(** A short run is skipped as a whole. *)
Lemma first_run_skip f n j : ∀ i s, (j <= span f s < n)%nat → first_run f n i s = first_run f n (i + j) (string_drop j s).
Proof.
  induction j as [|j IH]; intros i s Hj; [by rewrite Nat.add_0_r|].
  destruct s as [|c t]; [rewrite span_nil in Hj; lia|]. rewrite span_cons in Hj. destruct (f (byte c)) eqn:Hc; [|lia].
  cbn [first_run]. rewrite span_cons, Hc. destruct (Nat.leb_spec n (S (span f t))); [lia|]. rewrite IH by lia. cbn [string_drop]. by rewrite Nat.add_succ_r.
Qed.

Lemma first_run_ge f n s : ∀ i a q, first_run f n i s = Some (a, q) → (i <= a)%nat ∧ (n <= q)%nat.
Proof.
  induction s as [|c t IH]; intros i a q; cbn [first_run].
  - destruct (Nat.leb_spec n (span f EmptyString)); [by intros [= <- <-]|done].
  - destruct (Nat.leb_spec n (span f (String c t))); [by intros [= <- <-]|]. intros [? ?]%IH. lia.
Qed.

(** The run found is maximal. *)
Lemma first_run_spec f n s : ∀ i a q, first_run f n i s = Some (a, q) → (i <= a)%nat ∧ span f (string_drop (a - i) s) = q.
Proof.
  induction s as [|c t IH]; intros i a q; cbn [first_run].
  - destruct (Nat.leb_spec n (span f EmptyString)); [|done]. intros [= <- <-]. by rewrite Nat.sub_diag.
  - destruct (Nat.leb_spec n (span f (String c t))); [intros [= <- <-]; by rewrite Nat.sub_diag|].
    intros [? Hq]%IH. split; [lia|]. by replace (a - i)%nat with (S (a - S i)) by lia.
Qed.

Lemma span_drop f s : first_is f (string_drop (span f s) s) = false.
Proof. induction s as [|c s IH]; [done|]. rewrite span_cons. destruct (f (byte c)) eqn:Hc; [exact IH|exact Hc]. Qed.

Lemma first_is_length f s : first_is f s = true → (1 <= String.length s)%nat.
Proof. destruct s; cbn; [done|lia]. Qed.

(** [[class]{n,}] followed by at most [k] bytes of another class. *)
Lemma find_run f g n k s : ascii_class f → f 10 = false → ascii_class g → g 10 = false → (0 < n)%nat →
  ∀ i bol, (λ x, (f_start x, p_at (f_end x))) <$> find_bytes (Cat (Rep n None (Cls f)) (Rep 0 (Some k) (Cls g))) i bol s
  = (λ '(a, q), (a, a + q + count (first_is g) 1 k (string_drop (q + (a - i)) s))%nat) <$> first_run f n i s.
Proof.
  intros Hf Hf10 Hg Hg10 Hn. induction s as [|c t IH]; intros i bol.
  - cbn [find_bytes]. rewrite m_cat.
    rewrite (m_rep_none (Cls f) (first_is f) 1 n) by (try apply steps_by_cls; try done; try apply first_is_length; lia).
    cbn [first_run]. rewrite span_nil. destruct (Nat.leb_spec n 0); [lia|done].
  - cbn [find_bytes first_run]. destruct (Nat.leb_spec n (span f (String c t))) as [Hl|Hl].
    + match goal with |- context [m (Cat ?a ?b) ?p Some] => set (p0 := p) end.
      assert (∃ q, m (Cat (Rep n None (Cls f)) (Rep 0 (Some k) (Cls g))) p0 Some = Some q
        ∧ p_at q = (i + span f (String c t) + count (first_is g) 1 k (string_drop (span f (String c t)) (String c t)))%nat) as (q & -> & Hq).
      { eexists. split.
        - rewrite m_cat. apply (m_rep_some (Cls f) (first_is f) 1); [by apply steps_by_cls|lia|apply first_is_length|done|].
          apply (m_opt_some (Cls g) (first_is g) 1); [by apply steps_by_cls|lia|]. reflexivity.
        - rewrite !advs_at, !advs_rest. cbn [p_at p_rest p0]. rewrite !Nat.mul_1_r. fold (span f (String c t)). lia. }
      cbn. rewrite Hq, Nat.sub_diag, Nat.add_0_r. done.
    + rewrite m_cat, (m_rep_none (Cls f) (first_is f) 1 n) by (try apply steps_by_cls; try done; try apply first_is_length; lia).
      rewrite IH. destruct (first_run f n (S i) t) as [[a q]|] eqn:Hrun; [|done]. cbn [fmap option_fmap option_map]. f_equal. f_equal. f_equal.
      apply first_run_ge in Hrun as [Ha _]. replace (q + (a - i))%nat with (S (q + (a - S i)))%nat by lia. done.
Qed.

Definition pair_is (f : Z → bool) (s : string) : bool := first_is f s && first_is f (string_drop 1 s).

Lemma pair_is_length f s : pair_is f s = true → (2 <= String.length s)%nat.
Proof. destruct s as [|c [|d s]]; unfold pair_is; cbn [first_is string_drop String.length]; rewrite ?andb_false_r; [done|done|lia]. Qed.

Lemma repeats_pair f s : repeats (pair_is f) 2 s = (span f s / 2)%nat.
Proof.
  assert (∀ fuel s, count (pair_is f) 2 fuel s = Nat.min fuel (span f s / 2)) as Hc.
  { clear s. induction fuel as [|fuel IH]; intros s; [done|]. cbn [count]. unfold pair_is at 1.
    destruct s as [|c [|d t]]; [done|cbn [first_is string_drop]; rewrite andb_false_r, !span_cons, span_nil; by destruct (f (byte c))|].
    cbn [first_is string_drop]. rewrite !span_cons. destruct (f (byte c)); [|done]. destruct (f (byte d)); [|done]. cbn [andb].
    rewrite IH. replace (S (S (span f t)))%nat with (1 * 2 + span f t)%nat by lia. rewrite Nat.div_add_l by done. lia. }
  unfold repeats. rewrite Hc. apply Nat.min_r. pose proof (count_le (first_is f) 1 (String.length s) s) as Hl. fold (repeats (first_is f) 1 s) in Hl.
  unfold span. pose proof (Nat.div_le_upper_bound (repeats (first_is f) 1 s) 2 (repeats (first_is f) 1 s)). lia.
Qed.

Lemma find_pairs f n s : ascii_class f → f 10 = false → (0 < n)%nat →
  ∀ i bol, (λ x, (f_start x, p_at (f_end x))) <$> find_bytes (Rep n None (Cat (Cls f) (Cls f))) i bol s
  = (λ '(a, q), (a, a + q / 2 * 2)%nat) <$> first_run f (2 * n) i s.
Proof.
  intros Hf Hf10 Hn. assert (∀ A, steps_by (A := A) (m (Cat (Cls f) (Cls f))) (pair_is f) 2) as Hstep.
  { intros A. apply (steps_by_cat (Cls f) (Cls f) (first_is f) (first_is f) 1 1); by apply steps_by_cls. }
  assert (∀ k, (n <= k / 2)%nat ↔ (2 * n <= k)%nat) as Hdiv.
  { intros k. pose proof (Nat.div_mod_eq k 2). pose proof (Nat.mod_upper_bound k 2). lia. }
  induction s as [|c t IH]; intros i bol; cbn [find_bytes first_run];
    (match goal with |- context [(2 * n <=? span f ?s)%nat] => destruct (Nat.leb_spec (2 * n) (span f s)) as [Hl|Hl] end).
  - rewrite span_nil in Hl. lia.
  - rewrite (m_rep_none _ (pair_is f) 2) by (try apply Hstep; try apply pair_is_length; rewrite ?repeats_pair; cbn [p_rest]; rewrite ?span_nil; cbn; lia). done.
  - match goal with |- context [m ?a ?p Some] => set (p0 := p) end.
    assert (m (Rep n None (Cat (Cls f) (Cls f))) p0 Some = Some (advs (repeats (pair_is f) 2 (p_rest p0) * 2) p0)) as ->.
    { apply (m_rep_some _ (pair_is f) 2 n p0 Some _ (Hstep _)); [lia|apply pair_is_length| |done]. rewrite repeats_pair. by apply Hdiv. }
    cbn [fmap option_fmap option_map f_start f_end]. rewrite advs_at, repeats_pair. done.
  - rewrite (m_rep_none _ (pair_is f) 2); [apply IH|apply Hstep|apply pair_is_length|lia|].
    rewrite repeats_pair. cbn [p_rest]. pose proof (Hdiv (span f (String c t))). lia.
Qed.

(** A repeated ASCII step begins with an ASCII character. *)
Lemma ascii_start_rep a ok w n b : (∀ A, steps_by (A := A) (m a) ok w) → (∀ s, ok s = true → (w <= String.length s)%nat) → (0 < w)%nat → (0 < n)%nat →
  (∀ c t, 128 <= byte c → ok (String c t) = false) → ascii_start (Rep n None a) ∧ ascii_start (Cat (Rep n None a) b).
Proof.
  intros Ha Hok Hw Hn Hhigh. assert (∀ p c t, p_rest p = String c t → 128 <= byte c → (repeats ok w (p_rest p) < n)%nat) as Hr.
  { intros p c t -> Hc. unfold repeats. cbn [String.length count]. rewrite Hhigh by done. lia. }
  split; intros p c t Hp Hc; [|rewrite m_cat]; rewrite (m_rep_none a ok w n); eauto.
Qed.

Lemma first_is_high f c t : ascii_class f → 128 <= byte c → first_is f (String c t) = false.
Proof. intros Hf Hc. cbn. destruct (f (byte c)) eqn:E; [apply Hf in E; lia|done]. Qed.
