(* ===== verification/DecodeRuns.v ===== *)
(** * Runs of encoded text

    The scalar decoders of extract/decode.go: base64, hex, escapes, decimal
    lists, NETBIOS names, base32 and reversed text.  A decoder hands every
    result to [emit] and stops when it refuses one; the clock is asked at the
    points where the code asks it.  Both live in a state the decoders do not
    know. *)

From Stdlib Require Import ZArith Lia.
From Stdlib Require Ascii String.
From stdpp Require Import base gmap strings list numbers.
From S2P Require Import Prelude GoStd GoText Base64 GoRegexp.

Local Open Scope Z_scope.

(** ** Effects *)

Definition D (S A : Type) : Type := S → A * S.
Definition dret {S A} (a : A) : D S A := λ s, (a, s).
Definition dbind {S A B} (x : D S A) (f : A → D S B) : D S B := λ s, let '(a, s) := x s in f a s.
Notation "x ⟵ e ;; f" := (dbind e (λ x, f)) (at level 65, e at next level, right associativity) : mailstrix_scope.
Local Open Scope mailstrix_scope.

(** ** Bounds *)

Definition minBase64Run : Z := 24.
Definition minHexRun : Z := 32.
Definition minDecodedLen : Z := 8.
Definition maxDecodedBlobs : Z := 32.
Definition maxBytesPerDecodedBlob : Z := 1048576.
Definition maxCumulativeDecoded : Z := 4194304.
Definition maxB64Encoded : Z := (maxBytesPerDecodedBlob / 3 + 1) * 4.
Definition maxHexEncoded : Z := maxBytesPerDecodedBlob * 2.
Definition minXEscRun : nat := 8.
Definition maxXEscEncoded : Z := maxBytesPerDecodedBlob * 4.
Definition minAmpHRun : nat := 8.
Definition maxAmpHEncoded : Z := maxBytesPerDecodedBlob * 4.
Definition minUEscRun : nat := 8.
Definition maxUEscEncoded : Z := maxBytesPerDecodedBlob * 6.
Definition minDecSeqRun : Z := 12.
Definition maxDecSeqEncoded : Z := maxBytesPerDecodedBlob * 4.
Definition minNetbiosRun : Z := 32.
Definition maxNetbiosEncoded : Z := maxBytesPerDecodedBlob * 2.
Definition minBase32Run : Z := 32.
Definition maxBase32Encoded : Z := (maxBytesPerDecodedBlob / 5 + 1) * 8.
Definition maxReverseInput : Z := 1048576.
Definition textSample : Z := 4096.
Definition textPrintablePct : Z := 90.

(** [s[a:b]] *)
Definition slice (a b : Z) (s : string) : string := substring s (Z.to_nat a) (Z.to_nat b).
Definition upto (n : Z) (s : string) : string := string_take (Z.to_nat n) s.
Definition from (n : Z) (s : string) : string := string_drop (Z.to_nat n) s.
(** [if len(s) > n { s = s[:k] }] *)
Definition clamp_to (n k : Z) (s : string) : string := if n <? len s then upto k s else s.
Definition clamp (n : Z) (s : string) : string := clamp_to n n s.

(** ** Alphabets *)

Definition isHex (c : Ascii.ascii) : bool := hexc (byte c).
Definition isB64 (c : Ascii.ascii) : bool := letterc (byte c) || digitc (byte c) || (byte c =? 43) || (byte c =? 47).
Definition isNetbios (c : Ascii.ascii) : bool := between 65 80 (byte c).
Definition isBase32 (c : Ascii.ascii) : bool := between 65 90 (byte c) || between 50 55 (byte c).

Definition b64c : Z → bool := orc letterc (orc digitc (orc (λ r, r =? 43) (λ r, r =? 47))).
Definition base32c : Z → bool := orc (between 65 90) (between 50 55).
Definition equalsc : Z → bool := λ r, r =? 61.

Definition reBase64 : re := Cat (Rep 24 None (Cls b64c)) (Rep 0 (Some 2%nat) (Cls equalsc)).
Definition reHex : re := Rep 16 None (Cat (Cls hexc) (Cls hexc)).
Definition reXEsc : re := Rep minXEscRun None (cats [lit "\x"; Cls hexc; Cls hexc]).
Definition sepc : Z → bool := orc (λ r, r =? 44) spacec.
Definition reAmpHTok : re := cats [lit "&"; Cls (orc (λ r, r =? 72) (λ r, r =? 104)); Group 1 (Cat (Cls hexc) (Cls hexc))].
Definition reAmpH : re :=
  Rep minAmpHRun None (cats [lit "&"; Cls (orc (λ r, r =? 72) (λ r, r =? 104)); Cls hexc; Cls hexc; Star (Cls sepc)]).
Definition reUEsc : re :=
  Rep minUEscRun None (cats [Cls (orc (λ r, r =? 92) (λ r, r =? 37)); lit "u"; Cls hexc; Cls hexc; Cls hexc; Cls hexc]).
Definition digits3 : re := Rep 1 (Some 3%nat) (Cls digitc).
Definition reDecSeq : re := Cat digits3 (Rep 11 None (Cat (Cls (orc (λ r, r =? 59) (λ r, r =? 44))) digits3)).
Definition reBase32 : re := Cat (Rep 32 None (Cls base32c)) (Rep 0 (Some 6%nat) (Cls equalsc)).

(** ** Text *)

Fixpoint printable_count (s : string) : Z :=
  match s with
  | EmptyString => 0
  | String c s =>
      let b := byte c in
      printable_count s + (if (b =? 9) || (b =? 10) || (b =? 13) || between 32 126 b then 1 else 0)
  end.

Definition mostlyText (b : string) : bool :=
  let n := Z.min (len b) textSample in
  if len b =? 0 then false else n * textPrintablePct <=? printable_count (upto n b) * 100.

(** [asciiLower] *)
Definition asciiLower (c : Ascii.ascii) : Ascii.ascii := if between 65 90 (byte c) then ascii_of_Z (byte c + 32) else c.

Fixpoint prefix_fold (needle s : string) : bool :=
  match needle, s with
  | EmptyString, _ => true
  | String n needle, String c s => Ascii.eqb (asciiLower c) n && prefix_fold needle s
  | _, EmptyString => false
  end.

(** [asciiContainsFold], and [containsASCIIFold] for the lower-case needles
    the code has. *)
Fixpoint asciiContainsFold (s needle : string) : bool :=
  prefix_fold needle s || match s with EmptyString => false | String _ s => asciiContainsFold s needle end.

(** ** Base32 *)

Definition base32_val (c : Ascii.ascii) : option Z :=
  let b := byte c in
  if between 65 90 b then Some (b - 65) else if between 50 55 b then Some (b - 24) else None.

(** The bytes of two, four, five, seven or eight quintets; fewer give none. *)
Definition quantum32 (q : list Z) : list Z :=
  let d i := default 0 (q !! i) in
  let b0 := (d 0%nat * 8 + d 1%nat / 4) mod 256 in
  let b1 := (d 1%nat * 64 + d 2%nat * 2 + d 3%nat / 16) mod 256 in
  let b2 := (d 3%nat * 16 + d 4%nat / 2) mod 256 in
  let b3 := (d 4%nat * 128 + d 5%nat * 4 + d 6%nat / 8) mod 256 in
  let b4 := (d 6%nat * 32 + d 7%nat) mod 256 in
  match length q with
  | 2%nat => [b0] | 4%nat => [b0; b1] | 5%nat => [b0; b1; b2] | 7%nat => [b0; b1; b2; b3]
  | 8%nat => [b0; b1; b2; b3; b4] | _ => []
  end.

Fixpoint strip_newlines (s : string) : string :=
  match s with EmptyString => EmptyString | String c s => if newline c then strip_newlines s else String c (strip_newlines s) end.

(** [enc.decode]; [pad] is the padding byte, 61 or, without padding, the 255
    that [byte(NoPadding)] comes to. *)
Fixpoint decode32_loop (padded : bool) (q : list Z) (out : string) (s : string) : option string :=
  match s with
  | EmptyString =>
      match q with [] => Some out | _ => if padded then None else Some (out +:+ string_of_bytes (quantum32 q)) end
  | String c s =>
      let j := Z.of_nat (length q) in
      if (byte c =? (if padded then 61 else 255)) && (2 <=? j) && (len s <? 8) then
        if (len s + j <? 7) || negb (string_forallb (λ c, byte c =? (if padded then 61 else 255)) (upto (7 - j) s))
           || (j =? 3) || (j =? 6) then None
        else Some (out +:+ string_of_bytes (quantum32 q))
      else
        match base32_val c with
        | None => None
        | Some v =>
            let q := q ++ [v] in
            if (length q =? 8)%nat then decode32_loop padded [] (out +:+ string_of_bytes (quantum32 q)) s
            else decode32_loop padded q out s
        end
  end.

Definition Std32_Decode (s : string) : option string := decode32_loop true [] "" (strip_newlines s).
Definition Raw32_Decode (s : string) : option string := decode32_loop false [] "" (strip_newlines s).

(** [bytes.TrimRight(s, "=")] *)
Fixpoint trim_equals (s : string) : string :=
  match s with
  | EmptyString => EmptyString
  | String c t => if string_forallb (λ c, byte c =? 61) s then EmptyString else String c (trim_equals t)
  end.

Fixpoint equals_signs (n : nat) : string := match n with O => EmptyString | S n => String (ascii_of_Z 61) (equals_signs n) end.

Definition tryBase32 (run : string) : option string :=
  match Std32_Decode run with
  | Some dec => Some dec
  | None =>
      let run := trim_equals run in
      if negb (string_forallb (λ c, negb (newline c)) run) then
        Std32_Decode (run +:+ equals_signs (Z.to_nat ((len run + 7) / 8 * 8 - len run)))
      else if mem (len run mod 8) [1; 3; 6] then None
      else if negb (string_forallb (λ c, negb (byte c =? 255)) run) then None
      else Raw32_Decode run
  end.

Definition tryBase64 (run : string) : option string :=
  let run := clamp maxB64Encoded run in
  match Std_DecodeString run with
  | Some dec => Some dec
  | None => let s := trim_equals run in if len s mod 4 =? 1 then None else RawStd_DecodeString s
  end.

(** ** UTF-16 *)

(** [utf16.Decode]: a lone surrogate is the replacement character. *)
Fixpoint utf16_Decode (units : list Z) : list Z :=
  match units with
  | [] => []
  | u :: us =>
      match us with
      | v :: vs =>
          if between 55296 56319 u && between 56320 57343 v then ((u - 55296) * 1024 + (v - 56320) + 65536) :: utf16_Decode vs
          else (if between 55296 57343 u then RuneError else u) :: utf16_Decode us
      | [] => [if between 55296 57343 u then RuneError else u]
      end
  end.

Definition runes_string (l : list Z) : string := string_concat (encode_rune <$> l).

(** ** Scanning

    A scan returns [start], [end] and a classification; a negative start is
    the end of the input or of the time. *)
Section Decoders.
Context {S : Type} (expiredNow : D S bool).

(** At every 4096th byte. *)
Definition clock_check (i : Z) : D S bool := if i mod 4096 =? 0 then expiredNow else dret false.

(** [for end < len(src) && end-i < n && src[end] == '=' { end++ }] *)
Fixpoint count_equals (n : nat) (s : string) : Z :=
  match n, s with
  | Datatypes.S n, String c s => if byte c =? 61 then 1 + count_equals n s else 0
  | _, _ => 0
  end.

Definition nothing : Z * Z * bool := (-1, 0, false).

Definition run_end (hexMode : bool) (start i : Z) (hexOnly : bool) (rest : string) : Z * Z * bool :=
  if hexMode then (start, i - (i - start) mod 2, hexOnly)
  else let e := count_equals 2 rest in (start, i + e, hexOnly && (e =? 0)).

Fixpoint run_loop (hexMode : bool) (i start : Z) (hexOnly : bool) (rest : string) : D S (Z * Z * bool) :=
  let minimum := if hexMode then minHexRun else minBase64Run in
  stop ⟵ clock_check i ;;
  if (stop : bool) then dret nothing
  else
    match rest with
    | String c rest' =>
        if (if hexMode then isHex c else isB64 c) then
          run_loop hexMode (i + 1) (if start <? 0 then i else start) ((if start <? 0 then true else hexOnly) && isHex c) rest'
        else if (0 <=? start) && (minimum <=? i - start) then dret (run_end hexMode start i hexOnly rest)
        else run_loop hexMode (i + 1) (-1) hexOnly rest'
    | EmptyString => dret (if (0 <=? start) && (minimum <=? i - start) then run_end hexMode start i hexOnly rest else nothing)
    end.

Definition nextDecodeRunUntil (src : string) (hexMode : bool) : D S (Z * Z * bool) := run_loop hexMode 0 (-1) true src.

(** The trailing '=' of a base32 run, with the clock asked between them. *)
Fixpoint base32_end (n : nat) (i e : Z) (rest : string) : D S (option Z) :=
  match n, rest with
  | Datatypes.S n, String c rest =>
      if byte c =? 61 then
        stop ⟵ (if negb (e =? i) && (e mod 4096 =? 0) then expiredNow else dret false) ;;
        if (stop : bool) then dret None else base32_end n i (e + 1) rest
      else dret (Some e)
  | _, _ => dret (Some e)
  end.

Definition scalar_end (base32Mode : bool) (start i : Z) (distinctive : bool) (rest : string) : D S (Z * Z * bool) :=
  if base32Mode then
    e ⟵ base32_end 6 i i rest ;;
    dret (match e with Some e => (start, e, distinctive) | None => nothing end)
  else dret (start, i, distinctive).

Fixpoint scalar_loop (base32Mode : bool) (i start : Z) (distinctive : bool) (rest : string) : D S (Z * Z * bool) :=
  let minimum := if base32Mode then minBase32Run else minNetbiosRun in
  stop ⟵ clock_check i ;;
  if (stop : bool) then dret nothing
  else
    match rest with
    | String c rest' =>
        if (if base32Mode then isBase32 c else isNetbios c) then
          let distinctive := if start <? 0 then false else distinctive in
          let start := if start <? 0 then i else start in
          scalar_loop base32Mode (i + 1) start
            (distinctive || (base32Mode && (i - start <? maxBase32Encoded) && between 50 55 (byte c))) rest'
        else if (0 <=? start) && (minimum <=? i - start) then scalar_end base32Mode start i distinctive rest
        else scalar_loop base32Mode (i + 1) (-1) distinctive rest'
    | EmptyString => if (0 <=? start) && (minimum <=? i - start) then scalar_end base32Mode start i distinctive rest else dret nothing
    end.

Definition nextScalarRunUntil (src : string) (base32Mode : bool) : D S (Z * Z * bool) := scalar_loop base32Mode 0 (-1) false src.

Fixpoint decseq_loop (i start fin tokens digits : Z) (rest : string) : D S (Z * Z) :=
  stop ⟵ clock_check i ;;
  if (stop : bool) then dret (-1, 0)
  else
    match rest with
    | String c rest' =>
        if digitc (byte c) then
          if digits =? 3 then
            if minDecSeqRun <=? tokens then dret (start, fin)
            else decseq_loop (i + 1) (i - 2) (i + 1) 1 digits rest'
          else decseq_loop (i + 1) (if start <? 0 then i else start) (i + 1) (if digits =? 0 then tokens + 1 else tokens) (digits + 1) rest'
        else if ((byte c =? 44) || (byte c =? 59)) && (0 <? digits) then decseq_loop (i + 1) start fin tokens 0 rest'
        else if minDecSeqRun <=? tokens then dret (start, fin)
        else decseq_loop (i + 1) (-1) fin 0 0 rest'
    | EmptyString => dret (if minDecSeqRun <=? tokens then (start, fin) else (-1, 0))
    end.

Definition nextDecSeqRunUntil (src : string) : D S (Z * Z) := decseq_loop 0 (-1) 0 0 0 src.

(** ** Decoding

    Every decoder goes on from the end of the run it found; [fuel] is the
    length of the source, and a run is never empty. *)
Context (emit : string → D S bool).

(** What follows a run: the next one, or the decoder's answer. *)
Definition go_on : D S (option bool) := dret None.
Definition emitting (d : string) : D S (option bool) := ok ⟵ emit d ;; dret (if (ok : bool) then None else Some false).
Definition emit_opt (dec : option string) : D S (option bool) := match dec with Some d => emitting d | None => go_on end.

(** [for len(rest) > 0 { if expired { return true }; ... rest = rest[end:] }]
    around a search that yields the run to decode, if any, and its end. *)
Fixpoint runs_loop (fuel : nat) (next : string → D S (option (D S (option bool) * Z))) (rest : string) : D S bool :=
  match fuel with
  | O => dret true
  | Datatypes.S fuel =>
      if len rest =? 0 then dret true
      else
        late ⟵ expiredNow ;;
        if (late : bool) then dret true
        else
          r ⟵ next rest ;;
          match r with
          | None => dret true
          | Some (handle, e) =>
              answer ⟵ handle ;;
              match answer with None => runs_loop fuel next (from e rest) | Some b => dret b end
          end
  end.

Definition decode_runs (next : string → D S (option (D S (option bool) * Z))) (src : string) : D S bool :=
  runs_loop (String.length src) next src.

(** A run found by a scan. *)
Definition scanned_run (scan : string → D S (Z * Z * bool)) (handle : string → bool → D S (option bool)) (rest : string)
    : D S (option (D S (option bool) * Z)) :=
  r ⟵ scan rest ;;
  dret (let '(start, e, c) := r in if start <? 0 then None else Some (handle (slice start e rest) c, e)).

(** An all-hex run is left to the hex decoder. *)
Definition decodeBase64Runs : string → D S bool :=
  decode_runs (scanned_run (λ rest, nextDecodeRunUntil rest false) (λ run hexOnly, if hexOnly : bool then go_on else emit_opt (tryBase64 run))).

Definition decodeHexRuns : string → D S bool :=
  decode_runs (scanned_run (λ rest, nextDecodeRunUntil rest true) (λ run _, emit_opt (hex_decode (clamp maxHexEncoded run)))).

(** A run found by a regular expression. *)
Definition regexp_run (r : re) (handle : string → D S (option bool)) (rest : string) : D S (option (D S (option bool) * Z)) :=
  dret (match FindIndex r rest with
        | None => None
        | Some (a, b) => Some (handle (substring rest a b), Z.of_nat b)
        end).

(** The [switch] over one hexadecimal digit; other bytes leave 0. *)
Definition nibble (c : Ascii.ascii) : Z := default 0 (hex_val c).

Fixpoint xesc_bytes (s : string) : string :=
  match s with
  | String _ (String _ (String hi (String lo s))) => String (ascii_of_Z (nibble hi * 16 + nibble lo)) (xesc_bytes s)
  | _ => EmptyString
  end.

Definition decodeXEscRuns : string → D S bool :=
  decode_runs (regexp_run reXEsc (λ run, emitting (xesc_bytes (clamp_to maxXEscEncoded (maxXEscEncoded - maxXEscEncoded mod 4) run)))).

Definition amph_byte (run : string) (tok : Found) : Ascii.ascii :=
  match submatch run tok 1 with String hi (String lo _) => ascii_of_Z (nibble hi * 16 + nibble lo) | _ => Ascii.zero end.

Definition decodeAmpHRuns : string → D S bool :=
  decode_runs (regexp_run reAmpH (λ run,
    let run := clamp maxAmpHEncoded run in
    match FindAll reAmpHTok run None with
    | [] => go_on
    | toks => emitting (string_concat ((λ tok, String (amph_byte run tok) EmptyString) <$> toks))
    end)).

(** [hexByte]: any other byte counts from 'A', at 16 bits. *)
Definition hexByte (c : Ascii.ascii) : Z := default ((byte c - 65) mod 256 + 10) (hex_val c).

Fixpoint uesc_units (s : string) : list Z :=
  match s with
  | String _ (String _ (String h3 (String h2 (String h1 (String h0 s))))) =>
      ((hexByte h3 * 4096 + hexByte h2 * 256 + hexByte h1 * 16 + hexByte h0) mod 65536) :: uesc_units s
  | _ => []
  end.

Definition decodeUEscRuns : string → D S bool :=
  decode_runs (regexp_run reUEsc (λ run,
    match uesc_units (clamp_to maxUEscEncoded (maxUEscEncoded - maxUEscEncoded mod 6) run) with
    | [] => go_on
    | units => emitting (runes_string (utf16_Decode units))
    end)).

(** The capped candidate, cut back to its last separator. *)
Fixpoint last_separator (i best : Z) (s : string) : Z :=
  match s with
  | EmptyString => best
  | String c s => last_separator (i + 1) (if (byte c =? 44) || (byte c =? 59) then i else best) s
  end.

Definition decseq_candidate (run : string) : string :=
  if maxDecSeqEncoded <? len run then
    let run := upto maxDecSeqEncoded run in
    let i := last_separator 0 (-1) run in
    if 0 <=? i then upto i run else run
  else run.

(** The byte values of a candidate: [None] out of time, [Some None] invalid. *)
Fixpoint decseq_parse (i n : Z) (sep : option Ascii.ascii) (dec : list Z) (run : string) : D S (option (option (list Z))) :=
  stop ⟵ clock_check i ;;
  if (stop : bool) then dret None
  else
    match run with
    | EmptyString => dret (Some (if 255 <? n then None else Some (dec ++ [n])))
    | String c run' =>
        if digitc (byte c) then decseq_parse (i + 1) (n * 10 + (byte c - 48)) sep dec run'
        else if 255 <? n then dret (Some None)
        else
          match sep with
          | None => decseq_parse (i + 1) 0 (Some c) (dec ++ [n]) run'
          | Some x => if Ascii.eqb c x then decseq_parse (i + 1) 0 sep (dec ++ [n]) run' else dret (Some None)
          end
    end.

Definition decseq_handle (run : string) : D S (option bool) :=
  r ⟵ decseq_parse 0 0 None [] (decseq_candidate run) ;;
  match r with
  | None => dret (Some true)
  | Some None => go_on
  | Some (Some dec) => if minDecSeqRun <=? Z.of_nat (length dec) then emitting (string_of_bytes dec) else go_on
  end.

Definition decodeDecSeqRuns : string → D S bool :=
  decode_runs (scanned_run (λ rest, r ⟵ nextDecSeqRunUntil rest ;; dret (r.1, r.2, false)) (λ run _, decseq_handle run)).

(** [Some None] is a byte that is not of the alphabet. *)
Fixpoint netbios_bytes (i : Z) (dec : string) (run : string) : D S (option (option string)) :=
  match run with
  | String a (String b run) =>
      stop ⟵ clock_check i ;;
      if (stop : bool) then dret None
      else
        let hi := (byte a - 65) mod 256 in
        let lo := (byte b - 65) mod 256 in
        if (15 <? hi) || (15 <? lo) then dret (Some None)
        else netbios_bytes (i + 2) (dec +:+ String (ascii_of_Z (hi * 16 + lo)) EmptyString) run
  | _ => dret (Some (Some dec))
  end.

Definition hasContainerMagic (b : string) : bool :=
  match b with
  | String b0 (String b1 t) =>
      ((byte b0 =? 80) && (byte b1 =? 75)) || ((byte b0 =? 208) && (byte b1 =? 207)) || ((byte b0 =? 77) && (byte b1 =? 90))
      || match t with
         | String b2 (String b3 _) => (byte b0 =? 37) && (byte b1 =? 80) && (byte b2 =? 68) && (byte b3 =? 70)
         | _ => false
         end
  | _ => false
  end.

Definition netbios_handle (run : string) : D S (option bool) :=
  let run := clamp maxNetbiosEncoded run in
  let run := if negb (len run mod 2 =? 0) then upto (len run - 1) run else run in
  r ⟵ netbios_bytes 0 "" run ;;
  match r with
  | None => dret (Some true)
  | Some None => go_on
  | Some (Some dec) => if mostlyText dec || hasContainerMagic dec then emitting dec else go_on
  end.

Definition decodeNetbiosRuns : string → D S bool :=
  decode_runs (scanned_run (λ rest, nextScalarRunUntil rest false) (λ run _, netbios_handle run)).

Definition decodeBase32Runs : string → D S bool :=
  decode_runs (scanned_run (λ rest, nextScalarRunUntil rest true)
    (λ run distinctive, if negb (distinctive : bool) then go_on
                        else emit_opt (tryBase32 (clamp_to maxBase32Encoded (maxBase32Encoded - maxBase32Encoded mod 8) run)))).

(** ** Reversed text *)

Definition reversedMarkers : list string :=
  ["llehsrewop"; "llehs.tpircsw"; "tcejboetaerc"; "exe.dmc"; "elifotevas"; "ptthnwod"].

Definition emitReversed (src : string) : D S bool :=
  if (len src =? 0) || (maxReverseInput <? len src) then dret true
  else if negb (existsb (asciiContainsFold src) reversedMarkers) then dret true
  else emit (string_rev EmptyString src).

End Decoders.

(** ** Reference runs *)

Definition untimed {S} : D S bool := dret false.
Definition collecting (b : string) : D (list string) bool := λ l, (true, l ++ [b]).
Definition offered (dec : D (list string) bool → (string → D (list string) bool) → string → D (list string) bool) (src : string) : list string :=
  (dec untimed collecting src []).2.

Example base64_offered : offered decodeBase64Runs "x = 'cG93ZXJzaGVsbCAtZW5jIGhlbGxv' + y" = ["powershell -enc hello"].
Proof. vm_compute. reflexivity. Qed.
Example hex_offered : offered decodeHexRuns "706f7765727368656c6c202d656e632068656c6c6f0" = ["powershell -enc hello"].
Proof. vm_compute. reflexivity. Qed.
Example xesc_offered : offered decodeXEscRuns "\x68\x74\x74\x70\x3a\x2f\x2f\x61" = ["http://a"].
Proof. vm_compute. reflexivity. Qed.
Example amph_offered : offered decodeAmpHRuns "&H68,&H74, &H74 &H70&H3a&H2f&H2f&H61;" = ["http://a"].
Proof. vm_compute. reflexivity. Qed.
Example uesc_offered : offered decodeUEscRuns "%u0068\u0074\u0074\u0070\u003a\u002f\u002f\u0061" = ["http://a"].
Proof. vm_compute. reflexivity. Qed.
Example decseq_offered : offered decodeDecSeqRuns "1104,116,116,112,58,47,47,97,98,99,100,101,10299" = ["http://abcdef"].
Proof. vm_compute. reflexivity. Qed.
Example netbios_offered : offered decodeNetbiosRuns "FAEMGBHJGJGOGHCAHEGIGFCAHDGBGNGF!" = ["PLaying the same"].
Proof. vm_compute. reflexivity. Qed.
Example base32_offered : offered decodeBase32Runs "ONSWG4TFOQQHA33XMVZHG2DFNRWCA3DP" = ["secret powershell lo"].
Proof. vm_compute. reflexivity. Qed.
