(* ===== verification/DecodeRegexp.v ===== *)
(** * The scans are the regular expressions

    The scalar scans of decode.go replaced regular expressions; here they find
    the same runs. *)

From Stdlib Require Import ZArith Lia.
From Stdlib Require Ascii String.
From stdpp Require Import base gmap strings list numbers.
From S2P Require Import Prelude GoStd GoText Base64 GoRegexp DecodeRuns.

Local Open Scope Z_scope.
Local Open Scope mailstrix_scope.

Lemma clock_check_untimed {S} i : clock_check (S := S) untimed i = untimed.
Proof. unfold clock_check. by destruct (i mod 4096 =? 0). Qed.

Lemma dbind_untimed {S A} (f : bool → D S A) : dbind untimed f = f false.
Proof. done. Qed.

(** ** Text of a run *)

Lemma string_forallb_take f n : ∀ s, string_forallb f s = true → string_forallb f (string_take n s) = true.
Proof. induction n as [|n IH]; intros [|c s]; cbn; [done|done|done|]. intros [Hc Hs]%andb_true_iff. rewrite Hc. by apply IH. Qed.

Lemma string_take_plus n k : ∀ s, string_take (n + k) s = string_take n s +:+ string_take k (string_drop n s).
Proof. intros s. apply string_take_split. Qed.

(** [=]: not a letter of any alphabet. *)
Lemma count_equals_spec n : ∀ s, count_equals n s = Z.of_nat (count (first_is equalsc) 1 n s).
Proof.
  induction n as [|n IH]; intros [|c s]; [done|done|done|]. cbn [count_equals count first_is]. unfold equalsc at 1.
  destruct (byte c =? 61); [|done]. rewrite IH. cbn [string_drop]. lia.
Qed.

Lemma equals_not_hex k : ∀ s, (0 < count (first_is equalsc) 1 k s)%nat → string_forallb isHex (string_take (count (first_is equalsc) 1 k s) s) = false.
Proof.
  destruct k as [|k]; intros [|c s] Hc; cbn [count first_is] in *; try lia. unfold equalsc in *. destruct (Z.eqb_spec (byte c) 61) as [Hb|]; [|lia].
  cbn [string_take string_forallb]. unfold isHex. by rewrite Hb.
Qed.

(** ** Scanning for the first long run

    Both scans walk over the bytes once, with a classification that starts
    anew with every run. *)
Section Scan.
Context (cls : Z → bool) (minimum : nat) (h0 : bool) (upd : Z → bool → Ascii.ascii → bool) (fin : Z → Z → bool → string → Z * Z * bool).

Fixpoint scan_loop (i start : Z) (h : bool) (s : string) : Z * Z * bool :=
  match s with
  | EmptyString => if (0 <=? start) && (Z.of_nat minimum <=? i - start) then fin start i h EmptyString else nothing
  | String c t =>
      if cls (byte c) then
        let h := if start <? 0 then h0 else h in
        let start := if start <? 0 then i else start in
        scan_loop (i + 1) start (upd (i - start) h c) t
      else if (0 <=? start) && (Z.of_nat minimum <=? i - start) then fin start i h s
      else scan_loop (i + 1) (-1) h t
  end.

(** The classification of the first [q] bytes. *)
Fixpoint classify (off : Z) (h : bool) (q : nat) (s : string) : bool :=
  match q, s with S q, String c t => classify (off + 1) (upd off h c) q t | _, _ => h end.

Hypothesis (Hmin : (minimum ≠ 0)%nat).

(** Before a run, the classification does not matter. *)
Lemma scan_fresh s : ∀ i h h', scan_loop i (-1) h s = scan_loop i (-1) h' s.
Proof. induction s as [|c t IH]; intros i h h'; [done|]. cbn. case_match; [done|apply IH]. Qed.

(** Inside a run. *)
Lemma scan_in_run s : ∀ i start h, 0 <= start →
  let q := span cls s in
  scan_loop i start h s =
    if Z.of_nat minimum <=? i + Z.of_nat q - start
    then fin start (i + Z.of_nat q) (classify (i - start) h q s) (string_drop q s)
    else match string_drop q s with EmptyString => nothing | String _ t => scan_loop (i + Z.of_nat q + 1) (-1) true t end.
Proof.
  induction s as [|c t IH]; intros i start h Hs q; cbn [scan_loop]; subst q.
  - rewrite (proj2 (Z.leb_le 0 start)) by done. cbn [andb]. rewrite span_nil, Z.add_0_r. done.
  - rewrite span_cons. destruct (cls (byte c)) eqn:Hc.
    + destruct (Z.ltb_spec start 0); [lia|]. rewrite IH by done. cbn [classify string_drop].
      replace (i + 1 + Z.of_nat (span cls t)) with (i + Z.of_nat (S (span cls t))) by lia. by replace (i + 1 - start) with (i - start + 1) by lia.
    + rewrite (proj2 (Z.leb_le 0 start)) by done. cbn [andb string_drop classify]. rewrite Z.add_0_r. case_match; [done|]. apply scan_fresh.
Qed.

Lemma scan_first_run n : ∀ s (i : nat) h, (String.length s <= n)%nat →
  scan_loop (Z.of_nat i) (-1) h s =
  match first_run cls minimum i s with
  | Some (a, q) => fin (Z.of_nat a) (Z.of_nat (a + q)) (classify 0 h0 q (string_drop (a - i) s)) (string_drop (q + (a - i)) s)
  | None => nothing
  end.
Proof.
  induction n as [|n IH]; intros [|c t] i h Hn; cbn in Hn; cbn [scan_loop]; [|lia| |].
  1-2: cbn [first_run]; rewrite span_nil; by destruct minimum.
  destruct (cls (byte c)) eqn:Hc.
  - change (-1 <? 0) with true. cbn iota zeta. rewrite Z.sub_diag.
    pose proof (scan_in_run t (Z.of_nat i + 1) (Z.of_nat i) (upd 0 h0 c) ltac:(lia)) as Hrun. cbv zeta in Hrun.
    rewrite Hrun. clear Hrun. assert (span cls (String c t) = S (span cls t)) as Hq by by rewrite span_cons, Hc.
    replace (Z.of_nat i + 1 + Z.of_nat (span cls t) - Z.of_nat i) with (Z.of_nat (span cls (String c t))) by lia.
    destruct (Z.leb_spec (Z.of_nat minimum) (Z.of_nat (span cls (String c t)))) as [Hl|Hl].
    + cbn [first_run]. destruct (Nat.leb_spec minimum (span cls (String c t))); [|lia]. rewrite Nat.sub_diag, Nat.add_0_r, Hq. cbn [string_drop classify].
      f_equal; [lia|]. f_equal. lia.
    + rewrite (first_run_skip _ _ (span cls (String c t))) by lia. pose proof (span_drop cls (String c t)) as Hend.
      replace (string_drop (span cls t) t) with (string_drop (span cls (String c t)) (String c t)) by by rewrite Hq.
      set (q := span cls (String c t)) in *. destruct (string_drop q (String c t)) as [|d u] eqn:Hd.
      { cbn [first_run]. rewrite span_nil. by destruct minimum. }
      assert (String.length u < String.length (String c t))%nat as Hu.
      { pose proof (string_drop_length q (String c t)) as Hx. rewrite Hd in Hx. cbn in Hx |- *. lia. }
      replace (Z.of_nat i + 1 + Z.of_nat (span cls t) + 1) with (Z.of_nat (i + q + 1)) by lia. rewrite IH by (cbn in Hu; lia).
      cbn [first_run]. rewrite span_cons. cbn [first_is] in Hend. rewrite Hend. destruct (Nat.leb_spec minimum 0); [lia|].
      replace (S (i + q)) with (i + q + 1)%nat by lia. destruct (first_run cls minimum (i + q + 1) u) as [[a k]|] eqn:Hr; [|done].
      apply first_run_ge in Hr as [Ha _]. f_equal.
      * replace (a - i)%nat with (q + S (a - (i + q + 1)))%nat by lia. rewrite <- (string_drop_drop _ q (String c t)), Hd. done.
      * replace (k + (a - i))%nat with (q + S (k + (a - (i + q + 1))))%nat by lia. rewrite <- (string_drop_drop _ q (String c t)), Hd. done.
  - change (0 <=? -1) with false. cbn [andb]. replace (Z.of_nat i + 1) with (Z.of_nat (S i)) by lia. rewrite IH by lia.
    cbn [first_run]. rewrite span_cons, Hc. destruct (Nat.leb_spec minimum 0); [lia|].
    destruct (first_run cls minimum (S i) t) as [[a k]|] eqn:Hr; [|done]. apply first_run_ge in Hr as [Ha _].
    replace (a - i)%nat with (S (a - S i)) by lia. cbn [string_drop]. by rewrite Nat.add_succ_r.
Qed.

End Scan.

(** ** [nextDecodeRunUntil] and [nextScalarRunUntil] *)

Definition run_class (hexMode : bool) : Z → bool := if hexMode then hexc else b64c.
Definition run_minimum (hexMode : bool) : nat := if hexMode then 32%nat else 24%nat.
Definition scalar_class (base32Mode : bool) : Z → bool := if base32Mode then base32c else between 65 80.

Lemma run_class_spec (hexMode : bool) c : (if hexMode then isHex c else isB64 c) = run_class hexMode (byte c).
Proof. destruct hexMode; [done|]. unfold isB64, run_class, b64c, orc. by rewrite <- !orb_assoc. Qed.

Lemma run_loop_scan {S} hexMode s : ∀ i start h (st : S),
  run_loop untimed hexMode i start h s st = (scan_loop (run_class hexMode) (run_minimum hexMode) true (λ _ h c, h && isHex c) (run_end hexMode) i start h s, st).
Proof.
  assert ((if hexMode then minHexRun else minBase64Run) = Z.of_nat (run_minimum hexMode)) as Hmin by by destruct hexMode.
  induction s as [|c t IH]; intros i start h st; cbn [run_loop scan_loop]; rewrite clock_check_untimed, dbind_untimed, Hmin; cbn iota; [done|].
  rewrite run_class_spec. destruct (run_class hexMode (byte c)); [apply IH|]. destruct ((0 <=? start) && _); [done|apply IH].
Qed.

Definition scalar_fin (base32Mode : bool) (start i : Z) (d : bool) (rest : string) : Z * Z * bool :=
  (start, i + (if base32Mode then count_equals 6 rest else 0), d).

Definition distinct_upd (base32Mode : bool) (off : Z) (d : bool) (c : Ascii.ascii) : bool :=
  d || (base32Mode && (off <? maxBase32Encoded) && between 50 55 (byte c)).

Lemma base32_end_untimed {S} n : ∀ rest i e (st : S), base32_end untimed n i e rest st = (Some (e + count_equals n rest), st).
Proof.
  induction n as [|n IH]; intros [|c rest] i e st; cbn [base32_end count_equals]; rewrite ?Z.add_0_r; [done..|].
  destruct (byte c =? 61); [|by rewrite Z.add_0_r]. assert (∀ b : bool, (if b then untimed else dret false) = untimed (S := S)) as Hb by by intros [].
  rewrite Hb, dbind_untimed. cbn iota. rewrite IH. do 2 f_equal. lia.
Qed.

Lemma scalar_end_untimed {S} base32Mode start i d rest (st : S) : scalar_end untimed base32Mode start i d rest st = (scalar_fin base32Mode start i d rest, st).
Proof. unfold scalar_end, scalar_fin. destruct base32Mode; [|by rewrite Z.add_0_r]. unfold dbind. by rewrite base32_end_untimed. Qed.

Lemma scalar_loop_scan {S} base32Mode s : ∀ i start d (st : S),
  scalar_loop untimed base32Mode i start d s st = (scan_loop (scalar_class base32Mode) 32 false (distinct_upd base32Mode) (scalar_fin base32Mode) i start d s, st).
Proof.
  assert ((if base32Mode then minBase32Run else minNetbiosRun) = Z.of_nat 32) as Hmin by by destruct base32Mode.
  induction s as [|c t IH]; intros i start d st; cbn [scalar_loop scan_loop]; rewrite clock_check_untimed, dbind_untimed, Hmin; cbn iota.
  - destruct ((0 <=? start) && _); [apply scalar_end_untimed|done].
  - replace (if base32Mode then isBase32 c else isNetbios c) with (scalar_class base32Mode (byte c)) by by destruct base32Mode.
    destruct (scalar_class base32Mode (byte c)); [apply IH|]. destruct ((0 <=? start) && _); [apply scalar_end_untimed|apply IH].
Qed.

Lemma ascii_hexc : ascii_class hexc.
Proof. intros r. unfold hexc, orc, digitc, between. intros H. repeat (apply orb_true_iff in H as [H|H]); bool_hyps; lia. Qed.

Lemma ascii_b64c : ascii_class b64c.
Proof. intros r. unfold b64c, orc, letterc, digitc, orc, between. intros H. repeat (apply orb_true_iff in H as [H|H]); bool_hyps; lia. Qed.

Lemma ascii_base32c : ascii_class base32c.
Proof. intros r. unfold base32c, orc, between. intros H. repeat (apply orb_true_iff in H as [H|H]); bool_hyps; lia. Qed.

Lemma ascii_equalsc : ascii_class equalsc.
Proof. intros r. unfold equalsc. intros H. bool_hyps. lia. Qed.

Lemma string_forallb_class f n s : (n <= span f s)%nat → string_forallb (λ c, f (byte c)) (string_take n s) = true.
Proof.
  revert n. induction s as [|c s IH]; intros [|n] Hn; [done|done|done|]. rewrite span_cons in Hn. cbn. destruct (f (byte c)); [|lia]. apply IH. lia.
Qed.

(** The answer of a scan for a match. *)
Definition found_run (src : string) (loc : option (nat * nat)) : Z * Z * bool :=
  match loc with None => nothing | Some (a, b) => (Z.of_nat a, Z.of_nat b, string_forallb isHex (substring src a b)) end.

Lemma FindIndex_base64 src : FindIndex reBase64 src
  = (λ '(a, q), (a, a + q + count (first_is equalsc) 1 2 (string_drop (q + a) src))%nat) <$> first_run b64c 24 0 src.
Proof.
  rewrite FindIndex_bytes.
  - unfold reBase64. rewrite (find_run b64c equalsc 24 2 src ascii_b64c eq_refl ascii_equalsc eq_refl ltac:(lia)).
    destruct (first_run b64c 24 0 src) as [[a q]|]; [|done]. cbn [fmap option_fmap option_map]. by rewrite Nat.sub_0_r.
  - apply (ascii_start_rep (Cls b64c) (first_is b64c) 1 24); [|apply first_is_length|lia|lia|].
    + intros A. by apply steps_by_cls; [apply ascii_b64c|].
    + intros c t. apply first_is_high, ascii_b64c.
Qed.

Lemma FindIndex_hex src : FindIndex reHex src = (λ '(a, q), (a, a + q / 2 * 2)%nat) <$> first_run hexc 32 0 src.
Proof.
  rewrite FindIndex_bytes.
  - apply (find_pairs hexc 16 src ascii_hexc eq_refl). lia.
  - apply (ascii_start_rep (Cat (Cls hexc) (Cls hexc)) (pair_is hexc) 2 16 Empty); [|apply pair_is_length|lia|lia|].
    + intros A. apply (steps_by_cat (Cls hexc) (Cls hexc) (first_is hexc) (first_is hexc) 1 1); apply steps_by_cls; first [apply ascii_hexc|done].
    + intros c t Hc. unfold pair_is. by rewrite first_is_high by (done || apply ascii_hexc).
Qed.

Lemma classify_all q : ∀ off h s, classify (λ _ h c, h && isHex c) off h q s = h && string_forallb isHex (string_take q s).
Proof. induction q as [|q IH]; intros off h [|c s]; cbn; rewrite ?andb_true_r; [done..|]. by rewrite IH, andb_assoc. Qed.

(** The scans of the base64 and hex decoders. *)
Lemma nextDecodeRun_regexp {S} (hexMode : bool) src (st : S) :
  nextDecodeRunUntil untimed src hexMode st = (found_run src (FindIndex (if hexMode then reHex else reBase64) src), st).
Proof.
  unfold nextDecodeRunUntil. rewrite run_loop_scan. f_equal. change 0 with (Z.of_nat 0).
  assert (run_minimum hexMode ≠ 0%nat) as Hmin by by destruct hexMode. rewrite (scan_first_run _ _ _ _ _ Hmin _ _ _ _ (le_n _)). clear Hmin. destruct hexMode.
  - rewrite FindIndex_hex. cbn [run_class run_minimum]. destruct (first_run hexc 32 0 src) as [[a q]|] eqn:Hr; [|done]. cbn [fmap option_fmap option_map found_run]. unfold run_end.
    destruct (first_run_spec _ _ _ _ _ _ Hr) as (_ & Hspan). rewrite Nat.sub_0_r in *. f_equal; [f_equal|].
    + pose proof (Nat.div_mod_eq q 2). assert (Z.of_nat (q mod 2) = Z.of_nat q mod 2) by (rewrite Nat2Z.inj_mod; done).
      replace (Z.of_nat (a + q) - Z.of_nat a) with (Z.of_nat q) by lia. lia.
    + rewrite classify_all. unfold substring. replace (a + q / 2 * 2 - a)%nat with (q / 2 * 2)%nat by lia.
      transitivity true; [|symmetry]; apply (string_forallb_class hexc); rewrite Hspan; [lia|]. pose proof (Nat.div_mod_eq q 2). lia.
  - rewrite FindIndex_base64. cbn [run_class run_minimum]. destruct (first_run b64c 24 0 src) as [[a q]|] eqn:Hr; [|done].
    rewrite Nat.sub_0_r. cbn [fmap option_fmap option_map found_run]. unfold run_end. rewrite classify_all, count_equals_spec. set (e := count _ 1 2 _).
    f_equal; [f_equal; lia|]. unfold substring. replace (a + q + e - a)%nat with (q + e)%nat by lia. rewrite string_take_plus, string_forallb_app, string_drop_drop.
    f_equal. rewrite (Nat.add_comm a q). destruct (Nat.eq_dec e 0%nat) as [->|He]; [done|]. destruct (Z.eqb_spec (Z.of_nat e) 0); [lia|].
    symmetry. apply equals_not_hex. fold e. lia.
Qed.

(** ** Base32 *)

Lemma FindIndex_base32 src : FindIndex reBase32 src
  = (λ '(a, q), (a, a + q + count (first_is equalsc) 1 6 (string_drop (q + a) src))%nat) <$> first_run base32c 32 0 src.
Proof.
  rewrite FindIndex_bytes.
  - unfold reBase32. rewrite (find_run base32c equalsc 32 6 src ascii_base32c eq_refl ascii_equalsc eq_refl ltac:(lia)).
    destruct (first_run base32c 32 0 src) as [[a q]|]; [|done]. cbn [fmap option_fmap option_map]. by rewrite Nat.sub_0_r.
  - apply (ascii_start_rep (Cls base32c) (first_is base32c) 1 32); [|apply first_is_length|lia|lia|].
    + intros A. by apply steps_by_cls; [apply ascii_base32c|].
    + intros c t. apply first_is_high, ascii_base32c.
Qed.

(** The expression [decodeNetbiosRuns] had (decode_scalar_test.go keeps it). *)
Definition reNetbios : re := Rep 32 None (Cls (between 65 80)).

Lemma ascii_netbios : ascii_class (between 65 80).
Proof. intros r. unfold between. lia. Qed.

Lemma find_bytes_ext r r' : (∀ p, m r p Some = m r' p Some) → ∀ s i bol, find_bytes r i bol s = find_bytes r' i bol s.
Proof. intros Hr. induction s as [|c t IH]; intros i bol; cbn [find_bytes]; rewrite Hr; [done|]. by rewrite IH. Qed.

Lemma FindIndex_netbios src : FindIndex reNetbios src = (λ '(a, q), (a, a + q)%nat) <$> first_run (between 65 80) 32 0 src.
Proof.
  rewrite FindIndex_bytes.
  - rewrite (find_bytes_ext _ (Cat (Rep 32 None (Cls (between 65 80))) (Rep 0 (Some 0%nat) (Cls equalsc)))) by done.
    rewrite (find_run (between 65 80) equalsc 32 0 src ascii_netbios eq_refl ascii_equalsc eq_refl ltac:(lia)).
    destruct (first_run (between 65 80) 32 0 src) as [[a q]|]; [|done]. cbn. by rewrite Nat.add_0_r.
  - apply (ascii_start_rep (Cls (between 65 80)) (first_is (between 65 80)) 1 32 Empty); [|apply first_is_length|lia|lia|].
    + intros A. by apply steps_by_cls; [apply ascii_netbios|].
    + intros c t. apply first_is_high, ascii_netbios.
Qed.

Lemma trim_equals_all s : string_forallb (λ c, byte c =? 61) s = true → trim_equals s = EmptyString.
Proof. destruct s as [|c s]; [done|]. intros H. cbn [trim_equals]. by rewrite H. Qed.

Lemma trim_equals_app (f : Ascii.ascii → bool) u v : string_forallb (λ c, byte c =? 61) v = true → (∀ c, f c = true → (byte c =? 61) = false) →
  string_forallb f u = true → trim_equals (u +:+ v) = u.
Proof.
  intros Hv Hf. induction u as [|c u IH]; [intros _; by apply trim_equals_all|]. rewrite string_cons_app. cbn [string_forallb]. intros [Hc Hu]%andb_true_iff.
  cbn [trim_equals string_forallb]. rewrite (Hf c Hc). cbn [andb]. by rewrite IH.
Qed.

(** A digit among the bytes that will be decoded. *)
Definition distinctive (run : string) : bool :=
  negb (string_forallb (λ c, negb (between 50 55 (byte c))) (string_take (Z.to_nat maxBase32Encoded) run)).

Lemma classify_distinct q : ∀ (off : nat) d s, classify (distinct_upd true) (Z.of_nat off) d q s
  = d || negb (string_forallb (λ c, negb (between 50 55 (byte c))) (string_take (Z.to_nat maxBase32Encoded - off) (string_take q s))).
Proof.
  induction q as [|q IH]; intros off d [|c s]; cbn [classify string_take]; try (destruct (_ - _)%nat; cbn; by rewrite orb_false_r).
  replace (Z.of_nat off + 1) with (Z.of_nat (S off)) by lia. rewrite IH. unfold distinct_upd. cbn [andb]. rewrite <- orb_assoc. f_equal.
  destruct (Z.ltb_spec (Z.of_nat off) maxBase32Encoded) as [Hl|Hl].
  - replace (Z.to_nat maxBase32Encoded - off)%nat with (S (Z.to_nat maxBase32Encoded - S off)) by lia.
    cbn [string_take string_forallb andb]. by rewrite negb_andb, negb_involutive.
  - replace (Z.to_nat maxBase32Encoded - off)%nat with 0%nat by lia. by replace (Z.to_nat maxBase32Encoded - S off)%nat with 0%nat by lia.
Qed.

Lemma nextScalarRun_regexp {S} src (st : S) :
  nextScalarRunUntil untimed src true st =
  (match FindIndex reBase32 src with
   | None => nothing
   | Some (a, b) => (Z.of_nat a, Z.of_nat b, distinctive (trim_equals (substring src a b)))
   end, st).
Proof.
  unfold nextScalarRunUntil. rewrite scalar_loop_scan. f_equal. change 0 with (Z.of_nat 0).
  rewrite (scan_first_run _ 32 _ _ _ ltac:(done) _ _ _ _ (le_n _)), FindIndex_base32. cbn [scalar_class].
  destruct (first_run base32c 32 0 src) as [[a q]|] eqn:Hr; [|done]. rewrite Nat.sub_0_r. cbn [fmap option_fmap option_map]. unfold scalar_fin.
  rewrite count_equals_spec. set (e := count _ 1 6 _). destruct (first_run_spec _ _ _ _ _ _ Hr) as (_ & Hspan). rewrite Nat.sub_0_r in Hspan.
  f_equal; [f_equal; lia|]. change 0 with (Z.of_nat 0). rewrite classify_distinct. cbn [orb]. rewrite Nat.sub_0_r. unfold distinctive. do 3 f_equal.
  unfold substring. replace (a + q + e - a)%nat with (q + e)%nat by lia. rewrite string_take_plus, string_drop_drop, (Nat.add_comm a q).
  symmetry. apply (trim_equals_app (λ c, base32c (byte c))).
  - subst e. clear Hspan Hr. generalize (string_drop (q + a) src) as s. generalize 6%nat as k.
    induction k as [|k IH]; intros [|c s]; cbn [count first_is]; try done. unfold equalsc at 1 2. destruct (byte c =? 61) eqn:Hc; [|done].
    cbn [string_take string_forallb string_drop]. rewrite Hc. apply IH.
  - intros c Hc. destruct (Z.eqb_spec (byte c) 61) as [E|]; [|done]. rewrite E in Hc. done.
  - apply (string_forallb_class base32c). lia.
Qed.

Lemma classify_netbios q : ∀ off s, classify (distinct_upd false) off false q s = false.
Proof. induction q as [|q IH]; intros off [|c s]; cbn [classify]; [done..|]. apply IH. Qed.

Lemma nextNetbiosRun_regexp {S} src (st : S) :
  nextScalarRunUntil untimed src false st =
  (match FindIndex reNetbios src with None => nothing | Some (a, b) => (Z.of_nat a, Z.of_nat b, false) end, st).
Proof.
  unfold nextScalarRunUntil. rewrite scalar_loop_scan. f_equal. change 0 with (Z.of_nat 0).
  rewrite (scan_first_run _ 32 _ _ _ ltac:(done) _ _ _ _ (le_n _)), FindIndex_netbios. cbn [scalar_class].
  destruct (first_run (between 65 80) 32 0 src) as [[a q]|]; [|done]. cbn [fmap option_fmap option_map]. unfold scalar_fin.
  by rewrite Z.add_0_r, classify_netbios.
Qed.

(** ** Decimal sequences

    What a match that began earlier comes to: [k] tokens so far, the current
    one with [j] digits (none right after a separator), the last ended at
    [e]. *)
Definition isSep (b : Z) : bool := (b =? 44) || (b =? 59).

Fixpoint cont (k j e i : Z) (s : string) : option Z :=
  match s with
  | String c t =>
      if digitc (byte c) then
        if j =? 3 then (if minDecSeqRun <=? k then Some e else None)
        else cont (if j =? 0 then k + 1 else k) (j + 1) (i + 1) (i + 1) t
      else if isSep (byte c) && (0 <? j) then cont k 0 e (i + 1) t
      else if minDecSeqRun <=? k then Some e else None
  | EmptyString => if minDecSeqRun <=? k then Some e else None
  end.

(** The first start from which a match succeeds. *)
Fixpoint first_cont (i : Z) (s : string) : option (Z * Z) :=
  match cont 0 0 0 i s with
  | Some e => Some (i, e)
  | None => match s with EmptyString => None | String _ t => first_cont (i + 1) t end
  end.

(** Fewer tokens never help. *)
Lemma cont_fewer s : ∀ k k' j e e' i, k' <= k → cont k j e i s = None → cont k' j e' i s = None.
Proof.
  induction s as [|c t IH]; intros k k' j e e' i Hk; cbn [cont].
  - destruct (Z.leb_spec minDecSeqRun k), (Z.leb_spec minDecSeqRun k'); done || lia.
  - repeat case_match; bool_hyps; try done; try lia; apply IH; lia.
Qed.

Definition orelse {A} (a b : option A) : option A := match a with Some x => Some x | None => b end.

(** The starts inside the current number, which has [j] digits. *)
Definition inner (j i : Z) (s : string) : option (Z * Z) :=
  orelse (if 3 <=? j then pair (i - 2) <$> cont 1 2 i i s else None) (if 2 <=? j then pair (i - 1) <$> cont 1 1 i i s else None).

Definition settled (o : option (Z * Z)) : Z * Z := default (-1, 0) o.

Lemma cont_end k j e i : cont k j e i EmptyString = if minDecSeqRun <=? k then Some e else None.
Proof. done. Qed.

Lemma first_cont_cons i c t : first_cont i (String c t) = orelse (pair i <$> cont 0 0 0 i (String c t)) (first_cont (i + 1) t).
Proof. cbn [first_cont]. by destruct (cont 0 0 0 i (String c t)). Qed.

Lemma decseq_loop_spec {S} s : ∀ i start e k j (st : S), 0 <= i → 0 <= j <= 3 →
  (if start <? 0 then k = 0 ∧ j = 0 else 1 <= k ∧ j <= i) →
  decseq_loop untimed i start e k j s st
  = (settled (if start <? 0 then first_cont i s
              else orelse (pair start <$> cont k j e i s) (orelse (inner j i s) (first_cont i s))), st).
Proof.
  induction s as [|c t IH]; intros i start e k j st Hi Hj Hst; cbn [decseq_loop]; rewrite clock_check_untimed, dbind_untimed; cbn iota.
  - destruct (Z.ltb_spec start 0).
    + destruct Hst as [-> ->]. done.
    + rewrite cont_end. destruct (Z.leb_spec minDecSeqRun k); [done|]. cbn. unfold inner. cbn. by repeat case_match.
  - destruct (digitc (byte c)) eqn:Hd.
    + destruct (Z.eqb_spec j 3) as [->|Hj3].
      * destruct (Z.ltb_spec start 0) as [|Hs]; [lia|]. cbn [cont]. rewrite Hd. cbn [Z.eqb Pos.eqb]. destruct (Z.leb_spec minDecSeqRun k); [done|].
        rewrite IH by (try lia; destruct (Z.ltb_spec (i - 2) 0); lia). destruct (Z.ltb_spec (i - 2) 0); [lia|].
        rewrite first_cont_cons. unfold inner. cbn [Z.leb Z.compare Pos.compare Pos.compare_cont cont fmap option_fmap option_map orelse]. rewrite Hd. cbn [Z.eqb Pos.eqb Z.add Pos.add Pos.succ].
        replace (i + 1 - 2) with (i - 1) by lia. replace (i + 1 - 1) with i by lia. do 2 f_equal.
        change (2 + 1) with 3. change (1 + 1) with 2. change (0 + 1) with 1. destruct (cont 1 3 (i + 1) (i + 1) t), (cont 1 2 (i + 1) (i + 1) t), (cont 1 1 (i + 1) (i + 1) t); done.
      * rewrite IH; [|lia|lia|destruct (Z.ltb_spec start 0); [destruct Hst as [-> ->]; destruct (Z.ltb_spec i 0); [lia|cbn; lia]|];
          destruct (Z.ltb_spec start 0); [lia|]; destruct (Z.eqb_spec j 0); lia].
        destruct (Z.ltb_spec start 0) as [Hs|Hs].
        -- destruct Hst as [-> ->]. destruct (Z.ltb_spec i 0); [lia|]. rewrite first_cont_cons. cbn [cont]. rewrite Hd. cbn [Z.eqb Z.add].
           change (inner (0 + 1) (i + 1) t) with (@None (Z * Z)). change (0 + 1) with 1. by destruct (cont 1 1 (i + 1) (i + 1) t).
        -- destruct (Z.ltb_spec start 0); [lia|]. rewrite first_cont_cons. cbn [cont]. rewrite Hd. destruct (Z.eqb_spec j 3); [lia|]. cbn [Z.eqb Z.add].
           f_equal. f_equal. destruct (cont (if j =? 0 then k + 1 else k) (j + 1) (i + 1) (i + 1) t) as [x|] eqn:Hc; [done|]. cbn [fmap option_fmap option_map orelse].
           unfold inner. cbn [cont]. rewrite Hd. cbn [Z.eqb Pos.eqb Z.add Pos.add Pos.succ].
           replace (i + 1 - 2) with (i - 1) by lia. replace (i + 1 - 1) with i by lia.
           change (1 + 1) with 2. change (2 + 1) with 3. assert (j = 0 ∨ j = 1 ∨ j = 2) as [-> |[-> | ->]] by lia; change (0 + 1) with 1; change (1 + 1) with 2; change (2 + 1) with 3; cbn [Z.leb Z.add Z.compare Pos.compare Pos.compare_cont Pos.add Pos.succ orelse].
           ++ rewrite (cont_fewer t (k + 1) 1 1 (i + 1) (i + 1) (i + 1)); [done|lia|exact Hc].
           ++ by destruct (cont 1 1 (i + 1) (i + 1) t).
           ++ by destruct (cont 1 2 (i + 1) (i + 1) t), (cont 1 1 (i + 1) (i + 1) t).
    + assert (first_cont i (String c t) = first_cont (i + 1) t) as Hfirst.
      { rewrite first_cont_cons. cbn [cont]. rewrite Hd. cbn [Z.ltb Z.compare]. by rewrite andb_false_r. }
      change ((byte c =? 44) || (byte c =? 59)) with (isSep (byte c)). destruct (isSep (byte c) && (0 <? j)) eqn:Hsep.
      * rewrite IH; [|lia|lia|destruct (Z.ltb_spec start 0); lia]. destruct (Z.ltb_spec start 0); [by rewrite Hfirst|].
        rewrite Hfirst. cbn [cont]. rewrite Hd, Hsep. f_equal. f_equal. destruct (cont k 0 e (i + 1) t) eqn:Hc; [done|]. cbn [fmap option_fmap option_map orelse].
        unfold inner. cbn [cont]. rewrite Hd. apply andb_true_iff in Hsep as [-> _]. cbn [andb Z.ltb Z.compare Z.leb orelse].
        rewrite (cont_fewer t k 1 0 e i (i + 1)) by (done || lia). by repeat case_match.
      * destruct (Z.leb_spec minDecSeqRun k) as [Hk|Hk].
        -- destruct (Z.ltb_spec start 0); [destruct Hst as [-> _]; done|]. cbn [cont]. rewrite Hd, Hsep. destruct (Z.leb_spec minDecSeqRun k); [done|lia].
        -- rewrite IH by (done || lia). cbn [Z.ltb Z.compare]. rewrite Hfirst. destruct (Z.ltb_spec start 0); [done|]. cbn [cont]. rewrite Hd, Hsep.
           destruct (Z.leb_spec minDecSeqRun k); [lia|]. cbn [fmap option_fmap option_map orelse]. unfold inner. cbn [cont]. rewrite Hd.
           destruct (Z.ltb_spec 0 j) as [Hj0|Hj0].
           ++ rewrite andb_true_r in Hsep. rewrite Hsep. cbn [andb]. by repeat case_match.
           ++ assert (j = 0) as -> by lia. done.
Qed.

(** ** The expression *)

Definition sep2c : Z → bool := orc (λ r, r =? 59) (λ r, r =? 44).

Lemma ascii_digitc : ascii_class digitc.
Proof. intros r. unfold digitc, between. intros H. bool_hyps. lia. Qed.

Lemma ascii_sep2c : ascii_class sep2c.
Proof. intros r. unfold sep2c, orc. intros H. apply orb_true_iff in H as [H|H]; bool_hyps; lia. Qed.

Lemma sep2c_isSep b : sep2c b = isSep b.
Proof. unfold sep2c, orc, isSep. apply orb_comm. Qed.

Lemma isSep_digit b : isSep b = true → digitc b = false.
Proof. unfold isSep, digitc, between. intros [H|H]%orb_true_iff; bool_hyps; subst; done. Qed.

Section DecSeq.
Context {A : Type}.

(** One to three digits: all there are first. *)
Definition token3 (p : Pos) (k : Pos → option A) : option A :=
  match span digitc (p_rest p) with
  | 0%nat => None
  | 1%nat => k (advs 1 p)
  | 2%nat => orelse (k (advs 2 p)) (k (advs 1 p))
  | _ => orelse (k (advs 3 p)) (orelse (k (advs 2 p)) (k (advs 1 p)))
  end.

Lemma m_digits3 p k : m digits3 p k = token3 p k.
Proof.
  pose proof (steps_by_cls (A := A) digitc ascii_digitc eq_refl) as Hstep. unfold token3. change (m digits3 p k) with (m (Cls digitc) p (λ p', greedy (m (Cls digitc)) 2 p' k)).
  rewrite Hstep. destruct (p_rest p) as [|c t] eqn:Hp; [done|]. rewrite span_cons. cbn [first_is]. destruct (digitc (byte c)); [|done].
  assert (∀ v w, (p_at (advs (S v) (advs w p)) =? p_at (advs w p))%nat = false) as Hne.
  { intros v w. rewrite !advs_at. apply Nat.eqb_neq. lia. }
  cbn [greedy]. rewrite Hstep, advs_rest, Hp. cbn [string_drop first_is]. destruct t as [|c2 t]; [done|]. rewrite span_cons. cbn [first_is].
  destruct (digitc (byte c2)); [|done]. rewrite (Hne 0%nat 1%nat). rewrite Hstep, advs_rest, advs_rest, Hp. cbn [string_drop].
  change (advs 1 (advs 1 (advs 1 p))) with (advs 3 p). change (advs 1 (advs 1 p)) with (advs 2 p).
  destruct t as [|c3 t]; [rewrite span_nil; cbn [first_is orelse]; by destruct (k (advs 2 p))|]. rewrite span_cons. cbn [first_is].
  destruct (digitc (byte c3)).
  - change (p_at (advs 3 p)) with (p_at (advs 1 (advs 2 p))). rewrite (Hne 0%nat 2%nat). cbn [orelse]. destruct (k (advs 3 p)); [done|]. by destruct (k (advs 2 p)).
  - cbn [orelse]. by destruct (k (advs 2 p)).
Qed.

(** A separator and a token. *)
Definition sep_token (p : Pos) (k : Pos → option A) : option A := if first_is isSep (p_rest p) then token3 (advs 1 p) k else None.

Lemma m_sep_token p k : m (Cat (Cls sep2c) digits3) p k = sep_token p k.
Proof.
  rewrite m_cat, (steps_by_cls sep2c ascii_sep2c eq_refl). unfold sep_token. destruct (p_rest p) as [|c t]; cbn [first_is]; [done|].
  rewrite sep2c_isSep. by rewrite m_digits3.
Qed.

End DecSeq.

(** A token taken as long as it goes. *)
Lemma cont_token t k e i : (1 <= span digitc t)%nat →
  let d := Nat.min 3 (span digitc t) in
  cont k 0 e i t = cont (k + 1) (Z.of_nat d) (i + Z.of_nat d) (i + Z.of_nat d) (string_drop d t).
Proof.
  destruct t as [|c1 t]; [rewrite span_nil; lia|]. rewrite span_cons. destruct (digitc (byte c1)) eqn:H1; [|lia]. intros _.
  cbn [cont]. rewrite H1. change (0 =? 3) with false. change (0 =? 0) with true. cbn iota.
  destruct t as [|c2 t]; [done|]. rewrite span_cons. destruct (digitc (byte c2)) eqn:H2; [|done].
  cbn [cont]. rewrite H2. change (0 + 1 =? 3) with false. change (0 + 1 =? 0) with false. cbn iota.
  destruct t as [|c3 t]; [cbn [Nat.min string_drop cont]; by replace (i + 1 + 1) with (i + 2) by lia|].
  rewrite span_cons. destruct (digitc (byte c3)) eqn:H3; cbn [Nat.min string_drop].
  - cbn [cont]. rewrite H3. change (0 + 1 + 1 =? 3) with false. change (0 + 1 + 1 =? 0) with false. cbn iota.
    change (0 + 1 + 1 + 1) with (Z.of_nat 3). by replace (i + 1 + 1 + 1) with (i + Z.of_nat 3) by lia.
  - change (0 + 1 + 1) with (Z.of_nat 2). by replace (i + 1 + 1) with (i + Z.of_nat 2) by lia.
Qed.

(** Where a token ends: after three digits, or before something else. *)
Definition boundary (j : Z) (s : string) : Prop := 1 <= j <= 3 ∧ (j = 3 ∨ first_is digitc s = false).

Lemma boundary_token t : (1 <= span digitc t)%nat → boundary (Z.of_nat (Nat.min 3 (span digitc t))) (string_drop (Nat.min 3 (span digitc t)) t).
Proof.
  intros Hs. split; [lia|]. destruct (le_lt_dec 3 (span digitc t)); [left; lia|right]. rewrite Nat.min_r by lia. apply span_drop.
Qed.

(** The match stops here. *)
Lemma cont_stop k j e i s : boundary j s → first_is isSep s = false → cont k j e i s = if minDecSeqRun <=? k then Some e else None.
Proof.
  intros [Hj Hb] Hs. destruct s as [|c t]; [done|]. cbn [cont first_is] in *. rewrite Hs. cbn [andb]. destruct (digitc (byte c)); [|done].
  destruct Hb as [-> |]; done.
Qed.

Lemma cont_sep k j e i c t : boundary j (String c t) → isSep (byte c) = true → cont k j e i (String c t) = cont k 0 e (i + 1) t.
Proof. intros [Hj _] Hs. cbn [cont]. rewrite (isSep_digit _ Hs), Hs. destruct (Z.ltb_spec 0 j); [done|lia]. Qed.

Lemma cont_no_token k e i t : span digitc t = 0%nat → cont k 0 e i t = if minDecSeqRun <=? k then Some e else None.
Proof. destruct t as [|c t]; [done|]. rewrite span_cons. cbn [cont]. destruct (digitc (byte c)); [done|]. intros _. by rewrite andb_false_r. Qed.

Definition end_of (q : Pos) : Z := Z.of_nat (p_at q).

Definition step3 : Step (A := Pos) := m (Cat (Cls sep2c) digits3).

Lemma token3_some (p : Pos) (k : Pos → option Pos) x : k (advs (Nat.min 3 (span digitc (p_rest p))) p) = Some x → (1 <= span digitc (p_rest p))%nat → token3 p k = Some x.
Proof. unfold token3. destruct (span digitc (p_rest p)) as [|[|[|n]]]; cbn [Nat.min]; intros Hk Hs; [lia|done|by rewrite Hk|]. replace (S (S (Nat.min 1 (S n)))) with 3%nat in Hk by lia. by rewrite Hk. Qed.

(** Twelve tokens and more: every further one is taken. *)
Lemma greedy_cont fuel : ∀ p k j, (String.length (p_rest p) < fuel)%nat → minDecSeqRun <= k → boundary j (p_rest p) →
  end_of <$> greedy step3 fuel p Some = cont k j (end_of p) (end_of p) (p_rest p).
Proof.
  induction fuel as [|fuel IH]; intros p k j Hf Hk Hb; [lia|]. assert ((minDecSeqRun <=? k) = true) as Hk' by by apply Z.leb_le. cbn [greedy]. unfold step3 at 1. rewrite m_sep_token. unfold sep_token.
  destruct (p_rest p) as [|c t] eqn:Hp; cbn [first_is].
  - by rewrite cont_end, Hk'.
  - destruct (isSep (byte c)) eqn:Hs; [|rewrite cont_stop by done; by rewrite Hk'].
    rewrite (cont_sep _ _ _ _ _ _ Hb Hs). destruct (Nat.eq_dec (span digitc t) 0%nat) as [Hz|Hz].
    + rewrite cont_no_token by done. unfold token3. rewrite advs_rest, Hp. cbn [string_drop]. rewrite Hz. by rewrite Hk'.
    + rewrite cont_token by lia. set (d := Nat.min 3 (span digitc t)).
      assert (p_rest (advs 1 p) = t) as Hr1 by (rewrite advs_rest, Hp; done).
      pose proof (IH (advs d (advs 1 p)) (k + 1) (Z.of_nat d)) as IH'. rewrite advs_rest, Hr1 in IH'.
      assert (end_of (advs d (advs 1 p)) = end_of p + 1 + Z.of_nat d) as Hend by (unfold end_of; rewrite !advs_at; lia). rewrite Hend in IH'.
      rewrite <- IH'; [|rewrite string_drop_length; cbn in Hf; lia|lia|apply boundary_token; lia].
      destruct (greedy step3 fuel (advs d (advs 1 p)) Some) as [x|] eqn:Hg.
      * rewrite (token3_some (advs 1 p) _ x); [done| |rewrite Hr1; lia]. rewrite Hr1. fold d. cbv beta.
        rewrite (proj2 (Nat.eqb_neq _ _)); [done|]. rewrite !advs_at. lia.
      * exfalso. assert (∀ f q, greedy step3 f q Some ≠ None) as Hsome by (intros [|f] q; cbn; [done|by case_match]). by apply (Hsome fuel (advs d (advs 1 p))).
Qed.

(** Before a digit no token begins. *)
Lemma times_digit n p (k : Pos → option Pos) : (0 < n)%nat → first_is digitc (p_rest p) = true → times step3 n p k = None.
Proof.
  intros Hn Hd. destruct n as [|n]; [lia|]. cbn [times]. unfold step3 at 1. rewrite m_sep_token. unfold sep_token.
  destruct (p_rest p) as [|c t]; [done|]. cbn [first_is] in *. destruct (isSep (byte c)) eqn:Hs; [|done]. by rewrite (isSep_digit _ Hs) in Hd.
Qed.

Definition then_more (p : Pos) : option Pos := greedy step3 (S (String.length (p_rest p))) p Some.

Lemma span_shorter d t : (1 <= d < Nat.min 3 (span digitc t))%nat → first_is digitc (string_drop d t) = true.
Proof.
  revert d. induction t as [|c t IH]; intros d Hd; [rewrite span_nil in Hd; lia|]. rewrite span_cons in Hd. destruct (digitc (byte c)) eqn:Hc; [|lia].
  destruct d as [|[|d]]; [lia| |]; cbn [string_drop].
  - destruct t as [|c2 t]; [rewrite span_nil in Hd; lia|]. rewrite span_cons in Hd. cbn [string_drop first_is]. destruct (digitc (byte c2)); [done|lia].
  - apply (IH (S d)). lia.
Qed.

Lemma times_cont n : ∀ p j, (n <= 11)%nat → boundary j (p_rest p) →
  end_of <$> times step3 n p then_more = cont (12 - Z.of_nat n) j (end_of p) (end_of p) (p_rest p).
Proof.
  induction n as [|n IH]; intros p j Hn Hb; [apply greedy_cont; [lia|done|done]|]. cbn [times]. unfold step3 at 1. rewrite m_sep_token. unfold sep_token.
  assert (minDecSeqRun <=? 12 - Z.of_nat (S n) = false) as Hk by (apply Z.leb_gt; unfold minDecSeqRun; lia).
  destruct (p_rest p) as [|c t] eqn:Hp; cbn [first_is]; [by rewrite cont_end, Hk|].
  destruct (isSep (byte c)) eqn:Hs; [|by rewrite cont_stop, Hk].
  rewrite (cont_sep _ _ _ _ _ _ Hb Hs). destruct (Nat.eq_dec (span digitc t) 0%nat) as [Hz|Hz].
  - rewrite cont_no_token by done. unfold token3. rewrite advs_rest, Hp. cbn [string_drop]. by rewrite Hz, Hk.
  - rewrite cont_token by lia. set (d := Nat.min 3 (span digitc t)).
    assert (p_rest (advs 1 p) = t) as Hr1 by (rewrite advs_rest, Hp; done).
    pose proof (IH (advs d (advs 1 p)) (Z.of_nat d) ltac:(lia)) as IH'. rewrite advs_rest, Hr1 in IH'. specialize (IH' (boundary_token t ltac:(lia))).
    assert (end_of (advs d (advs 1 p)) = end_of p + 1 + Z.of_nat d) as Hend by (unfold end_of; rewrite !advs_at; lia). rewrite Hend in IH'.
    replace (12 - Z.of_nat (S n) + 1) with (12 - Z.of_nat n) by lia. rewrite <- IH'.
    destruct (times step3 n (advs d (advs 1 p)) then_more) as [x|] eqn:Ht.
    + rewrite (token3_some (advs 1 p) _ x); [done| |rewrite Hr1; lia]. rewrite Hr1. exact Ht.
    + assert (0 < n)%nat as Hn0.
      { destruct n as [|n]; [exfalso|lia]. cbn in Ht. unfold then_more in Ht. cbn [greedy] in Ht. by case_match. }
      assert (∀ d', (1 <= d' < d)%nat → times step3 n (advs d' (advs 1 p)) then_more = None) as Hless.
      { intros d' Hd'. apply times_digit; [done|]. rewrite advs_rest, Hr1. by apply span_shorter. }
      unfold token3. rewrite Hr1. subst d. destruct (span digitc t) as [|[|[|m']]]; [lia|cbn [Nat.min] in Ht; by rewrite Ht| |].
      * cbn [Nat.min] in Ht, Hless. rewrite Ht, (Hless 1%nat) by lia. done.
      * replace (Nat.min 3 (S (S (S m')))) with 3%nat in Ht, Hless by lia. rewrite Ht, (Hless 2%nat), (Hless 1%nat) by lia. done.
Qed.

Lemma m_reDecSeq p : end_of <$> m reDecSeq p Some = cont 0 0 0 (end_of p) (p_rest p).
Proof.
  change (m reDecSeq p Some) with (m digits3 p (λ p', times step3 11 p' then_more)). rewrite m_digits3.
  destruct (Nat.eq_dec (span digitc (p_rest p)) 0%nat) as [Hz|Hz].
  - unfold token3. rewrite Hz. by rewrite cont_no_token.
  - rewrite cont_token by lia. set (d := Nat.min 3 (span digitc (p_rest p))).
    pose proof (times_cont 11 (advs d p) (Z.of_nat d) ltac:(lia)) as IH. rewrite advs_rest in IH. specialize (IH (boundary_token (p_rest p) ltac:(lia))).
    assert (end_of (advs d p) = end_of p + Z.of_nat d) as Hend by (unfold end_of; rewrite !advs_at; lia). rewrite Hend in IH.
    change (12 - Z.of_nat 11) with (0 + 1) in IH. rewrite <- IH. destruct (times step3 11 (advs d p) then_more) as [x|] eqn:Ht.
    + by rewrite (token3_some p _ x) by (done || lia).
    + assert (∀ d', (1 <= d' < d)%nat → times step3 11 (advs d' p) then_more = None) as Hless.
      { intros d' Hd'. apply times_digit; [lia|]. rewrite advs_rest. by apply span_shorter. }
      unfold token3. subst d. destruct (span digitc (p_rest p)) as [|[|[|m']]]; [lia|cbn [Nat.min] in Ht; by rewrite Ht| |].
      * cbn [Nat.min] in Ht, Hless. rewrite Ht, (Hless 1%nat) by lia. done.
      * replace (Nat.min 3 (S (S (S m')))) with 3%nat in Ht, Hless by lia. rewrite Ht, (Hless 2%nat), (Hless 1%nat) by lia. done.
Qed.

Lemma find_decseq s : ∀ i bol,
  (λ x, (Z.of_nat (f_start x), end_of (f_end x))) <$> find_bytes reDecSeq i bol s = first_cont (Z.of_nat i) s.
Proof.
  induction s as [|c t IH]; intros i bol; cbn [find_bytes first_cont]; pose proof (m_reDecSeq (mkPos i bol EmptyString [])) as H0.
  - cbn [p_rest] in H0. change (end_of (mkPos i bol EmptyString [])) with (Z.of_nat i) in H0. rewrite <- H0. by destruct (m reDecSeq _ Some).
  - clear H0. pose proof (m_reDecSeq (mkPos i bol (String c t) [])) as H0. cbn [p_rest] in H0. change (end_of (mkPos i bol (String c t) [])) with (Z.of_nat i) in H0.
    rewrite <- H0. destruct (m reDecSeq _ Some); [done|]. cbn [fmap option_fmap option_map]. rewrite IH. f_equal. lia.
Qed.

Lemma nextDecSeqRun_regexp {S} src (st : S) :
  nextDecSeqRunUntil untimed src st = (match FindIndex reDecSeq src with Some (a, b) => (Z.of_nat a, Z.of_nat b) | None => (-1, 0) end, st).
Proof.
  unfold nextDecSeqRunUntil. rewrite decseq_loop_spec by (cbn; lia). f_equal. cbn [Z.ltb Z.compare]. change 0 with (Z.of_nat 0).
  rewrite <- (find_decseq src 0 true), FindIndex_bytes.
  - by destruct (find_bytes reDecSeq 0 true src).
  - intros p c t Hp Hc. assert (end_of <$> m reDecSeq p Some = None) as H; [|by destruct (m reDecSeq p Some)].
    rewrite m_reDecSeq, Hp. cbn [cont]. destruct (digitc (byte c)) eqn:Hd; [apply ascii_digitc in Hd; lia|]. by rewrite andb_false_r.
Qed.

(** ** Any clock *)

(** The clock can only cut a scan short. *)
Section Clock.
Context {S : Type} (expiredNow : D S bool).

Lemma checkpoint_cases {A} i (f : bool → D S A) st (P : A → Prop) :
  (∀ st', P (f true st').1) → (∀ st', P (f false st').1) → P (dbind (clock_check expiredNow i) f st).1.
Proof. intros Ht Hf. unfold dbind. destruct (clock_check expiredNow i st) as [[] st']; [apply Ht|apply Hf]. Qed.

Lemma run_loop_clock hexMode s : ∀ i start h st,
  (run_loop expiredNow hexMode i start h s st).1 = nothing ∨ (run_loop expiredNow hexMode i start h s st).1 = (run_loop untimed hexMode i start h s tt).1.
Proof.
  induction s as [|c t IH]; intros i start h st; cbn [run_loop]; rewrite clock_check_untimed, (dbind_untimed (S := unit));
    apply (checkpoint_cases _ _ _ (λ r, r = nothing ∨ r = _)); intros st'; [by left|by right|by left|].
  destruct (if hexMode then isHex c else isB64 c); [apply IH|]. destruct (_ && (_ <=? _)); [by right|apply IH].
Qed.

Lemma base32_end_clock n : ∀ rest i e st,
  (base32_end expiredNow n i e rest st).1 = None ∨ (base32_end expiredNow n i e rest st).1 = (base32_end untimed n i e rest tt).1.
Proof.
  induction n as [|n IH]; intros [|c rest] i e st; cbn [base32_end]; [by right..|]. destruct (byte c =? 61); [|by right].
  assert (∀ b : bool, (if b then untimed else dret false) = untimed (S := unit)) as Hb by by intros [].
  rewrite Hb, (dbind_untimed (S := unit)). unfold dbind. destruct ((if _ : bool then expiredNow else dret false) st) as [[] st']; [by left|apply IH].
Qed.

Lemma scalar_end_clock base32Mode start i d rest st :
  (scalar_end expiredNow base32Mode start i d rest st).1 = nothing ∨ (scalar_end expiredNow base32Mode start i d rest st).1 = (scalar_end untimed base32Mode start i d rest tt).1.
Proof.
  unfold scalar_end. destruct base32Mode; [|by right]. unfold dbind. pose proof (base32_end_clock 6 rest i i st) as H.
  destruct (base32_end expiredNow 6 i i rest st) as [o st'], (base32_end untimed 6 i i rest tt) as [o' st'']. cbn in *. destruct H as [-> | ->]; [by left|by right].
Qed.

Lemma scalar_loop_clock base32Mode s : ∀ i start d st,
  (scalar_loop expiredNow base32Mode i start d s st).1 = nothing
  ∨ (scalar_loop expiredNow base32Mode i start d s st).1 = (scalar_loop untimed base32Mode i start d s tt).1.
Proof.
  induction s as [|c t IH]; intros i start d st; cbn [scalar_loop]; rewrite clock_check_untimed, (dbind_untimed (S := unit));
    apply (checkpoint_cases _ _ _ (λ r, r = nothing ∨ r = _)); intros st'; [by left| |by left|].
  - destruct (_ && (_ <=? _)); [apply scalar_end_clock|by left].
  - destruct (if base32Mode then isBase32 c else isNetbios c); [apply IH|]. destruct (_ && (_ <=? _)); [apply scalar_end_clock|apply IH].
Qed.

Lemma decseq_loop_clock s : ∀ i start e k j st,
  (decseq_loop expiredNow i start e k j s st).1 = (-1, 0)
  ∨ (decseq_loop expiredNow i start e k j s st).1 = (decseq_loop untimed i start e k j s tt).1.
Proof.
  induction s as [|c t IH]; intros i start e k j st; cbn [decseq_loop]; rewrite clock_check_untimed, (dbind_untimed (S := unit));
    apply (checkpoint_cases _ _ _ (λ r, r = (-1, 0) ∨ r = _)); intros st'; [by left|by right|by left|].
  repeat (case_match; try apply IH); by right.
Qed.

End Clock.

(** What a scan finds, if its time does not run out: the base64 and hex
    runs, the base32 runs, and the decimal sequences. *)
Definition run_found (hexMode : bool) (src : string) : Z * Z * bool := found_run src (FindIndex (if hexMode then reHex else reBase64) src).

Definition base32_found (src : string) : Z * Z * bool :=
  match FindIndex reBase32 src with None => nothing | Some (a, b) => (Z.of_nat a, Z.of_nat b, distinctive (trim_equals (substring src a b))) end.

Definition netbios_found (src : string) : Z * Z * bool :=
  match FindIndex reNetbios src with None => nothing | Some (a, b) => (Z.of_nat a, Z.of_nat b, false) end.

Definition scalar_found (base32Mode : bool) (src : string) : Z * Z * bool := if base32Mode then base32_found src else netbios_found src.

Lemma nextScalar_found {S} (base32Mode : bool) src (st : S) : nextScalarRunUntil untimed src base32Mode st = (scalar_found base32Mode src, st).
Proof. destruct base32Mode; [apply nextScalarRun_regexp|apply nextNetbiosRun_regexp]. Qed.

Definition decseq_found (src : string) : Z * Z := match FindIndex reDecSeq src with Some (a, b) => (Z.of_nat a, Z.of_nat b) | None => (-1, 0) end.

(** C31: The scalar scans find what the regular expressions they replaced
    find: for every text, [nextDecodeRunUntil] returns the leftmost match of
    the base64 (or hex) expression and whether it is all hex digits,
    [nextScalarRunUntil] that of the base32 expression and whether the part to
    be decoded has a digit, or that of the NETBIOS expression, and
    [nextDecSeqRunUntil] that of the decimal expression, overlong numbers
    included; a clock that runs out can only make them return no run. *)
Theorem scans_are_regexps {S} (expiredNow : D S bool) src st :
  (∀ hexMode, nextDecodeRunUntil untimed src hexMode tt = (run_found hexMode src, tt)
    ∧ ((nextDecodeRunUntil expiredNow src hexMode st).1 = nothing ∨ (nextDecodeRunUntil expiredNow src hexMode st).1 = run_found hexMode src))
  ∧ (∀ base32Mode, nextScalarRunUntil untimed src base32Mode tt = (scalar_found base32Mode src, tt)
    ∧ ((nextScalarRunUntil expiredNow src base32Mode st).1 = nothing
       ∨ (nextScalarRunUntil expiredNow src base32Mode st).1 = scalar_found base32Mode src))
  ∧ nextDecSeqRunUntil untimed src tt = (decseq_found src, tt)
  ∧ ((nextDecSeqRunUntil expiredNow src st).1 = (-1, 0) ∨ (nextDecSeqRunUntil expiredNow src st).1 = decseq_found src).
Proof.
  split; [intros hexMode; split; [apply nextDecodeRun_regexp|]|split; [intros base32Mode; split; [apply nextScalar_found|]|split; [apply nextDecSeqRun_regexp|]]].
  - pose proof (run_loop_clock expiredNow hexMode src 0 (-1) true st) as H. fold (nextDecodeRunUntil (S := unit) untimed src hexMode) in H. by rewrite nextDecodeRun_regexp in H.
  - pose proof (scalar_loop_clock expiredNow base32Mode src 0 (-1) false st) as H.
    fold (nextScalarRunUntil (S := unit) untimed src base32Mode) in H. by rewrite nextScalar_found in H.
  - pose proof (decseq_loop_clock expiredNow src 0 (-1) 0 0 0 st) as H. fold (nextDecSeqRunUntil (S := unit) untimed src) in H. by rewrite nextDecSeqRun_regexp in H.
Qed.
