(* ===== verification/Retained.v ===== *)
(** * Retained output

    The ledger of extract/retained.go, the output operations of a [Result] and
    the marker channel of extract/markers.go, up to [finalizeStreams].

    An entry is a buffer: the address of its first byte and its bytes.  What
    is trusted as a marker is an address, never the bytes; [r_next] is the next
    address the allocator has not given out. *)

From Stdlib Require Import ZArith Lia.
From Stdlib Require Ascii String.
From stdpp Require Import base gmap strings list numbers.
From S2P Require Import Prelude GoStd GoText.

Local Open Scope Z_scope.

(** ** The ledger *)

Definition capHitMarkerPrefix : string := "EXTRACT-CAP-HIT kind=".
Definition retainedBytesKind : string := "retained-bytes".
Definition DefaultRetainedBytesLimit : Z := 2621440.
Definition retainedReserveBytes : Z := len (capHitMarkerPrefix +:+ "retained-bytes").

Record retainedBudget := mkBudget {
  b_total : Z; b_admissions : Z; b_limit : Z; b_refused : bool; b_reserved : bool }.

Definition newRetainedBudget (limit : Z) : retainedBudget :=
  mkBudget 0 0 (if limit <=? 0 then DefaultRetainedBytesLimit else limit) false false.

Definition ordinaryCap (b : retainedBudget) : Z := if b_limit b <=? retainedReserveBytes then 0 else b_limit b - retainedReserveBytes.

Definition ordinaryUsed (b : retainedBudget) : Z :=
  let used := if b_reserved b then (b_total b - retainedReserveBytes) mod 2 ^ 64 else b_total b in
  if ordinaryCap b <? used then ordinaryCap b else used.

(** A token is the serial number of the admission; [None] is the zero token.
    A nil ledger admits nothing. *)
Definition record_bytes (b : retainedBudget) (size : Z) : Z * retainedBudget :=
  let total := if uint64_max - b_total b <? size then uint64_max else b_total b + size in
  let admissions := if b_admissions b <? uint64_max then b_admissions b + 1 else b_admissions b in
  (admissions, mkBudget total admissions (b_limit b) (b_refused b) (b_reserved b)).

Definition admit_entry (b : retainedBudget) (size : Z) : option Z * retainedBudget :=
  if negb (b_limit b =? 0) && (0 <? size) && (ordinaryCap b - ordinaryUsed b <? size) then
    (None, mkBudget (b_total b) (b_admissions b) (b_limit b) true (b_reserved b))
  else let '(token, b) := record_bytes b size in (Some token, b).

Definition admitReserve (b : retainedBudget) : bool * retainedBudget :=
  if b_reserved b || (negb (b_limit b =? 0) && (b_limit b <? retainedReserveBytes)) then (false, b)
  else (true, (record_bytes (mkBudget (b_total b) (b_admissions b) (b_limit b) (b_refused b) true) retainedReserveBytes).2).

Definition release_bytes (b : retainedBudget) (size : Z) : retainedBudget :=
  mkBudget (if b_total b <? size then 0 else b_total b - size) (b_admissions b) (b_limit b) (b_refused b) (b_reserved b).

Definition owns (b : retainedBudget) (token : Z) : bool := (0 <? token) && (token <=? b_admissions b).

(** ** Buffers and markers *)

Record Buffer := mkBuffer { s_at : Z; s_text : string }.
#[export] Instance Buffer_eq_dec : EqDecision Buffer.
Proof. solve_decision. Defined.

Definition sameEmittedBuffer (stream marker : Buffer) : bool :=
  (len (s_text stream) =? len (s_text marker)) && negb (len (s_text stream) =? 0) && (s_at stream =? s_at marker).

Definition isTrustedMarker (stream : Buffer) (trusted : list Buffer) : bool := existsb (sameEmittedBuffer stream) trusted.

Definition HasPrefix (s p : string) : bool := bool_decide (is_Some (strip_prefix p s)).

Definition msdDeepDecodePrefix : string := "MSD-DEEPDECODE depth=".
Definition newline_text : string := String (ascii_of_Z 10) EmptyString.
Definition xlmStackerPrefix : string := "XLM-STACK" +:+ newline_text.
Definition behaviorScorePrefix : string := "MALDOC-BEHAVIOR-SCORE n=".

Definition pureMarkerLiterals : list string :=
  ["USERFORM-STRINGS"; "DOCPROPS-STRINGS"; "OLEID-OBJECTPOOL"; "OLEID-FLASH"; "OLEID-VBA-PRESENT"; "OLEID-EXTREL"; "OLEID-DDE";
   "OLEID-XLM-PRESENT"; "PPT-VBA-EXTRACTED"; "RTF-OBJUPDATE"; "DEFAULTPW-DECRYPTED"; "DIGITAL-SIGNATURE"; "ENCRYPTION-AES";
   "ENCRYPTION-RC4"; "ENCRYPTION-XOR"; "XLM-AUTO-OPEN"; "XLM-AUTO-CLOSE"; "HTML-SMUGGLING-BLOB"; "HTML-SMUGGLING-DATAURI";
   "HTML-DATAURI-CONTAINER"; "SVG-SCRIPT"; "HTML-SCRIPT-URI"; "HTML-SCRIPT-URI-OBFUSCATED"; "SVG-EMBEDDED-PAYLOAD"; "ARCHIVE-ENCRYPTED";
   "ARCHIVE-DECRYPTED"; "POLYGLOT-PE-ZIP"; "XLL-ADDIN"; "BASE64-PE-CARVE"; "PE-SECTION-PACKED"; "PE-SECTION-HIGH-ENTROPY"; "PE-OVERLAY";
   "PE-VIRTUAL-SECTION"; "PE-DOTNET"; "PE-ANOMALY"; "ELF-EXECUTABLE"]
  ++ ((λ kind, capHitMarkerPrefix +:+ kind) <$>
      ["streams"; "archive-budget"; "zip-entries"; "rtf-objects"; "pdf-streams"; "member-size"; "rar-solid"; "depth"; "mime-depth";
       "mime-parts"; "retained-bytes"]).

Definition pureMarkerPrefixes : list string :=
  [msdDeepDecodePrefix; "OLE-DOC-SECURITY-"; "OLE-META" +:+ newline_text; "DOCPROPS-STRINGS" +:+ newline_text;
   "USERFORM-STRINGS" +:+ newline_text; xlmStackerPrefix; behaviorScorePrefix].

Definition isPureMarker (s : string) : bool := mem s pureMarkerLiterals || existsb (HasPrefix s) pureMarkerPrefixes.

Definition xlmStackerMarkerPrefixes : list string :=
  ["XLM-AUTO-OPEN"; "XLM-AUTO-CLOSE"; "XLM-HIDDEN-MACROSHEET "; "XLM-DANGEROUS-FUNC "; "XLM-EMUL-DEPTH "].

Definition lines_of (l : list string) : string := string_concat ((λ s, s +:+ newline_text) <$> l).

Definition joinXLMStackerMarkers (streams trusted : list Buffer) : option string :=
  let collected := filter (λ s, isTrustedMarker s trusted && existsb (HasPrefix (s_text s)) xlmStackerMarkerPrefixes = true) streams in
  if (length collected <? 2)%nat then None else Some (xlmStackerPrefix +:+ lines_of (s_text <$> collected)).

Definition joinMarkerPayload (marker : string) (carved : list string) : string :=
  marker +:+ string_concat ((λ c, newline_text +:+ c) <$> carved).

Definition behaviorWeakMarkers : list string :=
  ["OLEID-OBJECTPOOL"; "OLEID-FLASH"; "OLEID-VBA-PRESENT"; "OLEID-EXTREL"; "OLEID-DDE"; "OLEID-XLM-PRESENT"; "DIGITAL-SIGNATURE";
   "ENCRYPTION-RC4"; "ENCRYPTION-AES"; "DEFAULTPW-DECRYPTED"; "OLE-DOC-SECURITY-"; "OLETIMES-FUTURE "; "OLETIMES-SYNTHETIC ";
   "OLE2-EXTRA-DATA"; "USERFORM-STRINGS"; "DOCPROPS-STRINGS"].
Definition behaviorScoreMin : nat := 3.

(** [smallItoa] fills a buffer of four digits from its end; a fifth digit is
    out of its bounds and panics ([None]). *)
Fixpoint itoa_loop (fuel : nat) (v : Z) (acc : string) : option string :=
  if 0 <? v then
    match fuel with
    | O => None
    | S fuel => itoa_loop fuel (v / 10) (String (ascii_of_Z (48 + v mod 10)) acc)
    end
  else Some acc.

Definition smallItoa (v : Z) : option string := if v =? 0 then Some "0" else itoa_loop 4 v "".

Definition weak_present (streams trusted : list Buffer) : list string :=
  filter (λ p, existsb (λ s, isTrustedMarker s trusted && HasPrefix (s_text s) p) streams = true) behaviorWeakMarkers.

Definition joinBehaviorScore (streams trusted : list Buffer) : option string :=
  let present := weak_present streams trusted in
  if (length present <? behaviorScoreMin)%nat then None
  else n ← smallItoa (Z.of_nat (length present)); Some (behaviorScorePrefix +:+ n +:+ newline_text +:+ lines_of present).

(** [splitTrustedMarkers]: content, markers, and how many of those are decode
    markers. *)
Fixpoint splitTrustedMarkers (streams trusted : list Buffer) : list Buffer * list Buffer * Z :=
  match streams with
  | [] => ([], [], 0)
  | s :: streams =>
      let '(content, markers, moved) := splitTrustedMarkers streams trusted in
      if isTrustedMarker s trusted then (content, s :: markers, if HasPrefix (s_text s) msdDeepDecodePrefix then moved + 1 else moved)
      else (s :: content, markers, moved)
  end.

(** ** The result *)

(** The output part of [Result].  [r_childOpts] is nil, or options whose
    ledger may be nil. *)
Record Result := mkResult {
  r_streams : list Buffer; r_markers : list Buffer; r_vba : list Buffer; r_capHits : list string; r_truncated : bool;
  r_decoded : Z; r_contentStreams : Z; r_trusted : list Buffer; r_childOpts : option (option retainedBudget); r_next : Z }.

Definition with_ledger (b : retainedBudget) (r : Result) : Result :=
  mkResult (r_streams r) (r_markers r) (r_vba r) (r_capHits r) (r_truncated r) (r_decoded r) (r_contentStreams r) (r_trusted r) (Some (Some b)) (r_next r).
Definition with_streams (l : list Buffer) (r : Result) : Result :=
  mkResult l (r_markers r) (r_vba r) (r_capHits r) (r_truncated r) (r_decoded r) (r_contentStreams r) (r_trusted r) (r_childOpts r) (r_next r).
Definition with_trusted (l : list Buffer) (r : Result) : Result :=
  mkResult (r_streams r) (r_markers r) (r_vba r) (r_capHits r) (r_truncated r) (r_decoded r) (r_contentStreams r) l (r_childOpts r) (r_next r).
Definition with_capHits (l : list string) (r : Result) : Result :=
  mkResult (r_streams r) (r_markers r) (r_vba r) l (r_truncated r) (r_decoded r) (r_contentStreams r) (r_trusted r) (r_childOpts r) (r_next r).
Definition with_next (n : Z) (r : Result) : Result :=
  mkResult (r_streams r) (r_markers r) (r_vba r) (r_capHits r) (r_truncated r) (r_decoded r) (r_contentStreams r) (r_trusted r) (r_childOpts r) n.
Definition with_truncated (r : Result) : Result :=
  mkResult (r_streams r) (r_markers r) (r_vba r) (r_capHits r) true (r_decoded r) (r_contentStreams r) (r_trusted r) (r_childOpts r) (r_next r).
Definition with_vba (l : list Buffer) (r : Result) : Result :=
  mkResult (r_streams r) (r_markers r) l (r_capHits r) (r_truncated r) (r_decoded r) (r_contentStreams r) (r_trusted r) (r_childOpts r) (r_next r).
Definition with_decoded (n : Z) (r : Result) : Result :=
  mkResult (r_streams r) (r_markers r) (r_vba r) (r_capHits r) (r_truncated r) n (r_contentStreams r) (r_trusted r) (r_childOpts r) (r_next r).

(** A fresh array holding [text]. *)
Definition allocate (text : string) (r : Result) : Buffer * Result := (mkBuffer (r_next r) text, with_next (r_next r + Z.max 1 (len text)) r).

(** [admitStream(&p, own)]: the entry to use from now on, and whether it was
    admitted. *)
Definition admitStream (p : Buffer) (own : bool) (r : Result) : Buffer * bool * Result :=
  match r_childOpts r with
  | None | Some None => (p, true, r)
  | Some (Some b) =>
      match admit_entry b (len (s_text p)) with
      | (None, b) => (p, false, with_ledger b r)
      | (Some _, b) =>
          let r := with_ledger b r in
          if own && (0 <? len (s_text p)) then let '(p, r) := allocate (s_text p) r in (p, true, r) else (p, true, r)
      end
  end.

Definition releaseRetained (p : Buffer) (r : Result) : Result :=
  match r_childOpts r with Some (Some b) => with_ledger (release_bytes b (len (s_text p))) r | _ => r end.

(** [appendStream], [appendStreamOwned], and [appendOut] to the streams. *)
Definition append_stream (own : bool) (p : Buffer) (r : Result) : bool * Result :=
  let '(p, ok, r) := admitStream p own r in
  if ok : bool then (true, with_streams (r_streams r ++ [p]) r) else (false, r).

Definition appendStream : Buffer → Result → bool * Result := append_stream false.
Definition appendStreamOwned : Buffer → Result → bool * Result := append_stream true.

Fixpoint appendStreams (entries : list Buffer) (own : bool) (r : Result) : Result :=
  match entries with [] => r | e :: entries => appendStreams entries own (append_stream own e r).2 end.

(** [appendMarker], and [appendMarkerOut] to the streams. *)
Definition append_marker (own : bool) (marker : Buffer) (r : Result) : bool * Result :=
  let '(p, ok, r) := admitStream marker own r in
  if ok : bool then (true, with_trusted (r_trusted r ++ [p]) (with_streams (r_streams r ++ [p]) r)) else (false, r).

Definition appendMarker : Buffer → Result → bool * Result := append_marker false.

(** The entry is a new array: [[]byte("...")]. *)
Definition emit_marker (own : bool) (text : string) (r : Result) : bool * Result :=
  let '(p, r) := allocate text r in append_marker own p r.

Definition capHit (kind : string) (r : Result) : Result := if mem kind (r_capHits r) then r else with_capHits (r_capHits r ++ [kind]) r.

Definition noteRetainedTruncation (r : Result) : Result :=
  match r_childOpts r with
  | Some (Some b) => if b_refused b then capHit retainedBytesKind (with_truncated r) else r
  | _ => r
  end.

(** ** The exit *)

Fixpoint emit_cap_hits (kinds : list string) (r : Result) : Result :=
  match kinds with
  | [] => r
  | kind :: kinds =>
      let marker := capHitMarkerPrefix +:+ kind in
      emit_cap_hits kinds
        (if bool_decide (kind = retainedBytesKind) then r
         else if isPureMarker marker then (emit_marker false marker r).2
         else let '(p, r) := allocate marker r in (appendStream p r).2)
  end.

Definition emit_joined (text : option string) (r : Result) : Result :=
  match text with Some text => (emit_marker false text r).2 | None => r end.

Definition emit_reserve (r : Result) : Result :=
  if r_truncated r then
    match r_childOpts r with
    | Some (Some b) =>
        match admitReserve b with
        | (true, b) =>
            let '(p, r) := allocate (capHitMarkerPrefix +:+ retainedBytesKind) (with_ledger b r) in
            with_trusted (r_trusted r ++ [p]) (with_streams (r_streams r ++ [p]) r)
        | (false, b) => with_ledger b r
        end
    | _ => r
    end
  else r.

(** What is emitted before the channels are split. *)
Definition emit_last (r : Result) : Result :=
  let r := emit_joined (joinXLMStackerMarkers (r_streams r) (r_trusted r)) r in
  let r := emit_joined (joinBehaviorScore (r_streams r) (r_trusted r)) r in
  let r := emit_cap_hits (r_capHits r) r in
  emit_reserve (noteRetainedTruncation r).

Definition split_channels (preDecodeLen : Z) (r : Result) : Result :=
  let n := if (preDecodeLen <? 0) || (Z.of_nat (length (r_streams r)) <? preDecodeLen) then length (r_streams r) else Z.to_nat preDecodeLen in
  let '(content, markers, moved) := splitTrustedMarkers (r_streams r) (r_trusted r) in
  mkResult content markers (r_vba r) (r_capHits r) (r_truncated r) (r_decoded r - moved)
    (r_contentStreams r + Z.of_nat (length (filter (λ s, isTrustedMarker s (r_trusted r) = false) (take n (r_streams r)))))
    [] (r_childOpts r) (r_next r).

Definition finalizeStreams (r : Result) (preDecodeLen : Z) : Result := split_channels preDecodeLen (emit_last r).

(** [Retained] *)
Definition snapshot (r : Result) : Z := match r_childOpts r with Some (Some b) => b_total b | _ => 0 end.

(** The result a request starts with. *)
Definition start (limit : Z) : Result := mkResult [] [] [] [] false 0 0 [] (Some (Some (newRetainedBudget limit))) 0.

Definition texts (l : list Buffer) : list string := s_text <$> l.
Definition bytes (l : list Buffer) : Z := sumZ (λ s, len (s_text s)) l.

(** The count always fits the four digits: there are sixteen classes. *)
Lemma smallItoa_small n : (n <= 16)%nat → smallItoa (Z.of_nat n) = Some (FormatInt (Z.of_nat n)).
Proof. intros Hn. do 17 (destruct n as [|n]; [by vm_compute|]). lia. Qed.

Lemma joinBehaviorScore_spec streams trusted :
  let present := weak_present streams trusted in
  joinBehaviorScore streams trusted =
    if (length present <? behaviorScoreMin)%nat then None
    else Some (behaviorScorePrefix +:+ FormatInt (Z.of_nat (length present)) +:+ newline_text +:+ lines_of present).
Proof.
  intros present. unfold joinBehaviorScore. fold present. case_match; [done|]. rewrite smallItoa_small; [done|].
  unfold present, weak_present. etransitivity; [apply length_filter|]. done.
Qed.

(** ** Output as a run

    What extractors do to a result: content entries and markers are emitted,
    a carrier is debited before its children are walked and published or
    released afterwards, caps are noted. *)
Inductive output :=
  | OAllocate (text : string)
  | OStream (own : bool) (p : Buffer)
  | OMarker (own : bool) (text : string)
  | OAdmit (own : bool) (p : Buffer)
  | OPublish (i : nat)
  | ORelease (i : nat)
  | OCapHit (kind : string)
  | ODecoded (n : Z).

(** The result, the carriers admitted and not yet published, what has been
    published with its kind (marker or not), and whether an entry was refused. *)
Record Walk := mkWalk { w_res : Result; w_pending : list Buffer; w_log : list (bool * string); w_refused : bool }.

Definition fits (limit used size : Z) : bool := (size =? 0) || (used + size + retainedReserveBytes <=? limit).

Definition produce (o : output) (w : Walk) : Walk :=
  let r := w_res w in
  match o with
  | OAllocate text => mkWalk (allocate text r).2 (w_pending w) (w_log w) (w_refused w)
  | OStream own p =>
      let '(ok, r) := append_stream own p r in
      mkWalk r (w_pending w) (if ok then w_log w ++ [(false, s_text p)] else w_log w) (w_refused w || negb ok)
  | OMarker own text =>
      let '(ok, r) := emit_marker own text r in
      mkWalk r (w_pending w) (if ok then w_log w ++ [(true, text)] else w_log w) (w_refused w || negb ok)
  | OAdmit own p =>
      let '(p, ok, r) := admitStream p own r in
      mkWalk r (if ok then w_pending w ++ [p] else w_pending w) (w_log w) (w_refused w || negb ok)
  | OPublish i =>
      match w_pending w !! i with
      | None => w
      | Some p => mkWalk (with_streams (r_streams r ++ [p]) r) (delete i (w_pending w)) (w_log w ++ [(false, s_text p)]) (w_refused w)
      end
  | ORelease i =>
      match w_pending w !! i with
      | None => w
      | Some p => mkWalk (releaseRetained p r) (delete i (w_pending w)) (w_log w) (w_refused w)
      end
  | OCapHit kind => mkWalk (capHit kind r) (w_pending w) (w_log w) (w_refused w)
  | ODecoded n => mkWalk (with_decoded n r) (w_pending w) (w_log w) (w_refused w)
  end.

(** A content entry lies in memory given out before and is not a marker's own
    array; a marker has a text. *)
Definition content_of (r : Result) (p : Buffer) : Prop := s_at p < r_next r ∧ isTrustedMarker p (r_trusted r) = false.
Definition proper (o : output) (w : Walk) : Prop :=
  match o with
  | OStream _ p | OAdmit _ p => content_of (w_res w) p
  | OMarker _ text => text ≠ ""
  | _ => True
  end.

Inductive reach (limit : Z) : Walk → Prop :=
  | reach_start : reach limit (mkWalk (start limit) [] [] false)
  | reach_step w o : reach limit w → proper o w → reach limit (produce o w).

(** ** Invariant *)

Section Ledger.
Context (limit : Z) (Hlimit : 0 < limit <= int64_max).

Record Inv (w : Walk) : Prop := mkInv {
  inv_ledger : ∃ n, r_childOpts (w_res w)
                 = Some (Some (mkBudget (bytes (r_streams (w_res w)) + bytes (w_pending w)) n limit (w_refused w) false));
  inv_cap : bytes (r_streams (w_res w)) + bytes (w_pending w) <= Z.max 0 (limit - retainedReserveBytes);
  inv_log : Forall2 (λ s e, s_text s = e.2 ∧ isTrustedMarker s (r_trusted (w_res w)) = e.1) (r_streams (w_res w)) (w_log w);
  inv_pending : Forall (λ p, isTrustedMarker p (r_trusted (w_res w)) = false) (w_pending w);
  inv_next : Forall (λ s, s_at s < r_next (w_res w)) (r_streams (w_res w) ++ w_pending w ++ r_trusted (w_res w));
  inv_truncated : r_truncated (w_res w) = false ∧ r_contentStreams (w_res w) = 0 }.

Lemma reserve_value : retainedReserveBytes = 35.
Proof. reflexivity. Qed.

Lemma bytes_nonneg l : 0 <= bytes l.
Proof. apply sumZ_nonneg. intros s _. apply len_nonneg. Qed.

Lemma bytes_app l1 l2 : bytes (l1 ++ l2) = bytes l1 + bytes l2.
Proof. apply sumZ_app. Qed.

Lemma bytes_one p : bytes [p] = len (s_text p).
Proof. unfold bytes. rewrite sumZ_cons. cbn. lia. Qed.

Lemma bytes_delete i p l : l !! i = Some p → bytes l = bytes (delete i l) + len (s_text p).
Proof.
  intros Hi. rewrite (delete_take_drop l i). rewrite <- (take_drop_middle l i p Hi) at 1. rewrite !bytes_app.
  change (bytes (p :: drop (S i) l)) with (len (s_text p) + bytes (drop (S i) l)). lia.
Qed.

(** One admission, on a ledger of the invariant. *)
Lemma admit_entry_spec used n refused size :
  0 <= used <= Z.max 0 (limit - retainedReserveBytes) → 0 <= size →
  admit_entry (mkBudget used n limit refused false) size =
    if fits limit used size then (Some (record_bytes (mkBudget used n limit refused false) size).1, (record_bytes (mkBudget used n limit refused false) size).2)
    else (None, mkBudget used n limit true false).
Proof.
  intros Hu Hs. unfold admit_entry, fits, ordinaryUsed, ordinaryCap. cbn [b_total b_admissions b_limit b_refused b_reserved].
  rewrite (proj2 (Z.eqb_neq limit 0)) by lia. cbn [negb andb]. rewrite reserve_value in *.
  assert ((if (if limit <=? 35 then 0 else limit - 35) <? used then if limit <=? 35 then 0 else limit - 35 else used) = used) as ->.
  { destruct (Z.leb_spec limit 35); case_match; bool_hyps; lia. }
  destruct (Z.ltb_spec 0 size); cbn [andb].
  - rewrite (proj2 (Z.eqb_neq size 0)) by lia. cbn [orb]. destruct (Z.leb_spec limit 35); destruct (Z.leb_spec (used + size + 35) limit); case_match; bool_hyps; try lia; done.
  - rewrite (proj2 (Z.eqb_eq size 0)) by lia. done.
Qed.

Lemma record_bytes_spec used n refused size :
  0 <= used → 0 <= size → used + size <= int64_max →
  ∃ k, (record_bytes (mkBudget used n limit refused false) size).2 = mkBudget (used + size) k limit refused false.
Proof.
  intros Hu Hs Hmax. unfold record_bytes. cbn [b_total b_admissions b_limit b_refused b_reserved fst snd]. unfold int64_max, uint64_max in *.
  destruct (Z.ltb_spec (18446744073709551615 - used) size); [lia|]. by eexists.
Qed.

Lemma sameEmittedBuffer_at s m : sameEmittedBuffer s m = true → s_at s = s_at m ∧ s_text s ≠ "".
Proof. unfold sameEmittedBuffer. intros H. bool_hyps. split; [done|]. intros E. rewrite E in *. done. Qed.

Lemma trusted_snoc s m l : s_at s ≠ s_at m → isTrustedMarker s (l ++ [m]) = isTrustedMarker s l.
Proof.
  intros Hs. unfold isTrustedMarker. rewrite existsb_app. cbn [existsb]. rewrite orb_false_r.
  destruct (sameEmittedBuffer s m) eqn:E; [by apply sameEmittedBuffer_at in E as [? _]|]. by rewrite orb_false_r.
Qed.

Lemma trusted_fresh s l : Forall (λ m, s_at m < s_at s) l → isTrustedMarker s l = false.
Proof.
  intros Hl. unfold isTrustedMarker. apply not_true_is_false. intros (m & Hm & E)%existsb_exists.
  apply sameEmittedBuffer_at in E as [E _]. rewrite list.Forall_forall in Hl. specialize (Hl m ltac:(by apply list_elem_of_In)). lia.
Qed.

Lemma trusted_self m l : s_text m ≠ "" → isTrustedMarker m (l ++ [m]) = true.
Proof.
  intros Hm. unfold isTrustedMarker. rewrite existsb_app. cbn [existsb]. unfold sameEmittedBuffer at 2. rewrite !Z.eqb_refl.
  assert ((len (s_text m) =? 0) = false) as ->; [|by rewrite orb_true_r]. apply Z.eqb_neq. by rewrite len_zero.
Qed.

(** What an admission does to a result of the invariant. *)
Lemma admitStream_spec p own w : Inv w →
  let used := bytes (r_streams (w_res w)) + bytes (w_pending w) in
  let '(q, ok, r) := admitStream p own (w_res w) in
  s_text q = s_text p ∧ ok = fits limit used (len (s_text p))
  ∧ r_streams r = r_streams (w_res w) ∧ r_trusted r = r_trusted (w_res w) ∧ (r_truncated r = false ∧ r_contentStreams r = 0) ∧ r_capHits r = r_capHits (w_res w) ∧ r_next (w_res w) <= r_next r
  ∧ (q = p ∨ s_at q = r_next (w_res w) ∧ s_at q < r_next r)
  ∧ (∃ n, r_childOpts r = Some (Some (mkBudget (if ok then used + len (s_text p) else used) n limit (w_refused w || negb ok) false))).
Proof.
  intros [(n & Hled) Hcap Hlog Hpend Hnext [Htr Hcs]]. pose proof (bytes_nonneg (r_streams (w_res w))) as Hb1. pose proof (bytes_nonneg (w_pending w)) as Hb2.
  pose proof (len_nonneg (s_text p)) as Hp. unfold admitStream. rewrite Hled, admit_entry_spec by lia.
  destruct (fits limit _ _) eqn:Hf; [|cbn; split_and!; try done; first [by left|eexists; rewrite orb_true_r; done]].
  destruct (record_bytes_spec (bytes (r_streams (w_res w)) + bytes (w_pending w)) n (w_refused w) (len (s_text p))) as [k ->]; [lia|lia| |].
  { unfold fits in Hf. rewrite reserve_value in *. unfold int64_max in *. destruct (Z.eqb_spec (len (s_text p)) 0); cbn [orb] in Hf; bool_hyps; lia. }
  destruct (own && (0 <? len (s_text p))) eqn:Ho.
  - cbn. split_and!; try done; first [lia|right; lia|eexists; by rewrite orb_false_r].
  - cbn. split_and!; try done; first [by left|eexists; by rewrite orb_false_r].
Qed.

Lemma fits_cap used size : 0 <= used → used <= Z.max 0 (limit - retainedReserveBytes) → fits limit used size = true → used + size <= Z.max 0 (limit - retainedReserveBytes).
Proof. rewrite reserve_value. unfold fits. rewrite reserve_value. intros Hu Hc Hf. destruct (Z.eqb_spec size 0); cbn [orb] in Hf; bool_hyps; lia. Qed.

(** The addresses and texts of an invariant state survive an allocation. *)
Lemma allocate_Inv w text : Inv w → Inv (mkWalk (allocate text (w_res w)).2 (w_pending w) (w_log w) (w_refused w)).
Proof.
  intros [? ? ? ? Hnext ?]. constructor; cbn; try done. eapply list.Forall_impl; [exact Hnext|]. cbn. intros s Hs. lia.
Qed.

Lemma append_stream_Inv w own p : Inv w → content_of (w_res w) p → Inv (produce (OStream own p) w).
Proof.
  intros HI [Hat Hc]. pose proof (admitStream_spec p own w HI) as Ha. destruct HI as [(n0 & Hled) Hcap Hlog Hpend Hnext Htr].
  cbn [produce]. unfold append_stream. destruct (admitStream p own (w_res w)) as [[q ok] r].
  destruct Ha as (Hq & Hok & Hs & Ht & Htr' & Hcaps & Hle & Hnew & n & Hled'). pose proof (bytes_nonneg (r_streams (w_res w))). pose proof (bytes_nonneg (w_pending w)).
  assert (Forall (λ s, s_at s < r_next r) (r_streams (w_res w) ++ w_pending w ++ r_trusted (w_res w))) as Hnext'.
  { eapply list.Forall_impl; [exact Hnext|]. cbn. intros s Hlt. lia. }
  apply list.Forall_app in Hnext as [Hn1 [Hn2 Hn3]%list.Forall_app].
  assert (isTrustedMarker q (r_trusted (w_res w)) = false) as Hqc.
  { destruct Hnew as [->|[Hq' _]]; [done|]. apply trusted_fresh. eapply list.Forall_impl; [exact Hn3|]. cbn. intros s Hlt. lia. }
  destruct ok.
  - constructor; cbn [w_res w_pending w_log w_refused with_streams r_streams r_trusted r_childOpts r_truncated r_next]; rewrite ?Hs, ?Ht.
    + exists n. rewrite Hled', bytes_app, bytes_one, Hq. do 3 f_equal. lia.
    + rewrite bytes_app, bytes_one, Hq. apply eq_sym, fits_cap in Hok; lia.
    + apply Forall2_app; [done|]. constructor; [|constructor]. by rewrite Hq.
    + done.
    + rewrite <- app_assoc. apply list.Forall_app in Hnext' as [Hm1 Hm2]. apply list.Forall_app; split; [done|]. constructor; [|done].
      destruct Hnew as [->|[_ ?]]; lia.
    + done.
  - constructor; cbn [w_res w_pending w_log w_refused]; rewrite ?Hs, ?Ht; try done. by exists n.
Qed.

Lemma emit_marker_Inv w own text : Inv w → text ≠ "" → Inv (produce (OMarker own text) w).
Proof.
  intros HI Hne. apply (allocate_Inv w text) in HI as HI'. pose proof (admitStream_spec (mkBuffer (r_next (w_res w)) text) own _ HI') as Ha.
  destruct HI as [_ _ _ _ Hnext _]. destruct HI' as [(n0 & Hled) Hcap Hlog Hpend Hnext0 Htr].
  cbn [produce]. unfold emit_marker. cbn [allocate] in *. unfold append_marker.
  change (with_next (r_next (w_res w) + Z.max 1 (len text)) (w_res w)) with (allocate text (w_res w)).2.
  set (r0 := (allocate text (w_res w)).2) in *. cbn [w_res w_pending w_log w_refused] in *.
  destruct (admitStream (mkBuffer (r_next (w_res w)) text) own r0) as [[q ok] r].
  destruct Ha as (Hq & Hok & Hs & Ht & Htr' & Hcaps & Hle & Hnew & n & Hled'). cbn [s_text s_at] in *.
  pose proof (bytes_nonneg (r_streams r0)). pose proof (bytes_nonneg (w_pending w)).
  assert (r_next (w_res w) < r_next r0) as Hr0 by (cbn; lia).
  assert (r_next (w_res w) <= s_at q < r_next r) as Hqat by (destruct Hnew as [->|[-> ?]]; cbn [s_at]; lia).
  assert (Forall (λ s, s_at s ≠ s_at q) (r_streams r0 ++ w_pending w ++ r_trusted r0)) as Hfar.
  { eapply list.Forall_impl; [exact Hnext|]. cbn. intros s Hlt. lia. }
  apply list.Forall_app in Hfar as [Hf1 [Hf2 _]%list.Forall_app].
  assert (Forall (λ s, s_at s < r_next r) (r_streams r0 ++ w_pending w ++ r_trusted r0)) as Hnext'.
  { eapply list.Forall_impl; [exact Hnext0|]. cbv beta. intros s Hlt. lia. }
  destruct ok.
  - constructor; cbn [w_res w_pending w_log w_refused with_streams with_trusted r_streams r_trusted r_childOpts r_truncated r_next]; rewrite ?Hs, ?Ht.
    + exists n. rewrite Hled', bytes_app, bytes_one, Hq. do 3 f_equal. lia.
    + rewrite bytes_app, bytes_one, Hq. apply eq_sym, fits_cap in Hok; lia.
    + apply Forall2_app.
      * clear -Hlog Hf1. induction Hlog as [|s e ss es [He1 He2] _ IH]; [constructor|].
        apply list.Forall_cons in Hf1 as [Hfs Hf1]. constructor; [|by apply IH]. split; [done|]. by rewrite trusted_snoc.
      * constructor; [|constructor]. cbn. split; [done|]. apply trusted_self. by rewrite Hq.
    + clear -Hpend Hf2. induction Hpend as [|s ss He _ IH]; [constructor|]. apply list.Forall_cons in Hf2 as [Hfs Hf2].
      constructor; [|by apply IH]. by rewrite trusted_snoc.
    + apply list.Forall_app in Hnext' as [Hm1 [Hm2 Hm3]%list.Forall_app]. repeat apply list.Forall_app_2; try done; (constructor; [lia|constructor]).
    + done.
  - constructor; cbn [w_res w_pending w_log w_refused]; rewrite ?Hs, ?Ht; try done. by exists n.
Qed.

Lemma admitStream_Inv w own p : Inv w → content_of (w_res w) p → Inv (produce (OAdmit own p) w).
Proof.
  intros HI [Hat Hc]. pose proof (admitStream_spec p own w HI) as Ha. destruct HI as [(n0 & Hled) Hcap Hlog Hpend Hnext Htr].
  cbn [produce]. destruct (admitStream p own (w_res w)) as [[q ok] r].
  destruct Ha as (Hq & Hok & Hs & Ht & Htr' & Hcaps & Hle & Hnew & n & Hled'). pose proof (bytes_nonneg (r_streams (w_res w))). pose proof (bytes_nonneg (w_pending w)).
  assert (Forall (λ s, s_at s < r_next r) (r_streams (w_res w) ++ w_pending w ++ r_trusted (w_res w))) as Hnext'.
  { eapply list.Forall_impl; [exact Hnext|]. cbn. intros s Hlt. lia. }
  apply list.Forall_app in Hnext as [Hn1 [Hn2 Hn3]%list.Forall_app].
  assert (isTrustedMarker q (r_trusted (w_res w)) = false) as Hqc.
  { destruct Hnew as [->|[Hq' _]]; [done|]. apply trusted_fresh. eapply list.Forall_impl; [exact Hn3|]. cbn. intros s Hlt. lia. }
  destruct ok.
  - constructor; cbn [w_res w_pending w_log w_refused]; rewrite ?Hs, ?Ht; try done.
    + exists n. rewrite Hled', bytes_app, bytes_one, Hq. do 3 f_equal. lia.
    + rewrite bytes_app, bytes_one, Hq. apply eq_sym, fits_cap in Hok; lia.
    + apply list.Forall_app; split; [done|]. by constructor.
    + apply list.Forall_app in Hnext' as [Hm1 [Hm2 Hm3]%list.Forall_app]. repeat apply list.Forall_app_2; try done.
      constructor; [|constructor]. destruct Hnew as [->|[_ ?]]; lia.
  - constructor; cbn [w_res w_pending w_log w_refused]; rewrite ?Hs, ?Ht; try done. by exists n.
Qed.

Lemma OPublish_Inv w i : Inv w → Inv (produce (OPublish i) w).
Proof.
  intros HI. cbn [produce]. destruct (w_pending w !! i) as [p|] eqn:Hi; [|done]. destruct HI as [(n & Hled) Hcap Hlog Hpend Hnext Htr].
  pose proof (bytes_delete _ _ _ Hi) as Hb. apply list.Forall_app in Hnext as [Hn1 [Hn2 Hn3]%list.Forall_app].
  constructor; cbn [w_res w_pending w_log w_refused with_streams r_streams r_trusted r_childOpts r_truncated r_next]; [| | | | |done].
  - exists n. rewrite Hled, bytes_app, bytes_one. do 3 f_equal. lia.
  - rewrite bytes_app, bytes_one. lia.
  - apply Forall2_app; [done|]. constructor; [|constructor]. split; [done|]. rewrite list.Forall_forall in Hpend. cbn. by apply Hpend, list_elem_of_lookup_2 with i.
  - by apply Forall_delete.
  - repeat apply list.Forall_app_2; [done| |by apply Forall_delete|done]. constructor; [|constructor].
    rewrite list.Forall_forall in Hn2. by apply Hn2, list_elem_of_lookup_2 with i.
Qed.

Lemma ORelease_Inv w i : Inv w → Inv (produce (ORelease i) w).
Proof.
  intros HI. cbn [produce]. destruct (w_pending w !! i) as [p|] eqn:Hi; [|done]. destruct HI as [(n & Hled) Hcap Hlog Hpend Hnext Htr].
  pose proof (bytes_delete _ _ _ Hi) as Hb. apply list.Forall_app in Hnext as [Hn1 [Hn2 Hn3]%list.Forall_app].
  pose proof (bytes_nonneg (r_streams (w_res w))). pose proof (bytes_nonneg (delete i (w_pending w))). pose proof (len_nonneg (s_text p)).
  unfold releaseRetained. rewrite Hled. unfold release_bytes. cbn [b_total b_admissions b_limit b_refused b_reserved].
  rewrite (proj2 (Z.ltb_ge _ _)) by lia.
  constructor; cbn [w_res w_pending w_log w_refused with_ledger r_streams r_trusted r_childOpts r_truncated r_next]; [|lia|done|by apply Forall_delete| |done].
  - exists n. do 3 f_equal. lia.
  - repeat apply list.Forall_app_2; [done|by apply Forall_delete|done].
Qed.

Lemma capHit_Inv w kind : Inv w → Inv (produce (OCapHit kind) w).
Proof.
  intros [? ? ? ? ? ?]. cbn [produce]. unfold capHit. destruct (mem _ _); constructor; done.
Qed.

Lemma produce_Inv w o : Inv w → proper o w → Inv (produce o w).
Proof.
  intros HI Hp. destruct o; [by apply (allocate_Inv w)|by apply append_stream_Inv|by apply emit_marker_Inv|by apply admitStream_Inv
    |by apply OPublish_Inv|by apply ORelease_Inv|by apply capHit_Inv|by destruct HI].
Qed.

(** ** The exit *)

(** [w'] is [w] after some more output. *)
Record after (w w' : Walk) (extra : list (bool * string)) : Prop := mkAfter {
  af_inv : Inv w'; af_pending : w_pending w' = w_pending w; af_log : w_log w' = w_log w ++ extra;
  af_refused : w_refused w = true → w_refused w' = true; af_capHits : r_capHits (w_res w') = r_capHits (w_res w) }.

Lemma after_refl w : Inv w → after w w [].
Proof. intros HI. constructor; try done. by rewrite app_nil_r. Qed.

Lemma after_trans w1 w2 w3 e1 e2 : after w1 w2 e1 → after w2 w3 e2 → after w1 w3 (e1 ++ e2).
Proof.
  intros [HI1 Hp1 Hl1 Hr1 Hc1] [HI2 Hp2 Hl2 Hr2 Hc2]. constructor; [done|congruence| |auto|congruence].
  rewrite Hl2, Hl1. by rewrite app_assoc.
Qed.

Lemma marker_after w text : Inv w → text ≠ "" →
  ∃ w' extra, w_res w' = (emit_marker false text (w_res w)).2 ∧ after w w' extra
    ∧ (extra = [(true, text)] ∨ extra = [] ∧ w_refused w' = true).
Proof.
  intros HI Hne. exists (produce (OMarker false text) w). pose proof (emit_marker_Inv w false text HI Hne) as HI'.
  apply (allocate_Inv w text) in HI as HI0. pose proof (admitStream_spec (mkBuffer (r_next (w_res w)) text) false _ HI0) as Ha.
  cbn [produce] in *. unfold emit_marker, append_marker in *. cbn [allocate w_res w_pending w_log w_refused] in *.
  change (with_next (r_next (w_res w) + Z.max 1 (len text)) (w_res w)) with (allocate text (w_res w)).2 in *.
  destruct (admitStream (mkBuffer (r_next (w_res w)) text) false (allocate text (w_res w)).2) as [[q ok] r].
  destruct Ha as (Hq & Hok & Hs & Ht & Htr' & Hcaps & Hle & Hnew & n & Hled'). destruct ok; cbn [negb] in *.
  - exists [(true, text)]. split_and!; [done| |by left]. constructor; cbn; try done. by intros ->.
  - exists []. split_and!; [done| |right; split; [done|cbn; by rewrite orb_true_r]]. constructor; cbn; try done; [by rewrite app_nil_r|by intros ->].
Qed.

Lemma stream_after w text : Inv w →
  ∃ w' extra, w_res w' = (let '(p, r) := allocate text (w_res w) in appendStream p r).2 ∧ after w w' extra
    ∧ (extra = [(false, text)] ∨ extra = [] ∧ w_refused w' = true).
Proof.
  intros HI. apply (allocate_Inv w text) in HI as HI0. set (w0 := mkWalk _ _ _ _) in HI0. exists (produce (OStream false (mkBuffer (r_next (w_res w)) text)) w0).
  assert (content_of (w_res w0) (mkBuffer (r_next (w_res w)) text)) as Hc.
  { split; [cbn [w_res w0 allocate snd with_next r_next s_at]; lia|]. apply trusted_fresh. destruct HI as [_ _ _ _ Hnext _].
    apply list.Forall_app in Hnext as [_ [_ Hn]%list.Forall_app]. done. }
  pose proof (append_stream_Inv w0 false _ HI0 Hc) as HI'. pose proof (admitStream_spec (mkBuffer (r_next (w_res w)) text) false _ HI0) as Ha.
  cbn [produce] in *. unfold appendStream, append_stream in *. cbn [allocate] in *.
  change (with_next (r_next (w_res w) + Z.max 1 (len text)) (w_res w)) with (w_res w0) in *.
  destruct (admitStream (mkBuffer (r_next (w_res w)) text) false (w_res w0)) as [[q ok] r].
  destruct Ha as (Hq & Hok & Hs & Ht & Htr' & Hcaps & Hle & Hnew & n & Hled'). destruct ok; cbn [negb] in *.
  - exists [(false, text)]. split_and!; [done| |by left]. constructor; cbn; try done. by intros ->.
  - exists []. split_and!; [done| |right; split; [done|cbn; by rewrite orb_true_r]]. constructor; cbn; try done; [by rewrite app_nil_r|by intros ->].
Qed.

(** The texts the exit itself emits. *)
Definition exit_entry (kinds : list string) (e : bool * string) : Prop :=
  (e.1 = true ∧ (HasPrefix e.2 xlmStackerPrefix = true ∨ HasPrefix e.2 behaviorScorePrefix = true))
  ∨ ∃ kind, (kind ∈ kinds ∨ kind = retainedBytesKind) ∧ e = (isPureMarker (capHitMarkerPrefix +:+ kind), capHitMarkerPrefix +:+ kind).

Lemma HasPrefix_app p s : HasPrefix (p +:+ s) p = true.
Proof.
  unfold HasPrefix. apply bool_decide_eq_true. exists s. induction p as [|c p IH]; [done|]. rewrite string_cons_app. cbn [strip_prefix].
  by rewrite Ascii.eqb_refl.
Qed.

Lemma joined_after kinds w t : Inv w → (∀ x, t = Some x → ∃ p y, x = p +:+ y ∧ (p = xlmStackerPrefix ∨ p = behaviorScorePrefix)) →
  ∃ w' extra, w_res w' = emit_joined t (w_res w) ∧ after w w' extra ∧ Forall (exit_entry kinds) extra.
Proof.
  intros HI Ht. destruct t as [x|]; [|exists w, []; split_and!; [done|by apply after_refl|constructor]].
  destruct (Ht x eq_refl) as (p & y & -> & Hp). assert (p +:+ y ≠ "") as Hne by (destruct Hp as [-> | ->]; done).
  destruct (marker_after w (p +:+ y) HI Hne) as (w' & extra & Hr & Ha & Hx). exists w', extra. split_and!; [done|done|].
  assert (exit_entry kinds (true, p +:+ y)) as He by (left; split; [done|]; destruct Hp as [-> | ->]; [left|right]; apply HasPrefix_app).
  destruct Hx as [-> |[-> _]]; [by apply list.Forall_singleton|constructor].
Qed.

Lemma cap_hits_after all kinds : kinds ⊆ all → ∀ w, Inv w →
  ∃ w' extra, w_res w' = emit_cap_hits kinds (w_res w) ∧ after w w' extra ∧ Forall (exit_entry all) extra
    ∧ (w_refused w' = false → ∀ kind, kind ∈ kinds → kind ≠ retainedBytesKind → (isPureMarker (capHitMarkerPrefix +:+ kind), capHitMarkerPrefix +:+ kind) ∈ extra).
Proof.
  induction kinds as [|kind kinds IH]; intros Hall w HI; cbn [emit_cap_hits].
  { exists w, []. split_and!; [done|by apply after_refl|constructor|set_solver]. }
  assert (kinds ⊆ all) as Hall' by set_solver.
  case_bool_decide as Hk.
  { destruct (IH Hall' w HI) as (w' & extra & Hr & Ha & Hx & Hm). exists w', extra. split_and!; [done|done|done|]. intros Hf k Hin Hne. apply Hm; set_solver. }
  set (text := capHitMarkerPrefix +:+ kind).
  assert (exit_entry all (isPureMarker text, text)) as He by (right; exists kind; split; [left; set_solver|done]).
  assert (∃ w1 e1, w_res w1 = (if isPureMarker text then (emit_marker false text (w_res w)).2 else (let '(p, r) := allocate text (w_res w) in (appendStream p r).2))
    ∧ after w w1 e1 ∧ (e1 = [(isPureMarker text, text)] ∨ e1 = [] ∧ w_refused w1 = true)) as (w1 & e1 & Hr1 & Ha1 & Hx1).
  { destruct (isPureMarker text).
    - destruct (marker_after w text HI ltac:(done)) as (w1 & e1 & ? & ? & ?). by exists w1, e1.
    - destruct (stream_after w text HI) as (w1 & e1 & ? & ? & ?). by exists w1, e1. }
  destruct (IH Hall' w1 (af_inv _ _ _ Ha1)) as (w' & extra & Hr & Ha & Hx & Hm). exists w', (e1 ++ extra). split_and!.
  - by rewrite Hr, Hr1.
  - by apply (after_trans w w1).
  - apply list.Forall_app; split; [|done]. destruct Hx1 as [-> |[-> _]]; [by apply list.Forall_singleton|constructor].
  - intros Hf k Hin Hne. apply elem_of_app. apply elem_of_cons in Hin as [-> |Hin]; [left|right; by apply Hm].
    destruct Hx1 as [-> |[_ Hx1]]; [by left|]. apply (af_refused _ _ _ Ha) in Hx1. congruence.
Qed.

(** Every cap found is among the capped kinds once the truncation is noted. *)
Lemma join_xlm_text l t x : joinXLMStackerMarkers l t = Some x → ∃ p y, x = p +:+ y ∧ (p = xlmStackerPrefix ∨ p = behaviorScorePrefix).
Proof. unfold joinXLMStackerMarkers. case_match; [done|]. intros [= <-]. eexists _, _. split; [done|by left]. Qed.

Lemma join_score_text l t x : joinBehaviorScore l t = Some x → ∃ p y, x = p +:+ y ∧ (p = xlmStackerPrefix ∨ p = behaviorScorePrefix).
Proof.
  unfold joinBehaviorScore. case_match; [done|]. destruct (smallItoa _) as [n|]; [|done]. intros [= <-].
  eexists behaviorScorePrefix, _. split; [done|by right].
Qed.

(** The result before the split. *)
Record Final (w : Walk) (r : Result) (log : list (bool * string)) : Prop := mkFinal {
  fin_ledger : snapshot r = bytes (r_streams r);
  fin_limit : snapshot r <= limit;
  fin_log : Forall2 (λ s e, s_text s = e.2 ∧ isTrustedMarker s (r_trusted r) = e.1) (r_streams r) log;
  fin_content : r_contentStreams r = 0;
  fin_refused : w_refused w = true → r_truncated r = true;
  fin_caps : ∀ kind, kind ∈ r_capHits (w_res w) → kind ≠ retainedBytesKind → r_truncated r = false →
    (isPureMarker (capHitMarkerPrefix +:+ kind), capHitMarkerPrefix +:+ kind) ∈ log;
  fin_truncated : r_truncated r = true → retainedBytesKind ∈ r_capHits r
    ∧ (retainedReserveBytes <= limit → list.last log = Some (true, capHitMarkerPrefix +:+ retainedBytesKind)) }.

Lemma emit_last_final w : Inv w → w_pending w = [] →
  ∃ extra, Final w (emit_last (w_res w)) (w_log w ++ extra) ∧ Forall (exit_entry (r_capHits (w_res w))) extra.
Proof.
  intros HI Hp. unfold emit_last. set (kinds := r_capHits (w_res w)).
  destruct (joined_after kinds w _ HI (λ x, join_xlm_text (r_streams (w_res w)) (r_trusted (w_res w)) x)) as (w1 & e1 & Hr1 & Ha1 & Hx1). rewrite <- Hr1.
  destruct (joined_after kinds w1 _ (af_inv _ _ _ Ha1) (λ x, join_score_text (r_streams (w_res w1)) (r_trusted (w_res w1)) x)) as (w2 & e2 & Hr2 & Ha2 & Hx2).
  rewrite <- Hr2. assert (r_capHits (w_res w2) = kinds) as -> by (rewrite (af_capHits _ _ _ Ha2); apply (af_capHits _ _ _ Ha1)).
  destruct (cap_hits_after kinds kinds ltac:(done) w2 (af_inv _ _ _ Ha2)) as (w3 & e3 & Hr3 & Ha3 & Hx3 & Hm). rewrite <- Hr3.
  pose proof (after_trans _ _ _ _ _ (after_trans _ _ _ _ _ Ha1 Ha2) Ha3) as [[(n & Hled) Hcap Hlog _ Hnext [Htr Hcs]] Hp' Hlog' Href Hcaps].
  rewrite Hp in Hp'. rewrite Hp' in *. change (bytes []) with 0 in *. pose proof (bytes_nonneg (r_streams (w_res w3))) as Hb.
  set (r := noteRetainedTruncation (w_res w3)).
  assert (r_streams r = r_streams (w_res w3) ∧ r_trusted r = r_trusted (w_res w3) ∧ r_childOpts r = r_childOpts (w_res w3) ∧ r_truncated r = w_refused w3
    ∧ r_contentStreams r = 0 ∧ r_next r = r_next (w_res w3) ∧ (w_refused w3 = true → retainedBytesKind ∈ r_capHits r)) as (Hs & Ht & Hc & Htr' & Hcs' & Hn & Hk).
  { unfold r, noteRetainedTruncation. rewrite Hled. cbn [b_refused]. destruct (w_refused w3); [|by split_and!].
    unfold capHit. cbn [with_truncated r_capHits]. destruct (mem _ _) eqn:Hmem; cbn; split_and!; try done; intros _; [by apply mem_true|set_solver]. }
  assert (Forall (exit_entry kinds) ((e1 ++ e2) ++ e3)) as Hxs by (by repeat apply list.Forall_app_2).
  rewrite Hlog' in Hlog. unfold emit_reserve. rewrite Htr', Hc, Hled. unfold admitReserve. cbn [b_reserved b_limit b_total b_admissions b_refused orb].
  rewrite (proj2 (Z.eqb_neq limit 0)) by lia. cbn [negb andb]. rewrite reserve_value in *.
  destruct (w_refused w3) eqn:Hw3; [destruct (Z.ltb_spec limit 35)|].
  - exists ((e1 ++ e2) ++ e3). split; [|done].
    constructor; cbn [with_ledger snapshot r_streams r_trusted r_childOpts r_truncated r_contentStreams r_capHits b_total]; rewrite ?Hs, ?Ht, ?Htr'; try done; [lia|lia|].
    intros _. split; [by apply Hk|]. rewrite reserve_value. lia.
  - set (text := capHitMarkerPrefix +:+ retainedBytesKind).
    destruct (record_bytes _ 35) as [k b'] eqn:Hrec. unfold record_bytes in Hrec. cbn [b_total b_admissions b_limit b_refused b_reserved] in Hrec.
    rewrite (proj2 (Z.ltb_ge (uint64_max - (bytes (r_streams (w_res w3)) + 0)) 35)) in Hrec by (unfold uint64_max, int64_max in *; lia). injection Hrec as _ <-. cbn [snd allocate].
    exists (((e1 ++ e2) ++ e3) ++ [(true, text)]). split.
    + set (p := mkBuffer _ text).
      constructor; cbn [with_ledger with_next with_streams with_trusted snapshot r_streams r_trusted r_childOpts r_truncated r_contentStreams r_capHits b_total].
      * rewrite Hs, bytes_app, bytes_one. cbn [s_text p]. change (len text) with 35. lia.
      * lia.
      * rewrite Hs, Ht. rewrite app_assoc. apply Forall2_app; [|constructor; [split; [done|by apply trusted_self]|constructor]].
        assert (s_at p = r_next (w_res w3)) as Hat by exact Hn. apply list.Forall_app in Hnext as [Hn1 _]. clear -Hlog Hn1 Hat. induction Hlog as [|s e ss es [He1 He2] _ IH]; [constructor|].
        apply list.Forall_cons in Hn1 as [Hlt Hn1]. constructor; [|by apply IH]. split; [done|]. rewrite trusted_snoc; [done|]. lia.
      * done.
      * intros _. by rewrite Htr'.
      * intros ??? Hf. rewrite Htr' in Hf. done.
      * intros _. split; [by apply Hk|]. intros _. rewrite app_assoc. by rewrite list.last_snoc.
    + apply list.Forall_app_2; [done|]. apply list.Forall_singleton. right. exists retainedBytesKind. split; [by right|done].
  - exists ((e1 ++ e2) ++ e3). split; [|done]. constructor; unfold snapshot; rewrite ?Hc, ?Hled, ?Hs, ?Ht; cbn [b_total]; try done; [lia|lia| | |rewrite Htr'; done].
    + intros Hw. apply Href in Hw. congruence.
    + intros kind Hin Hne _. apply elem_of_app. right. apply elem_of_app. right. by apply Hm.
Qed.

Lemma start_Inv : Inv (mkWalk (start limit) [] [] false).
Proof.
  constructor; cbn; [|rewrite reserve_value; lia|constructor|constructor|constructor|done].
  exists 0. unfold newRetainedBudget. by rewrite (proj2 (Z.leb_gt _ _)) by lia.
Qed.

Lemma reach_Inv w : reach limit w → Inv w.
Proof. induction 1; [apply start_Inv|by apply produce_Inv]. Qed.

End Ledger.

(** ** What is published *)

Definition emitted (kind : bool) (log : list (bool * string)) : list string := snd <$> filter (λ e, e.1 = kind) log.

Lemma split_emitted trusted streams log :
  Forall2 (λ s e, s_text s = e.2 ∧ isTrustedMarker s trusted = e.1) streams log →
  let '(content, markers, _) := splitTrustedMarkers streams trusted in
  texts content = emitted false log ∧ texts markers = emitted true log ∧ bytes content + bytes markers = bytes streams.
Proof.
  induction 1 as [|s [k t] ss es [Ht Hk] _ IH]; [done|]. cbn [fst snd] in *. cbn [splitTrustedMarkers].
  destruct (splitTrustedMarkers ss trusted) as [[content markers] moved]. destruct IH as (Hc & Hm & Hb).
  change (bytes (s :: ss)) with (len (s_text s) + bytes ss). unfold emitted. rewrite Hk, !filter_cons. cbn [fst]. destruct k.
  - rewrite (decide_True (P := true = true)), (decide_False (P := true = false)) by done. rewrite !fmap_cons. cbn [snd].
    unfold texts in *. rewrite fmap_cons, Ht, Hc, Hm. split_and!; [done|done|].
    change (bytes (s :: markers)) with (len (s_text s) + bytes markers). rewrite Ht. lia.
  - rewrite (decide_True (P := false = false)), (decide_False (P := false = true)) by done. rewrite !fmap_cons. cbn [snd].
    unfold texts in *. rewrite fmap_cons, Ht, Hc, Hm. split_and!; [done|done|].
    change (bytes (s :: content)) with (len (s_text s) + bytes content). rewrite Ht. lia.
Qed.

Lemma content_count trusted streams log n :
  Forall2 (λ s e, s_text s = e.2 ∧ isTrustedMarker s trusted = e.1) streams log →
  length (filter (λ s, isTrustedMarker s trusted = false) (take n streams)) = length (emitted false (take n log)).
Proof.
  intros Hl. revert n. unfold emitted. induction Hl as [|s [k t] ss es [Ht Hk] _ IH]; intros [|n]; [done|done|done|].
  cbn [take]. rewrite !filter_cons. cbn [fst snd] in *. rewrite Hk.
  destruct (decide (k = false)) as [->|]; cbn [fmap list_fmap length]; rewrite IH; done.
Qed.

Lemma emitted_app kind l1 l2 : emitted kind (l1 ++ l2) = emitted kind l1 ++ emitted kind l2.
Proof. unfold emitted. by rewrite list.filter_app, fmap_app. Qed.

Lemma emitted_in kind text log : (kind, text) ∈ log → text ∈ emitted kind log.
Proof. intros Hin. unfold emitted. apply list_elem_of_fmap. exists (kind, text). split; [done|]. by apply list_elem_of_filter. Qed.

Lemma emitted_last text log : list.last log = Some (true, text) → list.last (emitted true log) = Some text.
Proof.
  intros (l & ->)%list.last_Some. rewrite emitted_app. unfold emitted at 2. rewrite filter_cons. cbn [fst].
  rewrite decide_True by done. rewrite list.filter_nil. cbn. apply list.last_snoc.
Qed.

Section Published.
Context (limit : Z) (Hlimit : 0 < limit <= int64_max) (w : Walk) (Hw : reach limit w).

Lemma finalize_split n : w_pending w = [] → let r := finalizeStreams (w_res w) n in
  ∃ extra, Forall (exit_entry (r_capHits (w_res w))) extra ∧ Final limit w (emit_last (w_res w)) (w_log w ++ extra)
    ∧ texts (r_streams r) = emitted false (w_log w ++ extra) ∧ texts (r_markers r) = emitted true (w_log w ++ extra)
    ∧ bytes (r_streams r) + bytes (r_markers r) = bytes (r_streams (emit_last (w_res w)))
    ∧ (0 <= n <= Z.of_nat (length (w_log w)) → r_contentStreams r = Z.of_nat (length (emitted false (take (Z.to_nat n) (w_log w)))))
    ∧ snapshot r = snapshot (emit_last (w_res w)) ∧ r_truncated r = r_truncated (emit_last (w_res w)) ∧ r_capHits r = r_capHits (emit_last (w_res w)).
Proof.
  intros Hp r. destruct (emit_last_final limit Hlimit w (reach_Inv limit Hlimit w Hw) Hp) as (extra & HF & Hx). exists extra. split; [done|]. split; [done|].
  unfold r, finalizeStreams, split_channels. pose proof (split_emitted _ _ _ (fin_log _ _ _ _ HF)) as Hsp.
  destruct (splitTrustedMarkers _ _) as [[content markers] moved]. destruct Hsp as (Hc & Hm & Hb). cbn [r_streams r_markers r_contentStreams r_truncated r_capHits].
  split_and!; [done|done|done| |done|done|done]. intros Hn. rewrite (fin_content _ _ _ _ HF). pose proof (fin_log _ _ _ _ HF) as Hl.
  pose proof (list.Forall2_length _ _ _ Hl) as Hlen. rewrite length_app in Hlen.
  rewrite (proj2 (Z.ltb_ge n 0)), (proj2 (Z.ltb_ge (Z.of_nat (length (r_streams (emit_last (w_res w))))) n)) by lia. cbn [orb].
  rewrite (content_count _ _ _ _ Hl), take_app_le by lia. lia.
Qed.

(** C24: Retained output stays within the request's limit, one whole entry at
    a time: at every moment an entry is admitted exactly if it is empty or
    fits, with what has been published or is being walked, under the limit
    less the reserve of the diagnostic, whatever was refused before.  In the
    end the ledger is the number of bytes published, at most the limit; a
    refusal is always reported, as the last marker if the limit has room for
    it; and without one every cap noted is published. *)
Theorem retained_within_limit n :
  (∀ own p, (append_stream own p (w_res w)).1 = fits limit (bytes (r_streams (w_res w)) + bytes (w_pending w)) (len (s_text p)))
  ∧ (w_pending w = [] → let r := finalizeStreams (w_res w) n in
      snapshot r = bytes (r_streams r) + bytes (r_markers r) ∧ snapshot r <= limit
      ∧ (w_refused w = true → r_truncated r = true)
      ∧ (r_truncated r = true → retainedBytesKind ∈ r_capHits r
          ∧ (retainedReserveBytes <= limit → list.last (texts (r_markers r)) = Some (capHitMarkerPrefix +:+ retainedBytesKind)))
      ∧ (r_truncated r = false → ∀ kind, kind ∈ r_capHits (w_res w) → kind ≠ retainedBytesKind →
          capHitMarkerPrefix +:+ kind ∈ texts (if isPureMarker (capHitMarkerPrefix +:+ kind) then r_markers r else r_streams r))).
Proof.
  split.
  - intros own p. pose proof (admitStream_spec limit Hlimit p own w (reach_Inv limit Hlimit w Hw)) as Ha. unfold append_stream.
    destruct (admitStream p own (w_res w)) as [[q ok] r]. destruct Ha as (_ & <- & _). by destruct ok.
  - intros Hp r. destruct (finalize_split n Hp) as (extra & _ & HF & Hs & Hm & Hb & _ & Hsn & Ht & Hc). fold r in Hs, Hm, Hb, Hsn, Ht, Hc.
    rewrite Hsn, Hb, Ht, Hc, Hm. split_and!; [apply HF|apply HF|apply HF| |].
    + intros Htr. apply HF in Htr as [Hk Hl]. split; [done|]. intros Hroom. apply emitted_last. by apply Hl.
    + intros Htr kind Hin Hne. pose proof (fin_caps _ _ _ _ HF kind Hin Hne Htr) as Hfin.
      destruct (isPureMarker _); apply emitted_in in Hfin; [rewrite Hm|rewrite Hs]; done.
Qed.

(** C33: Only what an extractor emitted as a marker reaches the marker
    channel: after any run of outputs the markers are the marker entries in
    their order, and the streams are the content entries in theirs, whatever
    bytes those have; the exit adds nothing but its own joined buffers and
    cap notes; and the content prefix counts the real entries emitted before
    the decode pass. *)
Theorem markers_have_provenance n : w_pending w = [] → let r := finalizeStreams (w_res w) n in
  ∃ extra, Forall (exit_entry (r_capHits (w_res w))) extra
    ∧ texts (r_markers r) = emitted true (w_log w) ++ emitted true extra
    ∧ texts (r_streams r) = emitted false (w_log w) ++ emitted false extra
    ∧ (0 <= n <= Z.of_nat (length (w_log w)) → r_contentStreams r = Z.of_nat (length (emitted false (take (Z.to_nat n) (w_log w))))).
Proof.
  intros Hp r. destruct (finalize_split n Hp) as (extra & Hx & _ & Hs & Hm & _ & Hn & _). exists extra.
  split; [done|]. split; [by rewrite <- emitted_app|]. split; [by rewrite <- emitted_app|exact Hn].
Qed.

End Published.

(** ** A reference run

    Content spells a marker, a marker is emitted, an entry is refused, and a
    smaller one still fits. *)
Definition exOutputs : list output :=
  [OAllocate "XLL-ADDIN, says the mail and much more"; OStream false (mkBuffer 0 "XLL-ADDIN"); OMarker false "XLL-ADDIN";
   OStream true (mkBuffer 9 ", says the mail and much more"); OCapHit "streams"; OAdmit true (mkBuffer 30 "more"); OStream true (mkBuffer 2 "L"); OPublish 0].
Definition exWalk : Walk := foldl (λ w o, produce o w) (mkWalk (start 60) [] [] false) exOutputs.

Lemma exWalk_reach : reach 60 exWalk.
Proof.
  unfold exWalk, exOutputs. cbn [foldl].
  repeat (apply reach_step; [|first [exact I | by split; [reflexivity|vm_compute] | done]]). apply reach_start.
Qed.

Lemma retained_within_limit_witness :
  (append_stream true (mkBuffer 3 "12345678") (w_res exWalk)).1 = false
  ∧ snapshot (finalizeStreams (w_res exWalk) 1) <= 60
  ∧ list.last (texts (r_markers (finalizeStreams (w_res exWalk) 1))) = Some "EXTRACT-CAP-HIT kind=retained-bytes".
Proof.
  destruct (retained_within_limit 60 ltac:(done) exWalk exWalk_reach 1) as [Hfit Hend].
  split; [rewrite Hfit; vm_compute; reflexivity|]. destruct (Hend ltac:(vm_compute; reflexivity)) as (_ & Hl & Hr & Ht & _).
  split; [exact Hl|]. apply Ht; [apply Hr; vm_compute; reflexivity|done].
Defined.

Lemma markers_have_provenance_witness :
  ∃ extra, texts (r_markers (finalizeStreams (w_res exWalk) 1)) = ["XLL-ADDIN"] ++ emitted true extra
    ∧ texts (r_streams (finalizeStreams (w_res exWalk) 1)) = ["XLL-ADDIN"; "L"; "more"] ++ emitted false extra.
Proof.
  destruct (markers_have_provenance 60 ltac:(done) exWalk exWalk_reach 1 ltac:(vm_compute; reflexivity)) as (extra & _ & Hm & Hs & _).
  exists extra. split; [exact Hm|exact Hs].
Defined.
