(* ===== verification/DecodeFold.v ===== *)
(** * VBA strings put together again

    [foldVBAStrings] of extract/decode.go and [undefang] of extract/defang.go:
    the expressions a macro builds its strings with, evaluated where all their
    arguments are literals. *)

From Stdlib Require Import ZArith Lia.
From Stdlib Require Ascii String.
From stdpp Require Import base gmap strings list numbers.
From S2P Require Import Prelude GoStd GoText Base64 GoRegexp DecodeRuns.

Local Open Scope Z_scope.
Local Open Scope mailstrix_scope.

(** ** [strings] *)

Definition ContainsAny (s : string) (chars : string) : bool :=
  negb (string_forallb (λ c, string_forallb (λ d, negb (Ascii.eqb c d)) chars) s).

(** [strings.ReplaceAll]; an empty [old] matches before every rune and at the
    end. *)
Fixpoint replace_fuel (fuel : nat) (old new s : string) : string :=
  match fuel with
  | O => s
  | Datatypes.S fuel =>
      match strip_prefix old s with
      | Some rest => new +:+ replace_fuel fuel old new rest
      | None => match s with EmptyString => EmptyString | String c s => String c (replace_fuel fuel old new s) end
      end
  end.

Fixpoint between_runes (fuel : nat) (new s : string) : string :=
  match fuel, s with
  | O, _ | _, EmptyString => new
  | Datatypes.S fuel, _ => let w := (decode_rune s).2 in new +:+ string_take w s +:+ between_runes fuel new (string_drop w s)
  end.

Definition ReplaceAll (s old new : string) : string :=
  match old with
  | EmptyString => between_runes (String.length s) new s
  | _ => replace_fuel (Datatypes.S (String.length s)) old new s
  end.

Definition Atoi (s : string) : option Z := ParseInt s 64.

(** ** Expressions *)

Definition quotec : Z → bool := λ r, r =? 34.
Definition quote : string := String (ascii_of_Z 34) EmptyString.
(** A literal: between quotes, with doubled quotes inside. *)
Definition vba_body : re := Star (Alt (Cls (notc quotec)) (Cat (Cls quotec) (Cls quotec))).
Definition vba_literal : re := cats [Cls quotec; vba_body; Cls quotec].
Definition vba_group (n : nat) : re := cats [Cls quotec; Group n vba_body; Cls quotec].
Definition digits (a b : nat) : re := Rep a (Some b) (Cls digitc).
Definition spaces_re : re := Star (Cls spacec).

(** [Chr[WB]?\$?\s*\( ... \)] *)
Definition vba_chr (number : re) : re :=
  cats [litfold "Chr"; Opt (Cls (orc (foldc (ascii_of_Z 87)) (foldc (ascii_of_Z 66)))); Opt (lit "$"); spaces_re; lit "("; number; lit ")"].
Definition chr_item : re := Alt vba_literal (vba_chr (digits 1 5)).
Definition concat_op : re := Cls (orc (λ r, r =? 38) (λ r, r =? 43)).

Definition reChrConcat : re := Cat chr_item (Plus (cats [spaces_re; concat_op; spaces_re; chr_item])).
Definition reChrTok : re := Alt (vba_group 1) (vba_chr (Group 2 (digits 1 5))).

Definition comma_re : re := cats [spaces_re; lit ","; spaces_re].
Definition reReplace : re :=
  cats [litfold "Replace"; lit "("; spaces_re; vba_group 1; comma_re; vba_group 2; comma_re; vba_group 3; spaces_re; lit ")"].

Definition reArrayXor : re :=
  cats [litfold "Array"; lit "("; Group 1 (Plus (Cls (orc digitc (orc (λ r, r =? 44) spacec)))); lit ")"; spaces_re; litfold "Xor"; Plus (Cls spacec); Group 2 (digits 1 3)].

Definition reStrReverse : re := cats [litfold "StrReverse"; lit "("; spaces_re; vba_group 1; spaces_re; lit ")"].
Definition reEnviron : re := cats [litfold "Environ"; Opt (lit "$"); lit "("; spaces_re; vba_group 1; spaces_re; lit ")"].

Definition alnumc : Z → bool := orc digitc letterc.
Definition reDridex : re := cats [Cls quotec; Rep 20 None (Cls alnumc); Cls quotec].
Definition dridexNotHex : re := Cls (orc (between 71 90) (between 103 122)).

Definition blankc : Z → bool := orc (λ r, r =? 32) (λ r, r =? 9).
Definition vba_ident : re := Cat (Cls (foldall letterc)) (Rep 0 (Some 63%nat) (Cls (foldall wordc))).
Definition equals_re : re := cats [spaces_re; lit "="; spaces_re].
Definition reVBAStrAssign : re := cats [BeginLine; Star (Cls blankc); Group 1 vba_ident; equals_re; vba_group 2].
Definition reVBAAlias : re := cats [BeginLine; Star (Cls blankc); Group 1 vba_ident; equals_re; Group 2 vba_ident; spaces_re; EndLine].

Definition vba_arg (n : nat) : re := Alt (vba_group n) (Group (Datatypes.S n) vba_ident).
Definition reVBAVarReplace : re :=
  cats [litfold "Replace"; lit "("; spaces_re; vba_arg 1; comma_re; vba_arg 3; comma_re; vba_arg 5; spaces_re; lit ")"].

Definition vbaReplaceNeedle : string := "replace(".
Definition vbaChrNeedle : string := "chr".
Definition vbaArrayNeedle : string := "array(".
Definition vbaStrReverseNeedle : string := "strreverse(".
Definition vbaEnvironNeedle : string := "environ".

(** ** Evaluation *)

Definition maxFoldInput : Z := 1048576.
Definition maxMatches : nat := 64.

(** Doubled quotes become one. *)
Definition unquote (s : string) : string := ReplaceAll s (quote +:+ quote) quote.

(** One token of a concatenation: a literal, or a character; an empty first
    group counts as the latter, with code 0. *)
Definition concat_token (s : string) (f : Found) : string :=
  let text := submatch s f 1 in
  if bool_decide (text = "") then
    let n := default 0 (Atoi (submatch s f 2)) in
    if (n <? 0) || (1114111 <? n) then "" else encode_rune n
  else unquote text.

Definition fold_concat (m : string) : string := string_concat (concat_token m <$> FindAll reChrTok m None).

Definition fold_replace (src : string) (f : Found) : string :=
  ReplaceAll (unquote (submatch src f 1)) (unquote (submatch src f 2)) (unquote (submatch src f 3)).

Definition xor_part (key : Z) (p : string) : string :=
  match Atoi (TrimSpace p) with
  | Some n => if (n <? 0) || (255 <? n) then "" else String (ascii_of_Z (Z.lxor n key mod 256)) EmptyString
  | None => ""
  end.

Definition fold_xor (src : string) (f : Found) : string :=
  let key := default 0 (Atoi (TrimSpace (submatch src f 2))) in
  string_concat (xor_part key <$> split_byte (ascii_of_Z 44) "" (submatch src f 1)).

(** [reverseString]: by runes. *)
Definition reverseString (s : string) : string := runes_string (rev (runes s)).

(** *** Dridex *)

(** [stripDigits] *)
Fixpoint kept_digits (zeros : bool) (l : list Z) : string :=
  match l with
  | [] => EmptyString
  | c :: l =>
      if between 48 57 c then String (ascii_of_Z c) (kept_digits zeros l)
      else if zeros then String (ascii_of_Z 48) (kept_digits zeros l)
      else kept_digits zeros l
  end.

Definition stripDigits (s : string) (zeros : bool) : option Z :=
  if existsb (between 48 57) (runes s) then Atoi (kept_digits zeros (runes s)) else None.

(** [s[a:b]]; out of range is a panic, which [dridexURLDecode] recovers from
    and which ends it like every other failure. *)
Definition checked (a b : Z) (s : string) : option string := if (0 <=? a) && (a <=? b) && (b <=? len s) then Some (slice a b s) else None.

Fixpoint dridex_groups (fuel : nat) (width key i : Z) (work : string) : option string :=
  match fuel with
  | O => Some EmptyString
  | Datatypes.S fuel =>
      if len work <=? i then Some EmptyString
      else
        part ← checked i (Z.min (i + width) (len work)) work;
        g ← stripDigits part false;
        let code := g / key in
        if (code <? 32) || (126 <? code) then None
        else rest ← dridex_groups fuel width key (i + width) work; Some (String (ascii_of_Z code) rest)
  end.

Definition dridexURLDecode (input : string) : option string :=
  if len input <? 8 then None
  else
    work ← checked 4 (len input - 4) input;
    if len work <? 4 then None
    else
      let half := len work / 2 in
      a ← checked (half - 2) half work;
      b ← checked half (half + 2) work;
      keyEnc ← stripDigits a true;
      keySize ← stripDigits b true;
      let nCharSize := keySize - keyEnc in
      if (nCharSize <=? 0) || (16 <? nCharSize) then None
      else
        l ← checked 0 (half - 2) work;
        r ← checked (half + 2) (len work) work;
        let work := l +:+ r in
        let half := len work / 2 in
        let k := nCharSize / 2 in
        if (half - k <? 0) || (len work <? half + k) then None
        else
          c ← checked (half - k) (half + k) work;
          keyEnc2 ← stripDigits c false;
          if keyEnc2 =? 0 then None
          else
            l ← checked 0 (half - k) work;
            r ← checked (half + k) (len work) work;
            let work := l +:+ r in
            if len work =? 0 then None
            else
              out ← dridex_groups (Datatypes.S (String.length work)) nCharSize keyEnc2 0 work;
              if len out =? 0 then None else Some out.

(** *** Variables *)

Definition maxVarEntries : nat := 256.
Definition maxLiteralLen : Z := 4096.
Definition maxVarMatches : nat := 64.

Fixpoint collect_vars (src : string) (l : list Found) (vars : gmap string string) : gmap string string :=
  match l with
  | [] => vars
  | f :: l =>
      if (maxVarEntries <=? size vars)%nat then vars
      else
        let name := submatch src f 1 in
        let val := unquote (submatch src f 2) in
        collect_vars src l (if maxLiteralLen <? len val then vars else match vars !! name with Some _ => vars | None => <[name := val]> vars end)
  end.

Fixpoint resolve_aliases (src : string) (l : list Found) (vars : gmap string string) : gmap string string :=
  match l with
  | [] => vars
  | f :: l =>
      let name := submatch src f 1 in
      resolve_aliases src l
        match vars !! name, vars !! submatch src f 2 with
        | None, Some val => <[name := val]> vars
        | _, _ => vars
        end
  end.

Definition resolve (vars : gmap string string) (lit id : string) : option string :=
  if (0 <? len lit) || ((len id =? 0) && (len lit =? 0)) then Some (unquote lit) else vars !! id.

Definition var_replace (vars : gmap string string) (src : string) (f : Found) : option string :=
  let id n := submatch src f n in
  if (len (id 2%nat) =? 0) && (len (id 4%nat) =? 0) && (len (id 6%nat) =? 0) then None
  else
    subj ← resolve vars (submatch src f 1) (id 2%nat);
    old ← resolve vars (submatch src f 3) (id 4%nat);
    new ← resolve vars (submatch src f 5) (id 6%nat);
    Some (ReplaceAll subj old new).

Section Fold.
Context {S : Type} (expiredNow : D S bool) (emit : string → D S bool).

(** [for _, m := range matches { if expired { return false }; ... emit ... }];
    [None] is a match without a result. *)
Fixpoint fold_matches (value : Found → option string) (l : list Found) : D S bool :=
  match l with
  | [] => dret true
  | f :: l =>
      late ⟵ expiredNow ;;
      if (late : bool) then dret false
      else
        match value f with
        | None => fold_matches value l
        | Some b => ok ⟵ emit b ;; if (ok : bool) then fold_matches value l else dret false
        end
  end.

Definition and_then (x y : D S bool) : D S bool := ok ⟵ x ;; if (ok : bool) then y else dret false.

Definition foldVBAVarReplaceMatched (src : string) : D S bool :=
  let vars := collect_vars src (FindAll reVBAStrAssign src None) ∅ in
  if bool_decide (vars = ∅) then dret true
  else
    let vars := resolve_aliases src (FindAll reVBAAlias src None) vars in
    fold_matches (var_replace vars src) (FindAll reVBAVarReplace src (Some maxVarMatches)).

(** The matches of an expression behind its literal gate. *)
Definition gated (gate : bool) (r : re) (src : string) : list Found := if gate then FindAll r src (Some maxMatches) else [].

Definition foldVBAStrings (src : string) : D S bool :=
  let src := clamp maxFoldInput src in
  let hasReplaceCall := asciiContainsFold src vbaReplaceNeedle in
  and_then
    (fold_matches (λ f, Some (fold_concat (submatch src f 0)))
      (gated (ContainsAny src "&+" && (contains quote src || asciiContainsFold src vbaChrNeedle)) reChrConcat src))
  (and_then
    (if hasReplaceCall then fold_matches (λ f, Some (fold_replace src f)) (gated true reReplace src) else dret true)
  (and_then
    (fold_matches (λ f, Some (fold_xor src f)) (gated (asciiContainsFold src vbaArrayNeedle) reArrayXor src))
  (and_then
    (fold_matches (λ f, Some (reverseString (unquote (submatch src f 1)))) (gated (asciiContainsFold src vbaStrReverseNeedle) reStrReverse src))
  (and_then
    (fold_matches (λ f, let name := unquote (submatch src f 1) in if bool_decide (name = "") then None else Some ("VBA-ENVIRON %" +:+ name +:+ "%"))
      (gated (asciiContainsFold src vbaEnvironNeedle) reEnviron src))
  (and_then
    (if hasReplaceCall then foldVBAVarReplaceMatched src else dret true)
    (fold_matches
      (λ f, let m := submatch src f 0 in let inner := slice 1 (len m - 1) m in if Matches dridexNotHex inner then dridexURLDecode inner else None)
      (gated true reDridex src))))))).

End Fold.

Definition folded (src : string) : list string := (foldVBAStrings untimed collecting src []).2.

Definition q (s : string) : string := quote +:+ s +:+ quote.
Example concat_folded : folded ("x = " +:+ q "power" +:+ " & Chr(115) + ChrW$ (104)&" +:+ q "ell") = ["powershell"].
Proof. vm_compute. reflexivity. Qed.
Example replace_folded : folded ("y = Replace(" +:+ q "pXoXwer" +:+ ", " +:+ q "X" +:+ "," +:+ q "" +:+ " )") = ["power"].
Proof. vm_compute. reflexivity. Qed.
Example xor_folded : folded "b = Array(105, 117,  117,113,300) xor 1" = ["http"].
Proof. vm_compute. reflexivity. Qed.
Example reverse_folded : folded ("z = StrReverse(" +:+ q "llehsrewop" +:+ ")") = ["powershell"].
Proof. vm_compute. reflexivity. Qed.
Example environ_folded : folded ("Environ$(" +:+ q "TEMP" +:+ ")") = ["VBA-ENVIRON %TEMP%"].
Proof. vm_compute. reflexivity. Qed.
Example variables_folded :
  folded ("junk = " +:+ q "##" +:+ string_of_bytes [10] +:+ "p = " +:+ q "po##wer" +:+ string_of_bytes [10] +:+ "alias = p" +:+ string_of_bytes [10]
    +:+ "s = Replace(alias, junk, " +:+ q "" +:+ ")") = ["power"].
Proof. vm_compute. reflexivity. Qed.

(** ** Defanged indicators *)

Definition reHxxp : re := cats [litfold "hxxp"; Group 1 (Opt (Cls (foldc (ascii_of_Z 115)))); Group 2 (Alt (lit ":") (lit "["))].
Definition reFxp : re := cats [litfold "fxp"; Group 1 (Alt (lit ":") (lit "["))].
Definition defangHxxpNeedle : string := "hxxp".
Definition defangFxpNeedle : string := "fxp".

Definition defangLiterals : list (string * string) :=
  [("[://]", "://"); ("[//]", "//"); ("[/]", "/"); ("[:]", ":"); ("[.]", "."); ("(.)", "."); ("{.}", "."); ("[dot]", "."); ("[DOT]", ".");
   ("(dot)", "."); ("(DOT)", "."); ("[@]", "@"); ("(@)", "@"); ("[at]", "@"); ("[AT]", "@"); ("(at)", "@"); ("(AT)", "@"); ("[tt]", "tt"); ("[TT]", "TT")].

(** The replacement looks at the match alone. *)
Definition refang (r : re) (g : nat) (scheme : string → string) (m : string) : string :=
  match FindAll r m (Some 1%nat) with
  | [] => scheme "" +:+ ":"
  | f :: _ => let d := submatch m f g in scheme (submatch m f 1) +:+ (if bool_decide (d = "") then ":" else d)
  end.

Definition undefang (buf : string) : string * bool :=
  if len buf =? 0 then (buf, false)
  else
    let src := clamp maxFoldInput buf in
    let hasHxxp := asciiContainsFold src defangHxxpNeedle in
    let hasFxp := asciiContainsFold src defangFxpNeedle in
    if negb hasHxxp && negb hasFxp && negb (ContainsAny src "[({") then (buf, false)
    else
      let out := if hasHxxp then ReplaceAllFunc reHxxp src (λ f, refang reHxxp 2 (λ s, if bool_decide (s = "") then "http" else "https") (submatch src f 0)) else src in
      let out := if hasFxp then ReplaceAllFunc reFxp out (λ f, refang reFxp 1 (λ _, "ftp") (submatch out f 0)) else out in
      let out := foldl (λ out '(old, new), if contains old out then ReplaceAll out old new else out) out defangLiterals in
      if bool_decide (out = src) then (buf, false) else (out, true).

Example url_refanged : undefang "get hXXps[://]evil[.]example(dot)com/a, fxp[:]//x" = ("get https://evil.example.com/a, ftp://x", true).
Proof. vm_compute. reflexivity. Qed.
Example prose_untouched : undefang "see hxxp in (this) report" = ("see hxxp in (this) report", false).
Proof. vm_compute. reflexivity. Qed.

(** An empty literal between two others becomes a zero byte. *)
Example empty_literal_splits_keyword : folded (q "power" +:+ " & " +:+ q "" +:+ " & " +:+ q "shell") = ["power" +:+ nul +:+ "shell"].
Proof. vm_compute. reflexivity. Qed.
