(* ===== verification/DecodeWalk.v ===== *)
(** * Decoding layer by layer

    [fromEncoded] and [decodeSourceTree] of extract/decode.go: which sources
    are decoded, in which order, within which budgets, and what becomes of the
    results. *)

From Stdlib Require Import ZArith Lia.
From Stdlib Require Ascii String.
From stdpp Require Import base gmap strings list numbers.
From S2P Require Import Prelude GoStd GoText Base64 Effort GoRegexp DecodeRuns Retained DecodeFold.

Local Open Scope Z_scope.
Local Open Scope mailstrix_scope.

Definition maxStreams : Z := 256.
Definition minPrefilterRun : Z := 20.
Definition minPrefilterDecRun : Z := 23.
Definition deepDecodeLayer : Z := 3.
Definition maxDecodeDepth : Z := 4.
Definition maxDecodeIterations : Z := 256.

(** ** Which texts are worth decoding *)

Definition prefilterMarkers : list string :=
  ["\x"; "\u"; "%u"; "&h"; "chr"; "replace("; "array("; "strreverse"; "environ"].

Definition isDecSeq (c : Ascii.ascii) : bool := digitc (byte c) || (byte c =? 44) || (byte c =? 59).

(** [None]: a run was long enough. *)
Fixpoint prefilter_loop (b64Run decRun : Z) (hasQuote hasConcatOp : bool) (scan : string) : option (bool * bool) :=
  match scan with
  | EmptyString => Some (hasQuote, hasConcatOp)
  | String c scan =>
      let hasQuote := hasQuote || (byte c =? 34) in
      let hasConcatOp := hasConcatOp || (byte c =? 38) || (byte c =? 43) in
      let b64Run := if isB64 c then b64Run + 1 else 0 in
      if isB64 c && (minPrefilterRun <=? b64Run) then None
      else
        let decRun := if isDecSeq c then decRun + 1 else 0 in
        if isDecSeq c && (minPrefilterDecRun <=? decRun) then None
        else prefilter_loop b64Run decRun hasQuote hasConcatOp scan
  end.

Definition mayBeEncoded (b : string) : bool :=
  if len b =? 0 then false
  else
    let scan := clamp maxFoldInput b in
    match prefilter_loop 0 0 false false scan with
    | None => true
    | Some (hasQuote, hasConcatOp) =>
        (hasQuote && hasConcatOp) || existsb (asciiContainsFold scan) prefilterMarkers || existsb (asciiContainsFold scan) reversedMarkers
    end.

Definition looksEncoded (b : string) : bool :=
  if len b =? 0 then false
  else if negb (mayBeEncoded b) then false
  else
    let scan := clamp maxFoldInput b in
    Matches reBase64 scan || Matches reHex scan || existsb (asciiContainsFold scan) reversedMarkers
    || existsb (λ r, Matches r scan)
         [reChrConcat; reReplace; reArrayXor; reStrReverse; reEnviron; reDridex; reXEsc; reAmpH; reUEsc; reDecSeq; reBase32].

(** ** UTF-16 *)

Definition utf16MinSample : Z := 16.
Definition utf16NULHighPct : Z := 60.
Definition utf16NULLowPct : Z := 20.

Fixpoint utf16_units (bigEndian : bool) (s : string) : list Z :=
  match s with
  | String a (String b s) => (if bigEndian then byte a * 256 + byte b else byte b * 256 + byte a) :: utf16_units bigEndian s
  | _ => []
  end.

Definition decodeUTF16 (b : string) (bigEndian : bool) : string :=
  runes_string (utf16_Decode (utf16_units bigEndian (clamp (maxBytesPerDecodedBlob * 2) b))).

(** The zero bytes at even and at odd offsets, and the pairs, of a sample. *)
Fixpoint nul_counts (s : string) : Z * Z * Z :=
  match s with
  | String a (String b s) =>
      let '(e, o, p) := nul_counts s in ((if byte a =? 0 then e + 1 else e), (if byte b =? 0 then o + 1 else o), p + 1)
  | _ => (0, 0, 0)
  end.

Definition transcodeUTF16 (b : string) : option string :=
  if HasPrefix b (string_of_bytes [255; 254]) then Some (decodeUTF16 (from 2 b) false)
  else if HasPrefix b (string_of_bytes [254; 255]) then Some (decodeUTF16 (from 2 b) true)
  else
    let n := Z.min (len b) textSample in
    if n <? utf16MinSample then None
    else
      let '(evenNUL, oddNUL, pairs) := nul_counts (upto n b) in
      if pairs =? 0 then None
      else if (pairs * utf16NULHighPct <=? oddNUL * 100) && (evenNUL * 100 <=? pairs * utf16NULLowPct) then Some (decodeUTF16 b false)
      else if (pairs * utf16NULHighPct <=? evenNUL * 100) && (oddNUL * 100 <=? pairs * utf16NULLowPct) then Some (decodeUTF16 b true)
      else None.

(** ** Sets of contents *)

Record blobSet := mkBlobs { bs_first : gmap Z string; bs_overflow : list (Z * string) }.
Definition no_blobs : blobSet := mkBlobs ∅ [].

Definition has_blob (s : blobSet) (h : Z) (b : string) : bool :=
  match bs_first s !! h with
  | None => false
  | Some x => bool_decide (x = b) || existsb (λ o, (o.1 =? h) && bool_decide (o.2 = b)) (bs_overflow s)
  end.

Definition add_blob (s : blobSet) (h : Z) (b : string) : blobSet :=
  match bs_first s !! h with
  | Some _ => mkBlobs (bs_first s) (bs_overflow s ++ [(h, b)])
  | None => mkBlobs (<[h := b]> (bs_first s)) (bs_overflow s)
  end.

(** ** One tree *)

(** What a source has used: [blobs], [cum], [iters], [maxLayer], [seen]. *)
Record Budget := mkSrc { t_blobs : Z; t_cum : Z; t_iters : Z; t_maxLayer : Z; t_seen : blobSet }.
Definition fresh_budget : Budget := mkSrc 0 0 0 0 no_blobs.

(** The decoders' state: the result, the budget of the source at hand, the
    children of the item at hand, what was emitted in all, and how often the
    clock was asked. *)
Record DState := mkD { d_res : Result; d_src : Budget; d_children : list Buffer; d_total : Z; d_tick : nat }.

Definition set_res (r : Result) (s : DState) : DState := mkD r (d_src s) (d_children s) (d_total s) (d_tick s).
Definition set_src (t : Budget) (s : DState) : DState := mkD (d_res s) t (d_children s) (d_total s) (d_tick s).
Definition set_children (l : list Buffer) (s : DState) : DState := mkD (d_res s) (d_src s) l (d_total s) (d_tick s).
Definition set_total (n : Z) (s : DState) : DState := mkD (d_res s) (d_src s) (d_children s) n (d_tick s).

Section Walk.
(** Whether the deadline has passed when the clock is asked for the n-th
    time, and the hash of [xxhash]. *)
Context (late : nat → bool) (dedupHash : string → Z).

Definition expiredNow : D DState bool := λ s, (late (d_tick s), mkD (d_res s) (d_src s) (d_children s) (d_total s) (Datatypes.S (d_tick s))).

Definition stream_count (r : Result) : Z := Z.of_nat (length (r_streams r)).

(** A new array, appended as an owned stream. *)
Definition own_stream (b : string) (r : Result) : option Buffer * Result :=
  let '(p, r) := allocate b r in
  let '(p, ok, r) := admitStream p true r in
  if ok : bool then (Some p, with_streams (r_streams r ++ [p]) r) else (None, r).

(** [emit], in layer [curLayer]. *)
Definition emit_blob (curLayer : Z) (b : string) : D DState bool := λ s,
  if len b <? minDecodedLen then (true, s)
  else
    let b := clamp maxBytesPerDecodedBlob b in
    let t := d_src s in
    let h := dedupHash b in
    if has_blob (t_seen t) h b then (true, s)
    else if (maxDecodedBlobs <=? t_blobs t) || (maxStreams <=? stream_count (d_res s)) || (maxCumulativeDecoded <? t_cum t + len b) then (false, s)
    else
      match own_stream b (d_res s) with
      | (None, r) => (false, set_res r s)
      | (Some p, r) =>
          (true, mkD r (mkSrc (t_blobs t + 1) (t_cum t + len b) (t_iters t) (Z.max curLayer (t_maxLayer t)) (add_blob (t_seen t) h b))
                   (d_children s ++ [p]) (d_total s + 1) (d_tick s))
      end.

(** The ten decoders in their order. *)
Definition decode_chain {S} (expiredNow : D S bool) (emit : string → D S bool) (src : string) : D S bool :=
  and_then (decodeBase64Runs expiredNow emit src)
  (and_then (decodeHexRuns expiredNow emit src)
  (and_then (emitReversed emit src)
  (and_then (foldVBAStrings expiredNow emit src)
  (and_then (decodeXEscRuns expiredNow emit src)
  (and_then (decodeAmpHRuns expiredNow emit src)
  (and_then (decodeUEscRuns expiredNow emit src)
  (and_then (decodeDecSeqRuns expiredNow emit src)
  (and_then (decodeNetbiosRuns expiredNow emit src)
    (decodeBase32Runs expiredNow emit src))))))))).

(** [for { if expired(deadline) || more { break }; ... }]: the clock first. *)
Definition stops (more : DState → bool) : D DState bool := λ s,
  let '(l, s) := expiredNow s in (l || more s, s).

Definition out_of_budget (t : Budget) : bool := (maxDecodedBlobs <=? t_blobs t) || (maxCumulativeDecoded <=? t_cum t).

Definition deep_marker (layer : Z) (r : Result) : bool * Result := emit_marker false (msdDeepDecodePrefix +:+ FormatInt layer) r.

(** [decodeSourceTree]'s worklist. *)
Fixpoint tree_loop (fuel : nat) (maxDepth maxIters : Z) (queue : list (string * Z)) : D DState unit := λ s,
  match fuel, queue with
  | O, _ | _, [] => (tt, s)
  | Datatypes.S fuel, (data, depth) :: queue =>
      let '(stop, s) := stops (λ s, (maxIters <=? t_iters (d_src s)) || out_of_budget (d_src s) || (maxStreams <=? stream_count (d_res s))) s in
      if stop : bool then (tt, s)
      else
        let t := d_src s in
        let s := set_src (mkSrc (t_blobs t) (t_cum t) (t_iters t + 1) (t_maxLayer t) (t_seen t)) s in
        if negb (mostlyText data) then tree_loop fuel maxDepth maxIters queue s
        else
          let '(ok, s) := decode_chain expiredNow (emit_blob (depth + 1)) data (set_children [] s) in
          let queue := if depth + 1 <? maxDepth
                       then queue ++ ((λ c, (s_text c, depth + 1)) <$> filter (λ c, looksEncoded (s_text c) = true) (d_children s))
                       else queue in
          if ok : bool then tree_loop fuel maxDepth maxIters queue s else (tt, s)
  end.

(** The number of blobs; the caller's own budget, children and total are not
    touched. *)
Definition decodeSourceTree (src : string) (opts : Options) : D DState Z := λ s0,
  let maxDepth := Z.max 1 (o_DecodeDepth opts) in
  let maxIters := Z.max 1 (o_DecodeIterations opts) in
  let '(_, s) := tree_loop (Datatypes.S (Z.to_nat maxIters)) maxDepth maxIters [(src, 0)] (mkD (d_res s0) fresh_budget [] 0 (d_tick s0)) in
  let t := d_src s in
  let '(blobs, r) :=
    if (deepDecodeLayer <=? t_maxLayer t) && (stream_count (d_res s) <? maxStreams) then
      let '(ok, r) := deep_marker (t_maxLayer t) (d_res s) in (if ok : bool then t_blobs t + 1 else t_blobs t, r)
    else (t_blobs t, d_res s) in
  (blobs, mkD r (d_src s0) (d_children s0) (d_total s0) (d_tick s)).

(** ** All sources *)

(** The UTF-16 pass over the sources there were; it returns the transcoded
    ones. *)
Fixpoint utf16_pass (sources : list string) (u16Blobs u16Cum : Z) : D DState (list string) := λ s,
  match sources with
  | [] => ([], s)
  | src :: sources =>
      let '(stop, s) := stops (λ s, maxStreams <=? stream_count (d_res s)) s in
      if stop : bool then ([], s)
      else
        match transcodeUTF16 src with
        | None => utf16_pass sources u16Blobs u16Cum s
        | Some u8 =>
            if len u8 <? minDecodedLen then utf16_pass sources u16Blobs u16Cum s
            else
              let u8 := clamp maxBytesPerDecodedBlob u8 in
              if (maxDecodedBlobs <=? u16Blobs) || (maxCumulativeDecoded <? u16Cum + len u8) then ([], s)
              else
                match own_stream u8 (d_res s) with
                | (None, r) => ([], set_res r s)
                | (Some _, r) =>
                    let '(l, s) := utf16_pass sources (u16Blobs + 1) (u16Cum + len u8) (set_total (d_total s + 1) (set_res r s)) in
                    (u8 :: l, s)
                end
        end
  end.

(** The first of every content. *)
Fixpoint dedup_sources (seen : blobSet) (sources : list string) : list string :=
  match sources with
  | [] => []
  | s :: sources =>
      let k := dedupHash s in
      if has_blob seen k s then dedup_sources seen sources else s :: dedup_sources (add_blob seen k s) sources
  end.

(** The defang pass; it stops early without looking at the remaining
    sources.  Its result is [textState]: whether each source it reached is
    text. *)
Fixpoint defang_pass (opts : Options) (sources : list string) (defangBlobs defangCum : Z) : D DState (list bool) := λ s,
  match sources with
  | [] => ([], s)
  | src :: sources =>
      let '(stop, s) := stops (λ s, maxStreams <=? stream_count (d_res s)) s in
      if stop : bool then ([], s)
      else
        let '(blobs, cum, s) :=
          if mostlyText src then
            let '(ud, changed) := undefang src in
            if changed && (minDecodedLen <=? len ud) then
              let ud := clamp maxBytesPerDecodedBlob ud in
              if (defangBlobs <? maxDecodedBlobs) && (defangCum + len ud <=? maxCumulativeDecoded) && (stream_count (d_res s) <? maxStreams) then
                match own_stream ud (d_res s) with
                | (None, r) => (defangBlobs, defangCum, set_res r s)
                | (Some _, r) =>
                    let s := set_total (d_total s + 1) (set_res r s) in
                    let s := if looksEncoded ud then let '(n, s) := decodeSourceTree ud opts s in set_total (d_total s + n) s else s in
                    (defangBlobs + 1, defangCum + len ud, s)
                end
              else (defangBlobs, defangCum, s)
            else (defangBlobs, defangCum, s)
          else (defangBlobs, defangCum, s) in
        let '(texts, s) := defang_pass opts sources blobs cum s in (mostlyText src :: texts, s)
  end.

Fixpoint decode_sources (texts : list bool) (sources : list string) : list string :=
  match sources with
  | [] => []
  | src :: sources =>
      let text := match texts with t :: _ => t | [] => mostlyText src end in
      if text && mayBeEncoded src then src :: decode_sources (tail texts) sources else decode_sources (tail texts) sources
  end.

(** An item of the global queue: data, depth, source. *)
Definition item : Type := string * Z * nat.

(** One item, with the budget of its source taken out and put back. *)
Definition walk_item (maxDepth maxItersPerSource : Z) (data : string) (depth : Z) : D DState (list (string * Z)) := λ s,
  let t := d_src s in
  if (maxItersPerSource <=? t_iters t) || out_of_budget t then ([], s)
  else if (0 <? depth) && negb (mostlyText data) then ([], s)
  else if (0 <? depth) && negb (mayBeEncoded data) then ([], s)
  else
    let s := set_children [] (set_src (mkSrc (t_blobs t) (t_cum t) (t_iters t + 1) (t_maxLayer t) (t_seen t)) s) in
    let '(_, s) := decode_chain expiredNow (emit_blob (depth + 1)) data s in
    (if depth + 1 <? maxDepth then (λ c, (s_text c, depth + 1)) <$> filter (λ c, looksEncoded (s_text c) = true) (d_children s) else [], s).

Fixpoint walk_loop (fuel : nat) (maxDepth maxIters : Z) (states : list Budget) (queue : list item) : D DState (list Budget) := λ s,
  match fuel, queue with
  | O, _ | _, [] => (states, s)
  | Datatypes.S fuel, (data, depth, i) :: queue =>
      let '(stop, s) := stops (λ s, maxStreams <=? stream_count (d_res s)) s in
      if stop : bool then (states, s)
      else
        let '(children, s) := walk_item maxDepth maxIters data depth (set_src (default fresh_budget (states !! i)) s) in
        walk_loop fuel maxDepth maxIters (<[i := d_src s]> states) (queue ++ ((λ c, (c.1, c.2, i)) <$> children)) s
  end.

Fixpoint mark_deep (states : list Budget) : D DState unit := λ s,
  match states with
  | [] => (tt, s)
  | t :: states =>
      let '(stop, s) := stops (λ s, maxStreams <=? stream_count (d_res s)) s in
      if stop : bool then (tt, s)
      else if deepDecodeLayer <=? t_maxLayer t then
        let '(ok, r) := deep_marker (t_maxLayer t) (d_res s) in
        mark_deep states (if ok : bool then set_total (d_total s + 1) (set_res r s) else set_res r s)
      else mark_deep states s
  end.

(** Every item but the sources was emitted as a blob of its source. *)
Definition walk_fuel (sources : list string) : nat := length sources * Datatypes.S (Z.to_nat maxDecodedBlobs).

(** The sources to walk over, and the state the walk starts in. *)
Definition prepare (buf : string) (opts : Options) (r : Result) (tick : nat) : list string * DState :=
  let sources := buf :: texts (r_streams r) in
  let '(u8s, s) := utf16_pass sources 0 0 (mkD r fresh_budget [] 0 tick) in
  let sources := sources ++ u8s in
  let sources := if (1 <? length sources)%nat then dedup_sources no_blobs sources else sources in
  let '(texts, s) := defang_pass opts sources 0 0 s in
  (decode_sources texts sources, s).

Definition walk_sources (sources : list string) (opts : Options) : D DState (list Budget) :=
  walk_loop (walk_fuel sources) (Z.max 1 (o_DecodeDepth opts)) (Z.max 1 (o_DecodeIterations opts))
    ((λ _, fresh_budget) <$> sources) (imap (λ i src, (src, 0, i)) sources).

Definition fromEncoded (buf : string) (opts : Options) (r : Result) (tick : nat) : Result * nat :=
  let '(sources, s) := prepare buf opts r tick in
  let '(states, s) := walk_sources sources opts s in
  let '(_, s) := mark_deep states s in
  (with_decoded (d_total s) (d_res s), d_tick s).

End Walk.
