(* ===== verification/DecodePlay.v ===== *)
(** * What a decoder offers

    While the clock does not run out, a decoder is a list of texts: it hands
    them to [emit] in order and stops at the first it refuses, whatever
    [emit] does with them. *)

From Stdlib Require Import ZArith Lia.
From Stdlib Require Ascii String.
From stdpp Require Import base gmap strings list numbers.
From S2P Require Import Prelude GoStd GoText Base64 Effort GoRegexp DecodeRuns DecodeRegexp Retained DecodeFold DecodeWalk.

Local Open Scope Z_scope.
Local Open Scope mailstrix_scope.

(** Hand over the texts until one is refused. *)
Fixpoint play {S} (emit : string → D S bool) (l : list string) : D S bool :=
  match l with
  | [] => dret true
  | b :: l => ok ⟵ emit b ;; if (ok : bool) then play emit l else dret false
  end.

Lemma play_app {S} (emit : string → D S bool) l1 l2 s : play emit (l1 ++ l2) s = and_then (play emit l1) (play emit l2) s.
Proof.
  revert s. induction l1 as [|b l1 IH]; intros s; [done|]. cbn [app play]. unfold and_then, dbind in *.
  destruct (emit b s) as [[] s']; [apply IH|done].
Qed.

Definition opt_list {A} (o : option A) : list A := match o with Some a => [a] | None => [] end.

(** The texts of all runs. *)
Fixpoint run_texts (fuel : nat) (found : string → option (list string * Z)) (rest : string) : list string :=
  match fuel with
  | O => []
  | Datatypes.S fuel =>
      if len rest =? 0 then []
      else match found rest with None => [] | Some (l, e) => l ++ run_texts fuel found (from e rest) end
  end.

(** ** The texts of every decoder *)

(** The run of a scan, and what is made of it. *)
Definition scan_found (r : Z * Z * bool) (made : string → bool → list string) (rest : string) : option (list string * Z) :=
  let '(start, e, c) := r in if start <? 0 then None else Some (made (slice start e rest) c, e).

Definition regexp_found (r : re) (made : string → list string) (rest : string) : option (list string * Z) :=
  match FindIndex r rest with None => None | Some (a, b) => Some (made (substring rest a b), Z.of_nat b) end.

Definition all_texts (found : string → option (list string * Z)) (src : string) : list string := run_texts (String.length src) found src.

Definition base64_made (run : string) (hexOnly : bool) : list string := if hexOnly then [] else opt_list (tryBase64 run).
Definition base64_texts : string → list string :=
  all_texts (λ rest, scan_found (nextDecodeRunUntil untimed rest false tt).1 base64_made rest).

Definition hex_made (run : string) (_ : bool) : list string := opt_list (hex_decode (clamp maxHexEncoded run)).
Definition hex_texts : string → list string :=
  all_texts (λ rest, scan_found (nextDecodeRunUntil untimed rest true tt).1 hex_made rest).

Definition xesc_made (run : string) : list string := [xesc_bytes (clamp_to maxXEscEncoded (maxXEscEncoded - maxXEscEncoded mod 4) run)].
Definition xesc_texts : string → list string := all_texts (regexp_found reXEsc xesc_made).

Definition amph_made (run : string) : list string :=
  let run := clamp maxAmpHEncoded run in
  match FindAll reAmpHTok run None with
  | [] => []
  | toks => [string_concat ((λ tok, String (amph_byte run tok) EmptyString) <$> toks)]
  end.
Definition amph_texts : string → list string := all_texts (regexp_found reAmpH amph_made).

Definition uesc_made (run : string) : list string :=
  match uesc_units (clamp_to maxUEscEncoded (maxUEscEncoded - maxUEscEncoded mod 6) run) with
  | [] => []
  | units => [runes_string (utf16_Decode units)]
  end.
Definition uesc_texts : string → list string := all_texts (regexp_found reUEsc uesc_made).

Definition decseq_made (run : string) (_ : bool) : list string :=
  match (decseq_parse untimed 0 0 None [] (decseq_candidate run) tt).1 with
  | Some (Some dec) => if minDecSeqRun <=? Z.of_nat (length dec) then [string_of_bytes dec] else []
  | _ => []
  end.
Definition decseq_texts : string → list string :=
  all_texts (λ rest, let r := (nextDecSeqRunUntil untimed rest tt).1 in scan_found (r.1, r.2, false) decseq_made rest).

Definition netbios_made (run : string) (_ : bool) : list string :=
  let run := clamp maxNetbiosEncoded run in
  let run := if negb (len run mod 2 =? 0) then upto (len run - 1) run else run in
  match (netbios_bytes untimed 0 "" run tt).1 with
  | Some (Some dec) => if mostlyText dec || hasContainerMagic dec then [dec] else []
  | _ => []
  end.
Definition netbios_texts : string → list string :=
  all_texts (λ rest, scan_found (nextScalarRunUntil untimed rest false tt).1 netbios_made rest).

Definition base32_made (run : string) (distinctive : bool) : list string :=
  if negb distinctive then [] else opt_list (tryBase32 (clamp_to maxBase32Encoded (maxBase32Encoded - maxBase32Encoded mod 8) run)).
Definition base32_texts : string → list string :=
  all_texts (λ rest, scan_found (nextScalarRunUntil untimed rest true tt).1 base32_made rest).

Definition reversed_texts (src : string) : list string :=
  if (len src =? 0) || (maxReverseInput <? len src) then []
  else if negb (existsb (asciiContainsFold src) reversedMarkers) then []
  else [string_rev EmptyString src].

Definition var_texts (src : string) : list string :=
  let vars := collect_vars src (FindAll reVBAStrAssign src None) ∅ in
  if bool_decide (vars = ∅) then []
  else omap (var_replace (resolve_aliases src (FindAll reVBAAlias src None) vars) src) (FindAll reVBAVarReplace src (Some maxVarMatches)).

Definition dridex_made (src : string) (f : Found) : option string :=
  let m := submatch src f 0 in
  let inner := slice 1 (len m - 1) m in
  if Matches dridexNotHex inner then dridexURLDecode inner else None.

Definition environ_made (src : string) (f : Found) : option string :=
  let name := unquote (submatch src f 1) in if bool_decide (name = "") then None else Some ("VBA-ENVIRON %" +:+ name +:+ "%").

Definition fold_texts (src : string) : list string :=
  let src := clamp maxFoldInput src in
  let hasReplaceCall := asciiContainsFold src vbaReplaceNeedle in
  ((λ f, fold_concat (submatch src f 0)) <$>
    gated (ContainsAny src "&+" && (contains quote src || asciiContainsFold src vbaChrNeedle)) reChrConcat src)
  ++ (if hasReplaceCall then fold_replace src <$> gated true reReplace src else [])
  ++ (fold_xor src <$> gated (asciiContainsFold src vbaArrayNeedle) reArrayXor src)
  ++ ((λ f, reverseString (unquote (submatch src f 1))) <$> gated (asciiContainsFold src vbaStrReverseNeedle) reStrReverse src)
  ++ omap (environ_made src) (gated (asciiContainsFold src vbaEnvironNeedle) reEnviron src)
  ++ (if hasReplaceCall then var_texts src else [])
  ++ omap (dridex_made src) (gated true reDridex src).

(** All that one pass over a source offers. *)
Definition chain_texts (src : string) : list string :=
  base64_texts src ++ hex_texts src ++ reversed_texts src ++ fold_texts src ++ xesc_texts src ++ amph_texts src ++ uesc_texts src
  ++ decseq_texts src ++ netbios_texts src ++ base32_texts src.

(** Without a clock the conversions end. *)
Lemma decseq_parse_some run : ∀ i n sep dec, (decseq_parse (S := unit) untimed i n sep dec run tt).1 ≠ None.
Proof.
  induction run as [|d run IH]; intros i n sep dec; cbn [decseq_parse]; rewrite clock_check_untimed, dbind_untimed; cbn iota; [done|].
  repeat case_match; try done; apply IH.
Qed.

Lemma netbios_bytes_some run : ∀ i dec, (netbios_bytes (S := unit) untimed i dec run tt).1 ≠ None.
Proof.
  induction run as [| |a b run IH] using string_ind2; intros i dec; cbn [netbios_bytes]; try done.
  rewrite clock_check_untimed, dbind_untimed. cbn iota. case_match; [done|apply IH].
Qed.

(** ** Quiet clocks

    States are compared up to what the clock changes. *)
Record Quiet {S : Type} (R : S → S → Prop) (expiredNow : D S bool) (emit : string → D S bool) : Prop := mkQuiet {
  q_pre : PreOrder R;
  q_clock : ∀ s, ∃ s', expiredNow s = (false, s') ∧ R s s';
  q_emit : ∀ b s s', R s s' → (emit b s').1 = (emit b s).1 ∧ R (emit b s).2 (emit b s').2 }.

Section Plays.
Context {S : Type} (R : S → S → Prop) (expiredNow : D S bool) (emit : string → D S bool) (HQ : Quiet R expiredNow emit).

#[local] Instance R_pre : PreOrder R := q_pre _ _ _ HQ.

(** [x] gives [a] and moves only the clock. *)
Definition silent {A} (x : D S A) (a : A) : Prop := ∀ s, ∃ s', x s = (a, s') ∧ R s s'.

Lemma silent_ret {A} (a : A) : silent (dret a) a.
Proof. intros s. exists s. by split. Qed.

Lemma silent_bind {A B} (x : D S A) (f : A → D S B) a b : silent x a → silent (f a) b → silent (dbind x f) b.
Proof.
  intros Hx Hf s. destruct (Hx s) as (s1 & E1 & R1). destruct (Hf s1) as (s2 & E2 & R2). exists s2. unfold dbind. rewrite E1, E2. split; [done|by etransitivity].
Qed.

Lemma silent_clock : silent expiredNow false.
Proof. exact (q_clock _ _ _ HQ). Qed.

Lemma silent_check i : silent (clock_check expiredNow i) false.
Proof. unfold clock_check. destruct (i mod 4096 =? 0); [apply silent_clock|apply silent_ret]. Qed.

(** [x] emits [l], and answers with [yes] when all was accepted. *)
Definition plays {A} (yes no : A) (x : D S A) (l : list string) : Prop :=
  ∀ s s', R s s' → (x s').1 = (if (play emit l s).1 then yes else no) ∧ R (play emit l s).2 (x s').2.

Lemma play_R l : ∀ s s', R s s' → (play emit l s').1 = (play emit l s).1 ∧ R (play emit l s).2 (play emit l s').2.
Proof.
  induction l as [|b l IH]; intros s s' Hs; [done|]. cbn [play]. unfold dbind. pose proof (q_emit _ _ _ HQ b s s' Hs) as [H1 H2].
  destruct (emit b s) as [ok s1], (emit b s') as [ok' s1']. cbn in *. subst ok'. destruct ok; [by apply IH|done].
Qed.

Lemma plays_silent {A} (x : D S A) (yes no : A) : silent x yes → plays yes no x [].
Proof. intros Hx s s' Hs. destruct (Hx s') as (s2 & -> & HR). cbn. split; [done|by etransitivity]. Qed.

Lemma plays_after {A B} (x : D S A) (f : A → D S B) a yes no l : silent x a → plays yes no (f a) l → plays yes no (dbind x f) l.
Proof.
  intros Hx Hf s s' Hs. unfold dbind. destruct (Hx s') as (s2 & -> & HR). apply Hf. by etransitivity.
Qed.

(** One part after another; only the first may be refused before the second
    runs. *)
Lemma plays_then {A B} (x : D S A) (f : A → D S B) (yes no : A) (yes' no' : B) l1 l2 :
  plays yes no x l1 → plays yes' no' (f yes) l2 → (∀ s, f no s = (no', s)) → plays yes' no' (dbind x f) (l1 ++ l2).
Proof.
  intros Hx Hf Hno s s' Hs. rewrite play_app. unfold and_then, dbind. destruct (Hx s s' Hs) as [H1 H2].
  destruct (x s') as [a s1], (play emit l1 s) as [ok s2]. cbn in *. subst a. destruct ok; [by apply Hf|]. by rewrite Hno.
Qed.

Lemma plays_emit b : plays true false (emit b) [b].
Proof.
  intros s s' Hs. cbn [play]. unfold dbind. pose proof (q_emit _ _ _ HQ b s s' Hs) as [H1 H2].
  destruct (emit b s) as [ok s1], (emit b s') as [ok' s1']. cbn in *. subst ok'. by destruct ok.
Qed.

Lemma plays_and_then (x y : D S bool) l1 l2 : plays true false x l1 → plays true false y l2 → plays true false (and_then x y) (l1 ++ l2).
Proof. intros Hx Hy. unfold and_then. by apply (plays_then x _ true false). Qed.

(** ** Answers of a run *)

Definition answers (x : D S (option bool)) (l : list string) : Prop := plays None (Some false) x l.

Lemma answers_go_on : answers go_on [].
Proof. apply plays_silent, silent_ret. Qed.

Lemma answers_emitting d : answers (emitting emit d) [d].
Proof.
  intros s s' Hs. unfold emitting, dbind, dret. destruct (plays_emit d s s' Hs) as [H1 H2].
  destruct (emit d s') as [ok' s1'], (play emit [d] s) as [ok s1]. cbn in *. subst ok'. by destruct ok.
Qed.

Lemma answers_emit_opt o : answers (emit_opt emit o) (opt_list o).
Proof. destruct o; [apply answers_emitting|apply answers_go_on]. Qed.

(** What a search finds: the texts its run offers, and its end. *)
Definition finds (next : D S (option (D S (option bool) * Z))) (x : option (list string * Z)) : Prop :=
  match x with
  | None => silent next None
  | Some (l, e) => ∃ handle, silent next (Some (handle, e)) ∧ answers handle l
  end.

Lemma plays_runs next found : (∀ rest, finds (next rest) (found rest)) → ∀ fuel rest, plays true false (runs_loop expiredNow fuel next rest) (run_texts fuel found rest).
Proof.
  intros Hn. induction fuel as [|fuel IH]; intros rest; cbn [runs_loop run_texts]; [apply plays_silent, silent_ret|].
  destruct (len rest =? 0); [apply plays_silent, silent_ret|].
  apply (plays_after expiredNow _ false); [apply silent_clock|]. specialize (Hn rest). destruct (found rest) as [[l e]|].
  - destruct Hn as (handle & Hn & Ha). apply (plays_after (next rest) _ (Some (handle, e))); [done|].
    apply (plays_then handle _ None (Some false)); [exact Ha|exact (IH _)|done].
  - apply (plays_after (next rest) _ None); [done|]. apply plays_silent, silent_ret.
Qed.

(** ** Scans move only the clock *)

Lemma run_loop_silent hexMode src : ∀ i start h, silent (run_loop expiredNow hexMode i start h src) (run_loop untimed hexMode i start h src tt).1.
Proof.
  induction src as [|c src IH]; intros i start h; cbn [run_loop].
  - apply (silent_bind _ _ false); [apply silent_check|]. rewrite clock_check_untimed. case_match; apply silent_ret.
  - apply (silent_bind _ _ false); [apply silent_check|]. rewrite clock_check_untimed, dbind_untimed.
    destruct (if hexMode then isHex c else isB64 c); [apply IH|]. destruct (_ && _); [apply silent_ret|apply IH].
Qed.
Lemma base32_end_silent n : ∀ rest i e, silent (base32_end expiredNow n i e rest) (base32_end untimed n i e rest tt).1.
Proof.
  induction n as [|n IH]; intros [|c rest] i e; cbn [base32_end]; try apply silent_ret. destruct (byte c =? 61); [|apply silent_ret].
  apply (silent_bind _ _ false); [destruct (_ && _); [apply silent_clock|apply silent_ret]|]. destruct (_ && _); apply IH.
Qed.

Lemma scalar_end_silent base32Mode start i d rest : silent (scalar_end expiredNow base32Mode start i d rest) (scalar_end untimed base32Mode start i d rest tt).1.
Proof.
  unfold scalar_end. destruct base32Mode; [|apply silent_ret]. pose proof (base32_end_silent 6 rest i i) as H. unfold dbind.
  destruct (base32_end untimed 6 i i rest tt) as [e []]. cbn [fst] in *. by apply (silent_bind _ _ e _ H), silent_ret.
Qed.

Lemma scalar_loop_silent base32Mode src : ∀ i start d, silent (scalar_loop expiredNow base32Mode i start d src) (scalar_loop untimed base32Mode i start d src tt).1.
Proof.
  induction src as [|c src IH]; intros i start d; cbn [scalar_loop]; (apply (silent_bind _ _ false); [apply silent_check|]); rewrite clock_check_untimed, dbind_untimed.
  - destruct (_ && _); [apply scalar_end_silent|apply silent_ret].
  - destruct (if base32Mode then isBase32 c else isNetbios c); [apply IH|]. destruct (_ && _); [apply scalar_end_silent|apply IH].
Qed.

Lemma decseq_loop_silent src : ∀ i start e k j, silent (decseq_loop expiredNow i start e k j src) (decseq_loop untimed i start e k j src tt).1.
Proof.
  induction src as [|c src IH]; intros i start e k j; cbn [decseq_loop]; (apply (silent_bind _ _ false); [apply silent_check|]); rewrite clock_check_untimed, dbind_untimed.
  - apply silent_ret.
  - repeat case_match; try apply silent_ret; apply IH.
Qed.

Lemma decseq_parse_silent run : ∀ i n sep dec, silent (decseq_parse expiredNow i n sep dec run) (decseq_parse untimed i n sep dec run tt).1.
Proof.
  induction run as [|c run IH]; intros i n sep dec; cbn [decseq_parse]; (apply (silent_bind _ _ false); [apply silent_check|]); rewrite clock_check_untimed, dbind_untimed.
  - apply silent_ret.
  - repeat case_match; try apply silent_ret; apply IH.
Qed.

Lemma netbios_bytes_silent i dec run : silent (netbios_bytes expiredNow i dec run) (netbios_bytes untimed i dec run tt).1.
Proof.
  revert i dec. induction run as [| |a b run IH] using string_ind2; intros i dec; cbn [netbios_bytes]; try apply silent_ret.
  apply (silent_bind _ _ false); [apply silent_check|]. rewrite clock_check_untimed, dbind_untimed. repeat case_match; try apply silent_ret; apply IH.
Qed.

(** ** The decoders *)

Lemma finds_scanned scan handle rest r made :
  silent (scan rest) r → (∀ run c, answers (handle run c) (made run c)) → finds (scanned_run scan handle rest) (scan_found r made rest).
Proof.
  intros Hs Hh. unfold scanned_run, scan_found, finds. destruct r as [[start e] c]. destruct (start <? 0) eqn:Hstart.
  - apply (silent_bind _ _ (start, e, c)); [done|]. rewrite Hstart. apply silent_ret.
  - eexists. split; [|apply Hh]. apply (silent_bind _ _ (start, e, c)); [done|]. rewrite Hstart. apply silent_ret.
Qed.

Lemma finds_regexp r handle rest made : (∀ run, answers (handle run) (made run)) → finds (regexp_run r handle rest) (regexp_found r made rest).
Proof.
  intros Hh. unfold regexp_run, regexp_found, finds. destruct (FindIndex r rest) as [[a b]|]; [|apply silent_ret].
  eexists. split; [apply silent_ret|apply Hh].
Qed.

Lemma plays_all next found src : (∀ rest, finds (next rest) (found rest)) → plays true false (decode_runs expiredNow next src) (all_texts found src).
Proof. intros Hn. by apply plays_runs. Qed.

Lemma plays_base64 src : plays true false (decodeBase64Runs expiredNow emit src) (base64_texts src).
Proof.
  apply plays_all. intros rest. apply finds_scanned; [apply run_loop_silent|]. intros run [].
  - apply answers_go_on.
  - apply answers_emit_opt.
Qed.

Lemma plays_hex src : plays true false (decodeHexRuns expiredNow emit src) (hex_texts src).
Proof. apply plays_all. intros rest. apply finds_scanned; [apply run_loop_silent|]. intros run c. apply answers_emit_opt. Qed.

Lemma plays_xesc src : plays true false (decodeXEscRuns expiredNow emit src) (xesc_texts src).
Proof. apply plays_all. intros rest. apply finds_regexp. intros run. apply answers_emitting. Qed.

Lemma plays_amph src : plays true false (decodeAmpHRuns expiredNow emit src) (amph_texts src).
Proof.
  apply plays_all. intros rest. apply finds_regexp. intros run. unfold amph_made. cbv zeta. destruct (FindAll _ _ _); [apply answers_go_on|apply answers_emitting].
Qed.

Lemma plays_uesc src : plays true false (decodeUEscRuns expiredNow emit src) (uesc_texts src).
Proof.
  apply plays_all. intros rest. apply finds_regexp. intros run. unfold uesc_made. destruct (uesc_units _); [apply answers_go_on|apply answers_emitting].
Qed.

Lemma plays_decseq src : plays true false (decodeDecSeqRuns expiredNow emit src) (decseq_texts src).
Proof.
  apply plays_all. intros rest. apply finds_scanned.
  - apply (silent_bind _ _ (nextDecSeqRunUntil untimed rest tt).1); [apply decseq_loop_silent|apply silent_ret].
  - intros run c. unfold decseq_handle, decseq_made. set (r := (decseq_parse untimed 0 0 None [] (decseq_candidate run) tt).1).
    apply (plays_after _ _ r); [apply decseq_parse_silent|].
    pose proof (decseq_parse_some (decseq_candidate run) 0 0 None []) as Hr. fold r in Hr.
    destruct r as [[dec|]|]; [|apply answers_go_on|done]. destruct (_ <=? _); [apply answers_emitting|apply answers_go_on].
Qed.

Lemma plays_netbios src : plays true false (decodeNetbiosRuns expiredNow emit src) (netbios_texts src).
Proof.
  apply plays_all. intros rest. apply finds_scanned; [apply scalar_loop_silent|]. intros run c. unfold netbios_handle, netbios_made. cbv zeta.
  set (run' := if negb _ then _ else _). set (r := (netbios_bytes untimed 0 "" run' tt).1).
  apply (plays_after _ _ r); [apply netbios_bytes_silent|].
  pose proof (netbios_bytes_some run' 0 EmptyString) as Hr. fold r in Hr.
  destruct r as [[dec|]|]; [|apply answers_go_on|done]. destruct (_ || _); [apply answers_emitting|apply answers_go_on].
Qed.

Lemma plays_base32 src : plays true false (decodeBase32Runs expiredNow emit src) (base32_texts src).
Proof.
  apply plays_all. intros rest. apply finds_scanned; [apply scalar_loop_silent|]. intros run d. unfold base32_made. destruct (negb d); [apply answers_go_on|apply answers_emit_opt].
Qed.

Lemma plays_reversed src : plays true false (emitReversed emit src) (reversed_texts src).
Proof.
  unfold emitReversed, reversed_texts. destruct (_ || _); [apply plays_silent, silent_ret|]. destruct (negb _); [apply plays_silent, silent_ret|apply plays_emit].
Qed.

Lemma plays_matches value l : plays true false (fold_matches expiredNow emit value l) (omap value l).
Proof.
  induction l as [|f l IH]; [apply plays_silent, silent_ret|]. cbn [fold_matches omap list_omap].
  apply (plays_after _ _ false); [apply silent_clock|]. destruct (value f) as [b|]; [|exact IH].
  exact (plays_then (emit b) _ true false true false [b] (omap value l) (plays_emit b) IH (λ s, eq_refl)).
Qed.

Lemma omap_Some {A B} (f : A → B) (l : list A) : omap (λ x, Some (f x)) l = f <$> l.
Proof. induction l as [|x l IH]; [done|]. cbn. by rewrite <- IH. Qed.

Lemma plays_fold src : plays true false (foldVBAStrings expiredNow emit src) (fold_texts src).
Proof.
  unfold foldVBAStrings, fold_texts. cbv zeta. set (s := clamp maxFoldInput src). rewrite <- !omap_Some.
  repeat apply plays_and_then; try apply plays_matches.
  - destruct (asciiContainsFold s vbaReplaceNeedle); [apply plays_matches|apply plays_silent, silent_ret].
  - destruct (asciiContainsFold s vbaReplaceNeedle); [|apply plays_silent, silent_ret]. unfold foldVBAVarReplaceMatched, var_texts. cbv zeta.
    case_bool_decide; [apply plays_silent, silent_ret|apply plays_matches].
Qed.

Lemma plays_chain src : plays true false (decode_chain expiredNow emit src) (chain_texts src).
Proof.
  unfold decode_chain, chain_texts.
  apply plays_and_then; [apply plays_base64|]. apply plays_and_then; [apply plays_hex|]. apply plays_and_then; [apply plays_reversed|].
  apply plays_and_then; [apply plays_fold|]. apply plays_and_then; [apply plays_xesc|]. apply plays_and_then; [apply plays_amph|].
  apply plays_and_then; [apply plays_uesc|]. apply plays_and_then; [apply plays_decseq|]. apply plays_and_then; [apply plays_netbios|apply plays_base32].
Qed.

End Plays.

(** ** What no decoder breaks

    Whatever the clock and [emit] keep is kept by every decoder. *)
Section Keeps.
Context {S : Type} (I : S → Prop) (expiredNow : D S bool) (emit : string → D S bool).

Definition keeps {A} (x : D S A) : Prop := ∀ s, I s → I (x s).2.

Context (Hclock : keeps expiredNow) (Hemit : ∀ b, keeps (emit b)).

Lemma kept_ret {A} (a : A) : keeps (dret a).
Proof. by intros s. Qed.

Lemma kept_bind {A B} (x : D S A) (f : A → D S B) : keeps x → (∀ a, keeps (f a)) → keeps (dbind x f).
Proof. intros Hx Hf s Hs. unfold dbind. specialize (Hx s Hs). destruct (x s) as [a s']. by apply Hf. Qed.

Lemma keeps_check i : keeps (clock_check expiredNow i).
Proof. unfold clock_check. destruct (_ =? 0); [apply Hclock|apply kept_ret]. Qed.

#[local] Hint Resolve kept_ret keeps_check Hclock Hemit : core.
Ltac keep := repeat (first [progress eauto | apply kept_bind; [eauto|intros ?] | case_match]).
#[local] Opaque clock_check.

Lemma keeps_run_loop h src : ∀ i start x, keeps (run_loop expiredNow h i start x src).
Proof. induction src as [|c src IH]; intros i start x; cbn [run_loop]; keep. Qed.

Lemma keeps_base32_end n : ∀ rest i e, keeps (base32_end expiredNow n i e rest).
Proof. induction n as [|n IH]; intros [|c rest] i e; cbn [base32_end]; keep. Qed.

Lemma keeps_scalar_end b start i d rest : keeps (scalar_end expiredNow b start i d rest).
Proof. unfold scalar_end. destruct b; [|auto]. apply kept_bind; [apply keeps_base32_end|auto]. Qed.

#[local] Hint Resolve keeps_scalar_end : core.
Lemma keeps_scalar_loop b src : ∀ i start d, keeps (scalar_loop expiredNow b i start d src).
Proof. induction src as [|c src IH]; intros i start d; cbn [scalar_loop]; keep. Qed.

Lemma keeps_decseq_loop src : ∀ i start e k j, keeps (decseq_loop expiredNow i start e k j src).
Proof. induction src as [|c src IH]; intros i start e k j; cbn [decseq_loop]; keep. Qed.

Lemma keeps_decseq_parse run : ∀ i n sep dec, keeps (decseq_parse expiredNow i n sep dec run).
Proof. induction run as [|c run IH]; intros i n sep dec; cbn [decseq_parse]; keep. Qed.

Lemma keeps_netbios_bytes run : ∀ i dec, keeps (netbios_bytes expiredNow i dec run).
Proof. induction run as [| |a b run IH] using string_ind2; intros i dec; cbn [netbios_bytes]; keep. Qed.

Lemma keeps_emitting d : keeps (emitting emit d).
Proof. unfold emitting. keep. Qed.

Lemma keeps_emit_opt d : keeps (emit_opt emit d).
Proof. unfold emit_opt, go_on. destruct d; [apply keeps_emitting|auto]. Qed.

#[local] Hint Resolve keeps_emitting keeps_emit_opt keeps_run_loop keeps_scalar_loop keeps_decseq_loop keeps_decseq_parse keeps_netbios_bytes : core.

(** A search keeps [I], and so does the handling of the run it found. *)
Definition keeps_found (next : D S (option (D S (option bool) * Z))) : Prop :=
  ∀ s, I s → I (next s).2 ∧ match (next s).1 with Some (handle, _) => keeps handle | None => True end.

Lemma keeps_runs next : (∀ rest, keeps_found (next rest)) → ∀ fuel rest, keeps (runs_loop expiredNow fuel next rest).
Proof.
  intros Hn. induction fuel as [|fuel IH]; intros rest; cbn [runs_loop]; [auto|]. destruct (len rest =? 0); [auto|].
  apply kept_bind; [auto|]. intros []; [auto|]. intros s Hs. unfold dbind at 1. specialize (Hn rest s Hs) as [H1 H2].
  destruct (next rest s) as [[[handle e]|] s']; cbn in *; [|done].
  apply (kept_bind handle (λ answer, match answer with None => runs_loop expiredNow fuel next (from e rest) | Some b => dret b end)); [done| |done].
  intros [b|]; [auto|apply IH].
Qed.

Lemma keeps_scanned scan handle rest : keeps (scan rest) → (∀ run c, keeps (handle run c)) → keeps_found (scanned_run scan handle rest).
Proof.
  intros Hs Hh s Hi. unfold scanned_run, dbind, dret. specialize (Hs s Hi). destruct (scan rest s) as [[[start e] c] s']. cbn. split; [done|].
  by destruct (start <? 0).
Qed.

Lemma keeps_regexp r handle rest : (∀ run, keeps (handle run)) → keeps_found (regexp_run r handle rest).
Proof. intros Hh s Hi. unfold regexp_run, dret. cbn. split; [done|]. by destruct (FindIndex r rest) as [[a b]|]. Qed.

Lemma keeps_and_then x y : keeps x → keeps y → keeps (and_then x y).
Proof. intros Hx Hy. unfold and_then. apply kept_bind; [done|]. intros []; auto. Qed.

Lemma keeps_matches value l : keeps (fold_matches expiredNow emit value l).
Proof. induction l as [|f l IH]; cbn [fold_matches]; keep. Qed.

#[local] Hint Resolve keeps_matches keeps_and_then : core.

Lemma keeps_fold src : keeps (foldVBAStrings expiredNow emit src).
Proof.
  unfold foldVBAStrings. cbv zeta. repeat apply keeps_and_then; auto; destruct (asciiContainsFold _ _); auto.
  unfold foldVBAVarReplaceMatched. cbv zeta. case_bool_decide; auto.
Qed.

Ltac each_run := apply keeps_runs; intros rest; first [apply keeps_scanned|apply keeps_regexp].

Lemma keeps_chain src : keeps (decode_chain expiredNow emit src).
Proof.
  unfold decode_chain, decodeBase64Runs, decodeHexRuns, decodeXEscRuns, decodeAmpHRuns, decodeUEscRuns, decodeDecSeqRuns, decodeNetbiosRuns, decodeBase32Runs, decode_runs.
  apply keeps_and_then; [|apply keeps_and_then; [|apply keeps_and_then; [|apply keeps_and_then; [|apply keeps_and_then; [|apply keeps_and_then; [|apply keeps_and_then; [|apply keeps_and_then; [|apply keeps_and_then]]]]]]]].
  - each_run; [apply keeps_run_loop|intros run []; [apply kept_ret|auto]].
  - each_run; [apply keeps_run_loop|auto].
  - unfold emitReversed. destruct (_ || _); [auto|]. destruct (negb _); auto.
  - apply keeps_fold.
  - each_run. auto.
  - each_run. intros run. cbv zeta. destruct (FindAll _ _ _); [apply kept_ret|auto].
  - each_run. intros run. destruct (uesc_units _); [apply kept_ret|auto].
  - each_run; [apply kept_bind; [apply keeps_decseq_loop|auto]|]. intros run _. unfold decseq_handle, go_on.
    apply kept_bind; [auto|]. intros [[dec|]|]; [|auto|auto]. destruct (_ <=? _); auto.
  - each_run; [apply keeps_scalar_loop|]. intros run _. unfold netbios_handle, go_on. cbv zeta.
    apply kept_bind; [auto|]. intros [[dec|]|]; [|auto|auto]. destruct (_ || _); auto.
  - each_run; [apply keeps_scalar_loop|]. intros run d. destruct (negb d); [apply kept_ret|auto].
Qed.

End Keeps.
