(* ===== verification/DecodePrefilter.v ===== *)
(** * The prefilter skips nothing decodable

    Up to its window of one MiB, a text [mayBeEncoded] turns down offers
    nothing to any decoder. *)

From Stdlib Require Import ZArith Lia.
From Stdlib Require Ascii String.
From stdpp Require Import base gmap strings list numbers.
From S2P Require Import Prelude GoStd GoText Base64 Effort GoRegexp DecodeRuns DecodeRegexp Retained DecodeFold DecodeWalk DecodePlay.

Local Open Scope Z_scope.
Local Open Scope mailstrix_scope.

(** ** Runs *)

(** No [n] consecutive bytes of a class. *)
Definition run_bound (f : Ascii.ascii → bool) (n : nat) (s : string) : Prop :=
  ∀ pre u post, s = pre +:+ u +:+ post → string_forallb f u = true → (String.length u < n)%nat.

Lemma run_bound_weaken f g n k s : (∀ c, f c = true → g c = true) → (n <= k)%nat → run_bound g n s → run_bound f k s.
Proof. intros Hfg Hn Hb pre u post -> Hu. specialize (Hb pre u post eq_refl (string_forallb_impl _ _ _ Hfg Hu)). lia. Qed.

(** The counters of the loop. *)
Lemma prefilter_loop_runs s : ∀ b d q o r, prefilter_loop b d q o s = Some r → 0 <= b < 20 → 0 <= d < 23 →
  (∀ pre u post, s = pre +:+ u +:+ post →
    (string_forallb isB64 u = true → (if String.eqb pre "" then b else 0) + len u < 20)
    ∧ (string_forallb isDecSeq u = true → (if String.eqb pre "" then d else 0) + len u < 23))
  ∧ r = (q || negb (string_forallb (λ c, negb (byte c =? 34)) s), o || negb (string_forallb (λ c, negb ((byte c =? 38) || (byte c =? 43))) s)).
Proof.
  induction s as [|c s IH]; intros b d q o r; cbn [prefilter_loop].
  - intros [= <-] Hb Hd. split; [|cbn; by rewrite !orb_false_r]. intros pre u post Hs. destruct pre; [|done]. destruct u; [|done]. change (len "") with 0. cbn [String.eqb]. split; intros _; lia.
  - set (b' := if isB64 c then b + 1 else 0). set (d' := if isDecSeq c then d + 1 else 0). unfold minPrefilterRun, minPrefilterDecRun.
    destruct (isB64 c && (20 <=? b')) eqn:Eb; [done|]. destruct (isDecSeq c && (23 <=? d')) eqn:Ed; [done|]. intros Hr Hb Hd.
    assert (0 <= b' < 20 ∧ 0 <= d' < 23) as [Hb' Hd'].
    { unfold b', d' in *. destruct (isB64 c), (isDecSeq c); cbn [andb] in *; bool_hyps; lia. }
    destruct (IH _ _ _ _ _ Hr Hb' Hd') as [Hruns ->]. split.
    + intros pre u post Hs. destruct pre as [|x pre].
      * cbn [String.append String.eqb] in *. destruct u as [|x u]; [change (len "") with 0; split; intros _; lia|]. rewrite string_cons_app in Hs. injection Hs as <- Hs.
        destruct (Hruns "" u post Hs) as [Hu1 Hu2]. cbn [String.eqb string_forallb] in *. rewrite string_length_S. unfold b', d' in *. split; intros [Hc Hu]%andb_true_iff.
        -- rewrite Hc in *. specialize (Hu1 Hu). lia.
        -- rewrite Hc in *. specialize (Hu2 Hu). lia.
      * rewrite string_cons_app in Hs. injection Hs as <- Hs. cbn [String.eqb]. destruct (Hruns pre u post Hs) as [Hu1 Hu2].
        split; intros Hu; [specialize (Hu1 Hu)|specialize (Hu2 Hu)]; destruct (String.eqb pre ""); lia.
    + cbn [string_forallb]. f_equal; rewrite negb_andb, negb_involutive, <- ?orb_assoc; done.
Qed.

Lemma first_run_bound f n s : (0 < n)%nat → run_bound (λ c, f (byte c)) n s → first_run f n 0 s = None.
Proof.
  intros Hn Hb. destruct (first_run f n 0 s) as [[a q]|] eqn:Hr; [|done]. exfalso.
  pose proof (first_run_ge _ _ _ _ _ _ Hr) as [_ Hq]. destruct (first_run_spec _ _ _ _ _ _ Hr) as [_ Hspan]. rewrite Nat.sub_0_r in Hspan.
  specialize (Hb (string_take a s) (string_take q (string_drop a s)) (string_drop q (string_drop a s))).
  assert (string_forallb (λ c, f (byte c)) (string_take q (string_drop a s)) = true) as Hall by (apply string_forallb_class; lia).
  rewrite !string_take_drop in Hb. specialize (Hb eq_refl Hall). rewrite string_take_length in Hb.
  assert (q <= String.length (string_drop a s))%nat; [|lia]. rewrite <- Hspan. unfold span, repeats. apply count_le.
Qed.

(** ** Texts an expression matches *)

Lemma lang_class f u : ascii_class f → lang (Cls f) u → string_forallb (λ c, f (byte c)) u = true ∧ String.length u = 1%nat.
Proof.
  intros Hf Hl. inversion Hl as [g u' v c Hne Hd Hc| | | | | | | |]; subst. destruct u as [|x u]; [done|]. rewrite string_cons_app in Hd.
  destruct (Z_lt_dec (byte x) 128) as [Hx|Hx].
  - rewrite rune_ascii in Hd by done. injection Hd as <- Hlen. destruct u; [|done]. cbn. by rewrite Hc.
  - pose proof (decode_rune_high x (u +:+ v) ltac:(lia)) as Hh. rewrite Hd in Hh. apply Hf in Hc. cbn in Hh. lia.
Qed.

Lemma string_forallb_concat P us : Forall (λ u, string_forallb P u = true) us → string_forallb P (string_concat us) = true.
Proof. induction 1 as [|u us Hu _ IH]; [done|]. cbn. by rewrite string_forallb_app, Hu. Qed.

Lemma length_concat n us : Forall (λ u, (n <= String.length u)%nat) us → (n * length us <= String.length (string_concat us))%nat.
Proof. induction 1 as [|u us Hu _ IH]; [cbn; lia|]. cbn. unfold string_concat in IH. rewrite string_length_app. lia. Qed.

Lemma lang_rep_class P a n most u k : (∀ v, lang a v → string_forallb P v = true ∧ (k <= String.length v)%nat) →
  lang (Rep n most a) u → string_forallb P u = true ∧ (k * n <= String.length u)%nat.
Proof.
  intros Ha Hl. inversion Hl as [| | | | | | |l m a' us Hn Hus|]; subst. split.
  - apply string_forallb_concat. eapply list.Forall_impl; [exact Hus|]. intros v Hv. by apply Ha.
  - etransitivity; [|apply (length_concat k us)]; [nia|]. eapply list.Forall_impl; [exact Hus|]. intros v Hv. by apply Ha.
Qed.

Lemma FindIndex_lang r s a b : FindIndex r s = Some (a, b) → ∃ pre u post, s = pre +:+ u +:+ post ∧ lang r u.
Proof.
  unfold FindIndex. destruct (find r (start_pos s)) as [f|] eqn:Hf; [|done]. intros _. apply find_lang in Hf as (pre & u & Hs & Hu & _).
  by exists pre, u, (p_rest (f_end f)).
Qed.

Lemma FindAll_nil r s limit : (∀ pre u post, s = pre +:+ u +:+ post → lang r u → False) → FindAll r s limit = [].
Proof.
  intros Hn. unfold FindAll. cbn [find_all]. destruct limit as [[|n]|]; [done| |];
    (destruct (find r (start_pos s)) as [f|] eqn:Hf; [|done]); apply find_lang in Hf as (pre & u & Hs & Hu & _); by destruct (Hn pre u _ Hs Hu).
Qed.

(** ** Literals *)

Lemma prefix_fold_app needle s t : prefix_fold needle s = true → prefix_fold needle (s +:+ t) = true.
Proof.
  revert s. induction needle as [|n needle IH]; intros [|c s]; [done|done|done|]. rewrite string_cons_app. cbn [prefix_fold].
  intros [Hc Hn]%andb_true_iff. rewrite Hc. by apply IH.
Qed.

Lemma asciiContainsFold_app pre u post needle : prefix_fold needle u = true → asciiContainsFold (pre +:+ u +:+ post) needle = true.
Proof.
  intros Hu. induction pre as [|c pre IH]; [|rewrite string_cons_app; cbn [asciiContainsFold]; rewrite IH; apply orb_true_r].
  change ("" +:+ u +:+ post) with (u +:+ post). pose proof (prefix_fold_app _ _ post Hu) as Hp. destruct (u +:+ post); cbn [asciiContainsFold]; by rewrite Hp.
Qed.

(** A text with a longer needle has the shorter one. *)
Lemma prefix_fold_shorter n m s : prefix_fold (n +:+ m) s = true → prefix_fold n s = true.
Proof. revert s. induction n as [|c n IH]; intros [|d s]; [done|done|done|]. rewrite string_cons_app. cbn. intros [-> H]%andb_true_iff. by apply IH. Qed.

Lemma asciiContainsFold_shorter n m s : asciiContainsFold s (n +:+ m) = true → asciiContainsFold s n = true.
Proof.
  induction s as [|c s IH]; cbn [asciiContainsFold]; intros [H|H]%orb_true_iff; [by rewrite (prefix_fold_shorter _ _ _ H)|done|by rewrite (prefix_fold_shorter _ _ _ H)|].
  rewrite IH by done. apply orb_true_r.
Qed.

(** ** Nothing is offered *)

Lemma clamp_short n s : len s <= n → clamp n s = s.
Proof. intros Hn. unfold clamp, clamp_to. by rewrite (proj2 (Z.ltb_ge _ _)). Qed.

Lemma run_texts_none found src : found src = None → all_texts found src = [].
Proof. intros Hf. unfold all_texts. destruct (String.length src); [done|]. cbn [run_texts]. rewrite Hf. by destruct (len src =? 0). Qed.

Lemma ascii_singleton n : 0 <= n < 128 → ascii_class (λ r, r =? n).
Proof. intros Hn r Hr. bool_hyps. lia. Qed.

Lemma lang_one c u : byte c < 128 → lang (Cls (one c)) u → u = String c EmptyString.
Proof.
  intros Hc Hl. pose proof (byte_range c). apply lang_class in Hl as [Hu Hlen]; [|apply ascii_singleton; lia].
  destruct u as [|x u]; [done|]. destruct u; [|done]. cbn in Hu. rewrite andb_true_r in Hu. apply Z.eqb_eq, byte_inj in Hu. by subst.
Qed.

Fixpoint ascii_text (s : string) : bool := match s with EmptyString => true | String c s => (byte c <? 128) && ascii_text s end.

Lemma lang_cat_inv a b u : lang (Cat a b) u → ∃ v w, u = v +:+ w ∧ lang a v ∧ lang b w.
Proof. intros Hl. inversion Hl; subst. eauto. Qed.

Lemma lang_empty_inv u : lang Empty u → u = "".
Proof. intros Hl. by inversion Hl. Qed.

Lemma lang_lit s u : ascii_text s = true → lang (lit s) u → u = s.
Proof.
  revert u. induction s as [|c s IH]; intros u; cbn [ascii_text lit]; [intros _; apply lang_empty_inv|].
  intros [Hc%Z.ltb_lt Hs]%andb_true_iff (v & w & -> & Hv & Hw)%lang_cat_inv. apply lang_one in Hv as ->; [|done]. by rewrite (IH w Hs Hw).
Qed.

(** A repeated text begins with its first occurrence. *)
Lemma lang_rep_first n most a u : (0 < n)%nat → lang (Rep n most a) u → ∃ v w, u = v +:+ w ∧ lang a v.
Proof.
  intros Hn Hl. inversion Hl as [| | | | | | |l m a' us Hlen Hus|]; subst. destruct us as [|v us]; [cbn in Hlen; lia|].
  apply list.Forall_cons in Hus as [Hv _]. by exists v, (string_concat us).
Qed.

Lemma decseq_text u : lang reDecSeq u → string_forallb isDecSeq u = true ∧ (23 <= String.length u)%nat.
Proof.
  assert (ascii_class digitc) as Hdig by (intros r; unfold digitc, between; intros H; bool_hyps; lia).
  assert (ascii_class (orc (λ r, r =? 59) (λ r, r =? 44))) as Hsep by (intros r; unfold orc; intros H; apply orb_true_iff in H as [H|H]; bool_hyps; lia).
  assert (∀ v, lang (Cls digitc) v → string_forallb isDecSeq v = true ∧ (1 <= String.length v)%nat) as H1.
  { intros v [Hv ->]%(lang_class _ _ Hdig). split; [|lia]. revert Hv. apply string_forallb_impl. intros c. unfold isDecSeq. by intros ->. }
  assert (∀ v, lang digits3 v → string_forallb isDecSeq v = true ∧ (1 <= String.length v)%nat) as H3.
  { intros v Hv. by apply (lang_rep_class isDecSeq _ _ _ _ 1) in Hv. }
  assert (∀ v, lang (Cat (Cls (orc (λ r, r =? 59) (λ r, r =? 44))) digits3) v → string_forallb isDecSeq v = true ∧ (2 <= String.length v)%nat) as H4.
  { intros v (x & y & -> & [Hx Hxl]%(lang_class _ _ Hsep) & [Hy Hyl]%H3)%lang_cat_inv. rewrite string_forallb_app, Hy, string_length_app. split; [|lia].
    rewrite andb_true_r. revert Hx. apply string_forallb_impl. intros c. unfold isDecSeq, orc. intros [-> | ->]%orb_true_iff; by rewrite ?orb_true_r. }
  intros (x & y & -> & [Hx Hxl]%H3 & Hy)%lang_cat_inv. apply (lang_rep_class isDecSeq _ _ _ _ 2 H4) in Hy as [Hy Hyl].
  rewrite string_forallb_app, Hx, Hy, string_length_app. split; [done|lia].
Qed.

Section Turned.
Context (src : string) (Hlen : len src <= maxFoldInput) (Hno : mayBeEncoded src = false).

Lemma turned_down : src = "" ∨
  run_bound isB64 20 src ∧ run_bound isDecSeq 23 src
  ∧ negb (string_forallb (λ c, negb (byte c =? 34)) src) && negb (string_forallb (λ c, negb ((byte c =? 38) || (byte c =? 43))) src) = false
  ∧ Forall (λ m, asciiContainsFold src m = false) prefilterMarkers ∧ Forall (λ m, asciiContainsFold src m = false) reversedMarkers.
Proof.
  pose proof Hno as Hno'. unfold mayBeEncoded in Hno'. destruct (Z.eqb_spec (len src) 0) as [E|E]; [left; by apply len_zero|right].
  rewrite clamp_short in Hno' by done. destruct (prefilter_loop 0 0 false false src) as [[q o]|] eqn:Hr; [|done].
  destruct (prefilter_loop_runs src 0 0 false false _ Hr ltac:(lia) ltac:(lia)) as [Hruns [= -> ->]].
  apply orb_false_iff in Hno' as [[Hq Hm]%orb_false_iff Hrev]. split_and!; [| |done| |].
  - intros pre u post Hs Hu. destruct (Hruns pre u post Hs) as [H _]. specialize (H Hu). unfold len in H. destruct (String.eqb pre ""); lia.
  - intros pre u post Hs Hu. destruct (Hruns pre u post Hs) as [_ H]. specialize (H Hu). unfold len in H. destruct (String.eqb pre ""); lia.
  - apply list.Forall_forall. intros m Hin. apply not_true_is_false. intros Ht. assert (existsb (asciiContainsFold src) prefilterMarkers = true) as He; [|congruence].
    apply existsb_exists. exists m. split; [by apply list_elem_of_In|done].
  - apply list.Forall_forall. intros m Hin. apply not_true_is_false. intros Ht. assert (existsb (asciiContainsFold src) reversedMarkers = true) as He; [|congruence].
    apply existsb_exists. exists m. split; [by apply list_elem_of_In|done].
Qed.

Context (Hb : run_bound isB64 20 src) (Hd : run_bound isDecSeq 23 src)
  (Hconcat : negb (string_forallb (λ c, negb (byte c =? 34)) src) && negb (string_forallb (λ c, negb ((byte c =? 38) || (byte c =? 43))) src) = false)
  (Hm : Forall (λ m, asciiContainsFold src m = false) prefilterMarkers) (Hr : Forall (λ m, asciiContainsFold src m = false) reversedMarkers).

(** No run of a class of base64 characters. *)
Lemma no_run f n : (∀ c, f (byte c) = true → isB64 c = true) → (20 <= n)%nat → first_run f n 0 src = None.
Proof. intros Hf Hn. apply first_run_bound; [lia|]. by apply (run_bound_weaken _ isB64 20). Qed.

Lemma no_literal m pre u post : src = pre +:+ u +:+ post → prefix_fold m u = true → m ∈ prefilterMarkers → False.
Proof. intros Hs Hu Hin. rewrite list.Forall_forall in Hm. specialize (Hm m Hin). rewrite Hs, asciiContainsFold_app in Hm; done. Qed.

Lemma no_marker n m t : m ∈ prefilterMarkers → n = m +:+ t → asciiContainsFold src n = false.
Proof.
  rewrite list.Forall_forall in Hm. intros Hin ->. apply not_true_is_false. intros H%asciiContainsFold_shorter. rewrite Hm in H; done.
Qed.

Lemma hexc_b64 c : hexc (byte c) = true → isB64 c = true.
Proof. unfold hexc, isB64, digitc, letterc, orc, between. intros H. repeat (apply orb_true_iff in H as [H|H]); bool_hyps; repeat (apply orb_true_iff; first [left; lia|right]); lia. Qed.

Lemma no_base64 : base64_texts src = [].
Proof.
  apply run_texts_none. rewrite (nextDecodeRun_regexp false), FindIndex_base64, no_run; [done| |lia].
  intros c. unfold isB64, b64c, orc. by rewrite <- !orb_assoc.
Qed.

Lemma no_hex : hex_texts src = [].
Proof. apply run_texts_none. rewrite (nextDecodeRun_regexp true), FindIndex_hex, no_run; [done|apply hexc_b64|lia]. Qed.

Lemma no_base32 : base32_texts src = [].
Proof.
  apply run_texts_none. rewrite nextScalarRun_regexp, FindIndex_base32, no_run; [done| |lia].
  intros c. unfold base32c, isB64, letterc, digitc, orc, between. intros H. apply orb_true_iff in H as [H|H]; bool_hyps; repeat (apply orb_true_iff; first [left; lia|right]); lia.
Qed.

Lemma no_netbios : netbios_texts src = [].
Proof.
  apply run_texts_none. unfold nextScalarRunUntil. rewrite scalar_loop_scan. change 0 with (Z.of_nat 0).
  assert (32%nat ≠ 0%nat) as Hmin by done. rewrite (scan_first_run _ _ _ _ _ Hmin _ _ _ _ (le_n _)). cbn [scalar_class]. rewrite no_run; [done| |lia].
  intros c. unfold isB64, letterc, digitc, orc, between. intros H. bool_hyps. repeat (apply orb_true_iff; first [left; lia|right]); lia.
Qed.

Lemma no_decseq : decseq_texts src = [].
Proof.
  apply run_texts_none. rewrite nextDecSeqRun_regexp. destruct (FindIndex reDecSeq src) as [[a b]|] eqn:Hf; [|done].
  apply FindIndex_lang in Hf as (pre & u & post & Hs & [Hu Hl]%decseq_text). specialize (Hd pre u post Hs Hu). lia.
Qed.

Lemma no_reversed : reversed_texts src = [].
Proof.
  unfold reversed_texts. destruct (_ || _); [done|]. assert (existsb (asciiContainsFold src) reversedMarkers = false) as ->; [|done].
  apply not_true_is_false. intros (m & Hin & Ht)%existsb_exists. rewrite list.Forall_forall in Hr. rewrite Hr in Ht; [done|by apply list_elem_of_In].
Qed.

(** Expressions that begin with a literal of the markers. *)
Lemma no_match r made : (∀ u, lang r u → ∃ m, m ∈ prefilterMarkers ∧ prefix_fold m u = true) → all_texts (regexp_found r made) src = [].
Proof.
  intros Hlit. apply run_texts_none. unfold regexp_found. destruct (FindIndex r src) as [[a b]|] eqn:Hf; [|done].
  apply FindIndex_lang in Hf as (pre & u & post & Hs & (m & Hin & Hu)%Hlit). by destruct (no_literal m pre u post Hs Hu Hin).
Qed.

Lemma no_xesc : xesc_texts src = [].
Proof.
  apply no_match. intros u (v & w & -> & Hv)%lang_rep_first; [|unfold minXEscRun; lia]. apply lang_cat_inv in Hv as (x & y & -> & Hx & _). apply lang_lit in Hx as ->; [|done].
  exists "\x". split; [apply list_elem_of_In; cbn; tauto|]. by do 2 apply prefix_fold_app.
Qed.

Lemma no_amph : amph_texts src = [].
Proof.
  apply no_match. intros u (v & w & -> & Hv)%lang_rep_first; [|unfold minAmpHRun; lia]. apply lang_cat_inv in Hv as (x & y & -> & Hx & Hy). apply lang_lit in Hx as ->; [|done].
  apply lang_cat_inv in Hy as (h & z & -> & Hh & _). apply lang_class in Hh as [Hh Hl]; [|intros r; unfold orc; intros H; apply orb_true_iff in H as [H|H]; bool_hyps; lia].
  exists "&h". split; [apply list_elem_of_In; cbn; tauto|]. apply prefix_fold_app. destruct h as [|c [|]]; try done. cbn in Hh. rewrite andb_true_r in Hh.
  apply orb_true_iff in Hh as [Hc|Hc]; apply Z.eqb_eq in Hc; [assert (c = ascii_of_Z 72) as -> by (by apply byte_inj)|assert (c = ascii_of_Z 104) as -> by (by apply byte_inj)]; done.
Qed.

Lemma no_uesc : uesc_texts src = [].
Proof.
  apply no_match. intros u (v & w & -> & Hv)%lang_rep_first; [|unfold minUEscRun; lia].
  apply lang_cat_inv in Hv as (h & z & -> & Hh & Hz). apply lang_class in Hh as [Hh Hl]; [|intros r; unfold orc; intros H; apply orb_true_iff in H as [H|H]; bool_hyps; lia].
  apply lang_cat_inv in Hz as (x & y & -> & Hx & _). apply lang_lit in Hx as ->; [|done]. destruct h as [|c [|]]; try done. cbn in Hh. rewrite andb_true_r in Hh.
  apply orb_true_iff in Hh as [Hc|Hc]; apply Z.eqb_eq in Hc; [assert (c = ascii_of_Z 92) as -> by (by apply byte_inj); exists "\u"|assert (c = ascii_of_Z 37) as -> by (by apply byte_inj); exists "%u"];
    (split; [apply list_elem_of_In; cbn; tauto|]; by apply prefix_fold_app).
Qed.

Lemma no_dridex : gated true reDridex src = [].
Proof.
  apply FindAll_nil. intros pre u post Hs (a & b & -> & Ha & (c & d & -> & Hc & _)%lang_cat_inv)%lang_cat_inv.
  apply (lang_rep_class isB64 _ _ _ _ 1) in Hc as [Hc Hl].
  - rewrite <- !string_app_assoc in Hs. rewrite string_app_assoc in Hs. specialize (Hb (pre +:+ a) c _ Hs Hc). lia.
  - intros v Hv. apply lang_class in Hv as [Hv ->]; [|intros r; unfold alnumc, orc, digitc, letterc, orc, between; intros H; repeat (apply orb_true_iff in H as [H|H]); bool_hyps; lia].
    split; [|lia]. revert Hv. apply string_forallb_impl. intros x. unfold alnumc, isB64, orc. rewrite orb_comm. intros H. by rewrite H.
Qed.

Lemma contains_quote s : contains quote s = negb (string_forallb (λ c, negb (byte c =? 34)) s).
Proof.
  induction s as [|c s IH]; [done|]. cbn [contains string_forallb]. rewrite negb_andb, negb_involutive, <- IH. unfold quote. cbn [strip_prefix].
  destruct (Ascii.eqb_spec (ascii_of_Z 34) c) as [<-|Hc]; [done|]. destruct (Z.eqb_spec (byte c) 34) as [E|]; [|done].
  exfalso. apply Hc. apply byte_inj. by rewrite E.
Qed.

Lemma contains_op s : ContainsAny s "&+" = negb (string_forallb (λ c, negb ((byte c =? 38) || (byte c =? 43))) s).
Proof.
  unfold ContainsAny. f_equal. induction s as [|c s IH]; [done|]. cbn [string_forallb]. rewrite <- IH. f_equal. rewrite andb_true_r, negb_orb.
  f_equal; f_equal; apply eq_bool_prop_intro; rewrite !Is_true_true, Ascii.eqb_eq, Z.eqb_eq; (split; [by intros ->|intros E; by apply byte_inj]).
Qed.

Lemma no_concat : ContainsAny src "&+" && (contains quote src || asciiContainsFold src vbaChrNeedle) = false.
Proof.
  rewrite (no_marker vbaChrNeedle "chr" ""), orb_false_r by (first [reflexivity|apply list_elem_of_In; cbn; tauto]).
  rewrite contains_quote, contains_op, andb_comm. exact Hconcat.
Qed.

Lemma no_fold : fold_texts src = [].
Proof.
  unfold fold_texts. rewrite (clamp_short maxFoldInput src Hlen). cbv zeta. rewrite no_concat, no_dridex.
  rewrite (no_marker vbaReplaceNeedle "replace(" ""), (no_marker vbaArrayNeedle "array(" ""), (no_marker vbaStrReverseNeedle "strreverse" "("),
    (no_marker vbaEnvironNeedle "environ" "") by (first [reflexivity|apply list_elem_of_In; cbn; tauto]).
  done.
Qed.

Lemma no_texts : chain_texts src = [].
Proof.
  unfold chain_texts. by rewrite no_base64, no_hex, no_reversed, no_fold, no_xesc, no_amph, no_uesc, no_decseq, no_netbios, no_base32.
Qed.

End Turned.

Lemma chain_texts_nil : chain_texts "" = [].
Proof. by vm_compute. Qed.

Lemma turned_down_texts src : len src <= maxFoldInput → mayBeEncoded src = false → chain_texts src = [].
Proof.
  intros Hlen Hno. destruct (turned_down src Hlen Hno) as [->|(Hb & Hd & Hc & Hm & Hr)]; [apply chain_texts_nil|by apply no_texts].
Qed.

(** Beyond the window the prefilter is blind: what follows the first MiB does
    not matter to it, though the run decoders would go on into it. *)
Lemma prefilter_blind a b : len a = maxFoldInput → mayBeEncoded (a +:+ b) = mayBeEncoded a.
Proof.
  intros Ha. unfold mayBeEncoded. rewrite string_app_len, Ha. pose proof (len_nonneg b).
  rewrite !(proj2 (Z.eqb_neq _ 0)) by (unfold maxFoldInput; lia).
  assert (clamp maxFoldInput (a +:+ b) = clamp maxFoldInput a) as ->; [|done].
  rewrite (clamp_short _ a) by lia. unfold clamp, clamp_to. rewrite string_app_len. destruct (Z.ltb_spec maxFoldInput (len a + len b)).
  - unfold upto. rewrite <- Ha. unfold len. rewrite Nat2Z.id. apply string_take_app.
  - assert (b = "") as -> by (apply len_zero; lia). apply string_app_nil_r.
Qed.
