(* ===== verification/DecodeTree.v ===== *)
(** * The decode pass

    For any clock: what [fromEncoded] adds to a result, that it does so by
    ordinary outputs, and that its loops end.  For a clock that does not run
    out: that everything hidden under the permitted layers is published, unless
    a budget is used up. *)

From Stdlib Require Import ZArith Lia.
From Stdlib Require Ascii String.
From stdpp Require Import base gmap strings list numbers.
From S2P Require Import Prelude GoStd GoText Base64 Effort GoRegexp DecodeRuns DecodeRegexp Retained DecodeFold DecodeWalk DecodePlay DecodePrefilter.

Local Open Scope Z_scope.
Local Open Scope mailstrix_scope.

(** ** What is added *)

(** A decoded blob, or the marker of a deep tree. *)
Definition decoded_entry (p : Buffer) : Prop :=
  minDecodedLen <= len (s_text p) <= maxBytesPerDecodedBlob ∨ ∃ layer, s_text p = msdDeepDecodePrefix +:+ FormatInt layer.

(** [r] is [r0] with [n] more streams. *)
Definition decoded (r0 : Result) (n : Z) (r : Result) : Prop :=
  ∃ new, r_streams r = r_streams r0 ++ new ∧ n = Z.of_nat (length new) ∧ Forall decoded_entry new
    ∧ stream_count r <= Z.max maxStreams (stream_count r0).

Lemma decoded_refl r : decoded r 0 r.
Proof. exists []. rewrite app_nil_r. split_and!; [done|done|constructor|lia]. Qed.

Lemma decoded_trans r0 r1 r2 n k : decoded r0 n r1 → decoded r1 k r2 → decoded r0 (n + k) r2.
Proof.
  intros (l1 & Hs1 & -> & Hf1 & Hc1) (l2 & Hs2 & -> & Hf2 & Hc2). exists (l1 ++ l2).
  split_and!; [by rewrite Hs2, Hs1, app_assoc|rewrite length_app; lia|by apply list.Forall_app_2|lia].
Qed.

(** A result that outputs led to, with nothing in between. *)
Definition produced (limit : Z) (r : Result) : Prop := ∃ w, reach limit w ∧ w_res w = r ∧ w_pending w = [].

Section Bounded.
Context (limit : Z) (Hlimit : 0 < limit <= int64_max) (late : nat → bool) (dedupHash : string → Z).

Lemma own_stream_spec b r : produced limit r → produced limit (own_stream b r).2
  ∧ match (own_stream b r).1 with
    | Some p => s_text p = b ∧ r_streams (own_stream b r).2 = r_streams r ++ [p]
    | None => r_streams (own_stream b r).2 = r_streams r
    end.
Proof.
  intros (w & Hw & <- & Hp). pose proof (reach_Inv limit Hlimit w Hw) as HI. pose proof (allocate_Inv limit w b HI) as HI1. unfold own_stream.
  set (p := mkBuffer (r_next (w_res w)) b). set (r1 := (allocate b (w_res w)).2).
  change (allocate b (w_res w)) with (p, r1). cbv iota. set (w1 := mkWalk _ _ _ _) in HI1.
  assert (reach limit w1) as Hw1 by exact (reach_step limit w (OAllocate b) Hw I).
  assert (content_of (w_res w1) p) as Hc.
  { split; [cbn [w_res w1 allocate snd with_next r_next s_at p]; lia|]. apply trusted_fresh. destruct HI as [_ _ _ _ Hnext _].
    apply list.Forall_app in Hnext as [_ [_ Hn]%list.Forall_app]. done. }
  pose proof (admitStream_spec limit Hlimit p true w1 HI1) as Ha. pose proof (reach_step limit w1 (OStream true p) Hw1 Hc) as Hw2.
  cbn [produce] in Hw2. unfold append_stream in Hw2. change (w_res w1) with r1 in Ha, Hw2.
  destruct (admitStream p true r1) as [[q ok] r]. destruct Ha as (Hq & _ & Hs & _). destruct ok; cbn [fst snd].
  - split; [eexists; split_and!; [exact Hw2|done|exact Hp]|]. split; [done|]. cbn [with_streams r_streams]. by rewrite Hs.
  - split; [eexists; split_and!; [exact Hw2|done|exact Hp]|]. by rewrite Hs.
Qed.

Lemma own_stream_decoded b r : produced limit r → minDecodedLen <= len b <= maxBytesPerDecodedBlob → stream_count r < maxStreams →
  decoded r (match (own_stream b r).1 with Some _ => 1 | None => 0 end) (own_stream b r).2.
Proof.
  intros Hr Hb Hc. destruct (own_stream_spec b r Hr) as [_ H]. destruct (own_stream b r) as [[p|] r']; cbn in *.
  - destruct H as [Hp Hs]. exists [p]. split_and!; [done|done|apply list.Forall_singleton; left; by rewrite Hp|].
    unfold stream_count in *. rewrite Hs, length_app. cbn. lia.
  - exists []. rewrite app_nil_r. split_and!; [done|done|constructor|]. unfold stream_count in *. rewrite H. lia.
Qed.

Lemma deep_marker_decoded layer r : produced limit r → stream_count r < maxStreams →
  produced limit (deep_marker layer r).2 ∧ decoded r (if (deep_marker layer r).1 then 1 else 0) (deep_marker layer r).2.
Proof.
  intros (w & Hw & <- & Hp) Hc. pose proof (reach_Inv limit Hlimit w Hw) as HI. set (text := msdDeepDecodePrefix +:+ FormatInt layer).
  assert (text ≠ "") as Hne by done. pose proof (reach_step limit w (OMarker false text) Hw Hne) as Hw'.
  destruct (marker_after limit Hlimit w text HI Hne) as (_ & _ & _ & _ & _). cbn [produce] in Hw'. unfold deep_marker. fold text.
  pose proof (allocate_Inv limit w text HI) as HI1. pose proof (admitStream_spec limit Hlimit (mkBuffer (r_next (w_res w)) text) false _ HI1) as Ha.
  unfold emit_marker, append_marker in *. cbn [allocate w_res w_pending w_log w_refused] in *.
  change (with_next (r_next (w_res w) + Z.max 1 (len text)) (w_res w)) with (allocate text (w_res w)).2 in *.
  destruct (admitStream (mkBuffer (r_next (w_res w)) text) false (allocate text (w_res w)).2) as [[q ok] r].
  destruct Ha as (Hq & _ & Hs & _). cbn [allocate snd with_next r_streams s_text] in Hs, Hq. destruct ok; cbn [fst snd] in *.
  - split; [eexists; split_and!; [exact Hw'|done|exact Hp]|]. exists [q]. cbn [with_trusted with_streams r_streams]. rewrite Hs.
    split_and!; [done|done|apply list.Forall_singleton; right; by exists layer|]. unfold stream_count in *. cbn [with_trusted with_streams r_streams]. rewrite ?Hs, length_app. cbn. lia.
  - split; [eexists; split_and!; [exact Hw'|done|exact Hp]|]. exists []. rewrite app_nil_r, Hs. split_and!; [done|done|constructor|]. unfold stream_count in *. rewrite Hs. lia.
Qed.

(** The state while streams are added to [r0]; in a tree of its own, the
    budget counts what is added. *)
Definition adding (tree : bool) (r0 : Result) (s : DState) : Prop :=
  produced limit (d_res s) ∧ decoded r0 (d_total s) (d_res s) ∧ (tree = true → t_blobs (d_src s) = d_total s).

Lemma keeps_clock tree r0 : keeps (adding tree r0) (expiredNow late).
Proof. by intros s Hs. Qed.

Lemma clamp_bounds n s : 0 <= n → len (clamp n s) = Z.min n (len s).
Proof.
  intros Hn. unfold clamp, clamp_to, upto. destruct (Z.ltb_spec n (len s)); [|lia]. rewrite string_take_len. lia.
Qed.

Lemma keeps_emit tree r0 layer b : keeps (adding tree r0) (emit_blob dedupHash layer b).
Proof.
  intros s (Hp & Hd & Ht). unfold emit_blob. destruct (Z.ltb_spec (len b) minDecodedLen); [done|].
  destruct (has_blob _ _ _); [done|]. destruct (_ || _ || _) eqn:Hfull; [done|]. apply orb_false_iff in Hfull as [[_ Hfull]%orb_false_iff _].
  assert (minDecodedLen <= len (clamp maxBytesPerDecodedBlob b) <= maxBytesPerDecodedBlob) as Hb.
  { rewrite clamp_bounds by done. unfold minDecodedLen, maxBytesPerDecodedBlob in *. lia. }
  pose proof (own_stream_spec (clamp maxBytesPerDecodedBlob b) _ Hp) as [Hp' _].
  pose proof (own_stream_decoded _ _ Hp Hb ltac:(lia)) as Hd'. destruct (own_stream _ _) as [[p|] r]; cbn [fst snd] in *; unfold adding; cbn.
  - split_and!; [done|by apply (decoded_trans _ _ _ _ 1 Hd)|]. intros Htree. rewrite Ht by done. lia.
  - split_and!; [done| |done]. pose proof (decoded_trans _ _ _ _ 0 Hd Hd') as H0. by rewrite Z.add_0_r in H0.
Qed.

Lemma stops_spec more s : (stops late more s).2 = (expiredNow late s).2 ∧ ((stops late more s).1 = false → more (expiredNow late s).2 = false).
Proof. unfold stops, expiredNow. cbn. split; [done|]. intros [_ H]%orb_false_iff. exact H. Qed.

Lemma tree_loop_adding r0 fuel : ∀ maxDepth maxIters queue, keeps (adding true r0) (tree_loop late dedupHash fuel maxDepth maxIters queue).
Proof.
  induction fuel as [|fuel IH]; intros maxDepth maxIters [|[data depth] queue] s Hs; try done. cbn [tree_loop].
  destruct (stops late _ s) as [stop s1] eqn:Hst. assert (adding true r0 s1) as H1.
  { pose proof (f_equal snd Hst) as E. rewrite (proj1 (stops_spec _ _)) in E. cbn in E. subst s1. by apply keeps_clock. }
  destruct stop; [done|]. clear Hst. set (s2 := set_src _ s1). assert (adding true r0 s2) as H2 by done.
  destruct (negb (mostlyText data)); [by apply IH|].
  assert (adding true r0 (set_children [] s2)) as H3 by done.
  pose proof (keeps_chain (adding true r0) (expiredNow late) (emit_blob dedupHash (depth + 1)) (keeps_clock true r0) (keeps_emit true r0 _) data _ H3) as H4.
  destruct (decode_chain _ _ data _) as [ok s4]. cbn [snd] in H4. destruct ok; [by apply IH|done].
Qed.

Lemma decodeSourceTree_adding src opts s : produced limit (d_res s) →
  let '(n, s') := decodeSourceTree late dedupHash src opts s in
  produced limit (d_res s') ∧ decoded (d_res s) n (d_res s') ∧ d_total s' = d_total s.
Proof.
  intros Hp. unfold decodeSourceTree. set (s0 := mkD (d_res s) _ _ _ _).
  assert (adding true (d_res s) s0) as H0 by (split_and!; [done|apply decoded_refl|done]).
  pose proof (tree_loop_adding (d_res s) (Datatypes.S (Z.to_nat (Z.max 1 (o_DecodeIterations opts)))) (Z.max 1 (o_DecodeDepth opts)) (Z.max 1 (o_DecodeIterations opts)) [(src, 0)] s0 H0) as H1.
  destruct (tree_loop late dedupHash _ _ _ _ s0) as [[] s1]. cbn [snd] in H1. destruct H1 as (Hp1 & Hd1 & Ht1). specialize (Ht1 eq_refl).
  destruct (_ && _) eqn:Hdeep; [|cbn; rewrite Ht1; done]. apply andb_true_iff in Hdeep as [_ Hc%Z.ltb_lt].
  pose proof (deep_marker_decoded (t_maxLayer (d_src s1)) (d_res s1) Hp1 Hc) as [Hp2 Hd2].
  destruct (deep_marker _ _) as [ok r]. cbn [fst snd] in *. destruct ok; cbn; rewrite Ht1; split_and!; try done.
  - by apply (decoded_trans _ _ _ _ 1 Hd1).
  - pose proof (decoded_trans _ _ _ _ 0 Hd1 Hd2) as H. by rewrite Z.add_0_r in H.
Qed.

(** One stream more, in a state that counts it. *)
Lemma adding_stream r0 b s : adding false r0 s → minDecodedLen <= len b <= maxBytesPerDecodedBlob → stream_count (d_res s) < maxStreams →
  match own_stream b (d_res s) with
  | (Some _, r) => adding false r0 (set_total (d_total s + 1) (set_res r s))
  | (None, r) => adding false r0 (set_res r s)
  end.
Proof.
  intros (Hp & Hd & _) Hb Hc. pose proof (own_stream_spec b _ Hp) as [Hp' _]. pose proof (own_stream_decoded b _ Hp Hb Hc) as Hd'.
  destruct (own_stream b (d_res s)) as [[p|] r]; cbn [fst snd] in *; (split_and!; [done| |done]); cbn.
  - by apply (decoded_trans _ _ _ _ 1 Hd).
  - pose proof (decoded_trans _ _ _ _ 0 Hd Hd') as H. by rewrite Z.add_0_r in H.
Qed.

Lemma stops_adding tree r0 more s stop s' : stops late more s = (stop, s') → adding tree r0 s → adding tree r0 s' ∧ (stop = false → more s' = false).
Proof.
  intros Hst Hs. pose proof (stops_spec more s) as [E1 E2]. rewrite Hst in E1, E2. cbn in E1, E2. subst s'. split; [by apply keeps_clock|done].
Qed.

Lemma utf16_pass_adding r0 sources : ∀ blobs cum, keeps (adding false r0) (utf16_pass late sources blobs cum).
Proof.
  induction sources as [|src sources IH]; intros blobs cum s Hs; [done|]. cbn [utf16_pass].
  destruct (stops late _ s) as [stop s1] eqn:Hst. apply (stops_adding false r0) in Hst as [H1 Hroom]; [|done]. destruct stop; [done|].
  specialize (Hroom eq_refl). apply Z.leb_gt in Hroom. destruct (transcodeUTF16 src) as [u8|]; [|by apply IH].
  destruct (Z.ltb_spec (len u8) minDecodedLen); [by apply IH|]. destruct (_ || _); [done|].
  assert (minDecodedLen <= len (clamp maxBytesPerDecodedBlob u8) <= maxBytesPerDecodedBlob) as Hb.
  { rewrite clamp_bounds by done. unfold minDecodedLen, maxBytesPerDecodedBlob in *. lia. }
  pose proof (adding_stream r0 _ s1 H1 Hb Hroom) as H2. destruct (own_stream _ _) as [[p|] r]; [|done].
  pose proof (IH (blobs + 1) (cum + len (clamp maxBytesPerDecodedBlob u8)) _ H2) as H3. by destruct (utf16_pass late sources _ _ _) as [l s3].
Qed.

Lemma defang_pass_adding r0 opts sources : ∀ blobs cum, keeps (adding false r0) (defang_pass late dedupHash opts sources blobs cum).
Proof.
  induction sources as [|src sources IH]; intros blobs cum s Hs; [done|]. cbn [defang_pass].
  destruct (stops late _ s) as [stop s1] eqn:Hst. apply (stops_adding false r0) in Hst as [H1 Hroom]; [|done]. destruct stop; [done|].
  match goal with |- context [if mostlyText src then ?a else ?b] => set (x := if mostlyText src then a else b) end.
  assert (adding false r0 x.2) as H2; [|destruct x as [[blobs' cum'] s2]].
  - unfold x. destruct (mostlyText src); [|done]. destruct (undefang src) as [ud changed]. destruct (changed && _) eqn:Hch; [|done].
    apply andb_true_iff in Hch as [_ Hlen%Z.leb_le]. destruct (_ && _ && _) eqn:Hcaps; [|done]. apply andb_true_iff in Hcaps as [_ Hc%Z.ltb_lt].
    assert (minDecodedLen <= len (clamp maxBytesPerDecodedBlob ud) <= maxBytesPerDecodedBlob) as Hb.
    { rewrite clamp_bounds by done. unfold minDecodedLen, maxBytesPerDecodedBlob in *. lia. }
    pose proof (adding_stream r0 _ s1 H1 Hb Hc) as H2. destruct (own_stream _ _) as [[p|] r]; [|done].
    destruct (looksEncoded _); [|done]. destruct H2 as (Hp2 & Hd2 & _).
    pose proof (decodeSourceTree_adding (clamp maxBytesPerDecodedBlob ud) opts _ Hp2) as H3. destruct (decodeSourceTree _ _ _ _ _) as [n s3].
    destruct H3 as (Hp3 & Hd3 & Ht3). cbn. split_and!; [done| |done]. cbn. rewrite Ht3. by apply (decoded_trans _ _ _ _ _ Hd2).
  - pose proof (IH blobs' cum' s2 H2) as H3. by destruct (defang_pass late dedupHash opts sources blobs' cum' s2).
Qed.

Lemma walk_item_adding r0 maxDepth maxIters data depth : keeps (adding false r0) (walk_item late dedupHash maxDepth maxIters data depth).
Proof.
  intros s Hs. unfold walk_item. cbv zeta. destruct (_ || _); [done|]. destruct (_ && _); [done|]. destruct (_ && _); [done|].
  match goal with |- context [decode_chain ?e ?m data ?x] =>
    assert (adding false r0 x) as H1 by done;
    pose proof (keeps_chain (adding false r0) e m (keeps_clock false r0) (keeps_emit false r0 _) data x H1) as H2; destruct (decode_chain e m data x) end.
  exact H2.
Qed.

Lemma walk_loop_adding r0 fuel : ∀ maxDepth maxIters states queue, keeps (adding false r0) (walk_loop late dedupHash fuel maxDepth maxIters states queue).
Proof.
  induction fuel as [|fuel IH]; intros maxDepth maxIters states [|[[data depth] i] queue] s Hs; try done. cbn [walk_loop].
  destruct (stops late _ s) as [stop s1] eqn:Hst. apply (stops_adding false r0) in Hst as [H1 _]; [|done]. destruct stop; [done|].
  assert (adding false r0 (set_src (default fresh_budget (states !! i)) s1)) as H2 by (destruct H1 as (? & ? & _); by split_and!).
  pose proof (walk_item_adding r0 maxDepth maxIters data depth _ H2) as H3. destruct (walk_item _ _ _ _ _ _ _). by apply IH.
Qed.

Lemma mark_deep_adding r0 states : keeps (adding false r0) (mark_deep late states).
Proof.
  induction states as [|t states IH]; intros s Hs; [done|]. cbn [mark_deep].
  destruct (stops late _ s) as [stop s1] eqn:Hst. apply (stops_adding false r0) in Hst as [H1 Hroom]; [|done]. destruct stop; [done|].
  specialize (Hroom eq_refl). apply Z.leb_gt in Hroom. destruct (_ <=? _); [|by apply IH]. destruct H1 as (Hp & Hd & _).
  pose proof (deep_marker_decoded (t_maxLayer t) (d_res s1) Hp Hroom) as [Hp' Hd']. destruct (deep_marker _ _) as [ok r]. cbn [fst snd] in *.
  apply IH. destruct ok; (split_and!; [done| |done]); cbn; [by apply (decoded_trans _ _ _ _ 1 Hd)|].
  pose proof (decoded_trans _ _ _ _ 0 Hd Hd') as H. by rewrite Z.add_0_r in H.
Qed.

Lemma prepare_adding buf opts r tick : produced limit r → adding false r (prepare late dedupHash buf opts r tick).2.
Proof.
  intros Hp. unfold prepare. cbv zeta. set (s0 := mkD r fresh_budget [] 0 tick). assert (adding false r s0) as H0 by (split_and!; [done|apply decoded_refl|done]).
  pose proof (utf16_pass_adding r (buf :: texts (r_streams r)) 0 0 s0 H0) as H1. destruct (utf16_pass late _ 0 0 s0) as [u8s s1]. cbn [snd] in H1.
  match goal with |- context [defang_pass late dedupHash opts ?l 0 0 s1] => pose proof (defang_pass_adding r opts l 0 0 s1 H1) as H2 end.
  by destruct (defang_pass _ _ _ _ _ _ _).
Qed.

(** C26: The decode pass is a run of ordinary outputs, and adds no more than
    it may: whatever the sources and the clock, its result is one the output
    operations lead to, so the ledger's limit and the provenance of markers
    hold for it; what is new follows the old streams, is counted exactly by
    [DecodedStreams], does not push the streams past 256, and consists of
    blobs of eight bytes to one MiB and of deep-decode markers. *)
Theorem decode_pass_bounded buf opts r tick : produced limit r →
  let r' := (fromEncoded late dedupHash buf opts r tick).1 in
  produced limit r' ∧ decoded r (r_decoded r') r'.
Proof.
  intros Hp. unfold fromEncoded. pose proof (prepare_adding buf opts r tick Hp) as H1. destruct (prepare late dedupHash buf opts r tick) as [sources s1].
  pose proof (walk_loop_adding r (walk_fuel sources) (Z.max 1 (o_DecodeDepth opts)) (Z.max 1 (o_DecodeIterations opts)) ((λ _, fresh_budget) <$> sources)
    (imap (λ i src, (src, 0, i)) sources) s1 H1) as H2. unfold walk_sources. destruct (walk_loop _ _ _ _ _ _ _ s1) as [states s2].
  pose proof (mark_deep_adding r states s2 H2) as H3. destruct (mark_deep late states s2) as [[] s3]. cbn [fst snd] in *.
  destruct H3 as ((w & Hw & Hres & Hpend) & Hd & _). split.
  - exists (produce (ODecoded (d_total s3)) w). split_and!; [by apply reach_step|by cbn; rewrite Hres|done].
  - exact Hd.
Qed.

End Bounded.

(** ** The loops end *)

Section Terminates.
Context (late : nat → bool) (dedupHash : string → Z).

(** A blob becomes a child, and is paid for. *)
Definition paying (t0 : Z) (s : DState) : Prop := t_blobs (d_src s) <= maxDecodedBlobs ∧ Z.of_nat (length (d_children s)) = t_blobs (d_src s) - t0.

Lemma paying_emit t0 layer b : keeps (paying t0) (emit_blob dedupHash layer b).
Proof.
  intros s [Hb Hc]. unfold emit_blob. destruct (_ <? _); [done|]. destruct (has_blob _ _ _); [done|]. destruct (_ || _ || _) eqn:Hfull; [done|].
  apply orb_false_iff in Hfull as [[Hroom%Z.leb_gt _]%orb_false_iff _]. destruct (own_stream _ _) as [[p|] r]; [|done].
  unfold paying. cbn. rewrite length_app. cbn. lia.
Qed.

Lemma walk_item_pays maxDepth maxIters data depth s : t_blobs (d_src s) <= maxDecodedBlobs →
  let '(children, s') := walk_item late dedupHash maxDepth maxIters data depth s in
  t_blobs (d_src s') <= maxDecodedBlobs ∧ Z.of_nat (length children) <= t_blobs (d_src s') - t_blobs (d_src s).
Proof.
  intros Ht. unfold walk_item. cbv zeta. destruct (_ || _); [cbn; lia|]. destruct (_ && _); [cbn; lia|]. destruct (_ && _); [cbn; lia|].
  match goal with |- context [decode_chain ?e ?m data ?x] =>
    assert (paying (t_blobs (d_src s)) x) as H1 by (unfold paying; cbn; lia);
    pose proof (keeps_chain (paying (t_blobs (d_src s))) e m (λ s Hs, Hs) (paying_emit _ _) data x H1) as H2; destruct (decode_chain e m data x) as [ok s'] end.
  destruct H2 as [H2 H3]. cbn [snd] in *. split; [done|]. destruct (_ <? _); [|cbn; lia]. rewrite length_fmap.
  pose proof (length_filter (λ c, looksEncoded (s_text c) = true) (d_children s')). lia.
Qed.

(** The items there are and the blobs that may still become items. *)
Definition pending_items (states : list Budget) (queue : list item) : Z :=
  Z.of_nat (length queue) + sumZ (λ t, maxDecodedBlobs - t_blobs t) states.

Lemma sumZ_alter {A} (f : A → Z) l i x y : l !! i = Some x → sumZ f (<[i := y]> l) = sumZ f l - f x + f y.
Proof.
  revert i. induction l as [|z l IH]; intros [|i] Hi; cbn [lookup list_lookup] in Hi; [done|done| |].
  - injection Hi as ->. change (<[0%nat := y]> (x :: l)) with (y :: l). rewrite !sumZ_cons. lia.
  - change (<[Datatypes.S i := y]> (z :: l)) with (z :: <[i := y]> l). rewrite !sumZ_cons, (IH i Hi). lia.
Qed.

Lemma pending_items_nonneg states queue : Forall (λ t, t_blobs t <= maxDecodedBlobs) states → Z.of_nat (length queue) <= pending_items states queue.
Proof.
  intros Hst. unfold pending_items. assert (0 <= sumZ (λ t, maxDecodedBlobs - t_blobs t) states); [|lia].
  apply sumZ_nonneg. intros t Hin. rewrite list.Forall_forall in Hst. specialize (Hst t Hin). cbn. lia.
Qed.

(** Working off an item leaves at least one less to come. *)
Lemma pays_step maxDepth maxIters states queue data depth i s t :
  Forall (λ t, t_blobs t <= maxDecodedBlobs) states → Forall (λ it, is_Some (states !! it.2)) ((data, depth, i) :: queue) → states !! i = Some t →
  let '(children, s') := walk_item late dedupHash maxDepth maxIters data depth (set_src t s) in
  let states' := <[i := d_src s']> states in
  let queue' := queue ++ ((λ c, (c.1, c.2, i)) <$> children) in
  Forall (λ t, t_blobs t <= maxDecodedBlobs) states' ∧ Forall (λ it, is_Some (states' !! it.2)) queue'
  ∧ pending_items states' queue' < pending_items states ((data, depth, i) :: queue).
Proof.
  intros Hst Hq Ht. apply list.Forall_cons in Hq as [_ Hq].
  pose proof (walk_item_pays maxDepth maxIters data depth (set_src t s)) as Hp. cbn [set_src d_src] in Hp.
  rewrite list.Forall_forall in Hst. specialize (Hp (Hst t (list_elem_of_lookup_2 _ _ _ Ht))).
  destruct (walk_item _ _ _ _ _ _ _) as [children s2]. destruct Hp as [Hb Hc]. cbv zeta. split_and!.
  - apply Forall_insert; [by apply list.Forall_forall|done].
  - apply list.Forall_app_2.
    + eapply list.Forall_impl; [exact Hq|]. cbn. intros it Hit. by apply list_lookup_insert_is_Some.
    + apply list.Forall_forall. intros it (c & -> & _)%list_elem_of_fmap. apply list_lookup_insert_is_Some. by exists t.
  - unfold pending_items, item. cbn [length]. rewrite length_app, length_fmap, (sumZ_alter _ _ _ t) by done. lia.
Qed.

Lemma walk_loop_more fuel : ∀ maxDepth maxIters states queue s k,
  Forall (λ t, t_blobs t <= maxDecodedBlobs) states → Forall (λ it, is_Some (states !! it.2)) queue → pending_items states queue <= Z.of_nat fuel →
  walk_loop late dedupHash (fuel + k) maxDepth maxIters states queue s = walk_loop late dedupHash fuel maxDepth maxIters states queue s.
Proof.
  induction fuel as [|fuel IH]; intros maxDepth maxIters states queue s k Hst Hq Hm; destruct queue as [|[[data depth] i] queue].
  - by destruct k.
  - pose proof (pending_items_nonneg states ((data, depth, i) :: queue) Hst). cbn [length] in *. lia.
  - done.
  - cbn [walk_loop Nat.add]. destruct (stops late _ s) as [[] s1]; [done|]. pose proof Hq as [[t Ht] _]%list.Forall_cons. cbn [snd] in Ht. rewrite Ht.
    cbn [default]. pose proof (pays_step maxDepth maxIters states queue data depth i s1 t Hst Hq Ht) as Hp.
    destruct (walk_item _ _ _ _ _ _ _) as [children s2]. destruct Hp as (H1 & H2 & H3). apply IH; [done|done|unfold pending_items, item in *; lia].
Qed.

(** An emission takes no iteration. *)
Definition iterated (n : Z) (s : DState) : Prop := t_iters (d_src s) = n.

Lemma iterated_emit n layer b : keeps (iterated n) (emit_blob dedupHash layer b).
Proof. intros s Hs. unfold emit_blob. repeat case_match; done. Qed.

Lemma tree_loop_more fuel : ∀ maxDepth maxIters queue s k, 0 <= maxIters - t_iters (d_src s) < Z.of_nat fuel →
  tree_loop late dedupHash (fuel + k) maxDepth maxIters queue s = tree_loop late dedupHash fuel maxDepth maxIters queue s.
Proof.
  induction fuel as [|fuel IH]; intros maxDepth maxIters [|[data depth] queue] s k Hf; [lia|lia|done|]. cbn [Nat.add tree_loop].
  pose proof (stops_spec late (λ s, (maxIters <=? t_iters (d_src s)) || out_of_budget (d_src s) || (maxStreams <=? stream_count (d_res s))) s) as [E1 E2].
  destruct (stops late _ s) as [stop s1]. cbn [fst snd] in E1, E2. subst s1. destruct stop; [done|]. specialize (E2 eq_refl). cbn [expiredNow snd d_src] in E2.
  apply orb_false_iff in E2 as [[E2%Z.leb_gt _]%orb_false_iff _]. set (s2 := set_src _ _).
  assert (iterated (t_iters (d_src s) + 1) s2) as H2 by done.
  destruct (negb (mostlyText data)); [apply IH; unfold iterated in H2; rewrite H2; lia|].
  assert (iterated (t_iters (d_src s) + 1) (set_children [] s2)) as H3 by done.
  pose proof (keeps_chain (iterated (t_iters (d_src s) + 1)) (expiredNow late) (emit_blob dedupHash (depth + 1)) (λ s Hs, Hs) (iterated_emit _ _) data _ H3) as H4.
  destruct (decode_chain _ _ data _) as [ok s4]. cbn [snd] in H4. destruct ok; [|done]. apply IH. unfold iterated in H4. rewrite H4. lia.
Qed.

(** The walk starts with enough rounds. *)
Lemma start_pays (sources : list string) :
  let states := (λ _, fresh_budget) <$> sources in
  let queue := imap (λ i src, (src, 0, i)) sources in
  Forall (λ t, t_blobs t <= maxDecodedBlobs) states ∧ Forall (λ it, is_Some (states !! it.2)) queue
  ∧ pending_items states queue <= Z.of_nat (walk_fuel sources).
Proof.
  cbv zeta. split_and!.
  - apply list.Forall_forall. intros t (x & -> & _)%list_elem_of_fmap. done.
  - apply list.Forall_forall. intros it (i & x & -> & Hx)%elem_of_lookup_imap. cbn. rewrite list_lookup_fmap, Hx. by exists fresh_budget.
  - unfold pending_items, walk_fuel. rewrite length_imap.
    assert (sumZ (λ t, maxDecodedBlobs - t_blobs t) ((λ _, fresh_budget) <$> sources) = Z.of_nat (length sources) * maxDecodedBlobs) as ->; [|unfold maxDecodedBlobs; lia].
    induction sources as [|x sources IH]; [done|]. rewrite fmap_cons, sumZ_cons, IH. cbn [length t_blobs fresh_budget]. unfold maxDecodedBlobs. lia.
Qed.

(** C28: The decode pass ends: whatever the decoders emit and whatever the
    clock says, the two worklists are worked off (or given up) within as many
    rounds as they are given here: one for each source and each of its at most
    32 blobs, or one more than the permitted iterations; more rounds would
    change nothing. *)
Theorem decoding_ends sources s src maxDepth maxIters k : 0 <= maxIters →
  walk_loop late dedupHash (walk_fuel sources + k) maxDepth maxIters ((λ _, fresh_budget) <$> sources) (imap (λ i src, (src, 0, i)) sources) s
    = walk_loop late dedupHash (walk_fuel sources) maxDepth maxIters ((λ _, fresh_budget) <$> sources) (imap (λ i src, (src, 0, i)) sources) s
  ∧ tree_loop late dedupHash (Datatypes.S (Z.to_nat maxIters) + k) maxDepth maxIters [(src, 0)] (mkD (d_res s) fresh_budget [] 0 (d_tick s))
    = tree_loop late dedupHash (Datatypes.S (Z.to_nat maxIters)) maxDepth maxIters [(src, 0)] (mkD (d_res s) fresh_budget [] 0 (d_tick s)).
Proof.
  intros Hi. split; [|apply tree_loop_more; cbn [d_src t_iters fresh_budget]; lia]. destruct (start_pays sources) as (H1 & H2 & H3). by apply walk_loop_more.
Qed.

End Terminates.
