(* ===== verification/DecodeComplete.v ===== *)
(** * Nothing within the budgets is missed

    With a clock that does not run out, every text that can be reached from a
    source by as many decoding layers as the request permits is published,
    unless a budget of that source, the stream ceiling or the ledger stopped
    the walk. *)

From Stdlib Require Import ZArith Lia.
From Stdlib Require Ascii String.
From stdpp Require Import base gmap strings list numbers.
From S2P Require Import Prelude GoStd GoText Base64 Effort GoRegexp DecodeRuns DecodeRegexp Retained DecodeFold DecodeWalk DecodePlay DecodePrefilter DecodeTree.

Local Open Scope Z_scope.
Local Open Scope mailstrix_scope.

(** ** Layers *)

(** One pass over [d] decodes [c]. *)
Definition offers (d c : string) : Prop := ∃ b, b ∈ chain_texts d ∧ minDecodedLen <= len b ∧ c = clamp maxBytesPerDecodedBlob b.

(** [c] is under [k] layers of [src]. *)
Inductive unwraps : Z → string → string → Prop :=
  | unwraps_one src c : offers src c → unwraps 1 src c
  | unwraps_more k src d c : unwraps k src d → looksEncoded d = true → mostlyText d = true → offers d c → unwraps (k + 1) src c.

Definition refused (r : Result) : bool := match r_childOpts r with Some (Some b) => b_refused b | _ => false end.

(** A budget of the source, or one all sources share, is used up. *)
Definition capped (maxIters : Z) (t : Budget) (r : Result) : Prop :=
  maxDecodedBlobs <= t_blobs t ∨ maxCumulativeDecoded - maxBytesPerDecodedBlob < t_cum t ∨ maxIters <= t_iters t
  ∨ maxStreams <= stream_count r ∨ refused r = true.

Definition never : nat → bool := λ _, false.

(** Equal but for the clock. *)
Definition same (s s' : DState) : Prop := d_res s' = d_res s ∧ d_src s' = d_src s ∧ d_children s' = d_children s ∧ d_total s' = d_total s.

#[export] Instance same_pre : PreOrder same.
Proof. split; [by intros s; split_and!|]. intros s1 s2 s3 (? & ? & ? & ?) (? & ? & ? & ?). split_and!; congruence. Qed.

Section Complete.
Context (dedupHash : string → Z).

Lemma emit_same layer b s s' : same s s' → (emit_blob dedupHash layer b s').1 = (emit_blob dedupHash layer b s).1
  ∧ same (emit_blob dedupHash layer b s).2 (emit_blob dedupHash layer b s').2.
Proof.
  intros (E1 & E2 & E3 & E4). unfold emit_blob. rewrite E1, E2. destruct (_ <? _); [by split_and!|]. destruct (has_blob _ _ _); [by split_and!|].
  destruct (_ || _ || _); [by split_and!|]. destruct (own_stream _ _) as [[p|] r]; split; try done; unfold same; cbn; rewrite ?E2, ?E3, ?E4; done.
Qed.

Lemma never_quiet layer : Quiet same (expiredNow never) (emit_blob dedupHash layer).
Proof. constructor; [apply same_pre|by intros s; eexists|apply emit_same]. Qed.

(** ** Sets by content *)

(** Whatever the hash: the set holds exactly [l]. *)
Definition holds (s : blobSet) (l : list string) : Prop :=
  (∀ b, has_blob s (dedupHash b) b = true ↔ b ∈ l) ∧ (∀ o, o ∈ bs_overflow s → is_Some (bs_first s !! o.1)).

Lemma holds_empty : holds no_blobs [].
Proof. split; [|by intros o Ho%elem_of_nil]. intros b. unfold has_blob. cbn. rewrite lookup_empty. split; [done|by intros ?%elem_of_nil]. Qed.

Lemma holds_add s l b : holds s l → holds (add_blob s (dedupHash b) b) (l ++ [b]).
Proof.
  intros [Hh Ho]. unfold add_blob. destruct (bs_first s !! dedupHash b) as [x|] eqn:Hx; split.
  - intros c. rewrite elem_of_app, list_elem_of_singleton, <- Hh. unfold has_blob. cbn [bs_first bs_overflow]. destruct (bs_first s !! dedupHash c) as [y|] eqn:Hy.
    + rewrite existsb_app. cbn [existsb fst snd]. rewrite !orb_true_iff, !andb_true_iff, !bool_decide_eq_true, Z.eqb_eq. split.
      * intros [?|[?|[[? ->]|?]]]; [tauto|tauto|by right|done].
      * intros [[?|?]| ->]; [tauto|tauto|tauto].
    + split; [done|]. intros [?| ->]; [done|congruence].
  - cbn [bs_first bs_overflow]. intros o [Hin|Hin]%elem_of_app; [by apply Ho|]. apply list_elem_of_singleton in Hin as ->. by exists x.
  - intros c. rewrite elem_of_app, list_elem_of_singleton, <- Hh. unfold has_blob. cbn [bs_first bs_overflow].
    destruct (decide (dedupHash b = dedupHash c)) as [E|E].
    + rewrite E, lookup_insert_eq. rewrite E in Hx. rewrite Hx, orb_true_iff, bool_decide_eq_true. split.
      * intros [->|(o & Hin & Ho')%existsb_exists]; [by right|]. apply list_elem_of_In in Hin. apply andb_true_iff in Ho' as [E2%Z.eqb_eq _].
        apply Ho in Hin as [z Hz]. congruence.
      * intros [?| ->]; [done|by left].
    + rewrite lookup_insert_ne by done. split; [tauto|]. intros [?| ->]; done.
  - cbn [bs_first bs_overflow]. intros o Hin. destruct (decide (dedupHash b = o.1)) as [<-|E]; [rewrite lookup_insert_eq; by eexists|].
    rewrite lookup_insert_ne by done. by apply Ho.
Qed.

(** The first of every content is all contents. *)
Lemma dedup_sources_covers sources : ∀ seen l x, holds seen l → x ∈ sources → x ∈ dedup_sources dedupHash seen sources ∨ x ∈ l.
Proof.
  induction sources as [|y sources IH]; intros seen l x Hs Hin; [by apply elem_of_nil in Hin|]. cbn [dedup_sources].
  destruct (has_blob seen (dedupHash y) y) eqn:Hy.
  - apply Hs in Hy. apply elem_of_cons in Hin as [->|Hin]; [by right|]. by apply (IH seen l).
  - apply elem_of_cons in Hin as [->|Hin]; [left; by left|]. destruct (IH _ _ x (holds_add seen l y Hs) Hin) as [H|[H|H]%elem_of_app].
    + left. by right.
    + by right.
    + apply list_elem_of_singleton in H as ->. left. by left.
Qed.

(** ** One emission *)

Record grows (s s' : DState) : Prop := mkGrows {
  gr_streams : ∃ new, r_streams (d_res s') = r_streams (d_res s) ++ new;
  gr_blobs : t_blobs (d_src s) <= t_blobs (d_src s');
  gr_cum : t_cum (d_src s) <= t_cum (d_src s');
  gr_iters : t_iters (d_src s) <= t_iters (d_src s');
  gr_refused : refused (d_res s) = true → refused (d_res s') = true }.

#[local] Instance grows_pre : PreOrder grows.
Proof.
  split; [intros s; constructor; try lia; try done; exists []; by rewrite app_nil_r|]. intros s1 s2 s3 [(l1 & E1) ? ? ? ?] [(l2 & E2) ? ? ? ?].
  constructor; try lia; [|by auto]. exists (l1 ++ l2). by rewrite E2, E1, app_assoc.
Qed.

Lemma stream_count_app r r' new : r_streams r' = r_streams r ++ new → stream_count r <= stream_count r'.
Proof. unfold stream_count. intros ->. rewrite length_app. lia. Qed.

Lemma capped_grows n s s' : grows s s' → capped n (d_src s) (d_res s) → capped n (d_src s') (d_res s').
Proof.
  intros [(l & E) ? ? ? Hr] Hc. apply stream_count_app in E. unfold capped in *. destruct Hc as [?|[?|[?|[?|?]]]]; [left|right;left|do 2 right;left|do 3 right;left|do 4 right]; try lia. auto.
Qed.

Lemma refused_admit b size : b_refused (admit_entry b size).2 = b_refused b || bool_decide ((admit_entry b size).1 = None).
Proof.
  unfold admit_entry. destruct (_ && _ && _); cbn; [by rewrite orb_true_r|]. by rewrite orb_false_r.
Qed.

Lemma own_stream_refused b r : refused (own_stream b r).2 = refused r || bool_decide ((own_stream b r).1 = None).
Proof.
  unfold own_stream. cbn [allocate]. unfold admitStream. cbn [with_next r_childOpts]. unfold refused at 2.
  destruct (r_childOpts r) as [[bud|]|] eqn:Hc; cbn.
  - pose proof (refused_admit bud (len b)) as H. destruct (admit_entry bud (len b)) as [[tok|] bud']; cbn in *.
    + destruct (0 <? len b); cbn; unfold refused; cbn; by rewrite H.
    + unfold refused. cbn. by rewrite H.
  - unfold refused. cbn. by rewrite Hc.
  - unfold refused. cbn. by rewrite Hc.
Qed.

Lemma own_stream_appends b r : match (own_stream b r).1 with
  | Some p => s_text p = b ∧ r_streams (own_stream b r).2 = r_streams r ++ [p]
  | None => r_streams (own_stream b r).2 = r_streams r end.
Proof.
  unfold own_stream. cbn [allocate]. unfold admitStream. cbn [with_next r_childOpts].
  destruct (r_childOpts r) as [[bud|]|]; [|done|done]. destruct (admit_entry _ _) as [[tok|] bud']; [|done]. by destruct (_ && _).
Qed.

(** [em] lists what the source has emitted, with its layer. *)
Definition emitted_so_far (s : DState) (em : list (string * Z)) : Prop :=
  holds (t_seen (d_src s)) em.*1 ∧ ∀ c, c ∈ em.*1 → c ∈ texts (r_streams (d_res s)).

(** After more emissions in [layer]: those of [new]. *)
Record emitting_more (layer : Z) (s s' : DState) (em new : list (string * Z)) : Prop := mkMore {
  em_far : emitted_so_far s' (em ++ new);
  em_layer : ∀ c l, (c, l) ∈ new → l = layer;
  em_children : s_text <$> d_children s' = (s_text <$> d_children s) ++ new.*1;
  em_grows : grows s s';
  em_iters : t_iters (d_src s') = t_iters (d_src s) }.

Lemma emit_more layer b s em : emitted_so_far s em →
  let '(ok, s') := emit_blob dedupHash layer b s in
  ∃ new, emitting_more layer s s' em new
    ∧ (if ok then minDecodedLen <= len b → clamp maxBytesPerDecodedBlob b ∈ (em ++ new).*1 else ∀ n, capped n (d_src s') (d_res s')).
Proof.
  intros [Hh Hs]. assert (emitting_more layer s s em []) as Hnone.
  { constructor; [by rewrite app_nil_r|by intros c l ?%elem_of_nil|by rewrite app_nil_r|reflexivity|done]. }
  unfold emit_blob. destruct (Z.ltb_spec (len b) minDecodedLen); [exists []; split; [done|lia]|].
  set (c := clamp maxBytesPerDecodedBlob b). destruct (has_blob _ _ _) eqn:Hhas.
  { exists []. split; [done|]. intros _. rewrite app_nil_r. by apply Hh. }
  destruct (_ || _ || _) eqn:Hfull.
  { exists []. split; [done|]. intros n. assert (len c <= maxBytesPerDecodedBlob) as Hc by (unfold c; rewrite clamp_bounds by done; lia).
    unfold capped. apply orb_true_iff in Hfull as [[?%Z.leb_le|?%Z.leb_le]%orb_true_iff|?%Z.ltb_lt]; [by left|do 3 right; by left|right; left; lia]. }
  pose proof (own_stream_appends c (d_res s)) as Happ. pose proof (own_stream_refused c (d_res s)) as Href.
  destruct (own_stream c (d_res s)) as [[p|] r]; cbn [fst snd] in *.
  - destruct Happ as [Hp Hr]. exists [(c, layer)]. split.
    + constructor.
      * split; cbn [d_src d_res t_seen]; rewrite fmap_app; [by apply holds_add|]. intros x [Hx|Hx]%elem_of_app; rewrite Hr; unfold texts; rewrite fmap_app, elem_of_app.
        -- left. by apply Hs.
        -- apply list_elem_of_singleton in Hx as ->. right. apply list_elem_of_singleton. by cbn.
      * intros x l Hx. apply list_elem_of_singleton in Hx. by injection Hx.
      * cbn [d_children]. rewrite fmap_app. cbn. by rewrite Hp.
      * constructor; cbn; [by exists [p]|lia|pose proof (len_nonneg c); lia|lia|]. intros Ht. rewrite Href, Ht. done.
      * done.
    + intros _. rewrite fmap_app, elem_of_app. right. by apply list_elem_of_singleton.
  - exists []. split.
    + constructor; cbn; [|by intros x l ?%elem_of_nil|by rewrite app_nil_r| |done].
      * rewrite app_nil_r. split; [done|]. cbn. rewrite Happ. exact Hs.
      * constructor; cbn; try lia; [exists []; by rewrite app_nil_r, Happ|]. intros Ht. by rewrite Href, Ht.
    + intros n. do 4 right. cbn. rewrite Href. apply orb_true_r.
Qed.

Lemma play_more layer l : ∀ s em, emitted_so_far s em →
  let '(ok, s') := play (emit_blob dedupHash layer) l s in
  ∃ new, emitting_more layer s s' em new
    ∧ (if ok then ∀ b, b ∈ l → minDecodedLen <= len b → clamp maxBytesPerDecodedBlob b ∈ (em ++ new).*1 else ∀ n, capped n (d_src s') (d_res s')).
Proof.
  induction l as [|b l IH]; intros s em Hem; cbn [play].
  - exists []. split; [|by intros b ?%elem_of_nil]. constructor; [by rewrite app_nil_r|by intros c l ?%elem_of_nil|by rewrite app_nil_r|reflexivity|done].
  - unfold dbind. pose proof (emit_more layer b s em Hem) as H1. destruct (emit_blob dedupHash layer b s) as [ok s1]. destruct H1 as (n1 & [Hf1 Hl1 Hc1 Hg1 Hi1] & Hok).
    destruct ok; [|by exists n1]. pose proof (IH s1 (em ++ n1) Hf1) as H2. destruct (play _ l s1) as [ok s2]. destruct H2 as (n2 & [Hf2 Hl2 Hc2 Hg2 Hi2] & Hok2).
    exists (n1 ++ n2). split.
    + constructor; [by rewrite app_assoc| | |by transitivity s1|congruence].
      * intros c x [Hx|Hx]%elem_of_app; eauto.
      * by rewrite Hc2, Hc1, fmap_app, app_assoc.
    + destruct ok; [|done]. intros x [->|Hx]%elem_of_cons Hlen; rewrite app_assoc; [|by apply Hok2].
      rewrite fmap_app, elem_of_app. left. by apply Hok.
Qed.

(** ** One item *)

Lemma far_same s s' em : same s s' → emitted_so_far s em → emitted_so_far s' em.
Proof. intros (E1 & E2 & _) [H1 H2]. split; [by rewrite E2|by rewrite E1]. Qed.

Lemma grows_same s s1 s2 : grows s s1 → same s1 s2 → grows s s2.
Proof. intros [? ? ? ? ?] (E1 & E2 & _). constructor; rewrite ?E1, ?E2; done. Qed.

(** The decoders on one text: a budget is used up, or all it offers has been
    emitted. *)
Lemma chain_more layer d s em : emitted_so_far s em →
  let '(_, s') := decode_chain (expiredNow never) (emit_blob dedupHash layer) d s in
  ∃ new, emitting_more layer s s' em new
    ∧ ((∀ n, capped n (d_src s') (d_res s')) ∨ ∀ c, offers d c → c ∈ (em ++ new).*1).
Proof.
  intros Hem. pose proof (plays_chain same _ _ (never_quiet layer) d s s (reflexivity s)) as [Hok Hsame].
  pose proof (play_more layer (chain_texts d) s em Hem) as H. destruct (play _ _ s) as [ok s1]. destruct H as (new & [Hf Hl Hc Hg Hi] & H).
  destruct (decode_chain _ _ d s) as [ok' s2]. cbn [fst snd] in *. exists new. split.
  - destruct Hsame as (E1 & E2 & E3 & E4). constructor; [by apply (far_same s1)|done|by rewrite E3|by apply (grows_same s s1)|by rewrite E2].
  - destruct Hsame as (E1 & E2 & E3 & E4). destruct ok.
    + right. intros c (b & Hb & Hlen & ->). by apply H.
    + left. intros n. rewrite E1, E2. apply H.
Qed.

(** Whatever [d] offers is there, at most one layer further down. *)
Definition settled_at (em : list (string * Z)) (d : string) (l : Z) : Prop := ∀ c, offers d c → ∃ l', l' <= l + 1 ∧ (c, l') ∈ em.

(** The text is worth a further layer. *)
Definition worthy (d : string) : Prop := looksEncoded d = true ∧ mostlyText d = true.

Lemma worthy_may d : worthy d → mayBeEncoded d = true.
Proof. intros [H _]. unfold looksEncoded in H. destruct (len d =? 0); [done|]. by destruct (mayBeEncoded d). Qed.

Lemma emitted_at (em : list (string * Z)) c : c ∈ em.*1 → ∃ l : Z, (c, l) ∈ em.
Proof. intros ([c' l] & -> & H)%list_elem_of_fmap. by exists l. Qed.

Lemma emit_grows s0 layer b : keeps (grows s0) (emit_blob dedupHash layer b).
Proof.
  intros s Hs. transitivity s; [done|]. unfold emit_blob. destruct (_ <? _); [reflexivity|]. destruct (has_blob _ _ _); [reflexivity|].
  destruct (_ || _ || _); [reflexivity|]. set (c := clamp maxBytesPerDecodedBlob b).
  pose proof (own_stream_appends c (d_res s)) as Happ. pose proof (own_stream_refused c (d_res s)) as Href.
  destruct (own_stream c (d_res s)) as [[p|] r]; cbn [fst snd] in *; constructor; cbn; try lia.
  - destruct Happ as [_ ->]. by exists [p].
  - pose proof (len_nonneg c). lia.
  - intros Ht. by rewrite Href, Ht.
  - exists []. by rewrite Happ, app_nil_r.
  - intros Ht. by rewrite Href, Ht.
Qed.

(** An item's children, whatever the state. *)
Lemma walk_item_children maxDepth maxIters data depth s :
  let '(children, s') := walk_item never dedupHash maxDepth maxIters data depth s in
  grows s s' ∧ ∀ ch, ch ∈ children → ch.2 = depth + 1 ∧ looksEncoded ch.1 = true.
Proof.
  assert (∀ s : DState, grows s s ∧ ∀ ch : string * Z, ch ∈ [] → ch.2 = depth + 1 ∧ looksEncoded ch.1 = true) as Hnone.
  { intros x. split; [reflexivity|by intros ch ?%elem_of_nil]. }
  unfold walk_item. cbv zeta. destruct (_ || _); [apply Hnone|]. destruct (_ && _); [apply Hnone|]. destruct (_ && _); [apply Hnone|].
  match goal with |- context [decode_chain _ _ data ?x] => set (s1 := x) end.
  assert (grows s s1) as H1 by (constructor; cbn; try lia; [exists []; by rewrite app_nil_r|done]).
  pose proof (keeps_chain (grows s) (expiredNow never) (emit_blob dedupHash (depth + 1))) as H2.
  assert (keeps (grows s) (expiredNow never)) as Hclk by (intros x Hx; by apply (grows_same s x)).
  specialize (H2 Hclk (emit_grows s (depth + 1)) data s1 H1).
  destruct (decode_chain _ _ data s1) as [ok s2]. split; [done|]. intros ch Hch.
  destruct (depth + 1 <? maxDepth); [|by apply elem_of_nil in Hch]. apply list_elem_of_fmap in Hch as (x & -> & Hx%list_elem_of_filter). split; [done|apply Hx].
Qed.

(** C27: The prefilter is strict: when it turns down a text of at most one MiB,
    the ten decoders would have emitted nothing: they answer with success and
    change nothing but the clock. *)
Theorem prefilter_strict layer src s : len src <= maxFoldInput → mayBeEncoded src = false →
  let '(ok, s') := decode_chain (expiredNow never) (emit_blob dedupHash layer) src s in ok = true ∧ same s s'.
Proof.
  intros Hlen Hno. pose proof (plays_chain same _ _ (never_quiet layer) src s s (reflexivity s)) as [Hok Hsame].
  rewrite (turned_down_texts src Hlen Hno) in Hok, Hsame. by destruct (decode_chain _ _ src s) as [ok s'].
Qed.

(** What becomes of an item: unless a budget is used up, all it offers is
    emitted, and what is worth it is queued. *)
Lemma walk_item_more maxDepth maxIters data depth s em :
  emitted_so_far s em → (∀ c l, (c, l) ∈ em → l <= depth + 1) → 0 <= depth → (depth = 0 ∨ worthy data) →
  let '(children, s') := walk_item never dedupHash maxDepth maxIters data depth s in
  capped maxIters (d_src s') (d_res s') ∨
   ∃ new, emitted_so_far s' (em ++ new) ∧ (∀ c l, (c, l) ∈ new → l = depth + 1)
     ∧ settled_at (em ++ new) data depth
     ∧ (∀ c l, (c, l) ∈ new → l < maxDepth → looksEncoded c = true → (c, l) ∈ children).
Proof.
  intros Hem Hlay Hd Hw. unfold walk_item. cbv zeta. destruct (_ || _) eqn:Hfull.
  { left. unfold capped. unfold out_of_budget in Hfull.
    apply orb_true_iff in Hfull as [?%Z.leb_le|[?%Z.leb_le|?%Z.leb_le]%orb_true_iff]; [do 2 right; by left|by left|].
    right. left. unfold maxCumulativeDecoded, maxBytesPerDecodedBlob in *. lia. }
  destruct ((0 <? depth) && negb (mostlyText data)) eqn:Ht.
  { apply andb_true_iff in Ht as [?%Z.ltb_lt Ht]. destruct Hw as [->|[_ Hw]]; [lia|]. by rewrite Hw in Ht. }
  destruct ((0 <? depth) && negb (mayBeEncoded data)) eqn:Hm.
  { apply andb_true_iff in Hm as [?%Z.ltb_lt Hm]. destruct Hw as [->|Hw]; [lia|]. apply worthy_may in Hw. by rewrite Hw in Hm. }
  match goal with |- context [decode_chain _ _ data ?x] => set (s1 := x) end.
  assert (emitted_so_far s1 em) as H1 by done. pose proof (chain_more (depth + 1) data s1 em H1) as H2.
  destruct (decode_chain _ _ data s1) as [ok s2]. destruct H2 as (new & [Hf Hl Hc Hg Hi] & H2).
  destruct H2 as [H2|H2]; [by left|right]. exists new. cbn [d_children s1 set_children fmap list_fmap app] in Hc. split_and!; [done|done| |].
  - intros c Hoff. apply H2, emitted_at in Hoff as [l Hin]. exists l. split; [|done].
    apply elem_of_app in Hin as [Hin|Hin]; [by apply (Hlay c)|]. rewrite (Hl c l Hin). lia.
  - intros c l Hin Hlt Hlook. pose proof (Hl c l Hin) as ->. rewrite (proj2 (Z.ltb_lt _ _) Hlt).
    assert (c ∈ s_text <$> d_children s2) as (x & -> & Hx)%list_elem_of_fmap.
    { rewrite Hc. apply list_elem_of_fmap. by exists (c, depth + 1). }
    apply list_elem_of_fmap. exists x. split; [done|]. apply list_elem_of_filter. done.
Qed.

Lemma walk_item_skips maxDepth maxIters data depth s : 0 < depth → mostlyText data = false →
  walk_item never dedupHash maxDepth maxIters data depth s = ([], s).
Proof. intros Hd Ht. unfold walk_item. cbv zeta. destruct (_ || _); [done|]. rewrite Ht, (proj2 (Z.ltb_lt _ _) Hd). done. Qed.

(** ** The walk *)

Section Walked.
Context (maxDepth maxIters : Z) (sources : list string).

(** How far the walk is with source [i], when nothing has stopped it: what it
    emitted, and that whatever is not yet decoded is still queued. *)
Record covered (queue : list item) (i : nat) (src : string) (t : Budget) (r : Result) (em : list (string * Z)) : Prop := mkCovered {
  cv_seen : holds (t_seen t) em.*1;
  cv_texts : ∀ c, c ∈ em.*1 → c ∈ texts (r_streams r);
  cv_layer : ∀ c l it, (c, l) ∈ em → it ∈ queue → l <= it.1.2 + 1;
  cv_root : (src, 0, i) ∈ queue ∨ settled_at em src 0;
  cv_child : ∀ c l, (c, l) ∈ em → l < maxDepth → worthy c → (c, l, i) ∈ queue ∨ settled_at em c l }.

(** The queue goes through the layers in order, and holds at most two. *)
Record layered (queue : list item) : Prop := mkLayered {
  ly_sorted : ∀ j k it it', queue !! j = Some it → queue !! k = Some it' → (j <= k)%nat → it.1.2 <= it'.1.2;
  ly_near : ∀ it it', it ∈ queue → it' ∈ queue → it'.1.2 <= it.1.2 + 1;
  ly_items : ∀ it, it ∈ queue → 0 <= it.1.2 ∧ (it.1.2 = 0 ∨ looksEncoded it.1.1 = true) }.

Definition tracked (states : list Budget) (queue : list item) (r : Result) : Prop :=
  ∀ i src, sources !! i = Some src → ∃ t, states !! i = Some t ∧ (capped maxIters t r ∨ ∃ em, covered queue i src t r em).

Lemma layered_step data depth i queue children : layered ((data, depth, i) :: queue) →
  (∀ ch, ch ∈ children → ch.2 = depth + 1) → (∀ ch, ch ∈ children → looksEncoded ch.1 = true) →
  layered (queue ++ ((λ c, (c.1, c.2, i)) <$> children)).
Proof.
  intros [Hs Hn Hi] Hc Hl. set (new := (λ c, (c.1, c.2, i)) <$> children).
  assert (∀ it, it ∈ new → it.1.2 = depth + 1 ∧ looksEncoded it.1.1 = true) as Hnew.
  { intros it (ch & -> & Hch)%list_elem_of_fmap. split; [exact (Hc ch Hch)|exact (Hl ch Hch)]. }
  assert (∀ it, it ∈ queue → depth <= it.1.2 <= depth + 1) as Hq.
  { intros it Hit. split; [|apply (Hn (data, depth, i) it); [by left|by right]]. apply list_elem_of_lookup_1 in Hit as [k Hk].
    exact (Hs 0%nat (Datatypes.S k) (data, depth, i) it eq_refl Hk (Nat.le_0_l _)). }
  assert (0 <= depth) as Hd by (apply (Hi (data, depth, i)); by left). constructor.
  - intros j k it it' Hj Hk Hjk. apply lookup_app_Some in Hj as [Hj|[Hjl Hj]].
    + apply lookup_app_Some in Hk as [Hk|[_ Hk]]; [exact (Hs (Datatypes.S j) (Datatypes.S k) _ _ Hj Hk (le_n_S _ _ Hjk))|].
      apply list_elem_of_lookup_2, Hnew in Hk as [-> _]. apply Hq. by eapply list_elem_of_lookup_2.
    + apply lookup_app_Some in Hk as [Hk|[_ Hk]]; [apply lookup_lt_Some in Hk; lia|].
      apply list_elem_of_lookup_2, Hnew in Hk as [-> _]. apply list_elem_of_lookup_2, Hnew in Hj as [-> _]. done.
  - intros it it' [Hit|Hit]%elem_of_app [Hit'|Hit']%elem_of_app.
    + apply (Hn it it'); by right.
    + apply Hnew in Hit' as [-> _]. apply Hq in Hit. lia.
    + apply Hnew in Hit as [-> _]. apply Hq in Hit'. lia.
    + apply Hnew in Hit as [-> _]. apply Hnew in Hit' as [-> _]. lia.
  - intros it [Hit|Hit]%elem_of_app; [by apply Hi; right|]. apply Hnew in Hit as [-> Hlook]. split; [lia|by right].
Qed.

(** More emitted does not unsettle. *)
Lemma settled_more em new d l : settled_at em d l → settled_at (em ++ new) d l.
Proof. intros H c Hc. destruct (H c Hc) as (l' & ? & ?). exists l'. rewrite elem_of_app. tauto. Qed.

(** The other sources. *)
Lemma covered_other it queue new i src t r r' em : it.2 ≠ i → (∀ x, x ∈ new → ∀ c l, (c, l) ∈ em → l <= x.1.2 + 1) →
  (∃ l, r_streams r' = r_streams r ++ l) → covered (it :: queue) i src t r em → covered (queue ++ new) i src t r' em.
Proof.
  intros Hne Hnew (l0 & Hl0) [Hs Ht Hl Hr Hc]. constructor.
  - done.
  - intros c Hin. rewrite Hl0. unfold texts. rewrite fmap_app, elem_of_app. left. by apply Ht.
  - intros c l x Hin [Hx|Hx]%elem_of_app; [apply (Hl c l x Hin); by right|by apply (Hnew x Hx c)].
  - destruct Hr as [[Hr|Hr]%elem_of_cons|Hr]; [by subst it|left; rewrite elem_of_app; by left|by right].
  - intros c l Hin Hlt Hw. destruct (Hc c l Hin Hlt Hw) as [[H|H]%elem_of_cons|H]; [by subst it|left; rewrite elem_of_app; by left|by right].
Qed.

(** The source of the item. *)
Lemma covered_own data depth i queue src t r em children new s' :
  covered ((data, depth, i) :: queue) i src t r em → layered ((data, depth, i) :: queue) →
  emitted_so_far s' (em ++ new) → (∀ c l, (c, l) ∈ new → l = depth + 1) → (depth = 0 ∨ worthy data → settled_at (em ++ new) data depth) →
  (∀ c l, (c, l) ∈ new → l < maxDepth → looksEncoded c = true → (c, l) ∈ children) → (∀ ch, ch ∈ children → ch.2 = depth + 1) →
  covered (queue ++ ((λ c, (c.1, c.2, i)) <$> children)) i src (d_src s') (d_res s') (em ++ new).
Proof.
  intros [Hs Ht Hl Hr Hc] Hly [Hh Hin] Hnew Hset Hch Hdep.
  assert (∀ c l, (c, l, i) ∈ (data, depth, i) :: queue → depth = 0 ∨ worthy c → (c, l, i) ∈ queue ++ ((λ c, (c.1, c.2, i)) <$> children) ∨ settled_at (em ++ new) c l) as Hkeep.
  { intros c l [E|Hq]%elem_of_cons Hw; [injection E as -> ->; right; by apply Hset|left; rewrite elem_of_app; by left]. }
  assert (∀ it, it ∈ queue → depth <= it.1.2) as Hge.
  { intros it [k Hk]%list_elem_of_lookup_1. exact (ly_sorted _ Hly 0%nat (Datatypes.S k) _ it eq_refl Hk (Nat.le_0_l _)). }
  constructor; [done|done| | |].
  - intros c l it [H|H]%elem_of_app [Hit|Hit]%elem_of_app.
    + apply (Hl c l it H). by right.
    + apply list_elem_of_fmap in Hit as (ch & -> & Hit). cbn. rewrite (Hdep ch Hit).
      pose proof (Hl c l (data, depth, i) H ltac:(by left)) as Hle. cbn in Hle. lia.
    + rewrite (Hnew c l H). specialize (Hge it Hit). lia.
    + apply list_elem_of_fmap in Hit as (ch & -> & Hit). cbn. rewrite (Hdep ch Hit), (Hnew c l H). lia.
  - destruct Hr as [Hr|Hr]; [|right; by apply settled_more]. apply elem_of_cons in Hr as [E|Hr]; [|left; rewrite elem_of_app; by left].
    injection E as -> <-. right. apply Hset. by left.
  - intros c l [H|H]%elem_of_app Hlt Hw.
    + destruct (Hc c l H Hlt Hw) as [Hq|Hq]; [|right; by apply settled_more]. apply Hkeep; [done|by right].
    + left. rewrite elem_of_app. right. apply list_elem_of_fmap. exists (c, l). split; [done|]. apply Hch; [done|done|apply Hw].
Qed.

Lemma tracked_step states queue data depth i s t : tracked states ((data, depth, i) :: queue) (d_res s) → layered ((data, depth, i) :: queue) → states !! i = Some t →
  let '(children, s') := walk_item never dedupHash maxDepth maxIters data depth (set_src t s) in
  let queue' := queue ++ ((λ c, (c.1, c.2, i)) <$> children) in
  tracked (<[i := d_src s']> states) queue' (d_res s') ∧ layered queue' ∧ grows (set_src t s) s'.
Proof.
  intros Htr Hly Ht. pose proof (walk_item_children maxDepth maxIters data depth (set_src t s)) as Hch.
  pose proof (walk_item_more maxDepth maxIters data depth (set_src t s)) as Hmore. pose proof (walk_item_skips maxDepth maxIters data depth (set_src t s)) as Hskip.
  destruct (ly_items _ Hly (data, depth, i)) as [Hd Hlook]; [by left|]. cbn [fst snd] in Hd, Hlook.
  destruct (walk_item _ _ _ _ _ _ _) as [children s']. destruct Hch as [Hg Hch]. cbv zeta.
  split_and!; [|by apply (layered_step data depth); [|intros ch Hin; by apply Hch..]|done].
  intros j src Hj. destruct (Htr j src Hj) as (tj & Htj & Hcov). destruct (decide (i = j)) as [<-|Hne].
  - rewrite Ht in Htj. injection Htj as <-. exists (d_src s'). split; [apply list_lookup_insert_eq; by eapply lookup_lt_Some|].
    destruct Hcov as [Hcap|(em & Hcov)]; [left; exact (capped_grows _ _ _ Hg Hcap)|].
    assert (emitted_so_far (set_src t s) em) as Hfar by (split; [apply Hcov|apply Hcov]).
    assert ((depth = 0 ∨ worthy data) ∨ 0 < depth ∧ mostlyText data = false) as [Hw|[H0 Htext]].
    { destruct Hlook as [?|Hlook]; [by left; left|]. destruct (decide (depth = 0)); [by left; left|]. unfold worthy. destruct (mostlyText data); [left; by right|right; split; [lia|done]]. }
    + assert (∀ c l, (c, l) ∈ em → l <= depth + 1) as Hlay by (intros c l Hin; apply (cv_layer _ _ _ _ _ _ Hcov c l (data, depth, i) Hin); by left).
      destruct (Hmore em Hfar Hlay Hd Hw) as [Hcap|(new & Hf & Hn & Hset & Hq)]; [by left|right]. exists (em ++ new).
      apply (covered_own data depth i queue src t (d_res s)); try done. intros ch Hin. by apply Hch.
    + specialize (Hskip H0 Htext). injection Hskip as -> ->. right. exists (em ++ []).
      apply (covered_own data depth i queue src t (d_res s)); try done.
      * by rewrite app_nil_r.
      * by intros c l ?%elem_of_nil.
      * intros [->|[_ Hw]]; [lia|congruence].
      * by intros ch ?%elem_of_nil.
  - exists tj. split; [by rewrite list_lookup_insert_ne|]. destruct Hg as [Hstr _ _ _ Href]. cbn [set_src d_res] in Hstr, Href. destruct Hcov as [Hcap|(em & Hcov)].
    + left. destruct Hstr as [l Hstr]. apply stream_count_app in Hstr. unfold capped in *. destruct Hcap as [?|[?|[?|[?|?]]]]; [by left|right; by left|do 2 right; by left|do 3 right; left; lia|do 4 right; auto].
    + right. exists em. apply (covered_other (data, depth, i) queue _ j src tj (d_res s)); [done| |done|done].
      intros it Hit c l Hin. apply list_elem_of_fmap in Hit as (ch & -> & Hit). cbn. destruct (Hch ch Hit) as [-> _].
      pose proof (cv_layer _ _ _ _ _ _ Hcov c l (data, depth, i) Hin ltac:(by left)) as Hle. cbn in Hle. lia.
Qed.

(** The walk either works off its queue, or the streams are full. *)
Lemma walk_loop_covers fuel : ∀ states queue s, tracked states queue (d_res s) → layered queue →
  Forall (λ t, t_blobs t <= maxDecodedBlobs) states → Forall (λ it, is_Some (states !! it.2)) queue → pending_items states queue <= Z.of_nat fuel →
  let '(states', s') := walk_loop never dedupHash fuel maxDepth maxIters states queue s in
  tracked states' [] (d_res s') ∧ ∃ l, r_streams (d_res s') = r_streams (d_res s) ++ l.
Proof.
  induction fuel as [|fuel IH]; intros states [|[[data depth] i] queue] s Htr Hly Hst Hq Hm.
  - split; [done|]. exists []. by rewrite app_nil_r.
  - pose proof (pending_items_nonneg states ((data, depth, i) :: queue) Hst) as Hn. rewrite length_cons in Hn. unfold item in *. lia.
  - split; [done|]. exists []. by rewrite app_nil_r.
  - cbn [walk_loop]. pose proof (stops_spec never (λ s, maxStreams <=? stream_count (d_res s)) s) as [E1 E2].
    assert ((stops never (λ s, maxStreams <=? stream_count (d_res s)) s).1 = (maxStreams <=? stream_count (d_res s))) as E3 by done.
    destruct (stops never _ s) as [stop s1]. cbn [fst snd] in E1, E2, E3. subst s1. destruct stop.
    + split; [|exists []; by rewrite app_nil_r]. intros j src Hj. destruct (Htr j src Hj) as (t & Ht & _). exists t. split; [done|]. left.
      do 3 right. left. cbn. lia.
    + pose proof Hq as [[t Ht] Hq']%list.Forall_cons. cbn [snd] in Ht. rewrite Ht. cbn [default].
      pose proof (tracked_step states queue data depth i (expiredNow never s).2 t Htr Hly Ht) as Hstep.
      pose proof (pays_step never dedupHash maxDepth maxIters states queue data depth i (expiredNow never s).2 t Hst Hq Ht) as Hpay.
      destruct (walk_item _ _ _ _ _ _ _) as [children s2]. destruct Hstep as (Htr2 & Hly2 & Hg). destruct Hpay as (Hst2 & Hq2 & Hm2).
      specialize (IH _ _ s2 Htr2 Hly2 Hst2 Hq2 ltac:(unfold pending_items, item in *; lia)). destruct (walk_loop _ _ _ _ _ _ _ s2) as [states' s3]. destruct IH as (IH & l & Hl).
      split; [done|]. destruct (gr_streams _ _ Hg) as [l' Hl']. exists (l' ++ l). by rewrite Hl, Hl', app_assoc.
Qed.

(** When nothing is queued any more, all permitted layers are out. *)
Lemma covered_unwraps i src t r em : 1 <= maxDepth → covered [] i src t r em →
  ∀ k d c, unwraps k d c → d = src → k <= maxDepth → ∃ l, l <= k ∧ (c, l) ∈ em.
Proof.
  intros Hd [_ _ _ Hr Hc] k d c Hu. induction Hu as [src' c Hoff|k src' d c Hu IH Hlook Htext Hoff]; intros -> Hk.
  - destruct Hr as [Hr|Hr]; [by apply elem_of_nil in Hr|]. by apply Hr.
  - destruct IH as (l & Hl & Hin); [done|lia|]. destruct (Hc d l Hin ltac:(lia) (conj Hlook Htext)) as [H|H]; [by apply elem_of_nil in H|].
    destruct (H c Hoff) as (l' & ? & ?). exists l'. split; [lia|done].
Qed.

End Walked.

(** ** The sources *)

Lemma decode_sources_keeps sources : ∀ texts x, texts `prefix_of` (mostlyText <$> sources) → x ∈ sources → mostlyText x = true → mayBeEncoded x = true →
  x ∈ decode_sources texts sources.
Proof.
  induction sources as [|y sources IH]; intros texts x Hp Hin Ht Hm; [by apply elem_of_nil in Hin|]. cbn [decode_sources].
  assert (match texts with t :: _ => t | [] => mostlyText y end = mostlyText y ∧ tail texts `prefix_of` (mostlyText <$> sources)) as [-> Hp'].
  { destruct texts as [|t texts]; [split; [done|apply prefix_nil]|]. cbn in Hp. split; [by apply prefix_cons_inv_1 in Hp|by apply prefix_cons_inv_2 in Hp]. }
  apply elem_of_cons in Hin as [<-|Hin].
  - rewrite Ht, Hm. cbn. by left.
  - destruct (_ && _); [right|]; by apply IH.
Qed.

Lemma defang_pass_texts late opts sources : ∀ blobs cum s, (defang_pass late dedupHash opts sources blobs cum s).1 `prefix_of` (mostlyText <$> sources).
Proof.
  induction sources as [|src sources IH]; intros blobs cum s; [done|]. cbn [defang_pass]. destruct (stops late _ s) as [[] s1]; [apply prefix_nil|].
  match goal with |- context [if mostlyText src then ?a else ?b] => set (x := if mostlyText src then a else b) end.
  destruct x as [[blobs' cum'] s2]. pose proof (IH blobs' cum' s2) as H. destruct (defang_pass _ _ _ sources _ _ _) as [texts s3]. cbn. by apply prefix_cons.
Qed.

(** Every text among the buffer and the streams that may hold an encoding is
    walked over. *)
Lemma prepare_covers late buf opts r tick x : x ∈ buf :: texts (r_streams r) → mostlyText x = true → mayBeEncoded x = true →
  x ∈ (prepare late dedupHash buf opts r tick).1.
Proof.
  intros Hin Ht Hm. unfold prepare. cbv zeta. destruct (utf16_pass _ _ _ _ _) as [u8s s1].
  match goal with |- context [defang_pass late dedupHash opts ?l 0 0 s1] => set (sources := l); pose proof (defang_pass_texts late opts sources 0 0 s1) as Hp end.
  assert (x ∈ sources) as Hs.
  { assert (x ∈ (buf :: texts (r_streams r)) ++ u8s) as Hall by (apply elem_of_app; by left). unfold sources.
    destruct (1 <? _)%nat; [|done]. destruct (dedup_sources_covers _ no_blobs [] x holds_empty Hall) as [?|?%elem_of_nil]; done. }
  destruct (defang_pass _ _ _ _ _ _ _) as [texts s2]. by apply decode_sources_keeps.
Qed.

Lemma start_tracked maxDepth maxIters sources r :
  tracked maxDepth maxIters sources ((λ _, fresh_budget) <$> sources) (imap (λ i src, (src, 0, i)) sources) r.
Proof.
  intros i src Hi. exists fresh_budget. split; [by rewrite list_lookup_fmap, Hi|]. right. exists []. constructor.
  - apply holds_empty.
  - by intros c ?%elem_of_nil.
  - by intros c l it ?%elem_of_nil.
  - left. apply elem_of_lookup_imap. by exists i, src.
  - by intros c l ?%elem_of_nil.
Qed.

Lemma start_layered sources : layered (imap (λ i src, (src, 0, i)) sources).
Proof.
  assert (∀ it, it ∈ imap (λ i src, (src, 0, i)) sources → it.1.2 = 0) as H by (by intros it (i & x & -> & _)%elem_of_lookup_imap).
  constructor.
  - intros j k it it' ->%list_elem_of_lookup_2%H ->%list_elem_of_lookup_2%H _. done.
  - intros it it' ->%H ->%H. done.
  - intros it ->%H. split; [done|by left].
Qed.

Lemma deep_marker_appends layer r : ∃ l, r_streams (deep_marker layer r).2 = r_streams r ++ l.
Proof.
  unfold deep_marker, emit_marker, append_marker, admitStream. cbn [allocate with_next r_childOpts].
  destruct (r_childOpts r) as [[bud|]|]; [destruct (admit_entry _ _) as [[tok|] bud']|..]; cbn; try (by eexists); exists []; by rewrite app_nil_r.
Qed.

Lemma mark_deep_appends late states : ∀ s, ∃ l, r_streams (d_res (mark_deep late states s).2) = r_streams (d_res s) ++ l.
Proof.
  induction states as [|t states IH]; intros s; cbn [mark_deep]; [exists []; by rewrite app_nil_r|].
  pose proof (stops_spec late (λ s, maxStreams <=? stream_count (d_res s)) s) as [E _]. destruct (stops late _ s) as [[] s1]; cbn [snd] in E; subst s1.
  { exists []. by rewrite app_nil_r. }
  destruct (_ <=? _); [|exact (IH (expiredNow late s).2)]. pose proof (deep_marker_appends (t_maxLayer t) (d_res s)) as [l Hl].
  change (d_res (expiredNow late s).2) with (d_res s). destruct (deep_marker _ _) as [ok r]. cbn [snd] in Hl.
  destruct (IH (if ok then set_total (d_total (expiredNow late s).2 + 1) (set_res r (expiredNow late s).2) else set_res r (expiredNow late s).2)) as [l' Hl'].
  exists (l ++ l'). rewrite Hl'. replace (r_streams (d_res (if ok then _ else _))) with (r_streams r) by (by destruct ok). by rewrite Hl, app_assoc.
Qed.

(** C25: The decode pass misses nothing its budgets allow.  Take the request's
    buffer or any stream so far that is text and passes the prefilter.  When
    the deadline does not pass, that source ends with a budget of its own used
    up (32 blobs, less than one MiB of its 4 MiB left, its iterations), or with the 256 streams full or the
    ledger refused; or every text under at most [DecodeDepth] layers of it is
    among the streams, where the text of one layer is what a decoder makes of
    the layer above it, and whatever colliding hashes the dedup uses. *)
Theorem decoding_complete buf opts r tick src :
  src ∈ buf :: texts (r_streams r) → mostlyText src = true → mayBeEncoded src = true →
  let '(sources, s) := prepare never dedupHash buf opts r tick in
  let '(states, s') := walk_sources never dedupHash sources opts s in
  ∃ i t, sources !! i = Some src ∧ states !! i = Some t ∧
    (capped (Z.max 1 (o_DecodeIterations opts)) t (d_res s')
     ∨ ∀ k c, k <= Z.max 1 (o_DecodeDepth opts) → unwraps k src c → c ∈ texts (r_streams (fromEncoded never dedupHash buf opts r tick).1)).
Proof.
  intros Hin Ht Hm. pose proof (prepare_covers never buf opts r tick src Hin Ht Hm) as Hsrc. unfold fromEncoded.
  destruct (prepare never dedupHash buf opts r tick) as [sources s]. cbn [fst] in Hsrc. apply list_elem_of_lookup_1 in Hsrc as [i Hi]. unfold walk_sources.
  pose proof (walk_loop_covers (Z.max 1 (o_DecodeDepth opts)) (Z.max 1 (o_DecodeIterations opts)) sources (walk_fuel sources) _ _ s (start_tracked _ _ sources (d_res s)) (start_layered sources)) as H.
  destruct (start_pays sources) as (H1 & H2 & H3). specialize (H H1 H2 H3). destruct (walk_loop _ _ _ _ _ _ _ s) as [states s'].
  destruct H as [Htr _]. destruct (Htr i src Hi) as (t & Hti & Hcov). exists i, t. split_and!; [done|done|]. destruct Hcov as [Hcap|(em & Hcov)]; [by left|right].
  intros k c Hk Hu. destruct (covered_unwraps (Z.max 1 (o_DecodeDepth opts)) i src t (d_res s') em (Z.le_max_l _ _) Hcov k src c Hu eq_refl Hk) as (l & _ & Hem).
  destruct (mark_deep_appends never states s') as [new Hnew]. destruct (mark_deep never states s') as [[] s3]. cbn [fst snd] in *.
  change (r_streams (with_decoded (d_total s3) (d_res s3))) with (r_streams (d_res s3)). rewrite Hnew. unfold texts. rewrite fmap_app, elem_of_app. left.
  apply (cv_texts _ _ _ _ _ _ _ Hcov). apply list_elem_of_fmap. by exists (c, l).
Qed.

End Complete.
