(* ===== verification/DecodeExample.v ===== *)
(** * Decoding examples

    A command under a hexadecimal and a base64 layer, a piece of prose, and the
    decode theorems at these inputs. *)

From Stdlib Require Import ZArith Lia.
From Stdlib Require Ascii String.
From stdpp Require Import base gmap strings list numbers.
From S2P Require Import Prelude GoStd GoText Base64 Effort GoRegexp DecodeRuns DecodeRegexp Retained DecodeFold DecodeWalk DecodePlay DecodePrefilter DecodeTree DecodeComplete.

Local Open Scope Z_scope.
Local Open Scope mailstrix_scope.

Definition exCommand : string := "powershell -w hidden".
Definition exHexLayer : string := "run 706f7765727368656c6c202d772068696464656e now".
Definition exBase64Layer : string := "x = cnVuIDcwNmY3NzY1NzI3MzY4NjU2YzZjMjAyZDc3MjA2ODY5NjQ2NDY1NmUgbm93".
Definition exProse : string := "Dear customer, your invoice is attached.".

Definition exOptions : Options := mkOptions 0 2 4 false 0 0 0 false [].

(** All contents have the same hash. *)
Definition exHash : string → Z := λ _, 0.

Lemma exStart_produced : produced 1000 (start 1000).
Proof. exists (mkWalk (start 1000) [] [] false). split_and!; [apply reach_start|done|done]. Qed.

Example both_layers_decoded : texts (r_streams (fromEncoded never exHash exBase64Layer exOptions (start 1000) 0).1) = [exHexLayer; exCommand].
Proof. vm_compute. reflexivity. Qed.

(** The deadline passes at the second question. *)
Example deadline_stops : r_decoded (fromEncoded (λ n, (1 <=? n)%nat) exHash exBase64Layer exOptions (start 1000) 0).1 = 0.
Proof. vm_compute. reflexivity. Qed.

Lemma decode_pass_bounded_witness :
  produced 1000 (fromEncoded never exHash exBase64Layer exOptions (start 1000) 0).1
  ∧ decoded (start 1000) 2 (fromEncoded never exHash exBase64Layer exOptions (start 1000) 0).1.
Proof.
  destruct (decode_pass_bounded 1000 ltac:(done) never exHash exBase64Layer exOptions (start 1000) 0 exStart_produced) as [H1 H2].
  split; [exact H1|]. replace 2 with (r_decoded (fromEncoded never exHash exBase64Layer exOptions (start 1000) 0).1) by (vm_compute; reflexivity). exact H2.
Defined.

Lemma decoding_ends_witness :
  let queue := imap (λ i src, (src, 0, i)) [exBase64Layer] in
  let s := mkD (start 1000) fresh_budget [] 0 0 in
  walk_loop never exHash (walk_fuel [exBase64Layer] + 7) 2 4 ((λ _, fresh_budget) <$> [exBase64Layer]) queue s
    = walk_loop never exHash (walk_fuel [exBase64Layer]) 2 4 ((λ _, fresh_budget) <$> [exBase64Layer]) queue s.
Proof. intros queue s. exact (proj1 (decoding_ends never exHash [exBase64Layer] s exBase64Layer 2 4 7 ltac:(done))). Defined.

Lemma prefilter_strict_witness :
  let s := mkD (start 1000) fresh_budget [] 0 0 in
  (decode_chain (expiredNow never) (emit_blob exHash 1) exProse s).1 = true ∧ same s (decode_chain (expiredNow never) (emit_blob exHash 1) exProse s).2.
Proof.
  intros s. pose proof (prefilter_strict exHash 1 exProse s ltac:(vm_compute; done) ltac:(vm_compute; reflexivity)) as H.
  destruct (decode_chain _ _ exProse s) as [ok s']. exact H.
Defined.

(** What one layer decodes, by evaluation. *)
Lemma offers_compute d c : existsb (λ b, (minDecodedLen <=? len b) && bool_decide (c = clamp maxBytesPerDecodedBlob b)) (chain_texts d) = true → offers d c.
Proof.
  intros (b & Hin & [H1%Z.leb_le H2%bool_decide_eq_true]%andb_true_iff)%existsb_exists. exists b. split; [by apply list_elem_of_In|done].
Qed.

Lemma exUnwraps : unwraps 2 exBase64Layer exCommand.
Proof.
  apply (unwraps_more 1 _ exHexLayer); [apply unwraps_one, offers_compute|..|apply offers_compute]; vm_compute; reflexivity.
Qed.

Lemma decoding_complete_witness : exCommand ∈ texts (r_streams (fromEncoded never exHash exBase64Layer exOptions (start 1000) 0).1).
Proof.
  pose proof (decoding_complete exHash exBase64Layer exOptions (start 1000) 0 exBase64Layer ltac:(by left) ltac:(vm_compute; reflexivity) ltac:(vm_compute; reflexivity)) as H.
  remember (fromEncoded never exHash exBase64Layer exOptions (start 1000) 0).1 as r' eqn:Hr'. clear Hr'.
  revert H. vm_compute (prepare never exHash exBase64Layer exOptions (start 1000) 0). cbv beta iota zeta.
  match goal with |- context [walk_sources ?l ?h ?x ?o ?y] => let v := eval vm_compute in (walk_sources l h x o y) in change (walk_sources l h x o y) with v end.
  cbv beta iota zeta.
  intros ([|i] & t & Hi & Ht & [Hcap|H]); [..|done|done].
  - exfalso. injection Ht as <-. revert Hcap. vm_compute. intros [?|[?|[?|[?|?]]]]; done.
  - apply (H 2); [vm_compute; done|exact exUnwraps].
Defined.
