(* ===== verification/RarSolid.v ===== *)
(** * Solid RAR archives

    extract/rarsolid.go: whether the main header of a RAR archive says that it
    is solid, read before the decoder sees the bytes.  Whatever cannot be read
    counts as solid. *)

From Stdlib Require Import ZArith Lia.
From Stdlib Require Ascii String.
From stdpp Require Import base strings list numbers.
From S2P Require Import Prelude GoStd GoText Base64 GoRegexp DecodeRuns Retained DecodeFold.

Local Open Scope Z_scope.
Local Open Scope mailstrix_scope.

(** [b[i]]; out of range is a panic. *)
Fixpoint byte_at (i : nat) (s : string) {struct s} : option Z :=
  match s with
  | EmptyString => None
  | String c s => match i with O => Some (byte c) | Datatypes.S i => byte_at i s end
  end.

Lemma byte_at_Some i s : is_Some (byte_at i s) ↔ Z.of_nat i < len s.
Proof.
  revert i. induction s as [|c s IH]; intros i; cbn [byte_at].
  - split; [intros [v Hv]; done|unfold len; cbn; lia].
  - unfold len in *. cbn [Stdlib.Strings.String.length]. destruct i as [|i]; [split; [lia|by eexists]|]. rewrite IH. lia.
Qed.

Lemma byte_at_range i s v : byte_at i s = Some v → 0 <= v < 256.
Proof. revert i. induction s as [|c s IH]; intros [|i] H; cbn in H; try done; [injection H as <-; apply byte_range|by apply (IH i)]. Qed.

Definition rarMaxBlockScan : nat := 8.
Definition rar5BlockArc : Z := 1.
Definition rar5BlockHasExtra : Z := 1.
Definition rar5BlockHasData : Z := 2.
Definition rar5ArcSolid : Z := 4.
Definition rar5BlockEncrypt : Z := 4.
Definition rar4BlockArc : Z := 115.
Definition rar4ArcSolid : Z := 8.

Definition rarSigPrefix : string := "Rar!" +:+ string_of_bytes [26; 7].
Definition rarMaxSfxSize : Z := 1048576.

(** [bytes.IndexByte] *)
Fixpoint IndexByte (s : string) (c : Z) : option Z :=
  match s with
  | EmptyString => None
  | String d s => if byte d =? c then Some 0 else n ← IndexByte s c; Some (n + 1)
  end.

(** [rar5Uvarint]: value and bytes consumed; 0 bytes when it is truncated or
    longer than ten bytes.  Bits past the 64th are lost. *)
Fixpoint uvarint_loop (i v : Z) (b : string) : Z * Z :=
  match b with
  | EmptyString => (0, 0)
  | String c b =>
      if 10 <=? i then (0, 0)
      else
        let v := Z.lor v (Z.shiftl (Z.land (byte c) 127) (7 * i) mod 2 ^ 64) in
        if Z.land (byte c) 128 =? 0 then (v, i + 1) else uvarint_loop (i + 1) v b
  end.
Definition rar5Uvarint (b : string) : Z * Z := uvarint_loop 0 0 b.

Definition fitsWithin (v limit : Z) : option Z := if (limit <? 0) || (limit <? v) then None else Some v.

(** The scans' result is [None] when they would index out of range. *)
Fixpoint rar4_loop (scan : nat) (b : string) : option bool :=
  match scan with
  | O => Some true
  | Datatypes.S scan =>
      if len b <? 7 then Some true
      else
        htype ← byte_at 2 b; f0 ← byte_at 3 b; f1 ← byte_at 4 b; s0 ← byte_at 5 b; s1 ← byte_at 6 b;
        let flags := Z.lor f0 (Z.shiftl f1 8) in
        let size := Z.lor s0 (Z.shiftl s1 8) in
        if htype =? rar4BlockArc then Some (negb (Z.land flags rar4ArcSolid =? 0))
        else if (size <? 7) || (len b <? size) then Some true
        else b ← checked size (len b) b; rar4_loop scan b
  end.
Definition rar4ArchiveIsSolid (b : string) : option bool := rar4_loop rarMaxBlockScan b.

(** A varint and the rest; the scans refuse when there is none. *)
Definition take_varint (hdr : string) (next : Z → string → option bool) : option bool :=
  let '(v, n) := rar5Uvarint hdr in
  if n =? 0 then Some true else hdr ← checked n (len hdr) hdr; next v hdr.

Definition rar5_data (has : bool) (hdr : string) (next : Z → string → option bool) : option bool :=
  if has then take_varint hdr next else next 0 hdr.

Fixpoint rar5_loop (scan : nat) (b : string) : option bool :=
  match scan with
  | O => Some true
  | Datatypes.S scan =>
      if len b <? 4 then Some true
      else
        b ← checked 4 (len b) b;
        let '(hdrSize, n) := rar5Uvarint b in
        match fitsWithin hdrSize (len b - n) with
        | None => Some true
        | Some hsz =>
            if (n =? 0) || (hdrSize =? 0) then Some true
            else
              hdr ← checked n (n + hsz) b;
              rest ← checked (n + hsz) (len b) b;
              take_varint hdr (λ htype hdr, take_varint hdr (λ flags hdr,
                if htype =? rar5BlockEncrypt then Some true
                else
                  rar5_data (negb (Z.land flags rar5BlockHasExtra =? 0)) hdr (λ _ hdr,
                  rar5_data (negb (Z.land flags rar5BlockHasData =? 0)) hdr (λ dataSize hdr,
                    if htype =? rar5BlockArc then take_varint hdr (λ arcFlags _, Some (negb (Z.land arcFlags rar5ArcSolid =? 0)))
                    else
                      match fitsWithin dataSize (len rest) with
                      | None => Some true
                      | Some dsz => b ← checked dsz (len rest) rest; rar5_loop scan b
                      end))))
        end
  end.
Definition rar5ArchiveIsSolid (b : string) : option bool := rar5_loop rarMaxBlockScan b.

(** The offset past the signature and the version. *)
Fixpoint find_sig (fuel : nat) (i : Z) (buf : string) : option (option (Z * Z)) :=
  match fuel with
  | O => Some None
  | Datatypes.S fuel =>
      if rarMaxSfxSize <? i then Some None
      else
        tail ← checked i (len buf) buf;
        match IndexByte tail 82 with
        | None => Some None
        | Some rel =>
            let i := i + rel in
            if rarMaxSfxSize <? i then Some None
            else if len buf <? i + len rarSigPrefix + 2 then Some None
            else
              tail ← checked i (len buf) buf;
              if negb (HasPrefix tail rarSigPrefix) then find_sig fuel (i + 1) buf
              else
                v ← byte_at (Z.to_nat (i + len rarSigPrefix)) buf;
                w ← byte_at (Z.to_nat (i + len rarSigPrefix + 1)) buf;
                if v =? 0 then Some (Some (i + len rarSigPrefix + 1, 0))
                else if w =? 0 then Some (Some (i + len rarSigPrefix + 2, 1))
                else find_sig fuel (i + 1) buf
        end
  end.
Definition rarFindSig (buf : string) : option (option (Z * Z)) := find_sig (Datatypes.S (String.length buf)) 0 buf.

Definition rarArchiveIsSolid (buf : string) : option bool :=
  sig ← rarFindSig buf;
  match sig with
  | None => Some false
  | Some (off, ver) => body ← checked off (len buf) buf; if ver =? 0 then rar4ArchiveIsSolid body else rar5ArchiveIsSolid body
  end.

(** ** Archives as their authors write them *)

(** A varint of at most nine bytes. *)
Fixpoint put_uvarint (fuel : nat) (v : Z) : string :=
  match fuel with
  | O => EmptyString
  | Datatypes.S fuel =>
      if v <? 128 then string_of_bytes [v] else string_of_bytes [128 + v mod 128] +:+ put_uvarint fuel (v / 128)
  end.
Definition uvarint (v : Z) : string := put_uvarint 9 v.

(** A block: checksum, header size, header, data; the flags say which of the
    optional sizes there are. *)
Definition has_flag (flags bit : Z) : bool := negb (Z.land flags bit =? 0).
Definition rar5_header (htype flags extra : Z) (fields data : string) : string :=
  uvarint htype +:+ uvarint flags +:+ (if has_flag flags rar5BlockHasExtra then uvarint extra else "")
  +:+ (if has_flag flags rar5BlockHasData then uvarint (len data) else "") +:+ fields.
Definition rar5_block (crc : string) (htype flags extra : Z) (fields data : string) : string :=
  let hdr := rar5_header htype flags extra fields data in crc +:+ uvarint (len hdr) +:+ hdr +:+ data.

Definition le16 (n : Z) : string := string_of_bytes [n mod 256; n / 256].
Definition rar4_block (crc : string) (htype flags : Z) (body : string) : string :=
  crc +:+ string_of_bytes [htype] +:+ le16 flags +:+ le16 (7 + len body) +:+ body.

Example solid4 : rarArchiveIsSolid ("MZ stub" +:+ rarSigPrefix +:+ string_of_bytes [0] +:+ rar4_block "cc" 117 0 "comment" +:+ rar4_block "cc" 115 9 "xx") = Some true.
Proof. vm_compute. reflexivity. Qed.
Example plain4 : rarArchiveIsSolid (rarSigPrefix +:+ string_of_bytes [0] +:+ rar4_block "cc" 115 1 "xx") = Some false.
Proof. vm_compute. reflexivity. Qed.
Example solid5 : rarArchiveIsSolid (rarSigPrefix +:+ string_of_bytes [9; 9] +:+ rarSigPrefix +:+ string_of_bytes [1; 0] +:+ rar5_block "cccc" 1 2 0 (uvarint 4) "") = Some true.
Proof. vm_compute. reflexivity. Qed.
Example truncated_refused : rarArchiveIsSolid (rarSigPrefix +:+ string_of_bytes [1; 0; 5]) = Some true.
Proof. vm_compute. reflexivity. Qed.

(** ** No read out of range *)

Lemma checked_Some a b s : 0 <= a <= b → b <= len s → checked a b s = Some (slice a b s).
Proof. intros Ha Hb. unfold checked. by rewrite !(proj2 (Z.leb_le _ _)) by lia. Qed.

Lemma uvarint_loop_bounds b : ∀ i v, 0 <= i → let '(_, n) := uvarint_loop i v b in n = 0 ∨ i < n <= i + len b.
Proof.
  induction b as [|c b IH]; intros i v Hi; cbn [uvarint_loop]; [by left|]. destruct (10 <=? i); [by left|].
  assert (len (String c b) = len b + 1) as Hl by (unfold len; cbn [Stdlib.Strings.String.length]; lia). pose proof (len_nonneg b).
  destruct (_ =? 0); [right; lia|]. specialize (IH (i + 1) (Z.lor v (Z.shiftl (Z.land (byte c) 127) (7 * i) mod 2 ^ 64)) ltac:(lia)).
  destruct (uvarint_loop _ _ b) as [w n]. lia.
Qed.

Lemma uvarint_bounds b v n : rar5Uvarint b = (v, n) → n = 0 ∨ 0 < n <= len b.
Proof. intros H. pose proof (uvarint_loop_bounds b 0 0 ltac:(lia)) as Hb. unfold rar5Uvarint in H. rewrite H in Hb. lia. Qed.

Lemma byte_at_is i s : Z.of_nat i < len s → ∃ v, byte_at i s = Some v.
Proof. intros H. by apply byte_at_Some in H. Qed.

Lemma take_varint_total hdr next : (∀ v hdr, is_Some (next v hdr)) → is_Some (take_varint hdr next).
Proof.
  intros Hn. unfold take_varint. destruct (rar5Uvarint hdr) as [v n] eqn:E. apply uvarint_bounds in E. destruct (Z.eqb_spec n 0); [by eexists|].
  rewrite checked_Some by lia. apply Hn.
Qed.

Lemma rar5_data_total has hdr next : (∀ v hdr, is_Some (next v hdr)) → is_Some (rar5_data has hdr next).
Proof. intros Hn. unfold rar5_data. destruct has; [by apply take_varint_total|apply Hn]. Qed.

Lemma fitsWithin_Some v limit k : fitsWithin v limit = Some k → k = v ∧ k <= limit ∧ 0 <= limit.
Proof. unfold fitsWithin. destruct (Z.ltb_spec limit 0), (Z.ltb_spec limit v); cbn; try done. intros [= <-]. lia. Qed.

Lemma uvarint_nonneg b : ∀ i v, 0 <= v → 0 <= (uvarint_loop i v b).1.
Proof.
  induction b as [|c b IH]; intros i v Hv; cbn [uvarint_loop]; [done|]. destruct (10 <=? i); [done|].
  assert (0 <= Z.lor v (Z.shiftl (Z.land (byte c) 127) (7 * i) mod 2 ^ 64)) by (apply Z.lor_nonneg; split; [done|by apply Z.mod_pos_bound]).
  destruct (_ =? 0); [done|by apply IH].
Qed.

Lemma rar5_loop_total scan : ∀ b, is_Some (rar5_loop scan b).
Proof.
  induction scan as [|scan IH]; intros b; cbn [rar5_loop]; [by eexists|]. destruct (Z.ltb_spec (len b) 4); [by eexists|].
  rewrite checked_Some by lia. cbn. set (b' := slice 4 (len b) b). destruct (rar5Uvarint b') as [hdrSize n] eqn:E.
  destruct (fitsWithin _ _) as [hsz|] eqn:Hf; [|by eexists]. apply fitsWithin_Some in Hf as (-> & Hle & Hlim).
  assert (0 <= hdrSize) as Hpos by (pose proof (uvarint_nonneg b' 0 0 ltac:(lia)) as Hp; unfold rar5Uvarint in E; by rewrite E in Hp).
  apply uvarint_bounds in E. destruct (Z.eqb_spec n 0); [by eexists|]. destruct (Z.eqb_spec hdrSize 0); [by eexists|]. cbn [orb].
  rewrite !checked_Some by lia. cbn. apply take_varint_total. intros htype hdr. apply take_varint_total. intros flags hdr'.
  destruct (htype =? rar5BlockEncrypt); [by eexists|]. apply rar5_data_total. intros _ hdr2. unfold rar5_data.
  assert (∀ dataSize hdr3, 0 <= dataSize → is_Some (if htype =? rar5BlockArc
    then take_varint hdr3 (λ arcFlags _, Some (negb (Z.land arcFlags rar5ArcSolid =? 0)))
    else match fitsWithin dataSize (len (slice (n + hdrSize) (len b') b')) with
         | None => Some true
         | Some dsz => b ← checked dsz (len (slice (n + hdrSize) (len b') b')) (slice (n + hdrSize) (len b') b'); rar5_loop scan b
         end)) as Hlast.
  { intros dataSize hdr3 Hd. destruct (htype =? rar5BlockArc); [apply take_varint_total; intros; by eexists|].
    destruct (fitsWithin _ _) as [dsz|] eqn:Hf; [|by eexists]. apply fitsWithin_Some in Hf as (-> & ? & ?). rewrite checked_Some by lia. apply IH. }
  destruct (negb _); [|by apply Hlast]. unfold take_varint at 1. destruct (rar5Uvarint hdr2) as [v k] eqn:E2.
  assert (0 <= v) by (pose proof (uvarint_nonneg hdr2 0 0 ltac:(lia)) as Hp; unfold rar5Uvarint in E2; by rewrite E2 in Hp).
  apply uvarint_bounds in E2. destruct (Z.eqb_spec k 0); [by eexists|]. rewrite checked_Some by lia. by apply Hlast.
Qed.

(** ** Reading what was written *)

Lemma lor_shift a b k : 0 <= k → 0 <= a < 2 ^ k → 0 <= b → Z.lor a (Z.shiftl b k) = a + b * 2 ^ k.
Proof.
  intros Hk Ha Hb. rewrite Z.shiftl_mul_pow2 by done. destruct (decide (a = 0)) as [->|Hne]; [by rewrite Z.lor_0_l|].
  assert (Z.log2 a < k) as Hlog by (apply Z.log2_lt_pow2; lia).
  assert (Z.land a (b * 2 ^ k) = 0) as Hland.
  { apply Z.bits_inj'. intros n Hn. rewrite Z.land_spec, Z.bits_0. destruct (decide (n < k)).
    - rewrite (Z.mul_pow2_bits_low b k n) by lia. apply andb_false_r.
    - rewrite (Z.bits_above_log2 a n) by lia. done. }
  rewrite <- Z.lxor_lor by done. by rewrite <- Z.add_nocarry_lxor.
Qed.

Lemma byte_of_bytes v rest : 0 <= v < 256 → string_of_bytes [v] +:+ rest = String (ascii_of_Z v) rest.
Proof. done. Qed.

(** The two parts of a varint byte, for all 256. *)
Lemma varint_byte c : 0 <= c < 256 → (Z.land c 128 =? 0) = (c <? 128) ∧ Z.land c 127 = c mod 128.
Proof.
  intros Hc. assert (forallb (λ n, let c := Z.of_nat n in Bool.eqb (Z.land c 128 =? 0) (c <? 128) && (Z.land c 127 =? c mod 128)) (seq 0 256) = true) as H by (by vm_compute).
  rewrite forallb_forall in H. specialize (H (Z.to_nat c) ltac:(apply in_seq; lia)). cbv zeta in H. rewrite Z2Nat.id in H by lia.
  apply andb_true_iff in H as [H1%eqb_prop H2%Z.eqb_eq]. done.
Qed.

Lemma uvarint_loop_put fuel : ∀ i acc v rest, 0 <= i → i + Z.of_nat fuel <= 9 → 0 <= acc < 2 ^ (7 * i) → 0 <= v < 2 ^ (7 * Z.of_nat fuel) → (0 < fuel)%nat →
  uvarint_loop i acc (put_uvarint fuel v +:+ rest) = (acc + v * 2 ^ (7 * i), i + len (put_uvarint fuel v)).
Proof.
  induction fuel as [|fuel IH]; intros i acc v rest Hi Hf Hacc Hv Hfuel; [lia|].
  assert (2 ^ (7 * i) <= 2 ^ 56) as Hp by (apply Z.pow_le_mono_r; lia). assert (0 < 2 ^ (7 * i)) by (apply Z.pow_pos_nonneg; lia).
  assert (∀ c tail, 0 <= c < 256 → uvarint_loop i acc (String (ascii_of_Z c) tail)
    = if c <? 128 then (acc + c mod 128 * 2 ^ (7 * i), i + 1) else uvarint_loop (i + 1) (acc + c mod 128 * 2 ^ (7 * i)) tail) as Hstep.
  { intros c tail Hc. cbn [uvarint_loop]. destruct (varint_byte c Hc) as [E1 E2]. pose proof (Z.mod_pos_bound c 128 ltac:(lia)).
    rewrite (proj2 (Z.leb_gt 10 i)), byte_ascii_of_Z, E1, E2 by lia.
    rewrite Z.mod_small by (rewrite Z.shiftl_mul_pow2 by lia; change (2 ^ 64) with (256 * 2 ^ 56); nia). by rewrite lor_shift by lia. }
  cbn [put_uvarint]. destruct (Z.ltb_spec v 128).
  - rewrite byte_of_bytes, Hstep by lia. rewrite (proj2 (Z.ltb_lt v 128)), (Z.mod_small v) by lia. done.
  - pose proof (Z.mod_pos_bound v 128 ltac:(lia)) as Hm.
    change (string_of_bytes [128 + v mod 128] +:+ put_uvarint fuel (v / 128)) with (String (ascii_of_Z (128 + v mod 128)) (put_uvarint fuel (v / 128))).
    rewrite string_cons_app, Hstep, string_length_S, (proj2 (Z.ltb_ge (128 + v mod 128) 128)) by lia.
    replace ((128 + v mod 128) mod 128) with (v mod 128) by (replace (128 + v mod 128) with (v mod 128 + 1 * 128) by lia; rewrite Z.mod_add, Z.mod_mod by lia; done).
    assert (2 ^ (7 * (i + 1)) = 128 * 2 ^ (7 * i)) as E by (replace (7 * (i + 1)) with (7 + 7 * i) by lia; by rewrite Z.pow_add_r by lia).
    assert (2 ^ (7 * Z.of_nat (Datatypes.S fuel)) = 128 * 2 ^ (7 * Z.of_nat fuel)) as E2
      by (replace (7 * Z.of_nat (Datatypes.S fuel)) with (7 + 7 * Z.of_nat fuel) by lia; by rewrite Z.pow_add_r by lia).
    pose proof (Z.div_mod v 128 ltac:(lia)). rewrite E2 in Hv. assert (0 < fuel)%nat by (destruct fuel; [cbn in Hv; lia|lia]).
    rewrite IH; [|lia|lia|rewrite E; nia|split; [apply Z.div_pos; lia|apply Z.div_lt_upper_bound; lia]|done]. rewrite E. f_equal; [nia|lia].
Qed.

Lemma uvarint_read v rest : 0 <= v < 2 ^ 63 → rar5Uvarint (uvarint v +:+ rest) = (v, len (uvarint v)).
Proof.
  intros Hv. unfold rar5Uvarint, uvarint. rewrite uvarint_loop_put; [f_equal; lia|lia|cbn; lia|done|done|lia].
Qed.

(** *** Blocks *)

Lemma slice_app a b c : slice (len a) (len a + len b) (a +:+ b +:+ c) = b.
Proof.
  unfold slice, substring, len. replace (Z.to_nat (Z.of_nat (String.length a) + Z.of_nat (String.length b)) - Z.to_nat (Z.of_nat (String.length a)))%nat with (String.length b) by lia.
  rewrite Nat2Z.id, string_drop_app. apply string_take_app.
Qed.

Lemma checked_mid a b c n m : n = len a → m = len a + len b → checked n m (a +:+ b +:+ c) = Some b.
Proof.
  intros -> ->. pose proof (len_nonneg a). pose proof (len_nonneg b). pose proof (len_nonneg c).
  rewrite checked_Some by (rewrite ?string_app_len; lia). by rewrite slice_app.
Qed.

Lemma checked_tail a b n m : n = len a → m = len (a +:+ b) → checked n m (a +:+ b) = Some b.
Proof. intros -> ->. rewrite <- (string_app_nil_r b) at 2. apply checked_mid; [done|apply string_app_len]. Qed.

Lemma len_pos_uvarint v : 0 < len (uvarint v).
Proof.
  assert (∀ x, len (string_of_bytes [x]) = 1) as E by done. unfold uvarint. change (put_uvarint 9 v) with
    (if v <? 128 then string_of_bytes [v] else string_of_bytes [128 + v mod 128] +:+ put_uvarint 8 (v / 128)).
  pose proof (len_nonneg (put_uvarint 8 (v / 128))). destruct (v <? 128); [by rewrite E|]. rewrite string_app_len, E. lia.
Qed.

Lemma take_varint_read v rest next : 0 <= v < 2 ^ 63 → take_varint (uvarint v +:+ rest) next = next v rest.
Proof.
  intros Hv. unfold take_varint. rewrite uvarint_read by done. pose proof (len_pos_uvarint v). rewrite (proj2 (Z.eqb_neq _ 0)) by lia.
  by rewrite (checked_tail (uvarint v) rest).
Qed.

(** The sizes and the type of a block are in range. *)
Definition block_ok (crc : string) (htype flags extra : Z) (fields data : string) : Prop :=
  len crc = 4 ∧ 0 <= htype < 2 ^ 63 ∧ 0 <= flags < 2 ^ 63 ∧ 0 <= extra < 2 ^ 63 ∧ len data < 2 ^ 63 ∧ len (rar5_header htype flags extra fields data) < 2 ^ 63
  ∧ (has_flag flags rar5BlockHasData = false → data = "").

Lemma rar5_read scan crc htype flags extra fields data rest : block_ok crc htype flags extra fields data →
  rar5_loop (Datatypes.S scan) (rar5_block crc htype flags extra fields data +:+ rest) =
    if htype =? rar5BlockEncrypt then Some true
    else if htype =? rar5BlockArc then take_varint fields (λ arcFlags _, Some (negb (Z.land arcFlags rar5ArcSolid =? 0)))
    else rar5_loop scan rest.
Proof.
  intros (Hcrc & Ht & Hf & He & Hd & Hh & Hno). unfold rar5_block. set (hdr := rar5_header htype flags extra fields data) in *. cbn [rar5_loop].
  pose proof (len_nonneg data). pose proof (len_nonneg rest). pose proof (len_pos_uvarint (len hdr)) as Hpos. pose proof (len_nonneg hdr) as Hh0.
  assert (0 < len hdr) as Hhdr. { unfold hdr, rar5_header. rewrite string_app_len. pose proof (len_pos_uvarint htype). match goal with |- _ < _ + len ?x => pose proof (len_nonneg x) end. lia. }
  rewrite <- !string_app_assoc. rewrite (proj2 (Z.ltb_ge _ 4)) by (rewrite !string_app_len; lia).
  rewrite (checked_tail crc) by done. cbn [mbind option_bind]. rewrite uvarint_read by done.
  assert (fitsWithin (len hdr) (len (uvarint (len hdr) +:+ hdr +:+ data +:+ rest) - len (uvarint (len hdr))) = Some (len hdr)) as ->.
  { unfold fitsWithin. rewrite !string_app_len. rewrite !(proj2 (Z.ltb_ge _ _)) by lia. done. }
  rewrite !(proj2 (Z.eqb_neq _ 0)) by lia. cbn [orb]. rewrite (checked_mid (uvarint (len hdr)) hdr (data +:+ rest) (len (uvarint (len hdr))) (len (uvarint (len hdr)) + len hdr)) by done. cbn [mbind option_bind].
  assert (checked (len (uvarint (len hdr)) + len hdr) (len (uvarint (len hdr) +:+ hdr +:+ data +:+ rest)) (uvarint (len hdr) +:+ hdr +:+ data +:+ rest) = Some (data +:+ rest)) as ->.
  { rewrite (string_app_assoc (uvarint (len hdr)) hdr). apply checked_tail; [by rewrite string_app_len|done]. }
  cbn [mbind option_bind]. unfold hdr, rar5_header. rewrite !take_varint_read by done. destruct (htype =? rar5BlockEncrypt); [done|].
  unfold rar5_data. fold (has_flag flags rar5BlockHasExtra). fold (has_flag flags rar5BlockHasData).
  assert (∀ next : Z → string → option bool, (if has_flag flags rar5BlockHasExtra
    then take_varint ((if has_flag flags rar5BlockHasExtra then uvarint extra else "") +:+ (if has_flag flags rar5BlockHasData then uvarint (len data) else "") +:+ fields) next
    else next 0 ((if has_flag flags rar5BlockHasExtra then uvarint extra else "") +:+ (if has_flag flags rar5BlockHasData then uvarint (len data) else "") +:+ fields))
    = next (if has_flag flags rar5BlockHasExtra then extra else 0) ((if has_flag flags rar5BlockHasData then uvarint (len data) else "") +:+ fields)) as ->.
  { intros next. destruct (has_flag flags rar5BlockHasExtra); [by apply take_varint_read|done]. }
  destruct (has_flag flags rar5BlockHasData) eqn:Hdata.
  - rewrite take_varint_read by done. destruct (htype =? rar5BlockArc); [done|].
    assert (fitsWithin (len data) (len (data +:+ rest)) = Some (len data)) as ->.
    { unfold fitsWithin. rewrite string_app_len. rewrite !(proj2 (Z.ltb_ge _ _)) by lia. done. }
    rewrite (checked_tail data rest) by done. done.
  - rewrite (Hno eq_refl). destruct (htype =? rar5BlockArc); [done|].
    assert (fitsWithin 0 (len ("" +:+ rest)) = Some 0) as -> by (unfold fitsWithin; change ("" +:+ rest) with rest; rewrite !(proj2 (Z.ltb_ge _ _)) by lia; done).
    change ("" +:+ rest) with rest. rewrite (checked_tail "" rest) by done. done.
Qed.

(** *** The signature *)

Lemma IndexByte_Some s c n : IndexByte s c = Some n → 0 <= n < len s ∧ byte_at (Z.to_nat n) s = Some c ∧ ∀ k, 0 <= k < n → byte_at (Z.to_nat k) s ≠ Some c.
Proof.
  revert n. induction s as [|d s IH]; intros n H; cbn [IndexByte] in H; [done|]. pose proof (len_nonneg s). rewrite string_length_S.
  destruct (Z.eqb_spec (byte d) c) as [E|E].
  - injection H as <-. split; [lia|]. split; [cbn; by rewrite E|intros; lia].
  - destruct (IndexByte s c) as [m|]; cbn in H; [|done]. injection H as <-. destruct (IH m eq_refl) as (Hm & Hat & Hbefore).
    split; [lia|]. replace (Z.to_nat (m + 1)) with (Datatypes.S (Z.to_nat m)) by lia. split; [done|]. intros k Hk.
    destruct (decide (k = 0)) as [->|]; [cbn; by intros [= Hd]|]. replace (Z.to_nat k) with (Datatypes.S (Z.to_nat (k - 1))) by lia. cbn [byte_at]. apply Hbefore. lia.
Qed.

Lemma IndexByte_None s c k : IndexByte s c = None → byte_at k s ≠ Some c.
Proof.
  revert k. induction s as [|d s IH]; intros k H; cbn [IndexByte] in H; [done|]. destruct (Z.eqb_spec (byte d) c); [done|].
  destruct (IndexByte s c) eqn:E; [done|]. destruct k as [|k]; cbn [byte_at]; [by intros [= Hd]|by apply IH].
Qed.

(** The archive a decoder would open at [i]: where its blocks start, and its
    version. *)
Definition sig_at (buf : string) (i : Z) : option (Z * Z) :=
  if len buf <? i + len rarSigPrefix + 2 then None
  else if negb (HasPrefix (slice i (len buf) buf) rarSigPrefix) then None
  else
    v ← byte_at (Z.to_nat (i + len rarSigPrefix)) buf;
    w ← byte_at (Z.to_nat (i + len rarSigPrefix + 1)) buf;
    if v =? 0 then Some (i + len rarSigPrefix + 1, 0) else if w =? 0 then Some (i + len rarSigPrefix + 2, 1) else None.

Lemma byte_at_drop j : ∀ s k, byte_at k (string_drop j s) = byte_at (j + k) s.
Proof. induction j as [|j IH]; intros [|c s] k; cbn [string_drop byte_at Nat.add]; try done; by destruct k. Qed.

Lemma slice_tail i s : 0 <= i <= len s → slice i (len s) s = string_drop (Z.to_nat i) s.
Proof.
  intros Hi. unfold slice, substring. apply string_take_all_len. unfold len in *. rewrite string_drop_length. lia.
Qed.

Lemma sig_at_R buf i : 0 <= i → is_Some (sig_at buf i) → byte_at (Z.to_nat i) buf = Some 82.
Proof.
  intros Hi. unfold sig_at. destruct (Z.ltb_spec (len buf) (i + len rarSigPrefix + 2)) as [|Hl]; [by intros []|].
  change (len rarSigPrefix) with 6 in Hl. rewrite slice_tail by lia. unfold HasPrefix. destruct (strip_prefix rarSigPrefix _) as [r|] eqn:E; [|by intros []].
  intros _. apply strip_prefix_app in E. rewrite <- (Nat.add_0_r (Z.to_nat i)), <- byte_at_drop, E. done.
Qed.

Lemma sig_at_None_ne buf i : 0 <= i → byte_at (Z.to_nat i) buf ≠ Some 82 → sig_at buf i = None.
Proof. intros Hi Hne. destruct (sig_at buf i) eqn:E; [|done]. destruct Hne. apply sig_at_R; [done|by rewrite E]. Qed.

Lemma sig_at_beyond buf i : len buf < i + len rarSigPrefix + 2 → sig_at buf i = None.
Proof. intros H. unfold sig_at. by rewrite (proj2 (Z.ltb_lt _ _)). Qed.

(** The first archive a decoder would open, among the offsets it looks at. *)
Fixpoint first_sig (n : nat) (i : Z) (buf : string) : option (Z * Z) :=
  match n with O => None | Datatypes.S n => match sig_at buf i with Some r => Some r | None => first_sig n (i + 1) buf end end.

Lemma first_sig_skip buf k : ∀ n i, (∀ j, i <= j < i + Z.of_nat k → sig_at buf j = None) → first_sig (k + n) i buf = first_sig n (i + Z.of_nat k) buf.
Proof.
  induction k as [|k IH]; intros n i H; [cbn; f_equal; lia|]. cbn [Nat.add first_sig]. rewrite H by lia. rewrite IH by (intros; apply H; lia). f_equal. lia.
Qed.

Lemma first_sig_none buf n i : (∀ j, i <= j < i + Z.of_nat n → sig_at buf j = None) → first_sig n i buf = None.
Proof. intros H. rewrite <- (Nat.add_0_r n), first_sig_skip by done. done. Qed.

Lemma rarFindSig_from fuel : ∀ i buf, 0 <= i <= len buf → len buf - i < Z.of_nat fuel →
  find_sig fuel i buf = Some (first_sig (Z.to_nat (rarMaxSfxSize + 1 - i)) i buf).
Proof.
  induction fuel as [|fuel IH]; intros i buf Hi Hf; [lia|]. cbn [find_sig].
  destruct (Z.ltb_spec rarMaxSfxSize i); [by replace (Z.to_nat (rarMaxSfxSize + 1 - i)) with 0%nat by lia|].
  rewrite checked_Some, slice_tail by lia. cbn [mbind option_bind].
  assert (∀ j, i <= j → byte_at (Z.to_nat (j - i)) (string_drop (Z.to_nat i) buf) ≠ Some 82 → sig_at buf j = None) as Hno.
  { intros j Hj Hne. apply sig_at_None_ne; [lia|]. rewrite byte_at_drop in Hne. by replace (Z.to_nat i + Z.to_nat (j - i))%nat with (Z.to_nat j) in Hne by lia. }
  destruct (IndexByte _ 82) as [rel|] eqn:E; cycle 1.
  { rewrite first_sig_none; [done|]. intros j Hj. apply Hno; [lia|]. by apply IndexByte_None. }
  apply IndexByte_Some in E as (Hrel & Hat & Hbefore). unfold len in Hrel. rewrite string_drop_length in Hrel.
  assert (i + rel <= len buf - 1) as Hin by (unfold len in *; lia).
  destruct (Z.ltb_spec rarMaxSfxSize (i + rel)).
  { rewrite first_sig_none; [done|]. intros j Hj. apply Hno; [lia|]. apply Hbefore. lia. }
  replace (Z.to_nat (rarMaxSfxSize + 1 - i)) with (Z.to_nat rel + Datatypes.S (Z.to_nat (rarMaxSfxSize + 1 - (i + rel + 1))))%nat by lia.
  rewrite first_sig_skip, Z2Nat.id by (try (intros j Hj; apply Hno; [lia|]; apply Hbefore); lia). cbn [first_sig].
  destruct (Z.ltb_spec (len buf) (i + rel + len rarSigPrefix + 2)) as [Hs|Hs].
  { rewrite sig_at_beyond by done. rewrite first_sig_none; [done|]. intros j Hj. apply sig_at_beyond. lia. }
  change (len rarSigPrefix) with 6 in *. rewrite checked_Some by lia. cbn [mbind option_bind].
  unfold sig_at. change (len rarSigPrefix) with 6. rewrite (proj2 (Z.ltb_ge _ _)) by lia.
  destruct (negb (HasPrefix _ _)); [apply IH; lia|].
  destruct (byte_at_is (Z.to_nat (i + rel + 6)) buf ltac:(lia)) as [v ->]. destruct (byte_at_is (Z.to_nat (i + rel + 6 + 1)) buf ltac:(lia)) as [w ->].
  cbn [mbind option_bind]. destruct (v =? 0); [done|]. destruct (w =? 0); [done|]. apply IH; lia.
Qed.

Lemma rarFindSig_first buf : rarFindSig buf = Some (first_sig (Z.to_nat (rarMaxSfxSize + 1)) 0 buf).
Proof. unfold rarFindSig. rewrite rarFindSig_from; [by rewrite Z.sub_0_r|pose proof (len_nonneg buf); lia|unfold len; lia]. Qed.

Lemma first_sig_bounds n : ∀ i buf off ver, 0 <= i → first_sig n i buf = Some (off, ver) → 0 <= off <= len buf.
Proof.
  induction n as [|n IH]; intros i buf off ver Hi H; cbn [first_sig] in H; [done|].
  destruct (sig_at buf i) as [r|] eqn:E; [|by apply (IH (i + 1)) in H; lia]. injection H as ->. unfold sig_at in E.
  destruct (Z.ltb_spec (len buf) (i + len rarSigPrefix + 2)); [done|]. change (len rarSigPrefix) with 6 in *. destruct (negb _); [done|].
  destruct (byte_at_is (Z.to_nat (i + 6)) buf ltac:(lia)) as [v Ev]. destruct (byte_at_is (Z.to_nat (i + 6 + 1)) buf ltac:(lia)) as [w Ew].
  rewrite Ev, Ew in E. cbn [mbind option_bind] in E.
  destruct (v =? 0); [injection E as <- <-; lia|]. destruct (w =? 0); [injection E as <- <-; lia|done].
Qed.

Lemma rar4_loop_total scan : ∀ b, is_Some (rar4_loop scan b).
Proof.
  induction scan as [|scan IH]; intros b; cbn [rar4_loop]; [by eexists|]. destruct (Z.ltb_spec (len b) 7); [by eexists|].
  destruct (byte_at_is 2 b ltac:(lia)) as [h ->]. destruct (byte_at_is 3 b ltac:(lia)) as [f0 ->]. destruct (byte_at_is 4 b ltac:(lia)) as [f1 ->].
  destruct (byte_at_is 5 b ltac:(lia)) as [s0 ->]. destruct (byte_at_is 6 b ltac:(lia)) as [s1 ->]. cbn [mbind option_bind].
  destruct (h =? _); [by eexists|]. destruct (_ || _) eqn:E; [by eexists|]. apply orb_false_iff in E as [?%Z.ltb_ge ?%Z.ltb_ge].
  rewrite checked_Some by lia. apply IH.
Qed.

(** ** The answer *)

(** The scan never indexes past the buffer, on any bytes. *)
Lemma rarArchiveIsSolid_total buf : is_Some (rarArchiveIsSolid buf).
Proof.
  unfold rarArchiveIsSolid. rewrite rarFindSig_first. cbn [mbind option_bind]. destruct (first_sig _ 0 buf) as [[off ver]|] eqn:E; [|by eexists].
  apply first_sig_bounds in E; [|done]. rewrite checked_Some by lia. cbn [mbind option_bind].
  destruct (ver =? 0); [apply rar4_loop_total|apply rar5_loop_total].
Qed.

(** A block that precedes the main one, and the main one. *)
Record block5 := { b5_crc : string; b5_type : Z; b5_flags : Z; b5_extra : Z; b5_fields : string; b5_data : string }.
Definition block5_bytes (b : block5) : string := rar5_block (b5_crc b) (b5_type b) (b5_flags b) (b5_extra b) (b5_fields b) (b5_data b).
Definition block5_ok (b : block5) : Prop := block_ok (b5_crc b) (b5_type b) (b5_flags b) (b5_extra b) (b5_fields b) (b5_data b).

Record block4 := { b4_crc : string; b4_type : Z; b4_flags : Z; b4_body : string }.
Definition block4_bytes (b : block4) : string := rar4_block (b4_crc b) (b4_type b) (b4_flags b) (b4_body b).
Definition block4_ok (b : block4) : Prop := len (b4_crc b) = 2 ∧ 0 <= b4_type b < 256 ∧ 0 <= b4_flags b < 65536 ∧ 7 + len (b4_body b) < 65536.

(** RAR 1.5 to 4, whose main block holds the flags itself; RAR 5, whose main
    block's first field is the archive flags. *)
Inductive rar :=
  | Rar4 (before : list block4) (main : block4)
  | Rar5 (before : list block5) (main : block5) (arcFlags : Z) (more : string).

Definition concat_map {A} (f : A → string) (l : list A) : string := foldr (λ x s, f x +:+ s) "" l.

Definition rar_bytes (a : rar) : string :=
  match a with
  | Rar4 before main => rarSigPrefix +:+ string_of_bytes [0] +:+ concat_map block4_bytes before +:+ block4_bytes main
  | Rar5 before main _ _ => rarSigPrefix +:+ string_of_bytes [1; 0] +:+ concat_map block5_bytes before +:+ block5_bytes main
  end.
Definition rar_ok (a : rar) : Prop :=
  match a with
  | Rar4 before main => Forall (λ b, block4_ok b ∧ b4_type b ≠ rar4BlockArc) before ∧ (length before < 8)%nat ∧ block4_ok main ∧ b4_type main = rar4BlockArc
  | Rar5 before main arcFlags more =>
      Forall (λ b, block5_ok b ∧ b5_type b ≠ rar5BlockArc ∧ b5_type b ≠ rar5BlockEncrypt) before ∧ (length before < 8)%nat
      ∧ block5_ok main ∧ b5_type main = rar5BlockArc ∧ 0 <= arcFlags < 2 ^ 63 ∧ b5_fields main = uvarint arcFlags +:+ more
  end.
(** The archive's own flag. *)
Definition rar_solid (a : rar) : bool :=
  match a with Rar4 _ main => has_flag (b4_flags main) rar4ArcSolid | Rar5 _ _ arcFlags _ => has_flag arcFlags rar5ArcSolid end.

Lemma le16_word n : 0 <= n < 65536 → Z.lor (n mod 256) (Z.shiftl (n / 256) 8) = n ∧ 0 <= n mod 256 < 256 ∧ 0 <= n / 256 < 256.
Proof.
  intros Hn. pose proof (Z.mod_pos_bound n 256 ltac:(lia)). assert (0 <= n / 256 < 256) by (split; [apply Z.div_pos; lia|apply Z.div_lt_upper_bound; lia]).
  rewrite lor_shift by lia. pose proof (Z.div_mod n 256 ltac:(lia)). lia.
Qed.

Lemma rar4_read scan b rest : block4_ok b →
  rar4_loop (Datatypes.S scan) (block4_bytes b +:+ rest) = if b4_type b =? rar4BlockArc then Some (has_flag (b4_flags b) rar4ArcSolid) else rar4_loop scan rest.
Proof.
  destruct b as [crc ty flags body]. intros (Hcrc & Ht & Hf & Hb). cbn [b4_crc b4_type b4_flags b4_body block4_bytes] in *.
  destruct crc as [|c0 [|c1 [|]]]; try (unfold len in Hcrc; cbn in Hcrc; lia).
  destruct (le16_word flags Hf) as (Ef & Hf0 & Hf1). pose proof (len_nonneg body). pose proof (len_nonneg rest).
  destruct (le16_word (7 + len body) ltac:(lia)) as (Es & Hs0 & Hs1).
  unfold block4_bytes, rar4_block, le16. cbn [b4_crc b4_type b4_flags b4_body]. set (size := 7 + len body) in *.
  assert (len ((String c0 (String c1 "") +:+ string_of_bytes [ty] +:+ string_of_bytes [flags mod 256; flags / 256] +:+ string_of_bytes [size mod 256; size / 256] +:+ body)) = size) as Hlen
    by (rewrite !string_app_len; change (len (String c0 (String c1 ""))) with 2; rewrite ?(eq_refl : ∀ x, len (string_of_bytes [x]) = 1); change (len (string_of_bytes [ty])) with 1;
        change (len (string_of_bytes [flags mod 256; flags / 256])) with 2; change (len (string_of_bytes [size mod 256; size / 256])) with 2; unfold size; lia).
  cbn [rar4_loop]. rewrite (proj2 (Z.ltb_ge _ 7)) by (rewrite string_app_len, Hlen; lia).
  set (s := _ +:+ rest).
  assert (byte_at 2 s = Some ty ∧ byte_at 3 s = Some (flags mod 256) ∧ byte_at 4 s = Some (flags / 256) ∧ byte_at 5 s = Some (size mod 256) ∧ byte_at 6 s = Some (size / 256)) as (-> & -> & -> & -> & ->).
  { change s with (String c0 (String c1 (String (ascii_of_Z ty) (String (ascii_of_Z (flags mod 256)) (String (ascii_of_Z (flags / 256))
      (String (ascii_of_Z (size mod 256)) (String (ascii_of_Z (size / 256)) (body +:+ rest)))))))).
    cbn [byte_at]. by rewrite !byte_ascii_of_Z by lia. }
  cbn [mbind option_bind]. rewrite Ef, Es. destruct (ty =? rar4BlockArc); [done|].
  assert (size <= len s) by (unfold s; rewrite string_app_len, Hlen; lia).
  rewrite (proj2 (Z.ltb_ge size 7)), (proj2 (Z.ltb_ge (len s) size)) by lia. cbn [orb].
  unfold s. by rewrite checked_tail.
Qed.

Lemma block4_nonempty b : block4_ok b → 0 < len (block4_bytes b).
Proof.
  intros (Hc & _). unfold block4_bytes, rar4_block. rewrite string_app_len, Hc. match goal with |- _ < _ + len ?x => pose proof (len_nonneg x) end. lia.
Qed.

Lemma rar4_skip before : ∀ scan rest, Forall (λ b, block4_ok b ∧ b4_type b ≠ rar4BlockArc) before → (length before <= scan)%nat →
  rar4_loop scan (concat_map block4_bytes before +:+ rest) = rar4_loop (scan - length before) rest.
Proof.
  induction before as [|b before IH]; intros scan rest HF Hl; cbn [length] in *; [by rewrite Nat.sub_0_r|].
  apply list.Forall_cons in HF as [[Hok Hne] HF]. destruct scan as [|scan]; [lia|]. cbn [concat_map foldr]. rewrite <- string_app_assoc.
  rewrite rar4_read by done. rewrite (proj2 (Z.eqb_neq _ _)) by done. apply IH; [done|lia].
Qed.

Lemma rar5_skip before : ∀ scan rest, Forall (λ b, block5_ok b ∧ b5_type b ≠ rar5BlockArc ∧ b5_type b ≠ rar5BlockEncrypt) before → (length before <= scan)%nat →
  rar5_loop scan (concat_map block5_bytes before +:+ rest) = rar5_loop (scan - length before) rest.
Proof.
  induction before as [|b before IH]; intros scan rest HF Hl; cbn [length] in *; [by rewrite Nat.sub_0_r|].
  apply list.Forall_cons in HF as [(Hok & Ha & He) HF]. destruct scan as [|scan]; [lia|]. cbn [concat_map foldr]. rewrite <- string_app_assoc.
  unfold block5_bytes at 1. rewrite rar5_read by done. rewrite !(proj2 (Z.eqb_neq _ _)) by done. apply IH; [done|lia].
Qed.

Lemma sig_at_Rar pre tail ver w rest : tail = rarSigPrefix +:+ String (ascii_of_Z ver) (String w rest) → 0 <= ver < 256 →
  sig_at (pre +:+ tail) (len pre) = if ver =? 0 then Some (len pre + 7, 0) else if byte w =? 0 then Some (len pre + 8, 1) else None.
Proof.
  intros -> Hv. unfold sig_at. pose proof (len_nonneg pre). pose proof (len_nonneg rest).
  assert (len (pre +:+ rarSigPrefix +:+ String (ascii_of_Z ver) (String w rest)) = len pre + 8 + len rest) as Hl
    by (rewrite !string_app_len; change (len rarSigPrefix) with 6; unfold len; cbn [Stdlib.Strings.String.length]; lia).
  rewrite Hl. change (len rarSigPrefix) with 6. rewrite (proj2 (Z.ltb_ge _ _)) by lia. rewrite <- Hl, slice_tail by lia.
  unfold len at 1. rewrite Nat2Z.id, string_drop_app, HasPrefix_app. cbn [negb].
  assert (∀ k, byte_at (Z.to_nat (len pre + k)) (pre +:+ rarSigPrefix +:+ String (ascii_of_Z ver) (String w rest))
    = byte_at (Z.to_nat (len pre + k) - String.length pre) (rarSigPrefix +:+ String (ascii_of_Z ver) (String w rest)) ∨ k < 0) as Hat.
  { intros k. destruct (decide (k < 0)); [by right|]. left. rewrite <- (string_drop_app pre (_ +:+ String (ascii_of_Z ver) _)) at 2.
    rewrite byte_at_drop. f_equal. unfold len. lia. }
  destruct (Hat 6) as [->|?]; [|lia]. rewrite <- Z.add_assoc. destruct (Hat (6 + 1)) as [->|?]; [|lia].
  replace (Z.to_nat (len pre + 6) - String.length pre)%nat with 6%nat by (unfold len; lia).
  replace (Z.to_nat (len pre + (6 + 1)) - String.length pre)%nat with 7%nat by (unfold len; lia).
  change (rarSigPrefix +:+ String (ascii_of_Z ver) (String w rest)) with (String (ascii_of_Z 82) (String (ascii_of_Z 97) (String (ascii_of_Z 114) (String (ascii_of_Z 33) (String (ascii_of_Z 26) (String (ascii_of_Z 7) (String (ascii_of_Z ver) (String w rest)))))))).
  cbn [byte_at mbind option_bind]. rewrite byte_ascii_of_Z by done. destruct (ver =? 0); [f_equal; f_equal; lia|]. destruct (byte w =? 0); [f_equal; f_equal; lia|done].
Qed.

Lemma first_sig_at buf n i : 0 <= i <= Z.of_nat n → (∀ j, 0 <= j < i → sig_at buf j = None) → is_Some (sig_at buf i) → first_sig (Datatypes.S n) 0 buf = sig_at buf i.
Proof.
  intros Hi Hno [r Hr]. replace (Datatypes.S n) with (Z.to_nat i + Datatypes.S (n - Z.to_nat i))%nat by lia.
  rewrite first_sig_skip by (intros; apply Hno; lia). rewrite Z2Nat.id, Z.add_0_l by lia. cbn [first_sig]. by rewrite Hr.
Qed.

Lemma to_nat_succ m : 0 <= m → ∃ n, Z.to_nat (m + 1) = Datatypes.S n ∧ Z.of_nat n = m.
Proof. intros H. exists (Z.to_nat m). lia. Qed.

(** C40: the solidity of a RAR archive is read as its author wrote it, in both
    formats, behind a self-extractor stub and behind decoys: when the archive
    starts within the first 0x100000 bytes and nothing before it is a signature
    that a decoder would accept, the answer is the main header's own solid bit,
    whatever blocks come before that header (up to seven) and whatever bytes
    come after it. *)
Theorem solidity_read pre a rest : rar_ok a → len pre <= rarMaxSfxSize → (∀ j, 0 <= j < len pre → sig_at (pre +:+ rar_bytes a +:+ rest) j = None) →
  rarArchiveIsSolid (pre +:+ rar_bytes a +:+ rest) = Some (rar_solid a).
Proof.
  intros Hok Hpre Hno. pose proof (len_nonneg pre). unfold rarArchiveIsSolid. rewrite rarFindSig_first. cbn [mbind option_bind].
  destruct (to_nat_succ rarMaxSfxSize ltac:(done)) as (n & -> & Hn). rewrite <- Hn in Hpre.
  destruct a as [before main|before main arcFlags more]; cbn [rar_ok rar_solid] in *.
  - destruct Hok as (HF & Hlen & Hmain & Hty).
    assert (∃ w r, (concat_map block4_bytes before +:+ block4_bytes main) +:+ rest = String w r) as (w & r & Ew).
    { pose proof (len_nonneg (concat_map block4_bytes before)). pose proof (len_nonneg rest). pose proof (block4_nonempty main Hmain).
      assert (0 < len ((concat_map block4_bytes before +:+ block4_bytes main) +:+ rest)) by (rewrite !string_app_len; lia).
      destruct ((_ +:+ _) +:+ rest) as [|w r]; [done|by eauto]. }
    assert (rar_bytes (Rar4 before main) +:+ rest = rarSigPrefix +:+ String (ascii_of_Z 0) (String w r)) as Eb by (rewrite <- Ew; done).
    pose proof (sig_at_Rar pre _ 0 w r Eb ltac:(lia)) as Hsig. cbn [Z.eqb] in Hsig.
    rewrite (first_sig_at _ _ (len pre)), Hsig by (try done; try lia; by rewrite Hsig). cbn [Z.eqb].
    assert (pre +:+ rar_bytes (Rar4 before main) +:+ rest = (pre +:+ rarSigPrefix +:+ string_of_bytes [0]) +:+ concat_map block4_bytes before +:+ block4_bytes main +:+ rest) as ->
      by (cbn [rar_bytes]; by rewrite <- !string_app_assoc).
    rewrite checked_tail by (rewrite ?string_app_len; change (len rarSigPrefix) with 6; change (len (string_of_bytes [0])) with 1; lia).
    cbn [mbind option_bind]. unfold rar4ArchiveIsSolid. rewrite rar4_skip by (try done; unfold rarMaxBlockScan; lia).
    destruct (rarMaxBlockScan - length before)%nat as [|scan] eqn:Es; [unfold rarMaxBlockScan in Es; lia|]. rewrite rar4_read by done. by rewrite Hty.
  - destruct Hok as (HF & Hlen & Hmain & Hty & Harc & Hfields).
    assert (rar_bytes (Rar5 before main arcFlags more) +:+ rest = rarSigPrefix +:+ String (ascii_of_Z 1) (String (ascii_of_Z 0) ((concat_map block5_bytes before +:+ block5_bytes main) +:+ rest))) as Eb by done.
    pose proof (sig_at_Rar pre _ 1 _ _ Eb ltac:(lia)) as Hsig. rewrite byte_ascii_of_Z in Hsig by done. cbn [Z.eqb] in Hsig.
    rewrite (first_sig_at _ _ (len pre)), Hsig by (try done; try lia; by rewrite Hsig). cbn [Z.eqb].
    assert (pre +:+ rar_bytes (Rar5 before main arcFlags more) +:+ rest = (pre +:+ rarSigPrefix +:+ string_of_bytes [1; 0]) +:+ concat_map block5_bytes before +:+ block5_bytes main +:+ rest) as ->
      by (cbn [rar_bytes]; by rewrite <- !string_app_assoc).
    rewrite checked_tail by (rewrite ?string_app_len; change (len rarSigPrefix) with 6; change (len (string_of_bytes [1; 0])) with 2; lia).
    cbn [mbind option_bind]. unfold rar5ArchiveIsSolid. rewrite rar5_skip by (try done; unfold rarMaxBlockScan; lia).
    destruct (rarMaxBlockScan - length before)%nat as [|scan] eqn:Es; [unfold rarMaxBlockScan in Es; lia|].
    unfold block5_bytes. rewrite rar5_read by done. rewrite Hty, Hfields. cbn [Z.eqb]. by rewrite take_varint_read.
Qed.

(** A decoy in front of a solid archive whose main header is the second block. *)
Definition exDecoy : string := "R" +:+ rarSigPrefix +:+ string_of_bytes [7; 7].
Definition exRar : rar :=
  Rar5 [{| b5_crc := "cccc"; b5_type := 3; b5_flags := 2; b5_extra := 0; b5_fields := "xy"; b5_data := "data" |}]
    {| b5_crc := "cccc"; b5_type := 1; b5_flags := 1; b5_extra := 300; b5_fields := uvarint 5 +:+ "more"; b5_data := "" |} 5 "more".

Lemma solidity_read_witness : rarArchiveIsSolid (exDecoy +:+ rar_bytes exRar +:+ "members") = Some true.
Proof.
  apply (solidity_read exDecoy exRar "members").
  - cbn [rar_ok exRar]. split_and!; [apply list.Forall_singleton; split_and!; [unfold block5_ok, block_ok; split_and!|done|done]| |unfold block5_ok, block_ok; split_and!| | | |];
      first [vm_compute; reflexivity|by vm_compute|vm_compute; lia].
  - done.
  - intros j Hj. change (len exDecoy) with 9 in Hj.
    assert (j = 0 ∨ j = 1 ∨ j = 2 ∨ j = 3 ∨ j = 4 ∨ j = 5 ∨ j = 6 ∨ j = 7 ∨ j = 8) as H by lia. repeat destruct H as [-> | H]; [..|subst j]; vm_compute; reflexivity.
Defined.
