(* ===== verification/Sniff.v ===== *)
(** * What a buffer is

    The recognisers the extractor dispatches on: the magic numbers of
    extract.go, archive.go, lnk.go, onenote.go and tnef.go, and [isPDF],
    [isRTF], [isSLK], [isSpreadsheetML], [isValidPEAt] and
    [classifyMIMEMessage] of pdf.go, rtf.go, slk.go, csv_dde.go, polyglot.go
    and mime.go. *)

From Stdlib Require Import ZArith Lia.
From Stdlib Require Ascii String.
From stdpp Require Import base strings list numbers.
From S2P Require Import Prelude GoStd GoText Base64 GoRegexp DecodeRuns ScanVerdict Retained DecodeFold RarSolid.

Local Open Scope Z_scope.
Local Open Scope mailstrix_scope.

(** ** Magic numbers *)

Definition oleMagic : string := string_of_bytes [208; 207; 17; 224; 161; 177; 26; 225].
Definition zipMagic : string := string_of_bytes [80; 75; 3; 4].
Definition gzipMagic : string := string_of_bytes [31; 139].
Definition sevenZMagic : string := string_of_bytes [55; 122; 188; 175; 39; 28].
Definition rarMagic : string := string_of_bytes [82; 97; 114; 33; 26; 7].
Definition cabMagic : string := "MSCF".
Definition pdfMagic : string := "%PDF-".
Definition utf8BOM : string := string_of_bytes [239; 187; 191].
Definition lnkMagic : string := string_of_bytes [76; 0; 0; 0; 1; 20; 2; 0; 0; 0; 0; 0; 192; 0; 0; 0; 0; 0; 0; 70].
Definition oneSectionGUID : string := string_of_bytes [228; 82; 92; 123; 140; 216; 167; 77; 174; 177; 83; 120; 208; 41; 150; 211].
Definition oneTOCGUID : string := string_of_bytes [161; 47; 255; 67; 217; 239; 118; 76; 158; 226; 16; 234; 87; 34; 118; 95].
Definition mzMagic : string := "MZ".
Definition peMagic : string := "PE" +:+ string_of_bytes [0; 0].
Definition dosHeaderMin : Z := 64.
Definition slkSniffLen : Z := 16.
Definition csvSniffLen : Z := 512.

Definition isArchive (buf : string) : bool :=
  HasPrefix buf gzipMagic || HasPrefix buf sevenZMagic || HasPrefix buf rarMagic || HasPrefix buf cabMagic.

(** ** Recognisers *)

(** [bytes.TrimPrefix] *)
Definition TrimPrefix (s p : string) : string := default s (strip_prefix p s).

Definition isPDF (buf : string) : bool := HasPrefix buf pdfMagic || contains pdfMagic (clamp 1024 buf).

Fixpoint skip_blank (s : string) : string :=
  match s with
  | String c s' => if (byte c =? 32) || (byte c =? 9) || (byte c =? 13) || (byte c =? 10) then skip_blank s' else s
  | EmptyString => s
  end.
Definition isRTF (buf : string) : bool := HasPrefix (skip_blank (TrimPrefix buf utf8BOM)) "{\rt".

Definition isLNK (buf : string) : bool := HasPrefix buf lnkMagic.
Definition isOneNote (buf : string) : bool := HasPrefix buf oneSectionGUID || HasPrefix buf oneTOCGUID.
Definition isTNEF (buf : string) : bool := HasPrefix buf (string_of_bytes [120; 159; 62; 34]).
Definition isSLK (buf : string) : bool := HasPrefix (clamp slkSniffLen (TrimPrefix buf utf8BOM)) "ID;".

Definition quoted (s : string) : string := String (ascii_of_Z 34) s +:+ String (ascii_of_Z 34) EmptyString.
Definition spreadsheetMLSigs : list string := ["progid=" +:+ quoted "Excel.Sheet"; "urn:schemas-microsoft-com:office:spreadsheet"].
Definition isSpreadsheetML (buf : string) : bool :=
  let head := clamp csvSniffLen (TrimPrefix buf utf8BOM) in
  HasPrefix head "<" && existsb (λ sig, contains sig head) spreadsheetMLSigs.

(** Little-endian words; [None] when a byte is out of range. *)
Definition u16_at (off : Z) (s : string) : option Z :=
  a ← byte_at (Z.to_nat off) s; b ← byte_at (Z.to_nat (off + 1)) s; Some (a + 256 * b).
Definition u32_at (off : Z) (s : string) : option Z := lo ← u16_at off s; hi ← u16_at (off + 2) s; Some (lo + 65536 * hi).

(** [isValidPEAt(buf, 0)] *)
Definition isValidPE (buf : string) : option bool :=
  if len buf <? dosHeaderMin then Some false
  else if negb (HasPrefix buf mzMagic) then Some false
  else
    e ← u32_at 60 buf;
    if (e <? dosHeaderMin) || (len buf <? e + len peMagic) then Some false
    else pe ← checked e (e + len peMagic) buf; Some (bool_decide (pe = peMagic)).

(** ** Mail messages *)

Definition minMemberBytes : Z := 4.
Definition maxMIMEHeaderBytes : Z := 262144.

Inductive mimeHeaderClassification := mimeHeaderOrdinary | mimeHeaderComplete | mimeHeaderIncomplete.
#[export] Instance mimeHeaderClassification_eq_dec : EqDecision mimeHeaderClassification.
Proof. solve_decision. Defined.

(** [mime.ParseMediaType]: the type and its parameters. *)
Class MediaTypes := { ParseMediaType : string → option (string * (string → string)) }.

Section Mail.
Context {T : TextEnv} {MT : MediaTypes}.

Definition isMIMEContextHeader (field : string) : bool :=
  HasPrefix field "x-" || HasPrefix field "arc-"
  || mem field ["mime-version"; "from"; "to"; "cc"; "bcc"; "subject"; "date"; "received"; "message-id"; "return-path"; "reply-to"; "sender";
                "delivered-to"; "dkim-signature"; "authentication-results"].

(** [bytes.Index] *)
Fixpoint Index (s p : string) : option Z :=
  match strip_prefix p s with
  | Some _ => Some 0
  | None => match s with EmptyString => None | String _ s => n ← Index s p; Some (n + 1) end
  end.

Definition lf : string := String (ascii_of_Z 10) EmptyString.
Definition cr : string := String (ascii_of_Z 13) EmptyString.

(** Where the header block ends: past the line end before the first empty
    line. *)
Definition header_end (head : string) : option Z :=
  match Index head (lf +:+ cr +:+ lf), Index head (lf +:+ lf) with
  | Some a, Some b => Some (if b <? a then b + 1 else a + 1)
  | Some a, None => Some (a + 1)
  | None, Some b => Some (b + 1)
  | None, None => None
  end.

(** A content type cut off by the limit. *)
Definition cut_type (value : string) (hasOther : bool) : mimeHeaderClassification :=
  let mediaType := TrimSpace (match cut_byte (ascii_of_Z 59) value with Some (a, _) => a | None => value end) in
  let named :=
    match IndexByte mediaType 47 with
    | Some slash =>
        (0 <? slash) && bool_decide (is_Some (ParseMediaType (if slash =? len mediaType - 1 then mediaType +:+ "x" else mediaType)))
    | None => false
    end in
  if named || hasOther then mimeHeaderIncomplete else mimeHeaderOrdinary.

Record HeaderSeen := mkSeen { hasType : bool; hasOther : bool; hasContext : bool }.

(** The lines of the header: what was seen, or the answer. *)
Fixpoint header_lines (fuel : nat) (truncated : bool) (seen : HeaderSeen) (head : string) : HeaderSeen + mimeHeaderClassification :=
  match fuel with
  | O => inl seen
  | Datatypes.S fuel =>
      if len head =? 0 then inl seen
      else
        let '(line, rest, completeLine) :=
          match cut_byte (ascii_of_Z 10) head with Some (line, rest) => (line, rest, true) | None => (head, "", negb truncated) end in
        let line := trim_right [cr] line in
        if (len line =? 0) || HasPrefix line " " || HasPrefix line (String (ascii_of_Z 9) EmptyString) then header_lines fuel truncated seen rest
        else
          match cut_byte (ascii_of_Z 58) line with
          | Some (field, value) =>
              if (len field =? 0) || ContainsAny field (String (ascii_of_Z 32) (String (ascii_of_Z 9) EmptyString)) then
                (if completeLine then inr mimeHeaderOrdinary else inl seen)
              else
                let field := ToLower field in
                if bool_decide (field = "content-type") then
                  if completeLine then header_lines fuel truncated (mkSeen true (hasOther seen) (hasContext seen)) rest
                  else inr (cut_type value (hasOther seen))
                else
                  let seen := mkSeen (hasType seen) true (hasContext seen || isMIMEContextHeader field) in
                  if completeLine then header_lines fuel truncated seen rest else inl seen
          | None => if completeLine then inr mimeHeaderOrdinary else inl seen
          end
  end.

Definition classifyMIMEMessage (buf : string) : mimeHeaderClassification :=
  let head := clamp maxMIMEHeaderBytes buf in
  let ending := header_end head in
  let terminated := bool_decide (is_Some ending) in
  let truncated := (maxMIMEHeaderBytes <? len buf) && negb terminated in
  let head := match ending with Some n => upto n head | None => head end in
  match header_lines (Datatypes.S (String.length head)) truncated (mkSeen false false false) head with
  | inr answer => answer
  | inl seen =>
      if terminated then (if hasType seen && hasOther seen then mimeHeaderComplete else mimeHeaderOrdinary)
      else if (truncated && (hasContext seen || (hasType seen && hasOther seen))) || (hasType seen && hasOther seen) then mimeHeaderIncomplete
      else mimeHeaderOrdinary
  end.

End Mail.
