(* ===== verification/Cab.v ===== *)
(** * Microsoft cabinets

    cab.go: the headers of a cabinet, the decompression of a folder, and the
    members that are cut out of it.  Indexing out of range is [None]. *)

From Stdlib Require Import ZArith Lia.
From Stdlib Require Ascii String.
From stdpp Require Import base strings list numbers.
From S2P Require Import Prelude GoStd GoText Base64 GoRegexp DecodeRuns ScanVerdict Retained DecodeFold RarSolid Sniff.

Local Open Scope Z_scope.
Local Open Scope mailstrix_scope.

Definition maxArchiveMembers : Z := 4096.
Definition maxBytesPerMember : Z := 16777216.
Definition mszipWindow : Z := 32768.

Record cfFolder := { coffCabStart : Z; cCFData : Z; typeCompress : Z }.
Record cfFile := { cbFile : Z; uoffFolderStart : Z; iFolder : Z }.

(** ** Headers

    The result of a read is [None] when it would index out of range; the
    parser's answer is [None] when the code returns early. *)

Fixpoint read_folders (n : nat) (off size : Z) (buf : string) : option (list cfFolder) :=
  match n with
  | O => Some []
  | Datatypes.S n =>
      start ← u32_at off buf; blocks ← u16_at (off + 4) buf; kind ← u16_at (off + 6) buf;
      rest ← read_folders n (off + size) size buf;
      Some ({| coffCabStart := start; cCFData := blocks; typeCompress := kind |} :: rest)
  end.

Fixpoint read_files (n : nat) (pos : Z) (buf : string) : option (list cfFile) :=
  match n with
  | O => Some []
  | Datatypes.S n =>
      if len buf <? pos + 16 then Some []
      else
        size ← u32_at pos buf; start ← u32_at (pos + 4) buf; folder ← u16_at (pos + 8) buf;
        name ← checked (pos + 16) (len buf) buf;
        match IndexByte name 0 with
        | None => Some []
        | Some stop =>
            rest ← read_files n (pos + 16 + stop + 1) buf;
            Some ({| cbFile := size; uoffFolderStart := start; iFolder := folder |} :: rest)
        end
  end.

(** What the reserve flag adds: bytes of the header, per folder and per data
    block. *)
Definition cab_reserve (flags : Z) (buf : string) : option (option (Z * Z * Z)) :=
  if Z.land flags 4 =? 0 then Some (Some (0, 0, 0))
  else if len buf <? 40 then Some None
  else extra ← u16_at 36 buf; perFolder ← byte_at 38 buf; perData ← byte_at 39 buf; Some (Some (4 + extra, perFolder, perData)).

(** Folders, files and the reserve of a data block. *)
Definition cab_parse (buf : string) : option (option (list cfFolder * list cfFile * Z)) :=
  if len buf <? 36 then Some None
  else if negb (HasPrefix buf cabMagic) then Some None
  else
    coffFiles ← u32_at 16 buf; cFolders ← u16_at 26 buf; cFiles ← u16_at 28 buf; flags ← u16_at 30 buf;
    let cFolders := Z.min cFolders maxArchiveMembers in
    let cFiles := Z.min cFiles maxArchiveMembers in
    reserve ← cab_reserve flags buf;
    match reserve with
    | None => Some None
    | Some (headerExtra, cbCFFolder, cbCFData) =>
        let foldersTotal := cFolders * (8 + cbCFFolder) in
        if coffFiles <? foldersTotal then Some None
        else
          let folderArrayOffset := coffFiles - foldersTotal in
          if folderArrayOffset <? 36 + headerExtra then Some None
          else if len buf <? folderArrayOffset + foldersTotal then Some None
          else
            folders ← read_folders (Z.to_nat cFolders) folderArrayOffset (8 + cbCFFolder) buf;
            if len buf <=? coffFiles then Some None
            else files ← read_files (Z.to_nat cFiles) coffFiles buf; Some (Some (folders, files, cbCFData))
    end.

(** ** Folders

    [flate.NewReaderDict] over a dictionary: the bytes it delivers. *)
Class Inflate := { flate_read : string → string → string }.

Section Cab.
Context {F : Inflate}.

(** The last 32 KiB of what was decompressed. *)
Definition next_dict (dict decompressed : string) : string :=
  let combined := dict +:+ decompressed in if mszipWindow <? len combined then from (len combined - mszipWindow) combined else combined.

(** One data block: the folder's bytes, the window, and whether bytes were
    dropped at the cap. *)
Definition cab_block (compType : Z) (block data dict : string) : string * string * bool :=
  let limit := maxBytesPerMember - len data in
  if compType =? 0 then
    (data +:+ clamp limit block, dict, limit <? len block)
  else if compType =? 1 then
    match strip_prefix (string_of_bytes [67; 75]) block with
    | None => (data, dict, false)
    | Some deflateData =>
        let decompressed := clamp (limit + 1) (flate_read dict deflateData) in
        if limit <? len decompressed then (data +:+ clamp limit decompressed, dict, true)
        else if 0 <? len decompressed then (data +:+ decompressed, next_dict dict decompressed, false)
        else (data, dict, false)
    end
  else (data, dict, false).

Fixpoint cab_blocks (n : nat) (dataOffset cbCFData compType : Z) (buf data dict : string) : option (string * bool) :=
  match n with
  | O => Some (data, false)
  | Datatypes.S n =>
      if len buf <? dataOffset + 8 + cbCFData then Some (data, false)
      else
        cbData ← u16_at (dataOffset + 4) buf;
        let compStart := dataOffset + 8 + cbCFData in
        let compEnd := compStart + cbData in
        if len buf <? compEnd then Some (data, false)
        else
          block ← checked compStart compEnd buf;
          let '(data, dict, capped) := cab_block compType block data dict in
          if capped : bool then Some (data, true) else cab_blocks n compEnd cbCFData compType buf data dict
  end.

Definition decompressCabFolder (buf : string) (folder : cfFolder) (cbCFData compType : Z) : option (string * bool) :=
  cab_blocks (Z.to_nat (cCFData folder)) (coffCabStart folder) cbCFData compType buf "" "".

(** ** Members *)

(** A file's declared range is cut by the cap. *)
Definition cabNoteMemberCap (f : cfFile) (folderLen : Z) (capped : bool) : bool :=
  (maxBytesPerMember <? cbFile f) || (capped && (folderLen <? uoffFolderStart f + cbFile f)).

Definition cab_member (f : cfFile) (folderData : string) : option string :=
  let start := uoffFolderStart f in
  let fileEnd := start + cbFile f in
  let start := Z.min start (len folderData) in
  let fileEnd := Z.min fileEnd (len folderData) in
  let fileEnd := Z.min fileEnd (start + maxBytesPerMember) in
  checked start fileEnd folderData.

(** ** Nothing is read out of range *)

Lemma u16_at_is off s : 0 <= off → off + 2 <= len s → ∃ v, u16_at off s = Some v ∧ 0 <= v < 65536.
Proof.
  intros Ho Hl. unfold u16_at. destruct (byte_at_is (Z.to_nat off) s ltac:(lia)) as [a Ea]. destruct (byte_at_is (Z.to_nat (off + 1)) s ltac:(lia)) as [b Eb].
  rewrite Ea, Eb. cbn [mbind option_bind]. apply byte_at_range in Ea, Eb. eexists; split; [done|lia].
Qed.

Lemma u32_at_is off s : 0 <= off → off + 4 <= len s → ∃ v, u32_at off s = Some v ∧ 0 <= v < 2 ^ 32.
Proof.
  intros Ho Hl. unfold u32_at. destruct (u16_at_is off s Ho ltac:(lia)) as (lo & -> & ?). destruct (u16_at_is (off + 2) s ltac:(lia) ltac:(lia)) as (hi & -> & ?).
  cbn [mbind option_bind]. eexists; split; [done|lia].
Qed.

Definition folder_ok (f : cfFolder) : Prop := 0 <= coffCabStart f ∧ 0 <= cCFData f.
Definition file_ok (f : cfFile) : Prop := 0 <= cbFile f ∧ 0 <= uoffFolderStart f.

Lemma read_folders_total n : ∀ off size buf, 0 <= off → 8 <= size → off + Z.of_nat n * size <= len buf →
  ∃ l, read_folders n off size buf = Some l ∧ length l = n ∧ Forall folder_ok l.
Proof.
  induction n as [|n IH]; intros off size buf Ho Hs Hl; cbn [read_folders]; [by exists []|].
  destruct (u32_at_is off buf Ho ltac:(lia)) as (a & -> & ?). destruct (u16_at_is (off + 4) buf ltac:(lia) ltac:(lia)) as (b & -> & ?).
  destruct (u16_at_is (off + 6) buf ltac:(lia) ltac:(lia)) as (c & -> & ?). cbn [mbind option_bind].
  destruct (IH (off + size) size buf ltac:(lia) Hs ltac:(lia)) as (l & -> & Hlen & HF). cbn [mbind option_bind].
  eexists; split; [done|]. split; [cbn; lia|]. constructor; [by split; cbn; lia|done].
Qed.

Lemma read_files_total n : ∀ pos buf, 0 <= pos <= len buf → ∃ l, read_files n pos buf = Some l ∧ (length l <= n)%nat ∧ Forall file_ok l.
Proof.
  induction n as [|n IH]; intros pos buf Hp; cbn [read_files]; [by exists []|]. destruct (Z.ltb_spec (len buf) (pos + 16)); [exists []; by repeat split; try (cbn; lia)|].
  destruct (u32_at_is pos buf ltac:(lia) ltac:(lia)) as (a & -> & ?). destruct (u32_at_is (pos + 4) buf ltac:(lia) ltac:(lia)) as (b & -> & ?).
  destruct (u16_at_is (pos + 8) buf ltac:(lia) ltac:(lia)) as (c & -> & ?). cbn [mbind option_bind]. rewrite checked_Some by lia. cbn [mbind option_bind].
  destruct (IndexByte _ 0) as [stop|] eqn:E; [|exists []; repeat split; try (cbn; lia); done]. apply IndexByte_Some in E as (Hstop & _).
  rewrite slice_tail in Hstop by lia. unfold len in Hstop at 1. rewrite string_drop_length in Hstop. unfold len in *.
  destruct (IH (pos + 16 + stop + 1) buf ltac:(unfold len; lia)) as (l & -> & Hlen & HF). cbn [mbind option_bind].
  eexists; split; [done|]. split; [cbn; lia|]. constructor; [by split; cbn; lia|done].
Qed.

Lemma cab_parse_total buf : ∃ r, cab_parse buf = Some r ∧
  ∀ folders files cbCFData, r = Some (folders, files, cbCFData) → Forall folder_ok folders ∧ Forall file_ok files ∧ 0 <= cbCFData ∧ (length files <= 4096)%nat.
Proof.
  unfold cab_parse. destruct (Z.ltb_spec (len buf) 36); [by exists None|]. destruct (negb _); [by exists None|].
  destruct (u32_at_is 16 buf ltac:(lia) ltac:(lia)) as (cf & -> & ?). destruct (u16_at_is 26 buf ltac:(lia) ltac:(lia)) as (nf & -> & ?).
  destruct (u16_at_is 28 buf ltac:(lia) ltac:(lia)) as (nfile & -> & ?). destruct (u16_at_is 30 buf ltac:(lia) ltac:(lia)) as (flags & -> & ?). cbn [mbind option_bind].
  assert (∃ r, cab_reserve flags buf = Some r ∧ ∀ h f d, r = Some (h, f, d) → 0 <= h ∧ 0 <= f ∧ 0 <= d) as (r & -> & Hr).
  { unfold cab_reserve. destruct (_ =? 0); [by exists (Some (0, 0, 0)); split; [done|intros ? ? ? [= <- <- <-]]|].
    destruct (Z.ltb_spec (len buf) 40); [by exists None|]. destruct (u16_at_is 36 buf ltac:(lia) ltac:(lia)) as (e & -> & ?).
    destruct (byte_at_is 38 buf ltac:(lia)) as [f Ef]. destruct (byte_at_is 39 buf ltac:(lia)) as [d Ed]. rewrite Ef, Ed. cbn [mbind option_bind].
    apply byte_at_range in Ef, Ed. eexists; split; [done|]. intros ? ? ? [= <- <- <-]. lia. }
  cbn [mbind option_bind]. destruct r as [[[h f] d]|]; [|by exists None]. destruct (Hr h f d eq_refl) as (? & ? & ?).
  destruct (Z.ltb_spec cf (Z.min nf maxArchiveMembers * (8 + f))); [by exists None|].
  destruct (Z.ltb_spec (cf - Z.min nf maxArchiveMembers * (8 + f)) (36 + h)); [by exists None|].
  destruct (Z.ltb_spec (len buf) (cf - Z.min nf maxArchiveMembers * (8 + f) + Z.min nf maxArchiveMembers * (8 + f))); [by exists None|].
  destruct (read_folders_total (Z.to_nat (Z.min nf maxArchiveMembers)) (cf - Z.min nf maxArchiveMembers * (8 + f)) (8 + f) buf ltac:(lia) ltac:(lia)) as (l & -> & _ & HF).
  { unfold maxArchiveMembers in *. rewrite Z2Nat.id by lia. lia. }
  cbn [mbind option_bind]. destruct (Z.leb_spec (len buf) cf); [by exists None|].
  destruct (read_files_total (Z.to_nat (Z.min nfile maxArchiveMembers)) cf buf ltac:(lia)) as (fl & -> & Hl & HF2). cbn [mbind option_bind].
  eexists; split; [done|]. intros ? ? ? [= <- <- <-]. split_and!; try done. etransitivity; [exact Hl|]. unfold maxArchiveMembers. lia.
Qed.

Lemma cab_blocks_total n : ∀ off r ct buf data dict, 0 <= off → 0 <= r → is_Some (cab_blocks n off r ct buf data dict).
Proof.
  induction n as [|n IH]; intros off r ct buf data dict Ho Hr; cbn [cab_blocks]; [by eexists|]. destruct (Z.ltb_spec (len buf) (off + 8 + r)); [by eexists|].
  destruct (u16_at_is (off + 4) buf ltac:(lia) ltac:(lia)) as (c & -> & ?). cbn [mbind option_bind]. destruct (Z.ltb_spec (len buf) (off + 8 + r + c)); [by eexists|].
  rewrite checked_Some by lia. cbn [mbind option_bind]. destruct (cab_block _ _ _ _) as [[data' dict'] capped]. destruct capped; [by eexists|]. apply IH; lia.
Qed.

Lemma cab_member_total f data : file_ok f → is_Some (cab_member f data).
Proof.
  intros [? ?]. unfold cab_member. pose proof (len_nonneg data). rewrite checked_Some; [by eexists| |]; unfold maxBytesPerMember; lia.
Qed.

End Cab.
