(* ===== verification/Batch.v ===== *)
(** * Batch droppers

    The echo-redirect carver of batcarve.go: what files a batch script writes
    line by line, and that they are recovered however the script is written. *)

From Stdlib Require Import ZArith Lia.
From Stdlib Require Ascii String.
From stdpp Require Import base strings list numbers.
From S2P Require Import Prelude GoStd GoText Base64 GoRegexp DecodeRuns Retained DecodeFold RarSolid Sniff Cab.

Local Open Scope Z_scope.
Local Open Scope mailstrix_scope.

Definition maxBatchBlocks : Z := 256.
Definition maxBatchAccum : Z := maxBytesPerMember.

(** ** Lines *)

Definition tab : string := String (ascii_of_Z 9) EmptyString.
Definition dquote : Ascii.ascii := ascii_of_Z 34.
Definition caret : Ascii.ascii := ascii_of_Z 94.
Definition trim_blank (s : string) : string := trim_left [" "; tab] s.

(** What precedes and follows each line feed, without an empty last line. *)
Fixpoint batch_lines (s : string) : list string :=
  match s with
  | EmptyString => []
  | String c s => if byte c =? 10 then "" :: batch_lines s else match batch_lines s with [] => [String c ""] | l :: ls => String c l :: ls end
  end.

(** [line[4]] ends the command word. *)
Definition echo_delimiter (c : Ascii.ascii) : bool := mem (byte c) [32; 9; 46; 40; 58; 59; 44; 61; 47; 43; 91; 93].

Definition stripEchoPrefix (line : string) : option string :=
  if (len line <? 4) || negb (EqualFold (upto 4 line) "echo") then None
  else match from 4 line with
       | EmptyString => Some ""
       | String c text => if echo_delimiter c then Some text else None
       end.

Fixpoint caretUnescape (s : string) : string :=
  match s with
  | EmptyString => EmptyString
  | String c s => if Ascii.eqb c caret then match s with EmptyString => EmptyString | String d s => String d (caretUnescape s) end else String c (caretUnescape s)
  end.

(** Up to the first blank, and from it on. *)
Fixpoint span_blank (s : string) : string * string :=
  match s with
  | EmptyString => ("", "")
  | String c s' => if (byte c =? 32) || (byte c =? 9) then ("", s) else let '(a, b) := span_blank s' in (String c a, b)
  end.

(** The file and the text of a redirect line; no text opens a block. *)
Definition parseRedirectLine (rest : string) : option (string * option string) :=
  let rest := trim_blank rest in
  let parsed :=
    match rest with
    | EmptyString => None
    | String c rest' =>
        if Ascii.eqb c dquote then '(name, after) ← cut_byte dquote rest'; Some (name, trim_blank after)
        else let '(name, after) := span_blank rest in Some (name, trim_blank after)
    end in
  '(name, rest) ← parsed;
  if (len name =? 0) || (len rest =? 0) then None
  else if bool_decide (rest = "(") then Some (name, None)
  else text ← stripEchoPrefix rest; Some (name, Some text).

(** ** The prefilter *)

Definition appendQ : string := ">>" +:+ String dquote "".
Definition redirectQ : string := ">" +:+ String dquote "".

(** At least [wanted] redirects; each takes two bytes. *)
Fixpoint redirects (fuel : nat) (wanted : nat) (rest : string) : bool :=
  match wanted, fuel with
  | O, _ => true
  | _, O => false
  | Datatypes.S wanted, Datatypes.S fuel =>
      let pick := match Index rest appendQ, Index rest redirectQ with
                  | Some i, Some j => Some (if i <=? j then i else j)
                  | Some i, None => Some i
                  | None, j => j
                  end in
      match pick with
      | None => false
      | Some pick => let hit := from pick rest in redirects fuel wanted (from (if HasPrefix hit appendQ then 3 else 2) hit)
      end
  end.
Definition looksLikeBatch (buf : string) : bool := asciiContainsFold buf "@echo off" || redirects (Datatypes.S (String.length buf)) 2 buf.

(** ** The parser *)

Record dropped := mkDropped { d_name : string; d_lines : list string; d_size : Z }.
(** [b_target]: the file of the open block. *)
Record BState := mkB { b_files : list dropped; b_blocks : Z; b_accum : Z; b_truncated : bool; b_found : option nat; b_target : option nat }.

Fixpoint find_name (name : string) (files : list dropped) : option nat :=
  match files with
  | [] => None
  | f :: files => if bool_decide (d_name f = name) then Some O else Datatypes.S <$> find_name name files
  end.

Definition getOrAdd (name : string) (st : BState) : nat * BState :=
  match find_name name (b_files st) with
  | Some idx => (idx, st)
  | None => (length (b_files st), {| st with b_files := b_files st ++ [mkDropped name [] 0] |})
  end.

Definition add_text (text : string) (f : dropped) : dropped :=
  mkDropped (d_name f) (d_lines f ++ [text]) (d_size f + (if (0 <? length (d_lines f))%nat then 2 else 0) + len text).

(** The state, and whether parsing goes on. *)
Definition addLine (probe : bool) (idx : nat) (text : string) (st : BState) : BState * bool :=
  if maxBatchAccum <? b_accum st + len text then ({| st with b_truncated := true |}, false)
  else
    let files := alter (add_text text) idx (b_files st) in
    let reached := probe && match files !! idx with Some f => minMemberBytes <=? d_size f | None => false end in
    ({| st with b_files := files; b_accum := b_accum st + len text; b_found := if reached then Some idx else b_found st |}, true).

Definition count_block (x : BState * bool) : BState * bool := let '(st, more) := x in (if more : bool then {| st with b_blocks := b_blocks st + 1 |} else st, more).
Definition redirect (probe : bool) (name text : string) (st : BState) : BState * bool :=
  let '(idx, st) := getOrAdd name st in count_block (addLine probe idx (caretUnescape text) st).

Definition batch_line (probe : bool) (line : string) (st : BState) : BState * bool :=
  let trimmed := trim_blank (trim_right [cr] line) in
  match b_target st with
  | Some idx =>
      if bool_decide (trimmed = ")") then ({| st with b_target := None |}, true)
      else match stripEchoPrefix trimmed with None => (st, true) | Some text => addLine probe idx (caretUnescape text) st end
  | None =>
      if HasPrefix trimmed ">>" then
        match parseRedirectLine (from 2 trimmed) with
        | Some (name, Some text) => redirect probe name text st
        | _ => (st, true)
        end
      else if HasPrefix trimmed ">" then
        match parseRedirectLine (from 1 trimmed) with
        | None => (st, true)
        | Some (name, Some text) => redirect probe name text st
        | Some (name, None) =>
            let '(idx, st) := getOrAdd name st in ({| st with b_target := Some idx; b_blocks := b_blocks st + 1 |}, true)
        end
      else (st, true)
  end.

Fixpoint batch_loop (probe : bool) (lines : list string) (st : BState) : BState :=
  match lines with
  | [] => st
  | line :: lines =>
      if (maxBatchBlocks <=? b_blocks st) || bool_decide (is_Some (b_found st)) then st
      else let '(st, more) := batch_line probe line st in if more : bool then batch_loop probe lines st else st
  end.

Definition crlf : string := cr +:+ lf.
Fixpoint join (sep : string) (l : list string) : string := match l with [] => "" | [s] => s | s :: l => s +:+ sep +:+ join sep l end.

Fixpoint collect_files (files : list dropped) (truncated : bool) : list string * bool :=
  match files with
  | [] => ([], truncated)
  | f :: files =>
      if (length (d_lines f) =? 0)%nat then collect_files files truncated
      else
        let data := join crlf (d_lines f) in
        let '(out, truncated) := collect_files files (truncated || (maxBytesPerMember <? len data)) in (clamp maxBytesPerMember data :: out, truncated)
  end.

(** Without the number of bytes consumed, which a test reads. *)
Definition carveBatchScan (buf : string) (probe : bool) : list string * bool :=
  if negb (looksLikeBatch buf) then ([], false)
  else
    let st := batch_loop probe (batch_lines buf) (mkB [] 0 0 false None None) in
    match b_found st with
    | Some i => ([join crlf (match b_files st !! i with Some f => d_lines f | None => [] end)], b_truncated st)
    | None => collect_files (b_files st) (b_truncated st)
    end.
Definition carveBatchFiles (buf : string) : list string * bool := carveBatchScan buf false.
Definition batchWouldCarve (buf : string) : bool := existsb (λ data, minMemberBytes <=? len data) (carveBatchScan buf true).1.

(** ** The early answer is the full answer *)

Lemma join_snoc l t : len (join crlf (l ++ [t])) = len (join crlf l) + (if (0 <? length l)%nat then 2 else 0) + len t.
Proof.
  induction l as [|a l IH]; [done|]. destruct l as [|b l]; [cbn [app join]; change (0 <? length [a])%nat with true; cbv iota; rewrite !string_app_len; change (len crlf) with 2; lia|].
  change (join crlf ((a :: b :: l) ++ [t])) with (a +:+ crlf +:+ join crlf ((b :: l) ++ [t])). change (join crlf (a :: b :: l)) with (a +:+ crlf +:+ join crlf (b :: l)).
  rewrite !string_app_len, IH. change (len crlf) with 2. change (0 <? length (b :: l))%nat with true. change (0 <? length (a :: b :: l))%nat with true. cbv iota. lia.
Qed.

Definition sized (f : dropped) : Prop := d_size f = len (join crlf (d_lines f)).
Lemma add_text_sized t f : sized f → sized (add_text t f).
Proof. unfold sized, add_text. cbn [d_size d_lines]. intros ->. by rewrite join_snoc. Qed.

Definition all_sized (st : BState) : Prop := Forall sized (b_files st).

Lemma getOrAdd_sized name st : all_sized st → all_sized (getOrAdd name st).2.
Proof. intros H. unfold getOrAdd. destruct (find_name name (b_files st)); [done|]. apply Forall_app. split; [done|]. by apply list.Forall_singleton. Qed.
Lemma addLine_sized probe idx t st : all_sized st → all_sized (addLine probe idx t st).1.
Proof.
  intros H. unfold addLine. destruct (_ <? _); [done|]. apply list.Forall_lookup. cbn. intros i f Hi. rewrite list_lookup_alter in Hi.
  destruct (decide (idx = i)) as [->|]; [|by eapply list.Forall_lookup in Hi]. apply fmap_Some in Hi as (g & Hg & ->). eapply add_text_sized, list.Forall_lookup; done.
Qed.

(** Files stay, and only grow. *)
Definition grown (l l' : list dropped) : Prop := ∀ i f, l !! i = Some f → ∃ f', l' !! i = Some f' ∧ d_size f <= d_size f'.
Lemma grown_refl l : grown l l.
Proof. intros i f H. exists f. split; [done|lia]. Qed.
Lemma grown_trans l1 l2 l3 : grown l1 l2 → grown l2 l3 → grown l1 l3.
Proof. intros H1 H2 i f H. destruct (H1 i f H) as (g & Hg & ?). destruct (H2 i g Hg) as (h & Hh & ?). exists h. split; [done|lia]. Qed.
Lemma getOrAdd_grown name st : grown (b_files st) (b_files (getOrAdd name st).2).
Proof. unfold getOrAdd. destruct (find_name _ _); [apply grown_refl|]. intros i f H. exists f. split; [by apply lookup_app_l_Some|lia]. Qed.
Lemma addLine_grown probe idx t st : grown (b_files st) (b_files (addLine probe idx t st).1).
Proof.
  unfold addLine. destruct (_ <? _); [apply grown_refl|]. intros i f H. cbn. rewrite list_lookup_alter. destruct (decide (idx = i)) as [->|]; [|exists f; split; [done|lia]].
  rewrite H. exists (add_text t f). split; [done|]. pose proof (len_nonneg t).
  change (d_size f <= d_size f + (if (0 <? length (d_lines f))%nat then 2 else 0) + len t). destruct (0 <? length (d_lines f))%nat; lia.
Qed.

(** How the two modes of one step relate: the same, or the probe has found a
    file. *)
Definition small (st : BState) : Prop := ∀ f, f ∈ b_files st → d_size f < minMemberBytes.
Definition probed (p q : BState * bool) : Prop :=
  all_sized q.1 ∧ b_found q.1 = None ∧ (p = q ∧ small q.1 ∨ ∃ i f, b_found p.1 = Some i ∧ b_files p.1 = b_files q.1 ∧ b_files q.1 !! i = Some f ∧ minMemberBytes <= d_size f).

Lemma small_getOrAdd name st : small st → small (getOrAdd name st).2.
Proof.
  intros H f Hf. unfold getOrAdd in Hf. destruct (find_name _ _); [by apply H|]. cbn in Hf. apply elem_of_app in Hf as [Hf| ->%list_elem_of_singleton]; [by apply H|]. done.
Qed.
Lemma getOrAdd_same name st : b_found (getOrAdd name st).2 = b_found st ∧ b_target (getOrAdd name st).2 = b_target st.
Proof. unfold getOrAdd. by destruct (find_name _ _). Qed.

Lemma probed_addLine idx t st : all_sized st → b_found st = None → small st → probed (addLine true idx t st) (addLine false idx t st).
Proof.
  intros Hw Hf Hs. pose proof (addLine_sized false idx t st Hw) as Hw'. unfold addLine in *. destruct (maxBatchAccum <? _); [split_and!; [done|done|by left]|].
  cbn [andb] in *. cbv zeta in *. split_and!; [done|done|]. destruct (alter (add_text t) idx (b_files st) !! idx) as [f|] eqn:E.
  - destruct (Z.leb_spec minMemberBytes (d_size f)) as [Hl|Hl]; [right; exists idx, f; by split_and!|left]. split; [done|]. intros g Hg. cbn [fst b_files] in Hg.
    apply list_elem_of_lookup in Hg as [i Hi]. destruct (decide (idx = i)) as [->|Hne]; [by rewrite E in Hi; simplify_eq|].
    rewrite list_lookup_alter, decide_False in Hi by done. by apply Hs, (list_elem_of_lookup_2 _ i).
  - left. split; [done|]. intros g Hg. cbn [fst b_files] in Hg. apply list_elem_of_lookup in Hg as [i Hi].
    destruct (decide (idx = i)) as [->|Hne]; [congruence|]. rewrite list_lookup_alter, decide_False in Hi by done. by apply Hs, (list_elem_of_lookup_2 _ i).
Qed.

Lemma probed_same st more : all_sized st → b_found st = None → small st → probed (st, more) (st, more).
Proof. intros. split_and!; [done|done|by left]. Qed.

Lemma probed_count p q : probed p q → probed (count_block p) (count_block q).
Proof.
  destruct p as [p m], q as [q n]. unfold probed. cbn [fst]. intros (Hw & Hf & [[[= -> ->] Hs]|(i & f & H1 & H2 & H3 & H4)]); (split_and!; [by destruct n|by destruct n|]).
  - left. by destruct n.
  - right. exists i, f. by destruct m, n.
Qed.

Lemma probed_redirect name text st : all_sized st → b_found st = None → small st → probed (redirect true name text st) (redirect false name text st).
Proof.
  intros Hw Hf Hs. unfold redirect. pose proof (getOrAdd_sized name st Hw) as H1. pose proof (proj1 (getOrAdd_same name st)) as H2. pose proof (small_getOrAdd name st Hs) as H3.
  destruct (getOrAdd name st) as [idx st']. apply probed_count, probed_addLine; [done|cbn in H2; congruence|done].
Qed.

Lemma probed_line line st : all_sized st → b_found st = None → small st → probed (batch_line true line st) (batch_line false line st).
Proof.
  intros Hw Hf Hs. unfold batch_line. destruct (b_target st) as [idx|].
  - destruct (bool_decide _); [by apply probed_same|]. destruct (stripEchoPrefix _); [by apply probed_addLine|by apply probed_same].
  - destruct (HasPrefix _ ">>").
    + destruct (parseRedirectLine _) as [[name [text|]]|]; [by apply probed_redirect|by apply probed_same..].
    + destruct (HasPrefix _ ">"); [|by apply probed_same]. destruct (parseRedirectLine _) as [[name [text|]]|]; [by apply probed_redirect| |by apply probed_same].
      pose proof (getOrAdd_sized name st Hw) as H1. pose proof (proj1 (getOrAdd_same name st)) as H2. pose proof (small_getOrAdd name st Hs) as H3.
      destruct (getOrAdd name st) as [idx st']. apply probed_same; [done| |done]. cbn in *. congruence.
Qed.

(** The full parse from any state. *)
Definition sound (st st' : BState) : Prop := (all_sized st → all_sized st') ∧ b_found st' = b_found st ∧ grown (b_files st) (b_files st').

Lemma sound_addLine idx t st : sound st (addLine false idx t st).1.
Proof. split_and!; [apply addLine_sized| |apply addLine_grown]. unfold addLine. by destruct (_ <? _). Qed.
Lemma sound_getOrAdd name st : sound st (getOrAdd name st).2.
Proof. split_and!; [apply getOrAdd_sized|apply getOrAdd_same|apply getOrAdd_grown]. Qed.
Lemma sound_trans st1 st2 st3 : sound st1 st2 → sound st2 st3 → sound st1 st3.
Proof. intros (H1 & H2 & H3) (H4 & H5 & H6). split_and!; [auto|congruence|by eapply grown_trans]. Qed.
Lemma sound_same st st' : b_files st' = b_files st → b_found st' = b_found st → sound st st'.
Proof. intros H1 H2. unfold sound, all_sized. rewrite H1. split_and!; [done|done|apply grown_refl]. Qed.

Lemma sound_redirect name text st : sound st (redirect false name text st).1.
Proof.
  unfold redirect. pose proof (sound_getOrAdd name st) as H. destruct (getOrAdd name st) as [idx st']. eapply sound_trans; [exact H|].
  eapply sound_trans; [apply (sound_addLine idx (caretUnescape text))|]. destruct (addLine _ _ _ _) as [st2 more]. by destruct more; apply sound_same.
Qed.

Lemma sound_line line st : sound st (batch_line false line st).1.
Proof.
  unfold batch_line. destruct (b_target st) as [idx|].
  - destruct (bool_decide _); [by apply sound_same|]. destruct (stripEchoPrefix _); [apply sound_addLine|by apply sound_same].
  - destruct (HasPrefix _ ">>"); [destruct (parseRedirectLine _) as [[name [text|]]|]; [apply sound_redirect|by apply sound_same..]|].
    destruct (HasPrefix _ ">"); [|by apply sound_same]. destruct (parseRedirectLine _) as [[name [text|]]|]; [apply sound_redirect| |by apply sound_same].
    pose proof (sound_getOrAdd name st) as H. destruct (getOrAdd name st) as [idx st']. eapply sound_trans; [exact H|]. by apply sound_same.
Qed.

Lemma sound_loop lines : ∀ st, sound st (batch_loop false lines st).
Proof.
  induction lines as [|l lines IH]; intros st; cbn [batch_loop]; [by apply sound_same|]. destruct (_ || _); [by apply sound_same|].
  pose proof (sound_line l st) as H. destruct (batch_line false l st) as [st' more]. destruct more; [eapply sound_trans; [exact H|apply IH]|exact H].
Qed.

Lemma probe_loop lines : ∀ st, all_sized st → b_found st = None → small st →
  let p := batch_loop true lines st in let q := batch_loop false lines st in
  all_sized q ∧ b_found q = None ∧
  (p = q ∧ small q ∨ ∃ i f g, b_found p = Some i ∧ b_files p !! i = Some f ∧ sized f ∧ minMemberBytes <= d_size f ∧ b_files q !! i = Some g ∧ minMemberBytes <= d_size g).
Proof.
  induction lines as [|l lines IH]; intros st Hw Hf Hs; cbn [batch_loop]; [split_and!; [done|done|by left]|].
  destruct (_ || _); [split_and!; [done|done|by left]|]. destruct (probed_line l st Hw Hf Hs) as (Hw1 & Hf1 & [[E Hs1]|(i & f & Hi & Hfiles & Hlk & Hl)]).
  - rewrite E. destruct (batch_line false l st) as [st' more]. destruct more; [by apply IH|]. split_and!; [done|done|by left].
  - destruct (batch_line true l st) as [p more], (batch_line false l st) as [q more']. cbn [fst] in *.
    assert (∃ g, b_files (if more' then batch_loop false lines q else q) !! i = Some g ∧ minMemberBytes <= d_size g) as (g & Hg & Hgl).
    { destruct more'; [|by exists f]. destruct (sound_loop lines q) as (_ & _ & Hgr). destruct (Hgr i f Hlk) as (g & Hg & ?). exists g. split; [done|lia]. }
    assert (all_sized (if more' then batch_loop false lines q else q) ∧ b_found (if more' then batch_loop false lines q else q) = None) as [H1 H2].
    { destruct more'; [|done]. destruct (sound_loop lines q) as (Ha & Hb & _). split; [by apply Ha|congruence]. }
    split_and!; [by destruct more'|by destruct more'|]. right. exists i, f, g.
    assert ((if more then batch_loop true lines p else p) = p) as Hstop.
    { destruct more; [|done]. destruct lines; cbn [batch_loop]; [done|]. by rewrite Hi, bool_decide_eq_true_2, orb_true_r by eauto. }
    rewrite Hstop. split_and!; [done|congruence|exact (Forall_lookup_1 sized _ _ _ Hw1 Hlk)|done|done|done].
Qed.

Lemma collect_long files tr : Forall sized files → existsb (λ d, minMemberBytes <=? len d) (collect_files files tr).1 = existsb (λ f, minMemberBytes <=? d_size f) files.
Proof.
  intros H. revert tr. induction H as [|f files Hf _ IH]; intros tr; [done|]. cbn [collect_files existsb]. destruct (Nat.eqb_spec (length (d_lines f)) 0) as [E|E].
  - rewrite IH. unfold sized in Hf. apply nil_length_inv in E. rewrite Hf, E. done.
  - specialize (IH (tr || (maxBytesPerMember <? len (join crlf (d_lines f))))). destruct (collect_files files _) as [out tr']. cbn [fst existsb] in *. rewrite IH, Hf. f_equal.
    unfold clamp, clamp_to. destruct (Z.ltb_spec maxBytesPerMember (len (join crlf (d_lines f)))) as [Hl|]; [|done].
    rewrite (proj2 (Z.leb_le minMemberBytes (len (join crlf (d_lines f))))) by (unfold minMemberBytes, maxBytesPerMember in *; lia).
    apply Z.leb_le. unfold upto, len in *. rewrite string_take_length. unfold minMemberBytes, maxBytesPerMember in *. lia.
Qed.

(** The depth check and the carver agree.  [batchWouldCarve] parses in a
    mode that stops at the first file of four bytes; for every buffer its
    answer is whether the full parse yields a file that long. *)
Theorem probe_agrees buf : batchWouldCarve buf = existsb (λ data, minMemberBytes <=? len data) (carveBatchFiles buf).1.
Proof.
  unfold batchWouldCarve, carveBatchFiles, carveBatchScan. destruct (negb _); [done|].
  destruct (probe_loop (batch_lines buf) (mkB [] 0 0 false None None)) as (Hw & Hf & H); [by apply list.Forall_nil|done|by intros f Hin%not_elem_of_nil|].
  rewrite Hf. destruct H as [[-> Hs]|(i & f & g & Hi & Hlk & Hsz & Hl & Hg & Hgl)]; [by rewrite Hf|]. rewrite Hi, Hlk, collect_long by done. cbn [fst existsb]. rewrite <- Hsz.
  rewrite (proj2 (Z.leb_le _ _) Hl). symmetry. apply existsb_exists. exists g. split; [|by apply Z.leb_le]. by apply list_elem_of_In, (list_elem_of_lookup_2 _ i).
Qed.

(** ** Scripts as they are written *)

Definition is_blank (c : Ascii.ascii) : bool := (byte c =? 32) || (byte c =? 9).
Definition not_end (c : Ascii.ascii) : bool := negb (byte c =? 10) && negb (byte c =? 13).
(** No line break inside. *)
Definition one_line (s : string) : bool := string_forallb not_end s.

(** An echo command: what precedes it, its case, the character after it, and
    the rest of the line. *)
Record echo := { e_gap : string; e_word : string; e_delim : Ascii.ascii; e_text : string }.
Definition echo_cmd (e : echo) : string := e_word e +:+ String (e_delim e) (e_text e).
Definition echo_ok (e : echo) : Prop :=
  string_forallb is_blank (e_gap e) = true ∧ len (e_word e) = 4 ∧ EqualFold (e_word e) "echo" = true ∧ echo_delimiter (e_delim e) = true ∧ one_line (e_text e) = true.

(** Its line in the carved file. *)
Definition e_carved (e : echo) : string := caretUnescape (e_text e).

(** The target of a redirect: blanks, arrows, blanks, a quoted name. *)
Record target := { t_indent : string; t_append : bool; t_gap : string; t_file : string }.
Definition target_text (t : target) : string :=
  t_indent t +:+ (if t_append t then ">>" else ">") +:+ t_gap t +:+ String dquote (t_file t +:+ String dquote "").
Definition target_ok (t : target) : Prop :=
  string_forallb is_blank (t_indent t) = true ∧ string_forallb is_blank (t_gap t) = true ∧ t_file t ≠ "" ∧ one_line (t_file t) = true
  ∧ string_forallb (λ c, negb (Ascii.eqb c dquote)) (t_file t) = true.

(** A redirected echo, a block of them, or anything else on a line. *)
Inductive command := CLine (t : target) (e : echo) | CBlock (t : target) (gap : string) (l : list echo) | COther (line : string).

Definition command_lines (c : command) : list string :=
  match c with
  | CLine t e => [target_text t +:+ e_gap e +:+ echo_cmd e]
  | CBlock t gap l => (target_text t +:+ gap +:+ "(") :: ((λ e, e_gap e +:+ echo_cmd e) <$> l) ++ [")"]
  | COther line => [line]
  end.
Definition command_ok (c : command) : Prop :=
  match c with
  | CLine t e => target_ok t ∧ echo_ok e
  | CBlock t gap l => target_ok t ∧ t_append t = false ∧ string_forallb is_blank gap = true ∧ Forall echo_ok l
  | COther line => one_line line = true ∧ HasPrefix (trim_blank line) ">" = false
  end.

(** A script: each line with its end. *)
Definition script (lines : list (string * bool)) : string := string_concat ((λ l : string * bool, l.1 +:+ (if l.2 then crlf else lf)) <$> lines).

(** The files as the carver accumulates them, in the order they first appear,
    each with its lines. *)
Fixpoint write (name : string) (texts : list string) (files : list (string * list string)) : list (string * list string) :=
  match files with
  | [] => [(name, texts)]
  | (n, l) :: files => if bool_decide (n = name) then (n, l ++ texts) :: files else (n, l) :: write name texts files
  end.
Definition run_command (files : list (string * list string)) (c : command) : list (string * list string) :=
  match c with
  | CLine t e => write (t_file t) [e_carved e] files
  | CBlock t _ l => write (t_file t) (e_carved <$> l) files
  | COther _ => files
  end.
Definition written (cs : list command) : list (string * list string) := foldl run_command [] cs.
Definition command_bytes (c : command) : Z :=
  match c with CLine _ e => len (e_carved e) | CBlock _ _ l => sumZ len (e_carved <$> l) | COther _ => 0 end.
Definition is_redirect (c : command) : bool := match c with COther _ => false | _ => true end.

(** *** Reading them back *)

(** Blanks at the front. *)
Fixpoint drop_leading (s : string) : string := match s with String c s' => if is_blank c then drop_leading s' else s | EmptyString => EmptyString end.

Lemma trim_blank_fuel fuel : ∀ s, (String.length s <= fuel)%nat → trim_fuel [" "; tab] fuel s = drop_leading s.
Proof.
  induction fuel as [|fuel IH]; intros [|c s] H; try done; [cbn in H; lia|]. cbn [trim_fuel drop_leading].
  assert (strip_any [" "; tab] (String c s) = if is_blank c then Some s else None) as ->; [|destruct (is_blank c); [apply IH; cbn in H; lia|done]].
  destruct c as [[] [] [] [] [] [] [] []]; by cbn; destruct s.
Qed.
Lemma trim_blank_drop s : trim_blank s = drop_leading s.
Proof. by apply trim_blank_fuel. Qed.

Lemma trim_blank_app b s : string_forallb is_blank b = true → trim_blank (b +:+ s) = trim_blank s.
Proof.
  rewrite !trim_blank_drop. induction b as [|c b IH]; intros H; [done|]. cbn [string_forallb] in H. apply andb_true_iff in H as [H1 H2].
  rewrite string_cons_app. cbn [drop_leading]. by rewrite H1, IH.
Qed.
Lemma trim_blank_stop c s : is_blank c = false → trim_blank (String c s) = String c s.
Proof. intros H. rewrite trim_blank_drop. cbn [drop_leading]. by rewrite H. Qed.

Lemma string_rev_nil s : string_rev "" (string_rev "" s) = s.
Proof. rewrite (string_rev_rev s ""). done. Qed.

Lemma trim_front_cr s : one_line s = true → trim_left [cr] s = s.
Proof.
  unfold trim_left. destruct s as [|c s]; [done|]. intros H. apply andb_true_iff in H as [H _]. cbn [String.length trim_fuel].
  assert (strip_any [cr] (String c s) = None) as ->; [|done]. destruct c as [[] [] [] [] [] [] [] []]; done.
Qed.
Lemma trim_cr s (crs : bool) : one_line s = true → trim_right [cr] (s +:+ (if crs then cr else "")) = s.
Proof.
  intros H. unfold trim_right. change (string_rev "" <$> [cr]) with [cr]. assert (one_line (string_rev "" s) = true) as Hr by (unfold one_line in *; by rewrite string_rev_all, H).
  destruct crs; [|by rewrite string_app_nil_r, trim_front_cr, string_rev_nil]. rewrite string_rev_app. cbn [string_rev]. unfold trim_left. cbn [String.length trim_fuel].
  change (strip_any [cr] (String (ascii_of_Z 13) (string_rev "" s))) with (Some (string_rev "" s)). cbv iota.
  change (string_rev "" (trim_left [cr] (string_rev "" s)) = s). by rewrite trim_front_cr, string_rev_nil.
Qed.

Lemma echo_word w : len w = 4 → EqualFold w "echo" = true → ∃ c w', w = String c w' ∧ is_blank c = false ∧ one_line w = true ∧ String.length w' = 3%nat.
Proof.
  intros Hl H%bool_decide_eq_true. destruct w as [|a [|b [|c [|d [|e w]]]]]; try (exfalso; by cbv in Hl).
  exists a, (String b (String c (String d ""))). split; [done|]. cbn [to_lower] in H. injection H as Ha Hb Hc Hd.
  assert (∀ x y, (if (65 <=? byte x) && (byte x <=? 90) then ascii_of_Z (byte x + 32) else x) = y → not_end y = true → is_blank y = false → not_end x = true ∧ is_blank x = false) as Hx
    by (intros x y <-; destruct x as [[] [] [] [] [] [] [] []]; by vm_compute).
  destruct (Hx _ _ Ha) as [Ha1 Ha2]; [done..|]. destruct (Hx _ _ Hb) as [Hb1 _]; [done..|]. destruct (Hx _ _ Hc) as [Hc1 _]; [done..|]. destruct (Hx _ _ Hd) as [Hd1 _]; [done..|].
  unfold one_line. cbn [string_forallb]. by rewrite Ha1, Hb1, Hc1, Hd1.
Qed.

Lemma one_line_app s t : one_line (s +:+ t) = one_line s && one_line t.
Proof. apply string_forallb_app. Qed.
Lemma blank_one_line s : string_forallb is_blank s = true → one_line s = true.
Proof. apply string_forallb_impl. intros c. destruct c as [[] [] [] [] [] [] [] []]; by vm_compute. Qed.

Lemma echo_one_line e : echo_ok e → one_line (e_gap e +:+ echo_cmd e) = true.
Proof.
  intros (Hg & Hl & Hw & Hd & Ht). unfold echo_cmd. destruct (echo_word _ Hl Hw) as (c & w & _ & _ & Hone & _). rewrite !one_line_app, Hone, (blank_one_line _ Hg). cbn [andb].
  unfold one_line. cbn [string_forallb]. fold (one_line (e_text e)). rewrite Ht.
  assert (not_end (e_delim e) = true) as ->; [|done]. destruct (e_delim e) as [[] [] [] [] [] [] [] []]; by vm_compute in Hd.
Qed.

Lemma echo_read e : echo_ok e → trim_blank (e_gap e +:+ echo_cmd e) = echo_cmd e ∧ stripEchoPrefix (echo_cmd e) = Some (e_text e) ∧ 4 < len (echo_cmd e).
Proof.
  intros (Hg & Hl & Hw & Hd & _). destruct (echo_word _ Hl Hw) as (c & w & Ew & Hc & _ & Hlen).
  assert (len (echo_cmd e) = 5 + len (e_text e)) as Hcmd by (unfold echo_cmd; rewrite string_app_len, string_length_S; lia).
  pose proof (len_nonneg (e_text e)). split_and!; [| |lia].
  - rewrite trim_blank_app by done. unfold echo_cmd. rewrite Ew, string_cons_app. by apply trim_blank_stop.
  - unfold stripEchoPrefix. rewrite (proj2 (Z.ltb_ge _ _)) by lia. cbn [orb].
    assert (Z.to_nat 4 = String.length (e_word e)) as E4 by (unfold len in Hl; lia). unfold upto, from. rewrite E4. unfold echo_cmd at 1 2. rewrite string_take_app, string_drop_app, Hw.
    cbn [negb]. by rewrite Hd.
Qed.

Lemma dquote_not_blank : is_blank dquote = false.
Proof. done. Qed.

Definition target_rest (t : target) (tail : string) : string := t_gap t +:+ String dquote (t_file t +:+ String dquote tail).

Lemma target_split t tail : target_text t +:+ tail = t_indent t +:+ (if t_append t then ">>" else ">") +:+ target_rest t tail.
Proof. unfold target_text, target_rest. by rewrite <- !string_app_assoc, string_cons_app, <- string_app_assoc. Qed.

Lemma target_trim t tail : target_ok t → trim_blank (target_text t +:+ tail) = (if t_append t then ">>" else ">") +:+ target_rest t tail.
Proof. intros (Hi & _). rewrite target_split, trim_blank_app by done. destruct (t_append t); by apply trim_blank_stop. Qed.

Lemma rest_not_arrow t tail : target_ok t → t_append t = false → HasPrefix (">" +:+ target_rest t tail) ">>" = false.
Proof.
  intros (_ & Hg & _) _. unfold HasPrefix. apply bool_decide_eq_false_2. intros [r Hr]. change (">" +:+ target_rest t tail) with (String (ascii_of_Z 62) (target_rest t tail)) in Hr.
  cbn [strip_prefix] in Hr. unfold target_rest in Hr. destruct (t_gap t) as [|c g]; [done|]. rewrite string_cons_app in Hr.
  cbn [string_forallb] in Hg. apply andb_true_iff in Hg as [Hc _]. destruct c as [[] [] [] [] [] [] [] []]; done.
Qed.

Lemma redirect_line t tail : target_ok t → parseRedirectLine (target_rest t tail) =
  let rest := trim_blank tail in
  if len rest =? 0 then None else if bool_decide (rest = "(") then Some (t_file t, None) else text ← stripEchoPrefix rest; Some (t_file t, Some text).
Proof.
  intros (_ & Hg & Hn & _ & Hq). unfold parseRedirectLine, target_rest. rewrite trim_blank_app, trim_blank_stop by done. rewrite Ascii.eqb_refl, cut_byte_app by done.
  cbn [mbind option_bind]. assert (len (t_file t) =? 0 = false) as ->; [|done]. apply Z.eqb_neq. destruct (t_file t) as [|c s]; [done|]. rewrite string_length_S. pose proof (len_nonneg s). lia.
Qed.

Lemma target_one_line t tail : target_ok t → one_line (target_text t +:+ tail) = one_line tail.
Proof.
  intros (Hi & Hg & _ & Ho & _). rewrite target_split. unfold target_rest. rewrite !one_line_app, (blank_one_line _ Hi), (blank_one_line _ Hg).
  assert (one_line (if t_append t then ">>" else ">") = true) as -> by (by destruct (t_append t)). cbn [andb]. change (one_line (String dquote ?s)) with (one_line s).
  rewrite one_line_app, Ho. done.
Qed.

(** What a line does, with its blanks and its end taken away. *)
Lemma line_echo t e probe st : target_ok t → echo_ok e → b_target st = None →
  batch_line probe (target_text t +:+ e_gap e +:+ echo_cmd e) st = redirect probe (t_file t) (e_text e) st.
Proof.
  intros Ht He Hst. destruct (echo_read e He) as (Htr & Hsp & Hlen). unfold batch_line. rewrite <- (string_app_nil_r (target_text t +:+ _)).
  change "" with (if false then cr else ""). rewrite trim_cr by (rewrite target_one_line by done; by apply echo_one_line). rewrite Hst, target_trim by done.
  assert (parseRedirectLine (target_rest t (e_gap e +:+ echo_cmd e)) = Some (t_file t, Some (e_text e))) as Hp.
  { rewrite redirect_line by done. cbv zeta. rewrite Htr, Hsp. rewrite (proj2 (Z.eqb_neq _ 0)) by lia. rewrite bool_decide_eq_false_2; [done|]. intros E. rewrite E in Hlen. by vm_compute in Hlen. }
  destruct (t_append t) eqn:Ea.
  - change (HasPrefix (">>" +:+ ?s) ">>") with true. change (from 2 (">>" +:+ ?s)) with s. by rewrite Hp.
  - rewrite (rest_not_arrow t _ Ht Ea). change (HasPrefix (">" +:+ ?s) ">") with true. change (from 1 (">" +:+ ?s)) with s. by rewrite Hp.
Qed.

Lemma batch_line_end probe l crs st : one_line l = true → batch_line probe (l +:+ (if crs : bool then cr else "")) st = batch_line probe l st.
Proof. intros H. unfold batch_line. rewrite trim_cr by done. pose proof (trim_cr l false H) as E. cbv iota in E. rewrite string_app_nil_r in E. by rewrite E. Qed.

Lemma line_open t gap probe st : target_ok t → t_append t = false → string_forallb is_blank gap = true → b_target st = None →
  batch_line probe (target_text t +:+ gap +:+ "(") st =
    let '(idx, st) := getOrAdd (t_file t) st in ({| st with b_target := Some idx; b_blocks := b_blocks st + 1 |}, true).
Proof.
  intros Ht Ha Hg Hst. unfold batch_line. rewrite <- (string_app_nil_r (target_text t +:+ _)). change "" with (if false then cr else "").
  rewrite trim_cr by (by rewrite target_one_line, one_line_app, (blank_one_line _ Hg)). rewrite Hst, target_trim, Ha by done.
  rewrite (rest_not_arrow t _ Ht Ha). change (HasPrefix (">" +:+ ?s) ">") with true. change (from 1 (">" +:+ ?s)) with s.
  rewrite redirect_line by done. cbv zeta. rewrite trim_blank_app by done. done.
Qed.

Lemma line_inside e idx st : echo_ok e → b_target st = Some idx → batch_line false (e_gap e +:+ echo_cmd e) st = addLine false idx (e_carved e) st.
Proof.
  intros He Hst. destruct (echo_read e He) as (Htr & Hsp & Hlen). unfold batch_line. rewrite <- (string_app_nil_r (e_gap e +:+ _)). change "" with (if false then cr else "").
  rewrite trim_cr by (by apply echo_one_line). rewrite Hst, Htr, Hsp. rewrite bool_decide_eq_false_2; [done|]. intros E. rewrite E in Hlen. by vm_compute in Hlen.
Qed.

Lemma line_other line probe st : one_line line = true → HasPrefix (trim_blank line) ">" = false → b_target st = None → batch_line probe line st = (st, true).
Proof.
  intros Ho Hp Hst. unfold batch_line. rewrite <- (string_app_nil_r line). change "" with (if false then cr else ""). rewrite trim_cr by done. rewrite Hst, Hp.
  assert (HasPrefix (trim_blank line) ">>" = false) as ->; [|done]. unfold HasPrefix in *. apply bool_decide_eq_false in Hp. apply bool_decide_eq_false_2. intros [r Hr]. apply Hp.
  apply strip_prefix_app in Hr. rewrite Hr. by eexists.
Qed.

(** *** The files as they are written *)

Definition listing (st : BState) : list (string * list string) := (λ f, (d_name f, d_lines f)) <$> b_files st.

Lemma write_app name ts us l : write name us (write name ts l) = write name (ts ++ us) l.
Proof.
  induction l as [|[n x] l IH]; cbn [write]; [by rewrite bool_decide_eq_true_2|]. destruct (bool_decide (n = name)) eqn:E; cbn [write]; rewrite E; [by rewrite app_assoc|by rewrite IH].
Qed.

Lemma getOrAdd_listing name st : let '(idx, st') := getOrAdd name st in
  listing st' = write name [] (listing st) ∧ find_name name (b_files st') = Some idx
  ∧ b_blocks st' = b_blocks st ∧ b_accum st' = b_accum st ∧ b_truncated st' = b_truncated st ∧ b_found st' = b_found st ∧ b_target st' = b_target st.
Proof.
  assert (∀ l, match find_name name l with
    | Some idx => write name [] ((λ f, (d_name f, d_lines f)) <$> l) = (λ f, (d_name f, d_lines f)) <$> l
    | None => write name [] ((λ f, (d_name f, d_lines f)) <$> l) = (λ f, (d_name f, d_lines f)) <$> (l ++ [mkDropped name [] 0]) ∧ find_name name (l ++ [mkDropped name [] 0]) = Some (length l) end) as H.
  { induction l as [|f l IH]; cbn [find_name fmap list_fmap write app d_name d_lines]; [by rewrite bool_decide_eq_true_2|].
    destruct (bool_decide (d_name f = name)) eqn:E; [by rewrite app_nil_r|]. destruct (find_name name l); cbn [fmap option_fmap option_map length]; [by f_equal|].
    destruct IH as [IH1 IH2]. rewrite IH2. split; [by f_equal|done]. }
  specialize (H (b_files st)). unfold getOrAdd. destruct (find_name name (b_files st)) as [idx|] eqn:E; [by split_and!|]. destruct H as [H1 H2]. by split_and!.
Qed.

Lemma addLine_listing name idx text st : find_name name (b_files st) = Some idx → b_accum st + len text <= maxBatchAccum →
  ∃ st', addLine false idx text st = (st', true) ∧ listing st' = write name [text] (listing st) ∧ find_name name (b_files st') = Some idx
  ∧ b_blocks st' = b_blocks st ∧ b_accum st' = b_accum st + len text ∧ b_truncated st' = b_truncated st ∧ b_found st' = b_found st ∧ b_target st' = b_target st.
Proof.
  intros Hf Ha. unfold addLine. rewrite (proj2 (Z.ltb_ge _ _)) by done. eexists. split; [done|]. unfold listing. cbn.
  assert (∀ l idx, find_name name l = Some idx → (λ f, (d_name f, d_lines f)) <$> alter (add_text text) idx l = write name [text] ((λ f, (d_name f, d_lines f)) <$> l)
    ∧ find_name name (alter (add_text text) idx l) = Some idx) as H; [|by destruct (H _ _ Hf); split_and!].
  clear. induction l as [|f l IH]; intros idx Hf; [done|]. cbn [find_name] in Hf. destruct (bool_decide (d_name f = name)) eqn:E.
  - injection Hf as <-. cbn [fmap list_fmap alter list_alter write find_name add_text d_name d_lines]. by rewrite E.
  - apply fmap_Some in Hf as (k & Hk & ->). destruct (IH k Hk) as [H1 H2]. change (alter (add_text text) (Datatypes.S k) (f :: l)) with (f :: alter (add_text text) k l).
    cbn [fmap list_fmap write find_name]. by rewrite E, H1, H2.
Qed.

Lemma loop_go probe line lines st st' : b_blocks st < maxBatchBlocks → b_found st = None → batch_line probe line st = (st', true) →
  batch_loop probe (line :: lines) st = batch_loop probe lines st'.
Proof. intros Hb Hf Hl. cbn [batch_loop]. rewrite (proj2 (Z.leb_gt _ _)), Hf by done. cbn [orb]. rewrite bool_decide_eq_false_2 by (intros [? ?]; done). by rewrite Hl. Qed.

Lemma write_cons name t ts l : write name ts (write name [t] l) = write name (t :: ts) l.
Proof. apply write_app. Qed.

Lemma loop_inside name idx l : Forall echo_ok l → ∀ rest st, find_name name (b_files st) = Some idx → b_target st = Some idx → b_found st = None → b_blocks st < maxBatchBlocks →
  b_accum st + sumZ len (e_carved <$> l) <= maxBatchAccum →
  ∃ st', batch_loop false (((λ e, e_gap e +:+ echo_cmd e) <$> l) ++ rest) st = batch_loop false rest st' ∧ (l ≠ [] → listing st' = write name (e_carved <$> l) (listing st)) ∧ (l = [] → listing st' = listing st)
    ∧ b_blocks st' = b_blocks st ∧ b_accum st' = b_accum st + sumZ len (e_carved <$> l) ∧ b_truncated st' = b_truncated st ∧ b_found st' = None ∧ b_target st' = Some idx.
Proof.
  induction 1 as [|e l He Hl IH]; intros rest st Hn Ht Hf Hb Ha; [exists st; split_and!; try done; cbn; lia|].
  cbn [fmap list_fmap] in *. rewrite sumZ_cons in *. assert (0 <= sumZ len (e_carved <$> l)) by (apply sumZ_nonneg; intros; apply len_nonneg). pose proof (len_nonneg (e_carved e)).
  destruct (addLine_listing name idx (e_carved e) st Hn ltac:(lia)) as (st1 & H1 & H2 & H3 & H4 & H5 & H6 & H7 & H8).
  destruct (IH rest st1) as (st2 & G1 & G2 & G2' & G3 & G4 & G5 & G6 & G7); [done|congruence|congruence|lia|lia|].
  exists st2. rewrite <- app_comm_cons, (loop_go _ _ _ _ st1) by (try done; rewrite (line_inside e idx st He Ht); exact H1). split_and!; try done; try lia; try congruence.
  intros _. destruct l as [|e' l]; [by rewrite G2', H2|]. by rewrite G2, H2, write_cons.
Qed.

Definition ready (st : BState) : Prop := b_found st = None ∧ b_target st = None.

Lemma loop_command c rest st : command_ok c → ready st → b_blocks st + (if is_redirect c then 1 else 0) < maxBatchBlocks → b_accum st + command_bytes c <= maxBatchAccum →
  ∃ st', batch_loop false (command_lines c ++ rest) st = batch_loop false rest st' ∧ listing st' = run_command (listing st) c
    ∧ b_blocks st' = b_blocks st + (if is_redirect c then 1 else 0) ∧ b_accum st' = b_accum st + command_bytes c ∧ b_truncated st' = b_truncated st ∧ ready st'.
Proof.
  intros Hok [Hf Ht] Hb Ha. destruct c as [t e|t gap l|line]; cbn [command_ok command_lines command_bytes is_redirect run_command app] in *.
  - destruct Hok as [Htok He]. pose proof (getOrAdd_listing (t_file t) st) as Hg. pose proof (line_echo t e false st Htok He Ht) as Hline. unfold redirect in Hline. fold (e_carved e) in Hline.
    destruct (getOrAdd (t_file t) st) as [idx st0]. destruct Hg as (G1 & G2 & G3 & G4 & G5 & G6 & G7).
    destruct (addLine_listing _ idx (e_carved e) st0 G2 ltac:(lia)) as (st1 & H1 & H2 & H3 & H4 & H5 & H6 & H7 & H8). rewrite H1 in Hline. cbn [count_block] in Hline.
    eexists. rewrite (loop_go false _ rest st _ ltac:(lia) Hf Hline). split; [done|]. unfold listing, ready in *. cbn [b_files b_blocks b_accum b_truncated b_found b_target].
    rewrite H2, G1, write_app. split_and!; [done|lia|lia|congruence|congruence|congruence].
  - destruct Hok as (Htok & Hap & Hgap & Hl). pose proof (getOrAdd_listing (t_file t) st) as Hg. pose proof (line_open t gap false st Htok Hap Hgap Ht) as Hline.
    destruct (getOrAdd (t_file t) st) as [idx st0]. destruct Hg as (G1 & G2 & G3 & G4 & G5 & G6 & G7).
    set (st1 := {| st0 with b_target := Some idx; b_blocks := b_blocks st0 + 1 |}) in *.
    assert (b_blocks st1 = b_blocks st0 + 1 ∧ b_accum st1 = b_accum st0 ∧ b_truncated st1 = b_truncated st0 ∧ b_found st1 = b_found st0 ∧ b_target st1 = Some idx
      ∧ b_files st1 = b_files st0 ∧ listing st1 = listing st0) as (K1 & K2 & K3 & K4 & K5 & K6 & K7) by done. clearbody st1.
    rewrite (loop_go false _ _ st _ ltac:(lia) Hf Hline), <- app_assoc.
    destruct (loop_inside (t_file t) idx l Hl ([")"] ++ rest) st1) as (st2 & H1 & H2 & H2' & H3 & H4 & H5 & H6 & H7); [by rewrite K6|done|congruence|lia|lia|].
    rewrite H1. cbn [app]. rewrite (loop_go false ")" rest st2 {| st2 with b_target := None |}); [|lia|done|by unfold batch_line; rewrite H7].
    eexists. split; [done|]. change (listing {| st2 with b_target := None |}) with (listing st2). unfold ready. cbn [b_blocks b_accum b_truncated b_found b_target]. split_and!; [|lia|lia|congruence|congruence|done].
    destruct l as [|e l]; [by rewrite H2', K7, G1|]. by rewrite H2, K7, G1, write_app.
  - destruct Hok as [Ho Hp]. exists st. rewrite (loop_go _ _ _ _ st); [|lia|done|by apply line_other]. split_and!; try done; lia.
Qed.

Lemma loop_commands cs : Forall command_ok cs → ∀ st, ready st → b_blocks st + Z.of_nat (length (filter (λ c, is_redirect c = true) cs)) < maxBatchBlocks →
  b_accum st + sumZ command_bytes cs <= maxBatchAccum →
  ∃ st', batch_loop false (cs ≫= command_lines) st = st' ∧ listing st' = foldl run_command (listing st) cs ∧ b_truncated st' = b_truncated st ∧ b_found st' = None.
Proof.
  induction 1 as [|c cs Hc Hcs IH]; intros st [Hf Ht] Hb Ha; [by exists st|]. rewrite sumZ_cons in Ha. cbn [mbind list_bind].
  assert (0 <= sumZ command_bytes cs) by (apply sumZ_nonneg; intros [| |] _; cbn; try apply len_nonneg; try done; apply sumZ_nonneg; intros; apply len_nonneg).
  assert (Z.of_nat (length (filter (λ c, is_redirect c = true) (c :: cs))) = (if is_redirect c then 1 else 0) + Z.of_nat (length (filter (λ c, is_redirect c = true) cs))) as Hlen
    by (rewrite filter_cons; destruct (is_redirect c); [rewrite decide_True by done; cbn [length]; lia|by rewrite decide_False by done]).
  rewrite Hlen in Hb. destruct (loop_command c (cs ≫= command_lines) st Hc (conj Hf Ht) ltac:(lia) ltac:(lia)) as (st1 & H1 & H2 & H3 & H4 & H5 & H6).
  destruct (IH st1 H6 ltac:(lia) ltac:(lia)) as (st2 & G1 & G2 & G3 & G4). exists st2. split_and!; [by etransitivity|by rewrite G2, H2|congruence|done].
Qed.

(** *** From the bytes *)

Lemma batch_lines_app l rest : one_line l = true → ∀ crs : bool, batch_lines ((l +:+ (if crs then crlf else lf)) +:+ rest) = (l +:+ (if crs then cr else "")) :: batch_lines rest.
Proof.
  induction l as [|c l IH]; intros H crs; [by destruct crs|]. apply andb_true_iff in H as [H1 H2]. rewrite !string_cons_app. cbn [batch_lines].
  assert (byte c =? 10 = false) as -> by (apply andb_true_iff in H1 as [H1%negb_true_iff _]; done). rewrite IH by done. by destruct crs.
Qed.

Lemma batch_lines_script ls : Forall (λ l : string * bool, one_line l.1 = true) ls → batch_lines (script ls) = (λ l : string * bool, l.1 +:+ (if l.2 then cr else "")) <$> ls.
Proof. induction 1 as [|[l crs] ls H _ IH]; [done|]. cbn [script fmap list_fmap string_concat foldr]. change (foldr String.append "" ?l) with (string_concat l). unfold script, string_concat in *. cbn [fmap list_fmap foldr]. by rewrite batch_lines_app, IH. Qed.

Lemma loop_ends probe ls : Forall (λ l : string * bool, one_line l.1 = true) ls → ∀ st,
  batch_loop probe ((λ l : string * bool, l.1 +:+ (if l.2 then cr else "")) <$> ls) st = batch_loop probe (fst <$> ls) st.
Proof.
  induction 1 as [|[l crs] ls H _ IH]; intros st; [done|]. cbn [fmap list_fmap batch_loop fst snd]. rewrite batch_line_end by done.
  destruct (_ || _); [done|]. destruct (batch_line probe l st) as [st' more]. by rewrite IH.
Qed.

Lemma command_one_line c l : command_ok c → l ∈ command_lines c → one_line l = true.
Proof.
  destruct c as [t e|t gap l'|line]; cbn [command_ok command_lines].
  - intros [Ht He] ->%list_elem_of_singleton. rewrite target_one_line by done. by apply echo_one_line.
  - intros (Ht & _ & Hg & Hl) [->|[Hin| ->%list_elem_of_singleton]%elem_of_app]%elem_of_cons; [by rewrite target_one_line, one_line_app, (blank_one_line _ Hg)| |done].
    apply list_elem_of_fmap in Hin as (e & -> & Hin). apply echo_one_line. by eapply list.Forall_forall in Hl.
  - by intros [H _] ->%list_elem_of_singleton.
Qed.

Lemma collect_listing files tr : (∀ f, f ∈ files → len (join crlf (d_lines f)) <= maxBytesPerMember) →
  collect_files files tr = ((λ f, join crlf f.2) <$> filter (λ f, f.2 ≠ []) ((λ f, (d_name f, d_lines f)) <$> files), tr).
Proof.
  revert tr. induction files as [|f files IH]; intros tr H; [done|]. cbn [collect_files fmap list_fmap]. rewrite filter_cons. cbn [snd].
  destruct (d_lines f) as [|t ts] eqn:E; cbn [length Nat.eqb]; [rewrite decide_False by (intros []; done); apply IH; intros; apply H; by right|].
  rewrite decide_True by done. pose proof (H f ltac:(by left)) as Hf. rewrite E in Hf. rewrite (proj2 (Z.ltb_ge _ _)), orb_false_r by done. rewrite IH by (intros; apply H; by right).
  cbn [fmap list_fmap snd]. unfold clamp, clamp_to. by rewrite (proj2 (Z.ltb_ge _ _)) by done.
Qed.

(** The carver accumulates exactly the redirected lines, file by file, as long
    as there are fewer than 256 redirects and the sizes stay within the caps. *)
Lemma carver_accumulates cs ls : Forall command_ok cs → fst <$> ls = cs ≫= command_lines → looksLikeBatch (script ls) = true →
  Z.of_nat (length (filter (λ c, is_redirect c = true) cs)) < maxBatchBlocks → sumZ command_bytes cs <= maxBatchAccum →
  (∀ f, f ∈ written cs → len (join crlf f.2) <= maxBytesPerMember) →
  carveBatchFiles (script ls) = ((λ f, join crlf f.2) <$> filter (λ f, f.2 ≠ []) (written cs), false).
Proof.
  intros Hok Hls Hl Hn Hs Hj. assert (Forall (λ l : string * bool, one_line l.1 = true) ls) as Hone.
  { apply list.Forall_forall. intros l Hin. assert (l.1 ∈ cs ≫= command_lines) as (c & H1 & H2)%list_elem_of_bind by (rewrite <- Hls; by apply list_elem_of_fmap_2).
    eapply command_one_line; [|exact H1]. by eapply list.Forall_forall in Hok. }
  unfold carveBatchFiles, carveBatchScan. rewrite Hl. cbn [negb]. rewrite batch_lines_script, loop_ends, Hls by done.
  destruct (loop_commands cs Hok (mkB [] 0 0 false None None)) as (st & H1 & H2 & H3 & H4); [done|done|done|]. rewrite H1, H4, H3. change (foldl run_command _ cs) with (written cs) in H2.
  unfold listing in H2. rewrite <- H2, collect_listing; [done|]. intros f Hf. apply (Hj (d_name f, d_lines f)). rewrite <- H2. by apply (list_elem_of_fmap_2 (λ f, (d_name f, d_lines f))).
Qed.
