(* ===== verification/BatchScript.v ===== *)
(** * What a batch dropper leaves behind

    The lines of a script as cmd.exe runs them, independently of the carver of
    batcarve.go: which text an echo prints, and how the redirects [>] and [>>]
    change files; and that the carver recovers every file so written. *)

From Stdlib Require Import ZArith Lia.
From Stdlib Require Ascii String.
From stdpp Require Import base strings list numbers.
From S2P Require Import Prelude GoStd GoText Base64 GoRegexp DecodeRuns Retained DecodeFold RarSolid Sniff Cab Batch.

Local Open Scope Z_scope.
Local Open Scope mailstrix_scope.

(** ** What an echo prints

    The text after the command word, as cmd.exe reads it: a double quote is
    printed and starts or ends a quotation; outside one a caret stands for the
    next character, and an operator ends the command, as a parenthesis does in
    a block. There is no answer for a text that expands variables, continues on
    the next line or goes on with another command. *)
Definition is_char (n : Z) (c : Ascii.ascii) : bool := byte c =? n.
Definition expands (c : Ascii.ascii) : bool := is_char 37 c || is_char 33 c.
Definition operator (block : bool) (c : Ascii.ascii) : bool :=
  mem (byte c) [38; 124; 60; 62] || block && is_char 41 c.

Fixpoint cmd_text (block quoted : bool) (s : string) : option string :=
  match s with
  | EmptyString => Some ""
  | String c s =>
      if expands c then None
      else if Ascii.eqb c dquote then String c <$> cmd_text block (negb quoted) s
      else if quoted then String c <$> cmd_text block true s
      else if Ascii.eqb c caret then
        match s with
        | EmptyString => None
        | String d s => if expands d then None else String d <$> cmd_text block false s
        end
      else if operator block c then None
      else String c <$> cmd_text block false s
  end.

(** [echo], [echo on], [echo off] and [echo /?] print something else, unless the
    character after the word is a dot or a parenthesis. *)
Definition prints (delim : Ascii.ascii) (text : string) : bool :=
  (is_char 46 delim || is_char 40 delim || negb (mem (to_lower (trim_blank text)) [""; "on"; "off"]))
  && negb (contains "/?" (String delim text)).

Definition cmd_echo (block : bool) (e : echo) : option string :=
  text ← cmd_text block false (e_text e);
  if prints (e_delim e) text then Some text else None.

(** ** What a redirect does to the files

    [>] empties the file first, [>>] adds to it. A name stands for a file
    ([file_of]: case, variables and directories are the system's business). *)
Section Cmd.
Context {F : Type} `{EqDecision F} (file_of : string → F).

Fixpoint cmd_write (append : bool) (f : F) (texts : list string) (files : list (F * list string)) : list (F * list string) :=
  match files with
  | [] => [(f, texts)]
  | (g, l) :: files =>
      if decide (g = f) then (g, (if append then l else []) ++ texts) :: files else (g, l) :: cmd_write append f texts files
  end.

(** What cmd.exe needs to read a command this way: a blank between the quoted
    name and the command, and, in any other line, no redirect, no block and no
    continuation. *)
Definition cmd_reads (c : command) : bool :=
  match c with
  | CLine _ e => bool_decide (e_gap e ≠ "")
  | CBlock _ gap _ => bool_decide (gap ≠ "")
  | COther line => string_forallb (λ c, negb (is_char 62 c) && negb (is_char 40 c) && negb (Ascii.eqb c caret)) line
  end.

(** A redirected echo or block changes one file; any other line of a
    straight-line script changes none. *)
Definition cmd_step (files : list (F * list string)) (c : command) : option (list (F * list string)) :=
  if negb (cmd_reads c) then None
  else match c with
  | CLine t e => text ← cmd_echo false e; Some (cmd_write (t_append t) (file_of (t_file t)) [text] files)
  | CBlock t _ l => texts ← mapM (cmd_echo true) l; Some (cmd_write (t_append t) (file_of (t_file t)) texts files)
  | COther _ => Some files
  end.

Fixpoint cmd_run (files : list (F * list string)) (cs : list command) : option (list (F * list string)) :=
  match cs with
  | [] => Some files
  | c :: cs => files ← cmd_step files c; cmd_run files cs
  end.

(** The bytes of a file: every line with its end. *)
Definition file_text (l : list string) : string := string_concat ((λ t, t +:+ crlf) <$> l).

(** ** The scripts *)

(** The one text the carver reads differently: a caret inside quotes, which
    cmd.exe prints. *)
Fixpoint carets_unquoted (quoted : bool) (s : string) : bool :=
  match s with
  | EmptyString => true
  | String c s =>
      if Ascii.eqb c dquote then carets_unquoted (negb quoted) s
      else if Ascii.eqb c caret then
        if quoted then false else match s with EmptyString => true | String _ s => carets_unquoted false s end
      else carets_unquoted quoted s
  end.

Definition echoes (c : command) : list echo := match c with CLine _ e => [e] | CBlock _ _ l => l | COther _ => [] end.
Definition target_of (c : command) : option target := match c with CLine t _ | CBlock t _ _ => Some t | COther _ => None end.

(** Each file goes by one name in the script. *)
Definition one_name (cs : list command) : Prop :=
  ∀ t t', t ∈ omap target_of cs → t' ∈ omap target_of cs → file_of (t_file t) = file_of (t_file t') → t_file t = t_file t'.

(** A redirect that loses what the script wrote before. *)
Definition overwrites (files : list (F * list string)) (c : command) : Prop :=
  ∃ t l, target_of c = Some t ∧ t_append t = false ∧ (file_of (t_file t), l) ∈ files ∧ l ≠ [].

(** *** The carver reads what is printed *)

Lemma cmd_text_carved block n : ∀ quoted s text, (String.length s <= n)%nat →
  cmd_text block quoted s = Some text → carets_unquoted quoted s = true → caretUnescape s = text.
Proof.
  induction n as [|n IH]; intros quoted [|c s] text Hn Ht Hc; cbn in Hn; try lia; [by injection Ht|by injection Ht|].
  cbn [cmd_text carets_unquoted caretUnescape] in *. destruct (expands c); [done|].
  destruct (Ascii.eqb c dquote) eqn:Hq.
  - assert (Ascii.eqb c caret = false) as ->.
    { apply Stdlib.Strings.Ascii.eqb_eq in Hq as ->. by vm_compute. }
    apply fmap_Some in Ht as (u&Hu&->). f_equal. eapply IH; [lia|done|done].
  - destruct (Ascii.eqb c caret) eqn:Hk.
    + destruct quoted; [done|]. destruct s as [|d s]; [done|]. destruct (expands d); [done|].
      apply fmap_Some in Ht as (u&Hu&->). cbn in Hn. f_equal. eapply IH; [lia|done|done].
    + destruct quoted; [|destruct (operator block c); [done|]]; apply fmap_Some in Ht as (u&Hu&->); f_equal; (eapply IH; [lia|done|done]).
Qed.

Lemma cmd_echo_carved block e text : cmd_echo block e = Some text → carets_unquoted false (e_text e) = true → e_carved e = text.
Proof.
  unfold cmd_echo, e_carved. intros (u&Hu&Hp)%bind_Some Hc. destruct (prints _ u); [|done]. injection Hp as <-. by eapply cmd_text_carved.
Qed.

Lemma mapM_carved l texts : mapM (cmd_echo true) l = Some texts → Forall (λ e, carets_unquoted false (e_text e) = true) l → e_carved <$> l = texts.
Proof.
  intros Hm%mapM_Some. induction Hm as [|e text l texts He Hm IH]; [done|]. intros [H1 H2]%list.Forall_cons.
  rewrite fmap_cons. f_equal; [by eapply cmd_echo_carved|]. by apply IH.
Qed.

(** *** The two listings *)

(** [m]: the carver's files; each has the lines of its file at its end. *)
Definition tracks (x : F * list string) (y : string * list string) : Prop :=
  x.1 = file_of y.1 ∧ ∃ older, y.2 = older ++ x.2.

Lemma cmd_write_tracks append name texts files wr : Forall2 tracks files wr →
  (∀ y, y ∈ wr → file_of y.1 = file_of name → y.1 = name) →
  Forall2 tracks (cmd_write append (file_of name) texts files) (write name texts wr).
Proof.
  induction 1 as [|[g l] [n m] files wr [Hg [older Hm]] Hf IH]; intros Hinj; cbn [cmd_write write].
  - repeat constructor. by exists [].
  - cbn in Hg, Hm. subst g m. destruct (decide (file_of n = file_of name)) as [He|Hne].
    + rewrite bool_decide_eq_true_2 by (apply (Hinj (n, older ++ l)); [left|done]). constructor; [|done]. split; [done|].
      cbn. destruct append; [exists older|exists (older ++ l)]; by rewrite <- ?app_assoc.
    + rewrite bool_decide_eq_false_2 by (by intros ->). constructor; [split; [done|by exists older]|]. apply IH. intros y Hy. apply Hinj. by right.
Qed.

(** Nothing lost: the listings are the same. *)
Definition agrees (x : F * list string) (y : string * list string) : Prop := x.1 = file_of y.1 ∧ y.2 = x.2.

Lemma cmd_write_agrees append name texts files wr : Forall2 agrees files wr →
  (∀ y, y ∈ wr → file_of y.1 = file_of name → y.1 = name) →
  (append = false → ∀ l, (file_of name, l) ∈ files → l = []) →
  Forall2 agrees (cmd_write append (file_of name) texts files) (write name texts wr).
Proof.
  induction 1 as [|[g l] [n m] files wr [Hg Hm] Hf IH]; intros Hinj Hov; cbn [cmd_write write].
  - by repeat constructor.
  - cbn in Hg, Hm. subst g m. destruct (decide (file_of n = file_of name)) as [He|Hne].
    + rewrite bool_decide_eq_true_2 by (apply (Hinj (n, l)); [left|done]). constructor; [|done]. split; [done|]. cbn.
      destruct append; [done|]. by rewrite (Hov eq_refl l) by (rewrite He; left).
    + rewrite bool_decide_eq_false_2 by (by intros ->). constructor; [by split|]. apply IH.
      * intros y Hy. apply Hinj. by right.
      * intros Ha l' Hl'. apply (Hov Ha). by right.
Qed.

(** The names the carver has met. *)
Lemma write_names name texts wr y : y ∈ write name texts wr → y.1 = name ∨ ∃ z, z ∈ wr ∧ z.1 = y.1.
Proof.
  induction wr as [|[n l] wr IH]; cbn [write]; [intros ->%list_elem_of_singleton; by left|].
  destruct (bool_decide (n = name)); intros [->|Hin]%elem_of_cons; cbn.
  - right. exists (n, l). by split; [left|].
  - right. exists y. by split; [right|].
  - right. exists (n, l). by split; [left|].
  - destruct (IH Hin) as [?|(z&?&?)]; [by left|right]. exists z. by split; [right|].
Qed.

Definition met (cs : list command) (wr : list (string * list string)) : Prop := ∀ y, y ∈ wr → ∃ t, t ∈ omap target_of cs ∧ t_file t = y.1.

(** One command, in both listings. *)
Lemma step_write c files files' wr : cmd_step files c = Some files' → Forall (λ e, carets_unquoted false (e_text e) = true) (echoes c) →
  (∃ t texts, target_of c = Some t ∧ files' = cmd_write (t_append t) (file_of (t_file t)) texts files ∧ run_command wr c = write (t_file t) texts wr)
  ∨ target_of c = None ∧ files' = files ∧ run_command wr c = wr.
Proof.
  unfold cmd_step. destruct (cmd_reads c); [|done]. destruct c as [t e|t gap l|line]; cbn [negb echoes target_of run_command]; intros H Hc.
  - apply bind_Some in H as (text&Ht&[= <-]). left. exists t, [text]. split_and!; [done..|]. f_equal. f_equal.
    apply list.Forall_cons in Hc as [Hc _]. by eapply cmd_echo_carved.
  - apply bind_Some in H as (texts&Ht&[= <-]). left. exists t, texts. split_and!; [done..|]. f_equal. by apply mapM_carved.
  - injection H as <-. by right.
Qed.

Lemma run_tracks all cs : one_name all → (∀ c, c ∈ cs → c ∈ all) → Forall (λ c, Forall (λ e, carets_unquoted false (e_text e) = true) (echoes c)) cs →
  ∀ files files' wr, Forall2 tracks files wr → met all wr → cmd_run files cs = Some files' → Forall2 tracks files' (foldl run_command wr cs).
Proof.
  intros Hone. induction cs as [|c cs IH]; intros Hall Hc files files' wr Ht Hm Hr; [by injection Hr as <-|].
  apply list.Forall_cons in Hc as [Hc1 Hc]. cbn [cmd_run foldl] in *. apply bind_Some in Hr as (files1&H1&Hr).
  destruct (step_write c files files1 wr H1 Hc1) as [(t&texts&Htg&->&->)|(_&->&->)]; [|by eapply IH; [intros; apply Hall; by right|..]].
  assert (t ∈ omap target_of all) as Hin by (apply list_elem_of_omap; exists c; split; [apply Hall; left|done]).
  eapply IH; [intros; apply Hall; by right|done| | |exact Hr].
  - apply cmd_write_tracks; [done|]. intros y Hy He. destruct (Hm y Hy) as (t'&Ht'&Hy'). rewrite <- Hy' in *. by apply Hone.
  - intros y [Hy|(z&Hz&Hy)]%write_names; [by exists t|]. destruct (Hm z Hz) as (t'&?&?). exists t'. split; [done|congruence].
Qed.

Lemma run_agrees all cs : one_name all → (∀ c, c ∈ cs → c ∈ all) → Forall (λ c, Forall (λ e, carets_unquoted false (e_text e) = true) (echoes c)) cs →
  ∀ files files' wr, Forall2 agrees files wr → met all wr → cmd_run files cs = Some files' →
  (∀ pre c post files1, cs = pre ++ c :: post → cmd_run files pre = Some files1 → ¬ overwrites files1 c) →
  Forall2 agrees files' (foldl run_command wr cs).
Proof.
  intros Hone. induction cs as [|c cs IH]; intros Hall Hc files files' wr Ht Hm Hr Hov; [by injection Hr as <-|].
  apply list.Forall_cons in Hc as [Hc1 Hc]. cbn [cmd_run foldl] in *. apply bind_Some in Hr as (files1&H1&Hr).
  assert (∀ pre c0 post files2, cs = pre ++ c0 :: post → cmd_run files1 pre = Some files2 → ¬ overwrites files2 c0) as Hov1.
  { intros pre c0 post files2 -> H2. apply (Hov (c :: pre) c0 post); [done|]. cbn [cmd_run]. by rewrite H1. }
  pose proof (Hov [] c cs files eq_refl eq_refl) as Hc0.
  destruct (step_write c files files1 wr H1 Hc1) as [(t&texts&Htg&->&->)|(_&->&->)]; [|by eapply IH; [intros; apply Hall; by right|..]].
  assert (t ∈ omap target_of all) as Hin by (apply list_elem_of_omap; exists c; split; [apply Hall; left|done]).
  eapply IH; [intros; apply Hall; by right|done| | |exact Hr|exact Hov1].
  - apply cmd_write_agrees; [done| |].
    + intros y Hy He. destruct (Hm y Hy) as (t'&Ht'&Hy'). rewrite <- Hy' in *. by apply Hone.
    + intros Ha l Hl. destruct (decide (l = [])) as [|Hne]; [done|]. destruct Hc0. by exists t, l.
  - intros y [Hy|(z&Hz&Hy)]%write_names; [by exists t|]. destruct (Hm z Hz) as (t'&?&?). exists t'. split; [done|congruence].
Qed.

Lemma join_text l : l ≠ [] → join crlf l +:+ crlf = file_text l.
Proof.
  induction l as [|a l IH]; [done|]. intros _. destruct l as [|b l].
  - unfold file_text. cbn [fmap list_fmap string_concat foldr join]. by rewrite string_app_nil_r.
  - change (join crlf (a :: b :: l)) with (a +:+ crlf +:+ join crlf (b :: l)). change (file_text (a :: b :: l)) with ((a +:+ crlf) +:+ file_text (b :: l)).
    rewrite <- IH by done. by rewrite !string_app_assoc.
Qed.

Lemma file_text_app l l' : file_text (l ++ l') = file_text l +:+ file_text l'.
Proof.
  induction l as [|a l IH]; [done|]. change (file_text ((a :: l) ++ l')) with ((a +:+ crlf) +:+ file_text (l ++ l')). rewrite IH.
  change (file_text (a :: l)) with ((a +:+ crlf) +:+ file_text l). by rewrite !string_app_assoc.
Qed.


End Cmd.

(** ** A dropper

    Two files: one appended to twice, one written by a block after a decoy that
    the block throws away. *)
Definition exPrinted (word : string) (delim : Z) (text : string) : echo :=
  {| e_gap := " "; e_word := word; e_delim := ascii_of_Z delim; e_text := text |}.
Definition exTarget (append : bool) (name : string) : target := {| t_indent := tab; t_append := append; t_gap := " "; t_file := name |}.
Definition exCommands : list command :=
  [COther "@echo off"; CLine (exTarget true "a.vbs") (exPrinted "ECHO" 40 "D^im htt^p ^^ x");
   CLine (exTarget false "b.js") (exPrinted "echo" 32 "decoy");
   CBlock (exTarget false "b.js") " " [exPrinted "eChO" 32 "eval^(a^)"; exPrinted "echo" 46 "run^(^)"];
   COther "wscript a.vbs"; CLine (exTarget true "a.vbs") (exPrinted "echo" 58 "Set y = 1")].
Definition exLines : list (string * bool) := (λ l, (l, true)) <$> (exCommands ≫= command_lines).
Definition exFiles : list (string * list string) := [("a.vbs", ["Dim http ^ x"; "Set y = 1"]); ("b.js", ["eval(a)"; "run()"])].


(** *** What the runs show *)

(** After 256 redirects the parser stops, and says nothing. *)
Definition exDecoys : string := script (replicate 256 (">" +:+ String dquote ("d" +:+ String dquote " echo x"), false)).
Example block_cap_silent : carveBatchFiles (exDecoys +:+ ">" +:+ String dquote ("p" +:+ String dquote " echo PAYLOAD")) = ([join crlf (replicate 256 "x")], false).
Proof. vm_compute. reflexivity. Qed.

(** A block that appends is not read as a block. *)
Definition exAppendBlock : list command := [COther "@echo off"; CBlock (exTarget true "p.vbs") " " [exPrinted "echo" 32 "PAYLOAD"]].
Example append_block_missed : cmd_run id [] exAppendBlock = Some [("p.vbs", ["PAYLOAD"])]
  ∧ carveBatchFiles (script ((λ l, (l, true)) <$> (exAppendBlock ≫= command_lines))) = ([], false).
Proof. by vm_compute. Qed.

(** A caret inside quotes is printed, and the carver drops it. *)
Definition exQuotedCaret : list command :=
  [COther "@echo off"; CLine (exTarget false "p.vbs") (exPrinted "echo" 32 ("x = " +:+ String dquote ("a^b" +:+ String dquote "")))].
Example quoted_caret_dropped : cmd_run id [] exQuotedCaret = Some [("p.vbs", ["x = " +:+ String dquote ("a^b" +:+ String dquote "")])]
  ∧ carveBatchFiles (script ((λ l, (l, true)) <$> (exQuotedCaret ≫= command_lines))) = (["x = " +:+ String dquote ("ab" +:+ String dquote "")], false).
Proof. by vm_compute. Qed.

(** Two spellings of one name make two files. *)
Definition exSpelled : list command :=
  [COther "@echo off"; CLine (exTarget true "p.vbs") (exPrinted "echo" 32 "one"); CLine (exTarget true "P.VBS") (exPrinted "echo" 32 "two")].
Example spelling_splits : cmd_run to_lower [] exSpelled = Some [("p.vbs", ["one"; "two"])]
  ∧ carveBatchFiles (script ((λ l, (l, true)) <$> (exSpelled ≫= command_lines))) = (["one"; "two"], false).
Proof. by vm_compute. Qed.
