(* ===== verification/Screnc.v ===== *)
(** * Scripts of the Microsoft Script Encoder

    script.go: the substitution of an encoded body, and how it relates to the
    two passes its comment describes. *)

From Stdlib Require Import ZArith Lia.
From Stdlib Require Ascii String.
From stdpp Require Import base strings list numbers.
From S2P Require Import Prelude GoStd GoText Base64 GoRegexp DecodeRuns.

Local Open Scope Z_scope.
Local Open Scope mailstrix_scope.

Definition scriptStart : string := "#@~^".
Definition scriptEnd : string := "^#~@".
Definition maxEncodedScripts : Z := 64.
Definition maxDecodedScript : Z := 4194304.

(** [decChar] from byte 9 on; the entries below are zero. *)
Definition decChar : list (Z * Z * Z) :=
  [(87, 110, 123); (74, 76, 65); (11, 11, 11); (12, 12, 12); (74, 76, 65); (14, 14, 14); (15, 15, 15); (16, 16, 16); (17, 17, 17); (18, 18, 18);
   (19, 19, 19); (20, 20, 20); (21, 21, 21); (22, 22, 22); (23, 23, 23); (24, 24, 24); (25, 25, 25); (26, 26, 26); (27, 27, 27); (28, 28, 28);
   (29, 29, 29); (30, 30, 30); (31, 31, 31); (46, 45, 50); (71, 117, 48); (122, 82, 33); (86, 96, 41); (66, 113, 91); (106, 94, 56); (47, 73, 51);
   (38, 92, 61); (73, 98, 88); (65, 125, 58); (52, 41, 53); (50, 54, 101); (91, 32, 57); (118, 124, 92); (114, 122, 86); (67, 127, 115); (56, 107, 102);
   (57, 99, 78); (112, 51, 69); (69, 43, 107); (104, 104, 98); (113, 81, 89); (79, 102, 120); (9, 118, 94); (98, 49, 125); (68, 100, 74); (35, 84, 109);
   (117, 67, 113); (74, 76, 65); (126, 58, 96); (74, 76, 65); (94, 126, 83); (64, 76, 64); (119, 69, 66); (74, 44, 39); (97, 42, 72); (93, 116, 114);
   (34, 39, 117); (75, 55, 49); (111, 68, 55); (78, 121, 77); (59, 89, 82); (76, 47, 34); (80, 111, 84); (103, 38, 106); (42, 114, 71); (125, 106, 100);
   (116, 57, 45); (84, 123, 32); (43, 63, 127); (45, 56, 46); (44, 119, 76); (48, 103, 93); (110, 83, 126); (107, 71, 108); (102, 52, 111);
   (53, 120, 121); (37, 93, 116); (33, 48, 67); (100, 35, 38); (77, 90, 118); (82, 91, 37); (99, 108, 36); (63, 72, 43); (123, 85, 40); (120, 112, 35);
   (41, 105, 65); (40, 46, 52); (115, 76, 9); (89, 33, 42); (51, 36, 68); (127, 78, 63); (109, 80, 119); (85, 9, 59); (83, 86, 85); (124, 115, 105);
   (58, 53, 97); (95, 97, 99); (101, 75, 80); (70, 88, 103); (88, 59, 81); (49, 87, 73); (105, 34, 79); (108, 109, 70); (90, 77, 104); (72, 37, 124);
   (39, 40, 54); (92, 70, 112); (61, 74, 110); (36, 50, 122); (121, 65, 47); (55, 61, 95); (96, 95, 75); (81, 79, 90); (32, 66, 44); (54, 101, 87)].

(** [combination] *)
Definition combination : list Z :=
  [0; 1; 2; 0; 1; 2; 1; 2; 2; 1; 2; 1; 0; 2; 1; 2;
   0; 2; 1; 2; 0; 0; 1; 2; 2; 1; 0; 2; 1; 2; 2; 1;
   0; 0; 2; 1; 2; 1; 2; 0; 2; 0; 0; 1; 2; 0; 2; 1;
   0; 2; 1; 2; 0; 0; 1; 2; 2; 0; 0; 1; 2; 0; 2; 1].

(** [decChar[c][pick]] *)
Definition dec_char (c pick : Z) : Z :=
  let '(a, b, d) := if c <? 9 then (0, 0, 0) else nth (Z.to_nat (c - 9)) decChar (0, 0, 0) in
  if pick =? 0 then a else if pick =? 1 then b else d.

Definition substituted (c : Z) : bool :=
  ((c =? 9) || ((32 <=? c) && (c <=? 127))) && negb (c =? 60) && negb (c =? 62) && negb (c =? 64).

(** What an escape stands for; an unknown one is dropped. *)
Definition script_escape (c : Z) : string :=
  if c =? 38 then string_of_bytes [10] else if c =? 35 then string_of_bytes [13] else if c =? 42 then ">"
  else if c =? 33 then "<" else if c =? 36 then "@" else "".

(** A byte of the body, at a count of the substitutable bytes before it. *)
Definition script_byte (index : nat) (c : Ascii.ascii) : Ascii.ascii * nat :=
  if byte c <? 128 then
    (if substituted (byte c) then ascii_of_Z (dec_char (byte c) (nth (index mod 64) combination 0)) else c, Datatypes.S index)
  else (c, index).

(** The output stops at the cap: [room] bytes are left. *)
Fixpoint decode_script (fuel : nat) (index : nat) (room : Z) (enc : string) : string :=
  match fuel with
  | O => EmptyString
  | Datatypes.S fuel =>
      match enc with
      | EmptyString => EmptyString
      | String c rest =>
          match rest with
          | String e rest' =>
              if byte c =? 64 then script_escape (byte e) +:+ decode_script fuel index (room - len (script_escape (byte e))) rest'
              else
                let '(d, index) := script_byte index c in
                String d (if room - 1 <=? 0 then EmptyString else decode_script fuel index (room - 1) rest)
          | EmptyString => let '(d, _) := script_byte index c in String d EmptyString
          end
      end
  end.
Definition decodeScript (enc : string) : string := decode_script (String.length enc) 0 maxDecodedScript enc.

Example canonical : decodeScript ("\ko$K6,JC" +:+ string_of_bytes [127] +:+ "V^GJqAQAAA==") = "MsgBox " +:+ string_of_bytes [34] +:+ "Hello" +:+ string_of_bytes [34] +:+ "WB+BEB~~".
Proof. vm_compute. reflexivity. Qed.

(** ** The two passes *)

(** Every escape is replaced first. *)
Fixpoint unescape (fuel : nat) (enc : string) : string :=
  match fuel, enc with
  | Datatypes.S fuel, String c (String e rest) => if byte c =? 64 then script_escape (byte e) +:+ unescape fuel rest else String c (unescape fuel (String e rest))
  | _, _ => enc
  end.
Fixpoint substitute (index : nat) (s : string) : string :=
  match s with EmptyString => EmptyString | String c s => let '(d, index) := script_byte index c in String d (substitute index s) end.
Definition two_passes (enc : string) : string := substitute 0 (unescape (String.length enc) enc).

Lemma decode_plain fuel : ∀ index room enc, string_forallb (λ c, negb (byte c =? 64)) enc = true → (String.length enc <= fuel)%nat → len enc <= room →
  decode_script fuel index room enc = substitute index enc.
Proof.
  induction fuel as [|fuel IH]; intros index room enc Hno Hf Hr; [by destruct enc; cbn in Hf; [|lia]|]. destruct enc as [|c rest]; [done|].
  cbn [string_forallb] in Hno. apply andb_true_iff in Hno as [Hc Hno]. cbn [decode_script substitute]. destruct (byte c =? 64); [done|].
  rewrite string_length_S in Hr. cbn [Stdlib.Strings.String.length] in Hf. destruct rest as [|e rest]; [by destruct (script_byte index c)|].
  destruct (script_byte index c) as [d index']. f_equal. pose proof (len_nonneg rest). rewrite string_length_S in Hr. rewrite (proj2 (Z.leb_gt _ _)) by lia.
  apply IH; [done|lia|rewrite string_length_S; lia].
Qed.

Lemma unescape_plain fuel : ∀ enc, string_forallb (λ c, negb (byte c =? 64)) enc = true → unescape fuel enc = enc.
Proof.
  induction fuel as [|fuel IH]; intros [|c [|e rest]] H; try done. cbn [string_forallb] in H. apply andb_true_iff in H as [Hc H].
  cbn [unescape]. destruct (byte c =? 64); [done|]. f_equal. apply IH. done.
Qed.

(** A body without escapes is decoded as the comment says. *)
Lemma decodeScript_plain enc : string_forallb (λ c, negb (byte c =? 64)) enc = true → len enc <= maxDecodedScript → decodeScript enc = two_passes enc.
Proof. intros H Hl. unfold decodeScript, two_passes. rewrite decode_plain by done. by rewrite unescape_plain. Qed.

(** After an escape the two differ: a replaced escape is a byte below 128, so
    the documented passes count it, and the code does not. *)
Definition two_lines : string := "\ko@&$K6".
Lemma escape_shifts_the_table : decodeScript two_lines = "Msg" +:+ string_of_bytes [10] +:+ "Box" ∧ decodeScript two_lines ≠ two_passes two_lines.
Proof. split; vm_compute; done. Qed.
