(* ===== verification/ArchiveState.v ===== *)
(** * The state of an extraction

    What the extractors read and write besides the bytes they are given:
    [Result], the budget they share, the clock and the worker pool, and the
    libraries of the container formats, whose readers are the bytes they deliver
    and how they end. *)

From Stdlib Require Import ZArith Lia.
From Stdlib Require Ascii String.
From stdpp Require Import base strings list numbers.
From S2P Require Import Prelude GoStd GoText Base64 GoRegexp DecodeRuns ScanVerdict Retained DecodeFold DecodeWalk RarSolid Sniff Cab.

Local Open Scope Z_scope.
Local Open Scope mailstrix_scope.

(** ** Libraries *)

(** An error: its text, and whether it wraps [errLZMADictCap]. *)
Record lib_error := { e_text : string; e_dictCap : bool }.

(** A call into a decoder: it returns, fails or panics. *)
Inductive lib (A : Type) := LOk (a : A) | LErr (e : lib_error) | LPanic.
Arguments LOk {A} _.
Arguments LErr {A} _.
Arguments LPanic {A}.

Inductive read_end := REof | RFail (e : lib_error) | RPanic.
Record reading := { rd_bytes : string; rd_end : read_end }.

Record ZipFile := { zf_Name : string; zf_Encrypted : bool; zf_IsDir : bool; zf_UncompressedSize64 : Z; zf_Extra : string; zf_Open : option reading }.
Record TarMember := { th_regular : bool; th_Size : Z; th_body : reading }.
Record SevenFile := { sf_IsDir : bool; sf_UncompressedSize : Z; sf_Open : lib reading }.
Record RarHeader := { rh_IsDir : bool; rh_Solid : bool; rh_Encrypted : bool; rh_HeaderEncrypted : bool; rh_UnPackedSize : Z }.
(** The headers [Next] delivers, each with its member's bytes, and what the
    last call returns. *)
Record RarReader := { rr_entries : list (RarHeader * reading); rr_end : read_end }.
Record YekaFile := { yf_IsEncrypted : bool; yf_Open : string → lib reading }.
Definition MailHeader : Type := string → string.

Class ArchiveLibs := {
  zip_NewReader : string → option (list ZipFile);
  gzip_NewReader : string → option reading;
  tar_members : string → list TarMember;
  sevenzip_NewReader : string → option string → lib (list SevenFile);
  rardecode_NewReader : string → option string → lib RarReader;
  yekazip_NewReader : string → lib (list YekaFile);
  mail_ReadMessage : string → option (MailHeader * reading);
  multipart_parts : reading → string → list (MailHeader * reading);
  base64_NewDecoder : reading → reading;
  quotedprintable_NewReader : reading → reading
}.

(** ** State *)

(** The part of [Result] and of [archiveBudget] the walk writes, with
    [plainDropped] and the number of times the outside world was asked. *)
Record AState := mkAState {
  a_res : Result; a_archive : bool; a_mime : bool; a_script : bool; a_doc : bool; a_lnk : bool; a_onenote : bool; a_tnef : bool; a_encrypted : bool; a_decrypted : bool; a_panicked : bool; a_failed : bool;
  a_attachments : list string; a_members : Z; a_total : Z; a_attempts : Z; a_kdf : Z; a_stalled : bool; a_dropped : Z; a_tick : Z }.

(** [None] is a panic on its way up. *)
Definition M (A : Type) : Type := AState → option A * AState.
Definition ret {A} (a : A) : M A := λ s, (Some a, s).
Definition bind {A B} (m : M A) (k : A → M B) : M B := λ s, match m s with (Some a, s) => k a s | (None, s) => (None, s) end.
Definition panic {A} : M A := λ s, (None, s).
Definition modify (f : AState → AState) : M unit := λ s, (Some tt, f s).
Definition gets {A} (f : AState → A) : M A := λ s, (Some (f s), s).
Definition lift {A} (o : option A) : M A := match o with Some a => ret a | None => panic end.
(** [defer func() { if recover() != nil { res.Panicked = true } }()] *)
Definition recovered (m : M unit) : M unit :=
  λ s, match m s with (None, s) => (Some tt, {| s with a_panicked := true |}) | r => r end.

Declare Scope archive_scope.
Delimit Scope archive_scope with archive.
Notation "x <- m ;; k" := (bind m (λ x, k)) (at level 100, m at next level, right associativity) : archive_scope.
Notation "m ;; k" := (bind m (λ _, k)) (at level 100, right associativity) : archive_scope.
Local Open Scope archive_scope.

Definition maxArchiveDepth : Z := 6.
Definition maxNestDepth : Z := maxArchiveDepth.
Definition maxTotalArchive : Z := 134217728.
Definition maxZipEntries : Z := 4096.
Definition maxBytesPerBin : Z := 8388608.
Definition maxDecryptAttempts : Z := 256.
Definition maxKDFDecryptAttempts : Z := 16.
Definition maxMIMEParts : Z := 256.
Definition decoderUnavailableKind : string := "decoder-unavailable".
Definition rarSolidKind : string := "rar-solid".
Definition mimeHeaderCapHitKind : string := "mime-header".

Definition spent (s : AState) : bool := (maxArchiveMembers <=? a_members s) || (maxTotalArchive <=? a_total s).
Definition streams (s : AState) : Z := Z.of_nat (length (r_streams (a_res s))).
Definition full (s : AState) : bool := maxStreams <=? streams s.
Definition kdfExhausted (s : AState) : bool := maxKDFDecryptAttempts <=? a_kdf s.
Definition decryptExhausted (s : AState) : bool := a_stalled s || (maxDecryptAttempts <=? a_attempts s).

Definition on_res (f : Result → Result) : M unit := modify (λ s, {| s with a_res := f (a_res s) |}).
Definition stopHit (kind : string) : M unit := on_res (capHit kind).
Definition archiveCapHit : M unit :=
  λ s, if full s then stopHit "streams" s else if spent s then stopHit "archive-budget" s else (Some tt, s).
Definition set_archive : M unit := modify (λ s, {| s with a_archive := true |}).
Definition count_member (n : Z) : M unit := modify (λ s, {| s with a_members := a_members s + 1; a_total := a_total s + n |}).
Definition countAttempt (kdf : bool) : M unit :=
  modify (λ s, {| s with a_attempts := a_attempts s + 1; a_kdf := if kdf then a_kdf s + 1 else a_kdf s |}).
Definition markDecryptStalled : M unit := modify (λ s, {| s with a_stalled := true |}).

Definition emit_mark (text : string) : M unit := on_res (λ r, (emit_marker false text r).2).
Definition markEncryptedArchive : M unit :=
  λ s, if a_encrypted s then (Some tt, s) else emit_mark "ARCHIVE-ENCRYPTED" {| s with a_encrypted := true |}.
Definition markDecryptedArchive : M unit :=
  λ s, if a_decrypted s then (Some tt, s) else emit_mark "ARCHIVE-DECRYPTED" {| s with a_decrypted := true |}.

(** [appendStreamOwned] of a fresh buffer, and [appendStream] of one. *)
Definition append_text (own : bool) (data : string) : M bool :=
  λ s, let '(p, r) := allocate data (a_res s) in
       let '(ok, r) := append_stream own p r in (Some ok, {| s with a_res := r |}).

(** Inputs of one request: the clock, the worker pool, and the options a
    child inherits. *)
Inductive WorkerOutcome := Ran | Stalled | Refused.
Record ChildOpts := { ArchivePWEnabled : bool; PWCandidates : list string }.
Class RequestEnv := { late : Z → bool; worker : Z → WorkerOutcome; childOpts : option ChildOpts }.

Section Clock.
Context {W : RequestEnv}.

Definition next_tick (s : AState) : AState := {| s with a_tick := a_tick s + 1 |}.
Definition expired : M bool := λ s, (Some (late (a_tick s)), next_tick s).

Definition pwCandidates : list string :=
  match childOpts with Some o => if ArchivePWEnabled o then PWCandidates o else [] | None => [] end.

(** [b.spent() || len(res.Streams) >= maxStreams || expired(deadline)] *)
Definition exhausted : M bool := λ s, if spent s || full s then (Some true, s) else expired s.

(** The same, the clock being asked before the stream count. *)
Definition exhausted_late : M bool := λ s, if spent s then (Some true, s) else (Some (late (a_tick s) || full s), next_tick s).

(** [b.spent() || expired(deadline)] *)
Definition spent_or_late : M bool := λ s, if spent s then (Some true, s) else expired s.

End Clock.

(** [append_text] for each of a list. *)
Fixpoint append_texts (own : bool) (l : list string) : M unit :=
  match l with [] => ret tt | t :: l => _ <- append_text own t;; append_texts own l end.

(** [formatCapReached]: the caps of one extractor, then the stream ceiling. *)
Definition formatCapReached (emitted maxEmitted total maxTotal : Z) (kind : string) : M bool :=
  if (maxEmitted <=? emitted) || (maxTotal <=? total) then stopHit kind;; ret true
  else f <- gets full;; if f : bool then stopHit "streams";; ret true else ret false.
