(* ===== verification/Carriers.v ===== *)
(** * Shell links, OneNote, TNEF and formula injection

    The extractors of lnk.go, onenote.go, tnef.go and csv_dde.go, over the
    state of an extraction. *)

From Stdlib Require Import ZArith Lia.
From Stdlib Require Ascii String.
From stdpp Require Import base strings list numbers.
From S2P Require Import Prelude GoStd GoText Base64 GoRegexp DecodeRuns ScanVerdict Retained DecodeFold DecodeWalk RarSolid Sniff Cab Batch ArchiveState.

Local Open Scope Z_scope.
Local Open Scope mailstrix_scope.
Local Open Scope archive_scope.

Definition set_doc : M unit := modify (λ s, {| s with a_doc := true |}).
Definition set_lnk : M unit := modify (λ s, {| s with a_lnk := true |}).
Definition set_onenote : M unit := modify (λ s, {| s with a_onenote := true |}).
Definition set_tnef : M unit := modify (λ s, {| s with a_tnef := true |}).

(** ** Shell links *)

Definition lnkHeaderSize : Z := 76.
Definition lnkFlagsOff : Z := 20.
Definition lnkHasLinkTargetIDList : Z := 1.
Definition lnkHasLinkInfo : Z := 2.
Definition lnkHasName : Z := 4.
Definition lnkHasRelativePath : Z := 8.
Definition lnkHasWorkingDir : Z := 16.
Definition lnkHasArguments : Z := 32.
Definition lnkHasIconLocation : Z := 64.
Definition lnkIsUnicode : Z := 128.
Definition maxLNKStringChars : Z := 65536.
Definition has (flags bit : Z) : bool := negb (Z.land flags bit =? 0).

(** One block: its text and the offset past it.  The outer [None] is an index
    out of range, the inner one a block that does not fit. *)
Definition readLNKString (buf : string) (off : Z) (unicode : bool) : option (option (string * Z)) :=
  if len buf <? off + 2 then Some None
  else
    count ← u16_at off buf;
    let off := off + 2 in
    if maxLNKStringChars <? count then Some None
    else if count =? 0 then Some (Some ("", off))
    else
      let nbytes := if unicode then count * 2 else count in
      if len buf <? off + nbytes then Some None
      else s ← checked off (off + nbytes) buf; Some (Some (if unicode then runes_string (utf16_Decode (utf16_units false s)) else s, off + nbytes)).

Fixpoint lnk_strings (bits : list Z) (flags : Z) (buf : string) (p : Z) : option (list string) :=
  match bits with
  | [] => Some []
  | bit :: bits =>
      if negb (has flags bit) then lnk_strings bits flags buf p
      else
        x ← readLNKString buf p (has flags lnkIsUnicode);
        match x with
        | None => Some []
        | Some (s, p) => l ← lnk_strings bits flags buf p; Some (s :: l)
        end
  end.

Definition lnk_order : list Z := [lnkHasName; lnkHasRelativePath; lnkHasWorkingDir; lnkHasArguments; lnkHasIconLocation].

(** Past the two sections that are skipped. *)
Definition lnk_skip_ids (flags : Z) (buf : string) (p : Z) : option (option Z) :=
  if negb (has flags lnkHasLinkTargetIDList) then Some (Some p)
  else if len buf <? p + 2 then Some None
  else n ← u16_at p buf; let p := p + 2 + n in Some (if len buf <? p then None else Some p).
Definition lnk_skip_info (flags : Z) (buf : string) (p : Z) : option (option Z) :=
  if negb (has flags lnkHasLinkInfo) then Some (Some p)
  else if len buf <? p + 4 then Some None
  else n ← u32_at p buf; Some (if (n <? 4) || (len buf - p <? n) then None else Some (p + n)).

Definition lnk_parse (buf : string) : option (list string) :=
  if len buf <? lnkHeaderSize then Some []
  else
    flags ← u32_at lnkFlagsOff buf;
    x ← lnk_skip_ids flags buf lnkHeaderSize;
    match x with
    | None => Some []
    | Some p =>
        y ← lnk_skip_info flags buf p;
        match y with None => Some [] | Some p => lnk_strings lnk_order flags buf p end
    end.

Fixpoint lnk_emit (l : list string) : M unit :=
  match l with
  | [] => ret tt
  | s :: l =>
      if len s =? 0 then lnk_emit l
      else _ <- append_text true s;; f <- gets full;; if f : bool then ret tt else lnk_emit l
  end.

(** The blocks do not depend on what was published so far. *)
Definition fromLNK (buf : string) : M unit := set_lnk;; l <- lift (lnk_parse buf);; lnk_emit l.

(** ** OneNote *)

Definition oneFDSOHeaderGUID : string := string_of_bytes [231; 22; 227; 189; 101; 38; 17; 69; 164; 196; 141; 77; 11; 122; 158; 172].
Definition oneFDSODataOffset : Z := 36.
Definition maxONEFiles : Z := 128.
Definition maxBytesPerONEFile : Z := 16777216.
Definition maxTotalONE : Z := 67108864.

Definition u64_at (off : Z) (s : string) : option Z := lo ← u32_at off s; hi ← u32_at (off + 4) s; Some (lo + 2 ^ 32 * hi).

Section Formats.
Context {W : RequestEnv}.

(** A carved buffer: a stream, and a child when the budget lasts. *)
Definition carve_child (next : string → M unit) (b : string) : M unit :=
  admitted <- append_text false b;;
  over <- gets spent;;
  if admitted && negb over then count_member (len b);; next b else ret tt.

Fixpoint onenote_loop (fuel : nat) (next : string → M unit) (rest : string) (total emitted : Z) : M unit :=
  match fuel with
  | O => ret tt
  | Datatypes.S fuel =>
      e <- expired;;
      if e : bool then ret tt
      else
        match Index rest oneFDSOHeaderGUID with
        | None => ret tt
        | Some i =>
            let hdr := from i rest in
            if len hdr <? oneFDSODataOffset then ret tt
            else
              cb <- lift (u64_at 16 hdr);;
              let data := from oneFDSODataOffset hdr in
              let n := Z.min (Z.min cb maxBytesPerONEFile) (len data) in
              let rest := from (oneFDSODataOffset + n) hdr in
              if 0 <? n then
                stop <- formatCapReached emitted maxONEFiles total maxTotalONE "onenote-files";;
                if stop : bool then ret tt
                else carve_child next (upto n data);; onenote_loop fuel next rest (total + n) (emitted + 1)
              else onenote_loop fuel next rest total emitted
        end
  end.

(** Each object takes the bytes of its header at least. *)
Definition fromOneNote (next : string → M unit) (buf : string) : M unit :=
  recovered (set_onenote;; onenote_loop (Datatypes.S (String.length buf)) next buf 0 0).

(** ** TNEF *)

Definition maxTNEFParts : Z := 64.
Definition maxBytesPerTNEFPart : Z := 16777216.
Definition maxTotalTNEF : Z := 67108864.

(** [tnef.Decode]: the attachments, a nil one being [None], and the two
    bodies; [None] when there is an error or no data. *)
Record TnefData := { tn_Attachments : list (option string); tn_BodyHTML : string; tn_Body : string }.
Class TnefLib := { tnef_Decode : string → lib (option TnefData) }.

(** One part; the bytes emitted so far. *)
Definition tnef_emit (next : string → M unit) (b : string) (total : Z) : M Z :=
  if len b =? 0 then ret total
  else if maxTotalTNEF <=? total then stopHit "tnef-parts";; ret total
  else
    f <- gets full;;
    if f : bool then stopHit "streams";; ret total
    else
      e <- expired;;
      if e : bool then ret total
      else
        (if maxBytesPerTNEFPart <? len b then stopHit "tnef-parts" else ret tt);;
        let s := clamp maxBytesPerTNEFPart b in
        carve_child next s;; ret (total + len s).

Fixpoint tnef_parts (next : string → M unit) (l : list (option string)) (parts total : Z) : M Z :=
  match l with
  | [] | None :: _ => ret total
  | Some a :: l =>
      if maxTNEFParts <=? parts then stopHit "tnef-parts";; ret total
      else total <- tnef_emit next a total;; tnef_parts next l (parts + 1) total
  end.

Definition fromTNEF {N : TnefLib} (next : string → M unit) (buf : string) : M unit :=
  recovered
    (set_tnef;;
     match tnef_Decode buf with
     | LPanic => panic
     | LErr _ | LOk None => ret tt
     | LOk (Some d) =>
         total <- tnef_parts next (tn_Attachments d) 0 0;;
         total <- tnef_emit next (tn_BodyHTML d) total;;
         _ <- tnef_emit next (tn_Body d) total;; ret tt
     end).

(** ** Formula injection *)

Definition maxCSVLines : Z := 65536.
Definition maxCSVLineLen : Z := 65536.
Definition maxCSVCellsPerLine : Z := 4096.
Definition maxCSVDDEMarkers : Z := 64.
Definition maxCSVDDECell : Z := 4096.
Definition csvDDEPrefix : string := "CSV-DDE ".

(** Excel takes what starts with one of these for a formula. *)
Definition formulaTriggers (c : Ascii.ascii) : bool := mem (byte c) [61; 43; 45; 64].
Definition squote : Ascii.ascii := ascii_of_Z 39.

(** The characters after the trigger: the open quote, whether this is the
    first of them, whether a bare bar was seen. *)
Fixpoint dde_scan (q : option Ascii.ascii) (first bar : bool) (s : string) : bool :=
  match s with
  | EmptyString => false
  | String c s =>
      match q with
      | Some d => dde_scan (if Ascii.eqb c d then None else q) false bar s
      | None =>
          if Ascii.eqb c squote || Ascii.eqb c dquote then dde_scan (Some c) false bar s
          else if byte c =? 124 then dde_scan None false (bar || negb first) s
          else if (byte c =? 33) && bar then true
          else dde_scan None false bar s
      end
  end.
Definition isFormulaInjectionDDE (c : string) : bool :=
  match c with EmptyString => false | String t s => formulaTriggers t && dde_scan None true false s end.

Definition last_byte (s : string) : option Ascii.ascii := match string_rev "" s with String c _ => Some c | EmptyString => None end.

Definition normCSVCell (cell : string) : string :=
  let c := TrimSpace cell in
  if (2 <=? len c) && HasPrefix c (String dquote "") && bool_decide (last_byte c = Some dquote)
  then TrimSpace (ReplaceAll (slice 1 (len c - 1) c) (String dquote (String dquote "")) (String dquote ""))
  else c.

Definition emitIfCSVDDE (cell : string) : M unit :=
  let c := normCSVCell cell in
  if isFormulaInjectionDDE c then _ <- append_text false (csvDDEPrefix +:+ clamp maxCSVDDECell c);; ret tt else ret tt.

Definition countCSVDDE (s : AState) : Z := Z.of_nat (length (filter (λ b, HasPrefix (s_text b) csvDDEPrefix = true) (r_streams (a_res s)))).

(** The text before the next delimiter outside double quotes, and after it. *)
Fixpoint next_cell (delim : Ascii.ascii) (inQuote : bool) (line : string) : option (string * string) :=
  match line with
  | EmptyString => None
  | String c s =>
      let go q s := '(a, b) ← next_cell delim q s; Some (String c a, b) in
      if Ascii.eqb c dquote then
        match s with
        | String d s' =>
            if inQuote && Ascii.eqb d dquote then '(a, b) ← next_cell delim inQuote s'; Some (String c (String d a), b)
            else go (negb inQuote) s
        | EmptyString => None
        end
      else if Ascii.eqb c delim && negb inQuote then Some ("", s) else go inQuote s
  end.

Definition csv_delim (line : string) : Ascii.ascii :=
  if negb (bool_decide (is_Some (IndexByte line 44))) && bool_decide (is_Some (IndexByte line 9)) then ascii_of_Z 9 else ascii_of_Z 44.

(** At most [maxCSVCellsPerLine] cells. *)
Fixpoint scan_cells (fuel : nat) (delim : Ascii.ascii) (line : string) (cellDDE : Z) : M unit :=
  match fuel with
  | O => ret tt
  | Datatypes.S fuel =>
      if (len line =? 0) || (maxCSVDDEMarkers <=? cellDDE) then ret tt
      else
        stop <- gets full;;
        e <- (if stop : bool then ret true else expired);;
        if e : bool then ret tt
        else
          let '(cell, line) := match next_cell delim false line with Some x => x | None => (line, "") end in
          prior <- gets streams;;
          emitIfCSVDDE cell;;
          now <- gets streams;;
          scan_cells fuel delim line (cellDDE + (now - prior))
  end.
Definition scanCSVLine (line : string) : M unit :=
  n <- gets countCSVDDE;; scan_cells (Z.to_nat maxCSVCellsPerLine) (csv_delim line) line n.

(** The lines of the file, each what precedes a line feed. *)
Fixpoint csv_lines (l : list string) (lines csvDDE : Z) : M unit :=
  match l with
  | [] => ret tt
  | raw :: l =>
      if (maxCSVLines <=? lines) || (maxCSVDDEMarkers <=? csvDDE) then ret tt
      else
        stop <- gets full;;
        e <- (if stop : bool then ret true else expired);;
        if e : bool then ret tt
        else
          let line := trim_right [cr] raw in
          if len line =? 0 then csv_lines l (lines + 1) csvDDE
          else
            prior <- gets streams;;
            scanCSVLine (clamp maxCSVLineLen line);;
            now <- gets streams;;
            csv_lines l (lines + 1) (csvDDE + (now - prior))
  end.

Definition fromCSVDDE (buf : string) : M unit :=
  e <- expired;;
  if e : bool then ret tt
  else
    let buf := TrimPrefix buf utf8BOM in
    if bool_decide (IndexByte buf 124 = None) || bool_decide (IndexByte buf 33 = None) then ret tt
    else n <- gets countCSVDDE;; csv_lines (batch_lines buf) 0 n.

(** *** SpreadsheetML *)

Definition maxBytesPerDocXML : Z := 4194304.
Definition ssFormulaAttr : string := "Formula".
Definition ssDataOpen : string := "<Data".

Definition skip_ws (s : string) : string := skip_blank s.
Definition skipToFormulaValue (b : string) : option string :=
  match skip_ws b with String c s => if byte c =? 61 then Some (skip_ws s) else None | EmptyString => None end.

(** The pairs of [unescapeXMLText]; no key starts another. *)
Definition xml_entities : list (string * string) :=
  [("&#61;", "="); ("&#x3D;", "="); ("&#x3d;", "="); ("&#124;", "|"); ("&#x7C;", "|"); ("&#x7c;", "|"); ("&#33;", "!"); ("&#x21;", "!");
   ("&#43;", "+"); ("&#64;", "@"); ("&#45;", "-"); ("&lt;", "<"); ("&gt;", ">"); ("&quot;", String dquote ""); ("&apos;", String squote ""); ("&amp;", "&")].
(** [strings.Replacer]: at each byte the first pair that matches. *)
Fixpoint replace_pairs (fuel : nat) (pairs : list (string * string)) (s : string) : string :=
  match fuel, s with
  | O, _ | _, EmptyString => s
  | Datatypes.S fuel, String c s' =>
      match head (omap (λ p : string * string, rest ← strip_prefix p.1 s; Some (p.2, rest)) pairs) with
      | Some (new, rest) => new +:+ replace_pairs fuel pairs rest
      | None => String c (replace_pairs fuel pairs s')
      end
  end.
Definition unescapeXMLText (s : string) : string := replace_pairs (String.length s) xml_entities s.

Definition attrValue (b : string) : string :=
  match b with
  | String q s => if Ascii.eqb q dquote || Ascii.eqb q squote then match cut_byte q s with Some (v, _) => unescapeXMLText v | None => "" end else ""
  | EmptyString => ""
  end.

(** The guard of both loops. *)
Definition ss_stop (csvDDE : Z) : M bool :=
  if maxCSVDDEMarkers <=? csvDDE then ret true else stop <- gets full;; if stop : bool then ret true else expired.

(** The formula attributes: [None] when the extractor returned. *)
Fixpoint ss_formulas (fuel : nat) (rest : string) (csvDDE : Z) : M (option Z) :=
  match fuel with
  | O => ret None
  | Datatypes.S fuel =>
      stop <- ss_stop csvDDE;;
      if stop : bool then ret None
      else
        match Index rest ssFormulaAttr with
        | None => ret (Some csvDDE)
        | Some i =>
            let rest := from (i + len ssFormulaAttr) rest in
            match skipToFormulaValue rest with
            | None => ss_formulas fuel rest csvDDE
            | Some v =>
                prior <- gets streams;; emitIfCSVDDE (attrValue v);; now <- gets streams;;
                ss_formulas fuel rest (csvDDE + (now - prior))
            end
        end
  end.

(** The cell texts. *)
Fixpoint ss_cells (fuel : nat) (rest : string) (csvDDE : Z) : M unit :=
  match fuel with
  | O => ret tt
  | Datatypes.S fuel =>
      stop <- ss_stop csvDDE;;
      if stop : bool then ret tt
      else
        match Index rest ssDataOpen with
        | None => ret tt
        | Some i =>
            match cut_byte (ascii_of_Z 62) (from (i + len ssDataOpen) rest) with
            | None => ret tt
            | Some (_, body) =>
                let text := match cut_byte (ascii_of_Z 60) body with Some (t, _) => t | None => body end in
                prior <- gets streams;; emitIfCSVDDE (unescapeXMLText text);; now <- gets streams;;
                ss_cells fuel body (csvDDE + (now - prior))
            end
        end
  end.

(** A round takes the bytes of what it found. *)
Definition fromSpreadsheetML (buf : string) : M unit :=
  set_doc;;
  e <- expired;;
  if e : bool then ret tt
  else
    let buf := clamp maxBytesPerDocXML buf in
    n <- gets countCSVDDE;;
    x <- ss_formulas (Datatypes.S (String.length buf)) buf n;;
    match x with None => ret tt | Some n => ss_cells (Datatypes.S (String.length buf)) buf n end.

End Formats.
