(* ===== verification/Archive.v ===== *)
(** * Archives and messages inside each other

    The walk through nested carriers: archive.go, archivepw.go, nested.go,
    cab.go, the part walk of mime.go and the worker calls of archiveworker.go. *)

From Stdlib Require Import ZArith Lia.
From Stdlib Require Ascii String.
From stdpp Require Import base strings list numbers.
From S2P Require Import Prelude GoStd GoText Base64 GoRegexp DecodeRuns ScanVerdict Retained DecodeFold DecodeWalk RarSolid Sniff Cab Batch Screnc ArchiveState Carriers.

Local Open Scope Z_scope.
Local Open Scope mailstrix_scope.
Local Open Scope archive_scope.

(** The extractors of the formats that are not archives.  One that carves
    children hands each to its first argument. *)
Class Extractors := {
  fromOOXMLParts : list ZipFile → M unit;
  fromOLE : (string → M unit) → string → Z → M unit;
  fromPDF : string → M unit;
  fromRTF : (string → M unit) → string → Z → M unit;
  fromSLK : string → M unit;
  fromHTMLSmuggling : (string → M unit) → string → Z → M unit;
  fromLauncherFields : string → M unit;
  msixManifestFields : string → Z → M (list string)
}.

Section Walk.
Context {T : TextEnv} {MT : MediaTypes} {F : Inflate} {L : ArchiveLibs} {W : RequestEnv} {N : TnefLib} {X : Extractors}.

(** ** Reading a member *)

(** The bytes, [None] when there are none because of an error, and whether
    the member goes on past the cap. *)
Definition readMemberTrunc (r : reading) : option (option string * bool) :=
  let data := clamp maxBytesPerMember (rd_bytes r) in
  if len (rd_bytes r) <? maxBytesPerMember then
    match rd_end r with
    | RPanic => None
    | REof => Some (Some data, false)
    | RFail _ => Some (if len data =? 0 then None else Some data, false)
    end
  else if maxBytesPerMember <? len (rd_bytes r) then Some (Some data, true)
  else match rd_end r with RPanic => None | _ => Some (Some data, false) end.

Definition readMemberRes (r : reading) : M (option string) :=
  x <- lift (readMemberTrunc r);;
  let '(data, truncated) := x in
  (if truncated : bool then stopHit "member-size" else ret tt);; ret data.

Definition readZipEntry (f : ZipFile) : M (option string) :=
  match zf_Open f with
  | None => ret None
  | Some r =>
      let data := clamp maxBytesPerBin (rd_bytes r) in
      if len (rd_bytes r) <? maxBytesPerBin then
        match rd_end r with
        | RPanic => panic
        | REof => ret (Some data)
        | RFail _ => ret (if len data =? 0 then None else Some data)
        end
      else ret (Some data)
  end.

(** ** Decoders on a worker

    A decoder that panics delivers [None]. *)

(** [runBoundedRan]: the value, whether it ran, whether it was abandoned. *)
Definition runBoundedRan {A} (fn : option A) : M (option A * bool * bool) :=
  λ s, (Some (match worker (a_tick s) with Ran => (fn, true, false) | Stalled => (None, true, true) | Refused => (None, false, false) end), next_tick s).

(** [runBounded]: [None] is the zero value. *)
Definition runBounded {A} (fn : option A) : M (option A * bool) :=
  x <- runBoundedRan fn;; let '(v, _, stalled) := x in ret (v, stalled).

(** [runBoundedPlain] under [runPlainDecoder]: [None] is a decoder that did
    not complete. *)
Definition runPlainDecoder {A} (fn : option A) : M (option A) :=
  x <- runBoundedRan fn;;
  let '(v, ran, stalled) := x in
  (if negb ran || stalled then modify (λ s, {| s with a_dropped := a_dropped s + 1 |}) else ret tt);;
  match v with
  | Some v => ret (Some v)
  | None => e <- expired;; (if e : bool then ret tt else stopHit decoderUnavailableKind);; ret None
  end.

(** ** Passwords *)

(** A member read with a password, its error being all that a wrong one
    shows: [None] is a failed attempt. *)
Definition openYekaMember (r : reading) : option (string * bool) :=
  let data := clamp maxBytesPerMember (rd_bytes r) in
  if len (rd_bytes r) <? maxBytesPerMember then
    match rd_end r with REof => if len data =? 0 then None else Some (data, false) | _ => None end
  else if maxBytesPerMember <? len (rd_bytes r) then Some (data, true)
  else match rd_end r with REof => Some (data, false) | RFail _ => Some (data, true) | RPanic => None end.

Definition openYekaMemberFresh (buf : string) (idx : nat) (pw : string) : option (string * bool) :=
  match yekazip_NewReader buf with
  | LOk files =>
      match files !! idx with
      | Some f => if yf_IsEncrypted f then match yf_Open f pw with LOk r => openYekaMember r | _ => None end else None
      | None => None
      end
  | _ => None
  end.

(** The extra records of a member: a well-formed AE-x record. *)
Fixpoint aes_extra (fuel : nat) (extra : string) : option bool :=
  match fuel with
  | O => Some false
  | Datatypes.S fuel =>
      if len extra <? 4 then Some false
      else
        id ← u16_at 0 extra; size ← u16_at 2 extra;
        if len extra <? 4 + size then Some false
        else
          d ← checked 4 (4 + size) extra;
          rest ← checked (4 + size) (len extra) extra;
          if (id =? 39169) && (size =? 7) then
            d0 ← byte_at 0 d; d2 ← byte_at 2 d; d3 ← byte_at 3 d; d4 ← byte_at 4 d;
            if ((d0 =? 1) || (d0 =? 2)) && (d2 =? 65) && (d3 =? 69) && (1 <=? d4) && (d4 <=? 3) then Some true
            else aes_extra fuel rest
          else aes_extra fuel rest
  end.
Definition hasAESExtra (extra : string) : option bool := aes_extra (Datatypes.S (String.length extra)) extra.

(** The candidates in turn: each asks the clock and the caps, is counted and
    runs on a worker; a stall ends decryption for the whole input. *)
Fixpoint try_candidates {A} (kdf : bool) (attempt : string → option A) (cands : list string) : M (option (string * A)) :=
  match cands with
  | [] => ret None
  | pw :: cands =>
      e <- expired;;
      stop <- gets (λ s, e || decryptExhausted s || (kdf && kdfExhausted s));;
      if stop : bool then ret None
      else
        countAttempt kdf;;
        x <- runBounded (attempt pw);;
        let '(v, stalled) := x in
        if stalled : bool then markDecryptStalled;; ret None
        else match v with Some a => ret (Some (pw, a)) | None => try_candidates kdf attempt cands end
  end.

Definition decryptMember (buf : string) (idx : nat) (kdf : bool) (declared : Z) : M (option (string * bool)) :=
  if maxBytesPerMember <? declared then ret None
  else x <- try_candidates kdf (openYekaMemberFresh buf idx) pwCandidates;; ret (snd <$> x).

Definition is_dictCap (e : lib_error) : bool := e_dictCap e.

(** [verify7zPassword]: the two results, [None] when both are false. *)
Inductive verified := Cracked | DictRefused.
Definition verify_read (f : SevenFile) : option verified :=
  if maxBytesPerMember <? sf_UncompressedSize f then None
  else
    match sf_Open f with
    | LErr e => if is_dictCap e then Some DictRefused else None
    | LPanic => None
    | LOk r =>
        if maxBytesPerMember <? len (rd_bytes r) then None
        else match rd_end r with REof => Some Cracked | RFail e => if is_dictCap e then Some DictRefused else None | RPanic => None end
    end.
Definition verify7zPassword (buf : string) (targetIdx : option nat) (pw : string) : option verified :=
  match sevenzip_NewReader buf (Some pw) with
  | LErr e => if is_dictCap e then Some DictRefused else None
  | LPanic => None
  | LOk files =>
      let any := f ← head (filter (λ f, negb (sf_IsDir f) && (sf_UncompressedSize f <=? maxBytesPerMember) = true) files); verify_read f in
      match targetIdx with
      | Some i => match files !! i with Some f => if sf_IsDir f then None else verify_read f | None => any end
      | None => any
      end
  end.

(** The password, empty when there is none, and whether the dictionary cap
    refused the archive. *)
Definition crack7zPassword (buf : string) (targetIdx : option nat) : M (string * bool) :=
  x <- try_candidates true (verify7zPassword buf targetIdx) pwCandidates;;
  ret (match x with Some (pw, Cracked) => (pw, false) | Some (_, DictRefused) => ("", true) | None => ("", false) end).

Definition open7zReader (buf pw : string) : option (list SevenFile) * bool :=
  match sevenzip_NewReader buf (Some pw) with LOk files => (Some files, false) | LErr e => (None, is_dictCap e) | LPanic => (None, false) end.

(** The first encrypted member a password can be checked on. *)
Fixpoint verify_rar (entries : list (RarHeader * reading)) : bool :=
  match entries with
  | [] => false
  | (h, r) :: entries =>
      if rh_IsDir h then verify_rar entries
      else if rh_Solid h then false
      else if negb (rh_Encrypted h) && negb (rh_HeaderEncrypted h) then verify_rar entries
      else if maxBytesPerMember <? rh_UnPackedSize h then verify_rar entries
      else if maxBytesPerMember <? len (rd_bytes r) then verify_rar entries
      else match rd_end r with REof => true | _ => false end
  end.
Definition verifyRarPassword (buf pw : string) : option unit :=
  match rardecode_NewReader buf (Some pw) with LOk rr => if verify_rar (rr_entries rr) then Some tt else None | _ => None end.
Definition crackRarPassword (buf : string) : M string :=
  x <- try_candidates true (verifyRarPassword buf) pwCandidates;; ret (default "" (fst <$> x)).
Definition openRarReader (buf pw : string) : option RarReader :=
  match rardecode_NewReader buf (Some pw) with LOk rr => Some rr | _ => None end.

Definition isEncryptedErr (e : lib_error) : bool := let t := ToLower (e_text e) in contains "password" t || contains "decrypt" t.

(** ** Members *)

(** [extractChild] one level deeper. *)
Definition Next : Type := string → M unit.
(** [extractChild] at any depth. *)
Definition Child : Type := Z → string → M unit.

Definition emitMember (next : Next) (data : string) : M unit :=
  recovered
    (if len data <? minMemberBytes then ret tt
     else
       stop <- gets (λ s, spent s || full s);;
       if stop : bool then archiveCapHit
       else
         ok <- append_text true data;;
         if negb ok then ret tt
         else count_member (len data);; set_archive;; next data).

(** A nil slice is shorter than any member. *)
Definition emit_read (next : Next) (data : option string) : M unit := emitMember next (default "" data).

Definition msixManifestName : string := "AppxManifest.xml".

Definition manifest_fields (data : string) : M (list string) := n <- gets (λ s, maxStreams - streams s);; msixManifestFields data n.

Definition emitZipMember (next : Next) (name : string) (data : option string) : M unit :=
  before <- gets a_members;;
  emit_read next data;;
  after <- gets a_members;;
  if bool_decide (name = msixManifestName) && (before <? after) then fields <- manifest_fields (default "" data);; append_texts false fields else ret tt.

(** *** Zip *)

Definition isOfficeClassPart (n : string) : bool :=
  existsb (HasPrefix n) ["word/"; "xl/"; "ppt/"; "visio/"; "customXml/"; "_rels/"; "docProps/"] || mem n ["[Content_Types].xml"; "mimetype"].
Definition isOfficePartName (n : string) : bool := isOfficeClassPart n || HasPrefix n "META-INF/".
Definition isOfficeZipReader (files : list ZipFile) : bool := existsb (λ f, isOfficeClassPart (zf_Name f)) (take (Z.to_nat maxZipEntries) files).

Definition isNestedCarrier (data : string) : M bool :=
  if HasPrefix data zipMagic || isArchive data || HasPrefix data oleMagic || isPDF data || isRTF data || isLNK data || isOneNote data || isTNEF data then ret true
  else pe <- lift (isValidPE data);; ret (pe || HasPrefix data cabMagic).

Definition zipEntryIsCarrier (f : ZipFile) : M bool :=
  match zf_Open f with
  | None => ret false
  | Some r => if (len (rd_bytes r) <? 4096) && match rd_end r with RPanic => true | _ => false end then panic else isNestedCarrier (clamp 4096 (rd_bytes r))
  end.

Definition priorityMemberExts : list string :=
  [".exe"; ".dll"; ".scr"; ".com"; ".pif"; ".cpl"; ".msi"; ".msp"; ".msix"; ".appx"; ".jar"; ".js"; ".jse"; ".vbs"; ".vbe"; ".wsf"; ".wsh";
   ".hta"; ".ps1"; ".psm1"; ".bat"; ".cmd"; ".lnk"; ".url"; ".iso"; ".img"; ".vhd"; ".vhdx"; ".one"; ".docm"; ".dotm"; ".xlsm"; ".xlam"; ".xlsb"; ".xll";
   ".pptm"; ".ppam"; ".doc"; ".xls"; ".ppt"; ".rtf"; ".chm"; ".reg"; ".svg"; ".html"; ".htm"].

(** [path.Ext]: from the last dot of the last path element on. *)
Definition path_Ext (name : string) : string :=
  let base := match cut_last (ascii_of_Z 47) name with Some (_, String _ t) => t | _ => name end in
  match cut_last (ascii_of_Z 46) base with Some (_, ext) => ext | None => "" end.

Definition is_priority (f : ZipFile) : bool := mem (ToLower (path_Ext (zf_Name f))) priorityMemberExts.

(** The entries with their places in the directory, priority members first. *)
Definition zipVisitOrder (files : list ZipFile) : list (nat * ZipFile) :=
  let entries := imap (λ i f, (i, f)) files in
  filter (λ e, is_priority e.2 = true) entries ++ filter (λ e, is_priority e.2 = false) entries.

Definition emitEncrypted (next : Next) (buf : string) (f : ZipFile) (i : nat) : M unit :=
  if (length pwCandidates =? 0)%nat then markEncryptedArchive
  else if maxBytesPerMember <? zf_UncompressedSize64 f then stopHit "member-size";; markEncryptedArchive
  else
    kdf <- lift (hasAESExtra (zf_Extra f));;
    x <- decryptMember buf i kdf (zf_UncompressedSize64 f);;
    match x with
    | None => markEncryptedArchive
    | Some (plain, trunc) =>
        (if trunc : bool then stopHit "member-size" else ret tt);;
        emitZipMember next (zf_Name f) (Some plain);;
        markDecryptedArchive
    end.

Definition ends_in_slash (name : string) : bool := match cut_last (ascii_of_Z 47) name with Some (_, t) => len t =? 1 | None => false end.

Definition zip_member (next : Next) (buf : string) (i : nat) (f : ZipFile) : M unit :=
  if zf_IsDir f || ends_in_slash (zf_Name f) then ret tt
  else if zf_Encrypted f then emitEncrypted next buf f i
  else if maxBytesPerMember <? zf_UncompressedSize64 f then stopHit "member-size"
  else
    match zf_Open f with
    | None => ret tt
    | Some r => data <- readMemberRes r;; emitZipMember next (zf_Name f) data
    end.

Fixpoint zip_loop (next : Next) (buf : string) (n : Z) (entries : list (nat * ZipFile)) : M unit :=
  match entries with
  | [] => ret tt
  | (i, f) :: entries =>
      if maxZipEntries <=? n then stopHit "zip-entries";; archiveCapHit
      else
        stop <- exhausted;;
        if stop : bool then archiveCapHit else zip_member next buf i f;; zip_loop next buf (n + 1) entries
  end.

Definition unpackZipReader (next : Next) (files : list ZipFile) (buf : string) : M unit :=
  set_archive;; zip_loop next buf 0 (zipVisitOrder files).

Definition unpackZip (next : Next) (buf : string) : M unit :=
  match zip_NewReader buf with None => ret tt | Some files => unpackZipReader next files buf end.

(** One sibling of an Office document's parts. *)
Definition carrier_member (next : Next) (f : ZipFile) : M unit :=
  if isOfficePartName (zf_Name f) then ret tt
  else if maxBytesPerBin <? zf_UncompressedSize64 f then c <- zipEntryIsCarrier f;; (if c : bool then stopHit "member-size" else ret tt)
  else
    data <- readZipEntry f;;
    let data := default "" data in
    if len data =? 0 then ret tt
    else
      fields <- (if bool_decide (zf_Name f = msixManifestName) then manifest_fields data else ret []);;
      if negb (length fields =? 0)%nat then count_member (len data);; append_texts false fields
      else
        c <- isNestedCarrier data;;
        if negb c then ret tt
        else ok <- append_text true data;; if negb ok then ret tt else count_member (len data);; next data.

Fixpoint carrier_loop (next : Next) (i : Z) (files : list ZipFile) : M unit :=
  match files with
  | [] => ret tt
  | f :: files =>
      if maxZipEntries <=? i then stopHit "zip-entries";; archiveCapHit
      else
        stop <- exhausted_late;;
        if stop : bool then archiveCapHit else carrier_member next f;; carrier_loop next (i + 1) files
  end.

Definition fromOfficeZipCarriersZip (next : Next) (files : list ZipFile) (depth : Z) : M unit :=
  if maxNestDepth <? depth then (if (0 <? length files)%nat then stopHit "depth" else ret tt)
  else
    stop <- spent_or_late;; if stop : bool then ret tt else carrier_loop next 0 files.

Definition zipMemberWalkOK (buf : string) (depth : Z) : M bool :=
  if negb (HasPrefix buf zipMagic) then ret false
  else if maxArchiveDepth <? depth then stopHit "depth";; ret false
  else stop <- spent_or_late;; ret (negb stop).

(** The classification and the macro path. *)
Definition fromOOXMLZip (files : list ZipFile) : M bool := fromOOXMLParts files;; ret (isOfficeZipReader files).

Definition fromZip (next : Next) (buf : string) (depth : Z) (top : bool) : M unit :=
  match zip_NewReader buf with
  | None => if top then modify (λ s, {| s with a_failed := true |}) else ret tt
  | Some files =>
      let walk := ok <- zipMemberWalkOK buf depth;; if ok : bool then unpackZipReader next files buf else ret tt in
      if negb top && negb (isOfficeZipReader files) then walk
      else office <- fromOOXMLZip files;; if office : bool then fromOfficeZipCarriersZip next files depth else walk
  end.

(** *** Gzip and tar *)

Definition looksLikeTar (data : string) : bool := (262 <=? len data) && HasPrefix (from 257 data) "ustar".

Fixpoint tar_loop (next : Next) (members : list TarMember) : M unit :=
  stop <- exhausted;;
  if stop : bool then archiveCapHit
  else
    match members with
    | [] => ret tt
    | m :: members =>
        (if negb (th_regular m) || (th_Size m =? 0) then ret tt
         else if maxBytesPerMember <? th_Size m then stopHit "member-size"
         else data <- readMemberRes (th_body m);; emit_read next data);;
        tar_loop next members
    end.
Definition unpackTar (next : Next) (buf : string) : M unit := set_archive;; tar_loop next (tar_members buf).

Definition unpackGzip (next : Next) (buf : string) : M unit :=
  match gzip_NewReader buf with
  | None => ret tt
  | Some r =>
      set_archive;;
      data <- readMemberRes r;;
      let data := default "" data in
      if len data =? 0 then ret tt
      else if looksLikeTar data then unpackTar next data
      else emitMember next data
  end.

(** *** 7-Zip *)

(** What a read in a worker brought back: bytes, a failure, or the refusal of
    the dictionary cap.  A panic is [None]. *)
Inductive memberRead := Bytes (data : string) | Unreadable | CapStop.

Definition open7zMemberPlain (f : SevenFile) : option memberRead :=
  match sf_Open f with
  | LErr e => Some (if is_dictCap e then CapStop else Unreadable)
  | LPanic => None
  | LOk r =>
      let data := clamp maxBytesPerMember (rd_bytes r) in
      if maxBytesPerMember <=? len (rd_bytes r) then Some (Bytes data)
      else match rd_end r with REof => Some (Bytes data) | RFail e => Some (if is_dictCap e then CapStop else Unreadable) | RPanic => None end
  end.

(** It recovers panics itself. *)
Definition openDecrypted7zMember (files : list SevenFile) (idx : nat) : memberRead :=
  match files !! idx with
  | None => Unreadable
  | Some f =>
      if sf_IsDir f || (maxBytesPerMember <? sf_UncompressedSize f) then Unreadable
      else
        match sf_Open f with
        | LErr e => if is_dictCap e then CapStop else Unreadable
        | LPanic => Unreadable
        | LOk r =>
            match readMemberTrunc r with Some (Some data, _) => Bytes data | _ => Unreadable end
        end
  end.

Definition boundedDecrypted7zMember (files : list SevenFile) (idx : nat) : M (option string) :=
  stop <- gets decryptExhausted;;
  if stop : bool then ret None
  else
    x <- runBounded (Some (openDecrypted7zMember files idx));;
    let '(r, stalled) := x in
    if stalled : bool then markDecryptStalled;; ret None
    else match r with Some (Bytes data) => ret (Some data) | Some CapStop => stopHit "lzma-dict";; ret None | _ => ret None end.

(** The password reader of an archive: not asked for yet, or its result. *)
Definition Dec : Type := option (option (list SevenFile)).

Definition crackOnce (buf : string) (i : nat) (dec : Dec) : M (option (list SevenFile)) :=
  match dec with
  | Some d => ret d
  | None =>
      x <- crack7zPassword buf (Some i);;
      let '(pw, dictCap) := x in
      let '(d, odc) := if bool_decide (pw = "") then (None, false) else open7zReader buf pw in
      (if dictCap || odc then stopHit "lzma-dict" else ret tt);; ret d
  end.

Definition seven_member (next : Next) (buf : string) (i : nat) (f : SevenFile) (dec : Dec) : M Dec :=
  if sf_IsDir f then ret dec
  else if maxBytesPerMember <? sf_UncompressedSize f then stopHit "member-size";; ret dec
  else
    plain <- runPlainDecoder (open7zMemberPlain f);;
    match plain with
    | None => ret dec
    | Some CapStop => stopHit "lzma-dict";; ret dec
    | Some (Bytes data) => emitMember next data;; ret dec
    | Some Unreadable =>
        if (length pwCandidates =? 0)%nat then
          encrypted <- runPlainDecoder (match sf_Open f with LOk _ => Some false | LErr e => Some (isEncryptedErr e) | LPanic => None end);;
          (if bool_decide (encrypted = Some true) then markEncryptedArchive else ret tt);; ret dec
        else
          d <- crackOnce buf i dec;;
          match d with
          | None => markEncryptedArchive;; ret (Some None)
          | Some files =>
              data <- boundedDecrypted7zMember files i;;
              match data with
              | Some data => emitMember next data;; markDecryptedArchive
              | None => markEncryptedArchive
              end;; ret (Some (Some files))
          end
    end.

Fixpoint seven_loop (next : Next) (buf : string) (i : nat) (files : list SevenFile) (dec : Dec) : M unit :=
  match files with
  | [] => ret tt
  | f :: files =>
      stop <- exhausted;;
      if stop : bool then archiveCapHit
      else dec <- seven_member next buf i f dec;; seven_loop next buf (Datatypes.S i) files dec
  end.

(** The members of a reader whose password is known; whether one was
    emitted. *)
Fixpoint emit7zMembers (next : Next) (all : list SevenFile) (i : nat) (files : list SevenFile) (emitted : bool) : M bool :=
  match files with
  | [] => ret emitted
  | f :: files =>
      stop <- exhausted;;
      if stop : bool then archiveCapHit;; ret emitted
      else if sf_IsDir f then emit7zMembers next all (Datatypes.S i) files emitted
      else if maxBytesPerMember <? sf_UncompressedSize f then stopHit "member-size";; emit7zMembers next all (Datatypes.S i) files emitted
      else
        data <- boundedDecrypted7zMember all i;;
        let data := default "" data in
        if len data =? 0 then
          stop <- gets decryptExhausted;;
          if stop : bool then ret emitted else emit7zMembers next all (Datatypes.S i) files emitted
        else emitMember next data;; emit7zMembers next all (Datatypes.S i) files true
  end.

Definition handle7zOpenErr (next : Next) (e : lib_error) (buf : string) : M unit :=
  set_archive;;
  if (length pwCandidates =? 0)%nat then (if isEncryptedErr e then markEncryptedArchive else ret tt)
  else
    x <- crack7zPassword buf None;;
    let '(pw, dictCap) := x in
    let '(d, odc) := if bool_decide (pw = "") then (None, false) else open7zReader buf pw in
    match d with
    | Some files => emitted <- emit7zMembers next files 0 files false;; if emitted : bool then markDecryptedArchive else markEncryptedArchive
    | None => (if dictCap || odc then stopHit "lzma-dict" else ret tt);; markEncryptedArchive
    end.

(** [runPlainDecoder] of a reader's constructor. *)
Definition run_open {A} (r : lib A) : M (option (A + lib_error)) :=
  runPlainDecoder (match r with LOk a => Some (inl a) | LErr e => Some (inr e) | LPanic => None end).

Definition unpack7z (next : Next) (buf : string) : M unit :=
  open <- run_open (sevenzip_NewReader buf None);;
  match open with
  | None => set_archive
  | Some (inr e) => if is_dictCap e then set_archive;; stopHit "lzma-dict" else handle7zOpenErr next e buf
  | Some (inl files) => set_archive;; seven_loop next buf 0 files None
  end.

(** *** RAR *)

(** The [idx]th member that is not a directory. *)
Fixpoint rar_member (entries : list (RarHeader * reading)) (idx : nat) : option reading :=
  match entries with
  | [] => None
  | (h, r) :: entries => if rh_IsDir h then rar_member entries idx else match idx with O => Some r | Datatypes.S idx => rar_member entries idx end
  end.

(** The outer [None] is a panic. *)
Definition readRarMemberFresh (buf : string) (idx : nat) (pw : option string) : option (option string * bool) :=
  match rardecode_NewReader buf pw with
  | LErr _ => Some (None, false)
  | LPanic => None
  | LOk rr =>
      match rar_member (rr_entries rr) idx with
      | Some r => readMemberTrunc r
      | None => match rr_end rr with RPanic => None | _ => Some (None, false) end
      end
  end.

Definition boundedRarMemberFresh (buf : string) (idx : nat) (pw : option string) : M (option (option string * bool)) :=
  runPlainDecoder (readRarMemberFresh buf idx pw).

Definition rar_hidden (h : RarHeader) : bool := rh_Encrypted h || rh_HeaderEncrypted h.
Definition drop_solid : M unit := modify (λ s, {| s with a_dropped := a_dropped s + 1 |});; stopHit rarSolidKind.

(** A member of a reader that has the password. *)
Definition rar_cracked (next : Next) (buf : string) (idx : nat) (pw : string) (h : RarHeader) (emitted : bool) : M bool :=
  if maxBytesPerMember <? rh_UnPackedSize h then stopHit "member-size";; markEncryptedArchive;; ret emitted
  else
    x <- boundedRarMemberFresh buf idx (Some pw);;
    match x with
    | None => markEncryptedArchive;; ret emitted
    | Some (data, trunc) =>
        (if trunc : bool then stopHit "member-size" else ret tt);;
        match data with
        | Some data => emitMember next data;; markDecryptedArchive;; ret true
        | None => markEncryptedArchive;; ret emitted
        end
    end.

(** A member in the clear. *)
Definition rar_plain (next : Next) (buf : string) (idx : nat) (h : RarHeader) (emitted : bool) : M bool :=
  if maxBytesPerMember <? rh_UnPackedSize h then stopHit "member-size";; ret emitted
  else
    x <- boundedRarMemberFresh buf idx None;;
    match x with
    | None => ret emitted
    | Some (data, trunc) => (if trunc : bool then stopHit "member-size" else ret tt);; emit_read next data;; ret true
    end.

(** The walk with a password, past the members in the clear the first walk
    has handled. *)
Fixpoint rar_rewalk (next : Next) (buf pw : string) (plainDone idx : nat) (entries : list (RarHeader * reading)) (stop_at : read_end) (emitted : bool) : M bool :=
  stop <- exhausted;;
  if stop : bool then archiveCapHit;; ret emitted
  else
    match entries with
    | [] =>
        match stop_at with
        | RPanic => panic
        | REof => ret emitted
        | RFail e => (if isEncryptedErr e then markEncryptedArchive else ret tt);; ret emitted
        end
    | (h, _) :: entries =>
        if rh_IsDir h then rar_rewalk next buf pw plainDone idx entries stop_at emitted
        else if rh_Solid h then
          drop_solid;; set_archive;; (if rar_hidden h then markEncryptedArchive else ret tt);; ret emitted
        else
          emitted <- (if rar_hidden h then rar_cracked next buf idx pw h emitted
                      else if (idx <? plainDone)%nat then ret emitted
                      else rar_plain next buf idx h emitted);;
          rar_rewalk next buf pw plainDone (Datatypes.S idx) entries stop_at emitted
    end.

(** Look for the password and walk again: [None] when there is no reader to
    walk. *)
Definition crack_and_rewalk (next : Next) (buf : string) (plainDone : nat) : M (option bool) :=
  if (length pwCandidates =? 0)%nat then ret None
  else
    pw <- crackRarPassword buf;;
    if bool_decide (pw = "") then ret None
    else
      match openRarReader buf pw with
      | None => ret None
      | Some rr => emitted <- rar_rewalk next buf pw plainDone 0 (rr_entries rr) (rr_end rr) false;; ret (Some emitted)
      end.

Fixpoint rar_walk (next : Next) (buf : string) (idx : nat) (entries : list (RarHeader * reading)) (stop_at : read_end) (emitted : bool) : M bool :=
  stop <- exhausted;;
  if stop : bool then archiveCapHit;; ret emitted
  else
    match entries with
    | [] =>
        match stop_at with
        | RPanic => panic
        | REof => ret emitted
        | RFail e =>
            if isEncryptedErr e then
              again <- crack_and_rewalk next buf idx;;
              if bool_decide (again = Some true) then ret true else markEncryptedArchive;; ret emitted
            else ret emitted
        end
    | (h, _) :: entries =>
        if rh_IsDir h then rar_walk next buf idx entries stop_at emitted
        else if rh_Solid h then
          drop_solid;; set_archive;; (if rar_hidden h then markEncryptedArchive else ret tt);; ret emitted
        else if rar_hidden h then
          again <- crack_and_rewalk next buf idx;;
          match again with
          | Some true => ret true
          | Some false => markEncryptedArchive;; ret emitted
          | None => markEncryptedArchive;; rar_walk next buf (Datatypes.S idx) entries stop_at emitted
          end
        else
          emitted <- rar_plain next buf idx h emitted;;
          rar_walk next buf (Datatypes.S idx) entries stop_at emitted
    end.

Definition unpackRar (next : Next) (buf : string) : M unit :=
  solid <- lift (rarArchiveIsSolid buf);;
  if solid : bool then set_archive;; drop_solid
  else
    open <- run_open (rardecode_NewReader buf None);;
    match open with
    | None => set_archive
    | Some (inr e) =>
        if negb (isEncryptedErr e) then ret tt
        else
          set_archive;;
          again <- crack_and_rewalk next buf 0;;
          if bool_decide (again = Some true) then ret tt else markEncryptedArchive
    | Some (inl rr) => set_archive;; _ <- rar_walk next buf 0 (rr_entries rr) (rr_end rr) false;; ret tt
    end.

(** *** Cabinets *)

Definition cabUnsupported : string := "CAB-COMPRESSION-UNSUPPORTED".

(** [expired(deadline) || b.spent() || len(res.Streams) >= maxStreams] *)
Definition late_or_exhausted : M bool := λ s, if late (a_tick s) then (Some true, next_tick s) else (Some (spent s || full s), next_tick s).

Fixpoint cab_files (next : Next) (fi : Z) (folderData : string) (capped : bool) (files : list cfFile) : M unit :=
  match files with
  | [] => ret tt
  | f :: files =>
      if negb (iFolder f =? fi) then cab_files next fi folderData capped files
      else
        stop <- late_or_exhausted;;
        if stop : bool then ret tt
        else
          (if cabNoteMemberCap f (len folderData) capped then stopHit "member-size" else ret tt);;
          member <- lift (cab_member f folderData);;
          (if len member =? 0 then ret tt else emitMember next member);;
          cab_files next fi folderData capped files
  end.

Fixpoint cab_folders (next : Next) (buf : string) (fi : Z) (folders : list cfFolder) (files : list cfFile) (cbCFData : Z) (noted : bool) : M unit :=
  match folders with
  | [] => ret tt
  | folder :: folders =>
      stop <- late_or_exhausted;;
      if stop : bool then ret tt
      else
        let compType := Z.land (typeCompress folder) 255 in
        if (compType =? 2) || (compType =? 3) then
          (if noted then ret tt else _ <- append_text false cabUnsupported;; ret tt);;
          cab_folders next buf (fi + 1) folders files cbCFData true
        else
          x <- lift (decompressCabFolder buf folder cbCFData compType);;
          let '(folderData, capped) := x in
          cab_files next fi folderData capped files;;
          cab_folders next buf (fi + 1) folders files cbCFData noted
  end.

Definition unpackCab (next : Next) (buf : string) : M unit :=
  if (len buf <? 36) || negb (HasPrefix buf cabMagic) then ret tt
  else
    set_archive;;
    x <- lift (cab_parse buf);;
    match x with
    | None => ret tt
    | Some (folders, files, cbCFData) => cab_folders next buf 0 folders files cbCFData false
    end.

(** ** Dispatch *)

Definition fromArchive (next : Next) (buf : string) (depth : Z) : M unit :=
  if maxArchiveDepth <? depth then
    (if HasPrefix buf zipMagic then (if bool_decide (is_Some (zip_NewReader buf)) then stopHit "depth" else ret tt)
     else if isArchive buf then stopHit "depth" else ret tt)
  else
    stop <- spent_or_late;;
    if stop : bool then ret tt
    else if HasPrefix buf zipMagic then unpackZip next buf
    else if HasPrefix buf gzipMagic then unpackGzip next buf
    else if HasPrefix buf sevenZMagic then unpack7z next buf
    else if HasPrefix buf rarMagic then unpackRar next buf
    else if HasPrefix buf cabMagic then unpackCab next buf
    else ret tt.

Fixpoint batch_files (next : Next) (files : list string) : M unit :=
  match files with
  | [] => ret tt
  | data :: files => e <- expired;; if e : bool then ret tt else emitMember next data;; batch_files next files
  end.

Definition fromBatchDropper (next : Next) (buf : string) (depth : Z) : M unit :=
  if len buf =? 0 then ret tt
  else if maxNestDepth <? depth then (if batchWouldCarve buf then stopHit "depth" else ret tt)
  else
    stop <- spent_or_late;;
    if stop : bool then ret tt
    else
      let '(files, truncated) := carveBatchFiles buf in
      (if truncated : bool then stopHit "member-size" else ret tt);; batch_files next files.

(** *** Messages *)

Definition base64_char (c : Ascii.ascii) : bool := isB64 c || (byte c =? 61).
Definition base64_blank (c : Ascii.ascii) : bool := (byte c =? 32) || (byte c =? 9) || (byte c =? 13) || (byte c =? 10).
Fixpoint keep_base64 (s : string) : string :=
  match s with EmptyString => EmptyString | String c s => if base64_char c then String c (keep_base64 s) else keep_base64 s end.
(** A [base64Filter]: what passes, and whether anything but blanks was
    dropped. *)
Definition base64Filter (r : reading) : reading * bool :=
  ({| rd_bytes := keep_base64 (rd_bytes r); rd_end := rd_end r |}, negb (string_forallb (λ c, base64_char c || base64_blank c) (rd_bytes r))).

(** The decoder of a part, and whether its filter dropped anything but
    blanks. *)
Definition part_reader (cte : string) (body : reading) : reading * bool :=
  let cte := ToLower (TrimSpace cte) in
  if bool_decide (cte = "base64") then let '(r, invalid) := base64Filter body in (base64_NewDecoder r, invalid)
  else if bool_decide (cte = "quoted-printable") then (quotedprintable_NewReader body, false)
  else (body, false).

(** The bytes, whether they are the whole part, whether the limit cut it. *)
Definition decodeMIMEBody (cte : string) (body : reading) (limit : Z) : option (string * bool * bool) :=
  let '(r, invalid) := part_reader cte body in
  let known := mem (ToLower (TrimSpace cte)) [""; "7bit"; "8bit"; "binary"; "base64"; "quoted-printable"] in
  if limit <? len (rd_bytes r) then Some (upto limit (rd_bytes r), false, true)
  else
    match rd_end r with
    | RPanic => None
    | RFail _ => Some (rd_bytes r, false, false)
    | REof => Some (rd_bytes r, known && negb invalid, false)
    end.

Definition mediaType (h : MailHeader) : string := match ParseMediaType (h "Content-Type") with Some (t, _) => t | None => "text/plain" end.
Definition mime_boundary (h : MailHeader) : string := match ParseMediaType (h "Content-Type") with Some (_, params) => params "boundary" | None => "" end.
Definition isMIMEAttachment (h : MailHeader) : bool :=
  match ParseMediaType (h "Content-Disposition") with
  | Some (disposition, params) => bool_decide (disposition = "attachment") || bool_decide (params "filename" ≠ "")
  | None => false
  end
  || match ParseMediaType (h "Content-Type") with Some (_, params) => bool_decide (params "name" ≠ "") | None => false end.

(** [admitStream] of an owned copy; a buffer already admitted stays. *)
Definition admit_text (data : string) : M (option Buffer) :=
  λ s, let '(p, r) := allocate data (a_res s) in
       let '(p, ok, r) := admitStream p true r in (Some (if ok : bool then Some p else None), {| s with a_res := r |}).

Definition publish_part (p : Buffer) : M unit := on_res (λ r, with_streams (r_streams r ++ [p]) r).

Definition emitMIMEPart (child : Child) (data : string) (depth : Z) (admission : option Buffer) : M unit :=
  stop <- gets (λ s, (len data <? minMemberBytes) || spent s || full s);;
  if stop : bool then ret tt
  else
    p <- match admission with Some p => ret (Some p) | None => admit_text data end;;
    match p with
    | None => ret tt
    | Some p =>
        count_member (len data);; publish_part p;;
        modify (λ s, {| s with a_mime := true |});;
        child (depth + 1) data
    end.

(** A part that is not a multipart; the walk of the message in it is
    [message].  The count of parts is threaded through. *)
Definition mime_leaf (child : Child) (message : string → Z → bool → M Z) (h : MailHeader) (body : reading) (depth parts : Z) (completeAncestor : bool) : M Z :=
  total <- gets a_total;;
  let limit := Z.min maxBytesPerMember (maxTotalArchive - total) in
  x <- lift (decodeMIMEBody (h "Content-Transfer-Encoding") body limit);;
  let '(data, complete, truncated) := x in
  (if truncated : bool then stopHit (if limit <? maxBytesPerMember then "archive-budget" else "member-size") else ret tt);;
  let complete := complete && completeAncestor in
  let admitted := (minMemberBytes <=? len data) && (len data <=? maxTotalArchive - total) in
  let identified := isMIMEAttachment h && complete && admitted in
  admission <- (if identified then admit_text data else ret None);;
  if identified && bool_decide (admission = None) then ret parts
  else
    (if identified then modify (λ s, {| s with a_attachments := a_attachments s ++ [data] |}) else ret tt);;
    if len data =? 0 then ret parts
    else if bool_decide (mediaType h = "message/rfc822") then
      (if isMIMEAttachment h && admitted then
         count_member (len data);; b <- gets spent;; (if b : bool then archiveCapHit else ret tt)
       else ret tt);;
      message data (parts + 1) complete
    else emitMIMEPart child data depth admission;; ret (parts + 1).

(** The parts of a multipart, each walked by [entity]. *)
Fixpoint mime_loop (entity : MailHeader → reading → Z → M Z) (l : list (MailHeader * reading)) (parts : Z) : M Z :=
  match l with
  | [] => ret parts
  | (h, body) :: l =>
      if maxMIMEParts <=? parts then stopHit "mime-parts";; ret parts
      else
        parts <- entity h body parts;;
        stop <- exhausted;;
        if stop : bool then
          e <- expired;;
          (if e || (length l =? 0)%nat then ret tt else (if maxMIMEParts <=? parts then stopHit "mime-parts" else ret tt);; archiveCapHit);;
          ret parts
        else mime_loop entity l parts
  end.

(** [walkMIMEEntity]; messages inside are walked one level deeper. *)
Fixpoint walkMIMEEntity (fuel : nat) (child : Child) (h : MailHeader) (body : reading) (depth parts : Z) (completeAncestor : bool) : M Z :=
  match fuel with
  | O => panic
  | Datatypes.S fuel =>
      if maxNestDepth <? depth then stopHit "mime-depth";; ret parts
      else if maxMIMEParts <=? parts then stopHit "mime-parts";; ret parts
      else
        stop <- gets (λ s, spent s || full s);;
        if stop : bool then archiveCapHit;; ret parts
        else
          e <- expired;;
          if e : bool then ret parts
          else if HasPrefix (mediaType h) "multipart/" then
            if bool_decide (mime_boundary h = "") then ret parts
            else mime_loop (λ h body parts, walkMIMEEntity fuel child h body (depth + 1) parts completeAncestor) (multipart_parts body (mime_boundary h)) parts
          else
            mime_leaf child
              (λ data parts complete,
                match mail_ReadMessage data with
                | None => stopHit mimeHeaderCapHitKind;; ret parts
                | Some (h, body) =>
                    if maxNestDepth <? depth + 1 then stopHit "mime-depth";; ret parts
                    else walkMIMEEntity fuel child h body (depth + 1) parts complete
                end)
              h body depth parts completeAncestor
  end.

(** [walkMIMEMessage] of the message itself. *)
Definition fromMIME (child : Child) (buf : string) (depth : Z) : M unit :=
  recovered
    match mail_ReadMessage buf with
    | None => stopHit mimeHeaderCapHitKind
    | Some (h, body) =>
        if maxNestDepth <? depth then stopHit "mime-depth"
        else _ <- walkMIMEEntity (Z.to_nat (maxNestDepth + 2 - depth)) child h body depth 0 true;; ret tt
    end.

(** *** Encoded scripts *)

Fixpoint script_blocks (fuel : nat) (rest : string) (emitted : Z) : M unit :=
  match fuel with
  | O => ret tt
  | Datatypes.S fuel =>
      stop <- gets full;;
      if stop || (maxEncodedScripts <=? emitted) then ret tt
      else
        e <- expired;;
        if e : bool then ret tt
        else
          match Index rest scriptStart with
          | None => ret tt
          | Some i =>
              let body := from (i + len scriptStart) rest in
              if len body <? 8 then ret tt
              else
                let body := from 8 body in
                match Index body scriptEnd with
                | None => ret tt
                | Some stop =>
                    let clear := decodeScript (upto stop body) in
                    (if 0 <? len clear then _ <- append_text false clear;; modify (λ s, {| s with a_script := true |}) else ret tt);;
                    script_blocks fuel (from (stop + len scriptEnd) body) (if 0 <? len clear then emitted + 1 else emitted)
                end
          end
  end.

(** A block takes more than its markers: one round per byte is enough. *)
Definition fromEncodedScript (buf : string) : M unit :=
  if contains scriptStart buf then script_blocks (Datatypes.S (String.length buf)) buf 0 else ret tt.

(** *** Nested carriers *)

Inductive carrier := KZip | KArchive | KOLE | KPDF | KRTF | KLNK | KOneNote | KTNEF | KSLK | KSpreadsheetML | KMail (c : mimeHeaderClassification).
#[export] Instance carrier_eq_dec : EqDecision carrier.
Proof. solve_decision. Defined.

(** The cases of the dispatch, in its order. *)
Definition carrier_of (data : string) : carrier :=
  if HasPrefix data zipMagic then KZip
  else if isArchive data then KArchive
  else if HasPrefix data oleMagic then KOLE
  else if isPDF data then KPDF
  else if isRTF data then KRTF
  else if isLNK data then KLNK
  else if isOneNote data then KOneNote
  else if isTNEF data then KTNEF
  else if isSLK data then KSLK
  else if isSpreadsheetML data then KSpreadsheetML
  else KMail (classifyMIMEMessage data).

Definition isDepthCarrier (data : string) : bool :=
  (minMemberBytes <=? len data) && negb (match carrier_of data with KMail mimeHeaderOrdinary => true | _ => false end).

(** A scratch result with a ledger of its own and no limit; the clock goes
    on. *)
Definition scratch (s : AState) : AState :=
  mkAState (mkResult [] [] [] [] false 0 0 [] (Some (Some (mkBudget 0 0 0 false false))) 0) false false false false false false false false false false false [] 0 0 0 0 false (a_dropped s) (a_tick s).
Definition probing (m : M unit) (k : M bool) : M bool :=
  x <- m;; n <- gets streams;; if 0 <? n then ret true else k.
Definition in_scratch (m : M bool) : M bool :=
  λ s, let '(o, s') := m (scratch s) in (o, {| s with a_dropped := a_dropped s'; a_tick := a_tick s' |}).

(** Whether the extractors of unstructured text would find anything; what
    they carve is not walked. *)
Definition depthDefaultContent (data : string) (depth : Z) : M bool :=
  if batchWouldCarve data then ret true
  else
    in_scratch
      (probing (fromEncodedScript data) (probing (fromCSVDDE data)
        (probing (fromHTMLSmuggling (λ _, ret tt) data depth) (probing (fromLauncherFields data) (ret false))))).

(** What is tried on bytes that are no carrier. *)
Definition default_extractors (child : Child) (data : string) (depth : Z) : M unit :=
  fromEncodedScript data;;
  fromCSVDDE data;;
  fromHTMLSmuggling (child (depth + 1)) data depth;;
  fromBatchDropper (child (depth + 1)) data depth;;
  fromLauncherFields data.

Definition walk_carrier (child : Child) (data : string) (depth : Z) : M unit :=
  match carrier_of data with
  | KZip => fromZip (child (depth + 1)) data depth false
  | KArchive => fromArchive (child (depth + 1)) data depth
  | KOLE => fromOLE (child (depth + 1)) data depth
  | KPDF => fromPDF data
  | KRTF => fromRTF (child (depth + 1)) data depth
  | KLNK => fromLNK data
  | KOneNote => fromOneNote (child (depth + 1)) data
  | KTNEF => fromTNEF (child (depth + 1)) data
  | KSLK => fromSLK data
  | KSpreadsheetML => fromSpreadsheetML data
  | KMail mimeHeaderComplete => fromMIME child data depth
  | KMail mimeHeaderIncomplete => stopHit mimeHeaderCapHitKind
  | KMail mimeHeaderOrdinary => default_extractors child data depth
  end.

Definition child_body (child : Child) (depth : Z) (data : string) : M unit :=
  if len data =? 0 then ret tt
  else if maxNestDepth <? depth then
    hit <- (if isDepthCarrier data then ret true else depthDefaultContent data depth);;
    if hit : bool then stopHit "depth" else ret tt
  else
    e <- expired;;
    if e : bool then ret tt
    else
      stop <- gets (λ s, spent s || full s);;
      if stop : bool then archiveCapHit else walk_carrier child data depth.

Fixpoint extract_child (fuel : nat) (depth : Z) (data : string) : M unit :=
  match fuel with O => panic | Datatypes.S fuel => child_body (extract_child fuel) depth data end.

(** A level of fuel for each depth still open, and one for the depth stop. *)
Definition extractChild (depth : Z) (data : string) : M unit := extract_child (Datatypes.S (Z.to_nat (maxNestDepth + 1 - depth))) depth data.

(** The format dispatch of [ExtractWithOptions]. *)
Definition extract_formats (buf : string) : M unit :=
  match carrier_of buf with
  | KZip => fromZip (extractChild 1) buf 0 true
  | KArchive => fromArchive (extractChild 1) buf 0
  | KOLE => fromOLE (extractChild 1) buf 0
  | KPDF => fromPDF buf
  | KRTF => fromRTF (extractChild 1) buf 0
  | KLNK => fromLNK buf
  | KOneNote => fromOneNote (extractChild 1) buf
  | KTNEF => fromTNEF (extractChild 1) buf
  | KSLK => fromSLK buf
  | KSpreadsheetML => fromSpreadsheetML buf
  | KMail mimeHeaderComplete => fromMIME extractChild buf 0
  | KMail mimeHeaderIncomplete => stopHit mimeHeaderCapHitKind;; default_extractors extractChild buf 0
  | KMail mimeHeaderOrdinary => default_extractors extractChild buf 0
  end.

(** A request starts without output. *)
Definition fresh (limit : Z) : AState := mkAState (Retained.start limit) false false false false false false false false false false false [] 0 0 0 0 false 0 0.

End Walk.
