(* ===== verification/ArchiveLogic.v ===== *)
(** * What the walk through archives leaves alone

    [grows]: whatever runs, output is only added, caps and failures once noted
    stay noted, counters only rise, and decryption stays within its two caps.
    The extractors of the other formats are assumed to keep it when the walk
    they hand children to keeps it. *)

From Stdlib Require Import ZArith Lia.
From Stdlib Require Ascii String.
From stdpp Require Import base strings list numbers sets.
From S2P Require Import Prelude GoStd GoText Base64 GoRegexp DecodeRuns ScanVerdict Retained DecodeFold DecodeWalk RarSolid Sniff Cab Batch Screnc ArchiveState Carriers Archive.

Local Open Scope Z_scope.
Local Open Scope mailstrix_scope.
Local Open Scope archive_scope.

Definition refused (r : Result) : bool := match r_childOpts r with Some (Some b) => b_refused b | _ => false end.
Definition texts_of (s : AState) : list string := texts (r_streams (a_res s)).

(** Decryption stays within its caps; the second counter is part of the
    first. *)
Definition crypt_ok (s : AState) : Prop := 0 <= a_kdf s <= maxKDFDecryptAttempts ∧ a_kdf s <= a_attempts s <= maxDecryptAttempts.

Record grows (s s' : AState) : Prop := {
  g_texts : texts_of s ⊆ texts_of s';
  g_streams : streams s <= streams s';
  g_caps : r_capHits (a_res s) ⊆ r_capHits (a_res s');
  g_refused : refused (a_res s) = true → refused (a_res s') = true;
  g_panicked : a_panicked s = true → a_panicked s' = true;
  g_members : a_members s <= a_members s';
  g_total : a_total s <= a_total s';
  g_tick : a_tick s <= a_tick s';
  g_crypt : crypt_ok s → crypt_ok s';
  g_stalled : a_stalled s = true → a_stalled s' = true ∧ a_attempts s' = a_attempts s }.

#[export] Instance grows_refl : Reflexive grows.
Proof. intros s. by constructor. Qed.
#[export] Instance grows_trans : Transitive grows.
Proof.
  intros a b c [] []. constructor; try lia; try (by etransitivity); try (by auto).
  intros H. destruct (g_stalled0 H) as [H1 H2]. destruct (g_stalled1 H1) as [H3 H4]. split; [done|congruence].
Qed.

Class Keeps {A} (m : M A) : Prop := keeps s : grows s (m s).2.

(** ** The result's own operations *)

Lemma allocate_res text r : r_streams (allocate text r).2 = r_streams r ∧ r_capHits (allocate text r).2 = r_capHits r ∧ refused (allocate text r).2 = refused r.
Proof. done. Qed.

(** Admission changes the ledger and the allocator only. *)
Definition same_output (r r' : Result) : Prop :=
  r_streams r' = r_streams r ∧ r_capHits r' = r_capHits r ∧ (refused r = true → refused r' = true).

Lemma admit_same p own r : same_output r (admitStream p own r).2 ∧
  (let '(p', ok, r') := admitStream p own r in (ok = false → refused r' = true) ∧ (ok = true → s_text p' = s_text p)).
Proof.
  unfold admitStream, same_output. destruct (r_childOpts r) as [[b|]|] eqn:Eo; [|done..].
  unfold admit_entry. destruct (negb (b_limit b =? 0) && _ && _) eqn:E; cbn.
  - split; [|done]. unfold refused. by rewrite Eo.
  - destruct (own && _) eqn:E2; cbn; unfold refused; rewrite Eo; cbn; done.
Qed.

Lemma append_same p own r : let '(ok, r') := append_stream own p r in
  (if ok : bool then ∃ p', r_streams r' = r_streams r ++ [p'] ∧ s_text p' = s_text p else r_streams r' = r_streams r ∧ refused r' = true)
  ∧ r_capHits r' = r_capHits r ∧ (refused r = true → refused r' = true).
Proof.
  unfold append_stream. pose proof (admit_same p own r) as H. destruct (admitStream p own r) as [[p' ok] r']. destruct H as [(Hs & Hc & Hr) [Hno Hyes]]. cbn in Hs, Hc, Hr.
  destruct ok; cbn.
  - split; [exists p'; split; [by rewrite Hs|by apply Hyes]|done].
  - split; [split; [done|by apply Hno]|done].
Qed.

(** A result that only gains output. *)
Definition res_grows (r r' : Result) : Prop :=
  (∃ l, r_streams r' = r_streams r ++ l) ∧ r_capHits r ⊆ r_capHits r' ∧ (refused r = true → refused r' = true).

Lemma res_grows_refl r : res_grows r r.
Proof. split_and!; [exists []; by rewrite app_nil_r|done|done]. Qed.
Lemma res_grows_trans r1 r2 r3 : res_grows r1 r2 → res_grows r2 r3 → res_grows r1 r3.
Proof. intros ([l E] & ? & ?) ([l' E'] & ? & ?). split_and!; [exists (l ++ l'); by rewrite E', E, app_assoc|by etransitivity|auto]. Qed.

Lemma append_grows p own r : res_grows r (append_stream own p r).2.
Proof.
  pose proof (append_same p own r) as H. destruct (append_stream own p r) as [ok r']. destruct H as (Hs & Hc & Hr). split_and!; cbn; [|by rewrite Hc|done].
  destruct ok; [destruct Hs as (p' & -> & _); by exists [p']|exists []; by rewrite app_nil_r; destruct Hs].
Qed.

Lemma allocate_grows text r : res_grows r (allocate text r).2.
Proof. split_and!; [exists []; by rewrite app_nil_r|done|done]. Qed.

Lemma admit_grows p own r : res_grows r (admitStream p own r).2.
Proof. destruct (admit_same p own r) as [(Hs & Hc & Hr) _]. split_and!; [exists []; by rewrite app_nil_r|by rewrite Hc|done]. Qed.

Lemma capHit_grows kind r : res_grows r (capHit kind r).
Proof. unfold capHit. destruct (mem _ _); [apply res_grows_refl|]. split_and!; [exists []; by rewrite app_nil_r|cbn; set_solver|done]. Qed.

Lemma marker_grows text r : res_grows r (emit_marker false text r).2.
Proof.
  unfold emit_marker. pose proof (allocate_grows text r) as H. destruct (allocate text r) as [p r1]. cbn in H. unfold append_marker.
  pose proof (admit_grows p false r1) as H2. destruct (admitStream p false r1) as [[p' ok] r2]. cbn in H2. eapply res_grows_trans; [exact H|]. eapply res_grows_trans; [exact H2|].
  destruct ok; [|apply res_grows_refl]. split_and!; [by exists [p']|done|done].
Qed.

Lemma publish_grows p r : res_grows r (with_streams (r_streams r ++ [p]) r).
Proof. split_and!; [by exists [p]|done|done]. Qed.

Lemma grows_res f s : res_grows (a_res s) (f (a_res s)) → grows s {| s with a_res := f (a_res s) |}.
Proof.
  intros ([l E] & Hc & Hr). constructor; try done; try (cbn; lia).
  - unfold texts_of, texts. cbn. rewrite E, fmap_app. set_solver.
  - unfold streams. cbn. rewrite E, length_app. lia.
Qed.

(** ** Programs that keep growing *)

Section Keep.
Context {T : TextEnv} {MT : MediaTypes} {F : Inflate} {L : ArchiveLibs} {W : RequestEnv}.

#[export] Instance keeps_ret {A} (a : A) : Keeps (ret a).
Proof. by intros s. Qed.
#[export] Instance keeps_panic {A} : Keeps (panic (A := A)).
Proof. by intros s. Qed.
#[export] Instance keeps_gets {A} (f : AState → A) : Keeps (gets f).
Proof. by intros s. Qed.
#[export] Instance keeps_lift {A} (o : option A) : Keeps (lift o).
Proof. destruct o; apply _. Qed.
#[export] Instance keeps_bind {A B} (m : M A) (k : A → M B) : Keeps m → (∀ a, Keeps (k a)) → Keeps (bind m k).
Proof. intros Hm Hk s. unfold bind. specialize (Hm s). destruct (m s) as [[a|] s1]; cbn in *; [etransitivity; [exact Hm|apply Hk]|done]. Qed.
#[export] Instance keeps_recovered (m : M unit) : Keeps m → Keeps (recovered m).
Proof.
  intros Hm s. unfold recovered. specialize (Hm s). destruct (m s) as [[a|] s1]; cbn in *; [done|]. etransitivity; [exact Hm|]. by constructor.
Qed.
#[export] Instance keeps_if {A} (b : bool) (m n : M A) : Keeps m → Keeps n → Keeps (if b then m else n).
Proof. by destruct b. Qed.

#[export] Instance keeps_stopHit kind : Keeps (stopHit kind).
Proof. intros s. apply (grows_res (capHit kind)), capHit_grows. Qed.
#[export] Instance keeps_archiveCapHit : Keeps archiveCapHit.
Proof. intros s. unfold archiveCapHit. destruct (full s); [apply keeps_stopHit|]. destruct (spent s); [apply keeps_stopHit|done]. Qed.
#[export] Instance keeps_set_archive : Keeps set_archive.
Proof. intros s. by constructor. Qed.
#[export] Instance keeps_mime : Keeps (modify (λ s, {| s with a_mime := true |})).
Proof. intros s. by constructor. Qed.
#[export] Instance keeps_script_flag : Keeps (modify (λ s, {| s with a_script := true |})).
Proof. intros s. by constructor. Qed.
#[export] Instance keeps_failed : Keeps (modify (λ s, {| s with a_failed := true |})).
Proof. intros s. by constructor. Qed.
#[export] Instance keeps_dropped : Keeps (modify (λ s, {| s with a_dropped := a_dropped s + 1 |})).
Proof. intros s. by constructor. Qed.
#[export] Instance keeps_attachment data : Keeps (modify (λ s, {| s with a_attachments := a_attachments s ++ [data] |})).
Proof. intros s. by constructor. Qed.
#[export] Instance keeps_doc : Keeps set_doc.
Proof. intros s. by constructor. Qed.
#[export] Instance keeps_lnk_flag : Keeps set_lnk.
Proof. intros s. by constructor. Qed.
#[export] Instance keeps_onenote_flag : Keeps set_onenote.
Proof. intros s. by constructor. Qed.
#[export] Instance keeps_tnef_flag : Keeps set_tnef.
Proof. intros s. by constructor. Qed.
#[export] Instance keeps_stall : Keeps markDecryptStalled.
Proof. intros s. by constructor. Qed.
Lemma keeps_count n : 0 <= n → Keeps (count_member n).
Proof. intros Hn s. constructor; try done; cbn; lia. Qed.
#[export] Instance keeps_count_len data : Keeps (count_member (len data)).
Proof. apply keeps_count, len_nonneg. Qed.

#[export] Instance keeps_mark text : Keeps (emit_mark text).
Proof. intros s. apply (grows_res (λ r, (emit_marker false text r).2)), marker_grows. Qed.
#[export] Instance keeps_encrypted : Keeps markEncryptedArchive.
Proof. intros s. unfold markEncryptedArchive. destruct (a_encrypted s); [done|]. etransitivity; [|apply keeps_mark]. by constructor. Qed.
#[export] Instance keeps_decrypted : Keeps markDecryptedArchive.
Proof. intros s. unfold markDecryptedArchive. destruct (a_decrypted s); [done|]. etransitivity; [|apply keeps_mark]. by constructor. Qed.

#[export] Instance keeps_append own data : Keeps (append_text own data).
Proof.
  intros s. unfold append_text. pose proof (allocate_grows data (a_res s)) as H. destruct (allocate data (a_res s)) as [p r]. cbn in H.
  pose proof (append_grows p own r) as H2. destruct (append_stream own p r) as [ok r2]. cbn in *.
  apply (grows_res (λ _, r2)). by eapply res_grows_trans.
Qed.
#[export] Instance keeps_appends own l : Keeps (append_texts own l).
Proof. induction l as [|t l IH]; cbn [append_texts]; apply _. Qed.
#[export] Instance keeps_admit data : Keeps (admit_text data).
Proof.
  intros s. unfold admit_text. pose proof (allocate_grows data (a_res s)) as H. destruct (allocate data (a_res s)) as [p r]. cbn in H.
  pose proof (admit_grows p true r) as H2. destruct (admitStream p true r) as [[p' ok] r2]. cbn in *.
  apply (grows_res (λ _, r2)). by eapply res_grows_trans.
Qed.
#[export] Instance keeps_publish p : Keeps (publish_part p).
Proof. intros s. apply (grows_res (λ r, with_streams (r_streams r ++ [p]) r)), publish_grows. Qed.

Lemma grows_tick s : grows s (next_tick s).
Proof. constructor; try done; cbn; lia. Qed.
#[export] Instance keeps_expired : Keeps expired.
Proof. intros s. apply grows_tick. Qed.
#[export] Instance keeps_exhausted : Keeps exhausted.
Proof. intros s. unfold exhausted. destruct (_ || _); [done|apply grows_tick]. Qed.
#[export] Instance keeps_exhausted_late : Keeps exhausted_late.
Proof. intros s. unfold exhausted_late. destruct (spent s); [done|apply grows_tick]. Qed.
#[export] Instance keeps_spent_or_late : Keeps spent_or_late.
Proof. intros s. unfold spent_or_late. destruct (spent s); [done|apply grows_tick]. Qed.
#[export] Instance keeps_late_or_exhausted : Keeps late_or_exhausted.
Proof. intros s. unfold late_or_exhausted. destruct (late _); apply grows_tick. Qed.
#[export] Instance keeps_worker {A} (fn : option A) : Keeps (runBoundedRan fn).
Proof. intros s. apply grows_tick. Qed.

End Keep.

(** Splits every choice a program makes before asking the instances. *)
Ltac keep :=
  repeat first
    [ progress intros
    | assumption
    | match goal with
      | |- Keeps (bind _ _) => apply keeps_bind
      | |- Keeps (recovered _) => apply keeps_recovered
      | |- Keeps (match ?x with _ => _ end) => destruct x
      | |- Keeps (let '_ := ?x in _) => destruct x
      | |- Keeps ((fun _ => _) _) => cbv beta
      end
    | apply _ ].

(** ** The extractors of [Carriers] *)
Section Carried.
Context {W : RequestEnv} {N : TnefLib}.

#[export] Instance keeps_format_cap a b c d kind : Keeps (formatCapReached a b c d kind).
Proof. unfold formatCapReached. keep. Qed.
#[export] Instance keeps_lnk_emit l : Keeps (lnk_emit l).
Proof. induction l as [|s l IH]; cbn [lnk_emit]; keep. Qed.
#[export] Instance keeps_lnk data : Keeps (fromLNK data).
Proof. unfold fromLNK. keep. Qed.
#[export] Instance keeps_if_dde cell : Keeps (emitIfCSVDDE cell).
Proof. unfold emitIfCSVDDE. keep. Qed.
#[export] Instance keeps_cells fuel delim : ∀ line n, Keeps (scan_cells fuel delim line n).
Proof. induction fuel as [|fuel IH]; intros line n; cbn [scan_cells]; keep. Qed.
#[export] Instance keeps_csv_line line : Keeps (scanCSVLine line).
Proof. unfold scanCSVLine. keep. Qed.
#[export] Instance keeps_csv_lines l : ∀ lines n, Keeps (csv_lines l lines n).
Proof. induction l as [|raw l IH]; intros lines n; cbn [csv_lines]; keep. Qed.
#[export] Instance keeps_csv data : Keeps (fromCSVDDE data).
Proof. unfold fromCSVDDE. keep. Qed.
#[export] Instance keeps_ss_stop n : Keeps (ss_stop n).
Proof. unfold ss_stop. keep. Qed.
#[export] Instance keeps_ss_formulas fuel : ∀ rest n, Keeps (ss_formulas fuel rest n).
Proof. induction fuel as [|fuel IH]; intros rest n; cbn [ss_formulas]; keep. Qed.
#[export] Instance keeps_ss_cells fuel : ∀ rest n, Keeps (ss_cells fuel rest n).
Proof. induction fuel as [|fuel IH]; intros rest n; cbn [ss_cells]; keep. Qed.
#[export] Instance keeps_spreadsheet data : Keeps (fromSpreadsheetML data).
Proof. unfold fromSpreadsheetML. cbv zeta. generalize (Datatypes.S (String.length (clamp maxBytesPerDocXML data))). intros k. keep. Qed.

Context (next : string → M unit) (Hnext : ∀ x, Keeps (next x)).
#[local] Existing Instance Hnext.
#[export] Instance keeps_carve b : Keeps (carve_child next b).
Proof using Hnext. unfold carve_child. keep. Qed.
#[export] Instance keeps_onenote_loop fuel : ∀ rest total emitted, Keeps (onenote_loop fuel next rest total emitted).
Proof using Hnext. induction fuel as [|fuel IH]; intros rest total emitted; cbn [onenote_loop]; keep. Qed.
#[export] Instance keeps_onenote buf : Keeps (fromOneNote next buf).
Proof using Hnext. unfold fromOneNote. generalize (Datatypes.S (String.length buf)). intros k. keep. Qed.
#[export] Instance keeps_tnef_emit b total : Keeps (tnef_emit next b total).
Proof using Hnext. unfold tnef_emit. keep. Qed.
#[export] Instance keeps_tnef_parts l : ∀ parts total, Keeps (tnef_parts next l parts total).
Proof using Hnext. induction l as [|[a|] l IH]; intros parts total; cbn [tnef_parts]; keep. Qed.
#[export] Instance keeps_tnef buf : Keeps (fromTNEF next buf).
Proof using Hnext. unfold fromTNEF. keep. Qed.
End Carried.

(** What the other extractors promise: they only add output, and so does
    whatever they hand a child to; the macro path of a zip has no budget. *)
Class ExtractorsOk {T : TextEnv} {MT : MediaTypes} {F : Inflate} {L : ArchiveLibs} {W : RequestEnv} (X : Extractors) : Prop := {
  parts_keeps files : Keeps (fromOOXMLParts files);
  parts_budget files s : a_members (fromOOXMLParts files s).2 = a_members s ∧ a_total (fromOOXMLParts files s).2 = a_total s;
  ole_keeps next data depth : (∀ x, Keeps (next x)) → Keeps (fromOLE next data depth);
  pdf_keeps data : Keeps (fromPDF data);
  rtf_keeps next data depth : (∀ x, Keeps (next x)) → Keeps (fromRTF next data depth);
  slk_keeps data : Keeps (fromSLK data);
  html_keeps next data depth : (∀ x, Keeps (next x)) → Keeps (fromHTMLSmuggling next data depth);
  launcher_keeps data : Keeps (fromLauncherFields data);
  msix_keeps data n : Keeps (msixManifestFields data n)
}.
#[export] Existing Instances parts_keeps pdf_keeps slk_keeps launcher_keeps msix_keeps.

Section Walks.
Context {T : TextEnv} {MT : MediaTypes} {F : Inflate} {L : ArchiveLibs} {W : RequestEnv} {N : TnefLib} {X : Extractors} {XO : ExtractorsOk X}.

#[export] Instance keeps_read r : Keeps (readMemberRes r).
Proof. unfold readMemberRes. keep. Qed.
#[export] Instance keeps_zip_entry f : Keeps (readZipEntry f).
Proof. unfold readZipEntry. keep. Qed.
#[export] Instance keeps_bounded {A} (fn : option A) : Keeps (runBounded fn).
Proof. unfold runBounded. keep. Qed.
#[export] Instance keeps_plain {A} (fn : option A) : Keeps (runPlainDecoder fn).
Proof. unfold runPlainDecoder. keep. Qed.

(** An attempt is counted only below both caps and before any stall. *)
Lemma count_grows kdf s : decryptExhausted s || (kdf && kdfExhausted s) = false → grows s (countAttempt kdf s).2.
Proof.
  intros H. apply orb_false_iff in H as [He Hk]. apply orb_false_iff in He as [Hst Ha%Z.leb_gt]. constructor; try done; [|by rewrite Hst].
  intros [Hkdf Hat]. unfold crypt_ok. cbn. destruct kdf; cbn in Hk; [apply Z.leb_gt in Hk|]; lia.
Qed.

#[export] Instance keeps_candidates {A} kdf (attempt : string → option A) cands : Keeps (try_candidates kdf attempt cands).
Proof.
  induction cands as [|pw cands IH]; cbn [try_candidates]; [apply _|]. apply keeps_bind; [apply _|]. intros e s. unfold bind at 1, gets.
  destruct (e || decryptExhausted s || (kdf && kdfExhausted s)) eqn:E; [done|]. unfold bind at 1. rewrite <- orb_assoc in E. apply orb_false_iff in E as [_ E].
  pose proof (count_grows kdf s E) as Hg. unfold countAttempt, modify in *. cbn [fst snd] in *. etransitivity; [exact Hg|].
  match goal with |- grows _ (?m _).2 => assert (Keeps m) as Hk by keep end. apply Hk.
Qed.
#[export] Instance keeps_decrypt buf idx kdf declared : Keeps (decryptMember buf idx kdf declared).
Proof. unfold decryptMember. keep. Qed.
#[export] Instance keeps_crack7z buf idx : Keeps (crack7zPassword buf idx).
Proof. unfold crack7zPassword. keep. Qed.
#[export] Instance keeps_crackrar buf : Keeps (crackRarPassword buf).
Proof. unfold crackRarPassword. keep. Qed.

#[export] Instance keeps_blocks fuel rest emitted : Keeps (script_blocks fuel rest emitted).
Proof. revert rest emitted. induction fuel as [|fuel IH]; intros rest emitted; cbn [script_blocks]; keep. Qed.
#[export] Instance keeps_script data : Keeps (fromEncodedScript data).
Proof. unfold fromEncodedScript. destruct (contains _ _); apply _. Qed.

Section Next.
Context (next : Next) (Hnext : ∀ x, Keeps (next x)).
#[local] Existing Instance Hnext.

#[export] Instance keeps_emit data : Keeps (emitMember next data).
Proof using Hnext. unfold emitMember. keep. Qed.
#[export] Instance keeps_emit_read data : Keeps (emit_read next data).
Proof using Hnext. apply keeps_emit. Qed.
#[export] Instance keeps_manifest data : Keeps (manifest_fields data).
Proof using XO. unfold manifest_fields. keep. Qed.
#[export] Instance keeps_emit_zip name data : Keeps (emitZipMember next name data).
Proof using Hnext XO. unfold emitZipMember. keep. Qed.
#[export] Instance keeps_emit_encrypted buf f i : Keeps (emitEncrypted next buf f i).
Proof using Hnext XO. unfold emitEncrypted. keep. Qed.
#[export] Instance keeps_zip_member buf i f : Keeps (zip_member next buf i f).
Proof using Hnext XO. unfold zip_member. keep. Qed.
#[export] Instance keeps_zip_loop buf n entries : Keeps (zip_loop next buf n entries).
Proof using Hnext XO. revert n. induction entries as [|[i f] entries IH]; intros n; cbn [zip_loop]; keep. Qed.
#[export] Instance keeps_zip_reader files buf : Keeps (unpackZipReader next files buf).
Proof using Hnext XO. unfold unpackZipReader. keep. Qed.
#[export] Instance keeps_carrier data : Keeps (isNestedCarrier data).
Proof. unfold isNestedCarrier. keep. Qed.
#[export] Instance keeps_carrier_member f : Keeps (carrier_member next f).
Proof using Hnext XO. unfold carrier_member, zipEntryIsCarrier. keep. Qed.
#[export] Instance keeps_carrier_loop i files : Keeps (carrier_loop next i files).
Proof using Hnext XO. revert i. induction files as [|f files IH]; intros i; cbn [carrier_loop]; keep. Qed.
#[export] Instance keeps_fromZip buf depth top : Keeps (fromZip next buf depth top).
Proof using Hnext XO. unfold fromZip, fromOOXMLZip, fromOfficeZipCarriersZip, zipMemberWalkOK. keep. Qed.
#[export] Instance keeps_tar members : Keeps (tar_loop next members).
Proof using Hnext. induction members as [|m members IH]; cbn [tar_loop]; keep. Qed.
#[export] Instance keeps_gzip buf : Keeps (unpackGzip next buf).
Proof using Hnext. unfold unpackGzip, unpackTar. keep. Qed.
#[export] Instance keeps_decrypted7z files i : Keeps (boundedDecrypted7zMember files i).
Proof. unfold boundedDecrypted7zMember. keep. Qed.
#[export] Instance keeps_crackOnce buf i dec : Keeps (crackOnce buf i dec).
Proof. unfold crackOnce. keep. Qed.
#[export] Instance keeps_seven_member buf i f dec : Keeps (seven_member next buf i f dec).
Proof using Hnext. unfold seven_member. keep. Qed.
#[export] Instance keeps_seven_loop buf i files dec : Keeps (seven_loop next buf i files dec).
Proof using Hnext. revert i dec. induction files as [|f files IH]; intros i dec; cbn [seven_loop]; keep. Qed.
#[export] Instance keeps_emit7z all i files emitted : Keeps (emit7zMembers next all i files emitted).
Proof using Hnext. revert i emitted. induction files as [|f files IH]; intros i emitted; cbn [emit7zMembers]; keep. Qed.
#[export] Instance keeps_run_open {A} (r : lib A) : Keeps (run_open r).
Proof. apply keeps_plain. Qed.
#[export] Instance keeps_7z_err e buf : Keeps (handle7zOpenErr next e buf).
Proof using Hnext. unfold handle7zOpenErr. keep. Qed.
#[export] Instance keeps_7z buf : Keeps (unpack7z next buf).
Proof using Hnext. unfold unpack7z. keep. Qed.
#[export] Instance keeps_rar_cracked buf idx pw h emitted : Keeps (rar_cracked next buf idx pw h emitted).
Proof using Hnext. unfold rar_cracked, boundedRarMemberFresh. keep. Qed.
#[export] Instance keeps_rar_plain buf idx h emitted : Keeps (rar_plain next buf idx h emitted).
Proof using Hnext. unfold rar_plain, boundedRarMemberFresh. keep. Qed.
#[export] Instance keeps_drop_solid : Keeps drop_solid.
Proof. unfold drop_solid. keep. Qed.
#[export] Instance keeps_rewalk buf pw pd idx entries e emitted : Keeps (rar_rewalk next buf pw pd idx entries e emitted).
Proof using Hnext. revert idx emitted. induction entries as [|[h r] entries IH]; intros idx emitted; cbn [rar_rewalk]; keep. Qed.
#[export] Instance keeps_crack_rewalk buf pd : Keeps (crack_and_rewalk next buf pd).
Proof using Hnext. unfold crack_and_rewalk. keep. Qed.
#[export] Instance keeps_rar_walk buf idx entries e emitted : Keeps (rar_walk next buf idx entries e emitted).
Proof using Hnext. revert idx emitted. induction entries as [|[h r] entries IH]; intros idx emitted; cbn [rar_walk]; keep. Qed.
#[export] Instance keeps_rar buf : Keeps (unpackRar next buf).
Proof using Hnext. unfold unpackRar. keep. Qed.
#[export] Instance keeps_cab_files fi data capped files : Keeps (cab_files next fi data capped files).
Proof using Hnext. induction files as [|f files IH]; cbn [cab_files]; keep. Qed.
#[export] Instance keeps_cab_folders buf fi folders files cb noted : Keeps (cab_folders next buf fi folders files cb noted).
Proof using Hnext. revert fi noted. induction folders as [|f folders IH]; intros fi noted; cbn [cab_folders]; keep. Qed.
#[export] Instance keeps_cab buf : Keeps (unpackCab next buf).
Proof using Hnext. unfold unpackCab. keep. Qed.
#[export] Instance keeps_fromArchive buf depth : Keeps (fromArchive next buf depth).
Proof using Hnext XO. unfold fromArchive, unpackZip. keep. Qed.
#[export] Instance keeps_batch_files files : Keeps (batch_files next files).
Proof using Hnext. induction files as [|f files IH]; cbn [batch_files]; keep. Qed.
#[export] Instance keeps_batch buf depth : Keeps (fromBatchDropper next buf depth).
Proof using Hnext. unfold fromBatchDropper. keep. Qed.
End Next.

Section Deep.
Context (child : Child) (Hchild : ∀ d x, Keeps (child d x)).
#[local] Existing Instance Hchild.

#[export] Instance keeps_mime_part data depth admission : Keeps (emitMIMEPart child data depth admission).
Proof using Hchild. unfold emitMIMEPart. keep. Qed.
Lemma keeps_mime_leaf message h body depth parts complete : (∀ d n c, Keeps (message d n c)) → Keeps (mime_leaf child message h body depth parts complete).
Proof using Hchild. intros Hm. unfold mime_leaf. keep. Qed.
Lemma keeps_mime_loop entity l parts : (∀ h b n, Keeps (entity h b n)) → Keeps (mime_loop entity l parts).
Proof. intros He. revert parts. induction l as [|[h b] l IH]; intros parts; cbn [mime_loop]; keep. Qed.
#[export] Instance keeps_entity fuel h body depth parts complete : Keeps (walkMIMEEntity fuel child h body depth parts complete).
Proof using Hchild.
  revert h body depth parts complete. induction fuel as [|fuel IH]; intros h body depth parts complete; cbn [walkMIMEEntity]; [apply _|].
  keep; first [apply keeps_mime_loop; keep|apply keeps_mime_leaf; keep].
Qed.
#[export] Instance keeps_fromMIME buf depth : Keeps (fromMIME child buf depth).
Proof using Hchild. unfold fromMIME. keep. Qed.

#[export] Instance keeps_default data depth : Keeps (default_extractors child data depth).
Proof using Hchild XO. unfold default_extractors. keep; apply html_keeps; keep. Qed.
#[export] Instance keeps_walk_carrier data depth : Keeps (walk_carrier child data depth).
Proof using Hchild XO. unfold walk_carrier. keep; first [apply ole_keeps|apply rtf_keeps|apply html_keeps]; keep. Qed.
Lemma keeps_scratch (m : M bool) : Keeps m → Keeps (in_scratch m).
Proof.
  intros Hm s. unfold in_scratch. specialize (Hm (scratch s)). destruct (m (scratch s)) as [o s']. cbn in *. destruct Hm. constructor; try done.
Qed.
#[export] Instance keeps_depth data depth : Keeps (depthDefaultContent data depth).
Proof using XO.
  unfold depthDefaultContent, probing. destruct (batchWouldCarve data); [apply _|]. apply keeps_scratch. keep; apply html_keeps; keep.
Qed.
#[export] Instance keeps_body data depth : Keeps (child_body child depth data).
Proof using Hchild XO. unfold child_body. keep. Qed.
End Deep.

#[export] Instance keeps_extract_child fuel depth data : Keeps (extract_child fuel depth data).
Proof using XO. revert depth data. induction fuel as [|fuel IH]; intros depth data; cbn [extract_child]; [apply _|]. by apply keeps_body. Qed.
#[export] Instance keeps_extractChild depth data : Keeps (extractChild depth data).
Proof using XO. unfold extractChild. apply _. Qed.
#[export] Instance keeps_formats buf : Keeps (extract_formats buf).
Proof using XO.
  unfold extract_formats. destruct (carrier_of buf) as [| | | | | | | | | |[| |]]; try apply _;
    keep; first [apply ole_keeps|apply rtf_keeps|apply html_keeps]; keep.
Qed.
End Walks.
