(* ===== verification/ArchiveComplete.v ===== *)
(** * Nothing inside an archive is missed

    The walk ends within its fuel and its decryption caps, and unless a cap,
    a failure or the clock is on record, every readable member at every depth
    of nesting is published. *)

From Stdlib Require Import ZArith Lia FunctionalExtensionality.
From Stdlib Require Ascii String.
From stdpp Require Import base strings list numbers sets relations.
From S2P Require Import Prelude GoStd GoText Base64 GoRegexp DecodeRuns ScanVerdict Retained DecodeFold DecodeWalk DecodePlay DecodePrefilter RarSolid Sniff Cab Batch Screnc ArchiveState Carriers Archive ArchiveLogic.

Local Open Scope Z_scope.
Local Open Scope mailstrix_scope.
Local Open Scope archive_scope.

Section Complete.
Context {T : TextEnv} {MT : MediaTypes} {F : Inflate} {L : ArchiveLibs} {W : RequestEnv} {N : TnefLib} {X : Extractors} {XO : ExtractorsOk X}.

(** ** The fuel is enough *)

Definition agree (depth : Z) (c1 c2 : Child) : Prop := ∀ d, depth < d → c1 d = c2 d.

Lemma agree_up c1 c2 d d' : agree d c1 c2 → d <= d' → agree d' c1 c2.
Proof. intros H Hle e He. apply H. lia. Qed.

Lemma mime_loop_ext e1 e2 l : (∀ h b n, e1 h b n = e2 h b n) → ∀ n, mime_loop e1 l n = mime_loop e2 l n.
Proof. intros H. assert (e1 = e2) as -> by (do 3 (apply functional_extensionality; intros); apply H). done. Qed.

Lemma mime_leaf_ext c1 c2 m1 m2 h b depth parts complete : agree depth c1 c2 → (∀ x n c, m1 x n c = m2 x n c) →
  mime_leaf c1 m1 h b depth parts complete = mime_leaf c2 m2 h b depth parts complete.
Proof.
  intros Ha Hm. assert (m1 = m2) as -> by (do 3 (apply functional_extensionality; intros); apply Hm).
  unfold mime_leaf, emitMIMEPart. by rewrite (Ha (depth + 1)) by lia.
Qed.

Lemma walkMIMEEntity_ext c1 c2 fuel : ∀ h b depth parts complete, agree depth c1 c2 →
  walkMIMEEntity fuel c1 h b depth parts complete = walkMIMEEntity fuel c2 h b depth parts complete.
Proof.
  induction fuel as [|fuel IH]; intros h b depth parts complete Ha; [done|]. cbn [walkMIMEEntity].
  assert (∀ h b n c, walkMIMEEntity fuel c1 h b (depth + 1) n c = walkMIMEEntity fuel c2 h b (depth + 1) n c) as E by (intros; apply IH; eapply agree_up; [exact Ha|lia]).
  rewrite (mime_loop_ext (λ h b n, walkMIMEEntity fuel c1 h b (depth + 1) n complete) (λ h b n, walkMIMEEntity fuel c2 h b (depth + 1) n complete)) by (intros; apply E).
  rewrite (mime_leaf_ext c1 c2 _
    (λ data n c, match mail_ReadMessage data with
       | None => stopHit mimeHeaderCapHitKind;; ret n
       | Some (h, body) => if maxNestDepth <? depth + 1 then stopHit "mime-depth";; ret n else walkMIMEEntity fuel c2 h body (depth + 1) n c
       end) h b depth parts complete Ha); [done|]. intros x n c. destruct (mail_ReadMessage x) as [[h' b']|]; [|done]. by rewrite E.
Qed.

Lemma walk_carrier_ext c1 c2 data depth : agree depth c1 c2 → walk_carrier c1 data depth = walk_carrier c2 data depth.
Proof.
  intros Ha. unfold walk_carrier, default_extractors, fromMIME. rewrite (Ha (depth + 1)) by lia.
  destruct (carrier_of data) as [| | | | | | | | | |[| |]]; try done.
  destruct (mail_ReadMessage data) as [[h b]|]; [|done]. by rewrite (walkMIMEEntity_ext c1 c2 _ h b depth 0 true Ha).
Qed.

Lemma child_body_ext c1 c2 depth data : (depth <= maxNestDepth → agree depth c1 c2) → child_body c1 depth data = child_body c2 depth data.
Proof.
  intros Ha. unfold child_body. destruct (len data =? 0); [done|]. destruct (Z.ltb_spec maxNestDepth depth); [done|]. by rewrite (walk_carrier_ext c1 c2) by (apply Ha; lia).
Qed.

(** More fuel than one level for each depth still open changes nothing. *)
Lemma extract_child_fuel n : ∀ m depth, 1 <= Z.of_nat n → maxNestDepth + 2 - depth <= Z.of_nat n → (n <= m)%nat → extract_child m depth = extract_child n depth.
Proof.
  induction n as [|n IH]; intros m depth H1 Hn Hm; [lia|]. destruct m as [|m]; [lia|]. apply functional_extensionality. intros data. cbn [extract_child].
  apply child_body_ext. intros Hd d Hlt. apply IH; lia.
Qed.

Lemma extractChild_level depth data : 0 <= depth → extractChild depth data = child_body extractChild depth data.
Proof.
  intros Hd. unfold extractChild at 1. cbn [extract_child]. apply child_body_ext. intros Hmax d Hlt. unfold extractChild. apply extract_child_fuel; lia.
Qed.

Lemma walkMIMEEntity_fuel n : ∀ m child h b depth parts complete, 1 <= Z.of_nat n → maxNestDepth + 2 - depth <= Z.of_nat n → (n <= m)%nat →
  walkMIMEEntity m child h b depth parts complete = walkMIMEEntity n child h b depth parts complete.
Proof.
  induction n as [|n IH]; intros m child h b depth parts complete H1 Hn Hm; [lia|]. destruct m as [|m]; [lia|]. cbn [walkMIMEEntity].
  destruct (Z.ltb_spec maxNestDepth depth) as [|Hd]; [done|].
  assert (∀ h b n' c, walkMIMEEntity m child h b (depth + 1) n' c = walkMIMEEntity n child h b (depth + 1) n' c) as E by (intros; apply IH; lia).
  rewrite (mime_loop_ext (λ h b n', walkMIMEEntity m child h b (depth + 1) n' complete) (λ h b n', walkMIMEEntity n child h b (depth + 1) n' complete)) by (intros; apply E).
  rewrite (mime_leaf_ext child child _
    (λ data n' c, match mail_ReadMessage data with
       | None => stopHit mimeHeaderCapHitKind;; ret n'
       | Some (h, body) => if maxNestDepth <? depth + 1 then stopHit "mime-depth";; ret n' else walkMIMEEntity n child h body (depth + 1) n' c
       end) h b depth parts complete); [done|done|]. intros x n' c. destruct (mail_ReadMessage x) as [[h' b']|]; [|done]. by rewrite E.
Qed.

Lemma Index_bounds s p n : Index s p = Some n → 0 <= n ∧ n + len p <= len s.
Proof.
  revert n. induction s as [|c s IH]; intros n H; cbn [Index] in H; (destruct (strip_prefix p _) as [r|] eqn:E;
    [injection H as <-; apply strip_prefix_app in E; split; [done|]; rewrite E, string_app_len; pose proof (len_nonneg r); lia|]); [done|].
  destruct (Index s p) as [k|]; cbn in H; [|done]. injection H as <-. destruct (IH k eq_refl). rewrite string_length_S. lia.
Qed.

Lemma len_from n s : 0 <= n <= len s → len (from n s) = len s - n.
Proof. intros H. unfold from, len in *. rewrite string_drop_length. lia. Qed.

(** Every block of a script takes bytes: the fuel of [fromEncodedScript] is
    enough. *)
Lemma script_blocks_fuel n : ∀ m rest emitted, len rest < Z.of_nat n → (n <= m)%nat → script_blocks m rest emitted = script_blocks n rest emitted.
Proof.
  induction n as [|n IH]; intros m rest emitted Hn Hm; [pose proof (len_nonneg rest); lia|]. destruct m as [|m]; [lia|]. cbn [script_blocks].
  f_equal. apply functional_extensionality. intros stop. destruct (stop || _); [done|]. f_equal. apply functional_extensionality. intros e. destruct e; [done|].
  destruct (Index rest scriptStart) as [i|] eqn:E; [|done]. apply Index_bounds in E as [Hi Hl]. change (len scriptStart) with 4 in *.
  assert (len (from (i + 4) rest) = len rest - (i + 4)) as Hb by (apply len_from; lia).
  destruct (Z.ltb_spec (len (from (i + 4) rest)) 8) as [|H8]; [done|]. assert (len (from 8 (from (i + 4) rest)) = len rest - (i + 4) - 8) as Hb2 by (rewrite len_from; lia).
  destruct (Index (from 8 (from (i + 4) rest)) scriptEnd) as [k|] eqn:Ek; [|done]. apply Index_bounds in Ek as [Hk Hkl]. change (len scriptEnd) with 4 in *.
  f_equal. apply functional_extensionality. intros _. apply IH; [rewrite len_from; lia|lia].
Qed.

(** C30: the walk through carriers ends, and so does the guessing of passwords.
    [extractChild] is exactly its own body with [extractChild] called for what
    it finds, at any depth, and the walk of a message is unchanged by more
    rounds: the rounds given never run out.  On any input, with any libraries
    and any behaviour of the worker pool, at most 256 passwords are tried in
    all and at most 16 of them with a key derivation; once an attempt has
    stalled, no further one is made. *)
Theorem archive_walk_bounded :
  (∀ depth data, 0 <= depth → extractChild depth data = child_body extractChild depth data)
  ∧ (∀ n child h body depth parts c, depth <= maxNestDepth →
      walkMIMEEntity (Z.to_nat (maxNestDepth + 2 - depth) + n) child h body depth parts c = walkMIMEEntity (Z.to_nat (maxNestDepth + 2 - depth)) child h body depth parts c)
  ∧ (∀ limit buf, crypt_ok (extract_formats buf (fresh limit)).2)
  ∧ (∀ depth data s, a_stalled s = true → a_attempts (extractChild depth data s).2 = a_attempts s).
Proof.
  split_and!.
  - intros. by apply extractChild_level.
  - intros. unfold maxNestDepth, maxArchiveDepth in *. apply walkMIMEEntity_fuel; unfold maxNestDepth, maxArchiveDepth; lia.
  - intros limit buf. eapply g_crypt; [apply (keeps (m := extract_formats buf))|]. done.
  - intros depth data s Hs. by apply (g_stalled _ _ (keeps (m := extractChild depth data) s)).
Qed.

(** ** Runs on whose record nothing is missing *)

Context (room : bool).

(** No cap, refusal or panic is on record, and the clock had not run out at
    any of its readings.  Cabinets stop at the caps without a record: to count
    on them, the caps must not be reached. *)
Definition complete (s : AState) : Prop :=
  r_capHits (a_res s) = [] ∧ refused (a_res s) = false ∧ a_panicked s = false ∧ (∀ i, i < a_tick s → late i = false)
  ∧ (room = true → spent s = false ∧ full s = false).

Lemma full_grows s s' : grows s s' → full s = true → full s' = true.
Proof. intros H Hf. pose proof (g_streams _ _ H). unfold full in *. apply Z.leb_le in Hf. apply Z.leb_le. lia. Qed.
Lemma spent_grows s s' : grows s s' → spent s = true → spent s' = true.
Proof.
  intros H Hf. pose proof (g_members _ _ H). pose proof (g_total _ _ H). unfold spent in *. apply orb_true_iff in Hf as [Hf%Z.leb_le|Hf%Z.leb_le]; apply orb_true_iff; [left|right]; apply Z.leb_le; lia.
Qed.

Lemma complete_back s s' : grows s s' → complete s' → complete s.
Proof.
  intros H (Hc & Hr & Hp & Hl & Hcab). split_and!.
  - pose proof (g_caps _ _ H) as Hs. rewrite Hc in Hs. destruct (r_capHits (a_res s)) as [|k l]; [done|]. exfalso. specialize (Hs k ltac:(left)). by apply not_elem_of_nil in Hs.
  - destruct (refused (a_res s)) eqn:E; [|done]. apply (g_refused _ _ H) in E. congruence.
  - destruct (a_panicked s) eqn:E; [|done]. apply (g_panicked _ _ H) in E. congruence.
  - intros i Hi. apply Hl. pose proof (g_tick _ _ H). lia.
  - intros E. destruct (Hcab E) as [H1 H2]. split.
    + destruct (spent s) eqn:E2; [|done]. apply (spent_grows _ _ H) in E2. congruence.
    + destruct (full s) eqn:E2; [|done]. apply (full_grows _ _ H) in E2. congruence.
Qed.

(** [m] run from a state in [P] publishes [t], if nothing is missing at its
    end. *)
Definition offers {A} (P : AState → Prop) (m : M A) (t : string) : Prop := ∀ s v s', P s → m s = (Some v, s') → complete s' → t ∈ texts_of s'.
Definition anywhere (s : AState) : Prop := True.
Definition in_budget (s : AState) : Prop := spent s = false.

(** What a complete run returns. *)
Definition returns {A} (m : M A) (Q : A → Prop) : Prop := ∀ s v s', m s = (Some v, s') → complete s' → Q v.

Lemma offers_any {A} P (m : M A) t : offers anywhere m t → offers P m t.
Proof. intros H s v s' _. by apply H. Qed.

Lemma run_bind {A B} (m : M A) (k : A → M B) s v s' : (∀ a, Keeps (k a)) → bind m k s = (Some v, s') →
  ∃ a s1, m s = (Some a, s1) ∧ k a s1 = (Some v, s') ∧ grows s1 s'.
Proof.
  intros Hk H. unfold bind in H. destruct (m s) as [[a|] s1] eqn:E; [|done]. exists a, s1. split_and!; [done|done|]. pose proof (Hk a s1) as Hg. by rewrite H in Hg.
Qed.

Lemma offers_left {A B} P (m : M A) (k : A → M B) t : offers P m t → (∀ a, Keeps (k a)) → offers P (bind m k) t.
Proof.
  intros Hm Hk s v s' HP H Hc. destruct (run_bind m k s v s' Hk H) as (a & s1 & H1 & H2 & Hg). apply (g_texts _ _ Hg).
  eapply Hm; [exact HP|exact H1|]. by eapply complete_back.
Qed.

Lemma offers_right {A B} P (m : M A) (k : A → M B) t (Q : A → Prop) :
  returns m Q → (∀ a, Q a → offers anywhere (k a) t) → (∀ a, Keeps (k a)) → offers P (bind m k) t.
Proof.
  intros Hm Hq Hk s v s' HP H Hc. destruct (run_bind m k s v s' Hk H) as (a & s1 & H1 & H2 & Hg).
  eapply Hq; [|done|exact H2|exact Hc]. eapply Hm; [exact H1|]. by eapply complete_back.
Qed.

Lemma offers_after {A B} P (m : M A) (k : A → M B) t : (∀ a, offers anywhere (k a) t) → (∀ a, Keeps (k a)) → offers P (bind m k) t.
Proof. intros Hq. apply (offers_right P m k t (λ _, True)); [done|]. intros a _. apply Hq. Qed.

(** A stop that is on record. *)
Definition on_record {A} (m : M A) : Prop := ∀ s v s', m s = (Some v, s') → ¬ complete s'.

Lemma offers_record {A} P (m : M A) t : on_record m → offers P m t.
Proof. intros H s v s' _ Hm Hc. by destruct (H s v s' Hm). Qed.

Lemma stopHit_record kind : on_record (stopHit kind).
Proof.
  intros s v s' [= <- <-] (Hc & _). cbn in Hc. unfold capHit in Hc. destruct (mem kind (r_capHits (a_res s))) eqn:E; [|by destruct (r_capHits (a_res s))].
  rewrite Hc in E. done.
Qed.

Lemma record_left {A B} (m : M A) (k : A → M B) : on_record m → (∀ a, Keeps (k a)) → on_record (bind m k).
Proof.
  intros Hm Hk s v s' H Hc. destruct (run_bind m k s v s' Hk H) as (a & s1 & H1 & H2 & Hg). destruct (Hm _ _ _ H1). by eapply complete_back.
Qed.

Lemma record_after {A B} (m : M A) (k : A → M B) : (∀ a, on_record (k a)) → on_record (bind m k).
Proof. intros Hk s v s' H Hc. unfold bind in H. destruct (m s) as [[a|] s1]; [|done]. by eapply Hk. Qed.

(** The guards of the walks: no answer of a complete run is due to the
    clock. *)
Definition guards (g : M bool) : Prop := ∀ s v s', g s = (Some v, s') → complete s' → v = spent s' || full s'.

Lemma late_false s s' : s' = next_tick s → complete s' → late (a_tick s) = false.
Proof. intros -> (_ & _ & _ & Hl & _). apply Hl. cbn. lia. Qed.

Lemma guards_exhausted : guards exhausted.
Proof. intros s v s' H Hc. unfold exhausted in H. destruct (spent s || full s) eqn:E; injection H as <- <-; [done|]. rewrite (late_false s _ eq_refl Hc). done. Qed.
Lemma guards_exhausted_late : guards exhausted_late.
Proof.
  intros s v s' H Hc. unfold exhausted_late in H. destruct (spent s) eqn:E; injection H as <- <-; [by rewrite E|]. rewrite (late_false s _ eq_refl Hc).
  change (spent (next_tick s)) with (spent s). rewrite E. done.
Qed.
Lemma guards_gets : guards (gets (λ s, spent s || full s)).
Proof. by intros s v s' [= <- <-] Hc. Qed.

Lemma expired_false : returns expired (λ e, e = false).
Proof. intros s v s' [= <- <-] Hc. by apply (late_false s (next_tick s)). Qed.

(** At a cap, the cap hit is on record. *)
Lemma capped_record s v s' : spent s || full s = true → archiveCapHit s = (Some v, s') → ¬ complete s'.
Proof.
  unfold archiveCapHit. destruct (full s); [intros _ H; by eapply stopHit_record|]. rewrite orb_false_r. intros ->. intros H. by eapply stopHit_record.
Qed.

Definition capped {A} (m : M A) : Prop := ∀ s v s', spent s || full s = true → m s = (Some v, s') → ¬ complete s'.

Lemma capped_hit : capped archiveCapHit.
Proof. exact capped_record. Qed.
Lemma capped_hit_ret {A} (a : A) : capped (archiveCapHit;; ret a).
Proof.
  intros s v s' Hs H Hc. destruct (run_bind _ _ s v s' _ H) as (u & s1 & H1 & H2 & Hg). eapply capped_record; [exact Hs|exact H1|]. by eapply complete_back.
Qed.

Lemma offers_guard {A} P g (stop k : M A) t : guards g → capped stop → Keeps stop → Keeps k → offers anywhere k t →
  offers P (bind g (λ b, if b : bool then stop else k)) t.
Proof.
  intros Hg Hs Hk1 Hk2 Hk s v s' _ H Hc. destruct (run_bind _ _ s v s' _ H) as (b & s1 & H1 & H2 & Hgr).
  pose proof (Hg _ _ _ H1 (complete_back _ _ Hgr Hc)) as Hb. destruct b; [|by eapply Hk].
  exfalso. eapply Hs; [|exact H2|exact Hc]. done.
Qed.

Lemma offers_budget {A} g (stop k : M A) t : g = spent_or_late → Keeps stop → Keeps k → offers anywhere k t →
  offers in_budget (bind g (λ b, if b : bool then stop else k)) t.
Proof.
  intros -> Hk1 Hk2 Hk s v s' HP H Hc. destruct (run_bind _ _ s v s' _ H) as (b & s1 & H1 & H2 & Hgr). unfold spent_or_late in H1. unfold in_budget in HP. rewrite HP in H1.
  injection H1 as Eb Es. subst b s1. rewrite (late_false s _ eq_refl (complete_back _ _ Hgr Hc)) in H2. by eapply Hk.
Qed.

(** ** Members *)

(** The walk of the child is on record, or publishes [t]. *)
Definition reaches (next : Next) (data t : string) : Prop := data = t ∨ offers anywhere (next data) t.

Lemma append_publishes own data s v s' : append_text own data s = (Some v, s') → complete s' → v = true ∧ data ∈ texts_of s'.
Proof.
  unfold append_text. intros H Hc. destruct (allocate data (a_res s)) as [p r] eqn:Ea. pose proof (append_same p own r) as Hs. destruct (append_stream own p r) as [ok r'].
  injection H as <- <-. destruct Hs as (Hs & _ & _). destruct Hc as (_ & Hr & _). cbn in Hr. destruct ok.
  - split; [done|]. destruct Hs as (p' & E & Ht). unfold texts_of, texts. cbn. rewrite E, fmap_app. apply elem_of_app. right. cbn. rewrite Ht.
    injection Ea as <- <-. cbn. by left.
  - destruct Hs as [_ Hr']. congruence.
Qed.

Section Next.
Context (next : Next) (Hnext : ∀ x, Keeps (next x)).
#[local] Existing Instance Hnext.

Lemma recovered_offers P (m : M unit) t : offers P m t → offers P (recovered m) t.
Proof.
  intros Hm s v s' HP H Hc. unfold recovered in H. destruct (m s) as [[u|] s1] eqn:E; injection H as <- <-; [by eapply Hm|]. destruct Hc as (_ & _ & Hp & _). done.
Qed.

Lemma emit_offers P data t : minMemberBytes <= len data → reaches next data t → offers P (emitMember next data) t.
Proof.
  intros Hl Hr. unfold emitMember. apply recovered_offers. rewrite (proj2 (Z.ltb_ge _ _)) by done. apply offers_guard; [exact guards_gets|exact capped_hit|apply _|keep|].
  intros s v s' _ H Hc. destruct (run_bind _ _ s v s' _ H) as (ok & s1 & H1 & H2 & Hg). destruct (append_publishes _ _ _ _ _ H1 (complete_back _ _ Hg Hc)) as [-> Ht].
  destruct Hr as [->|Hr]; [by apply (g_texts _ _ Hg)|]. cbn [negb] in H2.
  assert (offers anywhere (count_member (len data);; set_archive;; next data) t) as Ho by (repeat (apply offers_after; [intros _|keep]); done). by eapply Ho.
Qed.

(** A read that was not cut delivers the whole. *)
Lemma trunc_whole r d : minMemberBytes <= len (rd_bytes r) → readMemberTrunc r = Some (d, false) → d = Some (rd_bytes r).
Proof.
  intros Hl E. unfold readMemberTrunc in E. unfold minMemberBytes in Hl.
  assert (len (rd_bytes r) <= maxBytesPerMember → clamp maxBytesPerMember (rd_bytes r) = rd_bytes r) as Hu
    by (intros; by apply clamp_short).
  destruct (Z.ltb_spec (len (rd_bytes r)) maxBytesPerMember).
  - rewrite Hu in E by lia. rewrite (proj2 (Z.eqb_neq _ 0)) in E by lia. by destruct (rd_end r); simplify_eq.
  - destruct (Z.ltb_spec maxBytesPerMember (len (rd_bytes r))); [by destruct (rd_end r)|]. rewrite Hu in E by lia. by destruct (rd_end r); simplify_eq.
Qed.

(** What a reader delivers, where nothing was cut. *)
Lemma read_returns r : minMemberBytes <= len (rd_bytes r) → returns (readMemberRes r) (λ d, d = Some (rd_bytes r)).
Proof.
  intros Hl s v s' H Hc. unfold readMemberRes in H. apply run_bind in H as ([d tr] & s1 & H1 & H2 & Hg); [|keep].
  destruct (readMemberTrunc r) as [[d' tr']|] eqn:E; [|done]. injection H1 as -> -> <-.
  assert (tr = false) as ->.
  { destruct tr; [|done]. apply run_bind in H2 as (u & s2 & H3 & H4 & Hg2); [|keep]. destruct (stopHit_record _ _ _ _ H3). by eapply complete_back. }
  injection H2 as <- <-. by apply trunc_whole.
Qed.

Lemma read_emit_offers P r t : minMemberBytes <= len (rd_bytes r) → reaches next (rd_bytes r) t →
  offers P (data <- readMemberRes r;; emit_read next data) t.
Proof.
  intros Hl Hr. eapply (offers_right _ _ _ _ _ (read_returns r Hl)); [|keep]. intros d ->. by apply emit_offers.
Qed.

Lemma emit_zip_offers P name data t : minMemberBytes <= len data → reaches next data t → offers P (emitZipMember next name (Some data)) t.
Proof.
  intros Hl Hr. unfold emitZipMember. apply offers_after; [|keep]. intros before. apply offers_left; [by apply emit_offers|keep].
Qed.

(** *** Zip *)

Lemma visit_order files f : f ∈ files → ∃ i, (i, f) ∈ zipVisitOrder files.
Proof.
  intros Hf. apply list_elem_of_lookup_1 in Hf as [i Hi]. exists i. unfold zipVisitOrder.
  assert ((i, f) ∈ imap (λ i f, (i, f)) files) as He by (apply elem_of_lookup_imap; by exists i, f).
  apply elem_of_app. destruct (is_priority f) eqn:E; [left|right]; apply list_elem_of_filter; by split.
Qed.

Lemma zip_loop_offers buf t i f : offers anywhere (zip_member next buf i f) t → ∀ entries n, (i, f) ∈ entries → offers anywhere (zip_loop next buf n entries) t.
Proof.
  intros Hm. induction entries as [|[j g] entries IH]; intros n Hin; [by apply not_elem_of_nil in Hin|]. cbn [zip_loop].
  destruct (maxZipEntries <=? n); [apply offers_record, record_left; [apply stopHit_record|keep]|].
  apply offers_guard; [exact guards_exhausted|exact capped_hit|apply _|keep|]. apply elem_of_cons in Hin as [[= <- <-]|Hin].
  - apply offers_left; [done|keep].
  - apply offers_after; [|keep]. intros _. by apply IH.
Qed.

Definition zip_readable (f : ZipFile) (r : reading) : Prop :=
  zf_IsDir f = false ∧ ends_in_slash (zf_Name f) = false ∧ zf_Encrypted f = false ∧ zf_Open f = Some r.

Lemma zip_member_offers buf i f r t : zip_readable f r → minMemberBytes <= len (rd_bytes r) → reaches next (rd_bytes r) t →
  offers anywhere (zip_member next buf i f) t.
Proof.
  intros (Hd & Hs & He & Ho) Hl Hr. unfold zip_member. rewrite Hd, Hs, He, Ho. cbn [orb]. destruct (maxBytesPerMember <? _); [apply offers_record, stopHit_record|].
  eapply (offers_right _ _ _ _ _ (read_returns r Hl)); [|keep]. intros d ->. by apply emit_zip_offers.
Qed.

Lemma zip_reader_offers P files buf f r t : f ∈ files → zip_readable f r → minMemberBytes <= len (rd_bytes r) → reaches next (rd_bytes r) t →
  offers P (unpackZipReader next files buf) t.
Proof.
  intros Hf Hz Hl Hr. unfold unpackZipReader. apply offers_after; [|keep]. intros _. destruct (visit_order files f Hf) as [i Hi].
  apply (zip_loop_offers buf t i f); [by eapply zip_member_offers|done].
Qed.

(** A sibling of an Office document's parts that the walk cracks. *)
Definition nested_carrier (data : string) : bool :=
  HasPrefix data zipMagic || isArchive data || HasPrefix data oleMagic || isPDF data || isRTF data || isLNK data || isOneNote data || isTNEF data
  || bool_decide (isValidPE data = Some true).

Definition carrier_readable (f : ZipFile) (r : reading) : Prop :=
  isOfficePartName (zf_Name f) = false ∧ zf_Name f ≠ msixManifestName ∧ zf_UncompressedSize64 f <= maxBytesPerBin ∧ zf_Open f = Some r
  ∧ minMemberBytes <= len (rd_bytes r) <= maxBytesPerBin ∧ nested_carrier (rd_bytes r) = true.

Lemma isNestedCarrier_true data : nested_carrier data = true → isNestedCarrier data = ret true ∨ isNestedCarrier data = bind (ret true) (λ pe, ret (pe || HasPrefix data cabMagic)).
Proof.
  unfold nested_carrier, isNestedCarrier. intros H. destruct (_ || isTNEF data); [by left|]. right. cbn [orb] in H. apply bool_decide_eq_true in H. by rewrite H.
Qed.

Lemma entry_returns f r : zf_Open f = Some r → 0 < len (rd_bytes r) <= maxBytesPerBin → returns (readZipEntry f) (λ d, d = Some (rd_bytes r)).
Proof.
  intros Ho Hl s v s' H Hc. unfold readZipEntry in H. rewrite Ho in H.
  assert (clamp maxBytesPerBin (rd_bytes r) = rd_bytes r) as Hu by (apply clamp_short; lia). rewrite Hu in H.
  destruct (_ <? _); [|by injection H as <- _]. destruct (rd_end r); [by injection H as <- _| |done]. rewrite (proj2 (Z.eqb_neq _ 0)) in H by lia. by injection H as <- _.
Qed.

Lemma carrier_member_offers P f r t : carrier_readable f r → reaches next (rd_bytes r) t → offers P (carrier_member next f) t.
Proof.
  intros (Hn & Hm & Hz & Ho & Hl & Hc) Hr. unfold carrier_member. rewrite Hn, (proj2 (Z.ltb_ge _ _)) by lia.
  assert (0 < len (rd_bytes r) <= maxBytesPerBin) as Hl2 by (unfold minMemberBytes in Hl; lia).
  eapply (offers_right _ _ _ _ _ (entry_returns f r Ho Hl2)); [|keep]. intros d ->. cbn [default id]. rewrite (proj2 (Z.eqb_neq _ 0)) by lia.
  rewrite bool_decide_eq_false_2 by done. intros s v s' _ H Hcm. unfold bind at 1, ret at 1 in H. cbn [length Nat.eqb negb] in H.
  assert (isNestedCarrier (rd_bytes r) s = (Some true, s)) as Hcar by (destruct (isNestedCarrier_true _ Hc) as [E|E]; by rewrite E).
  unfold bind at 1 in H. rewrite Hcar in H. cbn [negb] in H. destruct (run_bind _ _ s v s' _ H) as (ok & s1 & H1 & H2 & Hg).
  destruct (append_publishes _ _ _ _ _ H1 (complete_back _ _ Hg Hcm)) as [-> Ht]. destruct Hr as [<-|Hr]; [by apply (g_texts _ _ Hg)|]. cbn [negb] in H2.
  assert (offers anywhere (count_member (len (rd_bytes r));; next (rd_bytes r)) t) as Hof by (apply offers_after; [intros _; done|keep]). by eapply Hof.
Qed.

Lemma carrier_loop_offers t f : offers anywhere (carrier_member next f) t → ∀ files i, f ∈ files → offers anywhere (carrier_loop next i files) t.
Proof.
  intros Hm. induction files as [|g files IH]; intros i Hin; [by apply not_elem_of_nil in Hin|]. cbn [carrier_loop].
  destruct (maxZipEntries <=? i); [apply offers_record, record_left; [apply stopHit_record|keep]|].
  apply offers_guard; [exact guards_exhausted_late|exact capped_hit|apply _|keep|]. apply elem_of_cons in Hin as [<-|Hin].
  - apply offers_left; [done|keep].
  - apply offers_after; [|keep]. intros _. by apply IH.
Qed.

Lemma zip_walk_offers buf depth m t : HasPrefix buf zipMagic = true → Keeps m → offers anywhere m t →
  offers in_budget (ok <- zipMemberWalkOK buf depth;; if ok : bool then m else ret tt) t.
Proof.
  intros Hp Hk Hm. unfold zipMemberWalkOK. rewrite Hp. cbn [negb]. destruct (maxArchiveDepth <? depth).
  - apply offers_record. apply record_left; [apply record_left; [apply stopHit_record|keep]|keep].
  - intros s v s' HP H Hc. unfold in_budget in HP. unfold bind at 1, bind at 1, spent_or_late in H. rewrite HP in H. cbn [expired] in H. cbn in H.
    pose proof (Hk (next_tick s)) as Hg. destruct (late (a_tick s)) eqn:El; cbn in H.
    + injection H as _ <-. rewrite (late_false s _ eq_refl Hc) in El. done.
    + by eapply Hm.
Qed.

(** *** Gzip and tar *)

Lemma tar_loop_offers t m members : m ∈ members → th_regular m = true → th_Size m ≠ 0 → minMemberBytes <= len (rd_bytes (th_body m)) →
  reaches next (rd_bytes (th_body m)) t → offers anywhere (tar_loop next members) t.
Proof.
  intros Hin Hreg Hsz Hl Hr. induction members as [|g members IH]; [by apply not_elem_of_nil in Hin|]. cbn [tar_loop].
  apply (offers_guard anywhere exhausted archiveCapHit); [exact guards_exhausted|exact capped_hit|apply _|keep|]. apply elem_of_cons in Hin as [<-|Hin].
  - apply offers_left; [|keep]. rewrite Hreg, (proj2 (Z.eqb_neq _ 0)) by done. cbn [negb orb].
    destruct (maxBytesPerMember <? th_Size m); [apply offers_record, stopHit_record|by apply read_emit_offers].
  - apply offers_after; [|keep]. intros _. by apply IH.
Qed.

Lemma gzip_offers P buf r t : gzip_NewReader buf = Some r → minMemberBytes <= len (rd_bytes r) →
  (if looksLikeTar (rd_bytes r) then ∃ m, m ∈ tar_members (rd_bytes r) ∧ th_regular m = true ∧ th_Size m ≠ 0 ∧ minMemberBytes <= len (rd_bytes (th_body m)) ∧ reaches next (rd_bytes (th_body m)) t
   else reaches next (rd_bytes r) t) → offers P (unpackGzip next buf) t.
Proof.
  intros Hg Hl Hr. unfold unpackGzip. rewrite Hg. apply offers_after; [|keep]. intros _.
  eapply (offers_right _ _ _ _ _ (read_returns r Hl)); [|keep]. intros d ->. cbn [default id]. unfold minMemberBytes in Hl. rewrite (proj2 (Z.eqb_neq _ 0)) by lia.
  destruct (looksLikeTar (rd_bytes r)); [|by apply emit_offers]. destruct Hr as (m & Hm & Hreg & Hsz & Hml & Hr).
  unfold unpackTar. apply offers_after; [|keep]. intros _. by eapply tar_loop_offers.
Qed.

(** *** 7-Zip *)

Definition seven_readable (f : SevenFile) (r : reading) : Prop :=
  sf_IsDir f = false ∧ sf_Open f = LOk r ∧ rd_end r = REof ∧ minMemberBytes <= len (rd_bytes r) <= maxBytesPerMember.

(** A decoder that ran to its end; any other end is on record. *)
Lemma plain_returns {A} (fn : option A) : returns (runPlainDecoder fn) (λ v, v = fn ∧ is_Some fn).
Proof.
  intros s v s' H Hc. unfold runPlainDecoder in H. apply run_bind in H as ([[w ran] stalled] & s1 & H1 & H2 & Hg); [|keep].
  apply run_bind in H2 as (u & s2 & H3 & H4 & Hg2); [|keep]. destruct w as [a|].
  - injection H4 as <- <-. unfold runBoundedRan in H1. destruct (worker (a_tick s)); simplify_eq; by eauto.
  - exfalso. apply run_bind in H4 as (e & s3 & H5 & H6 & Hg3); [|keep]. pose proof (expired_false _ _ _ H5 (complete_back _ _ Hg3 Hc)) as ->.
    apply run_bind in H6 as (u2 & s4 & H7 & H8 & Hg4); [|keep]. eapply stopHit_record; [exact H7|]. by eapply complete_back.
Qed.

Lemma seven_member_offers P buf i f dec r t : seven_readable f r → reaches next (rd_bytes r) t → offers P (seven_member next buf i f dec) t.
Proof.
  intros (Hd & Ho & He & Hl) Hr. unfold seven_member. rewrite Hd. destruct (maxBytesPerMember <? _); [apply offers_record, record_left; [apply stopHit_record|keep]|].
  assert (open7zMemberPlain f = Some (Bytes (rd_bytes r))) as E.
  { unfold open7zMemberPlain. rewrite Ho, He. assert (clamp maxBytesPerMember (rd_bytes r) = rd_bytes r) as -> by (apply clamp_short; lia). by destruct (_ <=? _). }
  rewrite E. eapply (offers_right _ _ _ _ _ (plain_returns _)); [|keep]. intros v [-> _]. apply offers_left; [|keep]. apply emit_offers; [lia|done].
Qed.

Lemma seven_loop_offers buf t f r : seven_readable f r → reaches next (rd_bytes r) t → ∀ files i dec, f ∈ files → offers anywhere (seven_loop next buf i files dec) t.
Proof.
  intros Hf Hr. induction files as [|g files IH]; intros i dec Hin; [by apply not_elem_of_nil in Hin|]. cbn [seven_loop].
  apply (offers_guard anywhere exhausted archiveCapHit); [exact guards_exhausted|exact capped_hit|apply _|keep|]. apply elem_of_cons in Hin as [<-|Hin].
  - apply offers_left; [by eapply seven_member_offers|keep].
  - apply offers_after; [|keep]. intros dec'. by apply IH.
Qed.

Lemma seven_offers P buf files f r t : sevenzip_NewReader buf None = LOk files → f ∈ files → seven_readable f r → reaches next (rd_bytes r) t →
  offers P (unpack7z next buf) t.
Proof.
  intros Ho Hin Hf Hr. unfold unpack7z, run_open. rewrite Ho. eapply (offers_right _ _ _ _ _ (plain_returns _)); [|keep]. intros v [-> _].
  apply offers_after; [|keep]. intros _. by eapply seven_loop_offers.
Qed.

(** *** RAR *)

Definition rar_readable (h : RarHeader) (r : reading) : Prop :=
  rh_IsDir h = false ∧ rar_hidden h = false ∧ minMemberBytes <= len (rd_bytes r).

(** The members of an archive in the order a reader counts them. *)
Definition rar_files (entries : list (RarHeader * reading)) : list (RarHeader * reading) := filter (λ e, rh_IsDir e.1 = false) entries.

Lemma rar_member_files entries : ∀ idx, rar_member entries idx = snd <$> rar_files entries !! idx.
Proof.
  induction entries as [|[h r] entries IH]; intros idx; [done|]. cbn [rar_member]. unfold rar_files in *. rewrite filter_cons. cbn [fst].
  destruct (rh_IsDir h); [by rewrite decide_False by done|]. rewrite decide_True by done. by destruct idx.
Qed.

Lemma rar_plain_offers P buf idx h emitted rr r t : rardecode_NewReader buf None = LOk rr → rar_member (rr_entries rr) idx = Some r →
  minMemberBytes <= len (rd_bytes r) → reaches next (rd_bytes r) t → offers P (rar_plain next buf idx h emitted) t.
Proof.
  intros Ho Hm Hl Hr. unfold rar_plain. destruct (maxBytesPerMember <? _); [apply offers_record, record_left; [apply stopHit_record|keep]|].
  unfold boundedRarMemberFresh, readRarMemberFresh. rewrite Ho, Hm. eapply (offers_right _ _ _ _ _ (plain_returns _)); [|keep]. intros v [-> [[d tr] E]]. rewrite E.
  destruct tr; [apply offers_record, record_left; [apply stopHit_record|keep]|]. apply offers_after; [|keep]. intros _.
  rewrite (trunc_whole r d Hl E). apply offers_left; [by apply emit_offers|keep].
Qed.

(** No password is tried: there is no candidate, or nothing is encrypted. *)
Definition no_crack (entries : list (RarHeader * reading)) : Prop := pwCandidates = [] ∨ Forall (λ e, rar_hidden e.1 = false) entries.

Lemma ret_returns {A} (a : A) : returns (ret a) (λ b, b = a).
Proof. by intros s v s' [= -> _]. Qed.

Lemma rar_walk_offers buf rr h r t e : rardecode_NewReader buf None = LOk rr → rar_readable h r → reaches next (rd_bytes r) t →
  ∀ entries pre emitted, rar_files (rr_entries rr) = pre ++ rar_files entries → (h, r) ∈ entries → no_crack entries →
  offers anywhere (rar_walk next buf (length pre) entries e emitted) t.
Proof.
  intros Ho (Hd & Hh & Hl) Hr. induction entries as [|[g q] entries IH]; intros pre emitted Hpre Hin Hnc; [by apply not_elem_of_nil in Hin|]. cbn [rar_walk].
  assert (no_crack entries) as Hnc' by (destruct Hnc as [|Hnc]; [by left|right; by apply list.Forall_cons in Hnc as [_ Hnc]]).
  apply (offers_guard anywhere exhausted (archiveCapHit;; ret emitted)); [exact guards_exhausted|apply capped_hit_ret|keep|keep|].
  unfold rar_files in Hpre. rewrite filter_cons in Hpre. cbn [fst] in Hpre. destruct (rh_IsDir g) eqn:Eg.
  { rewrite decide_False in Hpre by done. apply elem_of_cons in Hin as [[= <- <-]|Hin]; [congruence|]. by apply IH. }
  rewrite decide_True in Hpre by done.
  assert (∀ em, (h, r) ∈ entries → offers anywhere (rar_walk next buf (Datatypes.S (length pre)) entries e em) t) as Hrest.
  { intros em Hin'. replace (Datatypes.S (length pre)) with (length (pre ++ [(g, q)])) by (rewrite length_app; cbn; lia). apply IH; [|done|done]. by rewrite <- app_assoc. }
  destruct (rh_Solid g); [apply offers_record, record_left; [unfold drop_solid; apply record_after; intros _; apply stopHit_record|keep]|].
  destruct (rar_hidden g) eqn:Ehg.
  - apply elem_of_cons in Hin as [[= <- <-]|Hin]; [congruence|].
    destruct Hnc as [Hpw|Hnc]; [|apply list.Forall_cons in Hnc as [Hg _]; cbn in Hg; congruence]. unfold crack_and_rewalk. rewrite Hpw. cbn [length Nat.eqb].
    eapply (offers_right _ _ _ _ _ (ret_returns _)); [|keep]. intros a ->. apply offers_after; [|keep]. intros _. by apply Hrest.
  - apply elem_of_cons in Hin as [[= <- <-]|Hin].
    + apply offers_left; [|keep]. eapply rar_plain_offers; [done| |done|done]. rewrite rar_member_files. unfold rar_files. rewrite Hpre, list_lookup_middle by done. done.
    + apply offers_after; [|keep]. intros em. by apply Hrest.
Qed.

Lemma rar_offers P buf rr h r t : rarArchiveIsSolid buf = Some false → rardecode_NewReader buf None = LOk rr → (h, r) ∈ rr_entries rr → rar_readable h r →
  no_crack (rr_entries rr) → reaches next (rd_bytes r) t → offers P (unpackRar next buf) t.
Proof.
  intros Hs Ho Hin Hh Hnc Hr. unfold unpackRar. rewrite Hs. eapply (offers_right _ _ _ _ (λ b, b = false)); [by intros s v s' [= -> _]| |keep]. intros b ->.
  unfold run_open. rewrite Ho. eapply (offers_right _ _ _ _ _ (plain_returns _)); [|keep]. intros v [-> _].
  apply offers_after; [|keep]. intros _. apply offers_left; [|keep]. by eapply (rar_walk_offers buf rr h r t _ Ho Hh Hr (rr_entries rr) []).
Qed.

(** *** Cabinets *)

Definition cab_readable (buf : string) (folders : list cfFolder) (files : list cfFile) (cb : Z) (m : string) : Prop :=
  ∃ fi folder f data capped, folders !! fi = Some folder ∧ f ∈ files ∧ iFolder f = Z.of_nat fi
    ∧ Z.land (typeCompress folder) 255 ≠ 2 ∧ Z.land (typeCompress folder) 255 ≠ 3
    ∧ decompressCabFolder buf folder cb (Z.land (typeCompress folder) 255) = Some (data, capped) ∧ cab_member f data = Some m ∧ minMemberBytes <= len m.

(** A cabinet's walk stops silently only at a cap. *)
Lemma cab_guard_offers P m t : room = true → Keeps m → offers anywhere m t → offers P (stop <- late_or_exhausted;; if stop : bool then ret tt else m) t.
Proof.
  intros Hcab Hk Hm s v s' _ H Hc. apply run_bind in H as (b & s1 & H1 & H2 & Hg); [|keep]. unfold late_or_exhausted in H1.
  pose proof (complete_back _ _ Hg Hc) as Hc1. destruct (late (a_tick s)) eqn:El; injection H1 as <- <-.
  - rewrite (late_false s _ eq_refl Hc1) in El. done.
  - destruct Hc1 as (_ & _ & _ & _ & Hroom). destruct (Hroom Hcab) as [H1 H3]. change (spent (next_tick s)) with (spent s) in H1. change (full (next_tick s)) with (full s) in H3.
    rewrite H1, H3 in H2. by eapply Hm.
Qed.

Lemma lift_returns {A} (o : option A) : returns (lift o) (λ a, o = Some a).
Proof. intros s v s' H _. destruct o; [by injection H as -> _|done]. Qed.

Lemma cab_files_offers fi data capped f m t : room = true → iFolder f = fi → cab_member f data = Some m → minMemberBytes <= len m → reaches next m t →
  ∀ files, f ∈ files → offers anywhere (cab_files next fi data capped files) t.
Proof.
  intros Hcab Hfi Hm Hl Hr. induction files as [|g files IH]; intros Hin; [by apply not_elem_of_nil in Hin|]. cbn [cab_files].
  apply elem_of_cons in Hin as [<-|Hin].
  - rewrite (proj2 (Z.eqb_eq _ _) Hfi). cbn [negb]. apply cab_guard_offers; [done|keep|]. apply offers_after; [|keep]. intros _.
    eapply (offers_right _ _ _ _ _ (lift_returns _)); [|keep]. intros m' E. assert (m' = m) as -> by congruence. rewrite (proj2 (Z.eqb_neq _ 0)) by (unfold minMemberBytes in Hl; lia).
    apply offers_left; [by apply emit_offers|keep].
  - destruct (negb _); [by apply IH|]. apply cab_guard_offers; [done|keep|]. apply offers_after; [|keep]. intros _. apply offers_after; [|keep]. intros m'.
    apply offers_after; [|keep]. intros _. by apply IH.
Qed.

Lemma cab_folders_offers buf files cb t i folder f data capped m : room = true → f ∈ files →
  Z.land (typeCompress folder) 255 ≠ 2 → Z.land (typeCompress folder) 255 ≠ 3 →
  decompressCabFolder buf folder cb (Z.land (typeCompress folder) 255) = Some (data, capped) → cab_member f data = Some m → minMemberBytes <= len m → reaches next m t →
  ∀ folders fi noted, folders !! i = Some folder → iFolder f = fi + Z.of_nat i → offers anywhere (cab_folders next buf fi folders files cb noted) t.
Proof.
  intros Hcab Hf H2 H3 Hd Hm Hl Hr folders. revert i. induction folders as [|g folders IH]; intros i fi noted Hi Hfi; [done|]. cbn [cab_folders].
  apply cab_guard_offers; [done|keep|]. destruct i as [|i].
  - injection Hi as ->. rewrite !(proj2 (Z.eqb_neq _ _)) by done. cbn [orb]. rewrite Hd. eapply (offers_right _ _ _ _ _ (lift_returns _)); [|keep].
    intros x Ex. assert (x = (data, capped)) as -> by congruence. apply offers_left; [|keep]. eapply (cab_files_offers fi data capped f m t); try done. lia.
  - destruct (_ || _).
    + apply offers_after; [|keep]. intros _. apply (IH i); [done|lia].
    + apply offers_after; [|keep]. intros [d c]. apply offers_after; [|keep]. intros _. apply (IH i); [done|lia].
Qed.

Lemma cab_offers P buf folders files cb m t : room = true → HasPrefix buf cabMagic = true → cab_parse buf = Some (Some (folders, files, cb)) →
  cab_readable buf folders files cb m → reaches next m t → offers P (unpackCab next buf) t.
Proof.
  intros Hcab Hp Hparse (fi & folder & f & data & capped & Hfi & Hf & Hif & H2 & H3 & Hd & Hm & Hl) Hr. unfold unpackCab. rewrite Hp.
  assert (len buf <? 36 = false) as ->. { unfold cab_parse in Hparse. by destruct (len buf <? 36). } cbn [negb orb].
  apply offers_after; [|keep]. intros _. rewrite Hparse. eapply (offers_right _ _ _ _ _ (lift_returns _)); [|keep]. intros x Ex. assert (x = Some (folders, files, cb)) as -> by congruence.
  by eapply (cab_folders_offers buf files cb t fi folder f data capped m).
Qed.

(** *** Carved children *)

Lemma room_open s s' : room = true → grows s s' → complete s' → spent s = false ∧ full s = false.
Proof. intros Hr Hg Hc. by destruct (complete_back _ _ Hg Hc) as (_ & _ & _ & _ & Hroom); apply Hroom. Qed.

Lemma format_cap_open a b c d kind : returns (formatCapReached a b c d kind) (λ stop, stop = false).
Proof.
  intros s v s' H Hc. unfold formatCapReached in H.
  assert (∀ k, (stopHit k;; ret true) s = (Some v, s') → v = false) as Hstop.
  { intros k Hk. exfalso. assert (on_record (stopHit k;; ret true)) as Hrec by (apply record_left; [apply stopHit_record|keep]). by eapply Hrec. }
  destruct (_ || _); [by apply (Hstop kind)|]. unfold bind at 1, gets in H. destruct (full s); [by apply (Hstop "streams")|by injection H as <- _].
Qed.

Lemma carve_offers P b t : room = true → reaches next b t → offers P (carve_child next b) t.
Proof.
  intros Hroom Hr s v s' _ H Hc. unfold carve_child in H. destruct (run_bind _ _ s v s' _ H) as (ok & s1 & H1 & H2 & Hg). destruct (append_publishes _ _ _ _ _ H1 (complete_back _ _ Hg Hc)) as [-> Ht].
  destruct Hr as [->|Hr]; [by apply (g_texts _ _ Hg)|]. unfold bind at 1, gets in H2. rewrite (proj1 (room_open _ _ Hroom Hg Hc)) in H2. cbn [andb negb] in H2.
  assert (offers anywhere (count_member (len b);; next b) t) as Ho by (apply offers_after; [intros _; done|keep]). by eapply Ho.
Qed.

(** The objects of a section, without the caps. *)
Fixpoint one_objects (fuel : nat) (rest : string) : list string :=
  match fuel with
  | O => []
  | Datatypes.S fuel =>
      match Index rest oneFDSOHeaderGUID with
      | None => []
      | Some i =>
          let hdr := from i rest in
          if len hdr <? oneFDSODataOffset then []
          else
            match u64_at 16 hdr with
            | None => []
            | Some cb =>
                let data := from oneFDSODataOffset hdr in
                let n := Z.min (Z.min cb maxBytesPerONEFile) (len data) in
                (if 0 <? n then [upto n data] else []) ++ one_objects fuel (from (oneFDSODataOffset + n) hdr)
            end
      end
  end.
Definition onenote_files (buf : string) : list string := one_objects (Datatypes.S (String.length buf)) buf.

Lemma onenote_loop_offers b t : room = true → reaches next b t → ∀ fuel rest total emitted, b ∈ one_objects fuel rest → offers anywhere (onenote_loop fuel next rest total emitted) t.
Proof.
  intros Hroom Hr. induction fuel as [|fuel IH]; intros rest total emitted Hin; cbn [one_objects onenote_loop] in *; [by apply not_elem_of_nil in Hin|].
  eapply (offers_right _ _ _ _ _ expired_false); [|keep]. intros e ->. destruct (Index rest oneFDSOHeaderGUID) as [i|]; [|by apply not_elem_of_nil in Hin]. cbv zeta in *.
  destruct (len (from i rest) <? oneFDSODataOffset); [by apply not_elem_of_nil in Hin|]. eapply (offers_right _ _ _ _ _ (lift_returns _)); [|keep]. intros cb E. rewrite E in Hin.
  destruct (0 <? _).
  - eapply (offers_right _ _ _ _ _ (format_cap_open _ _ _ _ _)); [|keep]. intros stop ->. apply elem_of_app in Hin as [->%list_elem_of_singleton|Hin].
    + apply offers_left; [by apply carve_offers|keep].
    + apply offers_after; [|keep]. intros _. by apply IH.
  - by apply IH.
Qed.

Lemma onenote_offers P buf b t : room = true → b ∈ onenote_files buf → reaches next b t → offers P (fromOneNote next buf) t.
Proof. intros Hroom Hin Hr. unfold fromOneNote. apply recovered_offers, offers_after; [|keep]. intros _. by apply (onenote_loop_offers b t Hroom Hr). Qed.

Lemma tnef_emit_offers P b t total : room = true → len b ≠ 0 → reaches next b t → offers P (tnef_emit next b total) t.
Proof.
  intros Hroom Hl Hr. unfold tnef_emit. rewrite (proj2 (Z.eqb_neq _ _)) by done. destruct (maxTotalTNEF <=? total); [apply offers_record, record_left; [apply stopHit_record|keep]|].
  apply offers_after; [|keep]. intros f. destruct f; [apply offers_record, record_left; [apply stopHit_record|keep]|].
  eapply (offers_right _ _ _ _ _ expired_false); [|keep]. intros e ->. unfold clamp, clamp_to. destruct (maxBytesPerTNEFPart <? len b); [apply offers_record, record_left; [apply stopHit_record|keep]|].
  apply offers_after; [|keep]. intros _. apply offers_left; [by apply carve_offers|keep].
Qed.

(** What a decoded TNEF blob holds: its attachments up to the first nil one,
    and both bodies. *)
Fixpoint tnef_files (l : list (option string)) : list string := match l with Some a :: l => a :: tnef_files l | _ => [] end.

Lemma tnef_parts_offers b t : room = true → len b ≠ 0 → reaches next b t → ∀ l parts total, b ∈ tnef_files l → offers anywhere (tnef_parts next l parts total) t.
Proof.
  intros Hroom Hl Hr. induction l as [|[a|] l IH]; intros parts total Hin; cbn [tnef_files tnef_parts] in *; [by apply not_elem_of_nil in Hin| |by apply not_elem_of_nil in Hin].
  destruct (maxTNEFParts <=? parts); [apply offers_record, record_left; [apply stopHit_record|keep]|]. apply elem_of_cons in Hin as [->|Hin].
  - apply offers_left; [by apply tnef_emit_offers|keep].
  - apply offers_after; [|keep]. intros n. by apply IH.
Qed.

Lemma tnef_offers P buf d b t : room = true → tnef_Decode buf = LOk (Some d) → b ∈ tnef_files (tn_Attachments d) ++ [tn_BodyHTML d; tn_Body d] → len b ≠ 0 → reaches next b t →
  offers P (fromTNEF next buf) t.
Proof.
  intros Hroom Hd Hin Hl Hr. unfold fromTNEF. rewrite Hd. apply recovered_offers, offers_after; [|keep]. intros _. apply elem_of_app in Hin as [Hin|Hin].
  { apply offers_left; [by eapply tnef_parts_offers|keep]. }
  apply offers_after; [|keep]. intros n. apply elem_of_cons in Hin as [-> | ->%list_elem_of_singleton].
  - apply offers_left; [by apply tnef_emit_offers|keep].
  - apply offers_after; [|keep]. intros n'. apply offers_left; [by apply tnef_emit_offers|keep].
Qed.

(** *** Batch droppers *)

Lemma batch_files_offers f t : minMemberBytes <= len f → reaches next f t → ∀ files, f ∈ files → offers anywhere (batch_files next files) t.
Proof.
  intros Hl Hr. induction files as [|g files IH]; intros Hin; [by apply not_elem_of_nil in Hin|]. cbn [batch_files]. eapply (offers_right _ _ _ _ _ expired_false); [|keep]. intros e ->.
  apply elem_of_cons in Hin as [<-|Hin]; [apply offers_left; [by apply emit_offers|keep]|apply offers_after; [intros _; by apply IH|keep]].
Qed.

Lemma batch_offers P buf depth f t : room = true → len buf ≠ 0 → depth <= maxNestDepth → f ∈ (carveBatchFiles buf).1 → minMemberBytes <= len f → reaches next f t →
  offers P (fromBatchDropper next buf depth) t.
Proof.
  intros Hroom Hb Hd Hin Hl Hr. unfold fromBatchDropper. rewrite (proj2 (Z.eqb_neq _ _)) by done. rewrite (proj2 (Z.ltb_ge _ _)) by done.
  intros s v s' _ H Hc. apply run_bind in H as (stop & s1 & H1 & H2 & Hg); [|keep]. assert (stop = false ∧ s1 = next_tick s) as [-> ->].
  { unfold spent_or_late in H1. destruct (spent s) eqn:E.
    - injection H1 as <- <-. by rewrite (proj1 (room_open _ _ Hroom Hg Hc)) in E.
    - injection H1 as <- <-. split; [|done]. by apply (late_false s (next_tick s) eq_refl), (complete_back _ s'). }
  destruct (carveBatchFiles buf) as [files tr]. cbn [fst] in Hin.
  assert (offers anywhere ((if tr then stopHit "member-size" else ret tt);; batch_files next files) t) as Ho by (apply offers_after; [intros _; by eapply batch_files_offers|keep]). by eapply Ho.
Qed.

(** ** One level *)

(** [member data m]: [m] is what a reader delivers of a file that the
    container [data] holds.  Of an Office document, only the siblings of its
    parts that are carriers themselves are meant; of a RAR archive with
    encrypted members, nothing when passwords are tried. *)
Inductive flat_member (data : string) : string → Prop :=
  | member_zip files f r : carrier_of data = KZip → zip_NewReader data = Some files → isOfficeZipReader files = false →
      f ∈ files → zip_readable f r → minMemberBytes <= len (rd_bytes r) → flat_member data (rd_bytes r)
  | member_office files f r : carrier_of data = KZip → zip_NewReader data = Some files → isOfficeZipReader files = true →
      f ∈ files → carrier_readable f r → flat_member data (rd_bytes r)
  | member_gzip r : carrier_of data = KArchive → HasPrefix data gzipMagic = true → gzip_NewReader data = Some r →
      looksLikeTar (rd_bytes r) = false → minMemberBytes <= len (rd_bytes r) → flat_member data (rd_bytes r)
  | member_tar r m : carrier_of data = KArchive → HasPrefix data gzipMagic = true → gzip_NewReader data = Some r → looksLikeTar (rd_bytes r) = true →
      m ∈ tar_members (rd_bytes r) → th_regular m = true → th_Size m ≠ 0 → minMemberBytes <= len (rd_bytes (th_body m)) → flat_member data (rd_bytes (th_body m))
  | member_7z files f r : carrier_of data = KArchive → HasPrefix data sevenZMagic = true → sevenzip_NewReader data None = LOk files →
      f ∈ files → seven_readable f r → flat_member data (rd_bytes r)
  | member_rar rr h r : carrier_of data = KArchive → HasPrefix data rarMagic = true → rarArchiveIsSolid data = Some false → rardecode_NewReader data None = LOk rr →
      (h, r) ∈ rr_entries rr → rar_readable h r → no_crack (rr_entries rr) → flat_member data (rd_bytes r)
  | member_cab folders files cb m : room = true → carrier_of data = KArchive → HasPrefix data cabMagic = true → cab_parse data = Some (Some (folders, files, cb)) →
      cab_readable data folders files cb m → flat_member data m.

Lemma flat_long data m : flat_member data m → minMemberBytes <= len m.
Proof.
  intros []; unfold carrier_readable, seven_readable, rar_readable, cab_readable in *; destruct_and?; try lia.
  match goal with H : ∃ _, _ |- _ => destruct H as (? & ? & ? & ? & ? & _ & _ & _ & _ & _ & _ & _ & ?) end. lia.
Qed.

Definition first_byte (s : string) : Z := match s with String c _ => byte c | EmptyString => -1 end.
Lemma prefix_first data p : HasPrefix data p = true → 0 <= first_byte p → first_byte data = first_byte p.
Proof.
  unfold HasPrefix. intros [r E]%bool_decide_eq_true Hp. apply strip_prefix_app in E as ->. destruct p; [cbn in Hp; lia|done].
Qed.
(** Two magic numbers that differ in their first byte exclude each other. *)
Lemma magic_other data p q : HasPrefix data p = true → 0 <= first_byte p → 0 <= first_byte q → first_byte p ≠ first_byte q → HasPrefix data q = false.
Proof.
  intros Hp H1 H2 Hne. destruct (HasPrefix data q) eqn:E; [|done]. apply prefix_first in Hp; [|done]. apply prefix_first in E; [|done]. congruence.
Qed.

Lemma fromArchive_is data depth p m : depth <= maxArchiveDepth → HasPrefix data p = true →
  (p = gzipMagic ∧ m = unpackGzip next data ∨ p = sevenZMagic ∧ m = unpack7z next data ∨ p = rarMagic ∧ m = unpackRar next data ∨ p = cabMagic ∧ m = unpackCab next data) →
  fromArchive next data depth = bind spent_or_late (λ stop, if stop : bool then ret tt else m).
Proof.
  intros Hd Hp Hm. unfold fromArchive. rewrite (proj2 (Z.ltb_ge _ _)) by done.
  assert (∀ q, first_byte p ≠ first_byte q → 0 <= first_byte q → HasPrefix data q = false) as Hno.
  { intros q Hne Hq. apply (magic_other data p q Hp); [|done|done]. by destruct Hm as [[-> _]|[[-> _]|[[-> _]|[-> _]]]]. }
  destruct Hm as [[-> ->]|[[-> ->]|[[-> ->]|[-> ->]]]]; rewrite Hp; by rewrite ?(Hno zipMagic), ?(Hno gzipMagic), ?(Hno sevenZMagic), ?(Hno rarMagic) by done.
Qed.

Lemma zip_offers data m depth top t files : HasPrefix data zipMagic = true → zip_NewReader data = Some files → depth <= maxNestDepth →
  (if isOfficeZipReader files then ∃ f r, f ∈ files ∧ carrier_readable f r ∧ m = rd_bytes r
   else ∃ f r, f ∈ files ∧ zip_readable f r ∧ minMemberBytes <= len (rd_bytes r) ∧ m = rd_bytes r) →
  reaches next m t → offers in_budget (fromZip next data depth top) t.
Proof.
  intros Hp Hz Hd Hm Hr. unfold fromZip. rewrite Hz. destruct (isOfficeZipReader files) eqn:Eo.
  - rewrite andb_false_r. destruct Hm as (f & r & Hin & Hf & ->). unfold fromOOXMLZip.
    intros s v s' HP H Hc. apply run_bind in H as (office & s1 & H1 & H2 & Hg); [|keep]. apply run_bind in H1 as (u & s2 & H3 & H4 & Hg2); [|keep].
    rewrite Eo in H4. injection H4 as <- <-. unfold fromOfficeZipCarriersZip in H2. rewrite (proj2 (Z.ltb_ge _ _)) in H2 by done.
    assert (in_budget s2) as HP2. { pose proof (parts_budget files s) as [E1 E2]. rewrite H3 in E1, E2. unfold in_budget, spent in *. cbn in E1, E2. by rewrite E1, E2. }
    eapply (offers_budget spent_or_late (ret tt) (carrier_loop next 0 files)); [done|keep|keep| |exact HP2|exact H2|exact Hc].
    apply (carrier_loop_offers t f); [by eapply carrier_member_offers|done].
  - destruct Hm as (f & r & Hin & Hf & Hl & ->).
    assert (offers in_budget (ok <- zipMemberWalkOK data depth;; if ok : bool then unpackZipReader next files data else ret tt) t) as Hwalk
      by (apply zip_walk_offers; [done|keep|by eapply zip_reader_offers]).
    destruct (negb top && negb false); [done|]. unfold fromOOXMLZip. rewrite Eo.
    intros s v s' HP H Hc. apply run_bind in H as (office & s1 & H1 & H2 & Hg); [|keep]. apply run_bind in H1 as (u & s2 & H3 & H4 & Hg2); [|keep]. injection H4 as <- <-.
    eapply Hwalk; [|exact H2|exact Hc]. pose proof (parts_budget files s) as [E1 E2]. rewrite H3 in E1, E2. unfold in_budget, spent in *. cbn in E1, E2. by rewrite E1, E2.
Qed.

Lemma carrier_zip data : carrier_of data = KZip → HasPrefix data zipMagic = true.
Proof. unfold carrier_of. destruct (HasPrefix data zipMagic); [done|]. by repeat match goal with |- (if ?b then _ else _) = _ → _ => destruct b end. Qed.

Definition flat_walk (data : string) (depth : Z) (top : bool) : M unit :=
  match carrier_of data with KZip => fromZip next data depth top | _ => fromArchive next data depth end.

Lemma flat_offers data m depth top t : flat_member data m → reaches next m t → depth <= maxArchiveDepth → offers in_budget (flat_walk data depth top) t.
Proof.
  intros Hm Hr Hd. unfold flat_walk.
  destruct Hm as [files f r Hk Hz Ho Hin Hf Hl|files f r Hk Hz Ho Hin Hf|r Hk Hp Hg Ht Hl|r m Hk Hp Hg Ht Hin Hreg Hsz Hl|files f r Hk Hp Ho Hin Hf|rr h r Hk Hp Hs Ho Hin Hh Hnc|folders files cb m Hcab Hk Hp Hparse Hf];
    rewrite Hk.
  1-2: eapply zip_offers; [by apply carrier_zip|exact Hz|done|rewrite Ho; by eauto 10|done].
  all: (rewrite (fromArchive_is data depth _ _ Hd Hp) by eauto); apply offers_budget; [done|keep|keep|].
  - eapply gzip_offers; [done|done|]. by rewrite Ht.
  - eapply gzip_offers; [done| |]; rewrite ?Ht; [|by eauto 10]. unfold looksLikeTar in Ht. apply andb_true_iff in Ht as [Ht%Z.leb_le _]. unfold minMemberBytes. lia.
  - by eapply seven_offers.
  - by eapply rar_offers.
  - by eapply cab_offers.
Qed.
End Next.


(** *** Messages *)

Definition part_bytes (h : MailHeader) (body : reading) : string := rd_bytes (part_reader (h "Content-Transfer-Encoding") body).1.

(** [entity_has h body m]: a part of the entity, at any depth of multiparts
    and attached messages, has the decoded bytes [m]. *)
Inductive entity_has : MailHeader → reading → string → Prop :=
  | has_leaf h body : HasPrefix (mediaType h) "multipart/" = false → mediaType h ≠ "message/rfc822" → minMemberBytes <= len (part_bytes h body) →
      entity_has h body (part_bytes h body)
  | has_part h body h' body' m : HasPrefix (mediaType h) "multipart/" = true → mime_boundary h ≠ "" → (h', body') ∈ multipart_parts body (mime_boundary h) →
      entity_has h' body' m → entity_has h body m
  | has_message h body h' body' m : HasPrefix (mediaType h) "multipart/" = false → mediaType h = "message/rfc822" →
      len (part_bytes h body) ≠ 0 → mail_ReadMessage (part_bytes h body) = Some (h', body') → entity_has h' body' m → entity_has h body m.

Section Deep.
Context (child : Child) (Hchild : ∀ d x, Keeps (child d x)).
#[local] Existing Instance Hchild.

Lemma capped_stop {A} kind (a : A) : on_record (stopHit kind;; ret a).
Proof. apply record_left; [apply stopHit_record|keep]. Qed.

Lemma mime_loop_offers entity t h body : (∀ h b n, Keeps (entity h b n)) → (∀ n, offers anywhere (entity h body n) t) →
  ∀ l n, (h, body) ∈ l → offers anywhere (mime_loop entity l n) t.
Proof.
  intros Hk He. assert (∀ l n, Keeps (mime_loop entity l n)) as Hkl by (intros; by apply keeps_mime_loop).
  induction l as [|[g b] l IH]; intros n Hin; [by apply not_elem_of_nil in Hin|]. cbn [mime_loop].
  destruct (maxMIMEParts <=? n); [apply offers_record, capped_stop|]. apply elem_of_cons in Hin as [[= <- <-]|Hin]; [apply offers_left; [done|keep]|].
  apply offers_after; [|keep]. intros parts. apply (offers_guard anywhere exhausted _ (mime_loop entity l parts)); [exact guards_exhausted| |keep|keep|by apply IH].
  intros s v s' Hs H Hc. apply run_bind in H as (e & s1 & H1 & H2 & Hg); [|keep]. pose proof (complete_back _ _ Hg Hc) as Hc1.
  pose proof (expired_false _ _ _ H1 Hc1) as ->. destruct l as [|x l]; [by apply not_elem_of_nil in Hin|]. cbn [length Nat.eqb orb] in H2.
  apply run_bind in H2 as (u & s2 & H3 & H4 & Hg2); [|keep]. apply run_bind in H3 as (u2 & s3 & H5 & H6 & Hg3); [|keep].
  eapply (capped_record s3); [|exact H6|by eapply complete_back]. injection H1 as _ <-.
  assert (grows (next_tick s) s3) as Hg4 by (match type of H5 with ?m _ = _ => assert (Keeps m) as Hkm by keep; specialize (Hkm (next_tick s)); by rewrite H5 in Hkm end).
  apply orb_true_iff in Hs as [Hs|Hs]; apply orb_true_iff; [left; by apply (spent_grows _ _ Hg4)|right; by apply (full_grows _ _ Hg4)].
Qed.

Lemma offers_step {A B} (P P' : AState → Prop) (m : M A) (k : A → M B) t (Q : A → Prop) :
  (∀ s v s', P s → m s = (Some v, s') → complete s' → P' s' ∧ Q v) → (∀ a, Q a → offers P' (k a) t) → (∀ a, Keeps (k a)) → offers P (bind m k) t.
Proof.
  intros Hm Hq Hk s v s' HP H Hc. destruct (run_bind m k s v s' Hk H) as (a & s1 & H1 & H2 & Hg).
  destruct (Hm _ _ _ HP H1 (complete_back _ _ Hg Hc)) as [HP' HQ]. by eapply Hq.
Qed.

Definition roomy (s : AState) : Prop := spent s = false ∧ full s = false.

Lemma entity_open {A} (a : A) k t : Keeps k → offers roomy k t →
  offers anywhere (stop <- gets (λ s, spent s || full s);; if stop : bool then archiveCapHit;; ret a else e <- expired;; if e : bool then ret a else k) t.
Proof.
  intros Hk Ho s v s' _ H Hc. unfold bind at 1, gets in H. destruct (spent s || full s) eqn:E; [by destruct (capped_hit_ret a _ _ _ E H)|].
  apply run_bind in H as (e & s1 & H1 & H2 & Hg); [|keep]. pose proof (expired_false _ _ _ H1 (complete_back _ _ Hg Hc)) as ->. injection H1 as _ <-.
  apply orb_false_iff in E as [E1 E2]. by eapply (Ho (next_tick s)).
Qed.

Lemma admit_returns data s v s' : admit_text data s = (Some v, s') → complete s' →
  (∃ p, v = Some p ∧ s_text p = data) ∧ (roomy s → roomy s').
Proof.
  unfold admit_text. intros H Hc. destruct (allocate data (a_res s)) as [p r] eqn:Ea. pose proof (admit_same p true r) as [(Hs & _ & _) Hok].
  destruct (admitStream p true r) as [[p' ok] r']. cbn in Hs. injection H as <- <-. destruct Hok as [Hno Hyes]. injection Ea as <- <-. cbn in Hs. split.
  - destruct ok; [exists p'; split; [done|by apply Hyes]|]. destruct Hc as (_ & Hr & _). cbn in Hr. rewrite Hno in Hr by done. done.
  - intros [H1 H2]. split; [done|]. unfold full, streams in *. cbn. by rewrite Hs.
Qed.

Lemma emit_part_offers data depth admission t : minMemberBytes <= len data → (∀ p, admission = Some p → s_text p = data) →
  reaches (child (depth + 1)) data t → offers roomy (emitMIMEPart child data depth admission) t.
Proof.
  intros Hl Ha Hr s v s' [Hs Hf] H Hc. unfold emitMIMEPart in H. unfold bind at 1, gets in H. rewrite Hs, Hf, (proj2 (Z.ltb_ge _ _)) in H by done. cbn [orb] in H.
  apply run_bind in H as (p & s1 & H1 & H2 & Hg); [|keep].
  assert (∃ p', p = Some p' ∧ s_text p' = data) as (p' & -> & Hp).
  { destruct admission as [p'|]; [injection H1 as <- <-; eauto|]. by apply (admit_returns data s p s1 H1 (complete_back _ _ Hg Hc)). }
  apply run_bind in H2 as (u & s2 & H3 & H4 & Hg2); [|keep]. apply run_bind in H4 as (u2 & s3 & H5 & H6 & Hg3); [|keep].
  destruct Hr as [<-|Hr].
  - apply (g_texts _ _ Hg3). injection H5 as _ <-. unfold texts_of, texts. cbn. rewrite fmap_app. apply elem_of_app. right. cbn. rewrite Hp. by left.
  - assert (offers anywhere (modify (λ s, {| s with a_mime := true |});; child (depth + 1) data) t) as Ho by (apply offers_after; [done|keep]). by eapply Ho.
Qed.

Lemma body_returns cte body limit : minMemberBytes <= len (rd_bytes (part_reader cte body).1) ∨ len (rd_bytes (part_reader cte body).1) ≠ 0 →
  ∀ data complete truncated, decodeMIMEBody cte body limit = Some (data, complete, truncated) → truncated = false → data = rd_bytes (part_reader cte body).1.
Proof.
  intros _ data c tr H ->. unfold decodeMIMEBody in H. destruct (part_reader cte body) as [r invalid]. cbn [fst]. destruct (limit <? len (rd_bytes r)); [done|].
  destruct (rd_end r); simplify_eq; done.
Qed.

Lemma mime_leaf_offers message h body depth parts c t : (∀ d n c, Keeps (message d n c)) → minMemberBytes <= len (part_bytes h body) → mediaType h ≠ "message/rfc822" →
  reaches (child (depth + 1)) (part_bytes h body) t → offers roomy (mime_leaf child message h body depth parts c) t.
Proof.
  intros Hmk Hl Hm Hr. unfold mime_leaf.
  apply (offers_step roomy roomy _ _ _ (λ _, True)); [by intros s v s' HP [= <- <-] _| |keep]. intros total _.
  apply (offers_step roomy roomy _ _ _ (λ x, decodeMIMEBody (h "Content-Transfer-Encoding") body (Z.min maxBytesPerMember (maxTotalArchive - total)) = Some x)); [| |keep].
  { intros s v s' HP H _. destruct (decodeMIMEBody _ _ _); [by injection H as <- <-|done]. }
  intros [[data compl] truncated] E. destruct truncated; [apply offers_record, record_left; [apply stopHit_record|keep]|].
  apply (offers_step roomy roomy _ _ _ (λ _, True)); [by intros s v s' HP [= <- <-] _| |keep]. intros _ _.
  apply body_returns in E; [|by left|done]. fold (part_bytes h body) in E. subst data. set (identified := isMIMEAttachment h && _ && _).
  apply (offers_step roomy roomy _ _ _ (λ a, ∀ p, (a = Some p → s_text p = part_bytes h body) ∧ (identified = true → a ≠ None))).
  { intros s v s' HP H Hc. destruct identified; [|by injection H as <- <-]. destruct (admit_returns _ _ _ _ H Hc) as [(p & -> & Hp) Hroom].
    split; [by apply Hroom|]. intros p'. by split; [intros [= <-]|]. }
  2: keep.
  intros admission Ha. assert (identified && bool_decide (admission = None) = false) as ->.
  { destruct identified eqn:Ei; [|done]. cbn. apply bool_decide_eq_false_2. destruct (Ha (mkBuffer 0 "")) as [_ Hn]. by apply Hn. }
  apply (offers_step roomy roomy _ _ _ (λ _, True)); [| |keep].
  { intros s v s' HP H _. by destruct identified; injection H as <- <-. }
  intros _ _. rewrite (proj2 (Z.eqb_neq _ 0)) by (unfold minMemberBytes in Hl; lia). rewrite bool_decide_eq_false_2 by done.
  apply offers_left; [|keep]. apply emit_part_offers; [done| |done]. intros p. by apply Ha.
Qed.

Lemma mime_message_offers P message h body depth parts c t : (∀ d n c, Keeps (message d n c)) → len (part_bytes h body) ≠ 0 → mediaType h = "message/rfc822" →
  (∀ n c, offers anywhere (message (part_bytes h body) n c) t) → offers P (mime_leaf child message h body depth parts c) t.
Proof.
  intros Hmk Hl Hm Ho. unfold mime_leaf. apply offers_after; [|keep]. intros total. eapply offers_right; [apply lift_returns| |keep].
  intros [[data compl] truncated] E. destruct truncated; [apply offers_record, record_left; [apply stopHit_record|keep]|].
  apply body_returns in E; [|by right|done]. fold (part_bytes h body) in E. subst data. apply offers_after; [|keep]. intros _. set (identified := isMIMEAttachment h && _ && _).
  eapply (offers_right _ _ _ _ (λ a, identified = true → a ≠ None)); [| |keep].
  { intros s v s' H Hc Hi. rewrite Hi in H. by destruct (admit_returns _ _ _ _ H Hc) as [(p & -> & _) _]. }
  intros admission Ha. assert (identified && bool_decide (admission = None) = false) as ->.
  { destruct identified; [|done]. cbn. apply bool_decide_eq_false_2. by apply Ha. }
  apply offers_after; [|keep]. intros _. rewrite (proj2 (Z.eqb_neq _ 0)), bool_decide_eq_true_2 by done. apply offers_after; [|keep]. intros _. apply Ho.
Qed.

Definition deeper (depth : Z) (data t : string) : Prop := data = t ∨ ∀ d, depth < d → offers anywhere (child d data) t.

Lemma deeper_up depth d data t : depth <= d → deeper depth data t → deeper d data t.
Proof. intros Hd [H|H]; [by left|right]. intros e He. apply H. lia. Qed.

Lemma entity_offers h body m t : entity_has h body m → ∀ fuel depth parts c, deeper depth m t →
  offers anywhere (walkMIMEEntity fuel child h body depth parts c) t.
Proof.
  induction 1 as [h body Hnm Hm Hl|h body h' body' m Hmp Hb Hin _ IH|h body h' body' m Hnm Hm Hl Hmsg _ IH]; intros fuel depth parts c Hd;
    (destruct fuel as [|fuel]; [by intros s v s' _ H|]); cbn [walkMIMEEntity];
    (destruct (maxNestDepth <? depth); [apply offers_record, capped_stop|]); (destruct (maxMIMEParts <=? parts); [apply offers_record, capped_stop|]);
    (apply entity_open; [keep; first [apply keeps_mime_loop; keep|apply keeps_mime_leaf; keep]|]).
  - rewrite Hnm. apply mime_leaf_offers; [keep|done|done|]. destruct Hd as [->|Hd]; [by left|right; apply Hd; lia].
  - rewrite Hmp, bool_decide_eq_false_2 by done. apply offers_any. apply (mime_loop_offers _ t h' body'); [keep| |done]. intros n. apply IH. eapply deeper_up; [|exact Hd]. lia.
  - rewrite Hnm. apply mime_message_offers; [keep|done|done|]. intros n c'. rewrite Hmsg. destruct (maxNestDepth <? depth + 1); [apply offers_record, capped_stop|].
    apply IH. eapply deeper_up; [|exact Hd]. lia.
Qed.

Lemma mime_offers P data h body m depth t : mail_ReadMessage data = Some (h, body) → entity_has h body m → deeper depth m t → offers P (fromMIME child data depth) t.
Proof.
  intros Hm He Hd. unfold fromMIME. rewrite Hm. apply recovered_offers. destruct (maxNestDepth <? depth); [apply offers_record, stopHit_record|].
  apply offers_left; [|keep]. apply offers_any. by eapply entity_offers.
Qed.
End Deep.

(** ** Every level *)

(** What is carved out of bytes that are no archive. *)
Inductive carved (data m : string) : Prop :=
  | carved_onenote : room = true → carrier_of data = KOneNote → m ∈ onenote_files data → minMemberBytes <= len m → carved data m
  | carved_tnef d : room = true → carrier_of data = KTNEF → tnef_Decode data = LOk (Some d) → m ∈ tnef_files (tn_Attachments d) ++ [tn_BodyHTML d; tn_Body d] →
      minMemberBytes <= len m → carved data m
  | carved_batch : room = true → carrier_of data = KMail mimeHeaderOrdinary → m ∈ (carveBatchFiles data).1 → minMemberBytes <= len m → carved data m.

(** Files inside a container, parts of a message, carved files. *)
Inductive member (data m : string) : Prop :=
  | member_flat : flat_member data m → member data m
  | member_mail h body : carrier_of data = KMail mimeHeaderComplete → mail_ReadMessage data = Some (h, body) → entity_has h body m → member data m
  | member_carved : carved data m → member data m.

(** The strings of a shell link. *)
Definition leaf (data t : string) : Prop := room = true ∧ carrier_of data = KLNK ∧ ∃ l, lnk_parse data = Some l ∧ t ∈ l ∧ len t ≠ 0.

(** [inside data m]: [m] is reached from [data] through any number of
    containers. *)
Inductive inside : string → string → Prop :=
  | inside_member data m : member data m → inside data m
  | inside_leaf data t : leaf data t → inside data t
  | inside_deeper data y m : member data y → inside y m → inside data m.

Lemma entity_long h body m : entity_has h body m → minMemberBytes <= len m.
Proof. by induction 1. Qed.
Lemma member_long data m : member data m → minMemberBytes <= len m.
Proof. intros [H|h b _ _ H|[]]; [by eapply flat_long|by eapply entity_long|done..]. Qed.

(** Below the last level, a buffer that holds something is noticed. *)
Definition noticed (data : string) : Prop := ∀ depth, (if isDepthCarrier data then ret true else depthDefaultContent data depth) = ret true.

Lemma carrier_noticed data k : carrier_of data = k → k ≠ KMail mimeHeaderOrdinary → minMemberBytes <= len data → noticed data.
Proof. intros E Hk Hl depth. unfold isDepthCarrier. rewrite (proj2 (Z.leb_le _ _) Hl), E. by destruct k as [| | | | | | | | | |[]]. Qed.

Lemma member_noticed data m : member data m → minMemberBytes <= len data → noticed data.
Proof.
  intros [Hm|h body Ek _ _|Hm] Hl; [|by eapply carrier_noticed|].
  - assert (carrier_of data = KZip ∨ carrier_of data = KArchive) as [E|E] by (destruct Hm; auto); by eapply carrier_noticed.
  - destruct Hm as [_ E _ _|d _ E _ _ _|_ E Hin Hlen]; [by eapply carrier_noticed..|]. intros depth. unfold isDepthCarrier. rewrite E, andb_false_r. unfold depthDefaultContent.
    assert (batchWouldCarve data = true) as ->; [|done]. rewrite probe_agrees. apply existsb_exists. exists m. split; [by apply list_elem_of_In|by apply Z.leb_le].
Qed.

Lemma leaf_noticed data t : leaf data t → minMemberBytes <= len data → noticed data.
Proof. intros (_ & E & _) Hl. by eapply carrier_noticed. Qed.

Lemma lnk_offers P data t : leaf data t → offers P (fromLNK data) t.
Proof.
  intros (Hroom & _ & l & Hl & Hin & Ht). unfold fromLNK. apply offers_after; [|keep]. intros _. eapply (offers_right _ _ _ _ _ (lift_returns _)); [|keep]. intros l' E. assert (l' = l) as -> by congruence. clear E Hl.
  induction l as [|s l IH]; [by apply not_elem_of_nil in Hin|]. cbn [lnk_emit]. apply elem_of_cons in Hin as [->|Hin].
  - rewrite (proj2 (Z.eqb_neq _ _)) by done. apply offers_left; [|keep]. intros s0 v s' _ H Hc. by apply (append_publishes _ _ _ _ _ H Hc).
  - destruct (len s =? 0); [by apply IH|]. apply offers_after; [|keep]. intros _. intros s0 v s' _ H Hc. apply run_bind in H as (f & s1 & H1 & H2 & Hg); [|keep]. injection H1 as <- <-.
    rewrite (proj2 (room_open _ _ Hroom Hg Hc)) in H2. by eapply (IH Hin).
Qed.

Lemma carved_offers P child data m depth t : (∀ d x, Keeps (child d x)) → carved data m → minMemberBytes <= len data → reaches (child (depth + 1)) m t → depth <= maxNestDepth →
  offers P (match carrier_of data with KOneNote => fromOneNote (child (depth + 1)) data | KTNEF => fromTNEF (child (depth + 1)) data | _ => default_extractors child data depth end) t.
Proof.
  intros Hk Hm Hl Hr Hmax. assert (len data ≠ 0) as Hne by (unfold minMemberBytes in Hl; lia). destruct Hm as [Hroom E Hin Hml|d Hroom E Hd Hin Hml|Hroom E Hin Hml]; rewrite E.
  - by apply (onenote_offers _ (Hk (depth + 1)) P data m t).
  - apply (tnef_offers _ (Hk (depth + 1)) P data d m t); try done. unfold minMemberBytes in Hml. lia.
  - unfold default_extractors. do 3 (apply offers_after; [intros _|keep; apply html_keeps; keep]). apply offers_left; [|keep]. by apply (batch_offers _ (Hk (depth + 1)) _ data depth m t).
Qed.

Lemma deeper_reaches child depth m t : deeper child depth m t → reaches (child (depth + 1)) m t.
Proof. intros [->|H]; [by left|right]. apply H. lia. Qed.

Lemma carrier_offers child data m depth t : (∀ d x, Keeps (child d x)) → member data m → minMemberBytes <= len data → deeper child depth m t → depth <= maxNestDepth →
  offers in_budget (walk_carrier child data depth) t.
Proof.
  intros Hk Hm Hl Hd Hmax. unfold walk_carrier. pose proof (deeper_reaches _ _ _ _ Hd) as Hr. destruct Hm as [Hm|h body Ek Hmsg He|Hm].
  - pose proof (flat_offers (child (depth + 1)) (Hk (depth + 1)) data m depth false t Hm Hr Hmax) as Ho. unfold flat_walk in Ho.
    assert (carrier_of data = KZip ∨ carrier_of data = KArchive) as [E|E] by (destruct Hm; auto); by rewrite E in *.
  - rewrite Ek. by eapply mime_offers.
  - pose proof (carved_offers in_budget child data m depth t Hk Hm Hl Hr Hmax) as Ho. destruct Hm as [_ E _ _|d _ E _ _ _|_ E _ _]; by rewrite E in *.
Qed.

Lemma body_offers child data depth t : (∀ d x, Keeps (child d x)) → noticed data → minMemberBytes <= len data →
  (depth <= maxNestDepth → offers in_budget (walk_carrier child data depth) t) → offers anywhere (child_body child depth data) t.
Proof.
  intros Hk Hn Hl Ho. unfold child_body. rewrite (proj2 (Z.eqb_neq _ 0)) by (unfold minMemberBytes in Hl; lia). destruct (Z.ltb_spec maxNestDepth depth).
  - rewrite Hn. apply offers_record. intros s v s' H1 Hc. unfold bind at 1, ret at 1 in H1. by eapply stopHit_record.
  - eapply (offers_right _ _ _ _ _ expired_false); [|keep]. intros e ->. intros s v s' _ H1 Hc. unfold bind at 1, gets in H1.
    destruct (spent s || full s) eqn:E; [by destruct (capped_hit _ _ _ E H1)|]. apply orb_false_iff in E as [E _]. by eapply (Ho ltac:(lia)).
Qed.

Lemma leaf_walk child data depth t P : leaf data t → offers P (walk_carrier child data depth) t.
Proof. intros H. unfold walk_carrier. destruct (H) as (_ & -> & _). by apply lnk_offers. Qed.

Lemma deep_offers data m : inside data m → ∀ fuel depth, minMemberBytes <= len data → offers anywhere (extract_child fuel depth data) m.
Proof.
  induction 1 as [data m Hm|data t Ht|data y m Hm _ IH]; intros fuel depth Hl; (destruct fuel as [|fuel]; [by intros s v s' _ H|]); cbn [extract_child];
    (apply body_offers; [intros; apply _|first [by eapply member_noticed|by eapply leaf_noticed]|done|]); intros Hd.
  - eapply carrier_offers; [intros; apply _|done|done|by left|done].
  - by apply leaf_walk.
  - eapply carrier_offers; [intros; apply _|exact Hm|done| |done]. right. intros d _. apply IH. by eapply member_long.
Qed.

Lemma formats_offers buf m : inside buf m → minMemberBytes <= len buf → offers in_budget (extract_formats buf) m.
Proof.
  intros Hin Hl. destruct (decide (carrier_of buf = KLNK)) as [Elnk|Hlnk].
  { unfold extract_formats. rewrite Elnk. inversion Hin as [? ? Hm|? ? Ht|? y ? Hm _]; subst; [|by apply lnk_offers|];
      (exfalso; destruct Hm as [[]|? ? E|[]]; congruence). }
  assert (∃ y, member buf y ∧ deeper extractChild 0 y m) as (y & Hm & Hd).
  { inversion Hin as [a1 a2 Hm|a1 a2 (_ & E & _)|a1 y a2 Hm Hrest]; subst; [exists m; by split; [|left]|done|]. exists y. split; [done|right]. intros d _. unfold extractChild. apply deep_offers; [done|by eapply member_long]. }
  unfold extract_formats. pose proof (deeper_reaches _ _ _ _ Hd) as Hr. destruct Hm as [Hm|h body Ek Hmsg He|Hm].
  - pose proof (flat_offers (extractChild 1) ltac:(intros; apply _) buf y 0 true m Hm Hr ltac:(done)) as Ho. unfold flat_walk in Ho.
    assert (carrier_of buf = KZip ∨ carrier_of buf = KArchive) as [E|E] by (destruct Hm; auto); by rewrite E in *.
  - rewrite Ek. by eapply (mime_offers extractChild ltac:(intros; apply _)).
  - pose proof (carved_offers in_budget extractChild buf y 0 m ltac:(intros; apply _) Hm Hl Hr ltac:(done)) as Ho. destruct Hm as [_ E _ _|d _ E _ _ _|_ E _ _]; by rewrite E in *.
Qed.

(** C11: nothing inside an archive or a message is missed.  Whatever the
    decoder libraries deliver, the worker pool does and the other extractors
    add: when the walk of a request ends without a cap hit, a refused entry or
    a recovered panic on record, and the clock had not run out, every file that
    can be reached through any number of readable containers (zip, gzip, tar,
    7z, RAR, cabinets, parts of mail messages and attached messages, files
    embedded in OneNote and TNEF, files a batch script writes, strings of a
    shell link) is among the texts to be scanned.  The last four and the files
    of a cabinet count only while the stream ceiling and the member budget are
    not reached ([room]): their walks stop there without saying so. *)
Theorem nothing_inside_is_missed limit buf m s' : minMemberBytes <= len buf → extract_formats buf (fresh limit) = (Some tt, s') → complete s' → inside buf m → m ∈ texts_of s'.
Proof. intros Hl H Hc Hin. by eapply (formats_offers buf m Hin Hl (fresh limit)). Qed.

End Complete.
