(* ===== verification/ArchiveExample.v ===== *)
(** * Archive examples

    Small decoder libraries, a message with a zip that holds a
    compressed batch script, the archive theorems at this input, and what some walks leave out. *)

From Stdlib Require Import ZArith Lia.
From Stdlib Require Ascii String.
From stdpp Require Import base strings list numbers sets relations.
From S2P Require Import Prelude GoStd GoText Base64 GoRegexp DecodeRuns ScanVerdict Retained DecodeFold DecodeWalk RarSolid Sniff Cab Batch Screnc ArchiveState Carriers Archive ArchiveLogic ArchiveComplete.

Local Open Scope Z_scope.
Local Open Scope mailstrix_scope.

(** ** Libraries that read one entry *)

#[local] Instance exText : TextEnv := { xxhash64 := λ _, 0; streamDedupKey := λ _, ""; unicode_lower := λ s, s }.
#[local] Instance exTypes : MediaTypes := { ParseMediaType := λ s, if contains "/" s then Some (s, λ _, "") else None }.
#[local] Instance exInflate : Inflate := { flate_read := λ _ s, s }.

Definition exError : lib_error := {| e_text := "7z: data error"; e_dictCap := false |}.
Definition exFile (name content : string) : ZipFile :=
  {| zf_Name := name; zf_Encrypted := false; zf_IsDir := false; zf_UncompressedSize64 := len content; zf_Extra := "";
     zf_Open := Some {| rd_bytes := content; rd_end := REof |} |}.
Definition exSeven (content : string) (stop : read_end) : SevenFile :=
  {| sf_IsDir := false; sf_UncompressedSize := len content; sf_Open := LOk {| rd_bytes := content; rd_end := stop |} |}.

(** The header block, field by field. *)
Definition exHeader (head : string) : MailHeader := λ field,
  match Index (lf +:+ head) (lf +:+ field +:+ ": ") with
  | Some i => let value := from (i + len field + 2) head in match Index value lf with Some n => upto n value | None => value end
  | None => ""
  end.

#[local] Instance exLibs : ArchiveLibs := {
  zip_NewReader := λ d, if HasPrefix d zipMagic then Some [exFile "report.gz" (from 4 d)] else None;
  gzip_NewReader := λ d, Some {| rd_bytes := from 2 d; rd_end := REof |};
  tar_members := λ _, [];
  sevenzip_NewReader := λ d _, LOk [exSeven "first member" REof; exSeven "half a payl" (RFail exError)];
  rardecode_NewReader := λ _ _, LErr exError;
  yekazip_NewReader := λ _, LErr exError;
  mail_ReadMessage := λ d, match Index d (lf +:+ lf) with Some i => Some (exHeader (upto i d), {| rd_bytes := from (i + 2) d; rd_end := REof |}) | None => None end;
  multipart_parts := λ _ _, [];
  base64_NewDecoder := λ r, r;
  quotedprintable_NewReader := λ r, r
}.

#[local] Instance exWorld : RequestEnv := { late := λ _, false; worker := λ _, Ran; childOpts := None }.
#[local] Instance exTnef : TnefLib := { tnef_Decode := λ _, LOk None }.
#[local] Instance exExtractors : Extractors := {
  fromOOXMLParts := λ _, ret tt; fromOLE := λ _ _ _, ret tt; fromPDF := λ _, ret tt; fromRTF := λ _ _ _, ret tt;
  fromSLK := λ _, ret tt;
  fromHTMLSmuggling := λ _ _ _, ret tt; fromLauncherFields := λ _, ret tt;
  msixManifestFields := λ _ _, ret []
}.
#[local] Instance exExtractorsOk : ExtractorsOk exExtractors.
Proof. constructor; intros; try apply _; done. Qed.

(** ** Four levels *)

Definition exPayload : string := "powershell -w hidden".
(** A script that writes the payload to a file. *)
Definition exBatch : string := "@echo off" +:+ lf +:+ ">" +:+ String dquote ("a.ps1" +:+ String dquote " echo power^shell -w hidden").
Definition exGzip : string := gzipMagic +:+ exBatch.
Definition exZip : string := zipMagic +:+ exGzip.
Definition exMail : string :=
  "MIME-Version: 1.0" +:+ lf +:+ "Subject: report" +:+ lf +:+ "Content-Type: application/zip" +:+ lf +:+ lf +:+ exZip.
Definition exRun : option unit * AState := extract_formats exMail (fresh 100000).

Example four_levels_published : texts_of exRun.2 = [exZip; exGzip; exBatch; exPayload].
Proof. vm_compute. reflexivity. Qed.

Lemma exMail_inside : inside true exMail exPayload.
Proof.
  apply (inside_deeper _ _ exZip).
  { eapply member_mail; [vm_compute; reflexivity|vm_compute; reflexivity|].
    match goal with |- entity_has ?h ?b _ => assert (part_bytes h b = exZip) as E by (vm_compute; reflexivity); rewrite <- E at 1; apply (has_leaf h b) end; by vm_compute. }
  apply (inside_deeper _ _ exGzip).
  { apply member_flat. apply (member_zip true exZip [exFile "report.gz" exGzip] (exFile "report.gz" exGzip) {| rd_bytes := exGzip; rd_end := REof |});
      [vm_compute; reflexivity..|by left|done|by vm_compute]. }
  apply (inside_deeper _ _ exBatch).
  { apply member_flat. apply (member_gzip true exGzip {| rd_bytes := exBatch; rd_end := REof |}); first [by vm_compute|vm_compute; reflexivity]. }
  apply inside_member, member_carved, carved_batch; [done|vm_compute; reflexivity| |by vm_compute]. replace (carveBatchFiles exBatch) with ([exPayload], false) by (vm_compute; reflexivity). by left.
Qed.

Lemma exRun_complete : complete true exRun.2.
Proof. split_and!; [vm_compute; reflexivity..|done|]. intros _. split; vm_compute; reflexivity. Qed.

Lemma nothing_inside_is_missed_witness : exPayload ∈ texts_of exRun.2.
Proof.
  apply (nothing_inside_is_missed true 100000 exMail exPayload exRun.2); [by vm_compute| |exact exRun_complete|exact exMail_inside].
  unfold exRun. assert ((extract_formats exMail (fresh 100000)).1 = Some tt) as E by (vm_compute; reflexivity).
  destruct (extract_formats exMail (fresh 100000)) as [o s]. cbn in *. by rewrite E.
Defined.

Lemma archive_walk_bounded_witness : a_attempts exRun.2 <= 256.
Proof. destruct archive_walk_bounded as (_ & _ & H & _). destruct (H 100000 exMail) as [H1 _]. exact (proj2 H1). Defined.

(** ** What some walks leave out *)

Definition u16_bytes (n : Z) : string := string_of_bytes [n mod 256; n / 256].
Definition u32_bytes (n : Z) : string := u16_bytes (n mod 65536) +:+ u16_bytes (n / 65536).

(** A folder of a compression the walk does not read, and a stored one with
    a file. *)
Definition exCab : string :=
  cabMagic +:+ u32_bytes 0 +:+ u32_bytes 0 +:+ u32_bytes 0 +:+ u32_bytes 52 +:+ u32_bytes 0 +:+ u16_bytes 259 +:+ u16_bytes 2 +:+ u16_bytes 1 +:+ u16_bytes 0 +:+ u16_bytes 0 +:+ u16_bytes 0
  +:+ u32_bytes 0 +:+ u16_bytes 0 +:+ u16_bytes 3
  +:+ u32_bytes 70 +:+ u16_bytes 1 +:+ u16_bytes 0
  +:+ u32_bytes 8 +:+ u32_bytes 0 +:+ u16_bytes 1 +:+ u16_bytes 0 +:+ u16_bytes 0 +:+ u16_bytes 0 +:+ "a" +:+ string_of_bytes [0]
  +:+ u32_bytes 0 +:+ u16_bytes 8 +:+ u16_bytes 8 +:+ "PAYLOAD!".

Example cab_published : texts_of (extract_formats exCab (fresh 100000)).2 = [cabUnsupported; "PAYLOAD!"].
Proof. vm_compute. reflexivity. Qed.

(** With one stream left, the notice about the first folder takes it: the
    second folder is skipped and nothing says so. *)
Definition almost_full : AState :=
  let s := fresh 100000 in {| s with a_res := with_streams (replicate 255 (mkBuffer 0 "")) (a_res s) |}.
Example cab_stops_silently :
  let s := (extract_formats exCab almost_full).2 in complete false s ∧ "PAYLOAD!" ∉ texts_of s.
Proof.
  intros s. split; [split_and!; [vm_compute; reflexivity..|done|done]|].
  assert (bool_decide ("PAYLOAD!" ∈ texts_of s) = false) as H by (vm_compute; reflexivity). by apply bool_decide_eq_false_1 in H.
Qed.

(** Bytes with [ustar] at 257 that hold no tar member. *)
Definition exUstar : string := string_of_bytes (replicate 257 120) +:+ "ustar powershell -w hidden".
Example ustar_content_dropped :
  let s := (extract_formats (gzipMagic +:+ exUstar) (fresh 100000)).2 in texts_of s = [] ∧ complete true s.
Proof. split; [vm_compute; reflexivity|]. split_and!; [vm_compute; reflexivity..|done|]. intros _. split; vm_compute; reflexivity. Qed.

(** A 7z member that ends in an error is left out, with what could be read of
    it. *)
Example seven_partial_dropped :
  let s := (extract_formats (sevenZMagic +:+ "archive") (fresh 100000)).2 in texts_of s = ["first member"] ∧ complete true s.
Proof. split; [vm_compute; reflexivity|]. split_and!; [vm_compute; reflexivity..|done|]. intros _. split; vm_compute; reflexivity. Qed.
