(* ===== verification/ScanExample.v ===== *)
(** * Closed instances around the scan

    The theorems about the verdict cache, the coalescing of scans, the effort
    profiles and the rule counters at concrete inputs. *)

From Stdlib Require Import ZArith Lia.
From stdpp Require Import base gmap strings list numbers sorting.
From S2P Require Import Prelude GoStd GoText VerdictCache Effort TopMatch Flight.

Local Open Scope Z_scope.

(** ** The verdict cache *)

Definition exNone : slice Match := mkSlice 0 [].
Definition exHit : slice Match :=
  mkSlice 1 [mkMatch "eicar" "base" (mkSlice 1 ["av"; "spare"]) (Some {["author" := "x"]})].

Lemma cacheEntryRetainedBytes_exact_witness :
  Forall meta_fits (sl_cap exHit) ∧ cacheEntryRetainedBytes "key" exHit = Z.min uint64_max (entry_cost "key" exHit).
Proof.
  assert (Forall meta_fits (sl_cap exHit)) as H by (constructor; [by vm_compute|constructor]).
  split; [exact H|]. exact (cacheEntryRetainedBytes_exact "key" exHit H).
Defined.

(** A cache of two entries. *)
Definition exConfig : CacheConfig := mkCacheConfig minute 2 1000 "" "" "".
Definition exLru : lruCache := mkLru minute 2 1000 0 [] ∅ 0 0 0 0 0.

Lemma exLru_inv : LruInv exLru.
Proof. by apply (NewCache_inv exConfig false (mkCache exLru None)). Qed.

Lemma lru_refines_witness :
  let ops := [OpPut "a" exHit 0; OpPut "b" exNone 1; OpGet "a" 2; OpPut "c" exNone 3; OpGet "b" 4; OpGet "a" 5; OpFlush; OpGet "a" 6] in
  (∃ rs c', VerdictCache.run ops exLru = Some (rs, c') ∧ LruInv c' ∧ (rs, abs c') = spec_run exLru ops (abs exLru))
  ∧ fst <$> VerdictCache.run ops exLru = Some [Some exHit; None; Some exHit; None].
Proof. split; [exact (lru_refines _ exLru exLru_inv)|]. by vm_compute. Defined.

Lemma put_then_get_witness : ∃ c',
  putLocal exLru "a" exHit 0 = Some c' ∧ (getLocal c' "a" 5).1 = Some exHit.
Proof.
  destruct (put_then_get exLru "a" exHit 0 exLru_inv) as (c'&Hp&_&Hg&_). exists c'. split; [exact Hp|].
  etransitivity; [apply Hg|]; by vm_compute.
Defined.

(** A codec in the place of [encoding/json]: it writes what JSON keeps of a
    verdict as a number in binary. *)
Abbreviation JsonMatch := (string * string * list string * list (string * string))%type.

Definition json_of_match (m : Match) : JsonMatch :=
  (json_string (m_Rule m), json_string (m_Namespace m), json_string <$> slice_list (m_Tags m),
   (λ kv, (json_string kv.1, json_string kv.2)) <$> map_to_list (meta_map m)).

Definition match_of_json (j : JsonMatch) : Match :=
  let '(rule, ns, tags, meta) := j in mkMatch rule ns (mkSlice (length tags) tags) (Some (list_to_map meta)).

Fixpoint binary (p : positive) : string :=
  match p with
  | xH => "1"
  | xO p => String (ascii_of_Z 48) (binary p)
  | xI p => String (ascii_of_Z 49) (binary p)
  end.

Fixpoint of_binary (s : string) : positive :=
  match s with
  | String c (String _ _ as t) => if byte c =? 48 then xO (of_binary t) else xI (of_binary t)
  | _ => xH
  end.

Lemma of_binary_binary p : of_binary (binary p) = p.
Proof.
  assert (∀ q, ∃ c t, binary q = String c t) as Hne by (intros []; simpl; eauto).
  induction p as [p IH|p IH|]; simpl; [..|done]; destruct (Hne p) as (c&t&E); rewrite E in *; by rewrite IH.
Qed.

Definition exDigest : string := "dddddddddddddddddddddddddddddddd".
#[export] Instance exRedis : RedisEnv := {|
  hmac_sha256 := λ _ _, exDigest;
  marshalMatches := λ m, Some (binary (encode (json_of_match <$> slice_list m)));
  unmarshalMatches := λ b, (λ l, mkSlice (length l) l) ∘ fmap match_of_json <$> decode (of_binary b);
  SplitHostPort := λ _, None;
  isLoopbackIP := λ _, false |}.

Lemma slice_list_all {A} (l : list A) : slice_list (mkSlice (length l) l) = l.
Proof. unfold slice_list. cbn [sl_len sl_cap]. by rewrite firstn_all. Qed.

Lemma json_of_match_ok m : json_match m (match_of_json (json_of_match m)).
Proof.
  split; [done|done|apply slice_list_all|..]; cbn [match_of_json json_of_match meta_map m_Meta default].
  - intros k v Hk. apply not_eq_None_Some. intros Hn. apply not_elem_of_list_to_map in Hn. apply Hn.
    rewrite <- list_fmap_compose, list_elem_of_fmap. exists (k, v). split; [done|]. by apply elem_of_map_to_list.
  - intros k' v' Hk. apply elem_of_list_to_map_2, list_elem_of_fmap in Hk as ([k v]&[= -> ->]&Hin).
    exists k, v. by apply elem_of_map_to_list in Hin.
Qed.

#[export] Instance exRedisOk : RedisEnvOk exRedis.
Proof.
  split; [done|]. intros m b [= <-]. split; [by destruct (encode _)|].
  cbn [unmarshalMatches exRedis]. rewrite of_binary_binary, decode_encode. eexists. split; [reflexivity|].
  unfold json_verdict, compose. rewrite slice_list_all. generalize (slice_list m) as l.
  induction l as [|x l IH]; [constructor|]. constructor; [apply json_of_match_ok|exact IH].
Qed.

Lemma openRedisValue_iff_witness :
  openRedisValue "mac" "k" (sealRedisValue "mac" "k" "[]") = Some "[]".
Proof. apply (openRedisValue_iff "mac" "k" _ "[]" ltac:(done)). split; [done|reflexivity]. Defined.

Definition exLayer : redisLayer := mkRedis "mailstrix:" (mkBreaker 0 0) "mac" false.
Definition exPut : option (string * string) * redisLayer := redis_put exLayer "k" exHit 10 true 11.

Lemma redis_roundtrip_witness : ∃ w r1 m',
  exPut = (Some w, r1) ∧ breaker_allow (br r1) 12 = true
  ∧ redis_get r1 "k" 12 (λ _, RedisHit w.2) 13 = (Some m', {| r1 with br := mkBreaker 0 0 |}) ∧ json_verdict exHit m'.
Proof.
  assert (exPut = (Some (default ("", "") exPut.1), exPut.2)) as Hp by by vm_compute.
  assert (breaker_allow (br exPut.2) 12 = true) as Hb by by vm_compute.
  destruct (redis_roundtrip exLayer "k" exHit 10 true 11 12 13 (λ _, RedisHit (default ("", "") exPut.1).2)
    (default ("", "") exPut.1) exPut.2 Hp Hb eq_refl) as (m'&Hm).
  exists (default ("", "") exPut.1), exPut.2, m'. split; [exact Hp|]. split; [exact Hb|]. exact Hm.
Defined.

(** Read back, the capacity of the slices is gone. *)
Example exPut_read : (redis_get exPut.2 "k" 12 (λ _, RedisHit (default ("", "") exPut.1).2) 13).1
  = Some (mkSlice 1 [mkMatch "eicar" "base" (mkSlice 1 ["av"]) (Some {["author" := "x"]})]).
Proof. by vm_compute. Qed.

Lemma Get_authentic_witness : ∃ r c',
  Get id (mkCache exLru (Some exLayer)) "k" 0 1 (λ _, RedisHit (default ("", "") exPut.1).2) 2 3 = Some (r, c')
  ∧ LruInv (local c').
Proof.
  destruct (Get_authentic id (mkCache exLru (Some exLayer)) "k" 0 1 (λ _, RedisHit (default ("", "") exPut.1).2) 2 3
    exLru_inv (λ l H, H)) as (r&c'&Hg&Hl&_).
  exists r, c'. split; [exact Hg|exact Hl].
Defined.

Lemma breaker_half_open_witness :
  let b := breaker_after ([1; 2; 3; 4] ++ [5]) in
  breaker_allow b 6 = false ∧ breaker_allow (foldl breaker_fail b [5 + breakerCooldown]) (5 + breakerCooldown) = true.
Proof.
  pose proof (λ t1, breaker_half_open [1; 2; 3; 4] 5 t1 [5 + breakerCooldown] eq_refl ltac:(simpl; lia)) as H.
  split; [exact (proj1 (H 6))|]. apply (proj2 (H (5 + breakerCooldown))). lia.
Defined.

(** ** Coalescing

    Three callers of one key: the second joins the first, whose function
    returns. *)
Definition exCaller : caller := mkCaller "key" false Entry.
Definition exGroup : flightGroup := mkGroup ∅ ∅ {[0%nat := exCaller; 1%nat := exCaller; 2%nat := exCaller]} 0.
Definition exOutcome : scanOutcome := mkOutcome exHit None.

Lemma exGroup_initial : initial exGroup.
Proof.
  split_and!; [done|done|]. intros t c Hc. cbn in Hc.
  apply lookup_insert_Some in Hc as [[_ <-]|[_ Hc]]; [done|].
  apply lookup_insert_Some in Hc as [[_ <-]|[_ Hc]]; [done|].
  by apply lookup_singleton_Some in Hc as [_ <-].
Qed.

Definition exAt (l : list Action) : flightGroup := default exGroup (Flight.run l exGroup).
Definition exJoined : flightGroup := exAt [AEnter 0; AEnter 1; ADispatch 0; AStarted 1].
Definition exFinished : flightGroup :=
  exAt [AEnter 0; AEnter 1; ADispatch 0; AStarted 1; AReturn 0 exOutcome false; AClose 0; ADone 1].

Lemma exAt_reachable l : is_Some (Flight.run l exGroup) → reachable (exAt l).
Proof.
  intros [g Hg]. unfold exAt. rewrite Hg. exists exGroup. split; [exact exGroup_initial|by eapply run_steps].
Qed.

Lemma exJoined_reachable : reachable exJoined.
Proof. apply exAt_reachable. vm_compute. by eexists. Qed.

Lemma exFinished_reachable : reachable exFinished.
Proof. apply exAt_reachable. vm_compute. by eexists. Qed.

Definition exLeading : caller := mkCaller "key" false (Leading 0).
Definition exWaiting : caller := mkCaller "key" false (Waiting 0 true).
Definition exShared : caller := mkCaller "key" false (Returned (Follower 0) exOutcome true).

Lemma single_leader_witness : callers exJoined !! 0%nat = Some exLeading
  ∧ ∀ t c f, callers exJoined !! t = Some c → th_pc c = Leading f → th_key c = "key" → 0%nat = t.
Proof.
  assert (callers exJoined !! 0%nat = Some exLeading) as H0 by by vm_compute.
  split; [exact H0|]. intros t c f Hc Hp Hk.
  exact (single_leader exJoined 0 t exLeading c 0 f exJoined_reachable H0 Hc eq_refl Hp (eq_sym Hk)).
Defined.

Lemma follower_outcome_witness : callers exFinished !! 1%nat = Some exShared
  ∧ ∃ fl lc, flights exFinished !! 0%nat = Some fl ∧ aborted fl = false
    ∧ callers exFinished !! fl_leader fl = Some lc
    ∧ (th_pc lc = Reading 0 exOutcome ∨ ∃ sh', th_pc lc = Returned (Leader 0) exOutcome sh').
Proof.
  assert (callers exFinished !! 1%nat = Some exShared) as H1 by by vm_compute. split; [exact H1|].
  destruct (follower_outcome exFinished 1 exShared 0 exOutcome true exFinished_reachable H1 eq_refl)
    as (_&fl&lc&Hf&_&Ha&Hl&_&Hp).
  by exists fl, lc.
Defined.

Lemma follower_progress_witness : callers exJoined !! 1%nat = Some exWaiting
  ∧ ((∃ g', step (ADone 1) exJoined = Some g')
     ∨ ∃ tl lc, callers exJoined !! tl = Some lc ∧ th_key lc = "key" ∧
      ((th_pc lc = Leading 0 ∧ ∀ o ab, ∃ g', Flight.run [AReturn tl o ab; AClose tl; ADone 1] exJoined = Some g')
       ∨ ∃ o, th_pc lc = Closing 0 o ∧ ∃ g', Flight.run [AClose tl; ADone 1] exJoined = Some g')).
Proof.
  assert (callers exJoined !! 1%nat = Some exWaiting) as H1 by by vm_compute. split; [exact H1|].
  exact (follower_progress exJoined 1 exWaiting 0 true exJoined_reachable H1 eq_refl).
Defined.

Lemma finish_shared_witness : ∃ g', step (AReturn 0 exOutcome false) exJoined = Some g'
  ∧ Flight.m g' !! "key" = None ∧ ∃ fl, flights g' !! 0%nat = Some fl ∧ outcome fl = exOutcome.
Proof.
  assert (callers exJoined !! 0%nat = Some exLeading) as H0 by by vm_compute.
  destruct (step (AReturn 0 exOutcome false) exJoined) as [g'|] eqn:Hs; [|by vm_compute in Hs].
  exists g'. split; [done|].
  destruct (finish_shared exJoined 0 exLeading 0 exOutcome false g' exJoined_reachable H0 eq_refl Hs) as (Hm&fl&Hf&Ho&_).
  split; [exact Hm|]. by exists fl.
Defined.

(** ** Effort *)

Lemma EffortProfileFor_caps_witness :
  caps_ok (EffortProfileFor 3 10 (8 * second)) = true
  ∧ caps_le (EffortProfileFor 3 10 (8 * second)) (EffortProfileFor 7 10 (8 * second)) = true.
Proof.
  destruct (EffortProfileFor_caps 3 7 10 (8 * second) (8 * second) ltac:(vm_compute; discriminate)) as (_&H1&H2&_).
  split; [exact H1|]. apply H2. lia.
Defined.

Lemma autoStepLevel_converges_witness : Nat.iter 4 (λ c, autoStepLevel c 6) 3 = 6.
Proof. exact (autoStepLevel_converges 3 6 4 ltac:(lia) ltac:(lia)). Defined.

Lemma ResolveEffortLevel_bounds_witness :
  let '(e, m) := sanitizeEffort 20 8 in
  let '(d, level1) := autoEnvDefault true true e m 3 4 0 [2] in
  1 <= ResolveEffortLevel 99 true d m <= m.
Proof.
  assert (Forall (λ l, 0 <= l <= (sanitizeEffort 20 8).2) (0 :: [2])) as H
    by (repeat constructor; by vm_compute).
  pose proof (ResolveEffortLevel_bounds 99 true true 20 8 true 3 4 0 [2] H) as Hb.
  destruct (sanitizeEffort 20 8) as [e m]. destruct (autoEnvDefault true true e m 3 4 0 [2]) as [d level1].
  exact (proj1 Hb).
Defined.

(** ** Rule counters *)

Definition exCounter : matchCounter := mkCounter {["a" := 5]} 1 0.

Lemma add_spec_witness : ∃ c', add map_to_list exCounter ["b"; "a"; "b"] (Some 0) = Some c'
  ∧ Z.of_nat (size (counts c')) <= 1 ∧ ∀ r v, counts c' !! r = Some v → v = default 0 (counts exCounter !! r) + occurrences r ["b"; "a"; "b"].
Proof.
  destruct (add_spec map_to_list (λ _, reflexivity _) exCounter ["b"; "a"; "b"] (Some 0)) as (c'&Ha&Hs&_&_&_&H).
  - by vm_compute.
  - by vm_compute.
  - intros r v Hv. cbn in Hv. apply lookup_singleton_Some in Hv as [_ <-]. vm_compute. by split.
  - by vm_compute.
  - exists c'. split; [exact Ha|]. split; [exact Hs|]. exact (proj1 (H eq_refl)).
Defined.

Lemma TopN_spec_witness : ∃ l, TopN map_to_list exCounter 3 = Some l ∧ Z.of_nat (length l) = 1.
Proof.
  destruct (TopN_spec map_to_list (λ _, reflexivity _) exCounter 3 ltac:(lia)) as (l&Hl&Hlen&_).
  exists l. split; [exact Hl|]. etransitivity; [exact Hlen|]. by vm_compute.
Defined.
