(* ===== verification/ServerExample.v ===== *)
(** * Closed instances of the scan service

    A small world in which the theorems about a scan, the server and its
    clients are applied, and runs that show behaviours recorded as findings. *)

From Stdlib Require Import ZArith Lia.
From Stdlib Require Ascii String.
From stdpp Require Import base gmap strings list numbers.
From S2P Require Import Prelude GoStd GoText Base64 VerdictCache Effort TopMatch Flight ScanVerdict ClientVerdict ScanFlow ScanServer ClientServer.
From S2P Require Import ScanSystem ScanExample IcapWire.

Local Open Scope Z_scope.

(** ** A world

    Keys are the first 16 bytes; the clock ticks a millisecond per reading. *)
Definition exKey16 (s : string) : string := string_take 16 (s +:+ zeroKey).

#[export] Instance exText : TextEnv := {|
  xxhash64 := λ s, len s mod 2 ^ 64;
  streamDedupKey := exKey16;
  unicode_lower := λ s, s |}.

#[export] Instance exTextOk : TextEnvOk exText.
Proof.
  split.
  - intros s. apply Z.mod_pos_bound. lia.
  - intros s. change (streamDedupKey s) with (exKey16 s). unfold exKey16. rewrite string_take_len, string_app_len. change (len zeroKey) with 16. pose proof (len_nonneg s). lia.
  - done.
Qed.

(** Rules: [evil] for the text EVIL, [pure], a marker rule, for the text
    MARKER; a body FAIL cannot be scanned. *)
Definition exRules1 (buf : string) : list MatchRule :=
  (if contains "EVIL" buf then [mkMatchRule "evil" "base" [] []] else [])
  ++ (if contains "MARKER" buf then [mkMatchRule "pure" "local" ["marker"] [("weight", MetaInt 5)]] else []).

Definition exNative (buf : string) : NativeAnswer :=
  mkAnswer None (if bool_decide (buf = "FAIL") then inr "timeout" else inl (exRules1 buf)).

(** What the extractor finds: streams and markers. *)
Definition exResult1 (streams markers : list string) : Result :=
  mkResult streams markers (Z.of_nat (length streams)) 0 [] [] "" true false false false false false false false
    true false false false false false false false false false [].

Definition exExtract (buf : string) : Result :=
  if bool_decide (buf = "DOC") then exResult1 ["padding"; "EVIL macro"] ["MARKER-1"]
  else if bool_decide (buf = "PLANTED") then exResult1 ["MARKER-1"] ["MARKER-1"]
  else if bool_decide (buf = "FAIL") then exResult1 ["EVIL macro"] []
  else exResult1 [] [].

#[export] Instance exScan : ScanEnv := {|
  clock := λ n, hour + Z.of_nat n * (second / 1000);
  native := λ _ _ buf _ _, exNative buf;
  ExtractWithOptions := λ _ buf _, exExtract buf;
  defaultRetainedLimit := 2621440;
  sha256 := λ s, s;
  CheckDigest := λ _, [];
  urlcand_Extract := λ _ _, [];
  urlhaus_Check := λ _ _, [];
  threatfox_Check := λ _ _, [];
  map_order := map_to_list |}.

Definition exScanner (allow : gset string) : Scanner :=
  mkScanner (8 * second) 6000000 10 2621440 false [] [] allow false false false 64 false 64.

Definition exGeneration : scannerGeneration := mkGeneration (Some 1%nat) None None None 0.

Definition exWorld : World := mkWorld 0 [] ∅ (mkHistogram (replicate 7 0) 0 0) (newMatchCounter 100) false.

Abbreviation exScanOf allow buf meta := (scanGeneration (exScanner allow) buf meta exGeneration exWorld).

Definition exEvil : Match := mkMatch "evil" "base" (full_slice []) None.
Definition exPure : Match := mkMatch "pure" "local" (full_slice ["marker"]) (Some {["weight" := "5"]}).

(** ** Scans *)

Example exDoc_scan : (exScanOf ∅ "DOC" zeroMeta).1 = ([exEvil; exPure], None).
Proof. by vm_compute. Qed.

Lemma exDoc_run : scanGeneration (exScanner ∅) "DOC" zeroMeta exGeneration exWorld
  = (([exEvil; exPure], None), (exScanOf ∅ "DOC" zeroMeta).2).
Proof. rewrite <- exDoc_scan. apply surjective_pairing. Qed.

Lemma scan_misses_nothing_witness : (exScanOf ∅ "DOC" zeroMeta).1 = ([exEvil; exPure], None)
  ∧ ∃ res, extraction_of (exScanner ∅) "DOC" zeroMeta exWorld (exScanOf ∅ "DOC" zeroMeta).2 res
    ∧ scan_covered (exScanner ∅) "DOC" zeroMeta (g_deny exGeneration) [exEvil; exPure] exWorld (exScanOf ∅ "DOC" zeroMeta).2 res.
Proof.
  split; [exact exDoc_scan|].
  exact (scan_misses_nothing _ _ _ _ _ _ _ exDoc_run).
Defined.

Lemma scan_reports_only_witness : ∃ res, extraction_of (exScanner ∅) "DOC" zeroMeta exWorld (exScanOf ∅ "DOC" zeroMeta).2 res
  ∧ ((∃ c ms m', made (length (calls exWorld)) (exScanOf ∅ "DOC" zeroMeta).2 c ∧ nc_result c = inl ms ∧ m' ∈ ms ∧ same_rule exPure m' ∧ ¬ denied (g_deny exGeneration) m'
        ∧ (matchIsMarker m' = true → nc_buf c ∈ marker_texts res (sm_Extension zeroMeta)))
     ∨ (∃ m', feed_match m' ∧ same_rule exPure m') ∨ exPure = scanIncompleteMatch).
Proof.
  destruct (scan_reports_only _ _ _ _ _ _ _ _ exDoc_run) as (res&Hres&H).
  exists res. split; [exact Hres|]. apply H. right. by left.
Defined.

Lemma scan_within_deadline_witness :
  ∃ new res, calls (exScanOf ∅ "DOC" zeroMeta).2 = calls exWorld ++ new
  ∧ (length new <= 2 + length (Streams res) + length (Markers res))%nat
  ∧ Forall (timely 0 (clock 0 + 8 * second)) new.
Proof.
  destruct (scan_within_deadline (exScanner ∅) "DOC" zeroMeta exGeneration exWorld) as (new&res&Hc&_&Hl&Ht).
  - intros i. change (0 < 3600000000000 + Z.of_nat i * 1000000). lia.
  - by vm_compute.
  - exists new, res. split; [exact Hc|]. split; [exact Hl|]. exact Ht.
Defined.

(** *** What the runs show *)

(** A stream with the bytes of a marker takes the marker's place in the shared
    dedup set: the marker rule fires in DOC and not here. *)
Theorem planted_stream_hides_marker :
  Markers (exExtract "PLANTED") = ["MARKER-1"] ∧ Markers (exExtract "DOC") = ["MARKER-1"]
  ∧ (exScanOf ∅ "PLANTED" zeroMeta).1 = ([], None) ∧ exPure ∈ (exScanOf ∅ "DOC" zeroMeta).1.1.
Proof. split; [done|]. split; [done|]. split; [by vm_compute|]. rewrite exDoc_scan. cbn [fst]. right. by left. Qed.

(** The raw scan fails and the one rule that fires is allowlisted: the scan
    ends without an error, so the verdict is cached and not marked degraded. *)
Theorem raw_failure_masked :
  let '(l, err, w) := exScanOf {["evil"]} "FAIL" zeroMeta in
  nc_result <$> head (calls w) = Some (inr (ErrNative "timeout")) ∧ err = None ∧ degradedReason l = ""
  ∧ l ≠ [] ∧ Forall (λ m, matchIsLogOnly m = true) l.
Proof. vm_compute. split; [done|]. split; [done|]. split; [done|]. split; [done|]. by repeat constructor. Qed.

(** ** The server *)

Definition exServerCfg : ServerConfig := mkConfig ["secret"] true 1048576 false 10 10 false 8 false 0.

Definition exPost (headers : list (string * string)) (body : string) : HttpRequest :=
  mkHttp "POST" "/scan" ([("Content-Length", FormatInt (len body))] ++ headers) body.

Definition exAsk : HttpRequest := exPost [("Authorization", "Bearer secret")] "DOC".

Definition exAnswers (o : scanOutcome) (status : LookupStatus) : ScanAnswers :=
  mkScanAnswers true RaceSlot false false 1 0 [] (λ _ _, (o, status)).

Definition exServer (c : option Cache) : ServerState := mkServer c ∅ [].

Lemma handleScan_guards_witness :
  handleScan exServerCfg (exPost [] "DOC") (exAnswers exOutcome StMiss) (exServer None) = (ErrorReply 401 "unauthorized", exServer None)
  ∧ ∃ tok, tok ∈ cf_tokens exServerCfg ∧ presented_token exAsk = Some tok.
Proof.
  pose proof (λ req, handleScan_guards exServerCfg req (exAnswers exOutcome StMiss) (exServer None)) as H. split.
  - refine (proj1 (H (exPost [] "DOC") _) _ _); [by vm_compute|by vm_compute|by vm_compute].
  - destruct (handleScan exServerCfg exAsk (exAnswers exOutcome StMiss) (exServer None)) as [[|?|ch l d] st'] eqn:Hh;
      [by vm_compute in Hh|by vm_compute in Hh|].
    refine (proj1 (proj2 (H exAsk _) ch l d st' Hh) _); by vm_compute.
Defined.

(** A request whose context ended while it waited is answered like a clean
    one, without a degraded mark. *)
Theorem canceled_scan_answers_clean :
  (handleScan exServerCfg exAsk (exAnswers (mkOutcome no_matches (Some ErrContext)) StCanceled) (exServer None)).1 = ScanReply "" [] "".
Proof. by vm_compute. Qed.

(** *** A leader

    No cache, a free slot, the engine's answer for the body. *)
Definition exGetAnswer : GetAnswer := mkGetAnswer id 1 2 (λ _, RedisNil) 3 4.

Definition exEngine (buf : string) (meta : ScanMeta) : EngineAnswer :=
  EngineReturns (acquireScanLease false (exScanner ∅) exGeneration buf meta exWorld).1.1
    (acquireScanLease false (exScanner ∅) exGeneration buf meta exWorld).1.2.

Definition exLeader (buf : string) (meta : ScanMeta) : LeaderAnswers :=
  mkLeader exGetAnswer false true RaceSlot false false (exEngine buf meta) id (mkPutAnswer 5 6 true 7).

Definition exMeta : ScanMeta := {| zeroMeta with sm_Effort := 10; sm_RawKey := exKey16 "clean body" |}.
Definition exParts : key_parts := mkParts "1.0" "rules" "content" "deny" "policy".
Definition exVKey : string := full_key exParts "" exMeta.

(** One scanner was loaded, with one generation. *)
Definition exLoaded (k : key_parts) (s : Scanner) (g : scannerGeneration) : Prop :=
  k = exParts ∧ s = exScanner ∅ ∧ g = exGeneration.

Lemma exAsks : asks exParts "" exMeta "clean body".
Proof. split; try by vm_compute. by left. Qed.

(** Nothing was ever written to Redis. *)
Definition exWritten (rk v : string) : Prop := False.

Lemma exGet_ok complete mac : get_ok complete mac exWritten exGetAnswer.
Proof. split; [done|]. intros rk v Hv. done. Qed.

Lemma exEngine_ok : engine_ok (scanned exLoaded) exVKey (exEngine "clean body" exMeta).
Proof.
  apply engine_scans_ok. right. exists exParts, "", (exScanner ∅), "clean body", exMeta, exGeneration, exWorld, false.
  split; [done|]. split; [exact exAsks|done].
Qed.

Lemma scan_fn_certifies_witness : ∃ o ab st',
  scan_fn false exVKey (exLeader "clean body" exMeta) (exServer None) = Some (o, ab, st')
  ∧ sound_outcome (scanned exLoaded) exVKey o ∧ (ab = true → so_err o ≠ None).
Proof.
  destruct (scan_fn_certifies (scanned exLoaded) "" "" exWritten false exVKey (exLeader "clean body" exMeta) (exServer None))
    as (o&ab&st'&Hs&_&_&Ho&Hab).
  - intros rk v [].
  - intros c Hc. inversion Hc.
  - split; [apply exGet_ok|]. split; [exact exEngine_ok|]. by intros st Hst.
  - exists o, ab, st'. split; [exact Hs|]. split; [exact Ho|exact Hab].
Defined.

(** *** A client

    The wire carries the log-only flags and the degraded mark. *)
Definition exMarshal (l : list Match) (d : string) : string :=
  (if bool_decide (d = "") then "0" else "1") +:+ string_concat ((λ m, if matchIsLogOnly m then "1" else "0") <$> l).

Fixpoint exFlags (s : string) : list CMatch :=
  match s with
  | EmptyString => []
  | String c s => mkCMatch "rule" "" (if byte c =? 49 then Some {["mailstrix_allow" := "1"]} else None) :: exFlags s
  end.

Definition exDecodeResponse (s : string) : option Response :=
  match s with
  | EmptyString => None
  | String c s => Some (mkResponse (Some (exFlags s)) (if byte c =? 48 then "" else "incomplete"))
  end.

#[export] Instance exWire : WireOk exMarshal exDecodeResponse.
Proof.
  intros l d. unfold exMarshal.
  exists (exFlags (string_concat ((λ m, if matchIsLogOnly m then "1" else "0") <$> l))), (if bool_decide (d = "") then "" else "incomplete").
  split; [by case_bool_decide|]. split; [by case_bool_decide|].
  induction l as [|m l IH]; [constructor|]. rewrite fmap_cons. cbn [string_concat foldr].
  destruct (matchIsLogOnly m) eqn:Hm; (constructor; [rewrite Hm; by vm_compute|exact IH]).
Qed.

(** The verdict of a clean body, in the cache. *)
Lemma exClean_scanned : scanned exLoaded exVKey (full_slice []).
Proof.
  exists exParts, "", (exScanner ∅), "clean body", exMeta, exGeneration, exWorld, (exScanOf ∅ "clean body" exMeta).2.
  split; [done|]. split; [exact exAsks|]. split; [done|]. assert ((exScanOf ∅ "clean body" exMeta).1 = ([], None)) as H by by vm_compute.
  etransitivity; [apply surjective_pairing|]. by rewrite H.
Qed.

Definition exCachedLru : lruCache := default exLru (putLocal exLru exVKey (full_slice []) 0).
Definition exCached : ServerState := exServer (Some (mkCache exCachedLru None)).

Lemma exCached_certified : certified (scanned exLoaded) "" "" exCached.
Proof.
  intros c Hc. injection Hc as <-. split; [|done].
  destruct (certified_put (scanned exLoaded) exLru exVKey (full_slice []) 0) as (l'&Hp&Hl).
  - split; [exact exLru_inv|]. by intros e ?%elem_of_nil.
  - left. exact exClean_scanned.
  - cbn [local]. unfold exCachedLru. by rewrite Hp.
Qed.

Lemma exAnswered : answered (scanned exLoaded) "" "" exWritten exVKey false (mkOutcome (full_slice []) None) StHit.
Proof.
  eapply (answered_early _ _ _ _ _ _ None exGetAnswer exCached); [exact exCached_certified|apply exGet_ok|done|].
  by vm_compute.
Qed.

Definition exAskClean : HttpRequest := exPost [("Authorization", "Bearer secret")] "clean body".

Lemma clean_answer_means_scanned_witness :
  let answers := exAnswers (mkOutcome (full_slice []) None) StHit in
  let reply := handleScan exServerCfg exAskClean answers exCached in
  reply.1 = ScanReply "hit" [] "" ∧ clean_scan exLoaded exParts (request_meta exServerCfg exAskClean answers "clean body") "clean body".
Proof.
  intros answers reply. assert (reply.1 = ScanReply "hit" [] "") as Hr by by vm_compute. split; [exact Hr|].
  destruct (proj2 (clean_answer_means_scanned exLoaded "" "" exWritten exMarshal exDecodeResponse) exServerCfg exAskClean
    answers exCached "hit" [] "" reply.2 exParts false (λ _, true)
    (NewClient "http://127.0.0.1:8079" "secret" "strix-scan" 0) (λ _, Responded 200 (exMarshal [] "") false) "" "clean body" [])
    as [Hd|Hc].
  - intros rk v [].
  - by vm_compute.
  - exact exAnswered.
  - by vm_compute.
  - rewrite <- Hr. apply surjective_pairing.
  - reflexivity.
  - by vm_compute.
  - reflexivity.
  - discriminate Hd.
  - exact Hc.
Defined.

(** *** A named attachment

    The client's request as it arrives, and its scan. *)
Definition exClient : Client := NewClient "http://127.0.0.1:8079/" "secret" "strix-scan" 0.
Definition exName : string := "C:\\mail/Invoice" +:+ String (ascii_of_Z 13) ".MSG ".

Definition exNamed : HttpRequest :=
  exPost [("Content-Type", "application/octet-stream"); ("X-Mailstrix-Token", "secret"); ("X-Mailstrix-Filename", EncodeToString exName)] "DOC".

Lemma exNamed_delivered : Delivered (scan_request exClient exName "DOC") exNamed.
Proof.
  split; [done|by vm_compute|]. intros k Hk. unfold Values.
  assert ((k = "X-Mailstrix-Token" ∨ k = "X-Mailstrix-Filename") ∨ k ≠ "X-Mailstrix-Token" ∧ k ≠ "X-Mailstrix-Filename") as [[-> | ->]|[H1 H2]]
    by (destruct (decide (k = "X-Mailstrix-Token")), (decide (k = "X-Mailstrix-Filename")); auto); [by vm_compute|by vm_compute|].
  assert (k ∉ ["Content-Length"; "Content-Type"; "Accept"; "User-Agent"; "X-Mailstrix-Token"; "X-Mailstrix-Filename"]) as Hno.
  { rewrite !elem_of_cons, elem_of_nil. intros Hx. destruct_or? Hx; subst; done. }
  assert (∀ kv, kv ∈ hr_headers exNamed → kv.1 ≠ k) as Hl1.
  { intros kv Hkv Hk'. apply Hno. rewrite <- Hk'. clear Hk'. revert kv Hkv. apply list.Forall_forall. eapply bool_decide_unpack. by vm_compute. }
  assert (∀ kv, kv ∈ rq_headers (scan_request exClient exName "DOC") → CanonicalMIMEHeaderKey kv.1 ≠ k) as Hl2.
  { intros kv Hkv Hk'. apply Hno. rewrite <- Hk'. clear Hk'. revert kv Hkv. apply list.Forall_forall. eapply bool_decide_unpack. by vm_compute. }
  match goal with |- snd <$> filter ?P ?l = _ <$> filter ?Q ?l' =>
    assert (filter P l = []) as ->; [|assert (filter Q l' = []) as ->; [|done]] end;
    apply elem_of_nil_inv; intros kv [Hc Hkv]%list_elem_of_filter; [by eapply Hl1|by eapply Hl2].
Qed.

Lemma filename_roundtrip_witness :
  let answers := exAnswers exOutcome StMiss in
  request_meta exServerCfg exNamed answers "DOC" = mkScanMeta "Invoice.MSG" ".msg" "outlook" 10 (exKey16 "DOC") [] false
  ∧ ∃ effort, request_meta exServerCfg exNamed answers "DOC" = named_meta exName "DOC" effort
    ∧ slice_list exHit = lookupOrScan (an_lookup answers "DOC" (named_meta exName "DOC" effort)).1 (an_lookup answers "DOC" (named_meta exName "DOC" effort)).2
    ∧ "" = degradedReason (slice_list exHit).
Proof.
  intros answers. split; [by vm_compute|].
  assert (handleScan exServerCfg exNamed answers (exServer None) = (ScanReply "" (slice_list exHit) "", (handleScan exServerCfg exNamed answers (exServer None)).2)) as Hh
    by by vm_compute.
  exact (proj1 (filename_roundtrip exServerCfg exClient exName "DOC" exNamed answers _ _ _ _ _ exNamed_delivered Hh)).
Defined.

(** *** Keys *)

Lemma verdict_key_separates_witness :
  full_key exParts "" exMeta ≠ full_key exParts (icap_partition exMeta) exMeta
  ∧ full_key exParts "" exMeta ≠ full_key {| exParts with kp_deny := "other" |} "" exMeta.
Proof.
  assert (∀ k k' p p', parts_ok k → parts_ok k' → partition_ok p exMeta → partition_ok p' exMeta →
    full_key k p exMeta = full_key k' p' exMeta → k = k' ∧ (p = "" ↔ p' = "")) as H.
  { intros k k' p p' Hk Hk' Hp Hp' He.
    destruct (verdict_key_separates k k' p p' exMeta exMeta Hk Hk' ltac:(by vm_compute) ltac:(by vm_compute) Hp Hp' eq_refl eq_refl He)
      as (H1&_&_&H2). split; [exact H1|exact H2]. }
  assert (parts_ok exParts) as H1 by by vm_compute. assert (parts_ok {| exParts with kp_deny := "other" |}) as H2 by by vm_compute.
  split; intros He; apply H in He; try assumption; try (by left); try (by right).
  - destruct He as [_ He]. discriminate (proj1 He eq_refl).
  - destruct He as [He _]. discriminate He.
Defined.

(** ** ICAP *)

Lemma chunked_roundtrip_witness : ∃ wire,
  wire = encode_body [("EVIL", []); ("data", [("name", QuotedValue ";ieof")])] [("ieof", NoValue)]
  ∧ readICAPChunkedAppend AtEOF "pre-" 100 (wire +:+ "OPTIONS") = inl (("pre-EVILdata", true), "OPTIONS").
Proof.
  eexists. split; [reflexivity|].
  refine (chunked_roundtrip AtEOF [("EVIL", []); ("data", [("name", QuotedValue ";ieof")])] [("ieof", NoValue)] "pre-" 100 "OPTIONS" _ _ _).
  - repeat constructor; by vm_compute.
  - repeat constructor; by vm_compute.
  - by vm_compute.
Defined.
