(* ===== verification/IcapExample.v ===== *)
(** * Closed instances of the ICAP service

    Requests as bytes, and runs of the accept loop. *)

From Stdlib Require Import ZArith Lia.
From Stdlib Require Ascii String.
From stdpp Require Import base gmap strings list numbers relations.
From S2P Require Import Prelude Counting GoStd GoText VerdictCache Effort TopMatch Flight ScanVerdict ClientVerdict ScanFlow ScanServer ScanSystem ScanExample IcapWire Icap IcapServe IcapEcho ServerExample.
From S2P Require IcapConn.

Local Open Scope Z_scope.

(** ** A clean answer *)

Definition exHead (method extra encapsulated : string) : string :=
  method +:+ " icap://host/scan ICAP/1.0" +:+ crlf +:+ extra +:+ "Encapsulated: " +:+ encapsulated +:+ crlf +:+ crlf.

Definition exWire : string := encode_body [("clean ", []); ("body", [("name", QuotedValue ";ieof")])] [].

Definition exRespmod : string := exHead "RESPMOD" ("Allow: 204" +:+ crlf) "res-body=0" +:+ exWire.

Definition exIcapAnswers : IcapAnswers :=
  mkIcapAnswers "fp" "now" true RaceSlot true true 1 0 [] (λ _ _ _, (mkOutcome (full_slice []) None, StHit, "fp")).

Definition exIcapKey : string := full_key exParts (icap_partition exMeta) exMeta.

Lemma exIcap_meta : icap_meta exServerCfg exIcapAnswers "clean body" = exMeta.
Proof. by vm_compute. Qed.

Lemma exIcap_asks : asks exParts (icap_partition exMeta) exMeta "clean body".
Proof. split; try by vm_compute. by right. Qed.

Lemma exIcap_scanned : scanned exLoaded exIcapKey (full_slice []).
Proof.
  exists exParts, (icap_partition exMeta), (exScanner ∅), "clean body", exMeta, exGeneration, exWorld, (exScanOf ∅ "clean body" exMeta).2.
  split; [done|]. split; [exact exIcap_asks|]. split; [done|]. assert ((exScanOf ∅ "clean body" exMeta).1 = ([], None)) as H by by vm_compute.
  etransitivity; [apply surjective_pairing|]. by rewrite H.
Qed.

Definition exIcapLru : lruCache := default exLru (putLocal exLru exIcapKey (full_slice []) 0).
Definition exIcapCached : ServerState := exServer (Some (mkCache exIcapLru None)).

Lemma exIcap_certified : certified (scanned exLoaded) "" "" exIcapCached.
Proof.
  intros c Hc. injection Hc as <-. split; [|done].
  destruct (certified_put (scanned exLoaded) exLru exIcapKey (full_slice []) 0) as (l'&Hp&Hl).
  - split; [exact exLru_inv|]. by intros e ?%elem_of_nil.
  - left. exact exIcap_scanned.
  - cbn [local]. unfold exIcapLru. by rewrite Hp.
Qed.

Lemma exIcap_answered : answered (scanned exLoaded) "" "" exWritten exIcapKey false (mkOutcome (full_slice []) None) StHit.
Proof.
  eapply (answered_early _ _ _ _ _ _ None exGetAnswer exIcapCached); [exact exIcap_certified|apply exGet_ok|done|].
  by vm_compute.
Qed.

(** What the request carries. *)
Lemma exRespmod_carries : carries AtEOF exServerCfg exIcapAnswers exRespmod (mkEcho [] "res-body") "clean body".
Proof. by vm_compute. Qed.

Lemma exParts_ok : parts_ok exParts.
Proof. by vm_compute. Qed.

Lemma exRespmod_looks echo body : carries AtEOF exServerCfg exIcapAnswers exRespmod echo body → body ≠ "" →
  looks_up exLoaded "" "" exWritten exServerCfg exIcapAnswers exParts false body.
Proof.
  unfold carries. rewrite exRespmod_carries. intros He _. assert (body = "clean body") as -> by congruence.
  unfold looks_up. cbv zeta. rewrite exIcap_meta. exact exIcap_answered.
Qed.

Lemma exWritten_none rk v : exWritten rk v → sealed_verdict (scanned exLoaded) "" "" rk v.
Proof. intros []. Qed.

Lemma icap_clean_means_scanned_witness :
  io_replies (handleICAPRequest AtEOF exServerCfg exIcapAnswers exRespmod exIcapCached) = [RStatus "fp" 204 "No Modification" ""]
  ∧ ∃ echo body, carries AtEOF exServerCfg exIcapAnswers exRespmod echo body
    ∧ clean_for exLoaded exServerCfg exIcapAnswers exParts echo body (RStatus "fp" 204 "No Modification" "").
Proof.
  assert (io_replies (handleICAPRequest AtEOF exServerCfg exIcapAnswers exRespmod exIcapCached) = [RStatus "fp" 204 "No Modification" ""]) as Hr
    by by vm_compute.
  split; [exact Hr|].
  apply (icap_clean_means_scanned exLoaded "" "" exWritten AtEOF exServerCfg exIcapAnswers exParts false exRespmod exIcapCached
    (RStatus "fp" 204 "No Modification" "") exWritten_none exParts_ok exRespmod_looks); [rewrite Hr; by left|reflexivity].
Defined.

(** ** An echo *)

Definition exHttp : string := "GET / HTTP/1.1" +:+ crlf +:+ "Host: h" +:+ crlf +:+ crlf.

Definition exReqmod : string := exHead "REQMOD" "" ("req-hdr=0, req-body=" +:+ FormatInt (len exHttp)) +:+ exHttp +:+ exWire.

Definition exEcho : icapEcho := mkEcho [("req-hdr", exHttp)] "req-body".

Lemma echo_unchanged_witness : request_content AtEOF exServerCfg exIcapAnswers exReqmod = Some (exEcho, "clean body")
  ∧ ∃ value payload sections echo' hasBody rest,
    icapWriteEcho id "fp" exEcho "clean body" = icapProtoVersion +:+ " 200 OK" +:+ crlf +:+ "ISTag: " +:+ icapISTag id "fp" +:+ crlf
      +:+ "Encapsulated: " +:+ value +:+ crlf +:+ crlf +:+ payload
    ∧ parseICAPEncapsulated value = Some sections
    ∧ read_sections AtEOF sections (mkEcho [] "") false payload = inl ((echo', hasBody), rest)
    ∧ ec_hdrs echo' = ec_hdrs exEcho
    ∧ if hasBody : bool then ec_bodyName echo' = ec_bodyName exEcho ∧ readICAPChunkedBody AtEOF 100 rest = inl (("clean body", false), "")
      else "clean body" = "" ∧ rest = "".
Proof.
  assert (request_content AtEOF exServerCfg exIcapAnswers exReqmod = Some (exEcho, "clean body")) as Hc by by vm_compute.
  split; [exact Hc|].
  refine (echo_unchanged AtEOF exServerCfg exIcapAnswers id "fp" exReqmod exEcho "clean body" 100 Hc _ _ _).
  - constructor; [|constructor]. apply short_small. by vm_compute.
  - exact eq_refl.
  - split; [by apply Z.leb_le|exact eq_refl].
Defined.

(** *** What the runs show *)

(** Bytes between the data of a chunk and its line end are read and thrown
    away: both requests are scanned as the same body. *)
Definition exSmuggled : string :=
  exHead "RESPMOD" ("Allow: 204" +:+ crlf) "res-body=0" +:+ "a" +:+ crlf +:+ "clean body" +:+ "EVIL hidden bytes" +:+ crlf +:+ "0" +:+ crlf +:+ crlf.

Theorem chunk_surplus_dropped : request_content AtEOF exServerCfg exIcapAnswers exSmuggled = Some (mkEcho [] "res-body", "clean body")
  ∧ io_replies (handleICAPRequest AtEOF exServerCfg exIcapAnswers exSmuggled exIcapCached) = [RStatus "fp" 204 "No Modification" ""].
Proof. by vm_compute. Qed.

(** ** The accept loop *)

Import IcapConn.

Definition exAt (pc : LoopPc) (conns wg : Z) (gs : gmap nat (Kind * GorPhase)) (seen closed : gset nat) : IcapServer :=
  mkIcapServer pc conns 0 wg false false true false 0 gs seen closed.

(** One connection is served. *)
Lemma exServing : rtc (conn_step 1) icapStart (exAt AtAccept 1 1 {[1%nat := (Serve, Running)]} {[1%nat]} ∅).
Proof.
  eapply rtc_l; [by apply (step_accept 1 icapStart 1%nat); [done|done|apply not_elem_of_empty]|].
  eapply rtc_l; [by eapply (step_take 1 _ 1%nat)|]. eapply rtc_l; [by eapply (step_serve 1 _ 1%nat)|].
  cbn. rewrite union_empty_r_L. reflexivity.
Qed.

Lemma connections_bounded_witness : let s := exAt AtAccept 1 1 {[1%nat := (Serve, Running)]} {[1%nat]} ∅ in
  held running (is_gs s) <= 1 + icapMaxRefuseInflight ∧ is_wg s = held (λ _, true) (is_gs s)
  ∧ ∀ c, c ∈ is_seen s → c ∈ is_closed s ∨ pc_conn (is_pc s) = Some c ∨ ∃ k, is_gs s !! c = Some (k, Running).
Proof. exact (connections_bounded 1 _ ltac:(lia) exServing). Defined.

Lemma stop_drains_witness :
  let s := beginICAPStop (exAt AtAccept 1 1 {[1%nat := (Serve, Running)]} {[1%nat]} ∅) in
  let s' := {| s with is_listening := false |} in
  (is_stopping s' = true ∧ winds_down (is_gs s) (is_gs s') ∧ is_wg s' <= is_wg s)
  ∧ ∃ s'', rtc (conn_step 1) s' s'' ∧ is_gs s'' = ∅ ∧ is_wg s'' = 0 ∧ is_closed s'' = is_seen s''.
Proof.
  intros s s'. refine (stop_drains 1 s s' _ _ _ _); [lia| |reflexivity|].
  - eapply rtc_r; [exact exServing|apply step_stop].
  - apply rtc_once. by apply step_unlisten.
Defined.
