(* ===== verification/CapeTypes.v ===== *)
(** * CAPE jobs: data, limits and identifier syntax

    [internal/cape/store.go] (job record, configuration and its bounds),
    [internal/cape/client.go] (error codes, task references, identifier
    syntax) and the identifier checks of [store_state.go], [callback.go] and
    [api.go]. *)

From Stdlib Require Import ZArith Lia.
From stdpp Require Import base gmap strings list numbers.
From S2P Require Import Prelude GoStd.

Local Open Scope Z_scope.

(** ** Error codes (client.go) *)
Definition Code : Type := string.

Definition Invalid : Code := "cape_invalid".
Definition Closed : Code := "cape_closed".
Definition Credential : Code := "cape_credential".
Definition Unauthorized : Code := "cape_unauthorized".
Definition Throttled : Code := "cape_throttled".
Definition Transport : Code := "cape_transport".
Definition Deadline : Code := "cape_deadline".
Definition Protocol : Code := "cape_protocol".
Definition TooLarge : Code := "cape_too_large".
Definition Remote : Code := "cape_remote".
Definition NotFound : Code := "cape_not_found".

(** [safeOutcome]: the codes that may be persisted; "" is success. *)
Definition safeOutcome (code : Code) : bool :=
  mem code [""; Invalid; Closed; Credential; Unauthorized; Throttled; Transport;
            Deadline; Protocol; TooLarge; Remote; NotFound].

(** ** Limits (client.go, store.go, protocol.go) *)
Definition MaxAttachment : Z := Z.shiftl 10 20.
Definition MaxMetadata : Z := Z.shiftl 64 10.
Definition MaxReport : Z := Z.shiftl 8 20.
Definition MaxTaskIDs : Z := 16.
Definition MaxDepth : Z := 64.
Definition maxTaskID : Z := 2147483647.
Definition PhysicalLimit : Z := Z.shiftl 2 30.
Definition StateReserve : Z := Z.shiftl 128 20.
Definition JobMetadataLimit : Z := Z.shiftl 4 10.
Definition JobResultLimit : Z := Z.shiftl 16 10.
Definition databaseLimit : Z := Z.shiftl 64 20.
Definition ingressLimit : Duration := 30 * second.
Definition ingressIdle : Duration := 5 * second.
Definition clockTolerance : Duration := 5 * second.
Definition RequestTimeout : Duration := 30 * second.

(** ** Jobs (store.go) *)
Inductive JobState :=
  | Staging | Queued | Submitting | SubmitUncertain | RemotePending | Fetching
  | Completed | Failed | Expired | Cancelled.

#[export] Instance JobState_eq_dec : EqDecision JobState.
Proof. solve_decision. Defined.

Record TaskRef := mkTaskRef { t_ID : Z; t_Generation : string }.

#[export] Instance TaskRef_eq_dec : EqDecision TaskRef.
Proof. solve_decision. Defined.

Record Submission := mkSubmission {
  sub_Tasks : list TaskRef;
  sub_NoBytesSent : bool;
  sub_UnknownDebt : bool
}.

(** [j_Result] holds the bytes of the [json.RawMessage]; "" is nil. *)
Record Job := mkJob {
  j_ID : string;
  j_Tenant : string;
  j_Generation : string;
  j_SubmissionPolicy : string;
  j_ResultPolicy : string;
  j_Digest : string;
  j_StaticVerdict : string;
  j_Correlation : string;
  j_State : JobState;
  j_Version : Z;
  j_ReservedBytes : Z;
  j_PayloadBytes : Z;
  j_CreatedAt : Time;
  j_IngressDeadline : Time;
  j_QueueDeadline : Time;
  j_AnalysisDeadline : Time;
  j_TerminalAt : Time;
  j_NextAttempt : Time;
  j_AttemptAt : Time;
  j_RetryAfterUntil : Time;
  j_Attempts : Z;
  j_SubmissionVersion : Z;
  j_SubmissionRecorded : bool;
  j_TaskIDs : list Z;
  j_DeleteAcknowledgedIDs : list Z;
  j_Cleanup : string;
  j_UnknownDebt : bool;
  j_DedupBarrier : bool;
  j_Suppressed : bool;
  j_Reason : Code;
  j_Result : string;
  j_PollWakeAt : Time;
  j_ReadAttempts : Z;
  j_CleanupDeadlineExceeded : bool
}.

#[export] Instance Job_eq_dec : EqDecision Job.
Proof. solve_decision. Defined.

(** The values [Cleanup] takes. *)
Definition not_submitted : string := "not_submitted".
Definition remote_delete_pending : string := "remote_delete_pending".
Definition remote_delete_failed : string := "remote_delete_failed/unknown".
Definition remote_purge_confirmed : string := "remote_purge_confirmed".
(** [DeleteState] (protocol.go). *)
Definition DeleteAcknowledgedUnverified : string := "remote_delete_acknowledged_unverified".

(** ** Configuration (store.go) *)
Record StoreConfig := mkStoreConfig {
  c_Directory : string;
  c_Tenants : list string;
  c_MaxAttachment : Z;
  c_MaxJobs : Z;
  c_TenantJobs : Z;
  c_MaxBytes : Z;
  c_TenantBytes : Z;
  c_SubmitPerMinute : Z;
  c_TenantSubmitPerMinute : Z;
  c_RequestsPerMinute : Z;
  c_SubmissionConcurrency : Z;
  c_TenantSubmissionConcurrency : Z
}.

(** [identifier]: the loop ranges over runes; a byte of 0x80 or more is never
    part of an allowed rune, so the test is the same byte by byte. *)
Definition identifier_char (c : Ascii.ascii) : bool :=
  let r := byte c in
  ((97 <=? r) && (r <=? 122)) || ((65 <=? r) && (r <=? 90)) || ((48 <=? r) && (r <=? 57))
  || (r =? 45) || (r =? 95) || (r =? 46).

Definition identifier (s : string) (maxLength : Z) : bool :=
  negb ((len s =? 0) || (maxLength <? len s)) && string_forallb identifier_char s.

(** The defaults [ValidateStoreLimits] fills in. *)
Definition or_default (v d : Z) : Z := if v =? 0 then d else v.

Definition defaultStoreLimits (c : StoreConfig) : StoreConfig :=
  {| c with
     c_MaxAttachment := or_default (c_MaxAttachment c) MaxAttachment;
     c_MaxJobs := or_default (c_MaxJobs c) 1000;
     c_TenantJobs := or_default (c_TenantJobs c) 100;
     c_MaxBytes := or_default (c_MaxBytes c) (Z.shiftl 1 30);
     c_TenantBytes := or_default (c_TenantBytes c) (Z.shiftl 100 20);
     c_SubmitPerMinute := or_default (c_SubmitPerMinute c) 5;
     c_TenantSubmitPerMinute := or_default (c_TenantSubmitPerMinute c) 2;
     c_RequestsPerMinute := or_default (c_RequestsPerMinute c) 5;
     c_SubmissionConcurrency := or_default (c_SubmissionConcurrency c) 2;
     c_TenantSubmissionConcurrency := or_default (c_TenantSubmissionConcurrency c) 1 |}.

(** [ValidateStoreLimits(c)]: [None] is the nil pointer; on success the
    configuration as the call leaves it. *)
Definition ValidateStoreLimits (c : option StoreConfig) : res StoreConfig :=
  match c with
  | None => Err (cerr Invalid)
  | Some c =>
      let c := defaultStoreLimits c in
      if (c_MaxAttachment c <? 1) || (MaxAttachment <? c_MaxAttachment c)
         || (c_MaxJobs c <? 1) || (10000 <? c_MaxJobs c)
         || (c_TenantJobs c <? 1) || (c_MaxJobs c <? c_TenantJobs c)
         || (c_MaxBytes c <? 1) || (PhysicalLimit - StateReserve - 3 * databaseLimit <? c_MaxBytes c)
         || (c_TenantBytes c <? 1) || (c_MaxBytes c <? c_TenantBytes c)
         || (c_SubmitPerMinute c <? 1) || (10000 <? c_SubmitPerMinute c)
         || (c_TenantSubmitPerMinute c <? 1) || (c_SubmitPerMinute c <? c_TenantSubmitPerMinute c)
         || (c_RequestsPerMinute c <? c_SubmitPerMinute c) || (10000 <? c_RequestsPerMinute c)
         || (c_SubmissionConcurrency c <? 1) || (100 <? c_SubmissionConcurrency c)
         || (c_TenantSubmissionConcurrency c <? 1)
         || (c_SubmissionConcurrency c <? c_TenantSubmissionConcurrency c)
      then Err (cerr Invalid)
      else Ok c
  end.

(** [validateStoreConfig] *)
Definition validateStoreConfig (c : StoreConfig) : res StoreConfig :=
  match ValidateStoreLimits (Some c) with
  | Err e => Err e
  | Ok c =>
      if bool_decide (c_Directory c = "") || (Z.of_nat (length (c_Tenants c)) =? 0)
         || (10000 <? Z.of_nat (length (c_Tenants c)))
      then Err (cerr Invalid)
      else if forallb (λ t, identifier t 128) (c_Tenants c) then Ok c else Err (cerr Invalid)
  end.

(** [capacity] and [validCapacity] *)
Record capacity := mkCapacity { cap_total : Z; cap_available : Z; cap_block : Z }.

Definition validCapacity (c : capacity) : bool :=
  (StateReserve + 3 * databaseLimit <? cap_total c) && (cap_total c <=? PhysicalLimit)
  && (0 <=? cap_available c) && (cap_available c <=? cap_total c)
  && (0 <? cap_block c) && (cap_block c <=? Z.shiftl 1 20).

(** ** The four spellings of the opaque identifier check *)

(** client.go *)
Definition hexID (s : string) : bool := (len s =? 32) && string_forallb lower_hex s.

(** api.go: ranges over runes, all of which must be ASCII digits or letters. *)
Definition opaqueJobID (id : string) : bool :=
  if negb (len id =? 32) then false else string_forallb lower_hex id.

(** callback.go *)
Definition eventID (v : string) : bool :=
  match hex_decode v with
  | Some b => (len b =? 16) && bool_decide (hex_encode b = v)
  | None => false
  end.

(** store_state.go *)
Definition validJobID (id : string) : bool :=
  match hex_decode id with
  | Some b => (len b =? 16) && bool_decide (to_lower id = id)
  | None => false
  end.

(** store.go: a bucket key that cannot collide across tenants. *)
Definition bucketName (kind tenant : string) : string :=
  kind +:+ ":" +:+ FormatInt (len tenant) +:+ ":" +:+ tenant.

(** ** Lemmas *)

Lemma hex_val_to_lower c : is_Some (hex_val c) → 
  (let b := byte c in (if (65 <=? b) && (b <=? 90) then ascii_of_Z (b + 32) else c)) = c →
  lower_hex c = true.
Proof.
  unfold hex_val, lower_hex. cbn zeta. intros [n Hn] Heq.
  pose proof (byte_range c).
  destruct (decide (65 <= byte c <= 70)) as [Hr|Hr].
  { exfalso. apply (f_equal byte) in Heq. revert Heq.
    replace ((65 <=? byte c) && (byte c <=? 90)) with true by lia.
    rewrite byte_ascii_of_Z by lia. lia. }
  repeat case_match; simplify_eq/=; bool_hyps; lia.
Qed.

Lemma to_lower_hex s t : hex_decode s = Some t → to_lower s = s → string_forallb lower_hex s = true.
Proof.
  revert t. induction s as [|c|a b s IH] using string_ind2; intros t Hd Hl; [done..|].
  cbn [hex_decode string_forallb to_lower] in *.
  destruct (hex_val a) as [x|] eqn:Ea, (hex_val b) as [y|] eqn:Eb,
    (hex_decode s) as [u|] eqn:Es; try discriminate.
  injection Hl as Ha Hb Hs.
  rewrite (hex_val_to_lower a), (hex_val_to_lower b) by eauto. simpl. eauto.
Qed.

Lemma lower_hex_to_lower s : string_forallb lower_hex s = true → to_lower s = s.
Proof.
  induction s as [|c s IH]; intros H; [done|]. simpl in *. bool_hyps. rewrite IH by done.
  f_equal. unfold lower_hex in *. case_match; [|done]. bool_hyps. lia.
Qed.

(** The four checks are one language: 32 lower-case hexadecimal digits. *)
Lemma eventID_hexID v : eventID v = hexID v.
Proof.
  unfold eventID, hexID. destruct (hex_decode v) as [b|] eqn:E.
  - rewrite (hex_decode_len v b) by done. destruct (decide (hex_encode b = v)) as [Hv|Hv].
    + rewrite bool_decide_true by done. rewrite <- Hv, hex_encode_lower. lia.
    + rewrite bool_decide_false by done. destruct (string_forallb lower_hex v) eqn:Hl; [|lia].
      destruct Hv. by apply hex_encode_decode.
  - destruct (string_forallb lower_hex v) eqn:Hl; [|lia].
    destruct (decide (len v = 32)) as [H32|]; [|lia].
    destruct (hex_decode_some v) as [u Hu]; [done|by rewrite H32|congruence].
Qed.

Lemma validJobID_hexID v : validJobID v = hexID v.
Proof.
  unfold validJobID, hexID. destruct (hex_decode v) as [b|] eqn:E.
  - rewrite (hex_decode_len v b) by done. destruct (string_forallb lower_hex v) eqn:Hl.
    + rewrite bool_decide_true by (by apply lower_hex_to_lower). lia.
    + rewrite bool_decide_false; [lia|]. intros ?. by rewrite (to_lower_hex v b) in Hl.
  - destruct (string_forallb lower_hex v) eqn:Hl; [|lia].
    destruct (decide (len v = 32)) as [H32|]; [|lia].
    destruct (hex_decode_some v) as [u Hu]; [done|by rewrite H32|congruence].
Qed.

Lemma opaqueJobID_hexID v : opaqueJobID v = hexID v.
Proof. unfold opaqueJobID, hexID. by destruct (len v =? 32). Qed.

Lemma hexID_encode b : len b = 16 → hexID (hex_encode b) = true.
Proof. intros H. unfold hexID. by rewrite hex_encode_len, H, hex_encode_lower. Qed.

(** ** The limits of an accepted configuration *)
Record limits_ok (c : StoreConfig) : Prop := {
  lo_attachment : 1 <= c_MaxAttachment c <= MaxAttachment;
  lo_jobs : 1 <= c_TenantJobs c <= c_MaxJobs c;
  lo_max_jobs : c_MaxJobs c <= 10000;
  lo_bytes : 1 <= c_TenantBytes c <= c_MaxBytes c;
  lo_max_bytes : c_MaxBytes c <= PhysicalLimit - StateReserve - 3 * databaseLimit;
  lo_submit : 1 <= c_TenantSubmitPerMinute c <= c_SubmitPerMinute c;
  lo_requests : c_SubmitPerMinute c <= c_RequestsPerMinute c <= 10000;
  lo_concurrency : 1 <= c_TenantSubmissionConcurrency c <= c_SubmissionConcurrency c;
  lo_max_concurrency : c_SubmissionConcurrency c <= 100
}.

Lemma ValidateStoreLimits_ok c c' : ValidateStoreLimits (Some c) = Ok c' → limits_ok c' ∧ c' = defaultStoreLimits c.
Proof.
  unfold ValidateStoreLimits. intros H. cbn zeta in H. destruct (_ || _) eqn:Hb; [done|].
  injection H as <-. split; [|done]. bool_hyps. constructor; lia.
Qed.

Lemma limits_ok_default c : limits_ok c → defaultStoreLimits c = c.
Proof.
  intros []. unfold defaultStoreLimits, or_default.
  destruct c; cbn in *. repeat (rewrite (proj2 (Z.eqb_neq _ 0)) by lia). done.
Qed.

Lemma limits_ok_accepted c : limits_ok c → ValidateStoreLimits (Some c) = Ok c.
Proof.
  intros Hl. unfold ValidateStoreLimits. rewrite (limits_ok_default c Hl). destruct Hl.
  destruct (_ || _) eqn:Hb; [|done]. exfalso.
  repeat (apply orb_true_iff in Hb as [Hb|Hb]); lia.
Qed.

(** Accepted limits satisfy every bound, and validating them again changes
    nothing; a configuration inside the bounds is accepted as it is. *)
Theorem ValidateStoreLimits_spec c :
  (∀ c', ValidateStoreLimits c = Ok c' → limits_ok c' ∧ ValidateStoreLimits (Some c') = Ok c')
  ∧ (∀ c0, c = Some c0 → limits_ok c0 → ValidateStoreLimits c = Ok c0).
Proof.
  split.
  - intros c' H. destruct c as [c|]; [|done]. apply ValidateStoreLimits_ok in H as [H _].
    split; [done|]. by apply limits_ok_accepted.
  - intros c0 -> H. by apply limits_ok_accepted.
Qed.
