(* ===== verification/CapeJob.v ===== *)
(** * The job state machine

    The pure job updates of [lifecycle.go], [store_state.go],
    [store_ingress.go], [transitions.go], [scheduler_store.go] and
    [scheduler.go], and the abstract contract every committed update keeps:
    [legal] (one step of the life cycle) and [job_inv] (what a stored job
    always satisfies). *)

From Stdlib Require Import ZArith Lia.
From stdpp Require Import base gmap strings list numbers.
From S2P Require Import Prelude GoStd CapeTypes.

Local Open Scope Z_scope.

(** [terminal] (lifecycle.go) *)
Definition terminal (state : JobState) : bool :=
  bool_decide (state = Completed) || bool_decide (state = Failed)
  || bool_decide (state = Expired) || bool_decide (state = Cancelled).

(** [terminate] (lifecycle.go): the first terminal time is kept, an attempt in
    flight becomes unknown debt.  The conditions read the job before the call. *)
Definition in_flight (state : JobState) : bool :=
  bool_decide (state = Submitting) || bool_decide (state = SubmitUncertain).

Definition terminate (j : Job) (state : JobState) (reason : Code) (now : Time) : Job :=
  {| j with
     j_TerminalAt := if IsZero (j_TerminalAt j) then now else j_TerminalAt j;
     j_UnknownDebt := in_flight (j_State j) || j_UnknownDebt j;
     j_DedupBarrier := in_flight (j_State j) || j_DedupBarrier j;
     j_Cleanup := if in_flight (j_State j) then remote_delete_failed else j_Cleanup j;
     j_State := state;
     j_Reason := reason;
     j_Result := "";
     j_Suppressed := bool_decide (state = Cancelled) || j_Suppressed j |}.

Definition bump (j : Job) : Job := {| j with j_Version := j_Version j + 1 |}.

(** [appendSubmissionTasks] (store_state.go): the ids kept, and whether any
    returned task was rejected.  Only the first [MaxTaskIDs] are looked at. *)
Fixpoint append_tasks (generation : string) (tasks : list TaskRef) (seen : list Z)
    (ids : list Z) (invalid : bool) : list Z * bool :=
  match tasks with
  | [] => (ids, invalid)
  | task :: rest =>
      if (t_ID task <? 1) || (maxTaskID <? t_ID task)
         || bool_decide (t_Generation task ≠ generation) || mem (t_ID task) seen
      then append_tasks generation rest seen ids true
      else append_tasks generation rest (t_ID task :: seen) (ids ++ [t_ID task]) invalid
  end.

Definition appendSubmissionTasks (j : Job) (tasks : list TaskRef) : Job * bool :=
  let '(ids, invalid) :=
    append_tasks (j_Generation j) (take (Z.to_nat MaxTaskIDs) tasks) [] (j_TaskIDs j)
      (MaxTaskIDs <? Z.of_nat (length tasks)) in
  ({| j with j_TaskIDs := ids |}, invalid).

(** [applyTerminalSubmission] (store_state.go) *)
Definition applyTerminalSubmission (j previous : Job) (submission : Submission)
    (outcome : Code) (invalid : bool) : Job :=
  let noSend := sub_NoBytesSent submission
                && (Z.of_nat (length (sub_Tasks submission)) =? 0) && negb invalid in
  let debt := j_UnknownDebt j
      || negb noSend && (bool_decide (outcome ≠ "") || negb (Z.of_nat (length (j_TaskIDs j)) =? 1)) in
  if noSend && negb (sub_UnknownDebt submission)
  then {| j with j_Reason := j_Reason previous; j_UnknownDebt := false;
          j_DedupBarrier := false; j_Cleanup := not_submitted |}
  else {| j with j_Reason := j_Reason previous; j_UnknownDebt := debt;
          j_Cleanup := if debt then remote_delete_failed else remote_delete_pending |}.

(** The job [enqueue] publishes (store_ingress.go). *)
Definition queued_job (j : Job) (size : Z) (digest static : string) : Job :=
  {| j with
     j_StaticVerdict := static; j_State := Queued; j_Version := j_Version j + 1;
     j_PayloadBytes := size; j_ReservedBytes := size + JobMetadataLimit + JobResultLimit;
     j_Digest := digest |}.

(** [reusable] (store_ingress.go) *)
Definition reusable (j : Job) (now : Time) : bool :=
  if j_DedupBarrier j then true
  else match j_State j with
       | Queued | Submitting | SubmitUncertain | RemotePending | Fetching => true
       | Completed => negb (j_Suppressed j) && negb (IsZero (j_TerminalAt j))
                      && Before now (j_TerminalAt j + 24 * hour)
       | _ => false
       end.

(** [singleOwnedTask] (transitions.go) *)
Definition singleOwnedTask (j : Job) (task : TaskRef) : bool :=
  match j_TaskIDs j with
  | [id] => (id =? t_ID task) && bool_decide (j_Generation j = t_Generation task)
            && negb (j_UnknownDebt j)
  | _ => false
  end.

(** [readThrottled] (scheduler_store.go) *)
Definition readThrottled (j : Job) (now : Time) : bool :=
  let callbackWake := negb (IsZero (j_PollWakeAt j)) && negb (Before now (j_PollWakeAt j)) in
  let retryAfter := negb (IsZero (j_RetryAfterUntil j)) && Before now (j_RetryAfterUntil j) in
  Before now (j_NextAttempt j) && (negb callbackWake || retryAfter).

(** [cleanupTask] (scheduler.go): the first owned task not yet acknowledged. *)
Definition cleanupTask (j : Job) : option TaskRef :=
  if negb (terminal (j_State j)) || j_CleanupDeadlineExceeded j then None
  else match filter (λ id, id ∉ j_DeleteAcknowledgedIDs j) (j_TaskIDs j) with
       | id :: _ => Some (mkTaskRef id (j_Generation j))
       | [] => None
       end.

(** ** The contract *)

(** A job whose bytes may still be submitted needs its payload file. *)
Definition needs_payload (state : JobState) : bool :=
  match state with Queued | Submitting | SubmitUncertain => true | _ => false end.

(** A job that forbids another submission of the same content. *)
Definition holds (j : Job) : bool :=
  j_DedupBarrier j
  || match j_State j with
     | Queued | Submitting | SubmitUncertain | RemotePending | Fetching => true
     | _ => false
     end.

(** Transitions one committed update may make; every state may also stay. *)
Definition allowed (a b : JobState) : bool :=
  bool_decide (a = b) ||
  match a, b with
  | Queued, (Submitting | Expired | Cancelled) => true
  | Submitting, (Queued | SubmitUncertain | RemotePending | Failed | Expired | Cancelled) => true
  | SubmitUncertain, (Queued | RemotePending | Failed | Expired | Cancelled) => true
  | RemotePending, (Fetching | Failed | Expired | Cancelled) => true
  | Fetching, (Completed | Failed | Expired | Cancelled) => true
  | (Completed | Failed | Expired), Cancelled => true
  | _, _ => false
  end.

Record job_inv (j : Job) : Prop := {
  ji_unrecorded : j_State j = Staging ∨ j_State j = Queued ∨ j_SubmissionRecorded j = false →
                  j_TaskIDs j = [];
  ji_nodup : NoDup (j_TaskIDs j);
  ji_range : Forall (λ id, 1 <= id <= maxTaskID) (j_TaskIDs j);
  ji_count : Z.of_nat (length (j_TaskIDs j)) <= MaxTaskIDs;
  ji_debt : j_UnknownDebt j = true ∨ j_TaskIDs j ≠ [] → j_DedupBarrier j = true;
  ji_uncertain : j_State j = SubmitUncertain → j_UnknownDebt j = true;
  ji_result : j_Result j ≠ "" → j_State j = Completed ∧ j_Suppressed j = false;
  ji_suppressed : j_Suppressed j = true → terminal (j_State j) = true;
  ji_cleanup : j_Cleanup j = not_submitted → j_TaskIDs j = [] ∧ j_UnknownDebt j = false;
  ji_owed : j_Cleanup j ≠ not_submitted → j_DedupBarrier j = true;
  ji_purge : j_Cleanup j ≠ remote_purge_confirmed;
  ji_acked : NoDup (j_DeleteAcknowledgedIDs j) ∧ j_DeleteAcknowledgedIDs j ⊆ j_TaskIDs j;
  ji_attempt : j_SubmissionRecorded j = false → j_SubmissionVersion j ≠ 0 →
               in_flight (j_State j) = true ∨ j_DedupBarrier j = true;
  ji_reads : 0 <= j_ReadAttempts j <= 16;
  ji_version : j_SubmissionVersion j <= j_Version j;
  ji_staged : j_State j = Staging → j_Digest j = ""
}.

(** Identity and admission data of a job, fixed when it is admitted. *)
Definition same_identity (j j' : Job) : Prop :=
  j_ID j' = j_ID j ∧ j_Tenant j' = j_Tenant j ∧ j_Generation j' = j_Generation j
  ∧ j_SubmissionPolicy j' = j_SubmissionPolicy j ∧ j_ResultPolicy j' = j_ResultPolicy j
  ∧ j_Correlation j' = j_Correlation j ∧ j_CreatedAt j' = j_CreatedAt j
  ∧ j_IngressDeadline j' = j_IngressDeadline j ∧ j_QueueDeadline j' = j_QueueDeadline j
  ∧ j_AnalysisDeadline j' = j_AnalysisDeadline j.

Definition same_payload (j j' : Job) : Prop :=
  j_Digest j' = j_Digest j ∧ j_PayloadBytes j' = j_PayloadBytes j
  ∧ j_ReservedBytes j' = j_ReservedBytes j.

(** The attempt stays the recorded one it was, or a new one is begun. *)
Definition same_attempt (j j' : Job) : Prop :=
  j_SubmissionVersion j' = j_SubmissionVersion j ∧ (j_SubmissionRecorded j = true → j_SubmissionRecorded j' = true)
  ∨ j_SubmissionVersion j' = j_Version j'.

(** One committed update of an admitted job. *)
Record legal (j j' : Job) : Prop := {
  lg_identity : same_identity j j';
  lg_payload : same_payload j j';
  lg_version : j_Version j' = j_Version j + 1;
  lg_state : allowed (j_State j) (j_State j') = true;
  lg_inv : job_inv j → job_inv j';
  lg_holds : job_inv j → holds j' = true → holds j = true;
  lg_terminal_at : j_TerminalAt j ≠ 0 → terminal (j_State j) = true →
                   j_TerminalAt j' = j_TerminalAt j;
  lg_tasks : job_inv j → j_TaskIDs j `prefix_of` j_TaskIDs j';
  lg_attempt : same_attempt j j'
}.

(** The attempt begun at version [v] needs no outcome any more. *)
Definition attempt_settled (v : Z) (j : Job) : Prop :=
  v <= j_Version j ∧ (j_SubmissionVersion j = v → j_SubmissionRecorded j = true).

(** A job whose row may be deleted: it ended and nothing is owed remotely. *)
Definition removable (j : Job) : Prop :=
  terminal (j_State j) = true ∧ j_UnknownDebt j = false ∧ j_TaskIDs j = [].

(** ** Facts about the state machine *)

Lemma terminal_iff st :
  terminal st = true ↔ st = Completed ∨ st = Failed ∨ st = Expired ∨ st = Cancelled.
Proof. destruct st; vm_compute; tauto || (split; [by auto|by intros [?|[?|[?|?]]]]). Qed.

Lemma allowed_terminal a b : allowed a b = true → terminal a = true → terminal b = true.
Proof. by destruct a, b. Qed.

Lemma allowed_payload a b : allowed a b = true → needs_payload b = true → needs_payload a = true.
Proof. by destruct a, b. Qed.

Lemma allowed_staging b : allowed Staging b = true → b = Staging.
Proof. by destruct b. Qed.

Lemma allowed_to_staging a : allowed a Staging = true → a = Staging.
Proof. by destruct a. Qed.

Lemma needs_payload_holds j : needs_payload (j_State j) = true → holds j = true.
Proof. unfold holds. destruct (j_State j); simpl; try done; by rewrite orb_true_r. Qed.

Lemma holds_reusable j now : holds j = true → reusable j now = true.
Proof. unfold holds, reusable. destruct (j_DedupBarrier j); [done|]. by destruct (j_State j). Qed.

Lemma staged_stays j j' : (j_State j = Staging → j_Digest j = "") →
  same_payload j j' → allowed (j_State j) (j_State j') = true → j_State j' = Staging → j_Digest j' = "".
Proof. intros H (->&_) Ha Hs. apply H, allowed_to_staging. by rewrite <- Hs. Qed.

(** [legal] for an update that keeps tasks and acknowledgements: what is left
    are the fields the update touches. *)
Lemma legal_intro j j' :
  same_identity j j' → same_payload j j' → j_Version j' = j_Version j + 1 →
  allowed (j_State j) (j_State j') = true →
  j_TaskIDs j' = j_TaskIDs j →
  (job_inv j → NoDup (j_DeleteAcknowledgedIDs j') ∧ j_DeleteAcknowledgedIDs j' ⊆ j_TaskIDs j) →
  (j_State j' = Staging ∨ j_State j' = Queued ∨ j_SubmissionRecorded j' = false →
   j_State j = Staging ∨ j_State j = Queued ∨ j_SubmissionRecorded j = false) →
  (job_inv j → j_UnknownDebt j' = true ∨ j_TaskIDs j ≠ [] → j_DedupBarrier j' = true) →
  (job_inv j → j_State j' = SubmitUncertain → j_UnknownDebt j' = true) →
  (job_inv j → j_Result j' ≠ "" → j_State j' = Completed ∧ j_Suppressed j' = false) →
  (job_inv j → j_Suppressed j' = true → terminal (j_State j') = true) →
  (job_inv j → j_Cleanup j' = not_submitted → j_TaskIDs j = [] ∧ j_UnknownDebt j' = false) →
  (job_inv j → j_Cleanup j' ≠ not_submitted → j_DedupBarrier j' = true) →
  (job_inv j → j_Cleanup j' ≠ remote_purge_confirmed) →
  (job_inv j → j_SubmissionRecorded j' = false → j_SubmissionVersion j' ≠ 0 →
   in_flight (j_State j') = true ∨ j_DedupBarrier j' = true) →
  (job_inv j → 0 <= j_ReadAttempts j' <= 16) →
  (job_inv j → holds j' = true → holds j = true) →
  (j_TerminalAt j ≠ 0 → terminal (j_State j) = true → j_TerminalAt j' = j_TerminalAt j) →
  same_attempt j j' →
  legal j j'.
Proof.
  intros ? Hp Hv Hal Ht Ha Hrec Hdebt Hunc Hres Hsup Hcl How Hpu Hat Hrd ?? Hsa. constructor; auto.
  - intros Hji. pose proof Hji as []. constructor; rewrite ?Ht; auto.
    + destruct Hsa as [[-> _]| ->]; lia.
    + by apply (staged_stays j).
  - intros _. by rewrite Ht.
Qed.

Lemma attempt_settled_legal v j j' : legal j j' → attempt_settled v j → attempt_settled v j'.
Proof.
  intros Hl [Hv Hs]. pose proof (lg_version _ _ Hl). split; [lia|]. intros Hv'.
  destruct (lg_attempt _ _ Hl) as [[Heq Hr]|Heq]; [|lia]. apply Hr, Hs. congruence.
Qed.

Lemma attempt_settled_rtc v j j' : rtc legal j j' → attempt_settled v j → attempt_settled v j'.
Proof. induction 1; eauto using attempt_settled_legal. Qed.

(** Closes the side conditions of [legal_intro] for a concrete update. *)
Ltac legal_side :=
  try (let Hji := fresh "Hji" in
    intros Hji; pose proof (ji_debt _ Hji); pose proof (ji_uncertain _ Hji);
    pose proof (ji_result _ Hji); pose proof (ji_suppressed _ Hji);
    pose proof (ji_cleanup _ Hji); pose proof (ji_purge _ Hji); pose proof (ji_owed _ Hji); pose proof (ji_attempt _ Hji);
    pose proof (ji_reads _ Hji); pose proof (ji_acked _ Hji); clear Hji);
  cbn in *;
  solve [ done | tauto | congruence | intuition (done || congruence) | lia ].

Ltac legal_tac :=
  apply legal_intro; cbn;
  first [ reflexivity | by repeat split | by (left; split) | by right | legal_side | idtac ].

Lemma terminal_not st : terminal st = true →
  st ≠ Staging ∧ st ≠ Queued ∧ st ≠ Submitting ∧ st ≠ SubmitUncertain.
Proof. by destruct st. Qed.

Lemma holds_terminal j : terminal (j_State j) = true → holds j = j_DedupBarrier j.
Proof. unfold holds. destruct (j_State j); try done; by rewrite orb_false_r. Qed.

Lemma in_flight_holds j : in_flight (j_State j) = true → holds j = true.
Proof. intros H. apply needs_payload_holds. by destruct (j_State j). Qed.

Lemma terminate_legal j st reason now :
  allowed (j_State j) st = true → terminal st = true →
  legal j (bump (terminate j st reason now)).
Proof.
  intros Hal Ht. pose proof (terminal_not _ Ht) as (?&?&?&?).
  unfold terminate, bump.
  destruct (in_flight (j_State j)) eqn:Hf; legal_tac.
  - intros _ _. by apply in_flight_holds.
  - intros Hz _. unfold IsZero. by apply Z.eqb_neq in Hz as ->.
  - intros _. rewrite holds_terminal by done. cbn. unfold holds. by intros ->.
  - intros Hz _. unfold IsZero. by apply Z.eqb_neq in Hz as ->.
Qed.

Lemma append_tasks_spec generation tasks seen ids invalid ids' invalid' :
  append_tasks generation tasks seen ids invalid = (ids', invalid') →
  NoDup ids → (∀ x, x ∈ ids → x ∈ seen) → Forall (λ id, 1 <= id <= maxTaskID) ids →
  NoDup ids' ∧ Forall (λ id, 1 <= id <= maxTaskID) ids'
  ∧ (length ids' ≤ length ids + length tasks)%nat ∧ ids `prefix_of` ids'
  ∧ (invalid' = false → invalid = false ∧ ids' = ids ++ (t_ID <$> tasks)
       ∧ Forall (λ t, t_Generation t = generation) tasks).
Proof.
  revert seen ids invalid. induction tasks as [|t ts IH]; intros seen ids invalid Ha Hnd Hs Hf.
  { simplify_eq/=. rewrite app_nil_r. repeat split; auto with lia. }
  simpl in Ha. destruct (_ || mem (t_ID t) seen) eqn:Hbad.
  - destruct (IH _ _ _ Ha Hnd Hs Hf) as (?&?&?&?&Hi). simpl. split_and!; auto; [lia|].
    intros Hf'. by destruct (Hi Hf').
  - apply orb_false_iff in Hbad as [Hbad Hnew%mem_false].
    apply orb_false_iff in Hbad as [Hbad Hgen%bool_decide_eq_false]. bool_hyps.
    destruct (IH _ _ _ Ha) as (?&?&Hl&Hp&Hi).
    + apply list.NoDup_app. split_and!; [done| |apply NoDup_singleton].
      intros x ? Hx. apply list_elem_of_singleton in Hx as ->. by apply Hnew, Hs.
    + intros x Hx. apply elem_of_app in Hx as [?|Hx]; [right; auto|].
      apply list_elem_of_singleton in Hx as ->. left.
    + apply Forall_app; split; [done|]. constructor; [lia|done].
    + rewrite length_app in Hl. simpl in *. split_and!; auto; [lia| |].
      * etrans; [|exact Hp]. by apply prefix_app_r.
      * intros Hi'. destruct (Hi Hi') as (?&->&?). split_and!; [done|by rewrite <- app_assoc|].
        constructor; [|done]. by apply dec_stable.
Qed.

(** What an update never changes, over any number of updates. *)
Lemma legal_rtc_identity j j' : rtc legal j j' → same_identity j j' ∧ j_Digest j' = j_Digest j.
Proof.
  induction 1 as [j|j j1 j2 Hl _ [IH IHd]]; [by repeat split|].
  destruct Hl as [Hid (Hd&_) _ _ _ _ _ _].
  destruct Hid as (?&?&?&?&?&?&?&?&?&?), IH as (?&?&?&?&?&?&?&?&?&?).
  split; [repeat split; congruence|congruence].
Qed.

