(* ===== verification/CapeJson.v ===== *)
(** * Bounded JSON documents of the CAPE endpoint

    [internal/cape/protocol.go]: [jsonDocument] and its parser, [taskID],
    [parseSubmission].  The tokens are those [json.Decoder] delivers; the
    parser, its bounds and the observation of task ids are the code's own. *)

From Stdlib Require Import ZArith Lia.
From Stdlib Require Ascii.
From stdpp Require Import base gmap strings list numbers.
From S2P Require Import Prelude GoStd CapeTypes.

Local Open Scope Z_scope.

Definition maxDecodedJSONTokens : Z := 65536.

(** ** Values

    What [any] holds after [UseNumber]; an object is the association list of
    its keys in insertion order. *)
Inductive json :=
  | JNull
  | JBool (b : bool)
  | JNum (literal : string)
  | JStr (s : string)
  | JArr (l : list json)
  | JObj (m : list (string * json)).

(** [m[name]] and [m[name] = child] on a Go map. *)
Fixpoint assoc_get {A} (k : string) (m : list (string * A)) : option A :=
  match m with
  | [] => None
  | (k', v) :: m => if bool_decide (k' = k) then Some v else assoc_get k m
  end.

Fixpoint assoc_set {A} (k : string) (v : A) (m : list (string * A)) : list (string * A) :=
  match m with
  | [] => [(k, v)]
  | (k', v') :: m => if bool_decide (k' = k) then (k, v) :: m else (k', v') :: assoc_set k v m
  end.

(** The type assertions on [any]. *)
Definition as_object (v : option json) : option (list (string * json)) :=
  match v with Some (JObj m) => Some m | _ => None end.
Definition as_array (v : option json) : option (list json) :=
  match v with Some (JArr l) => Some l | _ => None end.
Definition as_string (v : option json) : option string :=
  match v with Some (JStr s) => Some s | _ => None end.
Definition as_bool (v : option json) : option bool :=
  match v with Some (JBool b) => Some b | _ => None end.

(** Lookup in a possibly nil map: [m, _ := v.(map[string]any); m[k]]. *)
Definition field (m : option (list (string * json))) (k : string) : option json :=
  m ≫= assoc_get k.

(** ** Number literals: does [Float64] overflow? *)

(** Value of a decimal literal: mantissa and decimal exponent. *)
Fixpoint scan_number (s : string) (m e : Z) (frac : bool) : Z * Z :=
  match s with
  | EmptyString => (m, e)
  | String c s =>
      let b := byte c in
      if b =? 46 then scan_number s m e true
      else if (b =? 101) || (b =? 69) then
        (m, e + match ParseInt s 64 with Some x => x
                | None => if string_forallb (λ c, negb (byte c =? 45)) s then int64_max else int64_min end)
      else match digit_val c with
           | Some d => scan_number s (10 * m + d) (if frac then e - 1 else e) frac
           | None => scan_number s m e frac
           end
  end.

(** Rounding to nearest yields infinity from 2^1024 - 2^970 on. *)
Definition float_overflows (s : string) : bool :=
  let '(m, e) := scan_number s 0 0 false in
  if m =? 0 then false
  else if 400 <? e then true
  else if e <? 0 then (2 ^ 1024 - 2 ^ 970) * 10 ^ (- e) <=? m
  else 2 ^ 1024 - 2 ^ 970 <=? m * 10 ^ e.

(** ** Tokens *)
Inductive token :=
  | TOpen | TClose | TOpenArr | TCloseArr
  | TNull | TBool (b : bool) | TNum (literal : string) | TStr (s : string).

#[export] Instance token_eq_dec : EqDecision token.
Proof. solve_decision. Defined.

(** One [Token()] call: [None] is its error; the flag says whether the next
    byte after the token, white space skipped, is a comma or a bracket. *)
Record item := mkItem { i_token : option token; i_terminated : bool }.

(** A response body as the decoder sees it. *)
Record body := mkBody { b_items : list item; b_utf8 : bool }.

(** [jsonParser]; [p_seen] holds the values [visit] was called with. *)
Record parser := mkParser {
  p_items : list item;
  p_visit : bool;
  p_invalid : bool;
  p_tokens : Z;
  p_last : bool;
  p_seen : list json
}.

Inductive parsed (A : Type) := Parsed (a : A) (p : parser) | Rejected (p : parser) | OutOfFuel.
Arguments Parsed {A} a p.
Arguments Rejected {A} p.
Arguments OutOfFuel {A}.

(** [p.token()] *)
Definition next_token (p : parser) : parsed token :=
  match p_items p with
  | [] => Rejected p
  | i :: rest =>
      match i_token i with
      | None => Rejected {| p with p_items := [] |}
      | Some t =>
          let p := {| p with p_items := rest; p_tokens := p_tokens p + 1; p_last := i_terminated i |} in
          if maxDecodedJSONTokens <? p_tokens p then Rejected p else Parsed t p
      end
  end.

(** [p.decoder.More()] *)
Definition More (p : parser) : bool :=
  match p_items p with
  | i :: _ => bool_decide (i_token i ≠ Some TClose) && bool_decide (i_token i ≠ Some TCloseArr)
  | [] => false
  end.

Definition mark_invalid (bad : bool) (p : parser) : parser :=
  {| p with p_invalid := bad || p_invalid p |}.

Definition is_data_task_ids (path : list string) : bool :=
  bool_decide (path = ["data"; "task_ids"]).

(** [childPath]: tracked only for a visitor. *)
Definition child_path (p : parser) (path : list string) (name : string) : list string :=
  if p_visit p then path ++ [name] else [].

Definition visit_element (p : parser) (path : list string) (child : json) : parser :=
  if p_visit p && is_data_task_ids path && p_last p
  then {| p with p_seen := p_seen p ++ [child] |} else p.

(** [p.value] with its two loops; every call uses one unit of fuel. *)
Fixpoint value (fuel : nat) (depth : Z) (path : list string) (p : parser) : parsed json :=
  match fuel with
  | O => OutOfFuel
  | S fuel =>
      match next_token p with
      | OutOfFuel => OutOfFuel
      | Rejected p => Rejected p
      | Parsed t p =>
          match t with
          | TOpen | TClose | TOpenArr | TCloseArr =>
              if MaxDepth <=? depth then Rejected p
              else match t with
                   | TOpen => object_loop fuel depth path [] p
                   | TOpenArr => array_loop fuel depth path [] p
                   | _ => Rejected p
                   end
          | TNum n => Parsed (JNum n) (mark_invalid (float_overflows n) p)
          | TNull => Parsed JNull p
          | TBool b => Parsed (JBool b) p
          | TStr s => Parsed (JStr s) p
          end
      end
  end
with object_loop (fuel : nat) (depth : Z) (path : list string) (m : list (string * json)) (p : parser) : parsed json :=
  match fuel with
  | O => OutOfFuel
  | S fuel =>
      if More p then
        match next_token p with
        | OutOfFuel => OutOfFuel
        | Rejected p => Rejected p
        | Parsed (TStr name) p =>
            let p := mark_invalid (bool_decide (is_Some (assoc_get name m))) p in
            match value fuel (depth + 1) (child_path p path name) p with
            | OutOfFuel => OutOfFuel
            | Rejected p => Rejected p
            | Parsed child p => object_loop fuel depth path (assoc_set name child m) p
            end
        | Parsed _ p => Rejected p
        end
      else
        match next_token p with
        | OutOfFuel => OutOfFuel
        | Rejected p => Rejected p
        | Parsed t p => if bool_decide (t = TClose) then Parsed (JObj m) p else Rejected p
        end
  end
with array_loop (fuel : nat) (depth : Z) (path : list string) (a : list json) (p : parser) : parsed json :=
  match fuel with
  | O => OutOfFuel
  | S fuel =>
      if More p then
        match value fuel (depth + 1) (child_path p path "[]") p with
        | OutOfFuel => OutOfFuel
        | Rejected p => Rejected p
        | Parsed child p => array_loop fuel depth path (a ++ [child]) (visit_element p path child)
        end
      else
        match next_token p with
        | OutOfFuel => OutOfFuel
        | Rejected p => Rejected p
        | Parsed t p => if bool_decide (t = TCloseArr) then Parsed (JArr a) p else Rejected p
        end
  end.

(** Each call consumes a token or is followed by one that does. *)
Definition fuel_for (b : body) : nat := 2 * length (b_items b) + 1.

(** [jsonDocument(body, visit)]: the document or the protocol error, with the
    elements the visitor saw. *)
Definition jsonDocument (b : body) (visit : bool) : res (list (string * json)) * list json :=
  match value (fuel_for b) 0 [] (mkParser (b_items b) visit false 0 false []) with
  | OutOfFuel => (Err EOther, [])
  | Rejected p => (Err (cerr Protocol), p_seen p)
  | Parsed v p =>
      (match v with
       | JObj m => if bool_decide (p_items p = []) && negb (p_invalid p) && b_utf8 b
                   then Ok m else Err (cerr Protocol)
       | _ => Err (cerr Protocol)
       end, p_seen p)
  end.

(** [taskID] *)
Definition taskID (v : option json) : option Z :=
  match v with
  | Some (JNum n) => match ParseInt n 32 with
                     | Some id => if 0 <? id then Some id else None
                     | None => None
                     end
  | _ => None
  end.

(** The visitor of [parseSubmission]: tasks, count and validity so far. *)
Definition observe (generation : string) (acc : list TaskRef * Z * bool) (value : json)
    : list TaskRef * Z * bool :=
  let '(tasks, count, invalid) := acc in
  let count := count + 1 in
  match taskID (Some value) with
  | None => (tasks, count, true)
  | Some id =>
      if mem id (t_ID <$> tasks) then (tasks, count, true)
      else if Z.of_nat (length tasks) <? MaxTaskIDs
           then (tasks ++ [mkTaskRef id generation], count, invalid)
           else (tasks, count, invalid)
  end.

(** [parseSubmission]: the ids are returned with an error as well. *)
Definition parseSubmission (b : body) (generation : string) : list TaskRef * option error :=
  let '(r, seen) := jsonDocument b true in
  let '(tasks, count, invalid) := foldl (observe generation) ([], 0, false) seen in
  match r with
  | Err e => (tasks, Some e)
  | Ok doc =>
      let empty_list k := match as_array (assoc_get k doc) with Some [] => true | _ => false end in
      if invalid || negb (count =? 1) || negb (Z.of_nat (length tasks) =? 1)
         || negb (empty_list "error") || negb (empty_list "errors")
      then (tasks, Some (cerr Protocol)) else (tasks, None)
  end.

(** ** Termination: the fuel is never exhausted *)

Definition remaining {A} (n : nat) (r : parsed A) : Prop :=
  match r with
  | Parsed _ p => (length (p_items p) < n)%nat
  | Rejected _ => True
  | OutOfFuel => False
  end.

Lemma next_token_remaining p : remaining (length (p_items p)) (next_token p).
Proof.
  unfold next_token, remaining. destruct (p_items p) as [|i rest] eqn:E; [done|].
  destruct (i_token i); [|done]. cbn [p_tokens]. destruct (_ <? _); [done|]. cbn. lia.
Qed.

Lemma remaining_mono {A} n m (r : parsed A) : remaining n r → (n <= m)%nat → remaining m r.
Proof. destruct r; simpl; auto; lia. Qed.

Lemma items_visit p path v : p_items (visit_element p path v) = p_items p.
Proof. unfold visit_element. by case_match. Qed.

Lemma value_fuel fuel :
  (∀ depth path p, (2 * length (p_items p) + 1 <= fuel)%nat →
     remaining (length (p_items p)) (value fuel depth path p)) ∧
  (∀ depth path m p, (2 * length (p_items p) + 2 <= fuel)%nat →
     remaining (length (p_items p)) (object_loop fuel depth path m p)) ∧
  (∀ depth path a p, (2 * length (p_items p) + 2 <= fuel)%nat →
     remaining (length (p_items p)) (array_loop fuel depth path a p)).
Proof.
  induction fuel as [|fuel (IHv&IHm&IHe)]; [split_and!; intros; lia|].
  assert (∀ p (k : token → bool) (f : token → json), remaining (length (p_items p))
    (match next_token p with OutOfFuel => OutOfFuel | Rejected p => Rejected p
     | Parsed t p => if k t then Parsed (f t) p else Rejected p end)) as Hend.
  { intros p k f. pose proof (next_token_remaining p) as Hn.
    destruct (next_token p); simpl in *; [|done..]. by case_match. }
  split_and!; intros depth path.
  - intros p Hf. cbn [value]. pose proof (next_token_remaining p) as Hn.
    destruct (next_token p) as [t p1|p1|]; cbn [remaining] in *; [|done..].
    destruct t, (MaxDepth <=? depth); cbn [remaining mark_invalid p_items]; try done.
    + eapply remaining_mono; [apply IHm; lia|lia].
    + eapply remaining_mono; [apply IHe; lia|lia].
  - intros m p Hf. simpl. destruct (More p).
    2: { apply (Hend p (λ t, bool_decide (t = TClose)) (λ _, JObj m)). }
    pose proof (next_token_remaining p) as Hn.
    destruct (next_token p) as [t p1|p1|]; simpl in *; [|done..].
    destruct t; try done.
    set (p2 := mark_invalid _ p1). assert (p_items p2 = p_items p1) as Hp2 by done.
    specialize (IHv (depth + 1) (child_path p2 path s) p2). rewrite Hp2 in IHv.
    specialize (IHv ltac:(lia)). destruct (value _ _ _ _) as [c p3|p3|]; simpl in *; [|done..].
    eapply remaining_mono; [apply IHm; lia|lia].
  - intros a p Hf. simpl. destruct (More p).
    2: { apply (Hend p (λ t, bool_decide (t = TCloseArr)) (λ _, JArr a)). }
    specialize (IHv (depth + 1) (child_path p path "[]") p ltac:(lia)).
    destruct (value _ _ _ _) as [c p3|p3|]; simpl in *; [|done..].
    eapply remaining_mono; [apply IHe; rewrite items_visit; lia|rewrite items_visit; lia].
Qed.

(** Nothing is read past the bounds: the parser always reaches an answer. *)
Lemma jsonDocument_answers b visit :
  fst (jsonDocument b visit) = Err (cerr Protocol) ∨ ∃ m, fst (jsonDocument b visit) = Ok m.
Proof.
  unfold jsonDocument.
  pose proof (proj1 (value_fuel (fuel_for b)) 0 [] (mkParser (b_items b) visit false 0 false [])) as H.
  specialize (H (le_n _)). destruct (value _ _ _ _) as [v p|p|]; [|by left|done].
  simpl. destruct v; try by left. case_match; eauto.
Qed.

(** ** Round trip *)

(** [json.Marshal] of a decoded value, as tokens. *)
Fixpoint tokens_of (v : json) : list token :=
  match v with
  | JNull => [TNull]
  | JBool b => [TBool b]
  | JNum n => [TNum n]
  | JStr s => [TStr s]
  | JArr l => TOpenArr :: flat_map tokens_of l ++ [TCloseArr]
  | JObj m => TOpen :: flat_map (λ kv, TStr kv.1 :: tokens_of kv.2) m ++ [TClose]
  end.

Fixpoint height (v : json) : Z :=
  match v with
  | JArr l => 1 + foldr (λ v acc, Z.max (height v) acc) 0 l
  | JObj m => 1 + foldr (λ kv acc, Z.max (height kv.2) acc) 0 m
  | _ => 0
  end.

(** No duplicate key, no number outside the range of a double. *)
Fixpoint well_formed (v : json) : bool :=
  match v with
  | JNum n => negb (float_overflows n)
  | JArr l => forallb well_formed l
  | JObj m => bool_decide (NoDup m.*1) && forallb (λ kv, well_formed kv.2) m
  | _ => true
  end.

Section JsonInd.
Variable P : json → Prop.
Hypothesis P_null : P JNull.
Hypothesis P_bool : ∀ b, P (JBool b).
Hypothesis P_num : ∀ n, P (JNum n).
Hypothesis P_str : ∀ s, P (JStr s).
Hypothesis P_arr : ∀ l, Forall P l → P (JArr l).
Hypothesis P_obj : ∀ m, Forall (λ kv, P kv.2) m → P (JObj m).

Fixpoint json_ind' (v : json) : P v :=
  match v with
  | JNull => P_null
  | JBool b => P_bool b
  | JNum n => P_num n
  | JStr s => P_str s
  | JArr l => P_arr l ((fix go (l : list json) : Forall P l :=
      match l with
      | [] => List.Forall_nil _
      | x :: l => List.Forall_cons _ _ _ (json_ind' x) (go l)
      end) l)
  | JObj m => P_obj m ((fix go (m : list (string * json)) : Forall (λ kv, P kv.2) m :=
      match m with
      | [] => List.Forall_nil _
      | kv :: m => List.Forall_cons _ _ _ (json_ind' kv.2) (go m)
      end) m)
  end.
End JsonInd.

Definition items_of (l : list token) : list item := (λ t, mkItem (Some t) true) <$> l.

(** [p] after the [n] tokens before [rest], none of them a visited element. *)
Definition advance (p : parser) (n : nat) (rest : list item) : parser :=
  {| p with p_items := rest; p_tokens := p_tokens p + Z.of_nat n; p_last := true |}.

Lemma next_token_items p t l rest :
  p_items p = items_of (t :: l) ++ rest → p_tokens p < maxDecodedJSONTokens →
  next_token p = Parsed t (advance p 1 (items_of l ++ rest)).
Proof.
  intros Hi Ht. unfold next_token. rewrite Hi. cbn [items_of fmap list_fmap app i_token p_tokens].
  destruct (_ <? _) eqn:Hl; [lia|]. done.
Qed.

Lemma More_items p t l rest : p_items p = items_of (t :: l) ++ rest →
  More p = bool_decide (t ≠ TClose) && bool_decide (t ≠ TCloseArr).
Proof.
  intros Hi. unfold More. rewrite Hi. cbn. by destruct t.
Qed.

Lemma advance_advance p n m r1 r2 : advance (advance p n r1) m r2 = advance p (n + m) r2.
Proof. unfold advance. cbn. f_equal. lia. Qed.

Lemma assoc_get_None {A} k (m : list (string * A)) : k ∉ m.*1 → assoc_get k m = None.
Proof.
  induction m as [|[k' v] m IH]; intros H; [done|]. csimpl in *.
  apply not_elem_of_cons in H as [??]. rewrite bool_decide_false by done. auto.
Qed.

Lemma assoc_set_new {A} k (v : A) m : k ∉ m.*1 → assoc_set k v m = m ++ [(k, v)].
Proof.
  induction m as [|[k' v'] m IH]; intros H; [done|]. csimpl in *.
  apply not_elem_of_cons in H as [??]. rewrite bool_decide_false by done. f_equal. auto.
Qed.

Definition reads_back (v : json) : Prop :=
  ∀ fuel depth path p rest,
  p_visit p = false → p_items p = items_of (tokens_of v) ++ rest →
  well_formed v = true → depth + height v <= MaxDepth →
  p_tokens p + Z.of_nat (length (tokens_of v)) <= maxDecodedJSONTokens →
  (2 * length (tokens_of v) + 1 <= fuel)%nat →
  value fuel depth path p = Parsed v (advance p (length (tokens_of v)) rest).

Lemma tokens_of_head v : ∃ t l, tokens_of v = t :: l ∧ t ≠ TClose ∧ t ≠ TCloseArr.
Proof. destruct v; simpl; eauto. Qed.

Lemma height_nonneg v : 0 <= height v.
Proof.
  destruct v as [|?|?|?|l|m]; simpl; try lia.
  - induction l; simpl; lia.
  - induction m; simpl; lia.
Qed.

Lemma array_reads_back l a depth path : Forall reads_back l →
  ∀ fuel p rest,
  p_visit p = false → p_items p = items_of (flat_map tokens_of l ++ [TCloseArr]) ++ rest →
  forallb well_formed l = true → depth + 1 + foldr (λ v acc, Z.max (height v) acc) 0 l <= MaxDepth →
  p_tokens p + Z.of_nat (length (flat_map tokens_of l ++ [TCloseArr])) <= maxDecodedJSONTokens →
  (2 * length (flat_map tokens_of l ++ [TCloseArr]) + 2 <= fuel)%nat →
  array_loop fuel depth path a p
    = Parsed (JArr (a ++ l)) (advance p (length (flat_map tokens_of l ++ [TCloseArr])) rest).
Proof.
  intros Hl. revert a. induction Hl as [|v l Hv Hl IH]; intros a fuel p rest Hvis Hi Hw Hh Ht Hf.
  - destruct fuel as [|fuel]; [simpl in Hf; lia|]. simpl in Hi, Ht. cbn [array_loop].
    rewrite (More_items _ TCloseArr [] rest Hi), (next_token_items _ TCloseArr [] rest Hi) by lia.
    cbn [negb andb]. rewrite !bool_decide_true, bool_decide_false by (done || (intros Hn; by apply Hn)).
    cbn. by rewrite app_nil_r.
  - destruct fuel as [|fuel]; [simpl in Hf; lia|]. cbn [array_loop].
    cbn [flat_map forallb foldr] in *. bool_hyps. rewrite !length_app in Ht, Hf.
    destruct (tokens_of_head v) as (t&tl&Htv&?&?).
    assert (p_items p = items_of (tokens_of v) ++ items_of (flat_map tokens_of l ++ [TCloseArr]) ++ rest) as Hi'.
    { rewrite Hi. unfold items_of. by rewrite !fmap_app, <- !app_assoc. }
    assert (More p = true) as ->.
    { rewrite Htv in Hi'. rewrite (More_items _ _ _ _ Hi'). by rewrite !bool_decide_true. }
    pose proof (height_nonneg v).
    rewrite (Hv fuel (depth + 1) _ p (items_of (flat_map tokens_of l ++ [TCloseArr]) ++ rest))
      by (done || lia || (rewrite length_app; simpl in *; lia)).
    unfold visit_element. cbn [advance p_visit]. rewrite Hvis. cbn [andb].
    rewrite (IH (a ++ [v]) fuel _ rest); try done.
    + rewrite advance_advance, <- app_assoc. cbn [app]. by rewrite !length_app, !Nat.add_assoc.
    + lia.
    + rewrite length_app. cbn. simpl in *. lia.
    + rewrite Htv in Hf. rewrite length_app. simpl in *. lia.
Qed.

Lemma object_reads_back m a depth path : Forall (λ kv, reads_back kv.2) m →
  ∀ fuel p rest,
  p_visit p = false →
  p_items p = items_of (flat_map (λ kv, TStr kv.1 :: tokens_of kv.2) m ++ [TClose]) ++ rest →
  NoDup (a.*1 ++ m.*1) → forallb (λ kv, well_formed kv.2) m = true →
  depth + 1 + foldr (λ kv acc, Z.max (height kv.2) acc) 0 m <= MaxDepth →
  p_tokens p + Z.of_nat (length (flat_map (λ kv, TStr kv.1 :: tokens_of kv.2) m ++ [TClose])) <= maxDecodedJSONTokens →
  (2 * length (flat_map (λ kv, TStr kv.1 :: tokens_of kv.2) m ++ [TClose]) + 2 <= fuel)%nat →
  object_loop fuel depth path a p
    = Parsed (JObj (a ++ m)) (advance p (length (flat_map (λ kv, TStr kv.1 :: tokens_of kv.2) m ++ [TClose])) rest).
Proof.
  intros Hm. revert a. induction Hm as [|[k v] m Hv Hm IH]; intros a fuel p rest Hvis Hi Hnd Hw Hh Ht Hf.
  - destruct fuel as [|fuel]; [simpl in Hf; lia|]. simpl in Hi, Ht. cbn [object_loop].
    rewrite (More_items _ TClose [] rest Hi), (next_token_items _ TClose [] rest Hi) by lia.
    rewrite bool_decide_false by (intros Hn; by apply Hn).
    cbn. by rewrite app_nil_r.
  - destruct fuel as [|fuel]; [simpl in Hf; lia|]. cbn [object_loop].
    cbn [flat_map forallb foldr fst snd app] in *. bool_hyps. cbn [length] in Ht, Hf |- *. rewrite !length_app in Ht, Hf.
    set (tl := flat_map (λ kv : string * json, TStr kv.1 :: tokens_of kv.2) m) in *.
    assert (p_items p = items_of (TStr k :: tokens_of v) ++ items_of (tl ++ [TClose]) ++ rest) as Hi'.
    { rewrite Hi. cbn. unfold items_of. by rewrite !fmap_app, <- !app_assoc. }
    rewrite (More_items _ _ _ _ Hi'), (next_token_items _ _ _ _ Hi') by lia.
    csimpl in Hnd. apply list.NoDup_app in Hnd as (Ha&Hak&Hkm). apply list.NoDup_cons in Hkm as [Hk Hkm].
    assert (k ∉ a.*1) as Hka by (intros Hin; apply (Hak k Hin); left).
    rewrite (assoc_get_None k a Hka), !bool_decide_true, (bool_decide_false (is_Some _)) by (done || by intros []).
    cbn [andb]. pose proof (height_nonneg v).
    set (p2 := mark_invalid false _).
    assert (p2 = advance p 1 (items_of (tokens_of v) ++ items_of (tl ++ [TClose]) ++ rest)) as -> by done.
    rewrite (Hv fuel (depth + 1) _ _ (items_of (tl ++ [TClose]) ++ rest)); [|done|done|done|lia|cbn [advance p_tokens]; lia|lia].
    rewrite assoc_set_new by done.
    rewrite (IH (a ++ [(k, v)]) fuel _ rest); try done.
    + rewrite !advance_advance, <- app_assoc. cbn [app]. do 2 f_equal. rewrite !length_app. simpl. lia.
    + rewrite fmap_app, <- app_assoc. csimpl. apply list.NoDup_app. split_and!; [done|done|].
      by apply list.NoDup_cons.
    + lia.
    + cbn [advance p_tokens]. rewrite length_app. lia.
    + rewrite length_app. lia.
Qed.

Lemma value_reads_back v : reads_back v.
Proof.
  induction v as [| | | |l Hl|m Hm] using json_ind'; intros fuel depth path p rest Hvis Hi Hw Hh Ht Hf;
    (destruct fuel as [|fuel]; [lia|]); cbn [tokens_of well_formed height] in *; cbn [length] in Ht, Hf; cbn [value].
  - by rewrite (next_token_items _ _ _ _ Hi) by lia.
  - by rewrite (next_token_items _ _ _ _ Hi) by lia.
  - rewrite (next_token_items _ _ _ _ Hi) by lia. bool_hyps. by rewrite Hw.
  - by rewrite (next_token_items _ _ _ _ Hi) by lia.
  - rewrite (next_token_items _ _ _ _ Hi) by lia.
    pose proof (height_nonneg (JArr l)) as Hn. simpl in Hn.
    destruct (MaxDepth <=? depth) eqn:Hd; [|].
    { assert (0 <= foldr (λ v acc, Z.max (height v) acc) 0 l) by (clear; induction l; simpl; lia). lia. }
    rewrite (array_reads_back l [] depth path Hl fuel _ rest); try done; [|lia|cbn [advance p_tokens]; lia|lia].
    rewrite advance_advance. done.
  - rewrite (next_token_items _ _ _ _ Hi) by lia.
    destruct (MaxDepth <=? depth) eqn:Hd; [|].
    { assert (0 <= foldr (λ kv acc, Z.max (height kv.2) acc) 0 m) by (clear; induction m; simpl; lia). lia. }
    bool_hyps. rewrite (object_reads_back m [] depth path Hm fuel _ rest); try done; [|lia|cbn [advance p_tokens]; lia|lia].
    rewrite advance_advance. done.
Qed.

(** C37: A well-formed document within the depth and token bounds is read back
    exactly, whatever its shape. *)
Theorem jsonDocument_roundtrip m :
  well_formed (JObj m) = true → height (JObj m) <= MaxDepth →
  Z.of_nat (length (tokens_of (JObj m))) <= maxDecodedJSONTokens →
  jsonDocument (mkBody (items_of (tokens_of (JObj m))) true) false = (Ok m, []).
Proof.
  intros Hw Hh Ht. unfold jsonDocument.
  rewrite (value_reads_back (JObj m) _ 0 [] _ []); try done; cbn [b_items p_items p_tokens].
  - by rewrite app_nil_r.
  - unfold fuel_for. cbn [b_items]. unfold items_of. rewrite length_fmap. lia.
Qed.

Definition sample_document : list (string * json) :=
  [("error", JArr []); ("data", JObj [("task_ids", JArr [JNum "7"]); ("ok", JBool true)])].

Lemma jsonDocument_roundtrip_witness :
  jsonDocument (mkBody (items_of (tokens_of (JObj sample_document))) true) false = (Ok sample_document, []).
Proof. apply (jsonDocument_roundtrip sample_document); vm_compute; congruence. Defined.

(** ** Observed task ids *)

Definition observed_ok (generation : string) (tasks : list TaskRef) : Prop :=
  NoDup (t_ID <$> tasks) ∧ Z.of_nat (length tasks) <= MaxTaskIDs
  ∧ Forall (λ t, 1 <= t_ID t <= maxTaskID ∧ t_Generation t = generation) tasks.

Lemma taskID_range v id : taskID v = Some id → 1 <= id <= maxTaskID.
Proof.
  unfold taskID. intros H. destruct v as [[]|]; try done.
  destruct (ParseInt literal 32) as [n|] eqn:Hp; [|done]. destruct (0 <? n) eqn:Hn; simplify_eq.
  apply Z.ltb_lt in Hn. split; [lia|].
  apply ParseInt_range in Hp; [|lia]. change maxTaskID with (2 ^ (32 - 1) - 1). lia.
Qed.

Lemma observe_ok generation seen acc :
  observed_ok generation acc.1.1 → observed_ok generation (foldl (observe generation) acc seen).1.1.
Proof.
  revert acc. induction seen as [|v seen IH]; intros [[tasks count] invalid] H; [done|].
  cbn [foldl]. apply IH. destruct H as (Hnd&Hl&Hf). unfold observe.
  destruct (taskID (Some v)) as [id|] eqn:Hid; [|done].
  destruct (mem id _) eqn:Hm; [done|]. apply mem_false in Hm.
  destruct (_ <? MaxTaskIDs) eqn:Hlen; [|done]. apply Z.ltb_lt in Hlen.
  pose proof (taskID_range _ _ Hid). split_and!; cbn [fst].
  - rewrite fmap_app. apply list.NoDup_app. split_and!; [done| |apply NoDup_singleton].
    intros x ? Hx. by apply list_elem_of_singleton in Hx as ->.
  - rewrite length_app. simpl. lia.
  - apply Forall_app. split; [done|]. by apply Forall_singleton.
Qed.

Lemma parseSubmission_ok b generation :
  let '(tasks, e) := parseSubmission b generation in
  observed_ok generation tasks ∧ (e = None → length tasks = 1%nat).
Proof.
  unfold parseSubmission. destruct (jsonDocument b true) as [r seen].
  assert (observed_ok generation (([], 0, false) : list TaskRef * Z * bool).1.1) as H0
    by (split_and!; cbn; [constructor|done|done]).
  pose proof (observe_ok generation seen _ H0) as H.
  destruct (foldl _ _ seen) as [[tasks count] invalid]. cbn [fst] in H.
  destruct r as [doc|e]; [|done]. cbn zeta. destruct (_ || _) eqn:Hc; [done|].
  split; [done|]. intros _. bool_hyps. lia.
Qed.

(** Whatever the endpoint answers, the observed ids are distinct 32-bit task
    ids of this generation, at most sixteen; success means exactly one. *)
Theorem parseSubmission_observed b generation :
  let '(tasks, e) := parseSubmission b generation in
  observed_ok generation tasks ∧ (e = None → length tasks = 1%nat).
Proof. apply parseSubmission_ok. Qed.

(** An id delivered before the response breaks off is still observed. *)
Example truncated_submission :
  parseSubmission (mkBody ((λ t, mkItem (Some t) true) <$>
    [TOpen; TStr "data"; TOpen; TStr "task_ids"; TOpenArr; TNum "41"]) true) "g1"
  = ([mkTaskRef 41 "g1"], Some (cerr Protocol)).
Proof. reflexivity. Qed.
