(* ===== verification/CapeStore.v ===== *)
(** * The durable CAPE job store: database, spool, effects

    [internal/cape/store.go], [store_files_linux.go] and the token buckets of
    [store_state.go].  A store operation is a state transformer over [St] (the
    SQLite tables, the spool directory and the in-memory fields of [Store])
    that draws the readings of the outside world (clock, I/O outcomes,
    randomness, volume capacity) from [Src]. *)

From Stdlib Require Import ZArith Lia SpecFloat.
From Stdlib Require Ascii.
From stdpp Require Import base gmap strings list numbers sorting.
From S2P Require Import Prelude GoStd CapeTypes.

Local Open Scope Z_scope.

(** ** Interface to [encoding/json] and [crypto/sha256]

    The store writes a job as a JSON document and reads it back.  The laws are
    the round trip of [encoding/json] on the documents it produced and the
    length of a SHA-256 digest. *)
Class CapeEnv := {
  blob : Type;
  blob_len : blob → Z;
  marshalJob : Job → option blob;
  unmarshalJob : blob → option Job;
  validJSON : string → bool;
  sha256 : string → string
}.

Class CapeEnvOk (E : CapeEnv) := {
  unmarshal_marshal j b : marshalJob j = Some b → unmarshalJob b = Some j;
  sha256_len s : len (sha256 s) = 32
}.

Section Store.
Context {E : CapeEnv}.

(** ** Tables *)
Record Row := mkRow {
  r_tenant : string;
  r_state : JobState;
  r_version : Z;
  r_reserved : Z;
  r_digest : string;
  r_generation : string;
  r_submission_policy : string;
  r_result_policy : string;
  r_document : blob
}.

Record EventRow := mkEventRow {
  ev_tenant : string;
  ev_key : string;
  ev_accepted : Z;
  ev_expires : Z
}.

Record DB := mkDB {
  jobs : gmap string Row;
  clock : option Z;
  buckets : gmap string (float64 * Z);
  admission_pause : gset string;
  events : gmap string EventRow;
  event_clock : option Z
}.

(** In-memory fields of [Store] and the spool directory.  [active] maps a live
    ingress writer to whether its context was cancelled. *)
Record St := mkSt {
  db : DB;
  spool : gmap string string;
  closed : bool;
  schedulerRunning : bool;
  active : gmap string bool;
  liveAttempts : gmap string string;
  maintenanceDeadlineCursor : string;
  maintenanceCleanupCursor : string;
  cleanupDeadlineCursor : string;
  schedulerCursor : string
}.

(** ** The outside world *)
Inductive IoOutcome := IoOk | IoFail | IoAmbiguous.

#[global] Instance IoOutcome_eq_dec : EqDecision IoOutcome.
Proof. solve_decision. Defined.

Record Src := mkSrc {
  src_clock : list Time;
  src_last : Time;
  src_io : list IoOutcome;
  src_rand : list string;
  src_cap : option capacity
}.

Definition M (A : Type) : Type := St → Src → res A * St * Src.

#[global] Instance M_ret : MRet M := λ A a s o, (Ok a, s, o).
#[global] Instance M_bind : MBind M := λ A B f m s o,
  match m s o with
  | (Ok a, s', o') => f a s' o'
  | (Err e, s', o') => (Err e, s', o')
  end.

Definition throw {A} (e : error) : M A := λ s o, (Err e, s, o).
Definition get : M St := λ s o, (Ok s, s, o).
Definition modify (f : St → St) : M unit := λ s o, (Ok tt, f s, o).
Definition modify_db (f : DB → DB) : M unit := modify (λ s, {| s with db := f (db s) |}).

(** [if bad { return e }] *)
Definition reject (bad : bool) (e : error) : M unit := if bad then throw e else mret ().

(** Run [m] and hand its error to the continuation, as Go does. *)
Definition try {A} (m : M A) : M (res A) := λ s o, match m s o with (r, s', o') => (Ok r, s', o') end.
Definition of_res {A} (r : res A) : M A := match r with Ok a => mret a | Err e => throw e end.

(** [hooks.clock.Now().UTC()] *)
Definition clockNow : M Time := λ s o,
  match src_clock o with
  | [] => (Ok (src_last o), s, o)
  | t :: ts => (Ok t, s, {| o with src_clock := ts; src_last := t |})
  end.

(** The outcome of one external call. *)
Definition io : M IoOutcome := λ s o,
  match src_io o with
  | [] => (Ok IoOk, s, o)
  | i :: rest => (Ok i, s, {| o with src_io := rest |})
  end.

(** A call whose failure the code reports as [ErrStoreUnavailable]. *)
Definition exec : M unit := i ← io; reject (bool_decide (i ≠ IoOk)) ErrStoreUnavailable.

(** [opaqueID]: 16 random bytes in hexadecimal. *)
Definition opaqueID : M string := λ s o,
  match src_rand o with
  | b :: bs => if len b =? 16 then (Ok (hex_encode b), s, {| o with src_rand := bs |})
               else (Err ErrStoreUnavailable, s, o)
  | [] => (Err ErrStoreUnavailable, s, o)
  end.

(** ** Transactions and job rows *)

(** [transaction]: an error of [f] rolls the tables back, but neither the
    spool nor the in-memory fields; a failed commit has either no effect or,
    when its outcome is ambiguous, all of it. *)
Definition transaction {A} (f : M A) : M A := λ s o,
  match exec s o with
  | (Err e, s1, o1) => (Err e, s1, o1)
  | (Ok _, s1, o1) =>
      match f s1 o1 with
      | (Err e, s2, o2) => (Err e, {| s2 with db := db s1 |}, o2)
      | (Ok a, s2, o2) =>
          match io s2 o2 with
          | (Ok IoOk, s3, o3) => (Ok a, s3, o3)
          | (Ok IoAmbiguous, s3, o3) => (Err ErrStoreUnavailable, s3, o3)
          | (_, s3, o3) => (Err ErrStoreUnavailable, {| s3 with db := db s1 |}, o3)
          end
      end
  end.

(** [encodeJob]: the metadata and the result are bounded separately. *)
Definition encodeJob (j : Job) : res blob :=
  let r := j_Result j in
  match marshalJob {| j with j_Result := "" |} with
  | None => Err (cerr TooLarge)
  | Some meta =>
      if (JobMetadataLimit <? blob_len meta) || (JobResultLimit <? len r)
         || (negb (len r =? 0) && negb (validJSON r))
      then Err (cerr TooLarge)
      else match marshalJob j with
           | None => Err EOther
           | Some b => Ok b
           end
  end.

(** Decoding of a fetched document. *)
Definition decodeJob (raw : blob) : option Job :=
  if JobMetadataLimit + JobResultLimit <? blob_len raw then None else unmarshalJob raw.

(** [readJob(tx.QueryRow("SELECT document FROM jobs WHERE id=? AND tenant=?"))] *)
Definition readJob (id tenant : string) : M Job :=
  exec ;;
  s ← get;
  match jobs (db s) !! id with
  | Some r =>
      if bool_decide (r_tenant r = tenant) then
        match decodeJob (r_document r) with
        | Some j => mret j
        | None => throw ErrStoreUnavailable
        end
      else throw (cerr NotFound)
  | None => throw (cerr NotFound)
  end.

(** The same query without the tenant ([cleanupStaging]). *)
Definition readJobID (id : string) : M Job :=
  exec ;;
  s ← get;
  match jobs (db s) !! id with
  | Some r => match decodeJob (r_document r) with
              | Some j => mret j
              | None => throw ErrStoreUnavailable
              end
  | None => throw (cerr NotFound)
  end.

(** CHECK(reserved>=0) and CHECK(length(document)<=20480) of the schema. *)
Definition row_checks (reserved : Z) (document : blob) : bool :=
  (0 <=? reserved) && (blob_len document <=? 20480).

(** [putJob]: a compare-and-swap on state and version. *)
Definition putJob (j expected : Job) : M unit :=
  raw ← of_res (encodeJob j);
  exec ;;
  s ← get;
  match jobs (db s) !! j_ID j with
  | Some r =>
      if bool_decide (r_tenant r = j_Tenant j) && bool_decide (r_state r = j_State expected)
         && (r_version r =? j_Version expected)
      then
        if row_checks (j_ReservedBytes j) raw then
          modify_db (λ d, {| d with jobs := <[j_ID j := {| r with
              r_state := j_State j; r_version := j_Version j; r_reserved := j_ReservedBytes j;
              r_digest := j_Digest j; r_document := raw |}]> (jobs d) |})
        else throw ErrStoreUnavailable
      else throw ErrConflict
  | None => throw ErrConflict
  end.

(** [return putJob(tx, j, previous)] with the captured [j]. *)
Definition commit (j previous : Job) : M Job := putJob j previous ;; mret j.

(** [now(tx)]: the durable high-water clock. *)
Definition now : M Time :=
  t ← clockNow;
  exec ;;
  s ← get;
  match clock (db s) with
  | None => exec ;; modify_db (λ d, {| d with clock := Some (UnixNano t) |}) ;; mret t
  | Some stamp =>
      let previous := time_Unix0 stamp in
      reject (Before t (previous - clockTolerance)) ErrClock ;;
      let t := if Before t previous then previous else t in
      exec ;;
      modify_db (λ d, {| d with clock := Some (UnixNano t) |}) ;; mret t
  end.

(** [takeToken]: a bucket of [rate] tokens refilled at [rate] per minute. *)
Definition refill (tokens : float64) (elapsed : Duration) (rate : Z) : float64 :=
  f64_min (f64_of_Z rate)
    (f64_add tokens (f64_div (f64_mul (f64_Seconds elapsed) (f64_of_Z rate)) (f64_of_Z 60))).

Definition takeToken (name : string) (rate : Z) (nowt : Time) : M unit :=
  exec ;;
  s ← get;
  tokens ← match buckets (db s) !! name with
    | None => mret (f64_of_Z rate)
    | Some (tokens, stamp) =>
        reject (f64_bad tokens) ErrStoreUnavailable ;;
        let elapsed := nowt - time_Unix0 stamp in
        reject (elapsed <? 0) ErrClock ;;
        let elapsed := if minute <? elapsed then minute else elapsed in
        mret (refill tokens elapsed rate)
    end;
  reject (f64_ltb tokens (f64_of_Z 1)) (cerr Throttled) ;;
  exec ;;
  modify_db (λ d, {| d with buckets :=
    <[name := (f64_sub tokens (f64_of_Z 1), UnixNano nowt)]> (buckets d) |}).

(** [checkpoint] *)
Definition checkpoint : M unit := exec.

(** ** Spool files *)

(** [removeStoreFile]: whether the file existed. *)
Definition removeStoreFile (name : string) : M bool :=
  exec ;;
  s ← get;
  match spool s !! name with
  | None => mret false
  | Some _ => modify (λ s, {| s with spool := delete name (spool s) |}) ;; mret true
  end.

(** [renameStoreFile] with RENAME_NOREPLACE. *)
Definition renameStoreFile (oldName newName : string) : M unit :=
  exec ;;
  s ← get;
  match spool s !! oldName, spool s !! newName with
  | Some c, None => modify (λ s, {| s with spool := <[newName := c]> (delete oldName (spool s)) |})
  | _, _ => throw ErrStoreUnavailable
  end.

Definition blob_name (id : string) : string := id +:+ ".blob".
Definition tmp_name (id : string) : string := id +:+ ".tmp".

(** [removePayload]: the directory is synced when a file was removed. *)
Definition removePayload (id : string) : M unit :=
  removed ← removeStoreFile (blob_name id);
  if (removed : bool) then exec else mret ().

(** ** Queries *)

(** [Lookup] *)
Definition Lookup (tenant id : string) : M Job :=
  s ← get;
  reject (closed s) (cerr Closed) ;;
  readJob id tenant.

(** [OpenPayload]: the content of the file it opens. *)
Definition OpenPayload (tenant id : string) (version : Z) : M string :=
  s ← get;
  reject (closed s) (cerr Closed) ;;
  j ← readJob id tenant;
  reject (bool_decide (j_State j ≠ Submitting) || negb (j_Version j =? version)) ErrConflict ;;
  exec ;;
  s ← get;
  match spool s !! blob_name (j_ID j) with
  | Some c => mret c
  | None => throw ErrStoreUnavailable
  end.

End Store.

#[export] Instance blob_name_inj : Inj (=) (=) blob_name.
Proof. intros a b. apply string_app_inv_r. Qed.

Lemma tmp_name_ne a b : tmp_name a ≠ blob_name b.
Proof.
  intros H. apply (f_equal (last_char Ascii.zero)) in H. unfold tmp_name, blob_name in H.
  by rewrite !last_char_app in H.
Qed.
