(* ===== verification/CapeLogic.v ===== *)
(** * A program logic for store operations

    [wp m Q s]: whatever the outside world answers, running [m] from [s] ends
    in a result and a state related by [Q].  The rules follow the primitives
    of [CapeStore]; [wp_go] runs them. *)

From Stdlib Require Import ZArith Lia SpecFloat.
From stdpp Require Import base gmap strings list numbers sorting.
From S2P Require Import Prelude GoStd CapeTypes CapeStore.

Local Open Scope Z_scope.

Section Logic.
Context {E : CapeEnv}.

Definition wp {A} (m : M A) (Q : res A → St → Prop) (s : St) : Prop :=
  ∀ o r s' o', m s o = (r, s', o') → Q r s'.

Definition with_db (s : St) (d : DB) : St := {| s with db := d |}.

Lemma wp_mono {A} (m : M A) (P Q : res A → St → Prop) s :
  wp m P s → (∀ r s', P r s' → Q r s') → wp m Q s.
Proof. unfold wp. eauto. Qed.

Lemma wp_and {A} (m : M A) (P Q : res A → St → Prop) s :
  wp m P s → wp m Q s → wp m (λ r s', P r s' ∧ Q r s') s.
Proof. unfold wp. eauto. Qed.

Lemma wp_ret {A} (a : A) (Q : res A → St → Prop) s : Q (Ok a) s → wp (mret a) Q s.
Proof. intros H o r s' o' Hr. cbv [mret M_ret] in Hr. by simplify_eq. Qed.

Lemma wp_throw {A} e (Q : res A → St → Prop) s : Q (Err e) s → wp (throw e) Q s.
Proof. intros H o r s' o' Hr. cbv [throw] in Hr. by simplify_eq. Qed.

Lemma wp_bind {A B} (m : M A) (f : A → M B) (Q : res B → St → Prop) s :
  wp m (λ r s', match r with Ok a => wp (f a) Q s' | Err e => Q (Err e) s' end) s →
  wp (m ≫= f) Q s.
Proof.
  intros H o r s' o' Hr. cbv [mbind M_bind] in Hr.
  destruct (m s o) as [[[a|e] s1] o1] eqn:Hm; specialize (H _ _ _ _ Hm); simpl in H.
  - by eapply H.
  - by simplify_eq.
Qed.

Lemma wp_get (Q : res St → St → Prop) s : Q (Ok s) s → wp get Q s.
Proof. intros H o r s' o' Hr. cbv [get] in Hr. by simplify_eq. Qed.

Lemma wp_modify f (Q : res unit → St → Prop) s : Q (Ok tt) (f s) → wp (modify f) Q s.
Proof. intros H o r s' o' Hr. cbv [modify] in Hr. by simplify_eq. Qed.

Lemma wp_modify_db f (Q : res unit → St → Prop) s :
  Q (Ok tt) (with_db s (f (db s))) → wp (modify_db f) Q s.
Proof. intros H. by apply wp_modify. Qed.

Lemma wp_reject b e (Q : res unit → St → Prop) s :
  (b = false → Q (Ok tt) s) → (b = true → Q (Err e) s) → wp (reject b e) Q s.
Proof. intros H1 H2. destruct b; [apply wp_throw | apply wp_ret]; auto. Qed.

Lemma wp_try {A} (m : M A) (Q : res (res A) → St → Prop) s :
  wp m (λ r s', Q (Ok r) s') s → wp (try m) Q s.
Proof.
  intros H o r s' o' Hr. cbv [try] in Hr. destruct (m s o) as [[r1 s1] o1] eqn:Hm.
  simplify_eq. by eapply H.
Qed.

Lemma wp_of_res {A} (x : res A) (Q : res A → St → Prop) s : Q x s → wp (of_res x) Q s.
Proof. destruct x; [apply wp_ret | apply wp_throw]. Qed.

Lemma wp_clockNow (Q : res Time → St → Prop) s : (∀ t, Q (Ok t) s) → wp clockNow Q s.
Proof. intros H o r s' o' Hr. cbv [clockNow] in Hr. destruct (src_clock o); by simplify_eq. Qed.

Lemma wp_io (Q : res IoOutcome → St → Prop) s : (∀ i, Q (Ok i) s) → wp io Q s.
Proof. intros H o r s' o' Hr. cbv [io] in Hr. destruct (src_io o); by simplify_eq. Qed.

Lemma wp_exec (Q : res unit → St → Prop) s :
  Q (Ok tt) s → Q (Err ErrStoreUnavailable) s → wp exec Q s.
Proof. intros ??. apply wp_bind, wp_io. intros i. by apply wp_reject. Qed.

Lemma wp_opaqueID (Q : res string → St → Prop) s :
  (∀ b, len b = 16 → Q (Ok (hex_encode b)) s) → Q (Err ErrStoreUnavailable) s → wp opaqueID Q s.
Proof.
  intros H1 H2 o r s' o' Hr. cbv [opaqueID] in Hr.
  repeat case_match; simplify_eq; auto. apply H1. by apply Z.eqb_eq.
Qed.

Lemma wp_transaction {A} (f : M A) (Q : res A → St → Prop) s :
  Q (Err ErrStoreUnavailable) s →
  wp f (λ r s', match r with
    | Ok a => Q (Ok a) s' ∧ Q (Err ErrStoreUnavailable) s'
              ∧ Q (Err ErrStoreUnavailable) (with_db s' (db s))
    | Err e => Q (Err e) (with_db s' (db s)) end) s →
  wp (transaction f) Q s.
Proof.
  intros H0 H o r s' o' Hr. unfold transaction in Hr.
  destruct (exec s o) as [[[[]|e] s1] o1] eqn:He.
  2:{ assert (wp exec (λ r s', r = Err e → e = ErrStoreUnavailable ∧ s' = s) s) as Hx
        by (apply wp_exec; naive_solver).
      destruct (Hx _ _ _ _ He eq_refl) as [-> ->]. by simplify_eq. }
  assert (s1 = s) as ->.
  { assert (wp exec (λ r s', s' = s) s) as Hx by (by apply wp_exec). by eapply Hx. }
  destruct (f s o1) as [[[a|e] s2] o2] eqn:Hf; specialize (H _ _ _ _ Hf); simpl in H.
  - destruct H as (?&?&?). assert (∃ i o3, io s2 o2 = (Ok i, s2, o3)) as (i&o3&Hio)
      by (unfold io; destruct (src_io o2); eauto).
    rewrite Hio in Hr. by destruct i; simplify_eq.
  - by simplify_eq.
Qed.

(** ** Job rows *)

Definition jobAt (s : St) (id : string) : option Job :=
  jobs (db s) !! id ≫= λ r, decodeJob (r_document r).

Definition put_row (j : Job) (r : Row) (raw : blob) : Row :=
  {| r with r_state := j_State j; r_version := j_Version j; r_reserved := j_ReservedBytes j;
     r_digest := j_Digest j; r_document := raw |}.

Definition put_db (j : Job) (r : Row) (raw : blob) (d : DB) : DB :=
  {| d with jobs := <[j_ID j := put_row j r raw]> (jobs d) |}.

Lemma wp_readJob id tenant (Q : res Job → St → Prop) s :
  (∀ r j, jobs (db s) !! id = Some r → r_tenant r = tenant → decodeJob (r_document r) = Some j →
          Q (Ok j) s) →
  (∀ e, Q (Err e) s) →
  wp (readJob id tenant) Q s.
Proof.
  intros H1 H2. apply wp_bind, wp_exec; [|done]. apply wp_bind, wp_get.
  destruct (jobs (db s) !! id) as [r|] eqn:Hr; [|by apply wp_throw].
  case_bool_decide; [|by apply wp_throw].
  destruct (decodeJob (r_document r)) eqn:Hd; [apply wp_ret; eauto|by apply wp_throw].
Qed.

Lemma wp_readJobID id (Q : res Job → St → Prop) s :
  (∀ r j, jobs (db s) !! id = Some r → decodeJob (r_document r) = Some j → Q (Ok j) s) →
  (∀ e, Q (Err e) s) →
  wp (readJobID id) Q s.
Proof.
  intros H1 H2. apply wp_bind, wp_exec; [|done]. apply wp_bind, wp_get.
  destruct (jobs (db s) !! id) as [r|] eqn:Hr; [|by apply wp_throw].
  destruct (decodeJob (r_document r)) eqn:Hd; [apply wp_ret; eauto|by apply wp_throw].
Qed.

Lemma wp_putJob j expected (Q : res unit → St → Prop) s :
  (∀ r raw, jobs (db s) !! j_ID j = Some r → r_tenant r = j_Tenant j →
     r_state r = j_State expected → r_version r = j_Version expected →
     encodeJob j = Ok raw → row_checks (j_ReservedBytes j) raw = true →
     Q (Ok tt) (with_db s (put_db j r raw (db s)))) →
  (∀ e, Q (Err e) s) →
  wp (putJob j expected) Q s.
Proof.
  intros H1 H2. apply wp_bind, wp_of_res. destruct (encodeJob j) as [raw|] eqn:He; [|done].
  apply wp_bind, wp_exec; [|done]. apply wp_bind, wp_get.
  destruct (jobs (db s) !! j_ID j) as [r|] eqn:Hr; [|by apply wp_throw].
  destruct (bool_decide _ && _ && _) eqn:Hc; [|by apply wp_throw].
  bool_hyps. destruct (row_checks _ _) eqn:Hk; [|by apply wp_throw].
  apply wp_modify_db. eauto.
Qed.

Lemma wp_now (Q : res Time → St → Prop) s :
  (∀ t, (∀ stamp, clock (db s) = Some stamp → time_Unix0 stamp <= t) →
        Q (Ok t) (with_db s {| (db s) with clock := Some (UnixNano t) |})) →
  (∀ e, Q (Err e) s) →
  wp now Q s.
Proof.
  intros H1 H2. apply wp_bind, wp_clockNow. intros t.
  apply wp_bind, wp_exec; [|done]. apply wp_bind, wp_get.
  destruct (clock (db s)) as [stamp|] eqn:Hc.
  - apply wp_bind, wp_reject; [|done]. intros _. unfold Before.
    apply wp_bind, wp_exec; [|done]. apply wp_bind, wp_modify_db, wp_ret.
    apply H1. intros ? [= <-]. case_match; bool_hyps; lia.
  - apply wp_bind, wp_exec; [|done]. apply wp_bind, wp_modify_db, wp_ret. naive_solver.
Qed.

Lemma wp_takeToken name rate t (Q : res unit → St → Prop) s :
  (∀ v, Q (Ok tt) (with_db s {| (db s) with buckets := <[name := (v, UnixNano t)]> (buckets (db s)) |})) →
  (∀ e, Q (Err e) s) →
  wp (takeToken name rate t) Q s.
Proof.
  intros H1 H2. apply wp_bind, wp_exec; [|done]. apply wp_bind, wp_get.
  apply wp_bind.
  destruct (buckets (db s) !! name) as [[tk st]|].
  - apply wp_bind, wp_reject; [|done]. intros _. apply wp_bind, wp_reject; [|done]. intros _.
    apply wp_ret. apply wp_bind, wp_reject; [|done]. intros _.
    apply wp_bind, wp_exec; [|done]. apply wp_modify_db. done.
  - apply wp_ret. apply wp_bind, wp_reject; [|done]. intros _.
    apply wp_bind, wp_exec; [|done]. apply wp_modify_db. done.
Qed.

Lemma wp_removeStoreFile name (Q : res bool → St → Prop) s :
  (spool s !! name = None → Q (Ok false) s) →
  (is_Some (spool s !! name) → Q (Ok true) {| s with spool := delete name (spool s) |}) →
  (∀ e, Q (Err e) s) →
  wp (removeStoreFile name) Q s.
Proof.
  intros H1 H2 H3. apply wp_bind, wp_exec; [|done]. apply wp_bind, wp_get.
  destruct (spool s !! name) eqn:Hs; [|by apply wp_ret; auto].
  apply wp_bind, wp_modify, wp_ret. eauto.
Qed.

(** The spool after an unlink that may or may not have happened. *)
Lemma wp_removePayload id (Q : res unit → St → Prop) s :
  (∀ r, Q r {| s with spool := delete (blob_name id) (spool s) |}) →
  (∀ e, Q (Err e) s) →
  wp (removePayload id) Q s.
Proof.
  intros H1 H2. apply wp_bind, wp_removeStoreFile; [| |done].
  - intros Hn. apply wp_ret. specialize (H1 (Ok tt)). rewrite delete_id in H1 by done.
    by destruct s.
  - intros _. by apply wp_exec.
Qed.

End Logic.

#[global] Opaque removePayload removeStoreFile readJob readJobID putJob now takeToken
  checkpoint clockNow opaqueID exec io transaction.

(** One rule application; control flow inside the operation is split.  The
    accesses to job rows, payloads and transactions are left to the proof. *)
Ltac wp_step :=
  lazymatch goal with
  | |- wp (mbind _ _) _ _ => apply wp_bind
  | |- wp (mret _) _ _ => apply wp_ret
  | |- wp (throw _) _ _ => apply wp_throw
  | |- wp get _ _ => apply wp_get
  | |- wp (modify _) _ _ => apply wp_modify
  | |- wp (modify_db _) _ _ => apply wp_modify_db
  | |- wp (reject _ _) _ _ => apply wp_reject; intros ?
  | |- wp (try _) _ _ => apply wp_try
  | |- wp (of_res _) _ _ => apply wp_of_res
  | |- wp clockNow _ _ => apply wp_clockNow; intros ?
  | |- wp exec _ _ => apply wp_exec
  | |- wp checkpoint _ _ => apply wp_exec
  | |- wp opaqueID _ _ => apply wp_opaqueID; [intros ? ?|]
  | |- wp now _ _ => apply wp_now; [intros ?t ?|intros ?e]
  | |- wp (takeToken _ _ _) _ _ => apply wp_takeToken; [intros ?v|intros ?e]
  | |- wp (removeStoreFile _) _ _ => apply wp_removeStoreFile; [intros ?|intros ?|intros ?e]
  | |- wp (match ?x with _ => _ end) _ _ => destruct x eqn:?
  end.

Ltac wp_go := repeat (wp_step; cbn beta iota).

(** Leading guards: [get] and [reject], the rejecting branches closed. *)
Ltac wp_pre :=
  repeat (lazymatch goal with
  | |- wp (mbind _ _) _ _ => apply wp_bind
  | |- wp get _ _ => apply wp_get
  | |- wp (reject _ _) _ _ => apply wp_reject; intros ?; [|solve [done | auto]]
  end; cbn beta iota).
