(* ===== verification/CapeInv.v ===== *)
(** * The store invariant

    [Inv] is what every store operation preserves, whatever fails: stored rows
    agree with their documents, every job satisfies [job_inv], a job that may
    still be submitted has its exact payload in the spool, no two jobs hold the
    same deduplication identity, and the reservations stay inside the quota. *)

From Stdlib Require Import ZArith Lia SpecFloat.
From stdpp Require Import base gmap strings list numbers sorting.
From S2P Require Import Prelude GoStd CapeTypes CapeJob CapeStore CapeLogic.

Local Open Scope Z_scope.

Section Inv.
Context {E : CapeEnv} {EOk : CapeEnvOk E} (cfg : StoreConfig).

Implicit Types jb : gmap string Row.

Definition jobOf jb (id : string) : option Job := jb !! id ≫= λ r, decodeJob (r_document r).

(** The SQL columns are copies of the document's fields. *)
Definition row_matches (id : string) (r : Row) (j : Job) : Prop :=
  j_ID j = id ∧ j_Tenant j = r_tenant r ∧ j_State j = r_state r ∧ j_Version j = r_version r
  ∧ j_ReservedBytes j = r_reserved r ∧ j_Digest j = r_digest r ∧ j_Generation j = r_generation r
  ∧ j_SubmissionPolicy j = r_submission_policy r ∧ j_ResultPolicy j = r_result_policy r
  ∧ 0 <= r_reserved r.

Definition rows_ok jb : Prop :=
  ∀ id r, jb !! id = Some r → ∃ j, decodeJob (r_document r) = Some j ∧ row_matches id r j.

Definition jobs_ok jb : Prop := ∀ id j, jobOf jb id = Some j → job_inv j.

Definition payload_at (sp : gmap string string) (j : Job) : Prop :=
  ∃ c, sp !! blob_name (j_ID j) = Some c ∧ len c = j_PayloadBytes j
       ∧ 1 <= j_PayloadBytes j <= MaxAttachment ∧ hex_encode (sha256 c) = j_Digest j.

Definition payload_ok jb (sp : gmap string string) : Prop :=
  ∀ id j, jobOf jb id = Some j → needs_payload (j_State j) = true → payload_at sp j.

(** The deduplication identity of [enqueue]'s query. *)
Definition same_key (j1 j2 : Job) : Prop :=
  j_Tenant j1 = j_Tenant j2 ∧ j_Digest j1 = j_Digest j2 ∧ j_Generation j1 = j_Generation j2
  ∧ j_SubmissionPolicy j1 = j_SubmissionPolicy j2 ∧ j_ResultPolicy j1 = j_ResultPolicy j2.

Lemma same_key_sym j1 j2 : same_key j1 j2 → same_key j2 j1.
Proof. intros (?&?&?&?&?). by repeat split. Qed.

Definition unique_ok jb : Prop :=
  ∀ id1 id2 j1 j2, id1 ≠ id2 → jobOf jb id1 = Some j1 → jobOf jb id2 = Some j2 →
  same_key j1 j2 → holds j1 = true → holds j2 = true → False.

Definition rows_of jb : list Row := (map_to_list jb).*2.
Definition tenant_rows jb (t : string) : list Row := filter (λ r, r_tenant r = t) (rows_of jb).

(** COUNT and SUM(reserved), for the store and for each tenant. *)
Definition quota_ok jb : Prop :=
  Z.of_nat (length (rows_of jb)) <= c_MaxJobs cfg
  ∧ sumZ r_reserved (rows_of jb) <= c_MaxBytes cfg
  ∧ ∀ t, Z.of_nat (length (tenant_rows jb t)) <= c_TenantJobs cfg
         ∧ sumZ r_reserved (tenant_rows jb t) <= c_TenantBytes cfg.

(** Live submission attempts, in total and per tenant. *)
Definition own_attempts (la : gmap string string) (t : string) : nat :=
  length (filter (λ o, o = t) (map_to_list la).*2).

Definition live_ok (la : gmap string string) : Prop :=
  Z.of_nat (size la) <= c_SubmissionConcurrency cfg
  ∧ ∀ t, Z.of_nat (own_attempts la t) <= c_TenantSubmissionConcurrency cfg.

Record InvOf jb (sp : gmap string string) (la : gmap string string) : Prop := {
  inv_rows : rows_ok jb;
  inv_jobs : jobs_ok jb;
  inv_payload : payload_ok jb sp;
  inv_unique : unique_ok jb;
  inv_quota : quota_ok jb;
  inv_live : live_ok la
}.

Definition Inv (s : St) : Prop := InvOf (jobs (db s)) (spool s) (liveAttempts s).

(** Every job evolved by legal updates; none appeared or disappeared. *)
Definition updates_of jb jb' : Prop :=
  ∀ id, option_Forall2 (rtc legal) (jobOf jb id) (jobOf jb' id).

#[global] Instance updates_of_preorder : PreOrder updates_of.
Proof.
  split.
  - intros jb id. destruct (jobOf jb id); constructor. apply rtc_refl.
  - intros a b c Hab Hbc id. specialize (Hab id). specialize (Hbc id).
    destruct Hab as [x y Hxy|]; inversion Hbc as [? z Hyz|]; subst; constructor. by etrans.
Qed.

(** The files of a staged job belong to the writer of its body. *)
Definition files_at (id : string) (s s' : St) : Prop :=
  spool s' !! blob_name id = spool s !! blob_name id ∧ spool s' !! tmp_name id = spool s !! tmp_name id.

Definition files_kept (s s' : St) : Prop :=
  ∀ id j, jobOf (jobs (db s)) id = Some j → j_State j = Staging → files_at id s s'.

(** What one operation that is not the writer of a body may do. *)
Definition updates (s s' : St) : Prop := updates_of (jobs (db s)) (jobs (db s')) ∧ files_kept s s'.

Lemma rtc_legal_staging j j' : rtc legal j j' → j_State j = Staging → j_State j' = Staging.
Proof.
  induction 1 as [|j j1 j2 Hl _ IH]; [done|]. intros Hs. apply IH.
  apply allowed_staging. rewrite <- Hs. apply Hl.
Qed.

#[global] Instance updates_preorder : PreOrder updates.
Proof.
  split.
  - intros s. split; [reflexivity|]. by split.
  - intros a b c [Hab Hfa] [Hbc Hfb]. split; [by etrans|].
    intros id j Hj Hst. destruct (Hfa _ _ Hj Hst) as [? ?]. specialize (Hab id). rewrite Hj in Hab.
    inversion Hab as [? j1 Hr Hx Hy|]; subst. symmetry in Hy.
    destruct (Hfb _ _ Hy) as [? ?]; [by eapply rtc_legal_staging|]. split; congruence.
Qed.

Lemma files_kept_same s s' : spool s' = spool s → files_kept s s'.
Proof. intros Hs id j _ _. unfold files_at. by rewrite Hs. Qed.

Lemma updates_same s s' : jobs (db s') = jobs (db s) → spool s' = spool s → updates s s'.
Proof. intros Hj Hs. split; [by rewrite Hj|by apply files_kept_same]. Qed.

(** ** The life of a job

    An id is admitted as a staged job, updated, published once by the writer
    of its body, and removed by that writer or, where [rm] allows it, once it
    ended and nothing is owed. *)
Inductive life (rm : bool) : option Job → option Job → Prop :=
  | life_admit j : j_State j = Staging → j_Version j = 1 → job_inv j → life rm None (Some j)
  | life_update j j' : legal j j' → life rm (Some j) (Some j')
  | life_publish j size digest static : j_State j = Staging → 1 <= size <= MaxAttachment →
      life rm (Some j) (Some (queued_job j size digest static))
  | life_abandon j : j_State j = Staging → life rm (Some j) None
  | life_remove j : rm = true → removable j → life rm (Some j) None.

Definition kept_at (id : string) (s s' : St) : Prop :=
  ∀ j, jobOf (jobs (db s)) id = Some j → j_State j = Staging →
  (∃ j', jobOf (jobs (db s')) id = Some j' ∧ rtc legal j j') ∧ files_at id s s'.

(** What the process may do, the writers of the bodies [own] included: every
    id lives its life, and a staged job of any other writer stays staged, with
    its files. *)
Definition evolves (rm : bool) (own : string → Prop) (s s' : St) : Prop :=
  (∀ id, rtc (life rm) (jobOf (jobs (db s)) id) (jobOf (jobs (db s')) id))
  ∧ ∀ id, ¬ own id → kept_at id s s'.

(** The body of no job is being written by the operation. *)
Definition nobody : string → Prop := λ _, False.

#[global] Instance evolves_preorder rm own : PreOrder (evolves rm own).
Proof.
  split.
  - intros s. split; [reflexivity|]. intros id _ j Hj _. split; [|done]. exists j. split; [done|apply rtc_refl].
  - intros a b c [Hab Hka] [Hbc Hkb]. split; [intros id; etrans; [apply Hab|apply Hbc]|].
    intros id Hid j Hj Hst. destruct (Hka id Hid j Hj Hst) as [(j1&Hj1&Hr1) [? ?]].
    destruct (Hkb id Hid j1 Hj1) as [(j2&Hj2&Hr2) [? ?]]; [by eapply rtc_legal_staging|].
    split; [|split; congruence]. exists j2. split; [done|by etrans].
Qed.

Lemma rtc_legal_life rm j j' : rtc legal j j' → rtc (life rm) (Some j) (Some j').
Proof. induction 1; [apply rtc_refl|]. eapply rtc_l; [by apply life_update|done]. Qed.

Lemma updates_evolves rm own s s' : updates s s' → evolves rm own s s'.
Proof.
  intros [Hu Hf]. split.
  - intros id. destruct (Hu id) as [j j' Hr|]; [by apply rtc_legal_life|apply rtc_refl].
  - intros id _ j Hj Hst. split; [|by eapply Hf]. specialize (Hu id). rewrite Hj in Hu.
    inversion Hu as [? j1 Hr Hx Hy|]; subst. eauto.
Qed.

Lemma evolves_weaken rm (own own' : string → Prop) s s' :
  (∀ id, own id → own' id) → evolves rm own s s' → evolves rm own' s s'.
Proof. intros Ho [He Hk]. split; [done|]. intros id Hid. apply Hk. auto. Qed.

Lemma life_staged_rm rm x y : life false x y → life rm x y.
Proof. destruct 1; [by apply life_admit|by apply life_update|by apply life_publish|by apply life_abandon|done]. Qed.

Lemma evolves_may_remove rm own s s' : evolves false own s s' → evolves rm own s s'.
Proof.
  intros [He Hk]. split; [|done]. intros id. eapply rtc_subrel; [|apply He]. intros x y. apply life_staged_rm.
Qed.

(** Unless rows are removed, a published job stays and only updates change it. *)
Definition stays (s s' : St) : Prop :=
  ∀ id j, jobOf (jobs (db s)) id = Some j → j_State j ≠ Staging →
  ∃ j', jobOf (jobs (db s')) id = Some j' ∧ rtc legal j j'.

Lemma evolves_stays own s s' : evolves false own s s' → stays s s'.
Proof.
  intros [He _] id j Hj Hst. specialize (He id). rewrite Hj in He. clear Hj. revert He.
  generalize (jobOf (jobs (db s')) id). intros y He. remember (Some j) as x eqn:Hx.
  revert j Hx Hst. induction He as [x|x y z Hl _ IH]; intros j -> Hst; [by exists j; split; [|apply rtc_refl]|].
  inversion Hl as [|? j1 Hl1| | |]; subst; try done.
  assert (j_State j1 ≠ Staging) as Hst1.
  { intros Hs. apply Hst, allowed_to_staging. rewrite <- Hs. by apply lg_state. }
  destruct (IH j1 eq_refl Hst1) as (j'&?&?). exists j'. split; [done|]. by eapply rtc_l.
Qed.

(** ** Rows *)

Lemma jobOf_row jb id r j : jb !! id = Some r → decodeJob (r_document r) = Some j → jobOf jb id = Some j.
Proof. intros H Hd. unfold jobOf. by rewrite H. Qed.

Lemma jobOf_inv jb id j : rows_ok jb → jobOf jb id = Some j →
  ∃ r, jb !! id = Some r ∧ decodeJob (r_document r) = Some j ∧ row_matches id r j.
Proof.
  intros Hr Hj. unfold jobOf in Hj. destruct (jb !! id) as [r|] eqn:Hl; [|done]. simpl in Hj.
  destruct (Hr _ _ Hl) as (j0&Hd&Hm). rewrite Hd in Hj. simplify_eq. eauto.
Qed.

Lemma jobOf_ID jb id j : rows_ok jb → jobOf jb id = Some j → j_ID j = id.
Proof. intros Hr Hj. by destruct (jobOf_inv _ _ _ Hr Hj) as (?&?&?&?&?). Qed.

Lemma jobOf_None jb id : rows_ok jb → jobOf jb id = None → jb !! id = None.
Proof.
  intros Hr Hj. unfold jobOf in Hj. destruct (jb !! id) as [r|] eqn:Hl; [|done]. simpl in Hj.
  destruct (Hr _ _ Hl) as (?&?&?). congruence.
Qed.

Lemma jobOf_insert_ne jb id id' r : id ≠ id' → jobOf (<[id := r]> jb) id' = jobOf jb id'.
Proof. intros. unfold jobOf. by rewrite lookup_insert_ne. Qed.

Lemma jobOf_insert_eq jb id r : jobOf (<[id := r]> jb) id = decodeJob (r_document r).
Proof. unfold jobOf. by rewrite lookup_insert_eq. Qed.

Lemma jobOf_delete_ne jb id id' : id ≠ id' → jobOf (delete id jb) id' = jobOf jb id'.
Proof. intros. unfold jobOf. by rewrite lookup_delete_ne. Qed.

Lemma jobOf_delete_eq jb id : jobOf (delete id jb) id = None.
Proof. unfold jobOf. by rewrite lookup_delete_eq. Qed.

(** What [encodeJob] wrote is what [readJob] decodes. *)
Lemma encode_decode j raw :
  encodeJob j = Ok raw → row_checks (j_ReservedBytes j) raw = true → decodeJob raw = Some j.
Proof.
  unfold encodeJob, row_checks, decodeJob. intros He Hc. bool_hyps.
  destruct (marshalJob {| j with j_Result := "" |}) as [meta|]; [|done].
  case_match; [done|]. destruct (marshalJob j) as [b|] eqn:Hm; [|done]. simplify_eq.
  replace (_ <? _) with false by (change (JobMetadataLimit + JobResultLimit) with 20480; lia).
  by eapply unmarshal_marshal.
Qed.

(** ** Quota arithmetic *)

Lemma rows_of_insert jb id r : jb !! id = None → rows_of (<[id := r]> jb) ≡ₚ r :: rows_of jb.
Proof. intros H. unfold rows_of. by rewrite map_to_list_insert. Qed.

Lemma rows_of_delete jb id r : jb !! id = Some r → rows_of jb ≡ₚ r :: rows_of (delete id jb).
Proof. intros H. unfold rows_of. by rewrite <- (map_to_list_delete jb id r). Qed.

Lemma tenant_rows_insert jb id r t : jb !! id = None →
  tenant_rows (<[id := r]> jb) t ≡ₚ (if decide (r_tenant r = t) then [r] else []) ++ tenant_rows jb t.
Proof.
  intros H. unfold tenant_rows. rewrite rows_of_insert by done. rewrite filter_cons.
  by case_decide.
Qed.

Lemma tenant_rows_delete jb id r t : jb !! id = Some r →
  tenant_rows jb t ≡ₚ (if decide (r_tenant r = t) then [r] else []) ++ tenant_rows (delete id jb) t.
Proof.
  intros H. unfold tenant_rows. rewrite (rows_of_delete jb id r) by done. rewrite filter_cons.
  by case_decide.
Qed.

(** Replacing a row by one that reserves no more keeps every bound. *)
Lemma quota_replace jb id r r' : quota_ok jb → jb !! id = Some r → r_tenant r' = r_tenant r →
  r_reserved r' <= r_reserved r → quota_ok (<[id := r']> jb).
Proof.
  intros (Hc&Hs&Ht) Hr Hten Hres.
  assert (delete id jb !! id = None) as Hn by apply lookup_delete_eq.
  rewrite <- (insert_delete_eq jb id r').
  rewrite (rows_of_delete jb id r Hr) in Hc, Hs.
  split_and!; [rewrite (rows_of_insert _ _ r' Hn).. |].
  - done.
  - rewrite sumZ_cons in *. lia.
  - intros t. destruct (Ht t) as [Htc Hts].
    rewrite (tenant_rows_delete jb id r t Hr) in Htc, Hts.
    rewrite (tenant_rows_insert _ _ r' t Hn).
    rewrite Hten. rewrite !length_app, !sumZ_app in *.
    unfold sumZ in *. case_decide; simpl in *; lia.
Qed.

Lemma quota_delete jb id : rows_ok jb → quota_ok jb → quota_ok (delete id jb).
Proof.
  intros Hrows (Hc&Hs&Ht). destruct (jb !! id) as [r|] eqn:Hr; [|by rewrite delete_id].
  assert (0 <= r_reserved r) by (by destruct (Hrows _ _ Hr) as (?&_&?&?&?&?&?&?&?&?&?&?)).
  rewrite (rows_of_delete jb id r Hr) in Hc, Hs. rewrite sumZ_cons in Hs.
  simpl in Hc. split_and!; [lia|lia|]. intros t. destruct (Ht t) as [Htc Hts].
  rewrite (tenant_rows_delete jb id r t Hr) in Htc, Hts.
  rewrite length_app in Htc. rewrite sumZ_app in Hts.
  unfold sumZ in *. case_decide; simpl in *; lia.
Qed.

(** ** Updates of one row *)

(** Replacing a job by one with the same identity that needs no new payload
    and holds no key another job holds. *)
Lemma Inv_replace jb sp la id r j j' raw :
  InvOf jb sp la → jobOf jb id = Some j → jb !! id = Some r →
  same_identity j j' → job_inv j' →
  encodeJob j' = Ok raw → row_checks (j_ReservedBytes j') raw = true →
  j_ReservedBytes j' <= j_ReservedBytes j →
  (needs_payload (j_State j') = true → payload_at sp j') →
  (∀ id2 j2, id2 ≠ id → jobOf jb id2 = Some j2 → same_key j' j2 → holds j' = true →
             holds j2 = true → False) →
  InvOf (<[id := put_row j' r raw]> jb) sp la.
Proof.
  intros [Hrows Hjobs Hpay Huniq Hquota Hlive] Hj Hr Hid Hji He Hck Hres Hp Hu.
  destruct (jobOf_inv _ _ _ Hrows Hj) as (r0&Hr0&Hd&Hm).
  assert (r0 = r) as -> by congruence.
  pose proof (encode_decode _ _ He Hck) as Hdec.
  destruct Hm as (?&?&?&?&?&?&?&?&?&?), Hid as (?&?&?&?&?&?&?&?&?&?).
  assert (∀ id2, jobOf (<[id := put_row j' r raw]> jb) id2 =
                 if decide (id2 = id) then Some j' else jobOf jb id2) as Hof.
  { intros id2. case_decide; subst; [by rewrite jobOf_insert_eq|by rewrite jobOf_insert_ne]. }
  constructor.
  - intros id2 r2 Hr2. destruct (decide (id2 = id)) as [->|Hne].
    + rewrite lookup_insert_eq in Hr2. simplify_eq/=. exists j'.
      unfold row_checks in Hck. bool_hyps. split; [done|]. repeat split; simpl; congruence || lia.
    + rewrite lookup_insert_ne in Hr2 by done. by apply Hrows.
  - intros id2 j2. rewrite Hof. case_decide; intros; simplify_eq; eauto.
  - intros id2 j2. rewrite Hof. case_decide; intros; simplify_eq; eauto.
  - intros id1 id2 j1 j2 Hne. rewrite !Hof.
    repeat case_decide; intros; simplify_eq; [by eapply Hu| |by eapply (Huniq id1 id2)].
    eapply (Hu id1); eauto. by apply same_key_sym.
  - eapply quota_replace; [done|exact Hr0|done|simpl; lia].
  - done.
Qed.

Lemma legal_refl_updates jb id r j j' raw :
  rows_ok jb → jobOf jb id = Some j → legal j j' → decodeJob raw = Some j' →
  updates_of jb (<[id := put_row j' r raw]> jb).
Proof.
  intros Hrows Hj Hl Hd id2. destruct (decide (id2 = id)) as [->|].
  - rewrite Hj, jobOf_insert_eq. simpl. rewrite Hd. constructor. by apply rtc_once.
  - rewrite jobOf_insert_ne by done. destruct (jobOf jb id2); constructor. apply rtc_refl.
Qed.

Lemma payload_same sp j j' : j_ID j' = j_ID j → same_payload j j' → payload_at sp j → payload_at sp j'.
Proof. intros Hid (Hd&Hp&_) (c&?&?&?&?). exists c. rewrite Hid, Hd, Hp. auto. Qed.

(** A committed legal update. *)
Lemma Inv_put jb sp la id r j j' raw :
  InvOf jb sp la → jobOf jb id = Some j → legal j j' → jb !! id = Some r →
  encodeJob j' = Ok raw → row_checks (j_ReservedBytes j') raw = true →
  InvOf (<[id := put_row j' r raw]> jb) sp la
  ∧ updates_of jb (<[id := put_row j' r raw]> jb).
Proof.
  intros Hinv Hj Hl Hr He Hck. pose proof Hinv as [Hrows Hjobs Hpay Huniq _ _].
  pose proof (Hjobs _ _ Hj) as Hji. destruct Hl as [Hid Hp Hv Hst Hli Hh Ht Htk].
  split; [|eapply legal_refl_updates; [done..|by eapply encode_decode]].
  eapply Inv_replace; eauto.
  - destruct Hp as (_&_&->). lia.
  - intros Hn. eapply payload_same; [by destruct Hid|done|]. eapply Hpay; [done|].
    by eapply allowed_payload.
  - intros id2 j2 Hne Hj2 Hk Hh1 Hh2. eapply (Huniq id2 id j2 j); eauto.
    destruct Hid as (?&?&?&?&?&?&?&?&?&?), Hp as (?&?&?), Hk as (?&?&?&?&?).
    repeat split; congruence.
Qed.

(** Unlinking the payload of a job that no longer needs it. *)
Lemma Inv_unlink jb sp la id :
  InvOf jb sp la → (∀ j, jobOf jb id = Some j → needs_payload (j_State j) = false) →
  InvOf jb (delete (blob_name id) sp) la.
Proof.
  intros [Hrows Hjobs Hpay Huniq Hquota Hlive] Hn. constructor; auto.
  intros id2 j2 Hj2 Hnp. destruct (Hpay _ _ Hj2 Hnp) as (c&Hc&?).
  exists c. split; [|done]. rewrite lookup_delete_ne; [done|].
  intros Heq%(inj blob_name). rewrite (jobOf_ID jb id2) in Heq by done. subst.
  rewrite (Hn _ Hj2) in Hnp. done.
Qed.

(** Deleting a row. *)
Lemma Inv_delete jb sp la id : InvOf jb sp la → InvOf (delete id jb) sp la.
Proof.
  intros [Hrows Hjobs Hpay Huniq Hquota Hlive].
  assert (∀ id2 j, jobOf (delete id jb) id2 = Some j → id2 ≠ id ∧ jobOf jb id2 = Some j) as Hof.
  { intros id2 j. destruct (decide (id2 = id)) as [->|]; [by rewrite jobOf_delete_eq|].
    by rewrite jobOf_delete_ne. }
  constructor.
  - intros id2 r Hr. apply lookup_delete_Some in Hr as [? Hr]. by apply Hrows.
  - intros id2 j Hj. apply Hof in Hj as [??]. eauto.
  - intros id2 j Hj ?. apply Hof in Hj as [??]. eauto.
  - intros id1 id2 j1 j2 Hne Hj1 Hj2. apply Hof in Hj1 as [??], Hj2 as [??]. eauto.
  - by apply quota_delete.
  - done.
Qed.

(** Inserting a job that reserves capacity and holds nothing yet. *)
Lemma Inv_insert jb sp la j r :
  InvOf jb sp la → jb !! j_ID j = None → decodeJob (r_document r) = Some j →
  row_matches (j_ID j) r j → job_inv j → holds j = false →
  quota_ok (<[j_ID j := r]> jb) →
  InvOf (<[j_ID j := r]> jb) sp la.
Proof.
  intros [Hrows Hjobs Hpay Huniq Hquota Hlive] Hnew Hd Hm Hji Hh Hq.
  assert (∀ id2, jobOf (<[j_ID j := r]> jb) id2 =
                 if decide (id2 = j_ID j) then Some j else jobOf jb id2) as Hof.
  { intros id2. case_decide; subst; [by rewrite jobOf_insert_eq|by rewrite jobOf_insert_ne]. }
  constructor.
  - intros id2 r2 Hr2. apply lookup_insert_Some in Hr2 as [[<- <-]|[? Hr2]]; eauto.
  - intros id2 j2. rewrite Hof. case_decide; intros; simplify_eq; eauto.
  - intros id2 j2. rewrite Hof. case_decide; intros Hj2 Hn; simplify_eq; [|eauto].
    apply needs_payload_holds in Hn. congruence.
  - intros id1 id2 j1 j2 Hne. rewrite !Hof.
    repeat case_decide; intros; simplify_eq; try congruence. by eapply (Huniq id1 id2).
  - done.
  - done.
Qed.

(** ** Derived rules of the program logic *)

Lemma wp_readJob_inv id tenant (Q : res Job → St → Prop) s :
  Inv s →
  (∀ j, jobOf (jobs (db s)) id = Some j → j_ID j = id → j_Tenant j = tenant → job_inv j →
        Q (Ok j) s) →
  (∀ e, Q (Err e) s) →
  wp (readJob id tenant) Q s.
Proof.
  intros Hinv H1 H2. apply wp_readJob; [|done]. intros r j Hr Ht Hd.
  pose proof (jobOf_row _ _ _ _ Hr Hd) as Hj.
  destruct (inv_rows _ _ _ Hinv _ _ Hr) as (j0&Hd0&Hm). simplify_eq.
  destruct Hm as (?&?&_). apply H1; [done..|congruence|]. by eapply (inv_jobs _ _ _ Hinv).
Qed.

Lemma wp_Lookup tenant id s (Q : res Job → St → Prop) :
  Inv s →
  (∀ j, jobOf (jobs (db s)) id = Some j → j_ID j = id → j_Tenant j = tenant → Q (Ok j) s) →
  (∀ e, Q (Err e) s) → wp (Lookup tenant id) Q s.
Proof.
  intros Hinv H1 H2. unfold Lookup. apply wp_bind, wp_get, wp_bind, wp_reject; [|done].
  intros _. apply wp_readJob_inv; auto.
Qed.

(** The compare-and-swap of a legal update; the other tables stay. *)
Lemma wp_putJob_full j j' (Q : res unit → St → Prop) s :
  Inv s → jobOf (jobs (db s)) (j_ID j) = Some j → legal j j' →
  (∀ jb, let s' := with_db s {| (db s) with jobs := jb |} in
        Inv s' → updates s s' → jobOf jb (j_ID j) = Some j' →
        (∀ id, id ≠ j_ID j → jobOf jb id = jobOf (jobs (db s)) id) →
        Q (Ok tt) s') →
  (∀ e, Q (Err e) s) →
  wp (putJob j' j) Q s.
Proof.
  intros Hinv Hj Hl H1 H2. apply wp_putJob; [|done]. intros r raw Hr Ht Hst Hv He Hck.
  assert (j_ID j' = j_ID j) as Hid by apply Hl. rewrite Hid in Hr.
  destruct (Inv_put _ _ _ (j_ID j) r j j' raw Hinv Hj Hl Hr He Hck) as [Hinv' Hup].
  rewrite <- Hid in Hinv', Hup. apply H1; [exact Hinv'|split; [exact Hup|by apply files_kept_same]|..]; simpl; rewrite Hid.
  - rewrite jobOf_insert_eq. by apply encode_decode.
  - intros. by rewrite jobOf_insert_ne.
Qed.

Lemma wp_putJob_legal j j' (Q : res unit → St → Prop) s :
  Inv s → jobOf (jobs (db s)) (j_ID j) = Some j → legal j j' →
  (∀ d, let s' := with_db s d in
        Inv s' → updates s s' → jobOf (jobs d) (j_ID j) = Some j' →
        (∀ id, id ≠ j_ID j → jobOf (jobs d) id = jobOf (jobs (db s)) id) →
        Q (Ok tt) s') →
  (∀ e, Q (Err e) s) →
  wp (putJob j' j) Q s.
Proof. intros. eapply wp_putJob_full; eauto. Qed.

(** What a transaction body begun in [s] must end with: the invariant of the
    spool and memory, and the files of staged jobs, even when its tables are
    rolled back. *)
Definition tx_post {A} (s : St) (Q : A → St → Prop) (r : res A) (s' : St) : Prop :=
  InvOf (jobs (db s)) (spool s') (liveAttempts s') ∧ files_kept s s'
  ∧ match r with
    | Ok a => Inv s' ∧ updates s s' ∧ Q a s'
    | Err _ => True
    end.

Lemma updates_rolled s s' d : jobs d = jobs (db s) → files_kept s s' → updates s (with_db s' d).
Proof. intros Hd Hf. split; [cbn; by rewrite Hd|done]. Qed.

Lemma wp_tx {A} (f : M A) (Q : res A → St → Prop) s :
  Inv s →
  wp f (tx_post s (λ a, Q (Ok a))) s →
  (∀ e s', Inv s' → updates s s' → Q (Err e) s') →
  wp (transaction f) Q s.
Proof.
  intros Hinv Hf He. apply wp_transaction; [by apply He|].
  eapply wp_mono; [exact Hf|]. intros [a|e] s' (Hroll&Hfk&H).
  - destruct H as (?&?&?). split_and!; [done|by apply He|].
    by apply He; [exact Hroll|apply updates_rolled].
  - by apply He; [exact Hroll|apply updates_rolled].
Qed.

(** States that differ only in tables other than [jobs], or in cursors. *)
Definition same_store (s s1 : St) : Prop :=
  jobs (db s1) = jobs (db s) ∧ spool s1 = spool s ∧ liveAttempts s1 = liveAttempts s.

Lemma Inv_same s s1 : same_store s s1 → Inv s → Inv s1.
Proof. unfold Inv. intros (->&->&->). done. Qed.

Lemma same_store_updates s s1 : same_store s s1 → updates s s1.
Proof. intros (Hj&Hs&_). by apply updates_same. Qed.

Lemma tx_post_err {A} s s1 (Q : A → St → Prop) e : Inv s → same_store s s1 → tx_post s Q (Err e) s1.
Proof.
  intros Hinv Hst. pose proof (same_store_updates _ _ Hst) as [_ Hf]. destruct Hst as (Hj&Hs&Hl).
  split; [by rewrite Hs, Hl|done].
Qed.

Lemma tx_post_ok {A} s s1 (Q : A → St → Prop) a :
  Inv s → same_store s s1 → Q a s1 → tx_post s Q (Ok a) s1.
Proof.
  intros Hinv Hs HQ. pose proof (Inv_same _ _ Hs Hinv). pose proof (same_store_updates _ _ Hs) as Hu.
  destruct (tx_post_err s s1 (λ _ _, True) EOther Hinv Hs : tx_post s _ (Err EOther : res unit) s1) as (?&?&_).
  by split_and!.
Qed.

(** The end of most bodies: write the updated job and return it. *)
Lemma wp_commit s s1 j j' (Q : Job → St → Prop) :
  Inv s → same_store s s1 → jobOf (jobs (db s)) (j_ID j) = Some j → legal j j' →
  (∀ d, jobOf (jobs d) (j_ID j) = Some j' → Inv (with_db s1 d) → updates s (with_db s1 d) →
        Q j' (with_db s1 d)) →
  wp (commit j' j) (tx_post s Q) s1.
Proof.
  intros Hinv Hs Hj Hl HQ. pose proof (Inv_same _ _ Hs Hinv) as Hinv1.
  pose proof (same_store_updates _ _ Hs) as Hu1. pose proof Hs as (Hjb&Hsp&Hla). apply wp_bind.
  eapply wp_putJob_legal; [done|by rewrite Hjb|done| |by intros; apply tx_post_err].
  intros d s' Hinv' Hup Hj' _. apply wp_ret.
  assert (updates s s') as Hu by (by etrans). pose proof Hu as [_ Hf].
  split; [subst s'; cbn; by rewrite Hsp, Hla|]. split_and!; [done..|]. by apply HQ.
Qed.

(** The statement every operation satisfies, for the relation [R] it deserves. *)
Definition keeps (R : St → St → Prop) {A} (m : M A) : Prop :=
  ∀ s, Inv s → wp m (λ _ s', Inv s' ∧ R s s') s.

Section Keeps.
Context (R : St → St → Prop) `{!PreOrder R}.

(** Sequences of operations keep the contract. *)
Lemma keeps_ret {A} (a : A) : keeps R (mret a).
Proof. intros s Hinv. by apply wp_ret. Qed.

Lemma keeps_throw {A} e : keeps R (throw e : M A).
Proof. intros s Hinv. by apply wp_throw. Qed.

Lemma keeps_bind {A B} (m : M A) (f : A → M B) :
  keeps R m → (∀ a, keeps R (f a)) → keeps R (m ≫= f).
Proof.
  intros Hm Hf s Hinv. apply wp_bind. eapply wp_mono; [by apply Hm|].
  intros [a|e] s1 [Hinv1 Hup]; [|done]. eapply wp_mono; [by apply Hf|].
  intros r s2 [??]. split; [done|]. by etrans.
Qed.

Lemma keeps_try {A} (m : M A) : keeps R m → keeps R (try m).
Proof. intros Hm s Hinv. apply wp_try. by apply Hm. Qed.

Lemma keeps_if {A} (b : bool) (m1 m2 : M A) : keeps R m1 → keeps R m2 → keeps R (if b then m1 else m2).
Proof. by destruct b. Qed.

Lemma keeps_of_res {A} (x : res A) : keeps R (of_res x).
Proof. destruct x; [apply keeps_ret|apply keeps_throw]. Qed.

Lemma keeps_clockNow : keeps R clockNow.
Proof. intros s Hinv. by apply wp_clockNow. Qed.

Lemma keeps_readJob id tenant : keeps R (readJob id tenant).
Proof. intros s Hinv. by apply wp_readJob_inv. Qed.

Lemma keeps_Lookup tenant id : keeps R (Lookup tenant id).
Proof. intros s Hinv. unfold Lookup. wp_pre. by apply keeps_readJob. Qed.

End Keeps.

Lemma keeps_evolves {A} rm own (m : M A) : keeps updates m → keeps (evolves rm own) m.
Proof.
  intros Hm s Hinv. eapply wp_mono; [by apply Hm|]. intros r s' [??]. split; [done|].
  by apply updates_evolves.
Qed.

Lemma keeps_weaken {A} rm (own own' : string → Prop) (m : M A) :
  (∀ id, own id → own' id) → keeps (evolves rm own) m → keeps (evolves rm own') m.
Proof.
  intros Ho Hm s Hinv. eapply wp_mono; [by apply Hm|]. intros r s' [??]. split; [done|].
  by eapply evolves_weaken.
Qed.

End Inv.

(** An operation that is not the writer of a body. *)
Abbreviation maintains cfg := (keeps cfg updates).

#[export] Hint Resolve keeps_ret keeps_throw keeps_bind keeps_try keeps_if keeps_of_res
  keeps_clockNow keeps_readJob keeps_Lookup : mx.

#[export] Hint Extern 0 (PreOrder _) => typeclasses eauto : mx.
#[export] Hint Resolve tx_post_err tx_post_ok updates_same : mx.
#[export] Hint Extern 1 (same_store _ _) => (repeat split) : mx.
#[export] Hint Extern 1 (updates ?s ?s) => reflexivity : mx.
