(* ===== verification/CapeLifecycle.v ===== *)
(** * Cancellation, deletion records and maintenance

    [internal/cape/lifecycle.go]: [Cancel], [RecordDeletion],
    [nextMaintenanceBatch] and [Maintain]. *)

From Stdlib Require Import ZArith Lia SpecFloat.
From stdpp Require Import base gmap strings list numbers sorting.
From S2P Require Import Prelude GoStd CapeTypes CapeJob CapeStore CapeLogic CapeInv.

Local Open Scope Z_scope.

Section Lifecycle.
Context {E : CapeEnv}.

(** ** Batches *)
Definition maintenanceBatchSize : nat := 256.

(** The three state lists of the batch queries. *)
Inductive Phase := deadlineStates | cleanupStates | cleanupDeadlineStates | schedulerStates.

Definition in_phase (p : Phase) (st : JobState) : bool :=
  match p, st with
  | deadlineStates, (Staging | Queued | Submitting | SubmitUncertain | RemotePending | Fetching) => true
  | cleanupStates, (RemotePending | Fetching | Completed | Failed | Expired | Cancelled) => true
  | cleanupDeadlineStates, (Completed | Cancelled | Expired | Failed) => true
  | schedulerStates, (Queued | RemotePending | Fetching | Completed | Failed | Expired | Cancelled) => true
  | _, _ => false
  end.

Definition key_le (p q : string * Row) : Prop := String.le p.1 q.1.
#[global] Instance key_le_dec : RelDecision key_le.
Proof. intros p q. unfold key_le. apply _. Defined.

(** [SELECT document FROM jobs WHERE f ORDER BY id LIMIT limit] *)
Definition select_rows (f : string → Row → bool) (limit : nat) (jb : gmap string Row) : list (string * Row) :=
  take limit (merge_sort key_le (filter (λ p, Is_true (f p.1 p.2)) (map_to_list jb))).

(** [scanJobBatch]: any undecodable document fails the whole batch. *)
Definition scanJobBatch (rows : list (string * Row)) : option (list Job) :=
  mapM (λ p, decodeJob (r_document p.2)) rows.

Definition query_batch (p : Phase) (cursor : string) : M (list Job) :=
  exec ;;
  s ← get;
  match scanJobBatch (select_rows (λ id r, in_phase p (r_state r) && str_lt cursor id)
                        maintenanceBatchSize (jobs (db s))) with
  | Some l => mret l
  | None => throw ErrStoreUnavailable
  end.

(** The batch and the cursor of the next one; wraps to the start once. *)
Definition nextMaintenanceBatch (p : Phase) (cursor : string) : M (list Job * string) :=
  l ← query_batch p cursor;
  l ← (if bool_decide (l = []) && bool_decide (cursor ≠ "") then query_batch p "" else mret l);
  match last l with
  | None => mret ([], "")
  | Some j => mret (l, j_ID j)
  end.

(** [for _, j := range jobs { if err := f(j); err != nil { return err } }] *)
Fixpoint iterM {A} (f : A → M unit) (l : list A) : M unit :=
  match l with
  | [] => mret ()
  | x :: l => f x ;; iterM f l
  end.

(** Signal a live ingress writer: [if cancel := s.active[id]; cancel != nil]. *)
Definition signal (id : string) : M unit :=
  modify (λ s, {| s with active := alter (λ _, true) id (active s) |}).

(** ** [Cancel] *)
Definition cancel_tx (tenant id : string) : M Job :=
  j ← readJob id tenant;
  if bool_decide (j_State j = Staging) then signal id ;; mret j
  else if bool_decide (j_State j = Cancelled) then mret j
  else
    r ← try now;
    t ← match r with
        | Ok t => mret t
        | Err e =>
            reject (bool_decide (e ≠ ErrClock)) e ;;
            exec ;;
            s ← get;
            match clock (db s) with
            | Some stamp => mret (time_Unix0 stamp)
            | None => throw ErrStoreUnavailable
            end
        end;
    commit (bump (terminate j Cancelled "" t)) j.

Definition Cancel (tenant id : string) : M Job :=
  s ← get;
  reject (closed s) (cerr Closed) ;;
  j ← transaction (cancel_tx tenant id);
  (if bool_decide (j_State j ≠ Staging) then removePayload (j_ID j) else mret ()) ;;
  checkpoint ;;
  mret j.

(** ** [RecordDeletion] *)

(** The update of the transaction body: an acknowledged task is recorded once;
    unknown debt overrides any other cleanup state. *)
Definition record_deletion (j : Job) (task : TaskRef) (outcome : Code) : Job :=
  let acked := if bool_decide (outcome = "") && negb (mem (t_ID task) (j_DeleteAcknowledgedIDs j))
               then j_DeleteAcknowledgedIDs j ++ [t_ID task] else j_DeleteAcknowledgedIDs j in
  {| j with
     j_DeleteAcknowledgedIDs := acked;
     j_Cleanup :=
       if bool_decide (outcome = "") && negb (j_UnknownDebt j) then
         if Z.of_nat (length acked) =? Z.of_nat (length (j_TaskIDs j))
         then DeleteAcknowledgedUnverified else remote_delete_pending
       else remote_delete_failed;
     j_DedupBarrier := true;
     j_Version := j_Version j + 1 |}.

Definition RecordDeletion (tenant id : string) (version : Z) (task : TaskRef)
    (state : string) (outcome : Code) : M Job :=
  s ← get;
  reject (closed s) (cerr Closed) ;;
  reject (negb (safeOutcome outcome)
          || bool_decide (outcome = "") && bool_decide (state ≠ DeleteAcknowledgedUnverified)
          || bool_decide (outcome ≠ "") && bool_decide (state ≠ "")) (cerr Invalid) ;;
  j ← transaction (
    j ← readJob id tenant;
    reject (negb (j_Version j =? version) || bool_decide (t_Generation task ≠ j_Generation j)
            || negb (terminal (j_State j))) ErrConflict ;;
    reject (negb (mem (t_ID task) (j_TaskIDs j))) ErrConflict ;;
    commit (record_deletion j task outcome) j);
  checkpoint ;;
  mret j.

(** ** [Maintain] *)

(** One job of the deadline batch. *)
Definition maintain_deadline (now : Time) (j : Job) : M unit :=
  if bool_decide (j_State j = Staging) then
    if negb (Before now (j_IngressDeadline j)) then signal (j_ID j) else mret ()
  else if negb (terminal (j_State j))
          && (negb (Before now (j_AnalysisDeadline j))
              || bool_decide (j_State j = Queued) && negb (Before now (j_QueueDeadline j)))
  then putJob (bump (terminate j Expired Deadline now)) j
  else mret ().

(** Retention elapsed for a terminal job. *)
Definition retained (now : Time) (j : Job) : bool :=
  negb (IsZero (j_TerminalAt j)) && negb (Before now (j_TerminalAt j + 24 * hour)).

(** Nothing is owed remotely: the row may be deleted. *)
Definition settled (j : Job) : bool :=
  negb (j_UnknownDebt j)
  && (bool_decide (j_Cleanup j = not_submitted) || bool_decide (j_Cleanup j = remote_purge_confirmed)).

Definition tombstone (j : Job) : Job :=
  {| j with j_Result := ""; j_Suppressed := true; j_DedupBarrier := true; j_StaticVerdict := "" |}.

(** [DELETE FROM jobs WHERE id=? AND tenant=? AND version=?] *)
Definition delete_job (id tenant : string) (version : Z) : M unit :=
  exec ;;
  s ← get;
  match jobs (db s) !! id with
  | Some r => if bool_decide (r_tenant r = tenant) && (r_version r =? version)
              then modify_db (λ d, {| d with jobs := delete id (jobs d) |})
              else mret ()
  | None => mret ()
  end.

(** One job of the cleanup batch. *)
Definition maintain_cleanup (now : Time) (j : Job) : M unit :=
  if negb (terminal (j_State j)) then
    if bool_decide (j_State j = RemotePending) || bool_decide (j_State j = Fetching)
    then removePayload (j_ID j) else mret ()
  else
    removePayload (j_ID j) ;;
    if retained now j && settled j then delete_job (j_ID j) (j_Tenant j) (j_Version j)
    else
      let j' := if retained now j then tombstone j else j in
      if bool_decide (j' = j) then mret () else putJob (bump j') j.

(** The first transaction of [Maintain]. *)
Definition maintain_expire : M (Time * string) :=
  t ← now;
  s ← get;
  b ← nextMaintenanceBatch deadlineStates (maintenanceDeadlineCursor s);
  iterM (maintain_deadline t) b.1 ;;
  mret (t, b.2).

(** The second: unlink, minimize or delete what ended. *)
Definition maintain_clean (t : Time) : M string :=
  s ← get;
  b ← nextMaintenanceBatch cleanupStates (maintenanceCleanupCursor s);
  iterM (maintain_cleanup t) b.1 ;;
  mret b.2.

Definition Maintain : M unit :=
  s ← get;
  reject (closed s) (cerr Closed) ;;
  r ← transaction maintain_expire;
  let t : Time := r.1 in
  let deadlineCursor : string := r.2 in
  modify (λ s, {| s with maintenanceDeadlineCursor := deadlineCursor |}) ;;
  cleanupCursor ← transaction (maintain_clean t);
  modify (λ s, {| s with maintenanceCleanupCursor := cleanupCursor |}) ;;
  checkpoint.

(** ** Batches *)

Lemma select_rows_spec f limit jb id r :
  (id, r) ∈ select_rows f limit jb → jb !! id = Some r ∧ f id r = true.
Proof.
  unfold select_rows. intros Hin.
  assert ((id, r) ∈ merge_sort key_le (filter (λ p, Is_true (f p.1 p.2)) (map_to_list jb))) as Hm.
  { by eapply elem_of_submseteq, sublist_submseteq, sublist_take. }
  rewrite merge_sort_Permutation in Hm. apply list_elem_of_filter in Hm as [Hf Hm].
  apply elem_of_map_to_list in Hm. by apply Is_true_true in Hf.
Qed.

Lemma select_rows_nodup f limit jb : NoDup (select_rows f limit jb).*1.
Proof.
  unfold select_rows. rewrite fmap_take. eapply sublist_NoDup; [|apply sublist_take].
  assert (NoDup (filter (λ p, Is_true (f p.1 p.2)) (map_to_list jb)).*1) as Hn.
  { eapply sublist_NoDup; [apply (NoDup_fst_map_to_list jb)|].
    apply fmap_sublist, sublist_filter. }
  by rewrite merge_sort_Permutation.
Qed.

(** The jobs of a batch are stored as they were read, each once. *)
Definition batch_of (jb : gmap string Row) (l : list Job) : Prop :=
  NoDup (j_ID <$> l) ∧ ∀ j, j ∈ l → jobOf jb (j_ID j) = Some j.

Lemma scan_batch f limit jb l :
  rows_ok jb → scanJobBatch (select_rows f limit jb) = Some l →
  batch_of jb l ∧ Forall (λ j, ∃ r, jb !! j_ID j = Some r ∧ f (j_ID j) r = true
                                    ∧ r_state r = j_State j) l.
Proof.
  unfold scanJobBatch. intros Hrows Hl. apply mapM_Some in Hl.
  assert (Forall2 (λ p j, p.1 = j_ID j ∧ jobOf jb (j_ID j) = Some j
     ∧ f (j_ID j) p.2 = true ∧ jb !! j_ID j = Some p.2 ∧ r_state p.2 = j_State j)
     (select_rows f limit jb) l) as Hf.
  { apply Forall2_lookup. intros i. pose proof (proj1 (Forall2_lookup _ _ _) Hl i) as Hi.
    destruct (select_rows f limit jb !! i) as [[id r]|] eqn:Hp; inversion Hi as [? j Hd Heq|];
      constructor. simpl in *.
    apply list_elem_of_lookup_2, select_rows_spec in Hp as [Hr Hf].
    destruct (Hrows _ _ Hr) as (j0&Hd0&Hm). simplify_eq. destruct Hm as (<-&?&?&_).
    repeat split; auto. by eapply jobOf_row. }
  split; [split|].
  - assert ((select_rows f limit jb).*1 = j_ID <$> l) as <-; [|apply select_rows_nodup].
    clear Hl. induction Hf as [|p j ps l (?&?) _ IH]; [done|]. csimpl. by f_equal.
  - intros j Hj. apply list_elem_of_lookup in Hj as [i Hi].
    destruct (Forall2_lookup_r _ _ _ _ _ Hf Hi) as (?&_&_&?&_). done.
  - apply Forall_forall. intros j Hj. apply list_elem_of_lookup in Hj as [i Hi].
    destruct (Forall2_lookup_r _ _ _ _ _ Hf Hi) as (p&_&_&_&?&?&?). eauto.
Qed.

Lemma wp_query_batch p cursor (Q : res (list Job) → St → Prop) s :
  rows_ok (jobs (db s)) →
  (∀ l, batch_of (jobs (db s)) l → Forall (λ j, in_phase p (j_State j) = true) l → Q (Ok l) s) →
  (∀ e, Q (Err e) s) →
  wp (query_batch p cursor) Q s.
Proof.
  intros Hrows H1 H2. unfold query_batch. wp_go; auto.
  destruct (scan_batch _ _ _ _ Hrows Heqo) as [? Hf]. apply H1; [done|].
  eapply Forall_impl; [exact Hf|]. intros j (r&_&Hr&<-). by bool_hyps.
Qed.

Lemma wp_nextMaintenanceBatch p cursor (Q : res (list Job * string) → St → Prop) s :
  rows_ok (jobs (db s)) →
  (∀ l c, batch_of (jobs (db s)) l → Forall (λ j, in_phase p (j_State j) = true) l → Q (Ok (l, c)) s) →
  (∀ e, Q (Err e) s) →
  wp (nextMaintenanceBatch p cursor) Q s.
Proof.
  intros Hrows H1 H2. unfold nextMaintenanceBatch.
  assert (batch_of (jobs (db s)) []) as Hnil by (split; [constructor|by intros ? ?%elem_of_nil]).
  assert (∀ l, batch_of (jobs (db s)) l → Forall (λ j, in_phase p (j_State j) = true) l →
    wp (match last l with None => mret ([], "") | Some j => mret (l, j_ID j) end) Q s) as Hend.
  { intros l ??. destruct (last l); apply wp_ret; eauto. }
  apply wp_bind, wp_query_batch; [done| |done]. intros l Hl Hp.
  apply wp_bind. case_match; [apply wp_query_batch|apply wp_ret]; auto.
Qed.

Lemma wp_iterM {A} (f : A → M unit) (I : list A → St → Prop) (Q : res unit → St → Prop) l s :
  I l s →
  (∀ x l s, I (x :: l) s → wp (f x) (λ r s', match r with Ok _ => I l s' | Err e => Q (Err e) s' end) s) →
  (∀ s, I [] s → Q (Ok tt) s) →
  wp (iterM f l) Q s.
Proof.
  intros HI Hf Hend. revert s HI. induction l as [|x l IH]; intros s HI.
  - apply wp_ret. auto.
  - apply wp_bind. eapply wp_mono; [by apply Hf|]. intros [[]|e] s' H; auto.
Qed.

(** ** Cancellation and deletion records keep the contract *)
Context {EOk : CapeEnvOk E} (cfg : StoreConfig).

(** Unlinking the payload of a job that is not staged. *)
Lemma files_kept_unlink jb s s' j :
  rows_ok jb → jobOf jb (j_ID j) = Some j → j_State j ≠ Staging → jobs (db s) = jb →
  spool s' = delete (blob_name (j_ID j)) (spool s) → files_kept s s'.
Proof.
  intros Hrows Hj Hst Hjb Hsp id j1 Hj1 Hst1. unfold files_at. rewrite Hsp. rewrite Hjb in Hj1.
  assert (j_ID j ≠ id) as Hne by (intros <-; congruence).
  split; apply lookup_delete_ne; [by intros ?%(inj blob_name)|]. apply not_eq_sym, tmp_name_ne.
Qed.

Lemma updates_unlink s j : Inv cfg s → jobOf (jobs (db s)) (j_ID j) = Some j → j_State j ≠ Staging →
  updates s {| s with spool := delete (blob_name (j_ID j)) (spool s) |}.
Proof.
  intros Hinv Hj Hst. split; [done|]. eapply files_kept_unlink; [apply Hinv|done..].
Qed.

(** Unlinking the payload of a stored job that cannot be submitted any more. *)
Lemma wp_unlink s0 s j (Q : res unit → St → Prop) :
  Inv cfg s → updates s0 s → jobOf (jobs (db s)) (j_ID j) = Some j →
  needs_payload (j_State j) = false → j_State j ≠ Staging →
  (∀ r s', Inv cfg s' → updates s0 s' → db s' = db s → Q r s') →
  wp (removePayload (j_ID j)) Q s.
Proof.
  intros Hinv Hup Hj Hn Hst HQ. apply wp_removePayload; [|by intros; apply HQ].
  intros r. apply HQ; [|etrans; [exact Hup|by eapply updates_unlink]|done]. apply Inv_unlink; [done|].
  simpl. intros j' Hj'. by rewrite Hj in Hj'; simplify_eq.
Qed.

Lemma wp_checkpoint_ret {A} s0 s (a : A) :
  Inv cfg s → updates s0 s → wp (checkpoint ;; mret a) (λ _ s', Inv cfg s' ∧ updates s0 s') s.
Proof. intros. by wp_go. Qed.

(** What [Cancel] makes of a job. *)
Definition cancelled (j : Job) (t : Time) : Job :=
  if bool_decide (j_State j = Staging) || bool_decide (j_State j = Cancelled) then j
  else bump (terminate j Cancelled "" t).

Definition cancel_post (tenant id : string) (s0 : St) (j : Job) (s : St) : Prop :=
  ∃ j0 t, jobOf (jobs (db s0)) id = Some j0 ∧ j_ID j0 = id ∧ j_Tenant j0 = tenant
    ∧ jobOf (jobs (db s)) id = Some j ∧ j = cancelled j0 t.

Lemma Cancel_tx tenant id s : Inv cfg s → closed s = false →
  wp (cancel_tx tenant id) (tx_post cfg s (cancel_post tenant id s)) s.
Proof.
  intros Hinv Hcl. unfold cancel_tx, signal.
  wp_step. apply (wp_readJob_inv cfg); [done| |by auto with mx].
  intros j Hj <- Ht Hji.
  assert (∀ t s1, same_store s s1 → j_State j ≠ Staging → j_State j ≠ Cancelled →
    wp (commit (bump (terminate j Cancelled "" t)) j) (tx_post cfg s (cancel_post tenant (j_ID j) s)) s1) as Hput.
  { intros t s1 Hs ??. eapply wp_commit; [done..| |].
    - apply terminate_legal; [|done]. by destruct (j_State j).
    - intros d ???. exists j, t. unfold cancelled. rewrite !bool_decide_eq_false_2 by done. by split_and!. }
  wp_go; bool_hyps; auto with mx; apply tx_post_ok; auto with mx; exists j, 0; unfold cancelled;
    (split_and!; [done..|]); by repeat case_bool_decide.
Qed.

Lemma cancelled_no_payload j t : needs_payload (j_State (cancelled j t)) = false.
Proof. unfold cancelled. repeat case_bool_decide; simpl; try done; by destruct (j_State j). Qed.

Lemma cancelled_identity j t : j_ID (cancelled j t) = j_ID j ∧ j_Tenant (cancelled j t) = j_Tenant j.
Proof. unfold cancelled. by case_match. Qed.

Lemma wp_Cancel tenant id s : Inv cfg s →
  wp (Cancel tenant id) (λ r s', Inv cfg s' ∧ updates s s' ∧ match r with
    | Ok j => cancel_post tenant id s j s'
              ∧ (j_State j ≠ Staging → spool s' !! blob_name id = None)
    | Err _ => True end) s.
Proof.
  intros Hinv. unfold Cancel. wp_pre.
  eapply (wp_mono _ (λ r s', Inv cfg s' ∧ updates s s' ∧ match r with
    | Ok j => cancel_post tenant id s j s'
    | Err _ => True end)).
  - eapply wp_tx; [done| |by intros]. eapply wp_mono; [by apply Cancel_tx|].
    intros [j|e] s' (?&?&Hp); (split; [done|split; [done|]]); [|done]. destruct Hp as (?&?&?). by split_and!.
  - intros [j|e] s' (Hinv'&Hup&Hp); [|done]. pose proof Hp as (j0&t&_&Hid&_&Hj&Heq).
    pose proof (cancelled_identity j0 t) as [Hid' _]. pose proof (cancelled_no_payload j0 t) as Hn.
    rewrite <- Heq in Hid', Hn. wp_step. case_match eqn:Hs; bool_hyps; [|by wp_go].
    rewrite Hid', Hid. apply wp_removePayload; [|done].
    assert (updates s {| s' with spool := delete (blob_name id) (spool s') |}) as Hup2.
    { etrans; [exact Hup|]. rewrite <- Hid, <- Hid'. apply updates_unlink; [done|congruence|done]. }
    assert (Inv cfg {| s' with spool := delete (blob_name id) (spool s') |}) as Hinv2.
    { apply Inv_unlink; [done|]. simpl. intros j' Hj'. by rewrite Hj in Hj'; simplify_eq. }
    intros [[]|e]; [|done]. wp_go; [|done]. split_and!; [done..|]. intros _. apply lookup_delete_eq.
Qed.

Lemma Cancel_maintains tenant id : maintains cfg (Cancel tenant id).
Proof.
  intros s Hinv. eapply wp_mono; [by apply wp_Cancel|]. intros r s' (?&?&_). done.
Qed.

Lemma record_deletion_legal j task outcome :
  terminal (j_State j) = true → t_ID task ∈ j_TaskIDs j → legal j (record_deletion j task outcome).
Proof.
  intros Ht Hin. unfold record_deletion.
  assert (job_inv j → j_DedupBarrier j = true) as Hb.
  { intros Hji. apply (ji_debt _ Hji). right. by intros Hn; rewrite Hn in Hin; apply elem_of_nil in Hin. }
  legal_tac.
  - by destruct (j_State j).
  - intros Hji. destruct (ji_acked _ Hji) as [Hnd Hsub].
    destruct (mem _ _) eqn:Hm; [by rewrite andb_false_r|]. apply mem_false in Hm.
    case_match; [|done]. split.
    + apply list.NoDup_app. split_and!; [done| |apply NoDup_singleton].
      intros x ? Hx. by apply list_elem_of_singleton in Hx as ->.
    + intros x [?|Hx]%elem_of_app; [auto|]. by apply list_elem_of_singleton in Hx as ->.
  - intros Hji. by repeat case_match.
  - intros Hji. by repeat case_match.
  - intros Hji _. unfold holds. by rewrite Hb.
Qed.

Theorem RecordDeletion_maintains tenant id version task state outcome :
  maintains cfg (RecordDeletion tenant id version task state outcome).
Proof.
  intros s Hinv. unfold RecordDeletion. wp_pre.
  eapply wp_tx; [done| |by intros]. wp_step. apply (wp_readJob_inv cfg); [done| |by auto with mx].
  intros j Hj <- Ht Hji. wp_go; auto with mx. bool_hyps.
  eapply wp_commit; [done|auto with mx|done| |].
  - apply record_deletion_legal; [done|]. by apply mem_true.
  - intros d ???. by wp_go.
Qed.

(** [Cancel] on a store satisfying the invariant: it returns only the caller's
    own job; a staged job is left to its writer, a cancelled one unchanged, and
    any other is terminated once (first terminal time kept, an attempt in
    flight turned into unknown debt) and stored as returned, its payload gone. *)
Theorem Cancel_spec tenant id s : Inv cfg s →
  wp (Cancel tenant id) (λ r s', Inv cfg s' ∧ updates s s' ∧ match r with
    | Ok j => cancel_post tenant id s j s'
              ∧ (j_State j ≠ Staging → spool s' !! blob_name id = None)
    | Err _ => True end) s.
Proof. apply wp_Cancel. Qed.

(** ** Maintenance *)

Lemma tombstone_legal j : terminal (j_State j) = true → settled j = false → legal j (bump (tombstone j)).
Proof.
  intros Ht Hs. unfold tombstone, bump. legal_tac.
  - by destruct (j_State j).
  - intros Hji _. unfold holds. unfold settled in Hs.
    destruct (j_UnknownDebt j) eqn:Hd; [by rewrite (ji_debt _ Hji) by auto|].
    simpl in Hs. bool_hyps. by rewrite (ji_owed _ Hji).
Qed.

Lemma settled_removable j :
  job_inv j → terminal (j_State j) = true → settled j = true → removable j.
Proof.
  intros Hji Ht Hs. unfold settled in Hs. bool_hyps.
  destruct (decide (j_Cleanup j = not_submitted)) as [Hc|Hc].
  - destruct (ji_cleanup _ Hji Hc). by repeat split.
  - rewrite (bool_decide_false _ Hc) in *. simpl in *. bool_hyps. by destruct (ji_purge _ Hji).
Qed.

(** The remaining jobs of a batch are still stored as they were read. *)
Definition pending_batch (l : list Job) (s : St) : Prop := batch_of (jobs (db s)) l.

Lemma batch_tail jb x l : batch_of jb (x :: l) → batch_of jb l ∧ jobOf jb (j_ID x) = Some x
  ∧ j_ID x ∉ j_ID <$> l.
Proof.
  intros [Hnd Hl]. apply NoDup_cons in Hnd as [? ?]. split_and!; [split; [done|]| |done].
  - intros j ?. apply Hl. by right.
  - apply Hl. left.
Qed.

Lemma batch_frame jb jb' x l : batch_of jb l → j_ID x ∉ j_ID <$> l →
  (∀ id, id ≠ j_ID x → jobOf jb' id = jobOf jb id) → batch_of jb' l.
Proof.
  intros [Hnd Hl] Hx Hf. split; [done|]. intros j Hj. rewrite Hf; [by apply Hl|].
  intros Heq. apply Hx. rewrite <- Heq. by apply list_elem_of_fmap_2.
Qed.

(** Loop invariant of the deadline batch, started in [s]. *)
Definition deadline_loop (s : St) (l : list Job) (s1 : St) : Prop :=
  Inv cfg s1 ∧ updates s s1 ∧ spool s1 = spool s ∧ liveAttempts s1 = liveAttempts s
  ∧ pending_batch l s1.

Lemma maintain_deadline_step s t x l s1 (Q : error → St → Prop) :
  deadline_loop s (x :: l) s1 →
  (∀ e s', deadline_loop s [] s' → Q e s') →
  wp (maintain_deadline t x) (λ r s', match r with Ok _ => deadline_loop s l s' | Err e => Q e s' end) s1.
Proof.
  intros (Hinv&Hup&Hsp&Hla&Hb) HQ. destruct (batch_tail _ _ _ Hb) as (Hl&Hx&Hnew).
  assert (batch_of (jobs (db s1)) []) by (split; [constructor|by intros ? ?%elem_of_nil]).
  unfold maintain_deadline, signal. wp_go; try by split_and!. bool_hyps.
  eapply (wp_putJob_legal cfg); [done|done| | |].
  - apply terminate_legal; [|done]. by destruct (j_State x).
  - intros d s' Hinv' Hup' Hj' Hne. split_and!; [done|by etrans|done|done|].
    by eapply batch_frame.
  - intros e. apply HQ. by split_and!.
Qed.

Lemma maintain_expire_tx s : Inv cfg s → wp maintain_expire (tx_post cfg s (λ _ _, True)) s.
Proof.
  intros Hinv. unfold maintain_expire. wp_go; auto with mx.
  apply wp_nextMaintenanceBatch; [apply Hinv| |by auto with mx].
  intros l c Hl _. wp_step. eapply (wp_iterM _ (deadline_loop s)).
  - unfold deadline_loop. split_and!; auto with mx.
  - intros x l' s' HI. eapply wp_mono; [eapply (maintain_deadline_step s _ _ _ _
      (λ e s', tx_post cfg s (λ _ _, True) (Err e : res (Time * string)) s')); [exact HI|]|].
    + intros e s2 (?&[_ ?]&Hsp&Hla&_). split; [by rewrite Hsp, Hla|done].
    + by intros [].
  - intros s' (?&Hup&Hsp&Hla&_). wp_go. pose proof Hup as [_ ?]. split; [by rewrite Hsp, Hla|done].
Qed.

(** Loop invariant of the cleanup batch: rows read in [s] may be rolled back,
    so the spool must suit both tables. *)
Definition cleanup_loop (s : St) (l : list Job) (s1 : St) : Prop :=
  InvOf cfg (jobs (db s)) (spool s1) (liveAttempts s1) ∧ files_kept s s1
  ∧ Inv cfg s1 ∧ evolves true nobody s s1 ∧ pending_batch l s ∧ pending_batch l s1.

Lemma cleanup_loop_tail s x l s1 : cleanup_loop s (x :: l) s1 → cleanup_loop s l s1.
Proof.
  intros (?&?&?&?&Hb&Hb1). destruct (batch_tail _ _ _ Hb) as (?&_&_), (batch_tail _ _ _ Hb1) as (?&_&_).
  by split_and!.
Qed.

Lemma cleanup_loop_stop s l s1 : cleanup_loop s l s1 → cleanup_loop s [] s1.
Proof. revert s1. induction l; intros s1 ?; [done|]. eauto using cleanup_loop_tail. Qed.

Lemma cleanup_loop_unlink s x l s1 : needs_payload (j_State x) = false → j_State x ≠ Staging →
  cleanup_loop s (x :: l) s1 →
  cleanup_loop s (x :: l) {| s1 with spool := delete (blob_name (j_ID x)) (spool s1) |}.
Proof.
  intros Hn Hst (Hr&Hf&Hi&He&Hb&Hb1).
  destruct (batch_tail _ _ _ Hb) as (_&Hx&_), (batch_tail _ _ _ Hb1) as (_&Hx1&_).
  pose proof (updates_unlink _ _ Hi Hx1 Hst) as Hup.
  assert (files_kept (with_db s1 (db s)) {| s1 with spool := delete (blob_name (j_ID x)) (spool s1) |}) as Hf2
    by (eapply (files_kept_unlink (jobs (db s))); [apply Hr|done..]).
  split_and!; [apply Inv_unlink; [done|]| |apply Inv_unlink; [done|]| |done..]; simpl.
  - intros j Hj. rewrite Hx in Hj. by simplify_eq.
  - intros id j Hj Hs. destruct (Hf _ _ Hj Hs), (Hf2 _ _ Hj Hs). split; cbn in *; congruence.
  - intros j Hj. rewrite Hx1 in Hj. by simplify_eq.
  - etrans; [exact He|]. by apply updates_evolves.
Qed.

Lemma evolves_delete own s x :
  jobOf (jobs (db s)) (j_ID x) = Some x → removable x →
  evolves true own s (with_db s {| (db s) with jobs := delete (j_ID x) (jobs (db s)) |}).
Proof.
  intros Hx Hrm. split.
  - intros id. simpl. destruct (decide (j_ID x = id)) as [<-|].
    + rewrite jobOf_delete_eq, Hx. by apply rtc_once, life_remove.
    + rewrite jobOf_delete_ne by done. apply rtc_refl.
  - intros id _ j Hj Hst. split; [|done]. exists j. split; [|apply rtc_refl]. simpl.
    rewrite jobOf_delete_ne; [done|]. intros <-. destruct Hrm as (Ht&_). simplify_eq.
    by rewrite Hst in Ht.
Qed.

Lemma delete_job_step s x l s1 (Q : error → St → Prop) :
  removable x → cleanup_loop s (x :: l) s1 → (∀ e s', cleanup_loop s [] s' → Q e s') →
  wp (delete_job (j_ID x) (j_Tenant x) (j_Version x))
     (λ r s', match r with Ok _ => cleanup_loop s l s' | Err e => Q e s' end) s1.
Proof.
  intros Hrm HI HQ. pose proof (cleanup_loop_tail _ _ _ _ HI) as HI'.
  destruct HI as (Hr&Hf&Hi&He&Hb&Hb1). destruct (batch_tail _ _ _ Hb) as (Hl&_&_), (batch_tail _ _ _ Hb1) as (Hl1&Hx1&Hnew).
  unfold delete_job. wp_go; [|done|done|by eapply HQ, cleanup_loop_stop].
  split_and!; [done|done|by apply Inv_delete|etrans; [exact He|by apply evolves_delete]|done|].
  unfold pending_batch. simpl. eapply batch_frame; [exact Hl1|exact Hnew|].
  intros. by rewrite jobOf_delete_ne.
Qed.

Lemma maintain_cleanup_step s t x l s1 (Q : error → St → Prop) :
  cleanup_loop s (x :: l) s1 → (∀ e s', cleanup_loop s [] s' → Q e s') →
  wp (maintain_cleanup t x) (λ r s', match r with Ok _ => cleanup_loop s l s' | Err e => Q e s' end) s1.
Proof.
  intros HI HQ.
  assert (∀ e s', cleanup_loop s (x :: l) s' → Q e s') as HQ' by eauto using cleanup_loop_stop.
  unfold maintain_cleanup. destruct (terminal (j_State x)) eqn:Ht; simpl.
  2:{ case_match eqn:Hst; [|apply wp_ret; eauto using cleanup_loop_tail].
      apply wp_removePayload; [intros r|eauto].
      assert (cleanup_loop s (x :: l) {| s1 with spool := delete (blob_name (j_ID x)) (spool s1) |})
        by (apply cleanup_loop_unlink; [by destruct (j_State x)..|done]).
      destruct r; eauto using cleanup_loop_tail. }
  apply wp_bind, wp_removePayload; [intros r|eauto].
  assert (needs_payload (j_State x) = false ∧ j_State x ≠ Staging) as [Hnp Hns] by (by destruct (j_State x)).
  pose proof (cleanup_loop_unlink _ _ _ _ Hnp Hns HI) as HI1. clear HI. revert HI1.
  generalize {| s1 with spool := delete (blob_name (j_ID x)) (spool s1) |}. intros s2 HI.
  destruct r as [_|e]; [|eauto].
  pose proof HI as (Hr&Hf&Hi&He&Hb&Hb1). destruct (batch_tail _ _ _ Hb1) as (Hl1&Hx1&Hnew).
  destruct (retained t x && settled x) eqn:Hdel.
  { bool_hyps. apply delete_job_step; [|done|done]. apply settled_removable; [|done..].
    by eapply (inv_jobs _ _ _ _ Hi). }
  case_bool_decide as Hsame; [apply wp_ret; eauto using cleanup_loop_tail|].
  destruct (retained t x); [|done]. simpl in Hdel.
  eapply (wp_putJob_legal cfg); [done|done|by apply tombstone_legal| |eauto].
  intros d s' Hinv' Hup Hj' Hne. destruct (cleanup_loop_tail _ _ _ _ HI) as (_&_&_&_&Hl&_).
  split_and!; [done|done|done| |done|exact (batch_frame _ _ _ _ Hl1 Hnew Hne)].
  etrans; [exact He|]. by apply updates_evolves.
Qed.

Lemma maintain_clean_tx t : keeps cfg (evolves true nobody) (transaction (maintain_clean t)).
Proof.
  intros s Hinv. assert (evolves true nobody s s) as Hrefl by reflexivity.
  assert (∀ s1, InvOf cfg (jobs (db s)) (spool s1) (liveAttempts s1) → files_kept s s1 →
    Inv cfg (with_db s1 (db s)) ∧ evolves true nobody s (with_db s1 (db s))) as Hroll.
  { intros s1 ??. split; [done|]. by apply updates_evolves, updates_rolled. }
  apply wp_transaction; [done|]. unfold maintain_clean. wp_go.
  apply wp_nextMaintenanceBatch; [apply Hinv| |intros e; by apply Hroll].
  intros l c Hl _. wp_step. eapply (wp_iterM _ (cleanup_loop s)).
  - split_and!; auto with mx. by intros ????.
  - intros x l' s' HI. eapply wp_mono; [eapply (maintain_cleanup_step s _ _ _ _
      (λ e s', Inv cfg (with_db s' (db s)) ∧ evolves true nobody s (with_db s' (db s)))); [exact HI|]|].
    + intros e s2 (?&?&_). by apply Hroll.
    + by intros [].
  - intros s' (?&?&?&?&_). wp_go. split_and!; [done..| |]; by apply Hroll.
Qed.

Lemma maintain_expire_maintains : maintains cfg (transaction maintain_expire).
Proof.
  intros s Hinv. eapply wp_tx; [done| |by intros].
  eapply wp_mono; [by apply maintain_expire_tx|].
  intros [a|e] s' (?&?&H'); (split; [done|split; [done|]]); [|done]. by destruct H' as (?&?&_).
Qed.

Lemma wp_Maintain : keeps cfg (evolves true nobody) Maintain.
Proof.
  assert (∀ f, (∀ s, same_store s (f s)) → keeps cfg (evolves true nobody) (modify f)) as Hmod.
  { intros f Hf s Hinv. wp_step. split; [by eapply Inv_same|]. by apply updates_evolves, same_store_updates. }
  assert (keeps cfg (evolves true nobody) (checkpoint : M unit)) as Hck by (intros s Hinv; by wp_go).
  assert (∀ t, keeps cfg (evolves true nobody) (cleanupCursor ← transaction (maintain_clean t);
    modify (λ s, {| s with maintenanceCleanupCursor := cleanupCursor |}) ;; checkpoint)) as Hclean.
  { intros t. apply (keeps_bind _ _); [apply maintain_clean_tx|]. intros c. apply (keeps_bind _ _); [|done].
    by apply Hmod. }
  assert (keeps cfg (evolves true nobody) (r ← transaction maintain_expire;
    modify (λ s, {| s with maintenanceDeadlineCursor := r.2 |}) ;;
    cleanupCursor ← transaction (maintain_clean r.1);
    modify (λ s, {| s with maintenanceCleanupCursor := cleanupCursor |}) ;; checkpoint)) as Hall.
  { apply (keeps_bind _ _); [by apply keeps_evolves, maintain_expire_maintains|]. intros r.
    apply (keeps_bind _ _); [by apply Hmod|done]. }
  intros s Hinv. unfold Maintain. apply wp_bind, wp_get. apply wp_bind, wp_reject; [|done].
  intros _. exact (Hall s Hinv).
Qed.

(** C34: [Maintain] keeps the invariant whatever fails, even between its two
    transactions; a job only moves along its life, a row disappears only when
    the job ended and owes nothing remotely, and the files of a body that is
    being written are left alone. *)
Theorem Maintain_evolves s : Inv cfg s → wp Maintain (λ _ s', Inv cfg s'
  ∧ (∀ id, rtc (life true) (jobOf (jobs (db s)) id) (jobOf (jobs (db s')) id))
  ∧ (∀ id j, jobOf (jobs (db s)) id = Some j → j_State j = Staging →
       (∃ j', jobOf (jobs (db s')) id = Some j' ∧ rtc legal j j') ∧ files_at id s s')) s.
Proof.
  intros Hinv. eapply wp_mono; [by apply wp_Maintain|]. intros r s' (Hinv'&Hl&Hk).
  split_and!; [done|done|]. intros id j. apply Hk. by intros [].
Qed.

End Lifecycle.
