(* ===== verification/CapeSubmission.v ===== *)
(** * Submission attempts

    [internal/cape/store_state.go]: [BeginSubmission], [TakeRequestToken] and
    [RecordSubmission], with [admissionGeneration] and
    [SetGenerationAdmission] of [scheduler_store.go]. *)

From Stdlib Require Import ZArith Lia SpecFloat.
From stdpp Require Import base gmap strings list numbers sorting.
From S2P Require Import Prelude GoStd CapeTypes CapeJob CapeStore CapeLogic CapeInv CapeLifecycle.

Local Open Scope Z_scope.

Section Submission.
Context {E : CapeEnv} (cfg : StoreConfig).

(** A paused generation is refused. *)
Definition admissionGeneration (generation : string) : M unit :=
  exec ;;
  s ← get;
  reject (bool_decide (generation ∈ admission_pause (db s))) (cerr Unauthorized).

Definition SetGenerationAdmission (generation : string) (enabled : bool) : M unit :=
  reject (negb (identifier generation 128)) (cerr Invalid) ;;
  s ← get;
  reject (closed s) (cerr Closed) ;;
  transaction (
    exec ;;
    modify_db (λ d, {| d with admission_pause :=
      if enabled then admission_pause d ∖ {[generation]} else {[generation]} ∪ admission_pause d |})).

(** ** [BeginSubmission] *)

Definition begin_job (j : Job) (now : Time) : Job :=
  {| j with
     j_State := Submitting;
     j_Version := j_Version j + 1;
     j_SubmissionVersion := j_Version j + 1;
     j_SubmissionRecorded := false;
     j_Attempts := j_Attempts j + 1;
     j_AttemptAt := now;
     j_NextAttempt := 0 |}.

Definition begin_tx (tenant id : string) (version : Z) : M Job :=
  j ← readJob id tenant;
  reject (bool_decide (j_State j ≠ Queued) || negb (j_Version j =? version)) ErrConflict ;;
  admissionGeneration (j_Generation j) ;;
  t ← now;
  reject (negb (Before t (j_QueueDeadline j)) || negb (Before t (j_AnalysisDeadline j))) (cerr Deadline) ;;
  reject (Before t (j_NextAttempt j)) (cerr Throttled) ;;
  s ← get;
  let all := Z.of_nat (size (liveAttempts s)) in
  let own := Z.of_nat (own_attempts (liveAttempts s) tenant) in
  reject ((c_SubmissionConcurrency cfg <=? all) || (c_TenantSubmissionConcurrency cfg <=? own)) (cerr Throttled) ;;
  takeToken "requests" (c_RequestsPerMinute cfg) t ;;
  takeToken "submits" (c_SubmitPerMinute cfg) t ;;
  takeToken (bucketName "tenant" tenant) (c_TenantSubmitPerMinute cfg) t ;;
  commit (begin_job j t) j.

Definition BeginSubmission (tenant id : string) (version : Z) : M Job :=
  s ← get;
  reject (closed s) (cerr Closed) ;;
  j ← transaction (begin_tx tenant id version);
  modify (λ s, {| s with liveAttempts := <[j_ID j := j_Tenant j]> (liveAttempts s) |}) ;;
  checkpoint ;;
  mret j.

Definition TakeRequestToken : M unit :=
  s ← get;
  reject (closed s) (cerr Closed) ;;
  transaction (t ← now; takeToken "requests" (c_RequestsPerMinute cfg) t).

(** ** [RecordSubmission] *)

(** [applySubmissionOutcome]; [j] is [previous] with the returned tasks. *)
Definition applySubmissionOutcome (j previous : Job) (submission : Submission)
    (outcome : Code) (invalid : bool) (backoff : Duration) : M Job :=
  let ntasks := Z.of_nat (length (sub_Tasks submission)) in
  if terminal (j_State previous) then
    mret (applyTerminalSubmission j previous submission outcome invalid)
  else if 1 <? ntasks then
    t ← clockNow;
    mret {| j with
      j_State := Failed; j_UnknownDebt := true; j_Reason := Protocol;
      j_Cleanup := remote_delete_failed;
      j_TerminalAt := if Before t (j_AttemptAt j) then j_AttemptAt j else t |}
  else if bool_decide (outcome = "") && negb invalid && negb (sub_UnknownDebt submission)
          && negb (sub_NoBytesSent submission) && (Z.of_nat (length (j_TaskIDs j)) =? 1) then
    mret {| j with j_State := RemotePending; j_Cleanup := remote_delete_pending |}
  else if bool_decide (outcome ≠ "") && sub_NoBytesSent submission && negb invalid
          && negb (sub_UnknownDebt submission) && (ntasks =? 0) then
    t ← now;
    let backoff := Z.max (5 * second) (Z.min backoff (5 * minute)) in
    mret {| j with
      j_State := Queued; j_Cleanup := not_submitted; j_DedupBarrier := false;
      j_NextAttempt := t + backoff |}
  else
    mret {| j with
      j_State := SubmitUncertain; j_UnknownDebt := true; j_Cleanup := remote_delete_failed;
      j_Reason := if bool_decide (j_Reason j = "") then Protocol else j_Reason j |}.

(** The job before the outcome is applied. *)
Definition recorded_job (j : Job) (submission : Submission) (outcome : Code) : Job * bool :=
  let '(ids, invalid) :=
    append_tasks (j_Generation j) (take (Z.to_nat MaxTaskIDs) (sub_Tasks submission)) []
      (j_TaskIDs j) (MaxTaskIDs <? Z.of_nat (length (sub_Tasks submission))) in
  ({| j with
      j_Version := j_Version j + 1;
      j_SubmissionRecorded := true;
      j_Reason := outcome;
      j_TaskIDs := ids;
      j_UnknownDebt := sub_UnknownDebt submission || invalid;
      j_DedupBarrier := true |}, invalid).

(** The attempt the caller reports is the one this job is waiting for. *)
Definition attempt_matches (j : Job) (version : Z) : bool :=
  negb ((version <? 1) || j_SubmissionRecorded j
        || bool_decide (j_State j ≠ Submitting) && negb (terminal (j_State j))
           && bool_decide (j_State j ≠ SubmitUncertain)
        || negb (j_SubmissionVersion j =? version)
           && negb ((j_SubmissionVersion j =? 0) && bool_decide (j_State j = Submitting)
                    && (j_Version j =? version))).

Definition recordSubmissionTx (tenant id : string) (version : Z) (submission : Submission)
    (outcome : Code) (backoff : Duration) : M Job :=
  previous ← readJob id tenant;
  reject (negb (attempt_matches previous version)) ErrConflict ;;
  let r := recorded_job previous submission outcome in
  j ← applySubmissionOutcome r.1 previous submission outcome r.2 backoff;
  commit j previous.

Definition RecordSubmission (tenant id : string) (version : Z) (submission : Submission)
    (outcome : Code) (backoff : Duration) : M Job :=
  s ← get;
  reject (closed s) (cerr Closed) ;;
  reject (negb (safeOutcome outcome) || (backoff <? 0)) (cerr Invalid) ;;
  j ← transaction (recordSubmissionTx tenant id version submission outcome backoff);
  modify (λ s, {| s with liveAttempts := delete (j_ID j) (liveAttempts s) |}) ;;
  (if bool_decide (j_State j = RemotePending) || terminal (j_State j)
   then removePayload (j_ID j) else mret ()) ;;
  checkpoint ;;
  mret j.

(** ** Live attempts *)

Lemma own_attempts_delete la k t : (own_attempts (delete k la) t ≤ own_attempts la t)%nat.
Proof.
  destruct (la !! k) as [o|] eqn:Hk; [|by rewrite delete_id].
  unfold own_attempts. rewrite <- (map_to_list_delete la k o Hk). csimpl.
  rewrite filter_cons. case_decide; simpl; lia.
Qed.

Lemma own_attempts_insert la k t0 t :
  (own_attempts (<[k := t0]> la) t ≤ own_attempts la t + if decide (t0 = t) then 1 else 0)%nat.
Proof.
  rewrite <- insert_delete_eq. pose proof (own_attempts_delete la k t). revert H.
  unfold own_attempts. rewrite (map_to_list_insert (delete k la) k t0) by apply lookup_delete_eq.
  csimpl. rewrite filter_cons. repeat case_decide; simpl; lia.
Qed.

Lemma live_delete la k : live_ok cfg la → live_ok cfg (delete k la).
Proof.
  intros [Hs Ht]. split.
  - destruct (la !! k) eqn:Hk; [|by rewrite delete_id].
    rewrite map_size_delete, Hk. lia.
  - intros t. pose proof (own_attempts_delete la k t). specialize (Ht t). lia.
Qed.

Lemma live_insert la k t0 :
  live_ok cfg la → Z.of_nat (size la) < c_SubmissionConcurrency cfg →
  Z.of_nat (own_attempts la t0) < c_TenantSubmissionConcurrency cfg →
  live_ok cfg (<[k := t0]> la).
Proof.
  intros [Hs Ht] Hall Hown. split.
  - rewrite map_size_insert. destruct (la !! k); simpl; lia.
  - intros t. pose proof (own_attempts_insert la k t0 t) as Hi. specialize (Ht t).
    case_decide; subst; lia.
Qed.

Lemma Inv_live s la : Inv cfg s → live_ok cfg la → Inv cfg {| s with liveAttempts := la |}.
Proof. intros [] ?. by constructor. Qed.

(** ** Recording an attempt is one legal update *)

Context {EOk : CapeEnvOk E}.

(** Every job [RecordSubmission] writes has this shape. *)
Definition recorded (p : Job) (st : JobState) (reason : Code) (ids : list Z) (debt barrier : bool)
    (cleanup : string) (terminalAt next : Time) : Job :=
  {| p with
     j_State := st; j_Version := j_Version p + 1; j_SubmissionRecorded := true;
     j_Reason := reason; j_TaskIDs := ids; j_UnknownDebt := debt; j_DedupBarrier := barrier;
     j_Cleanup := cleanup; j_TerminalAt := terminalAt; j_NextAttempt := next |}.

Record record_ok (p : Job) (st : JobState) (ids : list Z) (debt barrier : bool)
    (cleanup : string) (terminalAt : Time) : Prop := {
  ro_allowed : allowed (j_State p) st = true;
  ro_barrier : debt = true ∨ ids ≠ [] ∨ cleanup ≠ not_submitted → barrier = true;
  ro_uncertain : st = SubmitUncertain → debt = true;
  ro_queued : st = Queued → ids = [];
  ro_cleanup : cleanup = not_submitted → ids = [] ∧ debt = false;
  ro_purge : cleanup ≠ remote_purge_confirmed;
  ro_terminal : terminal (j_State p) = true → st = j_State p ∧ terminalAt = j_TerminalAt p
}.

Lemma attempt_matches_spec j version : attempt_matches j version = true →
  1 <= version ∧ j_SubmissionRecorded j = false
  ∧ (terminal (j_State j) = true ∨ in_flight (j_State j) = true)
  ∧ (j_SubmissionVersion j = version
     ∨ j_SubmissionVersion j = 0 ∧ j_State j = Submitting ∧ j_Version j = version).
Proof.
  unfold attempt_matches, in_flight. intros H. apply negb_true_iff in H.
  apply orb_false_iff in H as [H Hsv]. apply orb_false_iff in H as [H Hst]. bool_hyps.
  split_and!; [done|done| |].
  - apply andb_false_iff in Hst as [Hst|Hst]; [apply andb_false_iff in Hst as [Hst|Hst]|]; bool_hyps;
      [|by left|]; right; apply orb_true_iff; [left|right]; apply bool_decide_eq_true;
      by apply dec_stable.
  - apply andb_false_iff in Hsv as [Hsv|Hsv]; bool_hyps; tauto.
Qed.

Lemma recorded_legal p version st reason ids debt barrier cleanup terminalAt next :
  job_inv p → attempt_matches p version = true →
  NoDup ids → Forall (λ id, 1 <= id <= maxTaskID) ids → Z.of_nat (length ids) <= MaxTaskIDs →
  record_ok p st ids debt barrier cleanup terminalAt →
  legal p (recorded p st reason ids debt barrier cleanup terminalAt next).
Proof.
  intros Hji Ham Hnd Hr Hc [Hal Hb Hu Hq Hcl Hpu Ht].
  apply attempt_matches_spec in Ham as (Hv&Hrec&Hst&Hsv).
  assert (j_TaskIDs p = []) as Hnil by (apply (ji_unrecorded _ Hji); auto).
  assert (terminal (j_State p) = false → j_Result p = "" ∧ j_Suppressed p = false) as Hnt.
  { intros Hf. split.
    - destruct (decide (j_Result p = "")) as [|Hne]; [done|].
      destruct (ji_result _ Hji Hne) as [Hs _]. by rewrite Hs in Hf.
    - destruct (j_Suppressed p) eqn:Hs; [|done]. by rewrite (ji_suppressed _ Hji Hs) in Hf. }
  constructor; cbn; [by repeat split|by repeat split|done|done| | | | |by left].
  - intros _. constructor; cbn; auto.
    + intros [->|[->|?]]; [|by auto|done]. by apply allowed_to_staging in Hal; destruct Hst; rewrite Hal in *.
    + intros [?|?]; auto.
    + intros Hne. destruct (terminal (j_State p)) eqn:Hf; [|by destruct (Hnt eq_refl)].
      destruct (Ht eq_refl) as [-> _]. by apply (ji_result _ Hji).
    + intros Hs. destruct (terminal (j_State p)) eqn:Hf.
      * by destruct (Ht eq_refl) as [-> _].
      * destruct (Hnt eq_refl). congruence.
    + split; [apply (ji_acked _ Hji)|]. destruct (ji_acked _ Hji) as [_ Hs].
      rewrite Hnil in Hs. intros x Hx. by apply Hs, elem_of_nil in Hx.
    + apply (ji_reads _ Hji).
    + pose proof (ji_version _ Hji). lia.
    + intros ->. by apply (ji_staged _ Hji), allowed_to_staging.
  - intros _ _. destruct Hst as [Hst|Hst]; [|by apply in_flight_holds].
    unfold holds. assert (j_DedupBarrier p = true) as ->; [|done].
    destruct (ji_attempt _ Hji Hrec) as [Hf|?]; [|by destruct (j_State p)|done].
    destruct Hsv as [?|(_&Hs&_)]; [lia|]. by rewrite Hs in Hst.
  - intros _ Hf. by destruct (Ht Hf).
  - intros _. rewrite Hnil. apply prefix_nil.
Qed.

Lemma recorded_job_spec p submission outcome j invalid version :
  job_inv p → attempt_matches p version = true →
  recorded_job p submission outcome = (j, invalid) →
  ∃ ids debt, j = recorded p (j_State p) outcome ids debt true (j_Cleanup p) (j_TerminalAt p) (j_NextAttempt p)
    ∧ debt = sub_UnknownDebt submission || invalid
    ∧ NoDup ids ∧ Forall (λ id, 1 <= id <= maxTaskID) ids ∧ Z.of_nat (length ids) <= MaxTaskIDs
    ∧ (invalid = false → ids = t_ID <$> sub_Tasks submission
         ∧ Z.of_nat (length (sub_Tasks submission)) <= MaxTaskIDs
         ∧ Forall (λ t, t_Generation t = j_Generation p) (sub_Tasks submission)).
Proof.
  intros Hji (_&Hrec&_)%attempt_matches_spec Heq. unfold recorded_job in Heq.
  assert (j_TaskIDs p = []) as Hnil by (apply (ji_unrecorded _ Hji); auto).
  rewrite Hnil in Heq.
  destruct (append_tasks _ _ _ _ _) as [ids inv] eqn:Ha. simplify_eq.
  destruct (append_tasks_spec _ _ _ _ _ _ _ Ha) as (?&?&Hl&_&Hi); [constructor|by intros ? ?%elem_of_nil|done|].
  exists ids, (sub_UnknownDebt submission || invalid). split_and!; [reflexivity|done..| |].
  - rewrite length_take in Hl. cbn [length] in Hl. unfold MaxTaskIDs in *. lia.
  - intros Hf. destruct (Hi Hf) as (Hlen&->&Hg). bool_hyps.
    unfold MaxTaskIDs in *. rewrite !take_ge in * by lia. by split_and!.
Qed.

(** The outcome is applied by one legal update, whatever it is. *)
Lemma wp_applySubmissionOutcome p submission outcome version backoff (Q : res Job → St → Prop) s :
  job_inv p → attempt_matches p version = true →
  let r := recorded_job p submission outcome in
  (∀ j s', legal p j → same_store s s' → Q (Ok j) s') → (∀ e s', same_store s s' → Q (Err e) s') →
  wp (applySubmissionOutcome r.1 p submission outcome r.2 backoff) Q s.
Proof.
  intros Hji Ham r HQ HE. destruct r as [j invalid] eqn:Hr.
  destruct (recorded_job_spec _ _ _ _ _ _ Hji Ham Hr) as (ids&debt&->&Hd&Hnd&Hrg&Hlen&Hinv).
  clear Hr. cbn [fst snd].
  assert (∀ st reason debt barrier cleanup ta next s',
    record_ok p st ids debt barrier cleanup ta → same_store s s' →
    Q (Ok (recorded p st reason ids debt barrier cleanup ta next)) s') as Hput.
  { intros. apply HQ; [|done]. by eapply recorded_legal. }
  pose proof (attempt_matches_spec _ _ Ham) as (_&_&Hst&_).
  unfold applySubmissionOutcome.
  destruct (terminal (j_State p)) eqn:Ht.
  { wp_step. unfold applyTerminalSubmission. cbn [recorded j_TaskIDs j_UnknownDebt].
    case_match eqn:Hno; bool_hyps.
    - apply (Hput (j_State p) (j_Reason p) false false not_submitted (j_TerminalAt p) (j_NextAttempt p));
        [|by repeat split]. destruct (Hinv ltac:(done)) as (->&_&_).
      assert (sub_Tasks submission = []) as -> by (apply length_zero_iff_nil; lia).
      constructor; auto; try done; [by destruct (j_State p)|by intros [?|[?|?]]|by intros Hs; rewrite Hs in Ht].
    - eapply (Hput (j_State p) (j_Reason p)); [|by repeat split].
      constructor; auto; try done; [by destruct (j_State p)|by intros Hs; rewrite Hs in Ht|by intros Hs; rewrite Hs in Ht| |];
        by case_match. }
  destruct Hst as [?|Hst]; [done|].
  assert (∀ st, allowed Submitting st = true → allowed SubmitUncertain st = true → allowed (j_State p) st = true)
    as Hal by (intros; by destruct (j_State p)).
  wp_go; bool_hyps.
  - eapply (Hput Failed Protocol); [|by repeat split]. constructor; auto; try done; congruence.
  - eapply (Hput RemotePending outcome); [|by repeat split]. constructor; auto; try done; congruence.
  - eapply (Hput Queued outcome); [|by repeat split].
    destruct (Hinv ltac:(done)) as (->&_&_).
    assert (sub_Tasks submission = []) as -> by (apply length_zero_iff_nil; lia).
    assert (debt = false) as -> by (rewrite Hd; by apply orb_false_iff).
    constructor; auto; try done; [by intros [?|[?|?]]|congruence].
  - apply HE. by repeat split.
  - eapply (Hput SubmitUncertain); [|by repeat split]. constructor; auto; try done; congruence.
Qed.

Theorem RecordSubmission_maintains tenant id version submission outcome backoff :
  maintains cfg (RecordSubmission tenant id version submission outcome backoff).
Proof.
  intros s Hinv. unfold RecordSubmission. wp_pre.
  eapply (wp_mono _ (λ r s', Inv cfg s' ∧ updates s s' ∧ match r with
    | Ok j => jobOf (jobs (db s')) (j_ID j) = Some j | Err _ => True end)).
  - eapply wp_tx; [done| |by intros]. unfold recordSubmissionTx. wp_step.
    apply (wp_readJob_inv cfg); [done| |by auto with mx].
    intros j Hj <- Ht Hji. wp_step. wp_step; [|by auto with mx]. bool_hyps. wp_step.
    eapply wp_applySubmissionOutcome; [done..| |by auto with mx]. cbn beta iota.
    intros j' s' Hl Hs. eapply wp_commit; [done..|]. intros d Hd ??. split_and!; [done..|].
    by rewrite (proj1 (lg_identity _ _ Hl)).
  - intros [j|e] s' (Hinv'&Hup&Hj); [|done].
    assert (∀ la, Inv cfg {| s' with liveAttempts := delete la (liveAttempts s') |}) as Hd.
    { intros. apply Inv_live; [done|]. by apply live_delete, Hinv'. }
    wp_step. wp_step. wp_step. case_match eqn:Hst.
    + eapply (wp_unlink cfg s); [by apply Hd|exact Hup|exact Hj| | |].
      * apply orb_true_iff in Hst as [Hst|Hst]; bool_hyps; [by rewrite Hst|by destruct (j_State j)].
      * intros Hs. by rewrite Hs in Hst.
      * intros [[]|e] s1 Hinv1 Hup1 Hdb; [by apply wp_checkpoint_ret|done].
    + wp_step. apply wp_checkpoint_ret; [apply Hd|exact Hup].
Qed.

(** ** Beginning an attempt *)

Lemma begin_job_legal j t : j_State j = Queued → legal j (begin_job j t).
Proof.
  intros Hs. unfold begin_job. legal_tac.
  - by rewrite Hs.
  - intros Hji Hsu. pose proof (ji_suppressed _ Hji Hsu) as Ht. by rewrite Hs in Ht.
  - intros _ _. by apply needs_payload_holds; rewrite Hs.
Qed.

(** Every commit of [begin_tx] follows the concurrency check against the same
    set of live attempts. *)
Theorem BeginSubmission_maintains tenant id version : maintains cfg (BeginSubmission tenant id version).
Proof.
  intros s Hinv. unfold BeginSubmission. wp_pre.
  eapply (wp_mono _ (λ r s', Inv cfg s' ∧ updates s s' ∧ match r with
    | Ok j => Z.of_nat (size (liveAttempts s')) < c_SubmissionConcurrency cfg
              ∧ Z.of_nat (own_attempts (liveAttempts s') (j_Tenant j)) < c_TenantSubmissionConcurrency cfg
    | Err _ => True end)).
  - eapply wp_tx; [done| |by intros]. unfold begin_tx, admissionGeneration. wp_step.
    apply (wp_readJob_inv cfg); [done| |by auto with mx].
    intros j Hj <- Ht Hji. wp_go; auto with mx. bool_hyps.
    assert (j_State j = Queued) by (by apply dec_stable).
    eapply wp_commit; [done|auto with mx|done|by apply begin_job_legal|].
    intros d Hd ??. cbn in *. rewrite Ht. by split_and!.
  - intros [j|e] s' (Hinv'&Hup&Hc); [|done]. destruct Hc. wp_step. wp_step.
    assert (Inv cfg {| s' with liveAttempts := <[j_ID j := j_Tenant j]> (liveAttempts s') |}).
    { apply Inv_live; [done|]. apply live_insert; [|done..]. apply Hinv'. }
    by apply wp_checkpoint_ret.
Qed.

Theorem SetGenerationAdmission_maintains generation enabled :
  maintains cfg (SetGenerationAdmission generation enabled).
Proof.
  intros s Hinv. unfold SetGenerationAdmission. wp_pre. eapply wp_tx; [done| |by intros].
  wp_go; auto with mx.
Qed.

Theorem TakeRequestToken_maintains : maintains cfg TakeRequestToken.
Proof.
  intros s Hinv. unfold TakeRequestToken. wp_pre. eapply wp_tx; [done| |by intros].
  wp_go; auto with mx.
Qed.

(** ** What a begun attempt was checked against *)

Definition begun (tenant id : string) (version : Z) (s : St) (j' : Job) : Prop :=
  ∃ j t, jobOf (jobs (db s)) id = Some j ∧ j_Tenant j = tenant
  ∧ j_State j = Queued ∧ j_Version j = version ∧ j_Generation j ∉ admission_pause (db s)
  ∧ (∀ stamp, clock (db s) = Some stamp → time_Unix0 stamp <= t)
  ∧ t < j_QueueDeadline j ∧ t < j_AnalysisDeadline j ∧ j_NextAttempt j <= t
  ∧ Z.of_nat (size (liveAttempts s)) < c_SubmissionConcurrency cfg
  ∧ Z.of_nat (own_attempts (liveAttempts s) tenant) < c_TenantSubmissionConcurrency cfg
  ∧ j' = begin_job j t.

(** An attempt is begun only for a queued job of the caller's tenant at the
    version it knows, inside both deadlines and both concurrency limits, with
    its generation admitted; the attempt is then the job's and is live. *)
Theorem BeginSubmission_begins tenant id version s :
  Inv cfg s →
  wp (BeginSubmission tenant id version)
    (λ r s', ∀ j', r = Ok j' → begun tenant id version s j' ∧ jobOf (jobs (db s')) id = Some j'
       ∧ liveAttempts s' = <[id := tenant]> (liveAttempts s)) s.
Proof.
  intros Hinv. unfold BeginSubmission. wp_pre.
  eapply (wp_mono _ (λ r s', match r with
    | Ok j' => begun tenant id version s j' ∧ jobOf (jobs (db s')) id = Some j' ∧ j_ID j' = id
               ∧ j_Tenant j' = tenant ∧ liveAttempts s' = liveAttempts s
    | Err _ => True end)).
  - eapply wp_tx; [done| |by intros]. unfold begin_tx, admissionGeneration. wp_step.
    apply (wp_readJob_inv cfg); [done| |by auto with mx].
    intros j Hj <- Ht Hji. wp_go; auto with mx. bool_hyps.
    assert (j_State j = Queued) by (by apply dec_stable). unfold Before in *. bool_hyps.
    eapply wp_commit; [done|auto with mx|done|by apply begin_job_legal|].
    intros d Hd ??. cbn in *. split_and!; try done. exists j, t. split_and!; try done; lia.
  - intros [j|e] s' H'; [|done]. destruct H' as (Hb&Hj&Hid&Ht&Hl). wp_go; [|done].
    intros ? [= <-]. split_and!; [done|done|]. cbn. by rewrite Hid, Ht, Hl.
Qed.

(** ** What an attempt's outcome means *)

(** A task reference the endpoint may have returned for this job. *)
Definition valid_task (p : Job) (t : TaskRef) : Prop :=
  1 <= t_ID t <= maxTaskID ∧ t_Generation t = j_Generation p.

Lemma append_tasks_keeps generation tasks : ∀ seen ids invalid ids' invalid',
  append_tasks generation tasks seen ids invalid = (ids', invalid') → (∀ x, x ∈ seen → x ∈ ids) →
  (∀ x, x ∈ ids → x ∈ ids')
  ∧ ∀ t, t ∈ tasks → 1 <= t_ID t <= maxTaskID → t_Generation t = generation → t_ID t ∈ ids'.
Proof.
  induction tasks as [|t ts IH]; intros seen ids invalid ids' invalid' Ha Hs; simpl in Ha.
  { simplify_eq. split; [done|]. by intros ? ?%elem_of_nil. }
  destruct (_ || mem (t_ID t) seen) eqn:Hbad.
  - destruct (IH _ _ _ _ _ Ha Hs) as [Hi Ht]. split; [done|]. intros t' [->|?]%elem_of_cons Hr Hg; [|auto].
    apply orb_true_iff in Hbad as [Hbad|Hm%mem_true]; [|auto].
    rewrite bool_decide_false in Hbad by auto. bool_hyps. lia.
  - destruct (IH _ _ _ _ _ Ha) as [Hi Ht].
    { intros x [->|?]%elem_of_cons; apply elem_of_app; [right; apply list_elem_of_singleton; done|left; auto]. }
    split; [intros x ?; apply Hi, elem_of_app; auto|].
    intros t' [->|?]%elem_of_cons Hr Hg; [|auto]. apply Hi, elem_of_app. right. by apply list_elem_of_singleton.
Qed.

(** The classification of an outcome. *)
Record classified (p : Job) (submission : Submission) (outcome : Code) (j' : Job) : Prop := {
  cl_recorded : j_SubmissionRecorded j' = true;
  cl_kept : ∀ t, t ∈ take (Z.to_nat MaxTaskIDs) (sub_Tasks submission) → valid_task p t → t_ID t ∈ j_TaskIDs j';
  cl_requeued : j_State j' = Queued →
    sub_NoBytesSent submission = true ∧ sub_Tasks submission = [] ∧ sub_UnknownDebt submission = false
    ∧ outcome ≠ "" ∧ j_TaskIDs j' = [];
  cl_pending : j_State j' = RemotePending →
    outcome = "" ∧ sub_NoBytesSent submission = false ∧ sub_UnknownDebt submission = false
    ∧ ∃ t, sub_Tasks submission = [t] ∧ valid_task p t ∧ j_TaskIDs j' = [t_ID t];
  cl_released : j_DedupBarrier j' = false →
    sub_NoBytesSent submission = true ∧ sub_Tasks submission = [] ∧ sub_UnknownDebt submission = false;
  cl_terminal : terminal (j_State p) = true → j_State j' = j_State p ∧ j_Reason j' = j_Reason p
}.

(** The shape of what is recorded, and which of its fields an outcome may
    choose. *)
Lemma recorded_classified p submission outcome version st reason ids debt barrier cleanup ta next invalid j0 :
  job_inv p → attempt_matches p version = true → recorded_job p submission outcome = (j0, invalid) →
  j_TaskIDs j0 = ids →
  (st = Queued → invalid = false ∧ sub_NoBytesSent submission = true ∧ sub_Tasks submission = []
     ∧ sub_UnknownDebt submission = false ∧ outcome ≠ "") →
  (st = RemotePending → invalid = false ∧ outcome = "" ∧ sub_NoBytesSent submission = false
     ∧ sub_UnknownDebt submission = false ∧ length ids = 1%nat) →
  (barrier = false → sub_NoBytesSent submission = true ∧ sub_Tasks submission = [] ∧ sub_UnknownDebt submission = false) →
  (terminal (j_State p) = true → st = j_State p ∧ reason = j_Reason p) →
  classified p submission outcome (recorded p st reason ids debt barrier cleanup ta next).
Proof.
  intros Hji Ham Hr <- Hq Hp Hb Ht.
  destruct (recorded_job_spec _ _ _ _ _ _ Hji Ham Hr) as (ids&debt0&Hj0&_&_&Hf&_&Hinv).
  assert (j_TaskIDs j0 = ids) as Hids by (by rewrite Hj0). rewrite Hids in *. clear Hj0.
  assert (∀ t, t ∈ take (Z.to_nat MaxTaskIDs) (sub_Tasks submission) → valid_task p t → t_ID t ∈ ids) as Hkeep.
  { unfold recorded_job in Hr. destruct (append_tasks _ _ _ _ _) as [ids1 inv1] eqn:Ha. simplify_eq/=.
    intros t Hin [??]. eapply append_tasks_keeps; [exact Ha|by intros ? ?%elem_of_nil|done..]. }
  constructor; cbn; try done.
  - intros Hst. destruct (Hq Hst) as (Hi&?&Hn&?&?). split_and!; try done.
    destruct (Hinv Hi) as (->&_). by rewrite Hn.
  - intros Hst. destruct (Hp Hst) as (Hi&?&?&?&Hl). split_and!; try done.
    destruct (Hinv Hi) as (->&_&Hg). destruct (sub_Tasks submission) as [|t [|]] eqn:Hts; try done.
    csimpl in Hf. inversion Hf; inversion Hg; subst. exists t. by split_and!.
Qed.

Lemma wp_outcome_classified p submission outcome version backoff s :
  job_inv p → attempt_matches p version = true →
  let r := recorded_job p submission outcome in
  wp (applySubmissionOutcome r.1 p submission outcome r.2 backoff)
    (λ x _, match x with Ok j' => classified p submission outcome j' | Err _ => True end) s.
Proof.
  intros Hji Ham r. destruct r as [j invalid] eqn:Hr.
  destruct (recorded_job_spec _ _ _ _ _ _ Hji Ham Hr) as (ids&debt&Hj&Hd&_&_&_&Hinv).
  cbn [fst snd].
  assert (j_TaskIDs j = ids) as Hids by (by rewrite Hj).
  assert (Z.of_nat (length (sub_Tasks submission)) = 0 → sub_Tasks submission = []) as H0
    by (intros ?; apply length_zero_iff_nil; lia).
  pose proof (λ st reason debt barrier cleanup ta next, recorded_classified p submission outcome version st reason
    ids debt barrier cleanup ta next invalid j Hji Ham Hr Hids) as Hput.
  unfold applySubmissionOutcome. rewrite Hj. clear Hr.
  pose proof (attempt_matches_spec _ _ Ham) as (_&_&Hst&_).
  destruct (terminal (j_State p)) eqn:Ht.
  { wp_step. unfold applyTerminalSubmission. cbn [recorded j_TaskIDs j_UnknownDebt].
    assert (j_State p ≠ Queued ∧ j_State p ≠ RemotePending) as [??] by (by destruct (j_State p)).
    case_match eqn:Hno; bool_hyps.
    - apply (Hput (j_State p) (j_Reason p) false false not_submitted (j_TerminalAt p) (j_NextAttempt p)); try done.
      intros _. split_and!; auto.
    - by eapply (Hput (j_State p) (j_Reason p)). }
  destruct Hst as [?|Hst]; [done|]. wp_go; bool_hyps; try done.
  - by eapply (Hput Failed Protocol).
  - eapply (Hput RemotePending outcome); try done. intros _. split_and!; auto. cbn in *. lia.
  - eapply (Hput Queued outcome); try done; intros _; split_and!; auto.
  - by eapply (Hput SubmitUncertain).
Qed.

Lemma wp_RecordSubmission tenant id version submission outcome backoff s :
  Inv cfg s →
  wp (RecordSubmission tenant id version submission outcome backoff)
    (λ r s', ∀ j', r = Ok j' → ∃ p, jobOf (jobs (db s)) id = Some p ∧ j_Tenant p = tenant
       ∧ attempt_matches p version = true ∧ legal p j'
       ∧ classified p submission outcome j' ∧ jobOf (jobs (db s')) id = Some j'
       ∧ liveAttempts s' = delete id (liveAttempts s)) s.
Proof.
  intros Hinv. unfold RecordSubmission. wp_pre.
  eapply (wp_mono _ (λ r s', match r with
    | Ok j' => ∃ p, jobOf (jobs (db s)) id = Some p ∧ j_Tenant p = tenant ∧ attempt_matches p version = true
        ∧ legal p j' ∧ classified p submission outcome j' ∧ jobOf (jobs (db s')) id = Some j'
        ∧ j_ID j' = id ∧ liveAttempts s' = liveAttempts s
    | Err _ => True end)).
  - eapply wp_tx; [done| |by intros]. unfold recordSubmissionTx. wp_step.
    apply (wp_readJob_inv cfg); [done| |by auto with mx].
    intros j Hj <- Ht Hji. wp_step. wp_step; [|by auto with mx]. bool_hyps. wp_step.
    eapply wp_mono; [apply wp_and; [eapply (wp_applySubmissionOutcome _ _ _ _ _
      (λ r s', same_store s s' ∧ match r with Ok j' => legal j j' | Err _ => True end)); [done|done|auto|auto]|
      by eapply wp_outcome_classified]|].
    intros [j'|e] s' [[Hs Hl] Hc]; [|by auto with mx].
    eapply wp_commit; [done..|]. intros d Hd ??. exists j. split_and!; try done; [by destruct Hl as [[-> _]]|].
    destruct Hs as (_&_&Hla). exact Hla.
  - intros [j|e] s' H'; [|done]. destruct H' as (p&?&?&?&?&?&Hj&Hid&Hla). wp_step. wp_step. wp_step.
    eapply (wp_mono _ (λ _ s2, db s2 = db s' ∧ liveAttempts s2 = delete (j_ID j) (liveAttempts s'))).
    + case_match; [|by wp_step]. by apply wp_removePayload.
    + intros [[]|e] s2 [Hdb Hla2]; [|done]. wp_go; [|done]. intros ? [= <-]. exists p.
      rewrite Hdb, Hla2, Hid, Hla. by split_and!.
Qed.

(** C7: An attempt is recorded once, by the caller that began it.  Every valid
    task id returned is kept, even on failure; the job is queued for another
    attempt only on positive proof that no byte was sent and no task created;
    it is pending remotely only with exactly the one task that was returned;
    and without that proof the content stays barred from resubmission. *)
Theorem RecordSubmission_classifies tenant id version submission outcome backoff s :
  Inv cfg s →
  wp (RecordSubmission tenant id version submission outcome backoff)
    (λ r s', ∀ j', r = Ok j' → ∃ p, jobOf (jobs (db s)) id = Some p ∧ j_Tenant p = tenant
       ∧ attempt_matches p version = true ∧ legal p j'
       ∧ classified p submission outcome j' ∧ jobOf (jobs (db s')) id = Some j'
       ∧ liveAttempts s' = delete id (liveAttempts s)) s.
Proof. apply wp_RecordSubmission. Qed.

End Submission.
