(* ===== verification/CapeReport.v ===== *)
(** * Report transitions and signature policies

    [internal/cape/transitions.go] and [mapper.go]: the normalized result, the
    report identity, [RecordStatus], [CompleteReport], [recordReportError] and
    the signature mapper. *)

From Stdlib Require Import ZArith Lia SpecFloat.
From Stdlib Require Ascii.
From stdpp Require Import base gmap strings list numbers sorting.
From S2P Require Import Prelude GoStd CapeTypes CapeJob CapeJson CapeStore CapeLogic CapeInv CapeLifecycle.

Local Open Scope Z_scope.

Definition EvidenceMalicious : string := "malicious".
Definition EvidenceSuspicious : string := "suspicious".
Definition EvidenceNoSignal : string := "no_signal".

Record NormalizedResult := mkNormalized {
  n_Version : Z;
  n_Policy : string;
  n_Evidence : string;
  n_Signals : list string
}.

(** ** [json.Marshal] of a result whose strings need no escaping *)
Definition quoted (s : string) : string :=
  String (ascii_of_Z 34) (s +:+ String (ascii_of_Z 34) EmptyString).

Definition key_value (k v : string) : string := quoted k +:+ ":" +:+ v.

Fixpoint comma_separated (l : list string) : string :=
  match l with
  | [] => EmptyString
  | [x] => x
  | x :: l => x +:+ "," +:+ comma_separated l
  end.

Definition marshalResult (r : NormalizedResult) : string :=
  "{" +:+ comma_separated
    ([key_value "version" (FormatInt (n_Version r)); key_value "policy" (quoted (n_Policy r));
      key_value "evidence" (quoted (n_Evidence r))]
     ++ match n_Signals r with
        | [] => []
        | l => [key_value "signals" ("[" +:+ comma_separated (quoted <$> l) +:+ "]")]
        end) +:+ "}".

(** The evidence and the signals agree. *)
Definition evidence_matches (evidence : string) (signals : list string) : bool :=
  if bool_decide (evidence = EvidenceMalicious) || bool_decide (evidence = EvidenceSuspicious)
  then negb (Z.of_nat (length signals) =? 0)
  else bool_decide (evidence = EvidenceNoSignal) && (Z.of_nat (length signals) =? 0).

(** The loop over the signals: identifiers, none twice. *)
Fixpoint signals_valid (seen signals : list string) : bool :=
  match signals with
  | [] => true
  | s :: rest => identifier s 128 && negb (mem s seen) && signals_valid (s :: seen) rest
  end.

(** [normalizedBytes] *)
Definition normalizedBytes (result : NormalizedResult) (policy : string) : res string :=
  if negb (n_Version result =? 1) || bool_decide (n_Policy result ≠ policy)
     || negb (identifier policy 128) || (128 <? Z.of_nat (length (n_Signals result)))
  then Err (cerr Protocol)
  else if negb (evidence_matches (n_Evidence result) (n_Signals result)) then Err (cerr Protocol)
  else if negb (signals_valid [] (n_Signals result)) then Err (cerr Protocol)
  else let b := marshalResult result in
       if JobResultLimit <? len b then Err (cerr TooLarge) else Ok b.

(** ** Reports (protocol.go) *)
Record Report := mkReport {
  rp_document : list (string * json);
  rp_task : TaskRef;
  rp_digest : string
}.

(** The identity fields of the document: info, target and target.file. *)
Definition document_identity (doc : list (string * json)) (task : TaskRef) (digest : string) : bool :=
  let info := as_object (assoc_get "info" doc) in
  let target := as_object (assoc_get "target" doc) in
  let file := as_object (field target "file") in
  match taskID (field info "id") with
  | None => false
  | Some id =>
      (id =? t_ID task)
      && bool_decide (as_string (field info "category") = Some "file")
      && bool_decide (as_string (field target "category") = Some "file")
      && bool_decide (as_string (field file "sha256") = Some digest)
  end.

(** [reportIdentity]; [None] is the nil pointer. *)
Definition reportIdentity (r : option Report) (task : TaskRef) (digest : string) : bool :=
  match r with
  | None => false
  | Some r =>
      if bool_decide (rp_task r ≠ task) || bool_decide (hex_encode (rp_digest r) ≠ digest) then false
      else document_identity (rp_document r) task digest
  end.

(** ** The signature mapper (mapper.go) *)
Record SignatureRule := mkRule { sr_Name : string; sr_Signal : string; sr_Evidence : string }.

Record SignatureMapper := mkMapper { sm_policy : string; sm_rules : gmap string SignatureRule }.

Fixpoint add_rules (m : gmap string SignatureRule) (rules : list SignatureRule) : res (gmap string SignatureRule) :=
  match rules with
  | [] => Ok m
  | rule :: rest =>
      if negb (identifier (sr_Name rule) 128) || negb (identifier (sr_Signal rule) 128)
         || bool_decide (sr_Evidence rule ≠ EvidenceMalicious)
            && bool_decide (sr_Evidence rule ≠ EvidenceSuspicious)
      then Err (cerr Invalid)
      else if bool_decide (is_Some (m !! sr_Name rule)) then Err (cerr Invalid)
      else add_rules (<[sr_Name rule := rule]> m) rest
  end.

Definition NewSignatureMapper (policy : string) (rules : list SignatureRule) : res SignatureMapper :=
  if negb (identifier policy 128) || (Z.of_nat (length rules) =? 0) || (128 <? Z.of_nat (length rules))
  then Err (cerr Invalid)
  else match add_rules ∅ rules with
       | Ok m => Ok (mkMapper policy m)
       | Err e => Err e
       end.

(** The loop over the reported signatures.  [live] are the readings of
    [ctx.Err() == nil], one per iteration. *)
Fixpoint match_signatures (rules : gmap string SignatureRule) (live : nat → bool)
    (signatures : list json) (seen : gset string) (evidence : string) : res (gset string * string) :=
  match signatures with
  | [] => Ok (seen, evidence)
  | raw :: rest =>
      if negb (live 0%nat) then Err EOther
      else match as_object (Some raw) with
           | None => Err (cerr Protocol)
           | Some signature =>
               match as_string (assoc_get "name" signature) with
               | None => Err (cerr Protocol)
               | Some name =>
                   if negb (identifier name 128) then Err (cerr Protocol)
                   else match rules !! name with
                        | Some rule =>
                            match_signatures rules (λ n, live (S n)) rest ({[sr_Signal rule]} ∪ seen)
                              (if bool_decide (sr_Evidence rule = EvidenceMalicious)
                                  || bool_decide (evidence = EvidenceNoSignal)
                               then sr_Evidence rule else evidence)
                        | None => match_signatures rules (λ n, live (S n)) rest seen evidence
                        end
               end
           end
  end.

Definition string_le (a b : string) : Prop := String.le a b.
#[export] Instance string_le_dec : RelDecision string_le.
Proof. intros a b. unfold string_le. apply _. Defined.

(** [Normalize] *)
Definition Normalize (m : option SignatureMapper) (live : nat → bool) (report : option Report)
    (policy : string) : res NormalizedResult :=
  if negb (live 0%nat) then Err EOther
  else match m, report with
       | Some m, Some report =>
           if bool_decide (policy ≠ sm_policy m) then Err (cerr Protocol)
           else match as_array (assoc_get "signatures" (rp_document report)) with
                | None => Err (cerr Protocol)
                | Some signatures =>
                    if 4096 <? Z.of_nat (length signatures) then Err (cerr Protocol)
                    else match match_signatures (sm_rules m) (λ n, live (S n)) signatures ∅ EvidenceNoSignal with
                         | Err e => Err e
                         | Ok (seen, evidence) =>
                             let result := mkNormalized 1 policy evidence (merge_sort string_le (elements seen)) in
                             match normalizedBytes result policy with
                             | Err e => Err e
                             | Ok _ => Ok result
                             end
                         end
                end
       | _, _ => Err (cerr Protocol)
       end.

(** ** Transitions *)

(** The end of every transition. *)
Definition finish (j : Job) : Job := {| j with j_PollWakeAt := 0; j_Version := j_Version j + 1 |}.

Definition complete_job (j : Job) (result : string) (now : Time) : Job :=
  {| (terminate j Completed "" now) with j_Result := result |}.

(** The change of [RecordStatus]. *)
Definition status_change (status : string) (j : Job) (now : Time) : res Job :=
  if bool_decide (status = "reported") then Ok {| j with j_State := Fetching |}
  else if mem status ["pending"; "running"; "distributed"; "completed"; "recovered"; "distributed_completed"]
  then Ok j
  else if mem status ["banned"; "failed_analysis"; "failed_processing"; "failed_reporting"]
  then Ok (terminate j Failed Remote now)
  else Err (cerr Protocol).

(** The change of [CompleteReport]. *)
Definition complete_change (outcome : Code) (result : string) (j : Job) (now : Time) : res Job :=
  if bool_decide (outcome ≠ "") then Ok (terminate j Failed outcome now)
  else Ok (complete_job j result now).

(** The change of [recordReportError]. *)
Definition error_change (code : Code) (j : Job) (now : Time) : res Job :=
  Ok {| j with j_Reason := code |}.

Section Transitions.
Context {E : CapeEnv}.

(** The guard of [CompleteReport] and [transitionReport]. *)
Definition snapshot_matches (j : Job) (version : Z) (expected : JobState) (task : TaskRef) : bool :=
  negb (negb (j_Version j =? version) || bool_decide (j_State j ≠ expected) || j_Suppressed j
        || negb (singleOwnedTask j task)).

Definition transition_tx (tenant id : string) (version : Z) (task : TaskRef) (expected : JobState)
    (change : Job → Time → res Job) : M Job :=
  j ← readJob id tenant;
  reject (negb (snapshot_matches j version expected task)) ErrConflict ;;
  t ← now;
  reject (negb (Before t (j_AnalysisDeadline j))) (cerr Deadline) ;;
  j' ← of_res (change j t);
  commit (finish j') j.

(** [transitionReport] *)
Definition transitionReport (tenant id : string) (version : Z) (task : TaskRef) (expected : JobState)
    (change : Job → Time → res Job) : M Job :=
  s ← get;
  reject (closed s) (cerr Closed) ;;
  j ← transaction (transition_tx tenant id version task expected change);
  checkpoint ;;
  mret j.

Definition RecordStatus (tenant id : string) (version : Z) (task : TaskRef) (status : string) : M Job :=
  transitionReport tenant id version task RemotePending (status_change status).

(** A trusted mapper may change the report it is given. *)
Definition ResultMapper : Type := Report → string → Report * res NormalizedResult.

(** What normalization outside the lock yields: the result and the outcome. *)
Definition normalize_outcome (j : Job) (task : TaskRef) (report : option Report)
    (mapper : option ResultMapper) : string * Code :=
  match report, mapper with
  | Some r, Some f =>
      if reportIdentity report task (j_Digest j) then
        match f r (j_ResultPolicy j) with
        | (r', Ok normalized) =>
            if reportIdentity (Some r') task (j_Digest j) then
              match normalizedBytes normalized (j_ResultPolicy j) with
              | Ok b => (b, "")
              | Err _ => ("", Protocol)
              end
            else ("", Protocol)
        | (_, Err _) => ("", Protocol)
        end
      else ("", Protocol)
  | _, _ => ("", Protocol)
  end.

(** [CompleteReport]; the lock is free between the lookup and the transition,
    [others] is what the rest of the process does to the store meanwhile. *)
Definition CompleteReport (others : M unit) (tenant id : string) (version : Z) (task : TaskRef)
    (report : option Report) (mapper : option ResultMapper) : M Job :=
  j ← Lookup tenant id;
  reject (negb (snapshot_matches j version Fetching task)) ErrConflict ;;
  let r := normalize_outcome j task report mapper in
  others ;;
  transitionReport tenant id version task Fetching (complete_change r.2 r.1).

Definition recordReportError (tenant id : string) (version : Z) (task : TaskRef) (code : Code) : M Job :=
  let code := if bool_decide (code = "") || negb (safeOutcome code) then Transport else code in
  transitionReport tenant id version task Fetching (error_change code).

(** ** Every transition is legal *)
Context {EOk : CapeEnvOk E} (cfg : StoreConfig).

Definition change_legal (expected : JobState) (change : Job → Time → res Job) : Prop :=
  ∀ j t j', j_State j = expected → j_Suppressed j = false → change j t = Ok j' → legal j (finish j').

Lemma inv_wake j w r : job_inv j → job_inv {| j with j_PollWakeAt := w; j_Reason := r |}.
Proof. intros []. by constructor. Qed.

(** The poll hint and the reason are free. *)
Lemma legal_wake j j1 w r : legal j j1 → legal j {| j1 with j_PollWakeAt := w; j_Reason := r |}.
Proof. intros []. constructor; auto. intros. by apply inv_wake; auto. Qed.

Lemma legal_result j j1 r : legal j j1 → j_State j1 = Completed → j_Suppressed j1 = false →
  legal j {| j1 with j_Result := r |}.
Proof.
  intros [] Hs Hsup. constructor; auto. intros Hji. destruct (lg_inv Hji). by constructor.
Qed.

Lemma finish_terminate_legal j st reason t :
  allowed (j_State j) st = true → terminal st = true → legal j (finish (terminate j st reason t)).
Proof. intros. exact (legal_wake _ _ 0 reason (terminate_legal _ _ reason t H H0)). Qed.

(** A poll that keeps the job where it is. *)
Lemma finish_legal j r : legal j (finish {| j with j_Reason := r |}).
Proof.
  unfold finish. legal_tac. apply orb_true_iff; left; by apply bool_decide_eq_true.
Qed.

Lemma status_change_legal status : change_legal RemotePending (status_change status).
Proof.
  intros j t j' Hs Hsup Hc. unfold status_change in Hc. repeat case_match; simplify_eq.
  - unfold finish. legal_tac.
    + by rewrite Hs.
    + intros Hji Hr Hv. destruct (ji_attempt _ Hji Hr Hv) as [Hf|]; [by rewrite Hs in Hf|by right].
    + intros Hji _. unfold holds. rewrite Hs. by rewrite orb_true_r.
  - exact (finish_legal j' (j_Reason j')).
  - apply finish_terminate_legal; [by rewrite Hs|done].
Qed.

Lemma complete_change_legal outcome result : change_legal Fetching (complete_change outcome result).
Proof.
  intros j t j' Hs Hsup Hc. unfold complete_change in Hc. case_match; simplify_eq.
  - apply finish_terminate_legal; [by rewrite Hs|done].
  - apply (legal_result j (finish (terminate j Completed "" t))); [|done|].
    + apply finish_terminate_legal; [by rewrite Hs|done].
    + cbn. by rewrite Hsup.
Qed.

Lemma error_change_legal code : change_legal Fetching (error_change code).
Proof. intros j t j' Hs Hsup Hc. unfold error_change in Hc. simplify_eq. apply finish_legal. Qed.

Lemma snapshot_matches_spec j version expected task : snapshot_matches j version expected task = true →
  j_Version j = version ∧ j_State j = expected ∧ j_Suppressed j = false ∧ singleOwnedTask j task = true.
Proof.
  unfold snapshot_matches. intros H. bool_hyps. split_and!; auto. by apply dec_stable.
Qed.

(** A transition writes one legal update of exactly the snapshot it was
    computed for, or nothing. *)
Lemma wp_transition_tx tenant id version task expected change s :
  Inv cfg s → change_legal expected change →
  wp (transition_tx tenant id version task expected change)
    (tx_post cfg s (λ j' s', ∃ j t j1, jobOf (jobs (db s)) id = Some j
       ∧ snapshot_matches j version expected task = true ∧ j_Tenant j = tenant
       ∧ t < j_AnalysisDeadline j ∧ change j t = Ok j1 ∧ j' = finish j1
       ∧ jobOf (jobs (db s')) id = Some j')) s.
Proof.
  intros Hinv Hch. unfold transition_tx. wp_step.
  apply (wp_readJob_inv cfg); [done| |by auto with mx]. intros j Hj <- Ht Hji.
  wp_go; auto with mx. bool_hyps.
  destruct (snapshot_matches_spec _ _ _ _ H) as (?&?&?&?).
  destruct (change j t) as [a|e] eqn:Hc; [|by auto with mx].
  assert (legal j (finish a)) as Hl by (eapply Hch; eauto).
  eapply wp_commit; [done|auto with mx|done|done|]. intros d Hd ??.
  exists j, t, a. unfold Before in H1. split_and!; auto; lia.
Qed.

Lemma transitionReport_maintains tenant id version task expected change :
  change_legal expected change → maintains cfg (transitionReport tenant id version task expected change).
Proof.
  intros Hch s Hinv. unfold transitionReport. wp_pre. eapply wp_tx; [done| |by intros].
  eapply wp_mono; [by apply wp_transition_tx|]. intros [j|e] s' (?&?&H'); (split; [done|split; [done|]]); [|done].
  destruct H' as (?&?&_). split_and!; [done..|]. by wp_go.
Qed.

Theorem RecordStatus_maintains tenant id version task status :
  maintains cfg (RecordStatus tenant id version task status).
Proof. apply transitionReport_maintains, status_change_legal. Qed.

Theorem recordReportError_maintains tenant id version task code :
  maintains cfg (recordReportError tenant id version task code).
Proof. apply transitionReport_maintains, error_change_legal. Qed.

Lemma CompleteReport_evolves rm own others tenant id version task report mapper :
  keeps cfg (evolves rm own) others →
  keeps cfg (evolves rm own) (CompleteReport others tenant id version task report mapper).
Proof.
  intros Ho. unfold CompleteReport, reject.
  apply (keeps_bind cfg (evolves rm own)); [auto with mx|]. intros j. apply (keeps_bind cfg (evolves rm own)); [auto with mx|].
  intros _. apply (keeps_bind cfg (evolves rm own)); [done|]. intros _.
  apply keeps_evolves, transitionReport_maintains, complete_change_legal.
Qed.

(** The two ways a report can end a job. *)
Definition report_outcome (task : TaskRef) (report : option Report) (mapper : option ResultMapper)
    (version : Z) (j : Job) : Prop :=
  j_Version j = version + 1 ∧
  ((j_State j = Completed ∧ j_Reason j = ""
    ∧ ∃ r f r' n, report = Some r ∧ mapper = Some f ∧ reportIdentity report task (j_Digest j) = true
        ∧ f r (j_ResultPolicy j) = (r', Ok n) ∧ reportIdentity (Some r') task (j_Digest j) = true
        ∧ normalizedBytes n (j_ResultPolicy j) = Ok (j_Result j))
   ∨ (j_State j = Failed ∧ j_Reason j = Protocol ∧ j_Result j = "")).

Lemma normalize_outcome_spec j task report mapper b c : normalize_outcome j task report mapper = (b, c) →
  (c = "" ∧ ∃ r f r' n, report = Some r ∧ mapper = Some f ∧ reportIdentity report task (j_Digest j) = true
        ∧ f r (j_ResultPolicy j) = (r', Ok n) ∧ reportIdentity (Some r') task (j_Digest j) = true
        ∧ normalizedBytes n (j_ResultPolicy j) = Ok b)
  ∨ (c = Protocol).
Proof.
  unfold normalize_outcome. intros H. repeat case_match; simplify_eq; auto.
  left. split; [done|]. by eauto 10.
Qed.

(** C32: [CompleteReport] ends the job it was called for, exactly once, with
    either the accepted evidence of a report whose identity was checked before
    and after mapping, or as failed; what others committed in between is never
    overwritten. *)
Theorem CompleteReport_outcome own others tenant id version task report mapper s :
  Inv cfg s → keeps cfg (evolves false own) others →
  wp (CompleteReport others tenant id version task report mapper)
    (λ r s', ∀ j', r = Ok j' → jobOf (jobs (db s')) id = Some j' ∧ j_Tenant j' = tenant
                               ∧ report_outcome task report mapper version j') s.
Proof.
  intros Hinv Ho. unfold CompleteReport, Lookup. wp_go; try done.
  apply (wp_readJob_inv cfg); [done| |done]. intros j Hj <- Ht Hji. wp_go; try done.
  assert (j_State j ≠ Staging) as Hns.
  { destruct (snapshot_matches_spec j version Fetching task) as (_&->&_); [by bool_hyps|done]. }
  eapply wp_mono; [by apply Ho|]. intros [[]|e] s1 [Hinv1 Hup]; [|done].
  unfold transitionReport. wp_pre.
  eapply wp_mono with (P := λ r s', match r with Ok j' => jobOf (jobs (db s')) (j_ID j) = Some j'
      ∧ j_Tenant j' = tenant ∧ report_outcome task report mapper version j' | Err _ => True end).
  2:{ intros [j'|e] s' H'; [|done]. wp_go; [|done]. by intros ? [= <-]. }
  eapply wp_tx; [done| |by intros].
  eapply wp_mono; [eapply wp_transition_tx; [done|apply complete_change_legal]|].
  intros [j'|e] s' (?&?&H'); (split; [done|split; [done|]]); [|done].
  destruct H' as (?&?&j1&t&j2&Hj1&Hm&Htn&_&Hc&->&Hj'). split_and!; [done..| |].
  - unfold complete_change in Hc. by case_match; simplify_eq.
  - destruct (snapshot_matches_spec _ _ _ _ Hm) as (Hv&Hst&Hsup&_).
    destruct (evolves_stays _ _ _ Hup _ _ Hj Hns) as (j3&Hj3&Hr). rewrite Hj1 in Hj3. simplify_eq.
    destruct (legal_rtc_identity _ _ Hr) as [(_&_&_&_&Hrp&_) Hd].
    destruct (normalize_outcome j task report mapper) as [b c] eqn:Hn.
    unfold complete_change in Hc. cbn [fst snd] in Hc.
    apply normalize_outcome_spec in Hn as [[-> (r&f&r'&n&?&?&?&?&?&?)]| ->].
    + rewrite bool_decide_false in Hc by auto. simplify_eq. split; [done|]. left. cbn.
      rewrite Hd, Hrp. split_and!; [done..|]. by exists r, f, r', n.
    + simplify_eq/=. split; [done|]. right. by split_and!.
Qed.

End Transitions.

(** ** Normalized results *)

Lemma signals_valid_spec seen signals : signals_valid seen signals = true ↔
  Forall (λ s, identifier s 128 = true) signals ∧ NoDup signals ∧ ∀ s, s ∈ signals → s ∉ seen.
Proof.
  revert seen. induction signals as [|s l IH]; intros seen; simpl.
  - split; [|done]. intros _. split_and!; [constructor..|]. by intros ? ?%elem_of_nil.
  - rewrite !andb_true_iff, IH, negb_true_iff, mem_false, Forall_cons, list.NoDup_cons. split.
    + intros [[? Hs] (?&?&Hl)]. split_and!; auto.
      * intros Hin. by apply (Hl s Hin); left.
      * intros x [->|Hx]%elem_of_cons; [done|]. intros ?. by apply (Hl x Hx); right.
    + intros ([??]&[??]&Hl). split_and!; auto; [by apply Hl; left|].
      intros x Hx [->|?]%elem_of_cons; [done|]. by apply (Hl x); [right|].
Qed.

Lemma normalizedBytes_iff r policy b : normalizedBytes r policy = Ok b ↔
  n_Version r = 1 ∧ n_Policy r = policy ∧ identifier policy 128 = true
  ∧ Z.of_nat (length (n_Signals r)) <= 128
  ∧ ((n_Evidence r = EvidenceMalicious ∨ n_Evidence r = EvidenceSuspicious) ∧ n_Signals r ≠ []
     ∨ n_Evidence r = EvidenceNoSignal ∧ n_Signals r = [])
  ∧ Forall (λ s, identifier s 128 = true) (n_Signals r) ∧ NoDup (n_Signals r)
  ∧ b = marshalResult r ∧ len b <= JobResultLimit.
Proof.
  unfold normalizedBytes.
  assert (evidence_matches (n_Evidence r) (n_Signals r) = true ↔
    (n_Evidence r = EvidenceMalicious ∨ n_Evidence r = EvidenceSuspicious) ∧ n_Signals r ≠ []
     ∨ n_Evidence r = EvidenceNoSignal ∧ n_Signals r = []) as Hev.
  { unfold evidence_matches.
    assert ((Z.of_nat (length (n_Signals r)) =? 0) = true ↔ n_Signals r = []) as Hz
      by (rewrite Z.eqb_eq; destruct (n_Signals r); simpl; split; done || lia).
    destruct (_ || _) eqn:Hm.
    - apply orb_true_iff in Hm. rewrite !bool_decide_eq_true in Hm. rewrite negb_true_iff.
      rewrite <- not_true_iff_false, Hz.
      split; [by left|]. intros [[_ ?]|[He _]]; [done|]. by rewrite He in Hm; destruct Hm.
    - bool_hyps. rewrite andb_true_iff, bool_decide_eq_true, Hz. split; [by right|].
      intros [[[?|?] _]|?]; done. }
  pose proof (signals_valid_spec [] (n_Signals r)) as Hsv.
  destruct (negb _ || _ || _ || _) eqn:H1.
  { split; [done|]. intros (Hv&Hp&Hi&Hl&_). exfalso.
    rewrite Hv, Hi, bool_decide_false in H1 by auto. simpl in H1. bool_hyps. lia. }
  bool_hyps. assert (n_Policy r = policy) by (by apply dec_stable).
  destruct (evidence_matches _ _) eqn:He; cbn [negb].
  2:{ split; [done|]. intros (_&_&_&_&H'&_). by apply Hev in H'. }
  destruct (signals_valid _ _) eqn:Hs; cbn [negb].
  2:{ split; [done|]. intros (_&_&_&_&_&Hf&Hn&_).
      assert (false = true) as [=] by (apply Hsv; split_and!; auto using not_elem_of_nil). }
  apply proj1 in Hev, Hsv. specialize (Hev eq_refl). destruct (Hsv eq_refl) as (?&?&_).
  destruct (_ <? _) eqn:Hlen; bool_hyps.
  - split; [done|]. intros (_&_&_&_&_&_&_&->&?). lia.
  - split; [|intros (_&_&_&_&_&_&_&->&_); done]. intros [= <-]. by split_and!.
Qed.

(** What [normalizedBytes] accepts, in full. *)
Theorem normalizedBytes_spec r policy b : normalizedBytes r policy = Ok b ↔
  n_Version r = 1 ∧ n_Policy r = policy ∧ identifier policy 128 = true
  ∧ Z.of_nat (length (n_Signals r)) <= 128
  ∧ ((n_Evidence r = EvidenceMalicious ∨ n_Evidence r = EvidenceSuspicious) ∧ n_Signals r ≠ []
     ∨ n_Evidence r = EvidenceNoSignal ∧ n_Signals r = [])
  ∧ Forall (λ s, identifier s 128 = true) (n_Signals r) ∧ NoDup (n_Signals r)
  ∧ b = marshalResult r ∧ len b <= JobResultLimit.
Proof. apply normalizedBytes_iff. Qed.

(** ** The signature policy *)

(** The names a report carries, and the rule each triggers. *)
Definition signature_name (raw : json) : option string :=
  as_object (Some raw) ≫= λ m, as_string (assoc_get "name" m).

Definition report_names (report : Report) : list string :=
  omap signature_name (default [] (as_array (assoc_get "signatures" (rp_document report)))).

Definition rule_matches (names : list string) (rule : SignatureRule) : Prop := sr_Name rule ∈ names.

Lemma add_rules_spec rules : ∀ m m', add_rules m rules = Ok m' →
  (∀ name rule, m !! name = Some rule → sr_Name rule = name) →
  (∀ name rule, m' !! name = Some rule ↔ m !! name = Some rule ∨ rule ∈ rules ∧ sr_Name rule = name)
  ∧ Forall (λ rule, sr_Evidence rule = EvidenceMalicious ∨ sr_Evidence rule = EvidenceSuspicious) rules.
Proof.
  induction rules as [|rule rules IH]; intros m m' Hadd Hm; simpl in Hadd.
  { simplify_eq. split; [|done]. intros name rule. split; [by left|].
    by intros [?|[?%elem_of_nil _]]. }
  destruct (_ || _ && _) eqn:Hbad; [done|]. case_bool_decide as Hnew; [done|].
  rewrite <- eq_None_not_Some in Hnew.
  destruct (IH _ _ Hadd) as [Hl Hf].
  { intros name r Hr. apply lookup_insert_Some in Hr as [[<- <-]|[_ ?]]; auto. }
  split.
  - intros name r. rewrite Hl, lookup_insert_Some, elem_of_cons. split.
    + intros [[[<- <-]|[_ ?]]|[? ?]]; auto.
    + intros [Hr|[[->|?] <-]]; auto. left. right. split; [|done]. intros <-. congruence.
  - constructor; [|done]. bool_hyps. apply andb_false_iff in H0 as [H0|H0]; bool_hyps;
      [left|right]; by apply dec_stable.
Qed.

(** The evidence after the loop, from the evidence before it. *)
Lemma match_signatures_spec rules signatures : ∀ live seen evidence seen' evidence',
  (∀ name rule, rules !! name = Some rule →
     sr_Evidence rule = EvidenceMalicious ∨ sr_Evidence rule = EvidenceSuspicious) →
  match_signatures rules live signatures seen evidence = Ok (seen', evidence') →
  let hits := omap (λ name, rules !! name) (omap signature_name signatures) in
  seen' ≡ list_to_set (sr_Signal <$> hits) ∪ seen
  ∧ (evidence' = EvidenceMalicious ↔
       evidence = EvidenceMalicious ∨ Exists (λ rule, sr_Evidence rule = EvidenceMalicious) hits)
  ∧ (evidence' = EvidenceNoSignal ↔ evidence = EvidenceNoSignal ∧ hits = []).
Proof.
  induction signatures as [|raw rest IH]; intros live seen evidence seen' evidence' Hr Hm; simpl in Hm.
  { simplify_eq. simpl. split_and!; [set_solver| |tauto]. rewrite Exists_nil. tauto. }
  destruct (live 0%nat); [|done]. cbn [negb] in Hm.
  change (omap signature_name (raw :: rest)) with
    (match signature_name raw with Some n => n :: omap signature_name rest | None => omap signature_name rest end).
  unfold signature_name at 1. destruct (as_object (Some raw)) as [sig|] eqn:Ho; [|by destruct raw].
  destruct raw; try done. simplify_eq/=.
  destruct (as_string (assoc_get "name" sig)) as [name|]; [|done].
  destruct (identifier name 128); [|done]. cbn [negb] in Hm. csimpl.
  destruct (rules !! name) as [rule|] eqn:Hn.
  - apply IH in Hm as (Hs&Hmal&Hno); [|done]. cbn zeta in *. csimpl. split_and!.
    + rewrite Hs. set_solver.
    + rewrite Hmal, Exists_cons. repeat case_bool_decide; simpl; naive_solver.
    + rewrite Hno. destruct (Hr _ _ Hn) as [He|He]; rewrite He.
      * cbn. split; [by intros [??]|by intros [_ [=]]].
      * repeat case_bool_decide; simpl; naive_solver.
  - by apply IH in Hm.
Qed.

(** A signature policy reports exactly the configured signals that matched,
    malicious exactly when a malicious rule did, and nothing of the report. *)
Theorem Normalize_spec rules policy m live report n :
  NewSignatureMapper policy rules = Ok m →
  Normalize (Some m) live (Some report) policy = Ok n →
  n_Version n = 1 ∧ n_Policy n = policy
  ∧ (∀ s, s ∈ n_Signals n ↔ ∃ rule, rule ∈ rules ∧ rule_matches (report_names report) rule ∧ sr_Signal rule = s)
  ∧ (n_Evidence n = EvidenceMalicious ↔
       ∃ rule, rule ∈ rules ∧ rule_matches (report_names report) rule ∧ sr_Evidence rule = EvidenceMalicious)
  ∧ (n_Evidence n = EvidenceNoSignal ↔ ∀ rule, rule ∈ rules → ¬ rule_matches (report_names report) rule)
  ∧ Sorted string_le (n_Signals n) ∧ NoDup (n_Signals n).
Proof.
  intros Hnew Hnorm. unfold NewSignatureMapper in Hnew. case_match; [done|].
  destruct (add_rules ∅ rules) as [rs|] eqn:Hadd; [|done]. simplify_eq.
  apply add_rules_spec in Hadd as [Hrs Hev]; [|by intros ?? ?%lookup_empty_Some].
  unfold Normalize in Hnorm. destruct (live 0%nat); [|done]. cbn [negb sm_policy sm_rules] in Hnorm.
  rewrite bool_decide_false in Hnorm by auto. unfold report_names, rule_matches.
  destruct (as_array _) as [sigs|]; [|done]. simpl. case_match; [done|].
  destruct (match_signatures _ _ _ _ _) as [[seen ev]|] eqn:Hms; [|done].
  destruct (normalizedBytes _ _) eqn:Hnb; [|done]. simplify_eq. cbn [n_Signals n_Evidence n_Version n_Policy].
  apply match_signatures_spec in Hms as (Hs&Hmal&Hno).
  2:{ intros name rule Hl. apply Hrs in Hl as [Hl|[Hin _]]; [by apply lookup_empty_Some in Hl|].
      by apply (proj1 (Forall_forall _ _) Hev). }
  cbn zeta in *. set (hits := omap _ _) in *.
  assert (∀ rule, rule ∈ hits ↔ rule ∈ rules ∧ sr_Name rule ∈ omap signature_name sigs) as Hhits.
  { intros rule. unfold hits. rewrite list_elem_of_omap. setoid_rewrite Hrs. split.
    - intros (name&?&[?%lookup_empty_Some|[? <-]]); done.
    - intros [??]. exists (sr_Name rule). auto. }
  assert (∀ s, s ∈ merge_sort string_le (elements seen) ↔ s ∈ sr_Signal <$> hits) as Hel.
  { intros s. rewrite merge_sort_Permutation, elem_of_elements, Hs. set_solver. }
  split_and!; [done|done| | | | |].
  - intros s. rewrite Hel, list_elem_of_fmap. setoid_rewrite Hhits. naive_solver.
  - rewrite Hmal, Exists_exists. setoid_rewrite Hhits. split; [|naive_solver].
    intros [?|?]; [done|naive_solver].
  - rewrite Hno. split.
    + intros [_ Hh] rule Hin Hn. assert (rule ∈ hits) as Hx by (by apply Hhits). rewrite Hh in Hx.
      by apply elem_of_nil in Hx.
    + intros Hnone. split; [done|]. destruct hits as [|rule l]; [done|].
      destruct (Hhits rule) as [Hx _]. destruct Hx; [left|]. by destruct (Hnone rule).
  - apply Sorted_merge_sort. exact String.le_total.
  - rewrite merge_sort_Permutation. apply NoDup_elements.
Qed.
