(* ===== verification/CapeReads.v ===== *)
(** * Reads of the scheduler

    [internal/cape/scheduler_store.go]: [schedulerJobs], [reserveRead],
    [extendRetry] and [markCleanupDeadlines]. *)

From Stdlib Require Import ZArith Lia SpecFloat.
From stdpp Require Import base gmap strings list numbers sorting.
From S2P Require Import Prelude GoStd CapeTypes CapeJob CapeStore CapeLogic CapeInv CapeLifecycle.

Local Open Scope Z_scope.

Section Reads.
Context {E : CapeEnv} (cfg : StoreConfig).

(** [schedulerJobs]: a batch and the cursor moved behind it. *)
Definition schedulerJobs : M (list Job) :=
  s ← get;
  reject (closed s) (cerr Closed) ;;
  l ← query_batch schedulerStates (schedulerCursor s);
  l ← (if bool_decide (l = []) && bool_decide (schedulerCursor s ≠ "")
       then query_batch schedulerStates "" else mret l);
  modify (λ s, {| s with schedulerCursor := match last l with Some j => j_ID j | None => "" end |}) ;;
  mret l.

(** ** [reserveRead] *)
Definition reserved_job (j : Job) (now : Time) (delay : Duration) : Job :=
  {| j with
     j_NextAttempt := now + delay;
     j_RetryAfterUntil := 0;
     j_ReadAttempts := if j_ReadAttempts j <? 16 then j_ReadAttempts j + 1 else j_ReadAttempts j;
     j_PollWakeAt := 0;
     j_Version := j_Version j + 1 |}.

(** The guard on state and deadline of one read or deletion. *)
Definition read_refused (j : Job) (now : Time) : option error :=
  if terminal (j_State j) then
    if IsZero (j_AttemptAt j) || negb (Before now (j_AttemptAt j + 48 * hour))
    then Some (cerr Deadline) else None
  else if bool_decide (j_State j ≠ RemotePending) && bool_decide (j_State j ≠ Fetching)
          || negb (Before now (j_AnalysisDeadline j)) || j_Suppressed j
  then Some ErrConflict else None.

Definition reserve_tx (snapshot : Job) (delay : Duration) : M Job :=
  j ← readJob (j_ID snapshot) (j_Tenant snapshot);
  reject (negb (j_Version j =? j_Version snapshot) || bool_decide (j_State j ≠ j_State snapshot)) ErrConflict ;;
  t ← now;
  reject (readThrottled j t) (cerr Throttled) ;;
  match read_refused j t with
  | Some e => throw e
  | None =>
      takeToken "requests" (c_RequestsPerMinute cfg) t ;;
      commit (reserved_job j t delay) j
  end.

Definition reserveRead (snapshot : Job) (delay : Duration) : M Job :=
  s ← get;
  reject (closed s) (cerr Closed) ;;
  transaction (reserve_tx snapshot delay).

(** ** [extendRetry] *)
Definition extended_job (j : Job) (next : Time) : Job :=
  {| j with
     j_NextAttempt := if After next (j_NextAttempt j) then next else j_NextAttempt j;
     j_RetryAfterUntil := if After next (j_RetryAfterUntil j) then next else j_RetryAfterUntil j;
     j_Version := j_Version j + 1 |}.

Definition extendRetry (snapshot : Job) (delay : Duration) : M unit :=
  s ← get;
  reject (closed s) (cerr Closed) ;;
  transaction (
    j ← readJob (j_ID snapshot) (j_Tenant snapshot);
    t ← now;
    let next := t + delay in
    if negb (After next (j_NextAttempt j)) && negb (After next (j_RetryAfterUntil j))
    then mret ()
    else putJob (extended_job j next) j).

(** ** [markCleanupDeadlines] *)
Definition cleanup_due (now : Time) (j : Job) : bool :=
  negb (j_CleanupDeadlineExceeded j) && negb (IsZero (j_AttemptAt j))
  && negb (Before now (j_AttemptAt j + 48 * hour)) && j_DedupBarrier j.

Definition exceeded_job (j : Job) : Job :=
  {| j with j_CleanupDeadlineExceeded := true; j_Version := j_Version j + 1 |}.

Definition mark_tx : M string :=
  t ← now;
  s ← get;
  b ← nextMaintenanceBatch cleanupDeadlineStates (cleanupDeadlineCursor s);
  iterM (λ j, putJob (exceeded_job j) j) (filter (λ j, Is_true (cleanup_due t j)) b.1) ;;
  mret b.2.

Definition markCleanupDeadlines : M unit :=
  s ← get;
  reject (closed s) (cerr Closed) ;;
  cursor ← transaction mark_tx;
  modify (λ s, {| s with cleanupDeadlineCursor := cursor |}).

(** ** All of them keep the contract *)
Context {EOk : CapeEnvOk E}.

(** Updates of the schedule alone. *)
Lemma reserved_legal j t d : legal j (reserved_job j t d).
Proof.
  unfold reserved_job. legal_tac.
  - apply orb_true_iff; left; by apply bool_decide_eq_true.
  - intros Hji. pose proof (ji_reads _ Hji). case_match; bool_hyps; lia.
Qed.

Lemma extended_legal j t : legal j (extended_job j t).
Proof. unfold extended_job. legal_tac. apply orb_true_iff; left; by apply bool_decide_eq_true. Qed.

Lemma exceeded_legal j : legal j (exceeded_job j).
Proof. unfold exceeded_job. legal_tac. apply orb_true_iff; left; by apply bool_decide_eq_true. Qed.

Theorem schedulerJobs_maintains : maintains cfg schedulerJobs.
Proof.
  intros s Hinv. assert (updates s s) by reflexivity.
  assert (rows_ok (jobs (db s))) by apply Hinv.
  assert (∀ l : list Job, wp (modify (λ s, {| s with schedulerCursor := match last l with Some j => j_ID j | None => "" end |})
     ;; mret l) (λ _ s', Inv cfg s' ∧ updates s s') s) as Hend by (intros; by wp_go).
  unfold schedulerJobs. wp_pre. apply wp_query_batch; [done| |done]. intros l _ _.
  wp_step. case_match; [apply wp_query_batch; [done| |done]; intros l' _ _|wp_step]; apply Hend.
Qed.

Theorem reserveRead_maintains snapshot delay : maintains cfg (reserveRead snapshot delay).
Proof.
  intros s Hinv. unfold reserveRead. wp_pre. eapply wp_tx; [done| |by intros].
  unfold reserve_tx. wp_step. apply (wp_readJob_inv cfg); [done| |by auto with mx].
  intros j Hj Hid Ht Hji. wp_go; auto with mx.
  eapply wp_commit; [done|auto with mx|by rewrite Hid|apply reserved_legal|done].
Qed.

Theorem extendRetry_maintains snapshot delay : maintains cfg (extendRetry snapshot delay).
Proof.
  intros s Hinv. unfold extendRetry. wp_pre. eapply wp_tx; [done| |by intros].
  wp_step. apply (wp_readJob_inv cfg); [done| |by auto with mx].
  intros j Hj Hid Ht Hji. wp_go; auto with mx.
  eapply (wp_putJob_legal cfg); [done|by rewrite Hid|apply extended_legal| |by auto with mx].
  intros d s' Hinv' Hup _ _. pose proof Hup as [_ ?]. split; [exact Hinv|]. by split_and!.
Qed.

Lemma mark_step s x l s1 (Q : error → St → Prop) :
  deadline_loop cfg s (x :: l) s1 → (∀ e s', deadline_loop cfg s [] s' → Q e s') →
  wp (putJob (exceeded_job x) x)
     (λ r s', match r with Ok _ => deadline_loop cfg s l s' | Err e => Q e s' end) s1.
Proof.
  intros (Hinv&Hup&Hsp&Hla&Hb) HQ. destruct (batch_tail _ _ _ Hb) as (Hl&Hx&Hnew).
  eapply (wp_putJob_legal cfg); [done|done|apply exceeded_legal| |].
  - intros d s' Hinv' Hup' Hj' Hne. split_and!; [done|by etrans|done|done|]. by eapply batch_frame.
  - intros e. apply HQ. split_and!; try done. split; [constructor|by intros ? ?%elem_of_nil].
Qed.

Lemma batch_filter jb l (P : Job → Prop) `{!∀ j, Decision (P j)} : batch_of jb l → batch_of jb (filter P l).
Proof.
  intros [Hnd Hl]. split.
  - eapply sublist_NoDup; [exact Hnd|]. apply fmap_sublist, sublist_filter.
  - intros j [_ Hj]%list_elem_of_filter. by apply Hl.
Qed.

Theorem markCleanupDeadlines_maintains : maintains cfg markCleanupDeadlines.
Proof.
  intros s Hinv. unfold markCleanupDeadlines. wp_pre. eapply wp_tx; [done| |by intros].
  unfold mark_tx. wp_go; auto with mx.
  apply wp_nextMaintenanceBatch; [apply Hinv| |by auto with mx].
  intros l c Hl _. wp_step. eapply (wp_iterM _ (deadline_loop cfg s)).
  - split_and!; auto with mx. by apply batch_filter.
  - intros x l' s' HI. eapply wp_mono; [eapply (mark_step s x l' s'
      (λ e s', InvOf cfg (jobs (db s)) (spool s') (liveAttempts s') ∧ files_kept s s')); [exact HI|]|].
    + intros e s2 (?&[_ ?]&Hsp&Hla&_). by rewrite Hsp, Hla.
    + intros [[]|e] s2; [done|]. by intros [? ?].
  - intros s' (?&Hup&Hsp&Hla&_). wp_go. pose proof Hup as [_ ?]. split; [by rewrite Hsp, Hla|]. split_and!; [done..|]. by wp_go.
Qed.

End Reads.
