(* ===== verification/CapeIngress.v ===== *)
(** * Admission of one attachment

    [internal/cape/store_ingress.go]: [Enqueue], [EnqueueClassified],
    [reserve], [checkTenantDebt], [writeIngress], [classifyIngress] and
    [cleanupStaging]. *)

From Stdlib Require Import ZArith Lia SpecFloat.
From stdpp Require Import base gmap strings list numbers sorting.
From S2P Require Import Prelude GoStd CapeTypes CapeJob CapeStore CapeLogic CapeInv CapeLifecycle.
From S2P Require Import CapeSubmission.

Local Open Scope Z_scope.

Record EnqueueRequest := mkRequest {
  rq_Tenant : string;
  rq_Generation : string;
  rq_SubmissionPolicy : string;
  rq_ResultPolicy : string;
  rq_StaticVerdict : string
}.

Record Admission := mkAdmission { ad_Job : Job; ad_Reused : bool; ad_CurrentStatic : string }.

(** ** The body

    One [Read]: the bytes it put into the buffer ([None]: a count outside the
    buffer) and its error.  A body that delivers nothing more fails, as a
    closed one does. *)
Inductive ReadError := NoError | AtEOF | ReadFailed.

Record Read := mkRead { rd_chunk : option string; rd_err : ReadError }.

Definition bufferSize : Z := Z.shiftl 32 10.

(** What a sequence of reads delivers up to its end. *)
Fixpoint stream (reads : list Read) : string :=
  match reads with
  | [] => ""
  | r :: rest => default "" (rd_chunk r) +:+ match rd_err r with NoError => stream rest | _ => "" end
  end.

Definition static_verdict (v : string) : bool := mem v ["clean"; "unknown"; "suspicious"; "malicious"].

Section Ingress.
Context {E : CapeEnv} (cfg : StoreConfig).

(** ** [reserve] *)

(** [hooks.capacity] *)
Definition capacityNow : M capacity := λ s o,
  match src_cap o with
  | Some c => (Ok c, s, o)
  | None => (Err ErrStoreUnavailable, s, o)
  end.

Definition staging_rows (jb : gmap string Row) : list Row := filter (λ r, r_state r = Staging) (rows_of jb).

(** One row of [checkTenantDebt]; [None] when it raises no error. *)
Definition debt_error (now : Time) (r : Row) : option error :=
  match decodeJob (r_document r) with
  | None => Some ErrStoreUnavailable
  | Some j =>
      if bool_decide (j_Cleanup j = not_submitted) || bool_decide (j_Cleanup j = remote_purge_confirmed)
      then None
      else
        let since := if IsZero (j_AttemptAt j) then j_CreatedAt j else j_AttemptAt j in
        if negb (Before now (since + 7 * 24 * hour)) then Some ErrQuota else None
  end.

Definition checkTenantDebt (tenant : string) (now : Time) : M unit :=
  exec ;;
  s ← get;
  match list_find (λ r, is_Some (debt_error now r)) (tenant_rows (jobs (db s)) tenant) with
  | Some (_, r) => throw (default ErrStoreUnavailable (debt_error now r))
  | None => mret ()
  end.

Definition staged_job (r : EnqueueRequest) (id marker : string) : Job :=
  {| j_ID := id; j_Tenant := rq_Tenant r; j_Generation := rq_Generation r;
     j_SubmissionPolicy := rq_SubmissionPolicy r; j_ResultPolicy := rq_ResultPolicy r;
     j_Digest := ""; j_StaticVerdict := rq_StaticVerdict r; j_Correlation := marker;
     j_State := Staging; j_Version := 1;
     j_ReservedBytes := c_MaxAttachment cfg + JobMetadataLimit + JobResultLimit; j_PayloadBytes := 0;
     j_CreatedAt := 0; j_IngressDeadline := 0; j_QueueDeadline := 0; j_AnalysisDeadline := 0;
     j_TerminalAt := 0; j_NextAttempt := 0; j_AttemptAt := 0; j_RetryAfterUntil := 0;
     j_Attempts := 0; j_SubmissionVersion := 0; j_SubmissionRecorded := false;
     j_TaskIDs := []; j_DeleteAcknowledgedIDs := []; j_Cleanup := not_submitted;
     j_UnknownDebt := false; j_DedupBarrier := false; j_Suppressed := false; j_Reason := "";
     j_Result := ""; j_PollWakeAt := 0; j_ReadAttempts := 0; j_CleanupDeadlineExceeded := false |}.

Definition with_deadlines (j : Job) (now : Time) : Job :=
  {| j with
     j_CreatedAt := now; j_IngressDeadline := now + ingressLimit;
     j_QueueDeadline := now + hour; j_AnalysisDeadline := now + 24 * hour |}.

(** Free space one more reservation needs. *)
Definition needed_bytes (pending reserved staging block : Z) : Z :=
  StateReserve + 3 * databaseLimit + pending + reserved + (staging + 1) * block.

(** The INSERT: the primary key and the checks of the table. *)
Definition insert_job (j : Job) : M unit :=
  raw ← of_res (encodeJob j);
  exec ;;
  s ← get;
  reject (bool_decide (is_Some (jobs (db s) !! j_ID j)) || negb (row_checks (j_ReservedBytes j) raw))
    ErrStoreUnavailable ;;
  modify_db (λ d, {| d with jobs := <[j_ID j := mkRow (j_Tenant j) (j_State j) (j_Version j)
    (j_ReservedBytes j) (j_Digest j) (j_Generation j) (j_SubmissionPolicy j) (j_ResultPolicy j) raw]> (jobs d) |}).

Definition reserve_tx (r : EnqueueRequest) (j : Job) : M Job :=
  t ← now;
  admissionGeneration (rq_Generation r) ;;
  c ← capacityNow;
  reject (negb (validCapacity c)) ErrStoreUnavailable ;;
  exec ;;
  s ← get;
  let all := rows_of (jobs (db s)) in
  let own := tenant_rows (jobs (db s)) (rq_Tenant r) in
  let staged := staging_rows (jobs (db s)) in
  let count := Z.of_nat (length all) in
  let used := sumZ r_reserved all in
  let tenantCount := Z.of_nat (length own) in
  let tenantUsed := sumZ r_reserved own in
  let staging := Z.of_nat (length staged) in
  let pending := sumZ r_reserved staged in
  reject ((used <? 0) || (tenantUsed <? 0) || (pending <? 0) || (PhysicalLimit <? pending)
          || (staging <? 0) || (10000 <? staging)) ErrStoreUnavailable ;;
  reject ((c_MaxJobs cfg <=? count) || (c_TenantJobs cfg <=? tenantCount)
          || (c_MaxBytes cfg - j_ReservedBytes j <? used)
          || (c_TenantBytes cfg - j_ReservedBytes j <? tenantUsed)) ErrQuota ;;
  checkTenantDebt (rq_Tenant r) t ;;
  reject (cap_available c <? needed_bytes pending (j_ReservedBytes j) staging (cap_block c)) ErrQuota ;;
  let j := with_deadlines j t in
  insert_job j ;;
  mret j.

Definition reserve (r : EnqueueRequest) : M Job :=
  id ← opaqueID;
  marker ← opaqueID;
  transaction (reserve_tx r (staged_job r id marker)).

(** ** [writeIngress] *)

(** [ctx.Err() != nil]: cancelled by the caller (a reading of the outside
    world) or by the store. *)
Definition ctxDone (id : string) : M bool :=
  i ← io;
  s ← get;
  mret (bool_decide (i ≠ IoOk) || default false (active s !! id)).

(** [f.Write]: appended to the open temporary file. *)
Definition append_file (name chunk : string) : M unit :=
  exec ;;
  modify (λ s, {| s with spool := alter (λ c, c +:+ chunk) name (spool s) |}).

(** The copy loop: the error that ended it and the bytes written. *)
Fixpoint copy_loop (id : string) (deadline : Time) (reads : list Read) (written : string)
    (idleDeadline : Time) : M (option error * string * Time) :=
  match reads with
  | [] => mret (Some (cerr Invalid), written, idleDeadline)
  | r :: rest =>
      t ← clockNow;
      if negb (Before t idleDeadline) then mret (Some (cerr Deadline), written, idleDeadline)
      else match rd_chunk r with
           | None => mret (Some (cerr Invalid), written, idleDeadline)
           | Some chunk =>
               if bufferSize <? len chunk then mret (Some (cerr Invalid), written, idleDeadline)
               else
                 let idleDeadline := if 0 <? len chunk then t + ingressIdle else idleDeadline in
                 if (0 <? len chunk) && (c_MaxAttachment cfg - len written <? len chunk)
                 then mret (Some (cerr TooLarge), written, idleDeadline)
                 else
                   w ← (if 0 <? len chunk then try (append_file (tmp_name id) chunk) else mret (Ok tt));
                   match w with
                   | Err e => mret (Some e, written, idleDeadline)
                   | Ok _ =>
                       let written := written +:+ chunk in
                       match rd_err r with
                       | AtEOF => mret (None, written, idleDeadline)
                       | ReadFailed => mret (Some (cerr Invalid), written, idleDeadline)
                       | NoError =>
                           cancelled ← ctxDone id;
                           if (cancelled : bool) then mret (Some (cerr Deadline), written, idleDeadline)
                           else
                             t ← clockNow;
                             if negb (Before t deadline) then mret (Some (cerr Deadline), written, idleDeadline)
                             else copy_loop id deadline rest written idleDeadline
                       end
                   end
           end
  end.

(** The watcher's flag, the context and both deadlines once the body is done. *)
Definition ingress_expired (id : string) (deadline idleDeadline : Time) : M bool :=
  timedOut ← io;
  if bool_decide (timedOut ≠ IoOk) then mret true
  else
    cancelled ← ctxDone id;
    if (cancelled : bool) then mret true
    else
      t ← clockNow;
      if idleDeadline - t <=? 0 then mret true
      else t ← clockNow; mret (negb (Before t deadline)).

Definition writeIngress (j : Job) (reads : list Read) : M (Z * string) :=
  exec ;;
  s ← get;
  reject (bool_decide (is_Some (spool s !! tmp_name (j_ID j)))) ErrStoreUnavailable ;;
  modify (λ s, {| s with spool := <[tmp_name (j_ID j) := ""]> (spool s) |}) ;;
  t0 ← clockNow;
  t1 ← clockNow;
  r ← copy_loop (j_ID j) (j_IngressDeadline j) reads "" (t1 + ingressIdle);
  let err : option error := r.1.1 in
  let written : string := r.1.2 in
  expired ← ingress_expired (j_ID j) (j_IngressDeadline j) r.2;
  reject expired (cerr Deadline) ;;
  match err with
  | Some e => throw e
  | None =>
      reject (len written =? 0) (cerr Invalid) ;;
      exec ;;
      renameStoreFile (tmp_name (j_ID j)) (blob_name (j_ID j)) ;;
      exec ;;
      mret (len written, hex_encode (sha256 written))
  end.

(** ** [classifyIngress] *)
Definition IngressClassifier : Type := string → res string.

Definition classifyIngress (j : Job) (size : Z) (classify : IngressClassifier) : M string :=
  cancelled ← ctxDone (j_ID j);
  t ← clockNow;
  reject (cancelled || negb (Before t (j_IngressDeadline j))) (cerr Deadline) ;;
  exec ;;
  s ← get;
  match spool s !! blob_name (j_ID j) with
  | None => throw ErrStoreUnavailable
  | Some content =>
      let static := classify (String.substring 0 (Z.to_nat size) content) in
      cancelled ← ctxDone (j_ID j);
      t ← clockNow;
      reject (cancelled || negb (Before t (j_IngressDeadline j))) (cerr Deadline) ;;
      v ← of_res static;
      reject (negb (static_verdict v)) (cerr Invalid) ;;
      mret v
  end.

(** ** [cleanupStaging] *)
Definition cleanup_tx (id : string) : M unit :=
  j ← readJobID id;
  reject (bool_decide (j_State j ≠ Staging)) ErrStoreUnavailable ;;
  removeStoreFile (tmp_name id) ;;
  removeStoreFile (blob_name id) ;;
  exec ;;
  exec ;;
  s ← get;
  match jobs (db s) !! id with
  | Some r =>
      if bool_decide (r_state r = Staging) && (r_version r =? j_Version j)
      then modify_db (λ d, {| d with jobs := delete id (jobs d) |})
      else throw ErrConflict
  | None => throw ErrConflict
  end.

Definition cleanupStaging (id : string) : M unit := transaction (cleanup_tx id).

(** ** Publication *)

(** The deduplication query. *)
Definition same_content (j : Job) (digest : string) (r : Row) : bool :=
  bool_decide (r_tenant r = j_Tenant j) && bool_decide (r_digest r = digest)
  && bool_decide (r_generation r = j_Generation j)
  && bool_decide (r_submission_policy r = j_SubmissionPolicy j)
  && bool_decide (r_result_policy r = j_ResultPolicy j).

(** The first reusable job; [None] is an undecodable row met before it. *)
Fixpoint find_reusable (now : Time) (rows : list Row) : option (option Job) :=
  match rows with
  | [] => Some None
  | r :: rest =>
      match decodeJob (r_document r) with
      | None => None
      | Some existing => if reusable existing now then Some (Some existing) else find_reusable now rest
      end
  end.

Definition publish_tx (j : Job) (size : Z) (digest static : string) : M (Job * bool) :=
  t ← now;
  reject (negb (Before t (j_IngressDeadline j))) (cerr Deadline) ;;
  exec ;;
  s ← get;
  match find_reusable t (filter (λ r, Is_true (same_content j digest r)) (rows_of (jobs (db s)))) with
  | None => throw ErrStoreUnavailable
  | Some (Some existing) => mret (existing, true)
  | Some None =>
      let q := queued_job j size digest static in
      putJob q j ;;
      mret (q, false)
  end.

(** [cleanupStaging], then the error that led to it. *)
Definition abandon {A} (id : string) (e : error) : M A := cleanupStaging id ;; throw e.

(** Everything under the second acquisition of the lock. *)
Definition publish (j : Job) (written : res (Z * string * string)) : M Admission :=
  match written with
  | Err e => abandon (j_ID j) e
  | Ok (size, digest, static) =>
      s ← get;
      cancelled ← ctxDone (j_ID j);
      if closed s || cancelled then abandon (j_ID j) (cerr Deadline)
      else
        r ← try (transaction (publish_tx j size digest static));
        match r with
        | Err e => abandon (j_ID j) e
        | Ok (job, reused) =>
            (if (reused : bool) then cleanupStaging (j_ID j) else mret ()) ;;
            checkpoint ;;
            mret (mkAdmission job reused static)
        end
  end.

(** The work outside the lock; [others id] is what the rest of the process does
    to the store at each point where the writer of [id] leaves the lock free. *)
Definition receive_body (others : string → M unit) (j : Job) (reads : list Read)
    (classify : option IngressClassifier) : M (Z * string * string) :=
  w ← writeIngress j reads;
  let size : Z := w.1 in
  let digest : string := w.2 in
  try (others (j_ID j)) ;;
  match classify with
  | None => mret (size, digest, j_StaticVerdict j)
  | Some f => v ← classifyIngress j size f; mret (size, digest, v)
  end.

Definition enqueue (others : string → M unit) (request : EnqueueRequest) (reads : option (list Read))
    (classify : option IngressClassifier) : M Admission :=
  match reads with
  | None => throw (cerr Invalid)
  | Some reads =>
      reject (negb (identifier (rq_Tenant request) 128) || negb (identifier (rq_Generation request) 128)
              || negb (identifier (rq_SubmissionPolicy request) 128)
              || negb (identifier (rq_ResultPolicy request) 128)
              || negb (static_verdict (rq_StaticVerdict request))) (cerr Invalid) ;;
      s ← get;
      reject (closed s) (cerr Closed) ;;
      reject (negb (mem (rq_Tenant request) (c_Tenants cfg))) (cerr Unauthorized) ;;
      j ← reserve request;
      modify (λ s, {| s with active := <[j_ID j := false]> (active s) |}) ;;
      try (others (j_ID j)) ;;
      w ← try (receive_body others j reads classify);
      try (others (j_ID j)) ;;
      r ← try (publish j w);
      modify (λ s, {| s with active := delete (j_ID j) (active s) |}) ;;
      of_res r
  end.

(** [Enqueue] and [EnqueueClassified] *)
Definition Enqueue (others : string → M unit) (request : EnqueueRequest) (reads : option (list Read)) : M Admission :=
  enqueue others request reads None.

Definition EnqueueClassified (others : string → M unit) (request : EnqueueRequest) (reads : option (list Read))
    (classify : option IngressClassifier) : M Admission :=
  match classify with
  | None => throw (cerr Invalid)
  | Some f => enqueue others {| request with rq_StaticVerdict := "unknown" |} reads (Some f)
  end.

(** The hexadecimal digest a job is keyed by. *)
Definition digest_of (content : string) : string := hex_encode (sha256 content).

End Ingress.
