(* ===== verification/CapeAdmission.v ===== *)
(** * Admission keeps the store consistent

    The contract of [enqueue] (store_ingress.go): every part of it, from the
    reservation to the publication, changes only the job being admitted and its
    two files, whatever the rest of the process does to other jobs meanwhile. *)

From Stdlib Require Import ZArith Lia SpecFloat.
From stdpp Require Import base gmap strings list numbers sorting.
From S2P Require Import Prelude GoStd CapeTypes CapeJob CapeStore CapeLogic CapeInv CapeLifecycle.
From S2P Require Import CapeSubmission CapeIngress.

Local Open Scope Z_scope.

Section Admission.
Context {E : CapeEnv} {EOk : CapeEnvOk E} (cfg : StoreConfig) (Hcfg : limits_ok cfg) (rm : bool).

(** ** The writer of a body *)

Lemma rtc_legal_version j j' : rtc legal j j' → j_Version j' = j_Version j → j' = j.
Proof.
  assert (∀ a b, rtc legal a b → j_Version a <= j_Version b) as Hm.
  { induction 1 as [|a b c Hl _ IH]; [lia|]. rewrite (lg_version _ _ Hl) in IH. lia. }
  intros Hr Hv. destruct Hr as [|j j1 j2 Hl Hr]; [done|].
  specialize (Hm _ _ Hr). rewrite (lg_version _ _ Hl) in Hm. lia.
Qed.

(** The writer owns the staged job [j], possibly updated by others, and its
    published file, if any. *)
Definition owns (j : Job) (content : option string) (s : St) : Prop :=
  j_State j = Staging ∧ (∃ j', jobOf (jobs (db s)) (j_ID j) = Some j' ∧ rtc legal j j')
  ∧ spool s !! blob_name (j_ID j) = content.

Lemma owns_kept own j content s s' : evolves rm own s s' → ¬ own (j_ID j) → owns j content s → owns j content s'.
Proof.
  intros [_ Hk] Ho (Hst&(j1&Hj1&Hr)&Hc).
  destruct (Hk _ Ho _ Hj1) as ((j2&?&?)&Hb&_); [by eapply rtc_legal_staging|].
  split_and!; [done| |congruence]. exists j2. split; [done|]. by etrans.
Qed.

(** Everything but the body of [id]. *)
Definition but (own : string → Prop) (id : string) : string → Prop := λ x, own x ∧ x ≠ id.

(** What the process does around the writer of [id] while [own] are written. *)
Definition around (own : string → Prop) (id : string) : string → Prop := λ x, own x ∨ x = id.

(** The rest of the process leaves the body being written to its writer. *)
Definition respectful (own : string → Prop) (others : string → M unit) : Prop :=
  ∀ id, keeps cfg (evolves rm (but own id)) (others id).

Lemma wp_others own others j content s0 s (Q : res unit → St → Prop) :
  respectful own others → Inv cfg s → owns j content s → evolves rm (around own (j_ID j)) s0 s →
  (∀ r s', Inv cfg s' → owns j content s' → evolves rm (around own (j_ID j)) s0 s' → Q r s') →
  wp (others (j_ID j)) Q s.
Proof.
  intros Ho Hinv Hown Hev HQ. eapply wp_mono; [by apply Ho|]. intros r s' [? He].
  apply HQ; [done|eapply owns_kept; [done| |done]; by intros [_ ?]|]. etrans; [exact Hev|].
  eapply evolves_weaken; [|exact He]. intros x [? _]. by left.
Qed.

(** A change of one job and its two files. *)
Lemma evolves_one own id s s' :
  (∀ id', id' ≠ id → jobOf (jobs (db s')) id' = jobOf (jobs (db s)) id') →
  rtc (life rm) (jobOf (jobs (db s)) id) (jobOf (jobs (db s')) id) →
  (∀ n, n ≠ tmp_name id → n ≠ blob_name id → spool s' !! n = spool s !! n) →
  evolves rm (around own id) s s'.
Proof.
  intros Hj Hl Hs. split.
  - intros id'. destruct (decide (id' = id)) as [->|]; [done|]. by rewrite Hj.
  - intros id' Hid' j Hj' Hst. assert (id' ≠ id) as Hne by (intros ->; apply Hid'; by right).
    split; [exists j; split; [by rewrite Hj|apply rtc_refl]|]. split; apply Hs.
    + by apply not_eq_sym, tmp_name_ne.
    + by intros ?%(inj blob_name).
    + by intros ?%string_app_inv_r.
    + apply tmp_name_ne.
Qed.

(** ** Changes of the spool *)

Lemma Inv_spool jb sp sp' la :
  InvOf cfg jb sp la →
  (∀ id j, jobOf jb id = Some j → needs_payload (j_State j) = true →
           sp' !! blob_name id = sp !! blob_name id) →
  InvOf cfg jb sp' la.
Proof.
  intros [Hrows Hjobs Hpay Huniq Hquota Hlive] Hs. constructor; auto.
  intros id j Hj Hn. destruct (Hpay _ _ Hj Hn) as (c&Hc&?). exists c.
  rewrite (jobOf_ID jb id j Hrows Hj) in *. by rewrite (Hs _ _ Hj Hn).
Qed.

(** The writer of [id] only changes its own two files. *)
Definition touches (id : string) (s s' : St) : Prop :=
  db s' = db s ∧ liveAttempts s' = liveAttempts s ∧ active s' = active s ∧ closed s' = closed s
  ∧ ∀ n, n ≠ tmp_name id → n ≠ blob_name id → spool s' !! n = spool s !! n.

Lemma touches_refl id s : touches id s s.
Proof. by repeat split. Qed.

Lemma touches_trans id s s1 s2 : touches id s s1 → touches id s1 s2 → touches id s s2.
Proof.
  intros (?&?&?&?&Hs1) (?&?&?&?&Hs2). split_and!; [congruence..|].
  intros n ??. by rewrite Hs2, Hs1.
Qed.

Lemma touches_evolves own id s s' : touches id s s' → evolves rm (around own id) s s'.
Proof.
  intros (Hd&_&_&_&Hs). apply evolves_one; [by rewrite Hd|rewrite Hd; apply rtc_refl|done].
Qed.

Lemma touches_Inv j s s' : Inv cfg s → touches (j_ID j) s s' →
  (∃ j', jobOf (jobs (db s)) (j_ID j) = Some j' ∧ needs_payload (j_State j') = false) → Inv cfg s'.
Proof.
  intros Hinv (Hd&Hl&_&_&Hs) (j'&Hj'&Hn). unfold Inv. rewrite Hd, Hl.
  eapply Inv_spool; [exact Hinv|]. intros id j2 Hj2 Hn2. apply Hs; [by apply not_eq_sym, tmp_name_ne|].
  intros Heq%(inj blob_name). subst. rewrite Hj' in Hj2. congruence.
Qed.

Lemma spool_touches id s sp : (∀ n, n ≠ tmp_name id → n ≠ blob_name id → sp !! n = spool s !! n) →
  touches id s {| s with spool := sp |}.
Proof. by repeat split. Qed.

(** ** The copy loop *)

Lemma wp_ctxDone id (Q : res bool → St → Prop) s : (∀ b, Q (Ok b) s) → wp (ctxDone id) Q s.
Proof. intros H. unfold ctxDone. apply wp_bind, wp_io. intros i. by wp_go. Qed.

(** Whatever ends the loop, only the temporary file has changed; without an
    error it holds exactly the bytes read, within the limit. *)
Lemma wp_copy_loop id deadline reads : ∀ written idle s0 s,
  touches id s0 s → spool s !! tmp_name id = Some written → spool s !! blob_name id = spool s0 !! blob_name id →
  len written <= c_MaxAttachment cfg →
  wp (copy_loop cfg id deadline reads written idle)
    (λ r s', touches id s0 s' ∧ spool s' !! blob_name id = spool s0 !! blob_name id ∧
       match r with
       | Ok (e, w, _) => e = None → spool s' !! tmp_name id = Some w ∧ len w <= c_MaxAttachment cfg
                                    ∧ w = written +:+ stream reads
       | Err _ => True
       end) s.
Proof.
  induction reads as [|rd reads IH]; intros written idle s0 s Ht Hw Hb Hlen; cbn [copy_loop].
  { by wp_go. }
  wp_step. wp_step. case_match; [by wp_go|]. cbn [stream]. destruct (rd_chunk rd) as [chunk|]; [|by wp_go].
  cbn [default].
  case_match; [by wp_go|]. cbn zeta. case_match eqn:Hbig; [by wp_go|]. wp_step.
  apply wp_mono with (P := λ r s', touches id s0 s' ∧ spool s' !! blob_name id = spool s0 !! blob_name id
     ∧ match r with Ok (Ok _) => spool s' !! tmp_name id = Some (written +:+ chunk)
                                 ∧ len (written +:+ chunk) <= c_MaxAttachment cfg
       | _ => True end).
  { destruct (0 <? len chunk) eqn:Hc.
    - unfold append_file. wp_go; [|done]. split_and!.
      + eapply touches_trans; [exact Ht|]. apply spool_touches. intros n Hn _.
        by rewrite lookup_alter_ne.
      + cbn. rewrite lookup_alter_ne; [done|]. by apply tmp_name_ne.
      + cbn. by rewrite lookup_alter_eq, Hw.
      + rewrite string_app_len. bool_hyps. lia.
    - wp_go. assert (chunk = "") as -> by (destruct chunk; [done|]; pose proof (string_length_S a chunk); pose proof (len_nonneg chunk); bool_hyps; lia).
      rewrite string_app_nil_r. by split_and!. }
  intros [[[]|e]|e] s1 (Ht1&Hb1&Hp1); [|by wp_go|done]. destruct Hp1 as [??].
  destruct (rd_err rd); [|wp_go; rewrite string_app_nil_r; by split_and!|by wp_go].
  wp_step. apply wp_ctxDone. intros [|]; [by wp_go|]. wp_step. wp_step. case_match; [by wp_go|].
  rewrite string_app_assoc. by apply IH.
Qed.

Lemma wp_ingress_expired id d i (Q : res bool → St → Prop) s :
  (∀ b, Q (Ok b) s) → wp (ingress_expired id d i) Q s.
Proof.
  intros H. unfold ingress_expired. apply wp_bind, wp_io. intros t. case_match; [by wp_go|].
  wp_step. apply wp_ctxDone. intros [|]; by wp_go.
Qed.

(** A written attachment is published under its final name with its exact
    size and digest. *)
Lemma wp_writeIngress j reads c0 s :
  Inv cfg s → owns j c0 s →
  wp (writeIngress cfg j reads)
    (λ r s', Inv cfg s' ∧ touches (j_ID j) s s' ∧ match r with
       | Ok (size, digest) => let c := stream reads in owns j (Some c) s' ∧ size = len c
           ∧ 1 <= size <= c_MaxAttachment cfg ∧ digest = digest_of c
       | Err _ => ∃ c, owns j c s' end) s.
Proof.
  intros Hinv (Hst&Hj&Hb). assert (owns j c0 s) as Hown by done.
  destruct Hj as (j'&Hj'&Hr).
  assert (∀ s', touches (j_ID j) s s' → Inv cfg s') as HI.
  { intros s' Ht. eapply touches_Inv; [done..|]. exists j'. split; [done|].
    by rewrite (rtc_legal_staging _ _ Hr Hst). }
  assert (∀ s', touches (j_ID j) s s' → owns j (spool s' !! blob_name (j_ID j)) s') as HO.
  { intros s' Ht. split_and!; [done| |done]. exists j'. split; [|done]. by destruct Ht as (->&_). }
  assert (touches (j_ID j) s s) as Hrefl by apply touches_refl. unfold writeIngress.
  assert (∀ sp, spool s !! tmp_name (j_ID j) = None → sp = <[tmp_name (j_ID j) := ""]> (spool s) →
    touches (j_ID j) s {| s with spool := sp |}) as Hnew.
  { intros sp Hn ->. apply spool_touches. intros n ? _. by rewrite lookup_insert_ne. }
  wp_step. wp_step; [|eauto 7]. wp_step. wp_step. wp_step. wp_step; [|eauto 7].
  bool_hyps. apply eq_None_not_Some in H.
  wp_step. wp_step. wp_step. wp_step. wp_step. wp_step. wp_step.
  eapply wp_mono; [eapply (wp_copy_loop (j_ID j) _ _ _ _ s)|].
  { by apply Hnew. }
  { cbn. by rewrite lookup_insert_eq. }
  { cbn. rewrite lookup_insert_ne; [done|]. by apply tmp_name_ne. }
  { change (0 <= c_MaxAttachment cfg). destruct Hcfg. lia. }
  intros [[[e w] idle]|e] s1 (Ht&Hb1&Hc); [|eauto 7]. cbn [fst snd].
  wp_step. apply wp_ingress_expired. intros expired. wp_step. wp_step; [|eauto 7].
  destruct e as [e|]; [wp_step; eauto 7|]. destruct (Hc eq_refl) as (Htmp&Hlen&->).
  wp_step. wp_step; [|eauto 7]. bool_hyps. wp_step. wp_step; [|eauto 7]. wp_step.
  unfold renameStoreFile. wp_step. wp_step; [|eauto 7]. wp_step. wp_step. rewrite Htmp, Hb1, Hb.
  destruct c0 as [c0|]; [wp_step; eauto 7|]. wp_step.
  set (s2 := {| s1 with spool := _ |}).
  assert (touches (j_ID j) s s2) as Ht2.
  { eapply touches_trans; [exact Ht|]. apply spool_touches. intros n ??.
    by rewrite lookup_insert_ne, lookup_delete_ne. }
  wp_step. wp_step; [|eauto 7]. wp_step. split; [by apply HI|]. split; [exact Ht2|].
  cbn zeta. set (c := "" +:+ stream reads) in *. change (stream reads) with c.
  split_and!; auto; [|pose proof (len_nonneg c); lia].
  specialize (HO _ Ht2). replace (spool s2 !! blob_name (j_ID j)) with (Some c) in HO; [done|].
  cbn. by rewrite lookup_insert_eq.
Qed.

(** ** Reservation *)

(** The capacity one more job leaves is inside every quota. *)
Lemma quota_insert jb id r :
  quota_ok cfg jb → jb !! id = None →
  Z.of_nat (length (rows_of jb)) < c_MaxJobs cfg → sumZ r_reserved (rows_of jb) <= c_MaxBytes cfg - r_reserved r →
  Z.of_nat (length (tenant_rows jb (r_tenant r))) < c_TenantJobs cfg →
  sumZ r_reserved (tenant_rows jb (r_tenant r)) <= c_TenantBytes cfg - r_reserved r →
  quota_ok cfg (<[id := r]> jb).
Proof.
  intros (Hc&Hs&Ht) Hn ????. split_and!.
  - rewrite (rows_of_insert _ _ r Hn). simpl. lia.
  - rewrite (rows_of_insert _ _ r Hn), sumZ_cons. lia.
  - intros t. destruct (Ht t). rewrite (tenant_rows_insert _ _ r t Hn).
    rewrite length_app, sumZ_app. case_decide; subst; unfold sumZ in *; simpl; lia.
Qed.

Lemma staged_inv r id marker t : job_inv (with_deadlines (staged_job cfg r id marker) t).
Proof.
  constructor; cbn; try done; try tauto; auto.
  - constructor.
  - split; [constructor|]. apply list_subseteq_nil.
Qed.

(** What [reserve] leaves in the table. *)
Definition reserved_ok (r : EnqueueRequest) (j : Job) (s s' : St) : Prop :=
  Inv cfg s' ∧ jobs (db s) !! j_ID j = None ∧ jobOf (jobs (db s')) (j_ID j) = Some j
  ∧ j_State j = Staging ∧ j_Version j = 1 ∧ j_Tenant j = rq_Tenant r ∧ j_Generation j = rq_Generation r
  ∧ j_SubmissionPolicy j = rq_SubmissionPolicy r ∧ j_ResultPolicy j = rq_ResultPolicy r
  ∧ j_ReservedBytes j = c_MaxAttachment cfg + JobMetadataLimit + JobResultLimit
  ∧ j_StaticVerdict j = rq_StaticVerdict r ∧ j_Digest j = ""
  ∧ spool s' = spool s ∧ active s' = active s
  ∧ ∀ id, id ≠ j_ID j → jobOf (jobs (db s')) id = jobOf (jobs (db s)) id.

Lemma reserved_evolves r j s s' : reserved_ok r j s s' → evolves rm nobody s s'.
Proof.
  intros (Hinv&Hnew&Hj&Hst&Hv&_&_&_&_&_&_&_&Hsp&_&Hne). split.
  - intros id. destruct (decide (id = j_ID j)) as [->|]; [|rewrite Hne by done; apply rtc_refl].
    rewrite Hj. unfold jobOf at 1. rewrite Hnew. apply rtc_once. constructor; [done..|].
    by eapply (inv_jobs _ _ _ _ Hinv).
  - intros id _ j1 Hj1 Hst1. split; [|split; by rewrite Hsp]. exists j1. split; [|apply rtc_refl].
    rewrite Hne; [done|]. intros ->. unfold jobOf in Hj1. by rewrite Hnew in Hj1.
Qed.

Lemma wp_insert_job j (Q : res unit → St → Prop) s :
  (∀ raw, jobs (db s) !! j_ID j = None → encodeJob j = Ok raw → row_checks (j_ReservedBytes j) raw = true →
     Q (Ok tt) (with_db s {| (db s) with jobs := <[j_ID j := mkRow (j_Tenant j) (j_State j) (j_Version j)
       (j_ReservedBytes j) (j_Digest j) (j_Generation j) (j_SubmissionPolicy j) (j_ResultPolicy j) raw]> (jobs (db s)) |})) →
  (∀ e, Q (Err e) s) → wp (insert_job j) Q s.
Proof.
  intros H1 H2. unfold insert_job. wp_step. wp_step. destruct (encodeJob j) as [raw|] eqn:He; [|done].
  wp_step. wp_step; [|done]. wp_step. wp_step. wp_step. wp_step; [|done].
  apply wp_modify_db. bool_hyps. apply H1; [by apply eq_None_not_Some|done|done].
Qed.

Lemma wp_capacityNow (Q : res capacity → St → Prop) s :
  (∀ r, Q r s) → wp capacityNow Q s.
Proof. intros H o r s' o' Hr. unfold capacityNow in Hr. by destruct (src_cap o); simplify_eq. Qed.

Lemma wp_checkTenantDebt tenant t (Q : res unit → St → Prop) s :
  (∀ r, Q r s) → wp (checkTenantDebt tenant t) Q s.
Proof. intros H. unfold checkTenantDebt. by wp_go. Qed.

Lemma wp_reserve r s : Inv cfg s →
  wp (reserve cfg r) (λ x s', Inv cfg s' ∧ evolves rm nobody s s'
    ∧ match x with Ok j => reserved_ok r j s s' | Err _ => True end) s.
Proof.
  intros Hinv. assert (evolves rm nobody s s) as Hrefl by reflexivity. unfold reserve. wp_step. wp_step; [|done]. wp_step. wp_step; [|done].
  apply wp_transaction; [done|]. unfold reserve_tx, admissionGeneration.
  set (j0 := staged_job cfg _ _ _).
  wp_step. wp_step; [|done]. wp_step. wp_step. wp_step; [|done]. wp_step. wp_step. wp_step; [|done].
  wp_step. apply wp_capacityNow. intros [c|]; [|done]. wp_step. wp_step; [|done]. wp_step. wp_step; [|done].
  wp_step. wp_step. wp_step. wp_step; [|done]. wp_step. wp_step; [|done]. wp_step.
  apply wp_checkTenantDebt. intros [[]|]; [|done]. wp_step. wp_step; [|done]. wp_step.
  apply wp_insert_job; [|done]. intros raw Hnew He Hck. wp_step.
  assert (j_ReservedBytes (with_deadlines j0 t) = c_MaxAttachment cfg + JobMetadataLimit + JobResultLimit) as Hres by done.
  bool_hyps. cbn in Hnew. set (j := with_deadlines j0 t) in *. set (row := mkRow _ _ _ _ _ _ _ _ raw).
  assert (reserved_ok r j s (with_db s {| (db s) with clock := Some (UnixNano t); jobs := <[j_ID j := row]> (jobs (db s)) |})) as Hok.
  { split_and!; try done.
    - apply Inv_insert; try done.
      + by apply (encode_decode j).
      + repeat split. cbn. unfold row_checks in Hck. bool_hyps. lia.
      + apply staged_inv.
      + apply quota_insert; [apply Hinv|done|cbn in *; lia..].
    - cbn. rewrite jobOf_insert_eq. by apply (encode_decode j).
    - intros id' ?. cbn. by rewrite jobOf_insert_ne. }
  pose proof (reserved_evolves _ _ _ _ Hok). pose proof Hok as [Hinv' _]. by split_and!.
Qed.

(** ** [cleanupStaging] *)

(** Unlinking either file of a job that needs no payload keeps the invariant. *)
Lemma Inv_remove jb sp la id n j :
  InvOf cfg jb sp la → jobOf jb id = Some j → needs_payload (j_State j) = false →
  n = tmp_name id ∨ n = blob_name id → InvOf cfg jb (delete n sp) la.
Proof.
  intros Hinv Hj Hn Hx. eapply Inv_spool; [exact Hinv|]. intros id2 j2 Hj2 Hn2.
  apply lookup_delete_ne. destruct Hx as [->| ->]; [apply tmp_name_ne|].
  intros Heq%(inj blob_name). subst. congruence.
Qed.

Lemma wp_remove id n j s0 s (Q : res bool → St → Prop) :
  InvOf cfg (jobs (db s0)) (spool s) (liveAttempts s) → jobOf (jobs (db s0)) id = Some j →
  needs_payload (j_State j) = false → n = tmp_name id ∨ n = blob_name id →
  (∀ r sp, InvOf cfg (jobs (db s0)) sp (liveAttempts s) →
     (∀ n', n' ≠ n → sp !! n' = spool s !! n') →
     (is_ok r = true → sp = delete n (spool s)) → Q r {| s with spool := sp |}) →
  wp (removeStoreFile n) Q s.
Proof.
  intros Hinv Hj Hn Hx HQ.
  assert (∀ r, (is_ok r = true → delete n (spool s) = spool s) → Q r s) as Hsame.
  { intros r Hr. specialize (HQ r (spool s) Hinv). destruct s; apply HQ; [done|]. intros ?. by rewrite Hr. }
  apply wp_removeStoreFile.
  - intros Hnone. apply Hsame. intros _. by apply delete_id.
  - intros _. apply HQ; [by eapply Inv_remove| |done]. intros n' ?. by rewrite lookup_delete_ne.
  - intros e. by apply Hsame.
Qed.

(** A staged job and its files disappear together; any other job stays as it
    was, and so does its payload. *)
Lemma wp_cleanupStaging own id s (Q : res unit → St → Prop) :
  Inv cfg s →
  (∀ r s', Inv cfg s' → clock (db s') = clock (db s) → closed s' = closed s → active s' = active s → evolves rm (around own id) s s' →
     (∀ id', id' ≠ id → jobOf (jobs (db s')) id' = jobOf (jobs (db s)) id') →
     (r = Ok tt → jobs (db s') !! id = None ∧ spool s' !! tmp_name id = None ∧ spool s' !! blob_name id = None) →
     Q r s') →
  wp (cleanupStaging id) Q s.
Proof.
  intros Hinv HQ. unfold cleanupStaging.
  assert (∀ e s', Inv cfg s' → touches id s s' → Q (Err e) s') as HE.
  { intros e s' ? Ht. pose proof (touches_evolves own _ _ _ Ht). destruct Ht as (Hd&_&?&?&_).
    apply HQ; try done; [by rewrite Hd|]. intros. by rewrite Hd. }
  pose proof (touches_refl id s) as Hrefl.
  apply wp_transaction; [by apply HE|]. unfold cleanup_tx.
  wp_step. apply wp_readJobID; [|by intros; apply HE]. intros r j Hr Hd.
  assert (jobOf (jobs (db s)) id = Some j) as Hj by (by eapply jobOf_row).
  wp_step. wp_step; [|by apply HE]. bool_hyps. apply dec_stable in H.
  assert (needs_payload (j_State j) = false) as Hn by (by rewrite H).
  wp_step. eapply wp_remove; [exact Hinv|done|done|by left|].
  intros x sp Hi Hne Hsp.
  assert (touches id s {| s with spool := sp |}) as Ht1 by (apply spool_touches; auto).
  destruct x as [x|e]; [|by apply HE]. specialize (Hsp eq_refl).
  wp_step. eapply (wp_remove id (blob_name id) j s); [exact Hi|done|done|by right|].
  intros y sp2 Hi2 Hne2 Hsp2. set (s2 := {| s with spool := sp2 |}).
  assert (touches id s s2) as Ht2 by (apply spool_touches; cbn in Hne2; intros; rewrite Hne2 by done; auto).
  destruct y as [y|e]; [|by apply (HE e s2)]. specialize (Hsp2 eq_refl). cbn in Hsp2.
  wp_step. wp_step; [|by apply (HE _ s2)]. wp_step. wp_step; [|by apply (HE _ s2)]. wp_step. wp_step.
  cbn. rewrite Hr. wp_step; [|wp_step; by apply (HE _ s2)]. apply wp_modify_db. cbn.
  assert (∀ r, (r = Ok tt → spool s2 !! tmp_name id = None ∧ spool s2 !! blob_name id = None) →
    Q r (with_db s2 {| (db s) with jobs := delete id (jobs (db s)) |})) as Hgone.
  { intros r0 Hr0. apply HQ; [by apply Inv_delete|done|done|done| | |].
    - apply evolves_one; cbn; [intros; by rewrite jobOf_delete_ne| |apply Ht2].
      rewrite jobOf_delete_eq, Hj. by apply rtc_once, life_abandon.
    - intros id' ?. cbn. by rewrite jobOf_delete_ne.
    - intros Hok. split; [apply lookup_delete_eq|]. by apply Hr0. }
  split_and!; [apply Hgone|by apply Hgone|by apply (HE _ s2)].
  intros _. cbn. rewrite Hsp2, Hsp. rewrite lookup_delete_eq. split; [|done].
  rewrite lookup_delete_ne by (by apply not_eq_sym, tmp_name_ne). by rewrite lookup_delete_eq.
Qed.

(** ** Publication *)

Lemma find_reusable_spec t rows : match find_reusable t rows with
  | Some (Some j) => ∃ r, r ∈ rows ∧ decodeJob (r_document r) = Some j ∧ reusable j t = true
  | Some None => ∀ r j, r ∈ rows → decodeJob (r_document r) = Some j → reusable j t = false
  | None => True end.
Proof.
  induction rows as [|r rows IH]; simpl; [by intros ?? ?%elem_of_nil|].
  destruct (decodeJob (r_document r)) as [j|] eqn:Hd; [|done].
  destruct (reusable j t) eqn:Hu.
  - exists r. split; [left|done].
  - destruct (find_reusable t rows) as [[j2|]|]; [|intros r2 j2 [->|?]%elem_of_cons ?; [congruence|eauto]|done].
    destruct IH as (r2&?&?&?). exists r2. split; [by right|done].
Qed.

(** The key of the deduplication query. *)
Definition same_request (j : Job) (digest : string) (q : Job) : Prop :=
  j_Tenant q = j_Tenant j ∧ j_Digest q = digest ∧ j_Generation q = j_Generation j
  ∧ j_SubmissionPolicy q = j_SubmissionPolicy j ∧ j_ResultPolicy q = j_ResultPolicy j.

(** The admitted job, as the caller gets it, by the store's own clock [t]: a
    job that was already published for the same request and may be reused at
    [t], or the staged job [j], queued, when there is none. *)
Definition admitted (j : Job) (content : string) (q : Job) (reused : bool) (s : St) : Prop :=
  jobOf (jobs (db s)) (j_ID q) = Some q ∧ same_request j (digest_of content) q
  ∧ ∃ t, clock (db s) = Some (UnixNano t)
     ∧ if reused then reusable q t = true ∧ j_State q ≠ Staging ∧ j_ID q ≠ j_ID j
       else j_State q = Queued ∧ j_ID q = j_ID j ∧ spool s !! blob_name (j_ID q) = Some content
         ∧ ∀ id q', id ≠ j_ID j → jobOf (jobs (db s)) id = Some q' →
             same_request j (digest_of content) q' → reusable q' t = false.

Lemma digest_of_nonempty content : digest_of content ≠ "".
Proof.
  intros H. assert (len (digest_of content) = 64) as H64 by (unfold digest_of; by rewrite hex_encode_len, sha256_len).
  by rewrite H in H64.
Qed.

Lemma rows_of_elem jb r : r ∈ rows_of jb ↔ ∃ id, jb !! id = Some r.
Proof.
  unfold rows_of. rewrite list_elem_of_fmap. split.
  - intros ([id r']&->&Hin%elem_of_map_to_list). eauto.
  - intros [id Hid]. exists (id, r). split; [done|]. by apply elem_of_map_to_list.
Qed.

Lemma same_content_spec j digest r : same_content j digest r = true ↔
  r_tenant r = j_Tenant j ∧ r_digest r = digest ∧ r_generation r = j_Generation j
  ∧ r_submission_policy r = j_SubmissionPolicy j ∧ r_result_policy r = j_ResultPolicy j.
Proof. unfold same_content. rewrite !andb_true_iff, !bool_decide_eq_true. tauto. Qed.

Lemma queued_inv j size digest static :
  job_inv j → j_State j = Staging → job_inv (queued_job j size digest static).
Proof.
  intros Hji Hs. pose proof Hji as []. constructor; cbn; auto; try done.
  - intros Hr. destruct (ji_result Hr). congruence.
  - intros Hsu. apply ji_suppressed in Hsu. by rewrite Hs in Hsu.
  - intros Hr Hv. destruct (ji_attempt Hr Hv) as [Hf|]; [by rewrite Hs in Hf|by right].
  - lia.
Qed.

(** The staged job the writer holds is the row its compare-and-swap found. *)
Lemma owns_row j content s r :
  Inv cfg s → owns j content s → jobs (db s) !! j_ID j = Some r → r_version r = j_Version j →
  jobOf (jobs (db s)) (j_ID j) = Some j.
Proof.
  intros Hinv (_&(j'&Hj'&Hrtc)&_) Hr Hv.
  destruct (jobOf_inv _ _ _ (inv_rows _ _ _ _ Hinv) Hj') as (r'&Hr'&_&Hm).
  assert (j_Version j' = r_version r') as Hv' by apply Hm. simplify_eq.
  rewrite Hj'. f_equal. apply rtc_legal_version; [done|congruence].
Qed.

Lemma wp_publish_tx j content static s :
  Inv cfg s → owns j (Some content) s → 1 <= len content <= c_MaxAttachment cfg →
  j_ReservedBytes j = c_MaxAttachment cfg + JobMetadataLimit + JobResultLimit → j_Digest j = "" →
  wp (publish_tx j (len content) (digest_of content) static)
    (λ r s', match r with
     | Ok (q, reused) => Inv cfg s' ∧ admitted j content q reused s' ∧ closed s' = closed s
         ∧ (∀ id, id ≠ j_ID j → jobOf (jobs (db s')) id = jobOf (jobs (db s)) id)
         ∧ rtc (life rm) (jobOf (jobs (db s)) (j_ID j)) (jobOf (jobs (db s')) (j_ID j))
         ∧ spool s' = spool s ∧ liveAttempts s' = liveAttempts s ∧ active s' = active s
     | Err _ => spool s' = spool s ∧ liveAttempts s' = liveAttempts s ∧ active s' = active s ∧ closed s' = closed s
     end) s.
Proof.
  intros Hinv Hown Hlen Hres Hdig. unfold publish_tx.
  wp_step. wp_step; [|done]. wp_step. wp_step; [|done]. wp_step. wp_step; [|done]. wp_step. wp_step.
  set (s1 := with_db s _). assert (Inv cfg s1) as Hinv1 by exact Hinv.
  pose proof (find_reusable_spec t (filter (λ r, Is_true (same_content j (digest_of content) r)) (rows_of (jobs (db s1))))) as Hf.
  destruct (find_reusable _ _) as [[q|]|]; [..|by wp_step].
  - destruct Hf as (r&Hin&Hd&Hu). apply list_elem_of_filter in Hin as [Hsc Hin].
    apply Is_true_true, same_content_spec in Hsc as (?&?&?&?&?).
    apply rows_of_elem in Hin as [id Hid].
    destruct (inv_rows _ _ _ _ Hinv1 _ _ Hid) as (q'&Hd'&Hm). simplify_eq.
    destruct Hm as (<-&?&?&?&?&?&?&?&?&?).
    assert (jobOf (jobs (db s1)) (j_ID q) = Some q) as Hq by (by eapply jobOf_row).
    assert (j_Digest q ≠ "") as Hne by (pose proof (digest_of_nonempty content); congruence).
    wp_step. unfold admitted, same_request. split_and!; try done; try congruence.
    exists t. split_and!; [done|done| |].
    + intros Hs. by apply Hne, (ji_staged _ (inv_jobs _ _ _ _ Hinv1 _ _ Hq)).
    + destruct Hown as (Hst&(j'&Hj'&Hrtc)&_). intros Heq. change (jobs (db s1)) with (jobs (db s)) in Hq.
      rewrite Heq, Hj' in Hq. simplify_eq. destruct (legal_rtc_identity _ _ Hrtc) as [_ Hdg]. congruence.
  - wp_step. apply wp_putJob; [|done]. intros r raw Hr Ht Hst Hv He Hck. wp_step.
    pose proof (owns_row j (Some content) s1 r Hinv1 Hown Hr Hv) as Hj.
    assert (jobs (db s1) !! j_ID j = Some r) as Hr1 by done.
    set (q := queued_job _ _ _ _) in *.
    destruct Hown as (Hs&_&Hblob).
    assert (payload_at (spool s1) q) as Hpay.
    { exists content. split_and!; try done; cbn; destruct Hcfg; lia. }
    assert (∀ id2 j2, id2 ≠ j_ID j → jobOf (jobs (db s1)) id2 = Some j2 → same_request j (digest_of content) j2 →
      reusable j2 t = false) as Hnone.
    { intros id2 j2 _ Hj2 (?&?&?&?&?).
      destruct (jobOf_inv _ _ _ (inv_rows _ _ _ _ Hinv1) Hj2) as (r2&Hr2&Hd2&Hm2).
      apply (Hf r2 j2); [|done]. apply list_elem_of_filter.
      split; [|apply rows_of_elem; eauto]. apply Is_true_true, same_content_spec.
      destruct Hm2 as (?&?&?&?&?&?&?&?&?&?). repeat split; congruence. }
    split_and!; try done.
    + eapply (Inv_replace cfg _ _ _ (j_ID j) r j q raw); try done.
      * apply queued_inv; [|done]. by eapply (inv_jobs _ _ _ _ Hinv1).
      * cbn. lia.
      * intros id2 j2 Hne Hj2 (?&?&?&?&?) Hh1 Hh2. specialize (Hnone id2 j2 Hne Hj2).
        rewrite (holds_reusable _ _ Hh2) in Hnone. cbn in *. discriminate Hnone. repeat split; congruence.
    + split; [cbn; rewrite jobOf_insert_eq; by apply (encode_decode q)|]. split; [by repeat split|].
      exists t. split_and!; [done..|]. intros id2 j2 Hne. cbn. rewrite jobOf_insert_ne by done. by apply Hnone.
    + intros id Hne. cbn. by rewrite jobOf_insert_ne.
    + cbn. rewrite jobOf_insert_eq. change (jobs (db s)) with (jobs (db s1)). rewrite Hj.
      unfold put_row. cbn. rewrite (encode_decode q raw He Hck). apply rtc_once, life_publish; [done|].
      destruct Hcfg. lia.
Qed.

Lemma wp_abandon {A} own id e s0 (Q : res A → St → Prop) s :
  Inv cfg s → evolves rm (around own id) s0 s →
  (∀ e s', Inv cfg s' → evolves rm (around own id) s0 s' → Q (Err e) s') → wp (abandon id e) Q s.
Proof.
  intros Hinv He0 HQ. unfold abandon. wp_step. apply (wp_cleanupStaging own); [done|].
  intros [[]|e'] s' Hi _ _ _ He _ _; [wp_step|]; (apply HQ; [done|by etrans]).
Qed.

(** What the writer hands over for publication. *)
Definition handed_over (j : Job) (c : string) (w : res (Z * string * string)) (s : St) : Prop :=
  match w with
  | Ok (size, digest, _) => owns j (Some c) s ∧ size = len c ∧ 1 <= size <= c_MaxAttachment cfg
                            ∧ digest = digest_of c
  | Err _ => ∃ c, owns j c s
  end.

(** Neither the job nor a file of it is left. *)
Definition gone (id : string) (s : St) : Prop :=
  jobs (db s) !! id = None ∧ spool s !! tmp_name id = None ∧ spool s !! blob_name id = None.

(** Publication admits the content that was staged, or reports an error; an
    ambiguous commit never loses the payload of a queued job. *)
Lemma wp_publish own j c w s0 s :
  Inv cfg s → evolves rm (around own (j_ID j)) s0 s → handed_over j c w s →
  j_ReservedBytes j = c_MaxAttachment cfg + JobMetadataLimit + JobResultLimit → j_Digest j = "" →
  wp (publish j w)
    (λ r s', Inv cfg s' ∧ evolves rm (around own (j_ID j)) s0 s' ∧ match r with
       | Ok ad => ∃ static, w = Ok (len c, digest_of c, static) ∧ 1 <= len c <= c_MaxAttachment cfg
                    ∧ ad_CurrentStatic ad = static ∧ admitted j c (ad_Job ad) (ad_Reused ad) s'
                    ∧ (ad_Reused ad = true → gone (j_ID j) s')
       | Err _ => True end) s.
Proof.
  intros Hinv Hev Hw Hres Hdig.
  assert (∀ e s', Inv cfg s' → evolves rm (around own (j_ID j)) s0 s' →
    wp (abandon (j_ID j) e) (λ (r : res Admission) s', Inv cfg s' ∧ evolves rm (around own (j_ID j)) s0 s' ∧ match r with
       | Ok ad => ∃ static, w = Ok (len c, digest_of c, static) ∧ 1 <= len c <= c_MaxAttachment cfg
                    ∧ ad_CurrentStatic ad = static ∧ admitted j c (ad_Job ad) (ad_Reused ad) s'
                    ∧ (ad_Reused ad = true → gone (j_ID j) s')
       | Err _ => True end) s') as Hab.
  { intros e s' ??. eapply (wp_abandon own _ _ s0); [done..|]. by intros. }
  unfold publish. destruct w as [[[size digest] static]|e]; [|by apply Hab].
  destruct Hw as (Hown&->&Hlen&->). wp_step. wp_step. wp_step. apply wp_ctxDone. intros cancelled.
  case_match; [by apply Hab|]. wp_step. wp_step. apply wp_transaction.
  { by apply Hab. }
  assert (∀ s1, spool s1 = spool s → liveAttempts s1 = liveAttempts s →
    Inv cfg (with_db s1 (db s)) ∧ evolves rm (around own (j_ID j)) s0 (with_db s1 (db s))) as Hroll.
  { intros s1 Hsp Hla. split; [unfold Inv; cbn; by rewrite Hsp, Hla|]. etrans; [exact Hev|].
    by apply updates_evolves, updates_same. }
  eapply wp_mono; [by apply (wp_publish_tx j c static s)|]. intros [[q reused]|e] s1 H1.
  2:{ destruct H1 as (Hsp&Hla&_). apply Hab; by apply Hroll. }
  destruct H1 as (Hinv1&Had&Hcl&Hne&Hlife&Hsp&Hla&_).
  assert (evolves rm (around own (j_ID j)) s0 s1) as Hev1.
  { etrans; [exact Hev|]. apply evolves_one; [done|done|]. intros n _ _. by rewrite Hsp. }
  split_and!; [|by apply Hab|by apply Hab; apply Hroll].
  wp_step. eapply (wp_mono _ (λ r s', Inv cfg s' ∧ evolves rm (around own (j_ID j)) s0 s'
    ∧ match r with Ok _ => admitted j c q reused s' ∧ (reused = true → gone (j_ID j) s') | Err _ => True end)).
  - destruct reused; [|by wp_step]. apply (wp_cleanupStaging own); [done|].
    intros r s2 Hinv2 Hck _ _ Hev2 Hne2 Hgone. split; [done|]. split; [by etrans|]. destruct r as [[]|]; [|done].
    destruct Had as (Hq&Hk&t&Ht&Hu&Hst&Hid). split; [|intros _; by apply Hgone].
    split; [by rewrite Hne2|]. split; [done|]. exists t. by rewrite Hck.
  - intros [[]|e] s2 (Hinv2&Hev2&Had2); [|done]. wp_step. wp_step; [|done]. wp_step.
    split; [done|]. split; [done|]. by exists static.
Qed.

Lemma wp_classifyIngress j size f s (Q : res string → St → Prop) :
  (∀ r, Q r s) → wp (classifyIngress j size f) Q s.
Proof.
  intros H. unfold classifyIngress. wp_step. apply wp_ctxDone. intros b. wp_go; auto.
  apply wp_ctxDone. intros b'. wp_go; auto. destruct (f _) as [v|]; wp_go; auto.
Qed.

Lemma wp_receive_body own others j reads classify c0 s0 s :
  respectful own others → Inv cfg s → owns j c0 s → evolves rm (around own (j_ID j)) s0 s →
  wp (receive_body cfg others j reads classify)
    (λ w s', Inv cfg s' ∧ evolves rm (around own (j_ID j)) s0 s' ∧ handed_over j (stream reads) w s') s.
Proof.
  intros Ho Hinv Hown Hev. unfold receive_body. wp_step.
  eapply wp_mono; [by eapply wp_writeIngress|]. intros w s1 (Hinv1&Ht&H1).
  assert (evolves rm (around own (j_ID j)) s0 s1) as Hev1 by (etrans; [exact Hev|by apply touches_evolves]).
  destruct w as [[size digest]|e]; [|done]. destruct H1 as (Hown1&->&Hlen&->).
  wp_step. wp_step. eapply wp_others; [done..|]. intros _ s2 Hinv2 Hown2 Hev2. cbn [fst snd].
  destruct classify as [f|].
  - wp_step. apply wp_classifyIngress. intros [v|e].
    + wp_step. by split_and!.
    + split; [done|]. split; [done|]. by exists (Some (stream reads)).
  - wp_step. by split_and!.
Qed.

(** The stored jobs a request for [content] is a repetition of. *)
Definition repeats (request : EnqueueRequest) (content : string) (q : Job) : Prop :=
  j_Tenant q = rq_Tenant request ∧ j_Generation q = rq_Generation request
  ∧ j_SubmissionPolicy q = rq_SubmissionPolicy request ∧ j_ResultPolicy q = rq_ResultPolicy request
  ∧ j_Digest q = digest_of content.

(** Which stored jobs may answer a repeated request at [t]: those that still owe
    something remotely or are on their way, and results that are complete, not
    suppressed and less than a day old. *)
Definition may_reuse (q : Job) (t : Time) : Prop :=
  j_DedupBarrier q = true
  ∨ j_State q ∈ [Queued; Submitting; SubmitUncertain; RemotePending; Fetching]
  ∨ (j_State q = Completed ∧ j_Suppressed q = false ∧ j_TerminalAt q ≠ 0 ∧ t < j_TerminalAt q + 24 * hour).

Lemma reusable_iff q t : reusable q t = true ↔ may_reuse q t.
Proof.
  unfold reusable, may_reuse, IsZero, Before. rewrite !elem_of_cons, elem_of_nil.
  destruct (j_DedupBarrier q); [tauto|]. destruct (j_State q);
    rewrite ?andb_true_iff, ?negb_true_iff, ?Z.eqb_neq, ?Z.ltb_lt; intuition congruence.
Qed.

(** What a caller of [enqueue] gets for the job [id] reserved in [s], by the
    store's clock [t]: a job of another id that was already published and may be
    reused at [t], nothing of [id] being left; or the job [id], queued with the
    content, when no other stored job may be reused at [t]. *)
Definition admission_of (request : EnqueueRequest) (content : string) (s : St) (ad : Admission) (s' : St) : Prop :=
  let q := ad_Job ad in
  jobOf (jobs (db s')) (j_ID q) = Some q ∧ repeats request content q
  ∧ ∃ id t, jobs (db s) !! id = None ∧ clock (db s') = Some (UnixNano t)
     ∧ if ad_Reused ad
       then may_reuse q t ∧ j_State q ≠ Staging ∧ j_ID q ≠ id ∧ gone id s'
       else j_ID q = id ∧ j_State q = Queued ∧ spool s' !! blob_name id = Some content
         ∧ ∀ id' q', id' ≠ id → jobOf (jobs (db s')) id' = Some q' → repeats request content q' → ¬ may_reuse q' t.

(** A job admitted after [s]: no longer its writer's business. *)
Lemma evolves_admitted own id s s' :
  jobs (db s) !! id = None → evolves rm (around own id) s s' → evolves rm own s s'.
Proof.
  intros Hnew [Hl Hk]. split; [done|]. intros id' Hid' j Hj. apply Hk; [|done].
  intros [?| ->]; [done|]. unfold jobOf in Hj. by rewrite Hnew in Hj.
Qed.

Lemma wp_enqueue own others request reads classify s :
  respectful own others → Inv cfg s →
  wp (enqueue cfg others request reads classify)
    (λ r s', Inv cfg s' ∧ evolves rm own s s'
       ∧ match r with
         | Ok ad => ∃ body, reads = Some body ∧ 1 <= len (stream body) <= c_MaxAttachment cfg
                      ∧ admission_of request (stream body) s ad s'
         | Err _ => True end) s.
Proof.
  intros Ho Hinv. assert (evolves rm own s s) as Hrefl by reflexivity.
  unfold enqueue. destruct reads as [reads|]; [|by wp_step]. wp_pre.
  eapply wp_mono; [by apply wp_reserve|]. intros [j|e] s1 (Hinv1&Hev1&Hr).
  2:{ split_and!; [done| |done]. eapply evolves_weaken; [|done]. by intros ? []. }
  destruct Hr as (_&Hnew&Hj&Hst&Hv&Ht&Hg&Hsp&Hrp&Hres&Hsv&Hdig&_).
  assert (owns j (spool s1 !! blob_name (j_ID j)) s1) as Hown.
  { split_and!; [done| |done]. exists j. split; [done|apply rtc_refl]. }
  wp_step. wp_step. set (s2 := {| s1 with active := _ |}).
  assert (evolves rm (around own (j_ID j)) s s2) as Hev2.
  { eapply evolves_weaken; [|exact Hev1]. by intros ? []. }
  wp_step. wp_step. eapply (wp_others own others j (spool s1 !! blob_name (j_ID j)) s s2); [done..|].
  intros _ s3 Hinv3 Hown3 Hev3. wp_step. wp_step. eapply wp_mono; [by eapply wp_receive_body|].
  intros w s4 (Hinv4&Hev4&Hw). wp_step. wp_step.
  assert (∃ c, owns j c s4) as [c4 Hown4] by (destruct w as [[[??]?]|]; [destruct Hw as (?&_)|]; eauto).
  eapply (wp_mono _ (λ _ s', Inv cfg s' ∧ evolves rm (around own (j_ID j)) s s' ∧ handed_over j (stream reads) w s')).
  { assert (∀ s5, evolves rm (but own (j_ID j)) s4 s5 → handed_over j (stream reads) w s5) as Hh.
    { intros s5 He. assert (¬ but own (j_ID j) (j_ID j)) as Hn by (by intros [_ ?]).
      destruct w as [[[size digest] st]|e].
      - destruct Hw as (Hc&?&?&?). split; [by eapply owns_kept|auto].
      - destruct Hw as (c&Hc). exists c. by eapply owns_kept. }
    eapply wp_mono; [by apply Ho|]. intros _ s5 [Hinv5 Hk]. split_and!; [done| |by apply Hh].
    etrans; [exact Hev4|]. eapply evolves_weaken; [|exact Hk]. intros x [? _]. by left. }
  intros _ s5 (Hinv5&Hev5&Hw5). wp_step. wp_step.
  eapply wp_mono; [by apply (wp_publish own j (stream reads) w s s5)|].
  intros r s6 (Hinv6&Hev6&Hr). wp_step. wp_step. apply wp_of_res.
  split; [done|]. split; [exact (evolves_admitted own (j_ID j) _ s6 Hnew Hev6)|]. destruct r as [ad|]; [|done].
  destruct Hr as (static&->&Hlen&Hst'&(Hq&(?&?&?&?&?)&t&Hck&Hcase)&Hgone).
  exists reads. split; [done|]. split; [done|]. split; [exact Hq|].
  split; [repeat split; congruence|]. exists (j_ID j), t. split; [done|]. split; [done|].
  destruct (ad_Reused ad).
  - destruct Hcase as (Hu&?&?). split; [by apply reusable_iff|auto].
  - destruct Hcase as (?&Hid&Hb&Hnone). rewrite Hid in Hb. split_and!; [done..|].
    intros id' q' Hne Hq' (?&?&?&?&?) Hu. apply reusable_iff in Hu. rewrite (Hnone id' q') in Hu; [done|done|done|]. repeat split; congruence.
Qed.


End Admission.
