(* ===== verification/CapeRecovery.v ===== *)
(** * Startup reconciliation

    [internal/cape/store_state.go]: [recover] and its three passes; also
    [List] and [Close] of [store.go].  Go iterates maps and directories in any
    order: the orders are parameters of the passes. *)

From Stdlib Require Import ZArith Lia SpecFloat.
From Stdlib Require Ascii.
From stdpp Require Import base gmap strings list numbers sorting.
From S2P Require Import Prelude GoStd CapeTypes CapeJob CapeStore CapeLogic CapeInv CapeLifecycle.
From S2P Require Import CapeSubmission CapeIngress CapeAdmission.

Local Open Scope Z_scope.

(** [strings.Cut(name, ".")] *)
Fixpoint cut_dot (s : string) : option (string * string) :=
  match s with
  | EmptyString => None
  | String c s =>
      if byte c =? 46 then Some (EmptyString, s)
      else match cut_dot s with
           | Some (a, b) => Some (String c a, b)
           | None => None
           end
  end.

Section Recovery.
Context {E : CapeEnv} (cfg : StoreConfig).

(** Iteration orders of a Go map and of a directory. *)
Context (order : gmap string Job → list (string * Job)).
Context (readdir : gmap string string → list (string * string)).

(** The loop of [loadRecoveryJobs]. *)
Fixpoint load_rows (rows : list Row) (jobs : gmap string Job) : option (gmap string Job) :=
  match rows with
  | [] => Some jobs
  | r :: rest =>
      match decodeJob (r_document r) with
      | None => None
      | Some j =>
          if negb (validJobID (j_ID j)) || (10000 <=? Z.of_nat (size jobs)) then None
          else load_rows rest (<[j_ID j := j]> jobs)
      end
  end.

Definition loadRecoveryJobs : M (gmap string Job) :=
  exec ;;
  s ← get;
  match load_rows (rows_of (jobs (db s))) ∅ with
  | Some m => mret m
  | None => throw ErrStoreUnavailable
  end.

(** A submission interrupted by the crash may have sent bytes. *)
Definition uncertain_job (j : Job) : Job :=
  {| j with
     j_State := SubmitUncertain; j_Version := j_Version j + 1; j_UnknownDebt := true;
     j_DedupBarrier := true; j_Cleanup := remote_delete_failed; j_Reason := Transport |}.

Definition spool_released (st : JobState) : bool :=
  match st with
  | RemotePending | Fetching | Completed | Cancelled | Failed | Expired => true
  | _ => false
  end.

(** One iteration of [reconcileRecoveryJobs]: the map after it. *)
Definition reconcile_job (m : gmap string Job) (id : string) (j : Job) : M (gmap string Job) :=
  if bool_decide (j_State j = Staging) then
    cleanupStaging id ;; mret (delete id m)
  else if bool_decide (j_State j = Submitting) then
    transaction (putJob (uncertain_job j) j) ;;
    mret (<[id := uncertain_job j]> m)
  else if spool_released (j_State j) then
    removeStoreFile (blob_name id) ;; mret m
  else mret m.

Fixpoint reconcile_jobs (l : list (string * Job)) (m : gmap string Job) : M (gmap string Job) :=
  match l with
  | [] => mret m
  | (id, j) :: rest => m' ← reconcile_job m id j; reconcile_jobs rest m'
  end.

Definition reconcileRecoveryJobs (m : gmap string Job) : M (gmap string Job) :=
  reconcile_jobs (order m) m.

(** One directory entry; the number of entries read so far bounds the scan. *)
Definition reconcile_entry (m : gmap string Job) (count : Z) (name content : string) (seen : gset string)
    : M (gset string) :=
  match cut_dot name with
  | None => throw ErrStoreUnavailable
  | Some (id, ext) =>
      reject ((20000 <? count) || negb (validJobID id)
              || bool_decide (ext ≠ "tmp") && bool_decide (ext ≠ "blob")) ErrStoreUnavailable ;;
      exec ;;
      match m !! id with
      | Some j =>
          if bool_decide (ext = "blob")
             && (bool_decide (j_State j = Queued) || bool_decide (j_State j = SubmitUncertain))
          then
            reject (negb (len content =? j_PayloadBytes j) || (j_PayloadBytes j <? 1)
                    || (MaxAttachment <? j_PayloadBytes j)) ErrStoreUnavailable ;;
            mret ({[id]} ∪ seen)
          else removeStoreFile name ;; mret seen
      | None => removeStoreFile name ;; mret seen
      end
  end.

Fixpoint reconcile_entries (m : gmap string Job) (count : Z) (l : list (string * string))
    (seen : gset string) : M (gset string) :=
  match l with
  | [] => mret seen
  | (name, content) :: rest =>
      seen' ← reconcile_entry m (count + 1) name content seen;
      reconcile_entries m (count + 1) rest seen'
  end.

Definition reconcileRecoverySpool (m : gmap string Job) : M (gset string) :=
  exec ;;
  s ← get;
  seen ← reconcile_entries m 0 (readdir (spool s)) ∅;
  exec ;;
  mret seen.

(** A queued or uncertain job without its payload fails the start. *)
Definition payload_missing (seen : gset string) (p : string * Job) : bool :=
  (bool_decide (j_State p.2 = Queued) || bool_decide (j_State p.2 = SubmitUncertain))
  && bool_decide (p.1 ∉ seen).

(** [recover] *)
Definition recover : M unit :=
  m ← loadRecoveryJobs;
  m ← reconcileRecoveryJobs m;
  seen ← reconcileRecoverySpool m;
  reject (existsb (payload_missing seen) (order m)) ErrStoreUnavailable.

(** The store of a process that starts over the files another one left. *)
Definition restart (s : St) : St :=
  {| s with closed := false; schedulerRunning := false; active := ∅; liveAttempts := ∅;
     maintenanceDeadlineCursor := ""; maintenanceCleanupCursor := ""; cleanupDeadlineCursor := "";
     schedulerCursor := "" |}.

(** ** [List] and [Close] (store.go) *)

(** [SELECT document FROM jobs WHERE tenant=? AND state=? ORDER BY id LIMIT ?] *)
Definition List_jobs (tenant : string) (state : JobState) (limit : Z) : M (list Job) :=
  s ← get;
  reject (closed s) (cerr Closed) ;;
  reject ((limit <? 1) || (1000 <? limit)) (cerr Invalid) ;;
  exec ;;
  s ← get;
  match scanJobBatch (select_rows (λ _ r, bool_decide (r_tenant r = tenant) && bool_decide (r_state r = state))
                        (Z.to_nat limit) (jobs (db s))) with
  | Some l => mret l
  | None => throw ErrStoreUnavailable
  end.

(** [Close]; joining the writers lets them finish: [writers]. *)
Definition Close (writers : M unit) : M unit :=
  s ← get;
  reject (schedulerRunning s) ErrConflict ;;
  reject (closed s) (cerr Closed) ;;
  modify (λ s, {| s with closed := true; active := (λ _, true) <$> active s |}) ;;
  try writers ;;
  checkpoint.

(** ** Reconciliation succeeds only on a consistent store *)
Context {EOk : CapeEnvOk E}.
Context (order_perm : ∀ m, order m ≡ₚ map_to_list m).
Context (readdir_perm : ∀ m, readdir m ≡ₚ map_to_list m).

(** The map the passes carry is the jobs table. *)
Definition agrees (m : gmap string Job) (s : St) : Prop := ∀ id, jobOf (jobs (db s)) id = m !! id.

Lemma load_rows_spec l : ∀ m m',
  load_rows l.*2 m = Some m' → NoDup l.*1 →
  (∀ id r j, (id, r) ∈ l → decodeJob (r_document r) = Some j → j_ID j = id) →
  ∀ id, (∀ r, (id, r) ∈ l → m' !! id = decodeJob (r_document r)) ∧ (id ∉ l.*1 → m' !! id = m !! id).
Proof.
  induction l as [|[id0 r0] l IH]; intros m m' Hl Hnd Hid id; csimpl in *.
  { simplify_eq. split; [by intros r ?%elem_of_nil|done]. }
  apply list.NoDup_cons in Hnd as [Hnew Hnd].
  destruct (decodeJob (r_document r0)) as [j|] eqn:Hd; [|done]. destruct (_ || _); [done|].
  rewrite (Hid id0 r0 j) in Hl by (done || left).
  destruct (IH _ _ Hl Hnd) with (id := id) as [H1 H2].
  { intros id' r' j' ??. eapply Hid; [by right|done]. }
  split.
  - intros r [[= -> ->]|Hin]%elem_of_cons; [|auto]. rewrite H2 by done. by rewrite lookup_insert_eq, Hd.
  - intros [??]%not_elem_of_cons. rewrite H2 by done. by rewrite lookup_insert_ne.
Qed.

Lemma wp_loadRecoveryJobs s (Q : res (gmap string Job) → St → Prop) :
  Inv cfg s → (∀ m, agrees m s → Q (Ok m) s) → (∀ e, Q (Err e) s) → wp loadRecoveryJobs Q s.
Proof.
  intros Hinv H1 H2. unfold loadRecoveryJobs. wp_go; [|done|done].
  apply H1. intros id. unfold rows_of in Heqo.
  destruct (load_rows_spec _ _ _ Heqo) with (id := id) as [Ha Hb]; [apply NoDup_fst_map_to_list| |].
  - intros id' r j Hr%elem_of_map_to_list Hd.
    destruct (inv_rows _ _ _ _ Hinv _ _ Hr) as (j'&Hd'&Hm). simplify_eq. by destruct Hm.
  - unfold jobOf. destruct (jobs (db s) !! id) as [r|] eqn:Hr.
    + simpl. symmetry. apply Ha. by apply elem_of_map_to_list.
    + simpl. rewrite Hb; [done|]. intros ([id' r]&->&Hin%elem_of_map_to_list)%list_elem_of_fmap.
      simpl in Hr. congruence.
Qed.

Lemma uncertain_legal j : j_State j = Submitting → legal j (uncertain_job j).
Proof.
  intros Hs. unfold uncertain_job. legal_tac.
  - by rewrite Hs.
  - intros Hji Hsu. pose proof (ji_suppressed _ Hji Hsu) as Ht. by rewrite Hs in Ht.
  - intros _ _. by apply needs_payload_holds; rewrite Hs.
Qed.

(** What startup makes of a stored job: staging is abandoned, an attempt in
    flight becomes uncertain, anything else is kept. *)
Definition recovered_job (j : Job) : option Job :=
  if bool_decide (j_State j = Staging) then None
  else if bool_decide (j_State j = Submitting) then Some (uncertain_job j)
  else Some j.

(** The loop invariant: processed ids are recovered, pending ones untouched. *)
Definition reconciled (m0 : gmap string Job) (pending : list (string * Job)) (m : gmap string Job) (s : St) : Prop :=
  Inv cfg s ∧ agrees m s ∧ NoDup pending.*1
  ∧ (∀ id j, (id, j) ∈ pending → m !! id = Some j ∧ m0 !! id = Some j)
  ∧ ∀ id, id ∉ pending.*1 → m !! id = m0 !! id ≫= recovered_job.

Lemma reconciled_step m0 id j rest m s m' s' :
  reconciled m0 ((id, j) :: rest) m s → Inv cfg s' → agrees m' s' →
  m' !! id = recovered_job j → (∀ id', id' ≠ id → m' !! id' = m !! id') →
  reconciled m0 rest m' s'.
Proof.
  intros (Hinv&Hag&Hnd&Hp&Hs) Hinv' Hag' Hid Hne. csimpl in *. apply list.NoDup_cons in Hnd as [Hnew Hnd].
  split_and!; [done|done|done| |].
  - intros id' j' Hin. rewrite Hne; [apply Hp; by right|]. intros ->. apply Hnew.
    apply list_elem_of_fmap. by exists (id, j').
  - intros id' Hn. destruct (decide (id' = id)) as [->|].
    + destruct (Hp id j (list_elem_of_here _ _)) as [_ Hm0]. by rewrite Hid, Hm0.
    + rewrite Hne by done. apply Hs. by apply not_elem_of_cons.
Qed.

Lemma wp_reconcile_job m0 id j rest m s (Q : res (gmap string Job) → St → Prop) :
  reconciled m0 ((id, j) :: rest) m s →
  (∀ m' s', reconciled m0 rest m' s' → Q (Ok m') s') → (∀ e s', Inv cfg s' → Q (Err e) s') →
  wp (reconcile_job m id j) Q s.
Proof.
  intros Hrec HQ HE. pose proof Hrec as (Hinv&Hag&_&Hp&_).
  destruct (Hp id j (list_elem_of_here _ _)) as [Hm _].
  assert (jobOf (jobs (db s)) id = Some j) as Hj by (by rewrite Hag).
  assert (j_ID j = id) as Hid by (eapply jobOf_ID; [apply Hinv|done]).
  unfold reconcile_job. case_bool_decide as Hst.
  { wp_step. apply (wp_cleanupStaging cfg false nobody); [done|]. intros [[]|e] s' Hinv' _ _ _ _ Hne Hok; [|by apply HE].
    wp_step. destruct (Hok eq_refl) as (Hgone&_). apply HQ.
    eapply reconciled_step; [done|done| | |by intros; apply lookup_delete_ne].
    - intros id'. destruct (decide (id' = id)) as [->|].
      + rewrite lookup_delete_eq. unfold jobOf. by rewrite Hgone.
      + by rewrite Hne, lookup_delete_ne.
    - rewrite lookup_delete_eq. unfold recovered_job. by rewrite bool_decide_true. }
  case_bool_decide as Hsub.
  { wp_step. eapply wp_mono with (P := λ r s', Inv cfg s' ∧ match r with
      | Ok _ => jobOf (jobs (db s')) id = Some (uncertain_job j)
                ∧ ∀ id', id' ≠ id → jobOf (jobs (db s')) id' = jobOf (jobs (db s)) id'
      | Err _ => True end).
    - eapply wp_tx; [done| |by intros]. subst id.
      eapply (wp_putJob_legal cfg); [done|done|by apply uncertain_legal| |].
      + intros d s' Hinv' Hup Hj' Hne. pose proof Hup as [_ ?]. by split_and!.
      + intros e. split; [exact Hinv|]. split; [by intros ????|done].
    - intros [[]|e] s' [Hinv' H']; [|by apply HE]. destruct H' as [Hj' Hne]. wp_step. apply HQ.
      eapply reconciled_step; [done|done| | |by intros; apply lookup_insert_ne].
      + intros id'. destruct (decide (id' = id)) as [->|]; [by rewrite lookup_insert_eq|].
        by rewrite Hne, lookup_insert_ne.
      + rewrite lookup_insert_eq. unfold recovered_job. by rewrite bool_decide_false, bool_decide_true. }
  assert (m !! id = recovered_job j) as Hrec'
    by (unfold recovered_job; by rewrite !bool_decide_false).
  case_match eqn:Hrel; [|wp_step; apply HQ; by eapply reconciled_step].
  wp_step. eapply (wp_remove cfg id _ j s); [exact Hinv|done|by destruct (j_State j)|by right|].
  intros [x|e] sp Hi _ _; [|by apply HE]. wp_step. apply HQ. by eapply reconciled_step.
Qed.

Lemma wp_reconcile_jobs m0 l m s (Q : res (gmap string Job) → St → Prop) :
  reconciled m0 l m s → (∀ m' s', reconciled m0 [] m' s' → Q (Ok m') s') → (∀ e s', Inv cfg s' → Q (Err e) s') →
  wp (reconcile_jobs l m) Q s.
Proof.
  revert m s. induction l as [|[id j] l IH]; intros m s Hrec HQ HE; simpl; [wp_step; auto|].
  wp_step. eapply wp_reconcile_job; [done| |done]. auto.
Qed.

(** ** The directory pass *)

Lemma cut_dot_app n a b : cut_dot n = Some (a, b) → n = a +:+ "." +:+ b.
Proof.
  revert a. induction n as [|c n IH]; intros a H; [done|]. simpl in H.
  destruct (byte c =? 46) eqn:Hc.
  - simplify_eq. apply Z.eqb_eq in Hc.
    assert (c = ascii_of_Z 46) as -> by (by rewrite <- Hc, ascii_of_Z_byte). done.
  - destruct (cut_dot n) as [[a' b']|]; [|done]. simplify_eq. by rewrite (IH a').
Qed.

(** The file of a job that still needs it. *)
Definition kept_file (m : gmap string Job) (n c : string) : Prop :=
  ∃ id j, n = blob_name id ∧ m !! id = Some j ∧ needs_payload (j_State j) = true ∧ len c = j_PayloadBytes j.

Definition settled_map (m : gmap string Job) : Prop :=
  ∀ id j, m !! id = Some j → j_State j ≠ Staging ∧ j_State j ≠ Submitting.

Definition spool_pass (m : gmap string Job) (l : list (string * string)) (s : St) : Prop :=
  Inv cfg s ∧ agrees m s ∧ settled_map m ∧ NoDup l.*1
  ∧ (∀ n c, (n, c) ∈ l → spool s !! n = Some c)
  ∧ ∀ n c, spool s !! n = Some c → (n, c) ∈ l ∨ kept_file m n c.

Lemma spool_pass_remove m n c l s : spool_pass m ((n, c) :: l) s →
  (∀ id j, n = blob_name id → m !! id = Some j → needs_payload (j_State j) = false) →
  spool_pass m l {| s with spool := delete n (spool s) |}.
Proof.
  intros (Hinv&Hag&Hset&Hnd&Hl&Hk) Hn. csimpl in Hnd. apply list.NoDup_cons in Hnd as [Hnew Hnd].
  split_and!; [|done|done|done| |].
  - eapply Inv_spool; [exact Hinv|]. intros id j Hj Hp. apply lookup_delete_ne. intros ->.
    rewrite (Hn id j) in Hp; [done|done|]. by rewrite <- (Hag id).
  - intros n' c' Hin. cbn. rewrite lookup_delete_ne; [apply Hl; by right|].
    intros <-. apply Hnew, list_elem_of_fmap. by exists (n, c').
  - intros n' c' Hc. cbn in Hc. apply lookup_delete_Some in Hc as [Hne Hc]. destruct (Hk _ _ Hc) as [[[= -> ->]|?]%elem_of_cons|?]; auto.
    congruence.
Qed.

Lemma wp_reconcile_entry m count n c l seen s (Q : res (gset string) → St → Prop) :
  spool_pass m ((n, c) :: l) s →
  (∀ seen' s', spool_pass m l s' → Q (Ok seen') s') → (∀ e s', Inv cfg s' → Q (Err e) s') →
  wp (reconcile_entry m count n c seen) Q s.
Proof.
  intros Hp HQ HE. pose proof Hp as (Hinv&Hag&Hset&Hnd&Hl&Hk).
  unfold reconcile_entry. destruct (cut_dot n) as [[id ext]|] eqn:Hcut; [|wp_step; by apply HE].
  apply cut_dot_app in Hcut. wp_step. wp_step; [|by apply HE]. wp_step. wp_step; [|by apply HE].
  assert ((∀ j, m !! id = Some j → ext = "blob" → needs_payload (j_State j) = false) →
    wp (removeStoreFile n ;; mret seen) Q s) as Hrm.
  { intros Hno. wp_step. apply wp_removeStoreFile.
    - intros Hn. rewrite (Hl n c) in Hn by left. done.
    - intros _. wp_step. apply HQ. eapply spool_pass_remove; [done|].
      intros id2 j Heq Hm. bool_hyps. apply andb_false_iff in H0 as [H0|H0]; bool_hyps.
      + assert (ext = "tmp") as -> by (by apply dec_stable). exfalso. apply (tmp_name_ne id id2). rewrite <- Heq, Hcut. reflexivity.
      + assert (ext = "blob") as -> by (by apply dec_stable).
        assert (id = id2) as -> by (apply (inj blob_name); rewrite <- Heq, Hcut; reflexivity). by eapply (Hno j).
    - intros e. by apply HE. }
  destruct (m !! id) as [j|] eqn:Hm; [|by apply Hrm].
  destruct (_ && (_ || _)) eqn:Hkeep; [|apply Hrm].
  - apply andb_true_iff in Hkeep as [->%bool_decide_eq_true Hst].
    wp_step. wp_step; [|by apply HE]. bool_hyps. wp_step. apply HQ.
    csimpl in Hnd. apply list.NoDup_cons in Hnd as [Hnew Hnd]. split_and!; try done.
    + intros n' c' ?. apply Hl. by right.
    + intros n' c' Hc. destruct (Hk _ _ Hc) as [[[= -> ->]|?]%elem_of_cons|?]; auto. right.
      exists id, j. split_and!; [by subst|done| |done].
      apply orb_true_iff in Hst as [Hst|Hst]; bool_hyps; by rewrite Hst.
  - intros j' [= <-] ->. apply andb_false_iff in Hkeep as [Hkeep|Hkeep]; bool_hyps; [done|].
    destruct (Hset _ _ Hm). by destruct (j_State j).
Qed.

Lemma wp_reconcile_entries m l : ∀ count seen s (Q : res (gset string) → St → Prop),
  spool_pass m l s → (∀ seen' s', spool_pass m [] s' → Q (Ok seen') s') → (∀ e s', Inv cfg s' → Q (Err e) s') →
  wp (reconcile_entries m count l seen) Q s.
Proof.
  induction l as [|[n c] l IH]; intros count seen s Q Hp HQ HE; simpl; [wp_step; eauto|].
  wp_step. eapply wp_reconcile_entry; [done| |done]. eauto.
Qed.

(** C6: A successful start leaves no staged job and no attempt in flight: every
    other job is exactly what it was, an interrupted submission is uncertain
    debt, every job that still needs its payload has it, and no other file is
    left in the spool. *)
Theorem recover_reconciles s :
  Inv cfg s →
  wp recover (λ r s', Inv cfg s' ∧ (r = Ok tt →
    (∀ id, jobOf (jobs (db s')) id = jobOf (jobs (db s)) id ≫= recovered_job)
    ∧ (∀ id j, jobOf (jobs (db s')) id = Some j → needs_payload (j_State j) = true → payload_at (spool s') j)
    ∧ ∀ n c, spool s' !! n = Some c → ∃ id j, n = blob_name id ∧ jobOf (jobs (db s')) id = Some j
                                              ∧ needs_payload (j_State j) = true)) s.
Proof.
  intros Hinv. unfold recover. wp_step. apply wp_loadRecoveryJobs; [done| |done].
  intros m Hag. wp_step. unfold reconcileRecoveryJobs. eapply (wp_reconcile_jobs m); [|intros m' s1 Hrec|done].
  { split_and!; [done|done| | |].
    - rewrite (order_perm m). apply NoDup_fst_map_to_list.
    - intros id j. rewrite (order_perm m). intros Hin%elem_of_map_to_list. done.
    - intros id. rewrite (order_perm m). intros Hn. destruct (m !! id) as [j|] eqn:Hm; [|done].
      destruct Hn. apply list_elem_of_fmap. exists (id, j). split; [done|]. by apply elem_of_map_to_list. }
  destruct Hrec as (Hinv1&Hag1&_&_&Hm'). wp_step. unfold reconcileRecoverySpool.
  wp_step. wp_step; [|done]. wp_step. wp_step. wp_step.
  eapply wp_reconcile_entries; [|intros seen s2 Hp|done].
  { split_and!; [done|done| | | |].
    - intros id j Hj. rewrite Hm' in Hj by apply not_elem_of_nil. destruct (m !! id) as [j0|]; [|done].
      simpl in Hj. unfold recovered_job in Hj. repeat case_bool_decide; simplify_eq; done.
    - rewrite (readdir_perm (spool s1)). apply NoDup_fst_map_to_list.
    - intros n c. rewrite (readdir_perm (spool s1)). intros Hin%elem_of_map_to_list. done.
    - intros n c Hc. left. rewrite (readdir_perm (spool s1)). by apply elem_of_map_to_list. }
  destruct Hp as (Hinv2&Hag2&_&_&_&Hk). wp_step. wp_step; [|done]. wp_step.
  apply wp_reject; intros _; (split; [done|]); [intros _|done]. split_and!.
  - intros id. rewrite Hag2, (Hag id). apply Hm', not_elem_of_nil.
  - intros id j. apply (inv_payload _ _ _ _ Hinv2).
  - intros n c Hc. destruct (Hk _ _ Hc) as [?%elem_of_nil|(id&j&->&Hm&Hn&_)]; [done|].
    exists id, j. by rewrite Hag2.
Qed.

Lemma Inv_restart s : 0 <= c_TenantSubmissionConcurrency cfg → 0 <= c_SubmissionConcurrency cfg →
  Inv cfg s → Inv cfg (restart s).
Proof.
  intros ?? []. constructor; auto. split; [done|]. intros t. unfold own_attempts.
  cbn. rewrite map_to_list_empty. cbn. lia.
Qed.

End Recovery.
