(* ===== verification/CapeCallback.v ===== *)
(** * Authenticated event callbacks

    [internal/cape/callback.go]: the key set, the authentication of a request,
    the replay and rate ledger, and the poll hint a callback leaves. *)

From Stdlib Require Import ZArith Lia SpecFloat.
From Stdlib Require Ascii.
From stdpp Require Import base gmap strings list numbers sorting.
From S2P Require Import Prelude GoStd CapeTypes CapeJob CapeJson CapeStore CapeLogic CapeInv CapeLifecycle.

Local Open Scope Z_scope.

Definition CallbackPath : string := "/v1/cape/events".
Definition callbackLimit : Z := 4096.
Definition day : Duration := 24 * hour.

(** ** Keys *)
Record BridgeKey := mkKey {
  k_ID : string;
  k_Secret : string;
  k_Tenants : list string;
  k_Generations : list string;
  k_NotBefore : Time;
  k_NotAfter : Time
}.

Record CallbackConfig := mkCallbackConfig { cc_Keys : list BridgeKey; cc_RotationOverlap : Duration }.

(** [callbackKey]: the secret, the window and the authority of a key. *)
Record callbackKey := mkCallbackKey {
  ck_Secret : string;
  ck_NotBefore : Time;
  ck_NotAfter : Time;
  ck_tenants : gset string;
  ck_generations : gset string
}.

(** [intersects] *)
Definition intersects (a b : gset string) : bool := negb (bool_decide (a ∩ b = ∅)).

Definition later (a b : Time) : Time := if After b a then b else a.
Definition earlier (a b : Time) : Time := if Before b a then b else a.

(** The overlap rule of two keys that share authority. *)
Definition overlap_refused (overlap : Duration) (existing k : callbackKey) : bool :=
  if intersects (ck_tenants existing) (ck_tenants k) && intersects (ck_generations existing) (ck_generations k)
  then
    let start := later (ck_NotBefore k) (ck_NotBefore existing) in
    let stop := earlier (ck_NotAfter k) (ck_NotAfter existing) in
    After stop start && ((overlap =? 0) || (overlap <? stop - start))
  else false.

Definition key_invalid (k : BridgeKey) : bool :=
  negb (identifier (k_ID k) 64) || negb (len (k_Secret k) =? 32) || IsZero (k_NotBefore k)
  || negb (After (k_NotAfter k) (k_NotBefore k)) || (30 * day <? k_NotAfter k - k_NotBefore k)
  || bool_decide (k_Tenants k = []) || bool_decide (k_Generations k = []).

(** One key of the loop: the key set with it, or the rejection. *)
Definition add_key (tenants : list string) (overlap : Duration) (keys : gmap string callbackKey)
    (total : Z) (k : BridgeKey) : option (gmap string callbackKey * Z) :=
  if key_invalid k || bool_decide (is_Some (keys !! k_ID k)) then None
  else
    let total := total + Z.of_nat (length (k_Tenants k)) + Z.of_nat (length (k_Generations k)) in
    if 4096 <? total then None
    else if negb (forallb (λ v, identifier v 128 && mem v tenants) (k_Tenants k)) then None
    else if negb (forallb (λ v, identifier v 128) (k_Generations k)) then None
    else
      let ck := mkCallbackKey (k_Secret k) (k_NotBefore k) (k_NotAfter k)
                  (list_to_set (k_Tenants k)) (list_to_set (k_Generations k)) in
      if existsb (λ p, overlap_refused overlap p.2 ck) (map_to_list keys) then None
      else Some (<[k_ID k := ck]> keys, total).

Fixpoint add_keys (tenants : list string) (overlap : Duration) (keys : gmap string callbackKey)
    (total : Z) (l : list BridgeKey) : option (gmap string callbackKey) :=
  match l with
  | [] => Some keys
  | k :: rest =>
      match add_key tenants overlap keys total k with
      | None => None
      | Some (keys', total') => add_keys tenants overlap keys' total' rest
      end
  end.

(** The validation of [NewCallbackHandler]; [tenants] are the store's,
    [None] without a store. *)
Definition validateCallbackKeys (tenants : option (list string)) (cfg : CallbackConfig) : res (gmap string callbackKey) :=
  match cc_Keys cfg with
  | [] => Ok ∅
  | keys =>
      match tenants with
      | None => Err (cerr Invalid)
      | Some tenants =>
          if (32 <? Z.of_nat (length keys)) || (cc_RotationOverlap cfg <? 0) || (hour <? cc_RotationOverlap cfg)
          then Err (cerr Invalid)
          else match add_keys tenants (cc_RotationOverlap cfg) ∅ 0 keys with
               | Some m => Ok m
               | None => Err (cerr Invalid)
               end
      end
  end.

(** ** Requests *)
Record callbackEvent := mkEvent {
  e_Version : Z;
  e_EventID : string;
  e_Tenant : string;
  e_JobID : string;
  e_Generation : string;
  e_TaskID : Z;
  e_Timestamp : Z
}.

(** The HTTP request, its body already limited by [io.LimitReader]; a body
    that cannot be read is [None]. *)
Record callbackRequest := mkCallbackRequest {
  q_TLS : bool;
  q_Method : string;
  q_EscapedPath : string;
  q_RawQuery : string;
  q_ForceQuery : bool;
  q_ContentLength : Z;
  q_Header : string → list string;
  q_Body : option string
}.

(** [crypto/hmac], [mime] and [encoding/json] as the handler calls them. *)
Class CallbackEnv := {
  hmac_sha256 : string → string → string;
  ParseMediaType : string → option (string * Z);
  decoder_tokens : string → body;
  unmarshalEvent : string → option callbackEvent
}.

Definition singleHeader (r : callbackRequest) (name : string) : string :=
  match q_Header r name with [v] => v | _ => "" end.

Section Callback.
Context {E : CapeEnv} {C : CallbackEnv}.

Definition callbackMediaType (r : callbackRequest) : bool :=
  match ParseMediaType (singleHeader r "Content-Type") with
  | Some (media, params) => bool_decide (to_lower media = "application/json") && (params =? 0)
  | None => false
  end.

Definition newline : string := String (ascii_of_Z 10) EmptyString.

Definition callbackMAC (secret body stamp event : string) : string :=
  hmac_sha256 secret ("mailstrix-cape-v1" +:+ newline +:+ "POST" +:+ newline +:+ CallbackPath +:+ newline
    +:+ stamp +:+ newline +:+ event +:+ newline +:+ hex_encode (sha256 body)).

(** [callbackRequestBody]: the body or the status. *)
Definition callbackRequestBody (r : callbackRequest) : string + Z :=
  if negb (q_TLS r) || bool_decide (q_Method r ≠ "POST") || bool_decide (q_EscapedPath r ≠ CallbackPath)
     || bool_decide (q_RawQuery r ≠ "") || q_ForceQuery r
     || (0 <? Z.of_nat (length (q_Header r "Content-Encoding"))) || negb (callbackMediaType r)
  then inr 400
  else if callbackLimit <? q_ContentLength r then inr 413
  else match q_Body r with
       | None => inr 400
       | Some body => if callbackLimit <? len body then inr 413 else inl body
       end.

Definition validCallbackEvent (e : callbackEvent) (event : string) (seconds : Z) (key : callbackKey) : bool :=
  (e_Version e =? 1) && bool_decide (e_EventID e = event) && (e_Timestamp e =? seconds)
  && eventID (e_JobID e) && bool_decide (e_Tenant e ∈ ck_tenants key)
  && bool_decide (e_Generation e ∈ ck_generations key)
  && (0 <? e_TaskID e) && (e_TaskID e <=? maxTaskID).

(** [validCallbackSignature]: [stamp] parsed to [seconds], [mac] decoded. *)
Definition validCallbackSignature (key : option callbackKey) (seconds : option Z) (stamp event : string)
    (mac : option string) (body : string) : bool :=
  match key, seconds, mac with
  | Some key, Some seconds, Some mac =>
      (0 <? seconds) && bool_decide (FormatInt seconds = stamp) && eventID event
      && (len mac =? 32) && bool_decide (mac = callbackMAC (ck_Secret key) body stamp event)
  | _, _, _ => false
  end.

Definition event_fields : list string :=
  ["version"; "event_id"; "tenant_id"; "job_id"; "endpoint_generation"; "task_id"; "timestamp"].

(** [authenticateCallback] *)
Definition authenticateCallback (keys : gmap string callbackKey) (r : callbackRequest) (body : string)
    : option (string * string * Z * callbackKey * callbackEvent) :=
  let keyID := singleHeader r "X-Cape-Key-ID" in
  let stamp := singleHeader r "X-Cape-Timestamp" in
  let event := singleHeader r "X-Cape-Event-ID" in
  let seconds := ParseInt stamp 64 in
  let mac := hex_decode (singleHeader r "X-Cape-Signature") in
  if negb (validCallbackSignature (keys !! keyID) seconds stamp event mac body) then None
  else
    match fst (jsonDocument (decoder_tokens body) false), unmarshalEvent body, keys !! keyID, seconds with
    | Ok doc, Some e, Some key, Some seconds =>
        if negb (Z.of_nat (length doc) =? 7) || negb (validCallbackEvent e event seconds key) then None
        else if forallb (λ name, bool_decide (is_Some (assoc_get name doc))) event_fields
             then Some (keyID, event, seconds, key, e) else None
    | _, _, _, _ => None
    end.

(** ** The ledger *)

(** [validateCallbackClock] *)
Definition validateCallbackClock (actual : Time) (seconds : Z) (key : callbackKey) : M unit :=
  exec ;;
  s ← get;
  reject (match event_clock (db s) with Some latest => Before actual (time_Unix0 latest) | None => false end) ErrClock ;;
  let signed := unix_epoch + seconds * second in
  reject (Before actual (ck_NotBefore key) || negb (Before actual (ck_NotAfter key))
          || Before signed (actual - 5 * minute) || After signed (actual + 5 * minute)) (cerr Invalid).

(** [callbackJob] *)
Definition callbackJob (e : callbackEvent) : M Job :=
  r ← try (readJob (e_JobID e) (e_Tenant e));
  match r with
  | Err ErrStoreUnavailable => throw ErrStoreUnavailable
  | Err _ => throw (cerr Invalid)
  | Ok j =>
      reject (bool_decide (j_ID j ≠ e_JobID e) || bool_decide (j_Tenant j ≠ e_Tenant e)
              || bool_decide (j_Generation j ≠ e_Generation e)
              || bool_decide (j_TaskIDs j ≠ [e_TaskID e])) (cerr Invalid) ;;
      mret j
  end.

Definition count_events (f : EventRow → bool) (ev : gmap string EventRow) : Z :=
  Z.of_nat (length (filter (λ p, Is_true (f p.2)) (map_to_list ev))).

Definition live_events (now : Time) (ev : gmap string EventRow) : gmap string EventRow :=
  filter (λ p, UnixNano now < ev_expires p.2) ev.

(** [reserveCallbackEvent] *)
Definition reserveCallbackEvent (keyID event tenant : string) (now : Time) : M unit :=
  exec ;;
  modify_db (λ d, {| d with events := live_events now (events d) |}) ;;
  exec ;;
  s ← get;
  let ev := events (db s) in
  reject (bool_decide (is_Some (ev !! event))) ErrConflict ;;
  exec ;;
  exec ;;
  exec ;;
  let total := count_events (λ _, true) ev in
  let own := count_events (λ r, bool_decide (ev_tenant r = tenant)) ev in
  let rate := count_events (λ r, bool_decide (ev_key r = keyID) && (UnixNano (now - minute) <? ev_accepted r)) ev in
  reject ((10000 <=? total) || (1000 <=? own) || (10 <=? rate)) ErrQuota ;;
  exec ;;
  modify_db (λ d, {| d with events :=
    <[event := mkEventRow tenant keyID (UnixNano now) (UnixNano (now + 11 * minute))]> (events d) |}).

Definition wake_job (j : Job) (now : Time) : Job :=
  {| j with j_PollWakeAt := now; j_Version := j_Version j + 1 |}.

(** [persistCallback] *)
Definition persistCallback (keyID event : string) (seconds : Z) (key : callbackKey) (e : callbackEvent) : M unit :=
  actual ← clockNow;
  validateCallbackClock actual seconds key ;;
  t ← now;
  j ← callbackJob e;
  reserveCallbackEvent keyID event (e_Tenant e) t ;;
  exec ;;
  modify_db (λ d, {| d with event_clock := Some (UnixNano actual) |}) ;;
  if bool_decide (j_State j ≠ RemotePending) && bool_decide (j_State j ≠ Fetching)
     || j_Suppressed j || negb (Before t (j_AnalysisDeadline j))
  then mret ()
  else putJob (wake_job j t) j.

Definition callback_status (r : res unit) : Z :=
  match r with
  | Ok _ => 202
  | Err ErrConflict => 409
  | Err ErrQuota => 429
  | Err ErrClock | Err ErrStoreUnavailable => 503
  | Err _ => 401
  end.

(** [receive] *)
Definition receive (keys : gmap string callbackKey) (r : callbackRequest) : M Z :=
  if bool_decide (keys = ∅) then mret 404
  else match callbackRequestBody r with
       | inr status => mret status
       | inl body =>
           match authenticateCallback keys r body with
           | None => mret 401
           | Some (keyID, event, seconds, key, e) =>
               s ← get;
               if closed s then mret 503
               else
                 x ← try (transaction (persistCallback keyID event seconds key e));
                 mret (callback_status x)
           end
       end.

(** [NewCallbackHandler]: the handler's keys; the tables are created only
    when there is one. *)
Definition NewCallbackHandler (tenants : option (list string)) (cfg : CallbackConfig) : M (gmap string callbackKey) :=
  keys ← of_res (validateCallbackKeys tenants cfg);
  if bool_decide (cc_Keys cfg = []) then mret keys
  else
    s ← get;
    reject (closed s) ErrStoreUnavailable ;;
    exec ;;
    mret keys.

(** ** The poll hint is a legal update *)
Context {EOk : CapeEnvOk E} (cfg : StoreConfig).

Lemma wake_legal j t : legal j (wake_job j t).
Proof. unfold wake_job. legal_tac. apply orb_true_iff; left; by apply bool_decide_eq_true. Qed.

Lemma wp_callbackJob e s (Q : res Job → St → Prop) :
  Inv cfg s →
  (∀ j, jobOf (jobs (db s)) (e_JobID e) = Some j → j_ID j = e_JobID e → j_Tenant j = e_Tenant e →
        j_Generation j = e_Generation e → j_TaskIDs j = [e_TaskID e] → Q (Ok j) s) →
  (∀ err, Q (Err err) s) → wp (callbackJob e) Q s.
Proof.
  intros Hinv H1 H2. unfold callbackJob. wp_step. wp_step. apply (wp_readJob_inv cfg); [done| |].
  - intros j Hj Hid Ht Hji. wp_step. wp_step; [|done]. bool_hyps. wp_step.
    apply H1; try done; by apply dec_stable.
  - intros err. destruct err; wp_step; done.
Qed.

(** The ledger after one accepted event. *)
Definition event_recorded (keyID event tenant : string) (t : Time) (s s' : St) : Prop :=
  let live := live_events t (events (db s)) in
  live !! event = None
  ∧ events (db s') = <[event := mkEventRow tenant keyID (UnixNano t) (UnixNano (t + 11 * minute))]> live
  ∧ count_events (λ _, true) live < 10000
  ∧ count_events (λ r, bool_decide (ev_tenant r = tenant)) live < 1000
  ∧ count_events (λ r, bool_decide (ev_key r = keyID) && (UnixNano (t - minute) <? ev_accepted r)) live < 10.

Lemma wp_reserveCallbackEvent keyID event tenant t s0 s (Q : res unit → St → Prop) :
  same_store s0 s →
  (∀ s', same_store s0 s' → event_recorded keyID event tenant t s s' → Q (Ok tt) s') →
  (∀ e s', same_store s0 s' → Q (Err e) s') →
  wp (reserveCallbackEvent keyID event tenant t) Q s.
Proof.
  intros Hs H1 H2. unfold reserveCallbackEvent. wp_go; try by apply H2.
  bool_hyps. apply H1; [done|]. split_and!; try done. by apply eq_None_not_Some.
Qed.

(** What an accepted callback has done: exactly one ledger entry and at most
    the poll hint of the job it names. *)
Definition callback_effect (keyID event : string) (seconds : Z) (key : callbackKey) (e : callbackEvent)
    (s s' : St) : Prop :=
  ∃ j t actual, jobOf (jobs (db s)) (e_JobID e) = Some j
  ∧ j_Tenant j = e_Tenant e ∧ j_Generation j = e_Generation e ∧ j_TaskIDs j = [e_TaskID e]
  ∧ ck_NotBefore key <= actual < ck_NotAfter key
  ∧ actual - 5 * minute <= unix_epoch + seconds * second <= actual + 5 * minute
  ∧ event_recorded keyID event (e_Tenant e) t s s'
  ∧ (jobOf (jobs (db s')) (e_JobID e) = Some j
     ∨ jobOf (jobs (db s')) (e_JobID e) = Some (wake_job j t)
       ∧ (j_State j = RemotePending ∨ j_State j = Fetching) ∧ j_Suppressed j = false)
  ∧ ∀ id, id ≠ e_JobID e → jobOf (jobs (db s')) id = jobOf (jobs (db s)) id.

Lemma wp_persistCallback keyID event seconds key e s :
  Inv cfg s →
  wp (persistCallback keyID event seconds key e)
     (tx_post cfg s (λ _ s', callback_effect keyID event seconds key e s s')) s.
Proof.
  intros Hinv. unfold persistCallback, validateCallbackClock.
  wp_step. wp_step. wp_step. wp_step. wp_step; [|by auto with mx]. wp_step. wp_step. wp_step. wp_step; [|by auto with mx].
  wp_step; [|by auto with mx]. bool_hyps. wp_step. wp_step; [|by auto with mx].
  set (s1 := with_db s _). wp_step. apply (wp_callbackJob _ s1); [exact Hinv| |by auto with mx].
  intros j Hj Hid Ht Hg Htk. wp_step.
  apply (wp_reserveCallbackEvent _ _ _ _ s); [done| |by auto with mx].
  intros s2 Hs2 Hev. wp_step. wp_step; [|by apply tx_post_err]. wp_step. wp_step.
  set (s3 := with_db s2 _). assert (same_store s s3) as Hs3 by (destruct Hs2 as (?&?&?); by split_and!).
  change (jobs (db s1)) with (jobs (db s)) in Hj. pose proof Hs3 as (Hjb&_&_).
  unfold Before, After in *. bool_hyps.
  assert (event_recorded keyID event (e_Tenant e) t0 s s3) as Hev3 by (destruct Hev as (?&?&?&?&?); by split_and!).
  match goal with |- wp (if ?b then _ else _) _ _ => destruct b eqn:Hidle end.
  - wp_step. apply tx_post_ok; [done|done|]. exists j, t0, t. rewrite Hjb. split_and!; try done; [lia..|by left].
  - apply orb_false_iff in Hidle as [Hidle _]. apply orb_false_iff in Hidle as [Hidle Hsup].
    assert (j_State j = RemotePending ∨ j_State j = Fetching) as Hst.
    { apply andb_false_iff in Hidle as [Hx|Hx]; bool_hyps; [left|right]; by apply dec_stable. }
    pose proof (Inv_same _ _ _ Hs3 Hinv) as Hinv3.
    eapply (wp_putJob_full cfg); [done|rewrite Hjb, Hid; exact Hj|apply wake_legal| |by intros; apply tx_post_err].
    rewrite Hid. intros jb s' Hinv' Hup Hj' Hne. pose proof Hs3 as (_&Hsp&Hla).
    assert (updates s s') as Hups by (etrans; [by apply same_store_updates|done]). pose proof Hups as [_ Hfk].
    split; [subst s'; cbn; cbn in Hsp, Hla; by rewrite Hsp, Hla|]. split; [done|].
    split_and!; [done|done|].
    exists j, t0, t. split_and!; try done; [lia..| |].
    + right. by split_and!.
    + intros id Hid'. change (jobs (db s')) with jb. rewrite Hne by done. by rewrite Hjb.
Qed.

(** What the handler checked of an authenticated request. *)
Definition authentic (keys : gmap string callbackKey) (r : callbackRequest) (body keyID event : string)
    (seconds : Z) (key : callbackKey) (e : callbackEvent) : Prop :=
  keyID = singleHeader r "X-Cape-Key-ID" ∧ keys !! keyID = Some key
  ∧ event = singleHeader r "X-Cape-Event-ID" ∧ hexID event = true
  ∧ FormatInt seconds = singleHeader r "X-Cape-Timestamp"
  ∧ hex_decode (singleHeader r "X-Cape-Signature")
      = Some (callbackMAC (ck_Secret key) body (FormatInt seconds) event)
  ∧ e_EventID e = event ∧ e_Timestamp e = seconds
  ∧ e_Tenant e ∈ ck_tenants key ∧ e_Generation e ∈ ck_generations key
  ∧ 1 <= e_TaskID e <= maxTaskID.

Lemma authenticateCallback_spec keys r body keyID event seconds key e :
  authenticateCallback keys r body = Some (keyID, event, seconds, key, e) →
  authentic keys r body keyID event seconds key e.
Proof.
  unfold authenticateCallback. cbn zeta. destruct (validCallbackSignature _ _ _ _ _ _) eqn:Hsig; [|done].
  cbn [negb]. destruct (fst (jsonDocument _ _)) as [doc|]; [|done]. destruct (unmarshalEvent body) as [ev|]; [|done].
  destruct (keys !! singleHeader r "X-Cape-Key-ID") as [k|] eqn:Hk; [|done].
  destruct (ParseInt _ _) as [sec|]; [|done]. destruct (_ || negb _) eqn:Hev; [done|].
  case_match; [|done]. intros [= <- <- <- <- <-]. bool_hyps.
  unfold validCallbackSignature in Hsig. destruct (hex_decode _) as [mac|] eqn:Hm; [|done].
  unfold validCallbackEvent in *. bool_hyps. subst.
  unfold authentic. split_and!; try done; [by rewrite <- eventID_hexID|by rewrite Hm; f_equal; congruence|lia].
Qed.

Theorem receive_maintains keys r : maintains cfg (receive keys r).
Proof.
  intros s Hinv. assert (updates s s) by reflexivity. unfold receive. case_match; [by wp_step|].
  destruct (callbackRequestBody r) as [body|]; [|by wp_step].
  destruct (authenticateCallback keys r body) as [[[[[keyID event] seconds] key] e]|]; [|by wp_step].
  wp_step. wp_step. case_match; [by wp_step|]. wp_step. wp_step.
  eapply (wp_tx cfg); [done| |intros; by wp_step].
  eapply wp_mono; [by apply wp_persistCallback|]. intros [u|err] s' (?&?&Hp); (split; [done|split; [done|]]); [|done].
  destruct Hp as (?&?&_). split_and!; try done. by wp_step.
Qed.

(** C35: A callback is accepted only for an authenticated event of a job of the
    key's own tenant and generation that is not in the live ledger; it then
    occupies one ledger entry, and the only change to any job is the poll hint
    of an active one. *)
Theorem receive_accepted keys r s :
  Inv cfg s →
  wp (receive keys r) (λ x s', x = Ok 202 →
    ∃ body keyID event seconds key e,
      callbackRequestBody r = inl body ∧ len body <= callbackLimit
      ∧ authentic keys r body keyID event seconds key e
      ∧ callback_effect keyID event seconds key e s s') s.
Proof.
  intros Hinv. unfold receive. case_match; [by wp_step|].
  destruct (callbackRequestBody r) as [body|status] eqn:Hb.
  2:{ wp_step. unfold callbackRequestBody in Hb. repeat case_match; simplify_eq; done. }
  destruct (authenticateCallback keys r body) as [[[[[keyID event] seconds] key] e]|] eqn:Ha; [|by wp_step].
  wp_step. wp_step. case_match; [by wp_step|]. wp_step. wp_step.
  eapply (wp_tx cfg); [done| |intros err s' _ _; wp_step; by destruct err].
  eapply wp_mono; [by apply wp_persistCallback|]. intros [u|err] s' (?&?&Hp); (split; [done|split; [done|]]); [|done].
  destruct Hp as (?&?&Heff). split_and!; try done. wp_step. intros _.
  exists body, keyID, event, seconds, key, e. split_and!; try done.
  - unfold callbackRequestBody in Hb. destruct (negb _ || _ || _ || _ || _ || _ || _); [done|].
    destruct (_ <? q_ContentLength r); [done|]. destruct (q_Body r); [|done].
    destruct (_ <? _) eqn:Hl; simplify_eq. by apply Z.ltb_ge.
  - by apply authenticateCallback_spec.
Qed.

End Callback.

(** ** Key sets *)

Lemma filter_count_insert (f : EventRow → bool) (m : gmap string EventRow) k r :
  m !! k = None → count_events f (<[k := r]> m) = count_events f m + if f r then 1 else 0.
Proof.
  intros Hn. unfold count_events. rewrite map_to_list_insert by done. rewrite filter_cons. csimpl.
  destruct (f r); simpl; lia.
Qed.

(** The ledger bounds hold again after the entry is recorded. *)
Theorem ledger_bounded `{CapeEnv} keyID event tenant t s s' :
  event_recorded keyID event tenant t s s' →
  count_events (λ _, true) (events (db s')) <= 10000
  ∧ count_events (λ r, bool_decide (ev_tenant r = tenant)) (events (db s')) <= 1000
  ∧ count_events (λ r, bool_decide (ev_key r = keyID) && (UnixNano (t - minute) <? ev_accepted r)) (events (db s')) <= 10.
Proof.
  intros (Hn&->&?&?&?). rewrite !filter_count_insert by done. cbn [ev_tenant ev_key ev_accepted].
  split_and!; repeat case_match; lia.
Qed.

(** Two keys with common authority overlap for at most the configured time. *)
Definition rotation_ok (overlap : Duration) (a b : callbackKey) : Prop :=
  ck_tenants a ∩ ck_tenants b ≠ ∅ → ck_generations a ∩ ck_generations b ≠ ∅ →
  let start := Z.max (ck_NotBefore a) (ck_NotBefore b) in
  let stop := Z.min (ck_NotAfter a) (ck_NotAfter b) in
  start < stop → overlap ≠ 0 ∧ stop - start <= overlap.

Lemma later_max a b : later a b = Z.max b a.
Proof. unfold later, After. case_match; bool_hyps; lia. Qed.

Lemma earlier_min a b : earlier a b = Z.min b a.
Proof. unfold earlier, Before. case_match; bool_hyps; lia. Qed.

Lemma overlap_refused_false overlap a b : overlap_refused overlap a b = false →
  rotation_ok overlap a b ∧ rotation_ok overlap b a.
Proof.
  unfold overlap_refused, rotation_ok, intersects, After. rewrite later_max, earlier_min. intros H.
  assert (ck_tenants a ∩ ck_tenants b ≠ ∅ → ck_generations a ∩ ck_generations b ≠ ∅ →
    Z.max (ck_NotBefore a) (ck_NotBefore b) < Z.min (ck_NotAfter a) (ck_NotAfter b) →
    overlap ≠ 0 ∧ Z.min (ck_NotAfter a) (ck_NotAfter b) - Z.max (ck_NotBefore a) (ck_NotBefore b) <= overlap) as Hab.
  { intros Ht Hg Hlt. rewrite !bool_decide_false in H by done. cbn [negb andb] in H.
    apply andb_false_iff in H as [H|H]; bool_hyps; lia. }
  split; [exact Hab|]. intros Ht Hg. rewrite (Z.max_comm (ck_NotBefore b)), (Z.min_comm (ck_NotAfter b)).
  apply Hab; set_solver.
Qed.

Definition keys_ok (overlap : Duration) (keys : gmap string callbackKey) : Prop :=
  ∀ i j a b, i ≠ j → keys !! i = Some a → keys !! j = Some b → rotation_ok overlap a b.

Lemma add_keys_ok tenants overlap l : ∀ keys total m,
  add_keys tenants overlap keys total l = Some m → keys_ok overlap keys →
  (∀ i k, keys !! i = Some k → len (ck_Secret k) = 32 ∧ ck_NotAfter k - ck_NotBefore k <= 30 * day) →
  keys_ok overlap m ∧ ∀ i k, m !! i = Some k → len (ck_Secret k) = 32 ∧ ck_NotAfter k - ck_NotBefore k <= 30 * day.
Proof.
  induction l as [|k l IH]; intros keys total m Hadd Hok Hk; simpl in Hadd; [by simplify_eq|].
  unfold add_key in Hadd. destruct (key_invalid k || _) eqn:Hinv; [done|]. cbn zeta in Hadd.
  destruct (4096 <? _); [done|]. destruct (negb (forallb _ (k_Tenants k))); [done|].
  destruct (negb (forallb _ _)); [done|]. destruct (existsb _ _) eqn:Hex; [done|].
  assert (∀ i a, keys !! i = Some a → overlap_refused overlap a (mkCallbackKey (k_Secret k) (k_NotBefore k)
    (k_NotAfter k) (list_to_set (k_Tenants k)) (list_to_set (k_Generations k))) = false) as Hno.
  { intros i a Hi. apply not_true_is_false. intros Ht. rewrite <- not_true_iff_false in Hex. apply Hex.
    apply existsb_exists. exists (i, a). split; [|done]. apply list_elem_of_In. by apply elem_of_map_to_list. }
  eapply IH; [exact Hadd| |].
  - intros i j a b Hne [[<- <-]|[? Ha]]%lookup_insert_Some [[<- <-]|[? Hb]]%lookup_insert_Some; [done| | |exact (Hok i j a b Hne Ha Hb)].
    + by destruct (overlap_refused_false _ _ _ (Hno _ _ Hb)).
    + by destruct (overlap_refused_false _ _ _ (Hno _ _ Ha)).
  - intros i a [[<- <-]|[??]]%lookup_insert_Some; [|by eapply Hk]. unfold key_invalid in Hinv. bool_hyps. by split.
Qed.

(** A key set is accepted only when every secret has 32 bytes, every window
    at most thirty days, and no two keys with common authority overlap longer
    than the rotation allows. *)
Theorem validateCallbackKeys_rotation tenants cfg m :
  validateCallbackKeys tenants cfg = Ok m →
  keys_ok (cc_RotationOverlap cfg) m
  ∧ ∀ i k, m !! i = Some k → len (ck_Secret k) = 32 ∧ ck_NotAfter k - ck_NotBefore k <= 30 * day.
Proof.
  unfold validateCallbackKeys. destruct (cc_Keys cfg) as [|k l] eqn:Hk.
  { intros [= <-]. split; [by intros ???? _ ?%lookup_empty_Some|by intros ?? ?%lookup_empty_Some]. }
  destruct tenants as [tenants|]; [|done]. case_match; [done|].
  destruct (add_keys _ _ _ _ _) as [m'|] eqn:Ha; [|done]. intros [= <-].
  eapply add_keys_ok; [exact Ha|by intros ???? _ ?%lookup_empty_Some|by intros ?? ?%lookup_empty_Some].
Qed.
