(* ===== verification/CapeScheduler.v ===== *)
(** * The scheduler

    [internal/cape/scheduler.go]: retry delays, the selection and dispatch of
    requests, and the persistence of their results. *)

From Stdlib Require Import ZArith Lia SpecFloat.
From stdpp Require Import base gmap strings list numbers sorting.
From S2P Require Import Prelude GoStd CapeTypes CapeJob CapeJson CapeStore CapeLogic CapeInv CapeLifecycle.
From S2P Require Import CapeSubmission CapeReport CapeReads.

Local Open Scope Z_scope.

Definition MaxSchedulerWorkers : Z := 8.

(** [retryDelay]: [jitter] draws from [0, n) or fails. *)
Definition retryDelay (jitter : Z → option Z) (attempt : Z) : Duration :=
  let attempt := if 6 <? attempt then 6 else attempt in
  let attempt := if attempt <? 0 then 0 else attempt in
  let ceiling := Z.shiftl (5 * second) attempt in
  let ceiling := if 5 * minute <? ceiling then 5 * minute else ceiling in
  if ceiling <=? 5 * second then 5 * second
  else match jitter (ceiling - 5 * second + 1) with
       | None => ceiling
       | Some n => 5 * second + n
       end.

(** [rand.Int(rand.Reader, max)] *)
Definition uniform (jitter : Z → option Z) : Prop :=
  ∀ n k, 0 < n → jitter n = Some k → 0 <= k < n.

(** [outcomeCode] *)
Definition outcomeCode (err : option error) : Code :=
  match err with
  | None => ""
  | Some (ECode c _) => if safeOutcome c then c else Transport
  | Some _ => Transport
  end.

(** [cancelLiveLookup] *)
Definition cancelLiveLookup (active : Job) (current : res Job) : bool :=
  match current with
  | Err (ECode c _) => bool_decide (c = NotFound)
  | Err _ => false
  | Ok j => terminal (j_State j) && negb (terminal (j_State active))
  end.

(** ** Results of requests *)
Record schedulerResult := mkResult {
  sr_job : Job;
  sr_kind : string;
  sr_task : TaskRef;
  sr_submission : Submission;
  sr_status : string;
  sr_report : option Report;
  sr_deleted : string;
  sr_err : option error
}.

Definition no_task : TaskRef := mkTaskRef 0 "".
Definition no_submission : Submission := mkSubmission [] false false.

Section Scheduler.
Context {E : CapeEnv} (cfg : StoreConfig).

(** The mapper and the randomness of one process; [others] is what the other
    goroutines do to the store between two operations of this one. *)
Context (mapper : option ResultMapper) (jitter : Z → option Z) (others : M unit).

(** [NewScheduler]: [generations] are those of the non-nil clients, each
    under the key it is registered with. *)
Definition NewScheduler (has_store : bool) (clients : list (string * option string)) (workers : Z) : res (gset string) :=
  if negb has_store || (workers <? 1) || (MaxSchedulerWorkers <? workers)
     || (Z.of_nat (length clients) =? 0) || (10000 <? Z.of_nat (length clients))
  then Err (cerr Invalid)
  else if forallb (λ p, bool_decide (p.2 = Some p.1)) clients then Ok (list_to_set clients.*1)
  else Err (cerr Invalid).

Definition interleave : M unit := try others ;; mret ().

(** The throttle hint at the end of [persist]. *)
Definition extend_throttled (j : Job) (err : option error) : M unit :=
  match err with
  | Some (ECode c retryAfter) =>
      if bool_decide (c = Throttled) then
        let delay := if retryAfter <? 5 * second then 5 * second else retryAfter in
        let delay := if 5 * minute <? delay then 5 * minute else delay in
        extendRetry j delay
      else mret ()
  | _ => mret ()
  end.

(** [Deadline] is left to maintenance. *)
Definition maintain_owns (r : res Job) (k : M unit) : M unit :=
  match r with
  | Ok _ => k
  | Err e => if bool_decide (outcomeCode (Some e) = Deadline) then mret () else throw e
  end.

(** The part of [persist] after a submission was dealt with. *)
Definition persist_read (j : Job) (r : schedulerResult) : M unit :=
  if bool_decide (sr_kind r = "delete") then
    if mem (t_ID (sr_task r)) (j_DeleteAcknowledgedIDs j) then mret ()
    else
      RecordDeletion (j_Tenant j) (j_ID j) (j_Version j) (sr_task r) (sr_deleted r) (outcomeCode (sr_err r)) ;;
      interleave ;;
      extend_throttled j (sr_err r)
  else if bool_decide (j_State j ≠ j_State (sr_job r)) || terminal (j_State j) || j_Suppressed j then mret ()
  else
    match sr_err r with
    | None =>
        x ← try (if bool_decide (sr_kind r = "status")
                 then RecordStatus (j_Tenant j) (j_ID j) (j_Version j) (sr_task r) (sr_status r)
                 else CompleteReport others (j_Tenant j) (j_ID j) (j_Version j) (sr_task r) (sr_report r) mapper);
        maintain_owns x (mret ())
    | Some e =>
        if bool_decide (sr_kind r = "report") then
          x ← try (recordReportError (j_Tenant j) (j_ID j) (j_Version j) (sr_task r) (outcomeCode (Some e)));
          interleave ;;
          maintain_owns x (extend_throttled j (Some e))
        else extend_throttled j (Some e)
    end.

(** A submission whose begin failed is recorded as possibly sent. *)
Definition begin_packet (j : Job) (r : schedulerResult) : schedulerResult :=
  {| r with
     sr_job := j; sr_kind := "submit"; sr_submission := mkSubmission [] false true;
     sr_err := Some (cerr Transport) |}.

Definition record_result (j : Job) (r : schedulerResult) : M unit :=
  if j_SubmissionRecorded j then mret ()
  else
    RecordSubmission (j_Tenant j) (j_ID j) (j_SubmissionVersion (sr_job r)) (sr_submission r)
      (outcomeCode (sr_err r)) (retryDelay jitter (j_Attempts (sr_job r))) ;;
    mret ().

(** [persist] *)
Definition persist (r : schedulerResult) : M unit :=
  (if bool_decide (outcomeCode (sr_err r) = Unauthorized)
   then SetGenerationAdmission (j_Generation (sr_job r)) false else mret ()) ;;
  interleave ;;
  j ← Lookup (j_Tenant (sr_job r)) (j_ID (sr_job r));
  interleave ;;
  if bool_decide (sr_kind r = "begin_error") then
    if (j_SubmissionVersion j <=? j_Version (sr_job r)) || j_SubmissionRecorded j then mret ()
    else record_result j (begin_packet j r)
  else if bool_decide (sr_kind r = "submit") then record_result j r
  else persist_read j r.

(** [persistPendingContext]: [done i] tells whether the context has ended
    before the [i]-th result; what was not persisted stays pending. *)
Fixpoint persistPendingContext (ended : nat → bool) (pending : list schedulerResult) : M (list schedulerResult) :=
  match pending with
  | [] => mret []
  | r :: rest =>
      if ended 0%nat then
        remaining ← persistPendingContext (λ i, ended (S i)) rest;
        mret (r :: remaining)
      else
        x ← try (persist r);
        remaining ← persistPendingContext (λ i, ended (S i)) rest;
        mret (if is_ok x then remaining else r :: remaining)
  end.

(** ** Dispatch *)

(** The order of the per-tenant queues. *)
Definition queue_le (a b : Job) : Prop :=
  str_lt (j_Tenant a) (j_Tenant b) = true ∨ j_Tenant a = j_Tenant b ∧ j_CreatedAt a <= j_CreatedAt b.
#[global] Instance queue_le_dec : RelDecision queue_le.
Proof. intros a b. unfold queue_le. apply _. Defined.

(** What the request loop of one process keeps. *)
Record Sched := mkSched {
  sc_pending : list schedulerResult;
  sc_lastTenant : string * string;
  sc_live : gmap string Job;
  sc_started : list schedulerResult
}.

Definition last_tenant (p : bool) (sc : Sched) : string :=
  if p then (sc_lastTenant sc).1 else (sc_lastTenant sc).2.

(** Priority 0, [deletions = true], takes deletions; priority 1 the rest. *)
Definition eligible (clients : gset string) (live : gmap string Job) (deletions : bool) (j : Job) : bool :=
  negb (bool_decide (j_ID j = "")) && bool_decide (j_Generation j ∈ clients)
  && bool_decide (live !! j_ID j = None)
  && Bool.eqb deletions (bool_decide (is_Some (cleanupTask j)))
  && (bool_decide (is_Some (cleanupTask j)) || bool_decide (j_State j = Queued)
      || bool_decide (j_State j = RemotePending) || bool_decide (j_State j = Fetching)).

(** The scan: the first candidate behind the last tenant, or else the first
    one.  The clock is read for a candidate only after the cheaper checks. *)
Fixpoint select_loop (clients : gset string) (live : gmap string Job) (deletions : bool) (lastTenant : string)
    (jobs : list Job) (i : nat) (selected : option nat) : M (option nat) :=
  match jobs with
  | [] => mret selected
  | j :: rest =>
      if negb (bool_decide (j_ID j = "")) && bool_decide (j_Generation j ∈ clients)
         && bool_decide (live !! j_ID j = None)
      then
        t ← clockNow;
        if readThrottled j t || negb (eligible clients live deletions j)
        then select_loop clients live deletions lastTenant rest (S i) selected
        else
          let selected := match selected with Some k => Some k | None => Some i end in
          if str_lt lastTenant (j_Tenant j) then mret (Some i)
          else select_loop clients live deletions lastTenant rest (S i) selected
      else select_loop clients live deletions lastTenant rest (S i) selected
  end.

Definition request_kind (j : Job) : string :=
  if bool_decide (is_Some (cleanupTask j)) then "delete"
  else if bool_decide (j_State j = Fetching) then "report"
  else if bool_decide (j_State j = Queued) then "submit"
  else "status".

Definition request_task (j : Job) : TaskRef :=
  match cleanupTask j with
  | Some task => task
  | None => match j_TaskIDs j with
            | [id] => mkTaskRef id (j_Generation j)
            | _ => no_task
            end
  end.

Definition start_request (deletions : bool) (sc : Sched) (j reserved : Job) (kind : string) (task : TaskRef) : Sched :=
  {| sc with
     sc_lastTenant := if deletions then (j_Tenant j, (sc_lastTenant sc).2) else ((sc_lastTenant sc).1, j_Tenant j);
     sc_live := <[j_ID j := reserved]> (sc_live sc);
     sc_started := sc_started sc ++ [mkResult reserved kind task no_submission "" None "" None] |}.

(** One selected job: the loop goes on unless a failed begin cannot be
    reconciled. *)
Definition dispatch_one (deletions : bool) (sc : Sched) (j : Job) : M (Sched * bool) :=
  if bool_decide (request_kind j = "submit") then
    r ← try (BeginSubmission cfg (j_Tenant j) (j_ID j) (j_Version j));
    match r with
    | Ok reserved => mret (start_request deletions sc j reserved "submit" (request_task j), true)
    | Err e =>
        let packet := mkResult j "begin_error" no_task no_submission "" None "" (Some e) in
        interleave ;;
        x ← try (persist packet);
        mret (if is_ok x then (sc, true) else ({| sc with sc_pending := sc_pending sc ++ [packet] |}, false))
    end
  else
    r ← try (reserveRead cfg j (retryDelay jitter (j_ReadAttempts j)));
    match r with
    | Ok reserved => mret (start_request deletions sc j reserved (request_kind j) (request_task j), true)
    | Err _ => mret (sc, true)
    end.

(** [jobs[selected].ID = ""] *)
Definition mark_used (jobs : list Job) (i : nat) : list Job :=
  alter (λ j, {| j with j_ID := "" |}) i jobs.

(** The inner loop of [dispatch]; every round uses up one job of the batch. *)
Fixpoint dispatch_loop (fuel : nat) (clients : gset string) (workers : Z) (deletions : bool)
    (sc : Sched) (jobs : list Job) : M (Sched * list Job * bool) :=
  match fuel with
  | O => throw EOther
  | S fuel =>
      if Z.of_nat (size (sc_live sc)) <? workers then
        sel ← select_loop clients (sc_live sc) deletions (last_tenant deletions sc) jobs 0 None;
        match sel with
        | None => mret (sc, jobs, true)
        | Some i =>
            match jobs !! i with
            | None => throw EOther
            | Some j =>
                r ← dispatch_one deletions sc j;
                interleave ;;
                let '(sc, go) := r in
                if (go : bool) then dispatch_loop fuel clients workers deletions sc (mark_used jobs i)
                else mret (sc, jobs, false)
            end
        end
      else mret (sc, jobs, true)
  end.

(** [dispatch] *)
Definition dispatch (clients : gset string) (workers : Z) (sc : Sched) : M Sched :=
  r ← try (schedulerJobs);
  match r with
  | Err _ => mret sc
  | Ok batch =>
      let jobs := merge_sort queue_le batch in
      r ← dispatch_loop (S (length jobs)) clients workers true sc jobs;
      let '(sc, jobs, go) := r in
      if (go : bool) then
        r ← dispatch_loop (S (length jobs)) clients workers false sc jobs;
        let '(sc, _, _) := r in
        mret sc
      else mret sc
  end.

(** ** Requests

    What the clients answer (client.go, protocol.go): each call ends in a
    value or an error; a submission is reported even with an error. *)
Record Network := mkNetwork {
  net_submit : string → string → Z → string → Submission * option error;
  net_status : TaskRef → res string;
  net_report : TaskRef → string → res Report;
  net_delete : TaskRef → res string
}.

Definition err_of {A} (r : res A) : option error := match r with Ok _ => None | Err e => Some e end.

(** [request] *)
Definition request (net : Network) (r : schedulerResult) : M schedulerResult :=
  let j := sr_job r in
  if bool_decide (sr_kind r = "submit") then
    x ← try (OpenPayload (j_Tenant j) (j_ID j) (j_Version j));
    match x with
    | Err e => mret {| r with
        sr_submission := {| (sr_submission r) with sub_UnknownDebt := true |}; sr_err := Some e |}
    | Ok payload =>
        let '(sub, e) := net_submit net (j_Generation j) payload (j_PayloadBytes j) (j_Correlation j) in
        mret {| r with sr_submission := sub; sr_err := e |}
    end
  else if bool_decide (sr_kind r = "status") then
    let x := net_status net (sr_task r) in
    mret {| r with sr_status := match x with Ok v => v | Err _ => "" end; sr_err := err_of x |}
  else if bool_decide (sr_kind r = "report") then
    match hex_decode (j_Digest j) with
    | Some b =>
        if len b =? 32 then
          let x := net_report net (sr_task r) b in
          mret {| r with sr_report := match x with Ok v => Some v | Err _ => None end; sr_err := err_of x |}
        else mret {| r with sr_err := Some (cerr Protocol) |}
    | None => mret {| r with sr_err := Some (cerr Protocol) |}
    end
  else if bool_decide (sr_kind r = "delete") then
    let x := net_delete net (sr_task r) in
    mret {| r with sr_deleted := match x with Ok v => v | Err _ => "" end; sr_err := err_of x |}
  else mret r.

(** ** The loop of [Run] *)

(** One pass of [drainPending]: whether the context ended before it, the
    readings inside it, whether it ended during the wait that follows. *)
Record DrainPass := mkPass { dp_before : bool; dp_ended : nat → bool; dp_wait : bool }.

(** [drainPending]: what is still pending, and whether it gave up. *)
Fixpoint drainPending (passes : list DrainPass) (pending : list schedulerResult) : M (list schedulerResult * bool) :=
  if bool_decide (length pending = 0%nat) then mret (pending, false)
  else match passes with
       | [] => mret (pending, true)
       | p :: rest =>
           if dp_before p then mret (pending, true)
           else
             remaining ← persistPendingContext (dp_ended p) pending;
             if bool_decide (length remaining = 0%nat) then mret (remaining, false)
             else if dp_wait p then mret (remaining, true)
             else drainPending rest remaining
       end.

(** The deadline and cancellation checks of the requests in flight: the ids
    whose request is cancelled. *)
Fixpoint check_live (l : list (string * Job)) : M (list string) :=
  match l with
  | [] => mret []
  | (id, active) :: rest =>
      x ← try (Lookup (j_Tenant active) id);
      cancelled ← check_live rest;
      mret (if cancelLiveLookup active x then id :: cancelled else cancelled)
  end.

(** One result taken from the channel. *)
Definition collect (sc : Sched) (r : schedulerResult) : Sched :=
  {| sc with sc_live := delete (j_ID (sr_job r)) (sc_live sc); sc_pending := sc_pending sc ++ [r] |}.

(** One iteration while the context is alive: persist, maintain, check,
    dispatch, and at most one result. *)
Definition run_iteration (clients : gset string) (workers : Z) (ended : nat → bool)
    (result : option schedulerResult) (sc : Sched) : M Sched :=
  remaining ← persistPendingContext ended (sc_pending sc);
  let sc := {| sc with sc_pending := remaining |} in
  interleave ;;
  m ← try Maintain;
  interleave ;;
  m ← (match m with Ok _ => try (markCleanupDeadlines) | Err e => mret (Err e) end);
  interleave ;;
  check_live (map_to_list (sc_live sc)) ;;
  interleave ;;
  sc ← (if is_ok m && bool_decide (length (sc_pending sc) = 0%nat) then dispatch clients workers sc else mret sc);
  mret (match result with Some r => collect sc r | None => sc end).

(** Shutdown: the results still in flight are joined, then drained. *)
Definition run_shutdown (passes : list DrainPass) (results : list schedulerResult) (sc : Sched)
    : M (list schedulerResult * bool) :=
  let sc := foldl collect sc results in
  drainPending passes (sc_pending sc).

(** The ownership flags [Run] sets and clears. *)
Definition run_acquire : M unit :=
  s ← get;
  reject (closed s || schedulerRunning s) ErrConflict ;;
  modify (λ s, {| s with schedulerRunning := true |}).

Definition run_release : M unit := modify (λ s, {| s with schedulerRunning := false |}).

(** ** Every pass keeps the contract *)
Context {EOk : CapeEnvOk E} (rm : bool) (own : string → Prop) (Hothers : keeps cfg (evolves rm own) others).

Lemma interleave_evolves : keeps cfg (evolves rm own) interleave.
Proof. unfold interleave. auto with mx. Qed.

Hint Extern 2 (keeps _ (evolves _ _) _) => apply keeps_evolves : mx.
Hint Resolve interleave_evolves RecordDeletion_maintains RecordStatus_maintains recordReportError_maintains
  CompleteReport_evolves extendRetry_maintains SetGenerationAdmission_maintains RecordSubmission_maintains
  BeginSubmission_maintains reserveRead_maintains schedulerJobs_maintains : mx.

Lemma extend_throttled_maintains j e : maintains cfg (extend_throttled j e).
Proof. unfold extend_throttled. destruct e as [[]|]; auto with mx. Qed.
Hint Resolve extend_throttled_maintains : mx.

Lemma maintain_owns_evolves r k : keeps cfg (evolves rm own) k → keeps cfg (evolves rm own) (maintain_owns r k).
Proof. unfold maintain_owns. destruct r; auto with mx. Qed.
Hint Resolve maintain_owns_evolves : mx.

Lemma persist_read_evolves j r : keeps cfg (evolves rm own) (persist_read j r).
Proof.
  unfold persist_read. apply (keeps_if cfg (evolves rm own)); [auto 10 with mx|].
  apply (keeps_if cfg (evolves rm own)); [auto with mx|]. destruct (sr_err r); auto 10 with mx.
Qed.

Lemma record_result_maintains j r : maintains cfg (record_result j r).
Proof. unfold record_result. auto with mx. Qed.
Hint Resolve persist_read_evolves record_result_maintains : mx.

Lemma persist_evolves r : keeps cfg (evolves rm own) (persist r).
Proof. unfold persist. auto 15 with mx. Qed.
Hint Resolve persist_evolves : mx.

Lemma persistPendingContext_evolves pending : ∀ ended, keeps cfg (evolves rm own) (persistPendingContext ended pending).
Proof.
  induction pending as [|r rest IH]; intros ended; simpl; [auto with mx|].
  apply (keeps_if cfg (evolves rm own)); (apply (keeps_bind cfg (evolves rm own)); [|intros x]); auto with mx.
Qed.

Lemma select_loop_evolves clients live deletions lastTenant jobs : ∀ i selected,
  keeps cfg (evolves rm own) (select_loop clients live deletions lastTenant jobs i selected).
Proof.
  induction jobs as [|j jobs IH]; intros i selected; simpl; [auto with mx|].
  apply (keeps_if cfg (evolves rm own)); [|auto]. apply (keeps_bind cfg (evolves rm own)); [auto with mx|].
  intros t. auto with mx.
Qed.

Lemma dispatch_one_evolves deletions sc j : keeps cfg (evolves rm own) (dispatch_one deletions sc j).
Proof.
  unfold dispatch_one. apply (keeps_if cfg (evolves rm own));
    (apply (keeps_bind cfg (evolves rm own)); [auto with mx|]); intros [j'|e]; auto 10 with mx.
Qed.
Hint Resolve select_loop_evolves dispatch_one_evolves : mx.

Lemma dispatch_loop_evolves fuel : ∀ clients workers deletions sc jobs,
  keeps cfg (evolves rm own) (dispatch_loop fuel clients workers deletions sc jobs).
Proof.
  induction fuel as [|fuel IH]; intros clients workers deletions sc jobs; simpl; [auto with mx|].
  apply (keeps_if cfg (evolves rm own)); [|auto with mx]. apply (keeps_bind cfg (evolves rm own)); [auto with mx|].
  intros [i|]; [|auto with mx]. destruct (jobs !! i) as [j|]; [|auto with mx].
  apply (keeps_bind cfg (evolves rm own)); [auto with mx|]. intros r. apply (keeps_bind cfg (evolves rm own)); [auto with mx|].
  intros _. destruct r as [sc' []]; auto with mx.
Qed.
Hint Resolve dispatch_loop_evolves persistPendingContext_evolves : mx.

Lemma dispatch_evolves clients workers sc : keeps cfg (evolves rm own) (dispatch clients workers sc).
Proof.
  unfold dispatch. apply (keeps_bind cfg (evolves rm own)); [auto with mx|]. intros [batch|e]; [|auto with mx].
  apply (keeps_bind cfg (evolves rm own)); [auto with mx|]. intros [[sc' jobs] []]; [|auto with mx].
  apply (keeps_bind cfg (evolves rm own)); [auto with mx|]. intros [[??]?]. auto with mx.
Qed.
Hint Resolve dispatch_evolves markCleanupDeadlines_maintains : mx.

Lemma check_live_evolves l : keeps cfg (evolves rm own) (check_live l).
Proof. induction l as [|[id j] l IH]; simpl; auto 10 with mx. Qed.
Hint Resolve check_live_evolves : mx.

(** One iteration, with [Maintain] allowed to remove rows. *)
Lemma run_iteration_evolves clients workers ended result sc :
  rm = true → keeps cfg (evolves rm own) (run_iteration clients workers ended result sc).
Proof.
  intros Hrm.
  assert (keeps cfg (evolves rm own) Maintain) as Hm.
  { rewrite Hrm. eapply (keeps_weaken cfg true nobody); [by intros ? []|]. apply wp_Maintain. }
  unfold run_iteration. apply (keeps_bind cfg (evolves rm own)); [auto with mx|]. intros rest.
  apply (keeps_bind cfg (evolves rm own)); [auto with mx|]. intros _.
  apply (keeps_bind cfg (evolves rm own)); [by apply (keeps_try cfg (evolves rm own))|]. intros m.
  apply (keeps_bind cfg (evolves rm own)); [auto with mx|]. intros _.
  apply (keeps_bind cfg (evolves rm own)); [destruct m; auto with mx|]. intros m'. auto 10 with mx.
Qed.

(** Persisting never fails as a whole. *)
Lemma wp_persistPending pending : ∀ ended s,
  wp (persistPendingContext ended pending)
     (λ r _, match r with Ok rest => rest `sublist_of` pending | Err _ => False end) s.
Proof.
  induction pending as [|r rest IH]; intros ended s; simpl; [by wp_step|].
  destruct (ended 0%nat).
  - wp_step. eapply wp_mono; [apply IH|]. intros [l|] s' Hl; [|done]. wp_step. by constructor.
  - wp_step. wp_step. intros o x s1 o1 _. wp_step. eapply wp_mono; [apply IH|].
    intros [l|] s' Hl; [|done]. wp_step. destruct x; by constructor.
Qed.

(** ** Selection *)

Lemma wp_interleave (Q : res unit → St → Prop) s : (∀ s', Q (Ok tt) s') → wp interleave Q s.
Proof. intros HQ. unfold interleave. wp_step. wp_step. intros o r s1 o1 _. by wp_step. Qed.

(** A selected index is one of an eligible job of the batch. *)
Lemma wp_select_loop clients live deletions last all (Q : res (option nat) → St → Prop) s :
  (∀ i j, all !! i = Some j → eligible clients live deletions j = true → Q (Ok (Some i)) s) →
  Q (Ok None) s →
  wp (select_loop clients live deletions last all 0 None) Q s.
Proof.
  intros H1 H2.
  assert (∀ jobs i sel, jobs = drop i all →
    match sel with Some k => Q (Ok (Some k)) s | None => True end →
    wp (select_loop clients live deletions last jobs i sel) Q s) as Hgen.
  { intros jobs. induction jobs as [|j jobs IH]; intros i sel Hd Hsel; simpl.
    - wp_step. by destruct sel.
    - assert (all !! i = Some j) as Hj by (rewrite <- (Nat.add_0_r i), <- lookup_drop; by rewrite <- Hd).
      assert (jobs = drop (S i) all) as Hd' by (rewrite <- Nat.add_1_r, <- drop_drop, <- Hd; done).
      wp_step; [|by apply IH]. wp_step. wp_step. wp_step; [by apply IH|]. bool_hyps.
      assert (Q (Ok (Some i)) s) by (by eapply H1).
      wp_step; [by wp_step|]. apply IH; [done|]. by destruct sel. }
  by apply (Hgen all 0%nat None).
Qed.

(** Who may be asked now, at one instant [t]. *)
Definition candidate (clients : gset string) (live : gmap string Job) (deletions : bool) (t : Time) (j : Job) : Prop :=
  eligible clients live deletions j = true ∧ readThrottled j t = false.

#[global] Instance candidate_dec clients live deletions t j : Decision (candidate clients live deletions t j).
Proof. unfold candidate. apply _. Defined.

(** At one instant the scan picks the first candidate whose tenant comes after
    the last one served, and starts over with the first candidate when there
    is none: with the batch in queue order, tenants take turns. *)
Theorem select_loop_rotates clients live deletions last jobs s o :
  src_clock o = [] →
  select_loop clients live deletions last jobs 0 None s o =
    (Ok (match list_find (λ j, candidate clients live deletions (src_last o) j ∧ str_lt last (j_Tenant j) = true) jobs with
         | Some (k, _) => Some k
         | None => fst <$> list_find (candidate clients live deletions (src_last o)) jobs
         end), s, o).
Proof.
  intros Ho. set (t := src_last o).
  set (P := λ j, candidate clients live deletions t j ∧ str_lt last (j_Tenant j) = true).
  assert (∀ jobs i sel, select_loop clients live deletions last jobs i sel s o =
    (Ok (match list_find P jobs with
         | Some (k, _) => Some (i + k)%nat
         | None => match sel with Some k => Some k
                   | None => (λ p : nat * Job, (i + p.1)%nat) <$> list_find (candidate clients live deletions t) jobs end
         end), s, o)) as Hgen.
  { clear jobs. intros jobs. induction jobs as [|j jobs IH]; intros i sel; simpl; [by destruct sel|].
    assert (∀ sel', select_loop clients live deletions last jobs (S i) sel' s o =
      (Ok (match prod_map S id <$> list_find P jobs with
         | Some (k, _) => Some (i + k)%nat
         | None => match sel' with Some k => Some k
                   | None => (λ p : nat * Job, (i + p.1)%nat) <$> (prod_map S id <$> list_find (candidate clients live deletions t) jobs) end
         end), s, o)) as Hrest.
    { intros sel'. rewrite IH. destruct (list_find P jobs) as [[k x]|]; simpl; [by rewrite Nat.add_succ_r|].
      destruct sel'; [done|]. destruct (list_find _ jobs) as [[k x]|]; simpl; [by rewrite Nat.add_succ_r|done]. }
    assert (eligible clients live deletions j = true → negb (bool_decide (j_ID j = "")) && bool_decide (j_Generation j ∈ clients)
         && bool_decide (live !! j_ID j = None) = true) as Hpre.
    { unfold eligible. intros He. apply andb_true_iff in He as [He _]. apply andb_true_iff in He as [He _]. done. }
    destruct (negb _ && _ && _).
    2:{ rewrite decide_False by (intros [[He _] _]; by specialize (Hpre He)).
        rewrite (decide_False (P := candidate _ _ _ _ _)) by (intros [He _]; by specialize (Hpre He)). apply Hrest. }
    cbv [mbind M_bind clockNow]. rewrite Ho.
    change (src_last o) with t. destruct (readThrottled j t || negb (eligible clients live deletions j)) eqn:Hc.
    - assert (¬ candidate clients live deletions t j) as Hn.
      { intros [He Ht]. by rewrite He, Ht in Hc. }
      rewrite decide_False by (by intros [? _]). rewrite (decide_False (P := candidate _ _ _ _ _)) by done. apply Hrest.
    - bool_hyps. assert (candidate clients live deletions t j) as Hcand by done.
      rewrite (decide_True (P := candidate _ _ _ _ _)) by done.
      destruct (decide (P j)) as [[_ Hlt]|Hlt].
      + rewrite Hlt. by rewrite Nat.add_0_r.
      + assert (str_lt last (j_Tenant j) = false) as -> by (apply not_true_iff_false; intros ?; by apply Hlt).
        rewrite Hrest. destruct (prod_map S id <$> list_find P jobs) as [[k x]|]; [by destruct sel|].
        destruct sel; [done|]. simpl. by rewrite Nat.add_0_r. }
  rewrite Hgen. destruct (list_find P jobs) as [[k x]|]; [done|].
  by destruct (list_find _ jobs) as [[k x]|].
Qed.

(** ** Dispatch ends *)

Definition unused (jobs : list Job) : nat := length (filter (λ j, j_ID j ≠ "") jobs).

Lemma unused_mark jobs i j : jobs !! i = Some j → j_ID j ≠ "" → (unused (mark_used jobs i) < unused jobs)%nat.
Proof.
  unfold unused, mark_used. revert i. induction jobs as [|x jobs IH]; intros i Hi Hne; [done|].
  destruct i as [|i]; simpl in Hi.
  - simplify_eq. cbn [alter list_alter]. rewrite !filter_cons. rewrite decide_False by (cbn; auto).
    rewrite decide_True by done. simpl. lia.
  - specialize (IH i Hi Hne). cbn [alter list_alter]. change (list_alter ?f i jobs) with (alter f i jobs) in *.
    rewrite !filter_cons. case_decide; simpl; lia.
Qed.

Lemma wp_dispatch_one deletions sc j workers (Q : res (Sched * bool) → St → Prop) s :
  Z.of_nat (size (sc_live sc)) < workers →
  (∀ sc' go s', Z.of_nat (size (sc_live sc')) <= workers → Q (Ok (sc', go)) s') →
  wp (dispatch_one deletions sc j) Q s.
Proof.
  intros Hl HQ. unfold dispatch_one.
  assert (∀ reserved kind task s', Q (Ok (start_request deletions sc j reserved kind task, true)) s') as Hstart.
  { intros. apply HQ. cbn. rewrite map_size_insert. destruct (sc_live sc !! j_ID j); simpl; lia. }
  case_match.
  - wp_step. wp_step. intros o [reserved|e] s1 o1 _; [by wp_step|].
    wp_step. apply wp_interleave. intros s2. wp_step. wp_step. intros o2 x s3 o3 _. wp_step.
    case_match; apply HQ; cbn; lia.
  - wp_step. wp_step. intros o [reserved|e] s1 o1 _; wp_step; [done|]. apply HQ. lia.
Qed.

Lemma wp_dispatch_loop fuel : ∀ clients workers deletions sc jobs s,
  (unused jobs < fuel)%nat → Z.of_nat (size (sc_live sc)) <= workers →
  wp (dispatch_loop fuel clients workers deletions sc jobs)
     (λ r _, ∃ sc' jobs' go, r = Ok (sc', jobs', go) ∧ Z.of_nat (size (sc_live sc')) <= workers) s.
Proof.
  induction fuel as [|fuel IH]; intros clients workers deletions sc jobs s Hf Hl; [lia|]. simpl.
  case_match eqn:Hw; [|wp_step; eauto]. bool_hyps. wp_step. apply wp_select_loop.
  2:{ wp_step. eauto. }
  intros i j Hj He. rewrite Hj. wp_step. eapply wp_dispatch_one; [done|].
  intros sc' go s1 Hl'. wp_step. apply wp_interleave. intros s2. destruct go; [|wp_step; eauto].
  apply IH; [|done]. assert (j_ID j ≠ "") by (unfold eligible in He; bool_hyps; done).
  pose proof (unused_mark _ _ _ Hj H). lia.
Qed.

(** The dispatch of one batch always ends, within one round per job, and
    never has more requests in flight than there are workers. *)
Theorem dispatch_loop_ends fuel : ∀ clients workers deletions sc jobs s,
  (unused jobs < fuel)%nat → Z.of_nat (size (sc_live sc)) <= workers →
  wp (dispatch_loop fuel clients workers deletions sc jobs)
     (λ r _, ∃ sc' jobs' go, r = Ok (sc', jobs', go) ∧ Z.of_nat (size (sc_live sc')) <= workers) s.
Proof. apply wp_dispatch_loop. Qed.

Lemma wp_total_dispatch clients workers sc s :
  Z.of_nat (size (sc_live sc)) <= workers →
  wp (dispatch clients workers sc) (λ r _, ∃ sc', r = Ok sc' ∧ Z.of_nat (size (sc_live sc')) <= workers) s.
Proof.
  intros Hl. unfold dispatch. wp_step. wp_step. intros o [batch|e] s1 o1 _; [|wp_step; eauto].
  assert (∀ l, (unused l < S (length l))%nat) as Hu.
  { intros l. unfold unused. pose proof (length_filter (λ j, j_ID j ≠ "") l). lia. }
  wp_step. eapply wp_mono; [by apply wp_dispatch_loop|]. intros r s2 (sc1&jobs&go&->&Hl1). cbn beta iota.
  destruct go; [|wp_step; eauto]. wp_step. eapply wp_mono; [by apply wp_dispatch_loop|].
  intros r s3 (sc2&jobs2&go2&->&Hl2). cbn beta iota. wp_step. eauto.
Qed.

Lemma wp_check_live l (Q : res (list string) → St → Prop) : ∀ s, (∀ c s', Q (Ok c) s') → wp (check_live l) Q s.
Proof.
  revert Q. induction l as [|[id j] l IH]; intros Q s HQ; simpl; [by wp_step|].
  wp_step. wp_step. intros o x s1 o1 _. wp_step. apply IH. intros c s2. by wp_step.
Qed.

(** An iteration of [Run] always completes, and requests never outnumber the
    workers; a result that arrives leaves the set of live requests and is
    queued for persistence. *)
Theorem run_iteration_bounded clients workers ended result sc s :
  Z.of_nat (size (sc_live sc)) <= workers →
  wp (run_iteration clients workers ended result sc)
     (λ r _, ∃ sc', r = Ok sc' ∧ Z.of_nat (size (sc_live sc')) <= workers
        ∧ ∀ x, result = Some x → last (sc_pending sc') = Some x ∧ sc_live sc' !! j_ID (sr_job x) = None) s.
Proof.
  intros Hl. unfold run_iteration. wp_step. eapply wp_mono; [apply wp_persistPending|].
  intros [rest|e] s1 Hsub; [|done]. wp_step. apply wp_interleave. intros s1'. wp_step. wp_step. intros o m s2 o2 _.
  wp_step. apply wp_interleave. intros s2'. wp_step.
  assert (∀ s, wp (match m with Ok _ => try markCleanupDeadlines | Err e => mret (Err e) end)
    (λ r _, ∃ x, r = Ok x) s) as Hm.
  { intros s'. destruct m; [|wp_step; eauto]. wp_step. intros o3 x s3 o4 _. eauto. }
  eapply wp_mono; [apply Hm|]. intros ? s3 [m' ->]. wp_step. apply wp_interleave. intros s3'.
  wp_step. apply wp_check_live. intros _ s4. wp_step. apply wp_interleave. intros s4'. wp_step.
  eapply (wp_mono _ (λ r _, ∃ sc', r = Ok sc' ∧ Z.of_nat (size (sc_live sc')) <= workers)).
  { clear Hm. wp_step; [by apply wp_total_dispatch|]. wp_step. eauto. }
  intros ? s5 (sc'&->&Hl'). wp_step. destruct result as [x|]; [|by exists sc'].
  exists (collect sc' x). split_and!; [done| |].
  - cbn. rewrite map_size_delete. destruct (sc_live sc' !! _); simpl; lia.
  - intros ? [= <-]. cbn. by rewrite last_snoc, lookup_delete_eq.
Qed.

End Scheduler.

(** ** No outcome of a submission is lost

    While only the scheduler removes rows, the others may admit and update
    jobs at any time. *)
Section Outcomes.
Context {E : CapeEnv} {EOk : CapeEnvOk E} (cfg : StoreConfig).
Context (mapper : option ResultMapper) (jitter : Z → option Z) (others : M unit).
Context (own : string → Prop) (Hothers : keeps cfg (evolves false own) others).

(** The job the result reports on is stored, and some attempt of it began. *)
Definition attempt_known (r : schedulerResult) (s : St) : Prop :=
  ∃ j, jobOf (jobs (db s)) (j_ID (sr_job r)) = Some j ∧ j_State j ≠ Staging
       ∧ j_SubmissionVersion (sr_job r) <= j_Version j.

(** The attempt the result reports on has an outcome in the store. *)
Definition outcome_stored (r : schedulerResult) (s : St) : Prop :=
  ∃ j, jobOf (jobs (db s)) (j_ID (sr_job r)) = Some j ∧ j_State j ≠ Staging
       ∧ attempt_settled (j_SubmissionVersion (sr_job r)) j.

Lemma legal_rtc_published j j' : rtc legal j j' → j_State j ≠ Staging → j_State j' ≠ Staging ∧ j_Version j <= j_Version j'.
Proof.
  induction 1 as [|j j1 j2 Hl _ IH]; [done|]. intros Hs.
  assert (j_State j1 ≠ Staging) as Hs1 by (intros Heq; apply Hs, allowed_to_staging; rewrite <- Heq; by apply lg_state).
  destruct (IH Hs1). pose proof (lg_version _ _ Hl). split; [done|lia].
Qed.

Lemma attempt_known_stays r s s' : evolves false own s s' → attempt_known r s → attempt_known r s'.
Proof.
  intros He%evolves_stays (j&Hj&Hs&Hv). destruct (He _ _ Hj Hs) as (j'&Hj'&Hr).
  destruct (legal_rtc_published _ _ Hr Hs). exists j'. split_and!; [done|done|lia].
Qed.

Lemma outcome_stored_stays r s s' : evolves false own s s' → outcome_stored r s → outcome_stored r s'.
Proof.
  intros He%evolves_stays (j&Hj&Hs&Hv). destruct (He _ _ Hj Hs) as (j'&Hj'&Hr).
  destruct (legal_rtc_published _ _ Hr Hs). exists j'. split_and!; [done|done|].
  by eapply attempt_settled_rtc.
Qed.

Lemma wp_keeps {A} (m : M A) s (Q : res A → St → Prop) :
  keeps cfg (evolves false own) m → Inv cfg s →
  (∀ r s', Inv cfg s' → evolves false own s s' → Q r s') → wp m Q s.
Proof. intros Hm Hinv HQ. eapply wp_mono; [by apply Hm|]. intros r s' [??]. auto. Qed.

Lemma wp_record_result j r s :
  Inv cfg s → attempt_known r s → j_ID j = j_ID (sr_job r) →
  (j_SubmissionRecorded j = true → outcome_stored r s) →
  wp (record_result jitter j r) (λ x s', x = Ok tt → outcome_stored r s') s.
Proof.
  intros Hinv (j0&Hj0&Hs0&Hv0) Hid Hrec. unfold record_result. destruct (j_SubmissionRecorded j); [wp_step; auto|].
  wp_step. eapply wp_mono; [by apply (wp_RecordSubmission cfg)|]. intros [j'|e] s' Hx; [|done]. wp_step. intros _.
  destruct (Hx j' eq_refl) as (p&Hp&_&Ham&Hl&Hcl&Hj'&_). rewrite Hid in *. simplify_eq.
  assert (j_State j' ≠ Staging) as Hs'.
  { intros Heq. apply Hs0, allowed_to_staging. rewrite <- Heq. by apply lg_state. }
  exists j'. split_and!; [done..|]. split; [rewrite (lg_version _ _ Hl); lia|]. intros _. apply Hcl.
Qed.

Hint Resolve interleave_evolves SetGenerationAdmission_maintains keeps_evolves : mx.

Lemma persist_settles r s :
  Inv cfg s → sr_kind r = "submit" → attempt_known r s →
  wp (persist mapper jitter others r) (λ x s', x = Ok tt → outcome_stored r s') s.
Proof.
  intros Hinv Hk Hkn. unfold persist. rewrite Hk.
  assert (keeps cfg (evolves false own) (interleave others)) as Hil by auto with mx.
  wp_step. apply wp_keeps; [auto with mx|done|]. intros [[]|e] s1 Hinv1 He1; [|done]. wp_step.
  apply wp_keeps; [done..|]. intros [[]|e] s2 Hinv2 He2; [|done]. wp_step.
  apply (wp_Lookup cfg); [done| |done]. intros j Hj Hid _. wp_step.
  apply wp_keeps; [done..|]. intros [[]|e] s3 Hinv3 He3; [|done]. rewrite !(bool_decide_false ("submit" = _)) by done.
  rewrite bool_decide_true by done.
  assert (attempt_known r s2) as Hkn2 by eauto using attempt_known_stays.
  apply wp_record_result; [done|by eapply attempt_known_stays|done|].
  intros Hrec. eapply outcome_stored_stays; [exact He3|]. destruct Hkn2 as (j2&Hj2&?&?). simplify_eq.
  exists j. split_and!; [done..|]. by split.
Qed.

(** C8: No outcome of a submission is lost: what one pass leaves pending is part
    of what was pending, in order, and a submission it dropped has its outcome
    in the store, whatever else happened meanwhile. *)
Theorem persistPendingContext_keeps pending : ∀ ended s,
  Inv cfg s → Forall (λ r, sr_kind r = "submit" → attempt_known r s) pending →
  wp (persistPendingContext mapper jitter others ended pending)
     (λ x s', Inv cfg s' ∧ ∃ rest, x = Ok rest ∧ rest `sublist_of` pending
        ∧ ∀ r, r ∈ pending → sr_kind r = "submit" → r ∈ rest ∨ outcome_stored r s') s.
Proof.
  assert (∀ ended s, Inv cfg s → Forall (λ r, sr_kind r = "submit" → attempt_known r s) pending →
  wp (persistPendingContext mapper jitter others ended pending)
     (λ x s', Inv cfg s' ∧ evolves false own s s' ∧ ∃ rest, x = Ok rest ∧ rest `sublist_of` pending
        ∧ ∀ r, r ∈ pending → sr_kind r = "submit" → r ∈ rest ∨ outcome_stored r s') s) as H.
  { induction pending as [|r rest IH]; intros ended s Hinv Hkn; simpl.
    { wp_step. split_and!; [done|done|]. exists []. split_and!; [done..|]. by intros ? ?%elem_of_nil. }
    apply Forall_cons in Hkn as [Hkr Hkn]. destruct (ended 0%nat).
    - wp_step. eapply wp_mono; [by apply IH|]. intros x s' (Hinv'&He&l&->&Hl&Hr). wp_step. split_and!; [done..|].
      exists (r :: l). split_and!; [done|by constructor|]. intros r' [->|Hin]%elem_of_cons Hk; [left; left|].
      destruct (Hr r' Hin Hk); [left; by right|by right].
    - wp_step. wp_step.
      eapply (wp_mono _ (λ x s1, (Inv cfg s1 ∧ evolves false own s s1)
        ∧ (sr_kind r = "submit" → x = Ok tt → outcome_stored r s1))).
      { destruct (decide (sr_kind r = "submit")) as [Hk|Hk].
        - eapply wp_mono; [apply wp_and; [by eapply persist_evolves|by apply persist_settles; auto]|].
          intros x s1 [??]. by split.
        - eapply wp_mono; [by eapply persist_evolves|]. intros x s1 [??]. by split. }
      intros x s1 [[Hinv1 He1] Hx]. wp_step. eapply wp_mono; [apply IH; [done|]|].
      { eapply Forall_impl; [exact Hkn|]. intros r' Hr' Hk. by eapply attempt_known_stays, Hr'. }
      intros y s' (Hinv'&He&l&->&Hl&Hr). wp_step. split; [done|]. split; [by etrans|].
      exists (if is_ok x then l else r :: l). split_and!; [done|by destruct x; constructor|].
      intros r' [->|Hin]%elem_of_cons Hk.
      + destruct x as [[]|e]; [right|left; left]. eapply outcome_stored_stays; [exact He|]. by apply Hx.
      + destruct (Hr r' Hin Hk); [left|by right]. destruct x; [done|by right]. }
  intros ended s Hinv Hkn. eapply wp_mono; [by apply H|]. by intros x s' (?&_&?).
Qed.

End Outcomes.


(** Retries are spaced between five seconds and five minutes. *)
Theorem retryDelay_bounds jitter attempt : uniform jitter →
  5 * second <= retryDelay jitter attempt <= 5 * minute
  ∧ (attempt <= 0 → retryDelay jitter attempt = 5 * second).
Proof.
  intros Hu. unfold retryDelay.
  set (a := if (if 6 <? attempt then 6 else attempt) <? 0 then 0 else if 6 <? attempt then 6 else attempt).
  assert (0 <= a <= 6) as Ha by (subst a; repeat case_match; bool_hyps; lia).
  assert (attempt <= 0 → a = 0) as Ha0 by (subst a; repeat case_match; bool_hyps; lia).
  assert (5 * second <= Z.shiftl (5 * second) a) as Hs.
  { rewrite Z.shiftl_mul_pow2 by lia. pose proof (Z.pow_pos_nonneg 2 a). unfold second. lia. }
  cbn zeta. set (c := if 5 * minute <? Z.shiftl (5 * second) a then 5 * minute else Z.shiftl (5 * second) a).
  assert (5 * second <= c <= 5 * minute) as Hc by (subst c; case_match; bool_hyps; unfold minute, second in *; lia).
  split.
  - destruct (c <=? 5 * second) eqn:Hle; [unfold minute, second; lia|]. bool_hyps.
    destruct (jitter _) as [n|] eqn:Hj; [|lia]. apply Hu in Hj; lia.
  - intros Ht. assert (c = 5 * second) as ->; [|done]. subst c. by rewrite (Ha0 Ht).
Qed.
