(* ===== verification/CapeClient.v ===== *)
(** * The endpoint client

    [internal/cape/client.go] and the typed calls of [protocol.go]: what one
    exchange with the endpoint means.  The transport, the URL parser, the
    credential provider and [http.ParseTime] are inputs. *)

From Stdlib Require Import ZArith Lia.
From Stdlib Require Ascii.
From stdpp Require Import base gmap strings list numbers.
From S2P Require Import Prelude GoStd CapeTypes CapeJob CapeJson CapeReport.

Local Open Scope Z_scope.

(** ** Configuration *)

(** What [url.Parse] found in the origin. *)
Record Origin := mkOrigin {
  u_Scheme : string; u_Host : string; u_Hostname : string; u_Port : string; u_HasUser : bool;
  u_Path : string; u_RawQuery : string; u_ForceQuery : bool; u_Fragment : string; u_Opaque : string
}.

(** [netip.AddrPort] *)
Record AddrPort := mkAddrPort {
  a_Valid : bool; a_Port : Z; a_Unspecified : bool; a_Multicast : bool; a_Zone : string
}.

Record Config := mkConfig {
  cf_Origin : option Origin;
  cf_AllowedDestination : AddrPort;
  cf_Generation : string;
  cf_Machine : string;
  cf_CredentialReference : string;
  cf_CAPEM : string
}.

(** [New]; [pem_ok] tells whether certificates could be added from the PEM
    block.  The generation of the client on success. *)
Definition New (cfg : Config) (has_credentials : bool) (pem_ok : string → bool) : res string :=
  match cf_Origin cfg with
  | None => Err (cerr Invalid)
  | Some u =>
      let d := cf_AllowedDestination cfg in
      if bool_decide (u_Scheme u ≠ "https") || bool_decide (u_Host u = "") || bool_decide (u_Hostname u = "")
         || u_HasUser u || bool_decide (u_Path u ≠ "") || bool_decide (u_RawQuery u ≠ "") || u_ForceQuery u
         || bool_decide (u_Fragment u ≠ "") || bool_decide (u_Opaque u ≠ "")
         || negb (a_Valid d) || (a_Port d =? 0) || a_Unspecified d || a_Multicast d
         || bool_decide (a_Zone d ≠ "") || negb (identifier (cf_Generation cfg) 128)
         || negb (identifier (cf_Machine cfg) 128) || bool_decide (to_lower (cf_Machine cfg) = "all")
         || negb (identifier (cf_CredentialReference cfg) 256) || negb has_credentials
      then Err (cerr Invalid)
      else
        let port := if bool_decide (u_Port u = "") then "443" else u_Port u in
        if bool_decide (port ≠ FormatInt (a_Port d)) then Err (cerr Invalid)
        else if negb (len (cf_CAPEM cfg) =? 0) && negb (pem_ok (cf_CAPEM cfg)) then Err (cerr Invalid)
        else Ok (cf_Generation cfg)
  end.

(** ** The set of active requests *)
Record Client := mkClient {
  cl_generation : string;
  cl_closed : bool;
  cl_next : Z;
  cl_active : gmap Z bool
}.

(** [begin]: the id of the request; its context is not cancelled yet. *)
Definition begin_request (c : Client) : res (Client * Z) :=
  if cl_closed c then Err (cerr Closed)
  else
    let id := (cl_next c + 1) mod 2 ^ 64 in
    Ok ({| c with cl_next := id; cl_active := <[id := false]> (cl_active c) |}, id).

Definition end_request (c : Client) (id : Z) : Client := {| c with cl_active := delete id (cl_active c) |}.

(** [Close]: every active context is cancelled. *)
Definition close_client (c : Client) : Client :=
  {| c with cl_closed := true; cl_active := (λ _, true) <$> cl_active c |}.

(** ** Requests *)

(** A byte of the authorization header. *)
Definition token_char (c : Ascii.ascii) : bool := negb (byte c <? 33) && negb (126 <? byte c).

(** [request]: [token] is the provider's answer, [done] the two readings of
    [ctx.Err() != nil], [built] whether the request could be made. *)
Definition request_headers (token : option string) (done1 done2 built : bool) : res string :=
  if done1 then Err (cerr Deadline)
  else match token with
       | None => Err (cerr Credential)
       | Some token =>
           if (len token =? 0) || (4096 <? len token) then Err (cerr Credential)
           else if negb (string_forallb token_char token) then Err (cerr Credential)
           else if done2 then Err (cerr Deadline)
           else if negb built then Err (cerr Invalid)
           else Ok ("Token " +:+ token)
       end.

(** ** Responses *)
Record Response := mkResponse {
  h_StatusCode : Z;
  h_Header : string → list string;
  h_body : string;
  h_readErr : bool
}.

(** [retryAfter] *)
Definition retryAfter (ParseTime : string → option Time) (s : string) (now : Time) : Duration :=
  let d :=
    if len s <=? 128 then
      match ParseUint s 64 with
      | Some n => (if 300 <? n then 300 else n) * second
      | None => match ParseTime s with
                | Some date => date - now
                | None => 5 * second
                end
      end
    else 5 * second in
  if d <? 5 * second then 5 * second
  else if 5 * minute <? d then 5 * minute
  else d.

(** [Header.Get] *)
Definition header_get (h : string → list string) (name : string) : string :=
  match h name with v :: _ => v | [] => "" end.

(** [classifyHTTP] *)
Definition classifyHTTP (ParseTime : string → option Time) (now : Time) (r : Response) : option error :=
  let code := h_StatusCode r in
  if code =? 200 then None
  else if (code =? 401) || (code =? 403) then Some (cerr Unauthorized)
  else if code =? 429 then Some (ECode Throttled (retryAfter ParseTime (header_get (h_Header r) "Retry-After") now))
  else if code =? 404 then Some (cerr NotFound)
  else if 500 <=? code then Some (cerr Remote)
  else Some (cerr Protocol).

(** [validContentEncoding] *)
Definition validContentEncoding (h : string → list string) : bool :=
  match h "Content-Encoding" with
  | [] => true
  | [e] => bool_decide (to_lower e = "identity")
  | _ => false
  end.

(** [do]: [response] is [None] when the transport failed; [done] is the
    reading of [ctx.Err() != nil] at the point that needs it. *)
Definition do_request (ParseTime : string → option Time) (now : Time) (response : option Response)
    (done : bool) (limit : Z) : string * option error :=
  match response with
  | None => ("", Some (if done then cerr Deadline else cerr Transport))
  | Some r =>
      let statusErr := classifyHTTP ParseTime now r in
      let encodingValid := validContentEncoding (h_Header r) in
      let body := String.substring 0 (Z.to_nat (limit + 1)) (h_body r) in
      if limit <? len body then
        let body := String.substring 0 (Z.to_nat limit) body in
        match statusErr with
        | Some e => (body, Some e)
        | None => if negb encodingValid then (body, Some (cerr Protocol)) else (body, Some (cerr TooLarge))
        end
      else match statusErr with
           | Some e => (body, Some e)
           | None => if negb encodingValid then (body, Some (cerr Protocol))
                     else if done then (body, Some (cerr Deadline))
                     else if h_readErr r then (body, Some (cerr Transport))
                     else (body, None)
           end
  end.

(** What the outside world does during one call. *)
Record Exchange := mkExchange {
  x_random : bool;
  x_token : option string;
  x_done1 : bool;
  x_done2 : bool;
  x_built : bool;
  x_response : option Response;
  x_done : bool;
  x_now : Time;
  x_source : string;
  x_source_err : bool;
  x_upload_err : bool
}.

(** ** [Submit] *)

(** [writeMultipart]: the source must deliver exactly [size] bytes; the bytes
    that reach the pipe before the final boundary. *)
Definition upload_failed (x : Exchange) (size : Z) : bool :=
  x_upload_err x || x_source_err x || negb (len (x_source x) =? size).

Definition Submit (decode : string → body) (ParseTime : string → option Time) (c : Client)
    (has_source : bool) (size : Z) (marker : string) (x : Exchange) : Submission * option error :=
  let unsent := mkSubmission [] true false in
  if negb has_source then (unsent, Some (cerr Invalid))
  else if (size <? 1) || (MaxAttachment <? size) || negb (hexID marker) then (unsent, Some (cerr Invalid))
  else match begin_request c with
       | Err e => (unsent, Some e)
       | Ok _ =>
           if negb (x_random x) then (unsent, Some (cerr Invalid))
           else match request_headers (x_token x) (x_done1 x) (x_done2 x) (x_built x) with
                | Err e => (unsent, Some e)
                | Ok _ =>
                    let '(b, responseErr) := do_request ParseTime (x_now x) (x_response x) (x_done x) MaxMetadata in
                    let '(tasks, parseErr) := parseSubmission (decode b) (cl_generation c) in
                    match responseErr with
                    | Some e => (mkSubmission tasks false true, Some e)
                    | None =>
                        if upload_failed x size then (mkSubmission tasks false true, Some (cerr Invalid))
                        else match parseErr with
                             | Some e => (mkSubmission tasks false true, Some e)
                             | None => (mkSubmission tasks false false, None)
                             end
                    end
                end
       end.

(** ** Reads (protocol.go) *)

(** [validTask] *)
Definition validTask (c : Client) (task : TaskRef) : bool :=
  (0 <? t_ID task) && (t_ID task <=? maxTaskID) && bool_decide (t_Generation task = cl_generation c).

(** [read] *)
Definition read_document (decode : string → body) (ParseTime : string → option Time) (c : Client)
    (task : TaskRef) (limit : Z) (x : Exchange) : res (list (string * json)) :=
  if negb (validTask c task) then Err (cerr Invalid)
  else match begin_request c with
       | Err e => Err e
       | Ok _ =>
           match request_headers (x_token x) (x_done1 x) (x_done2 x) (x_built x) with
           | Err e => Err e
           | Ok _ =>
               match do_request ParseTime (x_now x) (x_response x) (x_done x) limit with
               | (_, Some e) => Err e
               | (b, None) => fst (jsonDocument (decode b) false)
               end
           end
       end.

Definition statuses : list string :=
  ["pending"; "running"; "distributed"; "completed"; "recovered"; "reported"; "banned";
   "failed_analysis"; "failed_processing"; "failed_reporting"; "distributed_completed"].

(** [Status] *)
Definition Status_call (decode : string → body) (ParseTime : string → option Time) (c : Client)
    (task : TaskRef) (x : Exchange) : res string :=
  match read_document decode ParseTime c task MaxMetadata x with
  | Err e => Err e
  | Ok doc =>
      match as_bool (assoc_get "error" doc), as_string (assoc_get "data" doc) with
      | Some false, Some s => if mem s statuses then Ok s else Err (cerr Protocol)
      | _, _ => Err (cerr Protocol)
      end
  end.

(** [Report] *)
Definition Report_call (decode : string → body) (ParseTime : string → option Time) (c : Client)
    (task : TaskRef) (expectedSHA256 : string) (x : Exchange) : res Report :=
  match read_document decode ParseTime c task MaxReport x with
  | Err e => Err e
  | Ok doc =>
      if document_identity doc task (hex_encode expectedSHA256) then Ok (mkReport doc task expectedSHA256)
      else Err (cerr Protocol)
  end.

(** [Delete] *)
Definition Delete_call (decode : string → body) (ParseTime : string → option Time) (c : Client)
    (task : TaskRef) (x : Exchange) : res string :=
  match read_document decode ParseTime c task MaxMetadata x with
  | Err e => Err e
  | Ok doc =>
      if negb (Z.of_nat (length doc) =? 1)
         || bool_decide (as_string (assoc_get "data" doc)
              ≠ Some ("Task(s) ID(s) " +:+ FormatInt (t_ID task) +:+ " has been deleted"))
      then Err (cerr Protocol)
      else Ok DeleteAcknowledgedUnverified
  end.

(** ** Properties *)

(** The hint is always usable: between five seconds and five minutes. *)
Theorem retryAfter_bounds ParseTime s now :
  5 * second <= retryAfter ParseTime s now <= 5 * minute
  ∧ (∀ n, len s <= 128 → ParseUint s 64 = Some n → 5 <= n <= 300 → retryAfter ParseTime s now = n * second).
Proof.
  unfold retryAfter. split.
  - cbn zeta. set (d := if len s <=? 128 then _ else _). clearbody d.
    unfold minute, second in *. destruct (d <? _) eqn:H1; [lia|]. destruct (_ <? d) eqn:H2; bool_hyps; lia.
  - intros n Hl -> Hn. cbn zeta. rewrite (proj2 (Z.leb_le _ _) Hl). rewrite (proj2 (Z.ltb_ge 300 n)) by lia.
    unfold minute, second. by rewrite !(proj2 (Z.ltb_ge _ _)) by lia.
Qed.

(** Every error a response can cause is one of the codes that may be stored. *)
Lemma do_request_safe ParseTime now response done limit b e :
  do_request ParseTime now response done limit = (b, Some e) → ∃ c d, e = ECode c d ∧ safeOutcome c = true ∧ c ≠ "".
Proof.
  unfold do_request, classifyHTTP. intros H. repeat case_match; simplify_eq/=; eauto.
Qed.

Lemma request_headers_safe token d1 d2 b e :
  request_headers token d1 d2 b = Err e → ∃ c d, e = ECode c d ∧ safeOutcome c = true ∧ c ≠ "".
Proof. unfold request_headers. intros H. repeat case_match; simplify_eq/=; eauto. Qed.

Lemma parseSubmission_code b g tasks e : parseSubmission b g = (tasks, Some e) → e = cerr Protocol.
Proof.
  unfold parseSubmission. pose proof (jsonDocument_answers b true) as Ha.
  destruct (jsonDocument b true) as [r seen]. cbn [fst] in Ha. destruct (foldl _ _ _) as [[ts cnt] inv].
  destruct r as [doc|e0].
  - cbn zeta. destruct (_ || _); intros; by simplify_eq.
  - destruct Ha as [Ha|[? Ha]]; intros; by simplify_eq.
Qed.

(** Why the transport was never called. *)
Definition not_sent (c : Client) (has_source : bool) (size : Z) (marker : string) (x : Exchange) : Prop :=
  has_source = false ∨ size < 1 ∨ MaxAttachment < size ∨ hexID marker = false ∨ cl_closed c = true
  ∨ x_random x = false ∨ is_ok (request_headers (x_token x) (x_done1 x) (x_done2 x) (x_built x)) = false.

Definition safe_error (e : error) : Prop := ∃ c d, e = ECode c d ∧ safeOutcome c = true ∧ c ≠ "".

Record conservative (c : Client) (unsent : Prop) (sent : bool) (sub : Submission) (e : option error) : Prop := {
  cv_tasks : observed_ok (cl_generation c) (sub_Tasks sub);
  cv_unsent : sub_NoBytesSent sub = true → unsent ∧ sub_Tasks sub = [] ∧ sub_UnknownDebt sub = false ∧ e ≠ None;
  cv_success : e = None → sub_NoBytesSent sub = false ∧ sub_UnknownDebt sub = false ∧ sent = true
    ∧ ∃ t, sub_Tasks sub = [t];
  cv_debt : e ≠ None → sub_NoBytesSent sub = false → sub_UnknownDebt sub = true;
  cv_code : ∀ err, e = Some err → safe_error err
}.

Lemma conservative_unsent c (P : Prop) sent e : P → safe_error e →
  conservative c P sent (mkSubmission [] true false) (Some e).
Proof. constructor; cbn; try done; [split_and!; [constructor|done|done]|by intros ? [= <-]]. Qed.

Lemma conservative_debt c P sent tasks e : observed_ok (cl_generation c) tasks → safe_error e →
  conservative c P sent (mkSubmission tasks false true) (Some e).
Proof. constructor; cbn; try done. by intros ? [= <-]. Qed.

Lemma safe_code c : safeOutcome c = true → c ≠ "" → safe_error (cerr c).
Proof. intros. by exists c, 0. Qed.

(** C36: The claims of a submission are conservative: "no bytes sent" is only
    claimed when the transport was never called, success only for exactly one
    valid task of this generation with the whole attachment sent, and every
    other end leaves unknown remote debt.  Every error has a storable code. *)
Theorem Submit_conservative decode ParseTime c has_source size marker x :
  let '(sub, e) := Submit decode ParseTime c has_source size marker x in
  conservative c (not_sent c has_source size marker x) (negb (upload_failed x size)) sub e.
Proof.
  unfold Submit, not_sent.
  destruct has_source; cbn [negb]; [|apply conservative_unsent; [by left|by apply safe_code]].
  destruct (_ || negb (hexID marker)) eqn:Hpre.
  { apply conservative_unsent; [|by apply safe_code]. right.
    apply orb_true_iff in Hpre as [Hpre|Hpre]; [apply orb_true_iff in Hpre as [Hpre|Hpre]|]; bool_hyps; auto. }
  unfold begin_request. destruct (cl_closed c) eqn:Hc; [apply conservative_unsent; [by auto 10|by apply safe_code]|].
  destruct (x_random x) eqn:Hrand; cbn [negb]; [|apply conservative_unsent; [by auto 10|by apply safe_code]].
  destruct (request_headers _ _ _ _) as [auth|err] eqn:Hreq.
  2:{ apply conservative_unsent; [by auto 10|]. by eapply request_headers_safe. }
  destruct (do_request _ _ _ _ _) as [b responseErr] eqn:Hdo.
  pose proof (parseSubmission_ok (decode b) (cl_generation c)) as Hobs.
  destruct (parseSubmission _ _) as [tasks parseErr] eqn:Hparse. destruct Hobs as [Hobs Hone].
  destruct responseErr as [err|]; [apply conservative_debt; [done|by eapply do_request_safe]|].
  destruct (upload_failed x size) eqn:Hup; [apply conservative_debt; [done|by apply safe_code]|].
  destruct parseErr as [err|].
  { apply parseSubmission_code in Hparse as ->. apply conservative_debt; [done|by apply safe_code]. }
  constructor; cbn; try done. intros _. split_and!; try done.
  specialize (Hone eq_refl). destruct tasks as [|t [|]]; try done. by exists t.
Qed.

(** A report is accepted only with the identity of the task and the digest it
    was requested for. *)
Theorem Report_identity decode ParseTime c task digest x r :
  Report_call decode ParseTime c task digest x = Ok r →
  reportIdentity (Some r) task (hex_encode digest) = true
  ∧ 1 <= t_ID task <= maxTaskID ∧ t_Generation task = cl_generation c ∧ cl_closed c = false.
Proof.
  unfold Report_call. destruct (read_document _ _ _ _ _ _) as [doc|] eqn:Hr; [|done].
  destruct (document_identity _ _ _) eqn:Hid; [|done]. intros [= <-].
  unfold read_document in Hr. destruct (validTask c task) eqn:Hv; [|done]. cbn [negb] in Hr.
  unfold begin_request in Hr. destruct (cl_closed c); [done|].
  unfold validTask in Hv. bool_hyps. split_and!; try done; [|lia].
  unfold reportIdentity. cbn. by rewrite !bool_decide_false by auto.
Qed.
