(* ===== verification/CapeApi.v ===== *)
(** * The job API

    [internal/cape/api.go]: routing, admission and lookup responses, the public
    view of a job and the mapping of store errors. *)

From Stdlib Require Import ZArith Lia SpecFloat.
From stdpp Require Import base gmap strings list numbers sorting.
From S2P Require Import Prelude GoStd CapeTypes CapeJob CapeJson CapeStore CapeLogic CapeInv CapeLifecycle.
From S2P Require Import CapeSubmission CapeReport CapeIngress CapeAdmission.

Local Open Scope Z_scope.

Definition JobsPath : string := "/v1/cape/jobs".

Record APIProfile := mkProfile {
  pf_Generation : string;
  pf_SubmissionPolicy : string;
  pf_ResultPolicy : string;
  pf_AllowUnknown : bool;
  pf_AllowSuspicious : bool
}.

(** The parts of a request the handler looks at; [rq_media] is
    [mime.ParseMediaType] of its content type. *)
Record APIRequest := mkAPIRequest {
  ar_Method : string;
  ar_Path : string;
  ar_RawQuery : string;
  ar_Header : string → list string;
  ar_media : string → option (string * Z);
  ar_Body : option (list Read)
}.

Record APIJob := mkAPIJob {
  v_ID : string;
  v_StaticVerdict : string;
  v_State : JobState;
  v_Evidence : string;
  v_Signals : list string;
  v_Reason : Code;
  v_Cleanup : string;
  v_CreatedAt : Time;
  v_TerminalAt : Time;
  v_AnalysisDeadline : Time
}.

Inductive APIBody :=
  | BodyError (code : string)
  | BodyJob (view : APIJob)
  | BodyAccepted (id location : string).

Record APIResponse := mkResponse {
  w_status : Z;
  w_allow : string;
  w_retryAfter : bool;
  w_location : string;
  w_body : APIBody
}.

Definition apiError (status : Z) (code : string) : APIResponse := mkResponse status "" false "" (BodyError code).

(** [apiStoreError] *)
Definition apiStoreError (e : error) : APIResponse :=
  let '(status, code) :=
    match e with
    | ErrQuota => (429, "quota")
    | ECode c _ =>
        if bool_decide (c = NotFound) then (404, "not_found")
        else if bool_decide (c = Invalid) then (400, "invalid")
        else if bool_decide (c = TooLarge) then (413, "too_large")
        else if bool_decide (c = Unauthorized) then (401, "unauthorized")
        else if bool_decide (c = Throttled) then (429, "quota")
        else (503, "unavailable")
    | _ => (503, "unavailable")
    end in
  {| (apiError status code) with w_retryAfter := (status =? 503) || (status =? 429) |}.

(** [json.Unmarshal] into a normalized result. *)
Class ResultEnv := { unmarshalResult : string → option NormalizedResult }.

Section Api.
Context {E : CapeEnv} {R : ResultEnv} (cfg : StoreConfig).

(** The deadline up to which evidence is pending; the zero time otherwise. *)
Definition pending_deadline (j : Job) : Time :=
  let deadline := j_AnalysisDeadline j in
  match j_State j with
  | Staging => if Before (j_IngressDeadline j) deadline then j_IngressDeadline j else deadline
  | Queued => if Before (j_QueueDeadline j) deadline then j_QueueDeadline j else deadline
  | Submitting | SubmitUncertain | RemotePending | Fetching => deadline
  | _ => 0
  end.

(** [publicJob] *)
Definition publicJob (j : Job) (now : Time) : APIJob :=
  let v := mkAPIJob (j_ID j) (j_StaticVerdict j) (j_State j)
    (if Before now (pending_deadline j)
        && negb (bool_decide (j_State j = Fetching) && bool_decide (j_Reason j ≠ ""))
     then "pending" else "unavailable")
    [] (j_Reason j) (j_Cleanup j) (j_CreatedAt j) (j_TerminalAt j) (j_AnalysisDeadline j) in
  if bool_decide (j_State j = Completed) && negb (j_Suppressed j) && negb (IsZero (j_TerminalAt j))
     && Before now (j_TerminalAt j + 24 * hour)
  then
    if len (j_Result j) <=? JobResultLimit then
      match unmarshalResult (j_Result j) with
      | None => v
      | Some result =>
          match normalizedBytes result (j_ResultPolicy j) with
          | Ok _ => {| v with v_Evidence := n_Evidence result; v_Signals := n_Signals result |}
          | Err _ => v
          end
      end
    else v
  else v.

(** [strings.TrimPrefix(path, JobsPath+"/")], when the prefix is there. *)
Definition job_path_id (path : string) : option string :=
  let prefix := JobsPath +:+ "/" in
  if String.prefix prefix path
  then Some (String.substring (String.length prefix) (String.length path - String.length prefix) path)
  else None.

(** The classifier of [submit]: the scan, restricted to what the profile
    admits. *)
Definition profile_classifier (profile : APIProfile) (scan : IngressClassifier) : IngressClassifier :=
  λ content,
    match scan content with
    | Err _ => Err ErrStoreUnavailable
    | Ok static =>
        if bool_decide (static = "unknown") && pf_AllowUnknown profile
           || bool_decide (static = "suspicious") && pf_AllowSuspicious profile
        then Ok static else Err (cerr Invalid)
    end.

Definition evidence_known (e : string) : bool := mem e [EvidenceMalicious; EvidenceSuspicious; EvidenceNoSignal].

(** [submit] *)
Definition submit (others : string → M unit) (profiles : string → string → option APIProfile)
    (scan : string → IngressClassifier) (r : APIRequest) (tenant : string) : M APIResponse :=
  match ar_Header r "Content-Type", ar_Header r "X-Mailstrix-CAPE-Profile" with
  | [contentType], [name] =>
      match ar_media r contentType with
      | None => mret (apiError 400 "invalid")
      | Some (media, params) =>
          if bool_decide (to_lower media ≠ "application/octet-stream") || negb (params =? 0)
             || negb (Z.of_nat (length (ar_Header r "Content-Encoding")) =? 0) || negb (identifier name 128)
          then mret (apiError 400 "invalid")
          else match profiles tenant name with
               | None => mret (apiError 400 "invalid_profile")
               | Some profile =>
                   if negb (identifier (pf_Generation profile) 128)
                      || negb (identifier (pf_SubmissionPolicy profile) 128)
                      || negb (identifier (pf_ResultPolicy profile) 128)
                      || negb (pf_AllowUnknown profile) && negb (pf_AllowSuspicious profile)
                   then mret (apiError 503 "unavailable")
                   else
                     x ← try (EnqueueClassified cfg others
                       (mkRequest tenant (pf_Generation profile) (pf_SubmissionPolicy profile)
                          (pf_ResultPolicy profile) "")
                       (ar_Body r) (Some (profile_classifier profile (scan tenant))));
                     match x with
                     | Err e => mret (apiStoreError e)
                     | Ok admission =>
                         let id := j_ID (ad_Job admission) in
                         let location := JobsPath +:+ "/" +:+ id in
                         if ad_Reused admission then
                           t ← clockNow;
                           let view := publicJob (ad_Job admission) t in
                           if evidence_known (v_Evidence view)
                           then mret (mkResponse 200 "" false location (BodyAccepted id location))
                           else if bool_decide (v_Evidence view = "pending")
                           then mret (mkResponse 202 "" true location (BodyAccepted id location))
                           else mret {| (apiError 409 "unavailable") with w_location := location |}
                         else mret (mkResponse 202 "" true location (BodyAccepted id location))
                     end
               end
      end
  | _, _ => mret (apiError 400 "invalid")
  end.

(** [ServeHTTP]; [authenticated] is the tenant of the request, if any. *)
Definition ServeHTTP (others : string → M unit) (profiles : string → string → option APIProfile)
    (scan : string → IngressClassifier) (enabled : bool) (authenticated : option string)
    (r : APIRequest) : M APIResponse :=
  if negb enabled then mret (apiError 503 "unavailable")
  else match authenticated with
       | None => mret (apiError 401 "unauthorized")
       | Some tenant =>
           if negb (identifier tenant 128) then mret (apiError 401 "unauthorized")
           else if bool_decide (ar_RawQuery r ≠ "") then mret (apiError 400 "invalid")
           else if bool_decide (ar_Path r = JobsPath) then
             if bool_decide (ar_Method r ≠ "POST")
             then mret {| (apiError 405 "method") with w_allow := "POST" |}
             else submit others profiles scan r tenant
           else match job_path_id (ar_Path r) with
                | None => mret (apiError 404 "not_found")
                | Some id =>
                    if negb (opaqueJobID id) then mret (apiError 404 "not_found")
                    else if bool_decide (ar_Method r ≠ "GET") && bool_decide (ar_Method r ≠ "DELETE")
                    then mret {| (apiError 405 "method") with w_allow := "GET, DELETE" |}
                    else
                      x ← try (if bool_decide (ar_Method r = "GET") then Lookup tenant id else Cancel tenant id);
                      match x with
                      | Err e => mret (apiStoreError e)
                      | Ok j =>
                          t ← clockNow;
                          let view := publicJob j t in
                          mret (mkResponse 200 "" (bool_decide (v_Evidence view = "pending")) "" (BodyJob view))
                      end
                end
       end.

(** ** What a view discloses *)

Lemma evidence_known_iff e : evidence_known e = true ↔
  e = EvidenceMalicious ∨ e = EvidenceSuspicious ∨ e = EvidenceNoSignal.
Proof. unfold evidence_known. rewrite mem_true, !elem_of_cons, elem_of_nil. tauto. Qed.

(** The job holds evidence it may show at [now]. *)
Definition disclosable (j : Job) (now : Time) : bool :=
  bool_decide (j_State j = Completed) && negb (j_Suppressed j) && negb (IsZero (j_TerminalAt j))
  && Before now (j_TerminalAt j + 24 * hour) && (len (j_Result j) <=? JobResultLimit).

(** Evidence is shown only for a completed, unsuppressed job inside its
    retention, and only as the stored result states it under the job's own
    policy; signals never appear without it; "pending" means an active job
    before its deadlines whose report has not failed. *)
Theorem publicJob_evidence j now :
  let v := publicJob j now in
  (evidence_known (v_Evidence v) = true ↔ disclosable j now = true
     ∧ ∃ n b, unmarshalResult (j_Result j) = Some n ∧ normalizedBytes n (j_ResultPolicy j) = Ok b
              ∧ v_Evidence v = n_Evidence n ∧ v_Signals v = n_Signals n)
  ∧ (evidence_known (v_Evidence v) = false → v_Signals v = [])
  ∧ (0 <= now → v_Evidence v = "pending" → now < pending_deadline j
       ∧ terminal (j_State j) = false ∧ now < j_AnalysisDeadline j
       ∧ (j_State j = Fetching → j_Reason j = "")).
Proof.
  cbn zeta. unfold publicJob, disclosable.
  set (v0 := mkAPIJob _ _ _ _ _ _ _ _ _ _).
  assert (evidence_known (v_Evidence v0) = false ∧ v_Signals v0 = []) as [Hk0 Hs0].
  { split; [|done]. unfold v0. cbn [v_Evidence]. by case_match. }
  assert (0 <= now → v_Evidence v0 = "pending" → now < pending_deadline j
       ∧ terminal (j_State j) = false ∧ now < j_AnalysisDeadline j
       ∧ (j_State j = Fetching → j_Reason j = "")) as Hp0.
  { intros Hn. unfold v0. cbn [v_Evidence]. case_match eqn:Hb; [intros _|done].
    apply andb_true_iff in Hb as [Hd Hf]. apply Z.ltb_lt in Hd. split; [done|].
    rewrite negb_true_iff, andb_false_iff, !bool_decide_eq_false in Hf.
    unfold pending_deadline, Before in Hd.
    destruct (j_State j); simpl; (repeat case_match; bool_hyps; split_and!; try done; try lia);
      intros _; destruct Hf as [Hf|Hf]; (congruence || by apply dec_stable). }
  assert (∀ P : Prop, ¬ P → (evidence_known (v_Evidence v0) = true ↔ P)) as Hno.
  { intros P HP. rewrite Hk0. split; [done|]. intros H. by destruct (HP H). }
  destruct (bool_decide _ && _ && _ && _); [|split_and!; [apply Hno; by intros []|done|done]].
  destruct (len (j_Result j) <=? JobResultLimit); [|split_and!; [apply Hno; by intros []|done|done]].
  destruct (unmarshalResult (j_Result j)) as [n|]; [|split_and!; [apply Hno; naive_solver|done|done]].
  destruct (normalizedBytes n (j_ResultPolicy j)) as [b|] eqn:Hn;
    [|split_and!; [apply Hno; intros (_&n'&b'&[= <-]&?&_); congruence|done|done]].
  cbn [v_Evidence v_Signals]. apply normalizedBytes_iff in Hn as Hspec.
  destruct Hspec as (_&_&_&_&Hev&_).
  assert (evidence_known (n_Evidence n) = true) as Hk.
  { apply evidence_known_iff. destruct Hev as [[[?|?] _]|[? _]]; auto. }
  rewrite Hk. split_and!; [|done|].
  - split; [|done]. intros _. split; [done|]. by exists n, b.
  - intros _ Hpe. by rewrite Hpe in Hk.
Qed.

(** ** What a response may carry *)
Context {EOk : CapeEnvOk E} (Hcfg : limits_ok cfg).

(** The body of a response, for the tenant it is sent to. *)
Definition body_owned (tenant : string) (r : APIRequest) (s : St) (b : APIBody) : Prop :=
  match b with
  | BodyError _ => True
  | BodyJob v => ∃ j t, job_path_id (ar_Path r) = Some (j_ID j) ∧ j_Tenant j = tenant
      ∧ jobOf (jobs (db s)) (j_ID j) = Some j ∧ v = publicJob j t
  | BodyAccepted id location => ∃ j, j_ID j = id ∧ j_Tenant j = tenant
      ∧ jobOf (jobs (db s)) id = Some j ∧ location = JobsPath +:+ "/" +:+ id
  end.

(** The Location header, where there is one. *)
Definition location_owned (tenant : string) (s : St) (location : string) : Prop :=
  location ≠ "" → ∃ j, jobOf (jobs (db s)) (j_ID j) = Some j ∧ j_Tenant j = tenant
    ∧ location = JobsPath +:+ "/" +:+ j_ID j.

Lemma no_location tenant s : location_owned tenant s "".
Proof. by intros []. Qed.

#[local] Hint Resolve no_location : core.

Definition response_owned (authenticated : option string) (r : APIRequest) (s : St) (w : APIResponse) : Prop :=
  match authenticated with
  | Some tenant => body_owned tenant r s (w_body w) ∧ location_owned tenant s (w_location w)
  | None => ∃ status code, w = apiError status code
  end.

Lemma apiStoreError_owned tenant r s e : response_owned (Some tenant) r s (apiStoreError e).
Proof. unfold apiStoreError. repeat case_match; by split. Qed.

(** What a request does to the store, and what its response carries. *)
Definition answered (rm : bool) (own : string → Prop) (s : St) (P : APIResponse → St → Prop)
    (x : res APIResponse) (s' : St) : Prop :=
  Inv cfg s' ∧ evolves rm own s s' ∧ match x with Ok w => P w s' | Err _ => False end.

Lemma wp_submit rm own others profiles scan r tenant s :
  respectful cfg rm own others → Inv cfg s →
  wp (submit others profiles scan r tenant) (answered rm own s (λ w s', response_owned (Some tenant) r s' w)) s.
Proof.
  intros Ho Hinv. unfold submit, answered. assert (evolves rm own s s) as Hrefl by reflexivity.
  destruct (ar_Header r "Content-Type") as [|ct [|]]; [by wp_step| |by wp_step].
  destruct (ar_Header r "X-Mailstrix-CAPE-Profile") as [|name [|]]; [by wp_step| |by wp_step].
  destruct (ar_media r ct) as [[media params]|]; [|by wp_step]. wp_step; [by wp_step|].
  wp_step; [|by wp_step]. wp_step; [by wp_step|]. wp_step. wp_step. unfold EnqueueClassified.
  eapply wp_mono; [by apply (wp_enqueue cfg Hcfg rm own)|]. intros [ad|e] s1 (Hinv1&Hev1&Had).
  2:{ wp_step. split; [done|]. split; [done|]. apply apiStoreError_owned. }
  destruct Had as (body&_&_&Hq&(Ht&_)&_).
  assert (body_owned tenant r s1 (BodyAccepted (j_ID (ad_Job ad)) (JobsPath +:+ "/" +:+ j_ID (ad_Job ad)))) as Hb
    by (by exists (ad_Job ad)).
  assert (location_owned tenant s1 (JobsPath +:+ "/" +:+ j_ID (ad_Job ad))) as Hl by (intros _; by exists (ad_Job ad)).
  wp_go; by split_and!.
Qed.

Lemma wp_ServeHTTP rm own others profiles scan enabled authenticated r s :
  respectful cfg rm own others → Inv cfg s →
  wp (ServeHTTP others profiles scan enabled authenticated r)
     (answered rm own s (λ w s', response_owned authenticated r s' w)) s.
Proof.
  intros Ho Hinv. assert (evolves rm own s s) as Hrefl by reflexivity. unfold ServeHTTP, response_owned, answered. wp_step.
  { wp_step. split_and!; [done|done|]. destruct authenticated; [done|by eexists _, _]. }
  destruct authenticated as [tenant|]; [|wp_step; split_and!; [done|done|by eexists _, _]].
  wp_step; [by wp_step|]. wp_step; [by wp_step|]. wp_step.
  { wp_step; [by wp_step|by apply wp_submit]. }
  destruct (job_path_id (ar_Path r)) as [id|] eqn:Hid; [|by wp_step].
  wp_step; [by wp_step|]. wp_step; [by wp_step|]. wp_step. wp_step.
  destruct (bool_decide (ar_Method r = "GET")).
  - apply (wp_Lookup cfg); [done|..].
    + intros j Hj Hjid Ht. wp_go. split; [done|]. split; [done|]. split; [|done]. exists j, t. by rewrite Hjid.
    + intros e. wp_step. split; [done|]. split; [done|]. apply apiStoreError_owned.
  - eapply wp_mono; [by apply (wp_Cancel cfg)|]. intros [j|e] s1 (Hinv1&Hup&Hp);
      pose proof (updates_evolves rm own _ _ Hup).
    + destruct Hp as [(j0&t0&_&Hi&Ht&Hj&Heq) _]. pose proof (cancelled_identity j0 t0) as [? ?].
      rewrite <- Heq in *. wp_go. split; [done|]. split; [done|]. split; [|done]. exists j, t. split_and!; congruence.
    + wp_step. split; [done|]. split; [done|]. apply apiStoreError_owned.
Qed.

(** C5: Every answered request keeps the store consistent, discloses nothing to an
    unauthenticated caller, and a job view, an acceptance or a Location only of a
    stored job that belongs to the authenticated tenant (for a view, the job the
    path names). *)
Theorem ServeHTTP_isolated others profiles scan enabled authenticated r s :
  respectful cfg true (λ _, True) others → Inv cfg s →
  wp (ServeHTTP others profiles scan enabled authenticated r) (λ x s', Inv cfg s' ∧ match x with
    | Ok w => response_owned authenticated r s' w | Err _ => False end) s.
Proof.
  intros Ho Hinv. eapply wp_mono; [by eapply wp_ServeHTTP|]. intros x s' (?&_&?). done.
Qed.

End Api.
