(* ===== verification/CapeSystem.v ===== *)
(** * The job system as a whole

    The operations of the store and of the components around it, composed in
    any order.  An admission, an API request and a scheduler pass leave the
    lock free in the middle: what runs then is a list of operations of their
    own. *)

From Stdlib Require Import ZArith Lia SpecFloat.
From stdpp Require Import base gmap strings list numbers sorting.
From S2P Require Import Prelude GoStd CapeTypes CapeJob CapeJson CapeStore CapeLogic CapeInv CapeLifecycle.
From S2P Require Import CapeSubmission CapeReport CapeReads CapeIngress CapeAdmission CapeCallback.
From S2P Require Import CapeScheduler CapeApi.

Local Open Scope Z_scope.

Section System.
Context {E : CapeEnv} {C : CallbackEnv} {R : ResultEnv} (cfg : StoreConfig).

Inductive operation :=
  | op_enqueue (request : EnqueueRequest) (reads : option (list Read)) (classify : option IngressClassifier)
      (during : list operation)
  | op_http (profiles : string → string → option APIProfile) (scan : string → IngressClassifier) (enabled : bool)
      (authenticated : option string) (r : APIRequest) (during : list operation)
  | op_callback (keys : gmap string callbackKey) (r : callbackRequest)
  | op_cancel (tenant id : string)
  | op_begin (tenant id : string) (version : Z)
  | op_record_submission (tenant id : string) (version : Z) (submission : Submission) (outcome : Code) (backoff : Duration)
  | op_record_status (tenant id : string) (version : Z) (task : TaskRef) (status : string)
  | op_report_error (tenant id : string) (version : Z) (task : TaskRef) (code : Code)
  | op_complete (tenant id : string) (version : Z) (task : TaskRef) (report : option Report)
      (mapper : option ResultMapper) (during : list operation)
  | op_record_deletion (tenant id : string) (version : Z) (task : TaskRef) (state : string) (outcome : Code)
  | op_set_admission (generation : string) (enabled : bool)
  | op_request_token
  | op_iterate (mapper : option ResultMapper) (jitter : Z → option Z) (clients : gset string) (workers : Z)
      (ended : nat → bool) (result : option schedulerResult) (sc : Sched) (during : list operation)
  | op_maintain
  | op_lookup (tenant id : string)
  | op_open_payload (tenant id : string) (version : Z).

(** The callers go on whatever an operation returns. *)
Definition ignore {A} (m : M A) : M unit := try m ;; mret ().

Fixpoint perform (o : operation) : M unit :=
  let all := fix all (l : list operation) : M unit :=
    match l with [] => mret () | o :: l => perform o ;; all l end in
  match o with
  | op_enqueue request reads classify during => ignore (enqueue cfg (λ _, all during) request reads classify)
  | op_http profiles scan enabled authenticated r during =>
      ignore (ServeHTTP cfg (λ _, all during) profiles scan enabled authenticated r)
  | op_callback keys r => ignore (receive keys r)
  | op_cancel tenant id => ignore (Cancel tenant id)
  | op_begin tenant id version => ignore (BeginSubmission cfg tenant id version)
  | op_record_submission tenant id version submission outcome backoff =>
      ignore (RecordSubmission tenant id version submission outcome backoff)
  | op_record_status tenant id version task status => ignore (RecordStatus tenant id version task status)
  | op_report_error tenant id version task code => ignore (recordReportError tenant id version task code)
  | op_complete tenant id version task report mapper during =>
      ignore (CompleteReport (all during) tenant id version task report mapper)
  | op_record_deletion tenant id version task state outcome =>
      ignore (RecordDeletion tenant id version task state outcome)
  | op_set_admission generation enabled => ignore (SetGenerationAdmission generation enabled)
  | op_request_token => ignore (TakeRequestToken cfg)
  | op_iterate mapper jitter clients workers ended result sc during =>
      ignore (run_iteration cfg mapper jitter (all during) clients workers ended result sc)
  | op_maintain => ignore Maintain
  | op_lookup tenant id => ignore (Lookup tenant id)
  | op_open_payload tenant id version => ignore (OpenPayload tenant id version)
  end.

Fixpoint perform_all (l : list operation) : M unit :=
  match l with [] => mret () | o :: l => perform o ;; perform_all l end.

(** Induction on operations, with the ones that run in between. *)
Section Ind.
Context (P : operation → Prop).
Definition during (o : operation) : list operation :=
  match o with
  | op_enqueue _ _ _ d | op_http _ _ _ _ _ d | op_complete _ _ _ _ _ _ d | op_iterate _ _ _ _ _ _ _ d => d
  | _ => []
  end.

Context (Hstep : ∀ o, Forall P (during o) → P o).

Fixpoint operation_nested_ind (o : operation) : P o :=
  let all := fix all (l : list operation) : Forall P l :=
    match l with [] => Forall_nil_2 P | o :: l => Forall_cons_2 P o l (operation_nested_ind o) (all l) end in
  Hstep o (match o return Forall P (during o) with
    | op_enqueue _ _ _ d | op_http _ _ _ _ _ d | op_complete _ _ _ _ _ _ d | op_iterate _ _ _ _ _ _ _ d => all d
    | _ => Forall_nil_2 P
    end).
End Ind.

Context {EOk : CapeEnvOk E} (Hcfg : limits_ok cfg).

(** The relation of an operation that completes. *)
Abbreviation safe := (keeps cfg (evolves true nobody)).

Lemma ignore_safe {A} (m : M A) : safe m → safe (ignore m).
Proof. intros Hm. unfold ignore. auto with mx. Qed.

Lemma perform_all_safe l : Forall (λ o, safe (perform o)) l → safe (perform_all l).
Proof. induction 1; simpl; auto with mx. Qed.

Lemma safe_respectful (m : M unit) : safe m → respectful cfg true nobody (λ _, m).
Proof.
  intros Hm id. eapply keeps_weaken; [|exact Hm]. by intros ? [].
Qed.

Lemma OpenPayload_maintains tenant id version : maintains cfg (OpenPayload tenant id version).
Proof.
  intros s Hinv. unfold OpenPayload. wp_pre. apply (wp_readJob_inv cfg); [done| |done].
  intros j Hj _ _ _. by wp_go.
Qed.

Lemma perform_safe o : safe (perform o).
Proof.
  induction o as [o IH] using operation_nested_ind. apply perform_all_safe in IH.
  destruct o; cbn [during] in IH; simpl; apply ignore_safe.
  - intros s Hinv. eapply wp_mono; [apply (wp_enqueue cfg Hcfg true nobody); [by apply safe_respectful|done]|].
    by intros ?x s' (?&?&_).
  - intros s Hinv. eapply wp_mono; [apply (wp_ServeHTTP cfg Hcfg true nobody); [by apply safe_respectful|done]|].
    by intros ?x s' (?&?&_).
  - by apply keeps_evolves, receive_maintains.
  - by apply keeps_evolves, Cancel_maintains.
  - by apply keeps_evolves, BeginSubmission_maintains.
  - by apply keeps_evolves, RecordSubmission_maintains.
  - by apply keeps_evolves, RecordStatus_maintains.
  - by apply keeps_evolves, recordReportError_maintains.
  - by apply CompleteReport_evolves.
  - by apply keeps_evolves, RecordDeletion_maintains.
  - by apply keeps_evolves, SetGenerationAdmission_maintains.
  - by apply keeps_evolves, TakeRequestToken_maintains.
  - by apply run_iteration_evolves.
  - apply wp_Maintain.
  - apply (keeps_Lookup cfg (evolves true nobody)).
  - apply keeps_evolves, OpenPayload_maintains.
Qed.

(** C1: The system as a whole: whatever operations run, in whatever order and
    nested in whatever way, whatever the clock, the disk and the network
    answer, every reachable state satisfies the store invariant, and every
    job id has only moved along its life: staged, published once by the
    writer of its body, updated legally, and removed only while staged or
    once ended and owing nothing. *)
Theorem system_safe l s : Inv cfg s →
  wp (perform_all l) (λ r s', r = Ok tt ∧ Inv cfg s'
    ∧ ∀ id, rtc (life true) (jobOf (jobs (db s)) id) (jobOf (jobs (db s')) id)) s.
Proof.
  assert (∀ l s, wp (perform_all l) (λ r _, r = Ok tt) s) as Htotal.
  { clear l s. intros l. induction l as [|o l IH]; intros s; simpl; [by wp_step|]. wp_step.
    assert (∀ A (m : M A) s, wp (ignore m) (λ r _, r = Ok tt) s) as Hig.
    { intros A m s'. unfold ignore. wp_step. wp_step. intros ? r s1 ? _. by wp_step. }
    eapply wp_mono; [destruct o; simpl; apply Hig|]. intros ? s1 ->. apply IH. }
  assert (safe (perform_all l)) as Hsafe by (apply perform_all_safe, Forall_true, perform_safe).
  intros Hinv. eapply wp_mono; [apply wp_and; [apply Htotal|by apply Hsafe]|].
  intros r s' (?&?&?&_). done.
Qed.

End System.
