(* ===== verification/CapeExample.v ===== *)
(** * A concrete run of the job system

    An instance of the interfaces in which a document is the job itself and
    every digest is the same, a configuration, and the life of one job; the
    closed instances of the theorems about the store. *)

From Stdlib Require Import ZArith Lia SpecFloat.
From stdpp Require Import base gmap strings list numbers sorting.
From S2P Require Import Prelude GoStd CapeTypes CapeJob CapeJson CapeStore CapeLogic CapeInv CapeLifecycle.
From S2P Require Import CapeSubmission CapeReport CapeReads CapeIngress CapeAdmission CapeRecovery.
From S2P Require Import CapeCallback CapeScheduler CapeClient CapeApi CapeSystem.

Local Open Scope Z_scope.

Definition zeros32 : string := "00000000000000000000000000000000".

#[export] Instance exEnv : CapeEnv := {|
  blob := Job;
  blob_len := λ _, 100;
  marshalJob := Some;
  unmarshalJob := Some;
  validJSON := λ _, true;
  sha256 := λ _, zeros32 |}.

#[export] Instance exEnvOk : CapeEnvOk exEnv.
Proof. split; [by intros j b [= ->]|done]. Qed.

(** The callback interfaces: one document, one event, one MAC. *)
Definition exId : string := hex_encode "0123456789abcdef".
Definition exEventId : string := hex_encode "event-identifier".
Definition exEvent : callbackEvent := mkEvent 1 exEventId "acme" exId "gen1" 7 1000.
Definition exDocument : json :=
  JObj ((λ name, (name, JStr "x")) <$> event_fields).

#[export] Instance exCallbackEnv : CallbackEnv := {|
  CapeCallback.hmac_sha256 := λ _ _, zeros32;
  ParseMediaType := λ _, Some ("application/json", 0);
  decoder_tokens := λ _, mkBody (items_of (tokens_of exDocument)) true;
  unmarshalEvent := λ _, Some exEvent |}.

Definition exResult : NormalizedResult := mkNormalized 1 "result1" EvidenceMalicious ["trojan"].

#[export] Instance exResultEnv : ResultEnv := {| unmarshalResult := λ _, Some exResult |}.

Definition exCfg : StoreConfig :=
  defaultStoreLimits (mkStoreConfig "/var/cape" ["acme"] 0 0 0 0 0 0 0 0 0 0).

Lemma exCfg_ok : limits_ok exCfg.
Proof. by constructor. Qed.

Definition exEmpty : St :=
  mkSt (mkDB ∅ None ∅ ∅ ∅ None) ∅ false false ∅ ∅ "" "" "" "".

Lemma exEmpty_Inv : Inv exCfg exEmpty.
Proof.
  constructor.
  - by intros ???.
  - by intros ???.
  - by intros ????.
  - by intros ??????.
  - split_and!; [done|done|]. by intros t.
  - split; [done|]. by intros t.
Qed.

(** Sixteen random bytes each; all I/O succeeds. *)
Definition exSrc (now : Time) : Src :=
  mkSrc [] now [] ["0123456789abcdef"; "fedcba9876543210"]
    (Some (mkCapacity PhysicalLimit PhysicalLimit 4096)).

Definition exRun {A} (m : M A) (now : Time) (s : St) : res A * St := (m s (exSrc now)).1.

Definition exStart : Time := unix_epoch + 1000 * second.
Definition exRequest : EnqueueRequest := mkRequest "acme" "gen1" "submit1" "result1" "unknown".
Definition exBody : list Read := [mkRead (Some "EICAR") AtEOF].

(** The states of the job's life. *)
Definition exQueued : St := (exRun (perform exCfg (op_enqueue exRequest (Some exBody) None [])) exStart exEmpty).2.
Definition exSubmitting : St := (exRun (perform exCfg (op_begin "acme" exId 2)) exStart exQueued).2.
Definition exTask : TaskRef := mkTaskRef 7 "gen1".
Definition exSubmission : Submission := mkSubmission [exTask] false false.
Definition exPending : St :=
  (exRun (perform exCfg (op_record_submission "acme" exId 3 exSubmission "" 0)) exStart exSubmitting).2.
Definition exFetching : St :=
  (exRun (perform exCfg (op_record_status "acme" exId 4 exTask "reported")) exStart exPending).2.

Definition exDoc : list (string * json) :=
  [("signatures", JArr [JObj [("name", JStr "evil")]]);
   ("info", JObj [("id", JNum "7"); ("category", JStr "file")]);
   ("target", JObj [("category", JStr "file"); ("file", JObj [("sha256", JStr (hex_encode zeros32))])])].
Definition exReport : Report := mkReport exDoc exTask zeros32.
Definition exMapper : ResultMapper := λ r policy, (r, Ok {| exResult with n_Policy := policy |}).
Definition exCompleted : St :=
  (exRun (perform exCfg (op_complete "acme" exId 5 exTask (Some exReport) (Some exMapper) [])) exStart exFetching).2.

Definition exState (s : St) : option JobState := j_State <$> jobOf (jobs (db s)) exId.

Example exLife : exState <$> [exEmpty; exQueued; exSubmitting; exPending; exFetching; exCompleted]
  = [None; Some Queued; Some Submitting; Some RemotePending; Some Fetching; Some Completed].
Proof. vm_compute. reflexivity. Qed.

(** ** The states are reachable *)

Lemma wp_at {A} (m : M A) (Q : res A → St → Prop) s now : wp m Q s → Q (exRun m now s).1 (exRun m now s).2.
Proof.
  intros H. unfold exRun. destruct (m s (exSrc now)) as [[r s'] o'] eqn:Hm. by apply (H _ _ _ _ Hm).
Qed.

Lemma perform_Inv o now s : Inv exCfg s → Inv exCfg (exRun (perform exCfg o) now s).2.
Proof.
  intros Hinv. apply (wp_at _ (λ _ s', Inv exCfg s')). eapply wp_mono; [by apply (perform_safe exCfg exCfg_ok)|].
  by intros r s' [? _].
Qed.

Lemma exQueued_Inv : Inv exCfg exQueued.
Proof. apply perform_Inv, exEmpty_Inv. Qed.

Lemma exSubmitting_Inv : Inv exCfg exSubmitting.
Proof. apply perform_Inv, exQueued_Inv. Qed.

Lemma exPending_Inv : Inv exCfg exPending.
Proof. apply perform_Inv, exSubmitting_Inv. Qed.

Lemma exFetching_Inv : Inv exCfg exFetching.
Proof. apply perform_Inv, exPending_Inv. Qed.

Lemma exCompleted_Inv : Inv exCfg exCompleted.
Proof. apply perform_Inv, exFetching_Inv. Qed.

(** Interference that does nothing suits every writer. *)
Lemma idle_respectful rm own : respectful exCfg rm own (λ _, mret ()).
Proof. intros id. apply (keeps_ret exCfg _). Qed.

(** ** Closed instances *)

Lemma system_safe_witness :
  let ops := [op_enqueue exRequest (Some exBody) None [op_maintain; op_cancel "acme" exId]; op_maintain] in
  let x := exRun (perform_all exCfg ops) exStart exSubmitting in
  x.1 = Ok tt ∧ Inv exCfg x.2
  ∧ ∀ id, rtc (life true) (jobOf (jobs (db exSubmitting)) id) (jobOf (jobs (db x.2)) id).
Proof. exact (wp_at _ _ _ _ (system_safe exCfg exCfg_ok _ _ exSubmitting_Inv)). Defined.


Lemma recover_reconciles_witness :
  let x := exRun (recover map_to_list map_to_list) exStart exSubmitting in
  x.1 = Ok tt ∧ Inv exCfg x.2
  ∧ ∀ id, jobOf (jobs (db x.2)) id = jobOf (jobs (db exSubmitting)) id ≫= recovered_job.
Proof.
  assert ((exRun (recover map_to_list map_to_list) exStart exSubmitting).1 = Ok tt) as Hok by by vm_compute.
  destruct (wp_at _ _ _ exStart (recover_reconciles exCfg map_to_list map_to_list (λ _, reflexivity _)
    (λ _, reflexivity _) exSubmitting exSubmitting_Inv)) as [Hinv H].
  split; [exact Hok|]. split; [exact Hinv|]. exact (proj1 (H Hok)).
Defined.

Lemma Cancel_spec_witness :
  let x := exRun (Cancel "acme" exId) exStart exSubmitting in
  is_ok x.1 = true ∧ Inv exCfg x.2 ∧ updates exSubmitting x.2 ∧ match x.1 with
    | Ok j => cancel_post "acme" exId exSubmitting j x.2 ∧ (j_State j ≠ Staging → spool x.2 !! blob_name exId = None)
    | Err _ => True end.
Proof. split; [by vm_compute|]. exact (wp_at _ _ _ _ (Cancel_spec exCfg "acme" exId _ exSubmitting_Inv)). Defined.

Lemma Maintain_evolves_witness :
  let x := exRun Maintain (exStart + 25 * hour) exSubmitting in
  exState x.2 = Some Expired ∧ Inv exCfg x.2
  ∧ ∀ id, rtc (life true) (jobOf (jobs (db exSubmitting)) id) (jobOf (jobs (db x.2)) id).
Proof.
  split; [by vm_compute|].
  destruct (wp_at _ _ _ (exStart + 25 * hour) (Maintain_evolves exCfg exSubmitting exSubmitting_Inv)) as (H1&H2&_).
  exact (conj H1 H2).
Defined.

Lemma BeginSubmission_begins_witness :
  let x := exRun (BeginSubmission exCfg "acme" exId 2) exStart exQueued in
  is_ok x.1 = true ∧ ∀ j', x.1 = Ok j' → begun exCfg "acme" exId 2 exQueued j' ∧ jobOf (jobs (db x.2)) exId = Some j'
    ∧ liveAttempts x.2 = <[exId := "acme"]> (liveAttempts exQueued).
Proof.
  split; [by vm_compute|]. exact (wp_at _ _ _ _ (BeginSubmission_begins exCfg "acme" exId 2 _ exQueued_Inv)).
Defined.

Lemma RecordSubmission_classifies_witness :
  let x := exRun (RecordSubmission "acme" exId 3 exSubmission "" 0) exStart exSubmitting in
  is_ok x.1 = true ∧ ∀ j', x.1 = Ok j' → ∃ p, jobOf (jobs (db exSubmitting)) exId = Some p ∧ j_Tenant p = "acme"
     ∧ attempt_matches p 3 = true ∧ legal p j' ∧ classified p exSubmission "" j'
     ∧ jobOf (jobs (db x.2)) exId = Some j' ∧ liveAttempts x.2 = delete exId (liveAttempts exSubmitting).
Proof.
  split; [by vm_compute|].
  exact (wp_at _ _ _ _ (RecordSubmission_classifies exCfg "acme" exId 3 exSubmission "" 0 _ exSubmitting_Inv)).
Defined.

Lemma CompleteReport_outcome_witness :
  let x := exRun (CompleteReport (mret ()) "acme" exId 5 exTask (Some exReport) (Some exMapper)) exStart exFetching in
  is_ok x.1 = true ∧ ∀ j', x.1 = Ok j' → jobOf (jobs (db x.2)) exId = Some j' ∧ j_Tenant j' = "acme"
    ∧ report_outcome exTask (Some exReport) (Some exMapper) 5 j'.
Proof.
  split; [by vm_compute|].
  exact (wp_at _ _ _ _ (CompleteReport_outcome exCfg nobody (mret ()) "acme" exId 5 exTask (Some exReport)
    (Some exMapper) _ exFetching_Inv (keeps_ret exCfg _ ()))).
Defined.

(** *** The API *)
Definition exGet : APIRequest :=
  mkAPIRequest "GET" (JobsPath +:+ "/" +:+ exId) "" (λ _, []) (λ _, None) None.

Lemma ServeHTTP_isolated_witness :
  let x := exRun (ServeHTTP exCfg (λ _, mret ()) (λ _ _, None) (λ _ _, Err EOther) true (Some "acme") exGet)
             (exStart + hour) exCompleted in
  (∃ w v, x.1 = Ok w ∧ w_body w = BodyJob v ∧ v_Evidence v = EvidenceMalicious)
  ∧ Inv exCfg x.2 ∧ match x.1 with Ok w => response_owned (Some "acme") exGet x.2 w | Err _ => False end.
Proof.
  split; [vm_compute; by eexists _, _|].
  exact (wp_at _ _ _ _ (ServeHTTP_isolated exCfg exCfg_ok (λ _, mret ()) (λ _ _, None) (λ _ _, Err EOther) true
    (Some "acme") exGet _ (idle_respectful _ _) exCompleted_Inv)).
Defined.

(** *** Reports *)
Definition exRules : list SignatureRule := [mkRule "evil" "trojan" EvidenceMalicious].

Lemma Normalize_spec_witness : ∃ m n,
  NewSignatureMapper "result1" exRules = Ok m ∧ Normalize (Some m) (λ _, true) (Some exReport) "result1" = Ok n
  ∧ n_Evidence n = EvidenceMalicious ∧ "trojan" ∈ n_Signals n.
Proof.
  eexists _, _. assert (∀ m n, NewSignatureMapper "result1" exRules = Ok m →
    Normalize (Some m) (λ _, true) (Some exReport) "result1" = Ok n → n_Evidence n = EvidenceMalicious →
    "trojan" ∈ n_Signals n) as H.
  { intros m n Hm Hn He. destruct (Normalize_spec _ _ _ _ _ _ Hm Hn) as (_&_&Hs&Hev&_).
    destruct (proj1 Hev He) as (rule&Hin&Hr&_). apply Hs. exists rule. split; [done|]. split; [done|].
    apply list_elem_of_singleton in Hin. by rewrite Hin. }
  split; [vm_compute; reflexivity|]. split; [vm_compute; reflexivity|]. split; [reflexivity|].
  apply (H _ _ ltac:(vm_compute; reflexivity) ltac:(vm_compute; reflexivity) eq_refl).
Defined.

(** *** Callbacks *)
Definition exKey : BridgeKey := mkKey "key1" zeros32 ["acme"] ["gen1"] exStart (exStart + day).
Definition exKeys : gmap string callbackKey :=
  match validateCallbackKeys (Some ["acme"]) (mkCallbackConfig [exKey] 0) with Ok m => m | Err _ => ∅ end.

Definition exCallback : callbackRequest :=
  mkCallbackRequest true "POST" CallbackPath "" false 2
    (λ name, if bool_decide (name = "X-Cape-Key-ID") then ["key1"]
             else if bool_decide (name = "X-Cape-Event-ID") then [exEventId]
             else if bool_decide (name = "X-Cape-Timestamp") then ["1000"]
             else if bool_decide (name = "X-Cape-Signature") then [hex_encode zeros32] else [])
    (Some "{}").

Lemma validateCallbackKeys_rotation_witness :
  validateCallbackKeys (Some ["acme"]) (mkCallbackConfig [exKey] 0) = Ok exKeys ∧ keys_ok 0 exKeys.
Proof.
  assert (validateCallbackKeys (Some ["acme"]) (mkCallbackConfig [exKey] 0) = Ok exKeys) as H by (vm_compute; reflexivity).
  split; [exact H|]. exact (proj1 (validateCallbackKeys_rotation _ _ _ H)).
Defined.

Lemma receive_accepted_witness :
  let x := exRun (receive exKeys exCallback) exStart exPending in
  x.1 = Ok 202 ∧ ∃ body keyID event seconds key e, authentic exKeys exCallback body keyID event seconds key e
    ∧ callback_effect keyID event seconds key e exPending x.2.
Proof.
  assert ((exRun (receive exKeys exCallback) exStart exPending).1 = Ok 202) as H by by vm_compute.
  split; [exact H|].
  pose proof (receive_accepted exCfg exKeys exCallback exPending exPending_Inv) as Hw.
  apply (wp_at _ _ _ exStart) in Hw. specialize (Hw H).
  destruct Hw as (body&keyID&event&seconds&key&e&_&_&Ha&Hc).
  exists body, keyID, event, seconds, key, e. exact (conj Ha Hc).
Defined.

(** *** The scheduler *)
Definition exJob (s : St) : Job :=
  default (staged_job exCfg exRequest "" "") (jobOf (jobs (db s)) exId).
Definition exOutcome : schedulerResult :=
  mkResult (exJob exSubmitting) "submit" no_task exSubmission "" None "" None.

Lemma persistPendingContext_keeps_witness :
  let x := exRun (persistPendingContext None (λ _, None) (mret ()) (λ _, false) [exOutcome]) exStart exSubmitting in
  x.1 = Ok [] ∧ outcome_stored exOutcome x.2.
Proof.
  assert ((exRun (persistPendingContext None (λ _, None) (mret ()) (λ _, false) [exOutcome]) exStart exSubmitting).1 = Ok [])
    as Hok by by vm_compute.
  split; [exact Hok|].
  assert (Forall (λ r, sr_kind r = "submit" → attempt_known r exSubmitting) [exOutcome]) as Hkn.
  { constructor; [|constructor]. intros _. exists (exJob exSubmitting). split_and!; by vm_compute. }
  pose proof (persistPendingContext_keeps exCfg None (λ _, None) (mret ()) nobody
    (keeps_ret exCfg _ ()) [exOutcome] (λ _, false) exSubmitting exSubmitting_Inv Hkn) as Hw.
  apply (wp_at _ _ _ exStart) in Hw. destruct Hw as (_&rest&Hr&_&H).
  pose proof (eq_trans (eq_sym Hok) Hr) as Heq. injection Heq as <-. destruct (H exOutcome (list_elem_of_here _ _) eq_refl) as [Hn|Hs]; [|exact Hs].
  exact (False_ind _ (not_elem_of_nil exOutcome Hn)).
Defined.

Definition exClients : gset string := {["gen1"]}.

Lemma select_loop_rotates_witness :
  let jobs := [exJob exQueued; {| (exJob exQueued) with j_ID := "other"; j_Tenant := "beta" |}] in
  let o := exSrc (exStart + minute) in
  (src_clock o = [] ∧ fst <$> list_find (candidate exClients ∅ false (src_last o)) jobs = Some 0%nat)
  ∧ select_loop exClients ∅ false "acme" jobs 0 None exQueued o = (Ok (Some 1%nat), exQueued, o).
Proof.
  split; [by vm_compute|].
  etransitivity; [exact (select_loop_rotates exClients ∅ false "acme" _ exQueued (exSrc (exStart + minute)) eq_refl)|].
  vm_compute. reflexivity.
Defined.

Definition exIdle : Sched := mkSched [] ("", "") ∅ [].

Lemma dispatch_loop_ends_witness :
  let x := exRun (dispatch_loop exCfg None (λ _, None) (mret ()) 2 exClients 1 false exIdle [exJob exQueued]) exStart exQueued in
  ∃ sc jobs go, x.1 = Ok (sc, jobs, go) ∧ Z.of_nat (size (sc_live sc)) <= 1.
Proof.
  apply (wp_at _ (λ r _, ∃ sc jobs go, r = Ok (sc, jobs, go) ∧ Z.of_nat (size (sc_live sc)) <= 1)).
  apply (dispatch_loop_ends exCfg None (λ _, None) (mret ()) 2 exClients 1 false exIdle [exJob exQueued] exQueued).
  - vm_compute. lia.
  - by vm_compute.
Defined.

Lemma run_iteration_bounded_witness :
  let x := exRun (run_iteration exCfg None (λ _, None) (mret ()) exClients 1 (λ _, false) (Some exOutcome) exIdle)
             exStart exQueued in
  ∃ sc, x.1 = Ok sc ∧ Z.of_nat (size (sc_live sc)) <= 1
    ∧ ∀ y, Some exOutcome = Some y → last (sc_pending sc) = Some y ∧ sc_live sc !! j_ID (sr_job y) = None.
Proof.
  apply (wp_at _ (λ r _, ∃ sc, r = Ok sc ∧ Z.of_nat (size (sc_live sc)) <= 1
    ∧ ∀ y, Some exOutcome = Some y → last (sc_pending sc) = Some y ∧ sc_live sc !! j_ID (sr_job y) = None)).
  apply (run_iteration_bounded exCfg None (λ _, None) (mret ()) exClients 1 (λ _, false) (Some exOutcome) exIdle exQueued).
  by vm_compute.
Defined.

Lemma retryDelay_bounds_witness :
  uniform (λ n, Some (n - 1)) ∧ 5 * second <= retryDelay (λ n, Some (n - 1)) 3 <= 5 * minute
  ∧ retryDelay (λ n, Some (n - 1)) 3 = 40 * second.
Proof.
  assert (uniform (λ n, Some (n - 1))) as H by (intros n k ? [= <-]; lia).
  split; [exact H|]. split; [exact (proj1 (retryDelay_bounds _ 3 H))|]. by vm_compute.
Defined.

(** *** The client *)
Definition exClient : Client := mkClient "gen1" false 0 ∅.
Definition exExchange : Exchange :=
  mkExchange true (Some "token") false false true (Some (CapeClient.mkResponse 200 (λ _, []) "{}" false)) false exStart "EICAR" false false.
Definition exDecode (_ : string) : body := mkBody (items_of (tokens_of (JObj exDoc))) true.

Lemma Report_identity_witness :
  Report_call exDecode (λ _, None) exClient exTask zeros32 exExchange = Ok exReport
  ∧ reportIdentity (Some exReport) exTask (hex_encode zeros32) = true.
Proof.
  assert (Report_call exDecode (λ _, None) exClient exTask zeros32 exExchange = Ok exReport) as H by (vm_compute; reflexivity).
  split; [exact H|]. exact (proj1 (Report_identity _ _ _ _ _ _ _ H)).
Defined.
